(* ===== verification/_CoqProject ===== *)
-Q . S2P
Prelude.v
Strings.v
Roles.v
Ranges.v
Scalar.v
Rounding.v
Values.v
Quantities.v
Storage.v
Replica.v
ReplicaSafety.v
Consensus.v
Coordinator.v
Paxos.v
Recover.v
Registry.v
Maintenance.v
Resource.v
Resources.v
ResourceOps.v
Conversions.v
Attributes.v
ResourceFormat.v
OperationValidation.v
StatusUpdates.v
StateStorage.v
Registrar.v
Quota.v
QuotaTree.v
QuotaHandler.v
SorterTree.v
DrfSorter.v
SorterAccounts.v
SorterHoldings.v
RandomSorter.v
RoleTree.v
RoleLedger.v
Shrink.v
Allocator.v
OfferCycle.v
AllocatorFrame.v
AllocatorLaws.v
RandomLaws.v
AgentBooks.v
AllocatorBooks.v
AllocatorInvariant.v
OfferSafety.v
OfferRun.v
AllocatorHistory.v
Headroom.v
OfferReturns.v
FrameworkChanges.v
OfferPromises.v
OfferGaps.v
