(* ===== verification/Prelude.v ===== *)
(** * A verification library for clusterd

    clusterd is a cluster manager in C++ (the continuation of Apache Mesos).
    A master keeps a registry of agents and of maintenance schedules; it stores
    the registry in a replicated log, a Multi-Paxos implementation of its own;
    it accounts for resources as named values, hands them out to roles and
    compares them with quotas.  This library models the parts of that program
    that are algorithms rather than effects on the operating system, and proves
    what makes them correct.

    ** The parts and how they interact

    - _Replicated log_ ([src/src/log]).  Every replica ([replica.cpp]) is an
      acceptor with a database ([leveldb.cpp]).  A coordinator
      ([coordinator.cpp]) is elected with one implicit promise for all the
      positions after the end of the log and then writes at consecutive
      positions; the phases that gather the responses of a quorum, and the
      fill process for a single position, are in [consensus.cpp].  A replica
      that was down or is new recovers ([recover.cpp]) and catches up
      ([catchup.cpp]) by filling positions.  A reader ([log.cpp]) reads from
      the local replica.
    - _Registry_ ([src/src/master]).  Operations on a message with the
      admitted, unreachable and gone agents ([registry_operations.cpp]) and
      with the maintenance schedules ([maintenance.cpp]).  The registrar
      ([registrar.cpp]) queues them, applies a batch to its copy of the
      registry and stores the result as one variable of the state storage
      ([src/src/state]), which writes snapshots and diffs to the log.
    - _Values_ ([src/src/common]).  Scalars, ranges and sets ([values.cpp]),
      named quantities and limits ([resource_quantities.cpp]), roles
      ([roles.cpp]), on top of the string helpers of stout.
    - _Resources_ ([src/src/common]).  A resource is a value with a role,
      reservations, a disk and flags; collections of them are added,
      subtracted and compared ([resources.cpp]), offer operations convert them
      ([resources_utils.cpp]) after the master validated the operation
      ([src/src/master/validation.cpp]).
    - _Quota and weights_ ([src/src/master]).  Calls of the operator change
      the quotas and weights of roles: they are checked ([quota.cpp],
      [quota_handler.cpp], [weights_handler.cpp]), stored by registry
      operations, recorded, and offers are rescinded for them.
    - _Sorters_ ([src/src/master/allocator/mesos/sorter]).  The allocator asks
      a sorter in which order roles and frameworks come next.  The DRF sorter
      keeps a tree of them with what each was allocated on every agent, and
      sorts it by dominant share and weight.
    - _Allocator_ ([src/src/master/allocator/mesos/hierarchical.cpp]).  It
      keeps a tree of the roles with quotas, weights, frameworks and
      reservations, in which each role is charged for the roles below it, a
      sorter of the roles and one of the frameworks of each role, and for every
      agent what is in use and what is available.  The master tells it of
      frameworks, agents, quotas and returned resources; in every cycle it
      shuffles the agents and offers what is available, first for unsatisfied
      guarantees and then within the limits, while it holds back the headroom
      that the guarantees of all roles still need.
    - _Status updates_ ([src/src/status_update_manager]).  Updates are kept in
      a stream per operation, written to a file before they are forwarded, and
      sent again until they are acknowledged.

    ** The files

    - [Prelude]: the result type of fallible code, [uint64_t] arithmetic, the
      tactics and hints, and facts on lists.
    - [Strings]: [strings.hpp] and [numify.hpp] of
      [3rdparty/stout/include/stout].
    - [Roles]: [src/src/common/roles.cpp].
    - [Ranges], [Scalar], [Values]: the three kinds of value of
      [src/src/common/values.cpp] and its parser.
    - [Quantities]: [src/src/common/resource_quantities.cpp].
    - [Storage]: [src/src/log/leveldb.cpp], with the records of
      [src/src/messages/log.proto].
    - [Replica]: one definition per handler and query of
      [src/src/log/replica.cpp].  [learned_], [promised_] and [end_] are the
      members [learned], [promised] and [end].
    - [ReplicaSafety]: the histories of one replica as a transition relation
      [rstep] over these handlers.
    - [Consensus]: [src/src/log/consensus.cpp].  A phase is the fold
      ([run_phase]) of its [received] handler over the responses in the order
      they arrive.
    - [Coordinator]: [src/src/log/coordinator.cpp].  Each continuation of a
      future is a definition, [election] and [perform] chain them.
    - [Paxos]: replicas and proposers as one distributed system, [step].
    - [Recover]: [src/src/log/recover.cpp], [src/src/log/catchup.cpp] and the
      reader of [src/src/log/log.cpp].
    - [Registry]: [src/src/master/registry_operations.cpp].
    - [Maintenance]: [src/src/master/maintenance.cpp].
    - [Resource]: one resource: comparison, addition, containment, validation
      ([src/src/common/resources.cpp], first half).  [Resources]: the class of
      that name, whose elements carry a sharing count.  [ResourceOps]: its
      filters, reservations, allocation and lookup.  [Conversions]: the
      conversions of offer operations and [apply].  [Attributes]:
      [src/src/common/attributes.cpp].  [Shrink]: [shrinkResources] and the
      containment of quantities.
    - [ResourceFormat]: the formats before and after reservation refinement
      ([src/src/common/resources_utils.cpp]).
    - [OperationValidation]: the validation of offer operations
      ([src/src/master/validation.cpp], [src/src/common/validation.cpp]).
    - [StatusUpdates]:
      [src/src/status_update_manager/status_update_manager_process.hpp]; a
      step relation over updates, acknowledgements, timers, pauses and
      restarts.
    - [StateStorage]: [src/src/state/in_memory.cpp], [src/src/state/log.cpp]
      and the writer of [src/src/log/log.cpp]: several processes with a cache
      each on one log.
    - [Registrar]: [src/src/master/registrar.cpp]: several masters on one
      storage.
    - [Quota]: [src/src/master/quota.cpp], [src/src/master/weights.cpp] and the
      recovery of quotas; [QuotaTree]: the tree of quotas of
      [src/src/master/quota_handler.cpp]; [QuotaHandler]: the calls of that file
      and of [src/src/master/weights_handler.cpp], interleaved with the registry.
    - [SorterTree]: the tree of clients of a sorter and the operations on it
      ([src/src/master/allocator/mesos/sorter/drf/sorter.hpp]); [DrfSorter]:
      the operations of [DRFSorter]
      ([src/src/master/allocator/mesos/sorter/drf/sorter.cpp]); [SorterAccounts]:
      the allocations in the tree; [SorterHoldings]: what a client holds.
      [RandomSorter]: the operations of [RandomSorter] on the same tree
      ([src/src/master/allocator/mesos/sorter/random]), with the relative
      weights and the weighted shuffle; [Rounding]: the order of doubles that
      the weights need.
    - [RoleTree]: [RoleTree], [Role] and [ScalarResourceTotals] of
      [src/src/master/allocator/mesos/hierarchical.cpp]; a role is at the
      location that its path names, which replaces the pointers between roles.
      [RoleLedger]: the flat table that the tree implements.
    - [Allocator]: the state of [HierarchicalAllocatorProcess] and one
      definition per call of the same file that changes it; the sorters are any
      implementation of the operations [SorterOps] of [sorter.hpp].
      [OfferCycle]: [__generateOffers] and [generateInverseOffers], a definition
      per loop of the two stages.  [AllocatorLaws]: the laws [SorterLaws] that
      the allocator relies on, and the instance for the DRF sorter; [AllocatorFrame]:
      which totals the calls leave as they are;
      [RandomLaws]: the instance for the random sorter.
      [AgentBooks], [AllocatorBooks], [AllocatorInvariant]: the invariants of
      an agent; that the agents, the two kinds of sorters and the tree of roles
      write down the same for what frameworks hold; and of sorters, roles,
      frameworks and quotas together.  [OfferSafety], [OfferRun]: the invariant
      of the cycle, and that every loop keeps it.  [Headroom]: the totals of the
      cluster agree with its agents, and the headroom is free.  [AllocatorHistory],
      [OfferReturns], [FrameworkChanges], [OfferPromises]: the calls keep the
      invariant of the allocator, and what a round promises.  [OfferGaps]: runs
      in which the code departs from its comments or aborts.

    ** How the code is modelled

    Definitions keep the names of the functions they translate and are
    executable.  A member function takes the state of its object and returns
    the new one.  [Try] and [Option<Error>] are [result]; a [CHECK] that fails
    is [Err CheckFailed], and theorems that say that code does not abort say
    that this value is not returned.  Whether a call of the database succeeds,
    in which order responses arrive, when a timer fires and what another
    process answers are arguments or choices of a step relation, so the
    theorems hold for all of them.  Positions and proposals are integers, with
    the wrap-around of [uint64_t] written out ([u64]) where the code adds.
    Repeated fields are lists, sets and maps are [gset] and [gmap].

    ** What the theorems show

    - _Agreement_ ([Paxos]).  If any two quorums of the members intersect, two
      writes that quorums accepted at one position carry the same entry
      ([agreement]), and learned entries agree on all replicas
      ([learned_agreement]), whatever is lost, delayed, reordered or restarted,
      under three assumptions ([orderly]) that the code does not enforce: a
      write does not reach a replica that has performed a newer one at its
      position (without this two entries are accepted by quorums,
      [delayed_write_breaks_agreement], because accepting a write does not raise
      the promise); a learned message takes back no truncation; and a
      coordinator that met a rejection is not used again before it is elected
      again, as the interface demands, although the code keeps it elected
      ([retry_after_rejection_breaks_agreement]).
    - _One replica_ ([ReplicaSafety]).  What it keeps in memory matches its
      disk and no check of its handlers fires ([replica_invariant]), promises
      are kept across failures and restarts ([promise_is_kept]), a restart
      cannot be observed ([restart_transparent]), and [missing] and the range
      read answer exactly ([missing_is_unlearned], [read_range_exact]).  A
      learned message is assumed to agree with what is stored about how far
      the log is truncated ([agrees], the steps of [rstep true]); the code does
      not check that, and [late_learned_forgets_truncation] and
      [late_learned_breaks_promise] show what happens otherwise.
    - _Phases and processes_ ([Consensus], [Coordinator], [Recover]).  Each
      phase ends with a quorum and returns the highest rejection or the value
      Paxos requires; a fill follows it; an election and a write have the
      outcomes the interface documents, or abort in the two cases that
      [perform_outcome] names; recovery decides exactly as described, a
      bootstrap of a new cluster happens once, and a finished catch-up leaves
      nothing missing.
    - _Registry_ ([Registry], [Maintenance]).  Invariants over all sequences of
      operations, and the exact effect of the operations that search, prune or
      merge.  That an agent is known only once needs the checks of the master
      before it admits one (a [vetted] history, [gone_agent_known_twice]).
    - _Values_ ([Ranges], [Scalar], [Values], [Quantities], [Roles]).  The
      operators compute the set-theoretic, exact decimal or pointwise
      operations they stand for, parsing inverts printing, and a role is
      accepted exactly when it is a path of valid components.
    - _Resources_ ([Resource], [Resources], [ResourceOps], [Conversions],
      [ResourceFormat], [OperationValidation]).  The operations keep the
      invariant of the class, sum, difference and containment are the
      pointwise ones on what a collection holds of each kind of resource,
      reservations and formats round-trip, and a validated operation that
      applies exchanges exactly what it names and conserves the quantities of
      the agent.  What validation leaves out ([unchecked]) and canonical forms
      ([wf_resource]) are hypotheses; [grow_empty_volume_loses],
      [range_sum_wraps] and [static_downgrade_loses_principal] show why.
    - _Status updates_ ([StatusUpdates]).  Streams match their files in every
      reachable state, updates of a stream are forwarded in order, a restart
      restores the streams that had received an update and whose file is not
      corrupt, and the retry interval stays in its bounds.
    - _State and registrar_ ([StateStorage], [Registrar]).  Storages of several
      processes on one log implement the versioned storage in memory, as long
      as none writes again after a rejected write before it is elected again
      ([retries], [rejected_truncation_loses_update]); on such a storage, registrars of several masters never lose an update, answer an
      operation only after it is stored, and are fenced off when another
      master has taken over.
    - _Quota_ ([Quota], [QuotaTree], [QuotaHandler]).  The registry operations
      implement a map from roles to quotas, the tree accepts exactly the
      quotas whose guarantees nest, the master, the registry and the allocator
      agree on quotas with calls of the current interface, and rescinding
      offers takes back just enough of them to end within the new limits.
    - _Sorter_ ([SorterTree], [DrfSorter], [SorterAccounts]).  The operations
      implement a set of clients with a flag for the active ones, sorting
      lists exactly these in the order of their shares, the incremental sort of
      [allocated] leaves the tree that a full sort would, and a caller that
      returns only what was allocated never makes a check fail, if resources
      are not shared ([shared_update_fails_check]).
    - _Tree of roles_ ([RoleTree], [RoleLedger]).  The tree implements a flat
      table of roles: calls change it where they name a role, no check fails,
      the tree keeps exactly the roles that matter and their ancestors, and the
      totals of a role are the sums over the roles below it.
    - _Allocator_ ([OfferPromises], [Shrink]).  With any sorter that obeys the
      laws, histories of calls and rounds never fail a check
      ([allocator_never_aborts]); a round conserves what every agent has
      ([round_conserves]), keeps roles with a quota within their limits as far
      as offers to the role itself go ([round_within_limits]), and computes a
      headroom that is really available and leaves what the unsatisfied
      guarantees need of it ([round_leaves_guarantees]); [shrinkResources] keeps as much as its target
      allows ([shrink_to_target]).
    - Theorems about behaviour that departs from what the code or its comments
      intend are stated next to the property they limit, on concrete states.

    ** Bounds, fuel and parameters

    - Loops that consume a string or a list by an index have fuel: the length
      of what is left plus one, since every round consumes an element
      ([tokenize_tokens], [split_fields] and [prune_fuel] show that it is enough).  All other recursion is structural.
    - Theorems about ranges hold for all [uint64_t] bounds; those about
      canonical forms exclude ranges that end at the largest one, where the
      code wraps ([coalesce_wraps_at_max]).  Scalars are exact up to the bound
      [fits], within which binary64 rounding is undone by rounding to three
      decimals.
    - Positions are below the largest [uint64_t] ([valid_position]).
    - Parameters stand for code outside the modelled files:
      [boost::lexical_cast] in the parsers, the conversion of resources in a
      [SlaveInfo] (assumed to keep its id), the parser of IP addresses, the
      bytes of identifiers of status updates, the binary diff of Subversion
      (assumed to be undone by its patch), and the encoding of the registry
      message (assumed to be undone by its parser).
    - The storage on the log is proved for a single name or without diffs,
      since with both its truncation can leave a diff without its snapshot
      ([truncation_orphans_diff]); the registrar, its only user, has one name.
    - Sums of scalar resources are exact in thousandths, the resolution of
      [Scalar].
    - The books of a sorter ([SorterAccounts]) and of the tree of roles
      ([RoleLedger]) are proved for unshared scalar resources; shares, weights
      and their quotients are finite doubles, and weights are not zero (the
      master rejects zero; that it lets through what is not a number,
      [nan_weight_accepted], has no counterpart in the sorters).
    - The generator of a random sorter is the sequence of its draws and
      [std::pow] is a parameter of which nothing is assumed; weights are
      positive doubles ([weight_ok]), as the master checks, and do not become
      so small that a quotient of them is zero.
    - The allocator is proved under the same restriction.  The random orders of
      a round are arguments that are assumed to be permutations.  The histories
      of [allocator_never_aborts] contain the calls of [event] in
      [OfferPromises], in the order in which the master makes them
      ([may_happen]): frameworks and agents come with nothing in use, what is
      returned or put to use was offered before, in one role at a time, a
      framework is removed after its resources were returned, and it does not
      revive or change its roles while it is deactivated, which aborts
      ([revive_while_deactivated]).  The theorems on a round of offers are
      about the states that such a history reaches.

    ** What is not modelled

    The actor library and the rest of stout, the network and ZooKeeper, the
    processes of [log.cpp] that start recovery and watch the membership, timing
    and metrics, the deprecated records of old versions of the log, printing
    other than that of ranges and sets, parsing of resources, the maintenance
    status messages, and the storages on other databases.  Of the allocator,
    the JSON dump, the debug view and the regular expressions of offer
    constraints are not modelled; the calls that remove agents, change
    their totals, add resource providers and apply operations are modelled, but
    are not part of the histories of [allocator_never_aborts].  The validation
    of tasks, executors and frameworks is not modelled.  The master and the
    agent as actors, the containerizers, drivers, authentication and user
    interfaces act mostly on the outside world. *)

From stdpp Require Import base gmap strings list fin_maps.

(** ** Results of fallible operations

    The code reports failure through [Try<T>] (a value or an [Error]) and
    [Option<Error>]; both become [result E A], with the component's own
    enumeration of its errors as [E]. *)

Inductive result (E A : Type) : Type :=
  | Ok (a : A)
  | Err (e : E).
Arguments Ok {E A} a.
Arguments Err {E A} e.

Definition result_bind {E A B : Type} (r : result E A) (k : A -> result E B)
  : result E B :=
  match r with
  | Ok a => k a
  | Err e => Err e
  end.

Definition is_ok {E A : Type} (r : result E A) : bool :=
  match r with Ok _ => true | Err _ => false end.

Declare Scope clusterd_scope.
Delimit Scope clusterd_scope with clusterd.

Notation "'let?' x ':=' c 'in' k" := (result_bind c (fun x => k))
  (at level 10, x pattern, c at level 200, k at level 200)
  : clusterd_scope.

Open Scope clusterd_scope.

#[export] Instance result_eq_dec {E A : Type} `{EqDecision E, EqDecision A} :
  EqDecision (result E A).
Proof. solve_decision. Defined.

(** ** Shared automation *)

Create HintDb clusterd.
Create Rewrite HintDb clusterd.

(** Turn the boolean tests of the modelled code into the propositions they
    decide, everywhere. *)
Ltac breflect :=
  repeat match goal with
  | H : andb _ _ = true |- _ => apply andb_true_iff in H; destruct H
  | H : orb _ _ = false |- _ => apply orb_false_iff in H; destruct H
  | H : negb _ = true |- _ => apply negb_true_iff in H
  | H : negb _ = false |- _ => apply negb_false_iff in H
  | H : bool_decide _ = true |- _ => apply bool_decide_eq_true in H
  | H : bool_decide _ = false |- _ => apply bool_decide_eq_false in H
  | H : Z.eqb _ _ = true |- _ => apply Z.eqb_eq in H
  | H : Z.eqb _ _ = false |- _ => apply Z.eqb_neq in H
  | H : Z.ltb _ _ = true |- _ => apply Z.ltb_lt in H
  | H : Z.ltb _ _ = false |- _ => apply Z.ltb_ge in H
  | H : Z.leb _ _ = true |- _ => apply Z.leb_le in H
  | H : Z.leb _ _ = false |- _ => apply Z.leb_gt in H
  | H : Nat.eqb _ _ = true |- _ => apply Nat.eqb_eq in H
  | H : Nat.eqb _ _ = false |- _ => apply Nat.eqb_neq in H
  | H : Nat.ltb _ _ = true |- _ => apply Nat.ltb_lt in H
  | H : Nat.ltb _ _ = false |- _ => apply Nat.ltb_ge in H
  | H : Nat.leb _ _ = true |- _ => apply Nat.leb_le in H
  | H : Nat.leb _ _ = false |- _ => apply Nat.leb_gt in H
  end.

(** Case analysis on the scrutinee of an [if] or a [match] of the goal. *)
Ltac case_if :=
  match goal with
  | |- context [if ?b then _ else _] => destruct b eqn:?
  end.

Ltac invert H := inversion H; subst; clear H.

(** ** Machine integers *)

(** [uint64_t] values are integers in [[0, 2^64)]; additions wrap. *)
Definition UINT64_MAX : Z := 18446744073709551615.

Definition u64 (z : Z) : Z := (z mod 18446744073709551616)%Z.

Definition is_u64 (z : Z) : Prop := (0 <= z <= UINT64_MAX)%Z.

#[export] Instance is_u64_dec z : Decision (is_u64 z).
Proof. unfold is_u64. apply _. Defined.

Lemma u64_id z : is_u64 z -> u64 z = z.
Proof. unfold is_u64, u64, UINT64_MAX. intros H. apply Z.mod_small. lia. Qed.

Lemma u64_range z : is_u64 (u64 z).
Proof.
  unfold is_u64, u64, UINT64_MAX.
  pose proof (Z.mod_pos_bound z 18446744073709551616). lia.
Qed.

#[export] Hint Resolve u64_id u64_range : clusterd.

(** ** Lists *)

Section ListFacts.
Context {A : Type}.
Implicit Types l : list A.

(** The first index at or after [pos] whose element satisfies [p]: the
    [find_first_of] family of [std::string]. *)
Fixpoint find_from_aux (p : A -> bool) (l : list A) (i : nat) : option nat :=
  match l with
  | [] => None
  | x :: l' => if p x then Some i else find_from_aux p l' (S i)
  end.

Definition find_from (p : A -> bool) (l : list A) (pos : nat) : option nat :=
  find_from_aux p (drop pos l) pos.

(** The longest prefix without, and what follows it. *)
Fixpoint span (p : A -> bool) (l : list A) : list A * list A :=
  match l with
  | [] => ([], [])
  | x :: l' =>
      if p x then let '(a, b) := span p l' in (x :: a, b) else ([], l)
  end.

Lemma find_from_aux_span p l i :
  find_from_aux p l i =
  match snd (span (fun x => negb (p x)) l) with
  | [] => None
  | _ :: _ => Some (i + length (fst (span (fun x => negb (p x)) l)))
  end.
Proof.
  revert i. induction l as [|x l IH]; intros i; [done|]. simpl.
  destruct (p x); simpl; [f_equal; lia|].
  rewrite IH. destruct (span _ l) as [a [|b bs]]; simpl; [done|].
  f_equal. lia.
Qed.

Lemma span_app p l : fst (span p l) ++ snd (span p l) = l.
Proof.
  induction l as [|x l IH]; [done|]. simpl.
  destruct (p x); [|done]. destruct (span p l). simpl in *. by rewrite IH.
Qed.

Lemma span_fst_forall p l : Forall (fun x => p x = true) (fst (span p l)).
Proof.
  induction l as [|x l IH]; [constructor|]. simpl.
  destruct (p x) eqn:E; [|constructor].
  destruct (span p l). simpl in *. by constructor.
Qed.

Lemma span_snd_head p l x l' : snd (span p l) = x :: l' -> p x = false.
Proof.
  induction l as [|y l IH]; simpl; [done|].
  destruct (p y) eqn:E; [|by intros [= -> ->]].
  destruct (span p l). simpl in *. done.
Qed.

Lemma span_snd_length p l : length (snd (span p l)) <= length l.
Proof. rewrite <- (span_app p l) at 2. rewrite length_app. lia. Qed.
End ListFacts.

(** ** Sums *)

Section Sums.
Local Open Scope Z_scope.
Context {A : Type}.
Implicit Types (f g : A -> Z) (l : list A).

Definition zsum f l : Z := foldr (fun x acc => f x + acc) 0 l.

Lemma zsum_cons f x l : zsum f (x :: l) = f x + zsum f l.
Proof. done. Qed.

Lemma zsum_app f l l' : zsum f (l ++ l') = zsum f l + zsum f l'.
Proof. induction l as [|x l IH]; cbn; [done|]. unfold zsum in *. rewrite IH. lia. Qed.

Lemma zsum_perm f l l' : l ≡ₚ l' -> zsum f l = zsum f l'.
Proof. unfold zsum. induction 1; cbn; lia. Qed.

Lemma zsum_le f g l : (forall x, x ∈ l -> f x <= g x) -> zsum f l <= zsum g l.
Proof.
  unfold zsum. induction l as [|x l IH]; cbn; [lia|]. intros H.
  assert (H1 := H x (list_elem_of_here _ _)). assert (H2 := IH (fun y Hy => H y (list_elem_of_further _ _ _ Hy))). lia.
Qed.

Lemma zsum_ext f g l : (forall x, x ∈ l -> f x = g x) -> zsum f l = zsum g l.
Proof. intros H. apply Z.le_antisymm; apply zsum_le; intros x Hx; by rewrite (H x Hx). Qed.

Lemma zsum_nonneg f l : (forall x, x ∈ l -> 0 <= f x) -> 0 <= zsum f l.
Proof.
  unfold zsum. induction l as [|x l IH]; cbn; [lia|]. intros H.
  assert (H1 := H x (list_elem_of_here _ _)). assert (H2 := IH (fun y Hy => H y (list_elem_of_further _ _ _ Hy))). lia.
Qed.
End Sums.
