(* ===== verification/Strings.v ===== *)
(** * stout's string helpers

    The string operations of [3rdparty/stout/include/stout/strings.hpp] that
    roles, values, attributes and resources are parsed with.  A [std::string]
    is a [string]; the algorithms run over its characters ([explode]). *)

From stdpp Require Import base gmap strings list.
From Stdlib Require Import OrdersEx Ascii.
From S2P Require Import Prelude.

Abbreviation char := Ascii.ascii.

Definition explode (s : string) : list char := String.list_ascii_of_string s.
Definition implode (l : list char) : string := String.string_of_list_ascii l.

Lemma explode_implode l : explode (implode l) = l.
Proof. apply String.list_ascii_of_string_of_list_ascii. Qed.

Lemma implode_explode s : implode (explode s) = s.
Proof. apply String.string_of_list_ascii_of_string. Qed.

#[export] Instance explode_inj : Inj (=) (=) explode.
Proof.
  intros s1 s2 H. by rewrite <- (implode_explode s1), H, implode_explode.
Qed.

#[export] Instance implode_inj : Inj (=) (=) implode.
Proof.
  intros l1 l2 H. by rewrite <- (explode_implode l1), H, explode_implode.
Qed.

#[export] Hint Rewrite explode_implode implode_explode : clusterd.

(** ** Ordering

    [std::string] compares byte by byte. *)

Definition strcmp (a b : string) : comparison := String_as_OT.compare a b.

Definition str_lt (a b : string) : Prop := strcmp a b = Lt.

#[export] Instance str_lt_strict : StrictOrder str_lt.
Proof. exact String_as_OT.lt_strorder. Qed.

#[export] Instance str_lt_dec a b : Decision (str_lt a b).
Proof. unfold str_lt. apply _. Defined.

Lemma strcmp_spec a b : CompareSpec (a = b) (str_lt a b) (str_lt b a) (strcmp a b).
Proof. apply String_as_OT.compare_spec. Qed.

Lemma str_lt_ne a b : str_lt a b -> a <> b.
Proof. intros H ->. by apply (irreflexivity str_lt b). Qed.

(** ** Case *)

(** [::tolower] in the C locale. *)
Definition tolower (c : char) : char :=
  let n := Ascii.nat_of_ascii c in
  if (65 <=? n)%nat && (n <=? 90)%nat then Ascii.ascii_of_nat (n + 32) else c.

Definition lower (s : string) : string := implode (map tolower (explode s)).

(** ** Prefixes, suffixes and substrings *)

Fixpoint prefix_of_chars (p s : list char) : bool :=
  match p, s with
  | [], _ => true
  | _ :: _, [] => false
  | a :: p', b :: s' => Ascii.eqb a b && prefix_of_chars p' s'
  end.

Definition startsWith (s prefix : string) : bool :=
  prefix_of_chars (explode prefix) (explode s).

Definition startsWithChar (s : string) (c : char) : bool :=
  match explode s with
  | [] => false
  | x :: _ => Ascii.eqb x c
  end.

Definition endsWithChar (s : string) (c : char) : bool :=
  match last (explode s) with
  | None => false
  | Some x => Ascii.eqb x c
  end.

Fixpoint contains_chars (s sub : list char) : bool :=
  prefix_of_chars sub s ||
  match s with
  | [] => false
  | _ :: s' => contains_chars s' sub
  end.

Definition contains (s substr : string) : bool :=
  contains_chars (explode s) (explode substr).

(** ** Tokenising *)

Definition is_delim (delims : list char) (c : char) : bool :=
  bool_decide (c ∈ delims).

(** The [while (true)] loop of [tokenize] with no [maxTokens]: each round
    starts at [offset], skips delimiters and takes the text up to the next
    one.  [fuel] bounds the rounds; a round consumes at least one character,
    so [S (length s)] rounds reach the [break] ([tokenize_tokens]). *)
Fixpoint tokenize_loop (fuel : nat) (s delims : list char) (offset : nat)
    (tokens : list (list char)) : list (list char) :=
  match fuel with
  | O => tokens
  | S fuel' =>
      match find_from (fun c => negb (is_delim delims c)) s offset with
      | None => tokens
      | Some nonDelim =>
          match find_from (is_delim delims) s nonDelim with
          | None => tokens ++ [drop nonDelim s]
          | Some delim =>
              tokenize_loop fuel' s delims delim
                (tokens ++ [take (delim - nonDelim) (drop nonDelim s)])
          end
      end
  end.

Definition tokenize_chars (s delims : list char) : list (list char) :=
  tokenize_loop (S (length s)) s delims 0 [].

Definition tokenize (s delims : string) : list string :=
  map implode (tokenize_chars (explode s) (explode delims)).

(** The [while (true)] loop of [split] with no [maxTokens]. *)
Fixpoint split_loop (fuel : nat) (s delims : list char) (offset : nat)
    (tokens : list (list char)) : list (list char) :=
  match fuel with
  | O => tokens
  | S fuel' =>
      match find_from (is_delim delims) s offset with
      | None => tokens ++ [drop offset s]
      | Some next =>
          split_loop fuel' s delims (S next)
            (tokens ++ [take (next - offset) (drop offset s)])
      end
  end.

Definition split_chars (s delims : list char) : list (list char) :=
  split_loop (S (length s)) s delims 0 [].

Definition split (s delims : string) : list string :=
  map implode (split_chars (explode s) (explode delims)).

(** [strings::join]. *)
Fixpoint join_chars (sep : list char) (l : list (list char)) : list char :=
  match l with
  | [] => []
  | [x] => x
  | x :: l' => x ++ sep ++ join_chars sep l'
  end.

(** [strings::checkBracketsMatching]. *)
Fixpoint checkBrackets_loop (s : list char) (o c : char) (count : Z) : bool :=
  match s with
  | [] => (count =? 0)%Z
  | x :: s' =>
      let count' :=
        if Ascii.eqb x o then (count + 1)%Z
        else if Ascii.eqb x c then (count - 1)%Z else count in
      if (count' <? 0)%Z then false else checkBrackets_loop s' o c count'
  end.

Definition checkBracketsMatching (s : string) (o c : char) : bool :=
  checkBrackets_loop (explode s) o c 0.

(** [strings::replace s from ""] for a one-character [from]. *)
Definition remove_char (s : string) (c : char) : string :=
  implode (List.filter (fun x => negb (Ascii.eqb x c)) (explode s)).

(** [strings::trim] with the default mode and characters. *)
Definition WHITESPACE : list char := [" "; "009"; "010"; "013"]%char.

Fixpoint drop_while (p : char -> bool) (l : list char) : list char :=
  match l with
  | [] => []
  | x :: l' => if p x then drop_while p l' else l
  end.

Definition trim (from : string) : string :=
  let ws := is_delim WHITESPACE in
  implode (rev (drop_while ws (rev (drop_while ws (explode from))))).

(** ** Reference definitions and the lemmas about them *)

(** The fields of [s]: the maximal runs of non-delimiters, empty ones
    included. *)
Fixpoint fields (d : char -> bool) (s : list char) : list (list char) :=
  match s with
  | [] => [[]]
  | x :: s' =>
      if d x then [] :: fields d s'
      else match fields d s' with
           | [] => [[x]]
           | f :: fs => (x :: f) :: fs
           end
  end.

Definition nonempty_fields (d : char -> bool) (s : list char)
  : list (list char) := List.filter (fun f => negb (bool_decide (f = []))) (fields d s).

Lemma fields_not_nil d s : fields d s <> [].
Proof.
  destruct s as [|x s]; simpl; [done|].
  destruct (d x); [done|]. by destruct (fields d s).
Qed.

Lemma fields_run d a b :
  Forall (fun x => d x = false) a ->
  fields d (a ++ b) =
  match fields d b with
  | [] => [a]
  | f :: fs => (a ++ f) :: fs
  end.
Proof.
  induction 1 as [|x a Hx Ha IH]; simpl.
  - pose proof (fields_not_nil d b). by destruct (fields d b).
  - rewrite Hx, IH. pose proof (fields_not_nil d b). by destruct (fields d b).
Qed.

Lemma nonempty_fields_delims d a b :
  Forall (fun x => d x = true) a ->
  nonempty_fields d (a ++ b) = nonempty_fields d b.
Proof.
  unfold nonempty_fields.
  induction 1 as [|x a Hx Ha IH]; simpl; [done|]. rewrite Hx. simpl. done.
Qed.

Lemma nonempty_fields_skip d x b :
  d x = true -> nonempty_fields d (x :: b) = nonempty_fields d b.
Proof. intros Hx. apply (nonempty_fields_delims d [x]). by constructor. Qed.

Lemma nonempty_fields_run d a x b :
  a <> [] -> Forall (fun x => d x = false) a -> d x = true ->
  nonempty_fields d (a ++ x :: b) = a :: nonempty_fields d (x :: b).
Proof.
  intros Hne Ha Hx. unfold nonempty_fields. rewrite fields_run by done.
  simpl. rewrite Hx, app_nil_r. simpl. by rewrite bool_decide_eq_false_2.
Qed.

Lemma nonempty_fields_last d a :
  a <> [] -> Forall (fun x => d x = false) a -> nonempty_fields d a = [a].
Proof.
  intros Hne Ha. unfold nonempty_fields. rewrite <- (app_nil_r a) at 1.
  rewrite fields_run by done. simpl.
  rewrite app_nil_r. by rewrite bool_decide_eq_false_2.
Qed.

Lemma Forall_negb {A} (d : A -> bool) l :
  Forall (fun x => negb (d x) = true) l -> Forall (fun x => d x = false) l.
Proof. intros H. eapply Forall_impl; [exact H|]. intros x. by rewrite negb_true_iff. Qed.

Lemma Forall_negb_negb {A} (d : A -> bool) l :
  Forall (fun x => negb (negb (d x)) = true) l -> Forall (fun x => d x = true) l.
Proof. intros H. eapply Forall_impl; [exact H|]. intros x Hx. cbn in Hx. by rewrite negb_involutive in Hx. Qed.

Lemma tokenize_loop_spec fuel s delims offset tokens :
  offset <= length s -> length s - offset < fuel ->
  tokenize_loop fuel s delims offset tokens =
  tokens ++ nonempty_fields (is_delim delims) (drop offset s).
Proof.
  revert offset tokens.
  induction fuel as [|fuel IH]; intros offset tokens Hle Hfuel; [lia|]. simpl.
  unfold find_from at 1. rewrite find_from_aux_span.
  set (d := is_delim delims).
  pose proof (span_app (fun x => negb (negb (d x))) (drop offset s)) as Happ.
  pose proof (span_fst_forall (fun x => negb (negb (d x))) (drop offset s)) as Hfst.
  destruct (span _ (drop offset s)) as [a [|x b]] eqn:Esp; simpl in *.
  - rewrite <- Happ, nonempty_fields_delims; [by rewrite app_nil_r|].
    by apply Forall_negb_negb.
  - assert (Hx : d x = false).
    { pose proof (span_snd_head (fun x => negb (negb (d x))) (drop offset s) x b) as H.
      rewrite Esp in H. specialize (H eq_refl). by rewrite negb_involutive in H. }
    assert (Hd : drop (offset + length a) s = x :: b).
    { by rewrite <- drop_drop, <- Happ, drop_app_length. }
    assert (Hlen : offset + length a < length s).
    { apply (f_equal length) in Hd. rewrite length_drop in Hd. simpl in Hd. lia. }
    rewrite <- Happ, nonempty_fields_delims; cycle 1.
    { by apply Forall_negb_negb. }
    unfold find_from. rewrite Hd, find_from_aux_span.
    pose proof (span_app (fun y => negb (d y)) (x :: b)) as Happ2.
    pose proof (span_fst_forall (fun y => negb (d y)) (x :: b)) as Hfst2.
    pose proof (span_snd_head (fun y => negb (d y)) (x :: b)) as Hhd.
    assert (Hne : fst (span (fun y => negb (d y)) (x :: b)) <> []).
    { simpl. rewrite Hx. simpl. by destruct (span _ b). }
    destruct (span (fun y => negb (d y)) (x :: b)) as [r [|y q]]; cbn [fst snd] in *.
    + rewrite app_nil_r in Happ2. rewrite <- Happ2, nonempty_fields_last; [done..|].
      by apply Forall_negb.
    + specialize (Hhd y q eq_refl). apply negb_false_iff in Hhd.
      assert (length r <> 0) by (by destruct r).
      assert (Hq : drop (offset + length a + length r) s = y :: q).
      { by rewrite <- drop_drop, Hd, <- Happ2, drop_app_length. }
      assert (Hlen2 : offset + length a + length r < length s).
      { apply (f_equal length) in Hq. rewrite length_drop in Hq. simpl in Hq. lia. }
      rewrite IH by lia. fold d. rewrite Hq.
      replace (offset + length a + length r - (offset + length a)) with (length r) by lia.
      rewrite <- Happ2, take_app_length, nonempty_fields_run, <- (assoc_L (++)); [done..| |done].
      by apply Forall_negb.
Qed.

(** The loop of [tokenize] reaches its [break] and its tokens are the
    non-empty fields of the input. *)
Lemma tokenize_tokens s delims :
  tokenize_chars s delims = nonempty_fields (is_delim delims) s.
Proof. unfold tokenize_chars. by rewrite tokenize_loop_spec by lia. Qed.

Lemma split_loop_spec fuel s delims offset tokens :
  offset <= length s -> length s - offset < fuel ->
  split_loop fuel s delims offset tokens =
  tokens ++ fields (is_delim delims) (drop offset s).
Proof.
  revert offset tokens.
  induction fuel as [|fuel IH]; intros offset tokens Hle Hfuel; [lia|]. simpl.
  unfold find_from. rewrite find_from_aux_span.
  set (d := is_delim delims).
  pose proof (span_app (fun y => negb (d y)) (drop offset s)) as Happ.
  pose proof (span_fst_forall (fun y => negb (d y)) (drop offset s)) as Hfst.
  pose proof (span_snd_head (fun y => negb (d y)) (drop offset s)) as Hhd.
  destruct (span _ (drop offset s)) as [a [|x b]] eqn:Esp; cbn [fst snd] in *.
  - assert (Ha : Forall (fun z => d z = false) a).
    { by apply Forall_negb. }
    rewrite app_nil_r in Happ. f_equal. rewrite <- Happ.
    rewrite <- (app_nil_r a) at 2. rewrite fields_run by done. simpl.
    by rewrite app_nil_r.
  - specialize (Hhd x b eq_refl). apply negb_false_iff in Hhd.
    assert (Hd : drop (offset + length a) s = x :: b).
    { by rewrite <- drop_drop, <- Happ, drop_app_length. }
    assert (Hlen : offset + length a < length s).
    { apply (f_equal length) in Hd. rewrite length_drop in Hd. simpl in Hd. lia. }
    rewrite IH by lia.
    assert (Hb : drop (S (offset + length a)) s = b).
    { replace (S (offset + length a)) with (offset + length a + 1) by lia.
      by rewrite <- drop_drop, Hd. }
    rewrite Hb, <- Happ.
    replace (offset + length a - offset) with (length a) by lia.
    rewrite take_app_length, fields_run; cycle 1.
    { by apply Forall_negb. }
    simpl. fold d. rewrite Hhd, app_nil_r, <- (assoc_L (++)). done.
Qed.

Lemma split_fields s delims :
  split_chars s delims = fields (is_delim delims) s.
Proof. unfold split_chars. by rewrite split_loop_spec by lia. Qed.
