(* ===== verification/Roles.v ===== *)
(** * Roles

    [src/src/common/roles.cpp]: validation of role names, the ancestors of a
    hierarchical role and the strict-subrole test.  The theorems tie the
    character-level tests of the code to the hierarchy they stand for: a role
    is a non-empty path of components joined by slashes. *)

From stdpp Require Import base gmap strings list.
From Stdlib Require Import Ascii Sorted.
From S2P Require Import Prelude Strings.

Definition slash : char := "/"%char.

(** The errors [roles::validate] returns; [CheckFailure] stands for the abort
    of [CHECK(!component.empty())]. *)
Inductive role_error :=
  | StartsWithSlash
  | EndsWithSlash
  | AdjacentSlashes
  | EmptyRole
  | DotComponent
  | DotDotComponent
  | StarComponent
  | DashComponent
  | InvalidCharacter
  | CheckFailure.

#[export] Instance role_error_eq_dec : EqDecision role_error.
Proof. solve_decision. Defined.

Definition isStrictSubroleOf (left right : string) : bool :=
  (String.length right <? String.length left)
  && bool_decide (explode left !! String.length right = Some slash)
  && startsWith left right.

(** [for (int i = role.size() - 1; i >= 0; --i)]. *)
Fixpoint ancestors_loop (role : list char) (i : nat) : list (list char) :=
  match i with
  | O => []
  | S i' =>
      (if bool_decide (role !! i' = Some slash) then [take i' role] else [])
      ++ ancestors_loop role i'
  end.

Definition ancestors (role : string) : list string :=
  map implode (ancestors_loop (explode role) (length (explode role))).

Definition INVALID_CHARACTERS : list char :=
  ["009"; "010"; "011"; "012"; "013"; " "; "127"]%char.

Definition validate_component (component : list char) : option role_error :=
  if bool_decide (component = []) then Some CheckFailure
  else if bool_decide (component = ["."%char]) then Some DotComponent
  else if bool_decide (component = ["."%char; "."%char]) then Some DotDotComponent
  else if bool_decide (component = ["*"%char]) then Some StarComponent
  else if prefix_of_chars ["-"%char] component then Some DashComponent
  else if existsb (fun c => bool_decide (c ∈ INVALID_CHARACTERS)) component
  then Some InvalidCharacter
  else None.

(** [foreach (component, components)] with its early returns. *)
Fixpoint validate_components (components : list (list char)) : option role_error :=
  match components with
  | [] => None
  | c :: cs =>
      match validate_component c with
      | Some e => Some e
      | None => validate_components cs
      end
  end.

Definition validate (role : string) : option role_error :=
  if bool_decide (role = "*") then None
  else if startsWithChar role slash then Some StartsWithSlash
  else if endsWithChar role slash then Some EndsWithSlash
  else if contains role "//" then Some AdjacentSlashes
  else
    let components := tokenize_chars (explode role) [slash] in
    match components with
    | [] => Some EmptyRole
    | _ => validate_components components
    end.

Fixpoint validate_roles (roles : list string) : option role_error :=
  match roles with
  | [] => None
  | r :: rs =>
      match validate r with
      | Some e => Some e
      | None => validate_roles rs
      end
  end.

Definition parse (text : string) : result role_error (list string) :=
  let roles := tokenize text "," in
  match validate_roles roles with
  | Some e => Err e
  | None => Ok roles
  end.

(** ** The hierarchy *)

Lemma length_explode s : length (explode s) = String.length s.
Proof. induction s; simpl; [done|]. by rewrite IHs. Qed.

Lemma prefix_of_chars_spec p s :
  prefix_of_chars p s = true <-> exists t, s = p ++ t.
Proof.
  revert s. induction p as [|a p IH]; intros s; simpl.
  - split; [|done]. intros _. by exists s.
  - destruct s as [|b s]; simpl.
    + split; [done|]. intros [t [=]].
    + rewrite andb_true_iff, Ascii.eqb_eq, IH. split.
      * intros [-> [t ->]]. by exists t.
      * intros [t [= -> ->]]. eauto.
Qed.

(** [left] lies strictly below [right] in the role tree. *)
Definition strict_subrole (left right : list char) : Prop :=
  exists rest, left = right ++ slash :: rest.

Lemma isStrictSubroleOf_spec left right :
  isStrictSubroleOf left right = true <->
  strict_subrole (explode left) (explode right).
Proof.
  unfold isStrictSubroleOf, strict_subrole, startsWith.
  rewrite !andb_true_iff, bool_decide_eq_true, prefix_of_chars_spec, Nat.ltb_lt.
  rewrite <- !length_explode. split.
  - intros [[Hlt Hget] [t Ht]]. rewrite Ht in *.
    rewrite lookup_app_r, Nat.sub_diag in Hget by lia.
    destruct t as [|c t]; [done|]. simpl in Hget. simplify_eq. by exists t.
  - intros [rest Hrest]. rewrite Hrest, length_app. simpl.
    rewrite lookup_app_r, Nat.sub_diag by lia. split; [split; [lia|done]|eauto].
Qed.

Lemma elem_of_ancestors_loop role n r :
  n <= length role ->
  r ∈ ancestors_loop role n <->
  exists i, i < n /\ role !! i = Some slash /\ r = take i role.
Proof.
  induction n as [|n IH]; intros Hn; simpl.
  - split; [by intros ?%not_elem_of_nil|]. intros (i & ? & _). lia.
  - rewrite elem_of_app, IH by lia. split.
    + intros [H|(i & ? & ?)]; [|exists i; split; [lia|done]].
      case_bool_decide as Hs; [|by apply not_elem_of_nil in H].
      apply list_elem_of_singleton in H. exists n. split; [lia|done].
    + intros (i & Hi & Hs & ->). destruct (decide (i = n)) as [->|].
      * left. rewrite bool_decide_eq_true_2 by done. by apply list_elem_of_singleton.
      * right. exists i. split; [lia|done].
Qed.

Lemma strict_subrole_take role r :
  strict_subrole role r <->
  exists i, role !! i = Some slash /\ r = take i role.
Proof.
  split.
  - intros [rest ->]. exists (length r).
    rewrite lookup_app_r, Nat.sub_diag, take_app_length by lia. done.
  - intros (i & Hs & ->). exists (drop (S i) role).
    by rewrite <- drop_S, take_drop.
Qed.

(** [ancestors] lists exactly the roles strictly above a role. *)
Lemma elem_of_ancestors role r :
  r ∈ ancestors role <-> isStrictSubroleOf role r = true.
Proof.
  rewrite isStrictSubroleOf_spec, strict_subrole_take. unfold ancestors.
  rewrite list_elem_of_fmap. split.
  - intros (l & -> & Hl). apply elem_of_ancestors_loop in Hl as (i & ? & ? & ->); [|done].
    exists i. by rewrite explode_implode.
  - intros (i & Hs & Hr). exists (explode r). rewrite implode_explode.
    split; [done|]. apply elem_of_ancestors_loop; [done|].
    exists i. split; [by eapply lookup_lt_Some|done].
Qed.

(** They come nearest first. *)
Lemma ancestors_loop_sorted role n :
  n <= length role -> StronglySorted strict_subrole (ancestors_loop role n).
Proof.
  induction n as [|n IH]; intros Hn; simpl; [constructor|].
  case_bool_decide as Hs; simpl; [|apply IH; lia].
  constructor; [apply IH; lia|]. apply Forall_forall. intros r Hr.
  apply elem_of_ancestors_loop in Hr as (i & Hi & Hsi & ->); [|lia].
  apply strict_subrole_take. exists i.
  rewrite lookup_take_lt, take_take by lia. split; [done|f_equal; lia].
Qed.

Lemma ancestors_sorted role :
  StronglySorted (fun a b => isStrictSubroleOf a b = true) (ancestors role).
Proof.
  unfold ancestors.
  pose proof (ancestors_loop_sorted (explode role) _ (le_n _)) as H.
  induction H as [|a l Hl IH Ha]; simpl; [constructor|].
  constructor; [done|]. apply Forall_fmap. eapply Forall_impl; [exact Ha|].
  intros b Hb. simpl. rewrite isStrictSubroleOf_spec, !explode_implode. done.
Qed.

(** ** Validation *)

Definition is_slash (c : char) : bool := is_delim [slash] c.

Lemma is_slash_true c : is_slash c = true <-> c = slash.
Proof.
  unfold is_slash, is_delim. by rewrite bool_decide_eq_true, list_elem_of_singleton.
Qed.

Lemma is_slash_false c : is_slash c = false <-> c <> slash.
Proof. rewrite <- is_slash_true. by destruct (is_slash c). Qed.

Lemma join_fields s : join_chars [slash] (fields is_slash s) = s.
Proof.
  induction s as [|x s IH]; [done|]. simpl.
  pose proof (fields_not_nil is_slash s) as Hne.
  destruct (is_slash x) eqn:Ex.
  - apply is_slash_true in Ex as ->. rewrite <- IH at 2.
    by destruct (fields is_slash s).
  - destruct (fields is_slash s) as [|f [|g fs]]; simpl in *; by rewrite <- IH.
Qed.

Lemma fields_join cs :
  cs <> [] -> Forall (fun c => slash ∉ c) cs ->
  fields is_slash (join_chars [slash] cs) = cs.
Proof.
  intros Hne Hcs. induction Hcs as [|c cs Hc Hcs IH]; [done|]. clear Hne.
  assert (Hno : Forall (fun x => is_slash x = false) c).
  { apply Forall_forall. intros x Hx. apply is_slash_false.
    by intros ->. }
  destruct cs as [|c' cs]; simpl.
  - rewrite <- (app_nil_r c) at 1. rewrite fields_run by done. simpl.
    by rewrite app_nil_r.
  - rewrite fields_run by done. cbn [fields].
    replace (is_slash slash) with true by done.
    rewrite app_nil_r. f_equal. by apply IH.
Qed.

Lemma fields_no_slash s f : f ∈ fields is_slash s -> slash ∉ f.
Proof.
  revert f. induction s as [|x s IH]; simpl; intros f Hf.
  - apply list_elem_of_singleton in Hf as ->. apply not_elem_of_nil.
  - destruct (is_slash x) eqn:Ex.
    + apply elem_of_cons in Hf as [->|Hf]; [apply not_elem_of_nil|auto].
    + apply is_slash_false in Ex. pose proof (fields_not_nil is_slash s).
      destruct (fields is_slash s) as [|g gs]; [done|].
      apply elem_of_cons in Hf as [->|Hf].
      * apply not_elem_of_cons. split; [done|]. apply IH. by left.
      * apply IH. by right.
Qed.

Lemma fields_nonempty s :
  s <> [] -> head s <> Some slash -> last s <> Some slash ->
  contains_chars s [slash; slash] = false ->
  Forall (fun f => f <> []) (fields is_slash s).
Proof.
  induction s as [s IH] using (induction_ltof1 _ length).
  intros Hne Hhd Hlast Hcc.
  destruct s as [|x [|y s]]; [done| |].
  - simpl in *. destruct (is_slash x) eqn:Ex.
    + apply is_slash_true in Ex as ->. done.
    + by repeat constructor.
  - assert (Hx : is_slash x = false) by (apply is_slash_false; simpl in *; congruence).
    cbn [contains_chars prefix_of_chars] in Hcc.
    apply orb_false_iff in Hcc as [_ Hcc].
    destruct (is_slash y) eqn:Ey.
    + apply is_slash_true in Ey as ->. simpl. rewrite Hx.
      replace (is_slash slash) with true by done.
      constructor; [done|]. destruct s as [|z s]; [done|].
      cbn [contains_chars prefix_of_chars] in Hcc.
      apply orb_false_iff in Hcc as [Hz Hcc].
      apply IH; [unfold ltof; simpl; lia|done| | |].
      * simpl. intros [= ->]. done.
      * by rewrite !last_cons_cons in Hlast.
      * exact Hcc.
    + assert (Hf : Forall (fun f => f <> []) (fields is_slash (y :: s))).
      { apply IH; [unfold ltof; simpl; lia|done| | |].
        - simpl. intros [= ->]. done.
        - by rewrite last_cons_cons in Hlast.
        - done. }
      cbn [fields] in *. rewrite Hx. rewrite Ey in *.
      destruct (fields is_slash s) as [|f fs]; [by repeat constructor|].
      apply Forall_cons in Hf as [_ Hf]. by constructor.
Qed.

Lemma nonempty_fields_all d s :
  Forall (fun f => f <> []) (fields d s) -> nonempty_fields d s = fields d s.
Proof.
  unfold nonempty_fields. generalize (fields d s) as l.
  induction 1 as [|f fs Hf Hfs IH]; simpl; [done|].
  rewrite bool_decide_eq_false_2 by done. simpl. by rewrite IH.
Qed.

Lemma fields_head_slash s :
  head s = Some slash -> [] ∈ fields is_slash s.
Proof.
  destruct s as [|x s]; simpl; [done|]. intros [= ->].
  replace (is_slash slash) with true by done. by left.
Qed.

Lemma fields_empty_cons x s :
  [] ∈ tail (fields is_slash s) -> [] ∈ tail (fields is_slash (x :: s)).
Proof.
  intros H. simpl. destruct (is_slash x); simpl.
  - destruct (fields is_slash s); simpl in *; [done|]. by right.
  - by destruct (fields is_slash s).
Qed.

Lemma tail_elem_of {A} (x : A) l : x ∈ tail l -> x ∈ l.
Proof. destruct l; simpl; [done|]. by right. Qed.

Lemma fields_last_slash s :
  last s = Some slash -> [] ∈ tail (fields is_slash s).
Proof.
  induction s as [|x s IH]; [done|]. destruct s as [|y s].
  - simpl. intros [= ->]. replace (is_slash slash) with true by done. by left.
  - rewrite last_cons_cons. intros H. by apply fields_empty_cons, IH.
Qed.

Lemma fields_double_slash s :
  contains_chars s [slash; slash] = true -> [] ∈ tail (fields is_slash s).
Proof.
  induction s as [|x s IH]; cbn [contains_chars]; [done|].
  rewrite orb_true_iff, prefix_of_chars_spec. intros [[t [= -> ->]]|H].
  - simpl. replace (is_slash slash) with true by done. simpl. by left.
  - by apply fields_empty_cons, IH.
Qed.

(** A component a role may have. *)
Definition valid_component (c : list char) : Prop :=
  c <> [] /\ c <> ["."%char] /\ c <> ["."%char; "."%char] /\ c <> ["*"%char] /\
  head c <> Some "-"%char /\ (forall x, x ∈ c -> x ∉ INVALID_CHARACTERS).

Lemma validate_component_spec c :
  validate_component c = None <-> valid_component c.
Proof.
  unfold validate_component, valid_component.
  repeat case_bool_decide; try naive_solver.
  destruct c as [|a c]; [done|]. cbn [prefix_of_chars head]. rewrite andb_true_r.
  destruct (Ascii.eqb "-" a) eqn:Ea.
  { apply Ascii.eqb_eq in Ea as <-. naive_solver. }
  apply Ascii.eqb_neq in Ea.
  destruct (existsb _ _) eqn:Ex.
  - split; [done|]. intros (_ & _ & _ & _ & _ & Hx).
    apply existsb_exists in Ex as (x & Hin & Hb). apply bool_decide_eq_true in Hb.
    by destruct (Hx x); [apply list_elem_of_In|].
  - split; [|done]. intros _. repeat split; [done..|congruence|].
    intros x Hin Hbad. enough (existsb (fun c => bool_decide (c ∈ INVALID_CHARACTERS))
      (a :: c) = true) by congruence.
    apply existsb_exists. exists x. split; [by apply list_elem_of_In|].
    by apply bool_decide_eq_true.
Qed.

Lemma validate_components_spec cs :
  validate_components cs = None <-> Forall valid_component cs.
Proof.
  induction cs as [|c cs IH]; simpl.
  - split; [constructor|done].
  - rewrite Forall_cons, <- validate_component_spec, <- IH.
    destruct (validate_component c); naive_solver.
Qed.

Lemma startsWithChar_spec s c : startsWithChar s c = true <-> head (explode s) = Some c.
Proof.
  unfold startsWithChar. destruct (explode s); simpl; [naive_solver|].
  rewrite Ascii.eqb_eq. naive_solver.
Qed.

Lemma endsWithChar_spec s c : endsWithChar s c = true <-> last (explode s) = Some c.
Proof.
  unfold endsWithChar. destruct (last (explode s)); [|naive_solver].
  rewrite Ascii.eqb_eq. naive_solver.
Qed.

(** The well-formed role paths, and the text of one. *)
Definition role_path (cs : list (list char)) : Prop :=
  cs <> [] /\ Forall (fun c => valid_component c /\ slash ∉ c) cs.

Definition role_text (cs : list (list char)) : string :=
  implode (join_chars [slash] cs).

Lemma role_path_fields cs :
  role_path cs -> fields is_slash (join_chars [slash] cs) = cs.
Proof.
  intros [Hne Hcs]. apply fields_join; [done|].
  eapply Forall_impl; [exact Hcs|]. by intros c [_ ?].
Qed.

Lemma role_path_nonempty cs :
  role_path cs -> Forall (fun f => f <> []) cs.
Proof. intros [_ H]. eapply Forall_impl; [exact H|]. by intros c [(?&_) _]. Qed.

Lemma validate_path cs : role_path cs -> validate (role_text cs) = None.
Proof.
  intros Hp. pose proof (role_path_nonempty cs Hp) as Hn.
  pose proof (role_path_fields cs Hp) as Hf. destruct Hp as [Hne Hcs].
  set (s := join_chars [slash] cs) in *.
  assert (Hno : [] ∉ fields is_slash s).
  { rewrite Hf. intros Hin. rewrite Forall_forall in Hn.
    by apply (Hn []). }
  unfold validate, role_text. fold s. case_bool_decide; [done|].
  destruct (startsWithChar _ _) eqn:E1.
  { apply startsWithChar_spec in E1. rewrite explode_implode in E1.
    by apply fields_head_slash in E1. }
  destruct (endsWithChar _ _) eqn:E2.
  { apply endsWithChar_spec in E2. rewrite explode_implode in E2.
    by apply fields_last_slash, tail_elem_of in E2. }
  unfold contains. rewrite explode_implode.
  destruct (contains_chars _ _) eqn:E3.
  { by apply fields_double_slash, tail_elem_of in E3. }
  rewrite tokenize_tokens. change (is_delim [slash]) with is_slash.
  rewrite nonempty_fields_all by (by rewrite Hf). rewrite Hf.
  destruct cs as [|c cs']; [done|]. apply validate_components_spec.
  eapply Forall_impl; [exact Hcs|]. by intros ? [? _].
Qed.

Lemma validate_none_path role :
  validate role = None -> role = "*" \/ exists cs, role_path cs /\ role = role_text cs.
Proof.
  unfold validate. case_bool_decide as Hstar; [by left|]. intros H. right.
  destruct (startsWithChar _ _) eqn:E1; [done|].
  destruct (endsWithChar _ _) eqn:E2; [done|].
  unfold contains in H. destruct (contains_chars _ _) eqn:E3; [done|].
  rewrite tokenize_tokens in H. change (is_delim [slash]) with is_slash in H.
  destruct (decide (explode role = [])) as [Hnil|Hne].
  { by rewrite Hnil in H. }
  assert (Hn : Forall (fun f => f <> []) (fields is_slash (explode role))).
  { apply fields_nonempty; [done| | |done].
    - intros Hh. apply startsWithChar_spec in Hh. congruence.
    - intros Hl. apply endsWithChar_spec in Hl. congruence. }
  rewrite nonempty_fields_all in H by done.
  exists (fields is_slash (explode role)). split; [split; [apply fields_not_nil|]|].
  - destruct (fields is_slash (explode role)) as [|f fs] eqn:Ef; [done|].
    apply validate_components_spec in H. apply Forall_forall. intros c Hc.
    split; [by eapply Forall_forall in H|].
    apply (fields_no_slash (explode role)). by rewrite Ef.
  - unfold role_text. by rewrite join_fields, implode_explode.
Qed.

Lemma fields_app_slash s rest :
  fields is_slash (s ++ slash :: rest) = fields is_slash s ++ fields is_slash rest.
Proof.
  induction s as [|x s IH]; simpl; [done|].
  destruct (is_slash x); [by rewrite IH|]. rewrite IH.
  pose proof (fields_not_nil is_slash s). by destruct (fields is_slash s).
Qed.

(** A prefix of a role path that ends before a slash is a role path. *)
Lemma role_path_prefix cs s rest :
  role_path cs -> join_chars [slash] cs = s ++ slash :: rest ->
  role_path (fields is_slash s).
Proof.
  intros Hp Heq. pose proof (role_path_fields cs Hp) as Hf.
  destruct Hp as [_ Hcs]. rewrite Heq, fields_app_slash in Hf.
  rewrite <- Hf in Hcs. apply Forall_app in Hcs as [Hcs _].
  split; [apply fields_not_nil|done].
Qed.

Lemma isStrictSubroleOf_star r : isStrictSubroleOf "*" r = false.
Proof.
  destruct (isStrictSubroleOf "*" r) eqn:E; [|done].
  apply isStrictSubroleOf_spec in E as [rest Hr]. simpl in Hr.
  destruct (explode r) as [|a [|b l]]; simplify_eq.
Qed.

Lemma ancestor_valid_path role r :
  validate role = None -> isStrictSubroleOf role r = true ->
  exists cs, role_path cs /\ r = role_text cs.
Proof.
  intros Hv Hs. apply validate_none_path in Hv as [->|(cs & Hp & ->)].
  { by rewrite isStrictSubroleOf_star in Hs. }
  apply isStrictSubroleOf_spec in Hs as [rest Hr].
  unfold role_text in Hr. rewrite explode_implode in Hr.
  exists (fields is_slash (explode r)). split; [by eapply role_path_prefix|].
  unfold role_text. by rewrite join_fields, implode_explode.
Qed.

(** ** Properties *)

(** [roles::validate] accepts exactly ["*"] and the texts of the
    non-empty paths of valid components joined by single slashes. *)
Theorem validate_accepts_role_paths role :
  validate role = None <->
  role = "*" \/ exists cs, role_path cs /\ role = role_text cs.
Proof.
  split; [apply validate_none_path|].
  intros [->|(cs & Hp & ->)]; [done|by apply validate_path].
Qed.

(** The ancestors of a role are exactly the roles it is a strict subrole
    of, nearest first and without repetition, and those of a valid role are
    valid. *)
Theorem ancestors_complete role :
  (forall r, r ∈ ancestors role <-> isStrictSubroleOf role r = true)
  /\ StronglySorted (fun a b => isStrictSubroleOf a b = true) (ancestors role)
  /\ (validate role = None -> Forall (fun r => validate r = None) (ancestors role)).
Proof.
  split; [apply elem_of_ancestors|]. split; [apply ancestors_sorted|].
  intros Hv. apply Forall_forall. intros r Hr.
  apply elem_of_ancestors in Hr.
  destruct (ancestor_valid_path role r) as (cs & Hp & ->); [done..|].
  by apply validate_path.
Qed.

(** The strict-subrole test is a strict order: irreflexive and
    transitive. *)
Theorem isStrictSubroleOf_strict_order :
  StrictOrder (fun a b => isStrictSubroleOf a b = true).
Proof.
  split.
  - intros r. unfold complement. rewrite isStrictSubroleOf_spec. intros [rest H].
    apply (f_equal length) in H. rewrite length_app in H. simpl in H. lia.
  - intros a b c. rewrite !isStrictSubroleOf_spec. intros [r1 H1] [r2 H2].
    exists (r2 ++ slash :: r1). by rewrite H1, H2, <- (assoc_L (++)).
Qed.

(** [CHECK(!component.empty())] never fires. *)
Lemma validate_component_no_check c : c <> [] -> validate_component c <> Some CheckFailure.
Proof.
  intros Hc. unfold validate_component.
  repeat (case_bool_decide || case_if); congruence.
Qed.

Lemma validate_components_no_check cs :
  Forall (fun c => c <> []) cs -> validate_components cs <> Some CheckFailure.
Proof.
  induction 1 as [|c cs Hc Hcs IH]; simpl; [done|].
  destruct (validate_component c) eqn:E; [|done].
  rewrite <- E. by apply validate_component_no_check.
Qed.

Lemma nonempty_fields_forall d s : Forall (fun f => f <> []) (nonempty_fields d s).
Proof.
  apply Forall_forall. intros f [_ Hf]%list_elem_of_In%List.filter_In.
  by apply negb_true_iff, bool_decide_eq_false in Hf.
Qed.

(** Validation of a role never aborts: the [CHECK] that no component is
    empty holds whatever the text. *)
Theorem validate_never_aborts role : validate role <> Some CheckFailure.
Proof.
  unfold validate. case_bool_decide; [done|]. do 3 (case_if; [done|]).
  rewrite tokenize_tokens.
  pose proof (nonempty_fields_forall (is_delim [slash]) (explode role)) as Hne.
  destruct (nonempty_fields _ _) eqn:E; [done|]. by apply validate_components_no_check.
Qed.
