(* ===== verification/Ranges.v ===== *)
(** * Range values

    The [Value::Ranges] half of [src/src/common/values.cpp]: coalescing,
    subtraction, equality and inclusion of lists of closed [uint64_t]
    intervals.  A list of ranges denotes the set of the numbers it covers
    ([covers]); the theorems say that the operations compute union,
    difference, equality and inclusion of those sets. *)

From stdpp Require Import base gmap list sorting.
From Stdlib Require Import Sorted.
From S2P Require Import Prelude.
Local Open Scope Z_scope.

(** [internal::Range] and [Value::Range]. *)
Record Range := mkRange { rbegin : Z; rend : Z }.

#[export] Instance Range_eq_dec : EqDecision Range.
Proof. solve_decision. Defined.

(** The comparator of [internal::coalesce]: [std::tie(start, end)]. *)
Definition range_lex_le (a b : Range) : Prop :=
  rbegin a < rbegin b \/ (rbegin a = rbegin b /\ rend a <= rend b).

#[export] Instance range_lex_le_dec a b : Decision (range_lex_le a b).
Proof. unfold range_lex_le. apply _. Defined.

#[export] Instance range_lex_le_total : Total range_lex_le.
Proof. intros a b. unfold range_lex_le. lia. Qed.

#[export] Instance range_lex_le_trans : Transitive range_lex_le.
Proof. intros a b c. unfold range_lex_le. lia. Qed.

(** The comparator of [sortRanges] in [internal::subtract]: the starts. *)
Definition range_start_le (a b : Range) : Prop := rbegin a <= rbegin b.

#[export] Instance range_start_le_dec a b : Decision (range_start_le a b).
Proof. unfold range_start_le. apply _. Defined.

#[export] Instance range_start_le_total : Total range_start_le.
Proof. intros a b. unfold range_start_le. lia. Qed.

#[export] Instance range_start_le_trans : Transitive range_start_le.
Proof. intros a b c. unfold range_start_le. lia. Qed.

(** ** Coalescing *)

(** The variables the [foreach] of [internal::coalesce] updates: the vector
    it rewrites in place, [count] and [current]. *)
Record coalesce_state := mkCoalesce {
  cs_ranges : list Range;
  cs_count : nat;
  cs_current : Range;
}.

(** The body of the [foreach]. *)
Definition coalesce_step (st : coalesce_state) (range : Range) : coalesce_state :=
  let current := cs_current st in
  if (rbegin range =? rbegin current) && (rend range =? rend current) then st
  else if (rbegin range =? rbegin current) && (rend current <? rend range) then
    mkCoalesce (cs_ranges st) (cs_count st) (mkRange (rbegin current) (rend range))
  else if rbegin current <? rbegin range then
    if rbegin range <=? u64 (rend current + 1) then
      mkCoalesce (cs_ranges st) (cs_count st)
        (mkRange (rbegin current) (Z.max (rend current) (rend range)))
    else
      mkCoalesce (<[(cs_count st - 1)%nat := current]> (cs_ranges st))
        (S (cs_count st)) range
  else st.

(** The [foreach] itself reads the vector it writes: the element visited at
    position [i] is whatever the vector holds at that moment. *)
Fixpoint coalesce_loop (i : nat) (todo : nat) (st : coalesce_state) : coalesce_state :=
  match todo with
  | O => st
  | S todo' =>
      match cs_ranges st !! i with
      | None => st
      | Some range => coalesce_loop (S i) todo' (coalesce_step st range)
      end
  end.

(** The copy of the solution into the protobuf: shrink, then overwrite or
    append, index by index. *)
Fixpoint copy_loop (result ranges : list Range) (i : nat) (todo : nat) : list Range :=
  match todo with
  | O => result
  | S todo' =>
      let result1 :=
        if (length result <=? i)%nat then result ++ [mkRange 0 0] else result in
      match ranges !! i with
      | None => result1
      | Some r => copy_loop (<[i := r]> result1) ranges (S i) todo'
      end
  end.

Definition copy_solution (result ranges : list Range) (count : nat) : list Range :=
  let result1 := if (count <? length result)%nat then take count result else result in
  copy_loop result1 ranges 0 count.

(** [internal::coalesce(result, ranges)]. *)
Definition coalesce_vector (result ranges : list Range) : list Range :=
  match merge_sort range_lex_le ranges with
  | [] => []
  | first :: rest =>
      let sorted := first :: rest in
      let st := coalesce_loop 0 (length sorted) (mkCoalesce sorted 1 first) in
      let final := <[(cs_count st - 1)%nat := cs_current st]> (cs_ranges st) in
      copy_solution result final (cs_count st)
  end.

(** [coalesce(result, {addedRanges...})]. *)
Definition coalesce (result : list Range) (added : list (list Range)) : list Range :=
  coalesce_vector result (result ++ concat added).

(** [coalesce(result, addedRange)]. *)
Definition coalesce_range (result : list Range) (added : Range) : list Range :=
  coalesce result [[added]].

(** ** Subtraction *)

(** The two loops of [internal::subtract] over the sorted vectors: [x] is
    [*itLeft], whose start the code moves in place. *)
Fixpoint subtract_loop (left right : list Range) {struct left} : list Range :=
  match left with
  | [] => []
  | x :: left' =>
      (fix inner (x : Range) (right : list Range) {struct right} : list Range :=
         match right with
         | [] => x :: left'
         | y :: right' =>
             if rend x <? rbegin y then x :: subtract_loop left' (y :: right')
             else if rend y <? rbegin x then inner x right'
             else if rbegin x <? rbegin y then
               mkRange (rbegin x) (u64 (rbegin y - 1)) ::
               (if rend x <=? rend y then subtract_loop left' (y :: right')
                else inner (mkRange (u64 (rend y + 1)) (rend x)) right')
             else
               if rend x <=? rend y then subtract_loop left' (y :: right')
               else inner (mkRange (u64 (rend y + 1)) (rend x)) right'
         end) x right
  end.

Definition subtract (left right : list Range) : list Range :=
  match left, right with
  | [], _ => left
  | _, [] => left
  | _, _ =>
      subtract_loop (merge_sort range_start_le left) (merge_sort range_start_le right)
  end.

(** ** Comparison and the operators *)

(** [operator==(Value::Ranges, Value::Ranges)]. *)
Definition ranges_eqb (l r : list Range) : bool :=
  let left := coalesce [] [l] in
  let right := coalesce [] [r] in
  (length left =? length right)%nat
  && forallb (fun a =>
       existsb (fun b => (rbegin a =? rbegin b) && (rend a =? rend b)) right) left.

(** [operator<=(Value::Ranges, Value::Ranges)]. *)
Definition ranges_leb (l r : list Range) : bool :=
  let left := coalesce [] [l] in
  let right := coalesce [] [r] in
  forallb (fun a =>
    existsb (fun b => (rbegin b <=? rbegin a) && (rend a <=? rend b)) right) left.

Definition ranges_plus (left right : list Range) : list Range := coalesce [] [left; right].
Definition ranges_minus (left right : list Range) : list Range := subtract left right.
Definition ranges_plus_assign (left right : list Range) : list Range := coalesce left [right].
Definition ranges_minus_assign (left right : list Range) : list Range := subtract left right.

(** ** What a list of ranges denotes *)

Definition in_range (n : Z) (r : Range) : Prop := rbegin r <= n <= rend r.

Definition covers (rs : list Range) (n : Z) : Prop := Exists (in_range n) rs.

(** A range of [uint64_t] bounds, not inverted. *)
Definition wf_range (r : Range) : Prop :=
  0 <= rbegin r /\ rbegin r <= rend r /\ rend r <= UINT64_MAX.

(** No bound sits at the largest [uint64_t]: [current.end + 1] cannot wrap. *)
Definition below_max (r : Range) : Prop := rend r < UINT64_MAX.

(** Sorted, disjoint and not adjacent. *)
Definition canonical (rs : list Range) : Prop :=
  Forall wf_range rs /\ StronglySorted (fun a b => rend a + 1 < rbegin b) rs.

(** Pairwise disjoint, in increasing order. *)
Definition disjoint_sorted (rs : list Range) : Prop :=
  Forall wf_range rs /\ StronglySorted (fun a b => rend a < rbegin b) rs.

(** A functional version of the loop: the finished ranges and the open one. *)
Fixpoint merge_ranges (current : Range) (rs : list Range) : list Range :=
  match rs with
  | [] => [current]
  | range :: rs' =>
      if (rbegin range =? rbegin current) && (rend range =? rend current) then
        merge_ranges current rs'
      else if (rbegin range =? rbegin current) && (rend current <? rend range) then
        merge_ranges (mkRange (rbegin current) (rend range)) rs'
      else if rbegin current <? rbegin range then
        if rbegin range <=? u64 (rend current + 1) then
          merge_ranges (mkRange (rbegin current) (Z.max (rend current) (rend range))) rs'
        else current :: merge_ranges range rs'
      else merge_ranges current rs'
  end.

(** ** Coalescing: the in-place loop computes [merge_ranges] *)

Lemma copy_loop_spec result ranges i todo :
  (i <= length result <= i + todo)%nat -> (i + todo <= length ranges)%nat ->
  take i result = take i ranges ->
  copy_loop result ranges i todo = take (i + todo) ranges.
Proof.
  revert result i. induction todo as [|todo IH]; intros result i Hlen Hr Htake; simpl.
  - rewrite Nat.add_0_r, <- Htake. symmetry. apply take_ge. lia.
  - destruct (lookup_lt_is_Some_2 ranges i) as [r Hi]; [lia|]. rewrite Hi.
    set (result1 := if (length result <=? i)%nat then _ else _).
    assert (Hl1 : (i < length result1 <= i + S todo)%nat).
    { unfold result1. destruct (length result <=? i)%nat eqn:E; breflect;
        rewrite ?length_app; simpl; lia. }
    assert (Ht1 : take i result1 = take i result).
    { unfold result1. destruct (length result <=? i)%nat eqn:E; [|done].
      rewrite take_app_le by lia. done. }
    rewrite IH; [f_equal; lia| |lia|].
    + rewrite length_insert. lia.
    + rewrite (take_S_r _ _ r), (take_S_r ranges _ r); [|done|].
      * by rewrite take_insert_ge, Ht1, Htake by lia.
      * apply list_lookup_insert_eq. lia.
Qed.

Lemma copy_solution_spec result ranges count :
  (count <= length ranges)%nat -> copy_solution result ranges count = take count ranges.
Proof.
  intros H. unfold copy_solution. rewrite copy_loop_spec; [done| |lia|done].
  destruct (count <? length result)%nat eqn:E; breflect; rewrite ?length_take; lia.
Qed.

(** The solution a loop state stands for. *)
Definition finish (st : coalesce_state) : list Range :=
  take (cs_count st) (<[(cs_count st - 1)%nat := cs_current st]> (cs_ranges st)).

Lemma finish_eq st :
  (1 <= cs_count st <= length (cs_ranges st))%nat ->
  finish st = take (cs_count st - 1) (cs_ranges st) ++ [cs_current st].
Proof.
  intros H. unfold finish.
  replace (cs_count st) with (S (cs_count st - 1)) at 1 by lia.
  rewrite (take_S_r _ _ (cs_current st)).
  - by rewrite take_insert_ge by lia.
  - apply list_lookup_insert_eq. lia.
Qed.

Lemma coalesce_loop_spec i todo st :
  (1 <= cs_count st <= i)%nat -> (i + todo = length (cs_ranges st))%nat ->
  finish (coalesce_loop i todo st) =
    take (cs_count st - 1) (cs_ranges st)
    ++ merge_ranges (cs_current st) (drop i (cs_ranges st))
  /\ (1 <= cs_count (coalesce_loop i todo st)
        <= length (cs_ranges (coalesce_loop i todo st)))%nat.
Proof.
  revert i st. induction todo as [|todo IH]; intros i st Hc Hlen; simpl.
  - split; [|lia]. rewrite drop_ge by lia. simpl. apply finish_eq. lia.
  - destruct (lookup_lt_is_Some_2 (cs_ranges st) i) as [r Hi]; [lia|]. rewrite Hi.
    rewrite (drop_S _ _ _ Hi). cbn [merge_ranges]. unfold coalesce_step.
    destruct (_ && _); [apply IH; lia|].
    destruct (_ && _); [apply IH; simpl; lia|].
    destruct (_ <? _); [|apply IH; lia].
    destruct (_ <=? _); [apply IH; simpl; lia|].
    destruct (IH (S i) (mkCoalesce (<[(cs_count st - 1)%nat:=cs_current st]> (cs_ranges st))
      (S (cs_count st)) r)) as [Heq Hle]; simpl; [lia|rewrite length_insert; lia|].
    split; [|done]. rewrite Heq. simpl. rewrite drop_insert_lt by lia.
    replace (cs_count st - 0)%nat with (cs_count st) by lia.
    change (take (cs_count st) (<[(cs_count st - 1)%nat:=cs_current st]> (cs_ranges st)))
      with (finish st).
    rewrite finish_eq by lia. by rewrite <- (assoc_L (++)).
Qed.

(** The result never depends on what the destination held. *)
Lemma coalesce_vector_spec result ranges :
  coalesce_vector result ranges =
  match merge_sort range_lex_le ranges with
  | [] => []
  | first :: rest => merge_ranges first rest
  end.
Proof.
  unfold coalesce_vector.
  destruct (merge_sort range_lex_le ranges) as [|first rest]; [done|].
  cbn [length coalesce_loop lookup list_lookup cs_ranges]. unfold coalesce_step.
  cbn [cs_current]. rewrite !Z.eqb_refl. cbn [andb].
  destruct (coalesce_loop_spec 1 (length rest) (mkCoalesce (first :: rest) 1 first))
    as [Heq Hle]; simpl; [lia..|].
  set (st := coalesce_loop _ _ _) in *.
  rewrite copy_solution_spec by (rewrite length_insert; lia). exact Heq.
Qed.

(** ** Coalescing: what it denotes *)

Lemma covers_nil n : covers [] n <-> False.
Proof. unfold covers. by rewrite Exists_nil. Qed.

Lemma covers_cons r rs n : covers (r :: rs) n <-> in_range n r \/ covers rs n.
Proof. unfold covers. apply Exists_cons. Qed.

Lemma covers_app l1 l2 n : covers (l1 ++ l2) n <-> covers l1 n \/ covers l2 n.
Proof. unfold covers. apply Exists_app. Qed.

#[export] Instance covers_perm : Proper ((≡ₚ) ==> eq ==> iff) covers.
Proof. intros l1 l2 Hp n ? <-. unfold covers. by rewrite Hp. Qed.

#[export] Hint Rewrite covers_nil covers_cons covers_app : clusterd.

Lemma covers_bound_lt k rs n :
  Forall (fun r => k < rbegin r) rs -> covers rs n -> k < n.
Proof.
  unfold covers, in_range. intros Hf [r [Hr ?]]%Exists_exists.
  rewrite Forall_forall in Hf. specialize (Hf r Hr). lia.
Qed.

Lemma covers_bound k rs n :
  Forall (fun r => k <= rbegin r) rs -> covers rs n -> k <= n.
Proof.
  unfold covers, in_range. intros Hf [r [Hr ?]]%Exists_exists.
  rewrite Forall_forall in Hf. specialize (Hf r Hr). lia.
Qed.

#[export] Instance covers_dec rs n : Decision (covers rs n).
Proof. unfold covers, in_range. apply _. Defined.

Lemma prop_true_iff (P : Prop) : P -> P <-> True.
Proof. tauto. Qed.

Lemma prop_false_iff (P : Prop) : ~ P -> P <-> False.
Proof. tauto. Qed.

(** Decide every [covers] of the goal, use the bounds known for it (hypotheses
    of the form [forall n, covers l n -> _]), and leave the rest to [lia]. *)
Ltac cover_lia :=
  repeat match goal with
  | |- context [covers ?l ?n] =>
      let H := fresh "Hcov" in
      destruct (decide (covers l n)) as [H|H];
      [rewrite ?(prop_true_iff _ H) | rewrite ?(prop_false_iff _ H)]
  end;
  repeat match goal with
  | B : forall n, covers ?l n -> _, H : covers ?l ?m |- _ =>
      lazymatch goal with
      | _ : B m H = _ |- _ => fail
      | _ => let F := fresh "Hb" in
             assert (F := B m H); clear H
      end
  end;
  unfold in_range in *; simpl in *; lia.

Lemma u64_succ z : is_u64 z -> (z < UINT64_MAX /\ u64 (z + 1) = z + 1) \/ (z = UINT64_MAX /\ u64 (z + 1) = 0).
Proof.
  unfold is_u64, u64, UINT64_MAX. intros H.
  destruct (decide (z = 18446744073709551615)) as [->|]; [by right|].
  left. split; [lia|]. apply Z.mod_small. lia.
Qed.

(** What the sort hands to the loop, and each round keeps. *)
Definition ready (current : Range) (rs : list Range) : Prop :=
  wf_range current /\ Forall wf_range rs
  /\ Forall (range_start_le current) rs /\ StronglySorted range_start_le rs.

Lemma ready_cons current r rs :
  ready current (r :: rs) ->
  wf_range current /\ wf_range r /\ rbegin current <= rbegin r
  /\ ready r rs
  /\ (forall c, wf_range c -> rbegin c = rbegin current -> ready c rs).
Proof.
  unfold ready. intros (Hc & Hwf & Hle & Hs).
  apply Forall_cons in Hwf as [Hr Hwf]. apply Forall_cons in Hle as [Hcr Hle].
  apply StronglySorted_inv in Hs as [Hs Hrs].
  split_and!; try done. intros c Hc' Heq. split_and!; try done.
  eapply Forall_impl; [exact Hle|]. unfold range_start_le. intros. lia.
Qed.

(** Case analysis on one round: every branch with what it knows. *)
Ltac merge_case current r :=
  let Hu := fresh "Hu" in
  assert (Hu : is_u64 (rend current)) by (unfold is_u64; lia);
  apply u64_succ in Hu;
  cbn [merge_ranges];
  destruct ((rbegin r =? rbegin current) && (rend r =? rend current)) eqn:?;
  [|destruct ((rbegin r =? rbegin current) && (rend current <? rend r)) eqn:?;
    [|destruct (rbegin current <? rbegin r) eqn:?;
      [destruct (rbegin r <=? u64 (rend current + 1)) eqn:?|]]].

Lemma merge_ranges_covers current rs n :
  ready current rs ->
  covers (merge_ranges current rs) n <-> in_range n current \/ covers rs n.
Proof.
  revert current. induction rs as [|r rs IH]; intros current Hready.
  { simpl. by rewrite covers_cons. }
  apply ready_cons in Hready as (Hc & Hr & Hle & Hnext & Hsame).
  rewrite (covers_cons r rs). unfold wf_range, is_u64 in *.
  merge_case current r; rewrite ?covers_cons, IH;
    try (apply Hsame; simpl; unfold wf_range; simpl; breflect; lia); try done;
    breflect; cover_lia.
Qed.

Lemma merge_ranges_head current rs :
  ready current rs ->
  exists e tl, merge_ranges current rs = mkRange (rbegin current) e :: tl.
Proof.
  revert current. induction rs as [|r rs IH]; intros current Hready.
  { simpl. destruct current. eauto. }
  apply ready_cons in Hready as (Hc & Hr & Hle & Hnext & Hsame).
  unfold wf_range, is_u64 in *.
  merge_case current r;
    try (apply (IH (mkRange (rbegin current) _)), Hsame; simpl; unfold wf_range; simpl;
         breflect; lia); try (by apply IH, Hsame).
  destruct current. eauto.
Qed.

Lemma merge_ranges_bound current rs :
  ready current rs -> Forall (range_start_le current) (merge_ranges current rs).
Proof.
  revert current. induction rs as [|r rs IH]; intros current Hready.
  { simpl. constructor; [|done]. unfold range_start_le. lia. }
  apply ready_cons in Hready as (Hc & Hr & Hle & Hnext & Hsame).
  unfold wf_range, is_u64 in *.
  merge_case current r;
    try (apply (IH (mkRange (rbegin current) _)), Hsame; simpl; unfold wf_range; simpl;
         breflect; lia); try (by apply IH, Hsame).
  constructor; [unfold range_start_le; lia|].
  eapply Forall_impl; [by apply IH|]. unfold range_start_le. intros. lia.
Qed.

Lemma merge_ranges_canonical current rs :
  ready current rs -> below_max current -> Forall below_max rs ->
  canonical (merge_ranges current rs).
Proof.
  revert current. induction rs as [|r rs IH]; intros current Hready Hmax Hmaxs.
  { destruct Hready as [Hc _]. simpl. split; [by constructor|]. constructor; constructor. }
  apply ready_cons in Hready as (Hc & Hr & Hle & Hnext & Hsame).
  apply Forall_cons in Hmaxs as [Hmaxr Hmaxs].
  assert (Hcc := Hc). unfold wf_range, is_u64, below_max in *.
  merge_case current r;
    try (apply (IH (mkRange (rbegin current) _)); [apply Hsame| |]; simpl; unfold wf_range; simpl;
         breflect; lia || done); try (by apply IH; [apply Hsame| |]).
  destruct (IH r) as [Hwf Hs]; [done..|].
  split; [by constructor|]. constructor; [done|].
  eapply Forall_impl; [by apply merge_ranges_bound|].
  unfold range_start_le. intros a Ha. breflect. lia.
Qed.

Lemma sorted_ready first rest ranges :
  Forall wf_range ranges -> merge_sort range_lex_le ranges = first :: rest ->
  ready first rest.
Proof.
  intros Hwf Hs.
  assert (Hp : first :: rest ≡ₚ ranges) by (rewrite <- Hs; apply merge_sort_Permutation).
  assert (Hss : StronglySorted range_lex_le (first :: rest)).
  { rewrite <- Hs. apply (StronglySorted_merge_sort range_lex_le). }
  rewrite <- Hp in Hwf. apply Forall_cons in Hwf as [Hf Hwf].
  apply StronglySorted_inv in Hss as [Hss Hle]. unfold ready. split_and!; try done.
  - eapply Forall_impl; [exact Hle|]. unfold range_lex_le, range_start_le. intros. lia.
  - clear -Hss. induction Hss as [|a l Hl IH Ha]; constructor; [done|].
    eapply Forall_impl; [exact Ha|]. unfold range_lex_le, range_start_le. intros. lia.
Qed.

Lemma coalesce_vector_covers result ranges n :
  Forall wf_range ranges -> covers (coalesce_vector result ranges) n <-> covers ranges n.
Proof.
  intros Hwf. rewrite coalesce_vector_spec.
  assert (Hp := merge_sort_Permutation range_lex_le ranges).
  destruct (merge_sort range_lex_le ranges) as [|first rest] eqn:E; rewrite <- Hp.
  - done.
  - rewrite merge_ranges_covers by (by eapply sorted_ready). by rewrite covers_cons.
Qed.

Lemma coalesce_vector_canonical result ranges :
  Forall wf_range ranges -> Forall below_max ranges ->
  canonical (coalesce_vector result ranges).
Proof.
  intros Hwf Hmax. rewrite coalesce_vector_spec.
  assert (Hp := merge_sort_Permutation range_lex_le ranges).
  destruct (merge_sort range_lex_le ranges) as [|first rest] eqn:E.
  - split; constructor.
  - rewrite <- Hp in Hmax. apply Forall_cons in Hmax as [? ?].
    apply merge_ranges_canonical; [by eapply sorted_ready|done..].
Qed.

(** ** Canonical lists are determined by what they cover *)

Lemma canonical_cons_inv r rs :
  canonical (r :: rs) ->
  wf_range r /\ Forall (fun b => rend r + 1 < rbegin b) rs /\ canonical rs.
Proof.
  intros [Hwf Hs]. apply Forall_cons in Hwf as [? ?].
  apply StronglySorted_inv in Hs as [? ?]. done.
Qed.

Lemma canonical_above r rs n :
  canonical (r :: rs) -> covers rs n -> rend r + 1 < n.
Proof. intros (_ & Hf & _)%canonical_cons_inv. by apply covers_bound_lt. Qed.

Lemma canonical_bounds r rs n :
  canonical (r :: rs) -> covers (r :: rs) n -> rbegin r <= n /\ n <> rend r + 1.
Proof.
  intros Hc Hn. assert (A := canonical_above _ _ n Hc).
  apply canonical_cons_inv in Hc as (Hw & _).
  apply covers_cons in Hn as [Hn|Hn]; [|apply A in Hn]; unfold in_range, wf_range in *; lia.
Qed.

Lemma canonical_ext l1 l2 :
  canonical l1 -> canonical l2 -> (forall n, covers l1 n <-> covers l2 n) -> l1 = l2.
Proof.
  revert l2. induction l1 as [|r1 l1 IH]; intros [|r2 l2] H1 H2 Heq; [done|..].
  1: apply canonical_cons_inv in H2 as (Hw & _); specialize (Heq (rbegin r2)).
  2: apply canonical_cons_inv in H1 as (Hw & _); specialize (Heq (rbegin r1)).
  1-2: rewrite covers_nil, covers_cons in Heq; unfold wf_range, in_range in *; simpl in *; lia.
  assert (B1 := fun n => canonical_bounds _ _ n H1).
  assert (B2 := fun n => canonical_bounds _ _ n H2).
  assert (A1 := fun n => canonical_above _ _ n H1).
  assert (A2 := fun n => canonical_above _ _ n H2).
  apply canonical_cons_inv in H1 as (Hw1 & _ & H1).
  apply canonical_cons_inv in H2 as (Hw2 & _ & H2).
  assert (C1 : forall n, in_range n r1 -> covers (r2 :: l2) n)
    by (intros n Hn; apply Heq, covers_cons; by left).
  assert (C2 : forall n, in_range n r2 -> covers (r1 :: l1) n)
    by (intros n Hn; apply Heq, covers_cons; by left).
  assert (r1 = r2) as ->.
  { unfold wf_range, in_range in *. destruct r1 as [a1 b1], r2 as [a2 b2]; simpl in *.
    assert (a1 = a2) as ->.
    { assert (a2 <= a1) by (apply B2, C1; lia). assert (a1 <= a2) by (apply B1, C2; lia). lia. }
    f_equal. destruct (Z.lt_trichotomy b1 b2) as [?|[?|?]]; [|done|].
    - destruct (B1 (b1 + 1)); [apply C2; lia|done].
    - destruct (B2 (b2 + 1)); [apply C1; lia|done]. }
  f_equal. apply IH; [done..|]. intros n. specialize (Heq n).
  rewrite !covers_cons in Heq. specialize (A1 n). specialize (A2 n).
  unfold in_range in *. destruct (decide (n <= rend r2)); intuition lia.
Qed.

(** An interval inside what a canonical list covers lies in one of its
    ranges. *)
Lemma canonical_connected rs a b :
  canonical rs -> a <= b -> (forall n, a <= n <= b -> covers rs n) ->
  exists r, r ∈ rs /\ rbegin r <= a /\ b <= rend r.
Proof.
  induction rs as [|r rs IH]; intros Hc Hab Hcov.
  { destruct (proj1 (covers_nil a)). apply Hcov. lia. }
  assert (B := fun n => canonical_bounds _ _ n Hc).
  assert (A := fun n => canonical_above _ _ n Hc).
  apply canonical_cons_inv in Hc as (Hw & _ & Hc).
  destruct (decide (a <= rend r)) as [Hle|Hgt].
  - exists r. split; [by left|]. split; [apply B, Hcov; lia|].
    destruct (decide (b <= rend r)); [done|].
    destruct (B (rend r + 1)); [apply Hcov; lia|done].
  - destruct IH as (r' & Hr' & ?); [done..| |].
    + intros n Hn. specialize (Hcov n Hn). apply covers_cons in Hcov as [Hin|]; [|done].
      unfold in_range in Hin. lia.
    + exists r'. split; [by right|done].
Qed.

Lemma canonical_NoDup rs : canonical rs -> NoDup rs.
Proof.
  induction rs as [|r rs IH]; intros Hc; [constructor|].
  apply canonical_cons_inv in Hc as (Hw & Hf & Hc). constructor; [|auto].
  intros Hin. rewrite Forall_forall in Hf. specialize (Hf r Hin).
  unfold wf_range in Hw. lia.
Qed.

(** ** The comparisons *)

Lemma covers_elem rs r n : r ∈ rs -> in_range n r -> covers rs n.
Proof. intros. apply Exists_exists. eauto. Qed.

Lemma ranges_eqb_canonical l r :
  canonical l -> canonical r ->
  (length l =? length r)%nat
  && forallb (fun a => existsb (fun b => (rbegin a =? rbegin b) && (rend a =? rend b)) r) l
  = bool_decide (l = r).
Proof.
  intros Hl Hr. apply eq_true_iff_eq.
  rewrite andb_true_iff, forallb_forall, bool_decide_eq_true, Nat.eqb_eq. split.
  - intros [Hlen Hsub]. apply canonical_ext; [done..|].
    enough (l ≡ₚ r) as Hp by (intros n; by rewrite Hp).
    apply submseteq_length_Permutation; [|lia].
    apply NoDup_submseteq; [by apply canonical_NoDup|].
    intros a Ha%list_elem_of_In. apply Hsub in Ha.
    apply existsb_exists in Ha as (b & Hb & Heq). breflect.
    destruct a, b; simpl in *; subst. by apply list_elem_of_In.
  - intros ->. split; [done|]. intros a Ha. apply existsb_exists. exists a.
    by rewrite !Z.eqb_refl.
Qed.

Lemma coalesce_covers result added n :
  Forall wf_range result -> Forall (Forall wf_range) added ->
  covers (coalesce result added) n <-> covers result n \/ covers (concat added) n.
Proof.
  intros Hr Ha. unfold coalesce. rewrite coalesce_vector_covers; [apply covers_app|].
  apply Forall_app. split; [done|]. by apply Forall_concat.
Qed.

Lemma coalesce_canonical result added :
  Forall wf_range result -> Forall (Forall wf_range) added ->
  Forall below_max result -> Forall (Forall below_max) added ->
  canonical (coalesce result added).
Proof.
  intros Hr Ha Mr Ma. apply coalesce_vector_canonical;
    apply Forall_app; (split; [done|]); by apply Forall_concat.
Qed.

(** ** Subtraction *)

Lemma disjoint_cons_inv r rs :
  disjoint_sorted (r :: rs) ->
  wf_range r /\ Forall (fun b => rend r < rbegin b) rs /\ disjoint_sorted rs.
Proof.
  intros [Hwf Hs]. apply Forall_cons in Hwf as [? ?].
  apply StronglySorted_inv in Hs as [? ?]. done.
Qed.

(** The inner loop for one left range [x], with the rest of the left as [rec]. *)
Definition subtract_one (left' : list Range) : Range -> list Range -> list Range :=
  fix inner (x : Range) (right : list Range) {struct right} : list Range :=
    match right with
    | [] => x :: left'
    | y :: right' =>
        if rend x <? rbegin y then x :: subtract_loop left' (y :: right')
        else if rend y <? rbegin x then inner x right'
        else if rbegin x <? rbegin y then
          mkRange (rbegin x) (u64 (rbegin y - 1)) ::
          (if rend x <=? rend y then subtract_loop left' (y :: right')
           else inner (mkRange (u64 (rend y + 1)) (rend x)) right')
        else
          if rend x <=? rend y then subtract_loop left' (y :: right')
          else inner (mkRange (u64 (rend y + 1)) (rend x)) right'
    end.

Lemma subtract_loop_cons x left' right :
  subtract_loop (x :: left') right = subtract_one left' x right.
Proof. done. Qed.

(** A right operand: well formed and sorted by start. *)
Definition right_ready (right : list Range) : Prop :=
  Forall wf_range right /\ StronglySorted range_start_le right.

Lemma right_ready_cons y right :
  right_ready (y :: right) ->
  wf_range y /\ right_ready right /\ (forall n, covers right n -> rbegin y <= n).
Proof.
  intros [Hwf Hs]. apply Forall_cons in Hwf as [? ?].
  apply StronglySorted_inv in Hs as [? Hle]. split_and!; try done.
  intros n. by apply covers_bound.
Qed.

Lemma u64_wf_range r z : wf_range r -> rbegin r <= z <= rend r -> u64 z = z.
Proof. unfold wf_range. intros. apply u64_id. unfold is_u64. lia. Qed.

Lemma subtract_loop_covers left right n :
  disjoint_sorted left -> right_ready right ->
  covers (subtract_loop left right) n <-> covers left n /\ ~ covers right n.
Proof.
  revert right. induction left as [|x left' IH]; intros right Hl Hr.
  { simpl. rewrite covers_nil. tauto. }
  apply disjoint_cons_inv in Hl as (Hx & Hgt & Hl').
  rewrite subtract_loop_cons, covers_cons.
  assert (HL : forall k n, k < rend x + 1 -> covers left' n -> k < n).
  { intros k m Hk. apply covers_bound_lt. eapply Forall_impl; [exact Hgt|]. simpl. lia. }
  assert (HLn := HL (rend x) n ltac:(lia)). clear HL Hgt.
  revert x Hx HLn. induction right as [|y right' IHr]; intros x Hx HLn; cbn [subtract_one].
  { rewrite covers_cons, covers_nil. tauto. }
  assert (IHy := IH (y :: right') Hl' Hr).
  apply right_ready_cons in Hr as (Hy & Hr & Hry).
  specialize (IHr Hr). specialize (Hry n). rewrite covers_cons in IHy.
  rewrite (covers_cons y right').
  assert (Hnx : forall z, rbegin x <= z <= rend x -> u64 z = z) by (intros; by eapply u64_wf_range).
  destruct (rend x <? rbegin y) eqn:E1; [|destruct (rend y <? rbegin x) eqn:E2;
    [|destruct (rbegin x <? rbegin y) eqn:E3; destruct (rend x <=? rend y) eqn:E4]]; breflect.
  all: rewrite ?covers_cons, ?IHy, ?IHr; unfold wf_range, in_range in *; simpl;
    rewrite ?Hnx by lia; try lia.
  all: try exact HLn; clear IH IHy IHr Hnx.
  all: destruct (decide (covers left' n)) as [HcL|HcL];
    [specialize (HLn HcL); rewrite ?(prop_true_iff _ HcL)|clear HLn; rewrite ?(prop_false_iff _ HcL)];
    (destruct (decide (covers right' n)) as [HcR|HcR];
     [specialize (Hry HcR); rewrite ?(prop_true_iff _ HcR)
     |clear Hry; rewrite ?(prop_false_iff _ HcR)]);
    lia.
Qed.

Lemma subtract_loop_lower k left right :
  Forall (fun r => k < rbegin r) left -> disjoint_sorted left -> right_ready right ->
  Forall (fun r => k < rbegin r) (subtract_loop left right).
Proof.
  revert right. induction left as [|x left' IH]; intros right Hk Hl Hr; [done|].
  rewrite subtract_loop_cons. apply Forall_cons in Hk as [Hkx Hk].
  apply disjoint_cons_inv in Hl as (Hx & _ & Hl').
  revert x Hx Hkx. induction right as [|y right' IHr]; intros x Hx Hkx; cbn [subtract_one].
  { by constructor. }
  assert (IHy := IH (y :: right') Hk Hl' Hr).
  apply right_ready_cons in Hr as (Hy & Hr & _). specialize (IHr Hr).
  assert (Hnx : forall z, rbegin x <= z <= rend x -> u64 z = z) by (intros; by eapply u64_wf_range).
  unfold wf_range in *. repeat case_if; breflect; repeat constructor; simpl; try done;
    apply IHr; simpl; rewrite ?Hnx by lia; lia.
Qed.

Lemma canonical_disjoint rs : canonical rs -> disjoint_sorted rs.
Proof.
  intros [Hw Hs]. split; [done|]. clear Hw.
  induction Hs as [|a l Hl IHl Ha]; constructor; [done|].
  eapply Forall_impl; [exact Ha|]. simpl. lia.
Qed.

Lemma canonical_cons r rs :
  wf_range r -> Forall (fun b => rend r + 1 < rbegin b) rs -> canonical rs ->
  canonical (r :: rs).
Proof. intros Hr Hf [Hw Hs]. split; by constructor. Qed.

(** Everything left to subtract from starts beyond [k]. *)
Lemma subtract_one_lower k left' x right :
  k < rbegin x -> wf_range x -> Forall (fun r => rend x < rbegin r) left' ->
  disjoint_sorted left' -> right_ready right ->
  Forall (fun r => k < rbegin r) (subtract_one left' x right).
Proof.
  intros Hk Hx Hgt Hl Hr. rewrite <- subtract_loop_cons.
  apply subtract_loop_lower; [|by destruct Hl; split; constructor|done].
  constructor; [done|]. unfold wf_range in *.
  eapply Forall_impl; [exact Hgt|]. simpl. lia.
Qed.

Lemma subtract_loop_canonical left right :
  canonical left -> right_ready right -> canonical (subtract_loop left right).
Proof.
  revert right. induction left as [|x left' IH]; intros right Hl Hr; [done|].
  rewrite subtract_loop_cons.
  apply canonical_cons_inv in Hl as (Hx & Hgt & Hl').
  assert (Hd := canonical_disjoint _ Hl').
  revert x Hx Hgt. induction right as [|y right' IHr]; intros x Hx Hgt; cbn [subtract_one].
  { by apply canonical_cons. }
  assert (IHy := IH (y :: right') Hl' Hr).
  assert (Hlow := fun k Hk => subtract_loop_lower k left' (y :: right') Hk Hd Hr).
  apply right_ready_cons in Hr as (Hy & Hr & _). specialize (IHr Hr).
  assert (Hnx : forall z, rbegin x <= z <= rend x -> u64 z = z) by (intros; by eapply u64_wf_range).
  assert (Hw : wf_range x) by done. unfold wf_range in Hx, Hy.
  assert (Hgt' : forall k, k <= rend x + 1 -> Forall (fun r => k < rbegin r) left').
  { intros k ?. eapply Forall_impl; [exact Hgt|]. simpl. lia. }
  destruct (rend x <? rbegin y) eqn:E1; [|destruct (rend y <? rbegin x) eqn:E2]; breflect.
  - apply canonical_cons; [done| |done]. apply Hlow. by apply Hgt'.
  - by apply IHr.
  - assert (Hrest : rend y < rend x ->
      canonical (subtract_one left' (mkRange (u64 (rend y + 1)) (rend x)) right')).
    { intros. apply IHr; simpl; rewrite ?Hnx by lia; [|done]. unfold wf_range; simpl; lia. }
    destruct (rbegin x <? rbegin y) eqn:E3; destruct (rend x <=? rend y) eqn:E4; breflect;
      try done; try (by apply Hrest).
    + apply canonical_cons; simpl; rewrite ?Hnx by lia; [unfold wf_range; simpl; lia| |done].
      apply Hlow. eapply Forall_impl; [exact Hgt|]. simpl. lia.
    + apply canonical_cons; [unfold wf_range; simpl; rewrite Hnx by lia; lia| |by apply Hrest].
      apply subtract_one_lower; try done; simpl; rewrite ?Hnx by lia; [lia| |].
      * unfold wf_range; simpl; lia.
      * eapply Forall_impl; [exact Hgt|]. simpl. lia.
Qed.

Lemma sorted_right_ready right :
  Forall wf_range right -> right_ready (merge_sort range_start_le right).
Proof.
  intros Hw. split.
  - by rewrite merge_sort_Permutation.
  - apply (StronglySorted_merge_sort range_start_le).
Qed.

(** A list already sorted by start is what [std::sort] returns. *)
Lemma merge_sort_disjoint left :
  disjoint_sorted left -> merge_sort range_start_le left = left.
Proof.
  intros [Hw Hs].
  assert (Hp := merge_sort_Permutation range_start_le left).
  assert (Hss := StronglySorted_merge_sort range_start_le left).
  revert Hp Hss. generalize (merge_sort range_start_le left) as l'. clear -Hw Hs.
  induction Hs as [|a l Hl IH Ha]; intros l' Hp Hss.
  { by apply Permutation_nil_r in Hp. }
  apply Forall_cons in Hw as [Hwa Hw]. destruct l' as [|b l'].
  { by apply Permutation_nil_l in Hp. }
  assert (b = a) as ->.
  { assert (Hb : b ∈ a :: l) by (rewrite <- Hp; by left).
    assert (Ha' : a ∈ b :: l') by (rewrite Hp; by left).
    apply elem_of_cons in Hb as [|Hb]; [done|].
    apply elem_of_cons in Ha' as [|Ha']; [done|].
    apply StronglySorted_inv in Hss as [_ Hss]. rewrite Forall_forall in Ha, Hss.
    specialize (Ha b Hb). specialize (Hss a Ha').
    unfold range_start_le, wf_range in *. lia. }
  f_equal. apply StronglySorted_inv in Hss as [Hss _].
  apply IH; [done| |done]. by apply Permutation_cons_inv in Hp.
Qed.

Lemma subtract_covers left right n :
  disjoint_sorted (merge_sort range_start_le left) -> Forall wf_range right ->
  covers (subtract left right) n <-> covers left n /\ ~ covers right n.
Proof.
  intros Hl Hr. unfold subtract. destruct left as [|x left]; [rewrite covers_nil; tauto|].
  destruct right as [|y right]; [rewrite covers_nil; tauto|].
  rewrite subtract_loop_covers by (done || by apply sorted_right_ready).
  by rewrite !merge_sort_Permutation.
Qed.

Lemma subtract_canonical left right :
  canonical left -> Forall wf_range right -> canonical (subtract left right).
Proof.
  intros Hl Hr. unfold subtract. destruct left as [|x left]; [done|].
  destruct right as [|y right]; [done|].
  rewrite (merge_sort_disjoint (x :: left)) by (by apply canonical_disjoint).
  apply subtract_loop_canonical; [done|by apply sorted_right_ready].
Qed.

Lemma disjoint_sort_canonical rs :
  canonical rs -> disjoint_sorted (merge_sort range_start_le rs).
Proof.
  intros H%canonical_disjoint. by rewrite merge_sort_disjoint.
Qed.

Lemma ranges_plus_canonical left right :
  Forall wf_range left -> Forall wf_range right ->
  Forall below_max left -> Forall below_max right -> canonical (ranges_plus left right).
Proof. intros. apply coalesce_canonical; repeat constructor; done. Qed.

Lemma ranges_plus_covers left right n :
  Forall wf_range left -> Forall wf_range right ->
  covers (ranges_plus left right) n <-> covers left n \/ covers right n.
Proof.
  intros. unfold ranges_plus. rewrite coalesce_covers; [|constructor|repeat constructor; done].
  simpl. rewrite app_nil_r, covers_nil, covers_app. tauto.
Qed.

Lemma coalesce_one_covers l n :
  Forall wf_range l -> covers (coalesce [] [l]) n <-> covers l n.
Proof.
  intros. rewrite coalesce_covers; [|constructor|repeat constructor; done].
  simpl. rewrite app_nil_r, covers_nil. tauto.
Qed.

Lemma coalesce_one_canonical l :
  Forall wf_range l -> Forall below_max l -> canonical (coalesce [] [l]).
Proof. intros. apply coalesce_canonical; repeat constructor; done. Qed.

#[export] Hint Resolve coalesce_one_canonical ranges_plus_canonical subtract_canonical
  canonical_disjoint disjoint_sort_canonical : clusterd.

Lemma subtract_below_max left right :
  canonical left -> Forall below_max left -> Forall wf_range right ->
  Forall below_max (subtract left right).
Proof.
  intros Hl Ml Hr. assert (Hw := proj1 (subtract_canonical left right Hl Hr)).
  apply Forall_forall. intros r Hin. unfold below_max.
  rewrite Forall_forall in Hw. specialize (Hw r Hin).
  assert (Hc : covers (subtract left right) (rend r)).
  { eapply covers_elem; [done|]. unfold in_range, wf_range in *. lia. }
  apply subtract_covers in Hc as [Hc _]; [|by apply disjoint_sort_canonical|done].
  apply Exists_exists in Hc as (a & Ha & Hin').
  rewrite Forall_forall in Ml. specialize (Ml a Ha). unfold below_max, in_range in *. lia.
Qed.

Lemma ranges_plus_below_max left right :
  Forall wf_range left -> Forall wf_range right ->
  Forall below_max left -> Forall below_max right -> Forall below_max (ranges_plus left right).
Proof.
  intros Hl Hr Ml Mr. assert (Hw := proj1 (ranges_plus_canonical left right Hl Hr Ml Mr)).
  apply Forall_forall. intros r Hin. unfold below_max.
  rewrite Forall_forall in Hw. specialize (Hw r Hin).
  assert (Hc : covers (ranges_plus left right) (rend r)).
  { eapply covers_elem; [done|]. unfold in_range, wf_range in *. lia. }
  apply ranges_plus_covers in Hc; [|done..].
  rewrite Forall_forall in Ml. rewrite Forall_forall in Mr.
  destruct Hc as [Hc|Hc]; apply Exists_exists in Hc as (a & Ha & Hin');
    [specialize (Ml a Ha)|specialize (Mr a Ha)]; unfold below_max, in_range in *; lia.
Qed.

Lemma ranges_leb_spec left right :
  Forall wf_range left -> Forall wf_range right ->
  Forall below_max left -> Forall below_max right ->
  ranges_leb left right = true <-> (forall n, covers left n -> covers right n).
Proof.
  intros Hl Hr Ml Mr. unfold ranges_leb. rewrite forallb_forall. split.
  - intros H n Hn. apply coalesce_one_covers in Hn; [|done].
    apply Exists_exists in Hn as (a & Ha%list_elem_of_In & Hna). apply H in Ha.
    apply existsb_exists in Ha as (b & Hb%list_elem_of_In & Hab). breflect.
    apply coalesce_one_covers; [done|]. eapply covers_elem; [done|].
    unfold in_range in *. lia.
  - intros H a Ha%list_elem_of_In.
    assert (Hwa : wf_range a).
    { destruct (coalesce_one_canonical left) as [Hw _]; [done..|].
      rewrite Forall_forall in Hw. by apply Hw. }
    destruct (canonical_connected (coalesce [] [right]) (rbegin a) (rend a))
      as (b & Hb & ?); [auto with clusterd|unfold wf_range in Hwa; lia| |].
    + intros n Hn. apply coalesce_one_covers, H, coalesce_one_covers; [done..|].
      by eapply covers_elem.
    + apply existsb_exists. exists b. split; [by apply list_elem_of_In|].
      rewrite andb_true_iff, !Z.leb_le. lia.
Qed.

Lemma ranges_eqb_spec left right :
  Forall wf_range left -> Forall wf_range right ->
  Forall below_max left -> Forall below_max right ->
  ranges_eqb left right = true <-> (forall n, covers left n <-> covers right n).
Proof.
  intros Hl Hr Ml Mr. unfold ranges_eqb.
  rewrite ranges_eqb_canonical, bool_decide_eq_true by auto with clusterd. split.
  - intros Heq n. by rewrite <- coalesce_one_covers, Heq, coalesce_one_covers.
  - intros Heq. apply canonical_ext; [auto with clusterd..|].
    intros n. rewrite !coalesce_one_covers by done. apply Heq.
Qed.

Lemma ranges_plus_assign_eq left right :
  Forall wf_range left -> Forall wf_range right ->
  ranges_plus_assign left right = ranges_plus left right.
Proof.
  intros Hl Hr. unfold ranges_plus_assign, ranges_plus, coalesce. simpl.
  by rewrite app_nil_r, !coalesce_vector_spec.
Qed.

(** ** Properties *)

(** [left + right] and [left += right] cover exactly the numbers covered by
    either operand, and the list they return is sorted, disjoint and without
    adjacent ranges as long as no range ends at the largest [uint64_t]. *)
Theorem ranges_plus_union left right :
  Forall wf_range left -> Forall wf_range right ->
  (forall n, covers (ranges_plus left right) n <-> covers left n \/ covers right n)
  /\ ranges_plus_assign left right = ranges_plus left right
  /\ (Forall below_max left -> Forall below_max right -> canonical (ranges_plus left right)).
Proof.
  intros Hl Hr. split_and!.
  - intros n. by apply ranges_plus_covers.
  - unfold ranges_plus_assign, ranges_plus, coalesce. simpl.
    by rewrite app_nil_r, !coalesce_vector_spec.
  - auto with clusterd.
Qed.

Lemma ranges_plus_union_witness :
  covers (ranges_plus [mkRange 1 3; mkRange 8 9] [mkRange 4 5]) 5
  /\ ranges_plus [mkRange 1 3; mkRange 8 9] [mkRange 4 5] = [mkRange 1 5; mkRange 8 9].
Proof.
  split; [|reflexivity].
  apply (ranges_plus_union [mkRange 1 3; mkRange 8 9] [mkRange 4 5]);
    [repeat constructor; vm_compute; discriminate..|].
  right. repeat constructor; vm_compute; discriminate.
Defined.

(** [left - right] covers exactly the numbers of the left operand that the
    right one does not cover, for a left operand of pairwise disjoint ranges;
    it is in canonical form when the left operand is. *)
Theorem ranges_minus_difference left right :
  disjoint_sorted (merge_sort range_start_le left) -> Forall wf_range right ->
  (forall n, covers (ranges_minus left right) n <-> covers left n /\ ~ covers right n)
  /\ (canonical left -> canonical (ranges_minus left right)).
Proof.
  intros Hl Hr. split; [intros n; by apply subtract_covers|].
  intros. by apply subtract_canonical.
Qed.

Lemma ranges_minus_difference_witness :
  covers (ranges_minus [mkRange 1 9] [mkRange 3 4; mkRange 6 6]) 5
  /\ ranges_minus [mkRange 1 9] [mkRange 3 4; mkRange 6 6] =
     [mkRange 1 2; mkRange 5 5; mkRange 7 9].
Proof.
  split; [|reflexivity].
  apply (ranges_minus_difference [mkRange 1 9] [mkRange 3 4; mkRange 6 6]).
  - split; repeat constructor; vm_compute; discriminate.
  - repeat constructor; vm_compute; discriminate.
  - split; [repeat constructor; vm_compute; discriminate|].
    apply (bool_decide_unpack (~ covers [mkRange 3 4; mkRange 6 6] 5)). vm_compute. exact I.
Defined.

(** [operator<=] on ranges decides inclusion of the covered sets. *)
Theorem ranges_leb_inclusion left right :
  Forall wf_range left -> Forall wf_range right ->
  Forall below_max left -> Forall below_max right ->
  ranges_leb left right = true <-> (forall n, covers left n -> covers right n).
Proof. apply ranges_leb_spec. Qed.

Lemma ranges_leb_inclusion_witness : covers [mkRange 1 2; mkRange 3 9] 4.
Proof.
  apply (proj1 (ranges_leb_inclusion [mkRange 2 5] [mkRange 1 2; mkRange 3 9]
    ltac:(repeat constructor; vm_compute; discriminate)
    ltac:(repeat constructor; vm_compute; discriminate)
    ltac:(repeat constructor) ltac:(repeat constructor)) eq_refl).
  repeat constructor; vm_compute; discriminate.
Defined.

(** [operator==] on ranges decides equality of the covered sets, however
    the two lists are split and ordered. *)
Theorem ranges_eqb_extensional left right :
  Forall wf_range left -> Forall wf_range right ->
  Forall below_max left -> Forall below_max right ->
  ranges_eqb left right = true <-> (forall n, covers left n <-> covers right n).
Proof. apply ranges_eqb_spec. Qed.

Lemma ranges_eqb_extensional_witness :
  ranges_eqb [mkRange 1 5] [mkRange 4 5; mkRange 1 3] = true
  /\ covers [mkRange 4 5; mkRange 1 3] 2.
Proof.
  split; [reflexivity|].
  apply (proj1 (ranges_eqb_extensional [mkRange 1 5] [mkRange 4 5; mkRange 1 3]
    ltac:(repeat constructor; vm_compute; discriminate)
    ltac:(repeat constructor; vm_compute; discriminate)
    ltac:(repeat constructor) ltac:(repeat constructor)) eq_refl).
  repeat constructor; vm_compute; discriminate.
Defined.

(** Taking ranges out of a canonical list and giving them back restores
    the list: [(left - right) + right = left] when [right] is part of
    [left]. *)
Theorem ranges_subtract_add_roundtrip left right :
  canonical left -> Forall below_max left ->
  Forall wf_range right -> Forall below_max right ->
  (forall n, covers right n -> covers left n) ->
  ranges_plus (ranges_minus left right) right = left.
Proof.
  intros Hl Ml Hr Mr Hsub.
  assert (Hm : canonical (ranges_minus left right)) by (by apply subtract_canonical).
  assert (Hwm : Forall wf_range (ranges_minus left right)) by apply Hm.
  assert (Hcov := fun n => subtract_covers left right n (disjoint_sort_canonical _ Hl) Hr).
  apply canonical_ext; [|done|].
  - apply ranges_plus_canonical; [done..| |done]. by apply subtract_below_max.
  - intros n. rewrite ranges_plus_covers, (Hcov n) by done.
    destruct (decide (covers right n)); naive_solver.
Qed.

Lemma ranges_subtract_add_roundtrip_witness :
  ranges_plus (ranges_minus [mkRange 1 9] [mkRange 3 4]) [mkRange 3 4] = [mkRange 1 9].
Proof.
  apply (ranges_subtract_add_roundtrip [mkRange 1 9] [mkRange 3 4]);
    try (repeat constructor; vm_compute; discriminate).
  intros n. rewrite !covers_cons, !covers_nil. unfold in_range. simpl. lia.
Defined.

(** A range that ends at the largest [uint64_t] defeats the merge:
    [current.end + 1] wraps to zero, a range it contains is kept, and two
    lists covering the same set compare unequal. *)
Theorem coalesce_wraps_at_max :
  coalesce [] [[mkRange 0 UINT64_MAX; mkRange 5 6]] = [mkRange 0 UINT64_MAX; mkRange 5 6]
  /\ ranges_eqb [mkRange 0 UINT64_MAX; mkRange 5 6] [mkRange 0 UINT64_MAX] = false
  /\ (forall n, covers [mkRange 0 UINT64_MAX; mkRange 5 6] n <->
                covers [mkRange 0 UINT64_MAX] n).
Proof.
  split_and!; [reflexivity..|]. intros n.
  rewrite !covers_cons, !covers_nil. unfold in_range, UINT64_MAX. simpl. lia.
Qed.
