(* ===== verification/Scalar.v ===== *)
(** * Scalar values

    The [Value::Scalar] half of [src/src/common/values.cpp].  A scalar is a
    [double]; every operator converts it to a fixed point integer with three
    decimals ([convertToFixed]), computes there and converts back
    ([convertToFloating]).

    A [double] is the rational it denotes, and each floating point operation
    rounds its exact result to 53 significant bits, ties to even ([rnd]).
    The exponent is unbounded here: every intermediate value of the operators
    is zero or lies between [10^-3] and [2^60], where binary64 has neither
    overflow nor subnormal numbers.  Infinities and NaN, which
    [values::parse] rejects, are not values of the model. *)

From Stdlib Require Import ZArith QArith Qabs Qpower Lia Lqa.
From S2P Require Import Prelude.
Local Open Scope Z_scope.

(** ** Binary64 arithmetic on rationals *)

Abbreviation double := Q.

(** [n / d] rounded to the nearest integer, ties to even. *)
Definition round_half_even (n d : Z) : Z :=
  let q := n / d in
  let r := n mod d in
  if 2 * r <? d then q
  else if d <? 2 * r then q + 1
  else if Z.even q then q else q + 1.

(** [floor (log2 (n / d))] for positive [n] and [d]. *)
Definition exponent (n d : Z) : Z :=
  let e := Z.log2 n - Z.log2 d in
  if (if 0 <=? e then 2 ^ e * d <=? n else d <=? n * 2 ^ (- e)) then e else e - 1.

(** [n / d] scaled by [2^s], as a numerator and a denominator. *)
Definition scale (n d s : Z) : Z * Z :=
  if 0 <=? s then (n * 2 ^ s, d) else (n, d * 2 ^ (- s)).

Definition rnd (x : Q) : double :=
  let n := Qnum x in
  let d := Zpos (Qden x) in
  if n =? 0 then 0%Q
  else
    let s := 52 - exponent (Z.abs n) d in
    let '(n', d') := scale n d s in
    let m := round_half_even n' d' in
    if 0 <=? s then (m # Z.to_pos (2 ^ s))%Q else inject_Z (m * 2 ^ (- s)).

Definition fadd (x y : double) : double := rnd (x + y)%Q.
Definition fmul (x y : double) : double := rnd (x * y)%Q.
Definition fdiv (x y : double) : double := rnd (x / y)%Q.

(** [static_cast<double>(long long)]. *)
Definition of_int (z : Z) : double := rnd (inject_Z z).

(** [std::llround]: nearest integer, ties away from zero. *)
Definition llround (x : double) : Z :=
  let n := Qnum x in
  let d := Zpos (Qden x) in
  if 0 <=? n then (2 * n + d) / (2 * d) else - ((- 2 * n + d) / (2 * d)).

(** ** The conversions and the operators *)

Definition convertToFixed (floatValue : double) : Z :=
  llround (fmul floatValue (inject_Z 1000)).

(** [/] and [%] on [long long] truncate toward zero. *)
Definition convertToFloating (fixedValue : Z) : double :=
  let quotient := of_int (Z.quot fixedValue 1000) in
  let remainder := fdiv (of_int (Z.rem fixedValue 1000)) (inject_Z 1000) in
  fadd quotient remainder.

Definition scalar_eqb (left right : double) : bool :=
  convertToFixed left =? convertToFixed right.
Definition scalar_ltb (left right : double) : bool :=
  convertToFixed left <? convertToFixed right.
Definition scalar_leb (left right : double) : bool :=
  convertToFixed left <=? convertToFixed right.

Definition scalar_plus (left right : double) : double :=
  convertToFloating (convertToFixed left + convertToFixed right).
Definition scalar_minus (left right : double) : double :=
  convertToFloating (convertToFixed left - convertToFixed right).

(** ** The error of one rounding *)

Lemma round_half_even_err n d :
  0 < d -> 2 * Z.abs (n - d * round_half_even n d) <= d.
Proof.
  intros Hd. unfold round_half_even.
  pose proof (Z.div_mod n d). pose proof (Z.mod_pos_bound n d Hd).
  set (q := n / d) in *. set (r := n mod d) in *. assert (n = d * q + r) by lia.
  assert (d * (q + 1) = d * q + d) by ring.
  destruct (2 * r <? d) eqn:E1; [apply Z.ltb_lt in E1; lia|apply Z.ltb_ge in E1].
  destruct (d <? 2 * r) eqn:E2; [apply Z.ltb_lt in E2; lia|apply Z.ltb_ge in E2].
  destruct (Z.even q); lia.
Qed.

(** [2^(exponent n d) <= n / d], without division. *)
Lemma exponent_le n d :
  0 < n -> 0 < d ->
  (0 <= exponent n d -> 2 ^ exponent n d * d <= n)
  /\ (exponent n d < 0 -> d <= n * 2 ^ (- exponent n d)).
Proof.
  intros Hn Hd. unfold exponent.
  pose proof (Z.log2_spec n Hn). pose proof (Z.log2_spec d Hd).
  pose proof (Z.log2_nonneg n). pose proof (Z.log2_nonneg d).
  set (a := Z.log2 n) in *. set (b := Z.log2 d) in *.
  destruct (0 <=? a - b) eqn:E0;
    [apply Z.leb_le in E0|apply Z.leb_gt in E0].
  - destruct (2 ^ (a - b) * d <=? n) eqn:E; [apply Z.leb_le in E; lia|].
    split; intros Hs.
    + assert (2 ^ a = 2 ^ (a - b - 1) * 2 ^ (Z.succ b)) as Ha.
      { rewrite <- Z.pow_add_r by lia. f_equal. lia. }
      assert (0 < 2 ^ (a - b - 1)) by (apply Z.pow_pos_nonneg; lia). nia.
    + assert (a = b) as -> by lia. replace (- (b - b - 1)) with 1 by lia.
      rewrite Z.pow_succ_r in * by lia. lia.
  - destruct (d <=? n * 2 ^ (- (a - b))) eqn:E; [apply Z.leb_le in E; lia|].
    split; intros Hs; [lia|].
    assert (2 ^ (Z.succ b) = 2 ^ a * 2 ^ (- (a - b - 1))) as Hb.
    { rewrite <- Z.pow_add_r by lia. f_equal. lia. }
    assert (0 < 2 ^ (- (a - b - 1))) by (apply Z.pow_pos_nonneg; lia). nia.
Qed.

Definition ulp_bound : Q := (1 # Z.to_pos (2 ^ 53))%Q.

(** [d <= |n| * 2^-e] with [e] the exponent, scaled by [2^52]. *)
Lemma exponent_scale_nonneg n d :
  0 < n -> 0 < d -> 0 <= 52 - exponent n d ->
  d * 2 ^ 52 <= n * 2 ^ (52 - exponent n d).
Proof.
  intros Hn Hd Hs. destruct (exponent_le n d Hn Hd) as [H1 H2].
  set (e := exponent n d) in *.
  destruct (Z.le_gt_cases 0 e) as [He|He].
  - specialize (H1 He).
    assert (2 ^ 52 = 2 ^ e * 2 ^ (52 - e)) as ->.
    { rewrite <- Z.pow_add_r by lia. f_equal. lia. }
    assert (0 < 2 ^ (52 - e)) by (apply Z.pow_pos_nonneg; lia). nia.
  - specialize (H2 He).
    assert (2 ^ (52 - e) = 2 ^ (- e) * 2 ^ 52) as ->.
    { rewrite <- Z.pow_add_r by lia. f_equal. lia. }
    assert (0 < 2 ^ 52) by (apply Z.pow_pos_nonneg; lia). nia.
Qed.

Lemma exponent_scale_neg n d :
  0 < n -> 0 < d -> 52 - exponent n d < 0 ->
  d * 2 ^ (- (52 - exponent n d)) * 2 ^ 52 <= n.
Proof.
  intros Hn Hd Hs. destruct (exponent_le n d Hn Hd) as [H1 _].
  set (e := exponent n d) in *. specialize (H1 ltac:(lia)).
  rewrite <- Z.mul_assoc, <- Z.pow_add_r by lia.
  replace (- (52 - e) + 52) with e by lia. lia.
Qed.

(** The relative error of a rounding is at most [2^-53]. *)
Lemma rnd_err x : (Qabs (rnd x - x) <= Qabs x * ulp_bound)%Q.
Proof.
  destruct x as [n d]. unfold rnd. cbn [Qnum Qden].
  destruct (n =? 0) eqn:En; [apply Z.eqb_eq in En as ->; unfold Qle; simpl; lia|].
  apply Z.eqb_neq in En. set (s := 52 - exponent (Z.abs n) (Z.pos d)).
  unfold scale. destruct (0 <=? s) eqn:Es; [apply Z.leb_le in Es|apply Z.leb_gt in Es].
  - pose proof (exponent_scale_nonneg (Z.abs n) (Z.pos d) ltac:(lia) ltac:(lia) Es) as Hb.
    fold s in Hb.
    pose proof (round_half_even_err (n * 2 ^ s) (Z.pos d) ltac:(lia)) as Hr.
    set (m := round_half_even (n * 2 ^ s) (Z.pos d)) in *.
    assert (Hp : 0 < 2 ^ s) by (apply Z.pow_pos_nonneg; lia).
    unfold Qle, Qminus, Qplus, Qopp, Qmult, ulp_bound. cbn [Qnum Qden Qabs].
    rewrite !Pos2Z.inj_mul, !Z2Pos.id by lia.
    replace (m * Z.pos d + - n * 2 ^ s) with (- (n * 2 ^ s - Z.pos d * m)) by ring.
    rewrite Z.abs_opp. set (k := Z.abs (n * 2 ^ s - Z.pos d * m)) in *.
    assert (0 <= k) by lia. change (2 ^ 53) with (2 * 2 ^ 52). nia.
  - pose proof (exponent_scale_neg (Z.abs n) (Z.pos d) ltac:(lia) ltac:(lia) Es) as Hb.
    fold s in Hb.
    assert (Hp : 0 < 2 ^ (- s)) by (apply Z.pow_pos_nonneg; lia).
    pose proof (round_half_even_err n (Z.pos d * 2 ^ (- s)) ltac:(nia)) as Hr.
    set (m := round_half_even n (Z.pos d * 2 ^ (- s))) in *.
    unfold Qle, Qminus, Qplus, Qopp, Qmult, ulp_bound, inject_Z. cbn [Qnum Qden Qabs].
    rewrite !Pos2Z.inj_mul, !Z2Pos.id by lia.
    replace (m * 2 ^ (- s) * Z.pos d + - n * 1)
      with (- (n - Z.pos d * 2 ^ (- s) * m)) by ring.
    rewrite Z.abs_opp. set (k := Z.abs (n - Z.pos d * 2 ^ (- s) * m)) in *.
    assert (0 <= k) by lia. change (2 ^ 53) with (2 * 2 ^ 52). nia.
Qed.

(** The same error as a pair of linear inequalities, given a bound [b] on
    the exact result. *)
Lemma rnd_bounds x b :
  (- b <= x <= b)%Q ->
  (- (b * (1 # 9007199254740992)) <= rnd x - x <= b * (1 # 9007199254740992))%Q.
Proof.
  intros Hb. apply Qabs_Qle_condition. eapply Qle_trans; [apply rnd_err|].
  apply Qmult_le_compat_r; [|discriminate]. now apply Qabs_Qle_condition.
Qed.

(** [llround] finds the integer a value is close to. *)
Lemma llround_close x n :
  (Qabs (x - inject_Z n) < 1 # 2)%Q -> llround x = n.
Proof.
  destruct x as [a d]. unfold llround, Qlt, Qminus, Qplus, Qopp, inject_Z.
  cbn [Qnum Qden Qabs]. rewrite ?Pos2Z.inj_mul. intros H.
  destruct (0 <=? a) eqn:E; [apply Z.leb_le in E|apply Z.leb_gt in E].
  - symmetry. apply (Z.div_unique_pos _ _ _ (2 * a + Z.pos d - 2 * Z.pos d * n)); nia.
  - enough ((- 2 * a + Z.pos d) / (2 * Z.pos d) = - n) by lia.
    symmetry. apply (Z.div_unique_pos _ _ _ (- 2 * a + Z.pos d + 2 * Z.pos d * n)); nia.
Qed.

(** ** Properties *)

(** The largest fixed point magnitude the round trip is proved for:
    [2^49] thousandths, more than 5.6 * 10^11 units. *)
Definition MAX_FIXED : Z := 2 ^ 49.

Definition fits (n : Z) : Prop := - MAX_FIXED <= n <= MAX_FIXED.

Lemma quot_rem_bounds n :
  fits n ->
  - 562949953422 <= Z.quot n 1000 <= 562949953422
  /\ -999 <= Z.rem n 1000 <= 999
  /\ n = 1000 * Z.quot n 1000 + Z.rem n 1000.
Proof.
  unfold fits, MAX_FIXED. intros H.
  pose proof (Z.quot_rem' n 1000). pose proof (Z.rem_bound_abs n 1000).
  repeat split; lia.
Qed.

(** The value the conversions go through stays within a quarter of the
    integer it stands for. *)
Lemma fixed_product_close n :
  fits n ->
  (Qabs (fmul (convertToFloating n) (inject_Z 1000) - inject_Z n) < 1 # 2)%Q.
Proof.
  intros Hn. destruct (quot_rem_bounds n Hn) as (Hq & Hr & Heq).
  unfold convertToFloating, fmul, fadd, fdiv, of_int.
  set (q := Z.quot n 1000) in *. set (r := Z.rem n 1000) in *.
  assert (Hn' : (inject_Z n == inject_Z 1000 * inject_Z q + inject_Z r)%Q).
  { rewrite Heq at 1. rewrite inject_Z_plus, inject_Z_mult. reflexivity. }
  assert (Hq1 : (- (562949953422 # 1) <= inject_Z q <= 562949953422 # 1)%Q).
  { unfold Qle, inject_Z; simpl; lia. }
  assert (Hr1 : (- (999 # 1) <= inject_Z r <= 999 # 1)%Q).
  { unfold Qle, inject_Z; simpl; lia. }
  rewrite Hn'. clear Hn' Heq Hq Hr Hn.
  generalize dependent (inject_Z q). generalize dependent (inject_Z r).
  intros r' Hr1 q' Hq1. clear q r.
  pose proof (rnd_bounds _ _ Hq1) as Bq. pose proof (rnd_bounds _ _ Hr1) as Br.
  set (fq := rnd q') in *. set (fr := rnd r') in *.
  assert (Ht : (- (1 # 1) <= fr / inject_Z 1000 <= 1 # 1)%Q).
  { unfold Qdiv. change (/ inject_Z 1000)%Q with (1 # 1000)%Q. lra. }
  pose proof (rnd_bounds _ _ Ht) as Bt. set (t := rnd (fr / inject_Z 1000)) in *.
  assert (Hs : (- (562949953424 # 1) <= fq + t <= 562949953424 # 1)%Q).
  { lra. }
  pose proof (rnd_bounds _ _ Hs) as Bs. set (s := rnd (fq + t)) in *.
  assert (Hp : (- (562949953426000 # 1) <= s * inject_Z 1000 <= 562949953426000 # 1)%Q).
  { change (inject_Z 1000) with (1000 # 1)%Q. lra. }
  pose proof (rnd_bounds _ _ Hp) as Bp. set (p := rnd (s * inject_Z 1000)) in *.
  unfold Qdiv in *. change (/ inject_Z 1000)%Q with (1 # 1000)%Q in *.
  change (inject_Z 1000) with (1000 # 1)%Q in *.
  apply Qabs_Qlt_condition. lra.
Qed.

(** Converting a fixed point value to a [double] and back is lossless. *)
Lemma fixed_roundtrip n : fits n -> convertToFixed (convertToFloating n) = n.
Proof. intros Hn. unfold convertToFixed. apply llround_close, fixed_product_close, Hn. Qed.

(** Converting a fixed point value to a [double] and back is lossless: for
    every number of thousandths up to [2^49] in magnitude, the four roundings
    of [convertToFloating] and the one of [convertToFixed] cancel. *)
Theorem scalar_fixed_roundtrip n :
  fits n -> convertToFixed (convertToFloating n) = n.
Proof. exact (fixed_roundtrip n). Qed.

Lemma scalar_fixed_roundtrip_witness :
  convertToFixed (convertToFloating 1234567) = 1234567.
Proof.
  apply (scalar_fixed_roundtrip 1234567). vm_compute. split; discriminate.
Defined.

(** C15. Sums and differences of scalars are exact in thousandths: the operators
    on [double]s implement integer addition and subtraction of the fixed point
    values, so a sum may be taken in any order and an addition be undone
    without drift. *)
Theorem scalar_ops_exact a b :
  fits (convertToFixed a) -> fits (convertToFixed b) ->
  fits (convertToFixed a + convertToFixed b) ->
  fits (convertToFixed a - convertToFixed b) ->
  convertToFixed (scalar_plus a b) = convertToFixed a + convertToFixed b
  /\ convertToFixed (scalar_minus a b) = convertToFixed a - convertToFixed b
  /\ scalar_eqb (scalar_minus (scalar_plus a b) b) a = true
  /\ scalar_leb a (scalar_plus a b) = (0 <=? convertToFixed b).
Proof.
  intros Ha Hb Hs Hd. unfold scalar_plus, scalar_minus, scalar_eqb, scalar_leb.
  rewrite !fixed_roundtrip by assumption.
  replace (convertToFixed a + convertToFixed b - convertToFixed b)
    with (convertToFixed a) by lia.
  rewrite fixed_roundtrip by assumption. repeat split; lia.
Qed.

Lemma scalar_ops_exact_witness :
  convertToFixed (scalar_plus (1 # 10) (2 # 10)) = 300
  /\ scalar_eqb (scalar_minus (scalar_plus (1 # 10) (2 # 10)) (2 # 10)) (1 # 10) = true.
Proof.
  assert (H := scalar_ops_exact (1 # 10) (2 # 10)
    ltac:(vm_compute; split; discriminate) ltac:(vm_compute; split; discriminate)
    ltac:(vm_compute; split; discriminate) ltac:(vm_compute; split; discriminate)).
  split; [|apply H].
  transitivity (convertToFixed (1 # 10) + convertToFixed (2 # 10)); [apply H|].
  vm_compute. reflexivity.
Defined.
