(* ===== verification/Rounding.v ===== *)
(** * The order of rounded numbers

    Rounding to a double keeps the order against doubles ([rnd_above]): the
    sum of some weights, rounded after every step, is at least each of them.
    Doubles and [rnd] are those of [Scalar.v]. *)

From stdpp Require Import base numbers.
From Stdlib Require Import ZArith QArith Qabs Qpower Lia Lqa.
From S2P Require Import Prelude Scalar.
Local Open Scope Z_scope.

Lemma rnd_nonneg x : (0 <= x -> 0 <= rnd x)%Q.
Proof.
  intros H. assert (E := rnd_err x). rewrite (Qabs_pos x) in E by done. apply Qabs_Qle_condition in E as [E _]. unfold ulp_bound in E.
  assert (U : (0 < 1 # Z.to_pos (2 ^ 53))%Q) by done. assert (U' : ((1 # Z.to_pos (2 ^ 53)) < 1)%Q) by done. nra.
Qed.

Lemma rnd_pos x : (0 < x -> 0 < rnd x)%Q.
Proof.
  intros H. assert (E := rnd_err x). rewrite (Qabs_pos x) in E by lra. apply Qabs_Qle_condition in E as [E _]. unfold ulp_bound in E.
  assert (U' : ((1 # Z.to_pos (2 ^ 53)) < 1)%Q) by done. nra.
Qed.

(** [2^e], also for negative [e]. *)
Definition two_to (e : Z) : Q := (2 ^ e)%Q.

Lemma two_to_pos e : (0 < two_to e)%Q.
Proof. by apply Qpower_0_lt. Qed.

Lemma two_to_le e f : e <= f -> (two_to e <= two_to f)%Q.
Proof. intros H. by apply Qpower_le_compat_l. Qed.

Lemma two_to_add e f : (two_to (e + f) == two_to e * two_to f)%Q.
Proof. by apply Qpower_plus. Qed.

Lemma two_to_int e : 0 <= e -> (two_to e == inject_Z (2 ^ e))%Q.
Proof. intros H. unfold two_to. symmetry. apply (Zpower_Qpower 2 e H). Qed.

Lemma two_to_opp e : (two_to (- e) * two_to e == 1)%Q.
Proof. rewrite <- two_to_add. by replace (- e + e) with 0 by lia. Qed.

(** A power of two goes to the other side. *)
Lemma two_to_shift_le x y e : (y * two_to (- e) <= x)%Q <-> (y <= x * two_to e)%Q.
Proof.
  rewrite <- (Qmult_le_r (y * two_to (- e)) x (two_to e)) by apply two_to_pos. by rewrite <- Qmult_assoc, two_to_opp, Qmult_1_r.
Qed.

Lemma two_to_shift_lt x y e : (x < y * two_to (- e))%Q <-> (x * two_to e < y)%Q.
Proof.
  rewrite <- (Qmult_lt_r x (y * two_to (- e)) (two_to e)) by apply two_to_pos. by rewrite <- Qmult_assoc, two_to_opp, Qmult_1_r.
Qed.

Lemma exponent_gt n d :
  0 < n -> 0 < d -> (0 <= exponent n d + 1 -> n < 2 ^ (exponent n d + 1) * d) /\ (exponent n d + 1 < 0 -> n * 2 ^ (- (exponent n d + 1)) < d).
Proof.
  intros Hn Hd. unfold exponent.
  pose proof (Z.log2_spec n Hn). pose proof (Z.log2_spec d Hd). pose proof (Z.log2_nonneg n). pose proof (Z.log2_nonneg d).
  set (a := Z.log2 n) in *. set (b := Z.log2 d) in *.
  destruct (0 <=? a - b) eqn:E0; [apply Z.leb_le in E0|apply Z.leb_gt in E0].
  - destruct (2 ^ (a - b) * d <=? n) eqn:E; [|apply Z.leb_gt in E; split; intros ?; [by replace (a - b - 1 + 1) with (a - b) by lia|lia]].
    split; intros ?; [|lia]. assert (Ha : 2 ^ Z.succ a = 2 ^ (a - b + 1) * 2 ^ b) by (rewrite <- Z.pow_add_r by lia; f_equal; lia).
    assert (0 < 2 ^ (a - b + 1)) by (apply Z.pow_pos_nonneg; lia). nia.
  - destruct (d <=? n * 2 ^ (- (a - b))) eqn:E.
    + split; intros Hs.
      * replace (a - b + 1) with 0 by lia. rewrite Z.pow_0_r, Z.mul_1_l. assert (Z.succ a <= b) by lia.
        assert (2 ^ Z.succ a <= 2 ^ b) by (apply Z.pow_le_mono_r; lia). lia.
      * assert (Hb : 2 ^ b = 2 ^ Z.succ a * 2 ^ (- (a - b + 1))) by (rewrite <- Z.pow_add_r by lia; f_equal; lia).
        assert (0 < 2 ^ (- (a - b + 1))) by (apply Z.pow_pos_nonneg; lia). nia.
    + apply Z.leb_gt in E. replace (a - b - 1 + 1) with (a - b) by lia. split; intros ?; lia.
Qed.

Definition exponent_of (x : Q) : Z := exponent (Z.abs (Qnum x)) (Zpos (Qden x)).

Lemma two_to_exponent x : (0 < x)%Q -> (two_to (exponent_of x) <= x /\ x < two_to (exponent_of x + 1))%Q.
Proof.
  destruct x as [n d]. intros H. assert (Hn : 0 < n) by (unfold Qlt in H; cbn in H; lia). unfold exponent_of. cbn [Qnum Qden]. rewrite Z.abs_eq by lia.
  set (e := exponent n (Zpos d)). destruct (exponent_le n (Zpos d) Hn eq_refl) as [L1 L2], (exponent_gt n (Zpos d) Hn eq_refl) as [G1 G2]. fold e in L1, L2, G1, G2. split.
  - destruct (Z.le_gt_cases 0 e) as [He|He].
    + rewrite two_to_int by done. unfold Qle, inject_Z. cbn. specialize (L1 He). lia.
    + rewrite <- (Qmult_1_l (two_to e)), <- (Z.opp_involutive e). apply two_to_shift_le. rewrite two_to_int by lia.
      unfold Qle, inject_Z. cbn. specialize (L2 He). lia.
  - destruct (Z.le_gt_cases 0 (e + 1)) as [He|He].
    + rewrite two_to_int by done. unfold Qlt, inject_Z. cbn. specialize (G1 He). lia.
    + rewrite <- (Qmult_1_l (two_to (e + 1))), <- (Z.opp_involutive (e + 1)). apply two_to_shift_lt. rewrite two_to_int by lia.
      unfold Qlt, inject_Z. cbn. specialize (G2 He). lia.
Qed.

Lemma round_half_even_floor n d : 0 < d -> n / d <= round_half_even n d.
Proof. intros Hd. unfold round_half_even. destruct (2 * _ <? d); [lia|]. destruct (d <? _); [lia|]. destruct (Z.even _); lia. Qed.

(** A positive number is rounded to a multiple of a power of two, and not below
    such a multiple. *)
Lemma rnd_form x :
  (0 < x)%Q -> let s := 52 - exponent_of x in
  exists m, (rnd x == inject_Z m * two_to (- s))%Q /\ forall k, (inject_Z k * two_to (- s) <= x)%Q -> k <= m.
Proof.
  destruct x as [n d]. intros H s. assert (Hn : 0 < n) by (unfold Qlt in H; cbn in H; lia).
  unfold rnd. cbn [Qnum Qden]. rewrite (proj2 (Z.eqb_neq n 0)) by lia. change (52 - exponent (Z.abs n) (Zpos d)) with s. unfold scale.
  destruct (0 <=? s) eqn:Es; [apply Z.leb_le in Es|apply Z.leb_gt in Es].
  - exists (round_half_even (n * 2 ^ s) (Zpos d)). assert (P2 : 0 < 2 ^ s) by (apply Z.pow_pos_nonneg; lia). split.
    + assert (O := two_to_opp s). rewrite (two_to_int s Es) in O. rewrite Qmake_Qdiv, Z2Pos.id by done.
      assert (Hi : ~ (inject_Z (2 ^ s) == 0)%Q) by (unfold Qeq; cbn; lia).
      apply (Qmult_inj_r _ _ (inject_Z (2 ^ s)) Hi). rewrite <- (Qmult_assoc _ (two_to (- s))), O. field. done.
    + intros k Hk%two_to_shift_le. rewrite two_to_int in Hk by done. unfold Qle, inject_Z in Hk. cbn in Hk. etransitivity; [|by apply round_half_even_floor].
      apply Z.div_le_lower_bound; [done|]. lia.
  - exists (round_half_even n (Zpos d * 2 ^ (- s))). assert (P2 : 0 < 2 ^ (- s)) by (apply Z.pow_pos_nonneg; lia). split.
    + rewrite inject_Z_mult. by rewrite (two_to_int (- s)) by lia.
    + intros k Hk. rewrite two_to_int in Hk by lia. unfold Qle, inject_Z in Hk. cbn in Hk. etransitivity; [|apply round_half_even_floor; lia].
      apply Z.div_le_lower_bound; lia.
Qed.

(** A number that is not changed by rounding. *)
Definition is_double (x : Q) : Prop := (rnd x == x)%Q.

Lemma rnd_above w x : is_double w -> (0 < w -> w <= x -> w <= rnd x)%Q.
Proof.
  intros Hw Pw Hx. assert (Px : (0 < x)%Q) by lra. destruct (two_to_exponent w Pw) as [W1 W2], (two_to_exponent x Px) as [X1 X2].
  destruct (rnd_form w Pw) as (mw & Ew & _), (rnd_form x Px) as (mx & Ex & Gx). unfold is_double in Hw. rewrite Ew in Hw.
  destruct (Z.lt_trichotomy (exponent_of w) (exponent_of x)) as [Hlt|[Heq|Hgt]].
  - assert (K : (inject_Z (2 ^ 52) * two_to (- (52 - exponent_of x)) == two_to (exponent_of x))%Q).
    { rewrite <- (two_to_int 52) by lia. rewrite <- two_to_add. by replace (52 + - (52 - exponent_of x)) with (exponent_of x) by lia. }
    assert (Hm : 2 ^ 52 <= mx) by (apply Gx; by rewrite K). rewrite Ex. assert (P := two_to_pos (- (52 - exponent_of x))).
    assert (M := two_to_le (exponent_of w + 1) (exponent_of x) ltac:(lia)). rewrite Zle_Qle in Hm. nra.
  - rewrite Heq in Hw. assert (Hm : mw <= mx) by (apply Gx; by rewrite Hw). rewrite Ex. assert (P := two_to_pos (- (52 - exponent_of x))).
    rewrite Zle_Qle in Hm. nra.
  - exfalso. assert (M := two_to_le (exponent_of x + 1) (exponent_of w) ltac:(lia)). lra.
Qed.

(** A weight that the master accepts. *)
Definition weight_ok (w : Q) : Prop := (0 < w)%Q /\ is_double w.
