(* ===== verification/Values.v ===== *)
(** * Set, text and parsed values

    The rest of [src/src/common/values.cpp]: the operators on [Value::Set],
    and [values::parse], which turns the text of a resource or an attribute
    into a value.

    A scalar is carried by its fixed point image, the number of thousandths
    every operator of [Scalar] computes with. *)

From stdpp Require Import base gmap strings list sorting.
From Stdlib Require Import Ascii DecimalString DecimalN.
From S2P Require Import Prelude Strings Ranges Scalar.

(** ** Sets *)

Abbreviation ValueSet := (list string).

(** The inner loops over [j] with their [found] flag. *)
Definition found (item : string) (items : ValueSet) : bool :=
  existsb (fun other => bool_decide (item = other)) items.

(** [operator==(Value::Set, Value::Set)].  The inner loop over [j] compares
    [left.item(i)] with [right.item(i)]: it succeeds on its first round or
    never. *)
Definition set_eqb (left right : ValueSet) : bool :=
  (length left =? length right)
  && forallb (fun i =>
       existsb (fun _ : nat => bool_decide (left !! i = right !! i)) (seq 0 (length right)))
     (seq 0 (length left)).

(** [operator<=(Value::Set, Value::Set)]. *)
Definition set_leb (left right : ValueSet) : bool :=
  (length left <=? length right) && forallb (fun x => found x right) left.

(** [operator+=(Value::Set, Value::Set)]: append what is not there yet. *)
Definition set_plus_assign (left right : ValueSet) : ValueSet :=
  fold_left (fun result x => if found x result then result else result ++ [x]) right left.

(** [operator+] copies the left operand, then does the same. *)
Definition set_plus (left right : ValueSet) : ValueSet :=
  set_plus_assign (fold_left (fun result x => result ++ [x]) left []) right.

(** [operator-(Value::Set, Value::Set)]. *)
Definition set_minus (left right : ValueSet) : ValueSet :=
  List.filter (fun x => negb (found x right)) left.

(** The removal of the first occurrence, by [DeleteSubrange(j, 1)]. *)
Fixpoint delete_first (x : string) (items : ValueSet) : ValueSet :=
  match items with
  | [] => []
  | y :: items' => if bool_decide (x = y) then items' else y :: delete_first x items'
  end.

(** [operator-=(Value::Set, Value::Set)]. *)
Definition set_minus_assign (left right : ValueSet) : ValueSet :=
  fold_left (fun result x => delete_first x result) right left.

(** ** Values *)

Inductive Value :=
  | VScalar (fixed : Z)
  | VRanges (ranges : list Range)
  | VSet (items : ValueSet)
  | VText (text : string).

Inductive ValueType := SCALAR | RANGES | SET | TEXT.

#[export] Instance ValueType_eq_dec : EqDecision ValueType.
Proof. solve_decision. Defined.

#[export] Instance Value_eq_dec : EqDecision Value.
Proof. solve_decision. Defined.

Definition type_of (v : Value) : ValueType :=
  match v with
  | VScalar _ => SCALAR
  | VRanges _ => RANGES
  | VSet _ => SET
  | VText _ => TEXT
  end.

(** ** Numbers in text

    [stout/numify.hpp] tries [boost::lexical_cast] and falls back to a
    hexadecimal stream; both belong to libraries and are the fields of
    [lexical]: what the cast returns for a whole string, and what
    [ss >> std::hex] returns when it reaches the end of it. *)

Record lexical (T : Type) := mkLexical {
  lexical_cast : string -> option T;
  hex_stream : string -> option T;
  negate : T -> T;
}.
Arguments lexical_cast {T} _ _.
Arguments hex_stream {T} _ _.
Arguments negate {T} _ _.

Definition numify {T : Type} (lex : lexical T) (s : string) : option T :=
  let maybeHex :=
    startsWith s "0x" || startsWith s "0X" || startsWith s "-0x" || startsWith s "-0X" in
  if maybeHex && (contains s "." || contains s "p") then None
  else
    match lexical_cast lex s with
    | Some x => Some x
    | None =>
        if maybeHex then
          if startsWith s "-" then negate lex <$> hex_stream lex (implode (tail (explode s)))
          else hex_stream lex s
        else None
    end.

(** What [std::fpclassify] distinguishes about a [double]. *)
Inductive parsed_double :=
  | FpInfinite
  | FpNan
  | FpSubnormal
  | FpZero
  | FpNormal (x : double).

(** ** Parsing *)

Inductive parse_error :=
  | EmptyText
  | MismatchedBrackets
  | OddRanges
  | NotANumber
  | SubnormalValue
  | UnexpectedBrace
  | UnexpectedBracket.

#[export] Instance parse_error_eq_dec : EqDecision parse_error.
Proof. solve_decision. Defined.

(** [for (size_t i = 0; i < tokens.size(); i += 2)]. *)
Fixpoint parse_ranges (lexu : lexical Z) (tokens : list string)
  : result parse_error (list Range) :=
  match tokens with
  | b :: e :: rest =>
      match numify lexu b, numify lexu e with
      | Some begin, Some end' =>
          let? ranges := parse_ranges lexu rest in Ok (mkRange begin end' :: ranges)
      | _, _ => Err NotANumber
      end
  | _ => Ok []
  end.

Definition range_delims : string := String "[" (String "]" (String "-" (String "," (String "010" "")))).
Definition set_delims : string := String "{" (String "}" (String "," (String "010" ""))).

Definition find_char (s : string) (c : char) : option nat :=
  find_from (Ascii.eqb c) (explode s) 0.

Definition parse (lexu : lexical Z) (lexd : lexical parsed_double) (text : string)
  : result parse_error Value :=
  let temp := remove_char text " " in
  if bool_decide (String.length temp = 0) then Err EmptyText
  else if negb (checkBracketsMatching temp "{" "}")
          || negb (checkBracketsMatching temp "[" "]")
          || negb (checkBracketsMatching temp "(" ")") then Err MismatchedBrackets
  else
    match find_char temp "[" with
    | Some O =>
        let tokens := tokenize temp range_delims in
        if negb (Nat.even (length tokens)) then Err OddRanges
        else
          let? ranges := parse_ranges lexu tokens in
          Ok (VRanges (coalesce ranges [[]]))
    | None =>
        match find_char temp "{" with
        | Some O => Ok (VSet (tokenize temp set_delims))
        | None =>
            match numify lexd temp with
            | Some FpSubnormal => Err SubnormalValue
            | Some FpZero => Ok (VScalar 0)
            | Some (FpNormal x) =>
                if (QArith_base.Qnum x <? 0)%Z then Ok (VText temp) else Ok (VScalar (convertToFixed x))
            | Some FpInfinite | Some FpNan | None => Ok (VText temp)
            end
        | Some _ => Err UnexpectedBrace
        end
    | Some _ => Err UnexpectedBracket
    end.

(** ** Printing *)

(** [stream << uint64_t]. *)
Definition print_u64 (z : Z) : string :=
  NilZero.string_of_uint (N.to_uint (Z.to_N z)).

Definition print_range (r : Range) : list char :=
  explode (print_u64 (rbegin r)) ++ ["-"%char] ++ explode (print_u64 (rend r)).

(** [operator<<(ostream&, Value::Ranges)]. *)
Definition print_ranges (rs : list Range) : string :=
  implode (["["%char] ++ join_chars [","; " "]%char (map print_range rs) ++ ["]"%char]).

(** [operator<<(ostream&, Value::Set)]. *)
Definition print_set (items : ValueSet) : string :=
  implode (["{"%char] ++ join_chars [","; " "]%char (map explode items) ++ ["}"%char]).

(** ** Sets: lemmas *)

Lemma found_spec x items : found x items = true <-> x ∈ items.
Proof.
  unfold found. rewrite existsb_exists. setoid_rewrite bool_decide_eq_true.
  setoid_rewrite <- list_elem_of_In. naive_solver.
Qed.

Lemma found_false x items : found x items = false <-> x ∉ items.
Proof. rewrite <- found_spec. by destruct (found x items). Qed.

Lemma set_eqb_spec left right : set_eqb left right = true <-> left = right.
Proof.
  unfold set_eqb. rewrite andb_true_iff, Nat.eqb_eq, forallb_forall. split.
  - intros [Hlen H]. apply list_eq. intros i.
    destruct (decide (i < length left)) as [Hi|Hi].
    + specialize (H i). rewrite in_seq in H. specialize (H ltac:(lia)).
      apply existsb_exists in H as (j & _ & Hj). by apply bool_decide_eq_true in Hj.
    + rewrite !lookup_ge_None_2 by lia. done.
  - intros ->. split; [done|]. intros i Hi. apply existsb_exists. exists i.
    rewrite bool_decide_eq_true_2 by done. done.
Qed.

Lemma elem_of_set_plus_assign x left right :
  x ∈ set_plus_assign left right <-> x ∈ left \/ x ∈ right.
Proof.
  unfold set_plus_assign. revert left.
  induction right as [|y right IH]; intros left; simpl.
  - rewrite elem_of_nil. tauto.
  - rewrite IH, elem_of_cons. destruct (found y left) eqn:E.
    + apply found_spec in E. naive_solver.
    + rewrite elem_of_app, list_elem_of_singleton. naive_solver.
Qed.

Lemma NoDup_set_plus_assign left right :
  NoDup left -> NoDup (set_plus_assign left right).
Proof.
  unfold set_plus_assign. revert left.
  induction right as [|y right IH]; intros left Hl; simpl; [done|].
  apply IH. destruct (found y left) eqn:E; [done|]. apply found_false in E.
  apply NoDup_app. split_and!; [done| |apply NoDup_singleton].
  intros x Hx ->%list_elem_of_singleton. done.
Qed.

Lemma fold_left_app_id {A} (l acc : list A) :
  fold_left (fun result x => result ++ [x]) l acc = acc ++ l.
Proof.
  revert acc. induction l as [|x l IH]; intros acc; simpl; [by rewrite app_nil_r|].
  by rewrite IH, <- (assoc_L (++)).
Qed.

Lemma elem_of_set_minus x left right :
  x ∈ set_minus left right <-> x ∈ left /\ x ∉ right.
Proof.
  unfold set_minus. rewrite list_elem_of_In, filter_In, <- list_elem_of_In.
  by rewrite negb_true_iff, found_false.
Qed.

Lemma NoDup_set_minus left right : NoDup left -> NoDup (set_minus left right).
Proof. unfold set_minus. rewrite !NoDup_ListNoDup. apply List.NoDup_filter. Qed.

Lemma delete_first_NoDup x items :
  NoDup items -> delete_first x items = List.filter (fun y => negb (bool_decide (x = y))) items.
Proof.
  induction 1 as [|y items Hy Hnd IH]; simpl; [done|].
  case_bool_decide as Hxy; simpl; [|by rewrite IH].
  subst y. symmetry. rewrite <- IH. clear -Hy.
  induction items as [|z items IH]; simpl; [done|].
  apply not_elem_of_cons in Hy as [? ?]. rewrite bool_decide_eq_false_2 by done.
  by rewrite IH.
Qed.

Lemma filter_filter_List {A} (f g : A -> bool) l :
  List.filter f (List.filter g l) = List.filter (fun x => g x && f x) l.
Proof.
  induction l as [|x l IH]; simpl; [done|].
  destruct (g x); simpl; rewrite IH; done.
Qed.

(** In-place removal agrees with the copying difference on sets without
    repetition. *)
Lemma set_minus_assign_eq left right :
  NoDup left -> set_minus_assign left right = set_minus left right.
Proof.
  unfold set_minus_assign, set_minus. revert left.
  induction right as [|y right IH]; intros left Hnd; simpl.
  - symmetry. clear. induction left as [|x left IH]; simpl; [done|]. by rewrite IH.
  - rewrite IH.
    + rewrite delete_first_NoDup, filter_filter_List by done.
      apply filter_ext. intros x. rewrite negb_orb. f_equal. f_equal.
      by apply bool_decide_ext.
    + rewrite delete_first_NoDup by done. rewrite !NoDup_ListNoDup in *.
      by apply List.NoDup_filter.
Qed.

(** On sets without repetition [+] is union, [-] and [-=] are difference
    and [<=] decides inclusion, and no operator introduces a repetition. *)
Theorem set_operators left right :
  NoDup left -> NoDup right ->
  (forall x, x ∈ set_plus left right <-> x ∈ left \/ x ∈ right)
  /\ (forall x, x ∈ set_minus left right <-> x ∈ left /\ x ∉ right)
  /\ set_plus_assign left right = set_plus left right
  /\ set_minus_assign left right = set_minus left right
  /\ (set_leb left right = true <-> forall x, x ∈ left -> x ∈ right)
  /\ NoDup (set_plus left right) /\ NoDup (set_minus left right).
Proof.
  intros Hl Hr. unfold set_plus. rewrite fold_left_app_id. simpl.
  split_and!; auto using elem_of_set_plus_assign, elem_of_set_minus, set_minus_assign_eq,
    NoDup_set_plus_assign, NoDup_set_minus.
  unfold set_leb. rewrite andb_true_iff, forallb_forall, Nat.leb_le.
  setoid_rewrite <- list_elem_of_In. setoid_rewrite found_spec. split; [tauto|].
  intros Hsub. split; [|done]. by apply submseteq_length, NoDup_submseteq.
Qed.

Lemma set_operators_witness :
  set_minus (set_plus ["a"; "b"]%string ["b"; "c"]%string) ["b"]%string = ["a"; "c"]%string
  /\ "c"%string ∈ set_plus ["a"; "b"]%string ["b"; "c"]%string.
Proof.
  split; [reflexivity|].
  apply (set_operators ["a"; "b"]%string ["b"; "c"]%string);
    [apply (bool_decide_unpack (NoDup _)); vm_compute; exact I..|].
  right. right. left.
Defined.

(** [operator==] on sets compares the lists position by position (its inner
    loop reads [right.item(i)]), so it distinguishes two orders of the same
    set although each is [<=] the other. *)
Theorem set_eqb_is_positional :
  (forall left right, set_eqb left right = true <-> left = right)
  /\ exists left right,
       set_leb left right = true /\ set_leb right left = true
       /\ set_eqb left right = false.
Proof.
  split; [apply set_eqb_spec|].
  exists ["a"; "b"]%string, ["b"; "a"]%string. done.
Qed.

(** ** Printing and parsing back *)

Definition digits : list char := explode "0123456789".

Definition is_digits (l : list char) : Prop := l <> [] /\ Forall (fun c => c ∈ digits) l.

Lemma string_of_uint_digits d :
  Forall (fun c => c ∈ digits) (explode (NilEmpty.string_of_uint d)).
Proof.
  unfold digits. induction d; simpl; constructor; try done;
    apply (bool_decide_unpack (_ ∈ _)); vm_compute; exact I.
Qed.

Lemma print_u64_digits z : is_digits (explode (print_u64 z)).
Proof.
  unfold print_u64, NilZero.string_of_uint.
  pose proof (string_of_uint_digits (N.to_uint (Z.to_N z))) as H.
  destruct (N.to_uint (Z.to_N z)); (split; [done|]); try exact H.
  apply (bool_decide_unpack (Forall _ _)). vm_compute. exact I.
Qed.

(** A character that is not a digit does not occur in a printed number. *)
Lemma digits_avoid (p : char -> bool) l :
  forallb (fun c => negb (p c)) digits = true -> is_digits l ->
  Forall (fun c => p c = false) l.
Proof.
  intros Hp [_ Hl]. eapply Forall_impl; [exact Hl|]. intros c Hc.
  rewrite forallb_forall in Hp. apply negb_true_iff, Hp. by apply list_elem_of_In.
Qed.

Lemma filter_all {A} (p : A -> bool) l :
  Forall (fun c => p c = true) l -> List.filter p l = l.
Proof. induction 1 as [|x l Hx Hl IH]; simpl; [done|]. by rewrite Hx, IH. Qed.

Lemma filter_join (p : char -> bool) sep ls :
  List.filter p (join_chars sep ls) = join_chars (List.filter p sep) (map (List.filter p) ls).
Proof.
  induction ls as [|l [|l' ls] IH]; [done..|].
  cbn [join_chars map] in *. by rewrite !List.filter_app, IH.
Qed.

Lemma join_Forall (P : char -> Prop) sep ls :
  Forall P sep -> Forall (Forall P) ls -> Forall P (join_chars sep ls).
Proof.
  intros Hs. induction 1 as [|l ls Hl Hls IH]; simpl; [constructor|].
  destruct ls; [done|]. rewrite !Forall_app. done.
Qed.

Lemma checkBrackets_skip a b o c count :
  Forall (fun x => x <> o /\ x <> c) a -> (0 <= count)%Z ->
  checkBrackets_loop (a ++ b) o c count = checkBrackets_loop b o c count.
Proof.
  induction 1 as [|x a [Ho Hc] Ha IH]; intros Hcount; simpl; [done|].
  apply Ascii.eqb_neq in Ho, Hc. rewrite Ho, Hc.
  replace (count <? 0)%Z with false by (symmetry; apply Z.ltb_ge; lia). auto.
Qed.

(** The characters of a printed range list between its brackets. *)
Definition body_char (c : char) : Prop := c ∈ digits \/ c = "-"%char \/ c = ","%char.

Lemma print_range_body r : Forall body_char (print_range r).
Proof.
  unfold print_range. rewrite !Forall_app. split_and!.
  1, 3: eapply Forall_impl; [apply print_u64_digits|]; by left.
  constructor; [|constructor]. right. by left.
Qed.

Lemma body_char_neq c x :
  forallb (fun d => negb (Ascii.eqb d x)) (digits ++ ["-"; ","]%char) = true ->
  body_char c -> c <> x.
Proof.
  intros H Hc ->. rewrite forallb_forall in H.
  specialize (H x). rewrite Ascii.eqb_refl in H. discriminate H.
  apply list_elem_of_In, elem_of_app. destruct Hc as [?|[->| ->]]; [by left|right..].
  - by left.
  - by right; left.
Qed.

Lemma range_fields r x rest :
  is_delim (explode range_delims) x = true ->
  nonempty_fields (is_delim (explode range_delims)) (print_range r ++ x :: rest) =
  explode (print_u64 (rbegin r)) :: explode (print_u64 (rend r)) ::
  nonempty_fields (is_delim (explode range_delims)) rest.
Proof.
  intros Hx. set (d := is_delim (explode range_delims)) in *.
  assert (Hd : forall z, Forall (fun c => d c = false) (explode (print_u64 z)))
    by (intros z; apply digits_avoid; [done|apply print_u64_digits]).
  unfold print_range. rewrite <- !(assoc_L (++)). cbn [app].
  rewrite nonempty_fields_run by (apply print_u64_digits || done). rewrite nonempty_fields_skip by done.
  rewrite nonempty_fields_run by (apply print_u64_digits || done). by rewrite nonempty_fields_skip by done.
Qed.

Lemma ranges_tokens rs :
  nonempty_fields (is_delim (explode range_delims))
    (join_chars [","%char] (map print_range rs) ++ ["]"%char]) =
  flat_map (fun r => [explode (print_u64 (rbegin r)); explode (print_u64 (rend r))]) rs.
Proof.
  induction rs as [|r [|r' rs] IH].
  - done.
  - cbn [map join_chars flat_map app]. by rewrite range_fields.
  - cbn [map join_chars flat_map app] in *. rewrite <- !(assoc_L (++)). cbn [app].
    rewrite range_fields by done. by rewrite IH.
Qed.

Lemma numify_digits {T} (lex : lexical T) s x :
  is_digits (explode s) -> lexical_cast lex s = Some x -> numify lex s = Some x.
Proof.
  intros Hd Hx. unfold numify.
  assert (Hno : forall p, existsb (fun c => negb (bool_decide (c ∈ digits))) (explode p) = true ->
    startsWith s p = false).
  { intros p Hp. unfold startsWith. apply existsb_exists in Hp as (c & Hc & Hn).
    apply negb_true_iff, bool_decide_eq_false in Hn.
    destruct (prefix_of_chars _ _) eqn:E; [|done]. exfalso.
    assert (Hsub : forall p s, prefix_of_chars p s = true -> In c p -> In c s).
    { clear. induction p as [|a p IH]; intros [|b s]; simpl; try done.
      intros H. apply andb_true_iff in H as [->%Ascii.eqb_eq H]. naive_solver. }
    apply Hn. destruct Hd as [_ Hd]. rewrite Forall_forall in Hd. apply Hd.
    apply list_elem_of_In. by eapply Hsub. }
  rewrite !Hno by done. simpl. by rewrite Hx.
Qed.

Lemma parse_ranges_printed lexu rs :
  (forall z, is_u64 z -> lexical_cast lexu (print_u64 z) = Some z) ->
  Forall wf_range rs ->
  parse_ranges lexu (map implode
    (flat_map (fun r => [explode (print_u64 (rbegin r)); explode (print_u64 (rend r))]) rs))
  = Ok rs.
Proof.
  intros Hlex. induction 1 as [|r rs Hr Hrs IH]; [done|].
  cbn [flat_map app map parse_ranges]. rewrite !implode_explode.
  unfold wf_range in Hr.
  assert (Hn : forall z, is_u64 z -> numify lexu (print_u64 z) = Some z)
    by (intros z Hz; apply numify_digits; [apply print_u64_digits|auto]).
  rewrite !Hn by (unfold is_u64; lia). rewrite IH. simpl. by destruct r.
Qed.

Lemma print_ranges_no_space rs :
  remove_char (print_ranges rs) " " =
  implode (["["%char] ++ join_chars [","%char] (map print_range rs) ++ ["]"%char]).
Proof.
  unfold remove_char, print_ranges. rewrite explode_implode. f_equal.
  rewrite !List.filter_app, filter_join. simpl. f_equal. f_equal. f_equal.
  rewrite map_map. apply map_ext. intros r. apply filter_all.
  eapply Forall_impl; [apply print_range_body|]. intros c Hc.
  apply negb_true_iff, Ascii.eqb_neq. by apply (body_char_neq c " ").
Qed.

Lemma printed_body_Forall (P : char -> Prop) rs :
  (forall c, body_char c -> P c) ->
  Forall P (join_chars [","%char] (map print_range rs)).
Proof.
  intros H. apply join_Forall.
  - constructor; [|done]. apply H. by right; right.
  - apply Forall_fmap, Forall_true. intros r. eapply Forall_impl; [apply print_range_body|done].
Qed.

Lemma printed_brackets o c rs :
  forallb (fun d => negb (Ascii.eqb d o)) (digits ++ ["-"; ","]%char) = true ->
  forallb (fun d => negb (Ascii.eqb d c)) (digits ++ ["-"; ","]%char) = true ->
  checkBracketsMatching
    (implode (["["%char] ++ join_chars [","%char] (map print_range rs) ++ ["]"%char])) o c
  = checkBrackets_loop ["["; "]"]%char o c 0.
Proof.
  intros Ho Hc. unfold checkBracketsMatching. rewrite explode_implode.
  cbn [app checkBrackets_loop].
  destruct (Ascii.eqb "[" o); [|destruct (Ascii.eqb "[" c)]; cbn [Z.ltb Z.compare Z.add Z.sub Z.opp Z.pos_sub];
    try reflexivity;
    (rewrite checkBrackets_skip; [reflexivity| |lia]);
    apply printed_body_Forall; intros x Hx; split; by eapply body_char_neq.
Qed.

(** Printing a list of ranges and parsing the text gives the coalesced
    list back: the very list when it was already sorted and disjoint. *)
Theorem ranges_print_parse_roundtrip lexu lexd rs :
  (forall z, is_u64 z -> lexical_cast lexu (print_u64 z) = Some z) ->
  Forall wf_range rs ->
  parse lexu lexd (print_ranges rs) = Ok (VRanges (coalesce rs []))
  /\ (canonical rs -> Forall below_max rs -> coalesce rs [] = rs).
Proof.
  intros Hlex Hwf. split.
  - unfold parse. rewrite print_ranges_no_space.
    rewrite bool_decide_eq_false_2 by done. rewrite !printed_brackets by done.
    cbn [negb orb checkBrackets_loop]. unfold find_char, find_from.
    rewrite explode_implode. cbn [app find_from_aux].
    unfold tokenize. rewrite explode_implode, tokenize_tokens.
    rewrite nonempty_fields_skip by done.
    rewrite ranges_tokens.
    assert (Heven : Nat.even (length (map implode (flat_map (fun r =>
      [explode (print_u64 (rbegin r)); explode (print_u64 (rend r))]) rs))) = true).
    { rewrite length_map. clear. induction rs as [|r rs IH]; [done|]. simpl. exact IH. }
    cbn -[length Nat.even map flat_map parse_ranges coalesce].
    rewrite Heven. cbn [negb]. rewrite parse_ranges_printed by done. done.
  - intros Hc Hm. apply canonical_ext; [apply coalesce_canonical; repeat constructor; done|done|].
    intros n. rewrite coalesce_covers by (done || constructor). simpl.
    rewrite covers_nil. tauto.
Qed.

(** A [lexical_cast] for unsigned decimal numbers. *)
Definition decimal_lexical : lexical Z := {|
  lexical_cast s := (fun d => Z.of_N (N.of_uint d)) <$> NilZero.uint_of_string s;
  hex_stream _ := None;
  negate z := z;
|}.

Lemma decimal_lexical_ok z :
  is_u64 z -> lexical_cast decimal_lexical (print_u64 z) = Some z.
Proof.
  intros [Hz _]. simpl. unfold print_u64. rewrite NilZero.usu.
  - simpl. rewrite DecimalN.Unsigned.of_to. f_equal. lia.
  - destruct (Z.to_N z) as [|p]; [done|]. simpl. apply DecimalPos.Unsigned.to_uint_nonnil.
Qed.

Definition no_lexical : lexical parsed_double := {|
  lexical_cast _ := None;
  hex_stream _ := None;
  negate x := x;
|}.

Lemma ranges_print_parse_roundtrip_witness :
  parse decimal_lexical no_lexical (print_ranges [mkRange 1 3; mkRange 31000 32000]) =
  Ok (VRanges [mkRange 1 3; mkRange 31000 32000]).
Proof.
  apply (ranges_print_parse_roundtrip decimal_lexical no_lexical [mkRange 1 3; mkRange 31000 32000]).
  - exact decimal_lexical_ok.
  - repeat constructor; vm_compute; discriminate.
Defined.
