(* ===== verification/Quantities.v ===== *)
(** * Resource quantities and limits

    [src/src/common/resource_quantities.cpp]: a vector of (name, scalar) pairs
    kept in alphabetical order.  A missing entry of [ResourceQuantities] means
    zero, one of [ResourceLimits] means no limit.  The operators walk the two
    vectors at once; the theorems show that the walks compute the pointwise
    operations on the finite maps the vectors stand for, and keep the vectors
    sorted and, for quantities, strictly positive. *)

From stdpp Require Import base gmap strings list.
From Stdlib Require Import Sorted.
From S2P Require Import Prelude Strings Ranges Scalar Values.
Local Open Scope Z_scope.

Abbreviation entries := (list (string * Z)).

(** A walk over [leftIndex] and [rightIndex] is the recursion on the two
    suffixes that start there. *)

(** [ResourceQuantities::get]: the loop stops at the first larger name. *)
Fixpoint find_entry (quantities : entries) (name : string) : option Z :=
  match quantities with
  | [] => None
  | (n, v) :: rest =>
      if bool_decide (n = name) then Some v
      else match strcmp n name with
           | Gt => None
           | _ => find_entry rest name
           end
  end.

Definition get (quantities : entries) (name : string) : Z :=
  default 0 (find_entry quantities name).

(** [ResourceQuantities::contains]. *)
Fixpoint contains (left right : entries) {struct left} : bool :=
  match left, right with
  | _, [] => true
  | [], _ :: _ => false
  | (ln, lv) :: left', (rn, rv) :: right' =>
      match strcmp ln rn with
      | Lt => contains left' right
      | Gt => false
      | Eq => if lv <? rv then false else contains left' right'
      end
  end.

(** [ResourceQuantities::operator+=]. *)
Fixpoint plus (left right : entries) {struct left} : entries :=
  match left with
  | [] => right
  | (ln, lv) :: left' =>
      (fix inner (right : entries) : entries :=
         match right with
         | [] => left
         | (rn, rv) :: right' =>
             match strcmp ln rn with
             | Lt => (ln, lv) :: plus left' right
             | Gt => (rn, rv) :: inner right'
             | Eq => (ln, lv + rv) :: plus left' right'
             end
         end) right
  end.

(** [ResourceQuantities::operator-=]. *)
Fixpoint minus (left right : entries) {struct left} : entries :=
  match left with
  | [] => []
  | (ln, lv) :: left' =>
      (fix inner (right : entries) : entries :=
         match right with
         | [] => left
         | (rn, rv) :: right' =>
             match strcmp ln rn with
             | Lt => (ln, lv) :: minus left' right
             | Gt => inner right'
             | Eq => if lv <=? rv then minus left' right'
                     else (ln, lv - rv) :: minus left' right'
             end
         end) right
  end.

(** The insertion loop shared by [ResourceQuantities::add] and
    [ResourceLimits::set]; [f] says what happens to an existing entry. *)
Fixpoint insert_entry (f : Z -> Z) (name : string) (v : Z) (q : entries) : entries :=
  match q with
  | [] => [(name, v)]
  | (n, x) :: rest =>
      if bool_decide (n = name) then (n, f x) :: rest
      else match strcmp n name with
           | Gt => (name, v) :: q
           | _ => (n, x) :: insert_entry f name v rest
           end
  end.

(** [ResourceQuantities::add]; [None] is the abort of
    [CHECK_GE(scalar, Value::Scalar())]. *)
Definition add (q : entries) (name : string) (scalar : Z) : option entries :=
  if scalar <? 0 then None
  else if scalar =? 0 then Some q
  else Some (insert_entry (fun x => x + scalar) name scalar q).

(** The constructor from a protobuf map, and the sum of several vectors. *)
Fixpoint add_all (q : entries) (l : list (string * Z)) : option entries :=
  match l with
  | [] => Some q
  | (n, v) :: l' => match add q n v with Some q' => add_all q' l' | None => None end
  end.

Definition of_map (l : list (string * Z)) : option entries := add_all [] l.

Definition sum (l : list entries) : entries := fold_left plus l [].

(** [ResourceQuantities::fromString]. *)
Inductive quantity_error :=
  | BadPair
  | BadValue (e : parse_error)
  | NotScalar
  | NegativeValue
  | DuplicateName
  | CheckAbort.

Fixpoint from_tokens (lexu : lexical Z) (lexd : lexical parsed_double)
    (tokens : list string) (q : entries) : result quantity_error entries :=
  match tokens with
  | [] => Ok q
  | token :: rest =>
      match tokenize token ":" with
      | [n; v] =>
          match parse lexu lexd v with
          | Err e => Err (BadValue e)
          | Ok (VScalar s) =>
              if s <? 0 then Err NegativeValue
              else if 0 <? s then
                match add q (trim n) s with
                | Some q' => from_tokens lexu lexd rest q'
                | None => Err CheckAbort
                end
              else from_tokens lexu lexd rest q
          | Ok _ => Err NotScalar
          end
      | _ => Err BadPair
      end
  end.

Definition fromString (lexu : lexical Z) (lexd : lexical parsed_double) (text : string)
  : result quantity_error entries := from_tokens lexu lexd (tokenize text ";") [].

(** ** Limits *)

Definition limits_get (limits : entries) (name : string) : option Z := find_entry limits name.

(** [ResourceLimits::contains(ResourceLimits)]. *)
Fixpoint limits_contains (left right : entries) {struct left} : bool :=
  match left with
  | [] => true
  | (ln, lv) :: left' =>
      (fix inner (right : entries) : bool :=
         match right with
         | [] => false
         | (rn, rv) :: right' =>
             match strcmp ln rn with
             | Lt => false
             | Gt => inner right'
             | Eq => if lv <? rv then false else limits_contains left' right'
             end
         end) right
  end.

(** [ResourceLimits::contains(ResourceQuantities)]. *)
Definition limits_contains_quantities (limits quantities : entries) : bool :=
  forallb (fun '(name, quantity) =>
    match limits_get limits name with
    | Some limit => negb (limit <? quantity)
    | None => true
    end) quantities.

(** [ResourceLimits::operator-=(ResourceQuantities)]. *)
Fixpoint limits_minus (limits quantities : entries) {struct limits} : entries :=
  match limits with
  | [] => []
  | (ln, lv) :: limits' =>
      (fix inner (quantities : entries) : entries :=
         match quantities with
         | [] => limits
         | (qn, qv) :: quantities' =>
             match strcmp ln qn with
             | Lt => (ln, lv) :: limits_minus limits' quantities
             | Gt => inner quantities'
             | Eq => (ln, Z.max (lv - qv) 0) :: limits_minus limits' quantities'
             end
         end) quantities
  end.

Definition limits_set (limits : entries) (name : string) (scalar : Z) : entries :=
  insert_entry (fun _ => scalar) name scalar limits.

Fixpoint limits_from_tokens (lexu : lexical Z) (lexd : lexical parsed_double)
    (tokens : list string) (limits : entries) : result quantity_error entries :=
  match tokens with
  | [] => Ok limits
  | token :: rest =>
      match tokenize token ":" with
      | [n; v] =>
          match parse lexu lexd v with
          | Err e => Err (BadValue e)
          | Ok (VScalar s) =>
              if s <? 0 then Err NegativeValue
              else
                match limits_get limits (trim n) with
                | Some _ => Err DuplicateName
                | None => limits_from_tokens lexu lexd rest (limits_set limits (trim n) s)
                end
          | Ok _ => Err NotScalar
          end
      | _ => Err BadPair
      end
  end.

Definition limits_fromString (lexu : lexical Z) (lexd : lexical parsed_double) (text : string)
  : result quantity_error entries := limits_from_tokens lexu lexd (tokenize text ";") [].

(** ** The invariants and what an entry vector denotes *)

Definition entry_lt (a b : string * Z) : Prop := str_lt a.1 b.1.

Definition key_sorted (q : entries) : Prop := StronglySorted entry_lt q.

(** Quantities: sorted, and strictly positive. *)
Definition wf_quantities (q : entries) : Prop :=
  key_sorted q /\ Forall (fun e => 0 < e.2) q.

Definition above (k : string) (q : entries) : Prop := Forall (fun e => str_lt k e.1) q.

Lemma key_sorted_cons e q : key_sorted (e :: q) <-> above e.1 q /\ key_sorted q.
Proof.
  unfold key_sorted, above. split.
  - intros [? ?]%StronglySorted_inv. done.
  - intros [? ?]. by constructor.
Qed.

Lemma above_trans k k' q : str_lt k k' -> above k' q -> above k q.
Proof.
  intros Hk Hq. eapply Forall_impl; [exact Hq|]. simpl. intros e He.
  by transitivity k'.
Qed.

Lemma find_above q k : above k q -> find_entry q k = None.
Proof.
  induction 1 as [|[n v] q Hn Hq IH]; simpl; [done|]. simpl in Hn.
  rewrite bool_decide_eq_false_2 by (intros ->; by apply (str_lt_ne _ _ Hn)).
  by destruct (strcmp n k).
Qed.

Lemma find_cons n v q k :
  above n q ->
  find_entry ((n, v) :: q) k = if decide (n = k) then Some v else find_entry q k.
Proof.
  intros Hab. simpl. destruct (decide (n = k)) as [->|Hne].
  - by rewrite bool_decide_eq_true_2.
  - rewrite bool_decide_eq_false_2 by done. destruct (strcmp_spec n k) as [| |Hlt]; try done.
    symmetry. apply find_above. by eapply above_trans.
Qed.

Lemma find_head_lt n v q k :
  str_lt k n -> above n q -> find_entry ((n, v) :: q) k = None.
Proof.
  intros Hlt Hab. apply find_above. constructor; [done|]. by eapply above_trans.
Qed.

#[export] Hint Resolve find_above find_head_lt above_trans : clusterd.

Lemma above_nil k : above k [].
Proof. constructor. Qed.

Lemma above_cons k n v q : above k ((n, v) :: q) <-> str_lt k n /\ above k q.
Proof. unfold above. by rewrite Forall_cons. Qed.

(** An entry found is above whatever the vector is above. *)
Lemma find_some_above q k n v : above k q -> find_entry q n = Some v -> str_lt k n.
Proof.
  induction 1 as [|[m w] q Hm Hq IH]; simpl; [done|].
  case_bool_decide as E; [by subst|]. destruct (strcmp m n); naive_solver.
Qed.

(** Two sorted vectors with the same entries are equal. *)
Lemma entries_ext q1 q2 :
  key_sorted q1 -> key_sorted q2 ->
  (forall n, find_entry q1 n = find_entry q2 n) -> q1 = q2.
Proof.
  revert q2. induction q1 as [|[n1 v1] q1 IH]; intros [|[n2 v2] q2] H1 H2 Heq; [done|..].
  - specialize (Heq n2). simpl in Heq. by rewrite bool_decide_eq_true_2 in Heq.
  - specialize (Heq n1). simpl in Heq. by rewrite bool_decide_eq_true_2 in Heq.
  - apply key_sorted_cons in H1 as [A1 H1], H2 as [A2 H2]. simpl in A1, A2.
    assert (E := Heq). setoid_rewrite find_cons in E; [|done..].
    assert (n1 = n2) as ->.
    { destruct (strcmp_spec n1 n2) as [|Hlt|Hlt]; [done|..].
      - specialize (Heq n1). rewrite (find_head_lt n2) in Heq by done.
        simpl in Heq. by rewrite bool_decide_eq_true_2 in Heq.
      - specialize (Heq n2). rewrite (find_head_lt n1) in Heq by done.
        simpl in Heq. by rewrite bool_decide_eq_true_2 in Heq. }
    assert (v1 = v2) as ->.
    { specialize (E n2). destruct (decide (n2 = n2)); congruence. }
    f_equal. apply IH; [done..|]. intros n. specialize (E n).
    destruct (decide (n2 = n)) as [->|]; [|done]. by rewrite !find_above.
Qed.

(** The equations of the walks. *)
Section WalkEquations.
Context (ln rn : string) (lv rv : Z) (l r : entries).

Lemma plus_nil_r : plus l [] = l.
Proof. by destruct l as [|[? ?] ?]. Qed.

Lemma plus_cons :
  plus ((ln, lv) :: l) ((rn, rv) :: r) =
  match strcmp ln rn with
  | Lt => (ln, lv) :: plus l ((rn, rv) :: r)
  | Gt => (rn, rv) :: plus ((ln, lv) :: l) r
  | Eq => (ln, lv + rv) :: plus l r
  end.
Proof. done. Qed.

Lemma minus_nil_r : minus l [] = l.
Proof. by destruct l as [|[? ?] ?]. Qed.

Lemma minus_cons :
  minus ((ln, lv) :: l) ((rn, rv) :: r) =
  match strcmp ln rn with
  | Lt => (ln, lv) :: minus l ((rn, rv) :: r)
  | Gt => minus ((ln, lv) :: l) r
  | Eq => if lv <=? rv then minus l r else (ln, lv - rv) :: minus l r
  end.
Proof. done. Qed.

Lemma limits_minus_nil_r : limits_minus l [] = l.
Proof. by destruct l as [|[? ?] ?]. Qed.

Lemma limits_minus_cons :
  limits_minus ((ln, lv) :: l) ((rn, rv) :: r) =
  match strcmp ln rn with
  | Lt => (ln, lv) :: limits_minus l ((rn, rv) :: r)
  | Gt => limits_minus ((ln, lv) :: l) r
  | Eq => (ln, Z.max (lv - rv) 0) :: limits_minus l r
  end.
Proof. done. Qed.

Lemma contains_cons :
  contains ((ln, lv) :: l) ((rn, rv) :: r) =
  match strcmp ln rn with
  | Lt => contains l ((rn, rv) :: r)
  | Gt => false
  | Eq => if lv <? rv then false else contains l r
  end.
Proof. done. Qed.

Lemma limits_contains_cons :
  limits_contains ((ln, lv) :: l) ((rn, rv) :: r) =
  match strcmp ln rn with
  | Lt => false
  | Gt => limits_contains ((ln, lv) :: l) r
  | Eq => if lv <? rv then false else limits_contains l r
  end.
Proof. done. Qed.
End WalkEquations.

Create Rewrite HintDb walk.
#[export] Hint Rewrite plus_nil_r plus_cons minus_nil_r minus_cons limits_minus_nil_r
  limits_minus_cons contains_cons limits_contains_cons : walk.

(** Nested induction over the two vectors of a walk, with the comparison of
    their heads decided: the goals are the two ends and [=], [<], [>]. *)
Ltac walk l r :=
  let ln := fresh "ln" in let lv := fresh "lv" in let l' := fresh "l'" in
  let rn := fresh "rn" in let rv := fresh "rv" in let r' := fresh "r'" in
  let IHl := fresh "IHl" in let IHr := fresh "IHr" in
  revert r; induction l as [|[ln lv] l' IHl]; intros r;
  [|induction r as [|[rn rv] r' IHr];
    [autorewrite with walk
    |autorewrite with walk; destruct (strcmp_spec ln rn) as [<-|Hlt|Hlt]]].

(** Split what is known of the two sorted vectors. *)
Ltac sorted_inv Hl Hr :=
  apply key_sorted_cons in Hl as [Al Hl]; apply key_sorted_cons in Hr as [Ar Hr];
  cbn [fst] in Al, Ar.

Lemma plus_above k l r : above k l -> above k r -> above k (plus l r).
Proof.
  walk l r; intros Hl Hr; [done..| | |]; assert (Hl0 := Hl); assert (Hr0 := Hr);
    apply above_cons in Hl as [? ?], Hr as [? ?]; apply above_cons; split; auto.
Qed.

Lemma above_of_lt k n v q : str_lt k n -> above n q -> above k ((n, v) :: q).
Proof. intros Hlt Hq. apply above_cons. split; [done|]. by eapply above_trans. Qed.

#[export] Hint Resolve above_of_lt : clusterd.

Lemma plus_sorted l r : key_sorted l -> key_sorted r -> key_sorted (plus l r).
Proof.
  walk l r; intros Hl Hr; [done..| | |]; assert (Hl0 := Hl); assert (Hr0 := Hr);
    sorted_inv Hl Hr; apply key_sorted_cons; (split; [|auto]); cbn [fst];
    apply plus_above; eauto with clusterd.
Qed.

Lemma find_plus l r n :
  key_sorted l -> key_sorted r ->
  find_entry (plus l r) n =
  union_with (fun x y => Some (x + y)) (find_entry l n) (find_entry r n).
Proof.
  walk l r; intros Hl Hr; [by simpl; destruct (find_entry r n)|by destruct (find_entry (_ :: _) n)|..];
    assert (Hl0 := Hl); assert (Hr0 := Hr); sorted_inv Hl Hr.
  - rewrite !find_cons by eauto using plus_above with clusterd.
    destruct (decide (ln = n)) as [->|]; [done|auto].
  - rewrite (find_cons ln _ (plus _ _)), IHl, (find_cons ln) by
      eauto using plus_above with clusterd.
    destruct (decide (ln = n)) as [->|]; [|done].
    by rewrite (find_head_lt rn) by done.
  - rewrite (find_cons rn _ (plus _ _)), IHr, (find_cons rn) by
      eauto using plus_above with clusterd.
    destruct (decide (rn = n)) as [->|]; [|done].
    by rewrite (find_head_lt ln) by done.
Qed.

Lemma minus_above k l r : above k l -> above k (minus l r).
Proof.
  walk l r; intros Hl; [done..| | |auto]; apply above_cons in Hl as [? ?];
    [destruct (_ <=? _); [auto|]|]; apply above_cons; auto.
Qed.

Lemma minus_sorted l r : key_sorted l -> key_sorted (minus l r).
Proof.
  walk l r; intros Hl; [done..| | |auto]; apply key_sorted_cons in Hl as [? ?];
    [destruct (_ <=? _); [auto|]|]; apply key_sorted_cons; auto using minus_above.
Qed.

(** What subtraction leaves of one entry. *)
Definition entry_minus (x y : option Z) : option Z :=
  match x, y with
  | Some a, Some b => if a <=? b then None else Some (a - b)
  | Some a, None => Some a
  | None, _ => None
  end.

Lemma find_minus l r n :
  key_sorted l -> key_sorted r ->
  find_entry (minus l r) n = entry_minus (find_entry l n) (find_entry r n).
Proof.
  walk l r; intros Hl Hr; [done|by destruct (find_entry (_ :: _) n)|..];
    assert (Hl0 := Hl); assert (Hr0 := Hr); sorted_inv Hl Hr.
  - rewrite (find_cons ln lv), (find_cons ln rv) by done.
    destruct (lv <=? rv) eqn:E; rewrite ?find_cons by eauto using minus_above;
      rewrite ?IHl by done; destruct (decide (ln = n)) as [->|]; simpl; try done.
    + rewrite !find_above by done. simpl. by rewrite E.
    + by rewrite E.
  - rewrite (find_cons ln _ (minus _ _)), IHl, (find_cons ln) by eauto using minus_above.
    destruct (decide (ln = n)) as [->|]; [|done].
    by rewrite (find_head_lt rn) by done.
  - rewrite IHr, (find_cons rn) by done.
    destruct (decide (rn = n)) as [->|]; [|done].
    by rewrite !(find_head_lt ln) by done.
Qed.

Lemma contains_spec l r :
  key_sorted l -> key_sorted r ->
  contains l r = true <->
  (forall n y, find_entry r n = Some y -> exists x, find_entry l n = Some x /\ y <= x).
Proof.
  walk l r; intros Hl Hr.
  - destruct r as [|[rn rv] r]; simpl; [naive_solver|]. split; [done|].
    intros H. destruct (H rn rv) as (? & [=] & _). by rewrite bool_decide_eq_true_2.
  - naive_solver.
  - assert (Hl0 := Hl); assert (Hr0 := Hr); sorted_inv Hl Hr.
    setoid_rewrite find_cons; [|done..].
    destruct (lv <? rv) eqn:E; breflect.
    + split; [done|]. intros H. specialize (H ln rv).
      destruct (decide (ln = ln)); [|done]. naive_solver lia.
    + rewrite IHl by done. split; intros H n y.
      * destruct (decide (ln = n)) as [->|]; [|apply H]. naive_solver.
      * intros Hn. specialize (H n y).
        destruct (decide (ln = n)) as [->|]; [|by apply H]. by rewrite find_above in Hn.
  - assert (Hl0 := Hl); assert (Hr0 := Hr); sorted_inv Hl Hr. rewrite IHl by done.
    setoid_rewrite (find_cons ln); [|done]. split; intros H n y Hn.
    + destruct (decide (ln = n)) as [<-|]; [|by apply H].
      by rewrite find_head_lt in Hn.
    + specialize (H n y Hn). destruct (decide (ln = n)) as [<-|]; [|done].
      by rewrite find_head_lt in Hn.
  - split; [done|]. intros H.
    apply key_sorted_cons in Hl as [Al _]. destruct (H rn rv) as (x & Hx & _).
    + simpl. by rewrite bool_decide_eq_true_2.
    + by rewrite find_head_lt in Hx.
Qed.

Lemma insert_above f name v k q :
  str_lt k name -> above k q -> above k (insert_entry f name v q).
Proof.
  intros Hk. induction 1 as [|[n x] q Hn Hq IH]; simpl.
  - apply above_cons. split; [done|apply above_nil].
  - case_bool_decide; [by apply above_cons|].
    destruct (strcmp n name); apply above_cons; try done. split; [done|]. by apply above_cons.
Qed.

Lemma insert_sorted f name v q : key_sorted q -> key_sorted (insert_entry f name v q).
Proof.
  induction q as [|[n x] q IH]; intros Hq; simpl.
  - apply key_sorted_cons. split; [apply above_nil|constructor].
  - assert (Hq0 := Hq). apply key_sorted_cons in Hq as [Hab Hq]. simpl in Hab.
    case_bool_decide as E; [by apply key_sorted_cons|].
    destruct (strcmp_spec n name) as [|Hlt|Hlt]; [done|..];
      apply key_sorted_cons; simpl; eauto using insert_above with clusterd.
Qed.

Lemma find_insert f name v q n :
  key_sorted q ->
  find_entry (insert_entry f name v q) n =
  if decide (name = n) then Some (match find_entry q n with Some x => f x | None => v end)
  else find_entry q n.
Proof.
  induction q as [|[m x] q IH]; intros Hq.
  - cbn [insert_entry]. by rewrite find_cons by apply above_nil.
  - apply key_sorted_cons in Hq as [Hab Hq]. simpl in Hab. cbn [insert_entry].
    case_bool_decide as E; [subst m; rewrite !find_cons by done; by case_decide|].
    destruct (strcmp_spec m name) as [|Hlt|Hlt]; [done|..].
    + rewrite !find_cons, IH by eauto using insert_above.
      destruct (decide (m = n)) as [->|]; [|done]. by rewrite decide_False.
    + rewrite (find_cons name) by eauto with clusterd.
      destruct (decide (name = n)) as [->|]; [|done]. by rewrite (find_head_lt m).
Qed.

Definition positive (q : entries) : Prop := Forall (fun e => 0 < e.2) q.

Lemma positive_find q n v : positive q -> find_entry q n = Some v -> 0 < v.
Proof.
  induction 1 as [|[m w] q Hm Hq IH]; simpl; [done|].
  case_bool_decide; [intros [= <-]; done|]. destruct (strcmp m n); naive_solver.
Qed.

Lemma plus_positive l r : positive l -> positive r -> positive (plus l r).
Proof.
  unfold positive. walk l r; intros Hl Hr; [done..| | |]; assert (Hl0 := Hl); assert (Hr0 := Hr);
    apply Forall_cons in Hl as [? ?], Hr as [? ?]; constructor; auto; simpl in *; lia.
Qed.

Lemma minus_positive l r : positive l -> positive (minus l r).
Proof.
  unfold positive. walk l r; intros Hl; [done..| | |auto]; apply Forall_cons in Hl as [? ?];
    [destruct (_ <=? _) eqn:E; breflect; [auto|]|]; constructor; auto; simpl in *; lia.
Qed.

Lemma insert_positive f name v q :
  0 < v -> (forall x, 0 < x -> 0 < f x) -> positive q -> positive (insert_entry f name v q).
Proof.
  intros Hv Hf. unfold positive. induction 1 as [|[n x] q Hn Hq IH]; simpl in *.
  - by constructor.
  - case_bool_decide; [constructor; [by apply Hf|done]|].
    destruct (strcmp n name); repeat constructor; done.
Qed.

#[export] Hint Resolve plus_sorted minus_sorted insert_sorted plus_positive minus_positive
  : clusterd.

Lemma wf_plus l r : wf_quantities l -> wf_quantities r -> wf_quantities (plus l r).
Proof. intros [] []. split; auto with clusterd. by apply plus_positive. Qed.

Lemma wf_minus l r : wf_quantities l -> wf_quantities (minus l r).
Proof. intros []. split; auto with clusterd. by apply minus_positive. Qed.

Lemma wf_add q name v q' : wf_quantities q -> add q name v = Some q' -> wf_quantities q'.
Proof.
  intros [Hs Hp] H. unfold add in H. destruct (v <? 0) eqn:E1; [done|].
  destruct (v =? 0) eqn:E2; simplify_eq; [done|]. breflect.
  split; [by apply insert_sorted|]. apply insert_positive; [lia| |done]. intros. lia.
Qed.

#[export] Hint Resolve wf_plus wf_minus : clusterd.

Lemma get_plus l r n :
  key_sorted l -> key_sorted r -> get (plus l r) n = get l n + get r n.
Proof.
  intros. unfold get. rewrite find_plus by done.
  destruct (find_entry l n), (find_entry r n); simpl; lia.
Qed.

Lemma get_minus l r n :
  wf_quantities l -> wf_quantities r -> get (minus l r) n = Z.max 0 (get l n - get r n).
Proof.
  intros [Hl Pl] [Hr Pr]. unfold get. rewrite find_minus by done.
  assert (A := positive_find l n). assert (B := positive_find r n).
  destruct (find_entry l n) as [a|], (find_entry r n) as [b|]; simpl; try lia.
  - destruct (a <=? b) eqn:E; breflect; simpl; lia.
  - specialize (A a Pl eq_refl). lia.
  - specialize (B b Pr eq_refl). lia.
Qed.

Lemma get_ext l r :
  wf_quantities l -> wf_quantities r -> (forall n, get l n = get r n) -> l = r.
Proof.
  intros [Hl Pl] [Hr Pr] Heq. apply entries_ext; [done..|]. intros n.
  specialize (Heq n). unfold get in Heq.
  assert (A := positive_find l n). assert (B := positive_find r n).
  destruct (find_entry l n) as [a|], (find_entry r n) as [b|]; simpl in *; try congruence.
  - specialize (A a Pl eq_refl). lia.
  - specialize (B b Pr eq_refl). lia.
Qed.

Lemma get_nonneg q n : wf_quantities q -> 0 <= get q n.
Proof.
  intros [_ Hp]. unfold get. pose proof (positive_find q n) as H.
  destruct (find_entry q n) as [v|]; simpl; [|done]. specialize (H v Hp eq_refl). lia.
Qed.

Lemma contains_get l r :
  wf_quantities l -> wf_quantities r ->
  contains l r = true <-> (forall n, get r n <= get l n).
Proof.
  intros Hl Hr. rewrite contains_spec by (apply Hl || apply Hr). split; intros H n.
  - specialize (H n). pose proof (get_nonneg l n Hl). unfold get in *.
    destruct (find_entry r n) as [y|]; simpl; [|done].
    destruct (H y eq_refl) as (x & -> & ?). done.
  - intros y Hy. specialize (H n). unfold get in H. rewrite Hy in H. simpl in H.
    pose proof (positive_find r n y (proj2 Hr) Hy).
    destruct (find_entry l n) as [x|]; simpl in H; [eauto|lia].
Qed.

(** ** Limits *)

Lemma limits_minus_above k l r : above k l -> above k (limits_minus l r).
Proof.
  walk l r; intros Hl; [done..| | |auto]; apply above_cons in Hl as [? ?];
    apply above_cons; auto.
Qed.

Lemma limits_minus_sorted l r : key_sorted l -> key_sorted (limits_minus l r).
Proof.
  walk l r; intros Hl; [done..| | |auto]; apply key_sorted_cons in Hl as [? ?];
    apply key_sorted_cons; auto using limits_minus_above.
Qed.

Lemma find_limits_minus l r n :
  key_sorted l -> key_sorted r -> Forall (fun e => 0 <= e.2) l ->
  find_entry (limits_minus l r) n =
  (fun limit => Z.max (limit - get r n) 0) <$> find_entry l n.
Proof.
  unfold get. walk l r; intros Hl Hr Hp.
  - done.
  - apply key_sorted_cons in Hl as [Al Hl]. clear IHl.
    destruct (find_entry ((ln, lv) :: l') n) as [v|] eqn:E; simpl; [|done].
    f_equal. enough (0 <= v) by lia. clear Al Hl. revert E.
    induction Hp as [|[m w] q Hm Hq IH]; simpl; [done|].
    case_bool_decide; [by intros [= <-]|]. destruct (strcmp m n); naive_solver.
  - assert (Hl0 := Hl); assert (Hr0 := Hr); sorted_inv Hl Hr.
    apply Forall_cons in Hp as [Hp0 Hp].
    rewrite !find_cons, IHl by eauto using limits_minus_above.
    by destruct (decide (ln = n)).
  - assert (Hl0 := Hl); assert (Hr0 := Hr); sorted_inv Hl Hr.
    apply Forall_cons in Hp as [Hp0 Hp]. simpl in Hp0.
    rewrite (find_cons ln _ (limits_minus _ _)), IHl, (find_cons ln)
      by eauto using limits_minus_above.
    destruct (decide (ln = n)) as [<-|]; [|done].
    rewrite (find_head_lt rn) by done. simpl. f_equal. lia.
  - assert (Hl0 := Hl); assert (Hr0 := Hr); sorted_inv Hl Hr.
    rewrite IHr, (find_cons rn) by done.
    destruct (decide (rn = n)) as [<-|]; [|done].
    by rewrite (find_head_lt ln) by done.
Qed.

Lemma limits_contains_spec l r :
  key_sorted l -> key_sorted r ->
  limits_contains l r = true <->
  (forall n x, find_entry l n = Some x -> exists y, find_entry r n = Some y /\ y <= x).
Proof.
  walk l r; intros Hl Hr.
  - naive_solver.
  - split; [done|]. intros H. destruct (H ln lv) as (? & [=] & _).
    simpl. by rewrite bool_decide_eq_true_2.
  - assert (Hl0 := Hl); assert (Hr0 := Hr); sorted_inv Hl Hr.
    setoid_rewrite find_cons; [|done..].
    destruct (lv <? rv) eqn:E; breflect.
    + split; [done|]. intros H. specialize (H ln lv).
      destruct (decide (ln = ln)); [|done]. naive_solver lia.
    + rewrite IHl by done. split; intros H n y.
      * destruct (decide (ln = n)) as [->|]; [|apply H]. naive_solver.
      * intros Hn. specialize (H n y).
        destruct (decide (ln = n)) as [->|]; [|by apply H]. by rewrite find_above in Hn.
  - split; [done|]. intros H. apply key_sorted_cons in Hr as [Ar _].
    destruct (H ln lv) as (x & Hx & _).
    + simpl. by rewrite bool_decide_eq_true_2.
    + by rewrite find_head_lt in Hx.
  - assert (Hl0 := Hl); assert (Hr0 := Hr); sorted_inv Hl Hr. rewrite IHr by done.
    setoid_rewrite (find_cons rn); [|done]. split; intros H n y Hn.
    + destruct (decide (rn = n)) as [<-|]; [|by apply H].
      by rewrite find_head_lt in Hn.
    + specialize (H n y Hn). destruct (decide (rn = n)) as [<-|]; [|done].
      by rewrite find_head_lt in Hn.
Qed.

Lemma from_tokens_wf lexu lexd tokens q :
  wf_quantities q ->
  match from_tokens lexu lexd tokens q with
  | Ok q' => wf_quantities q'
  | Err e => e <> CheckAbort
  end.
Proof.
  revert q. induction tokens as [|t tokens IH]; intros q Hq; simpl; [done|].
  destruct (tokenize t ":") as [|n [|v [|? ?]]]; try done.
  destruct (parse lexu lexd v) as [[s| | |]|e]; try done.
  destruct (s <? 0) eqn:E1; [done|]. destruct (0 <? s) eqn:E2; [|by apply IH].
  destruct (add q (trim n) s) as [q'|] eqn:E3.
  - apply IH. by eapply wf_add.
  - unfold add in E3. rewrite E1 in E3. by destruct (s =? 0).
Qed.

(** ** Properties *)

(** [ResourceQuantities] arithmetic refines the pointwise operations on
    finite maps from names to non-negative scalars: [+] adds name by name, [-]
    subtracts and stops at zero, and both keep the vector sorted with no zero
    entry. *)
Theorem quantities_refine_pointwise l r :
  wf_quantities l -> wf_quantities r ->
  wf_quantities (plus l r) /\ wf_quantities (minus l r)
  /\ (forall n, get (plus l r) n = get l n + get r n)
  /\ (forall n, get (minus l r) n = Z.max 0 (get l n - get r n)).
Proof.
  intros Hl Hr. split_and!; auto with clusterd; intros n.
  - apply get_plus; [apply Hl|apply Hr].
  - by apply get_minus.
Qed.

Lemma quantities_refine_pointwise_witness :
  plus [("cpus", 2000); ("mem", 1)] [("disk", 5); ("mem", 2)]
  = [("cpus", 2000); ("disk", 5); ("mem", 3)]
  /\ get (minus [("cpus", 2000); ("mem", 1)] [("disk", 5); ("mem", 2)]) "mem" = 0.
Proof.
  split; [reflexivity|].
  apply (quantities_refine_pointwise [("cpus", 2000); ("mem", 1)] [("disk", 5); ("mem", 2)]);
    split; repeat constructor; simpl; lia.
Defined.

(** [contains] decides the pointwise order, and vector equality decides
    pointwise equality: the representation of a quantity map is unique. *)
Theorem quantities_comparisons l r :
  wf_quantities l -> wf_quantities r ->
  (contains l r = true <-> forall n, get r n <= get l n)
  /\ (l = r <-> forall n, get l n = get r n).
Proof.
  intros Hl Hr. split; [by apply contains_get|].
  split; [by intros ->|by apply get_ext].
Qed.

Lemma quantities_comparisons_witness :
  get [("cpus", 1000)] "cpus" <= get [("cpus", 2000); ("mem", 1)] "cpus".
Proof.
  apply (quantities_comparisons [("cpus", 2000); ("mem", 1)] [("cpus", 1000)]);
    [split; repeat constructor; simpl; lia..|reflexivity].
Defined.

(** Allocating and releasing a quantity cancels: [(l + r) - r = l], and
    [(l - r) + r = l] when [l] contains [r]. *)
Theorem quantities_plus_minus_roundtrip l r :
  wf_quantities l -> wf_quantities r ->
  minus (plus l r) r = l /\ (contains l r = true -> plus (minus l r) r = l).
Proof.
  intros Hl Hr. split.
  - apply get_ext; auto with clusterd. intros n.
    rewrite get_minus, get_plus by (apply Hl || apply Hr || auto with clusterd).
    pose proof (get_nonneg l n Hl). lia.
  - intros Hc. apply get_ext; auto with clusterd. intros n.
    assert (wf_quantities (minus l r)) as [? ?] by auto with clusterd.
    rewrite get_plus, get_minus by (done || apply Hr).
    apply contains_get with (n := n) in Hc; [lia|done..].
Qed.

Lemma quantities_plus_minus_roundtrip_witness :
  plus (minus [("cpus", 2000); ("mem", 1)] [("cpus", 2000)]) [("cpus", 2000)]
  = [("cpus", 2000); ("mem", 1)].
Proof.
  apply (quantities_plus_minus_roundtrip [("cpus", 2000); ("mem", 1)] [("cpus", 2000)]);
    [split; repeat constructor; simpl; lia..|reflexivity].
Defined.

(** Limits: [limits - quantities] lowers every finite limit by the used
    quantity, never below zero, and leaves the unlimited names unlimited;
    [contains] on quantities says that no finite limit is exceeded, and on
    limits that every finite limit of the left bounds one of the right. *)
Theorem limits_refine_pointwise limits limits' q :
  key_sorted limits -> key_sorted limits' -> Forall (fun e => 0 <= e.2) limits ->
  wf_quantities q ->
  key_sorted (limits_minus limits q)
  /\ (forall n, limits_get (limits_minus limits q) n =
        (fun limit => Z.max (limit - get q n) 0) <$> limits_get limits n)
  /\ (limits_contains_quantities limits q = true <->
        forall n limit, limits_get limits n = Some limit -> get q n <= limit)
  /\ (limits_contains limits limits' = true <->
        forall n x, limits_get limits n = Some x ->
        exists y, limits_get limits' n = Some y /\ y <= x).
Proof.
  intros Hl Hl' Hp Hq. unfold limits_get. split_and!.
  - by apply limits_minus_sorted.
  - intros n. apply find_limits_minus; [done|apply Hq|done].
  - unfold limits_contains_quantities, limits_get. rewrite forallb_forall. split.
    + intros H n limit Hn. unfold get. destruct (find_entry q n) as [v|] eqn:Ev; simpl.
      * assert (Hin : (n, v) ∈ q).
        { clear -Ev. induction q as [|[m w] q IH]; simpl in *; [done|].
          case_bool_decide; [subst; simplify_eq; by left|].
          right. destruct (strcmp m n); by (apply IH || done). }
        apply list_elem_of_In, H in Hin. rewrite Hn in Hin. breflect. lia.
      * clear -Hp Hn. revert Hn. induction Hp as [|[m w] l Hm Hl IH]; simpl; [done|].
        case_bool_decide; [by intros [= <-]|]. destruct (strcmp m n); naive_solver.
    + intros H [n v] Hin%list_elem_of_In. destruct (find_entry limits n) as [limit|] eqn:E; [|done].
      apply negb_true_iff, Z.ltb_ge. specialize (H n limit E).
      enough (get q n = v) by lia. unfold get. destruct Hq as [Hq _].
      clear -Hin Hq. induction q as [|[m w] q IH]; [by apply not_elem_of_nil in Hin|].
      apply key_sorted_cons in Hq as [Ab Hq]. rewrite find_cons by done.
      apply elem_of_cons in Hin as [[= <- <-]|Hin]; [by rewrite decide_True|].
      rewrite decide_False; [by apply IH|]. intros ->.
      unfold above in Ab. rewrite Forall_forall in Ab. specialize (Ab _ Hin).
      by apply (irreflexivity str_lt n).
  - by apply limits_contains_spec.
Qed.

Lemma limits_refine_pointwise_witness :
  limits_get (limits_minus [("cpus", 2000); ("mem", 9)] [("cpus", 500); ("disk", 1)]) "cpus"
  = Some 1500.
Proof.
  apply (limits_refine_pointwise [("cpus", 2000); ("mem", 9)] [] [("cpus", 500); ("disk", 1)]);
    [| | |split]; repeat constructor; simpl; lia.
Defined.

(** Parsing quantities from text returns a sorted vector of positive
    entries or an error, and never trips the [CHECK] of [add]. *)
Theorem quantities_fromString_wf lexu lexd text :
  match fromString lexu lexd text with
  | Ok q => wf_quantities q
  | Err e => e <> CheckAbort
  end.
Proof. apply from_tokens_wf. split; constructor. Qed.
