(* ===== verification/Storage.v ===== *)
(** * The storage of a log replica

    [src/src/log/leveldb.cpp] with the records of [src/src/messages/log.proto]:
    the key encoding, persisting metadata and actions, the deletion of
    truncated positions and the state a restart rebuilds.  LevelDB is a finite
    map from keys to records; whether one of its calls succeeds is the [disk]
    argument of the operations that make it. *)

From stdpp Require Import base gmap strings list.
From Stdlib Require Import OrdersEx Ascii.
From S2P Require Import Prelude Strings.
Local Open Scope Z_scope.

(** ** Records *)

(** [Action::Type] with the payload it selects; [tombstone] marks a no-op at
    a truncated position. *)
Inductive Entry :=
  | NOP (tombstone : option bool)
  | APPEND (bytes : string)
  | TRUNCATE (to : Z).

#[export] Instance Entry_eq_dec : EqDecision Entry.
Proof. solve_decision. Defined.

(** [message Action]: [performed], [learned] and the entry are optional. *)
Record Action := mkAction {
  position : Z;
  promised : Z;
  performed : option Z;
  learned : option bool;
  entry : option Entry;
}.

#[export] Instance Action_eq_dec : EqDecision Action.
Proof. solve_decision. Defined.

Inductive Status := VOTING | RECOVERING | STARTING | EMPTY.

#[export] Instance Status_eq_dec : EqDecision Status.
Proof. solve_decision. Defined.

Record Metadata := mkMetadata { status : Status; meta_promised : Z }.

(** The defaults of [message Metadata]. *)
Definition default_metadata : Metadata := mkMetadata EMPTY 0.

(** [action.has_learned() && action.learned()]. *)
Definition is_learned (a : Action) : bool := bool_decide (learned a = Some true).

(** [nop().has_tombstone() && nop().tombstone()]. *)
Definition is_tombstone (e : option Entry) : bool := bool_decide (e = Some (NOP (Some true))).

(** ** Keys *)

Definition digit_char (d : Z) : char := default "0"%char (explode "0123456789" !! Z.to_nat d).

(** [%.*llu] with precision [w], for a number of at most [w] digits. *)
Fixpoint format_width (w : nat) (n : Z) : list char :=
  match w with
  | O => []
  | S w' => digit_char (n / 10 ^ Z.of_nat w' mod 10) :: format_width w' n
  end.

(** [encode(position, adjust)]; [None] is the abort of
    [CHECK_LT(position, UINT64_MAX)]. *)
Definition encode (position : Z) (adjust : bool) : option string :=
  if adjust && negb (position <? UINT64_MAX) then None
  else
    let position := if adjust then position + 1 else position in
    if position <=? 9999999999 then Some (implode (format_width 10 position))
    else Some (implode ("A"%char :: format_width 20 position)).

(** ** The database *)

Record Storage := mkStorage {
  db_actions : gmap Z Action;
  db_metadata : option Metadata;
  first : option Z;
}.

(** What the LevelDB calls of one operation return. *)
Record disk := mkDisk { put_ok : bool; delete_ok : bool; get_ok : bool }.

Definition healthy : disk := mkDisk true true true.

Definition empty_storage : Storage := mkStorage ∅ None None.

Definition min_option (o : option Z) (z : Z) : option Z :=
  Some (match o with Some x => Z.min x z | None => z end).

(** [LevelDBStorage::persist(Metadata)]. *)
Definition persist_metadata (d : disk) (m : Metadata) (s : Storage) : option Storage :=
  if put_ok d then Some (mkStorage (db_actions s) (Some m) (first s)) else None.

(** The positions to delete once a truncation or a tombstone is learned. *)
Definition truncate_to (a : Action) : option Z :=
  if is_learned a then
    match entry a with
    | Some (TRUNCATE to) => Some to
    | Some (NOP (Some true)) => Some (position a)
    | _ => None
    end
  else None.

(** The batch of deletions from [first] up to and excluding [to]. *)
Definition delete_range (from to : Z) (db : gmap Z Action) : gmap Z Action :=
  filter (fun kv => ~ (from <= kv.1 < to)) db.

(** [LevelDBStorage::persist(Action)]. *)
Definition persist_action (d : disk) (a : Action) (s : Storage) : option Storage :=
  if put_ok d then
    let db := <[position a := a]> (db_actions s) in
    let first1 := min_option (first s) (position a) in
    match truncate_to a, first1 with
    | Some to, Some f =>
        if (f <? to) && delete_ok d then
          Some (mkStorage (delete_range f to db) (db_metadata s) (Some to))
        else Some (mkStorage db (db_metadata s) first1)
    | _, _ => Some (mkStorage db (db_metadata s) first1)
    end
  else None.

(** [LevelDBStorage::read]. *)
Definition read_action (d : disk) (p : Z) (s : Storage) : option Action :=
  if get_ok d then db_actions s !! p else None.

(** [Storage::State]. *)
Record State := mkState {
  s_metadata : Metadata;
  s_begin : Z;
  s_end : Z;
  s_learned : gset Z;
  s_unlearned : gset Z;
}.

(** The beginning of the log an action by itself implies. *)
Definition action_begin (a : Action) : Z :=
  if is_learned a then
    match entry a with
    | Some (TRUNCATE to) => to
    | Some (NOP (Some true)) => u64 (position a + 1)
    | _ => 0
    end
  else 0.

(** The [Record::ACTION] case of the loop in [LevelDBStorage::restore]. *)
Definition restore_step (p : Z) (a : Action) (st : State) : State :=
  if is_learned a then
    mkState (s_metadata st) (Z.max (s_begin st) (action_begin a))
      (Z.max (s_end st) (position a))
      ({[position a]} ∪ s_learned st) (s_unlearned st ∖ {[position a]})
  else
    mkState (s_metadata st) (s_begin st) (Z.max (s_end st) (position a))
      (s_learned st ∖ {[position a]}) ({[position a]} ∪ s_unlearned st).

(** [LevelDBStorage::restore]: iterate over the records of the database. *)
Definition restore_state (s : Storage) : State :=
  map_fold restore_step
    (mkState (default default_metadata (db_metadata s)) 0 0 ∅ ∅) (db_actions s).

(** The storage once [LevelDBStorage::restore] is done: [first] is recomputed
    from the actions that are there. *)
Definition reopen (s : Storage) : Storage :=
  mkStorage (db_actions s) (db_metadata s)
    (map_fold (fun _ a first => min_option first (position a)) None (db_actions s)).

(** ** Properties of the keys *)

Lemma digit_char_compare a b :
  0 <= a < 10 -> 0 <= b < 10 ->
  Ascii_as_OT.compare (digit_char a) (digit_char b) = Z.compare a b.
Proof.
  intros Ha Hb.
  assert (H : forallb (fun i => forallb (fun j =>
    bool_decide (Ascii_as_OT.compare (digit_char (Z.of_nat i)) (digit_char (Z.of_nat j))
                 = Z.compare (Z.of_nat i) (Z.of_nat j))) (seq 0 10)) (seq 0 10) = true)
    by (vm_compute; reflexivity).
  rewrite forallb_forall in H. specialize (H (Z.to_nat a)).
  rewrite in_seq, forallb_forall in H. specialize (H ltac:(lia) (Z.to_nat b)).
  rewrite in_seq, bool_decide_eq_true in H. rewrite !Z2Nat.id in H by lia. apply H. lia.
Qed.

Lemma strcmp_cons a b s t :
  strcmp (implode (a :: s)) (implode (b :: t)) =
  match Ascii_as_OT.compare a b with
  | Eq => strcmp (implode s) (implode t)
  | c => c
  end.
Proof. done. Qed.

(** Zero padded numbers of one width compare as numbers. *)
Lemma format_width_compare w a b :
  0 <= a < 10 ^ Z.of_nat w -> 0 <= b < 10 ^ Z.of_nat w ->
  strcmp (implode (format_width w a)) (implode (format_width w b)) = Z.compare a b.
Proof.
  enough (H : forall a b, 0 <= a -> 0 <= b ->
    strcmp (implode (format_width w a)) (implode (format_width w b)) =
    Z.compare (a mod 10 ^ Z.of_nat w) (b mod 10 ^ Z.of_nat w)).
  { intros Ha Hb. rewrite H by lia. by rewrite !Z.mod_small. }
  clear a b. induction w as [|w IH]; intros a b Ha Hb.
  { simpl. by rewrite !Z.mod_1_r. }
  cbn [format_width]. rewrite strcmp_cons, digit_char_compare
    by (apply Z.mod_pos_bound; lia).
  assert (Hp : 0 < 10 ^ Z.of_nat w) by (apply Z.pow_pos_nonneg; lia).
  assert (Hs : 10 ^ Z.of_nat (S w) = 10 ^ Z.of_nat w * 10).
  { rewrite Nat2Z.inj_succ, Z.pow_succ_r by lia. lia. }
  rewrite Hs, !Z.rem_mul_r by lia. rewrite IH by lia.
  set (P := 10 ^ Z.of_nat w) in *.
  assert (Ra := Z.mod_pos_bound a P Hp). assert (Rb := Z.mod_pos_bound b P Hp).
  set (x := a / P mod 10). set (y := b / P mod 10).
  destruct (Z.compare_spec x y) as [->|Hlt|Hgt].
  - destruct (Z.compare_spec (a mod P) (b mod P)); symmetry;
      [apply Z.compare_eq_iff|apply Z.compare_lt_iff|apply Z.compare_gt_iff]; lia.
  - symmetry. apply Z.compare_lt_iff. nia.
  - symmetry. apply Z.compare_gt_iff. nia.
Qed.

(** The LevelDB keys are strictly increasing in the position, over every
    position the replica can store and the metadata key below them all: the
    byte-wise order of the database is the order of the log. *)
Theorem encode_strictly_monotone p q :
  0 <= p -> p < q -> q < UINT64_MAX ->
  exists kp kq k0,
    encode p true = Some kp /\ encode q true = Some kq /\ encode 0 false = Some k0
    /\ str_lt kp kq /\ str_lt k0 kp.
Proof.
  intros Hp Hpq Hq.
  assert (E : forall z, 0 <= z < UINT64_MAX -> encode z true =
    Some (implode (if z + 1 <=? 9999999999 then format_width 10 (z + 1)
                   else "A"%char :: format_width 20 (z + 1)))).
  { intros z Hz. unfold encode. simpl. replace (z <? UINT64_MAX) with true
      by (symmetry; apply Z.ltb_lt; lia). simpl. by destruct (z + 1 <=? _). }
  rewrite !E by lia. do 3 eexists. split_and!; [done..|reflexivity| |]; unfold str_lt.
  - unfold UINT64_MAX in *.
    destruct (p + 1 <=? 9999999999) eqn:E1, (q + 1 <=? 9999999999) eqn:E2; breflect; try lia.
    + rewrite format_width_compare by (simpl; lia). apply Z.compare_lt_iff. lia.
    + cbn [format_width]. rewrite strcmp_cons.
      set (d := (p + 1) / _ mod 10).
      assert (Hd : 0 <= d < 10) by (apply Z.mod_pos_bound; lia).
      replace (Ascii_as_OT.compare (digit_char d) "A"%char) with Lt; [done|].
      assert (d = 0 \/ d = 1 \/ d = 2 \/ d = 3 \/ d = 4 \/ d = 5 \/ d = 6 \/ d = 7 \/
              d = 8 \/ d = 9) as Hc by lia.
      by destruct_or! Hc; rewrite Hc.
    + rewrite strcmp_cons.
      change (Ascii_as_OT.compare "A"%char "A"%char) with Eq. cbv iota beta.
      rewrite format_width_compare by (simpl; lia). apply Z.compare_lt_iff. lia.
  - destruct (p + 1 <=? 9999999999) eqn:E1; breflect.
    + rewrite (format_width_compare 10 0) by (simpl; lia). apply Z.compare_lt_iff. lia.
    + cbn [format_width]. by rewrite strcmp_cons.
Qed.

Lemma encode_strictly_monotone_witness :
  exists kp kq k0,
    encode 9999999997 true = Some kp /\ encode 9999999999 true = Some kq
    /\ encode 0 false = Some k0 /\ str_lt kp kq /\ str_lt k0 kp.
Proof.
  apply (encode_strictly_monotone 9999999997 9999999999); unfold UINT64_MAX; lia.
Defined.
