(* ===== verification/Replica.v ===== *)
(** * The log replica

    [src/src/log/replica.cpp]: the acceptor of the replicated log.  One
    definition per handler and per query of [ReplicaProcess]; a handler returns
    the new state and the reply it sends, if any.  A failed disk write leaves
    the state alone and sends no reply, as in the code. *)

From stdpp Require Import base gmap strings list.
From S2P Require Import Prelude Strings Storage.
Local Open Scope Z_scope.

(** ** Messages ([src/src/messages/log.proto]) *)

Inductive ResponseType := ACCEPT | REJECT | IGNORED.

#[export] Instance ResponseType_eq_dec : EqDecision ResponseType.
Proof. solve_decision. Defined.

Record PromiseRequest := mkPromiseRequest {
  preq_proposal : Z;
  preq_position : option Z;
}.

Record PromiseResponse := mkPromiseResponse {
  pr_type : option ResponseType;
  pr_okay : bool;
  pr_proposal : Z;
  pr_position : option Z;
  pr_action : option Action;
}.

Record WriteRequest := mkWriteRequest {
  wreq_proposal : Z;
  wreq_position : Z;
  wreq_learned : option bool;
  wreq_entry : Entry;
}.

Record WriteResponse := mkWriteResponse {
  wr_type : option ResponseType;
  wr_okay : bool;
  wr_proposal : Z;
  wr_position : Z;
}.

Record RecoverResponse := mkRecoverResponse {
  rr_status : Status;
  rr_begin : option Z;
  rr_end : option Z;
}.

(** ** State *)

(** An [IntervalSet<uint64_t>] is the set of its positions. *)
Record Replica := mkReplica {
  storage : Storage;
  metadata : Metadata;
  begin : Z;
  end_ : Z;
  holes : gset Z;
  unlearned : gset Z;
}.

(** The positions strictly between two bounds, and those from one to the
    other.  An interval is stored as [[lower, upper)], so the upper bound of a
    closed one wraps at the largest [uint64_t]. *)
Definition open_interval (a b : Z) : gset Z := list_to_set (seqZ (a + 1) (b - a - 1)).
Definition closed_interval (a b : Z) : gset Z := list_to_set (seqZ a (u64 (b + 1) - a)).

(** ** Queries *)

Inductive read_result :=
  | ReadError
  | ReadNone
  | ReadSome (a : Action).

(** [ReplicaProcess::read(position)]. *)
Definition read (d : disk) (r : Replica) (p : Z) : read_result :=
  if p <? begin r then ReadError
  else if end_ r <? p then ReadNone
  else if bool_decide (p ∈ holes r) then ReadNone
  else match read_action d p (storage r) with
       | Some a => ReadSome a
       | None => ReadError
       end.

Inductive range_error := ToBeforeFrom | TruncatedPosition | PastEnd | ReadFailed.

(** The loop of [ReplicaProcess::read(from, to)]. *)
Fixpoint read_loop (d : disk) (r : Replica) (ps : list Z) : result range_error (list Action) :=
  match ps with
  | [] => Ok []
  | p :: ps' =>
      match read d r p with
      | ReadError => Err ReadFailed
      | ReadNone => read_loop d r ps'
      | ReadSome a => let? rest := read_loop d r ps' in Ok (a :: rest)
      end
  end.

Definition read_range (d : disk) (r : Replica) (from to : Z)
  : result range_error (list Action) :=
  if to <? from then Err ToBeforeFrom
  else if from <? begin r then Err TruncatedPosition
  else if end_ r <? to then Err PastEnd
  else read_loop d r (seqZ from (to - from + 1)).

(** [ReplicaProcess::missing(position)]. *)
Definition missing (r : Replica) (p : Z) : bool :=
  if p <? begin r then false
  else if end_ r <? p then true
  else bool_decide (p ∈ unlearned r) || bool_decide (p ∈ holes r).

(** [ReplicaProcess::missing(from, to)]. *)
Definition missing_range (r : Replica) (from to : Z) : gset Z :=
  if to <? from then ∅
  else
    let positions := unlearned r ∪ holes r in
    let positions :=
      if end_ r <? to then positions ∪ closed_interval (end_ r + 1) to else positions in
    positions ∩ closed_interval from to.

(** [ReplicaProcess::promised]. *)
Definition promised_ (r : Replica) : Z := meta_promised (metadata r).

(** ** Updates *)

(** [ReplicaProcess::update(status)]. *)
Definition update (d : disk) (s : Status) (r : Replica) : option Replica :=
  match persist_metadata d (mkMetadata s (promised_ r)) (storage r) with
  | None => None
  | Some st =>
      Some (mkReplica st (mkMetadata s (promised_ r)) (begin r) (end_ r) (holes r) (unlearned r))
  end.

(** [ReplicaProcess::updatePromised(promised)]. *)
Definition updatePromised (d : disk) (p : Z) (r : Replica) : option Replica :=
  match persist_metadata d (mkMetadata (status (metadata r)) p) (storage r) with
  | None => None
  | Some st =>
      Some (mkReplica st (mkMetadata (status (metadata r)) p) (begin r) (end_ r)
              (holes r) (unlearned r))
  end.

(** [ReplicaProcess::persist(action)]. *)
Definition persist (d : disk) (a : Action) (r : Replica) : option Replica :=
  match persist_action d a (storage r) with
  | None => None
  | Some st =>
      let p := position a in
      let holes1 := holes r ∖ {[p]} in
      let '(begin1, holes2, unlearned2) :=
        if is_learned a then
          let unlearned1 := unlearned r ∖ {[p]} in
          match entry a with
          | Some (TRUNCATE to) =>
              (Z.max (begin r) to, holes1 ∖ open_interval 0 to, unlearned1 ∖ open_interval 0 to)
          | Some (NOP (Some true)) =>
              (Z.max (begin r) (u64 (p + 1)),
               holes1 ∖ open_interval 0 p, unlearned1 ∖ open_interval 0 p)
          | _ => (begin r, holes1, unlearned1)
          end
        else (begin r, holes1, unlearned r ∪ {[p]}) in
      let holes3 := if end_ r <? p then holes2 ∪ open_interval (end_ r) p else holes2 in
      Some (mkReplica st (metadata r) begin1 (Z.max (end_ r) p) holes3 unlearned2)
  end.

(** [ReplicaProcess::restore]. *)
Definition restore (s : Storage) : Replica :=
  let st := restore_state s in
  mkReplica (reopen s) (s_metadata st) (s_begin st) (s_end st)
    (closed_interval (s_begin st) (s_end st) ∖ s_learned st ∖ s_unlearned st)
    (s_unlearned st).

(** ** Handlers *)

Inductive abort := CheckFailed.

(** The replies. *)
Definition promise_reject (p : Z) : PromiseResponse :=
  mkPromiseResponse (Some REJECT) false p None None.
Definition promise_ignored (p : Z) : PromiseResponse :=
  mkPromiseResponse (Some IGNORED) false p None None.
Definition promise_accept (p : Z) (pos : option Z) (a : option Action) : PromiseResponse :=
  mkPromiseResponse (Some ACCEPT) true p pos a.

(** The action a truncated position is answered with. *)
Definition tombstone_action (r : Replica) (p : Z) : Action :=
  mkAction p (promised_ r) (Some (promised_ r)) (Some true) (Some (NOP (Some true))).

(** [if (persist(...)) { reply(...) }]. *)
Definition persist_and {R : Type} (d : disk) (a : Action) (r : Replica) (resp : R)
  : result abort (Replica * option R) :=
  match persist d a r with
  | Some r' => Ok (r', Some resp)
  | None => Ok (r, None)
  end.

(** The [request.has_position()] half of [ReplicaProcess::promise]. *)
Definition explicit_promise (d : disk) (n p : Z) (r : Replica)
  : result abort (Replica * option PromiseResponse) :=
  if p <? begin r then Ok (r, Some (promise_accept n None (Some (tombstone_action r p))))
  else
    match read d r p with
    | ReadError => Ok (r, None)
    | ReadNone =>
        if n <=? promised_ r then Ok (r, Some (promise_reject (promised_ r)))
        else persist_and d (mkAction p n None None None) r (promise_accept n (Some p) None)
    | ReadSome a =>
        if negb (position a =? p) then Err CheckFailed
        else if n <=? promised a then Ok (r, Some (promise_reject (promised a)))
        else persist_and d (mkAction (position a) n (performed a) (learned a) (entry a)) r
               (promise_accept n None (Some a))
    end.

(** The other half: an implicit promise for every position past the end. *)
Definition implicit_promise (d : disk) (n : Z) (r : Replica)
  : result abort (Replica * option PromiseResponse) :=
  if n <=? promised_ r then Ok (r, Some (promise_reject (promised_ r)))
  else
    match updatePromised d n r with
    | Some r' => Ok (r', Some (promise_accept n (Some (end_ r')) None))
    | None => Ok (r, None)
    end.

(** [ReplicaProcess::promise]. *)
Definition promise (d : disk) (req : PromiseRequest) (r : Replica)
  : result abort (Replica * option PromiseResponse) :=
  if bool_decide (status (metadata r) <> VOTING) then
    Ok (r, Some (promise_ignored (preq_proposal req)))
  else
    match preq_position req with
    | Some p => explicit_promise d (preq_proposal req) p r
    | None => implicit_promise d (preq_proposal req) r
    end.

(** The [switch] over [request.type()]: [mutable_nop()] makes a no-op without
    a tombstone. *)
Definition copy_entry (e : Entry) : Entry :=
  match e with
  | NOP _ => NOP None
  | APPEND bytes => APPEND bytes
  | TRUNCATE to => TRUNCATE to
  end.

Definition write_reply (t : ResponseType) (proposal p : Z) : WriteResponse :=
  mkWriteResponse (Some t) (bool_decide (t = ACCEPT)) proposal p.

(** [ReplicaProcess::write]. *)
Definition write (d : disk) (req : WriteRequest) (r : Replica)
  : result abort (Replica * option WriteResponse) :=
  let n := wreq_proposal req in
  let p := wreq_position req in
  if bool_decide (status (metadata r) <> VOTING) then Ok (r, Some (write_reply IGNORED n p))
  else
    match read d r p with
    | ReadError => Ok (r, None)
    | ReadNone =>
        if n <? promised_ r then Ok (r, Some (write_reply REJECT (promised_ r) p))
        else
          persist_and d
            (mkAction p (promised_ r) (Some n) (wreq_learned req) (Some (copy_entry (wreq_entry req))))
            r (write_reply ACCEPT n p)
    | ReadSome a =>
        if negb (position a =? p) then Err CheckFailed
        else if n <? promised a then Ok (r, Some (write_reply REJECT (promised a) p))
        else if is_learned a then Ok (r, None)
        else
          persist_and d
            (mkAction (position a) (promised a) (Some n) (wreq_learned req)
               (Some (copy_entry (wreq_entry req))))
            r (write_reply ACCEPT n p)
    end.

(** [ReplicaProcess::recover]. *)
Definition recover (r : Replica) : RecoverResponse :=
  if bool_decide (status (metadata r) = VOTING) then
    mkRecoverResponse (status (metadata r)) (Some (begin r)) (Some (end_ r))
  else mkRecoverResponse (status (metadata r)) None None.

(** [ReplicaProcess::learned]. *)
Definition learned_ (d : disk) (a : Action) (r : Replica) : result abort Replica :=
  if is_learned a then Ok (default r (persist d a r)) else Err CheckFailed.

(** ** The invariant of a replica *)

Definition stored (r : Replica) (p : Z) : option Action := db_actions (storage r) !! p.

(** The proposal a replica has promised for a position: the one of the stored
    action, or the implicit promise where there is none. *)
Definition promise_at (r : Replica) (p : Z) : Z :=
  match stored r p with
  | Some a => promised a
  | None => promised_ r
  end.

(** An action a replica may be asked to persist: a storable position and,
    for a truncation, a target inside the log. *)
Definition valid_action (a : Action) : Prop :=
  0 <= position a < UINT64_MAX
  /\ forall to, entry a = Some (TRUNCATE to) -> 0 <= to <= position a.

Record wf_replica (r : Replica) : Prop := {
  wf_metadata : db_metadata (storage r) = Some (metadata r)
                \/ (db_metadata (storage r) = None /\ metadata r = default_metadata);
  wf_begin : 0 <= begin r <= end_ r + 1;
  wf_stored : forall p a, stored r p = Some a -> position a = p /\ 0 <= p <= end_ r;
  wf_holes : forall p, p ∈ holes r -> stored r p = None /\ 0 <= p <= end_ r;
  wf_present : forall p, begin r <= p <= end_ r -> p ∈ holes r \/ is_Some (stored r p);
  wf_unlearned : forall p a, begin r <= p -> stored r p = Some a ->
                 (p ∈ unlearned r <-> is_learned a = false);
  wf_unlearned_stored : forall p, begin r <= p -> p ∈ unlearned r -> is_Some (stored r p);
  wf_unlearned_pos : forall p, p ∈ unlearned r -> 0 <= p <= end_ r;
  wf_valid : forall p a, stored r p = Some a -> valid_action a /\ action_begin a <= begin r;
  wf_begin_durable : begin r = 0
                     \/ exists p a, stored r p = Some a /\ action_begin a = begin r;
  wf_end_durable : end_ r = 0 \/ is_Some (stored r (end_ r));
}.

Lemma wf_end_valid r : wf_replica r -> 0 <= end_ r < UINT64_MAX.
Proof.
  intros Hwf. destruct (wf_end_durable r Hwf) as [->|[a Ha]]; [done|].
  destruct (wf_valid r Hwf _ a Ha) as [[Hp _] _]. by rewrite (proj1 (wf_stored r Hwf _ a Ha)) in Hp.
Qed.

(** ** What persisting does *)

Lemma elem_of_open_interval p a b : p ∈ open_interval a b <-> a < p < b.
Proof. unfold open_interval. rewrite elem_of_list_to_set, elem_of_seqZ. lia. Qed.

Lemma elem_of_closed_interval p a b :
  0 <= b < UINT64_MAX -> p ∈ closed_interval a b <-> a <= p <= b.
Proof.
  intros Hb. unfold closed_interval.
  rewrite elem_of_list_to_set, elem_of_seqZ, u64_id by (unfold is_u64; lia). lia.
Qed.

Lemma closed_interval_lower p a b : p ∈ closed_interval a b -> a <= p.
Proof. unfold closed_interval. rewrite elem_of_list_to_set, elem_of_seqZ. lia. Qed.

(** Where the deletions of a learned truncation stop. *)
Definition cut (a : Action) : Z := default 0 (truncate_to a).

Lemma action_begin_cut a :
  valid_action a -> 0 <= cut a <= position a /\ cut a <= action_begin a <= position a + 1
  /\ (action_begin a = cut a \/ (action_begin a = position a + 1 /\ cut a = position a)).
Proof.
  intros [Hp Ht]. unfold cut, truncate_to, action_begin.
  destruct (is_learned a); simpl; [|lia].
  destruct (entry a) as [[[[]|]|?|to]|]; simpl; try lia.
  - rewrite u64_id by (unfold is_u64; lia). lia.
  - specialize (Ht to eq_refl). lia.
Qed.

Lemma persist_action_spec d a s s' :
  persist_action d a s = Some s' ->
  db_metadata s' = db_metadata s
  /\ (forall p, db_actions s' !! p = <[position a := a]> (db_actions s) !! p
                \/ (db_actions s' !! p = None /\ p < cut a)).
Proof.
  unfold persist_action, cut. destruct (put_ok d); [|done].
  destruct (truncate_to a) as [to|]; simpl; [|intros [= <-]; split; [done|by left]].
  destruct (_ && _); intros [= <-]; (split; [done|]); intros p; [|by left].
  simpl. unfold delete_range.
  destruct (decide (match first s with Some x => x `min` position a | None => position a end
                    <= p < to)) as [Hr|Hr].
  - right. split; [|lia]. apply map_lookup_filter_None. right. intros x _ Hx. by apply Hx.
  - left. destruct (<[position a:=a]> (db_actions s) !! p) as [b|] eqn:Eb.
    + by apply map_lookup_filter_Some_2.
    + apply map_lookup_filter_None. by left.
Qed.

(** The state after a successful [persist], field by field. *)
Record persisted (a : Action) (r r' : Replica) : Prop := {
  pd_metadata : metadata r' = metadata r;
  pd_db_metadata : db_metadata (storage r') = db_metadata (storage r);
  pd_begin : begin r' = Z.max (begin r) (action_begin a);
  pd_end : end_ r' = Z.max (end_ r) (position a);
  pd_stored : forall p, stored r' p = <[position a := a]> (db_actions (storage r)) !! p
                \/ (stored r' p = None /\ p < cut a);
  pd_holes : forall p, p ∈ holes r' <->
               (p ∈ holes r /\ p <> position a /\ ~ 0 < p < cut a) \/ end_ r < p < position a;
  pd_unlearned : forall p, p ∈ unlearned r' <->
               (p ∈ unlearned r /\ (is_learned a = true -> p <> position a) /\ ~ 0 < p < cut a)
               \/ (p = position a /\ is_learned a = false);
}.

Lemma persist_spec d a r r' :
  0 <= begin r -> valid_action a -> persist d a r = Some r' -> persisted a r r'.
Proof.
  intros H0 Hv H. unfold persist in H.
  destruct (persist_action d a (storage r)) as [st|] eqn:E; [|done].
  apply persist_action_spec in E as [Em Es].
  assert (Hc := action_begin_cut a Hv).
  revert Es Hc. unfold cut, truncate_to, action_begin. intros Es Hc.
  destruct (is_learned a) eqn:El;
    [destruct (entry a) as [[[[]|]|?|to]|] eqn:Ee|];
    simpl in *; simplify_eq; split; simpl; unfold cut, truncate_to, action_begin;
    rewrite ?El, ?Ee; simpl; try done; try lia;
    try (intros p; destruct (end_ r <? position a) eqn:Ep; breflect;
         rewrite ?elem_of_union, ?elem_of_difference, ?elem_of_singleton,
           ?elem_of_open_interval; naive_solver lia).
Qed.

Lemma persisted_stored_at a r r' p :
  persisted a r r' -> valid_action a -> begin r' <= p ->
  stored r' p = if decide (p = position a) then Some a else stored r p.
Proof.
  intros Hp Hv Hb. destruct (pd_stored _ _ _ Hp p) as [->|[_ Hlt]].
  - unfold stored. rewrite lookup_insert. by repeat case_decide; subst.
  - assert (Hc := action_begin_cut a Hv). rewrite (pd_begin _ _ _ Hp) in Hb. lia.
Qed.

Lemma persisted_stored_inv a r r' p b :
  persisted a r r' -> stored r' p = Some b ->
  (p = position a /\ b = a) \/ (p <> position a /\ stored r p = Some b).
Proof.
  intros Hp Hb. destruct (pd_stored _ _ _ Hp p) as [E|[E _]]; [|congruence].
  rewrite E, lookup_insert in Hb. case_decide; simplify_eq; eauto.
Qed.

(** The records that keep [begin] and [end_] recoverable survive. *)
Lemma persisted_begin_durable a r r' :
  wf_replica r -> valid_action a -> persisted a r r' ->
  (forall b, stored r (position a) = Some b -> action_begin b <= action_begin a) ->
  begin r' = 0 \/ exists p b, stored r' p = Some b /\ action_begin b = begin r'.
Proof.
  intros Hwf Hv Hp Hover. assert (Hc := action_begin_cut a Hv). assert (Hb := pd_begin _ _ _ Hp).
  assert (W0 := wf_begin r Hwf).
  destruct (decide (begin r <= action_begin a)) as [Hle|Hgt].
  - right. exists (position a), a. split; [|lia].
    destruct (pd_stored _ _ _ Hp (position a)) as [->|[_ ?]]; [|lia].
    by rewrite lookup_insert_eq.
  - destruct (wf_begin_durable r Hwf) as [?|(q & b & Hq & Hqb)]; [left; lia|right].
    exists q, b. split; [|lia]. destruct (decide (q = position a)) as [->|Hne].
    { apply Hover in Hq. lia. }
    destruct (pd_stored _ _ _ Hp q) as [->|[_ Hlt]].
    + by rewrite lookup_insert_ne by done.
    + destruct (wf_valid r Hwf q b Hq) as [Hvb _]. assert (Hcb := action_begin_cut b Hvb).
      apply (wf_stored r Hwf) in Hq as [? _]. lia.
Qed.

Lemma persisted_end_durable a r r' :
  wf_replica r -> valid_action a -> persisted a r r' ->
  end_ r' = 0 \/ is_Some (stored r' (end_ r')).
Proof.
  intros Hwf Hv Hp. assert (Hc := action_begin_cut a Hv). assert (He := pd_end _ _ _ Hp).
  destruct (decide (end_ r < position a)) as [Hlt|Hge].
  - right. replace (end_ r') with (position a) by lia.
    destruct (pd_stored _ _ _ Hp (position a)) as [->|[_ ?]]; [|lia].
    rewrite lookup_insert_eq. eauto.
  - replace (end_ r') with (end_ r) by lia.
    destruct (wf_end_durable r Hwf) as [?|He']; [by left|right].
    destruct (pd_stored _ _ _ Hp (end_ r)) as [->|[_ ?]]; [|lia].
    rewrite lookup_insert. case_decide; [eauto|done].
Qed.

Lemma persist_wf d a r r' :
  wf_replica r -> valid_action a ->
  (forall b, stored r (position a) = Some b -> action_begin b <= action_begin a) ->
  persist d a r = Some r' -> wf_replica r'.
Proof.
  intros Hwf Hv Hover H. assert (Hp := persist_spec _ _ _ _ (proj1 (wf_begin _ Hwf)) Hv H). clear H.
  assert (Hdb := persisted_begin_durable a r r' Hwf Hv Hp Hover).
  assert (Hde := persisted_end_durable a r r' Hwf Hv Hp).
  assert (Hc := action_begin_cut a Hv). assert (Hpos := proj1 Hv).
  destruct Hwf as [Wm Wb Ws Wh Wp Wu Wus Wup Wv Wbd Wed].
  assert (Hb := pd_begin _ _ _ Hp). assert (He := pd_end _ _ _ Hp).
  assert (Hst := fun p => persisted_stored_at a r r' p Hp Hv).
  assert (Hin := fun p b => persisted_stored_inv a r r' p b Hp).
  assert (Hho := pd_holes _ _ _ Hp). assert (Hun := pd_unlearned _ _ _ Hp).
  split.
  - by rewrite (pd_metadata _ _ _ Hp), (pd_db_metadata _ _ _ Hp).
  - lia.
  - intros p b [[-> ->]|[_ Hs]]%Hin; [lia|]. apply Ws in Hs. lia.
  - intros p [(H1 & H2 & H3)|H1]%Hho.
    + destruct (Wh p H1) as [Hn Hr]. split; [|lia].
      destruct (stored r' p) eqn:E; [|done].
      apply Hin in E as [[? _]|[_ ?]]; congruence.
    + split; [|lia]. destruct (stored r' p) eqn:E; [|done].
      apply Hin in E as [[? _]|[_ Hs]]; [lia|]. apply Ws in Hs. lia.
  - intros p Hpr. destruct (decide (p = position a)) as [->|Hne].
    { right. rewrite Hst, decide_True by lia. eauto. }
    destruct (decide (p <= end_ r)) as [Hle|Hgt].
    + destruct (Wp p) as [Hh|Hs]; [lia| |].
      * left. apply Hho. left. split_and!; [done..|lia].
      * right. by rewrite Hst, decide_False by lia.
    + left. apply Hho. right. lia.
  - intros p b Hbp Hs. rewrite Hun. rewrite Hst in Hs by lia.
    case_decide as Hd; simplify_eq.
    + split; [intros [(_ & Hne & _)|[_ ?]]; [|done]|by right].
      destruct (is_learned b); [by destruct Hne|done].
    + rewrite <- (Wu p b) by (done || lia). naive_solver lia.
  - intros p Hbp [(Hu & _)|[-> _]]%Hun.
    + rewrite Hst by lia. case_decide; [eauto|]. apply Wus; [lia|done].
    + rewrite Hst, decide_True by lia. eauto.
  - intros p [(Hu & _)|[-> _]]%Hun; [apply Wup in Hu|]; lia.
  - intros p b [[-> ->]|[_ Hs]]%Hin; [split; [done|lia]|].
    destruct (Wv p b Hs). split; [done|lia].
  - done.
  - done.
Qed.

(** ** The handlers *)

(** With a readable disk, [read] on a position of the log is a lookup. *)
Lemma read_spec d r p :
  wf_replica r -> 0 <= p ->
  match read d r p with
  | ReadError => p < begin r \/ get_ok d = false
  | ReadNone => begin r <= p /\ stored r p = None
  | ReadSome a => begin r <= p /\ stored r p = Some a /\ position a = p
  end.
Proof.
  intros Hwf Hp. unfold read. destruct (p <? begin r) eqn:E1; breflect; [by left|].
  destruct (end_ r <? p) eqn:E2; breflect.
  { split; [done|]. destruct (stored r p) eqn:Es; [|done]. apply (wf_stored r Hwf) in Es. lia. }
  case_bool_decide as Hh; [split; [done|apply (wf_holes r Hwf p Hh)]|].
  unfold read_action. destruct (get_ok d); [|by right].
  destruct (wf_present r Hwf p) as [?|[a Ha]]; [lia|done|].
  unfold stored in Ha. rewrite Ha. split_and!; [done..|]. apply (wf_stored r Hwf p a Ha).
Qed.

Lemma wf_update_metadata r st m :
  wf_replica r -> db_actions st = db_actions (storage r) -> db_metadata st = Some m ->
  wf_replica (mkReplica st m (begin r) (end_ r) (holes r) (unlearned r)).
Proof.
  intros [] Hdb Hm.
  split; unfold stored in *; simpl; rewrite ?Hdb; try done. by left.
Qed.

Lemma update_spec d s r r' :
  update d s r = Some r' ->
  stored r' = stored r /\ begin r' = begin r /\ end_ r' = end_ r
  /\ promised_ r' = promised_ r /\ (wf_replica r -> wf_replica r').
Proof.
  unfold update, persist_metadata. destruct (put_ok d); [|done]. intros [= <-].
  split_and!; try done. intros Hwf. by apply wf_update_metadata.
Qed.

Lemma updatePromised_spec d n r r' :
  updatePromised d n r = Some r' ->
  stored r' = stored r /\ begin r' = begin r /\ end_ r' = end_ r
  /\ promised_ r' = n /\ status (metadata r') = status (metadata r)
  /\ (wf_replica r -> wf_replica r').
Proof.
  unfold updatePromised, persist_metadata. destruct (put_ok d); [|done]. intros [= <-].
  split_and!; try done. intros Hwf. by apply wf_update_metadata.
Qed.

(** A storable position. *)
Definition valid_position (p : Z) : Prop := 0 <= p < UINT64_MAX.

(** A write request a proposer may send. *)
Definition valid_write (req : WriteRequest) : Prop :=
  valid_position (wreq_position req)
  /\ forall to, wreq_entry req = TRUNCATE to -> 0 <= to <= wreq_position req.

Lemma valid_bare p n : valid_position p -> valid_action (mkAction p n None None None).
Proof. intros H. split; [done|]. simpl. done. Qed.

Lemma valid_written req n m l :
  valid_write req ->
  valid_action (mkAction (wreq_position req) n m l (Some (copy_entry (wreq_entry req)))).
Proof.
  intros [Hp Ht]. split; [done|]. simpl. intros to [= He].
  apply Ht. by destruct (wreq_entry req).
Qed.

Lemma action_begin_nonneg a : valid_action a -> 0 <= action_begin a.
Proof. intros H%action_begin_cut. lia. Qed.

Lemma action_begin_unlearned a : is_learned a = false -> action_begin a = 0.
Proof. unfold action_begin. by intros ->. Qed.

#[export] Hint Resolve valid_bare valid_written action_begin_nonneg : clusterd.

Lemma action_begin_ext a b :
  position a = position b -> learned a = learned b -> entry a = entry b ->
  action_begin a = action_begin b.
Proof. unfold action_begin, is_learned. by intros -> -> ->. Qed.

(** What an explicit promise does to the state and replies. *)
Inductive explicit_outcome (n p : Z) (r : Replica)
  : Replica -> option PromiseResponse -> Prop :=
  | eo_truncated : p < begin r ->
      explicit_outcome n p r r (Some (promise_accept n None (Some (tombstone_action r p))))
  | eo_silent : explicit_outcome n p r r None
  | eo_reject m : begin r <= p -> n <= promise_at r p -> m = promise_at r p ->
      explicit_outcome n p r r (Some (promise_reject m))
  | eo_first r' : begin r <= p -> stored r p = None -> promised_ r < n ->
      persisted (mkAction p n None None None) r r' ->
      explicit_outcome n p r r' (Some (promise_accept n (Some p) None))
  | eo_again a r' : begin r <= p -> stored r p = Some a -> position a = p -> promised a < n ->
      persisted (mkAction p n (performed a) (learned a) (entry a)) r r' ->
      explicit_outcome n p r r' (Some (promise_accept n None (Some a))).

Lemma explicit_promise_spec d n p r :
  wf_replica r -> valid_position p ->
  exists r' resp, explicit_promise d n p r = Ok (r', resp)
                  /\ explicit_outcome n p r r' resp /\ wf_replica r'.
Proof.
  intros Hwf Hp. unfold explicit_promise.
  destruct (p <? begin r) eqn:E1; breflect; [do 2 eexists; split_and!; [done|by constructor|done]|].
  assert (Hr := read_spec d r p Hwf (proj1 Hp)).
  assert (H0 := proj1 (wf_begin r Hwf)).
  destruct (read d r p) as [| |a].
  - do 2 eexists; split_and!; [done|constructor|done].
  - destruct Hr as [_ Hs]. destruct (n <=? promised_ r) eqn:E2; breflect.
    { do 2 eexists; split_and!; [done| |done]. apply eo_reject; unfold promise_at; by rewrite ?Hs. }
    unfold persist_and. destruct (persist d _ r) as [r'|] eqn:Ep.
    + do 2 eexists; split_and!; [done| |].
      * apply eo_first; try done. eapply persist_spec; eauto with clusterd.
      * eapply persist_wf; [exact Hwf|by apply valid_bare| |exact Ep]. simpl. congruence.
    + do 2 eexists; split_and!; [done|constructor|done].
  - destruct Hr as (_ & Hs & Hpos). replace (position a =? p) with true by lia. simpl.
    destruct (n <=? promised a) eqn:E2; breflect.
    { do 2 eexists; split_and!; [done| |done]. apply eo_reject; unfold promise_at; by rewrite ?Hs. }
    destruct (wf_valid r Hwf p a Hs) as [[Hv1 Hv2] _].
    assert (Hva : valid_action (mkAction (position a) n (performed a) (learned a) (entry a)))
      by (split; simpl; [lia|done]).
    unfold persist_and. destruct (persist d _ r) as [r'|] eqn:Ep.
    + do 2 eexists; split_and!; [done| |].
      * eapply eo_again; try done. rewrite <- Hpos at 1. eapply persist_spec; eauto.
      * eapply persist_wf; [exact Hwf|exact Hva| |exact Ep]. simpl.
        rewrite Hpos, Hs. intros b [= <-]. by erewrite action_begin_ext.
    + do 2 eexists; split_and!; [done|constructor|done].
Qed.

(** What a write does. *)
Inductive write_outcome (req : WriteRequest) (r : Replica)
  : Replica -> option WriteResponse -> Prop :=
  | wo_ignored : status (metadata r) <> VOTING ->
      write_outcome req r r (Some (write_reply IGNORED (wreq_proposal req) (wreq_position req)))
  | wo_silent : write_outcome req r r None
  | wo_reject : begin r <= wreq_position req ->
      wreq_proposal req < promise_at r (wreq_position req) ->
      write_outcome req r r
        (Some (write_reply REJECT (promise_at r (wreq_position req)) (wreq_position req)))
  | wo_accept r' : begin r <= wreq_position req ->
      promise_at r (wreq_position req) <= wreq_proposal req ->
      (forall a, stored r (wreq_position req) = Some a -> is_learned a = false) ->
      persisted (mkAction (wreq_position req) (promise_at r (wreq_position req))
                   (Some (wreq_proposal req)) (wreq_learned req)
                   (Some (copy_entry (wreq_entry req)))) r r' ->
      write_outcome req r r'
        (Some (write_reply ACCEPT (wreq_proposal req) (wreq_position req))).

Lemma write_spec d req r :
  wf_replica r -> valid_write req ->
  exists r' resp, write d req r = Ok (r', resp)
                  /\ write_outcome req r r' resp /\ wf_replica r'.
Proof.
  intros Hwf Hv. unfold write.
  case_bool_decide as Est; [do 2 eexists; split_and!; [done|by constructor|done]|].
  assert (Hr := read_spec d r _ Hwf (proj1 (proj1 Hv))).
  assert (H0 := proj1 (wf_begin r Hwf)).
  destruct (read d r _) as [| |a].
  - do 2 eexists; split_and!; [done|constructor|done].
  - destruct Hr as [Hb Hs].
    assert (Hpa : promise_at r (wreq_position req) = promised_ r) by (unfold promise_at; by rewrite Hs).
    destruct (_ <? promised_ r) eqn:E2; breflect.
    { do 2 eexists; split_and!; [done| |done]. rewrite <- Hpa. apply wo_reject; lia. }
    unfold persist_and. destruct (persist d _ r) as [r'|] eqn:Ep.
    + do 2 eexists; split_and!; [done| |].
      * apply wo_accept; [done|lia|congruence|]. rewrite Hpa.
        eapply persist_spec; eauto with clusterd.
      * eapply persist_wf; [exact Hwf|by apply valid_written| |exact Ep]. simpl. congruence.
    + do 2 eexists; split_and!; [done|constructor|done].
  - destruct Hr as (Hb & Hs & Hpos). rewrite Hpos, Z.eqb_refl. simpl.
    assert (Hpa : promise_at r (wreq_position req) = promised a) by (unfold promise_at; by rewrite Hs).
    destruct (_ <? promised a) eqn:E2; breflect.
    { do 2 eexists; split_and!; [done| |done]. rewrite <- Hpa. apply wo_reject; lia. }
    destruct (is_learned a) eqn:El; [do 2 eexists; split_and!; [done|constructor|done]|].
    unfold persist_and. destruct (persist d _ r) as [r'|] eqn:Ep.
    + do 2 eexists; split_and!; [done| |].
      * apply wo_accept; [done|lia|congruence|]. rewrite Hpa.
        eapply persist_spec; eauto with clusterd.
      * eapply persist_wf; [exact Hwf|by apply valid_written| |exact Ep]. simpl.
        rewrite Hs. intros b [= <-]. rewrite (action_begin_unlearned a) by done.
        apply action_begin_nonneg. by apply valid_written.
    + do 2 eexists; split_and!; [done|constructor|done].
Qed.

(** ** Restarting *)

(** What the loop of [LevelDBStorage::restore] has gathered from [db]. *)
Record gathered (m : Metadata) (db : gmap Z Action) (st : State) : Prop := {
  g_metadata : s_metadata st = m;
  g_learned : forall p, p ∈ s_learned st <-> exists a, db !! p = Some a /\ is_learned a = true;
  g_unlearned : forall p, p ∈ s_unlearned st <-> exists a, db !! p = Some a /\ is_learned a = false;
  g_upper : forall p a, db !! p = Some a -> p <= s_end st /\ action_begin a <= s_begin st;
  g_end : 0 <= s_end st /\ (s_end st = 0 \/ is_Some (db !! s_end st));
  g_begin : 0 <= s_begin st
            /\ (s_begin st = 0 \/ exists p a, db !! p = Some a /\ action_begin a = s_begin st);
}.

Lemma restore_gathered m db :
  (forall p a, db !! p = Some a -> position a = p /\ valid_action a) ->
  gathered m db (map_fold restore_step (mkState m 0 0 ∅ ∅) db).
Proof.
  intros Hdb. revert Hdb.
  apply (map_fold_weak_ind (fun st db =>
    (forall p a, db !! p = Some a -> position a = p /\ valid_action a) -> gathered m db st)).
  { intros _. split; simpl; try done; try (by left); try set_solver. }
  intros q a db' st Hq IH Hdb.
  destruct (Hdb q a) as [Hqa Hva]; [apply lookup_insert_eq|].
  assert (Hab := action_begin_nonneg a Hva). assert (Hpos := proj1 Hva).
  destruct IH as [Gm Gl Gu Gup Ge Gb].
  { intros p b Hb. apply Hdb. rewrite lookup_insert_ne by congruence. done. }
  assert (Hl : forall (P : Action -> Prop) p, (exists b, <[q:=a]> db' !! p = Some b /\ P b) <->
    (p = q /\ P a) \/ (p <> q /\ exists b, db' !! p = Some b /\ P b)).
  { intros P p. rewrite lookup_insert. clear. case_decide; subst; naive_solver. }
  unfold restore_step. destruct (is_learned a) eqn:El; split; simpl; rewrite ?Hqa; try done.
  all: try (intros p; rewrite Hl, ?elem_of_union, ?elem_of_difference, ?elem_of_singleton, ?Gl, ?Gu;
            destruct (decide (p = q)) as [->|Hpq];
            [clear -El|clear -El Hpq]; naive_solver congruence).
  all: try (intros p b Hb; rewrite lookup_insert in Hb; case_decide; simplify_eq;
            [|specialize (Gup p b Hb)]; rewrite ?(action_begin_unlearned b) by done; lia).
  - split; [lia|]. destruct (decide (s_end st <= q)) as [|].
    + right. replace (_ `max` _) with q by lia. rewrite lookup_insert_eq. eauto.
    + replace (_ `max` _) with (s_end st) by lia. destruct (proj2 Ge) as [|[b Hb]]; [by left|right].
      rewrite lookup_insert_ne by lia. eauto.
  - split; [lia|]. destruct (decide (s_begin st <= action_begin a)) as [|].
    + right. exists q, a. rewrite lookup_insert_eq. split; [done|lia].
    + destruct (proj2 Gb) as [|(p & b & Hb & He)]; [left; lia|right].
      exists p, b. rewrite lookup_insert_ne by congruence. split; [done|lia].
  - split; [lia|]. destruct (decide (s_end st <= q)) as [|].
    + right. replace (_ `max` _) with q by lia. rewrite lookup_insert_eq. eauto.
    + replace (_ `max` _) with (s_end st) by lia. destruct (proj2 Ge) as [|[b Hb]]; [by left|right].
      rewrite lookup_insert_ne by lia. eauto.
  - split; [lia|]. destruct (proj2 Gb) as [|(p & b & Hb & He)]; [left; lia|right].
    exists p, b. rewrite lookup_insert_ne by congruence. done.
Qed.

(** A restarted replica agrees with the one that went down: same promises,
    bounds and stored actions, and the same view of every position of the
    log. *)
Record same_log (r r' : Replica) : Prop := {
  sl_metadata : metadata r' = metadata r;
  sl_begin : begin r' = begin r;
  sl_end : end_ r' = end_ r;
  sl_stored : stored r' = stored r;
  sl_holes : forall p, begin r <= p -> (p ∈ holes r' <-> p ∈ holes r);
  sl_unlearned : forall p, begin r <= p -> (p ∈ unlearned r' <-> p ∈ unlearned r);
}.

Lemma restart_same_log r : wf_replica r -> same_log r (restore (storage r)).
Proof.
  intros Hwf.
  assert (G := restore_gathered (default default_metadata (db_metadata (storage r)))
                 (db_actions (storage r))
                 (fun p a H => conj (proj1 (wf_stored r Hwf p a H)) (proj1 (wf_valid r Hwf p a H)))).
  unfold restore, restore_state. set (st := map_fold _ _ _) in *.
  destruct G as [Gm Gl Gu Gup [Ge0 Ge] [Gb0 Gb]].
  assert (Hb : s_begin st = begin r).
  { apply Z.le_antisymm.
    - destruct Gb as [->|(p & a & Ha & <-)]; [apply (wf_begin r Hwf)|].
      apply (wf_valid r Hwf p a Ha).
    - destruct (wf_begin_durable r Hwf) as [->|(p & a & Ha & <-)]; [done|].
      by apply (Gup p a). }
  assert (He : s_end st = end_ r).
  { apply Z.le_antisymm.
    - destruct Ge as [->|[a Ha]]; [|apply (wf_stored r Hwf) in Ha; lia].
      assert (Hw := wf_begin r Hwf). destruct (wf_end_durable r Hwf) as [->|[a Ha]]; [done|].
      apply (wf_stored r Hwf) in Ha. lia.
    - destruct (wf_end_durable r Hwf) as [->|[a Ha]]; [done|]. by apply (Gup _ a). }
  assert (Hv := wf_end_valid r Hwf). split; simpl; try done.
  - rewrite Gm. destruct (wf_metadata r Hwf) as [->|[-> ->]]; done.
  - intros p Hp.
    rewrite !elem_of_difference, Hb, He, elem_of_closed_interval, Gl, Gu by done.
    split.
    + intros [[Hr Hl] Hu]. destruct (wf_present r Hwf p) as [|[a Ha]]; [lia|done|].
      exfalso. destruct (is_learned a) eqn:E; [apply Hl|apply Hu]; eauto.
    + intros Hh. destruct (wf_holes r Hwf p Hh) as [Hn ?]. unfold stored in Hn.
      rewrite Hn. split; [split; [lia|]|]; by intros (? & ? & _).
  - intros p Hp. rewrite Gu. split.
    + intros (a & Ha & Hl). by apply (wf_unlearned r Hwf p a).
    + intros Hu. destruct (wf_unlearned_stored r Hwf p Hp Hu) as [a Ha].
      exists a. split; [done|]. by apply (wf_unlearned r Hwf p a).
Qed.
