(* ===== verification/ReplicaSafety.v ===== *)
(** * Histories of one replica

    The handlers of [src/src/log/replica.cpp] as the steps of a transition
    relation: requests and learned messages in any order, disk failures at any
    call, restarts from the disk at any time.  The invariant of [Replica.v]
    holds throughout, no [CHECK] fires, a restart is invisible to proposers
    and readers, and a promise is kept. *)

From stdpp Require Import base gmap strings list relations.
From S2P Require Import Prelude Strings Storage Replica.
Local Open Scope Z_scope.

(** ** Steps *)

(** A learned message that takes back the truncation for which the action it
    overwrites stands, as a delayed one can, does not satisfy [agrees]. *)
Definition agrees (a : Action) (r : Replica) : Prop :=
  forall b, stored r (position a) = Some b -> action_begin b <= action_begin a.

Definition valid_promise (req : PromiseRequest) : Prop :=
  match preq_position req with Some p => valid_position p | None => True end.

(** The handler makes no such check: with [agreeing = false] any learned message
    arrives, with [agreeing = true] only those that agree.  See
    [late_learned_forgets_truncation] and [late_learned_breaks_promise] for
    what the others do. *)
Inductive rstep (agreeing : bool) (r : Replica) : Replica -> Prop :=
  | rs_promise d req r' resp :
      valid_promise req -> promise d req r = Ok (r', resp) -> rstep agreeing r r'
  | rs_write d req r' resp :
      valid_write req -> write d req r = Ok (r', resp) -> rstep agreeing r r'
  | rs_learned d a r' :
      valid_action a -> (agreeing = true -> agrees a r) -> learned_ d a r = Ok r' -> rstep agreeing r r'
  | rs_update d s r' : update d s r = Some r' -> rstep agreeing r r'
  | rs_restart : rstep agreeing r (restore (storage r)).

Definition initial : Replica := restore empty_storage.

(** ** The invariant *)

Lemma initial_eq : initial = mkReplica empty_storage default_metadata 0 0 {[0]} ∅.
Proof. vm_compute. reflexivity. Qed.

Lemma initial_wf : wf_replica initial.
Proof.
  assert (He : forall p, stored initial p = None) by (intros p; rewrite initial_eq; apply lookup_empty).
  assert (Hh : forall p, p ∈ holes initial -> p = 0)
    by (intros p; rewrite initial_eq; cbn [holes]; intros H%elem_of_singleton; exact H).
  assert (Hu : forall p, ~ p ∈ unlearned initial)
    by (intros p; rewrite initial_eq; cbn [unlearned]; apply not_elem_of_empty).
  split; try (intros p a; rewrite He; done); try (intros p Hp; by destruct (Hu p)).
  - right. done.
  - by rewrite initial_eq.
  - intros p ->%Hh. rewrite He, initial_eq. done.
  - intros p Hp. left. rewrite initial_eq in *. cbn [holes begin end_] in *. apply elem_of_singleton. lia.
  - left. by rewrite initial_eq.
  - left. by rewrite initial_eq.
Qed.

Lemma implicit_promise_spec d n r :
  exists r' resp, implicit_promise d n r = Ok (r', resp)
    /\ (wf_replica r -> wf_replica r')
    /\ ((r' = r /\ forall a, resp = Some a -> a = promise_reject (promised_ r) /\ n <= promised_ r)
        \/ (promised_ r < n /\ resp = Some (promise_accept n (Some (end_ r)) None)
            /\ stored r' = stored r /\ begin r' = begin r /\ end_ r' = end_ r
            /\ promised_ r' = n)).
Proof.
  unfold implicit_promise. destruct (n <=? promised_ r) eqn:E; breflect.
  { do 2 eexists. split_and!; [done..|]. left. split; [done|]. by intros a [= <-]. }
  destruct (updatePromised d n r) as [r'|] eqn:Eu.
  - apply updatePromised_spec in Eu as (Es & Eb & Ee & Ep & _ & Hw).
    do 2 eexists. split_and!; [done|done|]. right. rewrite Ee. by split_and!.
  - do 2 eexists. split_and!; [done|done|]. left. by split.
Qed.

Lemma promise_total d req r :
  wf_replica r -> valid_promise req ->
  exists r' resp, promise d req r = Ok (r', resp) /\ wf_replica r'.
Proof.
  intros Hwf Hv. unfold promise, valid_promise in *. case_bool_decide; [eauto|].
  destruct (preq_position req) as [p|].
  - destruct (explicit_promise_spec d (preq_proposal req) p r Hwf Hv) as (r' & resp & -> & _ & ?).
    eauto.
  - destruct (implicit_promise_spec d (preq_proposal req) r) as (r' & resp & -> & Hw & _). eauto.
Qed.

Lemma learned_total d a r :
  wf_replica r -> valid_action a -> agrees a r -> is_learned a = true ->
  exists r', learned_ d a r = Ok r' /\ wf_replica r'.
Proof.
  intros Hwf Hv Ha Hl. unfold learned_. rewrite Hl. eexists. split; [done|].
  destruct (persist d a r) as [r'|] eqn:E; [|done]. by eapply persist_wf.
Qed.

Lemma restart_wf r : wf_replica r -> wf_replica (restore (storage r)).
Proof.
  intros Hwf. assert (S := restart_same_log r Hwf).
  destruct S as [Sm Sb Se Ss Sh Su]. set (r' := restore (storage r)) in *.
  assert (Sd : db_metadata (storage r') = db_metadata (storage r)) by done.
  assert (Hlow : forall p, p ∈ holes r' -> begin r <= p).
  { intros p. unfold r', restore. cbn. rewrite !elem_of_difference.
    intros [[Hp%closed_interval_lower _] _]. unfold r' in Sb. cbn in Sb. lia. }
  assert (Hun : forall p, p ∈ unlearned r' -> is_Some (stored r p)).
  { intros p. unfold r', restore. cbn.
    rewrite (g_unlearned _ _ _ (restore_gathered (default default_metadata (db_metadata (storage r)))
               (db_actions (storage r))
               (fun p a H => conj (proj1 (wf_stored r Hwf p a H)) (proj1 (wf_valid r Hwf p a H))))).
    intros (a & Ha & _). exists a. exact Ha. }
  destruct Hwf as [Wm Wb Ws Wh Wp Wu Wus Wup Wv Wbd Wed].
  split; rewrite ?Sd, ?Sm, ?Sb, ?Se, ?Ss; try done.
  - intros p Hp. apply Wh. apply Sh; [by apply Hlow|done].
  - intros p Hp. destruct (Wp p Hp); [left; apply Sh; [lia|done]|by right].
  - intros p a Hp Hs. rewrite Su by done. by apply Wu.
  - intros p Hp Hu. apply Wus; [done|]. by apply Su.
  - intros p Hu. destruct (Hun p Hu) as [a Ha]. by destruct (Ws p a Ha).
Qed.

Lemma rstep_wf r r' : rstep true r r' -> wf_replica r -> wf_replica r'.
Proof.
  intros [d req r1 resp Hv E|d req r1 resp Hv E|d a r1 Hv Ha E|d s r1 E|] Hwf.
  - destruct (promise_total d req r Hwf Hv) as (? & ? & ? & ?). congruence.
  - destruct (write_spec d req r Hwf Hv) as (? & ? & ? & _ & ?). congruence.
  - unfold learned_ in E. destruct (is_learned a) eqn:El; [|done]. injection E as <-.
    specialize (Ha eq_refl). destruct (persist d a r) eqn:Ep; [by eapply persist_wf|done].
  - apply update_spec in E as (_ & _ & _ & _ & H). auto.
  - by apply restart_wf.
Qed.

Lemma rsteps_wf r r' : rtc (rstep true) r r' -> wf_replica r -> wf_replica r'.
Proof. induction 1; eauto using rstep_wf. Qed.

(** C4. In every state a replica reaches from an empty disk, through any
    interleaving of valid requests, disk failures, restarts and those learned
    messages that do not take back a truncation the replica has recorded at
    their position ([agrees], which the code does not check), the bookkeeping is consistent with the disk and every handler returns: no
    [CHECK] of [promise], [write] or [learned] can fire on a valid message. *)
Theorem replica_invariant r :
  rtc (rstep true) initial r ->
  wf_replica r
  /\ (forall d req, valid_promise req -> is_ok (promise d req r) = true)
  /\ (forall d req, valid_write req -> is_ok (write d req r) = true)
  /\ (forall d a, is_learned a = true -> is_ok (learned_ d a r) = true).
Proof.
  intros H. assert (Hwf := rsteps_wf _ _ H initial_wf). split_and!; [done| | |].
  - intros d req Hv. by destruct (promise_total d req r Hwf Hv) as (? & ? & -> & _).
  - intros d req Hv. by destruct (write_spec d req r Hwf Hv) as (? & ? & -> & _ & _).
  - intros d a Hl. unfold learned_. by rewrite Hl.
Qed.

(** ** Queries *)

Lemma missing_stored r p :
  wf_replica r -> 0 <= p ->
  (missing r p = false <->
     p < begin r \/ (exists a, stored r p = Some a /\ is_learned a = true)).
Proof.
  intros Hwf Hp. unfold missing. destruct (p <? begin r) eqn:E1; breflect; [tauto|].
  destruct (end_ r <? p) eqn:E2; breflect.
  { split; [done|]. intros [?|(a & Ha & _)]; [lia|]. apply (wf_stored r Hwf) in Ha. lia. }
  rewrite orb_false_iff, !bool_decide_eq_false. split.
  - intros [Hu Hh]. right. destruct (wf_present r Hwf p) as [|[a Ha]]; [lia|done|].
    exists a. split; [done|]. destruct (is_learned a) eqn:El; [done|].
    destruct Hu. by apply (wf_unlearned r Hwf p a).
  - intros [?|(a & Ha & Hl)]; [lia|]. split; intros H.
    + apply (wf_unlearned r Hwf p a) in H; [congruence|lia|done].
    + apply (wf_holes r Hwf) in H as [? _]. congruence.
Qed.

Lemma missing_range_elem r p from to :
  valid_position to -> begin r <= p -> from <= p <= to ->
  (p ∈ missing_range r from to <-> missing r p = true).
Proof.
  intros Hto Hb Hp. unfold missing_range, missing.
  replace (to <? from) with false by lia. replace (p <? begin r) with false by lia.
  rewrite elem_of_intersection, elem_of_closed_interval by done.
  destruct (end_ r <? to) eqn:E1, (end_ r <? p) eqn:E2; breflect; try lia;
    rewrite ?elem_of_union, ?elem_of_closed_interval, ?orb_true_iff, ?bool_decide_eq_true by done;
    naive_solver lia.
Qed.

(** [missing] tells a proposer exactly which positions it has to fill: on
    a reachable replica a position is not missing when it is truncated or a
    learned action is stored there, and the range query returns, from the
    beginning of the log on, exactly the missing positions of its range, whose
    last position is one that can be stored. *)
Theorem missing_is_unlearned r p from to :
  rtc (rstep true) initial r -> 0 <= p -> valid_position to ->
  (missing r p = false <->
     p < begin r \/ (exists a, stored r p = Some a /\ is_learned a = true))
  /\ (p ∈ missing_range r from to -> from <= p <= to)
  /\ (begin r <= p -> from <= p <= to ->
      (p ∈ missing_range r from to <-> missing r p = true)).
Proof.
  intros H Hp Hto. split_and!.
  - apply missing_stored; [by eapply rsteps_wf, initial_wf|done].
  - unfold missing_range. destruct (to <? from); [set_solver|].
    rewrite elem_of_intersection, elem_of_closed_interval by done. lia.
  - by apply missing_range_elem.
Qed.

Lemma read_loop_stored d r ps :
  wf_replica r -> get_ok d = true -> Forall (fun p => 0 <= p /\ begin r <= p) ps ->
  read_loop d r ps = Ok (omap (stored r) ps).
Proof.
  intros Hwf Hd. induction 1 as [|p ps [Hp Hb] _ IH]; [done|]. cbn [read_loop omap list_omap].
  assert (Hr := read_spec d r p Hwf Hp). destruct (read d r p).
  - destruct Hr; [lia|congruence].
  - destruct Hr as [_ ->]. done.
  - destruct Hr as (_ & -> & _). rewrite IH. done.
Qed.

(** Reading a range of the log on a reachable replica with a working disk
    returns exactly the stored actions of the range, in the order of their
    positions; the three range errors are the only ones. *)
Theorem read_range_exact d r from to :
  rtc (rstep true) initial r -> get_ok d = true -> 0 <= from ->
  read_range d r from to =
    (if to <? from then Err ToBeforeFrom
     else if from <? begin r then Err TruncatedPosition
     else if end_ r <? to then Err PastEnd
     else Ok (omap (stored r) (seqZ from (to - from + 1)))).
Proof.
  intros H Hd Hf. unfold read_range. repeat case_if; try done. breflect.
  apply read_loop_stored; [by eapply rsteps_wf, initial_wf|done|].
  apply Forall_forall. intros p Hp%elem_of_seqZ. lia.
Qed.

(** ** Restarts *)

Lemma read_same_log d r r' p : same_log r r' -> read d r' p = read d r p.
Proof.
  intros [_ Sb Se Ss Sh _].
  assert (Ed : read_action d p (storage r') = read_action d p (storage r)).
  { unfold read_action. destruct (get_ok d); [|done]. exact (f_equal (fun f => f p) Ss). }
  unfold read. rewrite Sb, Se, Ed.
  destruct (p <? begin r) eqn:E; [done|]. breflect.
  destruct (end_ r <? p); [done|]. by rewrite (bool_decide_ext _ _ (Sh p ltac:(lia))).
Qed.

Lemma missing_same_log r r' p : same_log r r' -> missing r' p = missing r p.
Proof.
  intros [_ Sb Se _ Sh Su]. unfold missing. rewrite Sb, Se.
  destruct (p <? begin r) eqn:E; [done|]. breflect.
  by rewrite (bool_decide_ext _ _ (Sh p ltac:(lia))), (bool_decide_ext _ _ (Su p ltac:(lia))).
Qed.

Lemma persist_succeeds d a r : persist d a r = None <-> put_ok d = false.
Proof.
  unfold persist, persist_action. destruct (put_ok d); [|by split].
  split; [|done]. repeat case_match; intros; simplify_eq.
Qed.

(** The reply a handler sends, if it returns. *)
Definition reply {R} (x : result abort (Replica * option R)) : result abort (option R) :=
  let? p := x in Ok p.2.

Lemma reply_persist_and {R} d a b r r' (resp : R) :
  reply (persist_and d a r resp) = reply (persist_and d b r' resp).
Proof.
  assert (H : persist d a r = None <-> persist d b r' = None) by by rewrite !persist_succeeds.
  unfold persist_and. destruct (persist d a r), (persist d b r'); try done; exfalso.
  - by specialize (proj2 H eq_refl).
  - by specialize (proj1 H eq_refl).
Qed.

Lemma promise_reply_same_log d req r r' :
  same_log r r' -> reply (promise d req r') = reply (promise d req r).
Proof.
  intros S. assert (Hr := fun p => read_same_log d r r' p S).
  destruct S as [Sm Sb Se Ss _ _]. unfold promise, explicit_promise, implicit_promise.
  unfold updatePromised, persist_metadata, promised_, tombstone_action, promised_.
  rewrite Sm. case_bool_decide; [done|].
  destruct (preq_position req) as [p|].
  - rewrite Hr, Sb. repeat case_match; try done; apply reply_persist_and.
  - case_match; [done|]. destruct (put_ok d); [|done]. cbn. by rewrite Se.
Qed.

Lemma write_reply_same_log d req r r' :
  same_log r r' -> reply (write d req r') = reply (write d req r).
Proof.
  intros S. assert (Hr := fun p => read_same_log d r r' p S).
  destruct S as [Sm Sb Se Ss _ _]. unfold write, promised_. rewrite Sm, Hr.
  case_bool_decide; [done|]. repeat case_match; try done; apply reply_persist_and.
Qed.

(** C5. A crash is invisible, as long as no learned message took back a
    truncation that the replica had recorded at its position ([agrees], which
    the code does not check): a replica rebuilt from the disk of a reachable
    one answers every promise and write request, every read and every
    [missing] query as the one that went down would have, and has the same
    bounds and promises. *)
Theorem restart_transparent r :
  rtc (rstep true) initial r ->
  let r' := restore (storage r) in
  begin r' = begin r /\ end_ r' = end_ r
  /\ (forall p, promise_at r' p = promise_at r p)
  /\ (forall d p, read d r' p = read d r p)
  /\ (forall p, missing r' p = missing r p)
  /\ (forall d req, reply (promise d req r') = reply (promise d req r))
  /\ (forall d req, reply (write d req r') = reply (write d req r)).
Proof.
  intros H r'. assert (Hwf := rsteps_wf _ _ H initial_wf).
  assert (S := restart_same_log r Hwf). fold r' in S.
  split_and!; try apply S.
  - intros p. unfold promise_at, promised_. by rewrite (sl_stored _ _ S), (sl_metadata _ _ S).
  - intros d p. by apply read_same_log.
  - intros p. by apply missing_same_log.
  - intros d req. by apply promise_reply_same_log.
  - intros d req. by apply write_reply_same_log.
Qed.

(** ** Promises are kept *)

Definition learned_at (r : Replica) (p : Z) : Prop :=
  exists a, stored r p = Some a /\ is_learned a = true.

(** Nothing below [n] can be written at [p] any more. *)
Definition kept (n p : Z) (r : Replica) : Prop :=
  p < begin r \/ learned_at r p \/ n <= promise_at r p.

Lemma persisted_elsewhere a r r' p :
  persisted a r r' -> valid_action a -> p <> position a ->
  p < begin r' \/ stored r' p = stored r p.
Proof.
  intros Hp Hv Hne. destruct (decide (p < begin r')); [by left|right].
  rewrite (persisted_stored_at a r r' p Hp Hv), decide_False by (done || lia). done.
Qed.

Lemma kept_persisted n p a r r' :
  persisted a r r' -> valid_action a ->
  (position a = p -> is_learned a = true
     \/ ((forall b, stored r p = Some b -> is_learned b = false) /\ promise_at r p <= promised a)) ->
  kept n p r -> kept n p r'.
Proof.
  intros Hp Hv Ha Hk. destruct (decide (p < begin r')) as [|Hb]; [by left|].
  assert (Hb' := pd_begin _ _ _ Hp). right.
  assert (Hst := persisted_stored_at a r r' p Hp Hv ltac:(lia)).
  destruct Hk as [?|Hk]; [lia|]. case_decide as Hd.
  - destruct (Ha (eq_sym Hd)) as [Hl|[Hnl Hle]]; [left; by exists a|].
    destruct Hk as [(b & Hb1 & Hb2)|Hk]; [apply Hnl in Hb1; congruence|].
    right. unfold promise_at at 1. rewrite Hst. lia.
  - destruct Hk as [(b & Hb1 & Hb2)|Hk]; [left; exists b; by rewrite Hst|right].
    unfold promise_at, promised_ in *. by rewrite Hst, (pd_metadata _ _ _ Hp).
Qed.

Lemma kept_same n p r r' :
  begin r' = begin r -> stored r' = stored r -> promised_ r <= promised_ r' ->
  kept n p r -> kept n p r'.
Proof.
  unfold kept, learned_at, promise_at. intros -> -> Hle.
  destruct (stored r p); [done|]. intros [?|[?|?]]; [auto..|right; right; lia].
Qed.

Lemma kept_explicit n p k q r r' resp :
  wf_replica r -> valid_position q -> explicit_outcome k q r r' resp ->
  kept n p r -> kept n p r'.
Proof.
  intros Hwf Hq [| | |r1 Hb Hs Hlt Hp|a r1 Hb Hs Hpos Hlt Hp] Hk; try done.
  - eapply kept_persisted; [exact Hp|by apply valid_bare| |done]. cbn. intros <-. right.
    split; [congruence|]. unfold promise_at. rewrite Hs. lia.
  - assert (Hv := proj1 (wf_valid r Hwf q a Hs)).
    eapply kept_persisted; [exact Hp| | |done].
    { destruct Hv as [Hv1 Hv2]. split; cbn; [lia|]. by rewrite <- Hpos. }
    cbn. intros <-. unfold is_learned at 1. cbn. fold (is_learned a).
    destruct (is_learned a) eqn:El; [by left|right]. split; [congruence|].
    unfold promise_at. rewrite Hs. lia.
Qed.

Lemma kept_write n p req r r' resp :
  valid_write req -> write_outcome req r r' resp -> kept n p r -> kept n p r'.
Proof.
  intros Hv [| | |r1 Hb Hle Hnl Hp] Hk; try done.
  eapply kept_persisted; [exact Hp|by apply valid_written| |done]. cbn. intros <-.
  right. split; [done|lia].
Qed.

Lemma kept_promise n p d req r r' resp :
  wf_replica r -> valid_promise req -> promise d req r = Ok (r', resp) ->
  kept n p r -> kept n p r'.
Proof.
  intros Hwf Hv. unfold promise, valid_promise in *. case_bool_decide; [by intros [= <- _]|].
  destruct (preq_position req) as [q|].
  - destruct (explicit_promise_spec d (preq_proposal req) q r Hwf Hv) as (r1 & re & -> & Ho & _).
    intros [= <- _]. by eapply kept_explicit.
  - destruct (implicit_promise_spec d (preq_proposal req) r) as (r1 & re & -> & _ & Ho).
    intros [= <- _]. destruct Ho as [[-> _]|(Hlt & _ & Es & Eb & _ & Ep)]; [done|].
    apply kept_same; [done..|lia].
Qed.

Lemma kept_learned n p d a r r' :
  wf_replica r -> valid_action a -> learned_ d a r = Ok r' -> kept n p r -> kept n p r'.
Proof.
  intros Hwf Hv. unfold learned_. destruct (is_learned a) eqn:El; [|done]. intros [= <-].
  destruct (persist d a r) as [r'|] eqn:E; [cbn|done].
  eapply kept_persisted; [|done|by left].
  by eapply persist_spec; [apply wf_begin| |].
Qed.

Lemma kept_restart n p r : wf_replica r -> kept n p r -> kept n p (restore (storage r)).
Proof.
  intros Hwf. assert (S := restart_same_log r Hwf). apply kept_same; [apply S..|].
  unfold promised_. rewrite (sl_metadata _ _ S). lia.
Qed.

Lemma rstep_kept n p r r' : rstep true r r' -> wf_replica r -> kept n p r -> kept n p r'.
Proof.
  intros [d req r1 resp Hv E|d req r1 resp Hv E|d a r1 Hv Ha E|d s r1 E|] Hwf.
  - by eapply kept_promise.
  - destruct (write_spec d req r Hwf Hv) as (? & ? & E' & Ho & _).
    rewrite E in E'. injection E' as <- <-. by eapply kept_write.
  - by eapply kept_learned.
  - apply update_spec in E as (Es & Eb & _ & Ep & _). apply kept_same; [done..|lia].
  - by apply kept_restart.
Qed.

Lemma rsteps_kept n p r r' : rtc (rstep true) r r' -> wf_replica r -> kept n p r -> kept n p r'.
Proof. induction 1; eauto using rstep_kept, rstep_wf. Qed.

(** The positions an accepted promise covers: the requested one, or all those
    past the end the replica reports. *)
Definition covers_position (req : PromiseRequest) (resp : PromiseResponse) (p : Z) : Prop :=
  match preq_position req with
  | Some q => p = q
  | None => exists e, pr_position resp = Some e /\ e < p
  end.

Lemma explicit_accepted_kept n q r r' resp :
  wf_replica r -> valid_position q -> explicit_outcome n q r r' (Some resp) ->
  pr_type resp = Some ACCEPT -> kept n q r'.
Proof.
  intros Hwf Hq Ho Ht. remember (Some resp) as o eqn:Eo.
  destruct Ho as [Hb| |m _ _ _|r1 Hb Hs Hlt Hp|a r1 Hb Hs Hpos Hlt Hp]; (discriminate || injection Eo as <-); try done; [by left|..];
    (destruct (decide (q < begin r1)) as [|Hq']; [by left|right; right]);
    unfold promise_at;
    (erewrite (persisted_stored_at _ _ _ q Hp), decide_True; [done..| |lia]).
  - by apply valid_bare.
  - destruct (wf_valid r Hwf _ a Hs) as [[Hv1 Hv2] _]. split; cbn; [lia|by rewrite <- Hpos].
Qed.

Lemma accepted_kept d req r r' resp p :
  wf_replica r -> valid_promise req -> promise d req r = Ok (r', Some resp) ->
  pr_type resp = Some ACCEPT -> covers_position req resp p -> kept (preq_proposal req) p r'.
Proof.
  intros Hwf Hv. unfold promise, valid_promise, covers_position in *.
  case_bool_decide; [by intros [= <- <-]|].
  destruct (preq_position req) as [q|].
  - destruct (explicit_promise_spec d (preq_proposal req) q r Hwf Hv) as (r1 & re & -> & Ho & _).
    intros [= <- ->] Ht ->. by eapply explicit_accepted_kept.
  - destruct (implicit_promise_spec d (preq_proposal req) r) as (r1 & re & -> & _ & Ho).
    intros [= <- ->] Ht (e & He & Hlt). destruct Ho as [[-> Ho]|(Hn & Ho & Es & Eb & Ee & Ep)].
    + by destruct (Ho resp eq_refl) as [-> _].
    + injection Ho as ->. injection He as <-. right. right. unfold promise_at. rewrite Es.
      destruct (stored r p) eqn:E; [|lia]. apply (wf_stored r Hwf) in E. lia.
Qed.

Lemma accept_respects_kept n d req r r' resp :
  wf_replica r -> valid_write req -> write d req r = Ok (r', Some resp) ->
  wr_type resp = Some ACCEPT -> kept n (wreq_position req) r -> n <= wreq_proposal req.
Proof.
  intros Hwf Hv E Ht Hk. destruct (write_spec d req r Hwf Hv) as (? & ? & E' & Ho & _).
  rewrite E in E'. injection E' as <- <-. inversion Ho as [| | |r1 Hb Hle Hnl Hp]; subst; try done.
  destruct Hk as [?|[(a & Ha & Hl)|?]]; [lia| |lia]. apply Hnl in Ha. congruence.
Qed.

(** C3. Promises are kept: once a replica has accepted a promise for proposal
    [n], explicitly for a position or implicitly for all positions past its
    end, it never again accepts a write with a lower proposal there, whatever
    requests, disk failures and restarts come in between, and whatever learned
    messages, as long as none of them takes back a truncation that the replica
    has recorded at its position ([agrees], which the code does not check; see
    [late_learned_breaks_promise]). *)
Theorem promise_is_kept d req r0 r1 resp p r2 d' w r3 wresp :
  rtc (rstep true) initial r0 ->
  valid_promise req -> promise d req r0 = Ok (r1, Some resp) -> pr_type resp = Some ACCEPT ->
  covers_position req resp p ->
  rtc (rstep true) r1 r2 ->
  valid_write w -> wreq_position w = p ->
  write d' w r2 = Ok (r3, Some wresp) -> wr_type wresp = Some ACCEPT ->
  preq_proposal req <= wreq_proposal w.
Proof.
  intros H0 Hv E Ht Hc H12 Hw <- Ew Hwt.
  assert (Hwf := rsteps_wf _ _ H0 initial_wf).
  assert (Hwf1 := rstep_wf _ _ (rs_promise _ _ _ _ _ _ Hv E) Hwf).
  assert (Hwf2 := rsteps_wf _ _ H12 Hwf1).
  eapply accept_respects_kept; [exact Hwf2|done|done|done|].
  eapply rsteps_kept; [done|done|]. exact (accepted_kept d req r0 r1 resp _ Hwf Hv E Ht Hc).
Qed.

(** ** Concrete runs *)

(** The state a handler leaves. *)
Definition after {R} (x : result abort (Replica * option R)) : Replica :=
  match x with Ok (r, _) => r | Err _ => initial end.

Definition after_learned (x : result abort Replica) : Replica :=
  match x with Ok r => r | Err _ => initial end.

Definition voting : Replica := default initial (update healthy VOTING initial).

Definition implicit (n : Z) : PromiseRequest := mkPromiseRequest n None.
Definition explicit (n p : Z) : PromiseRequest := mkPromiseRequest n (Some p).
Definition append_at (n p : Z) (v : string) : WriteRequest := mkWriteRequest n p None (APPEND v).
Definition learn_at (n p : Z) (e : Entry) : Action := mkAction p n (Some n) (Some true) (Some e).

Lemma voting_reachable : rtc (rstep true) initial voting.
Proof. apply rtc_once. eapply (rs_update _ _ healthy VOTING). vm_compute. reflexivity. Defined.

(** A replica promised to proposal 4 that then accepted a write of 4 at 1. *)
Definition written : Replica :=
  after (write healthy (append_at 4 1 "x") (after (promise healthy (implicit 4) voting))).

Ltac valid_concrete :=
  repeat split; vm_compute; try discriminate; try reflexivity; intros; discriminate.

Lemma written_reachable : rtc (rstep true) initial written.
Proof.
  etrans; [apply voting_reachable|].
  eapply rtc_l; [eapply (rs_promise _ _ healthy (implicit 4)); [exact I|vm_compute; reflexivity]|].
  eapply rtc_l; [|apply rtc_refl].
  eapply (rs_write _ _ healthy (append_at 4 1 "x")); [valid_concrete|vm_compute; reflexivity].
Defined.

Lemma replica_invariant_witness :
  wf_replica written
  /\ (forall d req, valid_promise req -> is_ok (promise d req written) = true)
  /\ (forall d req, valid_write req -> is_ok (write d req written) = true)
  /\ (forall d a, is_learned a = true -> is_ok (learned_ d a written) = true).
Proof. apply (replica_invariant written). apply written_reachable. Defined.

Lemma missing_is_unlearned_witness :
  (missing written 1 = false <->
     1 < begin written \/ (exists a, stored written 1 = Some a /\ is_learned a = true))
  /\ (1 ∈ missing_range written 0 3 -> 0 <= 1 <= 3)
  /\ (begin written <= 1 -> 0 <= 1 <= 3 ->
      (1 ∈ missing_range written 0 3 <-> missing written 1 = true)).
Proof. apply (missing_is_unlearned written 1 0 3); [apply written_reachable|lia|done]. Defined.

Lemma read_range_exact_witness :
  read_range healthy written 1 1 =
    (if 1 <? 1 then Err ToBeforeFrom
     else if 1 <? begin written then Err TruncatedPosition
     else if end_ written <? 1 then Err PastEnd
     else Ok (omap (stored written) (seqZ 1 (1 - 1 + 1))))
  /\ read_range healthy written 1 1
     = Ok [mkAction 1 4 (Some 4) None (Some (APPEND "x"))].
Proof.
  split; [|vm_compute; reflexivity].
  apply (read_range_exact healthy written 1 1); [apply written_reachable|reflexivity|lia].
Defined.

Lemma restart_transparent_witness :
  let r' := restore (storage written) in
  begin r' = begin written /\ end_ r' = end_ written
  /\ (forall p, promise_at r' p = promise_at written p)
  /\ (forall d p, read d r' p = read d written p)
  /\ (forall p, missing r' p = missing written p)
  /\ (forall d req, reply (promise d req r') = reply (promise d req written))
  /\ (forall d req, reply (write d req r') = reply (write d req written)).
Proof. apply (restart_transparent written). apply written_reachable. Defined.

Lemma promise_is_kept_witness : preq_proposal (implicit 4) <= wreq_proposal (append_at 4 1 "x").
Proof.
  eapply (promise_is_kept healthy (implicit 4) voting
            (after (promise healthy (implicit 4) voting)) (promise_accept 4 (Some 0) None) 1
            (after (promise healthy (implicit 4) voting)) healthy (append_at 4 1 "x")
            written (write_reply ACCEPT 4 1)).
  - apply voting_reachable.
  - exact I.
  - vm_compute. reflexivity.
  - reflexivity.
  - exists 0. split; [reflexivity|lia].
  - apply rtc_refl.
  - valid_concrete.
  - reflexivity.
  - vm_compute. reflexivity.
  - reflexivity.
Defined.

(** ** Where the code departs from its intent *)

(** Accepting a write does not raise the promise of the position, so a
    delayed write with a lower proposal replaces a newer one: promised to 4,
    the replica performs proposal 5 and then lets proposal 4 overwrite it. *)
Theorem delayed_write_overwrites_newer :
  let r1 := after (promise healthy (implicit 4) voting) in
  let r2 := after (write healthy (append_at 5 1 "y") r1) in
  let r3 := after (write healthy (append_at 4 1 "x") r2) in
  reply (write healthy (append_at 5 1 "y") r1) = Ok (Some (write_reply ACCEPT 5 1))
  /\ stored r2 1 = Some (mkAction 1 4 (Some 5) None (Some (APPEND "y")))
  /\ reply (write healthy (append_at 4 1 "x") r2) = Ok (Some (write_reply ACCEPT 4 1))
  /\ stored r3 1 = Some (mkAction 1 4 (Some 4) None (Some (APPEND "x"))).
Proof. vm_compute. split_and!; reflexivity. Qed.

(** Learning a truncation that lies beyond the end of the log puts the
    truncated positions back into [holes], and the range query then reports
    positions before the beginning of the log as missing. *)
Theorem learned_truncation_leaves_holes :
  let r := after_learned (learned_ healthy (learn_at 1 7 (TRUNCATE 5)) voting) in
  begin r = 5 /\ end_ r = 7
  /\ (forall p, p ∈ missing_range r 0 7 <-> p ∈ ([0; 1; 2; 3; 4; 5; 6] : list Z))
  /\ missing r 3 = false.
Proof.
  split_and!; [vm_compute; reflexivity..| |vm_compute; reflexivity].
  intros p. rewrite <- (elem_of_list_to_set (C := gset Z)).
  replace (missing_range _ 0 7) with (list_to_set [0; 1; 2; 3; 4; 5; 6] : gset Z); [done|].
  vm_compute. reflexivity.
Qed.

(** A tombstone that moved the beginning of the log can be overwritten by
    a late learned message for the same position, and the disk then no longer
    records the truncation: after a restart the log begins at 0 again and the
    positions that were deleted are missing. *)
Theorem late_learned_forgets_truncation :
  let r1 := after_learned (learned_ healthy (learn_at 1 1 (APPEND "a")) voting) in
  let r2 := after_learned (learned_ healthy (learn_at 2 2 (NOP (Some true))) r1) in
  let r3 := after_learned (learned_ healthy (learn_at 1 2 (APPEND "b")) r2) in
  let r4 := restore (storage r3) in
  begin r3 = 3 /\ missing r3 1 = false /\ begin r4 = 0 /\ missing r4 1 = true.
Proof. vm_compute. split_and!; reflexivity. Qed.

(** With such a message a promise is broken: the replica accepts proposal 9
    for position 1, which is truncated, forgets the truncation, and after a
    restart accepts a write with proposal 5 there. *)
Theorem late_learned_breaks_promise :
  exists r0 r1 r2 r3 resp wresp,
    rtc (rstep false) initial r0 /\ promise healthy (explicit 9 1) r0 = Ok (r1, Some resp) /\ pr_type resp = Some ACCEPT
    /\ rtc (rstep false) r1 r2
    /\ write healthy (append_at 5 1 "x") r2 = Ok (r3, Some wresp) /\ wr_type wresp = Some ACCEPT.
Proof.
  do 6 eexists. split_and!.
  - eapply rtc_l; [eapply (rs_update _ _ healthy VOTING); vm_compute; reflexivity|].
    eapply rtc_l; [eapply (rs_learned _ _ healthy (learn_at 1 1 (APPEND "a"))); [valid_concrete|done|vm_compute; reflexivity]|].
    eapply rtc_l; [eapply (rs_learned _ _ healthy (learn_at 2 2 (NOP (Some true)))); [valid_concrete|done|vm_compute; reflexivity]|].
    apply rtc_refl.
  - vm_compute. reflexivity.
  - reflexivity.
  - eapply rtc_l; [eapply (rs_learned _ _ healthy (learn_at 1 2 (APPEND "b"))); [valid_concrete|done|vm_compute; reflexivity]|].
    eapply rtc_l; [eapply rs_restart|]. apply rtc_refl.
  - vm_compute. reflexivity.
  - reflexivity.
Qed.
