(* ===== verification/Consensus.v ===== *)
(** * The proposer's phases

    [src/src/log/consensus.cpp]: how a proposer gathers the responses of a
    promise or write phase, and the fill process that runs the phases for one
    position.  A phase is a fold of its [received] handler over the responses
    in the order they arrive; [Done] is the value the promise is set to, and
    what arrives later is discarded. *)

From stdpp Require Import base gmap strings list.
From S2P Require Import Prelude Strings Storage Replica.
Local Open Scope Z_scope.

(** ** Responses *)

Definition isRejectedPromise (resp : PromiseResponse) : bool :=
  match pr_type resp with
  | Some t => bool_decide (t = REJECT)
  | None => negb (pr_okay resp)
  end.

Definition isRejectedWrite (resp : WriteResponse) : bool :=
  match wr_type resp with
  | Some t => bool_decide (t = REJECT)
  | None => negb (wr_okay resp)
  end.

(** [has_type() && type() == IGNORED]. *)
Definition isIgnoredPromise (resp : PromiseResponse) : bool :=
  bool_decide (pr_type resp = Some IGNORED).
Definition isIgnoredWrite (resp : WriteResponse) : bool :=
  bool_decide (wr_type resp = Some IGNORED).

(** A phase is still waiting for responses or has set its promise. *)
Inductive progress (S R : Type) :=
  | Waiting (s : S)
  | Done (r : R).
Arguments Waiting {S R} s.
Arguments Done {S R} r.

(** The responses of a phase, in the order they are received. *)
Fixpoint run_phase {S M R : Type} (received : M -> S -> result abort (progress S R))
    (s : S) (ms : list M) : result abort (progress S R) :=
  match ms with
  | [] => Ok (Waiting s)
  | m :: ms' =>
      let? next := received m s in
      match next with
      | Waiting s' => run_phase received s' ms'
      | Done r => Ok (Done r)
      end
  end.

(** [if (highest.isNone() || highest.get() < z) { highest = z; }]. *)
Definition raise (highest : option Z) (z : Z) : option Z :=
  match highest with
  | None => Some z
  | Some h => if h <? z then Some z else Some h
  end.

(** The [PromiseResponse] with only its type set: the rest are defaults. *)
Definition ignored_promise : PromiseResponse :=
  mkPromiseResponse (Some IGNORED) false 0 None None.
Definition rejected_promise (n : Z) : PromiseResponse :=
  mkPromiseResponse (Some REJECT) false n None None.
Definition accepted_promise (pos : option Z) (a : option Action) : PromiseResponse :=
  mkPromiseResponse (Some ACCEPT) true 0 pos a.

(** ** [ExplicitPromiseProcess] *)

Record ExplicitPromiseProcess := mkExplicit {
  ep_responsesReceived : nat;
  ep_ignoresReceived : nat;
  ep_highestNackProposal : option Z;
  ep_highestAckAction : option Action;
}.

Definition explicit_init : ExplicitPromiseProcess := mkExplicit 0 0 None None.

(** [if (highestAckAction.isNone() || highestAckAction->performed() <
    action.performed()) { highestAckAction = action; }]. *)
Definition raise_action (highest : option Action) (a : Action) : option Action :=
  match highest with
  | None => Some a
  | Some h => if default 0 (performed h) <? default 0 (performed a) then Some a else Some h
  end.

(** The end of [received]: set the promise once a quorum has replied. *)
Definition explicit_quorum (quorum : nat) (s : ExplicitPromiseProcess)
  : progress ExplicitPromiseProcess PromiseResponse :=
  if (quorum <=? ep_responsesReceived s)%nat then
    Done (match ep_highestNackProposal s with
          | Some n => rejected_promise n
          | None => accepted_promise None (ep_highestAckAction s)
          end)
  else Waiting s.

(** [ExplicitPromiseProcess::received]. *)
Definition explicit_received (quorum : nat) (proposal pos : Z)
    (resp : PromiseResponse) (s : ExplicitPromiseProcess)
  : result abort (progress ExplicitPromiseProcess PromiseResponse) :=
  if isIgnoredPromise resp then
    let s' := mkExplicit (ep_responsesReceived s) (S (ep_ignoresReceived s))
                (ep_highestNackProposal s) (ep_highestAckAction s) in
    Ok (if (quorum <=? ep_ignoresReceived s')%nat then Done ignored_promise else Waiting s')
  else
    let s := mkExplicit (S (ep_responsesReceived s)) (ep_ignoresReceived s)
               (ep_highestNackProposal s) (ep_highestAckAction s) in
    if isRejectedPromise resp then
      Ok (explicit_quorum quorum
            (mkExplicit (ep_responsesReceived s) (ep_ignoresReceived s)
               (raise (ep_highestNackProposal s) (pr_proposal resp)) (ep_highestAckAction s)))
    else
      match ep_highestNackProposal s with
      | Some _ => Ok (explicit_quorum quorum s)
      | None =>
          if negb (pr_proposal resp =? proposal) then Err CheckFailed
          else
            match pr_action resp with
            | Some a =>
                if negb (position a =? pos) then Err CheckFailed
                else if is_learned a then Ok (Done resp)
                else
                  match performed a with
                  | Some _ =>
                      Ok (explicit_quorum quorum
                            (mkExplicit (ep_responsesReceived s) (ep_ignoresReceived s)
                               None (raise_action (ep_highestAckAction s) a)))
                  | None => Ok (explicit_quorum quorum s)
                  end
            | None =>
                if bool_decide (pr_position resp = Some pos) then Ok (explicit_quorum quorum s)
                else Err CheckFailed
            end
      end.

Definition explicit_phase (quorum : nat) (proposal pos : Z) :=
  run_phase (explicit_received quorum proposal pos) explicit_init.

(** ** [ImplicitPromiseProcess] *)

Record ImplicitPromiseProcess := mkImplicit {
  ip_responsesReceived : nat;
  ip_ignoresReceived : nat;
  ip_highestNackProposal : option Z;
  ip_highestEndPosition : option Z;
}.

Definition implicit_init : ImplicitPromiseProcess := mkImplicit 0 0 None None.

Definition implicit_quorum (quorum : nat) (s : ImplicitPromiseProcess)
  : result abort (progress ImplicitPromiseProcess PromiseResponse) :=
  if (quorum <=? ip_responsesReceived s)%nat then
    match ip_highestNackProposal s with
    | Some n => Ok (Done (rejected_promise n))
    | None =>
        match ip_highestEndPosition s with
        | Some e => Ok (Done (accepted_promise (Some e) None))
        | None => Err CheckFailed
        end
    end
  else Ok (Waiting s).

(** [ImplicitPromiseProcess::received]. *)
Definition implicit_received (quorum : nat) (resp : PromiseResponse) (s : ImplicitPromiseProcess)
  : result abort (progress ImplicitPromiseProcess PromiseResponse) :=
  if isIgnoredPromise resp then
    let s' := mkImplicit (ip_responsesReceived s) (S (ip_ignoresReceived s))
                (ip_highestNackProposal s) (ip_highestEndPosition s) in
    Ok (if (quorum <=? ip_ignoresReceived s')%nat then Done ignored_promise else Waiting s')
  else
    let s := mkImplicit (S (ip_responsesReceived s)) (ip_ignoresReceived s)
               (ip_highestNackProposal s) (ip_highestEndPosition s) in
    if isRejectedPromise resp then
      implicit_quorum quorum
        (mkImplicit (ip_responsesReceived s) (ip_ignoresReceived s)
           (raise (ip_highestNackProposal s) (pr_proposal resp)) (ip_highestEndPosition s))
    else
      match ip_highestNackProposal s with
      | Some _ => implicit_quorum quorum s
      | None =>
          match pr_position resp with
          | None => Err CheckFailed
          | Some e =>
              implicit_quorum quorum
                (mkImplicit (ip_responsesReceived s) (ip_ignoresReceived s)
                   None (raise (ip_highestEndPosition s) e))
          end
      end.

Definition implicit_phase (quorum : nat) := run_phase (implicit_received quorum) implicit_init.

(** ** [WriteProcess] *)

Record WriteProcess := mkWriteProcess {
  wp_responsesReceived : nat;
  wp_ignoresReceived : nat;
  wp_highestNackProposal : option Z;
}.

Definition write_init : WriteProcess := mkWriteProcess 0 0 None.

(** [WriteProcess::watched]: the request that is broadcast; [None] is the
    failing [CHECK] of an action without a payload. *)
Definition write_watched (proposal : Z) (a : Action) : option WriteRequest :=
  match entry a with
  | None => None
  | Some e => Some (mkWriteRequest proposal (position a) None (copy_entry e))
  end.

(** The [WriteResponse] a phase ends with has no position set. *)
Definition ignored_write : WriteResponse := mkWriteResponse (Some IGNORED) false 0 0.
Definition rejected_write (n : Z) : WriteResponse := mkWriteResponse (Some REJECT) false n 0.
Definition accepted_write : WriteResponse := mkWriteResponse (Some ACCEPT) true 0 0.

(** [WriteProcess::received]. *)
Definition write_received (quorum : nat) (pos : Z) (resp : WriteResponse) (s : WriteProcess)
  : result abort (progress WriteProcess WriteResponse) :=
  if negb (wr_position resp =? pos) then Err CheckFailed
  else if isIgnoredWrite resp then
    let s' := mkWriteProcess (wp_responsesReceived s) (S (wp_ignoresReceived s))
                (wp_highestNackProposal s) in
    Ok (if (quorum <=? wp_ignoresReceived s')%nat then Done ignored_write else Waiting s')
  else
    let s := mkWriteProcess (S (wp_responsesReceived s)) (wp_ignoresReceived s)
               (if isRejectedWrite resp then raise (wp_highestNackProposal s) (wr_proposal resp)
                else wp_highestNackProposal s) in
    Ok (if (quorum <=? wp_responsesReceived s)%nat then
          Done (match wp_highestNackProposal s with
                | Some n => rejected_write n
                | None => accepted_write
                end)
        else Waiting s).

Definition write_phase (quorum : nat) (pos : Z) :=
  run_phase (write_received quorum pos) write_init.

(** ** Learning *)

(** [learn]: the action of the broadcast message. *)
Definition learn (a : Action) : Action :=
  if is_learned a then a
  else mkAction (position a) (promised a) (performed a) (Some true) (entry a).

(** ** [FillProcess] *)

Inductive fill_phase :=
  | PromisePhase
  | BackOff
  | WritePhase (a : Action) (req : WriteRequest)
  | LearnPhase (a : Action)
  | Filled (a : Action)
  | FillFailed.

Record FillProcess := mkFill {
  fill_position : Z;
  fill_proposal : Z;
  fill_state : fill_phase;
}.

Definition fill_init (proposal pos : Z) : FillProcess := mkFill pos proposal PromisePhase.

Definition fill_to (f : FillProcess) (ph : fill_phase) : FillProcess :=
  mkFill (fill_position f) (fill_proposal f) ph.

(** [FillProcess::retry]; the delayed [runPromisePhase] ends the back-off. *)
Definition retry (highestNackProposal : Z) (f : FillProcess) : result abort FillProcess :=
  if highestNackProposal <? fill_proposal f then Err CheckFailed
  else Ok (mkFill (fill_position f) (u64 (highestNackProposal + 1)) BackOff).

Definition fill_wake (f : FillProcess) : FillProcess := fill_to f PromisePhase.

(** [FillProcess::runLearnPhase]. *)
Definition fill_runLearnPhase (a : Action) (f : FillProcess) : result abort FillProcess :=
  if is_learned a then Ok (fill_to f (LearnPhase a)) else Err CheckFailed.

(** [FillProcess::runWritePhase] with the request [log::write] sends. *)
Definition fill_runWritePhase (a : Action) (f : FillProcess) : result abort FillProcess :=
  if is_learned a then Err CheckFailed
  else match write_watched (fill_proposal f) a with
       | Some req => Ok (fill_to f (WritePhase a req))
       | None => Err CheckFailed
       end.

(** [FillProcess::checkPromisePhase]; [None] is a failed future. *)
Definition fill_checkPromisePhase (resp : option PromiseResponse) (f : FillProcess)
  : result abort FillProcess :=
  match resp with
  | None => Ok (fill_to f FillFailed)
  | Some resp =>
      if negb (pr_okay resp) then retry (pr_proposal resp) f
      else
        match pr_action resp with
        | Some a =>
            if negb (position a =? fill_position f) then Err CheckFailed
            else if bool_decide (entry a = None) then Err CheckFailed
            else
              let a := mkAction (position a) (fill_proposal f) (Some (fill_proposal f))
                         (learned a) (entry a) in
              if is_learned a then fill_runLearnPhase a f else fill_runWritePhase a f
        | None =>
            fill_runWritePhase
              (mkAction (fill_position f) (fill_proposal f) (Some (fill_proposal f)) None
                 (Some (NOP None))) f
        end
  end.

(** [FillProcess::checkWritePhase]. *)
Definition fill_checkWritePhase (a : Action) (resp : option WriteResponse) (f : FillProcess)
  : result abort FillProcess :=
  match resp with
  | None => Ok (fill_to f FillFailed)
  | Some resp =>
      if negb (wr_okay resp) then retry (wr_proposal resp) f
      else fill_runLearnPhase
             (mkAction (position a) (promised a) (performed a) (Some true) (entry a)) f
  end.

(** [FillProcess::checkLearnPhase]. *)
Definition fill_checkLearnPhase (a : Action) (ready : bool) (f : FillProcess) : FillProcess :=
  fill_to f (if ready then Filled a else FillFailed).

(** ** Running a phase *)

Section RunPhase.
Context {S M R : Type} (received : M -> S -> result abort (progress S R)).
Context (I : list M -> S -> Prop) (O : list M -> R -> Prop).

(** One message keeps the invariant or ends the phase with an outcome. *)
Definition phase_step : Prop :=
  forall seen s m x, I seen s -> received m s = Ok x ->
    match x with
    | Waiting s' => I (seen ++ [m]) s'
    | Done r => O (seen ++ [m]) r
    end.

Lemma run_phase_spec seen s ms x :
  phase_step -> I seen s -> run_phase received s ms = Ok x ->
  match x with
  | Waiting s' => I (seen ++ ms) s'
  | Done r => exists used rest, ms = used ++ rest /\ O (seen ++ used) r
  end.
Proof.
  intros Hstep. revert seen s. induction ms as [|m ms IH]; intros seen s HI; cbn.
  { intros [= <-]. by rewrite app_nil_r. }
  destruct (received m s) as [[s'|r]|] eqn:E; cbn; [| |done].
  - intros Hr. assert (Hs := Hstep seen s m _ HI E). cbn in Hs.
    specialize (IH _ _ Hs Hr). rewrite <- app_assoc in IH. destruct x as [s''|r]; [done|].
    destruct IH as (used & rest & -> & Ho). exists (m :: used), rest.
    by rewrite <- app_assoc in Ho.
  - intros [= <-]. exists [m], ms. split; [done|]. apply (Hstep seen s m _ HI E).
Qed.

(** If no message that can arrive makes the handler abort, no run does. *)
Lemma run_phase_total (W : M -> Prop) seen s ms :
  phase_step -> (forall seen s m, I seen s -> W m -> is_ok (received m s) = true) ->
  I seen s -> Forall W ms -> is_ok (run_phase received s ms) = true.
Proof.
  intros Hstep Htot HI Hms. revert seen s HI.
  induction Hms as [|m ms Hm _ IH]; intros seen s HI; [done|]. cbn.
  specialize (Htot seen s m HI Hm). destruct (received m s) as [[s'|r]|] eqn:E; cbn; try done.
  apply (IH (seen ++ [m])), (Hstep seen s m _ HI E).
Qed.
End RunPhase.

(** *** What the proposer has seen *)

(** Both kinds of responses, as far as counting them goes. *)
Class Response (M : Type) := {
  is_ignored : M -> bool;
  is_rejected : M -> bool;
  resp_proposal : M -> Z;
}.

#[export] Instance promise_response : Response PromiseResponse :=
  {| is_ignored := isIgnoredPromise; is_rejected := isRejectedPromise;
     resp_proposal := pr_proposal |}.

#[export] Instance write_response : Response WriteResponse :=
  {| is_ignored := isIgnoredWrite; is_rejected := isRejectedWrite;
     resp_proposal := wr_proposal |}.

Section Responses.
Context {M : Type} `{Response M}.
Implicit Types (rs : list M) (r : M).

Definition votes (rs : list M) : list M :=
  filter (fun r => is_ignored r = false) rs.
Definition ignores (rs : list M) : list M :=
  filter (fun r => is_ignored r = true) rs.

Lemma votes_snoc rs r :
  votes (rs ++ [r]) = votes rs ++ (if is_ignored r then [] else [r]).
Proof.
  unfold votes. rewrite list.filter_app, filter_cons. by destruct (is_ignored r).
Qed.

Lemma ignores_snoc rs r :
  ignores (rs ++ [r]) = ignores rs ++ (if is_ignored r then [r] else []).
Proof.
  unfold ignores. rewrite list.filter_app, filter_cons. by destruct (is_ignored r).
Qed.

(** [h] is the highest proposal among the rejections in [rs], if any. *)
Definition highest_nack (rs : list M) (h : option Z) : Prop :=
  match h with
  | Some h => (exists r, r ∈ votes rs /\ is_rejected r = true /\ resp_proposal r = h)
              /\ forall r, r ∈ votes rs -> is_rejected r = true -> resp_proposal r <= h
  | None => forall r, r ∈ votes rs -> is_rejected r = false
  end.

Lemma raise_ge h z : exists m, raise h z = Some m /\ z <= m /\ (h = Some m \/ m = z)
                               /\ forall x, h = Some x -> x <= m.
Proof.
  destruct h as [h|]; cbn; [destruct (h <? z) eqn:E; breflect|]; eexists; split_and!;
    eauto; try lia; intros x; congruence || (intros [= <-]; lia).
Qed.

Lemma highest_nack_snoc rs r h :
  is_ignored r = false -> highest_nack rs h ->
  highest_nack (rs ++ [r]) (if is_rejected r then raise h (resp_proposal r) else h).
Proof.
  intros Hi Hn. unfold highest_nack in *. rewrite !votes_snoc, Hi.
  destruct (is_rejected r) eqn:Er.
  - destruct (raise_ge h (resp_proposal r)) as (m & -> & Hle & Hm & Hx). split.
    + destruct Hm as [->| ->]; [|exists r; set_solver].
      destruct Hn as [(r' & ? & ?) _]. exists r'. set_solver.
    + intros r' [Hr'| ->%list_elem_of_singleton]%elem_of_app Hrej; [|lia].
      destruct h as [h|]; [|by rewrite (Hn r' Hr') in Hrej].
      etrans; [by apply Hn|by apply Hx].
  - destruct h as [h|].
    + destruct Hn as [(r' & ? & ?) Hmax]. split; [exists r'; set_solver|].
      intros r0 [?| ->%list_elem_of_singleton]%elem_of_app ?; [auto|congruence].
    + intros r0 [?| ->%list_elem_of_singleton]%elem_of_app; auto.
Qed.

Lemma highest_nack_ignored rs r h :
  is_ignored r = true -> highest_nack rs h -> highest_nack (rs ++ [r]) h.
Proof. intros Hi. unfold highest_nack. by rewrite !votes_snoc, Hi, app_nil_r. Qed.
End Responses.

(** *** Explicit promises *)

(** A response that grants proposal [n] the position [pos], where no learned
    action is known. *)
Definition granted (n pos : Z) (r : PromiseResponse) : Prop :=
  isRejectedPromise r = false /\ pr_proposal r = n
  /\ match pr_action r with
     | Some a => position a = pos /\ is_learned a = false
     | None => pr_position r = Some pos
     end.

(** [h] is the action with the highest performed proposal that [rs] reports. *)
Definition best_action (rs : list PromiseResponse) (h : option Action) : Prop :=
  match h with
  | Some a =>
      (exists r, r ∈ votes rs /\ pr_action r = Some a)
      /\ exists m, performed a = Some m
         /\ forall r b k, r ∈ votes rs -> pr_action r = Some b -> performed b = Some k -> k <= m
  | None => forall r b, r ∈ votes rs -> pr_action r = Some b -> performed b = None
  end.

Record explicit_seen (n pos : Z) (rs : list PromiseResponse) (s : ExplicitPromiseProcess)
  : Prop := {
  es_votes : ep_responsesReceived s = length (votes rs);
  es_ignores : ep_ignoresReceived s = length (ignores rs);
  es_nack : highest_nack rs (ep_highestNackProposal s);
  es_granted : ep_highestNackProposal s = None -> Forall (granted n pos) (votes rs);
  es_best : ep_highestNackProposal s = None -> best_action rs (ep_highestAckAction s);
}.

(** How an explicit promise phase ends, from the responses it used. *)
Inductive explicit_result (quorum : nat) (n pos : Z) (rs : list PromiseResponse)
  : PromiseResponse -> Prop :=
  | er_ignored : (quorum <= length (ignores rs))%nat -> explicit_result quorum n pos rs ignored_promise
  | er_rejected h :
      (quorum <= length (votes rs))%nat -> highest_nack rs (Some h) ->
      explicit_result quorum n pos rs (rejected_promise h)
  | er_learned r a :
      r ∈ rs -> isRejectedPromise r = false -> pr_proposal r = n -> pr_action r = Some a ->
      position a = pos -> is_learned a = true ->
      explicit_result quorum n pos rs r
  | er_granted h :
      (quorum <= length (votes rs))%nat -> Forall (granted n pos) (votes rs) ->
      best_action rs h -> explicit_result quorum n pos rs (accepted_promise None h).

Lemma best_action_snoc rs r h :
  is_ignored r = false -> best_action rs h ->
  best_action (rs ++ [r])
    (match pr_action r with
     | Some a => match performed a with Some _ => raise_action h a | None => h end
     | None => h
     end).
Proof.
  intros Hi Hb. unfold best_action in *. rewrite !votes_snoc, Hi.
  destruct (pr_action r) as [a|] eqn:Ea; [destruct (performed a) as [k|] eqn:Ek|].
  - destruct h as [b|]; cbn.
    + destruct Hb as [(r' & Hr' & Hrb) (m & Hm & Hmax)].
      rewrite Hm, Ek; cbn. destruct (m <? k) eqn:E; breflect.
      * split; [exists r; set_solver|]. exists k. split; [done|].
        intros r0 b0 k0 [?| ->%list_elem_of_singleton]%elem_of_app H1 H2;
          [specialize (Hmax r0 b0 k0); naive_solver lia|simplify_eq; lia].
      * split; [exists r'; set_solver|]. exists m. split; [done|].
        intros r0 b0 k0 [?| ->%list_elem_of_singleton]%elem_of_app H1 H2; [eauto|simplify_eq; lia].
    + split; [exists r; set_solver|]. exists k. split; [done|].
      intros r0 b0 k0 [?| ->%list_elem_of_singleton]%elem_of_app H1 H2;
        [rewrite (Hb r0 b0) in H2; done|simplify_eq; lia].
  - destruct h as [b|].
    + destruct Hb as [(r' & Hr' & Hrb) (m & Hm & Hmax)].
      split; [exists r'; set_solver|]. exists m. split; [done|].
      intros r0 b0 k0 [?| ->%list_elem_of_singleton]%elem_of_app H1 H2; [eauto|congruence].
    + intros r0 b0 [?| ->%list_elem_of_singleton]%elem_of_app H1; [eauto|congruence].
  - destruct h as [b|].
    + destruct Hb as [(r' & Hr' & Hrb) (m & Hm & Hmax)].
      split; [exists r'; set_solver|]. exists m. split; [done|].
      intros r0 b0 k0 [?| ->%list_elem_of_singleton]%elem_of_app H1 H2; [eauto|congruence].
    + intros r0 b0 [?| ->%list_elem_of_singleton]%elem_of_app H1; [eauto|congruence].
Qed.

(** The state after a vote that is not a learned action. *)
Lemma explicit_quorum_spec quorum n pos rs s :
  explicit_seen n pos rs s ->
  match explicit_quorum quorum s with
  | Waiting s' => s' = s
  | Done r => explicit_result quorum n pos rs r
  end.
Proof.
  intros [Hv Hi Hn Hg Hb]. unfold explicit_quorum.
  destruct (quorum <=? _)%nat eqn:E; [|done]. breflect.
  destruct (ep_highestNackProposal s); constructor; try lia; auto.
Qed.

Lemma explicit_seen_vote n pos rs s r h a :
  explicit_seen n pos rs s -> is_ignored r = false ->
  h = (if is_rejected r then raise (ep_highestNackProposal s) (pr_proposal r)
       else ep_highestNackProposal s) ->
  (h = None -> granted n pos r
     /\ a = match pr_action r with
            | Some b => match performed b with
                        | Some _ => raise_action (ep_highestAckAction s) b
                        | None => ep_highestAckAction s
                        end
            | None => ep_highestAckAction s
            end) ->
  explicit_seen n pos (rs ++ [r])
    (mkExplicit (S (ep_responsesReceived s)) (ep_ignoresReceived s) h a).
Proof.
  intros [Hv Hi Hn Hg Hb] Hr Hh Ha.
  assert (Hnone : h = None -> ep_highestNackProposal s = None).
  { intros E. rewrite Hh in E. destruct (is_rejected r); [|done].
    destruct (raise_ge (ep_highestNackProposal s) (pr_proposal r)) as (m & Hm & _). congruence. }
  split; cbn.
  - rewrite votes_snoc, Hr, length_app. cbn. lia.
  - by rewrite ignores_snoc, Hr, app_nil_r.
  - rewrite Hh. exact (highest_nack_snoc rs r _ Hr Hn).
  - intros E. rewrite votes_snoc, Hr. apply Forall_app. split; [auto|].
    apply Forall_singleton, Ha, E.
  - intros E. destruct (Ha E) as [_ ->]. apply best_action_snoc; [done|]. auto.
Qed.

Lemma explicit_seen_ignored n pos rs s r :
  explicit_seen n pos rs s -> is_ignored r = true ->
  explicit_seen n pos (rs ++ [r])
    (mkExplicit (ep_responsesReceived s) (S (ep_ignoresReceived s))
       (ep_highestNackProposal s) (ep_highestAckAction s)).
Proof.
  intros [Hv Hi Hn Hg Hb] Hr. unfold best_action in Hb.
  split; cbn; rewrite ?ignores_snoc, ?votes_snoc, ?Hr, ?app_nil_r, ?length_app; try done.
  - cbn. lia.
  - by apply highest_nack_ignored.
  - intros E. unfold best_action. rewrite votes_snoc, Hr, app_nil_r. by apply Hb.
Qed.

(** A response a replica sends to the request for [n] at [pos]. *)
Definition answers (n pos : Z) (r : PromiseResponse) : Prop :=
  isIgnoredPromise r = true \/ isRejectedPromise r = true
  \/ (pr_proposal r = n
      /\ match pr_action r with
         | Some a => position a = pos
         | None => pr_position r = Some pos
         end).

Lemma explicit_received_spec quorum n pos rs s r :
  explicit_seen n pos rs s ->
  match explicit_received quorum n pos r s with
  | Ok (Waiting s') => explicit_seen n pos (rs ++ [r]) s'
  | Ok (Done x) => explicit_result quorum n pos (rs ++ [r]) x
  | Err _ => ~ answers n pos r
  end.
Proof.
  intros Hs. unfold explicit_received. destruct (isIgnoredPromise r) eqn:Hi.
  { assert (H := explicit_seen_ignored _ _ _ _ _ Hs Hi).
    cbn [ep_ignoresReceived]. destruct (quorum <=? _)%nat eqn:E; [|done]. breflect. constructor.
    rewrite <- (es_ignores _ _ _ _ H). cbn. lia. }
  assert (Hq : forall h a,
    (h = if isRejectedPromise r then raise (ep_highestNackProposal s) (pr_proposal r)
         else ep_highestNackProposal s) ->
    (h = None -> granted n pos r
     /\ a = match pr_action r with
            | Some b => match performed b with
                        | Some _ => raise_action (ep_highestAckAction s) b
                        | None => ep_highestAckAction s
                        end
            | None => ep_highestAckAction s
            end) ->
    match explicit_quorum quorum
            (mkExplicit (S (ep_responsesReceived s)) (ep_ignoresReceived s) h a) with
    | Waiting s' => explicit_seen n pos (rs ++ [r]) s'
    | Done x => explicit_result quorum n pos (rs ++ [r]) x
    end).
  { intros h a H1 H2. assert (H := explicit_seen_vote n pos rs s r h a Hs Hi H1 H2).
    assert (Hq := explicit_quorum_spec quorum n pos _ _ H). case_match; [by subst|done]. }
  cbn. destruct (isRejectedPromise r) eqn:Er; cbn.
  { apply Hq; [done|]. intros E. exfalso.
    destruct (raise_ge (ep_highestNackProposal s) (pr_proposal r)) as (m & Hm & _). congruence. }
  destruct (ep_highestNackProposal s) as [h|] eqn:En; [by apply Hq|].
  destruct (pr_proposal r =? n) eqn:Ep; cbn; breflect; [|unfold answers; naive_solver congruence].
  destruct (pr_action r) as [a|] eqn:Ea.
  - destruct (position a =? pos) eqn:Epos; cbn; breflect;
      [|unfold answers; rewrite Ea; naive_solver congruence].
    destruct (is_learned a) eqn:El.
    { eapply er_learned; eauto. set_solver. }
    destruct (performed a) eqn:Epf; (apply Hq; [done|]); intros _; (split; [|done]);
      unfold granted; rewrite Ea; done.
  - case_bool_decide as Eb; [|unfold answers; rewrite Ea; naive_solver congruence].
    apply Hq; [done|]. intros _. split; [|done]. unfold granted. by rewrite Ea.
Qed.

Lemma explicit_received_waiting quorum n pos r s s' :
  explicit_received quorum n pos r s = Ok (Waiting s') ->
  (ep_responsesReceived s < quorum)%nat -> (ep_ignoresReceived s < quorum)%nat ->
  (ep_responsesReceived s' < quorum)%nat /\ (ep_ignoresReceived s' < quorum)%nat.
Proof.
  unfold explicit_received, explicit_quorum. cbn. intros H Hr Hi.
  repeat case_match; simplify_eq; breflect; cbn in *; lia.
Qed.

(** The invariant of a phase that has not ended. *)
Definition explicit_open (quorum : nat) (n pos : Z) (rs : list PromiseResponse)
    (s : ExplicitPromiseProcess) : Prop :=
  explicit_seen n pos rs s
  /\ (ep_responsesReceived s < quorum)%nat /\ (ep_ignoresReceived s < quorum)%nat.

Lemma explicit_phase_step quorum n pos :
  phase_step (explicit_received quorum n pos) (explicit_open quorum n pos)
    (explicit_result quorum n pos).
Proof.
  intros seen s m x (Hs & Hr & Hi) E.
  assert (H := explicit_received_spec quorum n pos seen s m Hs). rewrite E in H.
  destruct x as [s'|]; [|done]. split; [done|]. by eapply explicit_received_waiting.
Qed.

Lemma explicit_open_init quorum n pos :
  (0 < quorum)%nat -> explicit_open quorum n pos [] explicit_init.
Proof.
  intros Hq. split; [|done]. split; cbn; try done.
  - intros r Hr. by apply not_elem_of_nil in Hr.
  - intros _ r b Hr. by apply not_elem_of_nil in Hr.
Qed.

Lemma explicit_phase_total quorum n pos rs :
  (0 < quorum)%nat -> Forall (answers n pos) rs -> is_ok (explicit_phase quorum n pos rs) = true.
Proof.
  intros Hq Hrs. unfold explicit_phase.
  eapply run_phase_total; [apply explicit_phase_step| |by apply explicit_open_init|exact Hrs].
  intros seen s m (Hs & _) Hm.
  assert (H := explicit_received_spec quorum n pos seen s m Hs).
  by destruct (explicit_received quorum n pos m s).
Qed.

Lemma explicit_phase_done quorum n pos rs r :
  (0 < quorum)%nat -> explicit_phase quorum n pos rs = Ok (Done r) ->
  exists used rest, rs = used ++ rest /\ explicit_result quorum n pos used r.
Proof.
  intros Hq E. exact (run_phase_spec _ _ _ [] _ _ _ (explicit_phase_step quorum n pos)
                        (explicit_open_init quorum n pos Hq) E).
Qed.

(** C6. The explicit promise phase, for every sequence of responses replicas
    may send in any order: it never aborts, it ends as soon as a quorum has
    voted or a quorum has ignored it, and it ends with what Paxos asks for: the
    highest rejection if there is one, a learned action if one is reported,
    and otherwise a quorum of grants with the action of the highest performed
    proposal among them. *)
Theorem explicit_phase_correct quorum n pos rs :
  (0 < quorum)%nat -> Forall (answers n pos) rs ->
  match explicit_phase quorum n pos rs with
  | Ok (Done r) => exists used rest, rs = used ++ rest /\ explicit_result quorum n pos used r
  | Ok (Waiting _) => (length (votes rs) < quorum)%nat /\ (length (ignores rs) < quorum)%nat
  | Err _ => False
  end.
Proof.
  intros Hq Hrs. assert (Ht := explicit_phase_total quorum n pos rs Hq Hrs).
  destruct (explicit_phase quorum n pos rs) as [[s|r]|] eqn:E; [| |done].
  - destruct (run_phase_spec _ _ _ [] _ _ _ (explicit_phase_step quorum n pos)
                (explicit_open_init quorum n pos Hq) E) as (Hs & Hr & Hi).
    cbn in Hs. by rewrite <- (es_votes _ _ _ _ Hs), <- (es_ignores _ _ _ _ Hs).
  - by eapply explicit_phase_done.
Qed.

Definition sample_action (m : Z) : Action := mkAction 7 1 (Some m) None (Some (APPEND "v")).

Lemma explicit_phase_correct_witness :
  let rs := [promise_accept 9 None (Some (sample_action 3)); promise_ignored 9;
             promise_accept 9 None (Some (sample_action 5)); promise_reject 12] in
  explicit_phase 2 9 7 rs = Ok (Done (accepted_promise None (Some (sample_action 5))))
  /\ match explicit_phase 2 9 7 rs with
     | Ok (Done r) => exists used rest, rs = used ++ rest /\ explicit_result 2 9 7 used r
     | Ok (Waiting _) => (length (votes rs) < 2)%nat /\ (length (ignores rs) < 2)%nat
     | Err _ => False
     end.
Proof.
  intros rs. split; [vm_compute; reflexivity|].
  apply (explicit_phase_correct 2 9 7 rs); [lia|].
  unfold rs. apply List.Forall_cons; [right; right; split; reflexivity|].
  apply List.Forall_cons; [left; reflexivity|].
  apply List.Forall_cons; [right; right; split; reflexivity|].
  apply List.Forall_cons; [right; left; reflexivity|apply List.Forall_nil].
Defined.

(** *** Implicit promises *)

(** [h] is the highest end position the votes of [rs] report. *)
Definition highest_end (rs : list PromiseResponse) (h : option Z) : Prop :=
  match h with
  | Some e => (exists r, r ∈ votes rs /\ pr_position r = Some e)
              /\ forall r, r ∈ votes rs -> exists x, pr_position r = Some x /\ x <= e
  | None => votes rs = []
  end.

Record implicit_seen (rs : list PromiseResponse) (s : ImplicitPromiseProcess) : Prop := {
  is_votes : ip_responsesReceived s = length (votes rs);
  is_ignores : ip_ignoresReceived s = length (ignores rs);
  is_nack : highest_nack rs (ip_highestNackProposal s);
  is_end : ip_highestNackProposal s = None -> highest_end rs (ip_highestEndPosition s);
}.

Inductive implicit_result (quorum : nat) (rs : list PromiseResponse) : PromiseResponse -> Prop :=
  | ir_ignored : (quorum <= length (ignores rs))%nat -> implicit_result quorum rs ignored_promise
  | ir_rejected h :
      (quorum <= length (votes rs))%nat -> highest_nack rs (Some h) ->
      implicit_result quorum rs (rejected_promise h)
  | ir_granted e :
      (quorum <= length (votes rs))%nat -> highest_nack rs None -> highest_end rs (Some e) ->
      implicit_result quorum rs (accepted_promise (Some e) None).

(** A response a replica sends to an implicit promise request. *)
Definition answers_implicit (r : PromiseResponse) : Prop :=
  isIgnoredPromise r = true \/ isRejectedPromise r = true \/ is_Some (pr_position r).

Lemma highest_end_snoc rs r h e :
  is_ignored r = false -> pr_position r = Some e -> highest_end rs h ->
  highest_end (rs ++ [r]) (raise h e).
Proof.
  intros Hi He Hh. destruct (raise_ge h e) as (m & Em & Hle & Hm & Hx). rewrite Em.
  unfold highest_end in *. rewrite votes_snoc, Hi. split.
  - destruct Hm as [->| ->]; [|exists r; set_solver].
    destruct Hh as [(r' & ? & ?) _]. exists r'. set_solver.
  - intros r' [Hr'| ->%list_elem_of_singleton]%elem_of_app; [|eauto].
    destruct h as [h|]; [|rewrite Hh in Hr'; by apply not_elem_of_nil in Hr'].
    destruct Hh as [_ Hmax]. destruct (Hmax r' Hr') as (x & Hx' & Hxl).
    exists x. split; [done|]. specialize (Hx h eq_refl). lia.
Qed.

Lemma implicit_received_spec quorum rs s r :
  (0 < quorum)%nat -> implicit_seen rs s ->
  match implicit_received quorum r s with
  | Ok (Waiting s') => implicit_seen (rs ++ [r]) s'
  | Ok (Done x) => implicit_result quorum (rs ++ [r]) x
  | Err _ => ~ answers_implicit r
  end.
Proof.
  intros Hq0 [Hv Hi Hn He]. unfold implicit_received.
  destruct (isIgnoredPromise r) eqn:Hig.
  { cbn [ip_ignoresReceived]. destruct (quorum <=? _)%nat eqn:E; breflect.
    - constructor. rewrite ignores_snoc, length_app. cbn. rewrite Hig. cbn. lia.
    - split; cbn; rewrite ?ignores_snoc, ?votes_snoc; cbn; rewrite ?Hig, ?app_nil_r, ?length_app;
        try done; [cbn; lia|by apply highest_nack_ignored|].
      intros Ens. specialize (He Ens). unfold highest_end in *. rewrite votes_snoc. cbn.
      by rewrite Hig, app_nil_r. }
  assert (Hq : forall h e,
    (h = if isRejectedPromise r then raise (ip_highestNackProposal s) (pr_proposal r)
         else ip_highestNackProposal s) ->
    (h = None -> highest_end (rs ++ [r]) e /\ is_Some e) ->
    match implicit_quorum quorum
            (mkImplicit (S (ip_responsesReceived s)) (ip_ignoresReceived s) h e) with
    | Ok (Waiting s') => implicit_seen (rs ++ [r]) s'
    | Ok (Done x) => implicit_result quorum (rs ++ [r]) x
    | Err _ => ~ answers_implicit r
    end).
  { intros h e Hh Hee.
    assert (Hnk : highest_nack (rs ++ [r]) h) by (rewrite Hh; exact (highest_nack_snoc rs r _ Hig Hn)).
    assert (Hvs : length (votes (rs ++ [r])) = S (ip_responsesReceived s)).
    { rewrite votes_snoc, length_app. cbn. rewrite Hig. cbn. lia. }
    unfold implicit_quorum. cbn. destruct (quorum <=? S _)%nat eqn:E; breflect.
    - destruct h as [h|]; [constructor; [lia|done]|].
      destruct (Hee eq_refl) as [Hend [e' ->]]. constructor; [lia|done..].
    - split; cbn; [lia| |done|naive_solver].
      rewrite ignores_snoc. cbn. by rewrite Hig, app_nil_r. }
  cbn. destruct (isRejectedPromise r) eqn:Er.
  { apply Hq; [done|]. intros Ens. exfalso.
    destruct (raise_ge (ip_highestNackProposal s) (pr_proposal r)) as (m & Hm & _). congruence. }
  destruct (ip_highestNackProposal s) as [h|] eqn:En; [by apply Hq|].
  destruct (pr_position r) as [e|] eqn:Ee.
  - apply Hq; [done|]. intros _. split.
    + apply highest_end_snoc; auto.
    + destruct (raise_ge (ip_highestEndPosition s) e) as (m & -> & _). eauto.
  - intros [?|[?|[? ?]]]; congruence.
Qed.

Lemma implicit_received_waiting quorum r s s' :
  implicit_received quorum r s = Ok (Waiting s') ->
  (ip_responsesReceived s < quorum)%nat -> (ip_ignoresReceived s < quorum)%nat ->
  (ip_responsesReceived s' < quorum)%nat /\ (ip_ignoresReceived s' < quorum)%nat.
Proof.
  unfold implicit_received, implicit_quorum. cbn. intros H Hr Hi.
  repeat case_match; simplify_eq; breflect; cbn in *; lia.
Qed.

Definition implicit_open (quorum : nat) (rs : list PromiseResponse)
    (s : ImplicitPromiseProcess) : Prop :=
  implicit_seen rs s
  /\ (ip_responsesReceived s < quorum)%nat /\ (ip_ignoresReceived s < quorum)%nat.

Lemma implicit_phase_step quorum :
  (0 < quorum)%nat ->
  phase_step (implicit_received quorum) (implicit_open quorum) (implicit_result quorum).
Proof.
  intros Hq seen s m x (Hs & Hr & Hi) E.
  assert (H := implicit_received_spec quorum seen s m Hq Hs). rewrite E in H.
  destruct x as [s'|]; [|done]. split; [done|]. by eapply implicit_received_waiting.
Qed.

Lemma implicit_open_init quorum : (0 < quorum)%nat -> implicit_open quorum [] implicit_init.
Proof.
  intros Hq. split; [|done]. split; cbn; try done.
  intros r Hr. by apply not_elem_of_nil in Hr.
Qed.

Lemma implicit_phase_done quorum rs r :
  (0 < quorum)%nat -> implicit_phase quorum rs = Ok (Done r) ->
  exists used rest, rs = used ++ rest /\ implicit_result quorum used r.
Proof.
  intros Hq E. exact (run_phase_spec _ _ _ [] _ _ _ (implicit_phase_step quorum Hq)
                        (implicit_open_init quorum Hq) E).
Qed.

(** The implicit promise phase: for every sequence of responses replicas
    may send it never aborts, it ends once a quorum has voted or ignored it,
    and when it grants leadership no vote was a rejection and the position it
    returns is the highest end of the log over a quorum. *)
Theorem implicit_phase_correct quorum rs :
  (0 < quorum)%nat -> Forall answers_implicit rs ->
  match implicit_phase quorum rs with
  | Ok (Done r) => exists used rest, rs = used ++ rest /\ implicit_result quorum used r
  | Ok (Waiting _) => (length (votes rs) < quorum)%nat /\ (length (ignores rs) < quorum)%nat
  | Err _ => False
  end.
Proof.
  intros Hq Hrs.
  assert (Ht : is_ok (implicit_phase quorum rs) = true).
  { eapply run_phase_total; [by apply implicit_phase_step| |by apply implicit_open_init|exact Hrs].
    intros seen s m (Hs & _) Hm. assert (H := implicit_received_spec quorum seen s m Hq Hs).
    by destruct (implicit_received quorum m s). }
  destruct (implicit_phase quorum rs) as [[s|r]|] eqn:E; [| |done].
  - destruct (run_phase_spec _ _ _ [] _ _ _ (implicit_phase_step quorum Hq)
                (implicit_open_init quorum Hq) E) as (Hs & Hr & Hi).
    cbn in Hs. by rewrite <- (is_votes _ _ Hs), <- (is_ignores _ _ Hs).
  - by eapply implicit_phase_done.
Qed.

Lemma implicit_phase_correct_witness :
  let rs := [promise_accept 9 (Some 3) None; promise_accept 9 (Some 8) None;
             promise_accept 9 (Some 5) None] in
  implicit_phase 2 rs = Ok (Done (accepted_promise (Some 8) None))
  /\ match implicit_phase 2 rs with
     | Ok (Done r) => exists used rest, rs = used ++ rest /\ implicit_result 2 used r
     | Ok (Waiting _) => (length (votes rs) < 2)%nat /\ (length (ignores rs) < 2)%nat
     | Err _ => False
     end.
Proof.
  intros rs. split; [vm_compute; reflexivity|].
  apply (implicit_phase_correct 2 rs); [lia|]. unfold rs.
  do 3 (apply List.Forall_cons; [right; right; eexists; reflexivity|]). apply List.Forall_nil.
Defined.

(** *** Writes *)

Record write_seen (rs : list WriteResponse) (s : WriteProcess) : Prop := {
  ws_votes : wp_responsesReceived s = length (votes rs);
  ws_ignores : wp_ignoresReceived s = length (ignores rs);
  ws_nack : highest_nack rs (wp_highestNackProposal s);
}.

Inductive write_result (quorum : nat) (rs : list WriteResponse) : WriteResponse -> Prop :=
  | wr_result_ignored : (quorum <= length (ignores rs))%nat -> write_result quorum rs ignored_write
  | wr_result_rejected h :
      (quorum <= length (votes rs))%nat -> highest_nack rs (Some h) ->
      write_result quorum rs (rejected_write h)
  | wr_result_accepted :
      (quorum <= length (votes rs))%nat -> highest_nack rs None ->
      write_result quorum rs accepted_write.

Definition write_open (quorum : nat) (rs : list WriteResponse) (s : WriteProcess) : Prop :=
  write_seen rs s
  /\ (wp_responsesReceived s < quorum)%nat /\ (wp_ignoresReceived s < quorum)%nat.

Lemma write_phase_step quorum pos :
  phase_step (write_received quorum pos) (write_open quorum) (write_result quorum).
Proof.
  intros rs s r x ([Hv Hi Hn] & Hr & Hg) E. unfold write_received in E.
  destruct (wr_position r =? pos); [|done]. cbn [negb] in E.
  destruct (isIgnoredWrite r) eqn:Hig.
  - assert (Hl : length (ignores (rs ++ [r])) = S (wp_ignoresReceived s)).
    { rewrite ignores_snoc, length_app. cbn. rewrite Hig. cbn. lia. }
    cbn [wp_ignoresReceived] in E. destruct (quorum <=? _)%nat eqn:Eq; breflect; injection E as <-.
    + constructor. lia.
    + split; [|cbn; lia]. split; cbn; [|done|by apply highest_nack_ignored].
      rewrite votes_snoc. cbn. by rewrite Hig, app_nil_r.
  - assert (Hl : length (votes (rs ++ [r])) = S (wp_responsesReceived s)).
    { rewrite votes_snoc, length_app. cbn. rewrite Hig. cbn. lia. }
    assert (Hnk := highest_nack_snoc rs r _ Hig Hn). cbn in Hnk.
    cbn [wp_responsesReceived wp_highestNackProposal] in E.
    destruct (quorum <=? _)%nat eqn:Eq; breflect; injection E as <-.
    + destruct (if isRejectedWrite r then _ else _); constructor; [lia|done|lia|done].
    + split; [|cbn; lia]. split; cbn; [done| |done].
      rewrite ignores_snoc. cbn. by rewrite Hig, app_nil_r.
Qed.

Lemma write_open_init quorum : (0 < quorum)%nat -> write_open quorum [] write_init.
Proof.
  intros Hq. split; [|done]. split; cbn; try done.
  intros r Hr. by apply not_elem_of_nil in Hr.
Qed.

Lemma write_phase_done quorum pos rs r :
  (0 < quorum)%nat -> write_phase quorum pos rs = Ok (Done r) ->
  exists used rest, rs = used ++ rest /\ write_result quorum used r.
Proof.
  intros Hq E. exact (run_phase_spec _ _ _ [] _ _ _ (write_phase_step quorum pos)
                        (write_open_init quorum Hq) E).
Qed.

(** The write phase: for responses about the position written it never
    aborts, it ends once a quorum has voted or ignored it, and it reports
    success only if a quorum accepted the write and no vote it saw was a
    rejection. *)
Theorem write_phase_correct quorum pos rs :
  (0 < quorum)%nat -> Forall (fun r => wr_position r = pos) rs ->
  match write_phase quorum pos rs with
  | Ok (Done r) => exists used rest, rs = used ++ rest /\ write_result quorum used r
  | Ok (Waiting _) => (length (votes rs) < quorum)%nat /\ (length (ignores rs) < quorum)%nat
  | Err _ => False
  end.
Proof.
  intros Hq Hrs.
  assert (Ht : is_ok (write_phase quorum pos rs) = true).
  { eapply run_phase_total; [apply write_phase_step| |by apply write_open_init|exact Hrs].
    intros seen s m _ Hm. cbn in Hm. unfold write_received. rewrite Hm, Z.eqb_refl.
    cbn [negb]. by destruct (isIgnoredWrite m). }
  destruct (write_phase quorum pos rs) as [[s|r]|] eqn:E; [| |done].
  - destruct (run_phase_spec _ _ _ [] _ _ _ (write_phase_step quorum pos)
                (write_open_init quorum Hq) E) as (Hs & Hr & Hi).
    cbn in Hs. by rewrite <- (ws_votes _ _ Hs), <- (ws_ignores _ _ Hs).
  - by eapply write_phase_done.
Qed.

Lemma write_phase_correct_witness :
  let rs := [write_reply ACCEPT 9 7; write_reply IGNORED 9 7; write_reply REJECT 12 7] in
  write_phase 2 7 rs = Ok (Done (rejected_write 12))
  /\ match write_phase 2 7 rs with
     | Ok (Done r) => exists used rest, rs = used ++ rest /\ write_result 2 used r
     | Ok (Waiting _) => (length (votes rs) < 2)%nat /\ (length (ignores rs) < 2)%nat
     | Err _ => False
     end.
Proof.
  intros rs. split; [vm_compute; reflexivity|].
  apply (write_phase_correct 2 7 rs); [lia|]. unfold rs.
  do 3 (apply List.Forall_cons; [reflexivity|]). apply List.Forall_nil.
Defined.

(** ** Filling a position *)

(** What a fill does with the end of its promise phase. *)
Inductive fill_next (f : FillProcess) (used : list PromiseResponse) : FillProcess -> Prop :=
  | fn_retry h :
      highest_nack used (Some h) -> fill_proposal f <= h ->
      fill_next f used (mkFill (fill_position f) (u64 (h + 1)) BackOff)
  | fn_learn r a :
      r ∈ used -> pr_action r = Some a -> is_learned a = true ->
      fill_next f used
        (fill_to f (LearnPhase (mkAction (fill_position f) (fill_proposal f)
                                  (Some (fill_proposal f)) (learned a) (entry a))))
  | fn_adopt a e :
      best_action used (Some a) -> entry a = Some e ->
      fill_next f used
        (fill_to f (WritePhase (mkAction (fill_position f) (fill_proposal f)
                                  (Some (fill_proposal f)) (learned a) (Some e))
                      (mkWriteRequest (fill_proposal f) (fill_position f) None (copy_entry e))))
  | fn_nop :
      best_action used None ->
      fill_next f used
        (fill_to f (WritePhase (mkAction (fill_position f) (fill_proposal f)
                                  (Some (fill_proposal f)) None (Some (NOP None)))
                      (mkWriteRequest (fill_proposal f) (fill_position f) None (NOP None)))).

(** What replicas put into their responses: a rejection names a proposal at
    least as high as the rejected one, and an action that was performed or
    learned has an entry. *)
Definition sound_response (n : Z) (r : PromiseResponse) : Prop :=
  (is_rejected r = true -> n <= resp_proposal r)
  /\ (is_rejected r = false -> isIgnoredPromise r = false -> pr_okay r = true)
  /\ forall a, pr_action r = Some a -> is_learned a = true \/ performed a <> None -> entry a <> None.

Lemma votes_sub {M} `{Response M} (rs : list M) r : r ∈ votes rs -> r ∈ rs.
Proof. unfold votes. by intros [_ ?]%list_elem_of_filter. Qed.

Lemma granted_unlearned n pos (rs : list PromiseResponse) r a :
  Forall (granted n pos) (votes rs) -> r ∈ votes rs -> pr_action r = Some a ->
  position a = pos /\ is_learned a = false.
Proof.
  intros Hg Hr Ha. rewrite Forall_forall in Hg. destruct (Hg r Hr) as (_ & _ & H).
  by rewrite Ha in H.
Qed.

(** C7. A fill acts on its promise phase as Paxos requires: it retries with a
    proposal above the highest rejection, only learns when a learned action is
    reported, writes again the entry with the highest performed proposal among
    the quorum, and proposes a no-op only if the quorum performed nothing. *)
Theorem fill_follows_promises quorum f used r :
  explicit_result quorum (fill_proposal f) (fill_position f) used r ->
  Forall (sound_response (fill_proposal f)) used -> isIgnoredPromise r = false ->
  exists f', fill_checkPromisePhase (Some r) f = Ok f' /\ fill_next f used f'.
Proof.
  intros Hr Hs Hi. rewrite Forall_forall in Hs.
  destruct Hr as [|h Hq Hn|r a Hin Hrej Hp Ha Hpos Hl|h Hq Hg Hb]; [done|..].
  - destruct (proj1 Hn) as (r & Hrv & Hrr & Hrp).
    destruct (Hs r (votes_sub _ _ Hrv)) as [Hle _]. specialize (Hle Hrr). rewrite Hrp in Hle.
    cbn. unfold retry. replace (h <? fill_proposal f) with false by lia.
    eexists. split; [done|]. by constructor.
  - destruct (Hs r Hin) as (_ & Hok & Hent). unfold fill_checkPromisePhase.
    rewrite (Hok Hrej Hi), Ha, Hpos, Z.eqb_refl. cbn [negb].
    rewrite bool_decide_eq_false_2 by (apply (Hent a Ha); by left).
    unfold is_learned at 1. cbn [learned]. fold (is_learned a). rewrite Hl.
    unfold fill_runLearnPhase, is_learned at 1. cbn [learned]. fold (is_learned a). rewrite Hl.
    eexists. split; [done|]. by econstructor.
  - destruct h as [a|].
    + assert (Hb' := Hb). destruct Hb' as [(r & Hrv & Ha) (m & Hm & _)].
      destruct (granted_unlearned _ _ _ _ _ Hg Hrv Ha) as [Hpos Hl].
      destruct (Hs r (votes_sub _ _ Hrv)) as (_ & _ & Hent).
      unfold fill_checkPromisePhase. cbn [pr_okay pr_action accepted_promise negb].
      rewrite Hpos, Z.eqb_refl. cbn [negb].
      rewrite bool_decide_eq_false_2 by (apply (Hent a Ha); right; congruence).
      unfold is_learned at 1. cbn [learned]. fold (is_learned a). rewrite Hl.
      unfold fill_runWritePhase, is_learned at 1. cbn [learned]. fold (is_learned a). rewrite Hl.
      unfold write_watched. cbn [entry position].
      destruct (entry a) as [e|] eqn:Ee; [|by destruct (Hent a Ha); [right; congruence|]].
      eexists. split; [done|]. by constructor.
    + eexists. split; [reflexivity|]. by constructor.
Qed.

Lemma fill_follows_promises_witness :
  let f := fill_init 9 7 in
  let used := [promise_accept 9 None (Some (sample_action 3));
               promise_accept 9 None (Some (sample_action 5))] in
  exists f', fill_checkPromisePhase (Some (accepted_promise None (Some (sample_action 5)))) f = Ok f'
             /\ fill_next f used f'.
Proof.
  intros f used.
  apply (fill_follows_promises 2 f used (accepted_promise None (Some (sample_action 5)))).
  - apply er_granted; [vm_compute; lia| |].
    + do 2 (apply List.Forall_cons; [repeat split; reflexivity|]). apply List.Forall_nil.
    + split.
      * exists (promise_accept 9 None (Some (sample_action 5))).
        split; [by right; left|reflexivity].
      * exists 5. split; [reflexivity|]. intros r b k Hr Hb Hk.
        repeat apply elem_of_cons in Hr as [->|Hr]; [..|by apply not_elem_of_nil in Hr];
          vm_compute in Hb; injection Hb as <-; vm_compute in Hk; injection Hk as <-; lia.
  - do 2 (apply List.Forall_cons;
      [split; [discriminate|split; [reflexivity|intros a Ha _; vm_compute in Ha; injection Ha as <-; discriminate]]|]).
    apply List.Forall_nil.
  - reflexivity.
Defined.

(** A fill whose promise request is ignored by a quorum of replicas does
    not retry: the result has neither [okay] nor [proposal] set, and
    [retry(0)] fails its [CHECK_GE] for every proposal above 0. *)
Theorem fill_aborts_when_ignored :
  explicit_phase 2 5 7 [promise_ignored 5; promise_ignored 5] = Ok (Done ignored_promise)
  /\ fill_checkPromisePhase (Some ignored_promise) (fill_init 5 7) = Err CheckFailed
  /\ write_phase 2 7 [write_reply IGNORED 5 7; write_reply IGNORED 5 7] = Ok (Done ignored_write)
  /\ forall a, fill_checkWritePhase a (Some ignored_write) (fill_init 5 7) = Err CheckFailed.
Proof. split_and!; reflexivity. Qed.
