(* ===== verification/Coordinator.v ===== *)
(** * The coordinator

    [src/src/log/coordinator.cpp]: the state machine that is elected with an
    implicit promise and then appends and truncates.  Each continuation of the
    futures is a definition; [election] and [perform] chain them the way
    [elect] and [write] do.  The local replica and the outcome of the catch-up
    are arguments. *)

From stdpp Require Import base gmap strings list.
From S2P Require Import Prelude Strings Storage Replica Consensus.
Local Open Scope Z_scope.

(** ** State *)

Inductive coordinator_state := INITIAL | ELECTING | ELECTED | WRITING.

#[export] Instance coordinator_state_eq_dec : EqDecision coordinator_state.
Proof. solve_decision. Defined.

Record Coordinator := mkCoordinator {
  c_state : coordinator_state;
  c_proposal : Z;
  c_index : Z;
}.

Definition coordinator_init : Coordinator := mkCoordinator INITIAL 0 0.

Definition to_state (s : coordinator_state) (c : Coordinator) : Coordinator :=
  mkCoordinator s (c_proposal c) (c_index c).

(** A future: still pending, failed, discarded or ready. *)
Inductive future (A : Type) :=
  | Pending
  | Failed
  | Discarded
  | Ready (a : A).
Arguments Pending {A}.
Arguments Failed {A}.
Arguments Discarded {A}.
Arguments Ready {A} a.

(** The responses a phase has received: none when it failed or was discarded
    before they counted. *)
Definition responses {M : Type} (f : future (list M)) : list M :=
  match f with Ready ms => ms | _ => [] end.

(** ** Election *)

(** [elect]: what it returns at once; in [INITIAL] it starts the chain. *)
Definition elect (c : Coordinator) : Coordinator * future (option Z) :=
  match c_state c with
  | ELECTING => (c, Pending)
  | ELECTED => (c, Ready (Some (u64 (c_index c - 1))))
  | WRITING => (c, Failed)
  | INITIAL => (to_state ELECTING c, Pending)
  end.

Definition updateProposal (promised : Z) (c : Coordinator) : Coordinator :=
  mkCoordinator (c_state c) (u64 (Z.max (c_proposal c) promised + 1)) (c_index c).

(** [checkPromisePhase]: [None] is a lost election; [Some] continues with the
    catch-up. *)
Definition checkPromisePhase (resp : PromiseResponse) (c : Coordinator)
  : result abort (Coordinator * bool) :=
  match pr_type resp with
  | None => Err CheckFailed
  | Some IGNORED => Ok (c, false)
  | Some REJECT =>
      if pr_proposal resp <? c_proposal c then Err CheckFailed
      else Ok (mkCoordinator (c_state c) (pr_proposal resp) (c_index c), false)
  | Some ACCEPT =>
      match pr_position resp with
      | None => Err CheckFailed
      | Some e => Ok (mkCoordinator (c_state c) (c_proposal c) e, true)
      end
  end.

(** [replica->missing(0, index)]. *)
Definition getMissingPositions (missing_ : Z -> Z -> future (gset Z)) (c : Coordinator) : future (gset Z) :=
  missing_ 0 (c_index c).

(** The proposal and the positions handed to [log::catchup]. *)
Definition catchupMissingPositions (positions : gset Z) (c : Coordinator) : Z * gset Z :=
  (u64 (c_proposal c + 1), positions).

Definition updateIndexAfterElected (c : Coordinator) : Coordinator * option Z :=
  (mkCoordinator (c_state c) (c_proposal c) (u64 (c_index c + 1)), Some (c_index c)).

Definition electingFinished (pos : option Z) (c : Coordinator) : result abort Coordinator :=
  if bool_decide (c_state c = ELECTING) then
    Ok (to_state (match pos with None => INITIAL | Some _ => ELECTED end) c)
  else Err CheckFailed.

Definition electingFailed (c : Coordinator) : result abort Coordinator :=
  if bool_decide (c_state c = ELECTING) then Ok (to_state INITIAL c) else Err CheckFailed.

Definition electingAborted (c : Coordinator) : result abort Coordinator :=
  if bool_decide (c_state c = ELECTING) then Ok (to_state INITIAL c) else Err CheckFailed.

(** The callbacks [onReady], [onFailed] and [onDiscarded] of [electing]. *)
Definition electing_callback (f : future (option Z)) (c : Coordinator)
  : result abort (Coordinator * future (option Z)) :=
  match f with
  | Pending => Ok (c, Pending)
  | Failed => let? c' := electingFailed c in Ok (c', Failed)
  | Discarded => let? c' := electingAborted c in Ok (c', Discarded)
  | Ready pos => let? c' := electingFinished pos c in Ok (c', Ready pos)
  end.

(** A step of the chain: what follows a future that is ready; one that fails
    or is discarded ends the election. *)
Definition electing_then {A : Type} (f : future A) (c : Coordinator)
    (k : A -> result abort (Coordinator * future (option Z))) : result abort (Coordinator * future (option Z)) :=
  match f with
  | Pending => Ok (c, Pending)
  | Failed => electing_callback Failed c
  | Discarded => electing_callback Discarded c
  | Ready x => k x
  end.

(** The chain of [elect] from [INITIAL].  Each step may fail, be discarded or
    stay pending: [last] is what [getLastProposal] returns, [promising] the
    promise phase with the responses it receives, [missing_] what the local
    replica returns for the range it is asked about, at the time it is asked,
    and [catchup] the outcome of the catch-up for the call it makes. *)
Definition election (quorum : nat) (last : future Z) (promising : future (list PromiseResponse))
    (missing_ : Z -> Z -> future (gset Z)) (catchup : Z * gset Z -> future unit) (c : Coordinator)
  : result abort (Coordinator * future (option Z)) :=
  let c := fst (elect c) in
  electing_then last c (fun promised =>
    let c := updateProposal promised c in
    electing_then promising c (fun resps =>
      let? phase := implicit_phase quorum resps in
      match phase with
      | Waiting _ => Ok (c, Pending)
      | Done resp =>
          let? next := checkPromisePhase resp c in
          let '(c, won) := next in
          if won then
            electing_then (getMissingPositions missing_ c) c (fun positions =>
              electing_then (catchup (catchupMissingPositions positions c)) c (fun _ =>
                let '(c, pos) := updateIndexAfterElected c in electing_callback (Ready pos) c))
          else electing_callback (Ready None) c
      end)).

Definition demote (c : Coordinator) : Coordinator * future Z :=
  match c_state c with
  | INITIAL | ELECTING | WRITING => (c, Failed)
  | ELECTED => (to_state INITIAL c, Ready (u64 (c_index c - 1)))
  end.

(** ** Writing *)

(** The actions [append] and [truncate] build. *)
Definition append_action (bytes : string) (c : Coordinator) : Action :=
  mkAction (c_index c) (c_proposal c) (Some (c_proposal c)) None (Some (APPEND bytes)).
Definition truncate_action (to : Z) (c : Coordinator) : Action :=
  mkAction (c_index c) (c_proposal c) (Some (c_proposal c)) None (Some (TRUNCATE to)).

(** [CoordinatorProcess::write] up to the broadcast of its request. *)
Definition start_write (a : Action) (c : Coordinator) : result abort (Coordinator * WriteRequest) :=
  if negb (bool_decide (c_state c = ELECTED)) then Err CheckFailed
  else match write_watched (c_proposal c) a with
       | None => Err CheckFailed
       | Some req => Ok (to_state WRITING c, req)
       end.

(** [append] and [truncate]: none when there was no election, a failure while
    another write is under way. *)
Definition submit (mk : Coordinator -> Action) (c : Coordinator)
  : result abort (Coordinator * (future (option Z) + Action * WriteRequest)) :=
  match c_state c with
  | INITIAL | ELECTING => Ok (c, inl (Ready None))
  | WRITING => Ok (c, inl Failed)
  | ELECTED =>
      let a := mk c in
      let? next := start_write a c in
      Ok (next.1, inr (a, next.2))
  end.

Definition append (bytes : string) := submit (append_action bytes).
Definition truncate (to : Z) := submit (truncate_action to).

(** [checkWritePhase]: the action to learn, or none on a rejection. *)
Definition checkWritePhase (a : Action) (resp : WriteResponse) (c : Coordinator)
  : result abort (Coordinator * option Action) :=
  if negb (wr_okay resp) then
    if wr_proposal resp <? c_proposal c then Err CheckFailed
    else Ok (mkCoordinator (c_state c) (wr_proposal resp) (c_index c), None)
  else Ok (c, Some (learn a)).

(** [checkLearnPhase]: ask the local replica. *)
Definition checkLearnPhase (a : Action) (local : Replica) : bool := missing local (position a).

Definition updateIndexAfterWritten (still_missing : bool) (c : Coordinator)
  : result abort (Coordinator * option Z) :=
  if still_missing then Err CheckFailed
  else Ok (mkCoordinator (c_state c) (c_proposal c) (u64 (c_index c + 1)), Some (c_index c)).

Definition writingFinished (c : Coordinator) : result abort Coordinator :=
  if bool_decide (c_state c = WRITING) then Ok (to_state ELECTED c) else Err CheckFailed.

Definition writingFailed (c : Coordinator) : result abort Coordinator :=
  if bool_decide (c_state c = WRITING) then Ok (to_state INITIAL c) else Err CheckFailed.

Definition writingAborted (c : Coordinator) : result abort Coordinator :=
  if bool_decide (c_state c = WRITING) then Ok (to_state INITIAL c) else Err CheckFailed.

(** The callbacks [onReady], [onFailed] and [onDiscarded] of [writing]. *)
Definition writing_callback (f : future (option Z)) (c : Coordinator)
  : result abort (Coordinator * future (option Z)) :=
  match f with
  | Pending => Ok (c, Pending)
  | Failed => let? c' := writingFailed c in Ok (c', Failed)
  | Discarded => let? c' := writingAborted c in Ok (c', Discarded)
  | Ready pos => let? c' := writingFinished c in Ok (c', Ready pos)
  end.

(** What a write meets: the write phase with the responses it receives and the
    broadcast of the learned message, each unless it fails or the write is
    discarded, and the local replica after the broadcast. *)
Record write_env := mkEnv {
  we_writing : future (list WriteResponse);
  we_learning : future unit;
  we_local : Replica;
}.

(** The chain of [write] once its request is out. *)
Definition finish_write (quorum : nat) (a : Action) (env : write_env) (c : Coordinator)
  : result abort (Coordinator * future (option Z)) :=
  match we_writing env with
  | Pending => Ok (c, Pending)
  | Failed => writing_callback Failed c
  | Discarded => writing_callback Discarded c
  | Ready resps =>
      let? phase := write_phase quorum (position a) resps in
      match phase with
      | Waiting _ => Ok (c, Pending)
      | Done resp =>
          let? next := checkWritePhase a resp c in
          match next with
          | (c, None) => writing_callback (Ready None) c
          | (c, Some _) =>
              match we_learning env with
              | Pending => Ok (c, Pending)
              | Failed => writing_callback Failed c
              | Discarded => writing_callback Discarded c
              | Ready _ =>
                  let? written := updateIndexAfterWritten (checkLearnPhase a (we_local env)) c in
                  writing_callback (Ready written.2) written.1
              end
          end
      end
  end.

(** A whole [append] or [truncate]. *)
Definition perform (quorum : nat) (mk : Coordinator -> Action) (env : write_env) (c : Coordinator)
  : result abort (Coordinator * future (option Z)) :=
  let? next := submit mk c in
  match next with
  | (c, inl f) => Ok (c, f)
  | (c, inr (a, _)) => finish_write quorum a env c
  end.

(** ** Elections *)

(** A replica rejects proposal [n] only for a promise at least as high. *)
Definition rejects_higher {M : Type} `{Response M} (n : Z) (r : M) : Prop :=
  is_rejected r = true -> n <= resp_proposal r.

Lemma nack_higher {M : Type} `{Response M} n (rs : list M) h :
  Forall (rejects_higher n) rs -> highest_nack rs (Some h) -> n <= h.
Proof.
  intros Hs [(r & Hr & Hrej & <-) _]. rewrite Forall_forall in Hs.
  by apply (Hs r (votes_sub _ _ Hr)).
Qed.

(** The proposal a coordinator runs its next election with. *)
Definition next_proposal (promised : Z) (c : Coordinator) : Z :=
  Z.max (c_proposal c) promised + 1.

Lemma Forall_prefix {A} (P : A -> Prop) l l' : Forall P (l ++ l') -> Forall P l.
Proof. by intros [? _]%Forall_app. Qed.

(** What an election that ran with the local promise [promised] ends with. *)
Definition election_result (quorum : nat) (promised : Z) (promising : future (list PromiseResponse))
    (missing_ : Z -> Z -> future (gset Z)) (catchup : Z * gset Z -> future unit) (c c' : Coordinator) (f : future (option Z)) : Prop :=
  match f with
  | Pending => c_state c' = ELECTING
  | Failed | Discarded | Ready None => c_state c' = INITIAL
  | Ready (Some e) =>
      c_state c' = ELECTED /\ c_proposal c' = next_proposal promised c /\ c_index c' = u64 (e + 1)
      /\ (exists used rest, promising = Ready (used ++ rest) /\ (quorum <= length (votes used))%nat
            /\ highest_nack used None /\ highest_end used (Some e))
      /\ exists positions, missing_ 0 e = Ready positions
           /\ catchup (u64 (next_proposal promised c + 1), positions) = Ready tt
  end.

(** C11. Every election of an idle coordinator ends well: it does not abort; if
    the local replica does not tell its promise the proposal stays as it is,
    otherwise it runs with a proposal above its last one and above that
    promise, a lost, failed or discarded election leaves it idle with a
    proposal at least as high, and a won one leaves it elected at the position
    after the highest end over a quorum of grants, after the catch-up of the
    positions up to there that the local replica misses was successful. *)
Theorem election_outcome quorum last promising missing_ catchup c :
  c_state c = INITIAL -> (0 < quorum)%nat -> 0 <= c_proposal c ->
  (forall promised, last = Ready promised ->
     Z.max (c_proposal c) promised < UINT64_MAX /\ Forall (rejects_higher (next_proposal promised c)) (responses promising)) ->
  Forall answers_implicit (responses promising) ->
  exists c' f, election quorum last promising missing_ catchup c = Ok (c', f)
  /\ match last with
     | Ready promised =>
         c_proposal c < c_proposal c' /\ promised < c_proposal c'
         /\ election_result quorum promised promising missing_ catchup c c' f
     | Pending => c' = to_state ELECTING c /\ f = Pending
     | Failed => c' = c /\ f = Failed
     | Discarded => c' = c /\ f = Discarded
     end.
Proof.
  intros Hst Hq H0 Hlast Ha. unfold election, elect. rewrite Hst. cbn [fst].
  assert (Hid : to_state INITIAL (to_state ELECTING c) = c) by (destruct c; cbn in *; by subst).
  destruct last as [| | |promised]; cbn [electing_then];
    [by eexists _, _|unfold electing_callback, electingFailed, electingAborted; rewrite bool_decide_eq_true_2 by done;
       cbn [result_bind]; rewrite Hid; by eexists _, _..|].
  destruct (Hlast promised eq_refl) as [Hmax Hrej]. clear Hlast.
  unfold updateProposal, to_state. cbn [c_state c_proposal c_index].
  fold (next_proposal promised c). assert (Hu : u64 (next_proposal promised c) = next_proposal promised c).
  { apply u64_id. unfold is_u64, next_proposal. lia. }
  rewrite Hu. set (n := next_proposal promised c) in *.
  assert (Hn : c_proposal c < n /\ promised < n) by (unfold n, next_proposal; lia).
  destruct promising as [| | |resps]; cbn [responses electing_then] in *;
    [do 2 eexists; (split; [done|]); cbn; by destruct Hn..|].
  assert (Hph : exists x, implicit_phase quorum resps = Ok x).
  { assert (Ht : is_ok (implicit_phase quorum resps) = true).
    { eapply run_phase_total; [by apply implicit_phase_step| |by apply implicit_open_init|exact Ha].
      intros seen s m (Hs & _) Hm. assert (H := implicit_received_spec quorum seen s m Hq Hs).
      by destruct (implicit_received quorum m s). }
    destruct (implicit_phase quorum resps); [eauto|done]. }
  destruct Hph as [[s|resp] E]; rewrite E; cbn [result_bind].
  { do 2 eexists. split; [done|]. cbn. by destruct Hn. }
  destruct (implicit_phase_done quorum resps resp Hq E) as (used & rest & -> & Hr).
  apply Forall_prefix in Hrej.
  destruct Hr as [|h Hv Hk|e Hv Hk He].
  - do 2 eexists. split; [done|]. cbn. by destruct Hn.
  - assert (Hle := nack_higher _ _ _ Hrej Hk).
    unfold checkPromisePhase. cbn [pr_type rejected_promise pr_proposal c_proposal].
    replace (h <? n) with false by lia. cbn. do 2 eexists. split; [done|]. cbn. split_and!; [lia..|done].
  - unfold checkPromisePhase. cbn. unfold getMissingPositions. cbn.
    destruct (missing_ 0 e) as [| | |positions] eqn:Em; cbn; [do 2 eexists; (split; [done|]); cbn; by destruct Hn..|].
    destruct (catchup _) as [| | |[]] eqn:Ec; cbn; do 2 eexists; (split; [done|]); cbn;
      split_and!; try done; try lia; [by exists used, rest|]. by exists positions.
Qed.

Lemma election_outcome_witness :
  let resps := [promise_accept 1 (Some 4) None; promise_accept 1 (Some 6) None] in
  let missing_ := fun from to => Ready (missing_range (restore empty_storage) from to) in
  let catchup := fun _ => Ready tt in
  exists c' f, election 2 (Ready 0) (Ready resps) missing_ catchup coordinator_init = Ok (c', f)
  /\ c_proposal coordinator_init < c_proposal c' /\ 0 < c_proposal c'
  /\ election_result 2 0 (Ready resps) missing_ catchup coordinator_init c' f.
Proof.
  intros resps missing_ catchup.
  apply (election_outcome 2 (Ready 0) (Ready resps) missing_ catchup coordinator_init);
    [reflexivity|lia|reflexivity|..]; unfold responses, resps.
  - intros promised [= <-]. split; [reflexivity|]. do 2 (apply List.Forall_cons; [discriminate|]). apply List.Forall_nil.
  - do 2 (apply List.Forall_cons; [right; right; eexists; reflexivity|]). apply List.Forall_nil.
Defined.

(** ** Writes *)

(** The actions a coordinator submits: at its index, with its proposal. *)
Definition submits (mk : Coordinator -> Action) : Prop :=
  forall c, position (mk c) = c_index c /\ entry (mk c) <> None.

Lemma append_submits bytes : submits (append_action bytes).
Proof. by intros c. Qed.

Lemma truncate_submits to : submits (truncate_action to).
Proof. by intros c. Qed.

#[export] Hint Resolve append_submits truncate_submits : clusterd.

(** What a whole append or truncate of an elected coordinator ends with. *)
Definition write_outcome_of (quorum : nat) (env : write_env) (c c' : Coordinator)
    (f : future (option Z)) : Prop :=
  match f with
  | Pending => c' = to_state WRITING c
  | Failed => c' = to_state INITIAL c /\ (we_writing env = Failed \/ we_learning env = Failed)
  | Discarded =>
      c' = to_state INITIAL c /\ (we_writing env = Discarded \/ we_learning env = Discarded)
  | Ready None =>
      c_state c' = ELECTED /\ c_index c' = c_index c /\ c_proposal c <= c_proposal c'
      /\ exists used rest h, we_writing env = Ready (used ++ rest)
           /\ highest_nack used (Some h) /\ c_proposal c' = h
  | Ready (Some p) =>
      p = c_index c /\ c_index c' = u64 (c_index c + 1)
      /\ c_state c' = ELECTED /\ c_proposal c' = c_proposal c
      /\ exists used rest, we_writing env = Ready (used ++ rest)
           /\ (quorum <= length (votes used))%nat /\ highest_nack used None
  end.

Lemma write_phase_total quorum pos resps :
  (0 < quorum)%nat -> Forall (fun r => wr_position r = pos) resps ->
  exists x, write_phase quorum pos resps = Ok x.
Proof.
  intros Hq Hpos. assert (Ht : is_ok (write_phase quorum pos resps) = true).
  { eapply run_phase_total; [apply write_phase_step| |by apply write_open_init|exact Hpos].
    intros seen s m _ Hm. cbn in Hm. unfold write_received. rewrite Hm, Z.eqb_refl.
    cbn [negb]. by destruct (isIgnoredWrite m). }
  destruct (write_phase quorum pos resps); [eauto|done].
Qed.

(** The two ways in which a write aborts the coordinator: a quorum of the
    replicas ignores it, or the local replica still misses the position after
    the write was accepted and broadcast. *)
Definition write_aborts (quorum : nat) (env : write_env) (c : Coordinator) : Prop :=
  exists used rest, we_writing env = Ready (used ++ rest)
    /\ ((quorum <= length (ignores used))%nat
        \/ (quorum <= length (votes used))%nat /\ highest_nack used None /\ we_learning env = Ready tt
           /\ missing (we_local env) (c_index c) = true).

(** C12. An append or truncate of an elected coordinator, with responses as
    replicas send them: it aborts only if a quorum ignores the write or the
    local replica still misses the position after an accepted write was
    broadcast.  Otherwise it is all or nothing: when a quorum accepts and the
    local replica has the position, it returns the index the coordinator wrote
    at and moves to the next one; when a replica in the quorum rejects, it returns
    none, keeps the index and takes over the highest proposal it was told;
    when the write or the broadcast fails or is discarded, the coordinator has
    to be elected again; and until then it is busy. *)
Theorem perform_outcome quorum mk env c :
  submits mk -> c_state c = ELECTED -> 0 < c_proposal c -> (0 < quorum)%nat ->
  Forall (fun r => wr_position r = c_index c) (responses (we_writing env)) ->
  Forall (rejects_higher (c_proposal c)) (responses (we_writing env)) ->
  match perform quorum mk env c with
  | Ok (c', f) =>
      write_outcome_of quorum env c c' f
      /\ (forall p, f = Ready (Some p) -> missing (we_local env) (c_index c) = false)
  | Err _ => write_aborts quorum env c
  end.
Proof.
  intros Hmk Hst H0 Hq Hpos Hrej. destruct (Hmk c) as [Hp He].
  unfold perform, submit, start_write. rewrite Hst. rewrite bool_decide_eq_true_2 by done.
  cbn [negb]. unfold write_watched. destruct (entry (mk c)) as [e|]; [|done].
  cbn [result_bind fst snd]. unfold finish_write.
  destruct env as [[| | |resps] learning local]; cbn [we_writing we_learning we_local responses] in *;
    [cbn; (split; [cbn; auto|done])..|].
  rewrite Hp. destruct (write_phase_total quorum (c_index c) resps Hq Hpos) as [[s|resp] E];
    rewrite E; cbn [result_bind]; [by split|].
  destruct (write_phase_done quorum (c_index c) resps resp Hq E) as (used & rest & -> & Hr).
  apply Forall_prefix in Hrej. destruct Hr as [Hi|h Hv Hk|Hv Hk].
  - unfold checkWritePhase. cbn. rewrite (proj2 (Z.ltb_lt 0 (c_proposal c))) by done. cbn. exists used, rest. split; [done|by left].
  - assert (Hle := nack_higher _ _ _ Hrej Hk).
    unfold checkWritePhase. cbn [wr_okay rejected_write wr_proposal c_proposal to_state negb].
    replace (h <? c_proposal c) with false by lia. cbn. split; [|done].
    split_and!; [done..|]. exists used, rest, h. done.
  - unfold checkWritePhase, checkLearnPhase. cbn. rewrite Hp.
    destruct learning as [| | |[]]; cbn; [(split; [cbn; auto|done])..|]. destruct (missing local (c_index c)) eqn:Em; cbn.
    + exists used, rest. split; [done|by right].
    + split; [|done]. split_and!; try done. by exists used, rest.
Qed.

(** The local replica once the append at position 1 is learned. *)
Definition sample_local : Replica :=
  match learned_ healthy (mkAction 1 1 (Some 1) (Some true) (Some (APPEND "a"))) (restore empty_storage) with
  | Ok r => r
  | Err _ => restore empty_storage
  end.

Lemma perform_outcome_witness :
  let c := mkCoordinator ELECTED 1 1 in
  let resps := [write_reply ACCEPT 1 1; write_reply ACCEPT 1 1] in
  let env := mkEnv (Ready resps) (Ready tt) sample_local in
  match perform 2 (append_action "a") env c with
  | Ok (c', f) =>
      write_outcome_of 2 env c c' f
      /\ (forall p, f = Ready (Some p) -> missing (we_local env) (c_index c) = false)
  | Err _ => write_aborts 2 env c
  end.
Proof.
  intros c resps env. apply (perform_outcome 2 (append_action "a") env c).
  - apply append_submits.
  - reflexivity.
  - reflexivity.
  - lia.
  - do 2 (apply List.Forall_cons; [reflexivity|]). apply List.Forall_nil.
  - do 2 (apply List.Forall_cons; [discriminate|]). apply List.Forall_nil.
Defined.

(** A successful write, whatever the responses were. *)
Lemma perform_ready quorum mk env c c' p :
  submits mk -> perform quorum mk env c = Ok (c', Ready (Some p)) ->
  p = c_index c /\ c' = mkCoordinator ELECTED (c_proposal c) (u64 (c_index c + 1)).
Proof.
  intros Hmk H. destruct (Hmk c) as [Hp _]. unfold perform, submit, start_write in H.
  destruct (c_state c) eqn:Hst; cbn in H; try discriminate.
  rewrite bool_decide_eq_true_2 in H by done.
  destruct (write_watched _ _); cbn in H; [|discriminate].
  unfold finish_write in H. destruct (we_writing env); cbn in H; try discriminate.
  destruct (write_phase _ _ _) as [[]|]; cbn in H; try discriminate.
  unfold checkWritePhase in H. destruct (wr_okay _); cbn in H.
  - destruct (we_learning env); cbn in H; try discriminate.
    unfold checkLearnPhase in H. destruct (missing _ _); cbn in H; [discriminate|].
    unfold writingFinished in H. cbn in H. rewrite bool_decide_eq_true_2 in H by done. cbn in H. by simplify_eq.
  - destruct (_ <? _); cbn in H; discriminate.
Qed.

(** A sequence of writes, each with what it meets. *)
Fixpoint perform_all (quorum : nat)
    (ws : list ((Coordinator -> Action) * write_env)) (c : Coordinator)
  : result abort (Coordinator * list (future (option Z))) :=
  match ws with
  | [] => Ok (c, [])
  | (mk, env) :: ws' =>
      let? first := perform quorum mk env c in
      let? rest := perform_all quorum ws' first.1 in
      Ok (rest.1, first.2 :: rest.2)
  end.

(** The writes of one coordinator fill the log without gaps: a run of
    successful appends and truncates returns consecutive positions starting at
    the index, in order, and leaves the index after the last of them. *)
Theorem writes_consecutive quorum ws c c' ps :
  Forall (fun w => submits w.1) ws -> c_state c = ELECTED -> 0 <= c_index c ->
  c_index c + Z.of_nat (length ws) <= UINT64_MAX ->
  perform_all quorum ws c = Ok (c', map (fun p => Ready (Some p)) ps) ->
  ps = seqZ (c_index c) (Z.of_nat (length ws))
  /\ c' = mkCoordinator ELECTED (c_proposal c) (c_index c + Z.of_nat (length ws)).
Proof.
  intros Hws. revert c ps. induction Hws as [|[mk env] ws Hmk _ IH]; intros c ps Hst H0 Hb H.
  - cbn in H. destruct ps; [|done]. injection H as <-. split; [done|].
    cbn. rewrite Z.add_0_r, <- Hst. by destruct c.
  - cbn [perform_all] in H.
    destruct (perform quorum mk env c) as [[c1 f]|] eqn:E; cbn in H; [|done].
    destruct (perform_all quorum ws c1) as [[c2 fs]|] eqn:E2; cbn in H; [|done].
    destruct ps as [|p ps]; [done|]. cbn in H. injection H as -> -> ->.
    destruct (perform_ready _ _ _ _ _ _ Hmk E) as [-> ->].
    cbn [length] in *. unfold UINT64_MAX in *.
    rewrite u64_id in * by (unfold is_u64, UINT64_MAX; lia).
    destruct (IH (mkCoordinator ELECTED (c_proposal c) (c_index c + 1)) ps) as [-> ->];
      cbn [c_state c_index] in *; [done|lia|lia|exact E2|].
    cbn [c_proposal]. rewrite Nat2Z.inj_succ, (seqZ_cons (c_index c)) by lia.
    split; [do 2 f_equal; lia|f_equal; lia].
Qed.

Definition sample_local2 : Replica :=
  match learned_ healthy (mkAction 2 1 (Some 1) (Some true) (Some (TRUNCATE 1))) sample_local with
  | Ok r => r
  | Err _ => sample_local
  end.

Lemma writes_consecutive_witness :
  let c := mkCoordinator ELECTED 1 1 in
  [1; 2] = seqZ (c_index c) (Z.of_nat 2)
  /\ mkCoordinator ELECTED 1 3 = mkCoordinator ELECTED (c_proposal c) (c_index c + Z.of_nat 2).
Proof.
  intros c. apply (writes_consecutive 1
    [(append_action "a", mkEnv (Ready [write_reply ACCEPT 1 1]) (Ready tt) sample_local);
     (truncate_action 1, mkEnv (Ready [write_reply ACCEPT 1 2]) (Ready tt) sample_local2)] c).
  - apply List.Forall_cons; [apply append_submits|].
    apply List.Forall_cons; [apply truncate_submits|apply List.Forall_nil].
  - reflexivity.
  - unfold c; cbn; lia.
  - vm_compute. discriminate.
  - vm_compute. reflexivity.
Defined.

(** ** Where the code departs from its intent *)

(** A rejected write does not demote the coordinator: the append returns
    none, which [coordinator.hpp] documents as a demotion, yet the coordinator
    stays elected and its next append goes out with the proposal that was
    promised to its rival. *)
Theorem rejected_coordinator_stays_elected :
  let c := mkCoordinator ELECTED 1 1 in
  let resps := [write_reply REJECT 2 1; write_reply REJECT 2 1] in
  let c' := mkCoordinator ELECTED 2 1 in
  perform 2 (append_action "a") (mkEnv (Ready resps) (Ready tt) (restore empty_storage)) c = Ok (c', Ready None)
  /\ (exists a, append "a" c' = Ok (to_state WRITING c', inr (a, mkWriteRequest 2 1 None (APPEND "a"))))
  /\ elect c' = (c', Ready (Some 0)).
Proof. cbn. split_and!; [reflexivity|eexists; reflexivity|reflexivity]. Qed.

(** A write that a quorum of replicas ignores aborts the coordinator: the
    result has no proposal and the [CHECK_LE] on it fails. *)
Theorem ignored_write_aborts_coordinator :
  perform 2 (append_action "a")
    (mkEnv (Ready [write_reply IGNORED 1 1; write_reply IGNORED 1 1]) (Ready tt)
       (restore empty_storage)) (mkCoordinator ELECTED 1 1) = Err CheckFailed.
Proof. reflexivity. Qed.
