(* ===== verification/Paxos.v ===== *)
(** * Agreement

    The replicas of [Replica.v] and the proposers of [Consensus.v] and
    [Coordinator.v] as one distributed system: every message may be delayed,
    reordered or lost, replicas fail to write, crash and restart.  The system
    keeps every reply that was sent, so that the steps can ask for replies in
    any order, and the theorems can speak about what a quorum accepted.

    The handlers are the modelled ones, and a coordinator runs the operations
    of [Coordinator.v].  The code leaves three things to chance or to its
    user, which [Assumptions] can exclude: a write may reach a replica after a
    newer one, a learned message may take back a truncation, and a coordinator
    may go on writing after a rejection.  [delayed_write_breaks_agreement] and
    [retry_after_rejection_breaks_agreement] show runs without the first and
    without the last. *)

From stdpp Require Import base gmap strings list relations functions fin_sets.
From S2P Require Import Prelude Strings Storage Replica ReplicaSafety Consensus Coordinator.
Local Open Scope Z_scope.

(** ** The system *)

(** A proposer's attempt is one promise phase; [wreply] records the request a
    replica answered with it. *)
Record preply := mkPreply { p_attempt : nat; p_from : nat; p_resp : PromiseResponse }.
Record wreply := mkWreply {
  w_attempt : nat; w_from : nat; w_req : WriteRequest; w_resp : WriteResponse }.
Record issue := mkIssue { i_attempt : nat; i_req : WriteRequest }.

Record System := mkSystem {
  reps : nat -> Replica;
  attempts : gmap nat PromiseRequest;
  preplies : list preply;
  issued : list issue;
  wreplies : list wreply;
  learns : list Action;
  coords : gmap nat (Coordinator * option (Action * WriteRequest));
}.

Definition system_init : System := mkSystem (fun _ => initial) ∅ [] [] [] [] ∅.

(** What is assumed of the network and of the users of coordinators. *)
Record Assumptions := mkAssumptions {
  writes_in_order : bool;
  learns_agree : bool;
  stops_when_rejected : bool;
}.

Definition orderly : Assumptions := mkAssumptions true true true.

Section System.
Context (members : gset nat) (quorum : nat).

(** The replies of distinct replicas to one attempt, in some order. *)
Definition replies_to (s : System) (rid : nat) (l : list preply) : Prop :=
  NoDup (map p_from l) /\ Forall (fun x => x ∈ preplies s /\ p_attempt x = rid) l.

Definition write_replies_to (s : System) (rid : nat) (req : WriteRequest) (l : list wreply) : Prop :=
  NoDup (map w_from l)
  /\ Forall (fun x => x ∈ wreplies s /\ w_attempt x = rid /\ w_req x = req) l.

(** The write is not older than what the replica has performed there. *)
Definition not_older (req : WriteRequest) (r : Replica) : Prop :=
  forall a m, stored r (wreq_position req) = Some a -> performed a = Some m -> m <= wreq_proposal req.

Definition set_rep (i : nat) (r : Replica) (s : System) : System :=
  mkSystem (<[i := r]> (reps s)) (attempts s) (preplies s) (issued s) (wreplies s) (learns s) (coords s).

Definition add_issue (x : issue) (s : System) : System :=
  mkSystem (reps s) (attempts s) (preplies s) (x :: issued s) (wreplies s) (learns s) (coords s).

Definition add_learn (a : Action) (s : System) : System :=
  mkSystem (reps s) (attempts s) (preplies s) (issued s) (wreplies s) (a :: learns s) (coords s).

Definition add_preply (rid i : nat) (resp : option PromiseResponse) (s : System) : System :=
  mkSystem (reps s) (attempts s)
    (match resp with Some x => mkPreply rid i x :: preplies s | None => preplies s end)
    (issued s) (wreplies s) (learns s) (coords s).

Definition add_wreply (rid i : nat) (req : WriteRequest) (resp : option WriteResponse)
    (s : System) : System :=
  mkSystem (reps s) (attempts s) (preplies s) (issued s)
    (match resp with Some x => mkWreply rid i req x :: wreplies s | None => wreplies s end)
    (learns s) (coords s).

Definition add_attempt (rid : nat) (req : PromiseRequest) (s : System) : System :=
  mkSystem (reps s) (<[rid := req]> (attempts s)) (preplies s) (issued s) (wreplies s) (learns s) (coords s).

Definition set_coord (rid : nat) (c : Coordinator * option (Action * WriteRequest)) (s : System) : System :=
  mkSystem (reps s) (attempts s) (preplies s) (issued s) (wreplies s) (learns s) (<[rid := c]> (coords s)).

(** The attempt won an election with proposal [n], told that the log ends at [e]. *)
Definition elected_with (s : System) (rid : nat) (n e : Z) : Prop :=
  exists l resp, attempts s !! rid = Some (mkPromiseRequest n None) /\ replies_to s rid l
    /\ implicit_phase quorum (map p_resp l) = Ok (Done resp) /\ pr_type resp = Some ACCEPT /\ pr_position resp = Some e.

Inductive step (asm : Assumptions) (s : System) : System -> Prop :=
  (* A proposer starts a promise phase. *)
  | st_attempt rid req :
      attempts s !! rid = None -> valid_promise req ->
      step asm s (add_attempt rid req s)
  (* A replica handles a promise request. *)
  | st_promise rid i req d r' resp :
      i ∈ members -> attempts s !! rid = Some req -> promise d req (reps s i) = Ok (r', resp) ->
      step asm s (add_preply rid i resp (set_rep i r' s))
  (* A fill process that finished its promise phase writes. *)
  | st_fill_write rid n p l resp a req :
      attempts s !! rid = Some (mkPromiseRequest n (Some p)) -> replies_to s rid l ->
      explicit_phase quorum n p (map p_resp l) = Ok (Done resp) ->
      fill_checkPromisePhase (Some resp) (fill_init n p) = Ok (mkFill p n (WritePhase a req)) ->
      Forall (fun x => i_attempt x <> rid) (issued s) ->
      step asm s (add_issue (mkIssue rid req) s)
  (* A fill process that was told a learned action relays it. *)
  | st_fill_learn rid n p l resp a :
      attempts s !! rid = Some (mkPromiseRequest n (Some p)) -> replies_to s rid l ->
      explicit_phase quorum n p (map p_resp l) = Ok (Done resp) ->
      fill_checkPromisePhase (Some resp) (fill_init n p) = Ok (mkFill p n (LearnPhase a)) ->
      step asm s (add_learn (learn a) s)
  (* A coordinator that won its promise phase, with a proposal that it has
     incremented, and whose catch-up is done, becomes elected. *)
  | st_elected rid n l resp i0 c1 c2 pos c f :
      0 < n -> attempts s !! rid = Some (mkPromiseRequest n None) -> replies_to s rid l ->
      implicit_phase quorum (map p_resp l) = Ok (Done resp) ->
      checkPromisePhase resp (mkCoordinator ELECTING n i0) = Ok (c1, true) ->
      updateIndexAfterElected c1 = (c2, pos) -> electing_callback (Ready pos) c2 = Ok (c, f) ->
      coords s !! rid = None ->
      step asm s (set_coord rid (c, None) s)
  (* A coordinator submits an append or a truncation.  One that has met a
     rejection runs with another proposal than the one it was elected with. *)
  | st_submit rid n e c w mk c' a req :
      elected_with s rid n e -> coords s !! rid = Some (c, w) ->
      ((exists bytes, mk = append_action bytes) \/ exists to, mk = truncate_action to) ->
      submit mk c = Ok (c', inr (a, req)) -> valid_write req ->
      (stops_when_rejected asm = true -> c_proposal c = n) ->
      step asm s (add_issue (mkIssue rid req) (set_coord rid (c', Some (a, req)) s))
  (* Its write ends: with the responses of the replicas, or by a failure or a
     discard of the write or of the broadcast of what was learned. *)
  | st_finish rid c a req l writing learning i c' f :
      coords s !! rid = Some (c, Some (a, req)) ->
      (forall resps, writing = Ready resps -> resps = map w_resp l /\ write_replies_to s rid req l) ->
      (learning = Ready tt -> learn a ∈ learns s) ->
      finish_write quorum a (mkEnv writing learning (reps s i)) c = Ok (c', f) -> f <> Pending ->
      step asm s (set_coord rid (c', None) s)
  | st_demote rid c w :
      coords s !! rid = Some (c, w) -> c_state c = ELECTED ->
      step asm s (set_coord rid ((demote c).1, None) s)
  (* A replica handles a write request. *)
  | st_write x i d r' resp :
      i ∈ members -> x ∈ issued s -> (writes_in_order asm = true -> not_older (i_req x) (reps s i)) ->
      write d (i_req x) (reps s i) = Ok (r', resp) ->
      step asm s (add_wreply (i_attempt x) i (i_req x) resp (set_rep i r' s))
  (* A proposer whose write phase succeeded broadcasts the learned action. *)
  | st_learn x l a :
      x ∈ issued s -> write_replies_to s (i_attempt x) (i_req x) l ->
      write_phase quorum (wreq_position (i_req x)) (map w_resp l) = Ok (Done accepted_write) ->
      position a = wreq_position (i_req x) -> entry a = Some (wreq_entry (i_req x)) ->
      step asm s (add_learn (learn a) s)
  (* A replica handles a learned message. *)
  | st_learned i a d r' :
      a ∈ learns s -> (learns_agree asm = true -> agrees a (reps s i)) -> learned_ d a (reps s i) = Ok r' ->
      step asm s (set_rep i r' s)
  | st_update i d st r' :
      update d st (reps s i) = Some r' -> step asm s (set_rep i r' s)
  | st_restart i : step asm s (set_rep i (restore (storage (reps s i))) s).

(** A replica has accepted the write of an attempt, and a quorum has. *)
Definition accepts (resp : WriteResponse) : Prop :=
  isIgnoredWrite resp = false /\ isRejectedWrite resp = false.

Definition accepted (s : System) (i : nat) (x : issue) : Prop :=
  exists resp, mkWreply (i_attempt x) i (i_req x) resp ∈ wreplies s /\ accepts resp.

Definition chosen (s : System) (x : issue) : Prop :=
  exists Q : gset nat, Q ⊆ members /\ (quorum <= size Q)%nat /\ forall i, i ∈ Q -> accepted s i x.

(** ** The invariant *)

(** A reply that grants position [p], with the action it reports there. *)
Definition grants (req : PromiseRequest) (resp : PromiseResponse) (p : Z) (rep : option Action)
  : Prop :=
  isIgnoredPromise resp = false
  /\ match preq_position req with
     | Some q => p = q /\ granted (preq_proposal req) q resp /\ rep = pr_action resp
     | None => isRejectedPromise resp = false /\ rep = None
               /\ exists e, pr_position resp = Some e /\ e < p
     end.

(** [l] holds a write of [m] at [p] with entry [e]. *)
Definition written_in (l : list issue) (p m : Z) (e : option Entry) : Prop :=
  exists x, x ∈ l /\ wreq_position (i_req x) = p /\ wreq_proposal (i_req x) = m
            /\ e = Some (wreq_entry (i_req x)).

(** The write [x] was issued after [l], backed by a quorum of grants whose
    reports are all in [l], with the entry of the highest of them. *)
Definition backed (s : System) (x : issue) (l : list issue) : Prop :=
  exists (Q : gset nat) req,
    attempts s !! i_attempt x = Some req
    /\ preq_proposal req = wreq_proposal (i_req x)
    /\ Q ⊆ members /\ (quorum <= size Q)%nat
    /\ (forall i, i ∈ Q -> exists resp rep,
          mkPreply (i_attempt x) i resp ∈ preplies s
          /\ grants req resp (wreq_position (i_req x)) rep
          /\ forall a m, rep = Some a -> performed a = Some m ->
               exists m', m <= m'
                 /\ written_in l (wreq_position (i_req x)) m' (Some (wreq_entry (i_req x)))).

(** Every write of the list is backed by what was issued before it. *)
Fixpoint all_backed (s : System) (l : list issue) : Prop :=
  match l with
  | [] => True
  | x :: l' => backed s x l' /\ all_backed s l'
  end.

(** The replica still knows of the accepted write [x]. *)
Definition remembers (x : issue) (r : Replica) : Prop :=
  wreq_position (i_req x) < begin r \/ learned_at r (wreq_position (i_req x))
  \/ exists a m, stored r (wreq_position (i_req x)) = Some a /\ performed a = Some m
                 /\ wreq_proposal (i_req x) <= m.

(** A learned action: a tombstone, or what was chosen at its position. *)
Definition learned_ok (s : System) (a : Action) : Prop :=
  valid_action a
  /\ (is_tombstone (entry a) = true
      \/ exists x, chosen s x /\ wreq_position (i_req x) = position a
                   /\ entry a = Some (wreq_entry (i_req x))).

Record invariant (s : System) : Prop := {
  inv_wf : forall i, wf_replica (reps s i);
  inv_attempts : forall rid req, attempts s !! rid = Some req -> valid_promise req;
  inv_preplies : forall x, x ∈ preplies s -> p_from x ∈ members /\ is_Some (attempts s !! p_attempt x);
  inv_issued : forall x, x ∈ issued s ->
    valid_write (i_req x) /\ wreq_learned (i_req x) = None
    /\ copy_entry (wreq_entry (i_req x)) = wreq_entry (i_req x);
  inv_unique : forall x y, x ∈ issued s -> y ∈ issued s -> i_attempt x = i_attempt y ->
    wreq_position (i_req x) = wreq_position (i_req y) -> x = y;
  inv_accepted : forall x i, accepted s i x -> x ∈ issued s;
  inv_kept : forall x req p rep, x ∈ preplies s -> attempts s !! p_attempt x = Some req ->
    grants req (p_resp x) p rep -> kept (preq_proposal req) p (reps s (p_from x));
  inv_remembers : forall x i, accepted s i x -> remembers x (reps s i);
  inv_reported : forall x req y rep, x ∈ preplies s -> attempts s !! p_attempt x = Some req ->
    accepted s (p_from x) y -> grants req (p_resp x) (wreq_position (i_req y)) rep ->
    wreq_proposal (i_req y) < preq_proposal req ->
    exists a m, rep = Some a /\ performed a = Some m /\ wreq_proposal (i_req y) <= m;
  inv_stored : forall i p a m, stored (reps s i) p = Some a -> is_learned a = false ->
    performed a = Some m -> written_in (issued s) p m (entry a);
  inv_report_issued : forall x req p a m, x ∈ preplies s -> attempts s !! p_attempt x = Some req ->
    grants req (p_resp x) p (Some a) -> performed a = Some m ->
    written_in (issued s) p m (entry a);
  inv_one_grant : forall x y qx qy p ax ay, x ∈ preplies s -> y ∈ preplies s ->
    p_from x = p_from y ->
    attempts s !! p_attempt x = Some qx -> attempts s !! p_attempt y = Some qy ->
    grants qx (p_resp x) p ax -> grants qy (p_resp y) p ay ->
    preq_proposal qx = preq_proposal qy -> p_attempt x = p_attempt y;
  inv_backed : all_backed s (issued s);
  inv_learned : forall i p a, stored (reps s i) p = Some a -> is_learned a = true -> learned_ok s a;
  inv_reply_learned : forall x a, x ∈ preplies s -> pr_action (p_resp x) = Some a ->
    is_learned a = true -> learned_ok s a;
  inv_learns : forall a, a ∈ learns s -> is_learned a = true /\ learned_ok s a;
}.

(** ** Quorums *)

Hypothesis majority : (size members < 2 * quorum)%nat.

Lemma quorums_meet (A B : gset nat) :
  A ⊆ members -> B ⊆ members -> (quorum <= size A)%nat -> (quorum <= size B)%nat ->
  exists i, i ∈ A /\ i ∈ B.
Proof.
  intros HA HB Hqa Hqb. destruct (decide (A ∩ B = ∅)) as [He|Hne].
  - exfalso. assert (Hd : A ## B) by set_solver.
    assert (Hs := size_union A B Hd).
    assert (Hm : (size (A ∪ B) <= size members)%nat) by (apply subseteq_size; set_solver). lia.
  - apply set_choose_L in Hne as [i Hi]. exists i. set_solver.
Qed.

(** *** Agreement from the invariant *)

Lemma all_backed_app s l1 l2 : all_backed s (l1 ++ l2) -> all_backed s l2.
Proof. induction l1 as [|x l1 IH]; [done|]. cbn. intros [_ H]. auto. Qed.

Lemma backed_of s x : invariant s -> x ∈ issued s -> exists l, backed s x l.
Proof.
  intros Hinv Hx. apply list_elem_of_split in Hx as (l1 & l2 & E).
  assert (H := inv_backed s Hinv). rewrite E in H. apply all_backed_app in H as [H _]. eauto.
Qed.

(** Two writes with one proposal at one position are the same write. *)
Lemma one_write_per_proposal s x y :
  invariant s -> x ∈ issued s -> y ∈ issued s ->
  wreq_position (i_req x) = wreq_position (i_req y) ->
  wreq_proposal (i_req x) = wreq_proposal (i_req y) -> x = y.
Proof.
  intros Hinv Hx Hy Hp Hn.
  destruct (backed_of s x Hinv Hx) as (lx & Qx & rx & Ax & Px & Mx & Sx & Gx).
  destruct (backed_of s y Hinv Hy) as (ly & Qy & ry & Ay & Py & My & Sy & Gy).
  destruct (quorums_meet Qx Qy Mx My Sx Sy) as (i & Hix & Hiy).
  destruct (Gx i Hix) as (ax & px & Ix & Grx & _), (Gy i Hiy) as (ay & py & Iy & Gry & _).
  apply (inv_unique s Hinv); [done..| |done].
  rewrite <- Hp in Gry.
  by apply (inv_one_grant s Hinv _ _ _ _ _ _ _ Ix Iy eq_refl Ax Ay Grx Gry); cbn; congruence.
Qed.

(** A write issued with a proposal at least as high as that of a chosen one
    has its entry. *)
Lemma issued_after_chosen s c l1 l2 :
  invariant s -> chosen s c -> issued s = l1 ++ l2 ->
  forall x, x ∈ l2 -> wreq_position (i_req x) = wreq_position (i_req c) ->
  wreq_proposal (i_req c) <= wreq_proposal (i_req x) ->
  wreq_entry (i_req x) = wreq_entry (i_req c).
Proof.
  intros Hinv Hc. revert l1. induction l2 as [|y l2 IH]; intros l1 E x Hx Hp Hle.
  { by apply not_elem_of_nil in Hx. }
  apply elem_of_cons in Hx as [->|Hx].
  2: { apply (IH (l1 ++ [y])); [by rewrite <- app_assoc|done..]. }
  destruct Hc as (Qc & Mc & Sc & Gc).
  assert (Hall := inv_backed s Hinv). rewrite E in Hall. apply all_backed_app in Hall as [Hb _].
  destruct Hb as (Q & req & Aq & Pq & Mq & Sq & Gq).
  destruct (quorums_meet Q Qc Mq Mc Sq Sc) as (i & Hi & Hic).
  assert (Hcin : c ∈ issued s) by (eapply inv_accepted, Gc; done).
  destruct (decide (wreq_proposal (i_req c) = wreq_proposal (i_req y))) as [Heq|Hne].
  { f_equal. f_equal. eapply one_write_per_proposal; try done. rewrite E. set_solver. }
  destruct (Gq i Hi) as (resp & rep & Hin & Hg & Hrep).
  rewrite Hp in Hg.
  destruct (inv_reported s Hinv (mkPreply (i_attempt y) i resp) req c rep Hin Aq (Gc i Hic) Hg)
    as (a & m & -> & Hm & Hcm); [lia|].
  destruct (Hrep a m eq_refl Hm) as (m' & Hm' & z & Hz & Hzp & Hzm & Hze).
  injection Hze as Hze. rewrite Hze.
  apply (IH (l1 ++ [y])); [by rewrite <- app_assoc|done|congruence|lia].
Qed.

Lemma chosen_issued s x : (0 < quorum)%nat -> invariant s -> chosen s x -> x ∈ issued s.
Proof.
  intros Hq Hinv (Q & _ & HQ & Hacc). destruct (decide (Q = ∅)) as [->|Hne].
  { rewrite size_empty in HQ. lia. }
  apply set_choose_L in Hne as [i Hi]. by eapply inv_accepted, Hacc.
Qed.

Lemma invariant_agreement s x y :
  invariant s -> chosen s x -> chosen s y ->
  wreq_position (i_req x) = wreq_position (i_req y) ->
  wreq_entry (i_req x) = wreq_entry (i_req y).
Proof.
  intros Hinv Hx Hy Hp. assert (Hq : (0 < quorum)%nat) by lia.
  assert (Ix := chosen_issued s x Hq Hinv Hx). assert (Iy := chosen_issued s y Hq Hinv Hy).
  destruct (Z.le_ge_cases (wreq_proposal (i_req x)) (wreq_proposal (i_req y))).
  - symmetry. by apply (issued_after_chosen s x [] (issued s)).
  - by apply (issued_after_chosen s y [] (issued s)).
Qed.

(** ** The invariant is preserved

    One lemma per kind of change: to a replica, to each of the lists. *)

Lemma chosen_same s s' x : wreplies s' = wreplies s -> chosen s x -> chosen s' x.
Proof. unfold chosen, accepted. by intros ->. Qed.

Lemma learned_ok_same s s' a : wreplies s' = wreplies s -> learned_ok s a -> learned_ok s' a.
Proof.
  intros E [Hv [H|(x & Hx & H)]]; split; auto. right. exists x. split; [|done].
  by eapply chosen_same.
Qed.

Lemma all_backed_same s s' l :
  (forall rid req, attempts s !! rid = Some req -> attempts s' !! rid = Some req) ->
  (forall x, x ∈ preplies s -> x ∈ preplies s') ->
  all_backed s l -> all_backed s' l.
Proof.
  intros Ha Hp. induction l as [|x l IH]; [done|]. cbn. intros [Hb Hl]. split; [|auto].
  destruct Hb as (Q & req & Aq & Pq & Mq & Sq & Gq). exists Q, req. split_and!; auto.
  intros i Hi. destruct (Gq i Hi) as (resp & rep & ? & ?). exists resp, rep. auto.
Qed.

Lemma inv_set_coord s rid c : invariant s -> invariant (set_coord rid c s).
Proof. intros []. split; try done. by apply (all_backed_same s). Qed.

(** What a new state of one replica has to satisfy. *)
Record rep_ok (s : System) (i : nat) (r : Replica) : Prop := {
  ro_wf : wf_replica r;
  ro_kept : forall n p, kept n p (reps s i) -> kept n p r;
  ro_remembers : forall x, accepted s i x -> remembers x (reps s i) -> remembers x r;
  ro_stored : forall p a m, stored r p = Some a -> is_learned a = false ->
    performed a = Some m -> written_in (issued s) p m (entry a);
  ro_learned : forall p a, stored r p = Some a -> is_learned a = true -> learned_ok s a;
}.

Lemma inv_set_rep s i r : invariant s -> rep_ok s i r -> invariant (set_rep i r s).
Proof.
  intros Hinv [R1 R2 R3 R4 R5].
  assert (Hr : forall P : Replica -> Prop, forall j, (i = j -> P r) -> (i <> j -> P (reps s j)) ->
    P (reps (set_rep i r s) j)).
  { intros P j H1 H2. cbn. destruct (decide (i = j)) as [<-|Hne].
    - rewrite fn_lookup_insert. auto.
    - rewrite fn_lookup_insert_ne by done. auto. }
  destruct Hinv. split; try done.
  - intros j. apply Hr; auto.
  - intros x req p rep Hx Hreq Hg. apply Hr; intros; [|eauto].
    apply R2. subst. eauto.
  - intros x j Hx. apply Hr; intros; [|eauto]. apply R3; subst; eauto.
  - intros j p a m. apply (Hr (fun q => stored q p = Some a -> is_learned a = false ->
      performed a = Some m -> written_in (issued s) p m (entry a))); eauto.
  - by apply (all_backed_same s).
  - intros j p a. apply (Hr (fun q => stored q p = Some a -> is_learned a = true ->
      learned_ok (set_rep i r s) a)); intros _ Hs Hl; (eapply learned_ok_same; [|eauto]); done.
Qed.

Lemma inv_add_attempt s rid req :
  invariant s -> attempts s !! rid = None -> valid_promise req -> invariant (add_attempt rid req s).
Proof.
  intros Hinv Hn Hv.
  assert (Ha : forall k q, attempts s !! k = Some q -> <[rid := req]> (attempts s) !! k = Some q).
  { intros k q Hk. rewrite lookup_insert_ne; [done|congruence]. }
  assert (Hb : forall x q, x ∈ preplies s -> <[rid := req]> (attempts s) !! p_attempt x = Some q ->
    attempts s !! p_attempt x = Some q).
  { intros x q Hx. destruct (inv_preplies s Hinv x Hx) as [_ [q' Hq']].
    rewrite (Ha _ _ Hq'), Hq'. done. }
  destruct Hinv. split; try done; cbn [attempts add_attempt].
  - intros k q. rewrite lookup_insert. case_decide; [by intros [= <-]|eauto].
  - intros x Hx. destruct (inv_preplies0 x Hx) as [? [q Hq]]. split; [done|]. exists q. auto.
  - intros x q p rep Hx Hq. eauto.
  - intros x q y rep Hx Hq. eauto.
  - intros x q p a m Hx Hq. eauto.
  - intros x y qx qy p ax ay Hx Hy Hf Hqx Hqy. eauto.
  - by apply (all_backed_same s).
Qed.

Lemma written_in_cons l x p m e : written_in l p m e -> written_in (x :: l) p m e.
Proof. intros (y & Hy & H). exists y. split; [by right|done]. Qed.

Lemma inv_add_issue s x :
  invariant s -> valid_write (i_req x) -> wreq_learned (i_req x) = None ->
  copy_entry (wreq_entry (i_req x)) = wreq_entry (i_req x) ->
  (forall y, y ∈ issued s -> i_attempt x = i_attempt y ->
     wreq_position (i_req x) <> wreq_position (i_req y)) ->
  backed s x (issued s) -> invariant (add_issue x s).
Proof.
  intros Hinv Hv Hl Hc Hu Hb. destruct Hinv. split; try done; cbn [issued add_issue].
  - intros y [->|Hy]%elem_of_cons; auto.
  - intros y z [->|Hy]%elem_of_cons [->|Hz]%elem_of_cons E1 E2; auto; exfalso.
    + by apply (Hu z).
    + by apply (Hu y).
  - intros y i Hy. right. eauto.
  - intros. apply written_in_cons. eauto.
  - intros. apply written_in_cons. eauto.
  - split; [exact Hb|]. by apply (all_backed_same s).
Qed.

Lemma inv_add_learn s a :
  invariant s -> is_learned a = true -> learned_ok s a -> invariant (add_learn a s).
Proof.
  intros Hinv Hl Ha. destruct Hinv. split; try done; cbn [learns add_learn].
  - by apply (all_backed_same s).
  - intros b [->|Hb]%elem_of_cons; auto.
Qed.

(** What a new reply has to satisfy. *)
Record preply_ok (s : System) (x : preply) (req : PromiseRequest) : Prop := {
  po_from : p_from x ∈ members;
  po_attempt : attempts s !! p_attempt x = Some req;
  po_kept : forall p rep, grants req (p_resp x) p rep -> kept (preq_proposal req) p (reps s (p_from x));
  po_reported : forall y rep, accepted s (p_from x) y ->
    grants req (p_resp x) (wreq_position (i_req y)) rep ->
    wreq_proposal (i_req y) < preq_proposal req ->
    exists a m, rep = Some a /\ performed a = Some m /\ wreq_proposal (i_req y) <= m;
  po_issued : forall p a m, grants req (p_resp x) p (Some a) -> performed a = Some m ->
    written_in (issued s) p m (entry a);
  po_one_grant : forall y q p ax ay, y ∈ preplies s -> p_from x = p_from y ->
    attempts s !! p_attempt y = Some q -> grants req (p_resp x) p ax -> grants q (p_resp y) p ay ->
    preq_proposal req <> preq_proposal q;
  po_learned : forall a, pr_action (p_resp x) = Some a -> is_learned a = true -> learned_ok s a;
}.

Lemma inv_add_preply s rid i resp req :
  invariant s -> preply_ok s (mkPreply rid i resp) req ->
  invariant (add_preply rid i (Some resp) s).
Proof.
  intros Hinv [P0 Pa Pk Pr Pi Po Pl]. destruct Hinv. cbn in *.
  split; try done; cbn [preplies add_preply attempts reps].
  - intros x [->|Hx]%elem_of_cons; cbn; [split; [done|by exists req]|auto].
  - intros x q p rep [->|Hx]%elem_of_cons Hq; cbn in *; [|eauto].
    rewrite Pa in Hq. injection Hq as <-. eauto.
  - intros x q y rep [->|Hx]%elem_of_cons Hq; cbn in *; [|eauto].
    rewrite Pa in Hq. injection Hq as <-. eauto.
  - intros x q p a m [->|Hx]%elem_of_cons Hq; cbn in *; [|eauto].
    rewrite Pa in Hq. injection Hq as <-. eauto.
  - intros x y qx qy p ax ay [->|Hx]%elem_of_cons [->|Hy]%elem_of_cons Hf Hqx Hqy Gx Gy Hn;
      cbn in *; [done| | |eauto]; exfalso.
    + rewrite Pa in Hqx. injection Hqx as <-. by eapply Po.
    + rewrite Pa in Hqy. injection Hqy as <-. eapply Po; eauto.
  - apply (all_backed_same s); [done| |done]. intros x Hx. by right.
  - intros x a [->|Hx]%elem_of_cons; cbn; eauto.
Qed.

Lemma accepted_add_wreply s rid i req resp j x :
  accepted (add_wreply rid i req (Some resp) s) j x ->
  accepted s j x \/ (j = i /\ x = mkIssue rid req /\ accepts resp).
Proof.
  intros (re & [He|Hin]%elem_of_cons & Ht); [right|left; by exists re].
  injection He as <- <- <- <-. by destruct x.
Qed.

Lemma accepted_mono s rid i req resp j x :
  accepted s j x -> accepted (add_wreply rid i req (Some resp) s) j x.
Proof. intros (re & Hin & Ht). exists re. split; [by right|done]. Qed.

Lemma chosen_mono s rid i req resp x :
  chosen s x -> chosen (add_wreply rid i req (Some resp) s) x.
Proof.
  intros (Q & HQ & Hs & H). exists Q. split_and!; [done..|]. intros j Hj. by apply accepted_mono, H.
Qed.

Lemma learned_ok_mono s rid i req resp a :
  learned_ok s a -> learned_ok (add_wreply rid i req (Some resp) s) a.
Proof.
  intros [Hv [H|(x & Hx & H)]]; split; auto. right. exists x. split; [by apply chosen_mono|done].
Qed.

Lemma inv_add_wreply s i x resp :
  invariant s -> x ∈ issued s ->
  (accepts resp -> remembers x (reps s i)
     /\ forall y q rep, y ∈ preplies s -> p_from y = i -> attempts s !! p_attempt y = Some q ->
          grants q (p_resp y) (wreq_position (i_req x)) rep ->
          preq_proposal q <= wreq_proposal (i_req x)) ->
  invariant (add_wreply (i_attempt x) i (i_req x) (Some resp) s).
Proof.
  intros Hinv Hx Hacc. destruct Hinv.
  assert (Ex : mkIssue (i_attempt x) (i_req x) = x) by by destruct x.
  split; try done; cbn [attempts reps issued preplies learns add_wreply].
  - intros y j [Hy|(-> & -> & _)]%accepted_add_wreply; [eauto|by rewrite Ex].
  - intros y j [Hy|(-> & -> & Ht)]%accepted_add_wreply; [eauto|]. rewrite Ex. by apply Hacc.
  - intros y q z rep Hy Hq [Hz|(Hi & -> & Ht)]%accepted_add_wreply Hg Hlt; [eauto|].
    exfalso. cbn in *. destruct (Hacc Ht) as [_ H]. specialize (H y q rep Hy Hi Hq Hg). lia.
  - by apply (all_backed_same s).
  - intros. apply learned_ok_mono. eauto.
  - intros. apply learned_ok_mono. eauto.
  - intros a Ha. destruct (inv_learns0 a Ha). split; [done|]. by apply learned_ok_mono.
Qed.

(** *** Changes of one replica *)

Lemma rep_ok_same s i r :
  invariant s -> wf_replica r -> begin r = begin (reps s i) -> stored r = stored (reps s i) ->
  promised_ (reps s i) <= promised_ r -> rep_ok s i r.
Proof.
  intros Hinv Hwf Hb Hs Hp. split; [done|..].
  - intros n p. by apply kept_same.
  - intros x _. unfold remembers, learned_at. by rewrite Hb, Hs.
  - intros p a m. rewrite Hs. apply (inv_stored s Hinv).
  - intros p a. rewrite Hs. apply (inv_learned s Hinv).
Qed.

(** What a replica may persist at a position: a learned action, or a promise
    or write that keeps what was there. *)
Definition may_persist (s : System) (r : Replica) (a : Action) : Prop :=
  (is_learned a = true /\ learned_ok s a)
  \/ (is_learned a = false
      /\ (forall b, stored r (position a) = Some b -> is_learned b = false
            /\ forall m, performed b = Some m -> exists m', performed a = Some m' /\ m <= m')
      /\ promise_at r (position a) <= promised a
      /\ forall m, performed a = Some m -> written_in (issued s) (position a) m (entry a)).

Lemma remembers_persisted s x a r r' :
  persisted a r r' -> valid_action a -> may_persist s r a -> remembers x r -> remembers x r'.
Proof.
  intros Hp Hv Hm Hr. set (p := wreq_position (i_req x)) in *. unfold remembers in *. fold p in Hr |- *.
  destruct (decide (p < begin r')) as [|Hb]; [by left|]. right.
  assert (Hb' := pd_begin _ _ _ Hp).
  assert (Hst := persisted_stored_at a r r' p Hp Hv ltac:(lia)).
  destruct Hr as [?|Hr]; [lia|]. unfold learned_at. rewrite Hst. case_decide as Hd.
  - destruct Hm as [[Hl _]|(Hl & Hb1 & _ & _)]; [left; by exists a|]. rewrite <- Hd in Hb1.
    destruct Hr as [(b & Eb & Hlb)|(b & m & Eb & Hm & Hle)]; destruct (Hb1 b Eb) as [Hnl Hpf];
      [congruence|].
    right. destruct (Hpf m Hm) as (m' & Hm' & Hle'). exists a, m'. split_and!; [done..|lia].
  - exact Hr.
Qed.

Lemma rep_ok_persisted s i a r' :
  invariant s -> persisted a (reps s i) r' -> valid_action a -> wf_replica r' ->
  may_persist s (reps s i) a -> rep_ok s i r'.
Proof.
  intros Hinv Hp Hv Hwf Hm. split; [done|..].
  - intros n p. eapply kept_persisted; [done..|]. intros <-.
    destruct Hm as [[Hl _]|(_ & Hb & Hle & _)]; [by left|right]. split; [|done].
    intros b Eb. by apply Hb.
  - intros x _. by eapply remembers_persisted.
  - intros p b m [[-> ->]|[_ Hs]]%(persisted_stored_inv _ _ _ _ _ Hp) Hl Hpf.
    + destruct Hm as [[? _]|(_ & _ & _ & H)]; [congruence|auto].
    + by eapply inv_stored.
  - intros p b [[-> ->]|[_ Hs]]%(persisted_stored_inv _ _ _ _ _ Hp) Hl.
    + destruct Hm as [[_ ?]|(? & _)]; [done|congruence].
    + by eapply inv_learned.
Qed.

Lemma learned_ok_ext s a b :
  position b = position a -> entry b = entry a -> learned_ok s a -> learned_ok s b.
Proof.
  intros Hp He [[Hv1 Hv2] H]. split.
  - split; rewrite Hp, ?He; [done|]. done.
  - by rewrite He, Hp.
Qed.

(** *** Promise requests *)

(** A grant is given at a position of the log for a proposal above all earlier
    promises, and reports what is stored there. *)
Lemma grant_facts d req r r' resp p rep :
  wf_replica r -> valid_promise req -> promise d req r = Ok (r', Some resp) ->
  grants req resp p rep ->
  begin r <= p /\ promise_at r p < preq_proposal req
  /\ (forall a, stored r p = Some a -> is_learned a = false)
  /\ rep = stored r p /\ kept (preq_proposal req) p r'.
Proof.
  intros Hwf Hv E [Hi Hg]. unfold promise, valid_promise in *.
  case_bool_decide; [by injection E as <- <-|].
  destruct (preq_position req) as [q|].
  - destruct Hg as (-> & (Hrej & Hn & Ha) & ->).
    destruct (explicit_promise_spec d (preq_proposal req) q r Hwf Hv) as (r1 & re & E' & Ho & _).
    rewrite E in E'. injection E' as <- <-.
    assert (Hk : pr_type resp = Some ACCEPT -> kept (preq_proposal req) q r')
      by by eapply explicit_accepted_kept.
    remember (Some resp) as o eqn:Eo.
    destruct Ho as [Hb| |m Hb Hle Hm|r1 Hb Hs Hlt Hp|a r1 Hb Hs Hpos Hlt Hp];
      (discriminate || injection Eo as <-); try done; cbn in *.
    + by destruct Ha as [_ ?].
    + unfold promise_at. rewrite Hs. by split_and!; auto.
    + destruct Ha as [_ Hl]. unfold promise_at. rewrite Hs. split_and!; auto. congruence.
  - destruct Hg as (Hrej & -> & e & He & Hlt).
    destruct (implicit_promise_spec d (preq_proposal req) r) as (r1 & re & E' & _ & Ho).
    rewrite E in E'. injection E' as <- <-.
    destruct Ho as [[-> Ho]|(Hn & Ho & Es & Eb & Ee & Ep)].
    { by destruct (Ho resp eq_refl) as [-> _]. }
    injection Ho as ->. injection He as <-.
    assert (Hnone : stored r p = None).
    { destruct (stored r p) eqn:Ea; [|done]. apply (wf_stored r Hwf) in Ea. lia. }
    assert (Hw := wf_begin r Hwf). unfold kept, promise_at. rewrite Es, Hnone, Ep.
    split_and!; try lia; done.
Qed.

Lemma promise_rep_ok s d req i r' resp :
  invariant s -> valid_promise req -> promise d req (reps s i) = Ok (r', resp) -> rep_ok s i r'.
Proof.
  intros Hinv Hv E. assert (Hwf := inv_wf s Hinv i).
  destruct (promise_total d req _ Hwf Hv) as (r1 & re & E' & Hwf'). rewrite E in E'.
  injection E' as <- <-. unfold promise, valid_promise in *.
  assert (Hsame : rep_ok s i (reps s i)) by (apply rep_ok_same; done || lia).
  case_bool_decide; [by injection E as <- _|]. destruct (preq_position req) as [q|].
  - destruct (explicit_promise_spec d (preq_proposal req) q _ Hwf Hv) as (r1 & re & E' & Ho & _).
    rewrite E in E'. injection E' as <- <-.
    destruct Ho as [Hb| |m Hb Hle Hm|r1 Hb Hs Hlt Hp|a r1 Hb Hs Hpos Hlt Hp]; try done.
    + eapply rep_ok_persisted; [done|exact Hp|by apply valid_bare|done|right].
      cbn [position promised performed entry]. unfold promise_at. rewrite Hs.
      split_and!; try done; lia.
    + destruct (wf_valid _ Hwf q a Hs) as [[Hv1 Hv2] _].
      eapply rep_ok_persisted; [done|exact Hp| |done|].
      { split; cbn; [lia|by rewrite <- Hpos]. }
      unfold may_persist, is_learned at 1 2. cbn [position promised performed entry learned].
      fold (is_learned a).
      destruct (is_learned a) eqn:El; [left|right].
      * split; [done|]. eapply (learned_ok_ext s a); [done..|]. by eapply inv_learned.
      * unfold promise_at. rewrite Hs. split_and!; try done; [|lia|by intros; eapply inv_stored].
        intros b [= <-]. split; [done|]. intros m Hm. exists m. split; [done|lia].
  - destruct (implicit_promise_spec d (preq_proposal req) (reps s i)) as (r1 & re & E' & _ & Ho).
    rewrite E in E'. injection E' as <- <-.
    destruct Ho as [[-> _]|(Hn & _ & Es & Eb & _ & Ep)]; [done|].
    apply rep_ok_same; [done..|lia].
Qed.

(** A learned action that a promise request is answered with. *)
Lemma reply_action d req r r' resp a :
  wf_replica r -> valid_promise req -> promise d req r = Ok (r', Some resp) ->
  pr_action resp = Some a ->
  (exists q, valid_position q /\ a = tombstone_action r q) \/ exists q, stored r q = Some a.
Proof.
  intros Hwf Hv E Ha. unfold promise, valid_promise in *.
  case_bool_decide; [by injection E as <- <-|]. destruct (preq_position req) as [q|].
  - destruct (explicit_promise_spec d (preq_proposal req) q r Hwf Hv) as (r1 & re & E' & Ho & _).
    rewrite E in E'. injection E' as <- <-. remember (Some resp) as o eqn:Eo.
    destruct Ho as [Hb| |m Hb Hle Hm|r1 Hb Hs Hlt Hp|b r1 Hb Hs Hpos Hlt Hp];
      (discriminate || injection Eo as <-); try done; cbn in Ha; injection Ha as <-; eauto.
  - destruct (implicit_promise_spec d (preq_proposal req) r) as (r1 & re & E' & _ & Ho).
    rewrite E in E'. injection E' as <- <-.
    destruct Ho as [[_ Ho]|(_ & Ho & _)]; [by destruct (Ho resp eq_refl) as [-> _]|].
    by injection Ho as ->.
Qed.

Lemma inv_promise s d rid req i r' resp :
  invariant s -> i ∈ members -> attempts s !! rid = Some req ->
  promise d req (reps s i) = Ok (r', resp) ->
  invariant (add_preply rid i resp (set_rep i r' s)).
Proof.
  intros Hinv Hi Hreq E. assert (Hv := inv_attempts s Hinv rid req Hreq).
  assert (Hwf := inv_wf s Hinv i).
  assert (Hrep := inv_set_rep s i r' Hinv (promise_rep_ok s d req i r' resp Hinv Hv E)).
  destruct resp as [resp|]; [|by destruct s].
  assert (Hr : reps (set_rep i r' s) i = r') by apply fn_lookup_insert.
  apply inv_add_preply with (req := req); [done|].
  assert (G := fun p rep => grant_facts d req _ r' resp p rep Hwf Hv E).
  split; cbn [p_from p_attempt p_resp]; try done.
  - intros p rep Hg. rewrite Hr. by destruct (G p rep Hg) as (_ & _ & _ & _ & ?).
  - intros y rep Hy Hg Hlt. destruct (G _ _ Hg) as (Hb & Hn & Hl & -> & _).
    destruct (inv_remembers s Hinv y i Hy) as [?|[(a & Ha & Hla)|(a & m & Ha & Hm & Hle)]];
      [lia|by rewrite (Hl a Ha) in Hla|]. eauto.
  - intros p a m Hg Hm. destruct (G _ _ Hg) as (_ & _ & Hl & Ha & _).
    cbn. by apply (inv_stored s Hinv i); [|apply Hl|].
  - intros y q p ax ay Hy Hf Hq Hx Hgy Hn. destruct (G _ _ Hx) as (Hb & Hlt & Hl & _ & _).
    assert (Hk := inv_kept s Hinv y q p ay Hy Hq Hgy). rewrite <- Hf in Hk.
    destruct Hk as [?|[(a & Ha & Hla)|?]]; [lia|by rewrite (Hl a Ha) in Hla|lia].
  - intros a Ha Hla. destruct (reply_action d req _ r' resp a Hwf Hv E Ha) as [(q & Hq & ->)|[q Hs]].
    + split; [by split|by left].
    + by eapply (inv_learned s Hinv).
Qed.

(** *** Phases *)

(** The replicas that voted in a phase. *)
Definition voters {X M : Type} `{Response M} (from : X -> nat) (resp : X -> M) (l : list X)
  : gset nat :=
  list_to_set (map from (filter (fun x => is_ignored (resp x) = false) l)).

Lemma voters_size {X M : Type} `{Response M} (from : X -> nat) (resp : X -> M) l :
  NoDup (map from l) -> size (voters from resp l) = length (votes (map resp l)).
Proof.
  intros Hnd. unfold voters. rewrite size_list_to_set.
  - rewrite length_map. unfold votes. clear Hnd. induction l as [|x l IH]; [done|].
    cbn [map]. rewrite !filter_cons. destruct (is_ignored (resp x)) eqn:E.
    + rewrite !decide_False by congruence. done.
    + rewrite !decide_True by done. cbn [length]. by rewrite IH.
  - induction l as [|x l IH]; [constructor|]. cbn [map] in Hnd. apply NoDup_cons in Hnd as [Hx Hl].
    rewrite filter_cons. case_decide as Hd; [|auto]. cbn [map]. constructor; [|auto].
    intros Hin. apply Hx. apply list_elem_of_In, in_map_iff in Hin as (y & <- & Hy).
    apply list_elem_of_In, list_elem_of_filter in Hy as [_ Hy].
    apply list_elem_of_In, in_map_iff. exists y. by rewrite <- list_elem_of_In.
Qed.

Lemma elem_of_voters {X M : Type} `{Response M} (from : X -> nat) (resp : X -> M) l i :
  i ∈ voters from resp l ->
  exists x, x ∈ l /\ from x = i /\ is_ignored (resp x) = false /\ resp x ∈ votes (map resp l).
Proof.
  unfold voters. rewrite elem_of_list_to_set, list_elem_of_In, in_map_iff.
  intros (x & <- & Hx). apply list_elem_of_In, list_elem_of_filter in Hx as [Hi Hx].
  exists x. split_and!; [done..|]. apply list_elem_of_filter. split; [done|].
  apply list_elem_of_In, in_map, list_elem_of_In, Hx.
Qed.

(** The replies behind the responses a phase used. *)
Lemma replies_used {X M : Type} (f : X -> M) l used rest :
  map f l = used ++ rest -> exists l1 l2, l = l1 ++ l2 /\ map f l1 = used.
Proof.
  intros E. apply map_eq_app in E as (l1 & l2 & -> & <- & _). eauto.
Qed.

Lemma replies_to_prefix s rid l1 l2 : replies_to s rid (l1 ++ l2) -> replies_to s rid l1.
Proof.
  intros [Hn Hf]. rewrite map_app in Hn. apply NoDup_app in Hn as (? & _ & _).
  split; [done|]. by eapply Forall_prefix.
Qed.

Lemma voters_members s rid l : invariant s -> replies_to s rid l -> voters p_from p_resp l ⊆ members.
Proof.
  intros Hinv [_ Hf] i (x & Hx & <- & _)%elem_of_voters. rewrite Forall_forall in Hf.
  destruct (Hf x Hx) as [Hin _]. by apply (inv_preplies s Hinv).
Qed.

(** A quorum of votes that all grant the position backs a write there. *)
Lemma backed_intro s x l req :
  invariant s -> replies_to s (i_attempt x) l -> attempts s !! i_attempt x = Some req ->
  preq_proposal req = wreq_proposal (i_req x) ->
  (quorum <= length (votes (map p_resp l)))%nat ->
  (forall r, r ∈ votes (map p_resp l) -> exists rep,
     (isIgnoredPromise r = false -> grants req r (wreq_position (i_req x)) rep)
     /\ forall a m, rep = Some a -> performed a = Some m ->
          exists m', m <= m' /\ written_in (issued s) (wreq_position (i_req x)) m'
                                 (Some (wreq_entry (i_req x)))) ->
  backed s x (issued s).
Proof.
  intros Hinv Hl Hreq Hn Hq Hg. exists (voters p_from p_resp l), req. split_and!; [done..| | |].
  - by eapply voters_members.
  - by rewrite voters_size by apply Hl.
  - intros i (y & Hy & <- & Hi & Hv)%elem_of_voters. destruct (Hg _ Hv) as (rep & Hgr & Hrep).
    destruct Hl as [_ Hf]. rewrite Forall_forall in Hf. destruct (Hf y Hy) as [Hin Ha].
    exists (p_resp y), rep. split_and!; [|by apply Hgr|done]. rewrite <- Ha. by destruct y.
Qed.

(** The write a fill process issues is the one its quorum dictates. *)
Lemma fill_write_granted n p rs resp a req :
  explicit_result quorum n p rs resp ->
  fill_checkPromisePhase (Some resp) (fill_init n p) = Ok (mkFill p n (WritePhase a req)) ->
  exists h, (quorum <= length (votes rs))%nat /\ Forall (granted n p) (votes rs) /\ best_action rs h
  /\ wreq_proposal req = n /\ wreq_position req = p /\ wreq_learned req = None
  /\ match h with
     | Some b => exists e, entry b = Some e /\ wreq_entry req = copy_entry e
     | None => wreq_entry req = NOP None
     end.
Proof.
  intros Hr E. unfold fill_checkPromisePhase, retry, fill_runLearnPhase, fill_runWritePhase in E.
  destruct Hr as [|h Hv Hk|r b Hin Hrej Hp Ha Hpos Hl|h Hv Hg Hb].
  - cbn in E. by destruct (0 <? n).
  - cbn in E. by destruct (h <? n).
  - exfalso. destruct (pr_okay r); [|cbn in E; by destruct (_ <? n)]. rewrite Ha in E. cbn in E.
    unfold is_learned in E, Hl. cbn in E. rewrite Hl in E. by repeat case_match.
  - exists h. destruct h as [b|]; cbn in E.
    + destruct (position b =? p) eqn:Ep; [|done]. cbn in E.
      case_bool_decide; [done|]. unfold is_learned in E. cbn in E.
      destruct (bool_decide (learned b = Some true)); [done|].
      unfold write_watched in E. cbn in E. destruct (entry b) as [e|]; [|done].
      injection E as <- <-. breflect. by split_and!; eauto.
    + injection E as <- <-. by split_and!.
Qed.

Lemma inv_fill_write s rid n p l resp a req :
  invariant s -> attempts s !! rid = Some (mkPromiseRequest n (Some p)) -> replies_to s rid l ->
  explicit_phase quorum n p (map p_resp l) = Ok (Done resp) ->
  fill_checkPromisePhase (Some resp) (fill_init n p) = Ok (mkFill p n (WritePhase a req)) ->
  Forall (fun x => i_attempt x <> rid) (issued s) ->
  invariant (add_issue (mkIssue rid req) s).
Proof.
  intros Hinv Hreq Hl Hph Hf Hfresh.
  assert (Hvp := inv_attempts s Hinv rid _ Hreq). cbn in Hvp.
  apply explicit_phase_done in Hph as (used & rest & Eu & Hr); [|lia].
  apply replies_used in Eu as (l1 & l2 & -> & <-). apply replies_to_prefix in Hl.
  destruct (fill_write_granted _ _ _ _ _ _ Hr Hf) as (h & Hv & Hg & Hb & Hn & Hp & Hle & He).
  (* The entry to write again is one that was issued before. *)
  assert (Hwr : forall b m, h = Some b -> performed b = Some m ->
    written_in (issued s) p m (Some (wreq_entry req))).
  { intros b m -> Hm. destruct Hb as [(r & Hrv & Hrb) _]. destruct He as (e & Eb & Ee).
    assert (Hrv' := Hrv). unfold votes in Hrv'. apply list_elem_of_filter in Hrv' as [Hi Hrl].
    apply list_elem_of_In, in_map_iff in Hrl as (y & <- & Hy%list_elem_of_In).
    destruct Hl as [_ Hl]. rewrite Forall_forall in Hl. destruct (Hl y Hy) as [Hin Ha].
    rewrite <- Ha in Hreq. rewrite Forall_forall in Hg.
    assert (Hw : written_in (issued s) p m (entry b)).
    { eapply (inv_report_issued s Hinv y _ p b m Hin Hreq); [|done]. split; [done|]. cbn.
      split_and!; [done|by apply Hg|done]. }
    destruct Hw as (z & Hz & Hzp & Hzm & Hze). exists z. split_and!; [done..|].
    destruct (inv_issued s Hinv z Hz) as (_ & _ & Hc). rewrite Ee, <- Hc. congruence. }
  apply inv_add_issue; cbn [i_req i_attempt]; try done.
  - split; [by rewrite Hp|]. intros to Eto. destruct h as [b|]; [|congruence].
    destruct Hb as [_ (m & Hm & _)]. destruct (Hwr b m eq_refl Hm) as (z & Hz & Hzp & _ & Hze).
    destruct (inv_issued s Hinv z Hz) as ([_ Ht] & _). rewrite Hp, <- Hzp. apply Ht. congruence.
  - destruct h as [b|]; [destruct He as (e & _ & ->)|by rewrite He]. by destruct e.
  - intros y Hy Eq. rewrite Forall_forall in Hfresh. by destruct (Hfresh y Hy).
  - eapply backed_intro; [done|exact Hl|exact Hreq|done|done|].
    intros r Hr'. exists (pr_action r). cbn [i_req]. rewrite Hp. rewrite Forall_forall in Hg. split.
    + intros Hi. split; [done|]. cbn. split_and!; [done|by apply Hg|done].
    + intros b m Hb' Hm. destruct h as [b0|]; [|by rewrite (Hb r b Hr' Hb') in Hm].
      destruct Hb as [_ (m' & Hm' & Hmax)]. exists m'. split; [by eapply Hmax|]. by eapply Hwr.
Qed.

Lemma inv_coordinator_write s rid n l resp e a req :
  invariant s -> attempts s !! rid = Some (mkPromiseRequest n None) -> replies_to s rid l ->
  implicit_phase quorum (map p_resp l) = Ok (Done resp) -> pr_type resp = Some ACCEPT ->
  pr_position resp = Some e -> e < position a -> write_watched n a = Some req ->
  entry a = Some (wreq_entry req) -> valid_write req ->
  Forall (fun x => i_attempt x = rid -> wreq_position (i_req x) <> position a) (issued s) ->
  invariant (add_issue (mkIssue rid req) s).
Proof.
  intros Hinv Hreq Hl Hph Ht He Hlt Hw Hent Hval Hfresh.
  apply implicit_phase_done in Hph as (used & rest & Eu & Hr); [|lia].
  apply replies_used in Eu as (l1 & l2 & -> & <-). apply replies_to_prefix in Hl.
  unfold write_watched in Hw. rewrite Hent in Hw. injection Hw as Hw.
  destruct Hr as [| |e' Hv Hk [_ Hend]]; try done. injection He as ->.
  apply inv_add_issue; cbn [i_req i_attempt]; try done; try (by rewrite <- Hw).
  - by rewrite <- Hw at 2.
  - intros y Hy Eq. rewrite Forall_forall in Hfresh. rewrite <- Hw. cbn.
    intros E. by apply (Hfresh y Hy).
  - eapply backed_intro; [done|exact Hl|exact Hreq|by rewrite <- Hw|done|].
    intros r Hr'. exists None. split; [|done]. intros Hi. split; [done|]. cbn.
    split_and!; [by apply Hk|done|]. destruct (Hend r Hr') as (x & Hx & Hxe).
    exists x. split; [done|]. rewrite <- Hw. cbn. lia.
Qed.

(** *** Writes *)

Lemma inv_write s x i d r' resp :
  invariant s -> x ∈ issued s -> not_older (i_req x) (reps s i) ->
  write d (i_req x) (reps s i) = Ok (r', resp) ->
  invariant (add_wreply (i_attempt x) i (i_req x) resp (set_rep i r' s)).
Proof.
  intros Hinv Hx Hold E. assert (Hwf := inv_wf s Hinv i).
  destruct (inv_issued s Hinv x Hx) as (Hv & Hl & Hc).
  destruct (write_spec d (i_req x) _ Hwf Hv) as (r1 & re & E' & Ho & Hwf'). rewrite E in E'.
  injection E' as <- <-.
  assert (Hsame : rep_ok s i (reps s i)) by (apply rep_ok_same; done || lia).
  destruct Ho as [Hst| |Hb Hn|r1 Hb Hn Hnl Hp].
  - apply inv_add_wreply; [by apply inv_set_rep|done|]. by intros [? _].
  - exact (inv_set_rep s i _ Hinv Hsame).
  - apply inv_add_wreply; [by apply inv_set_rep|done|]. by intros [_ ?].
  - assert (Hva := valid_written (i_req x) (promise_at (reps s i) (wreq_position (i_req x)))
                     (Some (wreq_proposal (i_req x))) None Hv).
    rewrite Hl in Hp. assert (Hp' := Hp).
    apply inv_add_wreply; [apply inv_set_rep; [done|]|done|].
    + eapply rep_ok_persisted; [done|exact Hp|exact Hva|done|right].
      cbn [position promised performed entry]. split_and!; [done| |lia|].
      * intros b Hs. split; [by apply Hnl|]. intros m Hm. eexists. split; [done|]. by eapply Hold.
      * intros m [= <-]. exists x. by rewrite Hc.
    + intros _. assert (Hr : reps (set_rep i r1 s) i = r1) by apply fn_lookup_insert.
      rewrite Hr. split.
      * destruct (decide (wreq_position (i_req x) < begin r1)) as [|Hb1]; [by left|right; right].
        erewrite (persisted_stored_at _ _ _ _ Hp Hva), decide_True; [|done|lia].
        do 2 eexists. split_and!; [done..|lia].
      * intros y q rep Hy Hf Hq Hg. cbn in Hy, Hq.
        assert (Hk := inv_kept s Hinv y q _ rep Hy Hq Hg). rewrite Hf in Hk.
        destruct Hk as [?|[(b & Hs & Hlb)|?]]; [lia|by rewrite (Hnl b Hs) in Hlb|lia].
Qed.

(** *** Learning *)

Lemma learn_learned a : is_learned (learn a) = true.
Proof. unfold learn. destruct (is_learned a) eqn:E; [done|]. done. Qed.

Lemma learn_same a : position (learn a) = position a /\ entry (learn a) = entry a.
Proof. unfold learn. by destruct (is_learned a). Qed.

(** The action a fill process relays is a learned one it was told. *)
Lemma fill_learn_reported n p rs resp a :
  explicit_result quorum n p rs resp ->
  fill_checkPromisePhase (Some resp) (fill_init n p) = Ok (mkFill p n (LearnPhase a)) ->
  exists r b, r ∈ rs /\ pr_action r = Some b /\ is_learned b = true
  /\ position a = position b /\ entry a = entry b.
Proof.
  intros Hr E. unfold fill_checkPromisePhase, retry, fill_runLearnPhase, fill_runWritePhase in E.
  destruct Hr as [|h Hv Hk|r b Hin Hrej Hp Ha Hpos Hl|h Hv Hg Hb].
  - cbn in E. by destruct (0 <? n).
  - cbn in E. by destruct (h <? n).
  - exists r, b. rewrite Ha in E. cbn in E. destruct (pr_okay r); cbn in E; [|by destruct (_ <? n)].
    destruct (position b =? p) eqn:Ep; [|done]. breflect. cbn in E.
    case_bool_decide; [done|]. unfold is_learned in E, Hl. cbn in E. rewrite Hl in E.
    injection E as <-. done.
  - exfalso. destruct h as [b|]; cbn in E; [|done].
    destruct (position b =? p) eqn:Ep; [|done]. cbn in E. case_bool_decide; [done|].
    destruct Hb as [(r & Hrv & Hrb) _]. destruct (granted_unlearned _ _ _ _ _ Hg Hrv Hrb) as [_ Hl].
    unfold is_learned in E, Hl. cbn in E. rewrite Hl in E. by repeat case_match.
Qed.

Lemma inv_fill_learn s rid n p l resp a :
  invariant s -> attempts s !! rid = Some (mkPromiseRequest n (Some p)) -> replies_to s rid l ->
  explicit_phase quorum n p (map p_resp l) = Ok (Done resp) ->
  fill_checkPromisePhase (Some resp) (fill_init n p) = Ok (mkFill p n (LearnPhase a)) ->
  invariant (add_learn (learn a) s).
Proof.
  intros Hinv Hreq Hl Hph Hf.
  apply explicit_phase_done in Hph as (used & rest & Eu & Hr); [|lia].
  apply replies_used in Eu as (l1 & l2 & -> & <-). apply replies_to_prefix in Hl.
  destruct (fill_learn_reported _ _ _ _ _ Hr Hf) as (r & b & Hin & Hb & Hlb & Hp & He).
  apply list_elem_of_In, in_map_iff in Hin as (y & <- & Hy%list_elem_of_In).
  destruct Hl as [_ Hl]. rewrite Forall_forall in Hl. destruct (Hl y Hy) as [Hin _].
  destruct (learn_same a) as [Ep Ee].
  apply inv_add_learn; [done|apply learn_learned|].
  apply (learned_ok_ext s b); [congruence..|]. by eapply (inv_reply_learned s Hinv y).
Qed.

Lemma inv_learn s x l a :
  invariant s -> x ∈ issued s -> write_replies_to s (i_attempt x) (i_req x) l ->
  (forall y, y ∈ wreplies s -> w_from y ∈ members) ->
  write_phase quorum (wreq_position (i_req x)) (map w_resp l) = Ok (Done accepted_write) ->
  position a = wreq_position (i_req x) -> entry a = Some (wreq_entry (i_req x)) ->
  invariant (add_learn (learn a) s).
Proof.
  intros Hinv Hx [Hnd Hf] Hm Hph Hp He.
  apply write_phase_done in Hph as (used & rest & Eu & Hr); [|lia].
  apply replies_used in Eu as (l1 & l2 & -> & <-).
  rewrite map_app in Hnd. apply NoDup_app in Hnd as (Hnd & _ & _).
  apply Forall_prefix in Hf. rewrite Forall_forall in Hf.
  remember accepted_write as w eqn:Ew. destruct Hr as [|h|Hv Hk]; [done..|].
  destruct (learn_same a) as [Ep Ee]. destruct (inv_issued s Hinv x Hx) as ([Hvp Hvt] & _ & _).
  apply inv_add_learn; [done|apply learn_learned|]. split.
  { split; rewrite Ep, ?Ee, Hp; [done|]. intros to Eto. apply Hvt. congruence. }
  right. exists x. split_and!; [|congruence..].
  exists (voters w_from w_resp l1). split_and!.
  - intros i (y & Hy & <- & _)%elem_of_voters. by apply Hm, Hf.
  - by rewrite voters_size.
  - intros i (y & Hy & <- & Hi & Hvt')%elem_of_voters. destruct (Hf y Hy) as (Hin & Ha & Hq).
    exists (w_resp y). rewrite <- Ha, <- Hq. split; [by destruct y|]. split; [done|]. by apply Hk.
Qed.

Lemma inv_learned_step s i a d r' :
  invariant s -> a ∈ learns s -> agrees a (reps s i) -> learned_ d a (reps s i) = Ok r' ->
  invariant (set_rep i r' s).
Proof.
  intros Hinv Ha Hag E. destruct (inv_learns s Hinv a Ha) as [Hl Hok].
  assert (Hwf := inv_wf s Hinv i). unfold learned_ in E. rewrite Hl in E. injection E as <-.
  apply inv_set_rep; [done|]. destruct (persist d a (reps s i)) as [r'|] eqn:E; cbn.
  - eapply rep_ok_persisted; [done| |apply Hok| |left; by split].
    + eapply persist_spec; [apply (wf_begin _ Hwf)|apply Hok|done].
    + eapply persist_wf; [done|apply Hok|done|done].
  - apply rep_ok_same; done || lia.
Qed.

(** ** Coordinators *)

(** While a coordinator has the proposal it was elected with, it has written
    at the positions before its index only, and at its index if it is writing. *)
Record coordinator_ok (s : System) (rid : nat) (c : Coordinator) (w : option (Action * WriteRequest)) : Prop := {
  ck_elected : exists n e, elected_with s rid n e /\ 0 < n <= c_proposal c
    /\ (c_proposal c = n -> c_state c <> INITIAL -> e < c_index c
        /\ forall x, x ∈ issued s -> i_attempt x = rid ->
             wreq_position (i_req x) < c_index c \/ c_state c = WRITING /\ wreq_position (i_req x) = c_index c);
  ck_writing : forall a req, w = Some (a, req) ->
    c_state c = WRITING /\ position a = c_index c /\ wreq_proposal req = c_proposal c /\ valid_position (c_index c);
}.

Record coords_ok (s : System) : Prop := {
  cs_rejects : forall y, y ∈ wreplies s -> isRejectedWrite (w_resp y) = true -> wreq_proposal (w_req y) < wr_proposal (w_resp y);
  cs_ends : forall x n e, x ∈ preplies s -> attempts s !! p_attempt x = Some (mkPromiseRequest n None) ->
    pr_position (p_resp x) = Some e -> 0 <= e < UINT64_MAX;
  cs_known : forall x, x ∈ preplies s -> is_Some (attempts s !! p_attempt x);
  cs_issued : forall x n, x ∈ issued s -> attempts s !! i_attempt x = Some (mkPromiseRequest n None) -> is_Some (coords s !! i_attempt x);
  cs_coords : forall rid c w, coords s !! rid = Some (c, w) -> coordinator_ok s rid c w;
}.

(** The rest of the system only grows. *)
Lemma elected_grows s s' rid n e :
  (forall q, attempts s !! rid = Some q -> attempts s' !! rid = Some q) -> (forall x, x ∈ preplies s -> x ∈ preplies s') ->
  elected_with s rid n e -> elected_with s' rid n e.
Proof.
  intros Ha Hp (l & resp & H1 & [H2 H3] & H4 & H5 & H6). exists l, resp. split_and!; try done; [by apply Ha|]. split; [done|].
  eapply Forall_impl; [exact H3|]. intros x [Hx Hr]. split; [by apply Hp|done].
Qed.

Lemma coords_grow s s' :
  (forall rid q, attempts s !! rid = Some q -> attempts s' !! rid = Some q) -> (forall x, x ∈ preplies s -> x ∈ preplies s') ->
  (forall x rid c w, x ∈ issued s' -> coords s !! rid = Some (c, w) -> i_attempt x = rid -> x ∈ issued s) ->
  coords s' = coords s -> coords_ok s -> forall rid c w, coords s' !! rid = Some (c, w) -> coordinator_ok s' rid c w.
Proof.
  intros Ha Hp Hi Hc Hs rid c w Hr. rewrite Hc in Hr. destruct (cs_coords s Hs rid c w Hr) as [(n & e & H1 & H2 & H3) H4]. split; [|done].
  exists n, e. split; [eapply elected_grows; [apply Ha|exact Hp|done]|]. split; [done|]. intros En Hst. destruct (H3 En Hst) as [L1 L2]. split; [done|].
  intros x Hx Ex. apply L2; [|done]. by eapply Hi.
Qed.

(** Only the coordinator of an attempt changes, and nothing is issued. *)
Lemma coords_set s rid c w : coords_ok s -> coordinator_ok s rid c w -> coords_ok (set_coord rid (c, w) s).
Proof.
  intros [R E K I C] Hc. split; try done; cbn [coords set_coord].
  - intros x n Hx Ha. destruct (decide (rid = i_attempt x)) as [->|Hn]; [rewrite lookup_insert_eq; by eexists|]. rewrite lookup_insert_ne by done. by eapply I.
  - intros rid' c' w' [[<- [= <- <-]]|[_ H]]%lookup_insert_Some; [|destruct (C rid' c' w' H)]; [destruct Hc|]; by split.
Qed.

Lemma coordinator_idle s rid c c' w :
  coordinator_ok s rid c w -> c_proposal c <= c_proposal c' -> c_state c' = INITIAL -> coordinator_ok s rid c' None.
Proof. intros [(n & e & H1 & H2 & H3) _] Hp Hst. split; [|done]. exists n, e. split; [done|]. split; [lia|]. by rewrite Hst. Qed.

Lemma elected_end s rid n e : coords_ok s -> elected_with s rid n e -> 0 <= e < UINT64_MAX.
Proof.
  intros Hs (l & resp & H1 & [_ H2] & H4 & H5 & H6). apply implicit_phase_done in H4 as (used & rest & Eu & Hr); [|lia].
  apply replies_used in Eu as (l1 & l2 & -> & <-). destruct Hr as [| |e' Hv Hk [(r & Hin & Hpos) _]]; try done. injection H6 as ->.
  unfold votes in Hin. apply list_elem_of_filter in Hin as [_ Hin]. apply list_elem_of_In, in_map_iff in Hin as (y & <- & Hy%list_elem_of_In).
  rewrite Forall_forall in H2. destruct (H2 y) as [Hyp Ha]; [apply elem_of_app; by left|]. rewrite <- Ha in H1. by eapply (cs_ends s Hs y).
Qed.

Lemma coords_elected s rid n l resp i0 c1 c2 pos c f :
  coords_ok s -> 0 < n -> attempts s !! rid = Some (mkPromiseRequest n None) -> replies_to s rid l ->
  implicit_phase quorum (map p_resp l) = Ok (Done resp) ->
  checkPromisePhase resp (mkCoordinator ELECTING n i0) = Ok (c1, true) ->
  updateIndexAfterElected c1 = (c2, pos) -> electing_callback (Ready pos) c2 = Ok (c, f) ->
  coords s !! rid = None -> coords_ok (set_coord rid (c, None) s).
Proof.
  intros Hs H0 Ha Hl Hph E1 E2 E3 Hno. apply coords_set; [done|]. unfold checkPromisePhase in E1. destruct (pr_type resp) as [[]|] eqn:Et; try done;
    [|by destruct (_ <? _)]. destruct (pr_position resp) as [e|] eqn:Ee; [|done]. cbn in E1. injection E1 as <-. injection E2 as <- <-. cbn in E3. injection E3 as <- _.
  assert (W : elected_with s rid n e) by (by exists l, resp). assert (He := elected_end s rid n e Hs W).
  split; [|done]. exists n, e. split; [done|]. split; [cbn; lia|]. intros _ _. cbn. split; [|intros x Hx Ex].
  2:{ subst rid. destruct (cs_issued s Hs x n Hx Ha) as [y Hy]. congruence. }
  rewrite u64_id by (unfold is_u64; lia). lia.
Qed.

Lemma submit_elected mk c c' a req :
  ((exists bytes, mk = append_action bytes) \/ exists to, mk = truncate_action to) -> submit mk c = Ok (c', inr (a, req)) ->
  c_state c = ELECTED /\ c' = to_state WRITING c /\ position a = c_index c /\ entry a = Some (wreq_entry req)
  /\ write_watched (c_proposal c) a = Some req.
Proof.
  intros Hmk. unfold submit. destruct (c_state c) eqn:Hst; try done. unfold start_write. rewrite Hst, bool_decide_eq_true_2 by done. cbn [negb].
  destruct Hmk as [[b ->]|[to ->]]; cbn; intros [= <- <- <-]; by split_and!.
Qed.

Lemma watched_proposal n a req : write_watched n a = Some req -> wreq_proposal req = n /\ wreq_position req = position a.
Proof. unfold write_watched. destruct (entry a); [|done]. by intros [= <-]. Qed.

Lemma coords_submit s rid n e c w mk c' a req :
  coords_ok s -> elected_with s rid n e -> coords s !! rid = Some (c, w) ->
  ((exists bytes, mk = append_action bytes) \/ exists to, mk = truncate_action to) ->
  submit mk c = Ok (c', inr (a, req)) -> valid_write req ->
  coords_ok (add_issue (mkIssue rid req) (set_coord rid (c', Some (a, req)) s)).
Proof.
  intros Hs Hw Hc Hmk Hsub Hv. destruct (submit_elected mk c c' a req Hmk Hsub) as (S1 & -> & S3 & S4 & S5). apply watched_proposal in S5 as [P1 P2].
  assert (Hck := cs_coords s Hs rid c w Hc). destruct Hs as [R E K I C]. split; try done; cbn [coords set_coord add_issue issued attempts].
  - intros x m [->|Hx]%elem_of_cons Ha; cbn in *; [rewrite lookup_insert_eq; by eexists|].
    destruct (decide (rid = i_attempt x)) as [->|Hn]; [rewrite lookup_insert_eq; by eexists|]. rewrite lookup_insert_ne by done. by eapply I.
  - intros rid' c2 w2 [[<- [= <- <-]]|[Hn H]]%lookup_insert_Some.
    + destruct Hck as [(n' & e' & G1 & G2 & G3) _]. split; [|intros a' req' [= <- <-]; split_and!; [done|done|done|]; cbn; rewrite <- S3, <- P2; apply Hv].
      exists n', e'. split; [done|]. split; [done|]. cbn [to_state c_proposal c_state c_index]. intros En _. destruct (G3 En) as [L1 L2]; [by rewrite S1|]. split; [done|].
      intros x [->|Hx]%elem_of_cons Ex; [right; split; [done|]; cbn; congruence|]. destruct (L2 x Hx Ex) as [?|[? _]]; [by left|congruence].
    + destruct (C rid' c2 w2 H) as [(n' & e' & G1 & G2 & G3) G4]. split; [|done]. exists n', e'. split; [done|]. split; [done|]. intros En Hst. destruct (G3 En Hst) as [L1 L2].
      split; [done|]. intros x [->|Hx]%elem_of_cons Ex; [done|]. by apply L2.
Qed.

Lemma coords_finish s rid c a req l writing learning r c' f :
  coords_ok s -> coords s !! rid = Some (c, Some (a, req)) ->
  (forall resps, writing = Ready resps -> resps = map w_resp l /\ write_replies_to s rid req l) ->
  finish_write quorum a (mkEnv writing learning r) c = Ok (c', f) -> f <> Pending -> coords_ok (set_coord rid (c', None) s).
Proof.
  intros Hs Hc Hl Hf Hp. apply coords_set; [done|]. assert (Hck := cs_coords s Hs rid c _ Hc). destruct (ck_writing _ _ _ _ Hck a req eq_refl) as (W1 & W2 & W3 & W4).
  assert (Hidle : forall c2 f2, (let? c3 := (if bool_decide (c_state c = WRITING) then Ok (to_state INITIAL c) else Err CheckFailed) in Ok (c3, f2)) = Ok (c2, f) ->
    coordinator_ok s rid c2 None).
  { intros c2 f2. rewrite bool_decide_eq_true_2 by done. cbn. intros [= <- _]. by eapply coordinator_idle; [exact Hck|cbn; lia|]. }
  unfold finish_write in Hf. cbn [we_writing we_learning we_local] in Hf. destruct writing as [| | |resps]; [by injection Hf as _ <-|by eapply Hidle..|].
  destruct (Hl resps eq_refl) as [-> [_ Hr]]. destruct (write_phase quorum (position a) (map w_resp l)) as [[st|resp]|] eqn:Eph; [by injection Hf as _ <-| |done]. cbn in Hf.
  apply write_phase_done in Eph as (used & rest & Eu & Hres); [|lia]. apply replies_used in Eu as (l1 & l2 & -> & <-). apply Forall_prefix in Hr. rewrite Forall_forall in Hr.
  assert (Hrej : forall h, highest_nack (map w_resp l1) (Some h) -> c_proposal c < h).
  { intros h [(x & Hx & Hx1 & <-) _]. apply votes_sub in Hx. apply list_elem_of_In, in_map_iff in Hx as (y & <- & Hy%list_elem_of_In).
    destruct (Hr y Hy) as (Y1 & _ & Y3). rewrite <- W3, <- Y3. by apply (cs_rejects s Hs). }
  unfold checkWritePhase in Hf. destruct Hres as [Hi|h Hv Hk|Hv Hk]; cbn in Hf.
  - destruct Hck as [(n & e & G1 & G2 & G3) _]. by rewrite (proj2 (Z.ltb_lt 0 (c_proposal c))) in Hf by lia.
  - specialize (Hrej h Hk). destruct (h <? c_proposal c); [done|]. cbn in Hf. unfold writingFinished in Hf. cbn in Hf. rewrite bool_decide_eq_true_2 in Hf by done. cbn in Hf.
    injection Hf as <- _. destruct Hck as [(n & e & G1 & G2 & G3) _]. split; [|done]. exists n, e. cbn. split; [done|]. split; lia.
  - destruct learning as [| | |[]]; [by injection Hf as _ <-|by eapply Hidle..|]. destruct (checkLearnPhase a r); [done|]. cbn in Hf.
    unfold writingFinished in Hf. cbn in Hf. rewrite bool_decide_eq_true_2 in Hf by done. cbn in Hf. injection Hf as <- _.
    destruct Hck as [(n & e & G1 & G2 & G3) _]. split; [|done]. exists n, e. cbn. unfold valid_position in W4. rewrite u64_id by (unfold is_u64; lia).
    split; [done|]. split; [done|]. intros En _. destruct (G3 En) as [L1 L2]; [by rewrite W1|]. split; [lia|]. intros x Hx Ex. left. destruct (L2 x Hx Ex) as [?|[_ ?]]; lia.
Qed.

(** Changes of replicas and messages. *)
Lemma coords_same s s' :
  attempts s' = attempts s -> preplies s' = preplies s -> issued s' = issued s -> wreplies s' = wreplies s -> coords s' = coords s ->
  coords_ok s -> coords_ok s'.
Proof.
  intros Ea Ep Ei Ew Ec Hs. assert (C := coords_grow s s'). rewrite Ea, Ep, Ei, Ec in C. specialize (C ltac:(done) ltac:(done) ltac:(done) eq_refl Hs).
  destruct Hs as [R E K I _]. split; rewrite ?Ea, ?Ep, ?Ei, ?Ew, ?Ec; done.
Qed.

Lemma coords_attempt s rid req : coords_ok s -> attempts s !! rid = None ->
  (forall x, x ∈ issued s -> is_Some (attempts s !! i_attempt x)) -> coords_ok (add_attempt rid req s).
Proof.
  intros Hs Hn Hi. assert (Ha : forall k q, attempts s !! k = Some q -> <[rid := req]> (attempts s) !! k = Some q).
  { intros k q Hk. rewrite lookup_insert_ne; [done|congruence]. }
  assert (C := coords_grow s (add_attempt rid req s) Ha ltac:(done) ltac:(done) eq_refl Hs).
  destruct Hs as [R E K I _]. split; try done; cbn [attempts add_attempt preplies issued coords].
  - intros x n e Hx. destruct (K x Hx) as [q Hq]. rewrite (Ha _ _ Hq). intros [= ->]. by eapply E.
  - intros x Hx. destruct (K x Hx) as [q Hq]. exists q. by apply Ha.
  - intros x n Hx. destruct (Hi x Hx) as [q Hq]. rewrite (Ha _ _ Hq). intros [= ->]. by eapply I.
Qed.

Lemma coords_promise s d rid req i r' resp :
  coords_ok s -> wf_replica (reps s i) -> attempts s !! rid = Some req -> promise d req (reps s i) = Ok (r', resp) ->
  coords_ok (add_preply rid i resp (set_rep i r' s)).
Proof.
  intros Hs Hwf Hreq E. destruct resp as [resp|]; [|eapply (coords_same s); done].
  assert (C := coords_grow s (add_preply rid i (Some resp) (set_rep i r' s)) ltac:(done) ltac:(by intros x Hx; right) ltac:(done) eq_refl Hs).
  destruct Hs as [R F K I _]. split; try done; cbn [attempts add_preply preplies set_rep].
  - intros x n e [->|Hx]%elem_of_cons; [|by apply F]. cbn. rewrite Hreq. intros [= ->] Hpos. unfold promise in E. case_bool_decide; [by injection E as _ <-|]. cbn in E.
    destruct (implicit_promise_spec d n (reps s i)) as (r1 & re & E' & _ & Ho). rewrite E in E'. injection E' as <- <-.
    destruct Ho as [[_ Ho]|(_ & Ho & _)]; [destruct (Ho resp eq_refl) as [-> _]; done|]. injection Ho as ->. injection Hpos as <-. by apply wf_end_valid.
  - intros x [->|Hx]%elem_of_cons; [by eexists|by apply K].
Qed.

Lemma coords_fill s rid n p req :
  coords_ok s -> attempts s !! rid = Some (mkPromiseRequest n (Some p)) -> coords_ok (add_issue (mkIssue rid req) s).
Proof.
  intros Hs Ha. assert (Hno : forall c w, coords s !! rid <> Some (c, w)).
  { intros c w H. destruct (cs_coords s Hs rid c w H) as [(m & e & (l & resp & H1 & _) & _) _]. congruence. }
  assert (C := coords_grow s (add_issue (mkIssue rid req) s) ltac:(done) ltac:(done)). cbn [issued add_issue coords] in C.
  specialize (C ltac:(intros x k c w [->|Hx]%elem_of_cons Hk Ek; [cbn in Ek; subst k; by destruct (Hno c w)|done]) eq_refl Hs).
  destruct Hs as [R E K I _]. split; try done. cbn [issued add_issue coords attempts]. intros x m [->|Hx]%elem_of_cons; [cbn; rewrite Ha; done|by apply I].
Qed.

Lemma coords_write s x i d r' resp :
  coords_ok s -> wf_replica (reps s i) -> valid_write (i_req x) -> write d (i_req x) (reps s i) = Ok (r', resp) ->
  coords_ok (add_wreply (i_attempt x) i (i_req x) resp (set_rep i r' s)).
Proof.
  intros Hs Hwf Hv E. destruct resp as [resp|]; [|by apply (coords_same s)].
  assert (C := coords_grow s (add_wreply (i_attempt x) i (i_req x) (Some resp) (set_rep i r' s)) ltac:(done) ltac:(done) ltac:(done) eq_refl Hs).
  destruct Hs as [R F K I _]. split; try done. cbn [wreplies add_wreply]. intros y [->|Hy]%elem_of_cons; [cbn|by apply R].
  destruct (write_spec d (i_req x) _ Hwf Hv) as (r1 & re & E' & Ho & _). rewrite E in E'. injection E' as <- <-.
  inversion Ho; subst; done || (cbn; lia).
Qed.

(** ** Reachable systems *)

Record full_invariant (s : System) : Prop := {
  fi_system : invariant s;
  fi_members : forall y, y ∈ wreplies s -> w_from y ∈ members;
  fi_attempts : forall x, x ∈ issued s -> is_Some (attempts s !! i_attempt x);
  fi_coords : coords_ok s;
}.

Lemma invariant_init : full_invariant system_init.
Proof.
  assert (Hnil : forall A (x : A), x ∈ (@nil A) -> False) by (intros A x; apply not_elem_of_nil).
  split; try (intros y Hy; by apply Hnil in Hy).
  - assert (Hs : forall p, stored initial p = None) by (intros p; rewrite initial_eq; apply lookup_empty).
    assert (Hacc : forall i x, ~ accepted system_init i x).
    { intros i x (re & Hin & _). by apply not_elem_of_nil in Hin. }
    split; cbn; try done; try (intros x; intros; by destruct (not_elem_of_nil x)).
    + intros _. apply initial_wf.
    + intros x i Hx. by destruct (Hacc i x).
    + intros x i Hx. by destruct (Hacc i x).
  - split; cbn; try (intros x; intros; by destruct (not_elem_of_nil x)); done.
Qed.

(** An orderly submission is the write of a coordinator at a position past the
    end it was told, where it has not written. *)
Lemma inv_submit s rid n e c w mk c' a req :
  full_invariant s -> elected_with s rid n e -> coords s !! rid = Some (c, w) ->
  ((exists bytes, mk = append_action bytes) \/ exists to, mk = truncate_action to) ->
  submit mk c = Ok (c', inr (a, req)) -> valid_write req -> c_proposal c = n ->
  invariant (add_issue (mkIssue rid req) (set_coord rid (c', Some (a, req)) s)).
Proof.
  intros [Hinv _ _ Hco] (l & resp & Ha & Hl & Hph & Ht & He) Hc Hmk Hsub Hv Hn.
  destruct (submit_elected mk c c' a req Hmk Hsub) as (S1 & -> & S3 & S4 & S5). rewrite Hn in S5.
  destruct (cs_coords s Hco rid c w Hc) as [(n' & e' & (l' & resp' & Ha' & Hl' & Hph' & Ht' & He') & G2 & G3) _].
  rewrite Ha in Ha'. injection Ha' as <-. destruct (G3 Hn) as [L1 L2]; [by rewrite S1|].
  change (invariant (set_coord rid (to_state WRITING c, Some (a, req)) (add_issue (mkIssue rid req) s))). apply inv_set_coord.
  apply (inv_coordinator_write s rid n l' resp' e' a req); try done; [lia|].
  apply Forall_forall. intros x Hx Ex. destruct (L2 x Hx Ex) as [?|[? _]]; [lia|congruence].
Qed.

Lemma invariant_step s s' : step orderly s s' -> full_invariant s -> full_invariant s'.
Proof.
  intros Hstep Hfull. assert (Hf := Hfull). destruct Hf as [Hinv Hm Hat Hco]. destruct Hstep.
  - split; [by apply inv_add_attempt|done| |by apply coords_attempt]. intros x Hx. destruct (Hat x Hx) as [q Hq]. cbn. exists q.
    rewrite lookup_insert_ne; [done|congruence].
  - split; [by eapply inv_promise|done|done|by eapply coords_promise; [|apply (inv_wf s Hinv)|..]].
  - split; [by eapply inv_fill_write|done| |by eapply coords_fill]. intros x [->|Hx]%elem_of_cons; [by eexists|by apply Hat].
  - split; [by eapply inv_fill_learn|done|done|by apply (coords_same s)].
  - split; [by apply inv_set_coord|done|done|by eapply coords_elected].
  - destruct H as (l & resp & H & Hrest). split; [by eapply inv_submit; [..|auto]; try done; exists l, resp|done| |by eapply coords_submit; [|exists l, resp|..]].
    intros x [->|Hx]%elem_of_cons; [by eexists|by apply Hat].
  - split; [by apply inv_set_coord|done|done|by eapply coords_finish].
  - split; [by apply inv_set_coord|done|done|]. apply coords_set; [done|]. unfold demote. rewrite H0. eapply coordinator_idle; [by apply (cs_coords s Hco)|cbn; lia|done].
  - split; [eapply inv_write; eauto| |done|eapply coords_write; [done|apply (inv_wf s Hinv)|by apply (inv_issued s Hinv)|done]].
    cbn. destruct resp; [|done]. intros y [->|Hy]%elem_of_cons; [done|auto].
  - split; [by eapply inv_learn|done|done|by apply (coords_same s)].
  - split; [by eapply inv_learned_step; eauto|done|done|by apply (coords_same s)].
  - split; [|done|done|by apply (coords_same s)]. apply inv_set_rep; [done|]. apply update_spec in H as (Es & Eb & _ & Ep & Hw).
    apply rep_ok_same; [done|apply Hw, (inv_wf s Hinv)|done|done|lia].
  - split; [|done|done|by apply (coords_same s)]. assert (S := restart_same_log _ (inv_wf s Hinv i)). apply inv_set_rep; [done|].
    apply rep_ok_same; [done|apply restart_wf, (inv_wf s Hinv)|apply S..|]. unfold promised_. rewrite (sl_metadata _ _ S). lia.
Qed.

Lemma invariant_reachable s : rtc (step orderly) system_init s -> full_invariant s.
Proof.
  intros H. assert (Hi := invariant_init). revert Hi. induction H; eauto using invariant_step.
Qed.
End System.

(** C1. Agreement: in every system of replicas, coordinators and fill
    processes that is reachable with messages lost, delayed and reordered,
    failing disks, restarts and truncations, two writes that were accepted by
    a quorum at the same position wrote the same entry, provided that no write
    reaches a replica that has performed a newer one at its position, that no
    learned message takes back a truncation that its receiver has recorded,
    and that a coordinator that met a rejection is not used again before it is
    elected again ([orderly]).  The code enforces none of the three. *)
Theorem agreement members quorum s x y :
  (size members < 2 * quorum)%nat -> rtc (step members quorum orderly) system_init s ->
  chosen members quorum s x -> chosen members quorum s y ->
  wreq_position (i_req x) = wreq_position (i_req y) ->
  wreq_entry (i_req x) = wreq_entry (i_req y).
Proof.
  intros Hm Hs. assert (Hinv := fi_system _ _ s (invariant_reachable members quorum Hm s Hs)).
  by apply (invariant_agreement members quorum Hm s).
Qed.

(** C2. All replicas learn the same log: two learned actions that any replicas
    store at one position carry the same entry, unless one of them only
    records that the position was truncated, in every system that is reachable
    under the assumptions of the first claim: writes reach a replica in order,
    learned messages take back no truncation, and a rejected coordinator is
    not used again before it is elected again. *)
Theorem learned_agreement members quorum s i j p a b :
  (size members < 2 * quorum)%nat -> rtc (step members quorum orderly) system_init s ->
  stored (reps s i) p = Some a -> stored (reps s j) p = Some b ->
  is_learned a = true -> is_learned b = true ->
  is_tombstone (entry a) = false -> is_tombstone (entry b) = false ->
  entry a = entry b.
Proof.
  intros Hm Hs Ha Hb Hla Hlb Hta Htb.
  assert (Hinv := fi_system _ _ s (invariant_reachable members quorum Hm s Hs)).
  destruct (inv_learned _ _ s Hinv i p a Ha Hla) as [_ [?|(x & Hx & Hpx & ->)]]; [congruence|].
  destruct (inv_learned _ _ s Hinv j p b Hb Hlb) as [_ [?|(y & Hy & Hpy & ->)]]; [congruence|].
  f_equal. apply (invariant_agreement members quorum Hm s); [done..|].
  rewrite Hpx, Hpy. assert (Hwf := inv_wf _ _ s Hinv).
  apply (wf_stored _ (Hwf i)) in Ha as [-> _]. by apply (wf_stored _ (Hwf j)) in Hb as [-> _].
Qed.

(** ** Runs *)

Definition three : gset nat := {[1; 2; 3]}%nat.

Ltac find_elem :=
  first [apply list_elem_of_here | apply list_elem_of_further; find_elem].

Ltac chosen_by Q :=
  exists (Q : gset nat); split_and!; [set_solver|vm_compute; lia|];
  intros i [->%elem_of_singleton| ->%elem_of_singleton]%elem_of_union;
  eexists; (split; [find_elem|split; reflexivity]).

Ltac run_step t := eapply rtc_l; [t|].
Ltac run_update i :=
  run_step ltac:(eapply (st_update _ _ _ _ i healthy VOTING); vm_compute; reflexivity).
Ltac run_attempt rid req :=
  run_step ltac:(apply (st_attempt _ _ _ _ rid req);
                 [vm_compute; reflexivity | cbn; unfold valid_position, UINT64_MAX; exact I || lia]).
Ltac run_promise rid i :=
  run_step ltac:(eapply (st_promise _ _ _ _ rid i _ healthy);
                 [apply (bool_decide_unpack _); vm_compute; exact I
                 | vm_compute; reflexivity | vm_compute; reflexivity]).
Ltac replies_found :=
  split;
  [apply (bool_decide_unpack _); vm_compute; exact I
  | repeat (apply List.Forall_cons; [split; [find_elem | reflexivity]|]); apply List.Forall_nil].
Ltac run_elected rid l :=
  run_step ltac:(eapply (st_elected _ _ _ _ rid _ l _ 0);
    [|vm_compute; reflexivity | replies_found | vm_compute; reflexivity..]; cbn; lia).
Ltac run_submit rid l mk :=
  run_step ltac:(eapply (st_submit _ _ _ _ rid _ _ _ _ mk);
    [exists l; eexists; split; [vm_compute; reflexivity|]; split; [replies_found|];
       split; [vm_compute; reflexivity|]; split; reflexivity
    | vm_compute; reflexivity | first [left; eexists; reflexivity | right; eexists; reflexivity]
    | vm_compute; reflexivity | valid_concrete | first [discriminate | intros _; reflexivity]]).
Ltac write_replies_found :=
  split;
  [apply (bool_decide_unpack _); vm_compute; exact I
  | repeat (apply List.Forall_cons; [split; [find_elem | split; reflexivity]|]); apply List.Forall_nil].
Ltac run_rejected rid l :=
  run_step ltac:(eapply (st_finish _ _ _ _ rid _ _ _ l (Ready (map w_resp l)) Pending 0);
    [vm_compute; reflexivity | intros ? [= <-]; split; [reflexivity | write_replies_found]
    | discriminate | vm_compute; reflexivity | discriminate]).
Ltac run_fill_write rid l :=
  run_step ltac:(eapply (st_fill_write _ _ _ _ rid _ _ l);
    [vm_compute; reflexivity | replies_found | vm_compute; reflexivity | vm_compute; reflexivity
    | repeat (apply List.Forall_cons; [cbn; discriminate|]); apply List.Forall_nil]).
Ltac run_write x i :=
  run_step ltac:(eapply (st_write _ _ _ _ x i healthy);
    [apply (bool_decide_unpack _); vm_compute; exact I | find_elem
    | first [discriminate
            | intros _ ? ? Ha Hm; vm_compute in Ha;
              first [discriminate Ha
                    | injection Ha as <-; vm_compute in Hm;
                      first [discriminate Hm | injection Hm as <-; cbn; lia]]]
    | vm_compute; reflexivity]).

Definition grants_0 : list preply :=
  [mkPreply 0 2 (promise_accept 1 (Some 0) None); mkPreply 0 3 (promise_accept 1 (Some 0) None)].
Definition grants_1 : list preply :=
  [mkPreply 1 1 (promise_accept 2 (Some 0) None); mkPreply 1 2 (promise_accept 2 (Some 0) None)].

Definition write_x1 : issue := mkIssue 0 (append_at 1 1 "x").
Definition write_y2 : issue := mkIssue 1 (append_at 2 1 "y").
Definition write_x3 : issue := mkIssue 2 (append_at 3 1 "x").

(** Without the ordering of writes the replicas' handlers do not reach
    agreement. *)

(** A delayed write breaks agreement: coordinator 0 (proposal 1) is
    promised by replicas 2 and 3, coordinator 1 (proposal 2) by 1 and 2 and has
    [y] accepted by 2 and 3; the late write of [x] with proposal 1 then
    overwrites [y] at replica 3, whose promise accepting [y] did not raise, and
    a fill with proposal 3 asks 1 and 3, finds only [x], and gets it chosen. *)
Theorem delayed_write_breaks_agreement :
  exists s, rtc (step three 2 (mkAssumptions false true true)) system_init s
  /\ chosen three 2 s write_y2 /\ chosen three 2 s write_x3
  /\ wreq_position (i_req write_y2) = wreq_position (i_req write_x3)
  /\ wreq_entry (i_req write_y2) <> wreq_entry (i_req write_x3).
Proof.
  eexists. split.
  { run_update 1%nat. run_update 2%nat. run_update 3%nat.
    run_attempt 0%nat (implicit 1). run_promise 0%nat 2%nat. run_promise 0%nat 3%nat.
    run_attempt 1%nat (implicit 2). run_promise 1%nat 1%nat. run_promise 1%nat 2%nat.
    run_elected 0%nat grants_0. run_submit 0%nat grants_0 (append_action "x").
    run_elected 1%nat grants_1. run_submit 1%nat grants_1 (append_action "y").
    run_write write_y2 2%nat. run_write write_y2 3%nat. run_write write_x1 3%nat.
    run_attempt 2%nat (explicit 3 1). run_promise 2%nat 1%nat. run_promise 2%nat 3%nat.
    run_fill_write 2%nat
      [mkPreply 2 1 (promise_accept 3 (Some 1) None);
       mkPreply 2 3 (promise_accept 3 None (Some (mkAction 1 1 (Some 1) None (Some (APPEND "x")))))].
    run_write write_x3 1%nat. run_write write_x3 3%nat.
    apply rtc_refl. }
  split_and!; [| |done|done].
  - chosen_by ({[2; 3]}%nat : gset nat).
  - chosen_by ({[1; 3]}%nat : gset nat).
Qed.

Ltac run_learn x l a :=
  run_step ltac:(apply (st_learn _ _ _ _ x l a);
    [find_elem
    | write_replies_found | vm_compute; reflexivity | reflexivity | reflexivity]).
Ltac run_learned i a :=
  run_step ltac:(eapply (st_learned _ _ _ _ i a healthy);
    [find_elem
    | intros _ ? Ha; vm_compute in Ha; (discriminate Ha || (injection Ha as <-; vm_compute; discriminate))
    | vm_compute; reflexivity]).

Definition learned_x : Action := mkAction 1 1 (Some 1) (Some true) (Some (APPEND "x")).

(** A run in order: [x] is chosen with proposal 1, chosen again by a fill with
    proposal 3, and learned by replicas 1 and 2. *)
Lemma ordered_run :
  exists s, rtc (step three 2 orderly) system_init s
  /\ chosen three 2 s write_x1 /\ chosen three 2 s write_x3
  /\ stored (reps s 1%nat) 1 = Some learned_x /\ stored (reps s 2%nat) 1 = Some learned_x.
Proof.
  eexists. split.
  { run_update 1%nat. run_update 2%nat. run_update 3%nat.
    run_attempt 0%nat (implicit 1). run_promise 0%nat 2%nat. run_promise 0%nat 3%nat.
    run_elected 0%nat grants_0. run_submit 0%nat grants_0 (append_action "x").
    run_write write_x1 2%nat. run_write write_x1 3%nat.
    run_attempt 2%nat (explicit 3 1). run_promise 2%nat 1%nat. run_promise 2%nat 3%nat.
    run_fill_write 2%nat
      [mkPreply 2 1 (promise_accept 3 (Some 1) None);
       mkPreply 2 3 (promise_accept 3 None (Some (mkAction 1 1 (Some 1) None (Some (APPEND "x")))))].
    run_write write_x3 1%nat. run_write write_x3 3%nat.
    run_learn write_x1
      [mkWreply 0 2 (append_at 1 1 "x") (write_reply ACCEPT 1 1);
       mkWreply 0 3 (append_at 1 1 "x") (write_reply ACCEPT 1 1)] (mkAction 1 1 (Some 1) None (Some (APPEND "x"))).
    run_learned 1%nat learned_x. run_learned 2%nat learned_x.
    apply rtc_refl. }
  split_and!; [| |vm_compute; reflexivity..].
  - chosen_by ({[2; 3]}%nat : gset nat).
  - chosen_by ({[1; 3]}%nat : gset nat).
Qed.

Lemma agreement_witness : wreq_entry (i_req write_x1) = wreq_entry (i_req write_x3).
Proof.
  destruct ordered_run as (s & Hs & H1 & H3 & _).
  apply (agreement three 2 s write_x1 write_x3).
  - vm_compute. lia.
  - exact Hs.
  - exact H1.
  - exact H3.
  - reflexivity.
Defined.

Lemma learned_agreement_witness : entry learned_x = entry learned_x.
Proof.
  destruct ordered_run as (s & Hs & _ & _ & H1 & H2).
  apply (learned_agreement three 2 s 1%nat 2%nat 1 learned_x learned_x);
    [vm_compute; lia|exact Hs|exact H1|exact H2|reflexivity..].
Defined.

(** ** A coordinator that goes on after a rejection *)

Definition grants_a : list preply :=
  [mkPreply 0 1 (promise_accept 1 (Some 0) None); mkPreply 0 2 (promise_accept 1 (Some 0) None)].
Definition grants_b : list preply :=
  [mkPreply 1 2 (promise_accept 2 (Some 0) None); mkPreply 1 3 (promise_accept 2 (Some 0) None)].
Definition write_a1 : issue := mkIssue 0 (append_at 1 1 "a").
Definition write_a2 : issue := mkIssue 0 (append_at 2 1 "a").
Definition write_b2 : issue := mkIssue 1 (append_at 2 1 "b").

(** Retrying an append after it returned none breaks agreement: coordinator 0
    is elected with proposal 1 by replicas 1 and 2, coordinator 1 with proposal
    2 by 2 and 3.  The append of [a] is rejected by 2 and 3, coordinator 0
    adopts its rival's proposal without a promise, and when it appends again
    both write at position 1 with proposal 2: replicas 1 and 2 accept [a],
    replicas 2 and 3 accept [b]. *)
Theorem retry_after_rejection_breaks_agreement :
  exists s, rtc (step three 2 (mkAssumptions true true false)) system_init s
  /\ chosen three 2 s write_a2 /\ chosen three 2 s write_b2
  /\ wreq_position (i_req write_a2) = wreq_position (i_req write_b2)
  /\ wreq_entry (i_req write_a2) <> wreq_entry (i_req write_b2).
Proof.
  eexists. split.
  { run_update 1%nat. run_update 2%nat. run_update 3%nat.
    run_attempt 0%nat (implicit 1). run_promise 0%nat 1%nat. run_promise 0%nat 2%nat.
    run_elected 0%nat grants_a.
    run_attempt 1%nat (implicit 2). run_promise 1%nat 2%nat. run_promise 1%nat 3%nat.
    run_elected 1%nat grants_b.
    run_submit 0%nat grants_a (append_action "a").
    run_write write_a1 2%nat. run_write write_a1 3%nat.
    run_rejected 0%nat [mkWreply 0 2 (append_at 1 1 "a") (write_reply REJECT 2 1);
                        mkWreply 0 3 (append_at 1 1 "a") (write_reply REJECT 2 1)].
    run_submit 0%nat grants_a (append_action "a").
    run_write write_a2 1%nat. run_write write_a2 2%nat.
    run_submit 1%nat grants_b (append_action "b").
    run_write write_b2 2%nat. run_write write_b2 3%nat.
    apply rtc_refl. }
  split_and!; [| |done|done].
  - chosen_by ({[1; 2]}%nat : gset nat).
  - chosen_by ({[2; 3]}%nat : gset nat).
Qed.
