(* ===== verification/Recover.v ===== *)
(** * Recovery and catch-up

    [src/src/log/recover.cpp]: the protocol that decides the next status of a
    replica that may not vote yet, and the process that carries it out;
    [src/src/log/catchup.cpp]: catching up one position, a range and all the
    missing positions; the reader of [src/src/log/log.cpp].  Messages, disk and
    catch-up results arrive as arguments. *)

From stdpp Require Import base gmap strings list relations functions fin_sets.
From S2P Require Import Prelude Strings Storage Replica ReplicaSafety Consensus Coordinator.
Local Open Scope Z_scope.

(** ** [RecoverProtocolProcess] *)

(** [hashmap<Metadata::Status, size_t> responsesReceived] by its four keys. *)
Record RecoverProtocol := mkRecoverProtocol {
  rp_received : Status -> nat;
  rp_lowestBegin : option Z;
  rp_highestEnd : option Z;
}.

(** [broadcasted]: the counters are reset. *)
Definition recover_init : RecoverProtocol := mkRecoverProtocol (fun _ => 0%nat) None None.

Definition bump (st : Status) (f : Status -> nat) : Status -> nat :=
  fun x => if decide (x = st) then S (f x) else f x.

Definition max_option (o : option Z) (z : Z) : option Z :=
  Some (match o with Some x => Z.max x z | None => z end).

Definition starting_response : RecoverResponse := mkRecoverResponse STARTING None None.
Definition voting_response : RecoverResponse := mkRecoverResponse VOTING None None.

(** [received] up to the call of [receive] for the next response. *)
Definition recover_received (quorum : nat) (status : Status) (autoInitialize : bool)
    (resp : RecoverResponse) (s : RecoverProtocol)
  : result abort (progress RecoverProtocol RecoverResponse) :=
  let received := bump (rr_status resp) (rp_received s) in
  let? bounds :=
    (if bool_decide (rr_status resp = VOTING) then
       match rr_begin resp, rr_end resp with
       | Some b, Some e => Ok (min_option (rp_lowestBegin s) b, max_option (rp_highestEnd s) e)
       | _, _ => Err CheckFailed
       end
     else Ok (rp_lowestBegin s, rp_highestEnd s)) in
  let '(lowest, highest) := bounds in
  let s' := mkRecoverProtocol received lowest highest in
  if (quorum <=? received VOTING)%nat then
    match lowest, highest with
    | Some b, Some e =>
        if b <=? e then Ok (Done (mkRecoverResponse RECOVERING (Some b) (Some e)))
        else Err CheckFailed
    | _, _ => Err CheckFailed
    end
  else
    let clusterSize := (2 * quorum - 1)%nat in
    if autoInitialize then
      match status with
      | EMPTY =>
          if (clusterSize <=? received EMPTY + received STARTING)%nat
          then Ok (Done starting_response) else Ok (Waiting s')
      | STARTING =>
          if (clusterSize <=? received STARTING + received VOTING)%nat
          then Ok (Done voting_response) else Ok (Waiting s')
      | _ => Ok (Waiting s')
      end
    else Ok (Waiting s').

(** The protocol over all the responses, in the order [select] gives them;
    [None] asks for another run. *)
Definition recover_protocol (quorum : nat) (status : Status) (autoInitialize : bool)
    (resps : list RecoverResponse) : result abort (option RecoverResponse) :=
  let? x := run_phase (recover_received quorum status autoInitialize) recover_init resps in
  match x with
  | Waiting _ => Ok None
  | Done r => Ok (Some r)
  end.

(** ** [RecoverProcess] *)

(** [updateReplicaStatus] and [_updateReplicaStatus]. *)
Definition updateReplicaStatus (d : disk) (st : Status) (r : Replica) : Replica * future bool :=
  match update d st r with
  | Some r' => (r', Ready true)
  | None => (r, Failed)
  end.

(** [RecoverProcess::catchup]: [catch_up] is the run of [log::catchup] on the
    shared replica. *)
Definition recover_catchup (d : disk) (b e : Z)
    (catch_up : gset Z -> Replica -> future Replica) (r : Replica)
  : result abort (Replica * future bool) :=
  if e <? b then Err CheckFailed
  else
    match catch_up (closed_interval b e) r with
    | Pending => Ok (r, Pending)
    | Failed => Ok (r, Failed)
    | Discarded => Ok (r, Discarded)
    | Ready r' => Ok (updateReplicaStatus d VOTING r')
    end.

(** [recover] and [_recover], for the results the runs of the protocol
    return; [Ready false] asks for a retry. *)
Fixpoint recover_chain (autoInitialize : bool) (d : disk)
    (catch_up : gset Z -> Replica -> future Replica)
    (runs : list (option RecoverResponse)) (r : Replica)
  : result abort (Replica * future bool) :=
  if bool_decide (status (metadata r) = VOTING) then Ok (r, Ready true)
  else
    match runs with
    | [] => Ok (r, Pending)
    | None :: _ => Ok (r, Ready false)
    | Some resp :: runs' =>
        match rr_status resp with
        | STARTING =>
            if autoInitialize then
              match updateReplicaStatus d STARTING r with
              | (r', Ready true) => recover_chain autoInitialize d catch_up runs' r'
              | (r', f) => Ok (r', f)
              end
            else Err CheckFailed
        | VOTING =>
            if autoInitialize then Ok (updateReplicaStatus d VOTING r) else Err CheckFailed
        | RECOVERING =>
            match rr_begin resp, rr_end resp with
            | Some b, Some e =>
                match updateReplicaStatus d RECOVERING r with
                | (r', Ready true) => recover_catchup d b e catch_up r'
                | (r', f) => Ok (r', f)
                end
            | _, _ => Err CheckFailed
            end
        | EMPTY => Ok (r, Failed)
        end
    end.

(** ** [CatchUpProcess] *)

Inductive catchup_phase := Checking | Filling | CaughtUp (n : Z) | CatchUpFailed.

Record CatchUpProcess := mkCatchUp { cu_proposal : Z; cu_phase : catchup_phase }.

(** [checked], with the answer of [replica->missing(position)]. *)
Definition checked (answer : option bool) (s : CatchUpProcess) : CatchUpProcess :=
  match answer with
  | None => mkCatchUp (cu_proposal s) CatchUpFailed
  | Some false => mkCatchUp (cu_proposal s) (CaughtUp (cu_proposal s))
  | Some true => mkCatchUp (cu_proposal s) Filling
  end.

(** [filled], with the result of [log::fill]. *)
Definition filled (answer : option Action) (s : CatchUpProcess) : result abort CatchUpProcess :=
  match answer with
  | None => Ok (mkCatchUp (cu_proposal s) CatchUpFailed)
  | Some a =>
      if promised a <? cu_proposal s then Err CheckFailed
      else Ok (mkCatchUp (promised a) Checking)
  end.

(** A run: the replica at each check and the result of the fill that follows
    if the position is still missing. *)
Fixpoint catch_up_one (pos : Z) (env : list (Replica * option Action)) (s : CatchUpProcess)
  : result abort CatchUpProcess :=
  match env with
  | [] => Ok s
  | (r, a) :: env' =>
      let s1 := checked (Some (missing r pos)) s in
      match cu_phase s1 with
      | Filling =>
          let? s2 := filled a s1 in
          match cu_phase s2 with
          | Checking => catch_up_one pos env' s2
          | _ => Ok s2
          end
      | _ => Ok s1
      end
  end.

(** ** [BulkCatchUpProcess] *)

Record BulkCatchUp := mkBulk { b_current : Z; b_proposal : Z; b_done : future unit }.

(** [catchup]: stop at the upper bound. *)
Definition bulk_catchup (upper : Z) (s : BulkCatchUp) : BulkCatchUp :=
  if upper <=? b_current s then mkBulk (b_current s) (b_proposal s) (Ready tt) else s.

(** [discarded] retries, [failed] fails, [succeeded] goes on with the proposal
    the position was caught up with. *)
Definition bulk_step (upper : Z) (catching : future Z) (s : BulkCatchUp) : BulkCatchUp :=
  match catching with
  | Pending => s
  | Discarded => bulk_catchup upper s
  | Failed => mkBulk (b_current s) (b_proposal s) Failed
  | Ready n => bulk_catchup upper (mkBulk (u64 (b_current s + 1)) n Pending)
  end.

(** The outcomes of the single catch-ups, for the position and proposal each
    is started with. *)
Fixpoint bulk_run (upper : Z) (env : list (Z -> Z -> future Z)) (s : BulkCatchUp) : BulkCatchUp :=
  match b_done s with
  | Pending =>
      match env with
      | [] => s
      | catch :: env' =>
          bulk_run upper env' (bulk_step upper (catch (b_current s) (b_proposal s)) s)
      end
  | _ => s
  end.

Definition bulk_start (lower upper : Z) (proposal : option Z) : BulkCatchUp :=
  bulk_catchup upper (mkBulk lower (default 0 proposal) Pending).

(** ** [CatchupMissingProcess] *)

(** [recover] and [_recover]: the end to return, and the positions to catch
    up.  [end] is a member without an initial value: [None] until it is set. *)
Inductive missing_next :=
  | Finished (end_pos : option Z)
  | MissingFailed
  | CatchUp (b e : Z).

Definition catchup_missing (st : Status) (response : option RecoverResponse) (localBegin : Z)
  : result abort missing_next :=
  if bool_decide (st <> VOTING) then Ok (Finished None)
  else
    match response with
    | None => Ok MissingFailed
    | Some resp =>
        if bool_decide (rr_status resp <> RECOVERING) then Ok MissingFailed
        else
          match rr_begin resp, rr_end resp with
          | Some b, Some e =>
              if b =? e then Ok MissingFailed
              else
                let e' := u64 (e - 1) in
                let b' := Z.min localBegin b in
                if e' <? b' then Err CheckFailed else Ok (CatchUp b' e')
          | _, _ => Err CheckFailed
          end
    end.

(** ** The reader *)

Inductive reader_error := PendingEntries | MissingEntries | NoType.

(** [LogReaderProcess::__read]. *)
Fixpoint read_entries (position_ : Z) (actions : list Action)
  : result reader_error (list (Z * string)) :=
  match actions with
  | [] => Ok []
  | a :: rest =>
      if bool_decide (performed a = None) || negb (is_learned a) then Err PendingEntries
      else if negb (position_ =? position a) then Err MissingEntries
      else
        match entry a with
        | None => Err NoType
        | Some (APPEND bytes) =>
            let? es := read_entries (u64 (position_ + 1)) rest in Ok ((position a, bytes) :: es)
        | Some _ => read_entries (u64 (position_ + 1)) rest
        end
  end.

(** ** What the protocol decides *)

Definition count (st : Status) (rs : list RecoverResponse) : nat :=
  length (filter (fun r => rr_status r = st) rs).

Lemma count_snoc st rs r :
  count st (rs ++ [r]) = (count st rs + if decide (rr_status r = st) then 1 else 0)%nat.
Proof.
  unfold count. rewrite list.filter_app, length_app, filter_cons, filter_nil.
  by case_decide.
Qed.

(** [b] and [e] are the lowest beginning and the highest end of the voting
    replicas in [rs]. *)
Definition bounds (rs : list RecoverResponse) (b e : option Z) : Prop :=
  (count VOTING rs = 0%nat -> b = None /\ e = None)
  /\ ((0 < count VOTING rs)%nat -> exists lo hi, b = Some lo /\ e = Some hi
      /\ (exists r, r ∈ rs /\ rr_status r = VOTING /\ rr_begin r = Some lo)
      /\ (exists r, r ∈ rs /\ rr_status r = VOTING /\ rr_end r = Some hi)
      /\ forall r, r ∈ rs -> rr_status r = VOTING ->
           exists x y, rr_begin r = Some x /\ rr_end r = Some y /\ lo <= x /\ y <= hi).

(** What a replica answers: a voting one reports a log that is not empty. *)
Definition sound_recover (r : RecoverResponse) : Prop :=
  rr_status r = VOTING -> exists b e, rr_begin r = Some b /\ rr_end r = Some e /\ b <= e.

(** None of the three conditions for a decision holds of the responses. *)
Definition undecided (quorum : nat) (st : Status) (autoInitialize : bool) (rs : list RecoverResponse) : Prop :=
  (count VOTING rs < quorum)%nat
  /\ (autoInitialize = true -> st = EMPTY -> (count EMPTY rs + count STARTING rs < 2 * quorum - 1)%nat)
  /\ (autoInitialize = true -> st = STARTING -> (count STARTING rs + count VOTING rs < 2 * quorum - 1)%nat).

Record recover_seen (quorum : nat) (st : Status) (auto : bool) (rs : list RecoverResponse) (s : RecoverProtocol) : Prop := {
  rs_count : forall st, rp_received s st = count st rs;
  rs_bounds : bounds rs (rp_lowestBegin s) (rp_highestEnd s);
  rs_open : undecided quorum st auto rs;
}.

Inductive recover_result (quorum : nat) (st : Status) (autoInitialize : bool)
    (rs : list RecoverResponse) : RecoverResponse -> Prop :=
  | rr_recovering b e :
      (quorum <= count VOTING rs)%nat -> bounds rs (Some b) (Some e) -> b <= e ->
      recover_result quorum st autoInitialize rs (mkRecoverResponse RECOVERING (Some b) (Some e))
  | rr_starting :
      (count VOTING rs < quorum)%nat -> autoInitialize = true -> st = EMPTY ->
      (2 * quorum - 1 <= count EMPTY rs + count STARTING rs)%nat ->
      recover_result quorum st autoInitialize rs starting_response
  | rr_voting :
      (count VOTING rs < quorum)%nat -> autoInitialize = true -> st = STARTING ->
      (2 * quorum - 1 <= count STARTING rs + count VOTING rs)%nat ->
      recover_result quorum st autoInitialize rs voting_response.

Lemma count_pos st rs r : r ∈ rs -> rr_status r = st -> (0 < count st rs)%nat.
Proof.
  intros Hr Hs. unfold count. assert (Hf : r ∈ filter (fun r => rr_status r = st) rs)
    by (by apply list_elem_of_filter).
  destruct (filter _ rs); [by apply not_elem_of_nil in Hf|]. cbn. lia.
Qed.

Lemma bounds_voting rs lo hi r b e :
  bounds rs lo hi -> rr_status r = VOTING -> rr_begin r = Some b -> rr_end r = Some e ->
  bounds (rs ++ [r]) (min_option lo b) (max_option hi e).
Proof.
  intros [H0 H1] Hs Hb He. unfold min_option, max_option. split; rewrite count_snoc, Hs, decide_True by done.
  { lia. }
  intros _. destruct (decide (count VOTING rs = 0%nat)) as [Hz|Hz].
  - destruct (H0 Hz) as [-> ->]. exists b, e. split_and!; [done..| | |].
    + exists r. split_and!; [set_solver|done..].
    + exists r. split_and!; [set_solver|done..].
    + intros r' [Hr'| ->%list_elem_of_singleton]%elem_of_app Hv; [|exists b, e; split_and!; done || lia].
      assert (Hp := count_pos VOTING rs r' Hr' Hv). lia.
  - destruct H1 as (l & h & -> & -> & (r1 & I1 & V1 & B1) & (r2 & I2 & V2 & E2) & Hall); [lia|].
    exists (Z.min l b), (Z.max h e). split_and!; [done..| | |].
    + destruct (Z.min_spec l b) as [[_ ->]|[_ ->]]; [exists r1|exists r];
        (split_and!; [set_solver|done..]).
    + destruct (Z.max_spec h e) as [[_ ->]|[_ ->]]; [exists r|exists r2];
        (split_and!; [set_solver|done..]).
    + intros r' [Hr'| ->%list_elem_of_singleton]%elem_of_app Hv.
      * destruct (Hall r' Hr' Hv) as (x & y & ? & ? & ? & ?). exists x, y. split_and!; done || lia.
      * exists b, e. split_and!; done || lia.
Qed.

Lemma bounds_other rs lo hi r :
  bounds rs lo hi -> rr_status r <> VOTING -> bounds (rs ++ [r]) lo hi.
Proof.
  intros [H0 H1] Hs. split; rewrite count_snoc, decide_False, Nat.add_0_r by done; [done|].
  intros Hp. destruct (H1 Hp) as (l & h & -> & -> & (r1 & I1 & V1) & (r2 & I2 & V2) & Hall).
  exists l, h. split_and!; [done..| | |].
  - exists r1. split; [set_solver|done].
  - exists r2. split; [set_solver|done].
  - intros r' [Hr'| ->%list_elem_of_singleton]%elem_of_app Hv; [auto|done].
Qed.

(** The status decision once the response is counted. *)
Lemma bump_count st rs r f :
  (forall st, f st = count st rs) -> bump (rr_status r) f st = count st (rs ++ [r]).
Proof.
  intros Hf. unfold bump. rewrite count_snoc, Hf.
  destruct (decide (st = rr_status r)) as [->|]; [rewrite decide_True by done|rewrite decide_False by done];
    lia.
Qed.

Lemma recover_received_spec quorum st auto rs s r :
  (0 < quorum)%nat -> recover_seen quorum st auto rs s ->
  match recover_received quorum st auto r s with
  | Ok (Waiting s') => recover_seen quorum st auto (rs ++ [r]) s'
  | Ok (Done x) => recover_result quorum st auto (rs ++ [r]) x
  | Err _ => ~ Forall sound_recover (rs ++ [r])
  end.
Proof.
  intros Hq [Hc Hb Ho]. unfold recover_received.
  assert (Hbump := fun x => bump_count x rs r (rp_received s) Hc).
  set (bs := if bool_decide (rr_status r = VOTING) then _ else _).
  assert (Hbnd : match bs with
                 | Ok (lo, hi) => bounds (rs ++ [r]) lo hi
                 | Err _ => ~ sound_recover r
                 end).
  { unfold bs. case_bool_decide as Hv; [|by apply bounds_other].
    destruct (rr_begin r) as [b|] eqn:Eb, (rr_end r) as [e|] eqn:Ee;
      [by apply bounds_voting|intros H; destruct (H Hv) as (? & ? & ? & ? & ?); congruence..]. }
  destruct bs as [[lo hi]|err]; cbn [result_bind].
  2: { intros Hok. apply Hbnd. rewrite Forall_forall in Hok. apply Hok. set_solver. }
  rewrite !Hbump.
  destruct (quorum <=? count VOTING (rs ++ [r]))%nat eqn:E1; breflect.
  - destruct (proj2 Hbnd) as (l & h & -> & -> & (r1 & I1 & V1 & B1) & _ & Hall); [lia|].
    destruct (l <=? h) eqn:El; breflect; [by apply rr_recovering|].
    intros Hok. destruct (Hall r1 I1 V1) as (x & y & B1' & E1' & Hx & Hy).
    rewrite Forall_forall in Hok. destruct (Hok r1 I1 V1) as (x' & y' & B1'' & E1'' & Hle).
    simplify_eq. lia.
  - assert (Hseen : undecided quorum st auto (rs ++ [r]) -> recover_seen quorum st auto (rs ++ [r])
      (mkRecoverProtocol (bump (rr_status r) (rp_received s)) lo hi)) by by split.
    destruct auto; [|by apply Hseen]. destruct st; try (by apply Hseen).
    + destruct (2 * quorum - 1 <=? _)%nat eqn:E2; breflect; [by apply rr_voting|by apply Hseen].
    + destruct (2 * quorum - 1 <=? _)%nat eqn:E2; breflect; [by apply rr_starting|by apply Hseen].
Qed.

(** The first response after which the protocol can decide, and what it decides. *)
Definition recover_decision (quorum : nat) (st : Status) (auto : bool) (rs : list RecoverResponse) (r : RecoverResponse) : Prop :=
  exists used x rest, rs = used ++ x :: rest /\ undecided quorum st auto used /\ recover_result quorum st auto (used ++ [x]) r.

Lemma recover_run_spec quorum st auto pre rs s :
  (0 < quorum)%nat -> recover_seen quorum st auto pre s ->
  match run_phase (recover_received quorum st auto) s rs with
  | Ok (Done r) => exists used x rest, rs = used ++ x :: rest /\ undecided quorum st auto (pre ++ used)
                     /\ recover_result quorum st auto (pre ++ used ++ [x]) r
  | Ok (Waiting s) => recover_seen quorum st auto (pre ++ rs) s
  | Err _ => ~ Forall sound_recover (pre ++ rs)
  end.
Proof.
  intros Hq. revert pre s. induction rs as [|r rs IH]; intros pre s Hs; cbn; [by rewrite app_nil_r|].
  assert (H := recover_received_spec quorum st auto pre s r Hq Hs).
  destruct (recover_received quorum st auto r s) as [[s'|x]|]; cbn.
  - specialize (IH (pre ++ [r]) s' H). rewrite <- app_assoc in IH.
    destruct (run_phase _ s' rs) as [[s''|x]|]; [done| |done].
    destruct IH as (used & y & rest & -> & Hun & Hres). exists (r :: used), y, rest. split; [done|].
    rewrite <- app_assoc in Hun, Hres. done.
  - exists [], r, rs. rewrite app_nil_r. split_and!; [done|apply Hs|done].
  - rewrite cons_middle, app_assoc. intros Hok. by apply H, (Forall_prefix _ _ rs).
Qed.

Lemma recover_protocol_spec quorum st auto rs :
  (0 < quorum)%nat ->
  match recover_protocol quorum st auto rs with
  | Ok (Some r) => recover_decision quorum st auto rs r
  | Ok None => undecided quorum st auto rs
  | Err _ => ~ Forall sound_recover rs
  end.
Proof.
  intros Hq. unfold recover_protocol.
  assert (Hi : recover_seen quorum st auto [] recover_init).
  { split; [done| |split_and!; cbn; intros; lia]. split; [done|]. cbn. lia. }
  assert (H := recover_run_spec quorum st auto [] rs recover_init Hq Hi). cbn [app] in H.
  destruct (run_phase _ recover_init rs) as [[s|r]|]; cbn; [apply H|done|done].
Qed.

(** C10. The recover protocol decides as its description says, for every order
    of sound responses, in which a voting replica reports a log that is not
    empty: it never aborts.  It decides at the first response with which one of
    three conditions holds of the responses so far, and asks for a rerun
    exactly if none does after all of them: a quorum of voting replicas gives
    [RECOVERING], from the lowest beginning to the highest end they report;
    otherwise, with auto-initialisation only, a whole cluster of [2 * quorum -
    1] replicas that are empty or starting gives [STARTING] to an empty
    replica, and one of replicas that are starting or voting gives [VOTING] to
    a starting one. *)
Theorem recover_protocol_correct quorum st auto rs :
  (0 < quorum)%nat -> Forall sound_recover rs ->
  match recover_protocol quorum st auto rs with
  | Ok (Some r) => recover_decision quorum st auto rs r
  | Ok None => undecided quorum st auto rs
  | Err _ => False
  end.
Proof.
  intros Hq Hok. assert (H := recover_protocol_spec quorum st auto rs Hq).
  destruct (recover_protocol quorum st auto rs) as [[r|]|]; [done|done|]. by apply H.
Qed.

Lemma recover_protocol_correct_witness :
  let rs := [mkRecoverResponse VOTING (Some 3) (Some 9); mkRecoverResponse EMPTY None None;
             mkRecoverResponse VOTING (Some 1) (Some 7)] in
  recover_protocol 2 EMPTY true rs = Ok (Some (mkRecoverResponse RECOVERING (Some 1) (Some 9)))
  /\ match recover_protocol 2 EMPTY true rs with
     | Ok (Some r) => recover_decision 2 EMPTY true rs r
     | Ok None => undecided 2 EMPTY true rs
     | Err _ => False
     end.
Proof.
  intros rs. split; [vm_compute; reflexivity|].
  apply (recover_protocol_correct 2 EMPTY true rs); [lia|]. unfold rs.
  apply List.Forall_cons; [intros _; exists 3, 9; split; [reflexivity|split; [reflexivity|lia]]|].
  apply List.Forall_cons; [discriminate|].
  apply List.Forall_cons; [intros _; exists 1, 7; split; [reflexivity|split; [reflexivity|lia]]|].
  apply List.Forall_nil.
Defined.

(** ** Catching up *)

(** A position that is not missing stays so. *)
Lemma not_missing_kept r p :
  wf_replica r -> 0 <= p -> (missing r p = false <-> forall n, kept n p r).
Proof.
  intros Hwf Hp. rewrite missing_stored by done. split.
  - intros [H|H] n; [by left|right; by left].
  - intros H. destruct (H (promise_at r p + 1)) as [?|[?|?]]; [by left|by right|lia].
Qed.

Lemma not_missing_stable r r' p :
  rtc (rstep true) r r' -> wf_replica r -> 0 <= p -> missing r p = false -> missing r' p = false.
Proof.
  intros Hs Hwf Hp. rewrite !not_missing_kept by (done || by eapply rsteps_wf).
  intros H n. by eapply rsteps_kept.
Qed.

(** The replicas seen at the checks of a catch-up lie on one history. *)
Inductive on_path (r : Replica) : list (Replica * option Action) -> Replica -> Prop :=
  | op_nil r' : rtc (rstep true) r r' -> on_path r [] r'
  | op_cons r1 a env r' : rtc (rstep true) r r1 -> on_path r1 env r' -> on_path r ((r1, a) :: env) r'.

Lemma on_path_steps r env r' : on_path r env r' -> rtc (rstep true) r r'.
Proof. induction 1; [done|by etrans]. Qed.

Lemma catch_up_one_sound pos env r r' s s' n :
  wf_replica r -> 0 <= pos -> on_path r env r' -> cu_phase s = Checking ->
  catch_up_one pos env s = Ok s' -> cu_phase s' = CaughtUp n ->
  missing r' pos = false /\ cu_proposal s <= n.
Proof.
  intros Hwf Hp Hpath. revert s. induction Hpath as [|r r1 a env r' H1 Hpath IH]; intros s Hs E Hn.
  { injection E as <-. congruence. }
  cbn in E. assert (Hwf1 := rsteps_wf _ _ H1 Hwf). destruct (missing r1 pos) eqn:Em; cbn in E.
  - destruct a as [a|]; cbn in E; [|by injection E as <-].
    destruct (promised a <? cu_proposal s) eqn:Ea; cbn in E; [done|]. breflect.
    destruct (IH Hwf1 (mkCatchUp (promised a) Checking) eq_refl E Hn) as [? Hle]. split; [done|]. cbn in Hle. lia.
  - injection E as <-. cbn in Hn. injection Hn as <-. split; [|lia].
    eapply not_missing_stable; [by eapply on_path_steps|done..].
Qed.

(** *** The fill that a catch-up runs *)

Inductive fill_step (f : FillProcess) : FillProcess -> Prop :=
  | fs_wake : fill_state f = BackOff -> fill_step f (fill_wake f)
  | fs_promise resp f' :
      fill_state f = PromisePhase -> (forall r, resp = Some r -> pr_proposal r < UINT64_MAX) ->
      fill_checkPromisePhase resp f = Ok f' -> fill_step f f'
  | fs_write a req resp f' :
      fill_state f = WritePhase a req -> (forall r, resp = Some r -> wr_proposal r < UINT64_MAX) ->
      fill_checkWritePhase a resp f = Ok f' -> fill_step f f'
  | fs_learn a ready :
      fill_state f = LearnPhase a -> fill_step f (fill_checkLearnPhase a ready f).

(** The action a fill works on is at its position and promised to it. *)
Definition fill_inv (n p : Z) (f : FillProcess) : Prop :=
  n <= fill_proposal f /\ fill_position f = p
  /\ match fill_state f with
     | WritePhase a _ => position a = p /\ promised a = fill_proposal f
     | LearnPhase a | Filled a =>
         position a = p /\ promised a = fill_proposal f /\ is_learned a = true
     | _ => True
     end.

Lemma retry_inv n p h f f' :
  0 <= n -> h < UINT64_MAX -> fill_inv n p f -> retry h f = Ok f' -> fill_inv n p f'.
Proof.
  intros Hn Hh (H1 & H2 & _). unfold retry. destruct (h <? fill_proposal f) eqn:E; [done|].
  breflect. intros [= <-]. unfold fill_inv. cbn. rewrite u64_id by (unfold is_u64; lia).
  split_and!; [lia|done..].
Qed.

Lemma fill_step_inv n p f f' : 0 <= n -> fill_step f f' -> fill_inv n p f -> fill_inv n p f'.
Proof.
  intros Hn Hstep Hf. assert (Hf' := Hf). destruct Hf' as (H1 & H2 & H3).
  destruct Hstep as [Hs|resp f' Hs Hb E|a req resp f' Hs Hb E|a ready Hs]; rewrite Hs in H3.
  - done.
  - unfold fill_checkPromisePhase, fill_runLearnPhase, fill_runWritePhase in E.
    destruct resp as [resp|]; [|by injection E as <-]. specialize (Hb resp eq_refl).
    destruct (pr_okay resp); cbn [negb] in E; [|by eapply retry_inv].
    destruct (pr_action resp) as [a|].
    + destruct (position a =? fill_position f) eqn:Ep; cbn [negb] in E; [|done]. breflect.
      case_bool_decide; [done|]. destruct (is_learned _) eqn:El.
      * injection E as <-. unfold fill_inv. cbn. split_and!; try done. congruence.
      * destruct (write_watched _ _); [|done]. injection E as <-. unfold fill_inv. cbn.
        split_and!; try done. congruence.
    + injection E as <-. done.
  - unfold fill_checkWritePhase, fill_runLearnPhase in E. destruct resp as [resp|]; [|by injection E as <-].
    specialize (Hb resp eq_refl). destruct (wr_okay resp); cbn [negb] in E; [|by eapply retry_inv].
    injection E as <-. unfold fill_inv. cbn. by destruct H3.
  - unfold fill_checkLearnPhase, fill_inv. by destruct ready.
Qed.

Lemma fill_steps_inv n p f f' : 0 <= n -> rtc fill_step f f' -> fill_inv n p f -> fill_inv n p f'.
Proof. intros Hn. induction 1; eauto using fill_step_inv. Qed.

(** A fill returns what a catch-up relies on: however often it had to back
    off and retry, the action it ends with is learned, at the position it was
    asked to fill, and promised with a proposal at least as high as the one it
    was started with, so the check in [CatchUpProcess::filled] holds. *)
Theorem fill_returns_learned n p f a s :
  0 <= n -> rtc fill_step (fill_init n p) f -> fill_state f = Filled a -> cu_proposal s = n ->
  position a = p /\ is_learned a = true
  /\ filled (Some a) s = Ok (mkCatchUp (promised a) Checking).
Proof.
  intros Hn Hf Ha Hs.
  assert (H : fill_inv n p f) by (eapply fill_steps_inv; [done|done|by split_and!; cbn]).
  destruct H as (H1 & H2 & H3). rewrite Ha in H3. destruct H3 as (? & Hp & ?).
  split_and!; [done..|]. cbn. by replace (promised a <? cu_proposal s) with false by lia.
Qed.

Lemma fill_returns_learned_witness :
  let a := mkAction 7 6 (Some 6) (Some true) (Some (NOP None)) in
  position a = 7 /\ is_learned a = true
  /\ filled (Some a) (mkCatchUp 3 Filling) = Ok (mkCatchUp (promised a) Checking).
Proof.
  intros a. apply (fill_returns_learned 3 7 (mkFill 7 6 (Filled a)) a (mkCatchUp 3 Filling));
    [lia| |reflexivity|reflexivity].
  eapply rtc_l; [apply (fs_promise _ (Some (rejected_promise 5)) (mkFill 7 6 BackOff));
                 [reflexivity|intros r [= <-]; reflexivity|reflexivity]|].
  eapply rtc_l; [apply fs_wake; reflexivity|].
  eapply rtc_l; [eapply (fs_promise _ (Some (accepted_promise None None)));
                 [reflexivity|intros r [= <-]; reflexivity|reflexivity]|].
  eapply rtc_l; [eapply (fs_write _ _ _ (Some accepted_write));
                 [reflexivity|intros r [= <-]; reflexivity|reflexivity]|].
  eapply rtc_l; [eapply (fs_learn _ _ true); reflexivity|]. apply rtc_refl.
Defined.

(** *** Ranges of positions *)

(** The history of a bulk catch-up: between the outcomes of the single
    catch-ups the replica goes on; a success is that of a run of
    [CatchUpProcess] on it. *)
Inductive bulk_trace (upper : Z) : Replica -> BulkCatchUp -> Replica -> BulkCatchUp -> Prop :=
  | bt_done r s : bulk_trace upper r s r s
  | bt_step r s env r1 out r' s' :
      on_path r env r1 -> b_done s = Pending ->
      (forall n, out = Ready n -> exists c,
         catch_up_one (b_current s) env (mkCatchUp (b_proposal s) Checking) = Ok c
         /\ cu_phase c = CaughtUp n) ->
      bulk_trace upper r1 (bulk_step upper out s) r' s' ->
      bulk_trace upper r s r' s'.

(** All positions before the current one are there. *)
Definition bulk_inv (lower upper : Z) (r : Replica) (s : BulkCatchUp) : Prop :=
  lower <= b_current s
  /\ (forall p, lower <= p < b_current s -> missing r p = false)
  /\ (b_done s = Pending -> b_current s < upper)
  /\ (forall u, b_done s = Ready u -> upper <= b_current s).

Lemma bulk_catchup_inv lower upper r s :
  b_done s = Pending -> lower <= b_current s ->
  (forall p, lower <= p < b_current s -> missing r p = false) ->
  bulk_inv lower upper r (bulk_catchup upper s).
Proof.
  intros Hd Hl Hm. unfold bulk_catchup. destruct (upper <=? b_current s) eqn:E; breflect;
    unfold bulk_inv; cbn; (split_and!; [done..|]); intros; try lia; congruence.
Qed.

Lemma bulk_trace_inv lower upper r s r' s' :
  0 <= lower -> upper <= UINT64_MAX -> bulk_trace upper r s r' s' ->
  wf_replica r -> bulk_inv lower upper r s -> bulk_inv lower upper r' s'.
Proof.
  intros Hl Hu. induction 1 as [|r s env r1 out r' s' Hpath Hd Hout _ IH]; intros Hwf Hinv; [done|].
  assert (Hsteps := on_path_steps _ _ _ Hpath). assert (Hwf1 := rsteps_wf _ _ Hsteps Hwf).
  apply IH; [done|]. destruct Hinv as (H1 & H2 & H3 & H4). specialize (H3 Hd).
  assert (H2' : forall p, lower <= p < b_current s -> missing r1 p = false).
  { intros p Hp. eapply not_missing_stable; [done|done|lia|]. by apply H2. }
  destruct out as [| | |n]; cbn [bulk_step].
  - split_and!; done.
  - unfold bulk_inv. cbn. split_and!; done.
  - by apply bulk_catchup_inv.
  - destruct (Hout n eq_refl) as (c & Ec & Hc).
    destruct (catch_up_one_sound (b_current s) env r r1 (mkCatchUp (b_proposal s) Checking) c n Hwf ltac:(lia) Hpath eq_refl Ec Hc) as [Hm _].
    apply bulk_catchup_inv; cbn; [done|rewrite u64_id by (unfold is_u64; lia); lia|].
    rewrite u64_id by (unfold is_u64; lia). intros p Hp.
    destruct (decide (p = b_current s)) as [->|]; [done|]. apply H2'. lia.
Qed.

(** C9. A bulk catch-up that succeeds leaves no gap: when it ends, after any
    number of retries and while the replica keeps handling messages (learned
    messages take back no truncation, as for one replica), every position of
    the interval is truncated or learned in the local replica. *)
Theorem bulk_catch_up_complete lower upper proposal r r' s' :
  rtc (rstep true) initial r -> 0 <= lower -> upper <= UINT64_MAX ->
  bulk_trace upper r (bulk_start lower upper proposal) r' s' -> b_done s' = Ready tt ->
  forall p, lower <= p < upper ->
    p < begin r' \/ exists a, stored r' p = Some a /\ is_learned a = true.
Proof.
  intros Hr Hl Hu Ht Hd p Hp. assert (Hwf := rsteps_wf _ _ Hr initial_wf).
  assert (Hinv : bulk_inv lower upper r' s').
  { eapply bulk_trace_inv; [done|done|exact Ht|done|].
    apply bulk_catchup_inv; cbn; [done|lia|]. intros q Hq. lia. }
  destruct Hinv as (_ & Hm & _ & Hend). specialize (Hend tt Hd).
  apply missing_stored; [|lia|apply Hm; lia].
  clear -Ht Hwf. induction Ht as [|r s env r1 out r' s' Hpath _ _ _ IH]; [done|].
  apply IH. eapply rsteps_wf; [by eapply on_path_steps|done].
Qed.

(** The local replica learns position 1 between the two checks of it. *)
Definition caught_up : Replica :=
  after_learned (learned_ healthy (learn_at 4 1 (APPEND "x")) voting).

Lemma bulk_catch_up_complete_witness :
  1 < begin caught_up \/ exists a, stored caught_up 1 = Some a /\ is_learned a = true.
Proof.
  apply (bulk_catch_up_complete 1 2 (Some 3) voting caught_up (mkBulk 2 4 (Ready tt))).
  - apply voting_reachable.
  - lia.
  - discriminate.
  - eapply (bt_step _ _ _ [(voting, Some (learn_at 4 1 (APPEND "x"))); (caught_up, None)]
              caught_up (Ready 4)); [| reflexivity | |apply bt_done].
    + apply op_cons; [apply rtc_refl|]. apply op_cons; [|apply op_nil, rtc_refl].
      apply rtc_once. eapply (rs_learned _ _ healthy (learn_at 4 1 (APPEND "x")));
        [valid_concrete|intros _ b Hb; vm_compute in Hb; discriminate Hb|vm_compute; reflexivity].
    + intros n [= <-]. eexists. split; [vm_compute; reflexivity|reflexivity].
  - reflexivity.
  - lia.
Defined.

(** ** Auto-initialisation

    The replicas of a new cluster, each running the recover protocol whenever
    it may not vote; [seen] keeps every response that was ever sent. *)

Record Cluster := mkCluster {
  cl_reps : nat -> Replica;
  cl_seen : list (nat * RecoverResponse);
}.

Definition status_of (c : Cluster) (i : nat) : Status := status (metadata (cl_reps c i)).

Section Cluster.
Context (members : gset nat) (quorum : nat).

Inductive cstep (c : Cluster) : Cluster -> Prop :=
  | cs_respond j : j ∈ members ->
      cstep c (mkCluster (cl_reps c) ((j, recover (cl_reps c j)) :: cl_seen c))
  | cs_decide i d l resp r' :
      i ∈ members -> status_of c i <> VOTING ->
      NoDup (map fst l) -> Forall (fun x => x ∈ cl_seen c) l ->
      recover_protocol quorum (status_of c i) true (map snd l) = Ok (Some resp) ->
      update d (rr_status resp) (cl_reps c i) = Some r' ->
      cstep c (mkCluster (<[i := r']> (cl_reps c)) (cl_seen c))
  | cs_caught_up i d r' :
      i ∈ members -> status_of c i = RECOVERING -> update d VOTING (cl_reps c i) = Some r' ->
      cstep c (mkCluster (<[i := r']> (cl_reps c)) (cl_seen c))
  | cs_replica i r' :
      rstep true (cl_reps c i) r' -> status (metadata r') = status_of c i ->
      cstep c (mkCluster (<[i := r']> (cl_reps c)) (cl_seen c)).

Definition new_cluster : Cluster := mkCluster (fun _ => initial) [].

(** Some replica may vote, or is told to catch up with those that may. *)
Definition joined (st : Status) : Prop := st = VOTING \/ st = RECOVERING.

Record cluster_inv (c : Cluster) : Prop := {
  ci_seen : forall j resp, (j, resp) ∈ cl_seen c ->
    j ∈ members /\ (rr_status resp <> EMPTY -> status_of c j <> EMPTY)
    /\ (joined (rr_status resp) -> joined (status_of c j));
  ci_joined : forall i, i ∈ members -> joined (status_of c i) ->
    forall j, j ∈ members -> status_of c j <> EMPTY;
}.

(** A status only moves away from [EMPTY] and stays among the joined ones. *)
Lemma cluster_inv_update c i r' :
  cluster_inv c -> i ∈ members ->
  (status_of c i <> EMPTY -> status (metadata r') <> EMPTY) ->
  (joined (status_of c i) -> joined (status (metadata r'))) ->
  (joined (status (metadata r')) -> status (metadata r') <> EMPTY ->
     forall j, j ∈ members -> j <> i -> status_of c j <> EMPTY) ->
  cluster_inv (mkCluster (<[i := r']> (cl_reps c)) (cl_seen c)).
Proof.
  intros [Hs Hj] Hi He Hjo Hnew.
  assert (Hst : forall j, status_of (mkCluster (<[i := r']> (cl_reps c)) (cl_seen c)) j =
    if decide (i = j) then status (metadata r') else status_of c j).
  { intros j. unfold status_of. cbn. destruct (decide (i = j)) as [<-|Hne];
      [by rewrite fn_lookup_insert|by rewrite fn_lookup_insert_ne]. }
  assert (Hjne : forall st, joined st -> st <> EMPTY) by (intros st [->| ->]; done).
  split.
  - intros j resp Hin. destruct (Hs j resp Hin) as (Hm & H1 & H2). rewrite Hst.
    case_decide; subst; auto.
  - intros k Hk Hjk j Hjm. rewrite Hst in Hjk |- *.
    destruct (decide (i = k)) as [<-|]; destruct (decide (i = j)) as [<-|].
    + by apply Hjne.
    + apply Hnew; auto.
    + apply He. by apply (Hj k).
    + by apply (Hj k).
Qed.

(** A whole cluster of distinct replies names every member. *)
Lemma all_members_seen l (P : RecoverResponse -> Prop) `{forall r, Decision (P r)} j :
  size members = (2 * quorum - 1)%nat -> NoDup (map fst l) ->
  Forall (fun x : nat * RecoverResponse => x.1 ∈ members) l ->
  (2 * quorum - 1 <= length (filter P (map snd l)))%nat -> j ∈ members ->
  exists resp, (j, resp) ∈ l /\ P resp.
Proof.
  intros Hsz Hnd Hm Hlen Hj.
  set (f := filter (fun x : nat * RecoverResponse => P x.2) l).
  assert (Hfl : length f = length (filter P (map snd l))).
  { unfold f. clear. induction l as [|x l IH]; [done|]. cbn [map]. rewrite !filter_cons.
    case_decide; cbn [length]; by rewrite IH. }
  assert (Hfn : NoDup (map fst f)).
  { unfold f. clear -Hnd. induction l as [|x l IH]; [constructor|]. cbn [map] in Hnd.
    apply NoDup_cons in Hnd as [Hx Hl]. rewrite filter_cons. case_decide; [|auto]. cbn [map].
    constructor; [|auto]. intros (y & Hy & Hin)%list_elem_of_fmap. apply Hx.
    apply list_elem_of_filter in Hin as [_ Hin]. apply list_elem_of_fmap. eauto. }
  assert (Hsub : (list_to_set (map fst f) : gset nat) ⊆ members).
  { intros k. rewrite elem_of_list_to_set. intros (y & -> & Hy)%list_elem_of_fmap.
    apply list_elem_of_filter in Hy as [_ Hy]. rewrite Forall_forall in Hm. by apply Hm. }
  assert (Heq : (list_to_set (map fst f) : gset nat) = members).
  { apply set_subseteq_size_eq; [done|]. rewrite size_list_to_set, length_map by done. lia. }
  rewrite <- Heq, elem_of_list_to_set in Hj. apply list_elem_of_fmap in Hj as ([k resp] & -> & Hy).
  apply list_elem_of_filter in Hy as [HP Hy]. by exists resp.
Qed.

Lemma count_two st1 st2 rs :
  st1 <> st2 ->
  (count st1 rs + count st2 rs = length (filter (fun r => rr_status r = st1 \/ rr_status r = st2) rs))%nat.
Proof.
  intros Hne. unfold count. induction rs as [|r rs IH]; [done|]. rewrite !filter_cons.
  destruct (decide (rr_status r = st1)), (decide (rr_status r = st2));
    [congruence|rewrite (decide_True (P := _ \/ _)) by auto|
     rewrite (decide_True (P := _ \/ _)) by auto|rewrite (decide_False (P := _ \/ _)) by naive_solver];
    cbn [length]; lia.
Qed.

Lemma update_status d st r r' : update d st r = Some r' -> status (metadata r') = st.
Proof. unfold update, persist_metadata. destruct (put_ok d); [|done]. by intros [= <-]. Qed.

Lemma cstep_inv c c' :
  (0 < quorum)%nat -> size members = (2 * quorum - 1)%nat ->
  cstep c c' -> cluster_inv c -> cluster_inv c'.
Proof.
  intros Hq Hsz Hstep Hinv.
  destruct Hstep as [j Hj|i d l resp r' Hi Hnv Hnd Hl Hp Hu|i d r' Hi Hst Hu|i r' Hr Hst].
  - destruct Hinv as [Hs Hjo]. split; [|done]. intros k resp [[= -> ->]|Hin]%elem_of_cons; [|eauto].
    split; [done|]. unfold recover. by case_bool_decide.
  - apply update_status in Hu. assert (H := recover_protocol_spec quorum (status_of c i) true (map snd l) Hq).
    rewrite Hp in H. destruct H as (used & x & rest & Eu & _ & Hres).
    rewrite cons_middle, app_assoc in Eu. apply map_eq_app in Eu as (l1 & l2 & -> & E1 & _). rewrite <- E1 in Hres.
    apply Forall_prefix in Hl. rewrite map_app in Hnd. apply NoDup_app in Hnd as (Hnd & _ & _).
    rewrite Forall_forall in Hl.
    destruct Hres as [b e Hv Hb Hle|_ _ He Hc|_ _ He Hc]; cbn in Hu.
    + (* A voting replica was seen, so no replica is empty. *)
      destruct Hb as [_ Hb]. destruct Hb as (_ & _ & _ & _ & (r & Hr & Hrv & _) & _ & _); [lia|].
      apply list_elem_of_fmap in Hr as ([k rk] & -> & Hk). cbn in Hrv.
      destruct (ci_seen c Hinv k rk (Hl _ Hk)) as (Hkm & _ & Hkj).
      assert (Hnone := ci_joined c Hinv k Hkm (Hkj (or_introl Hrv))).
      apply cluster_inv_update; [done|done|by rewrite Hu| |by auto]. intros _. by right.
    + apply cluster_inv_update; [done|done|by rewrite Hu|by rewrite He; intros [|]|].
      rewrite Hu. by intros [|].
    + apply cluster_inv_update; [done|done|by rewrite Hu|by left|]. intros _ _ j Hj _.
      rewrite count_two in Hc by done.
      destruct (all_members_seen l1 (fun r => rr_status r = STARTING \/ rr_status r = VOTING) j)
        as (resp & Hin & Hresp); try done.
      { apply Forall_forall. intros [k rk] Hk. by destruct (ci_seen c Hinv k rk (Hl _ Hk)). }
      destruct (ci_seen c Hinv j resp (Hl _ Hin)) as (_ & Hne & _). apply Hne.
      by destruct Hresp as [->| ->].
  - apply update_status in Hu. apply cluster_inv_update; [done|done|by rewrite Hu|by left|].
    intros _ _ j Hj _. apply (ci_joined c Hinv i Hi); [by right|done].
  - destruct (decide (i ∈ members)) as [Hi|Hi].
    + apply cluster_inv_update; [done|done|by rewrite Hst..|]. rewrite Hst.
      intros Hjo _ j Hj _. by apply (ci_joined c Hinv i).
    + destruct Hinv as [Hs Hjo].
      assert (Hsame : forall j, j ∈ members ->
        status_of (mkCluster (<[i := r']> (cl_reps c)) (cl_seen c)) j = status_of c j).
      { intros j Hj. unfold status_of. cbn. rewrite fn_lookup_insert_ne; [done|]. by intros ->. }
      split.
      * intros j resp Hin. destruct (Hs j resp Hin) as (Hm & ?). by rewrite Hsame.
      * intros k Hk. rewrite Hsame by done. intros Hjk j Hj. rewrite Hsame by done. eauto.
Qed.
End Cluster.

(** C8. Auto-initialisation is a two-phase agreement: in a cluster of
    [2 * quorum - 1] new replicas, as long as no replica loses its disk, a
    replica starts to vote or to catch up only when no replica is still empty,
    and none is ever again, so a bootstrapped log is never bootstrapped a
    second time. *)
Theorem auto_initialization_safe members quorum c i j :
  (0 < quorum)%nat -> size members = (2 * quorum - 1)%nat ->
  rtc (cstep members quorum) new_cluster c ->
  i ∈ members -> j ∈ members ->
  status_of c i = VOTING \/ status_of c i = RECOVERING ->
  status_of c j <> EMPTY.
Proof.
  intros Hq Hsz Hs Hi Hj Hst.
  assert (Hinv : cluster_inv members c).
  { assert (H0 : cluster_inv members new_cluster).
    { split; [intros k resp Hin; by apply not_elem_of_nil in Hin|]. by intros k _ [|]. }
    revert H0. clear -Hq Hsz Hs. induction Hs; eauto using cstep_inv. }
  by apply (ci_joined members c Hinv i).
Qed.

Definition cluster_of_three : gset nat := {[1; 2; 3]}%nat.

Ltac find_seen := first [apply list_elem_of_here | apply list_elem_of_further; find_seen].
Ltac run_respond j :=
  eapply rtc_l; [apply (cs_respond _ _ _ j); apply (bool_decide_unpack _); vm_compute; exact I|].
Ltac run_decide i l :=
  eapply rtc_l;
  [eapply (cs_decide _ _ _ i healthy l);
   [apply (bool_decide_unpack _); vm_compute; exact I | vm_compute; discriminate
   | apply (bool_decide_unpack _); vm_compute; exact I
   | repeat (apply List.Forall_cons; [find_seen|]); apply List.Forall_nil
   | vm_compute; reflexivity | vm_compute; reflexivity]|].

Definition replies_in (st : Status) : list (nat * RecoverResponse) :=
  map (fun i => (i, mkRecoverResponse st None None)) [1; 2; 3]%nat.

Lemma cluster_run :
  exists c, rtc (cstep cluster_of_three 2) new_cluster c /\ status_of c 1%nat = VOTING.
Proof.
  eexists. split.
  { run_respond 1%nat. run_respond 2%nat. run_respond 3%nat.
    run_decide 1%nat (replies_in EMPTY). run_decide 2%nat (replies_in EMPTY).
    run_decide 3%nat (replies_in EMPTY).
    run_respond 1%nat. run_respond 2%nat. run_respond 3%nat.
    run_decide 1%nat (replies_in STARTING). apply rtc_refl. }
  vm_compute. reflexivity.
Qed.

Lemma auto_initialization_safe_witness :
  exists c, status_of c 1%nat = VOTING /\ status_of c 3%nat <> EMPTY.
Proof.
  destruct cluster_run as (c & Hc & H1). exists c. split; [exact H1|].
  apply (auto_initialization_safe cluster_of_three 2 c 1%nat 3%nat).
  - lia.
  - vm_compute. reflexivity.
  - exact Hc.
  - apply (bool_decide_unpack _); vm_compute; exact I.
  - apply (bool_decide_unpack _); vm_compute; exact I.
  - left. exact H1.
Defined.

(** ** Joining *)

(** How a replica came to vote. *)
Inductive joins (autoInitialize : bool) (catch_up : gset Z -> Replica -> future Replica)
    (runs : list (option RecoverResponse)) (r r' : Replica) : Prop :=
  | j_already : status (metadata r) = VOTING -> r' = r -> joins autoInitialize catch_up runs r r'
  | j_bootstrapped resp :
      autoInitialize = true -> Some resp ∈ runs -> rr_status resp = VOTING ->
      stored r' = stored r -> joins autoInitialize catch_up runs r r'
  | j_caught_up resp b e r1 r2 :
      Some resp ∈ runs -> rr_begin resp = Some b -> rr_end resp = Some e ->
      rr_status resp = RECOVERING -> status (metadata r1) = RECOVERING -> stored r1 = stored r ->
      catch_up (closed_interval b e) r1 = Ready r2 -> stored r' = stored r2 ->
      promised_ r' = promised_ r2 -> joins autoInitialize catch_up runs r r'.

Lemma updateReplicaStatus_ready d st r r' :
  updateReplicaStatus d st r = (r', Ready true) ->
  status (metadata r') = st /\ stored r' = stored r /\ promised_ r' = promised_ r.
Proof.
  unfold updateReplicaStatus. destruct (update d st r) as [r1|] eqn:E; [|done]. intros [= <-].
  assert (Hs := update_status _ _ _ _ E). by apply update_spec in E as (? & ? & ? & ? & _).
Qed.

(** A replica is let into the group only when it may vote: when the
    recover process succeeds the replica is in [VOTING] status, and it was
    voting already, or auto-initialisation is enabled and a run of the protocol
    said so, or it caught up the whole range that a run of the protocol
    returned while it was in [RECOVERING] status; its log is what the catch-up
    left. *)
Theorem recover_joins_safely auto d catch_up runs r r' :
  recover_chain auto d catch_up runs r = Ok (r', Ready true) ->
  status (metadata r') = VOTING /\ joins auto catch_up runs r r'.
Proof.
  revert r. induction runs as [|run runs IH]; intros r H; cbn in H.
  { case_bool_decide as Hv; [|done]. injection H as <-. split; [done|]. by apply j_already. }
  case_bool_decide as Hv; [injection H as <-; split; [done|by apply j_already]|].
  destruct run as [resp|]; [|done]. destruct (rr_status resp) eqn:Es.
  - destruct auto; [|done]. injection H as H. apply updateReplicaStatus_ready in H as (? & ? & ?).
    split; [done|]. eapply (j_bootstrapped _ _ _ _ _ resp); [done|by left|done..].
  - destruct (rr_begin resp) as [b|] eqn:Eb, (rr_end resp) as [e|] eqn:Ee; try done.
    destruct (updateReplicaStatus d RECOVERING r) as [r1 f] eqn:Eu.
    destruct f as [| | |[]]; try done. apply updateReplicaStatus_ready in Eu as (S1 & S2 & _).
    unfold recover_catchup in H. destruct (e <? b); [done|].
    destruct (catch_up (closed_interval b e) r1) as [| | |r2] eqn:Ec; try done. injection H as H.
    apply updateReplicaStatus_ready in H as (? & ? & ?). split; [done|].
    eapply (j_caught_up _ _ _ _ _ resp b e r1 r2); try done. by left.
  - destruct auto; [|done].
    destruct (updateReplicaStatus d STARTING r) as [r1 f] eqn:Eu.
    destruct f as [| | |[]]; try done. apply updateReplicaStatus_ready in Eu as (S1 & S2 & _).
    destruct (IH r1 H) as [Hvote Hj]. split; [done|].
    destruct Hj as [Hs _|resp' Ha Hin Hr Hst|resp' b e r2 r3 Hin Hb He Hr Hs2 Hst2 Hc Hst Hpr].
    + congruence.
    + eapply (j_bootstrapped _ _ _ _ _ resp'); [done|by right|done|congruence].
    + eapply (j_caught_up _ _ _ _ _ resp' b e r2 r3); try done; [by right|congruence].
  - done.
Qed.

Lemma recover_joins_safely_witness :
  let catch_up := fun _ r => Ready r in
  let runs := [Some (mkRecoverResponse RECOVERING (Some 0) (Some 2))] in
  let r' := fst (updateReplicaStatus healthy VOTING (fst (updateReplicaStatus healthy RECOVERING initial))) in
  status (metadata r') = VOTING /\ joins false catch_up runs initial r'.
Proof.
  intros catch_up runs r'. apply (recover_joins_safely false healthy catch_up runs initial r').
  reflexivity.
Defined.

(** ** Reading *)

(** The appends among the stored actions of [ps], with their positions. *)
Definition appends_at (r : Replica) (ps : list Z) : list (Z * string) :=
  omap (fun p => match stored r p with
                 | Some a => match entry a with Some (APPEND b) => Some (p, b) | _ => None end
                 | None => None
                 end) ps.

(** A position that is decided. *)
Definition decided (r : Replica) (p : Z) : Prop :=
  exists a, stored r p = Some a /\ is_learned a = true /\ performed a <> None /\ entry a <> None.

Lemma read_entries_decided r from n :
  wf_replica r -> 0 <= from -> from + Z.of_nat n <= UINT64_MAX ->
  (forall p, from <= p < from + Z.of_nat n -> decided r p) ->
  read_entries from (omap (stored r) (seqZ from (Z.of_nat n)))
  = Ok (appends_at r (seqZ from (Z.of_nat n))).
Proof.
  intros Hwf. revert from. induction n as [|n IH]; intros from H0 Hmax Hd; [done|].
  rewrite Nat2Z.inj_succ, seqZ_cons, Z.pred_succ by lia.
  destruct (Hd from) as (a & Ha & Hl & Hp & He); [lia|].
  unfold appends_at. cbn [omap list_omap]. fold (appends_at r (seqZ (Z.succ from) (Z.of_nat n))).
  rewrite Ha. cbn [read_entries]. rewrite bool_decide_eq_false_2, Hl by done. cbn [orb negb].
  destruct (wf_stored r Hwf from a Ha) as [-> _]. rewrite Z.eqb_refl. cbn [negb].
  rewrite u64_id by (unfold is_u64; lia). fold (Z.succ from).
  assert (Hrest : read_entries (from + 1) (omap (stored r) (seqZ (Z.succ from) (Z.of_nat n)))
    = Ok (appends_at r (seqZ (Z.succ from) (Z.of_nat n)))).
  { change (from + 1) with (Z.succ from). apply IH; [lia..|]. intros p Hpr. apply Hd. lia. }
  change (Z.succ from) with (from + 1) in *. destruct (entry a) as [[| |]|]; [| | |done].
  - exact Hrest.
  - rewrite Hrest. done.
  - exact Hrest.
Qed.

(** Reading a decided range of the log returns it exactly: with a working
    disk, when every position of the range is learned, the reader returns all
    the appended bytes of the range in the order of their positions and
    nothing else. *)
Theorem reader_returns_decided_range d r from to :
  rtc (rstep true) initial r -> get_ok d = true -> 0 <= from -> begin r <= from -> from <= to <= end_ r ->
  (forall p, from <= p <= to -> decided r p) ->
  exists actions, read_range d r from to = Ok actions
    /\ read_entries from actions = Ok (appends_at r (seqZ from (to - from + 1))).
Proof.
  intros Hr Hg H0 Hb Ht Hd. assert (Hwf := rsteps_wf _ _ Hr initial_wf).
  destruct (Hd to) as (a & Ha & _); [lia|].
  destruct (wf_valid r Hwf to a Ha) as [[Hpos _] _]. destruct (wf_stored r Hwf to a Ha) as [Hat _].
  exists (omap (stored r) (seqZ from (to - from + 1))). split.
  - unfold read_range. replace (to <? from) with false by lia.
    replace (from <? begin r) with false by lia. replace (end_ r <? to) with false by lia.
    apply read_loop_stored; [done|done|]. apply Forall_forall. intros p Hp%elem_of_seqZ. lia.
  - replace (to - from + 1) with (Z.of_nat (Z.to_nat (to - from + 1))) by lia.
    apply read_entries_decided; [done|done|lia|]. intros p Hp. apply Hd. lia.
Qed.

Lemma reader_returns_decided_range_witness :
  exists actions, read_range healthy caught_up 1 1 = Ok actions
    /\ read_entries 1 actions = Ok (appends_at caught_up (seqZ 1 (1 - 1 + 1))).
Proof.
  apply (reader_returns_decided_range healthy caught_up 1 1).
  - etrans; [apply voting_reachable|]. apply rtc_once.
    eapply (rs_learned _ _ healthy (learn_at 4 1 (APPEND "x")));
      [valid_concrete|intros _ b Hb; vm_compute in Hb; discriminate Hb|vm_compute; reflexivity].
  - reflexivity.
  - lia.
  - vm_compute. discriminate.
  - vm_compute. split; discriminate.
  - intros p Hp. replace p with 1 by lia. exists (learn_at 4 1 (APPEND "x")).
    split; [vm_compute; reflexivity|]. split; [reflexivity|]. split; discriminate.
Defined.

(** ** Where the code departs from its intent *)

(** A missing position at the end of the range goes unnoticed: the replica has
    positions 1 and 3, the read of 1 to 2 succeeds although 2 is missing. *)
Lemma reader_misses_trailing_hole :
  let r := after_learned (learned_ healthy (learn_at 4 3 (APPEND "z")) caught_up) in
  missing r 2 = true
  /\ exists actions, read_range healthy r 1 2 = Ok actions
     /\ read_entries 1 actions = Ok [(1, "x"%string)].
Proof.
  intros r. split; [vm_compute; reflexivity|]. exists [learn_at 4 1 (APPEND "x")].
  split; [vm_compute; reflexivity|reflexivity].
Qed.

(** Catching up the missing positions of a replica that may not vote ends
    successfully with an end position that was never assigned. *)
Lemma catchup_missing_unset_end st resp b :
  st <> VOTING -> catchup_missing st resp b = Ok (Finished None).
Proof. intros H. unfold catchup_missing. by rewrite bool_decide_eq_true_2. Qed.
