(* ===== verification/Registry.v ===== *)
(** * The registry of agents

    [src/src/master/registry_operations.cpp]: the operations the registrar
    applies to the replicated [Registry] (messages of
    [src/src/master/registry.proto]), with the set of admitted agents that is
    passed along.  A loop over a repeated field that changes the first match
    and leaves is [update_first] or [remove_first].  [SlaveInfo] and the
    conversions of its resources are arguments. *)

From stdpp Require Import base gmap strings list relations.
From S2P Require Import Prelude.

(** ** Repeated fields *)

Section Repeated.
Context {A : Type}.

(** Change the first element that satisfies [p]; [None] if there is none. *)
Fixpoint update_first (p : A -> bool) (f : A -> A) (l : list A) : option (list A) :=
  match l with
  | [] => None
  | x :: l' => if p x then Some (f x :: l') else option_map (cons x) (update_first p f l')
  end.

(** Delete the first element that satisfies [p] and return it. *)
Fixpoint remove_first (p : A -> bool) (l : list A) : option (A * list A) :=
  match l with
  | [] => None
  | x :: l' =>
      if p x then Some (x, l')
      else match remove_first p l' with Some (y, r) => Some (y, x :: r) | None => None end
  end.

Inductive range_check := OutOfRange.

(** [DeleteSubrange(start, num)], which needs [start + num <= size()]. *)
Definition DeleteSubrange (start num : nat) (l : list A) : result range_check (list A) :=
  if (start + num <=? length l)%nat then Ok (take start l ++ drop (start + num) l)
  else Err OutOfRange.
End Repeated.

(** ** Data *)

Inductive DrainState := UNKNOWN | DRAINING | DRAINED.

#[export] Instance DrainState_eq_dec : EqDecision DrainState.
Proof. solve_decision. Defined.

Record DrainInfo := mkDrainInfo {
  drain_state : DrainState;
  max_grace_period : option Z;
  mark_gone : bool;
}.

Record UnreachableSlave := mkUnreachable {
  u_id : string;
  u_timestamp : Z;
  u_drain_info : option DrainInfo;
  u_deactivated : bool;
}.

Record GoneSlave := mkGone { g_id : string; g_timestamp : Z }.

Definition AGENT_DRAINING : string := "AGENT_DRAINING".

(** [addMinimumCapability] and [removeMinimumCapability]. *)
Definition addMinimumCapability (c : string) (caps : list string) : list string :=
  if decide (c ∈ caps) then caps else caps ++ [c].

Definition removeMinimumCapability (c : string) (caps : list string) : list string :=
  match remove_first (fun x => bool_decide (x = c)) caps with
  | Some (_, caps') => caps'
  | None => caps
  end.

Inductive op_error :=
  | AlreadyAdmitted
  | NotYetAdmitted
  | AlreadyGone
  | NotFound
  | NotDraining
  | BadRange
  | CheckSomeFailed.

(** [drain_info] after [DrainAgent] has set its fields. *)
Definition start_draining (grace : option Z) (gone : bool) (d : option DrainInfo) : DrainInfo :=
  mkDrainInfo DRAINING
    (match grace with
     | Some g => Some g
     | None => match d with Some x => max_grace_period x | None => None end
     end) gone.

(** [drain_info] after [set_state(DRAINED)], if it is draining. *)
Definition finish_draining (d : option DrainInfo) : option DrainInfo :=
  match d with
  | Some x =>
      if decide (drain_state x = DRAINING)
      then Some (mkDrainInfo DRAINED (max_grace_period x) (mark_gone x)) else None
  | None => None
  end.

Section Operations.
Context {SlaveInfo : Type} (slave_id : SlaveInfo -> string).
Context (upgrade : SlaveInfo -> SlaveInfo) (downgrade : SlaveInfo -> option SlaveInfo).
Context (info_eqb : SlaveInfo -> SlaveInfo -> bool).

(** [CHECK_SOME(downgradeResources(&info))]: it fails on refined
    reservations. *)
Definition downgradeResources (info : SlaveInfo) : result op_error SlaveInfo :=
  match downgrade info with Some info' => Ok info' | None => Err CheckSomeFailed end.

Record Slave := mkSlave {
  s_info : SlaveInfo;
  s_drain_info : option DrainInfo;
  s_deactivated : bool;
}.

Record Registry := mkRegistry {
  slaves : list Slave;
  unreachable : list UnreachableSlave;
  gone : list GoneSlave;
  minimum_capabilities : list string;
}.

(** The registry and the ids of the admitted agents. *)
Definition state : Type := Registry * gset string.

(** [Try<bool>] with the changed arguments; the boolean says whether the
    registry was mutated. *)
Definition outcome : Type := result op_error (bool * state).

Definition is_slave (id : string) (s : Slave) : bool := bool_decide (slave_id (s_info s) = id).
Definition is_unreachable (id : string) (s : UnreachableSlave) : bool := bool_decide (u_id s = id).
Definition is_gone (id : string) (s : GoneSlave) : bool := bool_decide (g_id s = id).

Definition set_slaves (l : list Slave) (r : Registry) : Registry :=
  mkRegistry l (unreachable r) (gone r) (minimum_capabilities r).
Definition set_unreachable (l : list UnreachableSlave) (r : Registry) : Registry :=
  mkRegistry (slaves r) l (gone r) (minimum_capabilities r).
Definition set_gone (l : list GoneSlave) (r : Registry) : Registry :=
  mkRegistry (slaves r) (unreachable r) l (minimum_capabilities r).
Definition set_capabilities (l : list string) (r : Registry) : Registry :=
  mkRegistry (slaves r) (unreachable r) (gone r) l.

(** ** Operations *)

Definition AdmitSlave (info : SlaveInfo) (st : state) : outcome :=
  let '(r, ids) := st in
  if decide (slave_id info ∈ ids) then Err AlreadyAdmitted
  else
    let? info := downgradeResources info in
    Ok (true, (set_slaves (slaves r ++ [mkSlave info None false]) r, {[slave_id info]} ∪ ids)).

(** The loop finds the first entry with the id; an equal one is left alone. *)
Definition UpdateSlave (info : SlaveInfo) (st : state) : outcome :=
  let '(r, ids) := st in
  if decide (slave_id info ∉ ids) then Err NotYetAdmitted
  else
    match List.find (is_slave (slave_id info)) (slaves r) with
    | None => Err NotFound
    | Some s =>
        if info_eqb info (upgrade (s_info s)) then Ok (false, st)
        else
          let? info' := downgradeResources info in
          match update_first (is_slave (slave_id info))
                  (fun s => mkSlave info' (s_drain_info s) (s_deactivated s)) (slaves r) with
          | Some l => Ok (true, (set_slaves l r, ids))
          | None => Err NotFound
          end
    end.

Definition MarkSlaveUnreachable (info : SlaveInfo) (time : Z) (st : state) : outcome :=
  let '(r, ids) := st in
  let id := slave_id info in
  if decide (id ∉ ids) then Err NotYetAdmitted
  else
    match remove_first (is_slave id) (slaves r) with
    | None => Err NotFound
    | Some (s, l) =>
        Ok (true, (set_unreachable (unreachable r ++
                      [mkUnreachable id time (s_drain_info s) (s_deactivated s)]) (set_slaves l r),
                   ids ∖ {[id]}))
    end.

(** [reachable] takes its copy of [info] before the resources of [info] are
    downgraded. *)
Definition MarkSlaveReachable (info : SlaveInfo) (st : state) : outcome :=
  let '(r, ids) := st in
  let id := slave_id info in
  if decide (id ∈ ids) then Ok (false, st)
  else
    let '(reachable, u) :=
      match remove_first (is_unreachable id) (unreachable r) with
      | Some (s, l) => (mkSlave info (u_drain_info s) (u_deactivated s), l)
      | None => (mkSlave info None false, unreachable r)
      end in
    let? _ := downgradeResources info in
    Ok (true, (set_slaves (slaves r ++ [reachable]) (set_unreachable u r), {[id]} ∪ ids)).

(** One [while] loop of [Prune::perform], from index [i]: [DeleteSubrange(i,
    i+1)] and [continue] for an element to remove.  [fuel] bounds the number of
    iterations; see [prune_fuel]. *)
Fixpoint prune_loop {A : Type} (fuel : nat) (rm : A -> bool) (i : nat) (l : list A) (mutate : bool)
  : result range_check (bool * list A) :=
  match fuel with
  | O => Ok (mutate, l)
  | S fuel' =>
      match l !! i with
      | None => Ok (mutate, l)
      | Some x =>
          if rm x then
            let? l' := DeleteSubrange i (i + 1) l in prune_loop fuel' rm i l' true
          else prune_loop fuel' rm (S i) l mutate
      end
  end.

Definition prune_list {A : Type} (rm : A -> bool) (l : list A) (mutate : bool)
  : result range_check (bool * list A) := prune_loop (S (length l)) rm 0 l mutate.

Definition Prune (toRemoveUnreachable toRemoveGone : gset string) (st : state) : outcome :=
  let '(r, ids) := st in
  match prune_list (fun s => bool_decide (u_id s ∈ toRemoveUnreachable)) (unreachable r) false with
  | Err _ => Err BadRange
  | Ok (m1, u) =>
      match prune_list (fun s => bool_decide (g_id s ∈ toRemoveGone)) (gone r) m1 with
      | Err _ => Err BadRange
      | Ok (m2, g) => Ok (m2, (set_gone g (set_unreachable u r), ids))
      end
  end.

Definition RemoveSlave (info : SlaveInfo) (st : state) : outcome :=
  let '(r, ids) := st in
  match remove_first (is_slave (slave_id info)) (slaves r) with
  | Some (_, l) => Ok (true, (set_slaves l r, ids ∖ {[slave_id info]}))
  | None => Err NotYetAdmitted
  end.

Definition MarkSlaveGone (id : string) (time : Z) (st : state) : outcome :=
  let '(r, ids) := st in
  if existsb (is_gone id) (gone r) then Err AlreadyGone
  else
    let add r' ids' := Ok (true, (set_gone (gone r ++ [mkGone id time]) r', ids')) in
    if decide (id ∈ ids) then
      match remove_first (is_slave id) (slaves r) with
      | Some (_, l) => add (set_slaves l r) (ids ∖ {[id]})
      | None => add r ids
      end
    else
      match remove_first (is_unreachable id) (unreachable r) with
      | Some (_, l) => add (set_unreachable l r) ids
      | None => Err NotFound
      end.

(** [DrainAgent], [MarkAgentDrained] and [DeactivateAgent] look for the agent
    among the admitted ones if its id is, and else among the unreachable. *)
Definition on_agent (id : string) (fs : Slave -> Slave) (fu : UnreachableSlave -> UnreachableSlave)
    (st : state) : bool * state :=
  let '(r, ids) := st in
  if decide (id ∈ ids) then
    (true, (set_slaves (default (slaves r) (update_first (is_slave id) fs (slaves r))) r, ids))
  else
    match update_first (is_unreachable id) fu (unreachable r) with
    | Some l => (true, (set_unreachable l r, ids))
    | None => (false, st)
    end.

Definition require_draining_capability (x : bool * state) : bool * state :=
  let '(found, (r, ids)) := x in
  if found
  then (found, (set_capabilities (addMinimumCapability AGENT_DRAINING (minimum_capabilities r)) r, ids))
  else x.

Definition DrainAgent (id : string) (grace : option Z) (gone_after : bool) (st : state) : outcome :=
  Ok (require_draining_capability
        (on_agent id
           (fun s => mkSlave (s_info s) (Some (start_draining grace gone_after (s_drain_info s))) true)
           (fun s => mkUnreachable (u_id s) (u_timestamp s)
                       (Some (start_draining grace gone_after (u_drain_info s))) true) st)).

Definition DeactivateAgent (id : string) (st : state) : outcome :=
  Ok (require_draining_capability
        (on_agent id (fun s => mkSlave (s_info s) (s_drain_info s) true)
           (fun s => mkUnreachable (u_id s) (u_timestamp s) (u_drain_info s) true) st)).

(** The drain state of the agent the operation finds, if it finds one. *)
Definition drain_info_of (id : string) (st : state) : option (option DrainInfo) :=
  let '(r, ids) := st in
  if decide (id ∈ ids) then option_map s_drain_info (List.find (is_slave id) (slaves r))
  else option_map u_drain_info (List.find (is_unreachable id) (unreachable r)).

Definition MarkAgentDrained (id : string) (st : state) : outcome :=
  match drain_info_of id st with
  | Some d =>
      if finish_draining d then
        Ok (on_agent id (fun s => mkSlave (s_info s) (finish_draining (s_drain_info s)) (s_deactivated s))
              (fun s => mkUnreachable (u_id s) (u_timestamp s) (finish_draining (u_drain_info s))
                          (u_deactivated s)) st)
      else Err NotDraining
  | None => Ok (on_agent id (fun s => s) (fun s => s) st)
  end.

(** One loop of [ReactivateAgent]: it clears the agent and stops once it is
    found and another deactivated agent was seen. *)
Fixpoint reactivate_loop {A : Type} (is_agent deactivated : A -> bool) (clear : A -> A)
    (l : list A) (found more : bool) : list A * bool * bool :=
  match l with
  | [] => ([], found, more)
  | x :: l' =>
      if is_agent x then
        if more then (clear x :: l', true, more)
        else
          let '(r, f, m) := reactivate_loop is_agent deactivated clear l' true more in
          (clear x :: r, f, m)
      else if deactivated x then
        if found then (x :: l', found, true)
        else
          let '(r, f, m) := reactivate_loop is_agent deactivated clear l' found true in
          (x :: r, f, m)
      else
        let '(r, f, m) := reactivate_loop is_agent deactivated clear l' found more in
        (x :: r, f, m)
  end.

Definition ReactivateAgent (id : string) (st : state) : outcome :=
  let '(r, ids) := st in
  let '(l, found, more) :=
    reactivate_loop (is_slave id) s_deactivated (fun s => mkSlave (s_info s) None false)
      (slaves r) false false in
  let '(u, found, more) :=
    if negb found || negb more then
      reactivate_loop (is_unreachable id) u_deactivated
        (fun s => mkUnreachable (u_id s) (u_timestamp s) None false) (unreachable r) found more
    else (unreachable r, found, more) in
  let r := set_unreachable u (set_slaves l r) in
  Ok (found,
      (if found && negb more
       then set_capabilities (removeMinimumCapability AGENT_DRAINING (minimum_capabilities r)) r
       else r, ids)).
End Operations.

(** ** Facts on repeated fields *)

Section RepeatedFacts.
Context {A : Type}.
Implicit Types (l : list A) (p : A -> bool).

Lemma remove_first_spec p l x l' :
  remove_first p l = Some (x, l') -> p x = true /\ l ≡ₚ x :: l' /\ sublist l' l.
Proof.
  revert l'. induction l as [|y l IH]; intros l' H; [done|]. cbn in H.
  destruct (p y) eqn:E; [injection H as <- <-; split_and!; [done..|by constructor]|].
  destruct (remove_first p l) as [[z r]|]; [|done]. injection H as <- <-.
  destruct (IH r eq_refl) as (? & Hp & Hs). split_and!; [done| |by constructor].
  rewrite Hp. apply Permutation_swap.
Qed.

Lemma remove_first_none p l : remove_first p l = None <-> Forall (fun x => p x = false) l.
Proof.
  induction l as [|y l IH]; cbn; [by split; [constructor|]|].
  rewrite Forall_cons. destruct (p y); [by split; [|intros [? _]]|].
  destruct (remove_first p l) as [[]|]; naive_solver.
Qed.

Lemma update_first_map {B} (g : A -> B) p f l l' :
  (forall x, p x = true -> g (f x) = g x) -> update_first p f l = Some l' -> map g l' = map g l.
Proof.
  intros Hg. revert l'. induction l as [|y l IH]; intros l' H; [done|]. cbn in H.
  destruct (p y) eqn:E; [injection H as <-; cbn; by rewrite Hg|].
  destruct (update_first p f l) as [r|]; [|done]. injection H as <-. cbn. by rewrite (IH r).
Qed.

Lemma update_first_Forall (P : A -> Prop) p f l l' :
  (forall x, p x = true -> P x -> P (f x)) -> update_first p f l = Some l' ->
  Forall P l -> Forall P l'.
Proof.
  intros Hf. revert l'. induction l as [|y l IH]; intros l' H Hl; [done|]. cbn in H.
  apply Forall_cons in Hl as [Hy Hl]. destruct (p y) eqn:E; [injection H as <-; auto|].
  destruct (update_first p f l) as [r|]; [|done]. injection H as <-. auto.
Qed.

(** Pruning only ever deletes. *)
Lemma DeleteSubrange_sublist i n l l' : DeleteSubrange i n l = Ok l' -> sublist l' l.
Proof.
  unfold DeleteSubrange. destruct (_ <=? _)%nat; [|done]. intros [= <-].
  rewrite <- (take_drop i l) at 3. apply sublist_app; [done|].
  rewrite <- drop_drop. apply sublist_drop.
Qed.

Lemma prune_loop_sublist fuel rm i l m m' l' :
  prune_loop fuel rm i l m = Ok (m', l') -> sublist l' l.
Proof.
  revert i l m. induction fuel as [|fuel IH]; intros i l m; cbn; [by intros [= <- <-]|].
  destruct (l !! i); [|by intros [= <- <-]]. destruct (rm a).
  - destruct (DeleteSubrange i (i + 1) l) as [r|] eqn:E; cbn; [|done].
    intros H. etrans; [by eapply IH|by eapply DeleteSubrange_sublist].
  - apply IH.
Qed.

(** The fuel of [prune_list] is enough: more changes nothing. *)
Lemma prune_fuel rm fuel fuel' i l m :
  (length l - i < fuel)%nat -> (length l - i < fuel')%nat ->
  prune_loop fuel rm i l m = prune_loop fuel' rm i l m.
Proof.
  revert fuel' i l m. induction fuel as [|fuel IH]; intros [|fuel'] i l m H H'; [lia..|]. cbn.
  destruct (l !! i) as [x|] eqn:Ex; [|done]. assert (Hi := lookup_lt_Some _ _ _ Ex).
  destruct (rm x); [|apply IH; lia].
  unfold DeleteSubrange. destruct (_ <=? _)%nat eqn:E; cbn; [|done]. breflect.
  apply IH; rewrite length_app, length_take, length_drop; lia.
Qed.

(** If the elements to remove come first, each deletion is of one element. *)
Lemma prune_loop_prefix rm l1 l2 fuel m :
  Forall (fun x => rm x = true) l1 -> Forall (fun x => rm x = false) l2 ->
  (length (l1 ++ l2) < fuel)%nat ->
  prune_loop fuel rm 0 (l1 ++ l2) m = Ok (m || negb (bool_decide (l1 = [])), l2).
Proof.
  intros H1 H2. revert fuel m. induction H1 as [|x l1 Hx H1 IH]; intros fuel m Hf; cbn [app] in *.
  - rewrite bool_decide_eq_true_2, orb_false_r by done.
    assert (H : forall i fuel, (length l2 - i < fuel)%nat -> prune_loop fuel rm i l2 m = Ok (m, l2)).
    { intros i f. revert i. induction f as [|f IHf]; intros i Hi; [done|]. cbn.
      destruct (l2 !! i) as [y|] eqn:Ey; [|done]. assert (Hl := lookup_lt_Some _ _ _ Ey).
      rewrite Forall_lookup in H2. rewrite (H2 i y Ey). apply IHf. lia. }
    apply H. lia.
  - destruct fuel as [|fuel]; [lia|]. cbn. rewrite Hx. unfold DeleteSubrange. cbn.
    rewrite drop_0, IH by (cbn in Hf; lia). cbn. by rewrite orb_true_r.
Qed.
End RepeatedFacts.

Lemma NoDup_perm {A} (l l' : list A) : l ≡ₚ l' -> NoDup l -> NoDup l'.
Proof. by intros ->. Qed.

(** ** The invariant of the registry *)

Section Invariant.
Context {SlaveInfo : Type} (slave_id : SlaveInfo -> string).
Context (upgrade : SlaveInfo -> SlaveInfo) (downgrade : SlaveInfo -> option SlaveInfo).
Context (info_eqb : SlaveInfo -> SlaveInfo -> bool).

(** Converting resources does not touch the id. *)
Hypothesis downgrade_id : forall i j, downgrade i = Some j -> slave_id j = slave_id i.

Notation Slave := (@Slave SlaveInfo).
Notation Registry := (@Registry SlaveInfo).
Notation state := (@state SlaveInfo).

Definition id_of (s : Slave) : string := slave_id (s_info s).

(** The ids in the three lists. *)
Definition known_ids (r : Registry) : list string :=
  map id_of (slaves r) ++ map u_id (unreachable r) ++ map g_id (gone r).

Definition drained_ok {A} (drain : A -> option DrainInfo) (deactivated : A -> bool) (x : A) : Prop :=
  drain x <> None -> deactivated x = true.

Record wf_registry (vetted : bool) (st : state) : Prop := {
  wr_ids : forall id, id ∈ st.2 <-> id ∈ map id_of (slaves st.1);
  wr_nodup : NoDup (map id_of (slaves st.1));
  wr_unique : vetted = true -> NoDup (known_ids st.1);
  wr_slaves : Forall (drained_ok s_drain_info s_deactivated) (slaves st.1);
  wr_unreachable : Forall (drained_ok u_drain_info u_deactivated) (unreachable st.1);
  wr_capability : AGENT_DRAINING ∈ minimum_capabilities st.1
    \/ (Forall (fun s => s_deactivated s = false) (slaves st.1)
        /\ Forall (fun s => u_deactivated s = false) (unreachable st.1));
}.

Lemma is_slave_true id s : is_slave slave_id id s = true <-> id_of s = id.
Proof. apply bool_decide_eq_true. Qed.

Lemma is_unreachable_true id s : is_unreachable id s = true <-> u_id s = id.
Proof. apply bool_decide_eq_true. Qed.

(** Taking an agent out of the admitted ones. *)
Lemma removed_slave v r ids id s l :
  wf_registry v (r, ids) -> remove_first (is_slave slave_id id) (slaves r) = Some (s, l) ->
  id_of s = id /\ slaves r ≡ₚ s :: l /\ id ∉ map id_of l
  /\ (forall x, x ∈ ids ∖ {[id]} <-> x ∈ map id_of l).
Proof.
  intros [Wi Wn _ _ _ _] E. apply remove_first_spec in E as (Hs%is_slave_true & Hp & _).
  assert (Hn : id ∉ map id_of l).
  { cbn in Wn. rewrite Hp in Wn. cbn in Wn. apply NoDup_cons in Wn as [Hn _]. by rewrite <- Hs. }
  split_and!; [done..|]. intros x. rewrite elem_of_difference, elem_of_singleton, Wi. cbn.
  rewrite Hp. cbn. rewrite elem_of_cons, Hs. split.
  - by intros [[?|?] ?].
  - intros Hx. split; [by right|]. by intros ->.
Qed.

Lemma wf_admit v info st m st' :
  wf_registry v st -> (v = true -> slave_id info ∉ known_ids st.1) ->
  AdmitSlave slave_id downgrade info st = Ok (m, st') -> wf_registry v st'.
Proof.
  destruct st as [r ids]. intros [Wi Wn Wq Ws Wu Wc] Hf. unfold AdmitSlave, downgradeResources.
  case_decide as Hin; [done|]. destruct (downgrade info) as [info'|] eqn:Ed; [|done].
  intros [= <- <-]. cbn in *. unfold known_ids in *.
  assert (Hid : id_of (mkSlave info' None false) = slave_id info) by by apply downgrade_id.
  rewrite (downgrade_id _ _ Ed).
  split; cbn; try done.
  - intros id. rewrite elem_of_union, elem_of_singleton, Wi, map_app, elem_of_app. cbn [map].
    rewrite Hid, list_elem_of_singleton. tauto.
  - rewrite map_app. cbn [map]. rewrite Hid. eapply NoDup_perm; [|apply (NoDup_cons_2 (slave_id info));
      [by rewrite <- Wi|exact Wn]]. solve_Permutation.
  - intros Hv. unfold known_ids. cbn. rewrite map_app. cbn [map]. rewrite Hid.
    eapply NoDup_perm; [|apply NoDup_cons_2; [exact (Hf Hv)|exact (Wq Hv)]]. solve_Permutation.
  - apply Forall_app. split; [done|]. apply Forall_singleton. intros Hd. by destruct Hd.
  - destruct Wc as [?|[? ?]]; [by left|right]. split; [|done]. apply Forall_app.
    split; [done|]. by apply Forall_singleton.
Qed.

Lemma wf_update v info st m st' :
  wf_registry v st -> UpdateSlave slave_id upgrade downgrade info_eqb info st = Ok (m, st') ->
  wf_registry v st'.
Proof.
  destruct st as [r ids]. intros Hwf. unfold UpdateSlave, downgradeResources. case_decide; [done|].
  destruct (List.find _ _); [|done]. destruct (info_eqb _ _); [by intros [= <- <-]|].
  destruct (downgrade info) as [info'|] eqn:Ed; [cbn [result_bind]|done].
  destruct (update_first _ _ _) as [l|] eqn:E; [|done]. intros [= <- <-].
  destruct Hwf as [Wi Wn Wq Ws Wu Wc]. cbn in *.
  assert (Hm : map id_of l = map id_of (slaves r)).
  { eapply (update_first_map id_of); [|exact E]. intros x Hx%is_slave_true. cbn.
    unfold id_of at 1. cbn. by rewrite (downgrade_id _ _ Ed). }
  split; cbn; try done.
  - by rewrite Hm.
  - by rewrite Hm.
  - unfold known_ids in *. cbn. by rewrite Hm.
  - eapply update_first_Forall; [|exact E|done]. by intros x _ Hx.
  - destruct Wc as [?|[? ?]]; [by left|right]. split; [|done].
    eapply update_first_Forall; [|exact E|done]. by intros x _ Hx.
Qed.

Lemma wf_mark_unreachable v info time st m st' :
  wf_registry v st -> MarkSlaveUnreachable slave_id info time st = Ok (m, st') -> wf_registry v st'.
Proof.
  destruct st as [r ids]. intros Hwf. unfold MarkSlaveUnreachable. case_decide; [done|].
  destruct (remove_first _ _) as [[s l]|] eqn:E; [|done]. intros [= <- <-].
  destruct (removed_slave _ _ _ _ _ _ Hwf E) as (Hs & Hp & Hn & Hids).
  destruct Hwf as [Wi Wn Wq Ws Wu Wc]. cbn in *. rewrite Hp in Ws. apply Forall_cons in Ws as [Hsd Ws].
  split; cbn; try done.
  - rewrite Hp in Wn. cbn in Wn. by apply NoDup_cons in Wn as [_ Wn].
  - intros Hv. specialize (Wq Hv). unfold known_ids in *. cbn in *. rewrite Hp in Wq. cbn in Wq.
    rewrite map_app. cbn. rewrite Hs in Wq. revert Wq. apply NoDup_perm. solve_Permutation.
  - apply Forall_app. split; [done|]. by apply Forall_singleton.
  - destruct Wc as [?|[Hd ?]]; [by left|right]. rewrite Hp in Hd. apply Forall_cons in Hd as [? ?].
    split; [done|]. apply Forall_app. split; [done|]. by apply Forall_singleton.
Qed.

Lemma wf_mark_reachable v info st m st' :
  wf_registry v st -> (v = true -> slave_id info ∉ map g_id (gone st.1)) ->
  MarkSlaveReachable slave_id downgrade info st = Ok (m, st') -> wf_registry v st'.
Proof.
  destruct st as [r ids]. intros Hwf Hg. unfold MarkSlaveReachable, downgradeResources.
  case_decide as Hin; [by intros [= <- <-]|]. destruct Hwf as [Wi Wn Wq Ws Wu Wc]. cbn in *.
  assert (Hns : slave_id info ∉ map id_of (slaves r)) by by rewrite <- Wi.
  unfold known_ids in *. cbn in *.
  assert (Hids : forall s, id_of s = slave_id info -> forall id,
    id ∈ ({[slave_id info]} ∪ ids : gset string) <-> id ∈ map id_of (slaves r ++ [s])).
  { intros s Hs id. rewrite elem_of_union, elem_of_singleton, Wi, map_app, elem_of_app. cbn.
    rewrite Hs, list_elem_of_singleton. tauto. }
  assert (Hnd : forall s, id_of s = slave_id info -> NoDup (map id_of (slaves r ++ [s]))).
  { intros s Hs. rewrite map_app. cbn. rewrite Hs. eapply NoDup_perm;
      [|apply (NoDup_cons_2 (slave_id info)); [exact Hns|exact Wn]]. solve_Permutation. }
  destruct (downgrade info) as [info'|]; [|by destruct (remove_first _ _) as [[]|]].
  destruct (remove_first _ _) as [[s l]|] eqn:E; intros [= <- <-].
  - apply remove_first_spec in E as (Hs%is_unreachable_true & Hp & _).
    rewrite Hp in Wu. apply Forall_cons in Wu as [Hsd Wu].
    split; cbn; [by apply Hids|by apply Hnd| | |done|].
    + intros Hv. specialize (Wq Hv). unfold known_ids. cbn. rewrite Hp in Wq. revert Wq.
      apply NoDup_perm. cbn. rewrite Hs, map_app.
      cbn. unfold id_of at 3. cbn. solve_Permutation.
    + apply Forall_app. split; [done|]. by apply Forall_singleton.
    + destruct Wc as [?|[? Hd]]; [by left|right]. rewrite Hp in Hd. apply Forall_cons in Hd as [? ?].
      split; [|done]. apply Forall_app. split; [done|]. by apply Forall_singleton.
  - apply remove_first_none in E.
    assert (Hnu : slave_id info ∉ map u_id (unreachable r)).
    { intros (u & Hu & Hin')%list_elem_of_fmap. rewrite Forall_forall in E. specialize (E u Hin').
      unfold is_unreachable in E. by apply bool_decide_eq_false in E. }
    split; cbn; [by apply Hids|by apply Hnd| | |done|].
    + intros Hv. specialize (Wq Hv). specialize (Hg Hv). unfold known_ids. cbn. rewrite map_app. cbn.
      unfold id_of at 2. cbn.
      eapply NoDup_perm; [|apply (NoDup_cons_2 (slave_id info)); [|exact Wq]]; [solve_Permutation|].
      rewrite !elem_of_app. tauto.
    + apply Forall_app. split; [done|]. apply Forall_singleton. intros Hd. by destruct Hd.
    + destruct Wc as [?|[? ?]]; [by left|right]. split; [|done]. apply Forall_app.
      split; [done|]. by apply Forall_singleton.
Qed.

Lemma sublist_map {A B} (f : A -> B) l l' : sublist l l' -> sublist (map f l) (map f l').
Proof. induction 1; cbn; by constructor. Qed.

Lemma sublist_Forall {A} (P : A -> Prop) l l' : sublist l l' -> Forall P l' -> Forall P l.
Proof.
  induction 1; intros H'; [done|apply Forall_cons in H' as [? ?]..]; [constructor|]; auto.
Qed.

Lemma wf_prune v a b st m st' : wf_registry v st -> Prune a b st = Ok (m, st') -> wf_registry v st'.
Proof.
  destruct st as [r ids]. intros [Wi Wn Wq Ws Wu Wc]. unfold Prune, prune_list.
  destruct (prune_loop _ _ _ (unreachable r) _) as [[m1 u]|] eqn:E1; [|done].
  destruct (prune_loop _ _ _ (gone r) _) as [[m2 g]|] eqn:E2; [|done]. intros [= <- <-].
  apply prune_loop_sublist in E1, E2. cbn in *. split; cbn; try done.
  - intros Hv. unfold known_ids in *. cbn. eapply sublist_NoDup; [exact (Wq Hv)|].
    apply sublist_app; [done|]. apply sublist_app; by apply sublist_map.
  - by eapply sublist_Forall.
  - destruct Wc as [?|[? ?]]; [by left|right]. split; [done|]. by eapply sublist_Forall.
Qed.

Lemma wf_remove v info st m st' :
  wf_registry v st -> RemoveSlave slave_id info st = Ok (m, st') -> wf_registry v st'.
Proof.
  destruct st as [r ids]. intros Hwf. unfold RemoveSlave.
  destruct (remove_first _ _) as [[s l]|] eqn:E; [|done]. intros [= <- <-].
  destruct (removed_slave _ _ _ _ _ _ Hwf E) as (Hs & Hp & Hn & Hids).
  apply remove_first_spec in E as (_ & _ & Hsub).
  destruct Hwf as [Wi Wn Wq Ws Wu Wc]. cbn in *. split; cbn; try done.
  - eapply sublist_NoDup; [exact Wn|]. by apply sublist_map.
  - intros Hv. unfold known_ids in *. cbn. eapply sublist_NoDup; [exact (Wq Hv)|].
    apply sublist_app; [by apply sublist_map|done].
  - by eapply sublist_Forall.
  - destruct Wc as [?|[? ?]]; [by left|right]. split; [by eapply sublist_Forall|done].
Qed.

Lemma wf_mark_gone v id time st m st' :
  wf_registry v st -> MarkSlaveGone slave_id id time st = Ok (m, st') -> wf_registry v st'.
Proof.
  destruct st as [r ids]. intros Hwf. unfold MarkSlaveGone.
  destruct (existsb _ _); [done|]. case_decide as Hin.
  - destruct (remove_first _ _) as [[s l]|] eqn:E; intros [= <- <-].
    + destruct (removed_slave _ _ _ _ _ _ Hwf E) as (Hs & Hp & Hn & Hids).
      apply remove_first_spec in E as (_ & _ & Hsub).
      destruct Hwf as [Wi Wn Wq Ws Wu Wc]. cbn in *. split; cbn; try done.
      * eapply sublist_NoDup; [exact Wn|]. by apply sublist_map.
      * intros Hv. specialize (Wq Hv). unfold known_ids in *. cbn in *. rewrite Hp in Wq. cbn in Wq.
        rewrite Hs in Wq. rewrite map_app. cbn. revert Wq. apply NoDup_perm. solve_Permutation.
      * by eapply sublist_Forall.
      * destruct Wc as [?|[? ?]]; [by left|right]. split; [by eapply sublist_Forall|done].
    + exfalso. destruct Hwf as [Wi _ _ _ _ _]. cbn in Wi. apply Wi in Hin.
      apply remove_first_none in E. rewrite Forall_forall in E.
      apply list_elem_of_fmap in Hin as (s & Hs & Hin). specialize (E s Hin).
      by apply bool_decide_eq_false in E.
  - destruct (remove_first _ _) as [[s l]|] eqn:E; [|done]. intros [= <- <-].
    apply remove_first_spec in E as (Hs%is_unreachable_true & Hp & Hsub).
    destruct Hwf as [Wi Wn Wq Ws Wu Wc]. cbn in *. split; cbn; try done.
    + intros Hv. specialize (Wq Hv). unfold known_ids in *. cbn in *. rewrite Hp in Wq. cbn in Wq.
      rewrite Hs in Wq. rewrite map_app. cbn. revert Wq. apply NoDup_perm. solve_Permutation.
    + by eapply sublist_Forall.
    + destruct Wc as [?|[? ?]]; [by left|right]. split; [done|by eapply sublist_Forall].
Qed.

(** Changing one agent in place, by functions that keep its id and the rule
    that a draining agent is deactivated. *)
Lemma wf_on_agent v id fs fu st :
  (forall s, id_of (fs s) = id_of s) -> (forall u, u_id (fu u) = u_id u) ->
  (forall s, drained_ok s_drain_info s_deactivated s -> drained_ok s_drain_info s_deactivated (fs s)) ->
  (forall u, drained_ok u_drain_info u_deactivated u -> drained_ok u_drain_info u_deactivated (fu u)) ->
  ((forall s, s_deactivated s = false -> s_deactivated (fs s) = false)
   /\ (forall u, u_deactivated u = false -> u_deactivated (fu u) = false)
   \/ AGENT_DRAINING ∈ minimum_capabilities st.1) ->
  wf_registry v st -> wf_registry v (on_agent slave_id id fs fu st).2.
Proof.
  destruct st as [r ids]. intros Hfs Hfu Hds Hdu Hcap Hwf. unfold on_agent. case_decide.
  - destruct (update_first _ _ (slaves r)) as [l|] eqn:E; cbn [default snd];
      [|by destruct r]. destruct Hwf as [Wi Wn Wq Ws Wu Wc]. cbn in *.
    assert (Hm : map id_of l = map id_of (slaves r)) by (eapply update_first_map; [|exact E]; auto).
    split; cbn; try done.
    + by rewrite Hm.
    + by rewrite Hm.
    + unfold known_ids in *. cbn. by rewrite Hm.
    + eapply update_first_Forall; [|exact E|done]. auto.
    + destruct Wc as [?|[? ?]]; [by left|]. destruct Hcap as [[Hc _]|?]; [right|by left].
      split; [|done]. eapply update_first_Forall; [|exact E|done]. auto.
  - destruct (update_first _ _ (unreachable r)) as [l|] eqn:E; [|done].
    destruct Hwf as [Wi Wn Wq Ws Wu Wc]. cbn in *.
    assert (Hm : map u_id l = map u_id (unreachable r)) by (eapply update_first_map; [|exact E]; auto).
    split; cbn; try done.
    + unfold known_ids in *. cbn. by rewrite Hm.
    + eapply update_first_Forall; [|exact E|done]. auto.
    + destruct Wc as [?|[? ?]]; [by left|]. destruct Hcap as [[_ Hc]|?]; [right|by left].
      split; [done|]. eapply update_first_Forall; [|exact E|done]. auto.
Qed.

Lemma addMinimumCapability_elem c caps : c ∈ addMinimumCapability c caps.
Proof. unfold addMinimumCapability. case_decide; [done|]. set_solver. Qed.

Lemma addMinimumCapability_mono c d caps : d ∈ caps -> d ∈ addMinimumCapability c caps.
Proof. unfold addMinimumCapability. case_decide; set_solver. Qed.

(** The capability can be added before the agent is changed. *)
Lemma wf_require v st id fs fu :
  (forall s, id_of (fs s) = id_of s) -> (forall u, u_id (fu u) = u_id u) ->
  (forall s, drained_ok s_drain_info s_deactivated s -> drained_ok s_drain_info s_deactivated (fs s)) ->
  (forall u, drained_ok u_drain_info u_deactivated u -> drained_ok u_drain_info u_deactivated (fu u)) ->
  wf_registry v st ->
  wf_registry v (require_draining_capability (on_agent slave_id id fs fu st)).2.
Proof.
  intros Hfs Hfu Hds Hdu Hwf. destruct st as [r ids].
  set (r' := set_capabilities (addMinimumCapability AGENT_DRAINING (minimum_capabilities r)) r).
  assert (Hwf' : wf_registry v (r', ids)).
  { destruct Hwf as [Wi Wn Wq Ws Wu Wc]. split; cbn in *; try done.
    left. apply addMinimumCapability_elem. }
  assert (H := wf_on_agent v id fs fu (r', ids) Hfs Hfu Hds Hdu
                 (or_intror (addMinimumCapability_elem _ _)) Hwf').
  unfold on_agent, require_draining_capability in *. case_decide; [done|].
  cbn [r' unreachable set_capabilities] in H. by destruct (update_first _ _ (unreachable r)).
Qed.

Lemma wf_drain v id grace g st m st' :
  wf_registry v st -> DrainAgent slave_id id grace g st = Ok (m, st') -> wf_registry v st'.
Proof.
  intros Hwf. unfold DrainAgent. intros [= E].
  replace st' with (require_draining_capability (on_agent slave_id id
    (fun s => mkSlave (s_info s) (Some (start_draining grace g (s_drain_info s))) true)
    (fun s => mkUnreachable (u_id s) (u_timestamp s)
                (Some (start_draining grace g (u_drain_info s))) true) st)).2 by by rewrite E.
  by apply wf_require.
Qed.

Lemma wf_deactivate v id st m st' :
  wf_registry v st -> DeactivateAgent slave_id id st = Ok (m, st') -> wf_registry v st'.
Proof.
  intros Hwf. unfold DeactivateAgent. intros [= E].
  replace st' with (require_draining_capability (on_agent slave_id id
    (fun s => mkSlave (s_info s) (s_drain_info s) true)
    (fun s => mkUnreachable (u_id s) (u_timestamp s) (u_drain_info s) true) st)).2 by by rewrite E.
  by apply wf_require.
Qed.

Lemma finish_draining_some d : finish_draining d <> None -> d <> None.
Proof. by destruct d. Qed.

Lemma wf_drained v id st m st' :
  wf_registry v st -> MarkAgentDrained slave_id id st = Ok (m, st') -> wf_registry v st'.
Proof.
  intros Hwf. unfold MarkAgentDrained. destruct (drain_info_of _ _ _) as [d|].
  - destruct (finish_draining d); [|done]. intros [= E].
    match type of E with ?x = _ => replace st' with x.2 by by rewrite E end.
    apply wf_on_agent; try done; [| |by left].
    + intros s Hs Hd%finish_draining_some. by apply Hs.
    + intros s Hs Hd%finish_draining_some. by apply Hs.
  - intros [= E]. match type of E with ?x = _ => replace st' with x.2 by by rewrite E end.
    apply wf_on_agent; try done. by left.
Qed.

(** *** Reactivation *)

Section Loop.
Context {A : Type} (is_agent deactivated : A -> bool) (clear : A -> A).
Hypothesis clear_active : forall x, deactivated (clear x) = false.

(** What the loop leaves behind: the agents are cleared as far as it went, the
    flags say what it has seen. *)
Lemma reactivate_loop_spec l found more l' found' more' :
  reactivate_loop is_agent deactivated clear l found more = (l', found', more') ->
  (found = true -> found' = true) /\ (more = true -> more' = true)
  /\ (more' = false -> Forall (fun x => deactivated x = false) l')
  /\ (more' = true -> more = true \/ exists x, x ∈ l' /\ is_agent x = false /\ deactivated x = true)
  /\ (found' = false -> found = false /\ l' = l /\ Forall (fun x => is_agent x = false) l).
Proof.
  revert found more l' found' more'. induction l as [|x l IH]; intros found more l' found' more' H; cbn in H.
  { injection H as <- <- <-. split_and!; try done; by left. }
  destruct (is_agent x) eqn:Ea.
  - destruct more.
    + injection H as <- <- <-. split_and!; try done. by left.
    + destruct (reactivate_loop _ _ _ l true false) as [[r f] m] eqn:E. injection H as <- <- <-.
      destruct (IH _ _ _ _ _ E) as (I1 & I2 & I3 & I4 & I5). split_and!; try done.
      * intros _. by apply I1.
      * intros Hm. constructor; [done|]. by apply I3.
      * intros Hm. destruct (I4 Hm) as [?|(y & Hy & ?)]; [done|]. right. exists y. split; [by right|done].
      * intros Hf. by rewrite (I1 eq_refl) in Hf.
  - destruct (deactivated x) eqn:Ed.
    + destruct found.
      * injection H as <- <- <-. split_and!; try done. intros _. right. exists x. split; [by left|done].
      * destruct (reactivate_loop _ _ _ l false true) as [[r f] m] eqn:E. injection H as <- <- <-.
        destruct (IH _ _ _ _ _ E) as (I1 & I2 & I3 & I4 & I5). specialize (I2 eq_refl).
        split_and!; try done.
        -- intros Hm. congruence.
        -- intros _. right. exists x. split; [by left|done].
        -- intros Hf. destruct (I5 Hf) as (_ & -> & ?). split_and!; [done..|by constructor].
    + destruct (reactivate_loop _ _ _ l found more) as [[r f] m] eqn:E. injection H as <- <- <-.
      destruct (IH _ _ _ _ _ E) as (I1 & I2 & I3 & I4 & I5). split_and!; try done.
      * intros Hm. constructor; auto.
      * intros Hm. destruct (I4 Hm) as [?|(y & Hy & ?)]; [by left|]. right. exists y. split; [by right|done].
      * intros Hf. destruct (I5 Hf) as (? & -> & ?). split_and!; [done..|by constructor].
Qed.

Lemma reactivate_loop_map {B} (g : A -> B) l found more l' found' more' :
  (forall x, g (clear x) = g x) ->
  reactivate_loop is_agent deactivated clear l found more = (l', found', more') -> map g l' = map g l.
Proof.
  intros Hg. revert found more l' found' more'. induction l as [|x l IH]; intros found more l' found' more' H; cbn in H.
  { by injection H as <- _ _. }
  destruct (is_agent x), (deactivated x), found, more;
    repeat case_match; simplify_eq; cbn; rewrite ?Hg; f_equal; eauto.
Qed.

Lemma reactivate_loop_Forall (P : A -> Prop) l found more l' found' more' :
  (forall x, P x -> P (clear x)) ->
  reactivate_loop is_agent deactivated clear l found more = (l', found', more') ->
  Forall P l -> Forall P l'.
Proof.
  intros Hp. revert found more l' found' more'. induction l as [|x l IH]; intros found more l' found' more' H Hl; cbn in H.
  { by injection H as <- _ _. }
  apply Forall_cons in Hl as [Hx Hl].
  destruct (is_agent x), (deactivated x), found, more;
    repeat case_match; simplify_eq; constructor; eauto.
Qed.
End Loop.

(** The registry after reactivation, and whether a deactivated agent is left. *)
Lemma reactivate_spec id r ids found r' ids' :
  ReactivateAgent slave_id id (r, ids) = Ok (found, (r', ids')) ->
  ids' = ids /\ gone r' = gone r
  /\ map id_of (slaves r') = map id_of (slaves r)
  /\ map u_id (unreachable r') = map u_id (unreachable r)
  /\ (forall P : Slave -> Prop, (forall s, P s -> P (mkSlave (s_info s) None false)) ->
       Forall P (slaves r) -> Forall P (slaves r'))
  /\ (forall P : UnreachableSlave -> Prop,
       (forall u, P u -> P (mkUnreachable (u_id u) (u_timestamp u) None false)) ->
       Forall P (unreachable r) -> Forall P (unreachable r'))
  /\ ((minimum_capabilities r' = minimum_capabilities r
       /\ (found = true -> (exists s, s ∈ slaves r' /\ s_deactivated s = true)
                           \/ exists u, u ∈ unreachable r' /\ u_deactivated u = true))
      \/ (found = true
          /\ minimum_capabilities r' = removeMinimumCapability AGENT_DRAINING (minimum_capabilities r)
          /\ Forall (fun s => s_deactivated s = false) (slaves r')
          /\ Forall (fun u => u_deactivated u = false) (unreachable r'))).
Proof.
  unfold ReactivateAgent.
  destruct (reactivate_loop _ _ _ (slaves r) false false) as [[l f1] m1] eqn:E1.
  assert (S1 := E1). apply reactivate_loop_spec in S1; [|done].
  destruct S1 as (_ & _ & A1 & A2 & _).
  set (x2 := if negb f1 || negb m1 then _ else _).
  assert (H2 : exists u f2 m2, x2 = (u, f2, m2)
    /\ map u_id u = map u_id (unreachable r)
    /\ (forall P : UnreachableSlave -> Prop,
         (forall u, P u -> P (mkUnreachable (u_id u) (u_timestamp u) None false)) ->
         Forall P (unreachable r) -> Forall P u)
    /\ (m2 = false -> m1 = false /\ Forall (fun u => u_deactivated u = false) u)
    /\ (m2 = true -> m1 = true \/ exists y, y ∈ u /\ u_deactivated y = true)).
  { unfold x2. destruct (negb f1 || negb m1) eqn:Ec.
    - destruct (reactivate_loop _ _ _ (unreachable r) f1 m1) as [[u f2] m2] eqn:E2.
      assert (S2 := E2). apply reactivate_loop_spec in S2; [|done].
      destruct S2 as (_ & B2 & B3 & B4 & _).
      exists u, f2, m2. split_and!; [done| | | |].
      + by eapply reactivate_loop_map; [|exact E2].
      + intros P HP. by eapply reactivate_loop_Forall; [|exact E2].
      + intros Hm. split; [|auto]. destruct m1; [|done]. by rewrite B2 in Hm.
      + intros Hm. destruct (B4 Hm) as [?|(y & ? & ? & ?)]; eauto.
    - apply orb_false_iff in Ec as [_ Hm%negb_false_iff]. subst m1.
      exists (unreachable r), f1, true. split_and!; try done. auto. }
  destruct H2 as (u & f2 & m2 & -> & U1 & U2 & U3 & U4). intros [= <- <- <-].
  assert (Hl : map id_of l = map id_of (slaves r)) by by eapply reactivate_loop_map; [|exact E1].
  assert (HlF : forall P : Slave -> Prop, (forall s, P s -> P (mkSlave (s_info s) None false)) ->
    Forall P (slaves r) -> Forall P l) by (intros P HP; by eapply reactivate_loop_Forall; [|exact E1]).
  destruct (f2 && negb m2) eqn:Ef; cbn; split_and!; try done.
  - right. apply andb_true_iff in Ef as [-> Hm%negb_true_iff]. destruct (U3 Hm) as [Hm1 ?].
    split_and!; auto.
  - left. split; [done|]. intros ->. cbn in Ef. apply negb_false_iff in Ef.
    destruct (U4 Ef) as [Hm1|?]; [left|by right].
    destruct (A2 Hm1) as [?|(s & Hs & _ & Hd)]; [done|eauto].
Qed.

Lemma wf_reactivate v id st m st' :
  wf_registry v st -> ReactivateAgent slave_id id st = Ok (m, st') -> wf_registry v st'.
Proof.
  destruct st as [r ids], st' as [r' ids']. intros [Wi Wn Wq Ws Wu Wc] E.
  apply reactivate_spec in E as (-> & Hg & Hs & Hu & Fs & Fu & Hc). cbn in *. split; cbn.
  - by rewrite Hs.
  - by rewrite Hs.
  - unfold known_ids in *. by rewrite Hs, Hu, Hg.
  - apply Fs; [|done]. intros s _ Hd. by destruct Hd.
  - apply Fu; [|done]. intros s _ Hd. by destruct Hd.
  - destruct Hc as [[-> _]|(_ & _ & ? & ?)]; [|by right].
    destruct Wc as [?|[? ?]]; [by left|right]. split; [by apply Fs|by apply Fu].
Qed.

(** ** Histories of the registry *)

(** The operations of the registrar, in any order and with any arguments. A
    [vetted] history is one of a master that admits only ids the registry has
    never seen and does not let an agent back that was marked gone; the
    operations check neither. *)
Inductive registry_step (vetted : bool) (st st' : state) : Prop :=
  | rg_admit info m : (vetted = true -> slave_id info ∉ known_ids st.1) ->
      AdmitSlave slave_id downgrade info st = Ok (m, st') -> registry_step vetted st st'
  | rg_update info m : UpdateSlave slave_id upgrade downgrade info_eqb info st = Ok (m, st') ->
      registry_step vetted st st'
  | rg_unreachable info time m : MarkSlaveUnreachable slave_id info time st = Ok (m, st') ->
      registry_step vetted st st'
  | rg_reachable info m : (vetted = true -> slave_id info ∉ map g_id (gone st.1)) ->
      MarkSlaveReachable slave_id downgrade info st = Ok (m, st') -> registry_step vetted st st'
  | rg_prune a b m : Prune a b st = Ok (m, st') -> registry_step vetted st st'
  | rg_remove info m : RemoveSlave slave_id info st = Ok (m, st') -> registry_step vetted st st'
  | rg_gone id time m : MarkSlaveGone slave_id id time st = Ok (m, st') -> registry_step vetted st st'
  | rg_drain id grace g m : DrainAgent slave_id id grace g st = Ok (m, st') -> registry_step vetted st st'
  | rg_drained id m : MarkAgentDrained slave_id id st = Ok (m, st') -> registry_step vetted st st'
  | rg_deactivate id m : DeactivateAgent slave_id id st = Ok (m, st') -> registry_step vetted st st'
  | rg_reactivate id m : ReactivateAgent slave_id id st = Ok (m, st') -> registry_step vetted st st'.

Lemma registry_step_wf v st st' : registry_step v st st' -> wf_registry v st -> wf_registry v st'.
Proof.
  intros Hstep Hwf. destruct Hstep as [info m Hf E|info m E|info time m E|info m Hg E|a b m E|info m E
    |id time m E|id grace g m E|id m E|id m E|id m E].
  - exact (wf_admit _ _ _ _ _ Hwf Hf E).
  - exact (wf_update _ _ _ _ _ Hwf E).
  - exact (wf_mark_unreachable _ _ _ _ _ _ Hwf E).
  - exact (wf_mark_reachable _ _ _ _ _ Hwf Hg E).
  - exact (wf_prune _ _ _ _ _ _ Hwf E).
  - exact (wf_remove _ _ _ _ _ Hwf E).
  - exact (wf_mark_gone _ _ _ _ _ _ Hwf E).
  - exact (wf_drain _ _ _ _ _ _ _ Hwf E).
  - exact (wf_drained _ _ _ _ _ Hwf E).
  - exact (wf_deactivate _ _ _ _ _ Hwf E).
  - exact (wf_reactivate _ _ _ _ _ Hwf E).
Qed.

Definition empty_registry : state := (mkRegistry [] [] [] [], ∅).

Lemma empty_registry_wf v : wf_registry v empty_registry.
Proof.
  split; cbn; try done.
  - intros id. split; [set_solver|]. intros H. by apply not_elem_of_nil in H.
  - constructor.
  - intros _. constructor.
  - by right.
Qed.

Lemma registry_steps_wf v st : rtc (registry_step v) empty_registry st -> wf_registry v st.
Proof.
  intros H. assert (H0 := empty_registry_wf v). revert H0.
  induction H as [|x y z Hxy _ IH]; intros Hx; [done|]. apply IH. exact (registry_step_wf _ _ _ Hxy Hx).
Qed.

(** An admitted agent is where [slaveIDs] says it is. *)
Lemma admitted_found v r ids id :
  wf_registry v (r, ids) -> id ∈ ids ->
  exists s l, remove_first (is_slave slave_id id) (slaves r) = Some (s, l).
Proof.
  intros [Wi _ _ _ _ _] Hid. cbn in Wi. apply Wi, list_elem_of_fmap in Hid as (s & -> & Hs).
  destruct (remove_first _ _) as [[x l]|] eqn:E; [eauto|]. apply remove_first_none in E.
  rewrite Forall_forall in E. specialize (E s Hs). by apply bool_decide_eq_false in E.
Qed.

(** C13. The registry stays consistent. After every sequence of operations,
    whatever their arguments: [slaveIDs] holds exactly the ids of the admitted
    agents, no agent is admitted twice, a draining agent is deactivated, the
    [AGENT_DRAINING] capability is required whenever an agent is deactivated,
    and marking an admitted agent unreachable or removing it never reports that
    it was not found. Only if the master also admits nothing but ids the
    registry has never seen and does not mark a gone agent reachable (a
    [vetted] history), no id appears twice across the admitted, unreachable
    and gone agents. Downgrading an agent's resources is assumed to keep its
    id. *)
Theorem registry_consistent vetted st :
  rtc (registry_step vetted) empty_registry st ->
  wf_registry vetted st
  /\ (forall info time, slave_id info ∈ st.2 ->
       is_ok (MarkSlaveUnreachable slave_id info time st) = true
       /\ is_ok (RemoveSlave slave_id info st) = true).
Proof.
  intros H. assert (Hwf := registry_steps_wf vetted st H). split; [done|]. intros info time Hid.
  destruct st as [r ids]. destruct (admitted_found vetted r ids _ Hwf Hid) as (s & l & E).
  unfold MarkSlaveUnreachable, RemoveSlave. rewrite E. split; [|done]. by case_decide.
Qed.

Lemma remove_first_app_none {A} (p : A -> bool) l x :
  Forall (fun y => p y = false) l -> p x = true -> remove_first p (l ++ [x]) = Some (x, l).
Proof. induction 1 as [|y l Hy _ IH]; intros Hx; cbn; [by rewrite Hx|]. by rewrite Hy, IH. Qed.

(** An agent that becomes unreachable and comes back keeps what the
    operator asked of it: it is admitted again, no longer unreachable, still
    draining and deactivated as before, and the other agents are untouched,
    provided its resources can be downgraded. *)
Theorem unreachable_reachable_roundtrip r ids info time :
  rtc (registry_step true) empty_registry (r, ids) -> slave_id info ∈ ids -> is_Some (downgrade info) ->
  exists s l st1 st2,
    remove_first (is_slave slave_id (slave_id info)) (slaves r) = Some (s, l)
    /\ MarkSlaveUnreachable slave_id info time (r, ids) = Ok (true, st1)
    /\ slave_id info ∉ st1.2
    /\ MarkSlaveReachable slave_id downgrade info st1 = Ok (true, st2)
    /\ st2.2 = ids /\ unreachable st2.1 = unreachable r /\ gone st2.1 = gone r
    /\ slaves st2.1 = l ++ [mkSlave info (s_drain_info s) (s_deactivated s)].
Proof.
  intros H Hid [info' Ed]. assert (Hwf := registry_steps_wf _ _ H).
  destruct (admitted_found true r ids _ Hwf Hid) as (s & l & E).
  exists s, l. do 2 eexists. split; [done|]. unfold MarkSlaveUnreachable.
  rewrite decide_False, E by by intros ?. split; [done|]. cbn [snd].
  split; [set_solver|]. unfold MarkSlaveReachable, downgradeResources. rewrite Ed, decide_False by set_solver.
  cbn [unreachable set_unreachable].
  assert (Hu : Forall (fun u => is_unreachable (slave_id info) u = false) (unreachable r)).
  { apply Forall_forall. intros u Hu. apply bool_decide_eq_false. intros Hid'.
    destruct Hwf as [Wi _ Wn _ _ _]. cbn in *. specialize (Wn eq_refl). unfold known_ids in Wn. apply Wi in Hid.
    apply NoDup_app in Wn as (_ & Wd & _). apply (Wd _ Hid). apply elem_of_app. left.
    rewrite <- Hid'. apply list_elem_of_fmap. eauto. }
  rewrite remove_first_app_none by (done || by apply bool_decide_eq_true).
  split; [done|]. cbn. split_and!; [|done..].
  apply set_eq. intros x. destruct (decide (x = slave_id info)) as [->|]; set_solver.
Qed.

(** Reactivation settles the capability exactly: if an agent was found,
    [AGENT_DRAINING] is still required afterwards if and only if some agent,
    admitted or unreachable, is still deactivated. *)
Theorem reactivate_capability_exact id r ids r' ids' :
  NoDup (minimum_capabilities r) -> AGENT_DRAINING ∈ minimum_capabilities r ->
  ReactivateAgent slave_id id (r, ids) = Ok (true, (r', ids')) ->
  (AGENT_DRAINING ∈ minimum_capabilities r' <->
     (exists s, s ∈ slaves r' /\ s_deactivated s = true)
     \/ exists u, u ∈ unreachable r' /\ u_deactivated u = true).
Proof.
  intros Hnd Hin E. apply reactivate_spec in E as (_ & _ & _ & _ & _ & _ & Hc).
  destruct Hc as [[-> Hd]|(_ & -> & Hs & Hu)]; [tauto|]. split.
  - unfold removeMinimumCapability. destruct (remove_first _ _) as [[x l]|] eqn:E.
    + apply remove_first_spec in E as (Hx%bool_decide_eq_true & Hp & _). rewrite Hp in Hnd.
      apply NoDup_cons in Hnd as [Hn _]. congruence.
    + apply remove_first_none in E. rewrite Forall_forall in E. specialize (E _ Hin).
      by apply bool_decide_eq_false in E.
  - rewrite Forall_forall in Hs. rewrite Forall_forall in Hu. intros [(s & Hsin & Hd)|(u & Huin & Hd)].
    + by rewrite (Hs s Hsin) in Hd.
    + by rewrite (Hu u Huin) in Hd.
Qed.
End Invariant.

(** Pruning removes exactly what it is told when the agents to remove are
    the oldest of their lists, which is how the master's garbage collection
    picks them: both lists keep the rest in order, and the flag says whether
    anything was removed. *)
Theorem prune_oldest_exact {SlaveInfo : Type} (rmU rmG : gset string)
    (r : @Registry SlaveInfo) ids u1 u2 g1 g2 :
  unreachable r = u1 ++ u2 -> gone r = g1 ++ g2 ->
  Forall (fun s => u_id s ∈ rmU) u1 -> Forall (fun s => u_id s ∉ rmU) u2 ->
  Forall (fun s => g_id s ∈ rmG) g1 -> Forall (fun s => g_id s ∉ rmG) g2 ->
  Prune rmU rmG (r, ids)
  = Ok (negb (bool_decide (u1 = [])) || negb (bool_decide (g1 = [])),
        (mkRegistry (slaves r) u2 g2 (minimum_capabilities r), ids)).
Proof.
  intros Eu Eg Hu1 Hu2 Hg1 Hg2. unfold Prune, prune_list. rewrite Eu, Eg.
  rewrite (prune_loop_prefix _ u1 u2); [|..|lia].
  - cbn [orb]. rewrite (prune_loop_prefix _ g1 g2); [done|..|lia].
    + eapply Forall_impl; [exact Hg1|]. intros x Hx. by apply bool_decide_eq_true.
    + eapply Forall_impl; [exact Hg2|]. intros x Hx. by apply bool_decide_eq_false.
  - eapply Forall_impl; [exact Hu1|]. intros x Hx. by apply bool_decide_eq_true.
  - eapply Forall_impl; [exact Hu2|]. intros x Hx. by apply bool_decide_eq_false.
Qed.

(** ** Concrete registries *)

(** An agent is its id and the format of its resources. *)
Definition sample_info : Type := string * Z.
Definition sample_downgrade (i : sample_info) : option sample_info := Some (i.1, 0%Z).
Definition sample_upgrade (i : sample_info) : sample_info := (i.1, 1%Z).
Definition sample_eqb (i j : sample_info) : bool := bool_decide (i = j).

Lemma sample_downgrade_id i j : sample_downgrade i = Some j -> j.1 = i.1.
Proof. by intros [= <-]. Defined.

Definition agent (id : string) : sample_info := (id, 1%Z).

Definition after_op (o : @outcome sample_info) : @state sample_info :=
  match o with Ok (_, st) => st | Err _ => empty_registry end.

(** One agent, admitted and draining. *)
Definition draining : @state sample_info :=
  after_op (DrainAgent fst "a" (Some 5%Z) false
    (after_op (AdmitSlave fst sample_downgrade (agent "a") empty_registry))).

Notation sample_step := (registry_step fst sample_upgrade sample_downgrade sample_eqb).

Lemma draining_reachable : rtc (sample_step true) empty_registry draining.
Proof.
  eapply rtc_l; [eapply (rg_admit _ _ _ _ _ _ _ (agent "a"));
                 [intros _; apply not_elem_of_nil|vm_compute; reflexivity]|].
  eapply rtc_l; [eapply (rg_drain _ _ _ _ _ _ _ "a" (Some 5%Z) false); vm_compute; reflexivity|].
  apply rtc_refl.
Defined.

Lemma registry_consistent_witness :
  wf_registry fst true draining
  /\ (forall (info : sample_info) time, info.1 ∈ draining.2 ->
       is_ok (MarkSlaveUnreachable fst info time draining) = true
       /\ is_ok (RemoveSlave fst info draining) = true).
Proof.
  apply (registry_consistent fst sample_upgrade sample_downgrade sample_eqb
           sample_downgrade_id true draining draining_reachable).
Defined.

Lemma unreachable_reachable_roundtrip_witness :
  exists s l st1 st2,
    remove_first (is_slave fst "a") (slaves draining.1) = Some (s, l)
    /\ MarkSlaveUnreachable fst (agent "a") 7%Z (draining.1, draining.2) = Ok (true, st1)
    /\ "a"%string ∉ st1.2
    /\ MarkSlaveReachable fst sample_downgrade (agent "a") st1 = Ok (true, st2)
    /\ st2.2 = draining.2 /\ unreachable st2.1 = unreachable draining.1
    /\ gone st2.1 = gone draining.1
    /\ slaves st2.1 = l ++ [mkSlave (agent "a") (s_drain_info s) (s_deactivated s)].
Proof.
  apply (unreachable_reachable_roundtrip fst sample_upgrade sample_downgrade sample_eqb
           sample_downgrade_id draining.1 draining.2 (agent "a") 7%Z).
  - apply draining_reachable.
  - apply (bool_decide_unpack _). vm_compute. exact I.
  - eexists. reflexivity.
Defined.

Lemma reactivate_capability_exact_witness :
  let st' := after_op (ReactivateAgent fst "a" draining) in
  (AGENT_DRAINING ∈ minimum_capabilities st'.1 <->
     (exists s, s ∈ slaves st'.1 /\ s_deactivated s = true)
     \/ exists u, u ∈ unreachable st'.1 /\ u_deactivated u = true).
Proof.
  intros st'. apply (reactivate_capability_exact fst "a" draining.1 draining.2 st'.1 st'.2).
  - apply (bool_decide_unpack _). vm_compute. exact I.
  - apply (bool_decide_unpack _). vm_compute. exact I.
  - vm_compute. reflexivity.
Defined.

Definition gone_since (id : string) : UnreachableSlave := mkUnreachable id 1 None false.

Definition pruned_registry (ids : list string) : @state sample_info :=
  (mkRegistry [] (map gone_since ids) [] [], ∅).

Lemma prune_oldest_exact_witness :
  Prune {["a"; "b"]} ∅ (pruned_registry ["a"; "b"; "c"])
  = Ok (true, (mkRegistry [] [gone_since "c"] [] [], ∅)).
Proof.
  apply (prune_oldest_exact {["a"; "b"]} ∅ (pruned_registry ["a"; "b"; "c"]).1 ∅
           [gone_since "a"; gone_since "b"] [gone_since "c"] [] []);
    try reflexivity; apply (bool_decide_unpack _); vm_compute; exact I.
Defined.

(** That the master vets what it admits is needed: [AdmitSlave] and
    [MarkSlaveReachable] look at the admitted agents only, so an agent that
    was marked gone can be admitted again and is then known twice. *)
Lemma gone_agent_known_twice :
  exists st, rtc (sample_step false) empty_registry st /\ known_ids fst st.1 = ["a"; "a"].
Proof.
  exists (after_op (AdmitSlave fst sample_downgrade (agent "a")
           (after_op (MarkSlaveGone fst "a" 3%Z draining)))). split; [|vm_compute; reflexivity].
  eapply rtc_l; [eapply (rg_admit _ _ _ _ _ _ _ (agent "a")); [done|vm_compute; reflexivity]|].
  eapply rtc_l; [eapply (rg_drain _ _ _ _ _ _ _ "a" (Some 5%Z) false); vm_compute; reflexivity|].
  eapply rtc_l; [eapply (rg_gone _ _ _ _ _ _ _ "a" 3%Z); vm_compute; reflexivity|].
  eapply rtc_l; [eapply (rg_admit _ _ _ _ _ _ _ (agent "a")); [done|vm_compute; reflexivity]|].
  apply rtc_refl.
Qed.

(** ** Where the code departs from its intent *)

(** [DeleteSubrange(i, i+1)] deletes [i+1] agents, not one: pruning [b]
    out of [a, b, c, d] loses [c] as well, and pruning the last of two agents
    asks for a range beyond the end of the list. *)
Theorem prune_deletes_bystanders :
  Prune {["b"]} ∅ (pruned_registry ["a"; "b"; "c"; "d"])
    = Ok (true, (mkRegistry [] [gone_since "a"; gone_since "d"] [] [], ∅))
  /\ Prune {["b"]} ∅ (pruned_registry ["a"; "b"]) = Err BadRange.
Proof. vm_compute. split; reflexivity. Qed.

(** An agent that comes back is registered with the resources it sent, not
    with the downgraded ones an older master could read. *)
Lemma reachable_not_downgraded :
  MarkSlaveReachable fst sample_downgrade (agent "a") empty_registry
    = Ok (true, (mkRegistry [mkSlave (agent "a") None false] [] [] [], {["a"]}))
  /\ AdmitSlave fst sample_downgrade (agent "a") empty_registry
    = Ok (true, (mkRegistry [mkSlave ("a", 0%Z) None false] [] [] [], {["a"]})).
Proof. vm_compute. split; reflexivity. Qed.
