(* ===== verification/Maintenance.v ===== *)
(** * Maintenance schedules

    [src/src/master/maintenance.cpp]: the registry operations that update a
    schedule and start or stop maintenance, and the validation of what an
    operator submits.  Parsing an IP address is an argument.

    Machines are compared with [operator==(MachineID, MachineID)] of
    [src/include/mesos/type_utils.hpp], which ignores the case of hostnames:
    the elements of a [hashset<MachineID>] are the [key]s of its members. *)

From stdpp Require Import base gmap strings list relations.
From S2P Require Import Prelude Strings.
Local Open Scope Z_scope.

(** ** Data *)

Record MachineID := mkMachineID { hostname : option string; ip : option string }.

(** What [operator==] compares: the presence of both fields, the hostname in
    lower case and the address. *)
Definition key (id : MachineID) : option string * option string :=
  (lower <$> hostname id, ip id).

Abbreviation machine_key := (option string * option string)%type.

Inductive Mode := UP | DRAINING | DOWN.

#[export] Instance Mode_eq_dec : EqDecision Mode.
Proof. solve_decision. Defined.

Record Unavailability := mkUnavailability { u_start : Z; u_duration : option Z }.

Record Window := mkWindow { machine_ids : list MachineID; unavailability : Unavailability }.

Definition Schedule : Type := list Window.

Record Machine := mkMachine {
  m_id : MachineID;
  m_mode : Mode;
  m_unavailability : Unavailability;
}.

(** The fields of [Registry] the operations touch. *)
Record Machines := mkMachines { machines : list Machine; schedules : list Schedule }.

(** ** Operations *)

Definition m_key (m : Machine) : machine_key := key (m_id m).
Definition window_keys (w : Window) : list machine_key := map key (machine_ids w).
Definition schedule_keys (s : Schedule) : list machine_key := concat (map window_keys s).
Definition scheduled (r : Machines) : list machine_key := concat (map schedule_keys (schedules r)).

(** [updated[id] = window.unavailability()]: the last window wins. *)
Definition updated (s : Schedule) : gmap machine_key Unavailability :=
  fold_left (fun acc w => fold_left (fun acc k => <[k := unavailability w]> acc) (window_keys w) acc)
    s ∅.

(** The [hashset<MachineID>] of a list. *)
Definition key_set (ids : list MachineID) : gset machine_key := list_to_set (map key ids).

(** [UpdateSchedule::perform]. *)
Definition UpdateSchedule (s : Schedule) (r : Machines) : bool * Machines :=
  let existing := scheduled r in
  let kept :=
    omap (fun m => match updated s !! m_key m with
                   | Some u => Some (mkMachine (m_id m) (m_mode m) u)
                   | None => None
                   end) (machines r) in
  let added :=
    concat (map (fun w =>
      omap (fun id => if decide (key id ∈ existing) then None
                      else Some (mkMachine id DRAINING (unavailability w))) (machine_ids w)) s) in
  (true, mkMachines (kept ++ added) [s]).

(** [StartMaintenance::perform]. *)
Definition StartMaintenance (ids : list MachineID) (r : Machines) : bool * Machines :=
  (existsb (fun m => bool_decide (m_key m ∈ key_set ids)) (machines r),
   mkMachines
     (map (fun m => if decide (m_key m ∈ key_set ids) then mkMachine (m_id m) DOWN (m_unavailability m) else m)
        (machines r)) (schedules r)).

(** [StopMaintenance::perform]: machines, then the machines of the windows,
    then windows and schedules that are empty. *)
Definition stop_window (ids : gset machine_key) (w : Window) : Window :=
  mkWindow (filter (fun id => key id ∉ ids) (machine_ids w)) (unavailability w).

Definition stop_schedule (ids : gset machine_key) (s : Schedule) : Schedule :=
  filter (fun w => machine_ids w <> []) (map (stop_window ids) s).

Definition StopMaintenance (ids : list MachineID) (r : Machines) : bool * Machines :=
  (existsb (fun m => bool_decide (m_key m ∈ key_set ids)) (machines r),
   mkMachines (filter (fun m => m_key m ∉ key_set ids) (machines r))
     (filter (fun s => s <> []) (map (stop_schedule (key_set ids)) (schedules r)))).

(** ** Validation *)

Inductive schedule_error :=
  | EmptyWindow
  | NegativeDuration
  | EmptyMachine
  | BadIP
  | DuplicateMachine
  | EmptyList
  | DownMachineRemoved.

Section Validation.
(** [net::IP::parse(ip, AF_INET)]. *)
Context (parse_ip : string -> bool).

Definition validate_machine (id : MachineID) : option schedule_error :=
  let address := default EmptyString (ip id) in
  if bool_decide (default EmptyString (hostname id) = EmptyString /\ address = EmptyString)
  then Some EmptyMachine
  else if negb (bool_decide (address = EmptyString)) && negb (parse_ip address) then Some BadIP
  else None.

Definition validate_unavailability (u : Unavailability) : option schedule_error :=
  if default 0 (u_duration u) <? 0 then Some NegativeDuration else None.

(** The inner loop: each machine is valid and new. *)
Fixpoint validate_ids (ids : list MachineID) (seen : gset machine_key)
  : result schedule_error (gset machine_key) :=
  match ids with
  | [] => Ok seen
  | id :: ids' =>
      match validate_machine id with
      | Some e => Err e
      | None =>
          if decide (key id ∈ seen) then Err DuplicateMachine
          else validate_ids ids' ({[key id]} ∪ seen)
      end
  end.

Fixpoint validate_windows (s : Schedule) (seen : gset machine_key)
  : result schedule_error (gset machine_key) :=
  match s with
  | [] => Ok seen
  | w :: s' =>
      if bool_decide (machine_ids w = []) then Err EmptyWindow
      else match validate_unavailability (unavailability w) with
           | Some e => Err e
           | None => let? seen' := validate_ids (machine_ids w) seen in validate_windows s' seen'
           end
  end.

(** [validation::schedule] against the machines the master knows. *)
Definition validate_schedule (s : Schedule) (known : list Machine) : option schedule_error :=
  match validate_windows s ∅ with
  | Err e => Some e
  | Ok seen =>
      if existsb (fun m => bool_decide (m_mode m = DOWN) && negb (bool_decide (m_key m ∈ seen))) known
      then Some DownMachineRemoved else None
  end.

(** [validation::machines]. *)
Definition validate_machines (ids : list MachineID) : option schedule_error :=
  if bool_decide (ids = []) then Some EmptyList
  else match validate_ids ids ∅ with Err e => Some e | Ok _ => None end.

(** ** What validation accepts *)

Lemma validate_ids_spec ids seen seen' :
  validate_ids ids seen = Ok seen' ->
  NoDup (map key ids) /\ (forall k, k ∈ map key ids -> k ∉ seen)
  /\ (forall k, k ∈ seen' <-> k ∈ map key ids \/ k ∈ seen)
  /\ Forall (fun id => validate_machine id = None) ids.
Proof.
  revert seen. induction ids as [|id ids IH]; intros seen; cbn.
  { intros [= <-]. split_and!; [constructor|set_solver|set_solver|constructor]. }
  destruct (validate_machine id) eqn:Ev; [done|]. case_decide as Hs; [done|]. intros H.
  destruct (IH _ H) as (Hn & Hd & He & Hf). split_and!.
  - constructor; [|done]. intros Hin. specialize (Hd _ Hin). set_solver.
  - intros x [->|Hx]%elem_of_cons; [done|]. specialize (Hd x Hx). set_solver.
  - intros x. rewrite He. set_solver.
  - by constructor.
Qed.

Lemma validate_windows_spec s seen seen' :
  validate_windows s seen = Ok seen' ->
  NoDup (schedule_keys s) /\ (forall id, id ∈ schedule_keys s -> id ∉ seen)
  /\ (forall id, id ∈ seen' <-> id ∈ schedule_keys s \/ id ∈ seen)
  /\ Forall (fun w => machine_ids w <> []) s.
Proof.
  revert seen. induction s as [|w s IH]; intros seen; cbn.
  { intros [= <-]. split_and!; [constructor|set_solver|set_solver|constructor]. }
  case_bool_decide as Hne; [done|]. destruct (validate_unavailability _); [done|].
  destruct (validate_ids (machine_ids w) seen) as [seen1|] eqn:E; cbn; [|done]. intros H.
  destruct (validate_ids_spec _ _ _ E) as (Hn1 & Hd1 & He1 & _).
  destruct (IH _ H) as (Hn & Hd & He & Hf). unfold schedule_keys in *. cbn. split_and!.
  - apply NoDup_app. split_and!; [done| |done]. intros x Hx Hx'. specialize (Hd x Hx'). set_solver.
  - intros x [Hx|Hx]%elem_of_app; [by apply Hd1|]. specialize (Hd x Hx). set_solver.
  - intros x. rewrite He, elem_of_app. set_solver.
  - by constructor.
Qed.

(** ** The invariant *)

(** The machines of the registry are those of its schedules, each once. *)
Record wf_machines (r : Machines) : Prop := {
  wm_scheduled : forall id, id ∈ map m_key (machines r) <-> id ∈ scheduled r;
  wm_nodup : NoDup (map m_key (machines r));
}.

Lemma updated_fold ids u acc (id : machine_key) :
  fold_left (fun (acc : gmap machine_key Unavailability) id => <[id := u]> acc) ids acc !! id
  = if decide (id ∈ ids) then Some u else acc !! id.
Proof.
  revert acc. induction ids as [|x ids IH]; intros acc; cbn; [by rewrite decide_False by set_solver|].
  rewrite IH, lookup_insert. destruct (decide (id ∈ ids)), (decide (x = id)); subst;
    rewrite ?(decide_True (P := _ ∈ _ :: _)) by set_solver;
    try rewrite (decide_False (P := _ ∈ _ :: _)) by set_solver; done.
Qed.

Lemma updated_domain s id : is_Some (updated s !! id) <-> id ∈ schedule_keys s.
Proof.
  unfold updated, schedule_keys.
  assert (H : forall acc : gmap machine_key Unavailability,
    is_Some (fold_left (fun acc w => fold_left (fun acc id => <[id := unavailability w]> acc)
      (window_keys w) acc) s acc !! id) <-> is_Some (acc !! id) \/ id ∈ concat (map window_keys s)).
  { induction s as [|w s IH]; intros acc; cbn; [set_solver|].
    rewrite IH, updated_fold, elem_of_app. case_decide; [|tauto].
    split; [by right; left|]. intros _. left. eauto. }
  rewrite H, lookup_empty. split; [intros [[? ?]|]; done|by right].
Qed.

(** The machines that stay, and those that are new. *)
Lemma update_machines s r :
  map m_key (machines (UpdateSchedule s r).2)
  = filter (fun id => id ∈ schedule_keys s) (map m_key (machines r))
    ++ filter (fun id => id ∉ scheduled r) (schedule_keys s).
Proof.
  cbn. rewrite map_app. f_equal.
  - induction (machines r) as [|m l IH]; [done|]. cbn [omap list_omap map]. rewrite filter_cons.
    assert (Hd := updated_domain s (m_key m)).
    destruct (updated s !! m_key m) as [u|]; cbn [map]; rewrite IH.
    + rewrite decide_True by (apply Hd; eauto). done.
    + rewrite decide_False; [done|]. intros Hin. apply Hd in Hin as [? ?]. done.
  - unfold schedule_keys. induction s as [|w s IH]; [done|]. cbn.
    rewrite map_app, IH, list.filter_app. f_equal. clear IH.
    unfold window_keys. induction (machine_ids w) as [|id ids IH]; [done|]. cbn [omap list_omap map]. rewrite filter_cons.
    case_decide; [rewrite decide_False by tauto|rewrite decide_True by done]; cbn [map]; by rewrite IH.
Qed.

Lemma validate_schedule_ok s known :
  validate_schedule s known = None ->
  NoDup (schedule_keys s) /\ Forall (fun w => machine_ids w <> []) s
  /\ forall m, m ∈ known -> m_mode m = DOWN -> m_key m ∈ schedule_keys s.
Proof.
  unfold validate_schedule. destruct (validate_windows s ∅) as [seen|] eqn:E; [|done].
  destruct (validate_windows_spec _ _ _ E) as (Hn & _ & He & Hf).
  destruct (existsb _ known) eqn:Ex; [done|]. intros _. split_and!; [done..|].
  intros m Hm Hd. destruct (decide (m_key m ∈ schedule_keys s)) as [|Hni]; [done|]. exfalso.
  enough (existsb (fun m => bool_decide (m_mode m = DOWN) && negb (bool_decide (m_key m ∈ seen))) known
          = true) by congruence.
  apply existsb_exists. exists m. split; [by apply list_elem_of_In|].
  apply andb_true_iff. split; [by apply bool_decide_eq_true|].
  apply negb_true_iff, bool_decide_eq_false. rewrite He. set_solver.
Qed.

Lemma wf_update_schedule s r :
  wf_machines r -> validate_schedule s (machines r) = None -> wf_machines (UpdateSchedule s r).2.
Proof.
  intros [Ws Wn] Hv. apply validate_schedule_ok in Hv as (Hnd & _ & _). split.
  - intros id. rewrite update_machines, elem_of_app, !list_elem_of_filter. unfold scheduled at 2. cbn.
    rewrite app_nil_r, Ws. destruct (decide (id ∈ scheduled r)); tauto.
  - rewrite update_machines. apply NoDup_app. split_and!; try (by apply NoDup_filter).
    intros id [_ H1]%list_elem_of_filter [H2 _]%list_elem_of_filter. by apply H2, Ws.
Qed.

Lemma wf_start ids r : wf_machines r -> wf_machines (StartMaintenance ids r).2.
Proof.
  intros [Ws Wn]. assert (E : map m_key (machines (StartMaintenance ids r).2) = map m_key (machines r)).
  { cbn. rewrite map_map. apply map_ext. intros m. by case_decide. }
  split; [|by rewrite E]. intros id. rewrite E, Ws. done.
Qed.

Lemma stop_window_keys ids w :
  window_keys (stop_window ids w) = filter (fun k => k ∉ ids) (window_keys w).
Proof.
  unfold window_keys. cbn. induction (machine_ids w) as [|id l IH]; [done|].
  cbn [map]. rewrite !filter_cons. case_decide; cbn [map]; by rewrite IH.
Qed.

Lemma stop_schedule_keys ids s :
  schedule_keys (stop_schedule ids s) = filter (fun k => k ∉ ids) (schedule_keys s).
Proof.
  unfold schedule_keys, stop_schedule. induction s as [|w s IH]; [done|].
  cbn [map concat]. rewrite list.filter_app, <- IH, filter_cons, <- stop_window_keys.
  case_decide as Hd; [done|]. unfold window_keys at 2. by rewrite Hd.
Qed.

Lemma stop_scheduled ids r :
  scheduled (StopMaintenance ids r).2 = filter (fun k => k ∉ key_set ids) (scheduled r).
Proof.
  unfold scheduled. cbn. induction (schedules r) as [|s l IH]; [done|].
  cbn [map concat]. rewrite list.filter_app, <- IH, <- stop_schedule_keys, filter_cons.
  case_decide as Hd; [done|]. by rewrite Hd.
Qed.

Lemma stop_machines ids r :
  map m_key (machines (StopMaintenance ids r).2)
  = filter (fun k => k ∉ key_set ids) (map m_key (machines r)).
Proof.
  cbn. induction (machines r) as [|m l IH]; [done|]. cbn [map]. rewrite !filter_cons.
  case_decide; cbn [map]; by rewrite IH.
Qed.

Lemma wf_stop ids r : wf_machines r -> wf_machines (StopMaintenance ids r).2.
Proof.
  intros [Ws Wn]. split.
  - intros id. rewrite stop_machines, stop_scheduled, !list_elem_of_filter, Ws. done.
  - rewrite stop_machines. by apply NoDup_filter.
Qed.

(** What an operator can do to the schedules: the master validates first. *)
Inductive maintenance_step (r : Machines) : Machines -> Prop :=
  | ms_update s : validate_schedule s (machines r) = None ->
      maintenance_step r (UpdateSchedule s r).2
  | ms_start ids : maintenance_step r (StartMaintenance ids r).2
  | ms_stop ids : maintenance_step r (StopMaintenance ids r).2.

Lemma maintenance_step_wf r r' : maintenance_step r r' -> wf_machines r -> wf_machines r'.
Proof.
  intros [s Hv|ids|ids] Hwf; [by apply wf_update_schedule|by apply wf_start|by apply wf_stop].
Qed.

Definition no_machines : Machines := mkMachines [] [].

(** C14. Schedules and machines stay in step: after any sequence of validated
    schedule updates, starts and stops of maintenance, the registry holds
    exactly the machines that its schedules mention, each of them once. *)
Theorem maintenance_consistent r :
  rtc maintenance_step no_machines r ->
  (forall id, id ∈ map m_key (machines r) <-> id ∈ scheduled r) /\ NoDup (map m_key (machines r)).
Proof.
  intros H. enough (wf_machines r) as [? ?] by done.
  assert (H0 : wf_machines no_machines) by (split; cbn; [done|constructor]).
  revert H0. induction H as [|x y z Hxy _ IH]; intros Hx; [done|].
  apply IH. exact (maintenance_step_wf _ _ Hxy Hx).
Qed.

(** A validated schedule update is safe for the machines: it leaves no
    machine that is down for maintenance behind, a machine that stays keeps its
    mode, every newly scheduled machine starts draining, and exactly the
    machines of the new schedule are in the registry afterwards. *)
Theorem update_schedule_effect s r :
  rtc maintenance_step no_machines r -> validate_schedule s (machines r) = None ->
  let r' := (UpdateSchedule s r).2 in
  (forall m, m ∈ machines r -> m_mode m = DOWN ->
     exists m', m' ∈ machines r' /\ m_id m' = m_id m /\ m_mode m' = DOWN)
  /\ (forall m', m' ∈ machines r' ->
       (exists m, m ∈ machines r /\ m_id m = m_id m' /\ m_mode m = m_mode m')
       \/ (m_key m' ∉ map m_key (machines r) /\ m_mode m' = DRAINING))
  /\ (forall id, id ∈ map m_key (machines r') <-> id ∈ schedule_keys s).
Proof.
  intros Hr Hv r'.
  assert (Hwf : wf_machines r).
  { assert (H0 : wf_machines no_machines) by (split; cbn; [done|constructor]).
    revert H0. clear -Hr. induction Hr as [|x y z Hxy _ IH]; intros Hx; [done|].
    apply IH. exact (maintenance_step_wf _ _ Hxy Hx). }
  destruct (validate_schedule_ok _ _ Hv) as (_ & _ & Hdown). split_and!.
  - intros m Hm Hd. assert (Hu := proj2 (updated_domain s (m_key m)) (Hdown m Hm Hd)).
    destruct Hu as [u Hu]. exists (mkMachine (m_id m) (m_mode m) u). split; [|done].
    cbn. apply elem_of_app. left. apply list_elem_of_omap. exists m. by rewrite Hu.
  - intros m' Hm'. cbn in Hm'. apply elem_of_app in Hm' as [Hm'|Hm'].
    + left. apply list_elem_of_omap in Hm' as (m & Hm & E). exists m. split; [done|].
      destruct (updated s !! m_key m); [|done]. by injection E as <-.
    + right. apply list_elem_of_In, in_concat in Hm' as (l & Hl & Hin).
      apply in_map_iff in Hl as (w & <- & _). apply list_elem_of_In, list_elem_of_omap in Hin as (id & _ & E).
      case_decide as Hd; [done|]. injection E as <-. cbn. split; [|done]. by rewrite (wm_scheduled r Hwf).
  - intros id. unfold r'. rewrite (wm_scheduled _ (wf_update_schedule s r Hwf Hv)). unfold scheduled. cbn.
    by rewrite app_nil_r.
Qed.
End Validation.

Definition host (name : string) : MachineID := mkMachineID (Some name) None.
Definition soon : Unavailability := mkUnavailability 10 (Some 5).
Definition first_schedule : Schedule := [mkWindow [host "a"; host "b"] soon].
Definition second_schedule : Schedule := [mkWindow [host "a"] soon; mkWindow [host "c"] soon].

(** [a] and [b] are scheduled, [a] is taken down. *)
Definition in_maintenance : Machines :=
  (StartMaintenance [host "A"] (UpdateSchedule first_schedule no_machines).2).2.

Definition any_ip (_ : string) : bool := true.

Lemma in_maintenance_reachable : rtc (maintenance_step any_ip) no_machines in_maintenance.
Proof.
  eapply rtc_l; [apply (ms_update _ _ first_schedule); vm_compute; reflexivity|].
  eapply rtc_l; [apply (ms_start _ _ [host "A"])|]. apply rtc_refl.
Defined.

Lemma maintenance_consistent_witness :
  (forall id, id ∈ map m_key (machines in_maintenance) <-> id ∈ scheduled in_maintenance)
  /\ NoDup (map m_key (machines in_maintenance)).
Proof. apply (maintenance_consistent any_ip in_maintenance in_maintenance_reachable). Defined.

Lemma update_schedule_effect_witness :
  let r' := (UpdateSchedule second_schedule in_maintenance).2 in
  (forall m, m ∈ machines in_maintenance -> m_mode m = DOWN ->
     exists m', m' ∈ machines r' /\ m_id m' = m_id m /\ m_mode m' = DOWN)
  /\ (forall m', m' ∈ machines r' ->
       (exists m, m ∈ machines in_maintenance /\ m_id m = m_id m' /\ m_mode m = m_mode m')
       \/ (m_key m' ∉ map m_key (machines in_maintenance) /\ m_mode m' = DRAINING))
  /\ (forall id, id ∈ map m_key (machines r') <-> id ∈ schedule_keys second_schedule).
Proof.
  apply (update_schedule_effect any_ip second_schedule in_maintenance in_maintenance_reachable).
  vm_compute. reflexivity.
Defined.
