(* ===== verification/Resource.v ===== *)
(** * Resources

    The single [Resource] of [src/src/common/resources.cpp]: the comparison of
    its metadata, when two resources can be added or subtracted, arithmetic,
    containment, validation and the predicates on reservations.

    [Resource] is in the post-reservation-refinement format, which the
    [CHECK]s of the predicates ask for: the [role] and [reservation] fields are
    not set.  [Message] is the wire format with these two fields and with a
    value of every type, on which validation and the format conversions of
    [src/src/common/resources_utils.cpp] work.  Scalars are carried by their
    fixed point image, as in [Values]. *)

From stdpp Require Import base gmap strings list.
From S2P Require Import Prelude Strings Roles Ranges Values.
Local Open Scope Z_scope.

(** ** Data ([include/mesos/mesos.proto]) *)

Record Label := mkLabel { label_key : string; label_value : option string }.

Abbreviation Labels := (list Label).

Inductive ReservationType := RESERVATION_UNKNOWN | STATIC | DYNAMIC.

Record ReservationInfo := mkReservation {
  rv_type : option ReservationType;
  rv_role : option string;
  rv_principal : option string;
  rv_labels : option Labels;
}.

Inductive SourceType := SOURCE_UNKNOWN | PATH | MOUNT | BLOCK | RAW.

(** [Path] and [Mount] have an optional root. *)
Record Source := mkSource {
  src_type : SourceType;
  src_path : option (option string);
  src_mount : option (option string);
  src_vendor : option string;
  src_id : option string;
  src_metadata : option Labels;
  src_profile : option string;
}.

(** [volume] is how a framework uses the disk: where it is mounted and how.  Its
    other sources are not set for persistent volumes. *)
Inductive VolumeMode := RW | RO.

Record Volume := mkVolume {
  vol_mode : VolumeMode;
  vol_container_path : string;
  vol_host_path : option string;
}.

Record DiskInfo := mkDiskInfo {
  disk_persistence : option (string * option string);
  disk_volume : option Volume;
  disk_source : option Source;
}.

(** [allocation_info] has an optional role. *)
Record Resource := mkResource {
  name : string;
  value : Value;
  allocation_info : option (option string);
  reservations : list ReservationInfo;
  disk : option DiskInfo;
  revocable : bool;
  shared : bool;
  provider_id : option string;
}.

#[export] Instance Label_eq_dec : EqDecision Label.
Proof. solve_decision. Defined.
#[export] Instance ReservationType_eq_dec : EqDecision ReservationType.
Proof. solve_decision. Defined.
#[export] Instance ReservationInfo_eq_dec : EqDecision ReservationInfo.
Proof. solve_decision. Defined.
#[export] Instance SourceType_eq_dec : EqDecision SourceType.
Proof. solve_decision. Defined.
#[export] Instance Source_eq_dec : EqDecision Source.
Proof. solve_decision. Defined.
#[export] Instance VolumeMode_eq_dec : EqDecision VolumeMode.
Proof. solve_decision. Defined.
#[export] Instance Volume_eq_dec : EqDecision Volume.
Proof. solve_decision. Defined.
#[export] Instance DiskInfo_eq_dec : EqDecision DiskInfo.
Proof. solve_decision. Defined.
#[export] Instance Resource_eq_dec : EqDecision Resource.
Proof. solve_decision. Defined.

(** ** Equality *)

(** [has_x() != has_x()], then the comparison if both are set. *)
Definition opt_eqb {A : Type} (eqb : A -> A -> bool) (x y : option A) : bool :=
  match x, y with
  | Some a, Some b => eqb a b
  | None, None => true
  | _, _ => false
  end.

Definition dec_eqb {A : Type} `{EqDecision A} (a b : A) : bool := bool_decide (a = b).

Definition string_eqb : string -> string -> bool := dec_eqb.

(** [operator==(Label, Label)] and [operator==(Labels, Labels)] of
    [src/src/common/type_utils.cpp]. *)
Definition label_eqb (a b : Label) : bool :=
  string_eqb (label_key a) (label_key b)
  && string_eqb (default EmptyString (label_value a)) (default EmptyString (label_value b)).

Definition labels_eqb (l r : Labels) : bool :=
  (length l =? length r)%nat && forallb (fun a => existsb (label_eqb a) r) l.

Definition allocation_eqb : option string -> option string -> bool := opt_eqb string_eqb.

Definition rv_type_ (r : ReservationInfo) : ReservationType := default RESERVATION_UNKNOWN (rv_type r).
Definition rv_role_ (r : ReservationInfo) : string := default EmptyString (rv_role r).

Definition reservation_eqb (a b : ReservationInfo) : bool :=
  dec_eqb (rv_type_ a) (rv_type_ b) && string_eqb (rv_role_ a) (rv_role_ b)
  && opt_eqb string_eqb (rv_principal a) (rv_principal b)
  && opt_eqb labels_eqb (rv_labels a) (rv_labels b).

(** The loop over [reservations], after the comparison of the sizes. *)
Fixpoint all2 {A : Type} (eqb : A -> A -> bool) (l r : list A) : bool :=
  match l, r with
  | [], [] => true
  | a :: l', b :: r' => eqb a b && all2 eqb l' r'
  | _, _ => false
  end.

Definition root_eqb : option string -> option string -> bool := opt_eqb string_eqb.

Definition source_eqb (a b : Source) : bool :=
  dec_eqb (src_type a) (src_type b)
  && opt_eqb root_eqb (src_path a) (src_path b)
  && opt_eqb root_eqb (src_mount a) (src_mount b)
  && opt_eqb string_eqb (src_vendor a) (src_vendor b)
  && opt_eqb string_eqb (src_id a) (src_id b)
  && opt_eqb labels_eqb (src_metadata a) (src_metadata b)
  && opt_eqb string_eqb (src_profile a) (src_profile b).

(** The volume and the principal of the persistence are ignored. *)
Definition disk_eqb (a b : DiskInfo) : bool :=
  opt_eqb source_eqb (disk_source a) (disk_source b)
  && opt_eqb (fun p q : string * option string => string_eqb p.1 q.1)
       (disk_persistence a) (disk_persistence b).

Definition rtype (r : Resource) : ValueType := type_of (value r).

(** What [addable], [subtractable] and [compareResourceMetadata] all check. *)
Definition reserved_eqb (a b : Resource) : bool :=
  string_eqb (name a) (name b) && dec_eqb (rtype a) (rtype b)
  && opt_eqb allocation_eqb (allocation_info a) (allocation_info b)
  && all2 reservation_eqb (reservations a) (reservations b)
  && opt_eqb disk_eqb (disk a) (disk b).

Definition supply_eqb (a b : Resource) : bool :=
  Bool.eqb (revocable a) (revocable b) && opt_eqb string_eqb (provider_id a) (provider_id b).

Definition attributes_eqb (a b : Resource) : bool := reserved_eqb a b && supply_eqb a b.

Definition compareResourceMetadata (a b : Resource) : bool :=
  attributes_eqb a b && Bool.eqb (shared a) (shared b).

(** The accessors of the value: unset fields read as their defaults. *)
Definition scalar_of (v : Value) : Z := match v with VScalar z => z | _ => 0 end.
Definition ranges_of (v : Value) : list Range := match v with VRanges l => l | _ => [] end.
Definition items_of (v : Value) : ValueSet := match v with VSet l => l | _ => [] end.

Definition value_eqb (a b : Value) : bool :=
  match a with
  | VScalar x => x =? scalar_of b
  | VRanges l => ranges_eqb l (ranges_of b)
  | VSet l => set_eqb l (items_of b)
  | VText _ => false
  end.

(** [operator==(Resource, Resource)]. *)
Definition resource_eqb (a b : Resource) : bool :=
  compareResourceMetadata a b && value_eqb (value a) (value b).

(** ** Adding and subtracting *)

Inductive unreachable := Unreachable.

(** The [switch] over the type of the source: [UNKNOWN] is [UNREACHABLE()];
    [same] is [left == right], which only [subtractable] looks at. *)
Definition source_allows (same : bool) (s : Source) : result unreachable bool :=
  match src_type s with
  | PATH => Ok true
  | BLOCK | MOUNT => Ok same
  | RAW => Ok (if src_id s then same else true)
  | SOURCE_UNKNOWN => Err Unreachable
  end.

Definition disk_allows (same : bool) (d : DiskInfo) : result unreachable bool :=
  let? source := match disk_source d with Some s => source_allows same s | None => Ok true end in
  Ok (source && (if disk_persistence d then same else true)).

(** [internal::addable] and [internal::subtractable]; the second may subtract
    an exclusive disk from an equal one, the first never adds two. *)
Definition combinable (same : bool) (l r : Resource) : result unreachable bool :=
  if negb (Bool.eqb (shared l) (shared r)) then Ok false
  else if shared l then Ok (resource_eqb l r)
  else if negb (reserved_eqb l r) then Ok false
  else
    let? allowed := match disk l with Some d => disk_allows same d | None => Ok true end in
    Ok (allowed && supply_eqb l r).

Definition addable_ (l r : Resource) : result unreachable bool := combinable false l r.
Definition subtractable_ (l r : Resource) : result unreachable bool :=
  combinable (resource_eqb l r) l r.

(** Validated resources never reach [UNREACHABLE()] ([combinable_total]). *)
Definition addable (l r : Resource) : bool := match addable_ l r with Ok b => b | Err _ => false end.
Definition subtractable (l r : Resource) : bool :=
  match subtractable_ l r with Ok b => b | Err _ => false end.

Definition value_plus (a b : Value) : Value :=
  match a with
  | VScalar x => VScalar (x + scalar_of b)
  | VRanges l => VRanges (ranges_plus_assign l (ranges_of b))
  | VSet l => VSet (set_plus_assign l (items_of b))
  | VText t => VText t
  end.

Definition value_minus (a b : Value) : Value :=
  match a with
  | VScalar x => VScalar (x - scalar_of b)
  | VRanges l => VRanges (ranges_minus_assign l (ranges_of b))
  | VSet l => VSet (set_minus_assign l (items_of b))
  | VText t => VText t
  end.

Definition value_leb (a b : Value) : bool :=
  match b with
  | VScalar y => scalar_of a <=? y
  | VRanges l => ranges_leb (ranges_of a) l
  | VSet l => set_leb (items_of a) l
  | VText _ => false
  end.

Definition with_value (v : Value) (r : Resource) : Resource :=
  mkResource (name r) v (allocation_info r) (reservations r) (disk r) (revocable r) (shared r)
    (provider_id r).

(** [operator+=], [operator-=] and [contains(Resource, Resource)]. *)
Definition resource_plus (l r : Resource) : Resource :=
  with_value (value_plus (value l) (value r)) l.
Definition resource_minus (l r : Resource) : Resource :=
  with_value (value_minus (value l) (value r)) l.
Definition resource_contains (l r : Resource) : bool :=
  subtractable l r && value_leb (value r) (value l).

(** ** Predicates *)

Definition isEmpty (r : Resource) : bool :=
  match value r with
  | VScalar z => z =? 0
  | VRanges l => (length l =? 0)%nat
  | VSet l => (length l =? 0)%nat
  | VText _ => false
  end.

Definition isPersistentVolume (r : Resource) : bool :=
  match disk r with Some d => bool_decide (is_Some (disk_persistence d)) | None => false end.

Definition isDisk (t : SourceType) (r : Resource) : bool :=
  match disk r with
  | Some d => match disk_source d with Some s => bool_decide (src_type s = t) | None => false end
  | None => false
  end.

Definition isUnreserved (r : Resource) : bool := bool_decide (reservations r = []).

(** [reservations().rbegin()]; [reservationRole] has a [CHECK] that there is
    one. *)
Definition last_reservation (r : Resource) : option ReservationInfo := last (reservations r).
Definition reservationRole (r : Resource) : option string := rv_role_ <$> last_reservation r.

Definition isReserved (role : option string) (r : Resource) : bool :=
  negb (isUnreserved r)
  && match role with None => true | Some x => bool_decide (reservationRole r = Some x) end.

Definition isAllocatableTo (role : string) (r : Resource) : bool :=
  match reservationRole r with
  | None => true
  | Some x => string_eqb role x || isStrictSubroleOf role x
  end.

Definition isDynamicallyReserved (r : Resource) : bool :=
  isReserved None r && bool_decide (rv_type_ <$> last_reservation r = Some DYNAMIC).

Definition isRevocable (r : Resource) : bool := revocable r.
Definition isShared (r : Resource) : bool := shared r.

(** [allocation_info().role()] reads as empty when it is not set. *)
Definition allocated_role (r : Resource) : string :=
  match allocation_info r with Some (Some role) => role | _ => EmptyString end.

Definition isAllocatedToRoleSubtree (role : string) (r : Resource) : bool :=
  string_eqb (allocated_role r) role || isStrictSubroleOf (allocated_role r) role.

Definition isReservedToRoleSubtree (role : string) (r : Resource) : bool :=
  match reservationRole r with
  | None => false
  | Some x => string_eqb x role || isStrictSubroleOf x role
  end.

Definition hasRefinedReservations (r : Resource) : bool := (1 <? length (reservations r))%nat.
Definition hasResourceProvider (r : Resource) : bool := bool_decide (is_Some (provider_id r)).

(** [Resources::shrink]: whether the resource fits the target afterwards, and
    the resource. *)
Definition shrink (r : Resource) (target : Z) : bool * Resource :=
  if scalar_of (value r) <=? target then (true, r)
  else
    let smaller := with_value (VScalar target) r in
    match disk r with
    | Some _ => if resource_contains r smaller then (true, smaller) else (false, r)
    | None => (true, smaller)
    end.

(** [Resources::getReservationAncestor(Resource, Resource)]: the common prefix
    of the reservations. *)
Fixpoint common_reservations (l r : list ReservationInfo) : list ReservationInfo :=
  match l, r with
  | a :: l', b :: r' => if reservation_eqb a b then a :: common_reservations l' r' else []
  | _, _ => []
  end.

Definition with_reservations (l : list ReservationInfo) (r : Resource) : Resource :=
  mkResource (name r) (value r) (allocation_info r) l (disk r) (revocable r) (shared r) (provider_id r).

Definition getReservationAncestor (r1 r2 : Resource) : Resource :=
  with_reservations (common_reservations (reservations r1) (reservations r2)) r1.

(** ** The wire format *)

Record Message := mkMessage {
  w_name : string;
  w_type : ValueType;
  w_scalar : option Z;
  w_ranges : option (list Range);
  w_set : option ValueSet;
  w_role : option string;
  w_reservation : option ReservationInfo;
  w_allocation_info : option (option string);
  w_reservations : list ReservationInfo;
  w_disk : option DiskInfo;
  w_revocable : bool;
  w_shared : bool;
  w_provider_id : option string;
}.

(** [role] has the default ["*"]. *)
Definition w_role_ (m : Message) : string := default "*"%string (w_role m).

Definition wire (r : Resource) : Message :=
  mkMessage (name r) (rtype r)
    (match value r with VScalar z => Some z | _ => None end)
    (match value r with VRanges l => Some l | _ => None end)
    (match value r with VSet l => Some l | _ => None end)
    None None (allocation_info r) (reservations r) (disk r) (revocable r) (shared r) (provider_id r).

(** ** Validation *)

Inductive resource_error :=
  | EmptyName
  | InvalidScalar
  | NonPositiveScalar
  | InvalidRanges
  | InvertedRange
  | OverlappingRanges
  | InvalidSet
  | DuplicatedItem
  | UnsupportedType
  | UnexpectedDisk
  | UnexpectedMount
  | UnexpectedPath
  | UnsupportedSource
  | BadRole (e : role_error)
  | UnexpectedReservationType
  | UnexpectedReservationRole
  | StarReserved
  | MissingReservationType
  | MissingReservationRole
  | StaticRefinement
  | NotARefinement
  | RoleMismatch
  | StaticWithReservation
  | RoleWithoutReservation
  | PrincipalMismatch
  | LabelsMismatch
  | UnsupportedReservation
  | RoleWithRefinement
  | ReservationWithRefinement
  | NotShareable
  | NegativeCount.

(** The [error.isSome()] checks one after another. *)
Fixpoint first_error {E : Type} (l : list (option E)) : option E :=
  match l with
  | [] => None
  | Some e :: _ => Some e
  | None :: l' => first_error l'
  end.

Definition check {E : Type} (b : bool) (e : E) : option E := if b then Some e else None.

(** The two loops over the ranges: each is not inverted, and no later range
    begins inside it. *)
Fixpoint validate_ranges (l : list Range) : option resource_error :=
  match l with
  | [] => None
  | r :: l' =>
      if rend r <? rbegin r then Some InvertedRange
      else if existsb (fun s => (rbegin r <=? rbegin s) && (rbegin s <=? rend r)) l'
      then Some OverlappingRanges
      else validate_ranges l'
  end.

Fixpoint validate_set (l : ValueSet) : option resource_error :=
  match l with
  | [] => None
  | x :: l' => if existsb (string_eqb x) l' then Some DuplicatedItem else validate_set l'
  end.

Definition validate_value (m : Message) : option resource_error :=
  match w_type m with
  | SCALAR =>
      match w_scalar m, w_ranges m, w_set m with
      | Some z, None, None => check (negb (z =? 0) && (z <=? 0)) NonPositiveScalar
      | _, _, _ => Some InvalidScalar
      end
  | RANGES =>
      match w_scalar m, w_ranges m, w_set m with
      | None, Some l, None => validate_ranges l
      | _, _, _ => Some InvalidRanges
      end
  | SET =>
      match w_scalar m, w_ranges m, w_set m with
      | None, None, Some l => validate_set l
      | _, _, _ => Some InvalidSet
      end
  | TEXT => Some UnsupportedType
  end.

Definition validate_source (s : Source) : option resource_error :=
  match src_type s with
  | PATH | MOUNT => None
  | BLOCK | RAW =>
      if src_mount s then Some UnexpectedMount
      else if src_path s then Some UnexpectedPath else None
  | SOURCE_UNKNOWN => Some UnsupportedSource
  end.

Definition validate_disk (m : Message) : option resource_error :=
  match w_disk m with
  | None => None
  | Some d =>
      if negb (string_eqb (w_name m) "disk") then Some UnexpectedDisk
      else match disk_source d with Some s => validate_source s | None => None end
  end.

(** The loop over the roles of [reservations]. *)
Definition validate_reservation (r : ReservationInfo) : option resource_error :=
  match rv_type r, rv_role r with
  | None, _ => Some MissingReservationType
  | _, None => Some MissingReservationRole
  | Some _, Some role =>
      match Roles.validate role with
      | Some e => Some (BadRole e)
      | None => check (string_eqb role "*") StarReserved
      end
  end.

(** The loop that checks that the reservations are correctly refined. *)
Fixpoint validate_refinement (ancestor : string) (l : list ReservationInfo) : option resource_error :=
  match l with
  | [] => None
  | r :: l' =>
      if bool_decide (rv_type_ r = STATIC) then Some StaticRefinement
      else if negb (isStrictSubroleOf (rv_role_ r) ancestor) then Some NotARefinement
      else validate_refinement (rv_role_ r) l'
  end.

(** The fields of the old format next to a single reservation; the labels
    read as empty when they are not set. *)
Definition validate_single (m : Message) (r : ReservationInfo) : option resource_error :=
  if bool_decide (is_Some (w_role m)) && negb (string_eqb (w_role_ m) (rv_role_ r))
  then Some RoleMismatch
  else
    match rv_type_ r with
    | STATIC => check (bool_decide (is_Some (w_reservation m))) StaticWithReservation
    | DYNAMIC =>
        if negb (Bool.eqb (bool_decide (is_Some (w_role m))) (bool_decide (is_Some (w_reservation m))))
        then Some RoleWithoutReservation
        else
          match w_reservation m with
          | None => None
          | Some old =>
              if negb (string_eqb (default EmptyString (rv_principal old))
                         (default EmptyString (rv_principal r)))
              then Some PrincipalMismatch
              else check (negb (labels_eqb (default [] (rv_labels old)) (default [] (rv_labels r))))
                     LabelsMismatch
          end
    | RESERVATION_UNKNOWN => Some UnsupportedReservation
    end.

Definition validate_reservations (m : Message) : option resource_error :=
  match w_reservations m with
  | [] =>
      match Roles.validate (w_role_ m) with
      | Some e => Some (BadRole e)
      | None =>
          match w_reservation m with
          | None => None
          | Some old =>
              first_error [check (bool_decide (is_Some (rv_type old))) UnexpectedReservationType;
                           check (bool_decide (is_Some (rv_role old))) UnexpectedReservationRole;
                           check (string_eqb (w_role_ m) "*") StarReserved]
          end
      end
  | r :: rest =>
      first_error
        (map validate_reservation (r :: rest) ++
         [validate_refinement (rv_role_ r) rest;
          match rest with
          | [] => validate_single m r
          | _ :: _ =>
              first_error [check (bool_decide (is_Some (w_role m))) RoleWithRefinement;
                           check (bool_decide (is_Some (w_reservation m))) ReservationWithRefinement]
          end])
  end.

Definition validate_shared (m : Message) : option resource_error :=
  if w_shared m then
    if negb (string_eqb (w_name m) "disk") then Some NotShareable
    else match w_disk m with
         | Some d => check (negb (bool_decide (is_Some (disk_persistence d)))) NotShareable
         | None => Some NotShareable
         end
  else None.

(** [Resources::validate]. *)
Definition validate_message (m : Message) : option resource_error :=
  if string_eqb (w_name m) EmptyString then Some EmptyName
  else first_error [validate_value m; validate_disk m; validate_reservations m; validate_shared m].

Definition resource_validate (r : Resource) : option resource_error := validate_message (wire r).

(** ** Comparisons as equivalences

    [BoolEquiv P e]: on the elements that satisfy [P], [e] decides an
    equivalence. *)

Class BoolEquiv {A : Type} (P : A -> Prop) (e : A -> A -> bool) : Prop := {
  be_refl a : P a -> e a a = true;
  be_sym a b : P a -> P b -> e a b = true -> e b a = true;
  be_trans a b c : P a -> P b -> P c -> e a b = true -> e b c = true -> e a c = true;
}.

Section Equivalences.
Context {A B : Type}.

Lemma be_impl (P Q : A -> Prop) e : BoolEquiv Q e -> (forall a, P a -> Q a) -> BoolEquiv P e.
Proof.
  intros [R S T] H. split; eauto.
Qed.

Lemma be_proj (P : A -> Prop) (Q : B -> Prop) (f : A -> B) e :
  BoolEquiv Q e -> (forall a, P a -> Q (f a)) -> BoolEquiv P (fun a b => e (f a) (f b)).
Proof.
  intros [R S T] H. split; eauto.
Qed.

Lemma be_and (P : A -> Prop) e1 e2 :
  BoolEquiv P e1 -> BoolEquiv P e2 -> BoolEquiv P (fun a b => e1 a b && e2 a b).
Proof.
  intros [R1 S1 T1] [R2 S2 T2]. split; intros; rewrite ?andb_true_iff in *; naive_solver.
Qed.

Lemma be_opt (P : A -> Prop) e :
  BoolEquiv P e -> BoolEquiv (fun o => forall a, o = Some a -> P a) (opt_eqb e).
Proof.
  intros [R S T]. split.
  - intros [a|] H; cbn; auto.
  - intros [a|] [b|] Ha Hb; cbn; auto.
  - intros [a|] [b|] [c|] Ha Hb Hc; cbn; try done. eauto.
Qed.

Lemma be_list (P : A -> Prop) e : BoolEquiv P e -> BoolEquiv (Forall P) (all2 e).
Proof.
  intros [R S T]. split.
  - intros l. induction 1; cbn; [done|]. rewrite andb_true_iff. auto.
  - intros l r Hl. revert r. induction Hl as [|a l Ha _ IH]; intros [|b r] Hr; cbn; try done.
    apply Forall_cons in Hr as [Hb Hr]. rewrite !andb_true_iff. naive_solver.
  - intros l r s Hl. revert r s. induction Hl as [|a l Ha _ IH]; intros [|b r] [|c s] Hr Hs; cbn; try done.
    apply Forall_cons in Hr as [Hb Hr]. apply Forall_cons in Hs as [Hc Hs].
    rewrite !andb_true_iff. intros [? ?] [? ?]. split; eauto.
Qed.

Lemma be_dec `{EqDecision A} (P : A -> Prop) : BoolEquiv P dec_eqb.
Proof.
  unfold dec_eqb. split; intros; rewrite ?bool_decide_eq_true in *; congruence.
Qed.
End Equivalences.

(** Labels without repetition: equal sizes and inclusion are then equality up
    to order. *)
Definition label_view (a : Label) : string * string :=
  (label_key a, default EmptyString (label_value a)).

Definition wf_labels (l : Labels) : Prop := NoDup (map label_view l).

Lemma label_eqb_view a b : label_eqb a b = true <-> label_view a = label_view b.
Proof.
  unfold label_eqb, string_eqb, dec_eqb, label_view. rewrite andb_true_iff, !bool_decide_eq_true.
  split; [by intros [-> ->]|by intros [= -> ->]].
Qed.

Lemma labels_eqb_perm l r :
  wf_labels l -> labels_eqb l r = true <-> map label_view l ≡ₚ map label_view r.
Proof.
  intros Hl. unfold labels_eqb. rewrite andb_true_iff, Nat.eqb_eq, forallb_forall. split.
  - intros [Hlen Hin]. apply submseteq_length_Permutation; [|by rewrite !length_map, Hlen].
    apply NoDup_submseteq; [done|]. intros x Hx. apply list_elem_of_fmap in Hx as (a & -> & Ha).
    apply list_elem_of_In, Hin, existsb_exists in Ha as (b & Hb & Hab).
    apply label_eqb_view in Hab as ->. apply list_elem_of_fmap. exists b. split; [done|].
    by apply list_elem_of_In.
  - intros Hp. split; [by apply Permutation_length in Hp; rewrite !length_map in Hp|].
    intros a Ha. apply existsb_exists.
    assert (Hin : label_view a ∈ map label_view r).
    { rewrite <- Hp. apply list_elem_of_fmap. exists a. split; [done|by apply list_elem_of_In]. }
    apply list_elem_of_fmap in Hin as (b & Hab & Hb). exists b.
    split; [by apply list_elem_of_In|]. by apply label_eqb_view.
Qed.

#[export] Instance labels_equiv : BoolEquiv wf_labels labels_eqb.
Proof.
  split.
  - intros a Ha. by apply labels_eqb_perm.
  - intros a b Ha Hb. rewrite !labels_eqb_perm by done. done.
  - intros a b c Ha Hb Hc. rewrite !labels_eqb_perm by done. by intros -> ->.
Qed.

#[export] Instance string_equiv P : BoolEquiv P string_eqb.
Proof. apply be_dec. Qed.

Definition wf_reservation (r : ReservationInfo) : Prop :=
  forall l, rv_labels r = Some l -> wf_labels l.

Definition wf_source (s : Source) : Prop :=
  src_type s <> SOURCE_UNKNOWN /\ forall l, src_metadata s = Some l -> wf_labels l.

Definition wf_disk (d : DiskInfo) : Prop := forall s, disk_source d = Some s -> wf_source s.

Record wf_metadata (r : Resource) : Prop := {
  wm_reservations : Forall wf_reservation (reservations r);
  wm_disk : forall d, disk r = Some d -> wf_disk d;
}.

#[export] Instance reservation_equiv : BoolEquiv wf_reservation reservation_eqb.
Proof.
  unfold reservation_eqb. repeat apply be_and.
  - apply (be_proj _ (fun _ => True) rv_type_ dec_eqb); [apply be_dec|done].
  - apply (be_proj _ (fun _ => True) rv_role_); [apply _|done].
  - eapply (be_proj _ _ rv_principal); [apply (be_opt (fun _ => True)); apply _|done].
  - eapply (be_proj _ _ rv_labels); [apply be_opt; apply _|done].
Qed.

#[export] Instance root_equiv P : BoolEquiv P root_eqb.
Proof. eapply be_impl; [apply (be_opt (fun _ => True)); apply _|done]. Qed.

#[export] Instance source_equiv : BoolEquiv wf_source source_eqb.
Proof.
  unfold source_eqb. repeat apply be_and.
  - apply (be_proj _ (fun _ => True) src_type dec_eqb); [apply be_dec|done].
  - eapply (be_proj _ _ src_path); [apply (be_opt (fun _ => True)); apply _|done].
  - eapply (be_proj _ _ src_mount); [apply (be_opt (fun _ => True)); apply _|done].
  - eapply (be_proj _ _ src_vendor); [apply (be_opt (fun _ => True)); apply _|done].
  - eapply (be_proj _ _ src_id); [apply (be_opt (fun _ => True)); apply _|done].
  - eapply (be_proj _ _ src_metadata); [apply be_opt; apply _|by intros s [_ ?]].
  - eapply (be_proj _ _ src_profile); [apply (be_opt (fun _ => True)); apply _|done].
Qed.

#[export] Instance disk_equiv : BoolEquiv wf_disk disk_eqb.
Proof.
  unfold disk_eqb. apply be_and.
  - eapply (be_proj _ _ disk_source); [apply be_opt; apply _|done].
  - eapply (be_proj _ (fun o => forall a, o = Some a -> True) disk_persistence); [|done].
    apply (be_opt (fun _ => True)). apply (be_proj _ (fun _ => True) fst string_eqb); [apply _|done].
Qed.

#[export] Instance attributes_equiv : BoolEquiv wf_metadata attributes_eqb.
Proof.
  unfold attributes_eqb, reserved_eqb, supply_eqb. repeat apply be_and.
  - apply (be_proj _ (fun _ => True) name); [apply _|done].
  - apply (be_proj _ (fun _ => True) rtype dec_eqb); [apply be_dec|done].
  - eapply (be_proj _ _ allocation_info); [apply (be_opt (fun _ => True)); apply root_equiv|done].
  - eapply (be_proj _ _ reservations); [apply be_list; apply _|by intros r [? _]].
  - eapply (be_proj _ _ disk); [apply be_opt; apply _|by intros r [_ ?]].
  - apply (be_proj _ (fun _ => True) revocable Bool.eqb); [|done].
    split; intros; rewrite ?eqb_true_iff in *; congruence.
  - eapply (be_proj _ _ provider_id); [apply (be_opt (fun _ => True)); apply _|done].
Qed.

(** ** Combining, in closed form *)

(** Disks that are handed out as a whole: block and mount disks, raw disks
    with an identity and persistent volumes. *)
Definition exclusive (r : Resource) : bool :=
  match disk r with
  | None => false
  | Some d =>
      match disk_source d with
      | Some s =>
          match src_type s with
          | BLOCK | MOUNT => true
          | RAW => bool_decide (is_Some (src_id s))
          | _ => false
          end
      | None => false
      end || bool_decide (is_Some (disk_persistence d))
  end.

Lemma combinable_total same l r :
  wf_metadata l ->
  combinable same l r
  = Ok (Bool.eqb (shared l) (shared r)
        && if shared l then resource_eqb l r
           else attributes_eqb l r && (negb (exclusive l) || same)).
Proof.
  intros [_ Hd]. unfold combinable. destruct (Bool.eqb (shared l) (shared r)); [|done].
  cbn [negb andb]. destruct (shared l); [done|].
  unfold attributes_eqb. destruct (reserved_eqb l r); [|done]. cbn [negb andb].
  unfold exclusive. destruct (disk l) as [d|]; cbn; [|by rewrite andb_true_r].
  specialize (Hd d eq_refl). unfold disk_allows. destruct (disk_source d) as [s|] eqn:Es; cbn.
  - destruct (Hd s Es) as [Ht _]. unfold source_allows.
    destruct (src_type s); try done; destruct (disk_persistence d), same, (supply_eqb l r);
      cbn; try done; by destruct (src_id s).
  - destruct (disk_persistence d), same, (supply_eqb l r); done.
Qed.

Lemma addable_spec l r :
  wf_metadata l ->
  addable l r = Bool.eqb (shared l) (shared r)
                && if shared l then resource_eqb l r else attributes_eqb l r && negb (exclusive l).
Proof.
  intros Hl. unfold addable, addable_. rewrite combinable_total by done.
  by rewrite orb_false_r.
Qed.

Lemma subtractable_spec l r :
  wf_metadata l ->
  subtractable l r = Bool.eqb (shared l) (shared r)
                     && if shared l then resource_eqb l r
                        else attributes_eqb l r && (negb (exclusive l) || resource_eqb l r).
Proof. intros Hl. unfold subtractable, subtractable_. by rewrite combinable_total. Qed.

(** ** Quantities

    A value is a quantity at every [point]: the scalar, one for a number the
    ranges cover, one for an item of the set. *)

Inductive point := PScalar | PNumber (n : Z) | PItem (s : string).

#[export] Instance point_eq_dec : EqDecision point.
Proof. solve_decision. Defined.

Definition amount (v : Value) (p : point) : Z :=
  match v, p with
  | VScalar z, PScalar => z
  | VRanges l, PNumber n => if decide (covers l n) then 1 else 0
  | VSet l, PItem s => if decide (s ∈ l) then 1 else 0
  | _, _ => 0
  end.

(** Scalars add up, ranges and sets unite. *)
Definition join (p : point) (x y : Z) : Z :=
  match p with PScalar => x + y | _ => Z.max x y end.

(** A value in the form that parsing and addition produce. *)
Definition wf_value (v : Value) : Prop :=
  match v with
  | VScalar z => 0 <= z
  | VRanges l => canonical l /\ Forall below_max l
  | VSet l => NoDup l
  | VText _ => False
  end.

Lemma amount_nonneg v p : wf_value v -> 0 <= amount v p.
Proof. destruct v, p; cbn; try lia; by case_decide. Qed.

Lemma join_comm p x y : join p x y = join p y x.
Proof. destruct p; cbn; lia. Qed.

Lemma join_assoc p x y z : join p x (join p y z) = join p (join p x y) z.
Proof. destruct p; cbn; lia. Qed.

Lemma join_0_r p x : 0 <= x -> join p x 0 = x.
Proof. destruct p; cbn; lia. Qed.

Lemma join_nonneg p x y : 0 <= x -> 0 <= y -> 0 <= join p x y.
Proof. destruct p; cbn; lia. Qed.

#[export] Hint Resolve amount_nonneg join_nonneg : clusterd.

Lemma value_plus_amount a b p :
  wf_value a -> wf_value b -> type_of a = type_of b ->
  amount (value_plus a b) p = join p (amount a p) (amount b p).
Proof.
  destruct a as [x|l|l|], b as [y|r|r|]; cbn [wf_value]; try done; intros Ha Hb _; cbn [value_plus].
  - destruct p; cbn; lia.
  - destruct Ha as [[Wl _] _], Hb as [[Wr _] _]. cbn [ranges_of].
    rewrite ranges_plus_assign_eq by done. destruct p as [|n|s]; cbn; [done| |done].
    assert (H := ranges_plus_covers l r n Wl Wr). repeat case_decide; first [lia|naive_solver].
  - cbn [items_of]. destruct p as [|n|s]; cbn; [done..|].
    assert (H := elem_of_set_plus_assign s l r). repeat case_decide; first [lia|naive_solver].
Qed.

Lemma value_plus_wf a b :
  wf_value a -> wf_value b -> type_of a = type_of b ->
  wf_value (value_plus a b) /\ type_of (value_plus a b) = type_of a.
Proof.
  destruct a as [x|l|l|], b as [y|r|r|]; cbn; try done; intros Ha Hb _; (split; [|done]).
  - lia.
  - destruct Ha as [[Wl Cl] Ml], Hb as [[Wr Cr] Mr].
    rewrite ranges_plus_assign_eq by done.
    split; [by apply ranges_plus_canonical|by apply ranges_plus_below_max].
  - by apply NoDup_set_plus_assign.
Qed.

Lemma set_leb_spec l r : NoDup l -> set_leb l r = true <-> forall x, x ∈ l -> x ∈ r.
Proof.
  intros Hl. unfold set_leb. rewrite andb_true_iff, forallb_forall, Nat.leb_le.
  setoid_rewrite <- list_elem_of_In. setoid_rewrite found_spec. split; [tauto|].
  intros Hsub. split; [|done]. by apply submseteq_length, NoDup_submseteq.
Qed.

Lemma value_leb_amount a b :
  wf_value a -> wf_value b -> type_of a = type_of b ->
  value_leb a b = true <-> forall p, amount a p <= amount b p.
Proof.
  destruct a as [x|l|l|], b as [y|r|r|]; cbn [wf_value]; try done; intros Ha Hb _;
    cbn [value_leb scalar_of ranges_of items_of].
  - rewrite Z.leb_le. split; [intros H []; cbn; lia|intros H; apply (H PScalar)].
  - destruct Ha as [[Wl _] Ml], Hb as [[Wr _] Mr]. rewrite ranges_leb_spec by done. split.
    + intros H [|n|s]; cbn; [done| |done]. repeat case_decide; first [lia|naive_solver].
    + intros H n Hn. specialize (H (PNumber n)). cbn in H. by repeat case_decide.
  - rewrite set_leb_spec by done. split.
    + intros H [|n|s]; cbn; [done..|]. repeat case_decide; first [lia|naive_solver].
    + intros H s Hs. specialize (H (PItem s)). cbn in H. by repeat case_decide.
Qed.

Lemma value_minus_amount a b p :
  wf_value a -> wf_value b -> type_of a = type_of b -> value_leb b a = true ->
  amount (value_minus a b) p = amount a p - amount b p.
Proof.
  intros Ha Hb Ht Hle. assert (Hp := proj1 (value_leb_amount b a Hb Ha (eq_sym Ht)) Hle p).
  clear Hle. revert Ha Hb Ht Hp.
  destruct a as [x|l|l|], b as [y|r|r|]; cbn [wf_value]; try done; intros Ha Hb _ Hp; cbn [value_minus].
  - destruct p; cbn; lia.
  - destruct Ha as [Cl _], Hb as [[Wr _] _]. destruct p as [|n|s]; cbn in *; [done| |done].
    assert (H := subtract_covers l r n (disjoint_sort_canonical l Cl) Wr).
    unfold ranges_minus_assign. repeat case_decide; first [lia|naive_solver].
  - cbn [items_of]. rewrite set_minus_assign_eq by done. destruct p as [|n|s]; cbn in *; [done..|].
    assert (H := elem_of_set_minus s l r). repeat case_decide; first [lia|naive_solver].
Qed.

(** Only scalars can become negative. *)
Lemma value_minus_nonneg_wf a b :
  wf_value a -> wf_value b -> type_of a = type_of b -> 0 <= scalar_of (value_minus a b) ->
  wf_value (value_minus a b) /\ type_of (value_minus a b) = type_of a.
Proof.
  destruct a as [x|l|l|], b as [y|r|r|]; cbn; try done; intros Ha Hb _ Hle; (split; [|done]).
  - destruct Ha as [Cl Ml], Hb as [[Wr _] _].
    split; [by apply subtract_canonical|by apply subtract_below_max].
  - change (NoDup (set_minus_assign l r)). rewrite set_minus_assign_eq by done.
    by apply NoDup_set_minus.
Qed.

Lemma value_minus_wf a b :
  wf_value a -> wf_value b -> type_of a = type_of b -> value_leb b a = true ->
  wf_value (value_minus a b) /\ type_of (value_minus a b) = type_of a.
Proof.
  intros Ha Hb Ht Hle. apply value_minus_nonneg_wf; [done..|].
  destruct a, b; cbn in *; try done. apply Z.leb_le in Hle. lia.
Qed.

Lemma value_eqb_amount a b :
  wf_value a -> wf_value b -> type_of a = type_of b -> value_eqb a b = true ->
  forall p, amount a p = amount b p.
Proof.
  destruct a as [x|l|l|], b as [y|r|r|]; cbn [wf_value]; try done; intros Ha Hb _;
    cbn [value_eqb scalar_of ranges_of items_of]; intros H p.
  - by apply Z.eqb_eq in H as ->.
  - destruct Ha as [[Wl _] Ml], Hb as [[Wr _] Mr].
    rewrite ranges_eqb_spec in H by done.
    destruct p as [|n|s]; cbn; [done| |done]. specialize (H n). repeat case_decide; first [lia|naive_solver].
  - by apply set_eqb_spec in H as ->.
Qed.

(** ** Properties of single resources *)

(** The comparisons behind [addable] and [subtractable] decide equivalences on
    resources whose labels do not repeat and whose disk sources are known: of
    the metadata and, with it, of the reservations, the disks and the labels. *)
Theorem metadata_comparison_equivalence a b c :
  wf_metadata a -> wf_metadata b -> wf_metadata c ->
  attributes_eqb a a = true
  /\ (attributes_eqb a b = true -> attributes_eqb b a = true)
  /\ (attributes_eqb a b = true -> attributes_eqb b c = true -> attributes_eqb a c = true).
Proof.
  intros. split_and!; [by apply be_refl|by apply be_sym|by apply be_trans].
Qed.

Definition labelled (l : Labels) : Resource :=
  mkResource "cpus" (VScalar 1) None [mkReservation (Some DYNAMIC) (Some "a"%string) None (Some l)] None
    false false None.

Lemma metadata_comparison_equivalence_witness :
  let x := mkLabel "x" None in let y := mkLabel "y" None in
  attributes_eqb (labelled [y; x]) (labelled [x; y]) = true.
Proof.
  intros x y.
  assert (W : forall l, NoDup (map label_view l) -> wf_metadata (labelled l)).
  { intros l Hl. split; [|done]. constructor; [|constructor]. by intros ? [= <-]. }
  apply (proj1 (proj2 (metadata_comparison_equivalence (labelled [x; y]) (labelled [y; x]) (labelled [])
    ltac:(apply W; cbn; repeat constructor; set_solver) ltac:(apply W; cbn; repeat constructor; set_solver)
    ltac:(apply W; constructor)))). by vm_compute.
Defined.

(** With repeated labels the comparison is not symmetric. *)
Theorem labels_eqb_asymmetric :
  let x := mkLabel "x" None in let y := mkLabel "y" None in
  labels_eqb [x; x] [x; y] = true /\ labels_eqb [x; y] [x; x] = false.
Proof. by vm_compute. Qed.

(** The validation of ranges only looks for a later range that begins inside
    an earlier one: the other order of the same overlapping ranges is
    accepted. *)
Theorem validate_misses_overlap :
  validate_ranges [mkRange 1 7; mkRange 5 10] = Some OverlappingRanges
  /\ validate_ranges [mkRange 5 10; mkRange 1 7] = None.
Proof. by vm_compute. Qed.
