(* ===== verification/Resources.v ===== *)
(** * Collections of resources

    [class Resources] of [include/mesos/resources.hpp] and
    [src/src/common/resources.cpp]: a vector of [Resource_], which are resources
    with a counter when they are shared.  The elements are reference counted
    and copied before a write when they are shared between collections, so a
    collection is modelled by value. *)

From stdpp Require Import base gmap strings list sorting.
From S2P Require Import Prelude Strings Roles Ranges Values Resource.
Local Open Scope Z_scope.

(** ** Data *)

Record Resource_ := mkResource_ { resource : Resource; sharedCount : option Z }.

Abbreviation Resources := (list Resource_).

#[export] Instance Resource__eq_dec : EqDecision Resource_.
Proof. solve_decision. Defined.

(** The constructor: one copy of a shared resource. *)
Definition to_Resource_ (r : Resource) : Resource_ :=
  mkResource_ r (if shared r then Some 1 else None).

Definition is_shared_ (e : Resource_) : bool := bool_decide (is_Some (sharedCount e)).
Definition count_ (e : Resource_) : Z := default 0 (sharedCount e).

Definition validate_ (e : Resource_) : option resource_error :=
  if is_shared_ e && (count_ e <? 0) then Some NegativeCount else resource_validate (resource e).

Definition isEmpty_ (e : Resource_) : bool :=
  if is_shared_ e && (count_ e =? 0) then true else isEmpty (resource e).

Definition contains_ (l r : Resource_) : bool :=
  if negb (Bool.eqb (is_shared_ l) (is_shared_ r)) then false
  else if is_shared_ l then (count_ r <=? count_ l) && resource_eqb (resource l) (resource r)
  else resource_contains (resource l) (resource r).

(** [Resource_::operator+=] and [-=] of combinable elements. *)
Definition plus_ (l r : Resource_) : Resource_ :=
  if is_shared_ l then mkResource_ (resource l) (Some (count_ l + count_ r))
  else mkResource_ (resource_plus (resource l) (resource r)) (sharedCount l).

Definition minus_ (l r : Resource_) : Resource_ :=
  if is_shared_ l then mkResource_ (resource l) (Some (count_ l - count_ r))
  else mkResource_ (resource_minus (resource l) (resource r)) (sharedCount l).

Definition eqb_ (l r : Resource_) : bool :=
  if negb (Bool.eqb (is_shared_ l) (is_shared_ r)) then false
  else if is_shared_ l && negb (count_ l =? count_ r) then false
  else resource_eqb (resource l) (resource r).

(** ** Addition and subtraction *)

(** The loop of [Resources::add]. *)
Fixpoint add_loop (rs : Resources) (that : Resource_) : Resources :=
  match rs with
  | [] => [that]
  | e :: rs' => if addable (resource e) (resource that) then plus_ e that :: rs' else e :: add_loop rs' that
  end.

Definition add (rs : Resources) (that : Resource_) : Resources :=
  if isEmpty_ that then rs else add_loop rs that.

(** Fewer than none: of a shared resource, or of a scalar. *)
Definition is_negative (e : Resource_) : bool :=
  (is_shared_ e && (count_ e <? 0))
  || (bool_decide (rtype (resource e) = SCALAR) && (scalar_of (value (resource e)) <? 0)).

(** [rs[i] = rs.back(); rs.pop_back()]. *)
Definition swap_remove (i : nat) (rs : Resources) : Resources :=
  match last rs with
  | Some e => take (length rs - 1) (<[i := e]> rs)
  | None => rs
  end.

Definition subtract (rs : Resources) (that : Resource_) : Resources :=
  if isEmpty_ that then rs
  else match find_from (fun e => subtractable (resource e) (resource that)) rs 0 with
       | None => rs
       | Some i =>
           match rs !! i with
           | Some e =>
               let e' := minus_ e that in
               if is_negative e' || isEmpty_ e' then swap_remove i rs else <[i := e']> rs
           | None => rs
           end
       end.

(** [operator+=] and [operator-=]: single resources are validated, the
    elements of a collection are not. *)
Definition plus_resource_ (rs : Resources) (that : Resource_) : Resources :=
  match validate_ that with None => add rs that | Some _ => rs end.
Definition minus_resource_ (rs : Resources) (that : Resource_) : Resources :=
  match validate_ that with None => subtract rs that | Some _ => rs end.
Definition plus_resource (rs : Resources) (that : Resource) : Resources :=
  plus_resource_ rs (to_Resource_ that).
Definition minus_resource (rs : Resources) (that : Resource) : Resources :=
  minus_resource_ rs (to_Resource_ that).
Definition plus (rs that : Resources) : Resources := fold_left add that rs.
Definition minus (rs that : Resources) : Resources := fold_left subtract that rs.

(** The constructors from a resource and from a list of them. *)
Definition of_resource (r : Resource) : Resources := plus_resource [] r.
Definition of_list (l : list Resource) : Resources := fold_left plus_resource l [].

(** The conversion to a repeated field. *)
Definition to_list (rs : Resources) : list Resource := map resource rs.

(** ** Containment *)

Definition _contains (rs : Resources) (that : Resource_) : bool :=
  existsb (fun e => contains_ e that) rs.

(** Only persistent volumes are taken out of what remains. *)
Fixpoint contains (remaining that : Resources) : bool :=
  match that with
  | [] => true
  | e :: that' =>
      if negb (_contains remaining e) then false
      else contains (if isPersistentVolume (resource e) then subtract remaining e else remaining) that'
  end.

Definition contains_resource (rs : Resources) (that : Resource) : bool :=
  match resource_validate that with
  | None => _contains rs (to_Resource_ that)
  | Some _ => false
  end.

Definition eqb (l r : Resources) : bool := contains l r && contains r l.

(** The number of copies: [CHECK_NOTNONE] of the counter of a shared one. *)
Definition count (rs : Resources) (that : Resource) : Z :=
  match List.find (fun e => resource_eqb (resource e) that) rs with
  | Some e => if is_shared_ e then count_ e else 1
  | None => 0
  end.

Definition match_ (rs : Resources) (that : Resource) : option Resource :=
  resource <$> List.find (fun e => compareResourceMetadata (resource e) that) rs.

(** ** Keys

    Resources of one key are interchangeable: shared and exclusive ones are
    counted, so the key includes the value; the others are measured, so the
    key is the metadata. *)

Definition whole (r : Resource) : bool := shared r || exclusive r.

Definition same_key (k r : Resource) : bool :=
  if whole k then resource_eqb k r else compareResourceMetadata k r.

Record wf_resource (r : Resource) : Prop := {
  wr_metadata : wf_metadata r;
  wr_value : wf_value (value r);
}.

#[export] Hint Resolve wr_metadata wr_value : clusterd.

Lemma metadata_type a b : compareResourceMetadata a b = true -> type_of (value a) = type_of (value b).
Proof.
  unfold compareResourceMetadata, attributes_eqb, reserved_eqb, dec_eqb, rtype. intros. by breflect.
Qed.

Lemma resource_eqb_type a b : resource_eqb a b = true -> type_of (value a) = type_of (value b).
Proof. unfold resource_eqb. intros. breflect. by apply metadata_type. Qed.

#[export] Instance metadata_equiv : BoolEquiv wf_resource compareResourceMetadata.
Proof.
  unfold compareResourceMetadata. apply be_and.
  - eapply be_impl; [apply _|eauto with clusterd].
  - apply (be_proj _ (fun _ => True) shared Bool.eqb); [|done].
    split; intros; rewrite ?eqb_true_iff in *; congruence.
Qed.

Lemma value_eqb_iff a b :
  wf_value a -> wf_value b -> type_of a = type_of b ->
  value_eqb a b = true <->
  match a with VSet _ => a = b | _ => forall p, amount a p = amount b p end.
Proof.
  intros Ha Hb Ht. split.
  - intros H. assert (Hp := value_eqb_amount a b Ha Hb Ht H). destruct a, b; try done.
    cbn in H. by apply set_eqb_spec in H as ->.
  - destruct a as [x|l|l|], b as [y|r|r|]; try done; intros H; cbn in *.
    + apply Z.eqb_eq, (H PScalar).
    + destruct Ha as [[Wl _] Ml], Hb as [[Wr _] Mr]. apply ranges_eqb_spec; [done..|].
      intros n. specialize (H (PNumber n)). cbn in H. by repeat case_decide.
    + apply set_eqb_spec. congruence.
Qed.

Lemma value_equiv (t : ValueType) :
  BoolEquiv (fun v => wf_value v /\ type_of v = t) value_eqb.
Proof.
  split.
  - intros a [Ha _]. rewrite value_eqb_iff by done. by destruct a.
  - intros a b [Ha Hta] [Hb Htb]. rewrite !value_eqb_iff by congruence.
    destruct a, b; cbn in *; try congruence; intros H p; by rewrite H.
  - intros a b c [Ha Hta] [Hb Htb] [Hc Htc]. rewrite !value_eqb_iff by congruence.
    destruct a, b, c; cbn in *; try congruence; intros H1 H2 p; by rewrite H1, H2.
Qed.

#[export] Instance resource_equiv : BoolEquiv wf_resource resource_eqb.
Proof.
  unfold resource_eqb. split.
  - intros a Ha. rewrite (be_refl (BoolEquiv := metadata_equiv)) by done.
    by apply (be_refl (BoolEquiv := value_equiv (rtype a))); eauto with clusterd.
  - intros a b Ha Hb. rewrite !andb_true_iff. intros [Hm Hv].
    assert (Ht := metadata_type _ _ Hm). split; [by apply be_sym|].
    apply (be_sym (BoolEquiv := value_equiv (rtype a))); eauto with clusterd.
  - intros a b c Ha Hb Hc. rewrite !andb_true_iff. intros [Hm Hv] [Hm' Hv'].
    assert (Ht := metadata_type _ _ Hm). assert (Ht' := metadata_type _ _ Hm').
    split; [by apply (be_trans (BoolEquiv := metadata_equiv) a b c)|].
    apply (be_trans (BoolEquiv := value_equiv (rtype a)) _ (value b)); eauto with clusterd.
    split; [eauto with clusterd|]. unfold rtype. congruence.
Qed.

(** Being exclusive is part of the metadata. *)
Lemma opt_eqb_some {A} (e : A -> A -> bool) x y :
  opt_eqb e x y = true -> bool_decide (is_Some x) = bool_decide (is_Some y).
Proof. by destruct x, y. Qed.

Lemma disk_exclusive a b :
  compareResourceMetadata a b = true -> exclusive a = exclusive b.
Proof.
  unfold compareResourceMetadata, attributes_eqb, reserved_eqb, exclusive. intros. breflect.
  destruct (disk a) as [d|], (disk b) as [d'|]; try done.
  assert (H' : disk_eqb d d' = true) by done. unfold disk_eqb in H'. breflect.
  f_equal; [|by eapply opt_eqb_some].
  destruct (disk_source d) as [s|], (disk_source d') as [s'|]; try done.
  assert (Hs : source_eqb s s' = true) by done. unfold source_eqb, dec_eqb in Hs. breflect.
  match goal with H : src_type s = _ |- _ => rewrite H end.
  match goal with H : opt_eqb string_eqb (src_id s) _ = true |- _ => apply opt_eqb_some in H; rewrite H end.
  done.
Qed.

Lemma metadata_shared a b : compareResourceMetadata a b = true -> shared a = shared b.
Proof. unfold compareResourceMetadata. intros. breflect. by apply eqb_true_iff. Qed.

Lemma metadata_whole a b : compareResourceMetadata a b = true -> whole a = whole b.
Proof.
  intros H. unfold whole. by rewrite (metadata_shared a b), (disk_exclusive a b).
Qed.

Lemma same_key_metadata k r : same_key k r = true -> compareResourceMetadata k r = true.
Proof. unfold same_key, resource_eqb. case_if; intros; by breflect. Qed.

#[export] Instance same_key_equiv : BoolEquiv wf_resource same_key.
Proof.
  split.
  - intros a Ha. unfold same_key. case_if; by apply be_refl.
  - intros a b Ha Hb H. assert (Hw := metadata_whole _ _ (same_key_metadata _ _ H)).
    revert H. unfold same_key. rewrite Hw. case_if; by apply be_sym.
  - intros a b c Ha Hb Hc H. assert (Hw := metadata_whole _ _ (same_key_metadata _ _ H)).
    revert H. unfold same_key. rewrite Hw. case_if; by apply be_trans.
Qed.

Lemma compare_attributes l r :
  compareResourceMetadata l r = Bool.eqb (shared l) (shared r) && attributes_eqb l r.
Proof. unfold compareResourceMetadata. apply andb_comm. Qed.

(** Subtracting is allowed within a key, adding except for exclusive disks. *)
Lemma subtractable_key l r : wf_metadata l -> subtractable l r = same_key l r.
Proof.
  intros Hl. rewrite subtractable_spec by done. unfold same_key, whole, resource_eqb.
  rewrite compare_attributes.
  destruct (shared l), (shared r), (exclusive l), (attributes_eqb l r); done.
Qed.

Lemma addable_key l r :
  wf_metadata l -> addable l r = same_key l r && (shared l || negb (exclusive l)).
Proof.
  intros Hl. rewrite addable_spec by done. unfold same_key, whole, resource_eqb.
  rewrite compare_attributes.
  destruct (shared l), (shared r), (exclusive l), (attributes_eqb l r); cbn;
    rewrite ?andb_true_r, ?andb_false_r; done.
Qed.

(** ** Well-formed elements and what they are worth *)

Record wf_ (e : Resource_) : Prop := {
  we_resource : wf_resource (resource e);
  we_count : match sharedCount e with Some n => shared (resource e) = true /\ 0 < n
                                    | None => shared (resource e) = false end;
  we_nonempty : isEmpty (resource e) = false;
}.

#[export] Hint Resolve we_resource : clusterd.

(** Copies of a whole resource, the amount of a divisible one. *)
Definition units (e : Resource_) (p : point) : Z :=
  if whole (resource e) then match p with PScalar => default 1 (sharedCount e) | _ => 0 end
  else amount (value (resource e)) p.

Lemma is_shared_spec e : wf_ e -> is_shared_ e = shared (resource e).
Proof.
  intros [_ H _]. unfold is_shared_. destruct (sharedCount e); [|by rewrite H].
  destruct H as [-> _]. done.
Qed.

Lemma wf_isEmpty e : wf_ e -> isEmpty_ e = false.
Proof.
  intros He. unfold isEmpty_. rewrite is_shared_spec by done. destruct He as [_ Hc ->].
  unfold count_. destruct (sharedCount e) as [n|]; cbn; [|by rewrite Hc].
  destruct Hc as [-> Hn]. destruct (Z.eqb_spec n 0); [lia|done].
Qed.

Lemma units_nonneg e p : wf_ e -> 0 <= units e p.
Proof.
  intros [Hr Hc _]. unfold units. case_if; [|eauto with clusterd].
  destruct p; try done. destruct (sharedCount e); cbn; lia.
Qed.

Lemma amount_positive v : wf_value v -> (exists p, 0 < amount v p) \/ (forall p, amount v p = 0).
Proof.
  destruct v as [z|l|l|]; cbn [wf_value]; intros H; try done.
  - destruct (decide (z = 0)) as [->|]; [right|left; exists PScalar; cbn; lia]. by intros [].
  - destruct l as [|r l]; [right; by intros []|left]. exists (PNumber (rbegin r)). cbn.
    rewrite decide_True; [done|]. destruct H as [[Hw _] _]. apply Forall_cons in Hw as [Hw _].
    apply covers_cons. left. unfold in_range, wf_range in *. lia.
  - destruct l as [|x l]; [right; by intros []|left]. exists (PItem x). cbn.
    rewrite decide_True; [done|]. set_solver.
Qed.

Lemma isEmpty_amount r :
  wf_value (value r) -> isEmpty r = true <-> forall p, amount (value r) p = 0.
Proof.
  unfold isEmpty. destruct (value r) as [z|l|l|]; cbn [wf_value]; intros H; try done.
  - rewrite Z.eqb_eq. split; [by intros -> []|intros Hp; apply (Hp PScalar)].
  - destruct l as [|x l]; [by split; [intros _ []|]|]. split; [done|]. intros Hp.
    destruct (amount_positive (VRanges (x :: l)) H) as [[p Hq]|]; [specialize (Hp p); lia|].
    destruct H as [[Hw _] _]. apply Forall_cons in Hw as [Hw _].
    specialize (Hp (PNumber (rbegin x))). cbn in Hp. rewrite decide_True in Hp; [done|].
    apply covers_cons. left. unfold in_range, wf_range in *. lia.
  - destruct l as [|x l]; [by split; [intros _ []|]|]. split; [done|]. intros Hp.
    specialize (Hp (PItem x)). cbn in Hp. rewrite decide_True in Hp; [done|set_solver].
Qed.

Lemma units_positive e : wf_ e -> exists p, 0 < units e p.
Proof.
  intros [Hr Hc Hn]. unfold units. case_if.
  - exists PScalar. destruct (sharedCount e); cbn; lia.
  - destruct (amount_positive (value (resource e))) as [?|H]; [eauto with clusterd|done|].
    apply isEmpty_amount in H; [congruence|eauto with clusterd].
Qed.

(** [Resource_::contains] compares the units of one key. *)
Lemma contains_units l r :
  wf_ l -> wf_ r ->
  contains_ l r = true <->
  same_key (resource l) (resource r) = true /\ forall p, units r p <= units l p.
Proof.
  intros Hl Hr. unfold contains_. rewrite !is_shared_spec by done.
  assert (Hw : same_key (resource l) (resource r) = true ->
    whole (resource l) = whole (resource r) /\ shared (resource l) = shared (resource r)
    /\ type_of (value (resource l)) = type_of (value (resource r))).
  { intros H%same_key_metadata. split_and!; eauto using metadata_whole, metadata_shared, metadata_type. }
  destruct (Bool.eqb (shared (resource l)) (shared (resource r))) eqn:Es; cbn [negb].
  2:{ apply -> eqb_false_iff in Es. split; [done|]. by intros [(_ & ? & _)%Hw _]. }
  apply eqb_prop in Es. destruct (shared (resource l)) eqn:Sl.
  - unfold units, same_key, whole. rewrite Sl, <- Es. cbn [orb]. rewrite andb_true_iff, Z.leb_le.
    destruct Hl as [_ Cl _], Hr as [_ Cr _]. unfold count_.
    destruct (sharedCount l) as [n|], (sharedCount r) as [m|]; cbn; try congruence.
    split; [intros [? ?]; split; [done|intros []; lia]|].
    intros [? H]. split; [apply (H PScalar)|done].
  - unfold resource_contains. rewrite subtractable_key, andb_true_iff by eauto with clusterd.
    split; intros [H1 H2]; (split; [done|]); destruct (Hw H1) as (Hwh & _ & Ht).
    + rewrite value_leb_amount in H2 by eauto with clusterd. intros p. unfold units.
      rewrite <- Hwh. case_if; [|done]. destruct p; try done.
      destruct Hl as [_ Cl _], Hr as [_ Cr _].
      destruct (sharedCount l), (sharedCount r); cbn; intuition (congruence || lia).
    + apply value_leb_amount; [eauto with clusterd..|]. intros p. specialize (H2 p).
      unfold units in H2. rewrite <- Hwh in H2. destruct (whole (resource l)) eqn:Wl; [|done].
      unfold same_key, resource_eqb in H1. rewrite Wl in H1. breflect.
      rewrite (value_eqb_amount (value (resource l)) (value (resource r))); eauto with clusterd; lia.
Qed.

(** ** Arithmetic of elements *)

Lemma compare_with_value v r x :
  type_of v = type_of (value r) ->
  compareResourceMetadata (with_value v r) x = compareResourceMetadata r x.
Proof. intros H. unfold compareResourceMetadata, attributes_eqb, reserved_eqb, rtype. cbn. by rewrite H. Qed.

Lemma same_key_with_value v r x :
  type_of v = type_of (value r) -> whole r = false -> same_key (with_value v r) x = same_key r x.
Proof.
  intros H Hw. unfold same_key. change (whole (with_value v r)) with (whole r). rewrite Hw.
  by apply compare_with_value.
Qed.

Lemma wf_with_value v r : wf_resource r -> wf_value v -> wf_resource (with_value v r).
Proof. intros [[H1 H2] _] Hv. split; [by split|done]. Qed.

Lemma same_key_type l r : same_key l r = true -> type_of (value l) = type_of (value r).
Proof. intros H%same_key_metadata. by apply metadata_type. Qed.

Lemma same_key_whole l r : same_key l r = true -> whole l = whole r.
Proof. intros H%same_key_metadata. by apply metadata_whole. Qed.

Lemma same_key_shared l r : same_key l r = true -> shared l = shared r.
Proof. intros H%same_key_metadata. by apply metadata_shared. Qed.

#[export] Hint Resolve same_key_type same_key_whole same_key_shared : clusterd.

Definition combines (e : Resource_) : bool := shared (resource e) || negb (exclusive (resource e)).

Lemma plus_shared l r :
  wf_ l -> wf_ r -> shared (resource l) = true -> shared (resource r) = true ->
  exists n m, sharedCount l = Some n /\ sharedCount r = Some m /\ 0 < n /\ 0 < m.
Proof.
  intros [_ Cl _] [_ Cr _] Sl Sr.
  destruct (sharedCount l) as [n|], (sharedCount r) as [m|]; try congruence. naive_solver.
Qed.

Lemma unshared_count e : wf_ e -> shared (resource e) = false -> sharedCount e = None.
Proof. intros [_ C _] S. destruct (sharedCount e); [|done]. naive_solver congruence. Qed.

Lemma plus_units l r p :
  wf_ l -> wf_ r -> same_key (resource l) (resource r) = true -> combines l = true ->
  units (plus_ l r) p = join p (units l p) (units r p).
Proof.
  intros Hl Hr Hk Hc. unfold plus_. rewrite is_shared_spec by done.
  unfold units. rewrite <- (same_key_whole _ _ Hk). destruct (shared (resource l)) eqn:Sl.
  - destruct (plus_shared l r) as (n & m & En & Em & _ & _); [done..| |].
    { by rewrite <- (same_key_shared _ _ Hk). }
    unfold count_, whole. cbn. rewrite Sl, En, Em. by destruct p.
  - cbn. change (whole (resource_plus (resource l) (resource r))) with (whole (resource l)).
    unfold combines in Hc. unfold whole. rewrite Sl in *. cbn in *.
    destruct (exclusive (resource l)); [done|].
    apply value_plus_amount; eauto with clusterd.
Qed.

Lemma plus_key l r x :
  wf_ l -> wf_ r -> same_key (resource l) (resource r) = true -> combines l = true ->
  same_key (resource (plus_ l r)) x = same_key (resource l) x.
Proof.
  intros Hl Hr Hk Hc. unfold plus_. rewrite is_shared_spec by done. destruct (shared (resource l)) eqn:Sl; [done|].
  unfold combines in Hc. rewrite Sl in Hc. cbn in *. apply same_key_with_value.
  - apply value_plus_wf; eauto with clusterd.
  - unfold whole. rewrite Sl. by destruct (exclusive (resource l)).
Qed.

Lemma plus_wf l r :
  wf_ l -> wf_ r -> same_key (resource l) (resource r) = true -> combines l = true ->
  wf_ (plus_ l r).
Proof.
  intros Hl Hr Hk Hc. unfold plus_. rewrite is_shared_spec by done. case_if.
  - destruct (plus_shared l r) as (n & m & En & Em & ? & ?); [done..| |].
    { by rewrite <- (same_key_shared _ _ Hk). }
    unfold count_. rewrite En, Em. destruct Hl as [? _ ?]. split; cbn; [done| |done].
    split; [done|lia].
  - assert (Hv : wf_value (value_plus (value (resource l)) (value (resource r)))).
    { apply value_plus_wf; eauto with clusterd. }
    split; cbn.
    + apply wf_with_value; eauto with clusterd.
    + by rewrite unshared_count.
    + apply not_true_iff_false. rewrite isEmpty_amount by done. cbn. intros H.
      destruct Hl as [Rl _ El]. apply not_true_iff_false in El. apply El.
      apply isEmpty_amount; [eauto with clusterd|]. intros p. specialize (H p).
      rewrite value_plus_amount in H by eauto with clusterd.
      assert (0 <= amount (value (resource l)) p) by eauto with clusterd.
      assert (0 <= amount (value (resource r)) p) by eauto with clusterd.
      destruct p; cbn in H; lia.
Qed.

(** Taking away part of an element leaves the rest, taking all of it leaves an
    empty one. *)
Lemma nonnegative_wf e : wf_ e -> is_negative e || isEmpty_ e = false.
Proof.
  intros He. rewrite wf_isEmpty, orb_false_r by done. unfold is_negative.
  rewrite is_shared_spec by done. destruct He as [Hr Hc _]. apply orb_false_iff. split.
  - unfold count_. destruct (sharedCount e); [|by rewrite Hc]. cbn.
    destruct Hc as [-> ?]. apply Z.ltb_ge. lia.
  - apply wr_value in Hr. unfold rtype. destruct (value (resource e)); cbn in *; try done.
    by apply Z.ltb_ge.
Qed.

Lemma minus_value l r :
  wf_ l -> wf_ r -> contains_ l r = true -> shared (resource l) = false ->
  wf_value (value_minus (value (resource l)) (value (resource r)))
  /\ type_of (value_minus (value (resource l)) (value (resource r))) = type_of (value (resource l))
  /\ forall p, amount (value_minus (value (resource l)) (value (resource r))) p
               = amount (value (resource l)) p - amount (value (resource r)) p.
Proof.
  intros Hl Hr Hc Sl. assert (Hk := proj1 (proj1 (contains_units l r Hl Hr) Hc)).
  assert (Sr := same_key_shared _ _ Hk).
  unfold contains_ in Hc. rewrite !is_shared_spec, <- Sr, Sl in Hc by done. cbn in Hc.
  unfold resource_contains in Hc. apply andb_true_iff in Hc as [_ Hle].
  assert (H := value_minus_wf (value (resource l)) (value (resource r))).
  destruct H as [? ?]; [eauto with clusterd..|].
  split_and!; [done..|]. intros p. apply value_minus_amount; eauto with clusterd.
Qed.

Lemma minus_rest l r :
  wf_ l -> wf_ r -> contains_ l r = true -> (exists p, units l p <> units r p) ->
  wf_ (minus_ l r)
  /\ (forall x, same_key (resource (minus_ l r)) x = same_key (resource l) x)
  /\ (forall p, units (minus_ l r) p = units l p - units r p).
Proof.
  intros Hl Hr Hc [q Hq]. assert (HC := Hc). apply contains_units in HC as [Hk Hle]; [|done..].
  unfold minus_. rewrite is_shared_spec by done. unfold units in Hq |- *.
  specialize (Hle q). unfold units in Hle. rewrite <- (same_key_whole _ _ Hk) in *.
  destruct (shared (resource l)) eqn:Sl.
  - destruct (plus_shared l r) as (n & m & En & Em & ? & ?); [done..| |].
    { by rewrite <- (same_key_shared _ _ Hk). }
    unfold count_, whole in *. cbn. rewrite Sl, En, Em in *. cbn in *.
    split_and!; [|done|by intros []]. destruct Hl as [? _ ?]. split; cbn; [done| |done].
    split; [done|]. destruct q; cbn in *; lia.
  - destruct (minus_value l r) as (Hv & Ht & Ha); [done..|]. cbn.
    change (whole (resource_minus (resource l) (resource r))) with (whole (resource l)).
    assert (Cl := unshared_count l Hl Sl).
    assert (Cr := unshared_count r Hr (eq_trans (eq_sym (same_key_shared _ _ Hk)) Sl)).
    rewrite Cl, Cr in *. destruct (whole (resource l)) eqn:Wl; [destruct q; lia|].
    split_and!; [|intros x; by apply same_key_with_value|done].
    split; cbn; [apply wf_with_value; eauto with clusterd|done|].
    apply not_true_iff_false. rewrite isEmpty_amount by done. cbn. intros H.
    specialize (H q). rewrite Ha in H. lia.
Qed.

Lemma minus_all l r :
  wf_ l -> wf_ r -> contains_ l r = true -> (forall p, units l p = units r p) ->
  isEmpty_ (minus_ l r) = true.
Proof.
  intros Hl Hr Hc Hu. assert (HC := Hc). apply contains_units in HC as [Hk _]; [|done..].
  unfold minus_. rewrite is_shared_spec by done. unfold units in Hu.
  rewrite <- (same_key_whole _ _ Hk) in Hu. unfold isEmpty_. destruct (shared (resource l)) eqn:Sl.
  - destruct (plus_shared l r) as (n & m & En & Em & ? & ?); [done..| |].
    { by rewrite <- (same_key_shared _ _ Hk). }
    specialize (Hu PScalar). unfold count_, whole in *. rewrite Sl, En, Em in *. cbn in *.
    subst m. by rewrite Z.sub_diag.
  - destruct (minus_value l r) as (Hv & Ht & Ha); [done..|]. cbn.
    unfold is_shared_. cbn. rewrite unshared_count by done. cbn.
    apply isEmpty_amount; [done|]. cbn. intros p. rewrite Ha.
    destruct (whole (resource l)) eqn:Wl; [|rewrite Hu; lia].
    unfold same_key, resource_eqb in Hk. rewrite Wl in Hk. breflect.
    rewrite (value_eqb_amount (value (resource l)) (value (resource r))); eauto with clusterd; [lia|].
    by apply metadata_type.
Qed.

Lemma units_differ l r :
  wf_ l -> wf_ r -> contains_ l r = true ->
  (exists q, units l q <> units r q) \/ (forall p, units l p = units r p).
Proof.
  intros Hl Hr Hc. assert (HC := Hc). apply contains_units in HC as [Hk _]; [|done..].
  assert (Hw := same_key_whole _ _ Hk). unfold units. rewrite <- Hw.
  destruct (whole (resource l)) eqn:Wl.
  - destruct (decide (default 1 (sharedCount l) = default 1 (sharedCount r))) as [E|N].
    + right. by intros [].
    + left. by exists PScalar.
  - unfold whole in Wl. apply orb_false_iff in Wl as [Sl _].
    destruct (minus_value l r) as (Hv & _ & Ha); [done..|].
    destruct (amount_positive _ Hv) as [[q Hq]|H].
    + left. exists q. rewrite Ha in Hq. lia.
    + right. intros p. specialize (H p). rewrite Ha in H. lia.
Qed.

Lemma minus_cases l r :
  wf_ l -> wf_ r -> contains_ l r = true ->
  (isEmpty_ (minus_ l r) = true /\ forall p, units l p = units r p)
  \/ (is_negative (minus_ l r) || isEmpty_ (minus_ l r) = false /\ wf_ (minus_ l r)
      /\ (forall x, same_key (resource (minus_ l r)) x = same_key (resource l) x)
      /\ (forall p, units (minus_ l r) p = units l p - units r p)).
Proof.
  intros Hl Hr Hc. destruct (units_differ l r Hl Hr Hc) as [H|H].
  - right. destruct (minus_rest l r) as (Hw & Hk & Hu); [done..|].
    split; [by apply nonnegative_wf|done].
  - left. split; [by apply minus_all|done].
Qed.

(** ** Well-formed collections and what they hold *)

Fixpoint pairwise {A : Type} (R : A -> A -> Prop) (l : list A) : Prop :=
  match l with
  | [] => True
  | x :: l' => Forall (R x) l' /\ pairwise R l'
  end.

(** Two elements that the collection cannot combine. *)
Definition apart (e e' : Resource_) : Prop := addable (resource e) (resource e') = false.

Record wf_resources (rs : Resources) : Prop := {
  wr_elements : Forall wf_ rs;
  wr_apart : pairwise apart rs;
}.

(** What the collection holds of the key of [k]. *)
Definition weight (k : Resource) (p : point) (e : Resource_) : Z :=
  if same_key k (resource e) then units e p else 0.

Definition measure (rs : Resources) (k : Resource) (p : point) : Z :=
  foldr (fun e acc => weight k p e + acc) 0 rs.

Lemma measure_cons e rs k p : measure (e :: rs) k p = weight k p e + measure rs k p.
Proof. done. Qed.

#[global] Arguments measure : simpl never.

Lemma combines_key e e' :
  same_key (resource e) (resource e') = true -> combines e = combines e'.
Proof.
  intros H%same_key_metadata. unfold combines.
  by rewrite (metadata_shared _ _ H), (disk_exclusive _ _ H).
Qed.

Lemma addable_combines e e' :
  wf_ e -> addable (resource e) (resource e') = same_key (resource e) (resource e') && combines e.
Proof. intros H. by rewrite addable_key by eauto with clusterd. Qed.

Lemma same_key_sym a b : wf_resource a -> wf_resource b -> same_key a b = same_key b a.
Proof.
  intros. destruct (same_key a b) eqn:E, (same_key b a) eqn:F; try done.
  - by rewrite (be_sym a b) in F.
  - by rewrite (be_sym b a) in E.
Qed.

Lemma same_key_subst k a b :
  wf_resource k -> wf_resource a -> wf_resource b ->
  same_key a b = true -> same_key k a = same_key k b.
Proof.
  intros Hk Ha Hb H. destruct (same_key k a) eqn:E, (same_key k b) eqn:F; try done.
  - by rewrite (be_trans k a b) in F.
  - apply be_sym in H; [|done..]. by rewrite (be_trans k b a) in E.
Qed.

Lemma apart_sym e e' : wf_ e -> wf_ e' -> apart e e' -> apart e' e.
Proof.
  intros He He'. unfold apart. rewrite !addable_combines by done.
  rewrite same_key_sym by eauto with clusterd.
  destruct (same_key (resource e') (resource e)) eqn:E; [|done].
  by rewrite (combines_key _ _ E).
Qed.

Lemma pairwise_perm {A} (R : A -> A -> Prop) (P : A -> Prop) l l' :
  (forall x y, P x -> P y -> R x y -> R y x) -> Forall P l -> l ≡ₚ l' -> pairwise R l -> pairwise R l'.
Proof.
  intros Hs HP Hp. revert HP. induction Hp as [|x l l' Hp IH|x y l|l l' l'' H1 IH1 H2 IH2]; cbn.
  - done.
  - intros [Hx HP]%Forall_cons [Hr Hl]. split; [by rewrite <- Hp|auto].
  - intros [Hy [Hx HP]%Forall_cons]%Forall_cons ([Ryx Ry]%Forall_cons & Rx & Hl).
    split_and!; [|done..]. apply Forall_cons. auto.
  - intros HP Hl. apply IH2; [by rewrite <- H1|auto].
Qed.

Lemma wf_perm rs rs' : rs ≡ₚ rs' -> wf_resources rs -> wf_resources rs'.
Proof.
  intros Hp [He Ha]. split; [by rewrite <- Hp|].
  eapply pairwise_perm; [apply apart_sym|done..].
Qed.

#[export] Instance measure_perm : Proper ((≡ₚ) ==> (=) ==> (=) ==> (=)) measure.
Proof.
  intros rs rs' Hp k _ <- p _ <-. unfold measure.
  induction Hp as [|x l l' Hp IH|x y l|l l' l'' H1 IH1 H2 IH2]; cbn; lia.
Qed.

Lemma wf_cons e rs : wf_resources (e :: rs) <-> wf_ e /\ Forall (apart e) rs /\ wf_resources rs.
Proof.
  split.
  - intros [[He Hr]%Forall_cons [Ha Hp]]. by split_and!.
  - intros (He & Ha & [Hr Hp]). split; [by apply Forall_cons|done].
Qed.

Lemma weight_nonneg k p e : wf_ e -> 0 <= weight k p e.
Proof. intros H. unfold weight. case_if; [by apply units_nonneg|done]. Qed.

Lemma measure_nonneg rs k p : Forall wf_ rs -> 0 <= measure rs k p.
Proof.
  induction 1 as [|e rs He _ IH]; [done|]. rewrite measure_cons. assert (H := weight_nonneg k p e He). lia.
Qed.

#[export] Hint Resolve weight_nonneg measure_nonneg wr_elements : clusterd.

(** An element that combines is the only one of its key. *)
Lemma measure_rest e rs k p :
  wf_resources (e :: rs) -> wf_resource k -> same_key k (resource e) = true -> combines e = true ->
  measure rs k p = 0.
Proof.
  intros (He & Ha & [Hr _])%wf_cons Hk Hke Hc. induction rs as [|e' rs IH]; [done|].
  apply Forall_cons in Ha as [Ha Ha'], Hr as [He' Hr]. rewrite measure_cons, IH by done.
  unfold apart in Ha. rewrite addable_combines, Hc, andb_true_r in Ha by done.
  unfold weight. destruct (same_key k (resource e')) eqn:E; [|done].
  rewrite (same_key_subst (resource e) (resource e') k), same_key_sym in Ha; eauto with clusterd;
    [congruence|]. rewrite same_key_sym; eauto with clusterd.
Qed.

(** Exclusive disks and shared resources are counted. *)
Lemma units_whole e p : whole (resource e) = true -> p <> PScalar -> units e p = 0.
Proof. intros Hw Hp. unfold units. rewrite Hw. by destruct p. Qed.

Lemma units_exclusive e :
  wf_ e -> combines e = false ->
  sharedCount e = None /\ whole (resource e) = true
  /\ forall p, units e p = match p with PScalar => 1 | _ => 0 end.
Proof.
  intros He Hc. unfold combines in Hc. apply orb_false_iff in Hc as [Hs Hx].
  assert (Hw : whole (resource e) = true). { unfold whole. rewrite Hs. by destruct (exclusive _). }
  split_and!; [by apply unshared_count|done|]. intros p. unfold units. rewrite Hw.
  destruct p; [|done..]. by rewrite unshared_count.
Qed.

Lemma measure_whole rs k p :
  whole k = true -> p <> PScalar -> measure rs k p = 0.
Proof.
  intros Hw Hp. induction rs as [|e rs IH]; [done|]. rewrite measure_cons, IH. unfold weight. case_if; [|done].
  rewrite units_whole; [done| |done]. by rewrite <- (same_key_whole k (resource e)).
Qed.

Lemma measure_absent rs k p :
  Forall (fun e => same_key k (resource e) = false) rs -> measure rs k p = 0.
Proof. induction 1 as [|e rs H _ IH]; [done|]. rewrite measure_cons. unfold weight. by rewrite H, IH. Qed.

(** ** Adding and subtracting one element *)

Lemma add_cases rs that :
  (Forall (fun e => addable (resource e) (resource that) = false) rs
   /\ add_loop rs that ≡ₚ that :: rs)
  \/ exists e rest, rs ≡ₚ e :: rest /\ addable (resource e) (resource that) = true
                    /\ add_loop rs that ≡ₚ plus_ e that :: rest.
Proof.
  induction rs as [|e rs IH]; cbn; [by left|]. destruct (addable _ _) eqn:E.
  - right. exists e, rs. done.
  - destruct IH as [[Hf Hp]|(e' & rest & Hp & Ha & Hr)].
    + left. split; [by apply Forall_cons|]. rewrite Hp. by constructor.
    + right. exists e', (e :: rest). split_and!; [rewrite Hp; by constructor|done|rewrite Hr; by constructor].
Qed.

Lemma add_wf rs that : wf_resources rs -> wf_ that -> wf_resources (add rs that).
Proof.
  intros Hrs Ht. unfold add. rewrite wf_isEmpty by done.
  destruct (add_cases rs that) as [[Hf Hp]|(e & rest & Hp & Ha & Hr)].
  - eapply wf_perm; [by symmetry|]. apply wf_cons. split_and!; [done| |done].
    destruct Hrs as [He _]. rewrite Forall_forall in *. intros e Hin.
    apply apart_sym; [by apply He|done|by apply Hf].
  - eapply wf_perm; [by symmetry|]. apply (wf_perm _ _ Hp) in Hrs.
    apply wf_cons in Hrs as (He & Hap & Hrest). rewrite addable_combines in Ha by done.
    breflect. apply wf_cons. split_and!; [by apply plus_wf| |done].
    eapply Forall_impl; [done|]. unfold apart. intros x. rewrite !addable_combines by eauto using plus_wf.
    rewrite plus_key by done. intros Hx. rewrite <- Hx. f_equal. apply combines_key.
    rewrite plus_key by done. apply be_refl. eauto with clusterd.
Qed.

Lemma add_measure rs that k p :
  wf_resources rs -> wf_ that -> wf_resource k ->
  measure (add rs that) k p = join p (measure rs k p) (weight k p that).
Proof.
  intros Hrs Ht Hk. unfold add. rewrite wf_isEmpty by done.
  assert (Hw := weight_nonneg k p that Ht).
  assert (Hm := measure_nonneg rs k p (wr_elements _ Hrs)).
  destruct (add_cases rs that) as [[Hf Hp]|(e & rest & Hp & Ha & Hr)].
  - rewrite Hp, measure_cons. unfold weight in *.
    destruct (same_key k (resource that)) eqn:E; [|rewrite join_0_r by done; lia].
    destruct (decide (p = PScalar)) as [->|Np]; [cbn; lia|].
    destruct (combines that) eqn:Hc.
    + rewrite measure_absent; [destruct p; cbn; lia|]. destruct Hrs as [He _].
      rewrite Forall_forall in *. intros e Hin. specialize (Hf e Hin).
      rewrite addable_combines in Hf by auto.
      apply not_true_iff_false. intros Hke.
      assert (Hee : same_key (resource e) (resource that) = true).
      { rewrite <- (same_key_subst (resource e) k (resource that)), same_key_sym; eauto with clusterd. }
      by rewrite (combines_key _ _ Hee), Hee, Hc in Hf.
    + destruct (units_exclusive that Ht Hc) as (_ & Hwh & ->).
      rewrite measure_whole; [by destruct p| |done]. by rewrite (same_key_whole _ _ E).
  - rewrite Hr, Hp, !measure_cons. apply (wf_perm _ _ Hp) in Hrs.
    assert (He := proj1 (proj1 (wf_cons _ _) Hrs)). rewrite addable_combines in Ha by done. breflect.
    unfold weight in *. rewrite same_key_sym, plus_key by eauto using plus_wf with clusterd.
    rewrite same_key_sym by eauto with clusterd.
    rewrite <- (same_key_subst k (resource e) (resource that)) in * by eauto with clusterd.
    destruct (same_key k (resource e)) eqn:E.
    + rewrite (measure_rest e), plus_units, !Z.add_0_r by done. done.
    + rewrite join_0_r; [done|]. assert (H' := measure_nonneg (e :: rest) k p (wr_elements _ Hrs)).
      rewrite measure_cons in H'. unfold weight in H'. by rewrite E in H'.
Qed.

Lemma find_from_spec {A} (p : A -> bool) l :
  match find_from p l 0 with
  | Some i => exists e, l !! i = Some e /\ p e = true
  | None => Forall (fun e => p e = false) l
  end.
Proof.
  assert (H : forall i, match find_from_aux p l i with
                 | Some j => exists e, (i <= j)%nat /\ l !! (j - i)%nat = Some e /\ p e = true
                 | None => Forall (fun e => p e = false) l
                 end).
  { induction l as [|x l IH]; intros i; cbn; [done|]. destruct (p x) eqn:E.
    - exists x. by rewrite Nat.sub_diag.
    - specialize (IH (S i)). destruct (find_from_aux p l (S i)) as [j|]; [|by apply Forall_cons].
      destruct IH as (e & Hij & He & Hp). exists e. split_and!; [lia| |done].
      by replace (j - i)%nat with (S (j - S i)) by lia. }
  unfold find_from. rewrite drop_0. specialize (H 0%nat). case_match; [|done].
  destruct H as (e & _ & He & Hp). rewrite Nat.sub_0_r in He. eauto.
Qed.

Lemma insert_perm {A} (l : list A) i (e x : A) :
  l !! i = Some e -> e :: <[i := x]> l ≡ₚ x :: l.
Proof.
  intros H. assert (Hi := lookup_lt_Some _ _ _ H). rewrite insert_take_drop by done.
  rewrite <- (take_drop_middle l i e H) at 3. rewrite <- !Permutation_middle.
  by constructor.
Qed.

Lemma swap_remove_perm i rs e : rs !! i = Some e -> rs ≡ₚ e :: swap_remove i rs.
Proof.
  intros H. destruct rs as [|x init _] using rev_ind; [done|].
  unfold swap_remove. rewrite last_snoc, length_app. cbn. rewrite Nat.add_sub.
  assert (Hi := lookup_lt_Some _ _ _ H). rewrite length_app in Hi. cbn in Hi.
  destruct (decide (i = length init)) as [->|].
  - rewrite lookup_app_r, Nat.sub_diag in H by done. injection H as ->.
    rewrite insert_app_r_alt, Nat.sub_diag, take_app_length by done. by rewrite Permutation_app_comm.
  - rewrite lookup_app_l in H by lia. rewrite insert_app_l by lia.
    rewrite take_app_le, take_ge by (rewrite ?length_insert; lia).
    rewrite insert_perm by done. by rewrite Permutation_app_comm.
Qed.

Lemma subtract_cases rs that :
  wf_ that ->
  (Forall (fun e => subtractable (resource e) (resource that) = false) rs /\ subtract rs that = rs)
  \/ exists e rest, rs ≡ₚ e :: rest /\ subtractable (resource e) (resource that) = true
       /\ subtract rs that ≡ₚ (if is_negative (minus_ e that) || isEmpty_ (minus_ e that) then rest
                               else minus_ e that :: rest).
Proof.
  intros Ht. unfold subtract. rewrite wf_isEmpty by done.
  assert (H := find_from_spec (fun e => subtractable (resource e) (resource that)) rs).
  destruct (find_from _ rs 0) as [i|]; [|by left]. destruct H as (e & Hi & He). rewrite Hi. right.
  exists e, (swap_remove i rs). assert (Hp := swap_remove_perm i rs e Hi).
  split_and!; [done..|]. case_if; [done|].
  apply (Permutation_cons_inv (a := e)). etrans; [by apply insert_perm|].
  etrans; [apply perm_skip, Hp|apply perm_swap].
Qed.

(** The element from which a contained one is taken contains it. *)
Lemma contains_member rs e rest that :
  wf_resources rs -> wf_ that -> rs ≡ₚ e :: rest -> _contains rs that = true ->
  same_key (resource e) (resource that) = true -> contains_ e that = true.
Proof.
  intros Hrs Ht Hp Hc Hk. apply existsb_exists in Hc as (e' & Hin%list_elem_of_In & Hc).
  apply (wf_perm _ _ Hp) in Hrs. rewrite Hp in Hin.
  apply elem_of_cons in Hin as [->|Hin]; [done|].
  apply wf_cons in Hrs as (He & Hap & [Hr _]). rewrite Forall_forall in Hap, Hr.
  specialize (Hap e' Hin). specialize (Hr e' Hin).
  apply contains_units in Hc as [Hk' Hle]; [|done..]. apply contains_units; [done..|].
  split; [done|]. unfold apart in Hap. rewrite addable_combines in Hap by done.
  assert (Hee : same_key (resource e) (resource e') = true).
  { rewrite (same_key_subst _ (resource e') (resource that)); eauto with clusterd. }
  rewrite Hee in Hap. cbn in Hap. assert (Hap' := Hap). rewrite (combines_key _ _ Hee) in Hap'.
  destruct (units_exclusive e He Hap) as (_ & _ & Hu).
  destruct (units_exclusive e' Hr Hap') as (_ & _ & Hu'). intros p. by rewrite Hu, <- Hu'.
Qed.

Lemma contains_absent rs that :
  Forall wf_ rs -> wf_ that ->
  Forall (fun e => subtractable (resource e) (resource that) = false) rs -> _contains rs that = false.
Proof.
  intros Hrs Ht Hf. apply not_true_iff_false. intros Hc.
  apply existsb_exists in Hc as (e & Hin%list_elem_of_In & Hc). rewrite Forall_forall in *.
  specialize (Hf e Hin). specialize (Hrs e Hin). rewrite subtractable_key in Hf by eauto with clusterd.
  apply contains_units in Hc as [Hk _]; congruence.
Qed.

Lemma subtract_measure rs that k p :
  wf_resources rs -> wf_ that -> wf_resource k -> _contains rs that = true ->
  measure (subtract rs that) k p = measure rs k p - weight k p that.
Proof.
  intros Hrs Ht Hk Hc.
  destruct (subtract_cases rs that Ht) as [[Hf _]|(e & rest & Hp & Hs & ->)].
  { apply contains_absent in Hf; [congruence|eauto with clusterd|done]. }
  assert (Hrs' := wf_perm _ _ Hp Hrs). apply wf_cons in Hrs' as (He & _ & _).
  rewrite subtractable_key in Hs by eauto with clusterd.
  assert (Hce := contains_member rs e rest that Hrs Ht Hp Hc Hs).
  rewrite Hp, measure_cons. unfold weight.
  rewrite <- (same_key_subst k (resource e) (resource that)) by eauto with clusterd.
  destruct (minus_cases e that) as [[-> Hu]|(-> & Hm & Hkey & Hu)]; [done..| |].
  - rewrite orb_true_r. case_if; [rewrite Hu|]; lia.
  - rewrite measure_cons. unfold weight. rewrite (same_key_sym k), Hkey, (same_key_sym _ k) by eauto with clusterd.
    case_if; [rewrite Hu|]; lia.
Qed.

(** An element that is left over is well-formed, even when more was taken than
    there was. *)
Lemma minus_left_wf l r :
  wf_ l -> wf_ r -> same_key (resource l) (resource r) = true ->
  is_negative (minus_ l r) || isEmpty_ (minus_ l r) = false ->
  wf_ (minus_ l r) /\ forall x, same_key (resource (minus_ l r)) x = same_key (resource l) x.
Proof.
  intros Hl Hr Hk Hn. apply orb_false_iff in Hn as [Hn He].
  destruct (shared (resource l)) eqn:Sl.
  - destruct (plus_shared l r) as (n & m & En & Em & ? & ?); [done..| |].
    { by rewrite <- (same_key_shared _ _ Hk). }
    assert (Hm : minus_ l r = mkResource_ (resource l) (Some (n - m))).
    { unfold minus_, count_. by rewrite is_shared_spec, Sl, En, Em. }
    rewrite Hm in *. unfold is_negative, isEmpty_ in *. cbn in *.
    apply orb_false_iff in Hn as [Hn _]. destruct (n - m =? 0) eqn:?; [done|]. breflect.
    split; [|done]. destruct Hl as [? _ ?]. split; cbn; [done| |done]. split; [done|lia].
  - destruct (whole (resource l)) eqn:Wl.
    + assert (Hu : forall p, units l p = units r p).
      { intros p. unfold units. rewrite <- (same_key_whole _ _ Hk), Wl.
        rewrite !unshared_count; [done..| |done|done]. by rewrite <- (same_key_shared _ _ Hk). }
      rewrite minus_all in He; [done..| |done]. apply contains_units; [done..|].
      split; [done|]. intros p. by rewrite Hu.
    + unfold minus_ in *. rewrite is_shared_spec, Sl in * by done.
      assert (Hv : 0 <= scalar_of (value_minus (value (resource l)) (value (resource r)))).
      { apply orb_false_iff in Hn as [_ Hn]. unfold rtype in Hn. cbn in Hn.
        destruct (value_minus _ _); cbn in *; try done. by apply Z.ltb_ge. }
      destruct (value_minus_nonneg_wf (value (resource l)) (value (resource r))) as [Hw Ht];
        [eauto with clusterd..|].
      split; [|intros x; by apply same_key_with_value].
      split; cbn; [apply wf_with_value; eauto with clusterd|by rewrite unshared_count|].
      unfold isEmpty_ in He. unfold is_shared_ in He. cbn in He. by rewrite unshared_count in He.
Qed.

Lemma subtract_wf rs that : wf_resources rs -> wf_ that -> wf_resources (subtract rs that).
Proof.
  intros Hrs Ht. destruct (subtract_cases rs that Ht) as [[_ ->]|(e & rest & Hp & Hs & Hr)]; [done|].
  eapply wf_perm; [by symmetry|]. apply (wf_perm _ _ Hp) in Hrs.
  apply wf_cons in Hrs as (He & Ha & Hrest). rewrite subtractable_key in Hs by eauto with clusterd.
  case_if; [done|]. destruct (minus_left_wf e that) as [Hw Hkey]; [done..|].
  apply wf_cons. split_and!; [done| |done]. eapply Forall_impl; [done|]. unfold apart.
  intros x. rewrite !addable_combines, Hkey by done. intros Hx. rewrite <- Hx. f_equal.
  apply combines_key. rewrite Hkey. apply be_refl. eauto with clusterd.
Qed.

Lemma plus_measure a b k p :
  wf_resources a -> Forall wf_ b -> wf_resource k ->
  measure (plus a b) k p = fold_left (fun m e => join p m (weight k p e)) b (measure a k p).
Proof.
  intros Ha Hb Hk. revert a Ha. induction Hb as [|e b He _ IH]; intros a Ha; [done|]. cbn.
  rewrite <- add_measure by done. apply IH. by apply add_wf.
Qed.

Lemma plus_wf_resources a b : wf_resources a -> Forall wf_ b -> wf_resources (plus a b).
Proof.
  intros Ha Hb. revert a Ha. induction Hb as [|e b He _ IH]; intros a Ha; [done|].
  apply IH. by apply add_wf.
Qed.

Lemma minus_wf_resources a b : wf_resources a -> Forall wf_ b -> wf_resources (minus a b).
Proof.
  intros Ha Hb. revert a Ha. induction Hb as [|e b He _ IH]; intros a Ha; [done|].
  apply IH. by apply subtract_wf.
Qed.

(** Within a well-formed collection sums are unions. *)
Lemma measure_join e rs k p :
  wf_resources (e :: rs) -> wf_resource k ->
  measure (e :: rs) k p = join p (weight k p e) (measure rs k p).
Proof.
  intros Hrs Hk. assert (He := proj1 (proj1 (wf_cons _ _) Hrs)). rewrite measure_cons.
  destruct (decide (p = PScalar)) as [->|Np]; [done|].
  assert (Hw := weight_nonneg k p e He).
  assert (Hm := measure_nonneg rs k p (wr_elements _ (proj2 (proj2 (proj1 (wf_cons _ _) Hrs))))).
  unfold weight in *. destruct (same_key k (resource e)) eqn:E; [|destruct p; cbn; lia].
  destruct (combines e) eqn:Hc; [rewrite (measure_rest e) by done; destruct p; cbn; lia|].
  destruct (units_exclusive e He Hc) as (_ & Hwh & ->).
  rewrite measure_whole; [by destruct p| |done]. by rewrite (same_key_whole _ _ E).
Qed.

Lemma fold_join_measure b m k p :
  wf_resources b -> wf_resource k -> 0 <= m ->
  fold_left (fun m e => join p m (weight k p e)) b m = join p m (measure b k p).
Proof.
  intros Hb Hk. revert m. induction b as [|e b IH]; intros m Hm; cbn [fold_left].
  - by rewrite join_0_r.
  - rewrite measure_join by done. apply wf_cons in Hb as (He & _ & Hb).
    rewrite IH; [|done|]; [by rewrite join_assoc|]. auto with clusterd.
Qed.

(** ** Containment *)

(** [b] holds no more than [a] of any key, anywhere. *)
Definition included (b a : Resources) : Prop :=
  forall k p, wf_resource k -> measure b k p <= measure a k p.

Definition persistent (e : Resource_) : bool := isPersistentVolume (resource e).

(** Block, mount and identified raw disks occur once, unless they are
    persistent volumes. *)
Definition no_twin_disks (rs : Resources) : Prop :=
  pairwise (fun e e' => same_key (resource e) (resource e') = true -> persistent e = true) rs.

Lemma measure_pick rs k p :
  Forall wf_ rs -> 0 < measure rs k p ->
  exists e rest, rs ≡ₚ e :: rest /\ same_key k (resource e) = true.
Proof.
  intros Hrs H.
  destruct (decide (Forall (fun e => same_key k (resource e) = false) rs)) as [Hf|Hf].
  - rewrite measure_absent in H by done. lia.
  - apply not_Forall_Exists in Hf; [|intros; apply _]. apply Exists_exists in Hf as (e & Hin & He).
    apply not_false_iff_true in He. apply elem_of_Permutation in Hin as [rest Hp]. eauto.
Qed.

Lemma member_contains rs e :
  wf_resources rs -> wf_ e -> (forall p, units e p <= measure rs (resource e) p) ->
  _contains rs e = true.
Proof.
  intros Hrs He Hle. destruct (units_positive e He) as [q Hq].
  destruct (measure_pick rs (resource e) q) as (e' & rest & Hp & Hk); [eauto with clusterd| |].
  { specialize (Hle q). lia. }
  apply existsb_exists. exists e'. split.
  { apply list_elem_of_In. rewrite Hp. by left. }
  apply (wf_perm _ _ Hp) in Hrs. assert (He' := proj1 (proj1 (wf_cons _ _) Hrs)).
  apply contains_units; [done..|]. split; [by apply be_sym; eauto with clusterd|]. intros p.
  destruct (combines e') eqn:Hc.
  - specialize (Hle p). rewrite Hp, measure_cons, (measure_rest e') in Hle by eauto with clusterd.
    unfold weight in Hle. rewrite Hk in Hle. lia.
  - rewrite (proj2 (proj2 (units_exclusive e' He' Hc))).
    rewrite <- (combines_key _ _ Hk) in Hc. by rewrite (proj2 (proj2 (units_exclusive e He Hc))).
Qed.

Lemma contains_measure rs e k p :
  wf_resources rs -> wf_ e -> wf_resource k -> _contains rs e = true ->
  weight k p e <= measure rs k p.
Proof.
  intros Hrs He Hk Hc. assert (H := subtract_measure rs e k p Hrs He Hk Hc).
  assert (Hn := measure_nonneg (subtract rs e) k p (wr_elements _ (subtract_wf rs e Hrs He))). lia.
Qed.

Lemma included_head e b a :
  wf_resources (e :: b) -> wf_resources a -> included (e :: b) a ->
  _contains a e = true /\ included b (subtract a e).
Proof.
  intros Hb Ha Hi. assert (Hb' := Hb). apply wf_cons in Hb' as (He & _ & Hb').
  assert (Hc : _contains a e = true).
  { apply member_contains; [done..|]. intros p.
    specialize (Hi (resource e) p). rewrite measure_cons in Hi. unfold weight in Hi.
    rewrite be_refl in Hi by eauto with clusterd.
    assert (Hn := measure_nonneg b (resource e) p (wr_elements _ Hb')).
    specialize (Hi ltac:(eauto with clusterd)). lia. }
  split; [done|]. intros k p Hk. rewrite subtract_measure by done.
  specialize (Hi k p Hk). rewrite measure_cons in Hi. lia.
Qed.

Lemma minus_measure a b k p :
  wf_resources a -> wf_resources b -> included b a -> wf_resource k ->
  measure (minus a b) k p = measure a k p - measure b k p.
Proof.
  intros Ha Hb Hi Hk. revert a Ha Hi. induction b as [|e b IH]; intros a Ha Hi.
  - cbn. unfold measure at 3. cbn. lia.
  - destruct (included_head e b a) as [Hc Hi']; [done..|]. assert (Hb' := Hb).
    apply wf_cons in Hb' as (He & _ & Hb'). cbn [minus fold_left].
    change (fold_left subtract b (subtract a e)) with (minus (subtract a e) b).
    rewrite IH by eauto using subtract_wf. rewrite measure_cons, subtract_measure by done. lia.
Qed.

Lemma persistent_whole e : persistent e = true -> whole (resource e) = true.
Proof.
  unfold persistent, isPersistentVolume, whole, exclusive. destruct (disk (resource e)); [|done].
  intros ->. by rewrite !orb_true_r.
Qed.

Lemma persistent_key e e' :
  same_key (resource e) (resource e') = true -> persistent e = persistent e'.
Proof.
  intros H%same_key_metadata. revert H.
  unfold compareResourceMetadata, attributes_eqb, reserved_eqb, persistent, isPersistentVolume.
  intros. breflect. destruct (disk (resource e)) as [d|], (disk (resource e')) as [d'|]; try done.
  assert (H' : disk_eqb d d' = true) by done. unfold disk_eqb in H'. breflect.
  by eapply opt_eqb_some.
Qed.

(** Nothing else has the key of an element that is not a persistent volume. *)
Lemma measure_single e b k p :
  wf_resources (e :: b) -> no_twin_disks (e :: b) -> wf_resource k ->
  same_key k (resource e) = true -> persistent e = false -> measure b k p = 0.
Proof.
  intros Hb [Ht _] Hk Hke Hp. apply measure_absent. apply wf_cons in Hb as (He & _ & [Hb _]).
  rewrite Forall_forall in *. intros e' Hin. apply not_true_iff_false. intros Hke'.
  specialize (Ht e' Hin). rewrite Hp in Ht. assert (false = true); [|done]. apply Ht.
  apply (be_trans _ k); eauto with clusterd. apply be_sym; eauto with clusterd.
Qed.

Lemma resources_contains_spec a b :
  wf_resources a -> wf_resources b -> no_twin_disks b -> contains a b = true <-> included b a.
Proof.
  intros Ha Hb Ht. revert a Ha. induction b as [|e b IH]; intros a Ha; cbn [contains].
  { split; [|done]. intros _ k p Hk. apply measure_nonneg. by destruct Ha. }
  assert (Hb' := Hb). assert (Ht' := Ht). apply wf_cons in Hb' as (He & _ & Hb'). destruct Ht' as [_ Ht'].
  fold (persistent e). split.
  - destruct (_contains a e) eqn:Hc; [|done]. cbn [negb].
    destruct (persistent e) eqn:Hp; rewrite IH by eauto using subtract_wf; intros Hi k p Hk;
      specialize (Hi k p Hk); rewrite measure_cons.
    + rewrite subtract_measure in Hi by done. lia.
    + assert (Hw := contains_measure a e k p Ha He Hk Hc). unfold weight in *.
      destruct (same_key k (resource e)) eqn:E; [|lia]. rewrite (measure_single e) by done. lia.
  - intros Hi. destruct (included_head e b a) as [Hc Hi']; [done..|]. rewrite Hc. cbn [negb].
    destruct (persistent e); apply IH; eauto using subtract_wf. intros k p Hk.
    specialize (Hi k p Hk). rewrite measure_cons in Hi.
    assert (Hw := weight_nonneg k p e He). lia.
Qed.

(** Collections that hold the same. *)
Definition same_holdings (a b : Resources) : Prop :=
  forall k p, wf_resource k -> measure a k p = measure b k p.

#[export] Instance same_holdings_equivalence : Equivalence same_holdings.
Proof.
  split; [done| |].
  - intros a b H k p Hk. by rewrite H.
  - intros a b c H1 H2 k p Hk. by rewrite H1, H2.
Qed.

Definition single_disk (k : Resource) : Prop :=
  shared k = false /\ exclusive k = true /\ isPersistentVolume k = false.

Lemma no_twin_count rs :
  wf_resources rs ->
  no_twin_disks rs <->
  forall k, wf_resource k -> single_disk k -> measure rs k PScalar <= 1.
Proof.
  induction rs as [|e rs IH]; intros Hrs; [by split; intros; cbn|].
  assert (Hrs' := Hrs). apply wf_cons in Hrs' as (He & Ha & Hrs'). specialize (IH Hrs'). split.
  - intros Ht k Hk (Hs & Hx & Hp). rewrite measure_cons. unfold weight.
    destruct (same_key k (resource e)) eqn:E.
    + assert (Hke := same_key_metadata _ _ E).
      rewrite (measure_single e); [|done..|].
      * assert (Hc : combines e = false).
        { unfold combines. by rewrite <- (metadata_shared _ _ Hke), <- (disk_exclusive _ _ Hke), Hs, Hx. }
        rewrite (proj2 (proj2 (units_exclusive e He Hc))). lia.
      * rewrite <- (persistent_key (mkResource_ k None) e) by done. done.
    + destruct Ht as [_ Ht]. rewrite Z.add_0_l. by apply IH.
  - intros H. split.
    + rewrite Forall_forall in *. intros e' Hin Hk. apply not_false_iff_true. intros Hp.
      specialize (Ha e' Hin). unfold apart in Ha. rewrite addable_combines, Hk in Ha by done.
      cbn in Ha. destruct (units_exclusive e He Ha) as (_ & _ & Hu).
      unfold combines in Ha. apply orb_false_iff in Ha as [Hs Hx]. apply negb_false_iff in Hx.
      specialize (H (resource e) ltac:(eauto with clusterd) ltac:(done)).
      rewrite measure_cons in H. unfold weight in H. rewrite be_refl, Hu in H by eauto with clusterd.
      assert (Hm : 0 < measure rs (resource e) PScalar); [|lia].
      apply elem_of_Permutation in Hin as [rest Hp']. assert (Hwf := wf_perm _ _ Hp' Hrs').
      rewrite Hp', measure_cons. apply wf_cons in Hwf as (He' & _ & [Hrest _]).
      assert (Hn := measure_nonneg rest (resource e) PScalar Hrest). unfold weight. rewrite Hk.
      rewrite (proj2 (proj2 (units_exclusive e' He' ltac:(rewrite <- (combines_key _ _ Hk);
        unfold combines; by rewrite Hs, Hx)))). lia.
    + apply IH. intros k Hk Hsk. specialize (H k Hk Hsk). rewrite measure_cons in H.
      assert (Hw := weight_nonneg k PScalar e He). lia.
Qed.

Lemma no_twin_same a b :
  wf_resources a -> wf_resources b -> same_holdings a b -> no_twin_disks a -> no_twin_disks b.
Proof.
  intros Ha Hb H. rewrite !no_twin_count by done. intros Ht k Hk Hs. rewrite <- H by done. auto.
Qed.

Lemma eqb_spec a b :
  wf_resources a -> wf_resources b -> no_twin_disks a -> no_twin_disks b ->
  eqb a b = true <-> same_holdings a b.
Proof.
  intros Ha Hb Ta Tb. unfold eqb. rewrite andb_true_iff, !resources_contains_spec by done. split.
  - intros [H1 H2] k p Hk. specialize (H1 k p Hk). specialize (H2 k p Hk). lia.
  - intros H. split; intros k p Hk; rewrite H by done; lia.
Qed.

(** Equal holdings without twins compare equal. *)
Lemma eqb_same a b :
  wf_resources a -> wf_resources b -> no_twin_disks b -> same_holdings a b -> eqb a b = true.
Proof.
  intros Ha Hb Tb H. apply eqb_spec; [done..| |done|done].
  eapply (no_twin_same b); [done..| |done]. by symmetry.
Qed.

(** Away from scalars a collection holds nothing twice. *)
Lemma amount_unit v p : p <> PScalar -> amount v p = 0 \/ amount v p = 1.
Proof. destruct v, p; cbn; try case_decide; intuition congruence. Qed.

Lemma measure_unit rs k p :
  wf_resources rs -> wf_resource k -> p <> PScalar -> measure rs k p = 0 \/ measure rs k p = 1.
Proof.
  intros Hrs Hk Hp. destruct (decide (measure rs k p = 0)) as [|Hn]; [by left|].
  assert (H := measure_nonneg rs k p (wr_elements _ Hrs)).
  destruct (measure_pick rs k p) as (e & rest & Hpe & Hke); [by destruct Hrs|lia|].
  apply (wf_perm _ _ Hpe) in Hrs. assert (He := proj1 (proj1 (wf_cons _ _) Hrs)).
  rewrite Hpe, measure_cons in *. unfold weight in *. rewrite Hke in *.
  destruct (whole (resource e)) eqn:Hw.
  { rewrite units_whole, measure_whole in Hn; [done| |done..].
    by rewrite (same_key_whole _ _ Hke). }
  rewrite (measure_rest e), Z.add_0_r by (try done; unfold combines, whole in *;
    destruct (shared (resource e)), (exclusive (resource e)); done).
  unfold units. rewrite Hw. by apply amount_unit.
Qed.

Lemma plus_holds a b k p :
  wf_resources a -> wf_resources b -> wf_resource k ->
  measure (plus a b) k p = join p (measure a k p) (measure b k p).
Proof.
  intros Ha Hb Hk. rewrite plus_measure by eauto with clusterd.
  apply fold_join_measure; [done..|]. apply measure_nonneg. by destruct Ha.
Qed.

Lemma minus_plus_same a b :
  wf_resources a -> wf_resources b -> included b a -> same_holdings (plus (minus a b) b) a.
Proof.
  intros Ha Hb Hi k p Hk. rewrite plus_holds by eauto using minus_wf_resources with clusterd.
  rewrite minus_measure by done. specialize (Hi k p Hk).
  destruct (decide (p = PScalar)) as [->|Hp]; [cbn; lia|].
  destruct (measure_unit a k p), (measure_unit b k p); try done; destruct p; cbn; lia.
Qed.

#[export] Hint Resolve plus_wf_resources minus_wf_resources add_wf subtract_wf : clusterd.

(** ** Validity *)

Lemma validate_canonical l : canonical l -> validate_ranges l = None.
Proof.
  induction l as [|r l IH]; intros Hc; cbn; [done|]. assert (Hc' := Hc).
  apply canonical_cons_inv in Hc' as (Hw & Ha & Hl).
  destruct (Z.ltb_spec (rend r) (rbegin r)); [unfold wf_range in *; lia|].
  destruct (existsb _ l) eqn:E; [|by apply IH].
  apply existsb_exists in E as (s & Hs & Hb). breflect.
  rewrite Forall_forall in Ha. specialize (Ha s (proj2 (list_elem_of_In _ _) Hs)). lia.
Qed.

Lemma validate_nodup l : NoDup l -> validate_set l = None.
Proof.
  induction 1 as [|x l Hx _ IH]; cbn; [done|]. destruct (existsb _ l) eqn:E; [|done].
  apply existsb_exists in E as (y & Hy & Heq). unfold string_eqb, dec_eqb in Heq. breflect. subst y.
  by apply list_elem_of_In in Hy.
Qed.

Lemma validate_value_wf r : wf_value (value r) -> validate_value (wire r) = None.
Proof.
  unfold validate_value, wire, rtype. cbn. destruct (value r) as [z|l|l|]; cbn; try done.
  - intros Hz. unfold check. destruct (Z.eqb_spec z 0), (Z.leb_spec z 0); cbn; try done. lia.
  - intros [Hc _]. by apply validate_canonical.
  - apply validate_nodup.
Qed.

Definition valid_ (e : Resource_) : Prop := resource_validate (resource e) = None.

Lemma validate_with_value v r :
  wf_value v -> wf_value (value r) ->
  resource_validate r = None -> resource_validate (with_value v r) = None.
Proof.
  intros Hv Hr. unfold resource_validate, validate_message. cbn [wire w_name].
  change (name (with_value v r)) with (name r). case_if; [done|]. cbn [first_error].
  rewrite (validate_value_wf r), (validate_value_wf (with_value v r)) by done.
  intros H. exact H.
Qed.

Lemma add_valid rs that :
  wf_resources rs -> wf_ that -> Forall valid_ rs -> valid_ that -> Forall valid_ (add rs that).
Proof.
  intros Hrs Ht Hv Hvt. unfold add. rewrite wf_isEmpty by done.
  destruct (add_cases rs that) as [[_ ->]|(e & rest & Hp & Ha & ->)]; [by apply Forall_cons|].
  assert (Hrs' := wf_perm _ _ Hp Hrs). apply wf_cons in Hrs' as (He & _ & _). rewrite Hp in Hv.
  apply Forall_cons in Hv as [Hve Hv]. apply Forall_cons. split; [|done].
  rewrite addable_combines in Ha by done. breflect.
  unfold valid_, plus_. case_if; [done|]. apply validate_with_value; [|eauto with clusterd|done].
  apply value_plus_wf; eauto with clusterd.
Qed.

Lemma subtract_valid rs that :
  wf_resources rs -> wf_ that -> Forall valid_ rs -> Forall valid_ (subtract rs that).
Proof.
  intros Hrs Ht Hv.
  destruct (subtract_cases rs that Ht) as [[_ ->]|(e & rest & Hp & Hs & ->)]; [done|].
  assert (Hrs' := wf_perm _ _ Hp Hrs). apply wf_cons in Hrs' as (He & _ & _). rewrite Hp in Hv.
  apply Forall_cons in Hv as [Hve Hv]. case_if; [done|]. apply Forall_cons. split; [|done].
  rewrite subtractable_key in Hs by eauto with clusterd.
  destruct (minus_left_wf e that) as [Hw _]; [done..|]. apply we_resource, wr_value in Hw. revert Hw.
  unfold valid_, minus_. destruct (is_shared_ e); [done|]. intros Hw.
  apply validate_with_value; eauto with clusterd.
Qed.

Lemma fold_valid (op : Resources -> Resource_ -> Resources) (Q : Resource_ -> Prop) :
  (forall rs e, wf_resources rs -> wf_ e -> wf_resources (op rs e)) ->
  (forall rs e, wf_resources rs -> wf_ e -> Forall valid_ rs -> Q e -> Forall valid_ (op rs e)) ->
  forall b a, wf_resources a -> Forall wf_ b -> Forall valid_ a -> Forall Q b ->
  Forall valid_ (fold_left op b a).
Proof.
  intros Hwf Hval b. induction b as [|e b IH]; intros a Ha Hb Va Vb; cbn; [done|].
  apply Forall_cons in Hb as [? ?], Vb as [? ?]. apply IH; auto.
Qed.

Lemma to_Resource_wf r : wf_resource r -> isEmpty r = false -> wf_ (to_Resource_ r).
Proof. intros Hr He. split; cbn; [done| |done]. by destruct (shared r). Qed.

(** Resources in the model's well-formed representation: unique labels,
    canonical ranges, sets without repetition. *)
Lemma plus_resource_wf rs r :
  wf_resources rs -> Forall valid_ rs -> wf_resource r ->
  wf_resources (plus_resource rs r) /\ Forall valid_ (plus_resource rs r).
Proof.
  intros Hrs Hv Hr. unfold plus_resource, plus_resource_. destruct (validate_ _) eqn:E; [done|].
  destruct (isEmpty r) eqn:Er.
  - unfold add. replace (isEmpty_ (to_Resource_ r)) with true; [done|].
    unfold isEmpty_. cbn. rewrite Er. by case_if.
  - assert (Hw := to_Resource_wf r Hr Er). split; [by apply add_wf|]. apply add_valid; [done..|].
    unfold validate_ in E. destruct (_ && _) in E; [done|]. done.
Qed.

Lemma of_list_wf l :
  Forall wf_resource l -> wf_resources (of_list l) /\ Forall valid_ (of_list l).
Proof.
  intros Hl. unfold of_list. assert (H : wf_resources [] /\ Forall valid_ []) by done. revert H.
  generalize (@nil Resource_). induction Hl as [|r l Hr _ IH]; intros rs []; cbn; [done|].
  apply IH. by apply plus_resource_wf.
Qed.

(** ** Properties *)

(** Resources to evaluate the operations on. *)
Definition cpus_ (z : Z) : Resource := mkResource "cpus" (VScalar z) None [] None false false None.
Definition ports_ (l : list Range) : Resource := mkResource "ports" (VRanges l) None [] None false false None.
Definition mount_ (z : Z) : Resource :=
  mkResource "disk" (VScalar z) None []
    (Some (mkDiskInfo None None (Some (mkSource MOUNT None (Some (Some "/mnt"%string)) None None None None))))
    false false None.
Definition volume_ (id : string) (z : Z) : Resource :=
  mkResource "disk" (VScalar z) None [mkReservation (Some DYNAMIC) (Some "a"%string) None None]
    (Some (mkDiskInfo (Some (id, None)) (Some (mkVolume RW "v" None)) None)) false true None.

Ltac solve_wf :=
  repeat match goal with
  | |- wf_resource _ => split
  | |- wf_metadata _ => split
  | |- wf_disk _ => intros ? ?; cbn in *; simplify_eq
  | |- wf_source _ => split
  | |- wf_reservation _ => intros ? ?; cbn in *; simplify_eq
  | |- wf_value _ => cbn
  | |- canonical _ => split
  | |- Forall _ _ => constructor
  | |- StronglySorted _ _ => constructor
  | |- _ /\ _ => split
  | |- forall d, _ = Some d -> _ => intros ? ?; cbn in *; simplify_eq
  | |- wf_range _ => unfold wf_range, UINT64_MAX; cbn; lia
  | |- below_max _ => unfold below_max, UINT64_MAX; cbn; lia
  | |- _ => (cbn; lia) || done
  end.

Definition sample : list Resource :=
  [cpus_ 4000; ports_ [mkRange 1 5]; volume_ "id" 100; volume_ "id" 100; mount_ 7].
Definition sample_part : list Resource :=
  [cpus_ 1500; ports_ [mkRange 2 3]; volume_ "id" 100; mount_ 7].

Lemma sample_wf : Forall wf_resource sample.
Proof. unfold sample. solve_wf. Qed.

Lemma sample_part_wf : Forall wf_resource sample_part.
Proof. unfold sample_part. solve_wf. Qed.

(** C39. The representation invariant of [Resources], for resources in the form that
    parsing and addition produce ([wf_resource]: non-negative scalars, sorted
    disjoint ranges whose ends are below the largest 64-bit number, sets without
    repetitions): a collection built from a list of them, a sum and a difference
    have valid, non-empty elements, positive counters and no two elements that
    could be combined.  This holds for a difference even when more is taken than
    there was.  A range that ends at the largest number is excluded for a reason:
    see [range_sum_wraps]. *)
Theorem resources_invariant (l : list Resource) a b :
  Forall wf_resource l ->
  wf_resources a -> wf_resources b -> Forall valid_ a -> Forall valid_ b ->
  (wf_resources (of_list l) /\ Forall valid_ (of_list l))
  /\ (wf_resources (plus a b) /\ Forall valid_ (plus a b))
  /\ (wf_resources (minus a b) /\ Forall valid_ (minus a b)).
Proof.
  intros Hl Ha Hb Va Vb. split; [by apply of_list_wf|]. split_and!; eauto with clusterd.
  - apply (fold_valid add valid_); eauto using add_valid with clusterd.
  - apply (fold_valid subtract (fun _ => True)); eauto using subtract_valid with clusterd.
    by apply Forall_true.
Qed.

Lemma resources_invariant_witness :
  length (of_list sample) = 4%nat
  /\ length (minus (of_list sample_part) (of_list sample)) = 0%nat
  /\ wf_resources (minus (of_list sample_part) (of_list sample)).
Proof.
  split_and!; [by vm_compute|by vm_compute|].
  destruct (of_list_wf _ sample_wf), (of_list_wf _ sample_part_wf).
  by apply (resources_invariant sample (of_list sample_part) (of_list sample) sample_wf).
Defined.

(** A range up to the largest number breaks a sum: the end plus one wraps around
    to 0, so that the next range is not merged, and the sum of two valid
    resources is a resource that validation rejects. *)
Theorem range_sum_wraps :
  let p := ports_ [mkRange 5 UINT64_MAX] in
  let q := ports_ [mkRange 7 9] in
  resource_validate p = None /\ resource_validate q = None
  /\ map (fun e => bool_decide (validate_ e = None)) (plus_resource (of_list [p]) q) = [false].
Proof. by vm_compute. Qed.

(** [a + b] holds of every kind of resource the sum of the scalars and the
    counters, and the union of the ranges and sets, that [a] and [b] hold. *)
Theorem resources_plus_correct a b :
  wf_resources a -> wf_resources b ->
  wf_resources (plus a b)
  /\ forall k p, wf_resource k -> measure (plus a b) k p = join p (measure a k p) (measure b k p).
Proof. intros. split; [eauto with clusterd|]. intros. by apply plus_holds. Qed.

Lemma resources_plus_correct_witness :
  measure (plus (of_list sample) (of_list sample_part)) (cpus_ 1) PScalar = 5500
  /\ measure (plus (of_list sample) (of_list sample_part)) (volume_ "id" 100) PScalar = 3
  /\ join PScalar (measure (of_list sample) (mount_ 7) PScalar)
       (measure (of_list sample_part) (mount_ 7) PScalar) = 2.
Proof.
  split_and!; [by vm_compute..|].
  destruct (of_list_wf _ sample_wf), (of_list_wf _ sample_part_wf).
  rewrite <- (proj2 (resources_plus_correct (of_list sample) (of_list sample_part)
    ltac:(done) ltac:(done))); [by vm_compute|]. solve_wf.
Defined.

(** [a.contains(b)] decides that [b] holds no more than [a] of any kind of
    resource, for [b] in which a whole disk occurs once. *)
Theorem resources_contains_order a b :
  wf_resources a -> wf_resources b -> no_twin_disks b -> contains a b = true <-> included b a.
Proof. apply resources_contains_spec. Qed.

Lemma sample_part_no_twin : no_twin_disks (of_list sample_part).
Proof. cbn. unfold no_twin_disks. cbn. repeat constructor; done. Qed.

Lemma resources_contains_order_witness :
  included (of_list sample_part) (of_list sample).
Proof.
  destruct (of_list_wf _ sample_wf), (of_list_wf _ sample_part_wf).
  apply resources_contains_order; [done|done|apply sample_part_no_twin|by vm_compute].
Defined.

(** Subtraction is exact when it is covered: if [a.contains(b)] then [a - b]
    holds exactly what [b] leaves of [a], and adding [b] back gives a collection
    equal to [a]. *)
Theorem resources_minus_correct a b :
  wf_resources a -> wf_resources b -> no_twin_disks a -> no_twin_disks b -> contains a b = true ->
  wf_resources (minus a b)
  /\ (forall k p, wf_resource k -> measure (minus a b) k p = measure a k p - measure b k p)
  /\ eqb (plus (minus a b) b) a = true.
Proof.
  intros Ha Hb Ta Tb Hc. apply resources_contains_spec in Hc; [|done..]. split_and!; eauto with clusterd.
  - intros. by apply minus_measure.
  - apply eqb_same; eauto using minus_plus_same with clusterd.
Qed.

Lemma sample_no_twin : no_twin_disks (of_list sample).
Proof. cbn. unfold no_twin_disks. cbn. repeat constructor; done. Qed.

Lemma resources_minus_correct_witness :
  minus (of_list sample) (of_list sample_part)
  = [mkResource_ (cpus_ 2500) None; mkResource_ (ports_ [mkRange 1 1; mkRange 4 5]) None;
     mkResource_ (volume_ "id" 100) (Some 1)]
  /\ eqb (plus (minus (of_list sample) (of_list sample_part)) (of_list sample_part)) (of_list sample) = true.
Proof.
  split; [by vm_compute|].
  destruct (of_list_wf _ sample_wf), (of_list_wf _ sample_part_wf).
  by apply (resources_minus_correct (of_list sample) (of_list sample_part)); [done|done|
    apply sample_no_twin|apply sample_part_no_twin|vm_compute].
Defined.

(** Equality of collections decides that they hold the same, and addition is
    commutative and associative up to it, where whole disks occur once. *)
Theorem resources_plus_laws a b c :
  wf_resources a -> wf_resources b -> wf_resources c -> no_twin_disks (plus a (plus b c)) ->
  eqb (plus a (plus b c)) (plus (plus a b) c) = true
  /\ eqb (plus a (plus b c)) (plus (plus c b) a) = true
  /\ (no_twin_disks a -> no_twin_disks b -> eqb a b = true <-> same_holdings a b).
Proof.
  intros Ha Hb Hc Ht.
  assert (H : forall x, wf_resources x -> same_holdings (plus a (plus b c)) x ->
    eqb (plus a (plus b c)) x = true).
  { intros x Hx Hs. apply eqb_same; auto with clusterd.
    apply (no_twin_same (plus a (plus b c))); auto with clusterd. }
  split_and!; [..|by intros; apply eqb_spec]; apply H; auto with clusterd; intros k p Hk;
    rewrite !plus_holds by auto with clusterd; destruct p; cbn; lia.
Qed.

Lemma resources_plus_laws_witness :
  eqb (plus (of_list sample) (plus (of_list [cpus_ 5]) (of_list [cpus_ 6])))
      (plus (plus (of_list sample) (of_list [cpus_ 5])) (of_list [cpus_ 6])) = true.
Proof.
  destruct (of_list_wf _ sample_wf).
  assert (H5 : Forall wf_resource [cpus_ 5]) by solve_wf.
  assert (H6 : Forall wf_resource [cpus_ 6]) by solve_wf.
  apply of_list_wf in H5 as [? _], H6 as [? _].
  apply resources_plus_laws; [done..|].
  vm_compute. repeat constructor; done.
Defined.

(** Only persistent volumes are counted: a collection with one mount disk
    contains a collection with two, and subtracting those takes more than
    there is without a trace. *)
Theorem contains_ignores_twin_disks :
  let one := of_list [mount_ 7] in
  let two := of_list [mount_ 7; mount_ 7] in
  length two = 2%nat /\ contains one two = true /\ eqb one two = true /\ minus one two = [].
Proof. by vm_compute. Qed.
