(* ===== verification/ResourceOps.v ===== *)
(** * Operations on collections of resources

    The rest of [class Resources] ([src/src/common/resources.cpp]): filters,
    allocation, reservations, lookup by name and [find].  [CHECK]s that fail
    abort the process; the operations that have one return [None] there. *)

From stdpp Require Import base gmap strings list.
From S2P Require Import Prelude Strings Roles Ranges Values Resource Resources.
Local Open Scope Z_scope.

(** ** Allocation *)

Definition with_allocation (a : option (option string)) (r : Resource) : Resource :=
  mkResource (name r) (value r) a (reservations r) (disk r) (revocable r) (shared r) (provider_id r).

Definition map_resource (f : Resource -> Resource) (e : Resource_) : Resource_ :=
  mkResource_ (f (resource e)) (sharedCount e).

Definition allocate (role : string) (rs : Resources) : Resources :=
  map (map_resource (with_allocation (Some (Some role)))) rs.

Definition unallocate (rs : Resources) : Resources :=
  map (fun e => if allocation_info (resource e) then map_resource (with_allocation None) e else e) rs.

(** ** Filters *)

Definition filter (predicate : Resource -> bool) (rs : Resources) : Resources :=
  List.filter (fun e => predicate (resource e)) rs.

Definition reserved (role : option string) : Resources -> Resources := filter (isReserved role).
Definition allocatableTo (role : string) : Resources -> Resources := filter (isAllocatableTo role).
Definition allocatedToRoleSubtree (role : string) : Resources -> Resources :=
  filter (isAllocatedToRoleSubtree role).
Definition reservedToRoleSubtree (role : string) : Resources -> Resources :=
  filter (isReservedToRoleSubtree role).
Definition unreserved : Resources -> Resources := filter isUnreserved.
Definition persistentVolumes : Resources -> Resources := filter isPersistentVolume.
Definition revocable_ : Resources -> Resources := filter isRevocable.
Definition nonRevocable : Resources -> Resources := filter (fun r => negb (isRevocable r)).
Definition shared_ : Resources -> Resources := filter isShared.
Definition nonShared : Resources -> Resources := filter (fun r => negb (isShared r)).
Definition get_named (n : string) : Resources -> Resources := filter (fun r => string_eqb (name r) n).
Definition scalars : Resources -> Resources := filter (fun r => bool_decide (rtype r = SCALAR)).

(** ** Grouping *)

(** [result[key].add(resource_)]. *)
Definition group_add (m : gmap string Resources) (key : string) (e : Resource_) : gmap string Resources :=
  <[key := add (default [] (m !! key)) e]> m.

Definition reservations_ (rs : Resources) : gmap string Resources :=
  fold_left (fun m e => match reservationRole (resource e) with
                        | Some role => group_add m role e
                        | None => m
                        end) rs ∅.

(** The [CHECK]s ask for an allocation with a role. *)
Fixpoint allocations_loop (rs : Resources) (m : gmap string Resources) : option (gmap string Resources) :=
  match rs with
  | [] => Some m
  | e :: rs' =>
      match allocation_info (resource e) with
      | Some (Some role) => allocations_loop rs' (group_add m role e)
      | _ => None
      end
  end.

Definition allocations (rs : Resources) : option (gmap string Resources) := allocations_loop rs ∅.

(** ** Reservations *)

Fixpoint pushReservation_loop (reservation : ReservationInfo) (rs result : Resources) : option Resources :=
  match rs with
  | [] => Some result
  | e :: rs' =>
      let e' := map_resource (fun r => with_reservations (reservations r ++ [reservation]) r) e in
      match resource_validate (resource e') with
      | None => pushReservation_loop reservation rs' (add result e')
      | Some _ => None
      end
  end.

Definition pushReservation (reservation : ReservationInfo) (rs : Resources) : option Resources :=
  pushReservation_loop reservation rs [].

(** [RemoveLast] of a list the [CHECK] shows is not empty. *)
Definition pop (r : Resource) : Resource :=
  with_reservations (take (length (reservations r) - 1) (reservations r)) r.

Fixpoint popReservation_loop (rs result : Resources) : option Resources :=
  match rs with
  | [] => Some result
  | e :: rs' =>
      if (0 <? length (reservations (resource e)))%nat
      then popReservation_loop rs' (add result (map_resource pop e))
      else None
  end.

Definition popReservation (rs : Resources) : option Resources := popReservation_loop rs [].

Definition unreserve (e : Resource_) : Resource_ :=
  if isReserved None (resource e) then map_resource (with_reservations []) e else e.

Definition toUnreserved (rs : Resources) : Resources :=
  fold_left (fun result e => add result (unreserve e)) rs [].

(** [getReservationAncestor] of collections, after its [CHECK]s. *)
Definition pushReservations (l : list ReservationInfo) (rs : Resources) : option Resources :=
  fold_left (fun result reservation => result ≫= pushReservation reservation) l (Some rs).

Definition getReservationAncestors (rs1 rs2 : Resources) : option Resources :=
  match rs1, rs2 with
  | e1 :: _, e2 :: _ =>
      if eqb (toUnreserved rs1) (toUnreserved rs2)
      then pushReservations (reservations (getReservationAncestor (resource e1) (resource e2)))
             (toUnreserved rs1)
      else None
  | _, _ => None
  end.

Definition createStrippedScalarQuantity (rs : Resources) : Resources :=
  fold_left (fun stripped e =>
    match value (resource e) with
    | VScalar z =>
        add stripped (to_Resource_ (mkResource (name (resource e)) (VScalar z) None [] None false false None))
    | _ => stripped
    end) rs [].

(** ** Lookup by name *)

Definition get_scalar (n : string) (rs : Resources) : option Z :=
  fold_left (fun total e =>
    if string_eqb (name (resource e)) n && bool_decide (rtype (resource e) = SCALAR)
    then Some (default 0 total + scalar_of (value (resource e))) else total) rs None.

Definition get_ranges (n : string) (rs : Resources) : option (list Range) :=
  fold_left (fun total e =>
    if string_eqb (name (resource e)) n && bool_decide (rtype (resource e) = RANGES)
    then Some (ranges_plus_assign (default [] total) (ranges_of (value (resource e)))) else total) rs None.

Definition get_set (n : string) (rs : Resources) : option ValueSet :=
  fold_left (fun total e =>
    if string_eqb (name (resource e)) n && bool_decide (rtype (resource e) = SET)
    then Some (set_plus_assign (default [] total) (items_of (value (resource e)))) else total) rs None.

(** [Megabytes(static_cast<uint64_t>(value))] of a scalar in thousandths. *)
Definition megabytes (z : Z) : Z := u64 (u64 (z / 1000) * 1048576).

Definition cpus (rs : Resources) : option Z := get_scalar "cpus" rs.
Definition gpus (rs : Resources) : option Z := get_scalar "gpus" rs.
Definition mem (rs : Resources) : option Z := megabytes <$> get_scalar "mem" rs.
Definition disk_ (rs : Resources) : option Z := megabytes <$> get_scalar "disk" rs.
Definition ports (rs : Resources) : option (list Range) := get_ranges "ports" rs.
Definition ephemeral_ports (rs : Resources) : option (list Range) := get_ranges "ephemeral_ports" rs.

Definition names (rs : Resources) : gset string := list_to_set (map (fun e => name (resource e)) rs).
Definition types (rs : Resources) : gmap string ValueType :=
  fold_left (fun m e => <[name (resource e) := rtype (resource e)]> m) rs ∅.

(** ** Find *)

Inductive search :=
  | Found (found : Resources)
  | Searching (found total remaining : Resources).

(** The loop over the resources that satisfy one predicate; taking a part ends
    it. *)
Fixpoint find_loop (candidates found total remaining : Resources) : search :=
  match candidates with
  | [] => Searching found total remaining
  | e :: candidates' =>
      let unreserved := toUnreserved (add [] e) in
      if contains unreserved remaining then
        Found (fold_left (fun found r =>
                 add found (to_Resource_ (with_reservations (reservations (resource e)) r)))
               (to_list remaining) found)
      else if contains remaining unreserved then
        Searching (add found e) (subtract total e) (minus remaining unreserved)
      else find_loop candidates' found total remaining
  end.

Fixpoint find_predicates (predicates : list (Resource -> bool)) (found total remaining : Resources)
  : option Resources :=
  match predicates with
  | [] => None
  | predicate :: predicates' =>
      match find_loop (filter predicate total) found total remaining with
      | Found result => Some result
      | Searching found' total' remaining' => find_predicates predicates' found' total' remaining'
      end
  end.

Definition find_resource (rs : Resources) (target : Resource) : option Resources :=
  find_predicates
    (match reservationRole target with Some role => [isReserved (Some role)] | None => [] end
     ++ [isUnreserved; fun _ => true])
    [] rs (toUnreserved (of_resource target)).

Fixpoint find_targets (rs : Resources) (targets : list Resource) (total : Resources) : option Resources :=
  match targets with
  | [] => Some total
  | target :: targets' =>
      match find_resource rs target with
      | Some found => find_targets rs targets' (plus total found)
      | None => None
      end
  end.

Definition find (rs targets : Resources) : option Resources := find_targets rs (to_list targets) [].

(** ** Totals by name

    What a collection holds under a name, whoever it is reserved for or
    allocated to: scalars add up, ranges and sets unite.  Copies of a shared
    resource count once. *)

Definition pamount (n : string) (p : point) (e : Resource_) : Z :=
  if string_eqb (name (resource e)) n then amount (value (resource e)) p else 0.

Definition ptotal (n : string) (p : point) (rs : Resources) : Z :=
  foldr (fun e acc => join p (pamount n p e) acc) 0 rs.

Lemma ptotal_cons n p e rs : ptotal n p (e :: rs) = join p (pamount n p e) (ptotal n p rs).
Proof. done. Qed.

#[global] Arguments ptotal : simpl never.

#[export] Instance ptotal_perm n p : Proper ((≡ₚ) ==> (=)) (ptotal n p).
Proof.
  intros rs rs' Hp. induction Hp as [|x l l' Hp IH|x y l|l l' l'' H1 IH1 H2 IH2];
    rewrite ?ptotal_cons; [done|by rewrite IH| |congruence].
  by rewrite !join_assoc, (join_comm p (pamount n p y)).
Qed.

Lemma pamount_nonneg n p e : wf_ e -> 0 <= pamount n p e.
Proof. intros He. unfold pamount. case_if; [eauto with clusterd|done]. Qed.

Lemma ptotal_nonneg n p rs : Forall wf_ rs -> 0 <= ptotal n p rs.
Proof.
  induction 1 as [|e rs He _ IH]; [done|]. rewrite ptotal_cons.
  apply join_nonneg; [by apply pamount_nonneg|done].
Qed.

#[export] Hint Resolve pamount_nonneg ptotal_nonneg : clusterd.

Lemma metadata_name a b : compareResourceMetadata a b = true -> name a = name b.
Proof.
  unfold compareResourceMetadata, attributes_eqb, reserved_eqb, string_eqb, dec_eqb. intros. by breflect.
Qed.

Lemma same_key_name a b : same_key a b = true -> name a = name b.
Proof. intros H%same_key_metadata. by apply metadata_name. Qed.

(** A new copy of a shared resource adds nothing. *)
Definition fresh (rs : Resources) (e : Resource_) : Prop :=
  shared (resource e) = true -> Forall (fun e' => same_key (resource e') (resource e) = false) rs.

Lemma fresh_unshared rs e : shared (resource e) = false -> fresh rs e.
Proof. unfold fresh. congruence. Qed.

#[export] Hint Resolve fresh_unshared : clusterd.

Lemma add_total n p rs e :
  wf_resources rs -> wf_ e -> fresh rs e ->
  ptotal n p (add rs e) = join p (ptotal n p rs) (pamount n p e).
Proof.
  intros Hrs He Hf. unfold add. rewrite wf_isEmpty by done.
  destruct (add_cases rs e) as [[_ ->]|(e0 & rest & Hp & Ha & ->)]; [apply join_comm|].
  rewrite Hp, !ptotal_cons. assert (Hrs' := wf_perm _ _ Hp Hrs).
  apply wf_cons in Hrs' as (He0 & _ & _). rewrite addable_combines in Ha by done. breflect.
  rewrite <- join_assoc, (join_comm p (ptotal _ _ _)), join_assoc. f_equal.
  destruct (shared (resource e0)) eqn:S.
  { unfold fresh in Hf. rewrite <- (same_key_shared _ _ H) in Hf. specialize (Hf S).
    rewrite Hp in Hf. apply Forall_cons in Hf as [Hf _]. congruence. }
  unfold pamount, plus_. rewrite is_shared_spec, S by done. cbn.
  rewrite <- (same_key_name _ _ H). case_if; [|by rewrite join_0_r].
  apply value_plus_amount; eauto with clusterd.
Qed.

(** The last copy of a shared resource. *)
Definition last_copy (rs : Resources) (e : Resource_) : Prop :=
  shared (resource e) = true -> measure rs (resource e) PScalar = count_ e.

Lemma last_copy_unshared rs e : shared (resource e) = false -> last_copy rs e.
Proof. unfold last_copy. congruence. Qed.

#[export] Hint Resolve last_copy_unshared : clusterd.

Lemma same_units_amount l r p :
  wf_ l -> wf_ r -> same_key (resource l) (resource r) = true ->
  (forall p, units l p = units r p) -> amount (value (resource l)) p = amount (value (resource r)) p.
Proof.
  intros Hl Hr Hk Hu. specialize (Hu p). unfold units in Hu.
  rewrite <- (same_key_whole _ _ Hk) in Hu. destruct (whole (resource l)) eqn:W; [|done].
  unfold same_key, resource_eqb in Hk. rewrite W in Hk. breflect.
  apply value_eqb_amount; eauto using metadata_type with clusterd.
Qed.

Lemma join_minus v w p :
  amount w p <= amount v p -> wf_value v -> wf_value w ->
  join p (amount v p - amount w p) (amount w p) = amount v p.
Proof.
  intros Hle Hv Hw. destruct (decide (p = PScalar)) as [->|Np]; [cbn; lia|].
  destruct (amount_unit v p Np), (amount_unit w p Np); destruct p; cbn; lia.
Qed.

Lemma join_rotate p x y z : join p (join p x y) z = join p y (join p x z).
Proof. destruct p; cbn; lia. Qed.

Lemma units_last l r rs rest p :
  wf_resources rs -> wf_ r -> rs ≡ₚ l :: rest -> same_key (resource l) (resource r) = true ->
  shared (resource l) = true -> last_copy rs r -> units l p = units r p.
Proof.
  intros Hrs Hr Hp Hk S Hc. apply (wf_perm _ _ Hp) in Hrs.
  assert (Hl := proj1 (proj1 (wf_cons _ _) Hrs)).
  destruct (plus_shared l r) as (n & m & En & Em & ? & ?); [done..| |].
  { by rewrite <- (same_key_shared _ _ Hk). }
  unfold last_copy, count_ in Hc. rewrite <- (same_key_shared _ _ Hk), Hp, measure_cons in Hc.
  specialize (Hc S). unfold weight in Hc.
  rewrite (measure_rest l) in Hc; [|done|eauto with clusterd|by apply be_sym; eauto with clusterd|
    unfold combines; by rewrite S].
  assert (W : whole (resource l) = true) by (unfold whole; by rewrite S).
  rewrite same_key_sym, Hk in Hc by eauto with clusterd. unfold units in *.
  rewrite <- (same_key_whole _ _ Hk). rewrite W, En, Em in *. destruct p; cbn in *; lia.
Qed.

Lemma subtract_total n p rs e :
  wf_resources rs -> wf_ e -> _contains rs e = true -> last_copy rs e ->
  join p (ptotal n p (subtract rs e)) (pamount n p e) = ptotal n p rs.
Proof.
  intros Hrs He Hc Hlast.
  destruct (subtract_cases rs e He) as [[Hf _]|(e0 & rest & Hp & Hs & ->)].
  { apply contains_absent in Hf; [congruence|eauto with clusterd|done]. }
  assert (Hrs' := wf_perm _ _ Hp Hrs). apply wf_cons in Hrs' as (He0 & _ & _).
  rewrite subtractable_key in Hs by eauto with clusterd.
  assert (Hce := contains_member rs e0 rest e Hrs He Hp Hc Hs).
  rewrite Hp, ptotal_cons, (join_comm p (pamount n p e0)).
  destruct (units_differ e0 e He0 He Hce) as [Hd|Hu].
  - rewrite nonnegative_wf, ptotal_cons by (by apply minus_rest).
    rewrite join_rotate. f_equal. destruct (shared (resource e0)) eqn:S.
    { destruct Hd as [q Hq]. contradict Hq. by eapply units_last. }
    destruct (minus_value e0 e) as (_ & _ & Ha); [done..|].
    unfold pamount, minus_. rewrite is_shared_spec, S by done. cbn.
    rewrite <- (same_key_name _ _ Hs). case_if; [|by rewrite join_0_r].
    rewrite Ha. apply join_minus; [|eauto with clusterd..].
    assert (Hm := Ha p). assert (0 <= amount (value_minus (value (resource e0)) (value (resource e))) p);
      [|lia]. apply amount_nonneg. by apply minus_value.
  - rewrite (minus_all e0 e), orb_true_r by done. f_equal. unfold pamount.
    rewrite <- (same_key_name _ _ Hs). case_if; [|done]. symmetry. by apply same_units_amount.
Qed.

Definition unshared (rs : Resources) : Prop := Forall (fun e => shared (resource e) = false) rs.

Lemma plus_total n p a b :
  wf_resources a -> Forall wf_ b -> unshared b ->
  ptotal n p (plus a b) = join p (ptotal n p a) (ptotal n p b).
Proof.
  intros Ha Hb. revert a Ha. induction Hb as [|e b He Hb IH]; intros a Ha Hs.
  - cbn. rewrite join_0_r; [done|]. apply ptotal_nonneg. by destruct Ha.
  - apply Forall_cons in Hs as [Hs Hs']. cbn [plus fold_left].
    change (fold_left add b (add a e)) with (plus (add a e) b).
    rewrite IH, add_total, ptotal_cons, join_assoc by auto with clusterd. done.
Qed.

Lemma minus_total n p a b :
  wf_resources a -> wf_resources b -> included b a -> unshared b ->
  join p (ptotal n p (minus a b)) (ptotal n p b) = ptotal n p a.
Proof.
  intros Ha Hb Hi Hs. revert a Ha Hi. induction b as [|e b IH]; intros a Ha Hi.
  - cbn. rewrite join_0_r; [done|]. apply ptotal_nonneg. by destruct Ha.
  - destruct (included_head e b a) as [Hc Hi']; [done..|]. assert (Hb' := Hb).
    apply wf_cons in Hb' as (He & _ & Hb'). apply Forall_cons in Hs as [Hs Hs']. cbn [minus fold_left].
    change (fold_left subtract b (subtract a e)) with (minus (subtract a e) b).
    rewrite <- (subtract_total n p a e), <- (IH Hb' Hs' (subtract a e)) by auto with clusterd.
    rewrite ptotal_cons, <- join_assoc. f_equal. apply join_comm.
Qed.

(** The getters return the totals; [None] stands for a total of nothing. *)
Lemma fold_get {A} (sel : Resource_ -> bool) (val : Resource_ -> A) (zero : A) (op : A -> A -> A) rs acc :
  fold_left (fun total e => if sel e then Some (op (default zero total) (val e)) else total) rs (Some acc)
  = Some (fold_left (fun total e => if sel e then op total (val e) else total) rs acc).
Proof. revert acc. induction rs as [|e rs IH]; intros acc; cbn; [done|]. by case_if. Qed.

Lemma pamount_scalar n e :
  pamount n PScalar e
  = if string_eqb (name (resource e)) n && bool_decide (rtype (resource e) = SCALAR)
    then scalar_of (value (resource e)) else 0.
Proof.
  unfold pamount, rtype. case_if; [|done]. by destruct (value (resource e)).
Qed.

Lemma get_scalar_some n rs acc :
  fold_left (fun total e =>
    if string_eqb (name (resource e)) n && bool_decide (rtype (resource e) = SCALAR)
    then Some (default 0 total + scalar_of (value (resource e))) else total) rs (Some acc)
  = Some (acc + ptotal n PScalar rs).
Proof.
  revert acc. induction rs as [|e rs IH]; intros acc; cbn [fold_left].
  - unfold ptotal. cbn. by rewrite Z.add_0_r.
  - rewrite ptotal_cons, pamount_scalar. cbn [join]. case_if; rewrite IH; cbn [from_option]; unfold id; f_equal; lia.
Qed.

Lemma wf_scalar_positive e :
  wf_ e -> rtype (resource e) = SCALAR -> 0 < scalar_of (value (resource e)).
Proof.
  intros [[_ Hv] _ He] Ht. unfold isEmpty, rtype in *.
  destruct (value (resource e)); cbn in *; try done. apply Z.eqb_neq in He. lia.
Qed.

Lemma get_scalar_total n rs :
  Forall wf_ rs ->
  get_scalar n rs = if ptotal n PScalar rs =? 0 then None else Some (ptotal n PScalar rs).
Proof.
  unfold get_scalar. induction 1 as [|e rs He Hrs IH]; [done|]. cbn [fold_left].
  rewrite ptotal_cons, pamount_scalar. cbn [join].
  destruct (string_eqb _ n && _) eqn:E; [|by rewrite Z.add_0_l].
  rewrite get_scalar_some. cbn [from_option]. unfold id. rewrite Z.add_0_l. breflect.
  assert (H' := wf_scalar_positive e He ltac:(done)).
  assert (H'' := ptotal_nonneg n PScalar rs Hrs). destruct (Z.eqb_spec (scalar_of (value (resource e)) + ptotal n PScalar rs) 0); [lia|done].
Qed.

Lemma pamount_unit n p e : p <> PScalar -> pamount n p e = 0 \/ pamount n p e = 1.
Proof. intros Hp. unfold pamount. case_if; [by apply amount_unit|by left]. Qed.

Lemma ptotal_unit n p rs : p <> PScalar -> ptotal n p rs = 0 \/ ptotal n p rs = 1.
Proof.
  intros Hp. induction rs as [|e rs IH]; [by left|]. rewrite ptotal_cons.
  destruct (pamount_unit n p e Hp), IH, p; cbn; try done; lia.
Qed.

Lemma ptotal_unit_cons n p e rs :
  p <> PScalar -> ptotal n p (e :: rs) = 1 <-> pamount n p e = 1 \/ ptotal n p rs = 1.
Proof.
  intros Hp. rewrite ptotal_cons.
  destruct (pamount_unit n p e Hp), (ptotal_unit n p rs Hp), p; cbn; try done; lia.
Qed.

Definition ranges_of_name (n : string) (e : Resource_) : option (list Range) :=
  if string_eqb (name (resource e)) n then match value (resource e) with VRanges l => Some l | _ => None end
  else None.

Lemma pamount_number n m e :
  pamount n (PNumber m) e = 1 <-> exists l, ranges_of_name n e = Some l /\ covers l m.
Proof.
  unfold pamount, ranges_of_name. case_if; [|naive_solver lia].
  destruct (value (resource e)) as [|l| |]; cbn; try naive_solver lia.
  case_decide; naive_solver lia.
Qed.

Lemma get_ranges_step n e rs total :
  fold_left (fun total e =>
    if string_eqb (name (resource e)) n && bool_decide (rtype (resource e) = RANGES)
    then Some (ranges_plus_assign (default [] total) (ranges_of (value (resource e)))) else total)
    rs (if string_eqb (name (resource e)) n && bool_decide (rtype (resource e) = RANGES)
        then Some (ranges_plus_assign (default [] total) (ranges_of (value (resource e)))) else total)
  = fold_left (fun total e =>
    if string_eqb (name (resource e)) n && bool_decide (rtype (resource e) = RANGES)
    then Some (ranges_plus_assign (default [] total) (ranges_of (value (resource e)))) else total)
    rs (match ranges_of_name n e with
        | Some l => Some (ranges_plus_assign (default [] total) l)
        | None => total end).
Proof.
  f_equal. unfold ranges_of_name, rtype.
  destruct (string_eqb _ n); cbn; [|done]. by destruct (value (resource e)).
Qed.

Definition wf_ranges (l : list Range) : Prop := canonical l /\ Forall below_max l.

Lemma ranges_of_name_wf n e l : wf_ e -> ranges_of_name n e = Some l -> wf_ranges l.
Proof.
  intros [[_ Hv] _ _]. unfold ranges_of_name. case_if; [|done].
  destruct (value (resource e)); try done. by intros [= ->].
Qed.

Lemma wf_ranges_plus a b :
  wf_ranges a -> wf_ranges b ->
  wf_ranges (ranges_plus_assign a b)
  /\ forall m, covers (ranges_plus_assign a b) m <-> covers a m \/ covers b m.
Proof.
  intros [[Wa Ca] Ba] [[Wb Cb] Bb]. rewrite ranges_plus_assign_eq by done.
  split; [split; [by apply ranges_plus_canonical|by apply ranges_plus_below_max]|].
  intros m. by apply ranges_plus_covers.
Qed.

Lemma get_ranges_total n rs :
  Forall wf_ rs ->
  wf_ranges (default [] (get_ranges n rs))
  /\ (forall m, covers (default [] (get_ranges n rs)) m <-> ptotal n (PNumber m) rs = 1).
Proof.
  unfold get_ranges. assert (H0 : wf_ranges (default [] (@None (list Range)))) by repeat constructor.
  assert (H : forall m, covers (default [] (@None (list Range))) m \/ ptotal n (PNumber m) rs = 1
                        <-> ptotal n (PNumber m) rs = 1).
  { intros m. rewrite covers_nil. tauto. }
  intros Hrs. setoid_rewrite <- H. clear H. revert H0. generalize (@None (list Range)).
  induction Hrs as [|e rs He Hrs IH]; intros total Ht; cbn [fold_left].
  - split; [done|]. intros m. unfold ptotal. cbn. intuition lia.
  - rewrite get_ranges_step. setoid_rewrite ptotal_unit_cons; [|done].
    setoid_rewrite pamount_number. destruct (ranges_of_name n e) as [l|] eqn:El.
    + destruct (wf_ranges_plus (default [] total) l) as [Hw Hc]; [done|by eapply ranges_of_name_wf|].
      destruct (IH (Some (ranges_plus_assign (default [] total) l)) Hw) as [? Hm]. split; [done|].
      intros m. rewrite Hm. cbn [from_option]. unfold id. rewrite Hc. naive_solver.
    + destruct (IH total Ht) as [? Hm]. split; [done|]. intros m. rewrite Hm. naive_solver.
Qed.

(** ** Collections that are combined already *)

Lemma add_loop_apart rs e :
  Forall (fun e' => apart e' e) rs -> add_loop rs e = rs ++ [e].
Proof.
  induction 1 as [|e' rs H _ IH]; [done|]. cbn. unfold apart in H. by rewrite H, IH.
Qed.

Lemma add_apart rs e : wf_ e -> Forall (fun e' => apart e' e) rs -> add rs e = rs ++ [e].
Proof. intros He H. unfold add. rewrite wf_isEmpty by done. by apply add_loop_apart. Qed.

Lemma pairwise_app {A} (R : A -> A -> Prop) l1 l2 :
  pairwise R (l1 ++ l2) <-> pairwise R l1 /\ pairwise R l2 /\ Forall (fun x => Forall (R x) l2) l1.
Proof.
  induction l1 as [|x l1 IH]; cbn.
  - split; [by intros|tauto].
  - rewrite Forall_app, Forall_cons, IH. tauto.
Qed.

Lemma fold_add_apart {A} (f : A -> Resource_) (l : list A) rs :
  wf_resources (rs ++ map f l) -> fold_left (fun result x => add result (f x)) l rs = rs ++ map f l.
Proof.
  revert rs. induction l as [|x l IH]; intros rs Hwf; cbn; [by rewrite app_nil_r|].
  destruct Hwf as [Hw Hp]. cbn in Hw, Hp.
  rewrite Forall_app, Forall_cons in Hw. apply pairwise_app in Hp as (Hp1 & [Hx Hp2] & Hp3).
  rewrite add_apart.
  - rewrite IH, <- app_assoc; [done|]. rewrite <- app_assoc. split; cbn.
    + rewrite Forall_app, Forall_cons. tauto.
    + apply pairwise_app. done.
  - tauto.
  - eapply Forall_impl; [done|]. intros e He. by apply Forall_cons in He as [He _].
Qed.

Lemma wf_filter f rs : wf_resources rs -> wf_resources (filter f rs).
Proof.
  unfold filter. induction rs as [|e rs IH]; intros Hrs; cbn; [done|].
  apply wf_cons in Hrs as (He & Ha & Hrs). case_if; [|auto]. apply wf_cons. split_and!; [done| |auto].
  rewrite Forall_forall in *. intros x Hx. apply Ha.
  apply list_elem_of_In, filter_In in Hx as [Hx _]. by apply list_elem_of_In.
Qed.

Lemma filter_measure f rs k p :
  measure rs k p = measure (filter f rs) k p + measure (filter (fun r => negb (f r)) rs) k p.
Proof.
  unfold filter. induction rs as [|e rs IH]; [done|]. cbn.
  destruct (f (resource e)); cbn; rewrite !measure_cons, IH; lia.
Qed.

(** Mapping the elements without touching which ones combine. *)
Definition keeps_keys (f : Resource_ -> Resource_) (rs : Resources) : Prop :=
  Forall (fun e => wf_ (f e)) rs
  /\ pairwise (fun e e' => addable (resource (f e)) (resource (f e'))
                           = addable (resource e) (resource e')) rs.

Lemma pairwise_map {A B} (f : A -> B) (R : B -> B -> Prop) l :
  pairwise R (map f l) <-> pairwise (fun x y => R (f x) (f y)) l.
Proof.
  induction l as [|x l IH]; cbn; [done|]. rewrite IH. f_equiv. rewrite Forall_map. done.
Qed.

Lemma pairwise_impl2 {A} (R S T : A -> A -> Prop) l :
  (forall x y, R x y -> S x y -> T x y) -> pairwise R l -> pairwise S l -> pairwise T l.
Proof.
  intros H. induction l as [|x l IH]; cbn; [done|]. intros [Hr Hr'] [Hs Hs']. split; [|auto].
  rewrite Forall_forall in *. auto.
Qed.

Lemma wf_map f rs : wf_resources rs -> keeps_keys f rs -> wf_resources (map f rs).
Proof.
  intros [_ Ha] [Hw Hk]. split.
  - by apply Forall_map.
  - apply pairwise_map. eapply pairwise_impl2; [|apply Ha|apply Hk]. unfold apart. cbn. congruence.
Qed.

(** ** Pushing and popping reservations *)

Lemma key_with_reservations l l' a b :
  all2 reservation_eqb l l' = all2 reservation_eqb (reservations a) (reservations b) ->
  same_key (with_reservations l a) (with_reservations l' b) = same_key a b.
Proof.
  intros H. unfold same_key, resource_eqb, compareResourceMetadata, attributes_eqb, reserved_eqb, rtype.
  cbn. by rewrite H.
Qed.

Lemma key_with_allocation x x' a b :
  opt_eqb allocation_eqb x x' = opt_eqb allocation_eqb (allocation_info a) (allocation_info b) ->
  same_key (with_allocation x a) (with_allocation x' b) = same_key a b.
Proof.
  intros H. unfold same_key, resource_eqb, compareResourceMetadata, attributes_eqb, reserved_eqb, rtype.
  cbn. by rewrite H.
Qed.

Lemma addable_same a b a' b' :
  wf_metadata a -> wf_metadata a' -> same_key a' b' = same_key a b ->
  shared a' = shared a -> exclusive a' = exclusive a -> addable a' b' = addable a b.
Proof. intros. rewrite !addable_key by done. congruence. Qed.

Lemma all2_snoc {A} (e : A -> A -> bool) x l l' :
  e x x = true -> all2 e (l ++ [x]) (l' ++ [x]) = all2 e l l'.
Proof.
  intros H. revert l'. induction l as [|y l IH]; intros [|z l']; cbn.
  - by rewrite H.
  - by destruct l'; rewrite andb_false_r.
  - by destruct l; rewrite andb_false_r.
  - by rewrite IH.
Qed.

Definition push (reservation : ReservationInfo) (r : Resource) : Resource :=
  with_reservations (reservations r ++ [reservation]) r.

Lemma wf_with_reservations l r :
  Forall wf_reservation l -> wf_resource r -> wf_resource (with_reservations l r).
Proof. intros Hl [[H1 H2] Hv]. split; [by split|done]. Qed.

Lemma wf_map_reservations l e :
  Forall wf_reservation l -> wf_ e -> wf_ (map_resource (with_reservations l) e).
Proof. intros Hl [Hr Hc He]. split; cbn; [by apply wf_with_reservations|done|done]. Qed.

Lemma push_wf reservation e :
  wf_reservation reservation -> wf_ e -> wf_ (map_resource (push reservation) e).
Proof.
  intros Hr He. apply (wf_map_reservations (reservations (resource e) ++ [reservation])); [|done].
  apply Forall_app. split; [|by repeat constructor]. apply wm_reservations. eauto with clusterd.
Qed.

Lemma push_keeps_keys reservation rs :
  wf_reservation reservation -> Forall wf_ rs -> keeps_keys (map_resource (push reservation)) rs.
Proof.
  intros Hr Hrs. split; [eapply Forall_impl; [done|]; intros; by apply push_wf|].
  induction Hrs as [|e rs He Hrs IH]; cbn; [done|]. split; [|done].
  eapply Forall_impl; [done|]. cbn. intros e' He'. apply addable_same; [eauto with clusterd| |..|done|done].
  - apply (push_wf reservation e) in He; [|done]. apply we_resource, wr_metadata in He. done.
  - apply key_with_reservations, all2_snoc. by apply be_refl.
Qed.

Lemma pushReservation_loop_spec reservation rs result rs' :
  pushReservation_loop reservation rs result = Some rs' ->
  rs' = fold_left (fun result e => add result (map_resource (push reservation) e)) rs result.
Proof.
  revert result. induction rs as [|e rs IH]; intros result; cbn; [by intros [= ->]|].
  case_match; [done|]. apply IH.
Qed.

Lemma pushReservation_map reservation rs rs' :
  wf_resources rs -> wf_reservation reservation -> pushReservation reservation rs = Some rs' ->
  rs' = map (map_resource (push reservation)) rs /\ wf_resources rs'.
Proof.
  intros Hrs Hr H%pushReservation_loop_spec.
  assert (Hw : wf_resources (map (map_resource (push reservation)) rs)).
  { apply wf_map; [done|]. apply push_keeps_keys; [done|by destruct Hrs]. }
  rewrite (fold_add_apart _ _ []) in H by done. by subst.
Qed.

Lemma pop_push reservation e : map_resource pop (map_resource (push reservation) e) = e.
Proof.
  destruct e as [[] c]. unfold map_resource, pop, push, with_reservations. cbn. repeat f_equal.
  rewrite length_app. cbn. rewrite Nat.add_sub. by rewrite take_app_length.
Qed.

Lemma popReservation_loop_spec rs result :
  Forall (fun e => reservations (resource e) <> []) rs ->
  popReservation_loop rs result
  = Some (fold_left (fun result e => add result (map_resource pop e)) rs result).
Proof.
  intros H. revert result. induction H as [|e rs He _ IH]; intros result; cbn [popReservation_loop]; [done|].
  destruct (Nat.ltb_spec 0 (length (reservations (resource e)))); [apply IH|].
  destruct (reservations (resource e)); [done|cbn in *; lia].
Qed.

(** Popping undoes pushing: if a reservation can be pushed onto a collection
    then popping the result gives back the very same collection. *)
Theorem push_pop_roundtrip reservation rs rs' :
  wf_resources rs -> wf_reservation reservation -> pushReservation reservation rs = Some rs' ->
  popReservation rs' = Some rs.
Proof.
  intros Hrs Hr H. apply pushReservation_map in H as [-> _]; [|done..].
  assert (E : map (map_resource pop) (map (map_resource (push reservation)) rs) = rs).
  { rewrite map_map. rewrite <- (map_id rs) at 2. apply map_ext, pop_push. }
  unfold popReservation. rewrite popReservation_loop_spec.
  - rewrite (fold_add_apart _ _ []), E; [done|]. by rewrite E.
  - rewrite Forall_map. apply Forall_true. intros e. cbn. by destruct (reservations (resource e)).
Qed.

Definition dynamic_ (role : string) : ReservationInfo := mkReservation (Some DYNAMIC) (Some role) None None.

Lemma push_pop_roundtrip_witness :
  exists rs', pushReservation (dynamic_ "a/b") (of_list [cpus_ 5; mount_ 7]) = Some rs'
    /\ popReservation rs' = Some (of_list [cpus_ 5; mount_ 7]).
Proof.
  eexists. split; [by vm_compute|].
  apply (push_pop_roundtrip (dynamic_ "a/b")); [|by intros ? ?|by vm_compute].
  apply of_list_wf. solve_wf.
Defined.

(** ** Filters and groups *)

Lemma join_sum p x y : 0 <= x -> 0 <= y -> p = PScalar \/ x + y <= 1 -> join p x y = x + y.
Proof. intros ? ? [->|?]; [done|]. destruct p; cbn; lia. Qed.

Lemma measure_bound rs k p :
  wf_resources rs -> wf_resource k -> p = PScalar \/ measure rs k p <= 1.
Proof.
  intros Hrs Hk. destruct (decide (p = PScalar)) as [|Hp]; [by left|right].
  destruct (measure_unit rs k p); try done; lia.
Qed.

(** A filter keeps a well-formed part of the collection, and the part it
    keeps and the part it drops add up to the whole. *)
Theorem filter_partition f rs :
  wf_resources rs ->
  wf_resources (filter f rs)
  /\ included (filter f rs) rs
  /\ same_holdings (plus (filter f rs) (filter (fun r => negb (f r)) rs)) rs.
Proof.
  intros Hrs. assert (H1 := wf_filter f rs Hrs).
  assert (H2 := wf_filter (fun r => negb (f r)) rs Hrs).
  assert (N : forall k p, 0 <= measure (filter f rs) k p
                          /\ 0 <= measure (filter (fun r => negb (f r)) rs) k p).
  { intros k p. split; apply measure_nonneg; [by destruct H1|by destruct H2]. }
  split_and!; [done| |]; intros k p Hk; destruct (N k p); rewrite (filter_measure f rs); [lia|].
  rewrite plus_holds by done. apply join_sum; [done..|]. rewrite <- filter_measure.
  by apply measure_bound.
Qed.

Lemma filter_partition_witness :
  same_holdings (plus (filter isShared (of_list sample)) (filter (fun r => negb (isShared r)) (of_list sample)))
    (of_list sample)
  /\ length (filter isShared (of_list sample)) = 1%nat.
Proof.
  split; [|by vm_compute]. apply filter_partition. apply of_list_wf, sample_wf.
Defined.

Definition group_by (key : Resource -> option string) (rs : Resources) : gmap string Resources :=
  fold_left (fun m e => match key (resource e) with
                        | Some k => group_add m k e
                        | None => m
                        end) rs ∅.

Definition nonempty (rs : Resources) : option Resources := match rs with [] => None | _ => Some rs end.

Lemma nonempty_default rs : default [] (nonempty rs) = rs.
Proof. by destruct rs. Qed.

Lemma filter_snoc f rs e : filter f (rs ++ [e]) = filter f rs ++ (if f (resource e) then [e] else []).
Proof. unfold filter. rewrite List.filter_app. done. Qed.

Lemma group_add_eq m k e : group_add m k e !! k = Some (add (default [] (m !! k)) e).
Proof. apply lookup_insert_eq. Qed.

Lemma group_add_ne m k k' e : k <> k' -> group_add m k e !! k' = m !! k'.
Proof. apply lookup_insert_ne. Qed.

Lemma group_by_lookup key rs k :
  wf_resources rs ->
  group_by key rs !! k = nonempty (filter (fun r => bool_decide (key r = Some k)) rs).
Proof.
  induction rs as [|e rs IH] using rev_ind; intros Hrs; [done|].
  assert (Hrs' := Hrs). destruct Hrs' as [Hw Hp]. rewrite Forall_app, Forall_singleton in Hw.
  apply pairwise_app in Hp as (Hp & _ & He). destruct Hw as [Hw Hwe].
  specialize (IH (Build_wf_resources rs Hw Hp)).
  unfold group_by in *. rewrite fold_left_app, filter_snoc. cbn [fold_left].
  destruct (key (resource e)) as [k'|] eqn:Ek; [|by rewrite IH, bool_decide_eq_false_2, app_nil_r].
  destruct (decide (k' = k)) as [->|Hk].
  - rewrite group_add_eq, IH, nonempty_default, bool_decide_eq_true_2 by done.
    rewrite add_apart; [|done|].
    + by destruct (filter _ rs).
    + apply Forall_forall. intros x Hx.
      apply list_elem_of_In, filter_In in Hx as [Hx _]. apply list_elem_of_In in Hx.
      assert (H := proj1 (Forall_forall _ _) He x Hx). by inversion H.
  - rewrite group_add_ne, IH by done. by rewrite bool_decide_eq_false_2, app_nil_r by congruence.
Qed.

Definition allocation_role (r : Resource) : option string := r.(allocation_info) ≫= id.

Lemma allocations_loop_group rs m :
  allocations_loop rs m
  = if forallb (fun e => bool_decide (is_Some (allocation_role (resource e)))) rs
    then Some (fold_left (fun m e => match allocation_role (resource e) with
                                     | Some k => group_add m k e
                                     | None => m
                                     end) rs m)
    else None.
Proof.
  revert m. induction rs as [|e rs IH]; intros m; [done|].
  assert (E : allocation_role (resource e) = allocation_info (resource e) ≫= id) by done.
  cbn. destruct (allocation_info (resource e)) as [[role|]|]; cbn in E; rewrite E; cbn; by rewrite ?IH.
Qed.

(** Grouping by role is filtering: [reservations()] has for each role the
    resources reserved for exactly that role and no other keys, and
    [allocations()], whose [CHECK]s pass exactly when every resource is
    allocated to a role, the resources allocated to it. *)
Theorem grouping_is_filtering rs role :
  wf_resources rs ->
  reservations_ rs !! role = nonempty (reserved (Some role) rs)
  /\ match allocations rs with
     | Some m => Forall (fun e => is_Some (allocation_role (resource e))) rs
         /\ m !! role = nonempty (filter (fun r => bool_decide (allocation_role r = Some role)) rs)
     | None => ~ Forall (fun e => is_Some (allocation_role (resource e))) rs
     end.
Proof.
  intros Hrs. split.
  - change (reservations_ rs) with (group_by reservationRole rs). rewrite group_by_lookup by done.
    f_equal. unfold reserved, filter. apply List.filter_ext. intros e.
    unfold isReserved, isUnreserved, reservationRole, last_reservation.
    destruct (reservations (resource e)); [done|]. by rewrite (bool_decide_eq_false_2 (_ :: _ = [])).
  - unfold allocations. rewrite allocations_loop_group. case_if.
    + split; [|by apply group_by_lookup]. rewrite forallb_forall in Heqb. apply Forall_forall.
      intros e He. apply list_elem_of_In, Heqb in He. by apply bool_decide_eq_true in He.
    + intros H. apply not_true_iff_false in Heqb. apply Heqb. apply forallb_forall.
      rewrite Forall_forall in H. intros e He. apply bool_decide_eq_true. apply H.
      by apply list_elem_of_In.
Qed.

Lemma grouping_is_filtering_witness :
  reservations_ (of_list sample) !! "a"%string
  = Some [mkResource_ (volume_ "id" 100) (Some 2)].
Proof.
  rewrite (proj1 (grouping_is_filtering _ _ (proj1 (of_list_wf _ sample_wf)))). by vm_compute.
Defined.

(** ** Ignoring reservations *)

Lemma wf_nil : wf_resources [].
Proof. by split. Qed.

#[export] Hint Resolve wf_nil : clusterd.

Lemma fold_add_map {A} (f : A -> Resource_) l rs :
  fold_left (fun result x => add result (f x)) l rs = plus rs (map f l).
Proof. revert rs. induction l as [|x l IH]; intros rs; cbn; [done|]. apply IH. Qed.

Lemma unreserve_eq e : unreserve e = map_resource (with_reservations []) e.
Proof.
  unfold unreserve, isReserved, isUnreserved. destruct e as [[] c]. cbn.
  by destruct reservations.
Qed.

Lemma unreserve_wf e : wf_ e -> wf_ (unreserve e).
Proof. intros He. rewrite unreserve_eq. apply wf_map_reservations; [constructor|done]. Qed.

Lemma pamount_reservations n p l e : pamount n p (map_resource (with_reservations l) e) = pamount n p e.
Proof. done. Qed.

Lemma pamount_unreserve n p e : pamount n p (unreserve e) = pamount n p e.
Proof. by rewrite unreserve_eq. Qed.

Lemma toUnreserved_plus rs : toUnreserved rs = plus [] (map unreserve rs).
Proof. apply fold_add_map. Qed.

Lemma map_unreserve_wf rs : Forall wf_ rs -> Forall wf_ (map unreserve rs).
Proof. intros H. apply Forall_map. eapply Forall_impl; [apply H|]. apply unreserve_wf. Qed.

Lemma toUnreserved_wf rs : Forall wf_ rs -> wf_resources (toUnreserved rs).
Proof.
  intros H. rewrite toUnreserved_plus. apply plus_wf_resources; [auto with clusterd|].
  by apply map_unreserve_wf.
Qed.

Lemma plus_Forall (P : Resource_ -> Prop) a b :
  (forall l r, P l -> P (plus_ l r)) -> Forall P a -> Forall P b -> Forall P (plus a b).
Proof.
  intros HP Ha Hb. revert a Ha. induction Hb as [|e b He _ IH]; intros a Ha; [done|]. apply IH.
  unfold add. case_if; [done|]. destruct (add_cases a e) as [[_ ->]|(e0 & rest & Hp & _ & ->)].
  - by apply Forall_cons.
  - rewrite Hp in Ha. apply Forall_cons in Ha as [? ?]. apply Forall_cons. auto.
Qed.

Lemma plus_reservations l r : reservations (resource (plus_ l r)) = reservations (resource l).
Proof. unfold plus_. by case_if. Qed.

Lemma plus_shared_flag l r : shared (resource (plus_ l r)) = shared (resource l).
Proof. unfold plus_. by case_if. Qed.

Lemma toUnreserved_spec rs :
  wf_resources rs -> unshared rs ->
  wf_resources (toUnreserved rs)
  /\ Forall (fun e => isUnreserved (resource e) = true) (toUnreserved rs)
  /\ forall n p, ptotal n p (toUnreserved rs) = ptotal n p rs.
Proof.
  intros Hrs Hs. split_and!; [apply toUnreserved_wf; by destruct Hrs| |]; rewrite toUnreserved_plus.
  - apply plus_Forall; [|constructor|].
    + intros l r. unfold isUnreserved. by rewrite plus_reservations.
    + apply Forall_map, Forall_true. intros e. by rewrite unreserve_eq.
  - intros n p. rewrite plus_total; [|auto with clusterd| |].
    + rewrite join_comm, join_0_r.
      * clear. induction rs as [|e rs IH]; [done|]. cbn [map].
        by rewrite !ptotal_cons, IH, pamount_unreserve.
      * apply ptotal_nonneg, map_unreserve_wf. by destruct Hrs.
    + apply map_unreserve_wf. by destruct Hrs.
    + apply Forall_map. eapply Forall_impl; [done|]. intros e. by rewrite unreserve_eq.
Qed.

(** [toUnreserved] ignores reservations and nothing else: the result is
    well-formed, nothing in it is reserved, and under every name it has the
    total the collection had. *)
Theorem toUnreserved_total rs :
  wf_resources rs -> unshared rs ->
  wf_resources (toUnreserved rs)
  /\ Forall (fun e => isUnreserved (resource e) = true) (toUnreserved rs)
  /\ forall n p, ptotal n p (toUnreserved rs) = ptotal n p rs.
Proof. apply toUnreserved_spec. Qed.

Definition reserved_cpus_ (role : string) (z : Z) : Resource := push (dynamic_ role) (cpus_ z).

Lemma toUnreserved_total_witness :
  toUnreserved (of_list [cpus_ 1; reserved_cpus_ "a" 2]) = [mkResource_ (cpus_ 3) None]
  /\ ptotal "cpus" PScalar (toUnreserved (of_list [cpus_ 1; reserved_cpus_ "a" 2])) = 3.
Proof.
  split; [by vm_compute|].
  rewrite (proj2 (proj2 (toUnreserved_total (of_list [cpus_ 1; reserved_cpus_ "a" 2])
    ltac:(apply of_list_wf; solve_wf) ltac:(vm_compute; repeat constructor)))). by vm_compute.
Defined.

(** ** Find *)

Lemma included_one e r :
  wf_ e -> wf_ r -> contains [e] [r] = true -> contains_ e r = true.
Proof. intros He Hr. cbn. rewrite orb_false_r. by destruct (contains_ e r). Qed.

Lemma wf_singleton e : wf_ e -> wf_resources [e].
Proof. intros He. apply wf_cons. split_and!; [done|constructor|apply wf_nil]. Qed.

#[export] Hint Resolve wf_singleton : clusterd.

(** A part of what is left of an element, with the reservations of the
    element. *)
Definition relabel (e r : Resource_) : Resource_ :=
  map_resource (with_reservations (reservations (resource e))) r.

Lemma relabel_wf e r : wf_ e -> wf_ r -> wf_ (relabel e r).
Proof.
  intros He Hr. apply wf_map_reservations; [|done]. apply wm_reservations. eauto with clusterd.
Qed.

Lemma relabel_contains e r :
  wf_ e -> wf_ r -> reservations (resource r) = [] ->
  contains_ (unreserve e) r = true -> contains_ e (relabel e r) = true.
Proof.
  intros He Hr Hn. rewrite unreserve_eq, !contains_units; auto using relabel_wf.
  2:{ apply wf_map_reservations; [constructor|done]. }
  intros [Hk Hu]. split; [|done].
  change (same_key (with_reservations [] (resource e)) (resource r) = true) in Hk. rewrite <- Hk.
  rewrite <- (key_with_reservations (reservations (resource e)) (reservations (resource e))
                (with_reservations [] (resource e)) (resource r)).
  - unfold relabel. cbn. by destruct (resource e).
  - cbn. rewrite Hn. apply (be_refl (BoolEquiv := be_list _ _ reservation_equiv)).
    apply wm_reservations. eauto with clusterd.
Qed.

Lemma contains_self rs e : Forall wf_ rs -> e ∈ rs -> _contains rs e = true.
Proof.
  intros Hrs Hin. apply existsb_exists. exists e. split; [by apply list_elem_of_In|].
  rewrite Forall_forall in Hrs. specialize (Hrs e Hin). apply contains_units; [done..|].
  split; [apply be_refl; eauto with clusterd|done].
Qed.

Lemma subtract_Forall (P : Resource_ -> Prop) rs e :
  (forall l r, P l -> P (minus_ l r)) -> wf_ e -> Forall P rs ->
  Forall P (subtract rs e) /\ (length (subtract rs e) <= length rs)%nat.
Proof.
  intros HP He Hrs. destruct (subtract_cases rs e He) as [[_ ->]|(e0 & rest & Hp & _ & Hr)]; [done|].
  rewrite Hp in Hrs. apply Forall_cons in Hrs as [H0 Hrs]. rewrite Hr, Hp.
  case_if; cbn; [auto|]. split; [|done]. apply Forall_cons. auto.
Qed.

(** The resources still looked for: one unreserved resource at most. *)
Definition wanted (e : Resource_) : Prop :=
  shared (resource e) = false /\ reservations (resource e) = [].

Lemma wanted_minus l r : wanted l -> wanted (minus_ l r).
Proof. unfold minus_. by case_if. Qed.

Record find_inv (rs : Resources) (amounts : string -> point -> Z) (found total remaining : Resources) : Prop := {
  fi_found : wf_resources found;
  fi_total : wf_resources total;
  fi_remaining : wf_resources remaining;
  fi_wanted : Forall wanted remaining;
  fi_one : (length remaining <= 1)%nat;
  fi_amounts n p : join p (ptotal n p found) (ptotal n p remaining) = amounts n p;
  fi_holds k p : wf_resource k -> measure found k p + measure total k p = measure rs k p;
}.

Definition find_ok (rs : Resources) (amounts : string -> point -> Z) (found : Resources) : Prop :=
  wf_resources found /\ included found rs /\ forall n p, ptotal n p found = amounts n p.

Lemma unreserved_one e : wf_ e -> toUnreserved (add [] e) = [unreserve e].
Proof.
  intros He. rewrite add_apart by (done || constructor). cbn.
  rewrite add_apart; [done|by apply unreserve_wf|constructor].
Qed.

Section FindInvariant.
Context (rs : Resources) (amounts : string -> point -> Z) (found total remaining : Resources).
Hypothesis Hrs : wf_resources rs.
Hypothesis Hinv : find_inv rs amounts found total remaining.

Lemma find_nothing : remaining = [] -> find_ok rs amounts found.
Proof.
  intros E. destruct Hinv as [Hf Ht _ _ _ Ha Hh]. split_and!; [done| |].
  - intros k p Hk. specialize (Hh k p Hk).
    assert (Hn := measure_nonneg total k p (wr_elements _ Ht)). lia.
  - intros n p. rewrite <- Ha, E. symmetry. apply join_0_r. apply ptotal_nonneg. by destruct Hf.
Qed.

Lemma find_rest e r :
  e ∈ total -> remaining = [r] -> contains_ (unreserve e) r = true ->
  find_ok rs amounts (add found (relabel e r)).
Proof.
  intros Hin E Hc. destruct Hinv as [Hf Ht Hr Hw _ Ha Hh]. rewrite E in *.
  apply wf_cons in Hr as (Hr & _ & _). apply Forall_singleton in Hw as [Hs Hn].
  assert (He : wf_ e). { destruct Ht as [Ht _]. rewrite Forall_forall in Ht. by apply Ht. }
  assert (Hrl := relabel_wf e r He Hr).
  split_and!; [by apply add_wf| |].
  - intros k p Hk. rewrite add_measure by done.
    assert (Hle : weight k p (relabel e r) <= measure total k p).
    { apply contains_measure; [done..|]. apply existsb_exists. exists e.
      split; [by apply list_elem_of_In|by apply relabel_contains]. }
    specialize (Hh k p Hk). assert (H1 := weight_nonneg k p _ Hrl).
    assert (H2 := measure_nonneg found k p (wr_elements _ Hf)). destruct p; cbn; lia.
  - intros n p. rewrite add_total by eauto with clusterd. rewrite <- Ha. f_equal.
    rewrite ptotal_cons. unfold relabel. rewrite pamount_reservations. symmetry. apply join_0_r.
    by apply pamount_nonneg.
Qed.

Lemma find_part e r :
  e ∈ total -> remaining = [r] -> contains_ r (unreserve e) = true ->
  find_inv rs amounts (add found e) (subtract total e) (subtract remaining (unreserve e)).
Proof.
  intros Hin E Hc. destruct Hinv as [Hf Ht Hr Hw Hl Ha Hh].
  assert (He : wf_ e). { destruct Ht as [H _]. rewrite Forall_forall in H. by apply H. }
  assert (Hu := unreserve_wf e He).
  assert (Hrc : _contains remaining (unreserve e) = true). { rewrite E. cbn. by rewrite Hc. }
  assert (Hs : shared (resource e) = false).
  { rewrite E in Hw, Hr. apply Forall_singleton in Hw as [Hw _]. apply wf_cons in Hr as (Hr & _ & _).
    apply contains_units in Hc as [Hk _]; [|done..]. apply same_key_shared in Hk.
    rewrite Hw, unreserve_eq in Hk. by rewrite Hk. }
  destruct (subtract_Forall wanted remaining (unreserve e)) as [Hw' Hl']; [apply wanted_minus|done..|].
  split; [by apply add_wf|by apply subtract_wf|by apply subtract_wf|done|lia|..].
  - intros n p. rewrite add_total by eauto with clusterd. rewrite <- Ha.
    rewrite <- (subtract_total n p remaining (unreserve e)); [|done..|].
    + rewrite pamount_unreserve, <- join_assoc. f_equal. apply join_comm.
    + apply last_copy_unshared. rewrite unreserve_eq. done.
  - intros k p Hk. assert (Hce : _contains total e = true) by (apply contains_self; [by destruct Ht|done]).
    rewrite add_measure, subtract_measure by done.
    rewrite join_sum; [specialize (Hh k p Hk); lia| | |].
    + apply measure_nonneg. by destruct Hf.
    + by apply weight_nonneg.
    + destruct (measure_bound rs k p Hrs Hk) as [|Hb]; [by left|right]. specialize (Hh k p Hk).
      assert (Hle : weight k p e <= measure total k p).
      { by apply contains_measure. }
      lia.
Qed.
End FindInvariant.

Lemma find_loop_spec rs amounts candidates found total remaining :
  wf_resources rs -> find_inv rs amounts found total remaining -> Forall (fun e => e ∈ total) candidates ->
  match find_loop candidates found total remaining with
  | Found result => find_ok rs amounts result
  | Searching found' total' remaining' => find_inv rs amounts found' total' remaining'
  end.
Proof.
  intros Hrs Hinv Hc. induction Hc as [|e candidates He _ IH]; cbn [find_loop]; [done|].
  assert (Hwe : wf_ e).
  { destruct (fi_total _ _ _ _ _ Hinv) as [H _]. rewrite Forall_forall in H. by apply H. }
  assert (Hu := unreserve_wf e Hwe).
  rewrite unreserved_one by done. destruct remaining as [|r [|]] eqn:Er.
  - cbn. by eapply find_nothing.
  - assert (Hr := proj1 (proj1 (wf_cons _ _) (fi_remaining _ _ _ _ _ Hinv))).
    destruct (contains [unreserve e] [r]) eqn:E1; cbn [to_list map fold_left].
    + apply included_one in E1; [|done..].
      replace (to_Resource_ _) with (relabel e r); [by eapply find_rest|].
      assert (Hw := fi_wanted _ _ _ _ _ Hinv). apply Forall_singleton in Hw as [Hs _].
      unfold relabel, map_resource, to_Resource_. cbn. by rewrite Hs, unshared_count.
    + destruct (contains [r] [unreserve e]) eqn:E2; [|done].
      apply included_one in E2; [|done..]. cbn [minus fold_left]. by eapply find_part.
  - apply fi_one in Hinv. cbn in Hinv. lia.
Qed.

Lemma find_predicates_spec rs amounts predicates found total remaining result :
  wf_resources rs -> find_inv rs amounts found total remaining ->
  find_predicates predicates found total remaining = Some result -> find_ok rs amounts result.
Proof.
  intros Hrs. revert found total remaining.
  induction predicates as [|f predicates IH]; intros found total remaining Hinv; cbn [find_predicates]; [done|].
  assert (H := find_loop_spec rs amounts (filter f total) found total remaining Hrs Hinv).
  destruct (find_loop _ _ _ _) as [r|found' total' remaining'].
  - intros [= <-]. apply H. apply Forall_forall. intros e Hin.
    apply list_elem_of_In, filter_In in Hin as [Hin _]. by apply list_elem_of_In.
  - apply IH, H. apply Forall_forall. intros e Hin.
    apply list_elem_of_In, filter_In in Hin as [Hin _]. by apply list_elem_of_In.
Qed.

Lemma of_resource_cases r :
  wf_resource r -> of_resource r = [] \/ (of_resource r = [to_Resource_ r] /\ wf_ (to_Resource_ r)).
Proof.
  intros Hr. unfold of_resource, plus_resource, plus_resource_. case_match; [by left|].
  unfold add. destruct (isEmpty_ (to_Resource_ r)) eqn:E; [by left|right]. split; [done|].
  apply to_Resource_wf; [done|]. unfold isEmpty_ in E. by case_match.
Qed.

(** What [find] returns for a target can be taken: it is contained in the
    collection, and it has under every name the amount of the target, whatever
    reservations it is made of. *)
Theorem find_sound rs target result :
  wf_resources rs -> wf_resource target -> shared target = false ->
  find_resource rs target = Some result ->
  wf_resources result /\ included result rs
  /\ forall n p, ptotal n p result = ptotal n p (of_resource target).
Proof.
  intros Hrs Ht Hs H. apply (find_predicates_spec rs (fun n p => ptotal n p (of_resource target))) in H; [done..|].
  assert (Ho := of_resource_cases target Ht).
  assert (Hw : wf_resources (of_resource target) /\ unshared (of_resource target)
               /\ (length (of_resource target) <= 1)%nat).
  { destruct Ho as [->|[-> He]]; split_and!; auto with clusterd; try apply wf_nil; by repeat constructor. }
  destruct Hw as (Hw & Hu & Hl). destruct (toUnreserved_spec _ Hw Hu) as (Htw & Htu & Hta).
  split; [apply wf_nil|done|done| | | |done].
  - destruct Ho as [->|[-> He]]; [constructor|]. cbn.
    rewrite add_apart by (try apply unreserve_wf; done || constructor).
    rewrite unreserve_eq. by repeat constructor.
  - destruct Ho as [->|[-> He]]; [cbn; lia|]. cbn.
    rewrite add_apart by (try apply unreserve_wf; done || constructor). cbn. lia.
  - intros n p. rewrite Hta, join_comm. apply join_0_r, ptotal_nonneg. by destruct Hw.
Qed.

Definition shared_pool : Resources := of_list [reserved_cpus_ "a" 1000; cpus_ 2000].

Lemma find_sound_witness :
  exists result, find_resource shared_pool (reserved_cpus_ "a" 2500) = Some result
    /\ included result shared_pool /\ ptotal "cpus" PScalar result = 2500.
Proof.
  eexists. split; [by vm_compute|].
  destruct (find_sound shared_pool (reserved_cpus_ "a" 2500)
    [mkResource_ (reserved_cpus_ "a" 1000) None; mkResource_ (cpus_ 1500) None]) as (_ & H & Ht);
    [apply of_list_wf; solve_wf|solve_wf|done|by vm_compute|].
  split; [exact H|]. rewrite Ht. by vm_compute.
Defined.

(** [find] takes at most one piece per preference, so it can miss a target
    that the collection covers; and for several targets it looks each up in
    the whole collection, so together they can ask for more than there is. *)
Theorem find_limits :
  find_resource (of_list [reserved_cpus_ "a" 1000; reserved_cpus_ "b" 1000]) (cpus_ 2000) = None
  /\ find (of_list [cpus_ 1000]) (of_list [reserved_cpus_ "a" 1000; reserved_cpus_ "b" 1000])
     = Some (of_list [cpus_ 2000]).
Proof. by vm_compute. Qed.

(** ** Allocating *)

Definition unallocated (rs : Resources) : Prop :=
  Forall (fun e => allocation_info (resource e) = None) rs.

Lemma with_allocation_wf a e : wf_ e -> wf_ (map_resource (with_allocation a) e).
Proof. intros [[[H1 H2] Hv] Hc He]. split; cbn; [|done|done]. split; [by split|done]. Qed.

Lemma allocate_keeps_keys role rs :
  Forall wf_ rs -> unallocated rs -> keeps_keys (map_resource (with_allocation (Some (Some role)))) rs.
Proof.
  intros Hw Hu. split; [eapply Forall_impl; [apply Hw|]; intros; by apply with_allocation_wf|].
  induction Hw as [|e rs He Hrs IH]; cbn; [done|]. apply Forall_cons in Hu as [Hu Hu'].
  split; [|auto]. rewrite Forall_forall in *. intros e' Hin. specialize (Hu' e' Hin).
  apply addable_same; [eauto with clusterd| |..|done|done].
  - apply (with_allocation_wf (Some (Some role)) e) in He. apply we_resource, wr_metadata in He. done.
  - apply key_with_allocation. rewrite Hu, Hu'. cbn. unfold string_eqb, dec_eqb.
    by rewrite bool_decide_eq_true_2.
Qed.

(** Allocating resources that are not allocated keeps the collection
    well-formed, puts all of it into one group of [allocations()], and is undone
    by [unallocate]. *)
Theorem allocate_roundtrip role rs :
  wf_resources rs -> unallocated rs -> rs <> [] ->
  wf_resources (allocate role rs)
  /\ unallocate (allocate role rs) = rs
  /\ exists m, allocations (allocate role rs) = Some m /\ m !! role = Some (allocate role rs).
Proof.
  intros Hrs Hu Hne. assert (Hwf : wf_resources (allocate role rs)).
  { apply wf_map; [done|]. apply allocate_keeps_keys; [by destruct Hrs|done]. }
  assert (Hr : forall e, e ∈ allocate role rs -> allocation_role (resource e) = Some role).
  { intros e Hin. apply list_elem_of_fmap in Hin as (e' & -> & _). done. }
  split_and!; [done| |].
  - unfold allocate, unallocate. rewrite map_map. rewrite <- (map_id rs) at 2. apply map_ext_in.
    intros e Hin%list_elem_of_In. unfold unallocated in Hu. rewrite Forall_forall in Hu.
    specialize (Hu e Hin). destruct e as [[] c]. cbn in *. by subst.
  - unfold allocations. rewrite allocations_loop_group.
    replace (forallb _ (allocate role rs)) with true.
    + eexists. split; [done|]. fold (group_by allocation_role (allocate role rs)).
      rewrite group_by_lookup by done. unfold filter. rewrite filter_all.
      * unfold allocate. by destruct rs.
      * apply Forall_forall. intros e Hin. rewrite (Hr e Hin). by apply bool_decide_eq_true.
    + symmetry. apply forallb_forall. intros e Hin%list_elem_of_In. by rewrite (Hr e Hin).
Qed.

Lemma allocate_roundtrip_witness :
  unallocate (allocate "role" (of_list sample)) = of_list sample.
Proof.
  apply allocate_roundtrip; [apply of_list_wf, sample_wf|vm_compute; by repeat constructor|by vm_compute].
Defined.

(** Without that condition allocation leaves elements that could be
    combined: resources of two allocations become one kind but stay two
    elements. *)
Theorem allocate_leaves_uncombined :
  let rs := allocate "c" (plus (allocate "a" (of_list [cpus_ 1])) (allocate "b" (of_list [cpus_ 2]))) in
  length rs = 2%nat /\ ~ pairwise apart rs.
Proof.
  split; [by vm_compute|]. vm_compute. intros [H _]. inversion H. done.
Qed.
