(* ===== verification/Conversions.v ===== *)
(** * Resource conversions

    [src/src/common/resources_utils.cpp] and the application of offer operations
    of [src/src/common/resources.cpp]: what an operation consumes and produces,
    checkpointed resources, the format conversions and shrinking. *)

From stdpp Require Import base gmap strings list.
From S2P Require Import Prelude Strings Roles Ranges Values Resource Resources ResourceOps.
Local Open Scope Z_scope.

(** ** Operations

    [Offer::Operation], over the wire format or the internal one.  A message
    field that may be missing is an option. *)

Inductive Operation (R : Type) :=
  | UNKNOWN
  | LAUNCH (tasks : option (list (list R * option (list R))))
  | LAUNCH_GROUP (group : option (option (list R) * list (list R * option (list R))))
  | RESERVE (reserve : option (list R * list R))
  | UNRESERVE (resources : option (list R))
  | CREATE (volumes : option (list R))
  | DESTROY (volumes : option (list R))
  | GROW_VOLUME (grow : option (R * R))
  | SHRINK_VOLUME (shrink : option (R * Z))
  | CREATE_DISK (source : option R)
  | DESTROY_DISK (source : option R).
Arguments UNKNOWN {R}.
Arguments LAUNCH {R} tasks.
Arguments LAUNCH_GROUP {R} group.
Arguments RESERVE {R} reserve.
Arguments UNRESERVE {R} resources.
Arguments CREATE {R} volumes.
Arguments DESTROY {R} volumes.
Arguments GROW_VOLUME {R} grow.
Arguments SHRINK_VOLUME {R} shrink.
Arguments CREATE_DISK {R} source.
Arguments DESTROY_DISK {R} source.

Inductive conversion_error :=
  | UnknownOperation
  | NotSupported
  | NotSupportedForProvider
  | DoesNotContain
  | AdditionalCopies
  | UnexpectedCheckpointed
  | IncompatibleAgent
  | CheckFailed.

Record ResourceConversion := mkConversion {
  consumed : Resources;
  converted : Resources;
  postValidation : option (Resources -> option conversion_error);
}.

(** Strip persistence and volume from the disk info, and sharing. *)
Definition with_disk (d : option DiskInfo) (s : bool) (r : Resource) : Resource :=
  mkResource (name r) (value r) (allocation_info r) (reservations r) d (revocable r) s (provider_id r).

Definition strip_disk (r : Resource) : option DiskInfo :=
  match disk r with
  | Some d =>
      match disk_source d with
      | Some s => Some (mkDiskInfo None None (Some s))
      | None => None
      end
  | None => None
  end.

Definition strip (r : Resource) : Resource := with_disk (strip_disk r) false r.

(** [*r.mutable_scalar() = z]: next to a value of another type this makes an
    invalid resource, which a collection ignores. *)
Definition of_scalar (z : Z) (r : Resource) : Resources :=
  match value r with
  | VScalar _ => of_resource (with_value (VScalar z) r)
  | _ => []
  end.

(** An unset message field reads as a default instance. *)
Definition default_resource : Resource :=
  mkResource EmptyString (VScalar 0) None [] None false false None.

Definition getResourceConversions (operation : Operation Resource)
  : result conversion_error (list ResourceConversion) :=
  match operation with
  | UNKNOWN => Err UnknownOperation
  | LAUNCH _ | LAUNCH_GROUP _ | CREATE_DISK _ | DESTROY_DISK _ => Err NotSupported
  | RESERVE reserve =>
      let '(resources, source) := default ([], []) reserve in
      let reserved := of_list resources in
      if (0 <? length source)%nat then Ok [mkConversion (of_list source) reserved None]
      else match popReservation reserved with
           | Some consumed => Ok [mkConversion consumed reserved None]
           | None => Err CheckFailed
           end
  | UNRESERVE resources =>
      foldr (fun r acc =>
        let? conversions := acc in
        match popReservation (of_resource r) with
        | Some converted => Ok (mkConversion (of_resource r) converted None :: conversions)
        | None => Err CheckFailed
        end) (Ok []) (default [] resources)
  | CREATE volumes =>
      Ok (map (fun volume => mkConversion (of_resource (strip volume)) (of_resource volume) None)
            (default [] volumes))
  | DESTROY volumes =>
      Ok (map (fun volume =>
                 mkConversion (of_resource volume) (of_resource (strip volume))
                   (Some (fun resources =>
                      if contains_resource resources volume then Some AdditionalCopies else None)))
            (default [] volumes))
  | GROW_VOLUME grow =>
      let '(volume, addition) := default (default_resource, default_resource) grow in
      if hasResourceProvider volume then Err NotSupportedForProvider
      else
        Ok [mkConversion (plus_resource (of_resource volume) addition)
              (of_scalar (scalar_of (value volume) + scalar_of (value addition)) volume) None]
  | SHRINK_VOLUME shrink =>
      let '(volume, subtract) := default (default_resource, 0) shrink in
      if hasResourceProvider volume then Err NotSupportedForProvider
      else
        let freed := of_scalar subtract (strip volume) in
        let shrunk := of_scalar (scalar_of (value volume) - subtract) volume in
        Ok [mkConversion (of_resource volume) (plus shrunk freed) None]
  end.

(** [ResourceConversion::apply]. *)
Definition apply_conversion (rs : Resources) (c : ResourceConversion) : result conversion_error Resources :=
  if negb (contains rs (consumed c)) then Err DoesNotContain
  else
    let result := plus (minus rs (consumed c)) (converted c) in
    match postValidation c with
    | Some validate =>
        match validate result with Some e => Err e | None => Ok result end
    | None => Ok result
    end.

Definition apply_conversions (rs : Resources) (l : list ResourceConversion)
  : result conversion_error Resources :=
  fold_left (fun acc c => let? rs := acc in apply_conversion rs c) l (Ok rs).

(** The sanity checks that follow. *)
Definition ports_eqb (a b : option (list Range)) : bool := opt_eqb ranges_eqb a b.

Definition sane (before after : Resources) : bool :=
  bool_decide (cpus after = cpus before) && bool_decide (gpus after = gpus before)
  && bool_decide (mem after = mem before) && bool_decide (disk_ after = disk_ before)
  && ports_eqb (ports after) (ports before).

(** [Resources::apply(Offer::Operation)]. *)
Definition apply (rs : Resources) (operation : Operation Resource) : result conversion_error Resources :=
  let? conversions := getResourceConversions operation in
  let? result := apply_conversions rs conversions in
  if sane rs result then Ok result else Err CheckFailed.

(** ** Checkpointed resources *)

Definition needCheckpointing (r : Resource) : bool :=
  negb (hasResourceProvider r) && (isDynamicallyReserved r || isPersistentVolume r).

(** The agent's own resources below a checkpointed one. *)
Definition agent_resource (r : Resource) : Resource :=
  let kept :=
    if isDynamicallyReserved r then
      match reservations r with
      | reservation :: _ => if bool_decide (rv_type_ reservation = STATIC) then [reservation] else []
      | [] => []
      end
    else reservations r in
  with_reservations kept (with_disk (if isPersistentVolume r then strip_disk r else disk r) false r).

Fixpoint applyCheckpointed_loop (total : Resources) (checkpointed : list Resource)
  : result conversion_error Resources :=
  match checkpointed with
  | [] => Ok total
  | r :: checkpointed' =>
      if negb (needCheckpointing r) then Err UnexpectedCheckpointed
      else
        let stripped := agent_resource r in
        if negb (contains_resource total stripped) then Err IncompatibleAgent
        else applyCheckpointed_loop (plus_resource (minus_resource total stripped) r) checkpointed'
  end.

Definition applyCheckpointedResources (rs checkpointed : Resources) : result conversion_error Resources :=
  applyCheckpointed_loop rs (to_list checkpointed).

(** ** Resource providers *)

Inductive provider_error := UnexpectedLaunch | UnexpectedLaunchGroup | NoResources | UnknownOfferOperation | ManyProviders.

Definition first_provider (l : option (list Resource)) : result provider_error (option string) :=
  match default [] l with
  | [] => Err NoResources
  | r :: _ => Ok (provider_id r)
  end.

Definition getResourceProviderId (operation : Operation Resource) : result provider_error (option string) :=
  match operation with
  | LAUNCH _ => Err UnexpectedLaunch
  | LAUNCH_GROUP _ => Err UnexpectedLaunchGroup
  | RESERVE reserve => first_provider (fst <$> reserve)
  | UNRESERVE resources => first_provider resources
  | CREATE volumes => first_provider volumes
  | DESTROY volumes => first_provider volumes
  | GROW_VOLUME grow => Ok (provider_id (default default_resource (fst <$> grow)))
  | SHRINK_VOLUME shrink => Ok (provider_id (default default_resource (fst <$> shrink)))
  | CREATE_DISK source => Ok (provider_id (default default_resource source))
  | DESTROY_DISK source => Ok (provider_id (default default_resource source))
  | UNKNOWN => Err UnknownOfferOperation
  end.

Definition getResourcesProviderId (rs : Resources) : result provider_error (option string) :=
  match rs with
  | [] => Err NoResources
  | e :: _ =>
      if forallb (fun e' => bool_decide (provider_id (resource e') = provider_id (resource e))) rs
      then Ok (provider_id (resource e)) else Err ManyProviders
  end.

(** ** Totals decide the sanity checks *)

Lemma wf_ranges_covers l : canonical l -> l <> [] -> exists m, covers l m.
Proof.
  destruct l as [|r l]; [done|]. intros [Hw _] _. apply Forall_cons in Hw as [Hw _].
  exists (rbegin r). apply covers_cons. left. unfold in_range, wf_range in *. lia.
Qed.

Lemma get_ranges_absent n rs :
  Forall (fun e => ranges_of_name n e = None) rs -> get_ranges n rs = None.
Proof.
  unfold get_ranges. induction 1 as [|e rs He _ IH]; [done|]. cbn [fold_left].
  by rewrite get_ranges_step, He.
Qed.

Lemma ranges_of_name_covers n e l :
  wf_ e -> ranges_of_name n e = Some l -> exists m, pamount n (PNumber m) e = 1.
Proof.
  intros He Hl. assert (Hw := ranges_of_name_wf n e l He Hl).
  destruct (wf_ranges_covers l) as [m Hm]; [apply Hw| |exists m; apply pamount_number; eauto].
  intros ->. destruct He as [_ _ He]. unfold ranges_of_name, isEmpty in *.
  destruct (string_eqb _ n); [|done]. destruct (value (resource e)); try done. by injection Hl as ->.
Qed.

Lemma get_ranges_none n rs :
  Forall wf_ rs -> get_ranges n rs = None <-> forall m, ptotal n (PNumber m) rs <> 1.
Proof.
  intros Hrs. split.
  - intros H m Hm. apply (proj2 (get_ranges_total n rs Hrs)) in Hm. rewrite H in Hm.
    by apply covers_nil in Hm.
  - intros H. apply get_ranges_absent. induction Hrs as [|e rs He Hrs IH]; constructor.
    + destruct (ranges_of_name n e) as [l|] eqn:E; [|done].
      destruct (ranges_of_name_covers n e l He E) as [m Hm].
      exfalso. apply (H m), ptotal_unit_cons; auto.
    + apply IH. intros m Hm. apply (H m), ptotal_unit_cons; auto.
Qed.

Definition same_totals (a b : Resources) : Prop := forall n p, ptotal n p a = ptotal n p b.

#[export] Instance same_totals_equivalence : Equivalence same_totals.
Proof.
  split; [done| |].
  - intros a b H n p. by rewrite H.
  - intros a b c H1 H2 n p. by rewrite H1, H2.
Qed.

Lemma get_scalar_same n a b :
  wf_resources a -> wf_resources b -> same_totals a b -> get_scalar n a = get_scalar n b.
Proof. intros [Ha _] [Hb _] H. rewrite !get_scalar_total, H by done. done. Qed.

Lemma get_ranges_same n a b :
  wf_resources a -> wf_resources b -> same_totals a b ->
  ports_eqb (get_ranges n a) (get_ranges n b) = true.
Proof.
  intros [Ha _] [Hb _] H. assert (Na := get_ranges_none n a Ha). assert (Nb := get_ranges_none n b Hb).
  destruct (get_ranges_total n a Ha) as [[[Wa _] Ma] Ca].
  destruct (get_ranges_total n b Hb) as [[[Wb _] Mb] Cb].
  destruct (get_ranges n a) as [l|], (get_ranges n b) as [l'|]; cbn in *.
  - apply ranges_eqb_spec; [done..|]. intros m. by rewrite Ca, Cb, H.
  - assert (@Some (list Range) l = None); [|done]. apply Na. intros m. rewrite H. by apply Nb.
  - assert (@Some (list Range) l' = None); [|done]. apply Nb. intros m. rewrite <- H. by apply Na.
  - done.
Qed.

Lemma sane_same a b : wf_resources a -> wf_resources b -> same_totals a b -> sane a b = true.
Proof.
  intros Ha Hb H. unfold sane, cpus, gpus, mem, disk_, ports. rewrite !(get_scalar_same _ b a); try done.
  rewrite !bool_decide_eq_true_2 by done. by apply get_ranges_same.
Qed.

(** ** Conversions conserve totals *)

Lemma convert_total rs c d :
  wf_resources rs -> wf_resources c -> Forall wf_ d -> no_twin_disks c -> unshared c -> unshared d ->
  same_totals d c -> contains rs c = true ->
  wf_resources (plus (minus rs c) d) /\ same_totals (plus (minus rs c) d) rs.
Proof.
  intros Hrs Hc Hd Ht Uc Ud Hs Hcont. apply resources_contains_spec in Hcont; [|done..].
  assert (Hm := minus_wf_resources rs c Hrs (wr_elements _ Hc)).
  split; [by apply plus_wf_resources|]. intros n p.
  rewrite plus_total, Hs by done. by apply minus_total.
Qed.

Lemma fresh_measure rs e :
  wf_resources rs -> wf_ e -> measure rs (resource e) PScalar = 0 -> fresh rs e.
Proof.
  intros Hrs He Hm Hs. destruct Hrs as [Hrs _]. apply Forall_forall. intros e' Hin.
  apply not_true_iff_false. intros Hk. apply elem_of_Permutation in Hin as [rest Hp].
  rewrite Hp in Hrs, Hm. apply Forall_cons in Hrs as [He' Hrs].
  rewrite measure_cons in Hm. unfold weight in Hm. rewrite same_key_sym, Hk in Hm by eauto with clusterd.
  assert (Hn := measure_nonneg rest (resource e) PScalar Hrs).
  apply same_key_shared in Hk. destruct He' as [_ Hc _]. unfold units, whole in Hm.
  rewrite Hk, Hs in *. cbn in *. destruct (sharedCount e'); cbn in *; [lia|done].
Qed.

(** One resource for another of the same amount. *)
Record exchange (rs : Resources) (a b : Resource) : Prop := {
  ex_consumed : wf_resource a;
  ex_converted : wf_resource b;
  ex_valid : resource_validate a = None <-> resource_validate b = None;
  ex_name : name a = name b;
  ex_value : value a = value b;
  ex_last : shared a = true -> measure rs a PScalar = 1;
  ex_fresh : shared b = true -> shared a = false /\ measure rs b PScalar = 0;
}.

Lemma validate_to_Resource_ r : validate_ (to_Resource_ r) = resource_validate r.
Proof. unfold validate_, is_shared_, count_. cbn. by destruct (shared r). Qed.

Lemma isEmpty_to_Resource_ r : isEmpty_ (to_Resource_ r) = isEmpty r.
Proof. unfold isEmpty_, is_shared_, count_. cbn. by destruct (shared r). Qed.

Lemma of_resource_eq r :
  of_resource r = match resource_validate r with
                  | None => if isEmpty r then [] else [to_Resource_ r]
                  | Some _ => []
                  end.
Proof.
  unfold of_resource, plus_resource, plus_resource_. rewrite validate_to_Resource_.
  case_match; [done|]. unfold add. by rewrite isEmpty_to_Resource_.
Qed.

Lemma exchange_total rs a b :
  wf_resources rs -> exchange rs a b -> contains rs (of_resource a) = true ->
  wf_resources (plus (minus rs (of_resource a)) (of_resource b))
  /\ same_totals (plus (minus rs (of_resource a)) (of_resource b)) rs.
Proof.
  intros Hrs [Wa Wb Hv Hn Hval Hl Hf] Hc. rewrite !of_resource_eq in *.
  assert (Hb : isEmpty b = isEmpty a) by (unfold isEmpty; by rewrite Hval). rewrite Hb.
  destruct (resource_validate a), (resource_validate b); try (by destruct Hv as [H1 H2];
    (discriminate (H1 eq_refl) || discriminate (H2 eq_refl) || done)).
  destruct (isEmpty a) eqn:Ea; [done|].
  assert (Hea := to_Resource_wf a Wa Ea). assert (Heb := to_Resource_wf b Wb Hb).
  cbn in Hc. destruct (_contains rs (to_Resource_ a)) eqn:Hca; [|done]. cbn [minus plus fold_left].
  assert (Hsub := subtract_wf rs _ Hrs Hea). split; [by apply add_wf|]. intros n p.
  rewrite add_total; [|done..|].
  - replace (pamount n p (to_Resource_ b)) with (pamount n p (to_Resource_ a)).
    + apply subtract_total; [done..|]. intros Hs. cbn in *. unfold count_. cbn. rewrite Hs. auto.
    + unfold pamount. cbn. by rewrite Hn, Hval.
  - destruct (shared b) eqn:Sb; [|by apply fresh_unshared]. destruct (Hf eq_refl) as [Sa Hm].
    apply fresh_measure; [done..|]. rewrite subtract_measure by done. cbn. rewrite Hm. unfold weight.
    destruct (same_key b _) eqn:Hk; [|done]. apply same_key_shared in Hk. cbn in Hk. congruence.
Qed.

Lemma strip_wf r : wf_resource r -> wf_resource (strip r).
Proof.
  intros [[Hr Hd] Hv]. split; [split; [done|]|done]. unfold strip, with_disk, strip_disk. cbn.
  destruct (disk r) as [d|]; [|done]. specialize (Hd d eq_refl). intros d'.
  destruct (disk_source d) as [s|] eqn:Es; [|done]. intros [= <-] s' [= <-]. by apply Hd.
Qed.

Lemma strip_valid r :
  wf_value (value r) -> resource_validate r = None -> resource_validate (strip r) = None.
Proof.
  intros Hv. unfold resource_validate, validate_message. cbn [wire w_name].
  change (name (strip r)) with (name r). case_if; [done|]. cbn [first_error].
  rewrite (validate_value_wf r), (validate_value_wf (strip r)) by done.
  change (validate_reservations (wire (strip r))) with (validate_reservations (wire r)).
  destruct (validate_disk (wire r)) eqn:Ed; [done|].
  replace (validate_disk (wire (strip r))) with (@None resource_error).
  - by destruct (validate_reservations (wire r)).
  - symmetry. revert Ed. unfold validate_disk. cbn. unfold strip_disk.
    destruct (disk r) as [d|]; [|done]. case_if; [done|]. by destruct (disk_source d).
Qed.

Lemma with_value_valid z z' r :
  value r = VScalar z -> 0 <= z -> 0 <= z' ->
  resource_validate r = None -> resource_validate (with_value (VScalar z') r) = None.
Proof. intros E Hz Hz'. apply validate_with_value; [done|]. by rewrite E. Qed.

(** ** Conversions one after another *)

Lemma apply_conversions_step rs c l :
  apply_conversions rs (c :: l)
  = match apply_conversion rs c with Ok rs' => apply_conversions rs' l | Err e => Err e end.
Proof.
  unfold apply_conversions. cbn. destruct (apply_conversion rs c) as [rs'|e]; [done|].
  induction l as [|c' l IH]; [done|]. apply IH.
Qed.

(** The result of an application that conserves totals and does not abort. *)
Definition conserves (rs : Resources) (r : result conversion_error Resources) : Prop :=
  match r with
  | Ok rs' => wf_resources rs' /\ same_totals rs' rs
  | Err e => e <> CheckFailed
  end.

Lemma conserves_trans rs rs' r :
  same_totals rs' rs -> conserves rs' r -> conserves rs r.
Proof. intros H. destruct r as [rs''|e]; cbn; [|done]. intros [Hw Hs]. split; [done|by etrans]. Qed.

Lemma apply_conserves_sane rs op conversions :
  wf_resources rs -> getResourceConversions op = Ok conversions ->
  conserves rs (apply_conversions rs conversions) -> conserves rs (apply rs op).
Proof.
  intros Hrs Hop. unfold apply. rewrite Hop. cbn. destruct (apply_conversions rs conversions) as [rs'|e]; cbn; [|done].
  intros [Hw Hs]. rewrite sane_same by (done || by symmetry). done.
Qed.

(** ** Volumes *)

Lemma of_resource_wf r : wf_resource r -> wf_resources (of_resource r) /\ no_twin_disks (of_resource r).
Proof.
  intros Hr. destruct (of_resource_cases r Hr) as [->|[-> He]]; (split; [|done]); auto with clusterd.
Qed.

Lemma of_resource_measure r k p :
  same_key k r = false -> measure (of_resource r) k p = 0.
Proof.
  intros Hk. rewrite of_resource_eq. case_match; [done|]. case_if; [done|].
  rewrite measure_cons. unfold weight. cbn. by rewrite Hk.
Qed.

Lemma same_key_unshared k r : shared k <> shared r -> same_key k r = false.
Proof. intros H. apply not_true_iff_false. intros Hk. by apply same_key_shared in Hk. Qed.

Lemma exchange_measure rs a b k :
  wf_resources rs -> wf_resource a -> wf_resource b -> wf_resource k -> contains rs (of_resource a) = true ->
  measure (plus (minus rs (of_resource a)) (of_resource b)) k PScalar
  = measure rs k PScalar - measure (of_resource a) k PScalar + measure (of_resource b) k PScalar.
Proof.
  intros Hrs Ha Hb Hk Hc. destruct (of_resource_wf a Ha) as [Wa Ta], (of_resource_wf b Hb) as [Wb _].
  apply resources_contains_spec in Hc; [|done..].
  rewrite plus_holds by eauto with clusterd. rewrite minus_measure by done. done.
Qed.

(** What validation leaves of [CREATE] and [DESTROY]: valid volumes.  A shared
    volume to create does not exist yet. *)
Record creatable (rs : Resources) (v : Resource) : Prop := {
  cr_wf : wf_resource v;
  cr_valid : resource_validate v = None;
  cr_new : shared v = true -> measure rs v PScalar = 0;
}.

Lemma create_exchange rs v : creatable rs v -> exchange rs (strip v) v.
Proof.
  intros [Hw Hv Hn]. split; [by apply strip_wf|done| |done|done|done|auto].
  split; [done|]. intros _. apply strip_valid; eauto with clusterd.
Qed.

Lemma create_conserves rs vs :
  wf_resources rs -> Forall (creatable rs) vs ->
  pairwise (fun v v' => shared v' = true -> same_key v' v = false) vs ->
  conserves rs (apply_conversions rs
    (map (fun v => mkConversion (of_resource (strip v)) (of_resource v) None) vs)).
Proof.
  revert rs. induction vs as [|v vs IH]; intros rs Hrs Hvs Hd; [done|]. cbn [map].
  apply Forall_cons in Hvs as [Hv Hvs]. destruct Hd as [Hd Hd'].
  rewrite apply_conversions_step. unfold apply_conversion. cbn [consumed converted postValidation].
  destruct (contains rs (of_resource (strip v))) eqn:Hc; cbn [negb]; [|done].
  destruct (exchange_total rs (strip v) v) as [Hw Hs]; [done|by apply create_exchange|done|].
  eapply conserves_trans; [done|]. apply IH; [done| |done].
  rewrite Forall_forall in *. intros v' Hin. specialize (Hvs v' Hin). specialize (Hd v' Hin).
  destruct Hvs as [Hw' Hv' Hn']. split; [done..|]. intros Hs'.
  assert (Hwv := cr_wf _ _ Hv).
  rewrite exchange_measure by auto using strip_wf.
  rewrite !of_resource_measure, Hn'; auto. apply same_key_unshared. by rewrite Hs'.
Qed.

(** A volume with copies left over is still contained. *)
Lemma destroy_last rs v :
  wf_resources rs -> wf_resource v -> resource_validate v = None -> isEmpty v = false ->
  shared v = true -> contains rs (of_resource v) = true ->
  contains_resource (plus (minus rs (of_resource v)) (of_resource (strip v))) v = false ->
  measure rs v PScalar = 1.
Proof.
  intros Hrs Hw Hv He Hs Hc Hn. assert (Hev := to_Resource_wf v Hw He).
  destruct (of_resource_wf v Hw) as [Wv Tv].
  assert (Hm := exchange_measure rs v (strip v) v Hrs Hw (strip_wf v Hw) Hw Hc).
  rewrite (of_resource_measure (strip v)), Z.add_0_r in Hm by (apply same_key_unshared; by rewrite Hs).
  assert (Hu : measure (of_resource v) v PScalar = 1).
  { rewrite of_resource_eq, Hv, He, measure_cons. unfold weight, units, whole. cbn.
    rewrite be_refl by done. by rewrite Hs. }
  apply resources_contains_spec in Hc; [|done..]. specialize (Hc v PScalar Hw).
  destruct (decide (measure rs v PScalar = 1)) as [|Hne]; [done|exfalso].
  unfold contains_resource in Hn. rewrite Hv in Hn. apply not_true_iff_false in Hn. apply Hn.
  apply member_contains; [|done|].
  - apply plus_wf_resources; [auto with clusterd|]. apply of_resource_wf. by apply strip_wf.
  - intros p. change (resource (to_Resource_ v)) with v.
    destruct (decide (p = PScalar)) as [->|Hp].
    + unfold units, whole. cbn. rewrite Hs. cbn. lia.
    + rewrite units_whole; [|unfold whole; cbn; by rewrite Hs|done]. apply measure_nonneg.
      apply plus_wf_resources; [auto with clusterd|]. apply of_resource_wf. by apply strip_wf.
Qed.

Lemma destroy_conserves rs vs :
  wf_resources rs -> Forall (fun v => wf_resource v /\ resource_validate v = None) vs ->
  conserves rs (apply_conversions rs
    (map (fun v => mkConversion (of_resource v) (of_resource (strip v))
                     (Some (fun resources => if contains_resource resources v
                                             then Some AdditionalCopies else None))) vs)).
Proof.
  intros Hrs Hvs. revert rs Hrs. induction Hvs as [|v vs [Hw Hv] _ IH]; intros rs Hrs; [done|]. cbn [map].
  rewrite apply_conversions_step. unfold apply_conversion. cbn [consumed converted postValidation].
  destruct (contains rs (of_resource v)) eqn:Hc; cbn [negb]; [|done].
  destruct (contains_resource _ v) eqn:Hn; [done|].
  assert (Hex : isEmpty v = false -> exchange rs v (strip v)).
  { intros He. split; [done|by apply strip_wf| |done|done| |done].
    - split; [|done]. intros _. apply strip_valid; eauto with clusterd.
    - intros Hs. by apply destroy_last. }
  destruct (isEmpty v) eqn:He.
  - assert (E1 : of_resource v = []) by (by rewrite of_resource_eq, Hv, He).
    assert (E2 : of_resource (strip v) = []).
    { rewrite of_resource_eq. change (isEmpty (strip v)) with (isEmpty v). rewrite He. by case_match. }
    rewrite E1, E2. by apply IH.
  - destruct (exchange_total rs v (strip v)) as [Hw' Hs]; [done|by apply Hex|done|].
    eapply conserves_trans; [done|]. by apply IH.
Qed.

(** ** Reservations *)

Lemma pop_wf e : wf_ e -> wf_ (map_resource pop e).
Proof.
  intros He. apply (wf_map_reservations (take _ (reservations (resource e)))); [|done].
  apply Forall_take. apply wm_reservations. eauto with clusterd.
Qed.

Lemma pop_total rs :
  wf_resources rs -> unshared rs -> Forall (fun e => reservations (resource e) <> []) rs ->
  exists c, popReservation rs = Some c /\ wf_resources c /\ unshared c /\ same_totals c rs.
Proof.
  intros Hrs Hu Hr. unfold popReservation. rewrite popReservation_loop_spec, fold_add_map by done.
  assert (Hw : Forall wf_ (map (map_resource pop) rs)).
  { apply Forall_map. destruct Hrs as [Hrs _]. eapply Forall_impl; [apply Hrs|]. apply pop_wf. }
  assert (Hu' : unshared (map (map_resource pop) rs)) by (by apply Forall_map).
  eexists. split_and!; [done|by apply plus_wf_resources; [apply wf_nil|]| |].
  - apply plus_Forall; [|constructor|done]. intros l r. by rewrite plus_shared_flag.
  - intros n p. rewrite plus_total by (done || apply wf_nil).
    rewrite join_comm, join_0_r by (by apply ptotal_nonneg).
    clear. induction rs as [|e rs IH]; [done|]. cbn [map]. by rewrite !ptotal_cons, IH.
Qed.

(** Reserved resources that an operation may move between reservations. *)
Record movable (r : Resource) : Prop := {
  mv_wf : wf_resource r;
  mv_unshared : shared r = false;
  mv_reserved : reservations r <> [];
}.

Lemma of_resource_Forall (P : Resource_ -> Prop) r : P (to_Resource_ r) -> Forall P (of_resource r).
Proof. intros H. rewrite of_resource_eq. case_match; [done|]. case_if; [done|]. by constructor. Qed.

Lemma of_list_Forall (P : Resource_ -> Prop) l :
  (forall a b, P a -> P (plus_ a b)) -> Forall (fun r => P (to_Resource_ r)) l -> Forall P (of_list l).
Proof.
  intros HP Hl. unfold of_list. assert (H : Forall P []) by constructor. revert H.
  generalize (@nil Resource_). induction Hl as [|r l Hr _ IH]; intros rs Hrs; cbn; [done|]. apply IH.
  unfold plus_resource, plus_resource_. case_match; [done|]. apply (plus_Forall P rs [to_Resource_ r]); auto.
Qed.

Lemma unreserve_conversions l :
  Forall movable l ->
  exists cs, getResourceConversions (UNRESERVE (Some l)) = Ok cs
    /\ Forall2 (fun r c => consumed c = of_resource r /\ wf_resources (converted c) /\ unshared (converted c)
                           /\ same_totals (converted c) (of_resource r) /\ postValidation c = None) l cs.
Proof.
  induction 1 as [|r l [Hw Hu Hr] _ (cs & Hcs & H)]; [by exists []|]. cbn in *. rewrite Hcs. cbn.
  destruct (pop_total (of_resource r)) as (c & -> & Hc & Huc & Ht).
  - by apply of_resource_wf.
  - by apply of_resource_Forall.
  - by apply of_resource_Forall.
  - eexists. split; [done|]. by constructor.
Qed.

Lemma unreserve_conserves rs l :
  wf_resources rs -> Forall movable l -> conserves rs (apply rs (UNRESERVE (Some l))).
Proof.
  intros Hrs Hl. destruct (unreserve_conversions l Hl) as (cs & Hcs & H).
  eapply apply_conserves_sane; [done..|]. clear Hcs. revert rs Hrs.
  induction H as [|r c l cs (Hc & Hw & Hu & Ht & Hp) _ IH]; intros rs Hrs; [done|].
  apply Forall_cons in Hl as [[Hwr Hur _] Hl]. rewrite apply_conversions_step.
  unfold apply_conversion. rewrite Hc, Hp. destruct (of_resource_wf r Hwr) as [Wr Tr].
  destruct (contains rs (of_resource r)) eqn:E; cbn [negb]; [|done].
  destruct (convert_total rs (of_resource r) (converted c)) as [Hw' Hs]; eauto with clusterd.
  { by apply of_resource_Forall. }
  eapply conserves_trans; [done|]. by apply IH.
Qed.

Lemma convert_conserves rs c d :
  wf_resources rs -> wf_resources c -> Forall wf_ d -> no_twin_disks c -> unshared c -> unshared d ->
  same_totals d c -> conserves rs (apply_conversions rs [mkConversion c d None]).
Proof.
  intros. rewrite apply_conversions_step. unfold apply_conversion. cbn [consumed converted postValidation].
  destruct (contains rs c) eqn:E; cbn [negb]; [|done]. by apply convert_total.
Qed.

Lemma reserve_conserves rs l :
  wf_resources rs -> Forall movable l ->
  (forall c, popReservation (of_list l) = Some c -> no_twin_disks c) ->
  conserves rs (apply rs (RESERVE (Some (l, [])))).
Proof.
  intros Hrs Hl Ht. assert (Hw : wf_resources (of_list l)).
  { apply of_list_wf. eapply Forall_impl; [apply Hl|]. by intros r []. }
  assert (Hu : unshared (of_list l)).
  { apply of_list_Forall; [intros a b; by rewrite plus_shared_flag|].
    eapply Forall_impl; [apply Hl|]. by intros r []. }
  destruct (pop_total (of_list l)) as (c & Hc & Hwc & Huc & Htc); [done..| |].
  { apply of_list_Forall; [intros a b; by rewrite plus_reservations|].
    eapply Forall_impl; [apply Hl|]. by intros r []. }
  eapply apply_conserves_sane; [done|cbn; by rewrite Hc|].
  apply convert_conserves; eauto with clusterd. by symmetry.
Qed.

(** With an explicit source the totals of the two sides are validated. *)
Lemma reserve_source_conserves rs l source :
  wf_resources rs -> Forall wf_resource l -> Forall wf_resource source -> source <> [] ->
  Forall (fun r => shared r = false) l -> Forall (fun r => shared r = false) source ->
  no_twin_disks (of_list source) -> same_totals (of_list l) (of_list source) ->
  conserves rs (apply rs (RESERVE (Some (l, source)))).
Proof.
  intros Hrs Hl Hsrc Hne Ul Us Ht Hs. eapply apply_conserves_sane; [done|by destruct source|].
  destruct (of_list_wf _ Hl), (of_list_wf _ Hsrc).
  assert (H' : forall l, Forall (fun r => shared r = false) l -> unshared (of_list l)).
  { intros l' Hl'. apply of_list_Forall; [intros a b; by rewrite plus_shared_flag|done]. }
  apply convert_conserves; eauto with clusterd.
Qed.

(** ** Resizing volumes *)

(** A valid unshared scalar resource of a given amount. *)
Record plain (z : Z) (r : Resource) : Prop := {
  pl_wf : wf_resource r;
  pl_valid : resource_validate r = None;
  pl_unshared : shared r = false;
  pl_value : value r = VScalar z;
}.

Definition amount_of (n' : string) (z : Z) (n : string) (p : point) : Z :=
  if string_eqb n' n then match p with PScalar => z | _ => 0 end else 0.

Lemma plain_nonneg z r : plain z r -> 0 <= z.
Proof. intros [[_ Hv] _ _ E]. by rewrite E in Hv. Qed.

Lemma plain_total z r n p : plain z r -> ptotal n p (of_resource r) = amount_of (name r) z n p.
Proof.
  intros Hp. assert (Hz := plain_nonneg z r Hp). destruct Hp as [Hw Hv Hu E].
  rewrite of_resource_eq, Hv. unfold isEmpty. rewrite E. unfold amount_of.
  destruct (Z.eqb_spec z 0) as [->|]; [unfold ptotal; cbn; by destruct (string_eqb _ _), p|].
  rewrite ptotal_cons. unfold pamount, ptotal. cbn. rewrite E. by destruct (string_eqb _ _), p; cbn; lia.
Qed.

Lemma plain_with_value z z' r : plain z r -> 0 <= z' -> plain z' (with_value (VScalar z') r).
Proof.
  intros Hp Hz'. assert (Hz := plain_nonneg z r Hp). destruct Hp as [Hw Hv Hu E].
  split; [by apply wf_with_value|by eapply with_value_valid|done|done].
Qed.

Lemma plain_strip z r : plain z r -> plain z (strip r).
Proof.
  intros [Hw Hv Hu E]. split; [by apply strip_wf|apply strip_valid; eauto with clusterd|done|done].
Qed.

Lemma plain_of_scalar z z' r :
  plain z r -> of_scalar z' r = of_resource (with_value (VScalar z') r).
Proof. intros [_ _ _ E]. unfold of_scalar. by rewrite E. Qed.

Lemma plain_collection z r :
  plain z r -> wf_resources (of_resource r) /\ unshared (of_resource r).
Proof. intros [Hw _ Hu _]. split; [by apply of_resource_wf|by apply of_resource_Forall]. Qed.

Lemma plus_resource_plus rs r : plus_resource rs r = plus rs (of_resource r).
Proof.
  unfold plus_resource, plus_resource_. rewrite validate_to_Resource_, of_resource_eq.
  case_match; [done|]. unfold add. rewrite isEmpty_to_Resource_. destruct (isEmpty r) eqn:E; [done|].
  cbn. unfold add. by rewrite isEmpty_to_Resource_, E.
Qed.

Lemma amount_of_join n' x y n p :
  0 <= x -> 0 <= y -> join p (amount_of n' x n p) (amount_of n' y n p) = amount_of n' (x + y) n p.
Proof. intros. unfold amount_of. destruct (string_eqb n' n), p; cbn; lia. Qed.

Lemma grown_no_twins x y volume addition :
  plain x volume -> plain y addition -> isPersistentVolume volume = true ->
  no_twin_disks (plus (of_resource volume) (of_resource addition)).
Proof.
  intros Hv Ha Hp. rewrite !of_resource_eq. destruct Hv as [Hwv -> Huv Ev], Ha as [Hwa -> Hua Ea].
  destruct (isEmpty volume) eqn:E1, (isEmpty addition) eqn:E2; cbn; unfold add;
    rewrite ?isEmpty_to_Resource_, ?E2; cbn; [by repeat constructor..|].
  destruct (addable volume addition); cbn; [by repeat constructor|].
  split; [|by repeat constructor]. by repeat constructor.
Qed.

Lemma grow_conserves rs x y volume addition :
  wf_resources rs -> plain x volume -> plain y addition -> name addition = name volume ->
  isPersistentVolume volume = true ->
  conserves rs (apply rs (GROW_VOLUME (Some (volume, addition)))).
Proof.
  intros Hrs Hv Ha Hn Hp. destruct (hasResourceProvider volume) eqn:E; [unfold apply; cbn; by rewrite E|].
  eapply apply_conserves_sane; [done|cbn; by rewrite E|].
  destruct (plain_collection _ _ Hv) as [Wv Uv], (plain_collection _ _ Ha) as [Wa Ua].
  assert (Hx := plain_nonneg _ _ Hv). assert (Hy := plain_nonneg _ _ Ha).
  rewrite (plain_of_scalar x), (pl_value _ _ Hv), (pl_value _ _ Ha) by done. cbn [scalar_of].
  assert (Hc : plain (x + y) (with_value (VScalar (x + y)) volume)).
  { apply (plain_with_value x); [done|lia]. }
  destruct (plain_collection _ _ Hc) as [Wc Uc].
  rewrite plus_resource_plus. apply convert_conserves; eauto with clusterd.
  - by eapply grown_no_twins.
  - apply plus_Forall; [intros a b; by rewrite plus_shared_flag|done|done].
  - intros n p. rewrite plus_total by eauto with clusterd.
    rewrite (plain_total x volume), (plain_total y addition),
      (plain_total (x + y) (with_value (VScalar (x + y)) volume)) by done.
    rewrite Hn, amount_of_join by done. done.
Qed.

Lemma shrink_conserves rs x z volume :
  wf_resources rs -> plain x volume -> 0 <= z <= x ->
  conserves rs (apply rs (SHRINK_VOLUME (Some (volume, z)))).
Proof.
  intros Hrs Hv Hz. destruct (hasResourceProvider volume) eqn:E; [unfold apply; cbn; by rewrite E|].
  eapply apply_conserves_sane; [done|cbn; by rewrite E|].
  destruct (of_resource_wf volume (pl_wf _ _ Hv)) as [Wv Tv].
  destruct (plain_collection _ _ Hv) as [_ Uv].
  rewrite (pl_value _ _ Hv). cbn [scalar_of].
  rewrite (plain_of_scalar x (x - z) volume), (plain_of_scalar x z (strip volume)) by auto using plain_strip.
  assert (H1 : plain (x - z) (with_value (VScalar (x - z)) volume)).
  { apply (plain_with_value x); [done|lia]. }
  assert (H2 : plain z (with_value (VScalar z) (strip volume))).
  { apply (plain_with_value x); [by apply plain_strip|lia]. }
  destruct (plain_collection _ _ H1) as [W1 U1], (plain_collection _ _ H2) as [W2 U2].
  apply convert_conserves; eauto with clusterd.
  - apply plus_Forall; [intros a b; by rewrite plus_shared_flag|done|done].
  - intros n p. rewrite plus_total by eauto with clusterd.
    rewrite (plain_total _ _ _ _ H1), (plain_total _ _ _ _ H2), (plain_total _ _ _ _ Hv).
    change (name (with_value (VScalar (x - z)) volume)) with (name volume).
    change (name (with_value (VScalar z) (strip volume))) with (name volume).
    rewrite amount_of_join by lia. f_equal. lia.
Qed.

(** ** Properties *)

(** What the validation of offer operations establishes before they are
    applied: the resources are valid; reservations move only unshared
    resources that are reserved, and a given source has the same totals; shared
    volumes are created once; volumes are resized within their size, with
    resources of the same name; a whole disk is consumed once. *)
Definition validated (rs : Resources) (op : Operation Resource) : Prop :=
  match op with
  | UNKNOWN | LAUNCH _ | LAUNCH_GROUP _ | CREATE_DISK _ | DESTROY_DISK _ => True
  | RESERVE (Some (l, [])) =>
      Forall movable l /\ (forall c, popReservation (of_list l) = Some c -> no_twin_disks c)
  | RESERVE (Some (l, source)) =>
      Forall wf_resource l /\ Forall wf_resource source
      /\ Forall (fun r => shared r = false) l /\ Forall (fun r => shared r = false) source
      /\ no_twin_disks (of_list source) /\ same_totals (of_list l) (of_list source)
  | UNRESERVE (Some l) => Forall movable l
  | CREATE (Some vs) =>
      Forall (creatable rs) vs /\ pairwise (fun v v' => shared v' = true -> same_key v' v = false) vs
  | DESTROY (Some vs) => Forall (fun v => wf_resource v /\ resource_validate v = None) vs
  | GROW_VOLUME (Some (volume, addition)) =>
      exists x y, plain x volume /\ plain y addition /\ name addition = name volume
                  /\ isPersistentVolume volume = true
  | SHRINK_VOLUME (Some (volume, z)) => exists x, plain x volume /\ 0 <= z <= x
  | _ => False
  end.

Lemma apply_conserved rs op :
  wf_resources rs -> validated rs op -> conserves rs (apply rs op).
Proof.
  intros Hrs Hop.
  destruct op as [|tasks|group|[[l [|s source]]|]|[l|]|[vs|]|[vs|]|[[v a]|]|[[v z]|]|d|d];
    cbn [validated] in Hop; try done.
  - destruct Hop. by apply reserve_conserves.
  - destruct Hop as (? & ? & ? & ? & ? & ?). by apply reserve_source_conserves.
  - by apply unreserve_conserves.
  - destruct Hop. eapply apply_conserves_sane; [done..|]. by apply create_conserves.
  - eapply apply_conserves_sane; [done..|]. by apply destroy_conserves.
  - destruct Hop as (x & y & ? & ? & ? & ?). by eapply grow_conserves.
  - destruct Hop as (x & ? & ?). by eapply shrink_conserves.
Qed.

(** What an operation takes out and what it puts in, one pair after the other:
    reserved resources and the same ones with one reservation less, volumes and
    the disks they lie on, a volume with what it grows by or shrinks by. *)
Definition exchanged (op : Operation Resource) : list (Resources * Resources) :=
  match op with
  | RESERVE (Some (l, [])) => [(default [] (popReservation (of_list l)), of_list l)]
  | RESERVE (Some (l, source)) => [(of_list source, of_list l)]
  | UNRESERVE (Some l) => map (fun r => (of_resource r, default [] (popReservation (of_resource r)))) l
  | CREATE (Some vs) => map (fun v => (of_resource (strip v), of_resource v)) vs
  | DESTROY (Some vs) => map (fun v => (of_resource v, of_resource (strip v))) vs
  | GROW_VOLUME (Some (v, a)) =>
      [(plus (of_resource v) (of_resource a), of_scalar (scalar_of (value v) + scalar_of (value a)) v)]
  | SHRINK_VOLUME (Some (v, z)) =>
      [(of_resource v, plus (of_scalar (scalar_of (value v) - z) v) (of_scalar z (strip v)))]
  | _ => []
  end.

(** What is then held of a kind, of which [held] was held before. *)
Fixpoint after_exchange (l : list (Resources * Resources)) (k : Resource) (p : point) (held : Z) : Z :=
  match l with
  | [] => held
  | (out, in_) :: l' => after_exchange l' k p (join p (held - measure out k p) (measure in_ k p))
  end.

Definition both (c : ResourceConversion) : Resources * Resources := (consumed c, converted c).

(** Both sides of a conversion are well-formed, and the left one can be taken out. *)
Record fit (c : ResourceConversion) : Prop := {
  fit_consumed : wf_resources (consumed c);
  fit_twins : no_twin_disks (consumed c);
  fit_converted : wf_resources (converted c);
}.

Lemma apply_conversions_measure cs rs rs' k p :
  Forall fit cs -> wf_resources rs -> wf_resource k -> apply_conversions rs cs = Ok rs' ->
  measure rs' k p = after_exchange (map both cs) k p (measure rs k p).
Proof.
  intros Hcs Hrs Hk. revert rs Hrs. induction Hcs as [|c cs [Hc Ht Hd] _ IH]; intros rs Hrs; [by intros [= <-]|].
  rewrite apply_conversions_step. unfold apply_conversion. destruct (contains rs (consumed c)) eqn:E; cbn [negb]; [|done].
  assert (Hi := proj1 (resources_contains_spec rs (consumed c) Hrs Hc Ht) E).
  set (next := plus (minus rs (consumed c)) (converted c)).
  assert (Hm := minus_wf_resources rs (consumed c) Hrs (wr_elements _ Hc)).
  assert (Hn : wf_resources next) by (by apply plus_wf_resources, Hd).
  assert (En : measure next k p = join p (measure rs k p - measure (consumed c) k p) (measure (converted c) k p)).
  { unfold next. rewrite plus_holds, minus_measure by done. done. }
  intros H. destruct (match postValidation c with Some _ => _ | None => _ end) as [r|] eqn:Ep; [|done].
  assert (r = next) as -> by (destruct (postValidation c) as [v|]; [destruct (v _)|]; by simplify_eq).
  rewrite (IH next Hn H). cbn. by rewrite En.
Qed.

(** The conversions of a validated operation are the ones it is for. *)
Lemma conversions_exchanged rs op cs :
  validated rs op -> getResourceConversions op = Ok cs -> Forall fit cs /\ map both cs = exchanged op.
Proof.
  intros Hop E. destruct op as [|tasks|group|[[l [|s source]]|]|[l|]|[vs|]|[vs|]|[[v a]|]|[[v z]|]|d|d];
    cbn [validated] in Hop; try done.
  - destruct Hop as [Hl Ht]. cbn in E |- *. destruct (popReservation (of_list l)) as [c|] eqn:Ec; [|done]. injection E as <-.
    split; [|done]. apply Forall_singleton. assert (Hw : wf_resources (of_list l)) by (apply of_list_wf; eapply Forall_impl; [apply Hl|]; by intros r []).
    destruct (pop_total (of_list l)) as (c' & Hc & Hwc & _); [done| |..].
    + apply of_list_Forall; [intros a b; by rewrite plus_shared_flag|]. eapply Forall_impl; [apply Hl|]. by intros r [].
    + apply of_list_Forall; [intros a b; by rewrite plus_reservations|]. eapply Forall_impl; [apply Hl|]. by intros r [].
    + rewrite Ec in Hc. injection Hc as <-. split; [done|by apply Ht|done].
  - destruct Hop as (Hl & Hs & _ & _ & Ht & _). injection E as <-. split; [|done]. apply Forall_singleton.
    split; [by apply of_list_wf|done|by apply of_list_wf].
  - destruct (unreserve_conversions l Hop) as (cs' & E' & H). rewrite E in E'. injection E' as <-.
    revert cs E H. induction Hop as [|r l Hr Hl IH]; intros cs E H; [inversion H; subst; by split|].
    inversion H as [|? c ? cs1 (Hc & Hw & _ & _ & Hp) H1]; subst. cbn in E.
    destruct (foldr _ _ l) as [cs2|] eqn:E2 in E; [|done]. cbn in E.
    destruct (popReservation (of_resource r)) as [d|] eqn:Ed; [|done]. injection E as <- <-.
    destruct (IH cs2 E2 H1) as [F1 F2]. destruct (of_resource_wf r (mv_wf _ Hr)) as [Wr Tr].
    split; [by constructor; [split|]|]. cbn in F2 |- *. by rewrite Ed, F2.
  - injection E as <-. split; [|by rewrite map_map]. apply Forall_map. destruct Hop as [Hvs _]. eapply Forall_impl; [exact Hvs|].
    intros v [Hw _ _]. destruct (of_resource_wf _ (strip_wf v Hw)) as [W T]. split; [done|done|by apply of_resource_wf].
  - injection E as <-. split; [|by rewrite map_map]. apply Forall_map. eapply Forall_impl; [exact Hop|].
    intros v [Hw _]. destruct (of_resource_wf v Hw) as [W T]. split; [done|done|by apply of_resource_wf, strip_wf].
  - destruct Hop as (x & y & Hv & Ha & Hn & Hp). cbn in E |- *. destruct (hasResourceProvider v); [done|]. injection E as <-.
    rewrite plus_resource_plus. split; [|done]. apply Forall_singleton.
    destruct (plain_collection _ _ Hv) as [Wv _], (plain_collection _ _ Ha) as [Wa _]. assert (Hx := plain_nonneg _ _ Hv). assert (Hy := plain_nonneg _ _ Ha).
    split; cbn; [by apply plus_wf_resources, Wa|by eapply grown_no_twins|].
    rewrite (plain_of_scalar x) by done. rewrite (pl_value _ _ Hv), (pl_value _ _ Ha). cbn [scalar_of].
    apply (plain_collection (x + y)), (plain_with_value x); [done|lia].
  - destruct Hop as (x & Hv & Hz). cbn in E |- *. destruct (hasResourceProvider v); [done|]. injection E as <-.
    split; [|done]. apply Forall_singleton. destruct (of_resource_wf v (pl_wf _ _ Hv)) as [Wv Tv]. split; cbn; [done|done|].
    rewrite (plain_of_scalar x) by done. rewrite (plain_of_scalar x z (strip v)), (pl_value _ _ Hv) by auto using plain_strip. cbn [scalar_of].
    apply plus_wf_resources; [|apply wr_elements]; [apply (plain_collection (x - z)), (plain_with_value x); [done|lia]|].
    apply (plain_collection z), (plain_with_value x); [by apply plain_strip|lia].
Qed.

(** The result of an application that makes the exchange of the operation,
    conserves totals and does not abort. *)
Definition exchanges (rs : Resources) (op : Operation Resource) : Prop :=
  match apply rs op with
  | Ok rs' =>
      (forall k p, wf_resource k -> measure rs' k p = after_exchange (exchanged op) k p (measure rs k p))
      /\ wf_resources rs' /\ (forall n p, ptotal n p rs' = ptotal n p rs) /\ sane rs rs' = true
  | Err e => e <> CheckFailed
  end.

Lemma apply_exchanges rs op : wf_resources rs -> validated rs op -> exchanges rs op.
Proof.
  intros Hrs Hop. assert (H := apply_conserved rs op Hrs Hop). unfold exchanges.
  destruct (apply rs op) as [rs'|e] eqn:E; [|done]. destruct H as [Hw Hs]. split_and!; [|done..|].
  - intros k p Hk. unfold apply in E. destruct (getResourceConversions op) as [cs|] eqn:Ec; [|done]. cbn in E.
    destruct (apply_conversions rs cs) as [r|] eqn:Ea; [|done]. cbn in E. destruct (sane rs r); [|done]. injection E as ->.
    destruct (conversions_exchanged rs op cs Hop Ec) as [Hf <-]. by apply apply_conversions_measure.
  - apply sane_same; [done..|by symmetry].
Qed.

(** C37. A validated operation replaces what it consumes by what it converts to,
    conserves resources and never aborts the process.  If it can be applied, then
    of every kind of resource exactly the amount in [exchanged] is taken out and
    put in, the collection stays well-formed and has under every name exactly the
    total it had, so the sanity checks at the end hold; if not, the error is one
    that is reported.  Validated ([validated]) means in particular that
    reservations move unshared reserved resources only, that a given source of a
    reservation has the totals of what is reserved, that a shared volume is
    created once (see [apply_create_twice_aborts]) and that volumes are resized
    within their size and by resources of the same name. *)
Theorem apply_conserves rs op :
  wf_resources rs -> validated rs op ->
  match apply rs op with
  | Ok rs' =>
      (forall k p, wf_resource k -> measure rs' k p = after_exchange (exchanged op) k p (measure rs k p))
      /\ wf_resources rs' /\ (forall n p, ptotal n p rs' = ptotal n p rs) /\ sane rs rs' = true
  | Err e => e <> CheckFailed
  end.
Proof. apply apply_exchanges. Qed.

Definition disk_pool (z : Z) : Resource :=
  mkResource "disk" (VScalar z) None [dynamic_ "a"] None false false None.

Lemma apply_conserves_witness :
  let rs := of_list [disk_pool 1000; cpus_ 5] in
  let rs' := of_list [disk_pool 700; cpus_ 5; volume_ "id" 300] in
  apply rs (CREATE (Some [volume_ "id" 300])) = Ok rs' /\ ptotal "disk" PScalar rs' = 1000
  /\ measure rs' (disk_pool 1) PScalar = 700.
Proof.
  intros rs rs'. assert (E : apply rs (CREATE (Some [volume_ "id" 300])) = Ok rs') by (by vm_compute).
  split; [done|].
  assert (H := apply_conserves rs (CREATE (Some [volume_ "id" 300]))). rewrite E in H.
  destruct H as (Hm & _ & Ht & _).
  - apply of_list_wf. solve_wf.
  - split; [|by repeat constructor]. constructor; [|constructor].
    split; [solve_wf|by vm_compute|by vm_compute].
  - rewrite Ht, Hm by solve_wf. split; by vm_compute.
Defined.

(** The check on shared volumes matters: creating a shared volume that
    exists already passes the containment test and then fails the sanity
    check, which aborts the process. *)
Theorem apply_create_twice_aborts :
  let rs := of_list [disk_pool 1000000; volume_ "id" 300000] in
  apply rs (CREATE (Some [volume_ "id" 300000])) = Err CheckFailed.
Proof. by vm_compute. Qed.
