(* ===== verification/Attributes.v ===== *)
(** * Attributes of agents

    [src/src/common/attributes.cpp]: comparing, looking up and parsing the
    attributes of an agent.  An attribute is a name and a value of its type;
    [None] is a fatal error. *)

From stdpp Require Import base gmap strings list.
From Stdlib Require Import ZArith Ascii.
From S2P Require Import Prelude Strings Ranges Scalar Values Resource.
Local Open Scope Z_scope.

Record Attribute := mkAttribute {
  attr_name : string;
  attr_value : Value;
}.

Definition attr_type (a : Attribute) : ValueType := type_of (attr_value a).

(** The [switch] of [contains] on two attributes of one type. *)
Definition same_value (a b : Value) : option bool :=
  match a, b with
  | VScalar x, VScalar y => Some (x =? y)
  | VRanges l, VRanges r => Some (ranges_eqb l r)
  | VText s, VText t => Some (bool_decide (s = t))
  | VSet _, VSet _ => None
  | _, _ => Some false
  end.

Fixpoint attributes_contain (l : list Attribute) (x : Attribute) : option bool :=
  match l with
  | [] => Some false
  | a :: l' =>
      if bool_decide (attr_name a = attr_name x) && bool_decide (attr_type a = attr_type x) then
        b ← same_value (attr_value a) (attr_value x);
        if (b : bool) then Some true else attributes_contain l' x
      else attributes_contain l' x
  end.

Fixpoint all_contained (l r : list Attribute) : option bool :=
  match r with
  | [] => Some true
  | x :: r' => b ← attributes_contain l x; if (b : bool) then all_contained l r' else Some false
  end.

Definition same_attributes (l r : list Attribute) : option bool :=
  if negb (length l =? length r)%nat then Some false
  else b ← all_contained r l; if (b : bool) then all_contained l r else Some false.

(** [get(Attribute)]: the first one of that name and type. *)
Definition attributes_get (l : list Attribute) (x : Attribute) : option Attribute :=
  List.find (fun a => bool_decide (attr_name a = attr_name x) && bool_decide (attr_type a = attr_type x)) l.

(** [get(name, default)] for the three types. *)
Definition first_of_type (t : ValueType) (n : string) (l : list Attribute) : option Attribute :=
  List.find (fun a => bool_decide (attr_name a = n) && bool_decide (attr_type a = t)) l.

Definition get_scalar_attribute (l : list Attribute) (n : string) (d : Z) : Z :=
  match first_of_type SCALAR n l with Some a => scalar_of (attr_value a) | None => d end.
Definition get_ranges_attribute (l : list Attribute) (n : string) (d : list Range) : list Range :=
  match first_of_type RANGES n l with Some a => ranges_of (attr_value a) | None => d end.
Definition get_text_attribute (l : list Attribute) (n : string) (d : string) : string :=
  match first_of_type TEXT n l with Some (mkAttribute _ (VText t)) => t | _ => d end.

(** [strings::split(token, ":", 2)]. *)
Definition split_pair (token : string) : list string :=
  match find_char token ":"%char with
  | None => [token]
  | Some next => [implode (take next (explode token)); implode (drop (S next) (explode token))]
  end.

Definition parse_attribute (lexu : lexical Z) (lexd : lexical parsed_double) (n text : string) : option Attribute :=
  match Values.parse lexu lexd text with
  | Err _ | Ok (VSet _) => None
  | Ok v => Some (mkAttribute n v)
  end.

Fixpoint parse_tokens (lexu : lexical Z) (lexd : lexical parsed_double) (tokens : list string) : option (list Attribute) :=
  match tokens with
  | [] => Some []
  | token :: rest =>
      match split_pair token with
      | [n; v] =>
          if bool_decide (n = EmptyString) || bool_decide (v = EmptyString) then None
          else a ← parse_attribute lexu lexd n v; l ← parse_tokens lexu lexd rest; Some (a :: l)
      | _ => None
      end
  end.

Definition attribute_delims : string := String ";" (String "010" "").

Definition parse_attributes (lexu : lexical Z) (lexd : lexical parsed_double) (s : string) : option (list Attribute) :=
  parse_tokens lexu lexd (tokenize s attribute_delims).

(** ** Comparison *)

(** Attributes of a supported type, with ranges below the largest number. *)
Definition supported (a : Attribute) : Prop :=
  match attr_value a with
  | VRanges l => Forall wf_range l /\ Forall below_max l
  | VSet _ => False
  | _ => True
  end.

(** Equality of two attributes. *)
Definition attribute_same (a x : Attribute) : bool :=
  bool_decide (attr_name a = attr_name x) && bool_decide (attr_type a = attr_type x) && default false (same_value (attr_value a) (attr_value x)).

Lemma attribute_same_spec a x :
  supported a -> supported x ->
  attribute_same a x = true <->
    attr_name a = attr_name x
    /\ match attr_value a, attr_value x with
       | VScalar y, VScalar z => y = z
       | VRanges l, VRanges r => forall n, covers l n <-> covers r n
       | VText s, VText t => s = t
       | _, _ => False
       end.
Proof.
  intros Ha Hx. unfold attribute_same, attr_type. rewrite !andb_true_iff, !bool_decide_eq_true. unfold supported in *.
  destruct (attr_value a), (attr_value x); try done; cbn; try naive_solver.
  - rewrite Z.eqb_eq. naive_solver.
  - destruct Ha, Hx. rewrite ranges_eqb_spec by done. naive_solver.
  - rewrite bool_decide_eq_true. naive_solver.
Qed.

#[export] Instance attribute_equiv : BoolEquiv supported attribute_same.
Proof.
  split.
  - intros a Ha. apply attribute_same_spec; [done..|]. split; [done|]. unfold supported in Ha. by destruct (attr_value a).
  - intros a b Ha Hb. rewrite !attribute_same_spec by done. intros [-> H]. split; [done|]. by destruct (attr_value a), (attr_value b).
  - intros a b c Ha Hb Hc. rewrite !attribute_same_spec by done. intros [-> H] [-> H']. split; [done|].
    destruct (attr_value a), (attr_value b), (attr_value c); try done; [congruence|intros n; by rewrite H|congruence].
Qed.

Lemma contain_same l x :
  Forall supported l -> supported x -> attributes_contain l x = Some (existsb (fun a => attribute_same a x) l).
Proof.
  intros Hl Hx. induction Hl as [|a l Ha Hl IH]; cbn; [done|]. rewrite IH. set (rest := existsb _ l). unfold attribute_same.
  destruct (bool_decide (attr_name a = attr_name x)); cbn; [|done].
  destruct (bool_decide (attr_type a = attr_type x)) eqn:E; cbn; [|done]. apply bool_decide_eq_true in E.
  unfold attr_type, supported in *. destruct (attr_value a), (attr_value x); try done; cbn; by case_match.
Qed.

Lemma all_contained_same l r :
  Forall supported l -> Forall supported r -> all_contained l r = Some (forallb (fun x => existsb (fun a => attribute_same a x) l) r).
Proof.
  intros Hl Hr. induction Hr as [|x r Hx Hr IH]; cbn; [done|]. rewrite contain_same by done. cbn. by destruct (existsb _ l).
Qed.

Definition contained_in (l r : list Attribute) : Prop := forall x, x ∈ r -> exists a, a ∈ l /\ attribute_same a x = true.

Lemma all_contained_spec l r :
  Forall supported l -> Forall supported r -> exists b, all_contained l r = Some b /\ (b = true <-> contained_in l r).
Proof.
  intros Hl Hr. rewrite all_contained_same by done. eexists. split; [done|]. rewrite forallb_forall. unfold contained_in.
  setoid_rewrite <- list_elem_of_In. setoid_rewrite existsb_exists. by setoid_rewrite <- list_elem_of_In.
Qed.

Lemma same_attributes_spec l r :
  Forall supported l -> Forall supported r ->
  exists b, same_attributes l r = Some b /\ (b = true <-> length l = length r /\ contained_in l r /\ contained_in r l).
Proof.
  intros Hl Hr. unfold same_attributes. destruct (length l =? length r)%nat eqn:E; breflect; cbn [negb].
  2:{ exists false. split; [done|]. split; [done|]. by intros (? & _). }
  destruct (all_contained_spec r l Hr Hl) as (b & -> & Hb), (all_contained_spec l r Hl Hr) as (b' & E' & Hb'). cbn.
  destruct b; [exists b'|exists false]; (split; [done|]); rewrite <- ?Hb, <- ?Hb'; naive_solver.
Qed.

Lemma contained_trans l m r :
  Forall supported l -> Forall supported m -> Forall supported r -> contained_in l m -> contained_in m r -> contained_in l r.
Proof.
  rewrite !Forall_forall. intros Hl Hm Hr H1 H2 x Hx. destruct (H2 x Hx) as (b & Hb & E2). destruct (H1 b Hb) as (a & Ha & E1).
  exists a. split; [done|]. eapply (be_trans (P := supported)) with (b := b); auto.
Qed.

Lemma contained_refl l : Forall supported l -> contained_in l l.
Proof. rewrite Forall_forall. intros Hl x Hx. exists x. split; [done|]. by apply (be_refl (P := supported)), Hl. Qed.

(** The comparison of attributes of supported types ends without a fatal
    error, is an equivalence, and attributes that compare equal contain the
    same attributes. *)
Theorem attributes_equality l m r x :
  Forall supported l -> Forall supported m -> Forall supported r -> supported x ->
  same_attributes l l = Some true
  /\ same_attributes l m = same_attributes m l
  /\ (same_attributes l m = Some true -> same_attributes m r = Some true -> same_attributes l r = Some true)
  /\ (same_attributes l m = Some true -> attributes_contain l x = attributes_contain m x).
Proof.
  intros Hl Hm Hr Hx. destruct (same_attributes_spec l l Hl Hl) as (b0 & -> & H0), (same_attributes_spec l m Hl Hm) as (b1 & -> & H1),
    (same_attributes_spec m l Hm Hl) as (b2 & -> & H2), (same_attributes_spec m r Hm Hr) as (b3 & -> & H3), (same_attributes_spec l r Hl Hr) as (b4 & -> & H4).
  split_and!.
  - f_equal. apply H0. split_and!; [done|by apply contained_refl..].
  - f_equal. apply eq_true_iff_eq. rewrite H1, H2. naive_solver.
  - intros [= E1] [= E3]. f_equal. apply H4. apply H1 in E1 as (A1 & A2 & A3). apply H3 in E3 as (B1 & B2 & B3).
    split_and!; [congruence|by eapply contained_trans; [..|exact A2|]|by eapply contained_trans; [..|exact B3|]].
  - intros [= E1]. apply H1 in E1 as (_ & A2 & A3). rewrite !contain_same by done. f_equal. apply eq_true_iff_eq. rewrite !existsb_exists.
    rewrite Forall_forall in *. split; intros (a & Ha%list_elem_of_In & E).
    + destruct (A3 a Ha) as (b & Hb & E'). exists b. split; [by apply list_elem_of_In|]. eapply (be_trans (P := supported)) with (b := a); auto.
    + destruct (A2 a Ha) as (b & Hb & E'). exists b. split; [by apply list_elem_of_In|]. eapply (be_trans (P := supported)) with (b := a); auto.
Qed.

(** ** Parsing *)

(** Parsed attributes have a name and no set; each token gives one. *)
Theorem parsed_attributes lexu lexd s l :
  parse_attributes lexu lexd s = Some l ->
  length l = length (tokenize s attribute_delims) /\ Forall (fun a => attr_name a <> EmptyString /\ attr_type a <> SET) l.
Proof.
  unfold parse_attributes. revert l. induction (tokenize s attribute_delims) as [|token tokens IH]; intros l; cbn; [intros [= <-]; by split|].
  destruct (split_pair token) as [|n [|v [|]]]; try done. destruct (_ || _) eqn:E; [done|]. breflect.
  unfold parse_attribute. destruct (Values.parse lexu lexd v) as [v'|]; [|done]. intros Hl.
  assert (G : exists l', parse_tokens lexu lexd tokens = Some l' /\ l = mkAttribute n v' :: l' /\ type_of v' <> SET).
  { destruct v'; try done; cbn in Hl; destruct (parse_tokens lexu lexd tokens) as [l'|]; try done; cbn in Hl; injection Hl as <-; by exists l'. }
  destruct G as (l' & El & -> & Ht). destruct (IH l' El) as [H1 H2]. split; [cbn; by rewrite H1|]. constructor; [|done]. by split.
Qed.

(** Duplicates: two collections compare equal although they differ. *)
Theorem attributes_ignore_multiplicity :
  let rack n := mkAttribute "rack" (VText n) in
  same_attributes [rack "a"; rack "a"; rack "b"]%string [rack "a"; rack "b"; rack "b"]%string = Some true.
Proof. by vm_compute. Qed.
