(* ===== verification/ResourceFormat.v ===== *)
(** * Resource formats

    The conversions between the formats of a reservation
    ([convertResourceFormat] and its users in
    [src/src/common/resources_utils.cpp]), on the wire format.  [None] is a
    failed [CHECK]. *)

From stdpp Require Import base gmap strings list.
From S2P Require Import Prelude Strings Roles Ranges Values Resource Resources ResourceOps Conversions.
Local Open Scope Z_scope.

Inductive ResourceFormat := PRE_RESERVATION_REFINEMENT | POST_RESERVATION_REFINEMENT | ENDPOINT.

#[export] Instance ResourceFormat_eq_dec : EqDecision ResourceFormat.
Proof. solve_decision. Defined.

Definition with_formats (role : option string) (old : option ReservationInfo) (l : list ReservationInfo)
  (m : Message) : Message :=
  mkMessage (w_name m) (w_type m) (w_scalar m) (w_ranges m) (w_set m) role old (w_allocation_info m) l
    (w_disk m) (w_revocable m) (w_shared m) (w_provider_id m).

(** The [PRE_RESERVATION_REFINEMENT] and [ENDPOINT] cases. *)
Definition to_old_format (format : ResourceFormat) (m : Message) : option Message :=
  if bool_decide (is_Some (w_role m)) || bool_decide (is_Some (w_reservation m)) then None
  else match w_reservations m with
       | [] => Some (with_formats (Some "*"%string) None [] m)
       | [source] =>
           let target :=
             if bool_decide (rv_type_ source = DYNAMIC)
             then Some (mkReservation None None (rv_principal source) (rv_labels source)) else None in
           let kept := if bool_decide (format = PRE_RESERVATION_REFINEMENT) then [] else [source] in
           Some (with_formats (Some (rv_role_ source)) target kept m)
       | _ :: _ :: _ => if bool_decide (format = PRE_RESERVATION_REFINEMENT) then None else Some m
       end.

(** The [POST_RESERVATION_REFINEMENT] case. *)
Definition to_new_format (m : Message) : option Message :=
  match w_reservations m with
  | _ :: _ => Some (with_formats None None (w_reservations m) m)
  | [] =>
      if string_eqb (w_role_ m) "*" then
        if w_reservation m then None else Some (with_formats None None [] m)
      else
        let reservation :=
          match w_reservation m with
          | None => mkReservation (Some STATIC) (Some (w_role_ m)) None None
          | Some old => mkReservation (Some DYNAMIC) (Some (w_role_ m)) (rv_principal old) (rv_labels old)
          end in
        Some (with_formats None None [reservation] m)
  end.

Definition convertResourceFormat (m : Message) (format : ResourceFormat) : option Message :=
  match format with
  | POST_RESERVATION_REFINEMENT => to_new_format m
  | _ => to_old_format format m
  end.

Fixpoint convert_all (f : Message -> option Message) (l : list Message) : option (list Message) :=
  match l with
  | [] => Some []
  | m :: l' => m' ← f m; rest ← convert_all f l'; Some (m' :: rest)
  end.

Definition convertResourcesFormat (l : list Message) (format : ResourceFormat) : option (list Message) :=
  convert_all (fun m => convertResourceFormat m format) l.

Definition upgradeResource (m : Message) : option Message :=
  convertResourceFormat m POST_RESERVATION_REFINEMENT.

Definition upgradeResources (l : list Message) : option (list Message) :=
  convertResourcesFormat l POST_RESERVATION_REFINEMENT.

Inductive downgrade_error := RefinedReservations.

Definition refined (m : Message) : bool := (1 <? length (w_reservations m))%nat.

Definition downgradeResource (m : Message) : option (result downgrade_error Message) :=
  if bool_decide (is_Some (w_role m)) || bool_decide (is_Some (w_reservation m)) then None
  else if refined m then Some (Err RefinedReservations)
  else Ok <$> convertResourceFormat m PRE_RESERVATION_REFINEMENT.

(** In place: the result, and the resources as they are left. *)
Fixpoint downgradeResources (l : list Message) : option (result downgrade_error () * list Message) :=
  match l with
  | [] => Some (Ok (), [])
  | m :: l' =>
      r ← downgradeResource m;
      match r with
      | Err e => Some (Err e, m :: l')
      | Ok m' => '(r', rest) ← downgradeResources l'; Some (r', m' :: rest)
      end
  end.

(** ** Operations *)

Inductive upgrade_error := MissingField | InvalidResource (e : resource_error) | UnknownOffer.

Fixpoint validate_messages (l : list Message) : option resource_error :=
  match l with
  | [] => None
  | m :: l' => match validate_message m with Some e => Some e | None => validate_messages l' end
  end.

(** The resources of an operation in the order in which they are validated. *)
Definition task_resources (task : list Message * option (list Message)) : list Message :=
  fst task ++ default [] (snd task).

Definition operation_resources (op : Operation Message) : result upgrade_error (list Message) :=
  match op with
  | RESERVE (Some (resources, source)) => Ok (resources ++ source)
  | UNRESERVE (Some l) | CREATE (Some l) | DESTROY (Some l) => Ok l
  | GROW_VOLUME (Some (volume, addition)) => Ok [volume; addition]
  | SHRINK_VOLUME (Some (volume, _)) => Ok [volume]
  | LAUNCH (Some tasks) => Ok (concat (map task_resources tasks))
  | LAUNCH_GROUP (Some (executor, tasks)) =>
      Ok (default [] executor ++ concat (map task_resources tasks))
  | CREATE_DISK (Some source) | DESTROY_DISK (Some source) => Ok [source]
  | UNKNOWN => Err UnknownOffer
  | _ => Err MissingField
  end.

(** [upgradeResources] of a message reaches every resource of the operation. *)
Definition upgrade_task (task : list Message * option (list Message))
  : option (list Message * option (list Message)) :=
  resources ← upgradeResources (fst task);
  match snd task with
  | None => Some (resources, None)
  | Some l => executor ← upgradeResources l; Some (resources, Some executor)
  end.

Fixpoint upgrade_tasks (l : list (list Message * option (list Message)))
  : option (list (list Message * option (list Message))) :=
  match l with
  | [] => Some []
  | t :: l' => t' ← upgrade_task t; rest ← upgrade_tasks l'; Some (t' :: rest)
  end.

Definition upgrade_operation (op : Operation Message) : option (Operation Message) :=
  match op with
  | RESERVE (Some (resources, source)) =>
      a ← upgradeResources resources; b ← upgradeResources source; Some (RESERVE (Some (a, b)))
  | UNRESERVE (Some l) => a ← upgradeResources l; Some (UNRESERVE (Some a))
  | CREATE (Some l) => a ← upgradeResources l; Some (CREATE (Some a))
  | DESTROY (Some l) => a ← upgradeResources l; Some (DESTROY (Some a))
  | GROW_VOLUME (Some (v, d)) =>
      v' ← upgradeResource v; d' ← upgradeResource d; Some (GROW_VOLUME (Some (v', d')))
  | SHRINK_VOLUME (Some (v, z)) => v' ← upgradeResource v; Some (SHRINK_VOLUME (Some (v', z)))
  | LAUNCH (Some tasks) => a ← upgrade_tasks tasks; Some (LAUNCH (Some a))
  | LAUNCH_GROUP (Some (None, tasks)) => a ← upgrade_tasks tasks; Some (LAUNCH_GROUP (Some (None, a)))
  | LAUNCH_GROUP (Some (Some executor, tasks)) =>
      e ← upgradeResources executor; a ← upgrade_tasks tasks; Some (LAUNCH_GROUP (Some (Some e, a)))
  | CREATE_DISK (Some source) => v ← upgradeResource source; Some (CREATE_DISK (Some v))
  | DESTROY_DISK (Some source) => v ← upgradeResource source; Some (DESTROY_DISK (Some v))
  | _ => Some op
  end.

(** The error if there is one, and the operation as it is left. *)
Definition validateAndUpgradeResources (op : Operation Message)
  : option (option upgrade_error * Operation Message) :=
  match operation_resources op with
  | Err e => Some (Some e, op)
  | Ok l =>
      match validate_messages l with
      | Some e => Some (Some (InvalidResource e), op)
      | None => op' ← upgrade_operation op; Some (None, op')
      end
  end.

(** ** Upgrading *)

Lemma first_error_none {E} (l : list (option E)) : first_error l = None <-> Forall (fun o => o = None) l.
Proof.
  induction l as [|[e|] l IH]; cbn; [done| |].
  - split; [done|]. intros H. by inversion H.
  - rewrite IH, Forall_cons. tauto.
Qed.

(** The new format: the fields of the old one are not set. *)
Definition new_format (m : Message) : Prop := w_role m = None /\ w_reservation m = None.

#[export] Instance new_format_dec m : Decision (new_format m).
Proof. unfold new_format. apply _. Defined.

Lemma validate_message_reservations m m' :
  validate_message m = None ->
  w_name m' = w_name m -> validate_value m' = validate_value m -> validate_disk m' = validate_disk m ->
  validate_shared m' = validate_shared m -> (validate_reservations m = None -> validate_reservations m' = None) ->
  validate_message m' = None.
Proof.
  unfold validate_message. intros H Hn Hv Hd Hs Hr. rewrite Hn, Hv, Hd, Hs. revert H.
  case_if; [done|]. rewrite !first_error_none, !Forall_cons. naive_solver.
Qed.

Lemma upgrade_reservations m m' :
  validate_reservations m = None -> to_new_format m = Some m' -> validate_reservations m' = None.
Proof.
  unfold to_new_format, validate_reservations. destruct (w_reservations m) as [|r rest] eqn:Er.
  - destruct (Roles.validate (w_role_ m)) eqn:Ev; [done|].
    destruct (string_eqb (w_role_ m) "*") eqn:Es.
    + destruct (w_reservation m); [done|]. intros _ [= <-]. cbn.
      unfold string_eqb, dec_eqb in Es. breflect. by rewrite Es in Ev.
    + intros _ [= <-]. cbn. destruct (w_reservation m); cbn; by rewrite Ev, Es.
  - intros Hv [= <-]. cbn [w_reservations with_formats]. rewrite first_error_none in Hv |- *.
    rewrite Forall_app in *. destruct Hv as [Hf Hv]. split; [done|].
    rewrite !Forall_cons in *. destruct Hv as (Hr & Hs & _). split_and!; [done| |constructor].
    destruct rest; [|done]. revert Hs. unfold validate_single. case_if; [done|].
    cbn. by destruct (rv_type_ r).
Qed.

Lemma upgrade_total m :
  validate_reservations m = None -> exists m', to_new_format m = Some m' /\ new_format m'.
Proof.
  unfold to_new_format, validate_reservations. destruct (w_reservations m) as [|r rest]; [|by eexists].
  destruct (Roles.validate (w_role_ m)); [done|].
  destruct (string_eqb (w_role_ m) "*") eqn:Es; [|by eexists].
  destruct (w_reservation m) as [old|]; [|by eexists]. cbn. by repeat case_match.
Qed.

Lemma upgrade_valid m :
  validate_message m = None ->
  exists m', upgradeResource m = Some m' /\ validate_message m' = None /\ new_format m'.
Proof.
  intros H. assert (Hr : validate_reservations m = None).
  { revert H. unfold validate_message. case_if; [done|]. rewrite first_error_none, !Forall_cons. tauto. }
  destruct (upgrade_total m Hr) as (m' & Hm & Hn). exists m'. split_and!; [done| |done].
  assert (Hf : exists l, m' = with_formats None None l m).
  { revert Hm. unfold to_new_format. repeat case_match; intros [= <-]; eauto. }
  destruct Hf as [l ->]. eapply validate_message_reservations; [done..|].
  intros _. by eapply upgrade_reservations.
Qed.

Lemma upgrade_new_format m :
  new_format m -> upgradeResource m = Some m.
Proof.
  intros [Hr Ho]. unfold upgradeResource, convertResourceFormat, to_new_format, w_role_.
  destruct m; cbn in *. subst. by destruct w_reservations.
Qed.

(** Upgrading a valid resource never fails its [CHECK], gives a valid
    resource in the new format, and changes nothing if it is in the new format
    already. *)
Theorem upgrade_preserves_validity m :
  validate_message m = None ->
  exists m', upgradeResource m = Some m' /\ validate_message m' = None /\ new_format m'
             /\ upgradeResource m' = Some m'.
Proof.
  intros H. destruct (upgrade_valid m H) as (m' & Hm & Hv & Hn). exists m'.
  split_and!; [done..|]. by apply upgrade_new_format.
Qed.

Definition old_cpus (role : string) (old : option ReservationInfo) : Message :=
  mkMessage "cpus" SCALAR (Some 1000) None None (Some role) old None [] None false false None.

Lemma upgrade_preserves_validity_witness :
  exists m', upgradeResource (old_cpus "a" (Some (mkReservation None None (Some "p"%string) None))) = Some m'
    /\ validate_message m' = None
    /\ w_reservations m' = [mkReservation (Some DYNAMIC) (Some "a"%string) (Some "p"%string) None].
Proof.
  destruct (upgrade_preserves_validity (old_cpus "a" (Some (mkReservation None None (Some "p"%string) None))))
    as (m' & Hm & Hv & _); [by vm_compute|]. exists m'. split_and!; [done..|].
  vm_compute in Hm. by injection Hm as <-.
Defined.

(** ** Round trips *)

(** A reservation the old format can express: a static one has no principal
    and no labels there. *)
Definition old_expressible (r : ReservationInfo) : Prop :=
  exists role, rv_role r = Some role /\ role <> "*"%string
    /\ (rv_type r = Some DYNAMIC
        \/ (rv_type r = Some STATIC /\ rv_principal r = None /\ rv_labels r = None)).

(** C40. Downgrading a resource without refined reservations and upgrading it
    again gives the same resource, provided its reservation is one that the old
    format can express: it names a role other than "*", and if it is static it
    has no principal and no labels (those are lost, see
    [static_downgrade_loses_principal]).  Converting any resource in the new
    format for an endpoint and back gives the same resource. *)
Theorem format_roundtrip m :
  new_format m ->
  (refined m = false -> Forall old_expressible (w_reservations m) ->
   exists m', downgradeResource m = Some (Ok m') /\ w_reservations m' = [] /\ upgradeResource m' = Some m)
  /\ (exists m', convertResourceFormat m ENDPOINT = Some m' /\ upgradeResource m' = Some m).
Proof.
  intros [Hr Ho]. destruct m as [nm ty sc ra se role old al res di re sh pr]. cbn in *. subst. split.
  - unfold downgradeResource, refined. cbn. intros Hf He. rewrite Hf.
    destruct res as [|r [|]]; cbn in *; [eexists; split_and!; done| |done].
    apply Forall_singleton in He as (role & E1 & Hs & Ht). destruct r as [ty' role' pri lab]. cbn in *. subst.
    unfold rv_type_, rv_role_. cbn.
    eexists. split_and!; [done|done|]. unfold upgradeResource, convertResourceFormat, to_new_format, w_role_.
    cbn. unfold string_eqb, dec_eqb. rewrite (bool_decide_eq_false_2 (role = "*"%string)) by done.
    destruct Ht as [->|(-> & -> & ->)]; done.
  - unfold convertResourceFormat, to_old_format. cbn. destruct res as [|r [|r' res]];
      (eexists; split; [reflexivity|done]).
Qed.

Lemma format_roundtrip_witness :
  let m := wire (push (dynamic_ "a") (cpus_ 5)) in
  exists m', downgradeResource m = Some (Ok m') /\ upgradeResource m' = Some m.
Proof.
  intros m. destruct (format_roundtrip m) as [H _]; [done|].
  destruct H as (m' & H1 & _ & H2); [done| |by exists m'].
  repeat constructor. exists "a"%string. split_and!; [done|done|by left].
Defined.

(** The principal and the labels of a static reservation do not survive a
    downgrade, although validation accepts them. *)
Theorem static_downgrade_loses_principal :
  let r := mkReservation (Some STATIC) (Some "a"%string) (Some "p"%string) None in
  let m := wire (push r (cpus_ 5)) in
  validate_message m = None
  /\ exists m' m'', downgradeResource m = Some (Ok m') /\ upgradeResource m' = Some m''
     /\ w_reservations m'' = [mkReservation (Some STATIC) (Some "a"%string) None None].
Proof. split; [by vm_compute|]. do 2 eexists. split_and!; by vm_compute. Qed.

(** ** Lists and operations *)

Definition old_format (m : Message) : Message := default m (convertResourceFormat m PRE_RESERVATION_REFINEMENT).

Lemma downgrade_new_format m :
  new_format m ->
  downgradeResource m = Some (if refined m then Err RefinedReservations else Ok (old_format m)).
Proof.
  intros [Hr Ho]. unfold downgradeResource, old_format, convertResourceFormat, to_old_format, refined.
  rewrite Hr, Ho. cbn. by destruct (w_reservations m) as [|r [|r' rest]].
Qed.

(** [downgradeResources] is not all or nothing: it converts the resources up
    to the first with refined reservations and leaves that and the rest as they
    are; it succeeds exactly when there is none. *)
Theorem downgrade_stops_at_refined l :
  Forall new_format l ->
  downgradeResources l
  = let '(prefix, rest) := span (fun m => negb (refined m)) l in
    Some (match rest with [] => Ok () | _ => Err RefinedReservations end, map old_format prefix ++ rest).
Proof.
  induction 1 as [|m l Hm _ IH]; [done|]. cbn [downgradeResources span].
  rewrite downgrade_new_format by done. destruct (refined m); cbn; [done|].
  rewrite IH. by destruct (span _ l).
Qed.

Lemma downgrade_stops_at_refined_witness :
  let m := wire (cpus_ 5) in
  let bad := wire (push (dynamic_ "a/b") (push (dynamic_ "a") (cpus_ 5))) in
  downgradeResources [m; bad; m] = Some (Err RefinedReservations, [old_format m; bad; m]).
Proof.
  intros m bad. rewrite (downgrade_stops_at_refined [m; bad; m]); [by vm_compute|].
  by repeat constructor.
Defined.

#[local] Arguments upgradeResources : simpl never.
#[local] Arguments upgradeResource : simpl never.

Lemma upgradeResources_cons m l :
  upgradeResources (m :: l) = m' ← upgradeResource m; rest ← upgradeResources l; Some (m' :: rest).
Proof. done. Qed.

Lemma upgrade_list l :
  Forall (fun m => validate_message m = None) l ->
  exists l', upgradeResources l = Some l'
    /\ Forall (fun m => validate_message m = None /\ new_format m) l' /\ length l' = length l.
Proof.
  induction 1 as [|m l Hm _ (l' & Hl & Hf & Hn)]; [by exists []|].
  destruct (upgrade_valid m Hm) as (m' & E & Hv & Hnf). rewrite upgradeResources_cons, E, Hl.
  eexists. split_and!; [done|by constructor|cbn; congruence].
Qed.

Lemma upgrade_task_list l :
  Forall (fun m => validate_message m = None) (concat (map task_resources l)) ->
  exists l', upgrade_tasks l = Some l'
    /\ Forall (fun m => validate_message m = None /\ new_format m) (concat (map task_resources l')).
Proof.
  induction l as [|[t x] l IH]; cbn; [by exists []|]. unfold task_resources at 1. cbn.
  rewrite !Forall_app. intros [[Ht Hx] Hl]. destruct (IH Hl) as (l' & -> & Hl').
  destruct (upgrade_list t Ht) as (t' & E & Hf & _). unfold upgrade_task. cbn. rewrite E. cbn.
  destruct x as [x|]; cbn in *.
  - destruct (upgrade_list x Hx) as (x' & -> & Hfx & _). cbn. eexists. split; [done|]. cbn.
    unfold task_resources at 1. cbn. by rewrite !Forall_app.
  - eexists. split; [done|]. cbn. unfold task_resources at 1. cbn. by rewrite !Forall_app.
Qed.

Lemma validate_messages_none l :
  validate_messages l = None <-> Forall (fun m => validate_message m = None) l.
Proof.
  induction l as [|m l IH]; cbn; [done|]. rewrite Forall_cons, <- IH.
  destruct (validate_message m); [|tauto]. split; [done|by intros [? _]].
Qed.

(** The upgrade of the resources of an operation. *)
Lemma upgrade_operation_valid op l :
  operation_resources op = Ok l -> Forall (fun m => validate_message m = None) l ->
  exists op' l', upgrade_operation op = Some op' /\ operation_resources op' = Ok l'
    /\ Forall (fun m => validate_message m = None /\ new_format m) l'.
Proof.
  destruct op as [|[tasks|]|[[[x|] tasks]|]|[[a b]|]|[a|]|[a|]|[a|]|[[v d]|]|[[v z]|]|[v|]|[v|]];
    cbn [operation_resources]; try done; intros [= <-] H; cbn [upgrade_operation].
  - destruct (upgrade_task_list _ H) as (l' & -> & Hl). cbn. do 2 eexists. split_and!; [done|done|done].
  - cbn in H. rewrite Forall_app in H. destruct H as [Hx Hl].
    destruct (upgrade_list _ Hx) as (x' & -> & Hx' & _), (upgrade_task_list _ Hl) as (l' & -> & Hl').
    cbn. do 2 eexists. split_and!; [done|done|]. by rewrite Forall_app.
  - destruct (upgrade_task_list _ H) as (l' & -> & Hl). cbn. do 2 eexists. split_and!; [done|done|done].
  - rewrite Forall_app in H. destruct H as [Ha Hb].
    destruct (upgrade_list _ Ha) as (a' & -> & Ha' & _), (upgrade_list _ Hb) as (b' & -> & Hb' & _).
    cbn. do 2 eexists. split_and!; [done|done|]. by rewrite Forall_app.
  - destruct (upgrade_list _ H) as (a' & -> & Ha' & _). cbn. do 2 eexists. by split_and!.
  - destruct (upgrade_list _ H) as (a' & -> & Ha' & _). cbn. do 2 eexists. by split_and!.
  - destruct (upgrade_list _ H) as (a' & -> & Ha' & _). cbn. do 2 eexists. by split_and!.
  - rewrite !Forall_cons in H. destruct H as (Hv & Hd & _).
    destruct (upgrade_valid v Hv) as (v' & -> & ? & ?), (upgrade_valid d Hd) as (d' & -> & ? & ?).
    cbn. do 2 eexists. split_and!; [done|done|]. repeat (apply Forall_cons_2; [done|]); constructor.
  - rewrite !Forall_cons in H. destruct H as (Hv & _). destruct (upgrade_valid v Hv) as (v' & -> & ? & ?).
    cbn. do 2 eexists. split_and!; [done|done|]. repeat (apply Forall_cons_2; [done|]); constructor.
  - rewrite !Forall_cons in H. destruct H as (Hv & _). destruct (upgrade_valid v Hv) as (v' & -> & ? & ?).
    cbn. do 2 eexists. split_and!; [done|done|]. repeat (apply Forall_cons_2; [done|]); constructor.
  - rewrite !Forall_cons in H. destruct H as (Hv & _). destruct (upgrade_valid v Hv) as (v' & -> & ? & ?).
    cbn. do 2 eexists. split_and!; [done|done|]. repeat (apply Forall_cons_2; [done|]); constructor.
Qed.

(** [validateAndUpgradeResources] is all or nothing: it returns, and either
    it reports an error and leaves the operation unchanged, or every resource
    of the operation was valid and is now valid and in the new format. *)
Theorem validate_and_upgrade_atomic op :
  match validateAndUpgradeResources op with
  | Some (Some _, op') => op' = op
  | Some (None, op') =>
      (exists l, operation_resources op = Ok l /\ Forall (fun m => validate_message m = None) l)
      /\ exists l', operation_resources op' = Ok l'
         /\ Forall (fun m => validate_message m = None /\ new_format m) l'
  | None => False
  end.
Proof.
  unfold validateAndUpgradeResources. destruct (operation_resources op) as [l|e] eqn:El; [|done].
  destruct (validate_messages l) eqn:Ev; [done|]. apply validate_messages_none in Ev.
  destruct (upgrade_operation_valid op l El Ev) as (op' & l' & -> & Hl & Hf).
  split; [by exists l|by exists l'].
Qed.

(** ** The two representations *)

Definition of_wire (m : Message) : option Resource :=
  v ← match w_type m with
      | SCALAR => VScalar <$> w_scalar m
      | RANGES => VRanges <$> w_ranges m
      | SET => VSet <$> w_set m
      | TEXT => None
      end;
  Some (mkResource (w_name m) v (w_allocation_info m) (w_reservations m) (w_disk m) (w_revocable m)
          (w_shared m) (w_provider_id m)).

(** A valid message in the new format is exactly a [Resource] of the internal
    representation: it converts to one whose message it is. *)
Theorem wire_roundtrip m :
  validate_message m = None -> new_format m ->
  exists r, of_wire m = Some r /\ wire r = m /\ resource_validate r = None.
Proof.
  intros Hv [Hr Ho]. assert (Hval : validate_value m = None).
  { revert Hv. unfold validate_message. case_if; [done|]. rewrite first_error_none, !Forall_cons. tauto. }
  assert (H : exists r, of_wire m = Some r /\ wire r = m).
  { unfold of_wire, validate_value in *. destruct m as [nm ty sc ra se role old al res di re sh pr].
    cbn in *. subst. destruct ty, sc, ra, se; try done; by eexists. }
  destruct H as (r & H1 & H2). exists r. split_and!; [done..|]. unfold resource_validate. by rewrite H2.
Qed.

Lemma wire_roundtrip_witness :
  exists r, of_wire (wire (volume_ "id" 7)) = Some r /\ wire r = wire (volume_ "id" 7).
Proof.
  destruct (wire_roundtrip (wire (volume_ "id" 7))) as (r & H1 & H2 & _); [by vm_compute|done|].
  by exists r.
Defined.
