(* ===== verification/OperationValidation.v ===== *)
(** * Validation of offer operations

    [namespace resource] and [namespace operation] of
    [src/src/master/validation.cpp]: what the master checks of an operation
    before it is applied.  Resources are in the internal format, to which they
    have been upgraded. *)

From stdpp Require Import base gmap strings list.
From Stdlib Require Import QArith Ascii.
From S2P Require Import Prelude Strings Roles Ranges Scalar Values Resource Resources ResourceOps Conversions.
Local Open Scope Z_scope.

(** ** Identifiers ([src/src/common/validation.cpp]) *)

Inductive id_error := IdEmpty | IdTooLong | IdDisallowed | IdInvalidCharacters.

Definition NAME_MAX : nat := 255.

(** [iscntrl] of the C locale, and the two path separators. *)
Definition invalidCharacter (c : char) : bool :=
  let n := nat_of_ascii c in
  (n <? 32)%nat || (n =? 127)%nat || bool_decide (c = "/"%char) || bool_decide (c = "\"%char).

Definition validateID (id : string) : option id_error :=
  if string_eqb id EmptyString then Some IdEmpty
  else if (NAME_MAX <? String.length id)%nat then Some IdTooLong
  else if string_eqb id "." || string_eqb id ".." then Some IdDisallowed
  else check (existsb invalidCharacter (explode id)) IdInvalidCharacters.

(** ** Resources *)

Inductive operation_error :=
  | BadResource (e : resource_error)
  | FractionalGpus
  | RevocableReservation
  | RevocableVolume
  | UnreservedVolume
  | MissingVolume
  | HostPath
  | BadPersistenceId (e : id_error)
  | NonPersistentVolume
  | EmptyDiskInfo
  | DuplicatePersistenceId
  | MixedRevocable
  | NoDiskInfo
  | NoPersistence
  | ReadOnlyVolume
  | NotAllocated
  | ManyAllocationRoles
  | SomeProviders
  | ManyProviderIds
  | EmptySource
  | MixedReservations
  | DifferentQuantities
  | NotDynamicallyReserved
  | NoHierarchicalRole
  | NoReservationRefinement
  | NoPrincipal
  | WrongPrincipal
  | WrongAllocationRole
  | WrongFrameworkRole
  | AllocatedResource
  | VolumeReserved
  | NoSharedCapability
  | VolumeNotFound
  | VolumeInUse
  | NonPositiveAddition
  | ProviderVolume
  | SharedVolume
  | IncompatibleAddition
  | NoResizeCapability
  | NonPositiveSubtract
  | SubtractTooLarge
  | MountVolume
  | NoProvider
  | NotRawDisk
  | BadTargetType
  | ProfileMismatch
  | NotADisk
  | NoDiskId
  | PersistentDisk.

(** The first error over a list. *)
Fixpoint foreach_error {A E : Type} (f : A -> option E) (l : list A) : option E :=
  match l with
  | [] => None
  | x :: l' => match f x with Some e => Some e | None => foreach_error f l' end
  end.

(** [validateDynamicReservationInfo]. *)
Definition validateDynamicReservationInfo : list Resource -> option operation_error :=
  foreach_error (fun r => check (isDynamicallyReserved r && isRevocable r) RevocableReservation).

Definition validateDisk (r : Resource) : option operation_error :=
  match disk r with
  | None => None
  | Some d =>
      match disk_persistence d with
      | Some (id, _) =>
          if isRevocable r then Some RevocableVolume
          else if isUnreserved r then Some UnreservedVolume
          else match disk_volume d with
               | None => Some MissingVolume
               | Some v =>
                   if vol_host_path v then Some HostPath
                   else match validateID id with Some e => Some (BadPersistenceId e) | None => None end
               end
      | None =>
          if disk_volume d then Some NonPersistentVolume
          else if disk_source d then None else Some EmptyDiskInfo
      end
  end.

Definition validateDiskInfo : list Resource -> option operation_error := foreach_error validateDisk.

(** The persistence IDs are unique per role; [reservationRole] has a [CHECK] that
    the volume is reserved. *)
Fixpoint validateUnique_loop (volumes : list Resource) (ids : list (string * string))
  : option operation_error :=
  match volumes with
  | [] => None
  | v :: volumes' =>
      let key := (default EmptyString (reservationRole v),
                  match disk v ≫= disk_persistence with Some (id, _) => id | None => EmptyString end) in
      if bool_decide (key ∈ ids) then Some DuplicatePersistenceId
      else validateUnique_loop volumes' (key :: ids)
  end.

Definition validateUniquePersistenceID (rs : Resources) : option operation_error :=
  validateUnique_loop (to_list (persistentVolumes rs)) [].

Definition validateRevocableAndNonRevocableResources (rs : Resources) : option operation_error :=
  foreach_error (fun n =>
    let resources := get_named n rs in
    check (bool_decide (revocable_ resources <> []) && negb (eqb resources (revocable_ resources)))
      MixedRevocable) (elements (names rs)).

Definition validatePersistentVolume : list Resource -> option operation_error :=
  foreach_error (fun v =>
    match disk v with
    | None => Some NoDiskInfo
    | Some d =>
        match disk_persistence d, disk_volume d with
        | None, _ => Some NoPersistence
        | _, None => Some MissingVolume
        | _, Some vol => check (bool_decide (vol_mode vol = RO)) ReadOnlyVolume
        end
    end).

Fixpoint validateAllocated_loop (role : option string) (l : list Resource) : option operation_error :=
  match l with
  | [] => None
  | r :: l' =>
      match allocation_role r with
      | None => Some NotAllocated
      | Some role' =>
          match role with
          | None => validateAllocated_loop (Some role') l'
          | Some x => if string_eqb role' x then validateAllocated_loop role l' else Some ManyAllocationRoles
          end
      end
  end.

Definition validateAllocatedToSingleRole (rs : Resources) : option operation_error :=
  validateAllocated_loop None (to_list rs).

Definition validateSingleResourceProvider (l : list Resource) : option operation_error :=
  let ids := remove_dups (map provider_id l) in
  if (length ids =? 1)%nat then None
  else if bool_decide (None ∈ ids) then Some SomeProviders else Some ManyProviderIds.

(** [static_cast<long long>(gpus * 1000.0) % 1000 != 0], in binary64 arithmetic
    that truncates; the total of the gpus is the image of a fixed point
    number. *)
Definition truncate_double (x : Q) : Z := Qnum x ÷ Zpos (Qden x).

Definition validateGpus (l : list Resource) : option operation_error :=
  let total := convertToFloating (default 0 (gpus (of_list l))) in
  check (negb (Z.rem (truncate_double (fmul total (inject_Z 1000))) 1000 =? 0)) FractionalGpus.

(** [resource::validate]. *)
Definition resource_validate_all (l : list Resource) : option operation_error :=
  first_error [option_map BadResource (foreach_error resource_validate l); validateGpus l;
               validateDiskInfo l; validateDynamicReservationInfo l].

(** ** Operations *)

Record AgentCapabilities := mkAgentCapabilities {
  hierarchicalRole : bool;
  reservationRefinement : bool;
  resizeVolume : bool;
}.

Record FrameworkInfo := mkFrameworkInfo {
  fw_multi_role : bool;
  fw_role : string;
  fw_roles : list string;
  fw_shared_resources : bool;
}.

(** [protobuf::framework::getRoles]. *)
Definition getRoles (f : FrameworkInfo) : list string :=
  if fw_multi_role f then fw_roles f else [fw_role f].

(** The [CHECK] on the value of a principal holds: a principal is its value. *)
Definition check_principal (principal given : option string) : option operation_error :=
  match principal with
  | None => None
  | Some p =>
      match given with
      | None => Some NoPrincipal
      | Some q => check (negb (string_eqb p q)) WrongPrincipal
      end
  end.

Definition check_agent (capabilities : AgentCapabilities) (r : Resource) : option operation_error :=
  first_error
    [check (negb (hierarchicalRole capabilities)
            && existsb (fun c => bool_decide (c = "/"%char))
                 (explode (default EmptyString (reservationRole r)))) NoHierarchicalRole;
     check (negb (reservationRefinement capabilities) && hasRefinedReservations r) NoReservationRefinement].

(** The lambda [validateReservationResources]. *)
Definition validateReservationResources (l : list Resource) : option operation_error :=
  match l with
  | [] => Some EmptySource
  | r :: _ =>
      check (negb (forallb (fun r' => all2 reservation_eqb (reservations r') (reservations r)) l))
        MixedReservations
  end.

Definition validate_source_resources (l source : list Resource) : option operation_error :=
  match source with
  | [] => None
  | _ :: _ =>
      let source := of_list source in
      let target := of_list l in
      first_error
        [validateReservationResources (to_list source); validateReservationResources (to_list target);
         check (negb (eqb (toUnreserved source) (toUnreserved target))) DifferentQuantities]
  end.

Definition validate_reserved (framework : option FrameworkInfo) (r : Resource) : option operation_error :=
  match framework with
  | Some f =>
      match allocation_role r with
      | None => Some NotAllocated
      | Some role =>
          first_error
            [check (negb (bool_decide (Some role = reservationRole r))) WrongAllocationRole;
             check (negb (bool_decide (role ∈ getRoles f))) WrongFrameworkRole;
             check (negb (bool_decide (default EmptyString (reservationRole r) ∈ getRoles f)))
               WrongFrameworkRole]
      end
  | None => check (bool_decide (is_Some (allocation_info r))) AllocatedResource
  end.

Definition validate_reserve (l source : list Resource) (principal : option string)
  (capabilities : AgentCapabilities) (framework : option FrameworkInfo) : option operation_error :=
  first_error
    [resource_validate_all l;
     resource_validate_all source;
     validate_source_resources l source;
     validateSingleResourceProvider l;
     foreach_error (fun r =>
       first_error
         [check (negb (isDynamicallyReserved r)) NotDynamicallyReserved;
          check_agent capabilities r;
          check_principal principal (last_reservation r ≫= rv_principal);
          validate_reserved framework r]) l;
     match framework with Some _ => validateAllocatedToSingleRole (of_list l) | None => None end].

Definition validate_unreserve (l : list Resource) : option operation_error :=
  first_error
    [resource_validate_all l;
     validateSingleResourceProvider l;
     foreach_error (fun r =>
       first_error [check (negb (isDynamicallyReserved r)) NotDynamicallyReserved;
                    check (isPersistentVolume r) VolumeReserved]) l].

Definition volume_principal (v : Resource) : option string :=
  match disk v ≫= disk_persistence with Some (_, p) => p | None => None end.

Definition validate_create (volumes : list Resource) (checkpointed : Resources)
  (principal : option string) (capabilities : AgentCapabilities) (framework : option FrameworkInfo)
  : option operation_error :=
  first_error
    [resource_validate_all volumes;
     validateSingleResourceProvider volumes;
     validatePersistentVolume volumes;
     validateUniquePersistenceID (plus checkpointed (of_list volumes));
     foreach_error (fun v =>
       first_error
         [match framework with
          | Some f => check (shared v && negb (fw_shared_resources f)) NoSharedCapability
          | None => None
          end;
          check_agent capabilities v;
          check_principal principal (volume_principal v)]) volumes;
     match framework with Some _ => validateAllocatedToSingleRole (of_list volumes) | None => None end].

Definition validate_destroy (l : list Resource) (checkpointed : Resources) (used : list Resources)
  : option operation_error :=
  let volumes := to_list (unallocate (of_list l)) in
  first_error
    [resource_validate_all volumes;
     validateSingleResourceProvider volumes;
     validatePersistentVolume volumes;
     foreach_error (fun v =>
       check (negb (hasResourceProvider v) && negb (contains_resource checkpointed v)) VolumeNotFound)
       volumes;
     foreach_error (fun resources =>
       foreach_error (fun v => check (contains_resource (unallocate resources) v) VolumeInUse) volumes)
       used].

Definition validate_grow (volume addition : Resource) (capabilities : AgentCapabilities)
  : option operation_error :=
  first_error
    [option_map BadResource (resource_validate volume);
     option_map BadResource (resource_validate addition);
     check (scalar_of (value addition) <=? 0) NonPositiveAddition;
     check (hasResourceProvider volume) ProviderVolume;
     validatePersistentVolume (to_list (of_resource volume));
     check (shared volume) SharedVolume;
     check (negb (length (plus_resource (of_resource (with_disk (strip_disk volume) (shared volume) volume))
                            addition) =? 1)%nat) IncompatibleAddition;
     check (negb (resizeVolume capabilities)) NoResizeCapability].

Definition validate_shrink (volume : Resource) (subtract : Z) (capabilities : AgentCapabilities)
  : option operation_error :=
  first_error
    [option_map BadResource (resource_validate volume);
     check (subtract <=? 0) NonPositiveSubtract;
     check (scalar_of (value volume) <=? subtract) SubtractTooLarge;
     check (hasResourceProvider volume) ProviderVolume;
     check (isDisk MOUNT volume) MountVolume;
     validatePersistentVolume (to_list (of_resource volume));
     check (shared volume) SharedVolume;
     check (negb (resizeVolume capabilities)) NoResizeCapability].

Definition source_has {A} (field : Source -> option A) (r : Resource) : bool :=
  match disk r ≫= disk_source with Some s => bool_decide (is_Some (field s)) | None => false end.

Definition validate_create_disk (source : Resource) (target_type : SourceType)
  (target_profile : option string) : option operation_error :=
  first_error
    [resource_validate_all (to_list (of_resource source));
     check (negb (hasResourceProvider source)) NoProvider;
     check (negb (isDisk RAW source)) NotRawDisk;
     check (negb (bool_decide (target_type = MOUNT)) && negb (bool_decide (target_type = BLOCK))) BadTargetType;
     check (Bool.eqb (source_has src_profile source) (bool_decide (is_Some target_profile))) ProfileMismatch].

Definition validate_destroy_disk (source : Resource) : option operation_error :=
  first_error
    [resource_validate_all (to_list (of_resource source));
     check (negb (hasResourceProvider source)) NoProvider;
     check (negb (isDisk MOUNT source) && negb (isDisk BLOCK source) && negb (isDisk RAW source)) NotADisk;
     check (negb (source_has src_id source)) NoDiskId;
     check (isPersistentVolume source) PersistentDisk].

(** ** What validation establishes *)

Lemma foreach_error_none {A E} (f : A -> option E) l :
  foreach_error f l = None <-> Forall (fun x => f x = None) l.
Proof.
  induction l as [|x l IH]; cbn; [done|]. rewrite Forall_cons, <- IH.
  destruct (f x); [|tauto]. split; [done|by intros [? _]].
Qed.

Lemma check_none {E} b (e : E) : check b e = None <-> b = false.
Proof. by destruct b. Qed.

Lemma first_error_cons {E} (o : option E) l : first_error (o :: l) = None <-> o = None /\ first_error l = None.
Proof. destruct o; cbn; [|tauto]. split; [done|by intros [? _]]. Qed.

Lemma option_map_none {A B} (f : A -> B) o : option_map f o = None <-> o = None.
Proof. by destruct o. Qed.

(** Turn [validate ... = None] into the conditions it checks. *)
Ltac validation H :=
  repeat (rewrite ?first_error_cons, ?check_none, ?option_map_none, ?foreach_error_none in H).

Lemma validate_all_valid l : resource_validate_all l = None -> Forall (fun r => resource_validate r = None) l.
Proof. unfold resource_validate_all. intros H. validation H. tauto. Qed.

(** Only persistent volumes are shared. *)
Lemma valid_shared r : resource_validate r = None -> isPersistentVolume r = false -> shared r = false.
Proof.
  unfold resource_validate, validate_message. case_if; [done|]. intros H. validation H.
  destruct H as (_ & _ & _ & Hs & _). revert Hs. unfold validate_shared, isPersistentVolume. cbn.
  destruct (shared r); [|done]. case_if; [done|]. destruct (disk r) as [d|]; [|done].
  rewrite check_none. by destruct (bool_decide _).
Qed.

Lemma dynamically_reserved r : isDynamicallyReserved r = true -> reservations r <> [].
Proof. unfold isDynamicallyReserved, isReserved, isUnreserved. intros H E. by rewrite E in H. Qed.

(** Equal holdings have equal totals. *)
Lemma same_holdings_cons e a b :
  wf_resources (e :: a) -> wf_resources b -> same_holdings (e :: a) b ->
  exists e' b', b ≡ₚ e' :: b' /\ same_key (resource e) (resource e') = true
    /\ (forall p, units e p = units e' p) /\ same_holdings a b'.
Proof.
  intros Ha Hb H. assert (Ha' := Ha). apply wf_cons in Ha' as (He & _ & Ha').
  destruct (units_positive e He) as [q Hq].
  assert (Hself : forall p, weight (resource e) p e = units e p).
  { intros p. unfold weight. by rewrite be_refl by eauto with clusterd. }
  destruct (measure_pick b (resource e) q) as (e' & b' & Hp & Hk); [by destruct Hb| |].
  { rewrite <- H, measure_cons, Hself by eauto with clusterd.
    assert (Hn := measure_nonneg a (resource e) q (wr_elements _ Ha')). lia. }
  exists e', b'. assert (Hb' := wf_perm _ _ Hp Hb). assert (He' := proj1 (proj1 (wf_cons _ _) Hb')).
  assert (Hu : forall p, units e p = units e' p).
  { intros p. destruct (combines e) eqn:Hc.
    - assert (Hm := H (resource e) p ltac:(eauto with clusterd)).
      rewrite Hp, !measure_cons, Hself, (measure_rest e) in Hm by
        (try apply be_refl; eauto with clusterd).
      rewrite (measure_rest e') in Hm; [|done|eauto with clusterd|done|by rewrite <- (combines_key _ _ Hk)].
      unfold weight in Hm. rewrite Hk in Hm. lia.
    - rewrite (proj2 (proj2 (units_exclusive e He Hc))). rewrite (combines_key _ _ Hk) in Hc.
      by rewrite (proj2 (proj2 (units_exclusive e' He' Hc))). }
  split_and!; [done..|]. intros k p Hkw. specialize (H k p Hkw). rewrite Hp, !measure_cons in H.
  unfold weight in H. rewrite (same_key_subst k (resource e) (resource e')) in H by eauto with clusterd.
  rewrite Hu in H. lia.
Qed.

Lemma same_holdings_totals a b :
  wf_resources a -> wf_resources b -> same_holdings a b -> same_totals a b.
Proof.
  revert b. induction a as [|e a IH]; intros b Ha Hb H n p.
  - destruct b as [|e b]; [done|]. exfalso. assert (He := proj1 (proj1 (wf_cons _ _) Hb)).
    destruct (units_positive e He) as [q Hq]. specialize (H (resource e) q ltac:(eauto with clusterd)).
    rewrite measure_cons in H. unfold weight, measure at 1 in H. rewrite be_refl in H by eauto with clusterd.
    cbn in H. apply wf_cons in Hb as (_ & _ & [Hb _]).
    assert (Hn := measure_nonneg b (resource e) q Hb). lia.
  - destruct (same_holdings_cons e a b Ha Hb H) as (e' & b' & Hp & Hk & Hu & Hs).
    assert (Hb' := wf_perm _ _ Hp Hb). apply wf_cons in Ha as (He & _ & Ha), Hb' as (He' & _ & Hb').
    rewrite Hp, !ptotal_cons, (IH b' Ha Hb' Hs n p). f_equal. unfold pamount.
    rewrite (same_key_name _ _ Hk). case_if; [|done]. by apply same_units_amount.
Qed.

Lemma source_same_totals l source :
  Forall wf_resource l -> Forall wf_resource source ->
  Forall (fun r => shared r = false) l -> Forall (fun r => shared r = false) source ->
  no_twin_disks (toUnreserved (of_list l)) -> no_twin_disks (toUnreserved (of_list source)) ->
  eqb (toUnreserved (of_list source)) (toUnreserved (of_list l)) = true ->
  same_totals (of_list l) (of_list source).
Proof.
  intros Wl Ws Ul Us Tl Ts He.
  assert (H' : forall l, Forall (fun r => shared r = false) l -> unshared (of_list l)).
  { intros l' Hl'. apply of_list_Forall; [intros a b; by rewrite plus_shared_flag|done]. }
  destruct (of_list_wf _ Wl) as [Hl _], (of_list_wf _ Ws) as [Hs _].
  destruct (toUnreserved_spec _ Hl (H' _ Ul)) as (Wl' & _ & Pl).
  destruct (toUnreserved_spec _ Hs (H' _ Us)) as (Ws' & _ & Ps).
  apply eqb_spec in He; [|done..]. apply same_holdings_totals in He; [|done..].
  intros n p. rewrite <- Pl, <- Ps. symmetry. apply He.
Qed.

(** ** Resizing *)

Lemma persistent_of_resource r :
  resource_validate r = None -> isEmpty r = false ->
  validatePersistentVolume (to_list (of_resource r)) = None -> isPersistentVolume r = true.
Proof.
  intros Hv He. rewrite of_resource_eq, Hv, He. unfold isPersistentVolume. cbn.
  destruct (disk r) as [d|]; [|done]. by destruct (disk_persistence d).
Qed.

Lemma grow_validated volume addition capabilities :
  wf_resource volume -> wf_resource addition -> isEmpty volume = false ->
  validate_grow volume addition capabilities = None ->
  exists x y, plain x volume /\ plain y addition /\ name addition = name volume
              /\ isPersistentVolume volume = true.
Proof.
  intros Wv Wa He H. unfold validate_grow in H. validation H.
  destruct H as (Hv & Ha & Hz & _ & Hp & Hs & Hl & _). breflect.
  assert (Ea : value addition = VScalar (scalar_of (value addition))).
  { destruct (value addition); cbn in *; done || lia. }
  assert (Hea : isEmpty addition = false). { unfold isEmpty. rewrite Ea. apply Z.eqb_neq. lia. }
  set (stripped := with_disk (strip_disk volume) (shared volume) volume) in Hl.
  assert (Estrip : stripped = strip volume) by (unfold stripped, strip; by rewrite Hs).
  rewrite Estrip in Hl. clear stripped Estrip.
  assert (Hsv := strip_valid volume (wr_value _ Wv) Hv).
  rewrite of_resource_eq, Hsv in Hl. change (isEmpty (strip volume)) with (isEmpty volume) in Hl.
  rewrite He in Hl. unfold plus_resource, plus_resource_ in Hl. rewrite validate_to_Resource_, Ha in Hl.
  unfold add in Hl. rewrite isEmpty_to_Resource_, Hea in Hl. cbn in Hl.
  destruct (addable (strip volume) addition) eqn:Hadd; [|done].
  rewrite addable_key in Hadd by (apply wr_metadata, strip_wf, Wv).
  apply andb_true_iff in Hadd as [Hk _].
  assert (Hn := same_key_name _ _ Hk). assert (Ht := same_key_type _ _ Hk).
  assert (Hsa := same_key_shared _ _ Hk). cbn in Hn, Ht, Hsa. rewrite Ea in Ht.
  destruct (value volume) as [x| | |] eqn:Ex; try done.
  exists x, (scalar_of (value addition)).
  split_and!; [by split|by split|done|by apply persistent_of_resource].
Qed.

Lemma shrink_validated volume z capabilities :
  wf_resource volume -> validate_shrink volume z capabilities = None ->
  exists x, plain x volume /\ 0 <= z <= x.
Proof.
  intros Wv H. unfold validate_shrink in H. validation H.
  destruct H as (Hv & Hz & Hx & _ & _ & _ & Hs & _). breflect.
  destruct (value volume) as [x| | |] eqn:Ex; cbn in Hx; try lia.
  exists x. split; [by split|lia].
Qed.

Lemma unreserve_validated l :
  Forall wf_resource l -> validate_unreserve l = None -> Forall movable l.
Proof.
  intros Hw H. unfold validate_unreserve in H. validation H. destruct H as (Hv & _ & Hf & _).
  apply validate_all_valid in Hv. rewrite Forall_forall in *. intros r Hr.
  specialize (Hf r Hr). validation Hf. destruct Hf as (Hd & Hp & _). apply negb_false_iff in Hd.
  split; [auto|apply valid_shared; auto|by apply dynamically_reserved].
Qed.

Lemma reserve_validated l source principal capabilities framework :
  validate_reserve l source principal capabilities framework = None ->
  Forall (fun r => reservations r <> []) l
  /\ (source <> [] -> eqb (toUnreserved (of_list source)) (toUnreserved (of_list l)) = true).
Proof.
  intros H. unfold validate_reserve in H. validation H. destruct H as (_ & _ & Hs & _ & Hf & _). split.
  - eapply Forall_impl; [apply Hf|]. intros r Hr. cbv beta in Hr. validation Hr. destruct Hr as (Hd & _).
    apply negb_false_iff in Hd. by apply dynamically_reserved.
  - intros Hne. destruct source as [|r source]; [done|]. unfold validate_source_resources in Hs.
    validation Hs. destruct Hs as (_ & _ & He & _). by apply negb_false_iff in He.
Qed.

Lemma create_validated volumes checkpointed principal capabilities framework :
  validate_create volumes checkpointed principal capabilities framework = None ->
  Forall (fun v => resource_validate v = None) volumes.
Proof. intros H. unfold validate_create in H. validation H. destruct H. by apply validate_all_valid. Qed.

(** ** Properties *)

(** Who performs an operation on what. *)
Record Context := mkContext {
  cx_principal : option string;
  cx_capabilities : AgentCapabilities;
  cx_framework : option FrameworkInfo;
  cx_checkpointed : Resources;
  cx_used : list Resources;
}.

(** The calls of [operation::validate] in [Master::_accept]. *)
Definition operation_validate (cx : Context) (op : Operation Resource) : option operation_error :=
  match op with
  | RESERVE (Some (l, source)) =>
      validate_reserve l source (cx_principal cx) (cx_capabilities cx) (cx_framework cx)
  | UNRESERVE (Some l) => validate_unreserve l
  | CREATE (Some l) =>
      validate_create l (cx_checkpointed cx) (cx_principal cx) (cx_capabilities cx) (cx_framework cx)
  | DESTROY (Some l) => validate_destroy l (cx_checkpointed cx) (cx_used cx)
  | GROW_VOLUME (Some (volume, addition)) => validate_grow volume addition (cx_capabilities cx)
  | SHRINK_VOLUME (Some (volume, z)) => validate_shrink volume z (cx_capabilities cx)
  | _ => None
  end.

(** What validation does not check: the canonical representation of the
    resources, that whole disks occur once, that shared volumes are not
    reserved or created twice, and that the volume to grow is not empty.  Each
    resource of [DESTROY] was validated with the whole operation
    ([validateAndUpgradeResources]). *)
Definition unchecked (rs : Resources) (op : Operation Resource) : Prop :=
  match op with
  | RESERVE (Some (l, source)) =>
      Forall wf_resource l /\ Forall wf_resource source
      /\ Forall (fun r => shared r = false) l /\ Forall (fun r => shared r = false) source
      /\ (forall c, popReservation (of_list l) = Some c -> no_twin_disks c)
      /\ no_twin_disks (of_list source)
      /\ no_twin_disks (toUnreserved (of_list l)) /\ no_twin_disks (toUnreserved (of_list source))
  | UNRESERVE (Some l) => Forall wf_resource l
  | CREATE (Some l) =>
      Forall wf_resource l /\ Forall (fun v => shared v = true -> measure rs v PScalar = 0) l
      /\ pairwise (fun v v' => shared v' = true -> same_key v' v = false) l
  | DESTROY (Some l) => Forall (fun v => wf_resource v /\ resource_validate v = None) l
  | GROW_VOLUME (Some (volume, addition)) =>
      wf_resource volume /\ wf_resource addition /\ isEmpty volume = false
  | SHRINK_VOLUME (Some (volume, _)) => wf_resource volume
  | UNKNOWN | LAUNCH _ | LAUNCH_GROUP _ | CREATE_DISK _ | DESTROY_DISK _ => True
  | _ => False
  end.

Lemma master_validated cx rs op :
  operation_validate cx op = None -> unchecked rs op -> validated rs op.
Proof.
  destruct op as [|tasks|group|[[l source]|]|[l|]|[vs|]|[vs|]|[[v a]|]|[[v z]|]|d|d];
    cbn [operation_validate unchecked]; try done; intros H Hu.
  - destruct Hu as (Wl & Ws & Ul & Us & Tp & Ts & Tul & Tus).
    apply reserve_validated in H as [Hr Hs]. destruct source as [|s source].
    + split; [|done]. rewrite Forall_forall in *. intros r Hin. split; auto.
    + repeat (split; [done|]). by apply source_same_totals; auto.
  - by apply unreserve_validated.
  - destruct Hu as (Hw & Hn & Hd). apply create_validated in H. split; [|done].
    rewrite Forall_forall in *. intros v Hin. split; auto.
  - destruct Hu as (Wv & Wa & He). by eapply grow_validated.
  - by eapply shrink_validated.
Qed.

(** C38. The validation of the master and the conditions it leaves out together
    make operations safe to apply: if validation accepts an operation and the
    conditions of [unchecked] hold (the resources are in canonical form, whole
    disks occur once, shared volumes are neither reserved nor created twice, and
    the volume to grow is not empty), then applying it never fails a [CHECK], and
    if it is applied it takes out and puts in exactly what the operation names,
    of every kind of resource, and keeps the total under every name.  The
    conditions are needed: see [grow_empty_volume_accepted],
    [grow_empty_volume_loses] and [create_existing_shared_accepted]. *)
Theorem accepted_operation_conserves cx rs op :
  wf_resources rs -> operation_validate cx op = None -> unchecked rs op ->
  match apply rs op with
  | Ok rs' =>
      (forall k p, wf_resource k -> measure rs' k p = after_exchange (exchanged op) k p (measure rs k p))
      /\ wf_resources rs' /\ (forall n p, ptotal n p rs' = ptotal n p rs) /\ sane rs rs' = true
  | Err e => e <> CheckFailed
  end.
Proof.
  intros Hrs Hv Hu. assert (H := master_validated cx rs op Hv Hu). by apply apply_exchanges.
Qed.

Definition any_agent : AgentCapabilities := mkAgentCapabilities true true true.
Definition operator_context (checkpointed : Resources) : Context :=
  mkContext None any_agent None checkpointed [].

Definition volume_disk (id : string) (z : Z) : Resource :=
  mkResource "disk" (VScalar z) None [dynamic_ "a"]
    (Some (mkDiskInfo (Some (id, None)) (Some (mkVolume RW "v" None)) None)) false false None.

Lemma accepted_operation_conserves_witness :
  let rs := of_list [disk_pool 9000; volume_disk "id" 4000] in
  let rs' := of_list [disk_pool 8000; volume_disk "id" 5000] in
  apply rs (GROW_VOLUME (Some (volume_disk "id" 4000, disk_pool 1000))) = Ok rs'
  /\ measure rs' (disk_pool 1) PScalar = 8000.
Proof.
  intros rs rs'. assert (E : apply rs (GROW_VOLUME (Some (volume_disk "id" 4000, disk_pool 1000))) = Ok rs') by (by vm_compute).
  split; [done|].
  assert (H := accepted_operation_conserves (operator_context []) rs (GROW_VOLUME (Some (volume_disk "id" 4000, disk_pool 1000)))).
  rewrite E in H. destruct H as (Hm & _).
  - apply of_list_wf. solve_wf.
  - by vm_compute.
  - split_and!; [solve_wf|solve_wf|by vm_compute].
  - rewrite Hm by solve_wf. by vm_compute.
Defined.

(** Resources that the sanity checks do not look at are not even caught: with
    an empty volume of another name, "bar" becomes "foo". *)
Theorem grow_empty_volume_loses :
  let custom n z := mkResource n (VScalar z) None [] None false false None in
  let op := GROW_VOLUME (Some (custom "foo"%string 0, custom "bar"%string 5000)) in
  let rs := of_list [custom "bar"%string 5000] in
  exists rs', operation_validate (operator_context []) op = None /\ apply rs op = Ok rs'
    /\ ptotal "bar" PScalar rs = 5000 /\ ptotal "bar" PScalar rs' = 0 /\ ptotal "foo" PScalar rs' = 5000.
Proof. eexists. split_and!; vm_compute; reflexivity. Qed.

(** [GROW_VOLUME] with an empty volume passes validation whatever that volume
    is, since the checks on it are made on a collection that drops it: disk
    becomes cpus when the conversion is applied, and the sanity checks of
    [apply] abort the process. *)
Theorem grow_empty_volume_accepted :
  let op := GROW_VOLUME (Some (cpus_ 0, disk_pool 5000)) in
  let rs := of_list [disk_pool 5000] in
  operation_validate (operator_context []) op = None
  /\ (let? conversions := getResourceConversions op in apply_conversions rs conversions)
     = Ok (of_list [cpus_ 5000])
  /\ apply rs op = Err CheckFailed.
Proof. by vm_compute. Qed.

(** Creating a shared volume that exists already passes the check that
    persistence IDs are unique, since the two copies are one element of the
    collection that is checked, and then aborts the process. *)
Theorem create_existing_shared_accepted :
  let op := CREATE (Some [volume_ "id" 300000]) in
  let rs := of_list [disk_pool 1000000; volume_ "id" 300000] in
  operation_validate (operator_context (of_list [volume_ "id" 300000])) op = None
  /\ apply rs op = Err CheckFailed.
Proof. by vm_compute. Qed.

(** The check that gpus are whole truncates a product of doubles: 1.001 gpus
    are accepted, 1.002 are not. *)
Theorem fractional_gpus_accepted :
  let gpus_ z := mkResource "gpus" (VScalar z) None [] None false false None in
  validateGpus [gpus_ 1001] = None /\ validateGpus [gpus_ 1002] = Some FractionalGpus.
Proof. by vm_compute. Qed.

(** The persistence IDs of a collection without shared volumes are unique per
    role if the check passes. *)
Definition persistence_key (v : Resource) : string * string :=
  (default EmptyString (reservationRole v),
   match disk v ≫= disk_persistence with Some (id, _) => id | None => EmptyString end).

Lemma validateUnique_loop_spec l ids :
  validateUnique_loop l ids = None <->
  NoDup (map persistence_key l) /\ forall v, v ∈ l -> persistence_key v ∉ ids.
Proof.
  revert ids. induction l as [|v l IH]; intros ids; cbn [validateUnique_loop map].
  - split; [|done]. split; [constructor|]. intros v Hv. by apply not_elem_of_nil in Hv.
  - fold (persistence_key v). rewrite NoDup_cons. case_bool_decide as Hin.
    + split; [done|]. intros [_ H]. exfalso. apply (H v); [by left|done].
    + rewrite IH. split.
      * intros [Hd Hn]. split_and!; [|done|].
        -- intros Hv. apply list_elem_of_fmap in Hv as (v' & E & Hv'). apply (Hn v' Hv'). rewrite <- E. by left.
        -- intros v' [->|Hv']%elem_of_cons; [done|]. specialize (Hn v' Hv'). set_solver.
      * intros [[Hv Hd] Hn]. split; [done|]. intros v' Hv'. rewrite not_elem_of_cons.
        split; [|by apply Hn; right]. intros E. apply Hv. rewrite <- E. by apply list_elem_of_fmap_2.
Qed.

(** The check of persistence IDs passes exactly when no two persistent
    volumes of the collection have both the same role and the same ID. *)
Theorem unique_persistence_ids rs :
  validateUniquePersistenceID rs = None <->
  NoDup (map persistence_key (to_list (persistentVolumes rs))).
Proof.
  unfold validateUniquePersistenceID. rewrite validateUnique_loop_spec.
  split; [by intros [? _]|]. intros H. split; [done|]. intros v _. apply not_elem_of_nil.
Qed.
