(* ===== verification/StatusUpdates.v ===== *)
(** * Status update manager

    [StatusUpdateManagerProcess] of
    [src/src/status_update_manager/status_update_manager_process.hpp], for the
    updates of operations: streams of updates that are checkpointed, forwarded
    one at a time, retried until they are acknowledged, and recovered after a
    restart.

    The file of a stream is the list of records that were written completely
    and what follows them; forwarded updates and timers are recorded in the
    state.  [None] is a failed [CHECK].  An update has the fields the manager
    reads or writes; opening, writing and a corrupt file can fail, seeking,
    truncating and removing files is assumed to succeed. *)

From stdpp Require Import base gmap strings list relations.
From S2P Require Import Prelude.
Local Open Scope Z_scope.

(** ** Data *)

Inductive OperationState :=
  | OPERATION_UNSUPPORTED | OPERATION_PENDING | OPERATION_FINISHED | OPERATION_FAILED
  | OPERATION_ERROR | OPERATION_DROPPED | OPERATION_UNREACHABLE | OPERATION_GONE_BY_OPERATOR
  | OPERATION_RECOVERING | OPERATION_UNKNOWN.

Definition isTerminalState (s : OperationState) : bool :=
  match s with
  | OPERATION_DROPPED | OPERATION_ERROR | OPERATION_FAILED | OPERATION_FINISHED
  | OPERATION_GONE_BY_OPERATOR => true
  | _ => false
  end.

Record OperationStatus := mkStatus { os_uuid : option string; os_state : OperationState }.

Record Update := mkUpdate {
  up_framework_id : option string;
  up_status : OperationStatus;
  up_latest_status : option OperationStatus;
}.

#[export] Instance OperationState_eq_dec : EqDecision OperationState.
Proof. solve_decision. Defined.
#[export] Instance OperationStatus_eq_dec : EqDecision OperationStatus.
Proof. solve_decision. Defined.
#[export] Instance Update_eq_dec : EqDecision Update.
Proof. solve_decision. Defined.

Inductive CheckpointRecord := UPDATE (u : Update) | ACK (uuid : option string).

(** What follows the last complete record: nothing, a record that was cut off, or
    bytes that are not a record. *)
Inductive Tail := Clean | Partial | Corrupt.

Record File := mkFile { f_records : list CheckpointRecord; f_tail : Tail }.

Section UUID.
(** [UUID::fromBytes], whose argument reads as empty when it is not set. *)
Context (fromBytes : string -> option string).

Definition uuid_of (u : Update) : option string := fromBytes (default EmptyString (os_uuid (up_status u))).

Record Stream := mkStream {
  terminated : bool;
  frameworkId : option string;
  timeout : option Z;
  pending : list Update;
  checkpointed : bool;
  received : gset string;
  acknowledged : gset string;
  error : bool;
}.

Definition STATUS_UPDATE_RETRY_INTERVAL_MIN : Z := 10 * 1000000000.
Definition STATUS_UPDATE_RETRY_INTERVAL_MAX : Z := 600 * 1000000000.

Inductive failure :=
  | FileExists | OpenFailed | LatestStatus | MismatchedCheckpoint | MismatchedFramework
  | StreamError | MissingUUID | UnexpectedAcknowledgement | NoStream | DuplicateAcknowledgement
  | UnexpectedRecord | ReadFailed.

(** ** Streams *)

Definition new_stream (framework : option string) (checkpoint : bool) : Stream :=
  mkStream false framework None [] checkpoint ∅ ∅ false.

Definition next (s : Stream) : result failure (option Update) :=
  if error s then Err StreamError else Ok (head (pending s)).

Inductive CheckpointType := TUpdate | TAck.

(** [_handle]: the [CHECK]s are on the error and on the UUID. *)
Definition handle_ (s : Stream) (u : Update) (type : CheckpointType) : option Stream :=
  if error s then None
  else
    uuid ← uuid_of u;
    match type with
    | TUpdate =>
        Some (mkStream (terminated s)
                (match up_framework_id u with Some f => Some f | None => frameworkId s end)
                (timeout s) (pending s ++ [u]) (checkpointed s) ({[uuid]} ∪ received s)
                (acknowledged s) (error s))
    | TAck =>
        Some (mkStream (if terminated s then true else isTerminalState (os_state (up_status u)))
                (frameworkId s) (timeout s) (tail (pending s)) (checkpointed s) (received s)
                ({[uuid]} ∪ acknowledged s) (error s))
    end.

Inductive write_result := Written | WriteFailed (partial : bool).

Definition with_error (s : Stream) : Stream :=
  mkStream (terminated s) (frameworkId s) (timeout s) (pending s) (checkpointed s) (received s)
    (acknowledged s) true.

Definition record_of (u : Update) (type : CheckpointType) : CheckpointRecord :=
  match type with TUpdate => UPDATE u | TAck => ACK (os_uuid (up_status u)) end.

(** A record that was only written in part stays at the end of the file. *)
Definition append_record (f : File) (r : CheckpointRecord) : File := mkFile (f_records f ++ [r]) (f_tail f).
Definition spoil (f : File) (partial : bool) : File :=
  mkFile (f_records f) (if partial then Partial else f_tail f).

(** [handle]: the stream and its file afterwards. *)
Definition handle (s : Stream) (f : File) (u : Update) (type : CheckpointType) (write : write_result)
  : option (result failure () * Stream * File) :=
  if error s then None
  else if checkpointed s then
    match write with
    | Written => s' ← handle_ s u type; Some (Ok (), s', append_record f (record_of u type))
    | WriteFailed partial => Some (Err StreamError, with_error s, spoil f partial)
    end
  else s' ← handle_ s u type; Some (Ok (), s', f).

Definition stream_update (s : Stream) (f : File) (u : Update) (write : write_result)
  : option (result failure bool * Stream * File) :=
  if error s then Some (Err StreamError, s, f)
  else match os_uuid (up_status u) with
       | None => Some (Err MissingUUID, s, f)
       | Some _ =>
           uuid ← uuid_of u;
           if bool_decide (uuid ∈ acknowledged s) then Some (Ok false, s, f)
           else if bool_decide (uuid ∈ received s) then Some (Ok false, s, f)
           else '(r, s', f') ← handle s f u TUpdate write;
                Some (match r with Ok () => Ok true | Err e => Err e end, s', f')
       end.

Definition stream_acknowledgement (s : Stream) (f : File) (uuid : string) (write : write_result)
  : option (result failure bool * Stream * File) :=
  match next s with
  | Err e => Some (Err e, s, f)
  | Ok None => Some (Err UnexpectedAcknowledgement, s, f)
  | Ok (Some u) =>
      if bool_decide (uuid ∈ acknowledged s) then Some (Ok false, s, f)
      else
        expected ← uuid_of u;
        if bool_decide (uuid = expected) then
          '(r, s', f') ← handle s f u TAck write;
          Some (match r with Ok () => Ok true | Err e => Err e end, s', f')
        else Some (Ok false, s, f)
  end.

(** Reading the records of a file back; the state collects the updates. *)
Fixpoint replay (records : list CheckpointRecord) (s : Stream) (updates : list Update)
  : option (result failure (Stream * list Update)) :=
  match records with
  | [] => Some (Ok (s, updates))
  | ACK _ :: records' =>
      match next s with
      | Err e => Some (Err e)
      | Ok None => Some (Err UnexpectedRecord)
      | Ok (Some u) => s' ← handle_ s u TAck; replay records' s' updates
      end
  | UPDATE u :: records' => s' ← handle_ s u TUpdate; replay records' s' (updates ++ [u])
  end.

Record StreamState := mkStreamState { ss_updates : list Update; ss_terminated : bool; ss_error : bool }.

(** [StatusUpdateStream::recover], with the file as it is left: truncated to the
    complete records, or removed when there is no update in it.  [directory] is
    whether the directory of the file exists. *)
Definition stream_recover (file : option File) (directory strict : bool)
  : option (result failure (option (Stream * StreamState)) * option File) :=
  match file with
  | None => Some (if directory then Ok None else Err OpenFailed, None)
  | Some f =>
      r ← replay (f_records f) (new_stream None true) [];
      match r with
      | Err e => Some (Err e, Some f)
      | Ok (s, updates) =>
          let f' := mkFile (f_records f) Clean in
          let corrupt := match f_tail f with Corrupt => true | _ => false end in
          if corrupt && strict then Some (Err ReadFailed, Some f')
          else match updates with
               | [] => Some (Ok None, None)
               | _ :: _ => Some (Ok (Some (s, mkStreamState updates (terminated s) corrupt)), Some f')
               end
      end
  end.

(** ** The manager *)

Record Manager := mkManager {
  streams : gmap string Stream;
  frameworkStreams : gmap string (gset string);
  paused : bool;
  files : gmap string File;
  timers : list (string * Z);
  sent : list Update;
}.

Definition with_latest (u : Update) (latest : OperationStatus) : Update :=
  mkUpdate (up_framework_id u) (up_status u) (Some latest).

Definition with_timeout (t : option Z) (s : Stream) : Stream :=
  mkStream (terminated s) (frameworkId s) t (pending s) (checkpointed s) (received s) (acknowledged s)
    (error s).

(** [forward] sends the update with the status of the last pending one and
    starts a timer; the result is the new timeout. *)
Definition forward (m : Manager) (streamId : string) (s : Stream) (u : Update) (duration now : Z)
  : option (Manager * Z) :=
  if paused m then None
  else match up_latest_status u with
       | Some _ => None
       | None =>
           let latest := match last (pending s) with Some b => up_status b | None => up_status u end in
           Some (mkManager (streams m) (frameworkStreams m) (paused m) (files m)
                   (timers m ++ [(streamId, duration)]) (sent m ++ [with_latest u latest]),
                 now + duration)
       end.

Definition set_stream (streamId : string) (s : Stream) (m : Manager) : Manager :=
  mkManager (<[streamId := s]> (streams m)) (frameworkStreams m) (paused m) (files m) (timers m) (sent m).

Definition set_file (streamId : string) (f : option File) (m : Manager) : Manager :=
  mkManager (streams m) (frameworkStreams m) (paused m)
    (match f with Some f => <[streamId := f]> (files m) | None => delete streamId (files m) end)
    (timers m) (sent m).

(** The stream after it was written to, with its file. *)
Definition put (m : Manager) (id : string) (s : Stream) (f : File) : Manager :=
  set_stream id s (if checkpointed s then set_file id (Some f) m else m).
#[local] Arguments put : simpl never.

Definition file_of (m : Manager) (streamId : string) : File := default (mkFile [] Clean) (files m !! streamId).

Definition add_framework (f : option string) (streamId : string) (m : Manager) : Manager :=
  match f with
  | None => m
  | Some f =>
      mkManager (streams m) (<[f := {[streamId]} ∪ default ∅ (frameworkStreams m !! f)]> (frameworkStreams m))
        (paused m) (files m) (timers m) (sent m)
  end.

(** [createStatusUpdateStream]; [opened] is whether the file can be opened. *)
Definition createStatusUpdateStream (m : Manager) (streamId : string) (framework : option string)
  (checkpoint opened : bool) : result failure Manager :=
  if checkpoint then
    if files m !! streamId then Err FileExists
    else if opened then
      Ok (add_framework framework streamId
            (set_stream streamId (new_stream framework true)
               (set_file streamId (Some (mkFile [] Clean)) m)))
    else Err OpenFailed
  else Ok (add_framework framework streamId (set_stream streamId (new_stream framework false) m)).

(** The forwarding of an update at the front of the queue. *)
Definition forward_front (m : Manager) (streamId : string) (s : Stream) (u : Update) (now : Z)
  : option Manager :=
  '(m', t) ← forward m streamId s u STATUS_UPDATE_RETRY_INTERVAL_MIN now;
  Some (set_stream streamId (with_timeout (Some t) s) m').

(** [update], once the stream exists. *)
Definition update_stream (m1 : Manager) (s : Stream) (u : Update) (streamId : string) (checkpoint : bool)
  (write : write_result) (now : Z) : option (result failure () * Manager) :=
  if up_latest_status u then Some (Err LatestStatus, m1)
  else if negb (Bool.eqb (checkpointed s) checkpoint) then Some (Err MismatchedCheckpoint, m1)
  else if negb (bool_decide (up_framework_id u = frameworkId s)) then Some (Err MismatchedFramework, m1)
  else
    '(r, s', f') ← stream_update s (file_of m1 streamId) u write;
    let m2 := put m1 streamId s' f' in
    match r with
    | Err e => Some (Err e, m2)
    | Ok false => Some (Ok (), m2)
    | Ok true =>
        if negb (paused m2) && (length (pending s') =? 1)%nat then
          if timeout s' then None
          else match next s' with
               | Err e => Some (Err e, m2)
               | Ok None => None
               | Ok (Some v) => m3 ← forward_front m2 streamId s' v now; Some (Ok (), m3)
               end
        else Some (Ok (), m2)
    end.

(** [update]; [opened] is whether a file can be created. *)
Definition update (m : Manager) (u : Update) (streamId : string) (checkpoint opened : bool)
  (write : write_result) (now : Z) : option (result failure () * Manager) :=
  match (if streams m !! streamId then Ok m
         else createStatusUpdateStream m streamId (up_framework_id u) checkpoint opened) with
  | Err e => Some (Err e, m)
  | Ok m1 => s ← streams m1 !! streamId; update_stream m1 s u streamId checkpoint write now
  end.

(** [cleanupStatusUpdateStream]. *)
Definition cleanupStatusUpdateStream (m : Manager) (streamId : string) : option Manager :=
  s ← streams m !! streamId;
  let m1 := mkManager (delete streamId (streams m)) (frameworkStreams m) (paused m) (files m)
              (timers m) (sent m) in
  match frameworkId s with
  | None => Some m1
  | Some f =>
      ids ← frameworkStreams m !! f;
      let ids' : gset string := ids ∖ {[streamId]} in
      Some (mkManager (streams m1)
              (if bool_decide (ids' = ∅) then delete f (frameworkStreams m)
               else <[f := ids']> (frameworkStreams m))
              (paused m) (files m) (timers m) (sent m))
  end.

(** [acknowledgement]: whether the stream goes on. *)
Definition acknowledgement (m : Manager) (streamId uuid : string) (write : write_result) (now : Z)
  : option (result failure bool * Manager) :=
  match streams m !! streamId with
  | None => Some (Err NoStream, m)
  | Some s =>
      '(r, s', f') ← stream_acknowledgement s (file_of m streamId) uuid write;
      let m1 := put m streamId s' f' in
      match r with
      | Err e => Some (Err e, m1)
      | Ok false => Some (Err DuplicateAcknowledgement, m1)
      | Ok true =>
          let s2 := with_timeout None s' in
          let m2 := set_stream streamId s2 m1 in
          match next s2 with
          | Err e => Some (Err e, m2)
          | Ok v =>
              if terminated s2 then m3 ← cleanupStatusUpdateStream m2 streamId; Some (Ok false, m3)
              else match v with
                   | Some v =>
                       if paused m2 then Some (Ok true, m2)
                       else m3 ← forward_front m2 streamId s2 v now; Some (Ok true, m3)
                   | None => Some (Ok true, m2)
                   end
          end
      end
  end.

(** [recoverStatusUpdateStream]: only streams that are not terminated are kept;
    [add_recovered] is what is done with them. *)
Definition add_recovered (m1 : Manager) (streamId : string) (s : Stream) (now : Z)
  : option (result failure () * Manager) :=
  let m2 := add_framework (frameworkId s) streamId m1 in
  match next s with
  | Err e => Some (Err e, m2)
  | Ok (Some u) =>
      if paused m2 then Some (Ok (), set_stream streamId s m2)
      else '(m3, t) ← forward m2 streamId s u STATUS_UPDATE_RETRY_INTERVAL_MIN now;
           Some (Ok (), set_stream streamId (with_timeout (Some t) s) m3)
  | Ok None => Some (Ok (), set_stream streamId s m2)
  end.

Definition recoverStatusUpdateStream (m : Manager) (streamId : string) (directory strict : bool) (now : Z)
  : option (result failure (option StreamState) * Manager) :=
  '(r, f) ← stream_recover (files m !! streamId) directory strict;
  let m1 := set_file streamId f m in
  match r with
  | Err e => Some (Err e, m1)
  | Ok None => Some (Ok None, m1)
  | Ok (Some (s, state)) =>
      if terminated s then Some (Ok (Some state), m1)
      else
        '(r', m2) ← add_recovered m1 streamId s now;
        Some (match r' with Ok () => Ok (Some state) | Err e => Err e end, m2)
  end.

Fixpoint cleanup_all (m : Manager) (ids : list string) : option Manager :=
  match ids with
  | [] => Some m
  | streamId :: ids' => m' ← cleanupStatusUpdateStream m streamId; cleanup_all m' ids'
  end.

Definition stream_ids (m : Manager) : list string := map fst (map_to_list (streams m)).

(** The recovered state: per stream what its file had, and the errors. *)
Record RecoverState := mkRecoverState {
  rs_streams : gmap string (option StreamState);
  rs_errors : nat;
}.

(** [recover]. *)
Fixpoint recover_loop (m : Manager) (ids : list string) (directory : string -> bool) (strict : bool) (now : Z)
  (state : RecoverState) : option (result failure RecoverState * Manager) :=
  match ids with
  | [] => Some (Ok state, m)
  | streamId :: ids' =>
      '(r, m') ← recoverStatusUpdateStream m streamId (directory streamId) strict now;
      match r with
      | Err e =>
          if strict then
            m'' ← cleanup_all m' (stream_ids m');
            if bool_decide (streams m'' = ∅) && bool_decide (frameworkStreams m'' = ∅)
            then Some (Err e, m'') else None
          else recover_loop m' ids' directory strict now (mkRecoverState (rs_streams state) (S (rs_errors state)))
      | Ok None =>
          recover_loop m' ids' directory strict now
            (mkRecoverState (<[streamId := None]> (rs_streams state)) (rs_errors state))
      | Ok (Some ss) =>
          recover_loop m' ids' directory strict now
            (mkRecoverState (<[streamId := Some ss]> (rs_streams state))
               (if ss_error ss then S (rs_errors state) else rs_errors state))
      end
  end.

Definition recover (m : Manager) (ids : list string) (directory : string -> bool) (strict : bool) (now : Z)
  : option (result failure RecoverState * Manager) :=
  recover_loop m ids directory strict now (mkRecoverState ∅ 0).

(** [cleanup] of a framework. *)
Definition cleanup (m : Manager) (framework : string) : option Manager :=
  match frameworkStreams m !! framework with
  | Some ids => cleanup_all m (elements ids)
  | None => Some m
  end.

Definition with_paused (p : bool) (m : Manager) : Manager :=
  mkManager (streams m) (frameworkStreams m) p (files m) (timers m) (sent m).

Definition pause (m : Manager) : Manager := with_paused true m.

(** [resume]: every stream forwards its next update. *)
Fixpoint resume_loop (m : Manager) (l : list (string * Stream)) (now : Z) : option Manager :=
  match l with
  | [] => Some m
  | (streamId, s) :: l' =>
      match next s with
      | Ok (Some u) => m' ← forward_front m streamId s u now; resume_loop m' l' now
      | _ => resume_loop m l' now
      end
  end.

Definition resume (m : Manager) (now : Z) : option Manager :=
  resume_loop (with_paused false m) (map_to_list (streams m)) now.

(** [timeout], when the timer of a forwarded update fires. *)
Definition timed_out (m : Manager) (streamId : string) (duration now : Z) : option Manager :=
  if paused m then Some m
  else match streams m !! streamId with
       | None => Some m
       | Some s =>
           match pending s with
           | [] => Some m
           | u :: _ =>
               t ← timeout s;
               if t <=? now then
                 let duration_ := Z.min (duration * 2) STATUS_UPDATE_RETRY_INTERVAL_MAX in
                 '(m', t') ← forward m streamId s u duration_ now;
                 Some (set_stream streamId (with_timeout (Some t') s) m')
               else Some m
           end
       end.

(** A restart of the process: the files survive (and what was sent); the new
    manager can be paused before it recovers. *)
Definition restart (p : bool) (m : Manager) : Manager := mkManager ∅ ∅ p (files m) [] (sent m).

(** The events that reach the process; the timer that fires is one that was
    started. *)
Inductive Event :=
  | EUpdate (u : Update) (streamId : string) (checkpoint opened : bool) (write : write_result) (now : Z)
  | EAcknowledgement (streamId uuid : string) (write : write_result) (now : Z)
  | ETimer (i : nat) (now : Z)
  | ECleanup (framework : string)
  | EPause
  | EResume (now : Z)
  | ERestart (p : bool) (ids : list string) (directory : string -> bool) (strict : bool) (now : Z).

Definition drop_timer (i : nat) (m : Manager) : Manager :=
  mkManager (streams m) (frameworkStreams m) (paused m) (files m) (delete i (timers m)) (sent m).

Definition step (m : Manager) (e : Event) : option Manager :=
  match e with
  | EUpdate u id c o w now => '(_, m') ← update m u id c o w now; Some m'
  | EAcknowledgement id x w now => '(_, m') ← acknowledgement m id x w now; Some m'
  | ETimer i now =>
      match timers m !! i with
      | Some (id, d) => timed_out (drop_timer i m) id d now
      | None => Some m
      end
  | ECleanup f => cleanup m f
  | EPause => Some (pause m)
  | EResume now => resume m now
  | ERestart p ids d strict now => '(_, m') ← recover (restart p m) ids d strict now; Some m'
  end.

Definition start : Manager := mkManager ∅ ∅ false ∅ [] [].

(** ** What a stream stands for

    The updates it received, in order, and how many of them were
    acknowledged. *)

Definition uuids (l : list Update) : list string := omap uuid_of l.

Record history_ok (U : list Update) : Prop := {
  h_uuid : Forall (fun u => is_Some (uuid_of u)) U;
  h_unique : NoDup (uuids U);
  h_latest : Forall (fun u => up_latest_status u = None) U;
}.

Definition terminal (u : Update) : bool := isTerminalState (os_state (up_status u)).

Record view (s : Stream) (U : list Update) (k : nat) : Prop := {
  v_history : history_ok U;
  v_bound : (k <= length U)%nat;
  v_pending : pending s = drop k U;
  v_received : received s = list_to_set (uuids U);
  v_acknowledged : acknowledged s = list_to_set (uuids (take k U));
  v_terminated : terminated s = existsb terminal (take k U);
  v_framework : Forall (fun u => up_framework_id u = frameworkId s) U;
}.

(** The records of a file with the updates and the acknowledgements in them. *)
Inductive log_of : list CheckpointRecord -> list Update -> nat -> Prop :=
  | log_nil : log_of [] [] 0
  | log_update r U k u : log_of r U k -> log_of (r ++ [UPDATE u]) (U ++ [u]) k
  | log_ack r U k u : log_of r U k -> U !! k = Some u -> log_of (r ++ [ACK (os_uuid (up_status u))]) U (S k).

Lemma uuids_app a b : uuids (a ++ b) = uuids a ++ uuids b.
Proof. apply omap_app. Qed.

Lemma view_new f c : view (new_stream f c) [] 0.
Proof. split; try done. split; constructor. Qed.

Lemma history_snoc U u x :
  history_ok U -> uuid_of u = Some x -> x ∉ (list_to_set (uuids U) : gset string) ->
  up_latest_status u = None -> history_ok (U ++ [u]).
Proof.
  intros [Hu Hn Hl] Hx Hnew Hlat. split.
  - apply Forall_app. split; [done|]. constructor; [by rewrite Hx|constructor].
  - rewrite uuids_app. unfold uuids at 2. cbn. rewrite Hx. apply NoDup_app. split_and!; [done| |].
    + intros y Hy. rewrite elem_of_list_to_set in Hnew. set_solver.
    + apply NoDup_singleton.
  - apply Forall_app. split; [done|]. by constructor.
Qed.

Lemma handle_update_view s U k u x :
  view s U k -> error s = false -> uuid_of u = Some x -> x ∉ received s ->
  up_latest_status u = None -> (U = [] /\ frameworkId s = None) \/ up_framework_id u = frameworkId s ->
  exists s', handle_ s u TUpdate = Some s' /\ view s' (U ++ [u]) k /\ error s' = false
    /\ timeout s' = timeout s /\ checkpointed s' = checkpointed s /\ pending s' = pending s ++ [u]
    /\ frameworkId s' = match up_framework_id u with Some f => Some f | None => frameworkId s end.
Proof.
  intros [Hh Hk Hp Hr Ha Ht Hf] He Hx Hnew Hl Hfw. unfold handle_. rewrite He, Hx. cbn.
  eexists. split_and!; [done| |done..]. rewrite Hr in Hnew.
  split; cbn; [by eapply history_snoc|rewrite length_app; lia| | | | |].
  - by rewrite Hp, drop_app_le.
  - rewrite Hr, uuids_app. unfold uuids at 3. cbn. rewrite Hx. set_solver.
  - by rewrite Ha, take_app_le.
  - by rewrite Ht, take_app_le.
  - apply Forall_app. split; [|constructor; [|constructor]].
    + destruct Hfw as [[-> _]|Hfw]; [constructor|]. rewrite Hfw. by destruct (frameworkId s).
    + destruct Hfw as [[_ Hn]|Hfw]; [by rewrite Hn; destruct (up_framework_id u)|].
      rewrite Hfw. by destruct (frameworkId s).
Qed.

Lemma handle_ack_view s U k u :
  view s U k -> error s = false -> U !! k = Some u ->
  exists s', handle_ s u TAck = Some s' /\ view s' U (S k) /\ error s' = false
    /\ timeout s' = timeout s /\ checkpointed s' = checkpointed s /\ frameworkId s' = frameworkId s.
Proof.
  intros [Hh Hk Hp Hr Ha Ht Hf] He Hu. unfold handle_. rewrite He.
  assert (Hx : is_Some (uuid_of u)).
  { destruct Hh as [Hh _ _]. rewrite Forall_forall in Hh. apply Hh. by eapply list_elem_of_lookup_2. }
  destruct Hx as [x Hx]. rewrite Hx. cbn. eexists. split_and!; [done| |done..].
  split; cbn; [done|by apply lookup_lt_Some in Hu| |done| | |done].
  - rewrite Hp. erewrite drop_S by done. done.
  - rewrite Ha. erewrite take_S_r by done. rewrite uuids_app. unfold uuids at 3. cbn. rewrite Hx. set_solver.
  - rewrite Ht. erewrite take_S_r by done. rewrite existsb_app. cbn. rewrite orb_false_r.
    by destruct (existsb terminal (take k U)).
Qed.

(** Reading a file back gives the stream that wrote it. *)
Lemma replay_app r1 r2 s l :
  replay (r1 ++ r2) s l
  = (r ← replay r1 s l; match r with Ok (s', l') => replay r2 s' l' | Err e => Some (Err e) end).
Proof.
  revert s l. induction r1 as [|[u|x] r1 IH]; intros s l; cbn; [done| |].
  - destruct (handle_ s u TUpdate); cbn; [apply IH|done].
  - destruct (next s) as [[u|]|]; cbn; [|done|done]. destruct (handle_ s u TAck); cbn; [apply IH|done].
Qed.

Definition same_framework (U : list Update) (fw : option string) : Prop :=
  Forall (fun u => up_framework_id u = fw) U.

Lemma history_prefix U V : history_ok (U ++ V) -> history_ok U.
Proof.
  intros [Hu Hn Hl]. rewrite uuids_app in Hn. apply NoDup_app in Hn as (Hn & _ & _).
  apply Forall_app in Hu as [Hu _], Hl as [Hl _]. done.
Qed.

Lemma replay_log r U k fw :
  log_of r U k -> history_ok U -> same_framework U fw ->
  exists s, replay r (new_stream None true) [] = Some (Ok (s, U)) /\ view s U k
    /\ error s = false /\ timeout s = None /\ checkpointed s = true
    /\ frameworkId s = match U with [] => None | _ => fw end.
Proof.
  induction 1 as [|r U k u Hlog IH|r U k u Hlog IH Hu]; intros Hh Hf.
  - exists (new_stream None true). split_and!; [done|apply view_new|done..].
  - assert (Hh' := history_prefix _ _ Hh). apply Forall_app in Hf as [Hf Hfu].
    rewrite Forall_singleton in Hfu. destruct (IH Hh' Hf) as (s & Hr & Hv & He & Ht & Hc & Hfs).
    destruct Hh as [Hu Hn Hl]. apply Forall_app in Hu as [_ Hu], Hl as [_ Hl].
    rewrite Forall_singleton in Hu, Hl. destruct Hu as [x Hx]. rewrite uuids_app in Hn. unfold uuids at 2 in Hn. cbn in Hn.
    rewrite Hx in Hn. apply NoDup_app in Hn as (_ & Hn & _).
    destruct (handle_update_view s U k u x) as (s' & Hs' & Hv' & He' & Ht' & Hc' & _ & Hfs');
      [done|done|done| |done| |].
    + rewrite (v_received _ _ _ Hv), elem_of_list_to_set. intros Hin. apply (Hn x Hin). by left.
    + destruct U; [by left|right]. by rewrite Hfs, Hfu.
    + exists s'. rewrite replay_app, Hr. cbn. rewrite Hs'. cbn. split_and!; [done..|congruence|congruence|].
      rewrite Hfs', Hfu, Hfs. destruct U; cbn; by destruct fw.
  - destruct (IH Hh Hf) as (s & Hr & Hv & He & Ht & Hc & Hfs).
    destruct (handle_ack_view s U k u) as (s' & Hs' & Hv' & He' & Ht' & Hc' & Hf'); [done..|].
    exists s'. rewrite replay_app, Hr. cbn. unfold next. rewrite He, (v_pending _ _ _ Hv).
    erewrite drop_S by done. cbn. rewrite Hs'. cbn. split_and!; [done..|congruence|congruence|congruence].
Qed.

(** ** The stream against its history

    [tracks]: the stream has received the updates of the history in this order,
    the first [k] were acknowledged, and its file says the same. *)

Record tracks (s : Stream) (f : File) (U : list Update) (k : nat) : Prop := {
  t_view : view s U k;
  t_log : checkpointed s = true -> log_of (f_records f) U k;
  t_clean : checkpointed s = true -> error s = false -> f_tail f = Clean;
}.

(** What an update does to a stream: it is appended, or it is a duplicate, or the
    stream refuses it, or its record could not be written. *)
Inductive stream_updated (s : Stream) (f : File) (U : list Update) (k : nat) (u : Update) :
  result failure bool -> Stream -> File -> Prop :=
  | stream_updated_new x s' f' :
      error s = false -> error s' = false -> uuid_of u = Some x -> x ∉ uuids U ->
      tracks s' f' (U ++ [u]) k -> pending s' = pending s ++ [u] -> stream_updated s f U k u (Ok true) s' f'
  | stream_updated_duplicate x :
      error s = false -> uuid_of u = Some x -> x ∈ uuids U -> stream_updated s f U k u (Ok false) s f
  | stream_updated_refused e : error s = true \/ os_uuid (up_status u) = None -> stream_updated s f U k u (Err e) s f
  | stream_updated_failed e b :
      checkpointed s = true -> stream_updated s f U k u (Err e) (with_error s) (spoil f b).

Lemma tracks_with_error s f U k b :
  tracks s f U k -> tracks (with_error s) (spoil f b) U k.
Proof. intros [Hv Hl _]. split; [by destruct Hv|done|done]. Qed.

Lemma uuids_take U k x : x ∈ uuids (take k U) -> x ∈ uuids U.
Proof. rewrite <- (take_drop k U) at 2. rewrite uuids_app. set_solver. Qed.

Lemma stream_update_spec s f U k u w :
  tracks s f U k -> (forall b, os_uuid (up_status u) = Some b -> is_Some (fromBytes b)) ->
  up_latest_status u = None -> up_framework_id u = frameworkId s ->
  exists r s' f', stream_update s f u w = Some (r, s', f') /\ stream_updated s f U k u r s' f'
    /\ timeout s' = timeout s /\ checkpointed s' = checkpointed s /\ frameworkId s' = frameworkId s
    /\ terminated s' = terminated s.
Proof.
  intros Ht Hu Hl Hf. unfold stream_update. destruct (error s) eqn:He.
  { do 3 eexists. split_and!; [done| |done..]. constructor. by left. }
  destruct (os_uuid (up_status u)) as [b|] eqn:Hb.
  2: { do 3 eexists. split_and!; [done| |done..]. constructor. by right. }
  destruct (Hu b eq_refl) as [x Hx]. assert (Hux : uuid_of u = Some x) by (unfold uuid_of; by rewrite Hb).
  rewrite Hux. cbn. pose proof (t_view _ _ _ _ Ht) as Hv.
  case_bool_decide as Ha.
  { do 3 eexists. split_and!; [done| |done..]. econstructor; [done..|]. apply (uuids_take _ k).
    rewrite (v_acknowledged _ _ _ Hv), elem_of_list_to_set in Ha. done. }
  case_bool_decide as Hr; rewrite (v_received _ _ _ Hv), elem_of_list_to_set in Hr.
  { do 3 eexists. split_and!; [done| |done..]. by econstructor. }
  destruct (handle_update_view s U k u x) as (s' & Hs' & Hv' & He' & Ht' & Hc' & Hp' & Hf');
    [done..| |done|by right|]; [by rewrite (v_received _ _ _ Hv), elem_of_list_to_set|].
  assert (Hff : frameworkId s' = frameworkId s).
  { rewrite Hf', Hf. by destruct (frameworkId s). }
  assert (Htt : terminated s' = terminated s).
  { rewrite (v_terminated _ _ _ Hv'), (v_terminated _ _ _ Hv), take_app_le by apply (v_bound _ _ _ Hv). done. }
  unfold handle. rewrite He. destruct (checkpointed s) eqn:Hc.
  - destruct w as [|b'].
    + rewrite Hs'. cbn. do 3 eexists. split_and!; [done| |congruence..].
      apply stream_updated_new with (x := x); [done..| |done]. split; [done|intros _|intros _ _].
      * cbn. constructor. by apply (t_log _ _ _ _ Ht).
      * by apply (t_clean _ _ _ _ Ht).
    + cbn. do 3 eexists. split_and!; [done| |done..]. by constructor.
  - rewrite Hs'. cbn. do 3 eexists. split_and!; [done| |congruence..].
    apply stream_updated_new with (x := x); [done..| |done]. split; [done|congruence|congruence].
Qed.

(** What an acknowledgement does: only the first unacknowledged update can be
    acknowledged. *)
Inductive acked (s : Stream) (f : File) (U : list Update) (k : nat) (x : string) (w : write_result) :
  result failure bool -> Stream -> File -> Prop :=
  | acked_front u s' f' :
      error s = false -> error s' = false -> U !! k = Some u -> uuid_of u = Some x ->
      tracks s' f' U (S k) -> acked s f U k x w (Ok true) s' f'
  | acked_ignored u y : U !! k = Some u -> uuid_of u = Some y -> y <> x -> acked s f U k x w (Ok false) s f
  | acked_refused e : error s = true \/ pending s = [] -> acked s f U k x w (Err e) s f
  | acked_failed e b : checkpointed s = true -> w = WriteFailed b -> acked s f U k x w (Err e) (with_error s) (spoil f b).

Lemma history_uuid U k u : history_ok U -> U !! k = Some u -> is_Some (uuid_of u).
Proof. intros [Hh _ _] Hu. eapply Forall_lookup_1 in Hh; done. Qed.

(** The update at the front has not been acknowledged. *)
Lemma front_not_acknowledged U k u x :
  history_ok U -> U !! k = Some u -> uuid_of u = Some x -> x ∉ uuids (take k U).
Proof.
  intros [_ Hn _] Hu Hx Hin. rewrite <- (take_drop k U) in Hn. erewrite drop_S in Hn by done.
  rewrite uuids_app in Hn. unfold uuids at 2 in Hn. cbn in Hn. rewrite Hx in Hn.
  apply NoDup_app in Hn as (_ & Hd & _). apply (Hd x Hin). by left.
Qed.

Lemma front_pending s U k u : view s U k -> U !! k = Some u -> pending s = u :: drop (S k) U.
Proof. intros Hv Hu. rewrite (v_pending _ _ _ Hv). by erewrite drop_S. Qed.

Lemma pending_front s U k u l : view s U k -> pending s = u :: l -> U !! k = Some u.
Proof.
  intros Hv Hp. rewrite (v_pending _ _ _ Hv) in Hp.
  assert (H : drop k U !! 0%nat = Some u) by by rewrite Hp. rewrite lookup_drop, Nat.add_0_r in H. done.
Qed.

Lemma stream_acknowledgement_spec s f U k x w :
  tracks s f U k ->
  exists r s' f', stream_acknowledgement s f x w = Some (r, s', f') /\ acked s f U k x w r s' f'
    /\ timeout s' = timeout s /\ checkpointed s' = checkpointed s /\ frameworkId s' = frameworkId s.
Proof.
  intros Ht. pose proof (t_view _ _ _ _ Ht) as Hv. unfold stream_acknowledgement, next.
  destruct (error s) eqn:He.
  { do 3 eexists. split_and!; [done| |done..]. constructor. by left. }
  destruct (pending s) as [|u l] eqn:Hp; cbn.
  { do 3 eexists. split_and!; [done| |done..]. constructor. by right. }
  assert (Hu := pending_front _ _ _ _ _ Hv Hp).
  destruct (history_uuid U k u (v_history _ _ _ Hv) Hu) as [y Hy].
  case_bool_decide as Ha.
  { do 3 eexists. split_and!; [done| |done..]. apply acked_ignored with (u := u) (y := y); [done..|].
    intros ->. rewrite (v_acknowledged _ _ _ Hv), elem_of_list_to_set in Ha.
    eapply front_not_acknowledged in Ha; [done|apply (v_history _ _ _ Hv)|done..]. }
  rewrite Hy. cbn. case_bool_decide as Hxy.
  2: { do 3 eexists. split_and!; [done| |done..]. apply acked_ignored with (u := u) (y := y); done. }
  subst y. destruct (handle_ack_view s U k u) as (s' & Hs' & Hv' & He' & Ht' & Hc' & Hf'); [done..|].
  unfold handle. rewrite He. destruct (checkpointed s) eqn:Hc.
  - destruct w as [|b'].
    + rewrite Hs'. cbn. do 3 eexists. split_and!; [done| |congruence..].
      apply acked_front with (u := u); [done..|]. split; [done|intros _|intros _ _].
      * cbn. by apply log_ack; [apply (t_log _ _ _ _ Ht)|].
      * by apply (t_clean _ _ _ _ Ht).
    + cbn. do 3 eexists. split_and!; [done| |done..]. by constructor.
  - rewrite Hs'. cbn. do 3 eexists. split_and!; [done| |congruence..].
    apply acked_front with (u := u); [done..|]. split; [done|congruence|congruence].
Qed.
(** ** The invariant of the manager *)

Definition file_ok (f : File) : Prop :=
  exists U k fw, log_of (f_records f) U k /\ history_ok U /\ same_framework U fw.

(** A stream that is kept: its file, if it has one, has its history; no terminal
    update was acknowledged; a timeout is set exactly when an update waits for its
    acknowledgement, unless the manager is paused or the stream has failed. *)
Record stream_ok (p : bool) (f : option File) (s : Stream) : Prop := {
  so_tracks : exists U k, tracks s (default (mkFile [] Clean) f) U k;
  so_file : checkpointed s = true -> is_Some f;
  so_live : terminated s = false;
  so_idle : pending s = [] -> timeout s = None;
  so_armed : p = false -> error s = false -> pending s <> [] -> is_Some (timeout s);
}.

Definition index_ok (st : gmap string Stream) (fw : gmap string (gset string)) : Prop :=
  forall f id, id ∈ default ∅ (fw !! f) <-> exists s, st !! id = Some s /\ frameworkId s = Some f.

Definition bounded (d : Z) : Prop :=
  STATUS_UPDATE_RETRY_INTERVAL_MIN <= d <= STATUS_UPDATE_RETRY_INTERVAL_MAX.

(** [P] is which streams need not have a timeout. *)
Record minv_at (P : string -> bool) (m : Manager) : Prop := {
  mi_streams : forall id s, streams m !! id = Some s -> stream_ok (P id) (files m !! id) s;
  mi_files : forall id f, files m !! id = Some f -> file_ok f;
  mi_index : index_ok (streams m) (frameworkStreams m);
  mi_nonempty : forall f ids, frameworkStreams m !! f = Some ids -> ids <> ∅;
  mi_timers : Forall (fun t => bounded t.2) (timers m);
}.

Definition minv (m : Manager) : Prop := minv_at (fun _ => paused m) m.

Lemma tracks_file_ok s f U k : tracks s f U k -> checkpointed s = true -> file_ok f.
Proof.
  intros [Hv Hl _] Hc. exists U, k, (frameworkId s). split_and!; [by apply Hl| |]; by destruct Hv.
Qed.

(** Replacing a stream by one that is in order keeps the invariant. *)
Lemma minv_put P P' m m' id s0 s :
  minv_at P m -> (forall id', id' <> id -> P' id' = P id') -> streams m !! id = Some s0 -> frameworkId s = frameworkId s0 ->
  streams m' = <[id := s]> (streams m) -> frameworkStreams m' = frameworkStreams m ->
  files m' = files m \/ (exists f, files m' = <[id := f]> (files m) /\ file_ok f) ->
  Forall (fun t => bounded t.2) (timers m') ->
  stream_ok (P' id) (files m' !! id) s -> minv_at P' m'.
Proof.
  intros [Is If Ii In It] HP H0 Hf Hs Hfw Hfi Hti Hok. split; [| | | |done].
  - intros id' s'. rewrite Hs. intros [[<- <-]|[Hne H]]%lookup_insert_Some; [done|].
    rewrite HP by done. replace (files m' !! id') with (files m !! id'); [by apply Is|].
    destruct Hfi as [->|(f & -> & _)]; [done|]. by rewrite lookup_insert_ne.
  - intros id' f'. destruct Hfi as [->|(f & -> & Hfo)]; [apply If|].
    intros [[<- <-]|[_ H]]%lookup_insert_Some; [done|by eapply If].
  - intros f id'. rewrite Hs, Hfw, (Ii f id'). destruct (decide (id' = id)) as [->|Hne].
    + rewrite lookup_insert_eq, H0. split; intros (s1 & [= <-] & Hs1); eexists; split; [done|congruence|done|congruence].
    + by rewrite lookup_insert_ne.
  - intros f ids. rewrite Hfw. apply In.
Qed.

Lemma bounded_min : bounded STATUS_UPDATE_RETRY_INTERVAL_MIN.
Proof. unfold bounded, STATUS_UPDATE_RETRY_INTERVAL_MIN, STATUS_UPDATE_RETRY_INTERVAL_MAX. lia. Qed.

Lemma bounded_double d : bounded d -> bounded (Z.min (d * 2) STATUS_UPDATE_RETRY_INTERVAL_MAX).
Proof. unfold bounded, STATUS_UPDATE_RETRY_INTERVAL_MIN, STATUS_UPDATE_RETRY_INTERVAL_MAX. lia. Qed.

Lemma tracks_with_timeout t s f U k : tracks s f U k -> tracks (with_timeout t s) f U k.
Proof. intros [Hv Hl Hc]. split; [by destruct Hv|done|done]. Qed.

Lemma stream_ok_armed p f s t :
  stream_ok p f s -> pending s <> [] -> stream_ok p f (with_timeout (Some t) s).
Proof.
  intros [(U & k & Ht) Hf Hl Hi Ha] Hp. split; [|done..].
  exists U, k. by apply tracks_with_timeout.
Qed.

(** The updates of a history carry no latest status, so that they can be forwarded. *)
Lemma front_latest s f U k u l :
  tracks s f U k -> pending s = u :: l -> up_latest_status u = None.
Proof.
  intros [Hv _ _] Hp. apply (pending_front _ _ _ _ _ Hv) in Hp. destruct Hv as [[_ _ Hl] _ _ _ _ _ _].
  eapply Forall_lookup_1 in Hl; done.
Qed.

Lemma forward_ok m id s f U k u l d now :
  tracks s f U k -> pending s = u :: l -> paused m = false ->
  exists b, last (pending s) = Some b
    /\ forward m id s u d now
       = Some (mkManager (streams m) (frameworkStreams m) (paused m) (files m)
                 (timers m ++ [(id, d)]) (sent m ++ [with_latest u (up_status b)]), now + d).
Proof.
  intros Ht Hp Hpa. unfold forward. rewrite Hpa, (front_latest _ _ _ _ _ _ Ht Hp).
  assert (Hb : is_Some (last (pending s))) by (apply last_is_Some; by rewrite Hp).
  destruct Hb as [b Hb]. exists b. by rewrite Hb.
Qed.

Lemma timers_snoc T id d :
  Forall (fun t : string * Z => bounded t.2) T -> bounded d ->
  Forall (fun t : string * Z => bounded t.2) (T ++ [(id, d)]).
Proof. intros HT Hd. apply Forall_app. split; [done|]. constructor; [done|constructor]. Qed.

(** *** Creating and removing streams *)

Lemma index_insert st fw id s :
  index_ok st fw -> st !! id = None ->
  index_ok (<[id := s]> st)
    (match frameworkId s with Some f => <[f := {[id]} ∪ default ∅ (fw !! f)]> fw | None => fw end).
Proof.
  intros Hi Hid f id'. destruct (decide (id' = id)) as [->|Hne].
  - rewrite lookup_insert_eq.
    assert (Hno : forall g, id ∉ default ∅ (fw !! g)).
    { intros g. rewrite (Hi g id), Hid. by intros (? & ? & _). }
    destruct (frameworkId s) as [g|] eqn:Hg.
    + destruct (decide (f = g)) as [->|Hfg].
      * rewrite lookup_insert_eq. cbn. split; [|set_solver]. intros _. eauto.
      * rewrite lookup_insert_ne by done. split; [by intros ?%Hno|]. intros (s' & [= <-] & ?). congruence.
    + split; [by intros ?%Hno|]. intros (s' & [= <-] & ?). congruence.
  - rewrite lookup_insert_ne, <- (Hi f id') by done.
    destruct (frameworkId s) as [g|]; [|done]. destruct (decide (f = g)) as [->|Hfg].
    + rewrite lookup_insert_eq. cbn. set_solver.
    + by rewrite lookup_insert_ne.
Qed.

(** A stream that is not known yet is added. *)
Lemma minv_add m m' id s :
  minv m -> streams m !! id = None ->
  streams m' = <[id := s]> (streams m) ->
  frameworkStreams m' = frameworkStreams (add_framework (frameworkId s) id m) ->
  paused m' = paused m ->
  files m' = files m \/ (exists f, files m' = <[id := f]> (files m) /\ file_ok f) ->
  Forall (fun t => bounded t.2) (timers m') ->
  stream_ok (paused m) (files m' !! id) s -> minv m'.
Proof.
  intros [Is If Ii In It] H0 Hs Hfw Hp Hfi Hti Hok. split; [| | | |done].
  - intros id' s'. rewrite Hs, Hp. intros [[<- <-]|[Hne H]]%lookup_insert_Some; [done|].
    replace (files m' !! id') with (files m !! id'); [by apply Is|].
    destruct Hfi as [->|(f & -> & _)]; [done|]. by rewrite lookup_insert_ne.
  - intros id' f'. destruct Hfi as [->|(f & -> & Hfo)]; [apply If|].
    intros [[<- <-]|[_ H]]%lookup_insert_Some; [done|by eapply If].
  - rewrite Hs, Hfw. pose proof (index_insert _ _ id s Ii H0) as Hx. by destruct (frameworkId s).
  - intros f ids. rewrite Hfw. destruct (frameworkId s) as [g|]; [|apply In]. cbn.
    intros [[<- <-]|[_ H]]%lookup_insert_Some; [set_solver|by eapply In].
Qed.

Lemma new_stream_ok p f fw c :
  (c = true -> f = Some (mkFile [] Clean)) -> stream_ok p f (new_stream fw c).
Proof.
  intros Hc. split; cbn; try done; [|intros ->; by rewrite Hc].
  exists [], 0%nat. split; cbn; [apply view_new|intros H..]; rewrite Hc by done; [constructor|done].
Qed.

Lemma empty_file_ok : file_ok (mkFile [] Clean).
Proof. exists [], 0%nat, None. split_and!; repeat constructor. Qed.

Lemma create_ok m id fw c o m' :
  minv m -> streams m !! id = None -> createStatusUpdateStream m id fw c o = Ok m' ->
  minv m' /\ streams m' !! id = Some (new_stream fw c) /\ paused m' = paused m /\ sent m' = sent m.
Proof.
  intros Hi Hid. unfold createStatusUpdateStream. destruct c.
  - destruct (files m !! id) eqn:Hfile; [done|]. destruct o; [|done]. intros [= <-].
    split_and!; [|by destruct fw; cbn; rewrite lookup_insert_eq|by destruct fw..].
    apply (minv_add m _ id (new_stream fw true)); [done..| | | | | |].
    all: destruct fw; cbn; try done; try apply (mi_timers _ _ Hi).
    all: try (right; eexists; split; [done|apply empty_file_ok]).
    all: apply new_stream_ok; intros _; by rewrite lookup_insert_eq.
  - intros [= <-].
    split_and!; [|by destruct fw; cbn; rewrite lookup_insert_eq|by destruct fw..].
    apply (minv_add m _ id (new_stream fw false)); [done..| | | | | |].
    all: destruct fw; cbn; try done; try apply (mi_timers _ _ Hi); try (by left); by apply new_stream_ok.
Qed.

Lemma index_delete st fw id s :
  index_ok st fw -> st !! id = Some s ->
  index_ok (delete id st)
    (match frameworkId s with
     | Some f => if bool_decide (default ∅ (fw !! f) ∖ {[id]} = ∅) then delete f fw
                 else <[f := default ∅ (fw !! f) ∖ {[id]}]> fw
     | None => fw
     end).
Proof.
  intros Hi Hid f id'.
  assert (Hother : forall g, frameworkId s <> Some g -> id ∉ default ∅ (fw !! g)).
  { intros g Hg. rewrite (Hi g id), Hid. intros (s' & [= <-] & ?). done. }
  assert (Hdel : id' ∈ default ∅ (fw !! f) ∖ {[id]}
                 <-> exists s', delete id st !! id' = Some s' /\ frameworkId s' = Some f).
  { rewrite elem_of_difference, elem_of_singleton, (Hi f id'). destruct (decide (id' = id)) as [->|Hne].
    - rewrite lookup_delete_eq. split; [by intros [_ []]|]. by intros (? & ? & _).
    - rewrite lookup_delete_ne by done. naive_solver. }
  rewrite <- Hdel. destruct (frameworkId s) as [g|] eqn:Hg.
  - destruct (decide (f = g)) as [->|Hne].
    + case_bool_decide as He; [rewrite lookup_delete_eq|rewrite lookup_insert_eq]; cbn; [|done].
      rewrite He. done.
    + assert (Hno := Hother f ltac:(congruence)).
      case_bool_decide; [rewrite lookup_delete_ne by done|rewrite lookup_insert_ne by done]; set_solver.
  - assert (Hno := Hother f ltac:(done)). set_solver.
Qed.

(** The stream that is removed need not be in order. *)
Lemma cleanup_any_ok m id s :
  (forall id' s', id' <> id -> streams m !! id' = Some s' -> stream_ok (paused m) (files m !! id') s') ->
  (forall id' f, files m !! id' = Some f -> file_ok f) ->
  index_ok (streams m) (frameworkStreams m) ->
  (forall f ids, frameworkStreams m !! f = Some ids -> ids <> ∅) ->
  Forall (fun t => bounded t.2) (timers m) ->
  streams m !! id = Some s ->
  exists m', cleanupStatusUpdateStream m id = Some m' /\ minv m' /\ paused m' = paused m
    /\ files m' = files m /\ sent m' = sent m /\ streams m' = delete id (streams m).
Proof.
  intros Is If Ii In It Hs. unfold cleanupStatusUpdateStream. rewrite Hs. cbn.
  assert (Hx := index_delete _ _ _ _ Ii Hs).
  assert (Hst : forall id' s', delete id (streams m) !! id' = Some s' -> stream_ok (paused m) (files m !! id') s').
  { intros id' s' [Hne H]%lookup_delete_Some. by apply Is. }
  destruct (frameworkId s) as [f|] eqn:Hf.
  - assert (Hin : id ∈ default ∅ (frameworkStreams m !! f)) by (rewrite (Ii f id); eauto).
    destruct (frameworkStreams m !! f) as [ids|] eqn:Hids; [|set_solver]. cbn in *.
    eexists. split_and!; [done| |done..]. split; cbn; [done..| |done].
    intros g l. case_bool_decide as He.
    + intros [_ H]%lookup_delete_Some. by eapply In.
    + intros [[_ <-]|[_ H]]%lookup_insert_Some; [done|by eapply In].
  - eexists. split_and!; [done| |done..]. by split.
Qed.

(** *** Replacing a stream *)

(** [m'] differs from [m] in the stream and in its file only. *)
Record replaced (m m' : Manager) (id : string) (s0 s : Stream) : Prop := {
  rp_stream : streams m !! id = Some s0;
  rp_framework : frameworkId s = frameworkId s0;
  rp_streams : streams m' = <[id := s]> (streams m);
  rp_index : frameworkStreams m' = frameworkStreams m;
  rp_paused : paused m' = paused m;
  rp_files : files m' = files m \/ (exists f, files m' = <[id := f]> (files m) /\ file_ok f);
  rp_sent : sent m' = sent m;
  rp_timers : timers m' = timers m;
}.

Lemma put_replaced m id s0 s f U k :
  streams m !! id = Some s0 -> frameworkId s = frameworkId s0 -> checkpointed s = checkpointed s0 ->
  (checkpointed s0 = true -> is_Some (files m !! id)) -> tracks s f U k ->
  replaced m (put m id s f) id s0 s
  /\ tracks s (default (mkFile [] Clean) (files (put m id s f) !! id)) U k
  /\ (checkpointed s = true -> is_Some (files (put m id s f) !! id)).
Proof.
  intros H0 Hf Hc Hfile Ht. unfold put. destruct (checkpointed s) eqn:E.
  - split_and!.
    + split; try done. right. exists f. split; [done|by eapply tracks_file_ok].
    + cbn. by rewrite lookup_insert_eq.
    + intros _. cbn. by rewrite lookup_insert_eq.
  - split_and!; [by split; try done; left| |done].
    destruct Ht as [Hv _ _]. split; [done|congruence..].
Qed.

Lemma replaced_minv m m' id s0 s :
  minv m -> replaced m m' id s0 s -> stream_ok (paused m) (files m' !! id) s -> minv m'.
Proof.
  intros Hi [] Hok. apply (minv_put (fun _ => paused m) _ m m' id s0 s); try done.
  - rewrite rp_timers0. apply (mi_timers _ _ Hi).
  - by rewrite rp_paused0.
Qed.

(** *** What is sent *)

(** An update that is sent is the front of the queue of a stream, and its latest
    status is the status of the last update of the queue. *)
Definition fronts (m : Manager) (v : Update) : Prop :=
  exists id s u b, streams m !! id = Some s /\ head (pending s) = Some u
    /\ last (pending s) = Some b /\ v = with_latest u (up_status b).

Definition emits (m m' : Manager) : Prop :=
  exists vs, sent m' = sent m ++ vs /\ Forall (fronts m') vs.

Lemma emits_nothing m m' : sent m' = sent m -> emits m m'.
Proof. intros H. exists []. by rewrite H, app_nil_r. Qed.

Lemma forward_front_ok P P' m m1 id s0 s d u l now :
  minv_at P m -> (forall id', id' <> id -> P' id' = P id') -> replaced m m1 id s0 s -> paused m = false ->
  (exists U k, tracks s (default (mkFile [] Clean) (files m1 !! id)) U k) ->
  (checkpointed s = true -> is_Some (files m1 !! id)) -> terminated s = false -> pending s = u :: l ->
  bounded d ->
  exists m2 t, forward m1 id s u d now = Some (m2, t)
    /\ minv_at P' (set_stream id (with_timeout (Some t) s) m2)
    /\ emits m (set_stream id (with_timeout (Some t) s) m2)
    /\ paused m2 = paused m /\ files m2 = files m1
    /\ streams (set_stream id (with_timeout (Some t) s) m2) = <[id := with_timeout (Some t) s]> (streams m).
Proof.
  intros Hi HP Hr Hp (U & k & Ht) Hf Hl Hpe Hd. pose proof Hr as [].
  destruct (forward_ok m1 id s (default (mkFile [] Clean) (files m1 !! id)) U k u l d now)
    as (b & Hb & Hfo); [done..|congruence|].
  rewrite Hfo. do 2 eexists. split_and!; [done| | |done|done|].
  - eapply (minv_put P P' m _ id s0 (with_timeout (Some (now + d)) s)); cbn; try done.
    + by rewrite rp_streams0, insert_insert_eq.
    + rewrite rp_timers0. apply timers_snoc; [apply (mi_timers _ _ Hi)|done].
    + split; cbn; [exists U, k; by apply tracks_with_timeout|done|done|by rewrite Hpe|done].
  - exists [with_latest u (up_status b)]. cbn. rewrite rp_sent0. split; [done|]. apply Forall_singleton.
    exists id, (with_timeout (Some (now + d)) s), u, b. cbn. rewrite lookup_insert_eq, Hpe in *. done.
  - cbn. by rewrite rp_streams0, insert_insert_eq.
Qed.

(** *** Updates *)

Definition valid_update (u : Update) : Prop :=
  forall b, os_uuid (up_status u) = Some b -> is_Some (fromBytes b).

Lemma update_stream_ok m id s u c w now :
  minv m -> streams m !! id = Some s -> valid_update u ->
  exists r m', update_stream m s u id c w now = Some (r, m') /\ minv m' /\ emits m m'.
Proof.
  intros Hi Hs Hu. unfold update_stream.
  assert (Hsame : forall e, exists r m', Some (Err e : result failure (), m) = Some (r, m') /\ minv m' /\ emits m m').
  { intros e. do 2 eexists. split_and!; [done..|]. by apply emits_nothing. }
  destruct (up_latest_status u) eqn:Hl; [apply Hsame|].
  destruct (Bool.eqb (checkpointed s) c); [|apply Hsame]. cbn.
  case_bool_decide as Hf; [|apply Hsame]. cbn.
  destruct (mi_streams _ _ Hi _ _ Hs) as [(U & k & Ht) Hfi Hlv Hid Har].
  destruct (stream_update_spec s (file_of m id) U k u w) as (r & s' & f' & Hsu & Hup & Hti & Hch & Hfw & Hte);
    [done..|].
  rewrite Hsu. cbn.
  assert (Htr : exists U', tracks s' f' U' k) by (destruct Hup; eauto using tracks_with_error).
  destruct Htr as (U' & Htr).
  destruct (put_replaced m id s s' f' U' k) as (Hrp & Htr' & Hfi'); [done..|].
  assert (Hem : emits m (put m id s' f')) by apply emits_nothing, (rp_sent _ _ _ _ _ Hrp).
  assert (Hput : (pending s' = [] -> timeout s' = None) ->
                 (paused m = false -> error s' = false -> pending s' <> [] -> is_Some (timeout s')) ->
                 minv (put m id s' f')).
  { intros H1 H2. eapply replaced_minv; [done..|]. split; [eauto|done|congruence|done|done]. }
  destruct Hup as [x s' f' He He' Hx Hnew _ Hp|x He Hx Hin|e Hw|e b Hcp].
  - destruct (paused m) eqn:Hpa.
    { rewrite (rp_paused _ _ _ _ _ Hrp), Hpa. cbn. do 2 eexists. split_and!; [done| |done].
      apply Hput; [by rewrite Hp; destruct (pending s)|done]. }
    rewrite (rp_paused _ _ _ _ _ Hrp), Hpa. cbn.
    destruct (length (pending s') =? 1)%nat eqn:Hlen.
    + apply Nat.eqb_eq in Hlen. rewrite Hp in Hlen. destruct (pending s) as [|v l] eqn:Hps.
      2: { cbn in Hlen. rewrite length_app in Hlen. cbn in Hlen. lia. }
      cbn in Hp. rewrite Hti, Hid by done. unfold next. rewrite He', Hp. cbn.
      destruct (forward_front_ok (fun _ => paused m) (fun _ => false) m (put m id s' f') id s s'
                  STATUS_UPDATE_RETRY_INTERVAL_MIN u [] now)
        as (m2 & t & Hfo & Hm & He2 & Hp2 & _); [done|done|done|done|eauto|done|congruence|done|apply bounded_min|].
      unfold forward_front. rewrite Hfo. cbn. do 2 eexists. split_and!; [done| |done].
      unfold minv. cbn. by rewrite Hp2, Hpa.
    + do 2 eexists. split_and!; [done| |done].
      apply Hput; [by rewrite Hp; destruct (pending s)|]. intros _ _ _. rewrite Hti. apply Har; [done..|].
      intros Hn. by rewrite Hp, Hn in Hlen.
  - do 2 eexists. split_and!; [done|by apply Hput|done].
  - do 2 eexists. split_and!; [done|by apply Hput|done].
  - do 2 eexists. split_and!; [done|by apply Hput|done].
Qed.

Lemma update_ok m u id c o w now :
  minv m -> valid_update u ->
  exists r m', update m u id c o w now = Some (r, m') /\ minv m' /\ emits m m'.
Proof.
  intros Hi Hu. unfold update. destruct (streams m !! id) as [s|] eqn:Hs.
  { rewrite Hs. by apply update_stream_ok. }
  destruct (createStatusUpdateStream m id (up_framework_id u) c o) as [m1|e] eqn:Hc.
  - destruct (create_ok _ _ _ _ _ _ Hi Hs Hc) as (Hi1 & Hs1 & _ & Hse). rewrite Hs1. cbn.
    destruct (update_stream_ok m1 id (new_stream (up_framework_id u) c) u c w now) as (r & m2 & H2 & Hi2 & vs & He2);
      [done..|].
    do 2 eexists. split_and!; [done..|]. exists vs. by rewrite <- Hse.
  - do 2 eexists. split_and!; [done..|]. by apply emits_nothing.
Qed.
Lemma cleanup_stream_ok m id s :
  minv m -> streams m !! id = Some s ->
  exists m', cleanupStatusUpdateStream m id = Some m' /\ minv m' /\ paused m' = paused m
    /\ files m' = files m /\ sent m' = sent m /\ streams m' = delete id (streams m).
Proof. intros [Is If Ii In It] Hs. eapply cleanup_any_ok; eauto. Qed.

(** *** Acknowledgements *)

(** The state after an acknowledgement was handled, before the next update is sent. *)
Lemma acknowledged_replaced m id s s' f' U k :
  streams m !! id = Some s -> frameworkId s' = frameworkId s -> checkpointed s' = checkpointed s ->
  (checkpointed s = true -> is_Some (files m !! id)) -> tracks s' f' U k ->
  let s2 := with_timeout None s' in
  let m2 := set_stream id s2 (put m id s' f') in
  replaced m m2 id s s2
  /\ tracks s2 (default (mkFile [] Clean) (files m2 !! id)) U k
  /\ (checkpointed s2 = true -> is_Some (files m2 !! id)).
Proof.
  intros Hs Hf Hc Hfi Ht. cbn zeta.
  destruct (put_replaced m id s s' f' U k) as ([] & Ht' & Hfi'); [done..|].
  split_and!; [|by apply tracks_with_timeout|done].
  split; cbn; try done. by rewrite rp_streams0, insert_insert_eq.
Qed.

Lemma replaced_cleanup m m' id s0 s :
  minv m -> replaced m m' id s0 s ->
  exists m'', cleanupStatusUpdateStream m' id = Some m'' /\ minv m'' /\ emits m m''.
Proof.
  intros Hi []. destruct (cleanup_any_ok m' id s) as (m3 & Hm3 & Hi3 & _ & _ & Hse & _).
  - intros id' s1 Hne. rewrite rp_streams0, rp_paused0, lookup_insert_ne by done.
    intros Hs1. destruct rp_files0 as [->|(f & -> & _)]; [|rewrite lookup_insert_ne by done];
      by apply (mi_streams _ _ Hi).
  - intros id' f. destruct rp_files0 as [->|(g & -> & Hg)]; [apply (mi_files _ _ Hi)|].
    intros [[_ <-]|[_ H]]%lookup_insert_Some; [done|by eapply (mi_files _ _ Hi)].
  - rewrite rp_streams0, rp_index0. intros f id'. rewrite (mi_index _ _ Hi f id').
    destruct (decide (id' = id)) as [->|Hne']; [|by rewrite lookup_insert_ne].
    rewrite lookup_insert_eq, rp_stream0.
    split; intros (s1 & [= <-] & Hs1); eexists; split; [done|congruence|done|congruence].
  - rewrite rp_index0. apply (mi_nonempty _ _ Hi).
  - rewrite rp_timers0. apply (mi_timers _ _ Hi).
  - by rewrite rp_streams0, lookup_insert_eq.
  - exists m3. split_and!; [done..|]. apply emits_nothing. congruence.
Qed.

(** The queue of the stream did not change. *)
Lemma put_unchanged m id s s' f' U k :
  minv m -> streams m !! id = Some s -> tracks s' f' U k -> pending s' = pending s ->
  timeout s' = timeout s -> checkpointed s' = checkpointed s -> frameworkId s' = frameworkId s ->
  terminated s' = terminated s -> (error s' = false -> error s = false) ->
  minv (put m id s' f') /\ emits m (put m id s' f').
Proof.
  intros Hi Hs Htr Hp Hti Hc Hf Hte He. destruct (mi_streams _ _ Hi _ _ Hs) as [_ Hfi Hlv Hid Har].
  destruct (put_replaced m id s s' f' U k) as (Hrp & Ht & Hfile); [done..|]. split.
  - eapply replaced_minv; [done..|].
    split; [eauto|done|congruence|by rewrite Hp, Hti|rewrite Hp, Hti; eauto].
  - apply emits_nothing, (rp_sent _ _ _ _ _ Hrp).
Qed.

Lemma acknowledgement_ok m id x w now :
  minv m -> exists r m', acknowledgement m id x w now = Some (r, m') /\ minv m' /\ emits m m'.
Proof.
  intros Hi. unfold acknowledgement. destruct (streams m !! id) as [s|] eqn:Hs.
  2: { do 2 eexists. split_and!; [done..|]. by apply emits_nothing. }
  destruct (mi_streams _ _ Hi _ _ Hs) as [(U & k & Ht) Hfi Hlv Hid Har].
  destruct (stream_acknowledgement_spec s (file_of m id) U k x w) as (r & s' & f' & Hsa & Hac & Hti & Hch & Hfw);
    [done|]. rewrite Hsa. cbn.
  destruct Hac as [u s' f' He He' Hu Hx Htr|u y Hu Hy Hne|e Hw|e b Hcp].
  2: destruct (put_unchanged m id s s (file_of m id) U k); [done..|eauto].
  2: destruct (put_unchanged m id s s (file_of m id) U k); [done..|eauto].
  2: destruct (put_unchanged m id s (with_error s) (spoil (file_of m id) b) U k);
       [done|done|by apply tracks_with_error|done..|eauto].
  destruct (acknowledged_replaced m id s s' f' U (S k)) as (Hrp & Ht2 & Hf2); [done..|].
  unfold next. cbn. rewrite He'. destruct (terminated s') eqn:Hte; cbn.
  { destruct (replaced_cleanup _ _ _ _ _ Hi Hrp) as (m3 & -> & Hi3 & Hem). cbn. eauto. }
  assert (Hdone : (paused m = false -> pending s' = []) ->
                  minv (set_stream id (with_timeout None s') (put m id s' f'))).
  { intros Hem. eapply replaced_minv; [done..|]. split; [eauto|done|done|done|].
    intros Hp _ Hn. cbn in Hn. rewrite (Hem Hp) in Hn. done. }
  assert (Hem : emits m (set_stream id (with_timeout None s') (put m id s' f'))).
  { apply emits_nothing, (rp_sent _ _ _ _ _ Hrp). }
  destruct (pending s') as [|v l] eqn:Hp; cbn.
  { do 2 eexists. split_and!; [done|by apply Hdone|done]. }
  replace (paused (put m id s' f')) with (paused m) by (symmetry; apply (rp_paused _ _ _ _ _ Hrp)).
  destruct (paused m) eqn:Hpa.
  { do 2 eexists. split_and!; [done|by apply Hdone|done]. }
  destruct (forward_front_ok (fun _ => paused m) (fun _ => false) m
              (set_stream id (with_timeout None s') (put m id s' f')) id s (with_timeout None s')
              STATUS_UPDATE_RETRY_INTERVAL_MIN v l now Hi)
    as (m2 & t & Hfo & Hm & He2 & Hp2 & _); [by rewrite Hpa|done|done|eauto|done|done|done|apply bounded_min|].
  unfold forward_front. rewrite Hfo. cbn. do 2 eexists. split_and!; [done| |done].
  unfold minv. cbn. by rewrite Hp2, Hpa.
Qed.

(** *** Timeouts, cleanup, pause and resume *)

Lemma replaced_refl m id s : streams m !! id = Some s -> replaced m m id s s.
Proof. intros Hs. split; try done; [by rewrite insert_id|by left]. Qed.

Lemma timed_out_ok m id d now :
  minv m -> bounded d ->
  (forall s, streams m !! id = Some s -> error s = false \/ is_Some (timeout s)) ->
  exists m', timed_out m id d now = Some m' /\ minv m' /\ emits m m'.
Proof.
  intros Hi Hd He. unfold timed_out.
  assert (Hsame : exists m', Some m = Some m' /\ minv m' /\ emits m m').
  { eexists. split_and!; [done..|]. by apply emits_nothing. }
  destruct (paused m) eqn:Hp; [done|]. destruct (streams m !! id) as [s|] eqn:Hs; [|done].
  destruct (mi_streams _ _ Hi _ _ Hs) as [Ht Hfi Hlv Hid Har].
  destruct (pending s) as [|u l] eqn:Hpe; [done|].
  assert (Hti : is_Some (timeout s)) by (destruct (He s eq_refl); [by apply Har|done]).
  destruct Hti as [t Hti]. rewrite Hti. cbn.
  destruct (t <=? now); [|done].
  destruct (forward_front_ok (fun _ => paused m) (fun _ => paused m) m m id s s
              (Z.min (d * 2) STATUS_UPDATE_RETRY_INTERVAL_MAX) u l now Hi)
    as (m2 & t' & Hfo & Hm & He2 & Hp2 & _); [done|by apply replaced_refl|done..|by apply bounded_double|].
  rewrite Hfo. cbn. eexists. split_and!; [done| |done]. unfold minv. cbn. by rewrite Hp2.
Qed.

Lemma cleanup_all_ok ids m :
  minv m -> NoDup ids -> (forall id, id ∈ ids -> is_Some (streams m !! id)) ->
  exists m', cleanup_all m ids = Some m' /\ minv m' /\ sent m' = sent m /\ files m' = files m
    /\ paused m' = paused m /\ (forall id, streams m' !! id = if bool_decide (id ∈ ids) then None else streams m !! id).
Proof.
  revert m. induction ids as [|id ids IH]; intros m Hi Hn Hin.
  - exists m. split_and!; [done..|]. intros id. by rewrite bool_decide_eq_false_2 by set_solver.
  - apply NoDup_cons in Hn as [Hid Hn]. destruct (Hin id) as [s Hs]; [by left|]. cbn.
    destruct (cleanup_stream_ok _ _ _ Hi Hs) as (m1 & -> & Hi1 & Hp1 & Hf1 & Hs1 & Hst1). cbn.
    destruct (IH m1) as (m2 & -> & Hi2 & Hs2 & Hf2 & Hp2 & Hst2); [done..| |].
    { intros id' Hid'. rewrite Hst1, lookup_delete_ne by set_solver. apply Hin. by right. }
    exists m2. split_and!; [done..|congruence|congruence|congruence|].
    intros id'. rewrite Hst2, Hst1. destruct (decide (id' = id)) as [->|Hne].
    + rewrite lookup_delete_eq. rewrite (bool_decide_eq_true_2 (id ∈ id :: ids)) by by left. by case_bool_decide.
    + rewrite lookup_delete_ne by done. do 2 case_bool_decide; set_solver.
Qed.

Lemma cleanup_ok m f : minv m -> exists m', cleanup m f = Some m' /\ minv m' /\ emits m m'.
Proof.
  intros Hi. unfold cleanup. destruct (frameworkStreams m !! f) as [ids|] eqn:Hf.
  - destruct (cleanup_all_ok (elements ids) m) as (m' & -> & Hi' & Hs & _); [done|apply NoDup_elements| |].
    + intros id Hin%elem_of_elements. assert (H : id ∈ default ∅ (frameworkStreams m !! f)) by by rewrite Hf.
      apply (mi_index _ _ Hi) in H as (s & -> & _). done.
    + eexists. split_and!; [done..|]. by apply emits_nothing.
  - eexists. split_and!; [done..|]. by apply emits_nothing.
Qed.

Lemma stream_ok_relax p f s : stream_ok p f s -> stream_ok true f s.
Proof. intros [Ht Hf Hl Hi _]. by split. Qed.

Lemma pause_ok m : minv m -> minv (pause m).
Proof.
  intros [Is If Ii In It]. split; cbn; [|done..]. intros id s Hs. eapply stream_ok_relax, Is. done.
Qed.
Definition keeps (m m' : Manager) : Prop :=
  forall id s, streams m !! id = Some s -> exists s', streams m' !! id = Some s' /\ pending s' = pending s.

Lemma keeps_trans m1 m2 m3 : keeps m1 m2 -> keeps m2 m3 -> keeps m1 m3.
Proof.
  intros H12 H23 id s Hs. destruct (H12 id s Hs) as (s2 & Hs2 & Hp2).
  destruct (H23 id s2 Hs2) as (s3 & Hs3 & Hp3). exists s3. by rewrite Hp3.
Qed.

Lemma emits_trans m1 m2 m3 : emits m1 m2 -> keeps m2 m3 -> emits m2 m3 -> emits m1 m3.
Proof.
  intros (v1 & H1 & F1) Hk (v2 & H2 & F2). exists (v1 ++ v2). rewrite H2, H1, app_assoc. split; [done|].
  apply Forall_app. split; [|done]. eapply Forall_impl; [exact F1|].
  intros v (id & s & u & b & Hs & Hh & Hl & ->). destruct (Hk id s Hs) as (s' & Hs' & Hp).
  exists id, s', u, b. by rewrite Hp.
Qed.

Lemma keeps_insert m m' id s s' :
  streams m !! id = Some s -> streams m' = <[id := s']> (streams m) -> pending s' = pending s -> keeps m m'.
Proof.
  intros Hs Hm Hp id' s1 Hs1. rewrite Hm. destruct (decide (id' = id)) as [->|Hne].
  - rewrite lookup_insert_eq. exists s'. split; [done|congruence].
  - rewrite lookup_insert_ne by done. eauto.
Qed.

(** The streams still to be visited need not have a timeout. *)
Lemma resume_loop_ok l m now :
  NoDup l.*1 -> (forall id s, (id, s) ∈ l -> streams m !! id = Some s) -> paused m = false ->
  minv_at (fun id => bool_decide (id ∈ l.*1)) m ->
  exists m', resume_loop m l now = Some m' /\ minv m' /\ emits m m' /\ keeps m m'.
Proof.
  revert m. induction l as [|[id s] l IH]; intros m Hn Hin Hp Hi.
  { exists m. split_and!; [done| |by apply emits_nothing|by intros id s Hs; eauto].
    destruct Hi as [Is If Ii In It]. split; [|done..]. intros id s Hs. rewrite Hp. by apply Is. }
  cbn in Hn. apply NoDup_cons in Hn as [Hid Hn]. assert (Hs : streams m !! id = Some s) by (apply Hin; by left).
  assert (HP : forall id', id' <> id -> bool_decide (id' ∈ l.*1) = bool_decide (id' ∈ ((id, s) :: l).*1)).
  { intros id' Hne. apply bool_decide_ext. cbn. rewrite elem_of_cons. naive_solver. }
  pose proof (mi_streams _ _ Hi _ _ Hs) as Hok. cbn. unfold next. destruct (error s) eqn:He.
  - apply IH; [done| |done|]; [by intros id' s' H; apply Hin; right|].
    apply (minv_put _ _ m m id s s Hi HP Hs); [done|by rewrite insert_id|done|by left|apply (mi_timers _ _ Hi)|].
    destruct Hok as [H1 H2 H3 H4 _]. split; [done..|congruence].
  - destruct (pending s) as [|u l'] eqn:Hpe; cbn.
    + apply IH; [done| |done|]; [by intros id' s' H; apply Hin; right|].
      apply (minv_put _ _ m m id s s Hi HP Hs); [done|by rewrite insert_id|done|by left|apply (mi_timers _ _ Hi)|].
      destruct Hok as [H1 H2 H3 H4 _]. split; [done..|congruence].
    + destruct Hok as [H1 H2 H3 H4 _].
      destruct (forward_front_ok _ _ m m id s s STATUS_UPDATE_RETRY_INTERVAL_MIN u l' now Hi HP)
        as (m2 & t & Hfo & Hm & He2 & Hp2 & Hf2 & Hst); [by apply replaced_refl|done..|apply bounded_min|].
      unfold forward_front. rewrite Hfo. cbn.
      assert (Hk := keeps_insert m _ id s (with_timeout (Some t) s) Hs Hst eq_refl).
      destruct (IH (set_stream id (with_timeout (Some t) s) m2)) as (m' & -> & Hi' & He' & Hk');
        [done| |cbn; congruence|done|].
      * intros id' s' H. rewrite Hst, lookup_insert_ne; [apply Hin; by right|].
        intros <-. apply Hid. by apply (list_elem_of_fmap_2 fst) in H.
      * exists m'. split_and!; [done..|by eapply emits_trans|by eapply keeps_trans].
Qed.

Lemma resume_ok m now :
  minv m -> exists m', resume m now = Some m' /\ minv m' /\ emits m m'.
Proof.
  intros [Is If Ii In It]. unfold resume.
  destruct (resume_loop_ok (map_to_list (streams m)) (with_paused false m) now) as (m' & H1 & H2 & H3 & _).
  - apply NoDup_fst_map_to_list.
  - intros id s. by rewrite elem_of_map_to_list.
  - done.
  - split; cbn; [|done..]. intros id s Hs. rewrite bool_decide_eq_true_2; [by eapply stream_ok_relax, Is|].
    apply elem_of_map_to_list in Hs. by apply (list_elem_of_fmap_2 fst) in Hs.
  - eauto.
Qed.

(** *** Recovery *)

(** Reading a file of a stream back. *)
Lemma stream_recover_ok f d strict :
  file_ok f ->
  (exists f', stream_recover (Some f) d strict = Some (Err ReadFailed, Some f')
     /\ f_records f' = f_records f /\ f_tail f' = Clean /\ f_tail f = Corrupt)
  \/ (f_records f = [] /\ stream_recover (Some f) d strict = Some (Ok None, None))
  \/ exists s U k b, stream_recover (Some f) d strict
       = Some (Ok (Some (s, mkStreamState U (terminated s) b)), Some (mkFile (f_records f) Clean))
     /\ log_of (f_records f) U k /\ U <> [] /\ tracks s (mkFile (f_records f) Clean) U k
     /\ error s = false /\ timeout s = None /\ checkpointed s = true /\ file_ok (mkFile (f_records f) Clean).
Proof.
  intros (U & k & fw & Hl & Hh & Hf). destruct (replay_log _ U k fw Hl Hh Hf) as (s & Hr & Hv & He & Ht & Hc & _).
  unfold stream_recover. rewrite Hr. cbn.
  destruct ((match f_tail f with Corrupt => true | _ => false end) && strict) eqn:Hcor.
  { left. eexists. split_and!; [done..|]. by destruct (f_tail f). }
  destruct U as [|u U].
  - right; left. split; [|done]. by inversion Hl as [| |r V j v Hl' Hv' Hr']; [|by destruct U|done].
  - right; right. exists s, (u :: U), k, (match f_tail f with Corrupt => true | _ => false end).
    split_and!; [done|done|done| |done..|]; [by split|]. by exists (u :: U), k, fw.
Qed.

Lemma log_of_functional r U k U' k' : log_of r U k -> log_of r U' k' -> U = U' /\ k = k'.
Proof.
  intros H. revert U' k'. induction H as [|r U k u H IH|r U k u H IH Hu]; intros U' k' H'.
  - inversion H' as [|r' V j v Hv Hr|r' V j v Hv Hj Hr]; [done|by destruct r'..].
  - inversion H' as [|r' V j v Hv Hr|r' V j v Hv Hj Hr]; [by destruct r| |].
    + apply app_inj_tail in Hr as [-> [= ->]]. by destruct (IH _ _ Hv) as [-> ->].
    + apply app_inj_tail in Hr as [_ [=]].
  - inversion H' as [|r' V j v Hv Hr|r' V j v Hv Hj Hr]; [by destruct r| |].
    + apply app_inj_tail in Hr as [_ [=]].
    + apply app_inj_tail in Hr as [-> _]. subst. by destruct (IH _ _ Hv) as [-> ->].
Qed.

Lemma set_file_ok m id fo :
  minv m -> streams m !! id = None -> (forall f, fo = Some f -> file_ok f) -> minv (set_file id fo m).
Proof.
  intros [Is If Ii In It] Hid Hfo. split; cbn; [| |done..].
  - intros id' s Hs. assert (id' <> id) by congruence.
    destruct fo; [rewrite lookup_insert_ne by done|rewrite lookup_delete_ne by done]; by apply Is.
  - intros id' f. destruct fo as [g|].
    + intros [[_ <-]|[_ H]]%lookup_insert_Some; [by apply Hfo|by eapply If].
    + intros [_ H]%lookup_delete_Some. by eapply If.
Qed.

(** The stream that recovery adds is the one of the file. *)
Definition recovered (m' : Manager) (id : string) (U : list Update) (k : nat) : Prop :=
  exists s, streams m' !! id = Some s /\ tracks s (default (mkFile [] Clean) (files m' !! id)) U k
    /\ error s = false /\ checkpointed s = true.

Lemma recover_added m m' id s t f U k :
  minv m -> streams m !! id = None -> files m !! id = Some f -> tracks s f U k -> error s = false ->
  checkpointed s = true -> terminated s = false -> (pending s = [] -> t = None) ->
  (paused m = false -> pending s <> [] -> is_Some t) ->
  streams m' = <[id := with_timeout t s]> (streams m) ->
  frameworkStreams m' = frameworkStreams (add_framework (frameworkId s) id m) ->
  paused m' = paused m -> files m' = files m -> Forall (fun t => bounded t.2) (timers m') ->
  minv m' /\ recovered m' id U k.
Proof.
  intros Hi Hid Hf Ht He Hc Hl Hidle Harm Hst Hix Hpa Hfi Hti. split.
  - apply (minv_add m m' id (with_timeout t s)); [done..|by left|done|]. rewrite Hfi, Hf.
    split; [exists U, k; by apply tracks_with_timeout|done|done|done|]. intros Hp _. by apply Harm.
  - exists (with_timeout t s). rewrite Hst, lookup_insert_eq, Hfi, Hf.
    split_and!; [done|by apply tracks_with_timeout|done..].
Qed.

Lemma add_recovered_ok m id s f U k now :
  minv m -> streams m !! id = None -> files m !! id = Some f -> tracks s f U k -> error s = false ->
  timeout s = None -> checkpointed s = true -> terminated s = false ->
  exists m' t, add_recovered m id s now = Some (Ok (), m')
    /\ (minv m' /\ recovered m' id U k) /\ emits m m' /\ files m' = files m
    /\ streams m' = <[id := with_timeout t s]> (streams m).
Proof.
  intros Hi Hid Hf Ht He Hti Hc Hl. unfold add_recovered, next. rewrite He.
  assert (Hself : with_timeout None s = s) by (rewrite <- Hti; by destruct s).
  assert (Hpaused : paused (add_framework (frameworkId s) id m) = paused m) by by destruct (frameworkId s).
  assert (Hplain : pending s = [] \/ paused m = true ->
            exists m' t, Some (Ok (), set_stream id s (add_framework (frameworkId s) id m))
              = Some (Ok () : result failure (), m')
              /\ (minv m' /\ recovered m' id U k) /\ emits m m' /\ files m' = files m
              /\ streams m' = <[id := with_timeout t s]> (streams m)).
  { intros Hq. eexists _, None. split; [done|].
    split; [|by split_and!; [apply emits_nothing|..]; destruct (frameworkId s); cbn; rewrite ?Hself].
    eapply (recover_added m _ id s None f U k); try done; try by destruct (frameworkId s); cbn; rewrite ?Hself.
    - intros H1 H2. destruct Hq; congruence.
    - by destruct (frameworkId s); apply (mi_timers _ _ Hi). }
  destruct (pending s) as [|u l] eqn:Hp; cbn; [apply Hplain; by left|]. rewrite Hpaused.
  destruct (paused m) eqn:Hpa; [apply Hplain; by right|].
  destruct (forward_ok (add_framework (frameworkId s) id m) id s f U k u l STATUS_UPDATE_RETRY_INTERVAL_MIN now)
    as (b & Hb & ->); [done..|]. cbn.
  eexists _, (Some (now + STATUS_UPDATE_RETRY_INTERVAL_MIN)). split; [done|]. split.
  - eapply (recover_added m _ id s (Some (now + STATUS_UPDATE_RETRY_INTERVAL_MIN)) f U k); try done; try (by destruct (frameworkId s)); try (cbn; congruence); try (intros; by eexists).
    cbn. apply timers_snoc; [by destruct (frameworkId s); apply (mi_timers _ _ Hi)|apply bounded_min].
  - split_and!; [|by destruct (frameworkId s)..].
    exists [with_latest u (up_status b)]. cbn. split; [by destruct (frameworkId s)|]. apply Forall_singleton.
    eexists id, _, u, b. cbn. rewrite lookup_insert_eq. split_and!; [done| |done|done]. cbn. by rewrite Hp.
Qed.
Definition elsewhere (ids : list string) (m m' : Manager) : Prop :=
  forall id, id ∉ ids -> streams m' !! id = streams m !! id /\ files m' !! id = files m !! id.

(** A file from which a stream can be recovered: it has updates, none of the
    acknowledged ones is terminal, and it ends with a complete or a cut off record. *)
Definition recoverable (f : File) (U : list Update) (k : nat) : Prop :=
  log_of (f_records f) U k /\ f_tail f <> Corrupt /\ U <> [] /\ existsb terminal (take k U) = false.

Lemma keeps_elsewhere m m' id :
  streams m !! id = None -> (forall id', id' <> id -> streams m' !! id' = streams m !! id') -> keeps m m'.
Proof. intros Hid He id' s Hs. exists s. split; [|done]. by rewrite He by congruence. Qed.

Lemma set_file_elsewhere m id fo : elsewhere [id] m (set_file id fo m).
Proof.
  intros id' Hne. cbn. split; [done|].
  destruct fo; [rewrite lookup_insert_ne by set_solver|rewrite lookup_delete_ne by set_solver]; done.
Qed.

Lemma recover_stream_ok m id d strict now :
  minv m -> streams m !! id = None ->
  exists r m', recoverStatusUpdateStream m id d strict now = Some (r, m') /\ minv m' /\ emits m m'
    /\ keeps m m' /\ elsewhere [id] m m'
    /\ (forall f U k, files m !! id = Some f -> recoverable f U k ->
          recovered m' id U k /\ exists ss, r = Ok (Some ss) /\ ss_updates ss = U).
Proof.
  intros Hi Hid. unfold recoverStatusUpdateStream.
  assert (Hset : forall fo, (forall f, fo = Some f -> file_ok f) ->
            minv (set_file id fo m) /\ emits m (set_file id fo m) /\ keeps m (set_file id fo m)
            /\ elsewhere [id] m (set_file id fo m)).
  { intros fo Hfo. split_and!; [by apply set_file_ok|by apply emits_nothing|by intros id' s Hs; eauto|].
    apply set_file_elsewhere. }
  destruct (files m !! id) as [f|] eqn:Hf.
  2: { cbn. destruct (Hset None) as (H1 & H2 & H3 & H4); [done|].
       destruct d; do 2 eexists; (split_and!; [done..|]); done. }
  assert (Hok : file_ok f) by by eapply (mi_files _ _ Hi).
  destruct (stream_recover_ok f d strict Hok) as [(f' & -> & Hr & _ & Hc)|[[Hr ->]|
    (s & U & k & b & -> & Hl & Hne & Ht & He & Hti & Hc & Hfo)]]; cbn.
  - destruct Hok as (U & k & fw & Hl & Hh & Hfw).
    destruct (Hset (Some f')) as (H1 & H2 & H3 & H4).
    { intros g [= <-]. exists U, k, fw. by rewrite Hr. }
    do 2 eexists. split_and!; [done..|]. by intros g U' k' [= <-] (_ & Hcor & _).
  - destruct (Hset None) as (H1 & H2 & H3 & H4); [done|].
    do 2 eexists. split_and!; [done..|]. intros g U' k' [= <-] (Hl & _ & Hne & _). rewrite Hr in Hl.
    by destruct (log_of_functional _ _ _ _ _ Hl log_nil).
  - destruct (Hset (Some (mkFile (f_records f) Clean))) as (H1 & H2 & H3 & H4); [by intros g [= <-]|].
    assert (Hsame : forall g U' k', Some f = Some g -> recoverable g U' k' -> U' = U /\ k' = k).
    { intros g U' k' [= <-] (Hl' & _). by eapply log_of_functional. }
    destruct (terminated s) eqn:Hte.
    + do 2 eexists. split_and!; [done..|]. intros g U' k' Hg Hre. destruct (Hsame _ _ _ Hg Hre) as [-> ->].
      destruct Hre as (_ & _ & _ & Hnt). by rewrite <- (v_terminated _ _ _ (t_view _ _ _ _ Ht)), Hte in Hnt.
    + destruct (add_recovered_ok (set_file id (Some (mkFile (f_records f) Clean)) m) id s
                  (mkFile (f_records f) Clean) U k now)
        as (m' & t & -> & (Hi' & Hre) & Hem & Hfi & Hst); [done|done|by cbn; rewrite lookup_insert_eq|done..|].
      cbn. assert (Hot : forall id', id' <> id -> streams m' !! id' = streams m !! id').
      { intros id' Hne'. rewrite Hst. cbn. by rewrite lookup_insert_ne. }
      assert (Hk : keeps (set_file id (Some (mkFile (f_records f) Clean)) m) m') by by apply (keeps_elsewhere _ _ id).
      do 2 eexists. split_and!; [done|done|by apply (emits_trans _ _ _ H2 Hk)|by apply (keeps_elsewhere _ _ id)| |].
      * intros id' Hne'. rewrite Hfi. split; [apply Hot; set_solver|]. by apply H4.
      * intros g U' k' Hg Hg'. destruct (Hsame _ _ _ Hg Hg') as [-> ->]. eauto.
Qed.

(** Removing all streams leaves nothing in the index. *)
Lemma cleanup_everything m :
  minv m ->
  exists m', cleanup_all m (stream_ids m) = Some m' /\ minv m' /\ streams m' = ∅ /\ frameworkStreams m' = ∅.
Proof.
  intros Hi. destruct (cleanup_all_ok (stream_ids m) m) as (m' & Hm & Hi' & _ & _ & _ & Hst).
  - done.
  - apply NoDup_fst_map_to_list.
  - intros id (p & -> & Hp)%list_elem_of_fmap. destruct p as [id s]. apply elem_of_map_to_list in Hp.
    cbn. by rewrite Hp.
  - assert (Hemp : streams m' = ∅).
    { apply map_eq. intros id. rewrite Hst, lookup_empty. case_bool_decide as Hin; [done|].
      destruct (streams m !! id) as [s|] eqn:Hs; [|done]. destruct Hin.
      apply elem_of_map_to_list in Hs. by apply (list_elem_of_fmap_2 fst) in Hs. }
    exists m'. split_and!; [done..|]. apply map_eq. intros f. rewrite lookup_empty.
    destruct (frameworkStreams m' !! f) as [ids|] eqn:Hf; [|done].
    destruct (mi_nonempty _ _ Hi' f ids Hf). apply set_eq. intros id. split; [|set_solver]. intros Hin.
    assert (Hin' : id ∈ default ∅ (frameworkStreams m' !! f)) by by rewrite Hf.
    apply (mi_index _ _ Hi') in Hin' as (s & Hs & _). by rewrite Hemp, lookup_empty in Hs.
Qed.

Lemma recovered_elsewhere ids m m' id U k :
  elsewhere ids m m' -> id ∉ ids -> recovered m id U k -> recovered m' id U k.
Proof. intros He Hid (s & H1 & H2 & H3). exists s. destruct (He id Hid) as [-> ->]. done. Qed.

Lemma recover_loop_ok ids m d strict now state :
  minv m -> NoDup ids -> (forall id, id ∈ ids -> streams m !! id = None) ->
  exists r m', recover_loop m ids d strict now state = Some (r, m') /\ minv m'
    /\ match r with
       | Err _ => strict = true /\ streams m' = ∅
       | Ok state' =>
           emits m m' /\ keeps m m' /\ elsewhere ids m m'
           /\ (forall id f U k, id ∈ ids -> files m !! id = Some f -> recoverable f U k -> recovered m' id U k)
       end.
Proof.
  revert m state. induction ids as [|id ids IH]; intros m state Hi Hn Hno.
  { do 2 eexists. split_and!; [done..|]. cbn.
    split_and!; [by apply emits_nothing|by intros id s Hs; eauto|done|set_solver]. }
  apply NoDup_cons in Hn as [Hid Hn]. cbn.
  destruct (recover_stream_ok m id (d id) strict now Hi) as (r & m1 & -> & Hi1 & He1 & Hk1 & Hel1 & Hre1);
    [by apply Hno; left|]. cbn.
  assert (Hno1 : forall id', id' ∈ ids -> streams m1 !! id' = None).
  { intros id' Hin. destruct (Hel1 id') as [-> _]; [set_solver|]. apply Hno. by right. }
  assert (Hgo : forall state', exists r m', recover_loop m1 ids d strict now state' = Some (r, m') /\ minv m'
    /\ match r with
       | Err _ => strict = true /\ streams m' = ∅
       | Ok state' =>
           emits m m' /\ keeps m m' /\ elsewhere (id :: ids) m m'
           /\ (forall id' f U k, id' ∈ id :: ids -> files m !! id' = Some f -> recoverable f U k ->
                 recovered m' id' U k)
       end).
  { intros state'. destruct (IH m1 state' Hi1 Hn Hno1) as (r' & m' & -> & Hi' & Hr'). do 2 eexists.
    split_and!; [done..|]. destruct r' as [st|e]; [|done]. destruct Hr' as (He & Hk & Hel & Hre).
    split_and!; [by eapply emits_trans|by eapply keeps_trans| |].
    - intros id' Hni. destruct (Hel id') as [-> ->]; [set_solver|]. apply Hel1. set_solver.
    - intros id' f U k [->|Hin]%elem_of_cons Hf Hrec.
      + eapply recovered_elsewhere; [done..|]. by eapply Hre1.
      + eapply Hre; [done| |done]. destruct (Hel1 id') as [_ ->]; [|done]. set_solver. }
  destruct r as [[ss|]|e]; [apply Hgo|apply Hgo|]. destruct strict; [|apply Hgo].
  destruct (cleanup_everything m1 Hi1) as (m2 & -> & Hi2 & Hs2 & Hf2). cbn.
  rewrite Hs2, Hf2, !bool_decide_eq_true_2 by done. cbn. eauto 6.
Qed.
(** ** Runs of the manager *)

(** The UUIDs of updates are UUIDs, and a stream is recovered once. *)
Definition valid_event (e : Event) : Prop :=
  match e with
  | EUpdate u _ _ _ _ _ => valid_update u
  | ERestart _ ids _ _ _ => NoDup ids
  | _ => True
  end.

Inductive reachable : Manager -> Prop :=
  | reachable_start : reachable start
  | reachable_step m e m' : reachable m -> valid_event e -> step m e = Some m' -> reachable m'.

(** The timer that fires is of a stream that has a timeout or has not failed. *)
Definition timer_ok (m : Manager) (e : Event) : Prop :=
  match e with
  | ETimer i _ =>
      forall id d s, timers m !! i = Some (id, d) -> streams m !! id = Some s ->
        error s = false \/ is_Some (timeout s)
  | _ => True
  end.

Definition not_restart (e : Event) : Prop := match e with ERestart _ _ _ _ _ => False | _ => True end.

Lemma start_minv : minv start.
Proof.
  split; cbn; [by intros id s; rewrite lookup_empty|by intros id f; rewrite lookup_empty| |
    by intros f ids; rewrite lookup_empty|constructor].
  intros f id. rewrite !lookup_empty. cbn. split; [set_solver|]. by intros (s & H & _).
Qed.

Lemma restart_minv p m : minv m -> minv (restart p m).
Proof.
  intros [Is If Ii In It]. destruct start_minv as [_ _ Hx Hn Ht].
  split; cbn; [by intros id s; rewrite lookup_empty|done..].
Qed.

Lemma drop_timer_minv i m : minv m -> minv (drop_timer i m).
Proof. intros [Is If Ii In It]. split; cbn; [done..|]. by apply Forall_delete. Qed.

Lemma manager_step_ok m e :
  minv m -> valid_event e -> timer_ok m e ->
  exists m', step m e = Some m' /\ minv m' /\ (not_restart e -> emits m m').
Proof.
  intros Hi Hv Ht. destruct e as [u id c o w now|id x w now|i now|f| |now|p ids d strict now]; cbn in *.
  - destruct (update_ok m u id c o w now) as (r & m' & -> & H1 & H2); [done..|]. eauto.
  - destruct (acknowledgement_ok m id x w now) as (r & m' & -> & H1 & H2); [done..|]. eauto.
  - destruct (timers m !! i) as [[id d]|] eqn:Hti.
    2: { eexists. split_and!; [done..|]. intros _. by apply emits_nothing. }
    destruct (timed_out_ok (drop_timer i m) id d now) as (m' & -> & H1 & H2); eauto using drop_timer_minv.
    assert (H := mi_timers _ _ Hi). eapply Forall_lookup_1 in H; [|done]. done.
  - destruct (cleanup_ok m f Hi) as (m' & -> & H1 & H2). eauto.
  - eexists. split_and!; [done|by apply pause_ok|]. intros _. by apply emits_nothing.
  - destruct (resume_ok m now Hi) as (m' & -> & H1 & H2). eauto.
  - destruct (recover_loop_ok ids (restart p m) d strict now (mkRecoverState ∅ 0)) as (r & m' & Hr & H1 & _);
      [by apply restart_minv|done|done|].
    unfold recover. rewrite Hr. cbn. eexists. split_and!; [done..|by intros []].
Qed.

(** A step that does not fail a check is one to which [manager_step_ok] applies. *)
Lemma step_timer_ok m e m' : step m e = Some m' -> timer_ok m e \/ m' = m \/ exists i, m' = drop_timer i m.
Proof.
  destruct e as [| |i now| | | |]; cbn; try by left.
  destruct (timers m !! i) as [[id d]|]; [|by left]. unfold timed_out. cbn.
  destruct (paused m); [intros [= <-]; eauto|].
  destruct (streams m !! id) as [s|] eqn:Hs; [|intros [= <-]; eauto].
  destruct (pending s); [intros [= <-]; eauto|].
  destruct (timeout s) as [t|] eqn:Ht; [|done]. intros _. left. intros id' d' s' [= <- <-] Hs'.
  right. rewrite Hs in Hs'. injection Hs' as <-. by rewrite Ht.
Qed.

Lemma reachable_minv m : reachable m -> minv m.
Proof.
  induction 1 as [|m e m' Hr IH Hv Hs]; [apply start_minv|].
  destruct (step_timer_ok m e m' Hs) as [Ht|[->|[i ->]]]; [|done|by apply drop_timer_minv].
  destruct (manager_step_ok m e IH Hv Ht) as (m1 & H1 & H2 & _). congruence.
Qed.

(** ** Theorems *)

(** C34. In every state the process reaches, with updates, acknowledgements, timers,
    failed and partial writes and restarts in any order: each stream has received
    some history of updates with different UUIDs, its queue is the part of the
    history that was not acknowledged, its file has the records of this history,
    no stream whose terminal update was acknowledged is kept; an idle stream has no
    timeout, and one that waits for an acknowledgement has one unless the manager is
    paused or writing failed; the index of the frameworks lists exactly the streams. *)
Theorem manager_invariant m :
  reachable m ->
  (forall id s, streams m !! id = Some s -> stream_ok (paused m) (files m !! id) s)
  /\ index_ok (streams m) (frameworkStreams m)
  /\ (forall f ids, frameworkStreams m !! f = Some ids -> ids <> ∅)
  /\ (forall id f, files m !! id = Some f -> file_ok f).
Proof. intros [Is If Ii In _]%reachable_minv. done. Qed.

(** C36. No check of the process fails in a state it reaches: each event is handled,
    provided that the UUIDs of updates are well-formed (CHECK_SOME fails on others),
    that a restart names each stream once, and that the timer that fires is not
    one of a stream that failed after its timeout was cleared. *)
Theorem manager_never_aborts m e :
  reachable m -> valid_event e -> timer_ok m e -> is_Some (step m e).
Proof. intros Hm%reachable_minv Hv Ht. destruct (manager_step_ok m e Hm Hv Ht) as (m' & -> & _). done. Qed.

(** What is sent is always the first update of a stream that was not
    acknowledged, with the status of the last update of the queue as its latest
    status; nothing that was sent is forgotten. *)
Theorem forwarded_in_order m e m' :
  reachable m -> valid_event e -> not_restart e -> step m e = Some m' -> emits m m'.
Proof.
  intros Hm%reachable_minv Hv Hn Hs. destruct (step_timer_ok m e m' Hs) as [Ht|[->|[i ->]]].
  - destruct (manager_step_ok m e Hm Hv Ht) as (m1 & H1 & _ & H2). rewrite Hs in H1. injection H1 as <-. by apply H2.
  - by apply emits_nothing.
  - by apply emits_nothing.
Qed.

(** The timers that are started stay between the shortest and the longest
    interval. *)
Theorem backoff_bounded m :
  reachable m ->
  Forall (fun t => STATUS_UPDATE_RETRY_INTERVAL_MIN <= t.2 <= STATUS_UPDATE_RETRY_INTERVAL_MAX) (timers m).
Proof. intros Hm%reachable_minv. apply (mi_timers _ _ Hm). Qed.

Lemma tracks_same s1 s2 f1 f2 U k :
  tracks s1 f1 U k -> tracks s2 f2 U k -> U <> [] ->
  pending s1 = pending s2 /\ received s1 = received s2 /\ acknowledged s1 = acknowledged s2
  /\ terminated s1 = terminated s2 /\ frameworkId s1 = frameworkId s2.
Proof.
  intros [[_ _ P1 R1 A1 T1 F1] _ _] [[_ _ P2 R2 A2 T2 F2] _ _] Hne. split_and!; [congruence..|].
  destruct U as [|u U]; [done|]. apply Forall_cons in F1 as [<- _], F2 as [<- _]. done.
Qed.

(** C35. After a restart the streams are what they were: recovery that is not strict
    always returns, and every checkpointed stream of the state before comes back
    with the same queue, the same received and acknowledged updates and the same
    framework, and without its write error, provided that it had received an
    update (a stream of which the first write failed does not come back), that
    the end of its file is not corrupt, and that it is among the streams to
    recover, each of which is named once. *)
Theorem restart_restores m p ids d now id s f :
  reachable m -> NoDup ids -> id ∈ ids ->
  streams m !! id = Some s -> checkpointed s = true -> received s <> ∅ ->
  files m !! id = Some f -> f_tail f <> Corrupt ->
  exists state m' s', recover (restart p m) ids d false now = Some (Ok state, m')
    /\ streams m' !! id = Some s'
    /\ pending s' = pending s /\ received s' = received s /\ acknowledged s' = acknowledged s
    /\ terminated s' = terminated s /\ frameworkId s' = frameworkId s
    /\ checkpointed s' = true /\ error s' = false.
Proof.
  intros Hm%reachable_minv Hn Hin Hs Hc Hre Hf Hcor.
  destruct (recover_loop_ok ids (restart p m) d false now (mkRecoverState ∅ 0)) as (r & m' & Hr & _ & Hres);
    [by apply restart_minv|done|done|].
  destruct r as [state|e]; [|by destruct Hres]. destruct Hres as (_ & _ & _ & Hrec).
  destruct (mi_streams _ _ Hm _ _ Hs) as [(U & k & Ht) _ Hl _ _]. rewrite Hf in Ht. cbn in Ht.
  assert (HU : U <> []).
  { intros ->. by rewrite (v_received _ _ _ (t_view _ _ _ _ Ht)) in Hre. }
  destruct (Hrec id f U k Hin Hf) as (s' & Hs' & Ht' & He' & Hc').
  { split_and!; [by apply (t_log _ _ _ _ Ht)|done..|].
    by rewrite <- (v_terminated _ _ _ (t_view _ _ _ _ Ht)). }
  exists state, m', s'. split_and!; [done..| | | | | |done|done]; by eapply tracks_same.
Qed.

(** An acknowledgement is accepted exactly when it is for the first update that
    was not acknowledged; otherwise the streams are left as they were. *)
Theorem acknowledgement_exact m id s x now :
  reachable m -> streams m !! id = Some s -> error s = false ->
  exists r m', acknowledgement m id x Written now = Some (r, m')
    /\ ((exists b, r = Ok b) <-> exists u, head (pending s) = Some u /\ uuid_of u = Some x)
    /\ ((exists e, r = Err e) -> streams m' = streams m /\ sent m' = sent m).
Proof.
  intros Hm%reachable_minv Hs He. destruct (acknowledgement_ok m id x Written now Hm) as (r & m' & Hr & _ & _).
  exists r, m'. split; [done|]. unfold acknowledgement in Hr. rewrite Hs in Hr.
  destruct (mi_streams _ _ Hm _ _ Hs) as [(U & k & Ht) Hfi Hlv Hid Har].
  destruct (stream_acknowledgement_spec s (file_of m id) U k x Written) as (r1 & s' & f' & Hsa & Hac & _); [done|].
  rewrite Hsa in Hr. cbn in Hr. assert (Hput : streams (put m id s (file_of m id)) = streams m
    /\ sent (put m id s (file_of m id)) = sent m).
  { unfold put. destruct (checkpointed s); cbn; by rewrite insert_id. }
  destruct Hac as [u s' f' _ He' Hu Hx Htr|u y Hu Hy Hne|e Hw|e b Hcp Hb].
  - assert (Hp := front_pending _ _ _ _ (t_view _ _ _ _ Ht) Hu).
    assert (Hok : exists b, r = Ok b).
    { unfold next in Hr. cbn in Hr. rewrite He' in Hr. destruct (terminated s'); cbn in Hr.
      - destruct (cleanupStatusUpdateStream _ id); [|done]. injection Hr as <- _. eauto.
      - destruct (head (pending s')); [|injection Hr as <- _; eauto].
        destruct (paused _); [injection Hr as <- _; eauto|].
        destruct (forward_front _ _ _ _ _); [|done]. injection Hr as <- _. eauto. }
    split; [|by destruct Hok as [b ->]; intros [e [=]]]. split; [|done]. intros _. exists u. by rewrite Hp.
  - assert (Hp := front_pending _ _ _ _ (t_view _ _ _ _ Ht) Hu). injection Hr as <- <-.
    split; [|done]. rewrite Hp. split; [by intros [b [=]]|]. intros (v & [= <-] & Hv). congruence.
  - injection Hr as <- <-. split; [|done]. split; [by intros [b [=]]|]. intros (v & Hv & _).
    destruct Hw as [Hw|Hw]; [congruence|by rewrite Hw in Hv].
  - done.
Qed.

End UUID.

(** ** Examples: UUIDs are taken as they are *)

Definition example_update (x : string) (st : OperationState) : Update :=
  mkUpdate (Some "f"%string) (mkStatus (Some x) st) None.

Definition run (fromBytes : string -> option string) (es : list Event) (m : Manager) : option Manager :=
  fold_left (fun m e => m ← m; step fromBytes m e) es (Some m).

Lemma run_reachable fromBytes es m m' :
  reachable fromBytes m -> Forall (valid_event fromBytes) es -> run fromBytes es m = Some m' ->
  reachable fromBytes m'.
Proof.
  revert m. induction es as [|e es IH]; intros m Hm Hv Hr; cbn in Hr.
  - by injection Hr as <-.
  - apply Forall_cons in Hv as [Hv Hvs]. destruct (step fromBytes m e) as [m1|] eqn:He.
    + apply (IH m1); [|done|done]. by eapply reachable_step.
    + exfalso. clear -Hr. induction es; cbn in Hr; [done|auto].
Qed.

Definition example_events : list Event :=
  [EUpdate (example_update "a" OPERATION_PENDING) "s" true true Written 0;
   EUpdate (example_update "b" OPERATION_FINISHED) "s" true true Written 1;
   EAcknowledgement "s" "a" Written 2].

Definition example_manager : Manager := default start (run Some example_events start).

Lemma example_reachable : reachable Some example_manager.
Proof.
  apply (run_reachable Some example_events start); [constructor| |vm_compute; reflexivity].
  repeat constructor; intros b _; eexists; reflexivity.
Qed.

Lemma manager_invariant_witness :
  index_ok (streams example_manager) (frameworkStreams example_manager)
  /\ (pending <$> streams example_manager !! "s"%string) = Some [example_update "b" OPERATION_FINISHED].
Proof.
  split; [|vm_compute; reflexivity].
  destruct (manager_invariant Some example_manager example_reachable) as (_ & H & _). exact H.
Defined.

Lemma manager_never_aborts_witness :
  is_Some (step Some example_manager (ETimer 1 (20 * 1000000000))).
Proof.
  apply (manager_never_aborts Some example_manager); [exact example_reachable|exact I|].
  intros id d s Ht Hs. left. vm_compute in Ht. injection Ht as <- <-. vm_compute in Hs. by injection Hs as <-.
Defined.

Lemma forwarded_in_order_witness :
  exists m', step Some example_manager (ETimer 1 (20 * 1000000000)) = Some m'
    /\ emits example_manager m' /\ length (sent m') = 3%nat.
Proof.
  eexists. split; [vm_compute; reflexivity|]. split; [|vm_compute; reflexivity].
  apply (forwarded_in_order Some example_manager (ETimer 1 (20 * 1000000000)));
    [exact example_reachable|exact I|exact I|vm_compute; reflexivity].
Defined.

Lemma backoff_bounded_witness :
  Forall (fun t => STATUS_UPDATE_RETRY_INTERVAL_MIN <= t.2 <= STATUS_UPDATE_RETRY_INTERVAL_MAX)
    (timers example_manager) /\ length (timers example_manager) = 2%nat.
Proof. split; [exact (backoff_bounded Some example_manager example_reachable)|vm_compute; reflexivity]. Defined.

Lemma restart_restores_witness :
  exists state m' s', recover Some (restart false example_manager) ["s"%string] (fun _ => true) false 5
      = Some (Ok state, m')
    /\ streams m' !! "s"%string = Some s'
    /\ pending s' = [example_update "b" OPERATION_FINISHED].
Proof.
  destruct (restart_restores Some example_manager false ["s"%string] (fun _ => true) 5 "s"%string
              (default (new_stream None false) (streams example_manager !! "s"%string))
              (default (mkFile [] Clean) (files example_manager !! "s"%string)))
    as (state & m' & s' & H1 & H2 & H3 & _);
    [exact example_reachable|apply NoDup_singleton|by left|vm_compute; reflexivity..| | | |].
  - vm_compute. discriminate.
  - vm_compute. reflexivity.
  - vm_compute. discriminate.
  - exists state, m', s'. split; [exact H1|]. split; [exact H2|]. rewrite H3. vm_compute. reflexivity.
Defined.

Lemma acknowledgement_exact_witness :
  exists r m', acknowledgement Some example_manager "s" "a" Written 5 = Some (r, m')
    /\ ~ (exists b, r = Ok b).
Proof.
  destruct (acknowledgement_exact Some example_manager "s" 
              (default (new_stream None false) (streams example_manager !! "s"%string)) "a" 5)
    as (r & m' & H1 & H2 & _); [exact example_reachable|vm_compute; reflexivity..|].
  exists r, m'. split; [exact H1|]. intros Hb. apply H2 in Hb as (u & Hu & Hx). vm_compute in Hu.
  injection Hu as <-. vm_compute in Hx. discriminate.
Defined.

Definition stale_timer_events : list Event :=
  [EUpdate (example_update "a" OPERATION_PENDING) "s" true true Written 0;
   EUpdate (example_update "b" OPERATION_PENDING) "s" true true Written 1;
   EPause; EAcknowledgement "s" "a" Written 2;
   EUpdate (example_update "c" OPERATION_PENDING) "s" true true (WriteFailed false) 3;
   EResume 4].

Definition stale_timer_manager : Manager := default start (run Some stale_timer_events start).

(** A timer of an update that was acknowledged is not cancelled.  When it fires
    after the manager was paused, the acknowledgement cleared the timeout, writing
    a later update failed and the manager was resumed (which skips the failed
    stream), the check that the stream has a timeout fails: the process aborts. *)
Theorem stale_timer_aborts :
  run Some stale_timer_events start = Some stale_timer_manager
  /\ reachable Some stale_timer_manager
  /\ timers stale_timer_manager = [("s"%string, STATUS_UPDATE_RETRY_INTERVAL_MIN)]
  /\ step Some stale_timer_manager (ETimer 0 STATUS_UPDATE_RETRY_INTERVAL_MIN) = None.
Proof.
  split_and!; [vm_compute; reflexivity| |vm_compute; reflexivity..].
  apply (run_reachable Some stale_timer_events start); [constructor| |vm_compute; reflexivity].
  repeat constructor; intros b _; eexists; reflexivity.
Qed.
