(* ===== verification/StateStorage.v ===== *)
(** * State storage

    The variables of [src/include/mesos/state/state.hpp], the storage in memory
    of [src/src/state/in_memory.cpp], and the storage on the replicated log of
    [src/src/state/log.cpp] with the writer of [src/src/log/log.cpp].

    The storages of several processes share one log.  A writer that won an
    election writes at the end of the log until another one is elected; a write
    returns the new ending position, or nothing when it is rejected, or it
    fails, and in the last two cases the entry may or may not be in the log.
    The coordinator of a writer whose write was rejected stays elected with the
    proposal number of its rival ([src/src/log/coordinator.cpp:373]): if the
    storage writes again without an election, which it does after a rejected
    truncation, the replicas may accept the entry at the position where the
    writer stopped ([write]).  The theorems about the storages assume that no
    storage does so ([retries]); [rejected_truncation_loses_update] shows what
    happens otherwise.  UUIDs are compared as they are stored. *)

From stdpp Require Import base gmap strings list sorting.
From S2P Require Import Prelude.
Local Open Scope Z_scope.

(** ** Entries and variables *)

Record Entry := mkEntry { e_name : string; e_uuid : string; e_value : string }.

#[export] Instance Entry_eq_dec : EqDecision Entry.
Proof. solve_decision. Defined.

Definition mutate (v : Entry) (value : string) : Entry := mkEntry (e_name v) (e_uuid v) value.

(** [State::_fetch]; [uuid] is the random one of a new variable. *)
Definition fetched (name uuid : string) (option : option Entry) : Entry :=
  match option with Some e => e | None => mkEntry name uuid EmptyString end.

(** The entry that [State::store] sets, with its random UUID. *)
Definition stored (v : Entry) (uuid : string) : Entry := mkEntry (e_name v) uuid (e_value v).

(** ** Storage in memory: the contract of a storage *)

Notation memory := (gmap string Entry).

Definition mem_get (m : memory) (name : string) : option Entry := m !! name.

Definition mem_set (m : memory) (e : Entry) (uuid : string) : bool * memory :=
  match m !! e_name e with
  | Some o => if decide (e_uuid o = uuid) then (true, <[e_name e := e]> m) else (false, m)
  | None => (true, <[e_name e := e]> m)
  end.

Definition mem_expunge (m : memory) (e : Entry) : bool * memory :=
  match m !! e_name e with
  | Some o => if decide (e_uuid o = e_uuid e) then (true, delete (e_name e) m) else (false, m)
  | None => (false, m)
  end.

Definition mem_names (m : memory) : gset string := dom m.

(** ** The log *)

Inductive Operation := SNAPSHOT (e : Entry) | DIFF (e : Entry) | EXPUNGE (name : string).

(** The entries that were ever written, the positions that can be read, and the
    process that won the last election, until a write of it is rejected or
    fails. *)
Record Log := mkLog {
  history : list (Z * Operation);
  beginning : Z;
  ending : Z;
  elected : option nat;
}.

Definition read (L : Log) (from to : Z) : option (list (Z * Operation)) :=
  if (to <? from) || (from <? beginning L) || (ending L <? to) then None
  else Some (filter (fun x => from <= x.1 <= to) (history L)).

Inductive Starting := NotStarted | Electing | Reading (p : Z) | Ready | StartFailed.

Record Snapshot := mkSnapshot { position : Z; entry : Entry; diffs : nat }.

(** The coordinator of a writer: the position it writes next, and whether a
    write was rejected, so that it goes on with the proposal of its rival. *)
Record Coord := mkCoord { next : Z; rejected : bool }.

(** [LogStorageProcess] with its writer; [truncations] are the calls of
    [truncate] that wait for the mutex. *)
Record Store := mkStore {
  starting : Starting;
  index : option Z;
  truncated : option Z;
  snapshots : gmap string Snapshot;
  truncations : nat;
  coordinator : option Coord;
  writer_error : bool;
}.

Definition new_store : Store := mkStore NotStarted None None ∅ 0 None false.

Definition set_starting (x : Starting) (s : Store) : Store :=
  mkStore x (index s) (truncated s) (snapshots s) (truncations s) (coordinator s) (writer_error s).
Definition set_index (x : option Z) (s : Store) : Store :=
  mkStore (starting s) x (truncated s) (snapshots s) (truncations s) (coordinator s) (writer_error s).
Definition set_truncated (x : option Z) (s : Store) : Store :=
  mkStore (starting s) (index s) x (snapshots s) (truncations s) (coordinator s) (writer_error s).
Definition set_snapshots (x : gmap string Snapshot) (s : Store) : Store :=
  mkStore (starting s) (index s) (truncated s) x (truncations s) (coordinator s) (writer_error s).
Definition set_truncations (x : nat) (s : Store) : Store :=
  mkStore (starting s) (index s) (truncated s) (snapshots s) x (coordinator s) (writer_error s).
Definition set_writer (c : option Coord) (e : bool) (s : Store) : Store :=
  mkStore (starting s) (index s) (truncated s) (snapshots s) (truncations s) c e.

(** What becomes of a write; [written] is whether the entry is in the log. *)
Inductive outcome := Success | Lost (written : bool) | Failure (written : bool).

Inductive written_at := At (p : Z) | Demoted | WriteFailed.

Definition lose (written : bool) (L L' : Log) : Log :=
  let l := if written then L' else L in mkLog (history l) (beginning l) (ending l) None.

(** [LogWriterProcess::append] and [truncate]: without an election, or after a
    failure, they fail.  [L'] is the log with the entry at its end, [R p] the log
    with the entry at position [p].  A coordinator that was overtaken is told so,
    takes the proposal of its rival and stays elected; when it writes again, the
    replicas may accept the entry at the position where it stopped. *)
Definition write (i : nat) (L L' : Log) (R : Z -> Log) (s : Store) (o : outcome) : written_at * Log * Store :=
  match coordinator s with
  | None => (WriteFailed, L, s)
  | Some c =>
      if writer_error s then (WriteFailed, L, s)
      else if rejected c then
        match o with
        | Success => (At (next c), R (next c), set_writer (Some (mkCoord (next c + 1) true)) false s)
        | Lost b => (Demoted, if b then R (next c) else L, s)
        | Failure b => (WriteFailed, if b then R (next c) else L, set_writer (Some c) true s)
        end
      else if decide (elected L = Some i) then
        match o with
        | Success => (At (ending L'), L', set_writer (Some (mkCoord (ending L' + 1) false)) false s)
        | Lost b => (Demoted, lose b L L', set_writer (Some (mkCoord (next c) true)) false s)
        | Failure b => (WriteFailed, lose b L L', set_writer (Some c) true s)
        end
      else
        match o with
        | Failure _ => (WriteFailed, L, set_writer (Some c) true s)
        | _ => (Demoted, L, set_writer (Some (mkCoord (next c) true)) false s)
        end
  end.

Definition appended (L : Log) (op : Operation) : Log :=
  mkLog (history L ++ [(ending L + 1, op)]) (beginning L) (ending L + 1) (elected L).

Definition shortened (L : Log) (to : Z) : Log :=
  mkLog (history L) (Z.max (beginning L) to) (ending L + 1) (elected L).

(** The log once the replicas have accepted an entry at a position that may
    have been written before. *)
Definition entries_but (p : Z) (l : list (Z * Operation)) : list (Z * Operation) * list (Z * Operation) :=
  (filter (fun x => x.1 < p) l, filter (fun x => p < x.1) l).

Definition overwritten (L : Log) (op : Operation) (p : Z) : Log :=
  let '(below, above) := entries_but p (history L) in
  mkLog (below ++ (p, op) :: above) (beginning L) (Z.max (ending L) p) (elected L).

Definition shortened_at (L : Log) (to p : Z) : Log :=
  let '(below, above) := entries_but p (history L) in
  mkLog (below ++ above) (Z.max (beginning L) to) (Z.max (ending L) p) (elected L).

Definition append (i : nat) (L : Log) (s : Store) (op : Operation) (o : outcome) : written_at * Log * Store :=
  write i L (appended L op) (overwritten L op) s o.

Definition truncate_to (i : nat) (L : Log) (s : Store) (to : Z) (o : outcome) : written_at * Log * Store :=
  write i L (shortened L to) (shortened_at L to) s o.

(** ** The storage on the log *)

Section LogStorage.
(** [svn::diff], [svn::patch] and the number of diffs between snapshots. *)
Context (diff patch : string -> string -> option string) (diffsBetweenSnapshots : nat).

Definition snapshot_patch (s : Snapshot) (d : Entry) : option Snapshot :=
  if decide (e_name d = e_name (entry s)) then
    v ← patch (e_value (entry s)) (e_value d);
    Some (mkSnapshot (position s) (mkEntry (e_name d) (e_uuid d) v) (S (diffs s)))
  else None.

Inductive apply_error := NoSnapshot | PatchFailed.

Definition apply_operation (m : gmap string Snapshot) (x : Z * Operation) : result apply_error (gmap string Snapshot) :=
  match x.2 with
  | SNAPSHOT e => Ok (<[e_name e := mkSnapshot x.1 e 0]> m)
  | DIFF d =>
      match m !! e_name d with
      | None => Err NoSnapshot
      | Some s =>
          match snapshot_patch s d with
          | Some s' => Ok (<[e_name (entry s') := s']> m)
          | None => Err PatchFailed
          end
      end
  | EXPUNGE n => Ok (delete n m)
  end.

(** [apply]: entries at or below the index are skipped.  [None] is a failed
    [CHECK]: a diff without a snapshot. *)
Fixpoint apply (s : Store) (entries : list (Z * Operation)) : option (bool * Store) :=
  match entries with
  | [] => Some (true, s)
  | x :: entries' =>
      if (match index s with None => true | Some i => i <? x.1 end) then
        match apply_operation (snapshots s) x with
        | Ok m => apply (set_index (Some x.1) (set_snapshots m s)) entries'
        | Err NoSnapshot => None
        | Err PatchFailed => Some (false, s)
        end
      else apply s entries'
  end.

(** [start] and [_start] with the result of the election. *)
Definition start (s : Store) : Store :=
  match starting s with NotStarted => set_starting Electing s | _ => s end.

Inductive election := Won | NotElected | ElectionFailed.

Definition start_ (i : nat) (L : Log) (s : Store) (e : election) : Log * Store :=
  match starting s with
  | Electing =>
      match e with
      | Won => (mkLog (history L) (beginning L) (ending L) (Some i),
                set_starting (Reading (ending L)) (set_writer (Some (mkCoord (ending L + 1) false)) false s))
      | NotElected => (L, set_starting Electing (set_writer (Some (mkCoord 0 false)) false s))
      | ElectionFailed => (L, set_starting StartFailed (set_writer (Some (mkCoord 0 false)) true s))
      end
  | _ => (L, s)
  end.

(** [_start] and [__start] once the log can be read; [ok] is whether reading
    succeeds. *)
Definition start_read (L : Log) (s : Store) (ok : bool) : option Store :=
  match starting s with
  | Reading p =>
      let from := match index s with Some ix => ix | None => beginning L end in
      if match index s, truncated s with Some _, None => true | _, _ => false end then None
      else
        let s1 := match index s with None => set_truncated (Some (beginning L)) s | Some _ => s end in
        match (if ok then read L from p else None) with
        | None => Some (set_starting StartFailed s1)
        | Some entries =>
            '(done, s2) ← apply s1 entries;
            Some (set_starting (if done : bool then Ready else StartFailed) s2)
        end
  | _ => Some s
  end.

Inductive reply := Replied (b : bool) | Failed | Waiting.

Definition max_index (i : option Z) (p : Z) : option Z := Some (match i with None => p | Some q => Z.max q p end).

(** [___set] *)
Definition set_written (L : Log) (s : Store) (e : Entry) (d : nat) (w : written_at) : option (reply * Store) :=
  match w with
  | WriteFailed => Some (Failed, s)
  | Demoted => Some (Replied false, set_starting NotStarted s)
  | At p =>
      p' ← (if decide (d = 0)%nat then Some p else position <$> snapshots s !! e_name e);
      Some (Replied true,
            set_truncations (S (truncations s))
              (set_index (max_index (index s) p)
                 (set_snapshots (<[e_name e := mkSnapshot p' e d]> (snapshots s)) s)))
  end.

(** The operation that [__set] appends, with its number of diffs: a diff when
    it is allowed and shorter; [None] when making the diff fails. *)
Definition set_operation (s : Store) (e : Entry) : option (Operation * nat) :=
  match snapshots s !! e_name e with
  | Some sn =>
      if (diffs sn <? diffsBetweenSnapshots)%nat then
        d ← diff (e_value (entry sn)) (e_value e);
        if (String.length d <? String.length (e_value e))%nat
        then Some (DIFF (mkEntry (e_name e) (e_uuid e) d), S (diffs sn))
        else Some (SNAPSHOT e, 0%nat)
      else Some (SNAPSHOT e, 0%nat)
  | None => Some (SNAPSHOT e, 0%nat)
  end.

(** [set] of a storage that has started. *)
Definition set (i : nat) (L : Log) (s : Store) (e : Entry) (uuid : string) (o : outcome)
  : option (reply * Log * Store) :=
  match starting s with
  | StartFailed => Some (Failed, L, s)
  | Ready =>
      if match snapshots s !! e_name e with Some sn => negb (bool_decide (e_uuid (entry sn) = uuid)) | None => false end
      then Some (Replied false, L, s)
      else match set_operation s e with
           | None => Some (Failed, L, s)
           | Some (op, d) =>
               let '(w, L', s1) := append i L s op o in
               '(r, s2) ← set_written L' s1 e d w;
               Some (r, L', s2)
           end
  | _ => Some (Waiting, L, start s)
  end.

(** [___expunge] *)
Definition expunge_written (s : Store) (e : Entry) (w : written_at) : option (reply * Store) :=
  match w with
  | WriteFailed => Some (Failed, s)
  | Demoted => Some (Replied false, set_starting NotStarted s)
  | At p =>
      match snapshots s !! e_name e with
      | None => None
      | Some _ => Some (Replied true, set_truncations (S (truncations s))
                                       (set_snapshots (delete (e_name e) (snapshots s)) s))
      end
  end.

Definition expunge (i : nat) (L : Log) (s : Store) (e : Entry) (o : outcome) : option (reply * Log * Store) :=
  match starting s with
  | StartFailed => Some (Failed, L, s)
  | Ready =>
      match snapshots s !! e_name e with
      | None => Some (Replied false, L, s)
      | Some sn =>
          if decide (e_uuid (entry sn) = e_uuid e) then
            let '(w, L', s1) := append i L s (EXPUNGE (e_name e)) o in
            '(r, s2) ← expunge_written s1 e w;
            Some (r, L', s2)
          else Some (Replied false, L, s)
      end
  | _ => Some (Waiting, L, start s)
  end.

Definition get (s : Store) (name : string) : option Entry := entry <$> snapshots s !! name.

Definition names (s : Store) : gset string := dom (snapshots s).

(** The lowest position of a snapshot. *)
Definition minimum (m : gmap string Snapshot) : option Z :=
  map_fold (fun _ sn acc => Some (match acc with None => position sn | Some p => Z.min p (position sn) end)) None m.

(** [_truncate] and [__truncate].  A truncation waits for the mutex behind
    writes only, and an election under way was asked for by a read or by such a
    write: it is not run between the election and the reading of the log. *)
Definition truncate (i : nat) (L : Log) (s : Store) (o : outcome) : option (Log * Store) :=
  match truncations s, starting s with
  | O, _ | _, Reading _ => Some (L, s)
  | S n, _ =>
      let s0 := set_truncations n s in
      t ← truncated s;
      match minimum (snapshots s) with
      | Some p =>
          if t <? p then
            let '(w, L', s1) := truncate_to i L s0 p o in
            match w with
            | At q => Some (L', set_truncated (Some (Z.max t p)) (set_index (max_index (index s1) q) s1))
            | _ => Some (L', s1)
            end
          else Some (L, s0)
      | None => Some (L, s0)
      end
  end.

(** ** Several storages on one log *)

Record System := mkSystem { log : Log; stores : gmap nat Store }.

Inductive Event :=
  | ENew (i : nat)
  | EStart (i : nat)
  | EElection (i : nat) (e : election)
  | ERead (i : nat) (ok : bool)
  | ESet (i : nat) (e : Entry) (uuid : string) (o : outcome)
  | EExpunge (i : nat) (e : Entry) (o : outcome)
  | ETruncate (i : nat) (o : outcome).

Definition node (e : Event) : nat :=
  match e with
  | ENew i | EStart i | EElection i _ | ERead i _ | ESet i _ _ _ | EExpunge i _ _ | ETruncate i _ => i
  end.

(** A process that is gone does not write any more. *)
Definition retire (i : nat) (L : Log) : Log :=
  mkLog (history L) (beginning L) (ending L) (if decide (elected L = Some i) then None else elected L).

Definition store_step (L : Log) (s : Store) (e : Event) : option (reply * Log * Store) :=
  match e with
  | ENew i => Some (Waiting, retire i L, new_store)
  | EStart _ => Some (Waiting, L, start s)
  | EElection i e => let '(L', s') := start_ i L s e in Some (Waiting, L', s')
  | ERead _ ok => s' ← start_read L s ok; Some (Waiting, L, s')
  | ESet i e uuid o => set i L s e uuid o
  | EExpunge i e o => expunge i L s e o
  | ETruncate i o => '(L', s') ← truncate i L s o; Some (Waiting, L', s')
  end.

Definition step (sys : System) (e : Event) : option (reply * System) :=
  '(r, L, s) ← store_step (log sys) (default new_store (stores sys !! node e)) e;
  Some (r, mkSystem L (<[node e := s]> (stores sys))).

(** An event in which a storage writes although its last write was rejected and
    it was not elected since.  A rejected [set] or [expunge] starts the writer
    again; a rejected truncation does not, and the next [set] is such an event. *)
Definition retries (s : Store) (e : Event) : bool :=
  match coordinator s with
  | Some c =>
      rejected c
      && match e with
         | ESet _ _ _ _ | EExpunge _ _ _ => match starting s with Ready => true | _ => false end
         | ETruncate _ _ => true
         | _ => false
         end
  | None => false
  end.

Definition store_of (sys : System) (i : nat) : Store := default new_store (stores sys !! i).

Definition initial : System := mkSystem (mkLog [] 0 0 None) ∅.

(** ** What the log says *)

Fixpoint replay (m : gmap string Snapshot) (l : list (Z * Operation)) : result apply_error (gmap string Snapshot) :=
  match l with
  | [] => Ok m
  | x :: l' => match apply_operation m x with Ok m' => replay m' l' | Err e => Err e end
  end.

Lemma log_replay_app m l1 l2 :
  replay m (l1 ++ l2) = match replay m l1 with Ok m' => replay m' l2 | Err e => Err e end.
Proof.
  revert m. induction l1 as [|x l1 IH]; intros m; cbn; [done|]. destruct (apply_operation m x); [apply IH|done].
Qed.

Lemma replay_app_ok m l1 l2 m2 :
  replay m (l1 ++ l2) = Ok m2 -> exists m1, replay m l1 = Ok m1 /\ replay m1 l2 = Ok m2.
Proof. rewrite log_replay_app. destruct (replay m l1) as [m1|]; [|done]. eauto. Qed.

Definition increasing (l : list (Z * Operation)) : Prop := StronglySorted (fun x y => x.1 < y.1) l.

Definition after (c : Z) (l : list (Z * Operation)) : list (Z * Operation) := filter (fun x => c < x.1) l.
Definition from (c : Z) (l : list (Z * Operation)) : list (Z * Operation) := filter (fun x => c <= x.1) l.

Lemma filter_none {A} (P : A -> Prop) `{forall x, Decision (P x)} l : Forall (fun x => ~ P x) l -> filter P l = [].
Proof. induction 1 as [|x l Hx Hl IH]; [done|]. by rewrite filter_cons_False. Qed.

Lemma filter_keeps_all {A} (P : A -> Prop) `{forall x, Decision (P x)} l : Forall P l -> filter P l = l.
Proof. induction 1 as [|x l Hx Hl IH]; [done|]. by rewrite filter_cons_True, IH. Qed.

(** A sorted list is what is below a position followed by the rest. *)
Lemma increasing_split (P : Z * Operation -> Prop) `{forall x, Decision (P x)} l :
  increasing l -> (forall x y, P x -> x.1 < y.1 -> P y) ->
  l = filter (fun x => ~ P x) l ++ filter P l.
Proof.
  intros Hs Hup. induction Hs as [|x l Hs IH Hx]; [done|].
  rewrite !filter_cons. destruct (decide (P x)) as [Hp|Hp].
  - rewrite (decide_False (P := ~ P x)) by naive_solver.
    replace (filter (fun x => ~ P x) l) with (@nil (Z * Operation)).
    + cbn. f_equal. rewrite IH at 1. replace (filter (fun x => ~ P x) l) with (@nil (Z * Operation)); [done|].
      symmetry. apply filter_none. eapply Forall_impl; [exact Hx|]. naive_solver.
    + symmetry. apply filter_none. eapply Forall_impl; [exact Hx|]. naive_solver.
  - rewrite decide_True by done. cbn. f_equal. exact IH.
Qed.

Lemma increasing_filter (P : Z * Operation -> Prop) `{forall x, Decision (P x)} l : increasing l -> increasing (filter P l).
Proof.
  intros Hs. induction Hs as [|x l Hs IH Hx]; [constructor|]. rewrite filter_cons. case_decide; [|done].
  constructor; [done|]. apply Forall_forall. intros y Hy%list_elem_of_filter. rewrite Forall_forall in Hx. apply Hx, Hy.
Qed.

Lemma increasing_snoc l x : increasing l -> Forall (fun y => y.1 < x.1) l -> increasing (l ++ [x]).
Proof.
  induction 1 as [|y l Hs IH Hy]; intros Hx; cbn; [by repeat constructor|].
  apply Forall_cons in Hx as [Hxy Hx]. constructor; [by apply IH|]. apply Forall_app. split; [done|]. by repeat constructor.
Qed.

Definition op_name (o : Operation) : string :=
  match o with SNAPSHOT e | DIFF e => e_name e | EXPUNGE n => n end.

(** *** Facts about replay *)

Definition keyed (m : gmap string Snapshot) : Prop := forall n sn, m !! n = Some sn -> e_name (entry sn) = n.

Lemma keyed_empty : keyed ∅.
Proof. intros n sn. by rewrite lookup_empty. Qed.

(** What an operation leaves at a name: the snapshot it writes, the one it patches,
    or the one that was there. *)
Lemma apply_operation_lookup m x m' n sn :
  keyed m -> apply_operation m x = Ok m' -> m' !! n = Some sn ->
  e_name (entry sn) = n
  /\ ((exists e, x.2 = SNAPSHOT e /\ e_name e = n /\ position sn = x.1)
      \/ exists sn0, m !! n = Some sn0 /\ position sn = position sn0).
Proof.
  intros Hk Ha Hn. destruct x as [p [e|d|z]]; cbn in Ha.
  - injection Ha as <-. apply lookup_insert_Some in Hn as [[<- <-]|[Hne Hn]]; [split; [done|left; eauto]|].
    split; [by apply Hk|right; eauto].
  - destruct (m !! e_name d) as [sn0|] eqn:H0; [|done]. unfold snapshot_patch in Ha.
    destruct (decide _) as [Hd|]; [|done]. destruct (patch _ _) as [v|]; [|done]. cbn in Ha. injection Ha as <-.
    apply lookup_insert_Some in Hn as [[<- <-]|[Hne Hn]]; [split; [done|right; eauto]|].
    split; [by apply Hk|right; eauto].
  - injection Ha as <-. apply lookup_delete_Some in Hn as [_ Hn]. split; [by apply Hk|right; eauto].
Qed.

Lemma apply_operation_keyed m x m' : keyed m -> apply_operation m x = Ok m' -> keyed m'.
Proof. intros Hk Ha n sn Hn. by eapply apply_operation_lookup. Qed.

Lemma replay_keyed l m m' : keyed m -> replay m l = Ok m' -> keyed m'.
Proof.
  revert m. induction l as [|x l IH]; intros m Hk; cbn; [by intros [= <-]|].
  destruct (apply_operation m x) as [m1|] eqn:Ha; [|done]. apply IH. by eapply apply_operation_keyed.
Qed.

(** The positions of snapshots are those of [SNAPSHOT] entries of the log. *)
Definition rooted (H : list (Z * Operation)) (m : gmap string Snapshot) : Prop :=
  forall n sn, m !! n = Some sn -> exists e, (position sn, SNAPSHOT e) ∈ H /\ e_name e = n.

Lemma replay_rooted H l m m' :
  keyed m -> rooted H m -> (forall x, x ∈ l -> x ∈ H) -> replay m l = Ok m' -> rooted H m'.
Proof.
  revert m. induction l as [|x l IH]; intros m Hk Hr Hl; cbn; [by intros [= <-]|].
  destruct (apply_operation m x) as [m1|] eqn:Ha; [|done]. apply IH.
  - by eapply apply_operation_keyed.
  - intros n sn Hn. destruct (apply_operation_lookup _ _ _ _ _ Hk Ha Hn) as [_ [(e & Hx & He & Hp)|(s0 & H0 & Hp)]].
    + exists e. split; [|done]. rewrite Hp, <- Hx. destruct x. apply Hl. by left.
    + destruct (Hr n s0 H0) as (e & Hin & He). exists e. by rewrite Hp.
  - intros y Hy. apply Hl. by right.
Qed.

(** [newer m0 m]: every snapshot of [m] is where it is in [m0], or after all
    snapshots of [m0]. *)
Definition newer (m0 m : gmap string Snapshot) : Prop :=
  forall n sn, m !! n = Some sn ->
    (exists s0, m0 !! n = Some s0 /\ position s0 = position sn)
    \/ (forall n' s', m0 !! n' = Some s' -> position s' < position sn).

Lemma newer_refl m : newer m m.
Proof. intros n sn Hn. left. eauto. Qed.

Lemma newer_apply m0 m x m' :
  keyed m -> newer m0 m -> (forall n s, m0 !! n = Some s -> position s < x.1) ->
  apply_operation m x = Ok m' -> newer m0 m'.
Proof.
  intros Hk Hn Hx Ha n sn Hsn.
  destruct (apply_operation_lookup _ _ _ _ _ Hk Ha Hsn) as [_ [(e & _ & _ & ->)|(s1 & H1 & ->)]].
  - right. exact Hx.
  - by apply Hn.
Qed.

Lemma newer_replay l m0 m m' :
  keyed m -> newer m0 m -> (forall x n s, x ∈ l -> m0 !! n = Some s -> position s < x.1) ->
  replay m l = Ok m' -> newer m0 m'.
Proof.
  revert m. induction l as [|x l IH]; intros m Hk Hn Hl; cbn; [by intros [= <-]|].
  destruct (apply_operation m x) as [m1|] eqn:Ha; [|done]. apply IH.
  - by eapply apply_operation_keyed.
  - eapply newer_apply; [done..| |done]. intros n s. apply Hl. by left.
  - intros y n s Hy. apply Hl. by right.
Qed.

(** Dropping a prefix: the states with and without it differ only in snapshots
    from before [p], and not in the names that diffs are for. *)
Definition differ_below (p : Z) (N : string -> Prop) (a b : gmap string Snapshot) : Prop :=
  forall n, a !! n = b !! n \/ (~ N n /\ b !! n = None /\ exists s, a !! n = Some s /\ position s < p).

Definition diffs_within (N : string -> Prop) (l : list (Z * Operation)) : Prop :=
  forall x d, x ∈ l -> x.2 = DIFF d -> N (e_name d).

Lemma differ_below_insert p N a b n s : differ_below p N a b -> differ_below p N (<[n := s]> a) (<[n := s]> b).
Proof.
  intros Hd n'. destruct (decide (n' = n)) as [->|Hne]; [left; by rewrite !lookup_insert_eq|].
  rewrite !lookup_insert_ne by done. apply Hd.
Qed.

Lemma differ_below_apply p N a b x a' :
  differ_below p N a b -> (forall d, x.2 = DIFF d -> N (e_name d)) -> apply_operation a x = Ok a' ->
  exists b', apply_operation b x = Ok b' /\ differ_below p N a' b'.
Proof.
  intros Hd HN Ha. destruct x as [q [e|d|z]]; cbn in *.
  - injection Ha as <-. eexists. split; [done|]. by apply differ_below_insert.
  - destruct (Hd (e_name d)) as [Heq|[Hn _]]; [|by destruct Hn; apply HN]. rewrite <- Heq.
    destruct (a !! e_name d) as [s|]; [|done]. destruct (snapshot_patch s d) as [s'|]; [|done].
    injection Ha as <-. eexists. split; [done|]. by apply differ_below_insert.
  - injection Ha as <-. eexists. split; [done|]. intros n'. destruct (decide (n' = z)) as [->|Hne].
    + left. by rewrite !lookup_delete_eq.
    + rewrite !lookup_delete_ne by done. apply Hd.
Qed.

Lemma differ_below_replay p N l a b a' :
  differ_below p N a b -> diffs_within N l -> replay a l = Ok a' ->
  exists b', replay b l = Ok b' /\ differ_below p N a' b'.
Proof.
  revert a b. induction l as [|x l IH]; intros a b Hd HN; cbn; [intros [= <-]; eauto|].
  destruct (apply_operation a x) as [a1|] eqn:Ha; [|done].
  destruct (differ_below_apply _ _ _ _ _ _ Hd (fun d => HN x d ltac:(by left)) Ha) as (b1 & -> & Hd1).
  apply IH; [done|]. intros y d Hy. apply HN. by right.
Qed.

Lemma differ_below_eq p N a b :
  differ_below p N a b -> (forall n s, a !! n = Some s -> p <= position s) -> a = b.
Proof.
  intros Hd Hp. apply map_eq. intros n. destruct (Hd n) as [->|(_ & _ & s & Hs & Hlt)]; [done|].
  apply Hp in Hs. lia.
Qed.


(** ** The invariant *)

(** A patch of a diff gives what it was made for; and the log has no diffs, or
    all storages use one name only. *)
Context (patch_diff : forall a b d, diff a b = Some d -> patch a d = Some b) (only : string).

Definition tame (o : Operation) : Prop :=
  (diffsBetweenSnapshots = 0%nat /\ forall d, o <> DIFF d)
  \/ (diffsBetweenSnapshots <> 0%nat /\ op_name o = only).

Record log_ok (L : Log) (m : gmap string Snapshot) : Prop := {
  lo_sorted : increasing (history L);
  lo_bound : Forall (fun x => x.1 <= ending L) (history L);
  lo_begin : beginning L <= ending L;
  lo_replay : replay ∅ (history L) = Ok m;
  lo_visible : replay ∅ (from (beginning L) (history L)) = Ok m;
  lo_tame : Forall (fun x => tame x.2) (history L);
}.

(** The entries above the index that a storage has written itself. *)
Definition own_expunges (m : gmap string Snapshot) (l : list (Z * Operation)) : Prop :=
  Forall (fun x => exists n, x.2 = EXPUNGE n /\ m !! n = None) l.

(** The entries above the index of a storage bring it up to date; the storage
    whose writer may write is up to date, or reads what it needs. *)
Record store_ok (L : Log) (m : gmap string Snapshot) (i : nat) (s : Store) : Prop := {
  so_keyed : keyed (snapshots s);
  so_rooted : rooted (history L) (snapshots s);
  so_newer : newer (snapshots s) m;
  so_index :
    starting s <> StartFailed ->
    match index s with
    | None => snapshots s = ∅
    | Some ix =>
        replay (snapshots s) (after ix (history L)) = Ok m /\ ix <= ending L
        /\ (forall n sn, snapshots s !! n = Some sn -> position sn <= ix)
    end;
  so_truncated : index s <> None \/ truncations s <> 0%nat \/ starting s = Ready -> is_Some (truncated s);
  so_leader :
    elected L = Some i ->
    match starting s with
    | Ready => snapshots s = m /\ forall ix, index s = Some ix -> own_expunges m (after ix (history L))
    | Reading p => p = ending L
    | StartFailed => True
    | _ => False
    end;
}.

Lemma lo_keyed L m : log_ok L m -> keyed m.
Proof. intros [_ _ _ Hr _ _]. eapply replay_keyed; [apply keyed_empty|exact Hr]. Qed.

Lemma rooted_bound L m mm n sn : log_ok L mm -> rooted (history L) m -> m !! n = Some sn -> position sn <= ending L.
Proof.
  intros [_ Hb _ _ _ _] Hr Hn. destruct (Hr n sn Hn) as (e & Hin & _). rewrite Forall_forall in Hb. apply (Hb _ Hin).
Qed.

Lemma new_store_ok L m i : elected L <> Some i -> store_ok L m i new_store.
Proof.
  intros He. split; cbn; [apply keyed_empty| |intros n sn _; right|done|naive_solver|done];
    intros n' s'; by rewrite lookup_empty.
Qed.

(** Other storages, when the entries stay the same. *)
Lemma store_ok_log L L' m j s :
  store_ok L m j s -> history L' = history L -> ending L <= ending L' ->
  (elected L' = Some j -> elected L = Some j /\ ending L' = ending L) -> store_ok L' m j s.
Proof.
  intros [Hk Hr Hn Hi Ht Hl] Hh He Hel. split; [done|by rewrite Hh|done| |done|].
  - intros Hs. specialize (Hi Hs). destruct (index s); [|done]. rewrite Hh. destruct Hi as (H1 & H2 & H3).
    split_and!; [done|lia|done].
  - intros [Hj Heq]%Hel. rewrite Heq, Hh. by apply Hl.
Qed.

(** A storage that does not write, when an entry is added. *)
Lemma store_ok_append L L' m m' x j s :
  log_ok L m -> store_ok L m j s -> history L' = history L ++ [x] -> ending L < x.1 -> ending L' = x.1 ->
  apply_operation m x = Ok m' -> elected L' <> Some j -> store_ok L' m' j s.
Proof.
  intros HL Hs Hh Hx He Ha Hel. pose proof Hs as [Hk Hr Hn Hi Ht Hl]. split; [done| | | |done|done].
  - intros n sn Hsn. destruct (Hr n sn Hsn) as (e & Hin & Hne). exists e. split; [|done]. rewrite Hh. set_solver.
  - eapply newer_apply; [by eapply lo_keyed|done| |done]. intros n sn Hsn.
    assert (H := rooted_bound _ _ _ _ _ HL Hr Hsn). lia.
  - intros Hst. specialize (Hi Hst). destruct (index s) as [ix|]; [|done]. destruct Hi as (H1 & H2 & H3).
    split_and!; [|lia|done]. unfold after in *.
    rewrite Hh, filter_app, (filter_cons_True _ x []), log_replay_app, H1 by lia. cbn. by rewrite Ha.
Qed.

(** Adding an entry to the log. *)
Lemma log_ok_append L m op m' :
  log_ok L m -> apply_operation m (ending L + 1, op) = Ok m' -> tame op ->
  log_ok (appended L op) m'.
Proof.
  intros [Hs Hb Hbe Hr Hv Ht] Ha Hop. split; cbn.
  - apply increasing_snoc; [done|]. eapply Forall_impl; [exact Hb|]. cbn. lia.
  - apply Forall_app. split; [|by repeat constructor]. eapply Forall_impl; [exact Hb|]. cbn. lia.
  - lia.
  - rewrite log_replay_app, Hr. cbn. by rewrite Ha.
  - unfold from in *. rewrite filter_app, filter_cons_True by (cbn; lia). rewrite log_replay_app, Hv. cbn. by rewrite Ha.
  - apply Forall_app. split; [done|]. by constructor; [|constructor].
Qed.

(** An entry at [p] is the first one from [p] on. *)
Lemma from_head (H : list (Z * Operation)) p o :
  increasing H -> (p, o) ∈ H -> exists l2, from p H = (p, o) :: l2 /\ forall x, x ∈ l2 -> x ∈ H.
Proof.
  intros Hs Hin. assert (Hinf : (p, o) ∈ from p H) by (apply list_elem_of_filter; by split).
  assert (Hsf : increasing (from p H)) by by apply increasing_filter.
  assert (Hall : forall x, x ∈ from p H -> p <= x.1 /\ x ∈ H) by (intros x Hx; by apply list_elem_of_filter in Hx).
  destruct (from p H) as [|y l2]; [by apply elem_of_nil in Hinf|]. exists l2. split.
  - f_equal. apply elem_of_cons in Hinf as [<-|Hl2]; [done|]. inversion Hsf as [|? ? _ Hy]; subst.
    rewrite Forall_forall in Hy. specialize (Hy _ Hl2). cbn in Hy. destruct (Hall y) as [Hyp _]; [by left|]. lia.
  - intros x Hx. apply Hall. by right.
Qed.

(** Truncating the log to a snapshot that is not above any snapshot. *)
Lemma log_ok_shorten L m p e :
  log_ok L m -> (p, SNAPSHOT e) ∈ history L -> (forall n s, m !! n = Some s -> p <= position s) ->
  log_ok (shortened L p) m.
Proof.
  intros [Hs Hb Hbe Hr Hv Ht] Hin Hm. split; cbn; [done| | |done| |done].
  { eapply Forall_impl; [exact Hb|]. cbn. lia. }
  { rewrite Forall_forall in Hb. specialize (Hb _ Hin). cbn in Hb. lia. }
  destruct (Z.le_gt_cases p (beginning L)) as [Hle|Hgt]; [by rewrite Z.max_l|]. rewrite Z.max_r by lia.
  assert (Hsplit : from (beginning L) (history L)
                   = filter (fun x => ~ p <= x.1) (from (beginning L) (history L)) ++ from p (history L)).
  { rewrite (increasing_split (fun x => p <= x.1) (from (beginning L) (history L))) at 1;
      [|by apply increasing_filter|intros x y; lia].
    f_equal. unfold from. rewrite list_filter_filter. apply list_filter_iff. intros x. lia. }
  rewrite Hsplit in Hv. apply replay_app_ok in Hv as (m1 & Hm1 & Hv).
  assert (Hpos : forall n s, m1 !! n = Some s -> position s < p).
  { intros n s Hn.
    assert (Hroot : rooted (filter (fun x => ~ p <= x.1) (from (beginning L) (history L))) m1).
    { eapply replay_rooted; [apply keyed_empty| |done|exact Hm1]. intros n' s'. by rewrite lookup_empty. }
    destruct (Hroot n s Hn) as (e' & Hin' & _). apply list_elem_of_filter in Hin' as [Hlt _]. cbn in Hlt. lia. }
  set (N := fun n => n = only /\ diffsBetweenSnapshots <> 0%nat).
  assert (HN : forall l, (forall x, x ∈ l -> x ∈ history L) -> diffs_within N l).
  { intros l Hl x d Hx Hd. rewrite Forall_forall in Ht. specialize (Ht x (Hl x Hx)).
    destruct Ht as [[_ Hno]|[Hz Hon]]; [by destruct (Hno d)|]. rewrite Hd in Hon. by split. }
  destruct (from_head (history L) p (SNAPSHOT e)) as (l2 & Hl2 & Hsub); [done..|]. fold (from p (history L)). rewrite Hl2 in Hv |- *. cbn in Hv |- *.
  destruct (differ_below_replay p N l2 (<[e_name e := mkSnapshot p e 0]> m1) (<[e_name e := mkSnapshot p e 0]> ∅) m)
    as (b & Hb' & Hd); [|by apply HN|done|].
  - intros n. destruct (decide (n = e_name e)) as [->|Hne]; [left; by rewrite !lookup_insert_eq|].
    rewrite !lookup_insert_ne, lookup_empty by done. destruct (m1 !! n) as [s|] eqn:Hn; [|by left]. right.
    split_and!; [|done|eauto]. intros [-> Hz]. rewrite Forall_forall in Ht. specialize (Ht _ Hin). cbn in Ht.
    destruct Ht as [[Hz' _]|[_ Hon]]; done.
  - rewrite Hb'. f_equal. symmetry. by eapply differ_below_eq.
Qed.


(** *** Writing *)

(** What a write does: it is performed by the writer that may write, or it is
    not acknowledged, and then the writer may not write any more or nothing was
    written. *)
Inductive wrote (i : nat) (L L1 : Log) (s : Store) : written_at -> Log -> Store -> Prop :=
  | wrote_at c e : elected L = Some i -> wrote i L L1 s (At (ending L1)) L1 (set_writer c e s)
  | wrote_nothing w c e :
      w = Demoted \/ w = WriteFailed -> (w = Demoted -> elected L <> Some i) ->
      wrote i L L1 s w L (set_writer c e s)
  | wrote_lost w c e b :
      elected L = Some i -> w = Demoted \/ w = WriteFailed -> wrote i L L1 s w (lose b L L1) (set_writer c e s).

(** The coordinator was not overtaken as far as it knows. *)
Definition unrejected (s : Store) : Prop := forall c, coordinator s = Some c -> rejected c = false.

Lemma log_write_spec i L L1 R s o :
  unrejected s -> let '(w, L', s') := write i L L1 R s o in wrote i L L1 s w L' s'.
Proof.
  intros Hu. assert (Hs : s = set_writer (coordinator s) (writer_error s) s) by by destruct s.
  assert (Hf : wrote i L L1 s WriteFailed L s) by (rewrite Hs at 2; apply wrote_nothing; [by right|done]).
  unfold write. destruct (coordinator s) as [c|] eqn:Hc; [|exact Hf].
  destruct (writer_error s); [exact Hf|]. rewrite (Hu _ Hc).
  destruct (decide (elected L = Some i)) as [He|He]; destruct o as [|b|b];
    first [by apply wrote_at|by apply wrote_lost; auto|apply wrote_nothing; naive_solver].
Qed.

Definition released (L : Log) : Log := mkLog (history L) (beginning L) (ending L) None.

(** What a write of the log keeps of the other storages. *)
Definition extends (L : Log) (m : gmap string Snapshot) (L1 : Log) (m1 : gmap string Snapshot) : Prop :=
  log_ok L1 m1 /\ elected L1 = elected L /\ forall j s, store_ok L m j s -> store_ok (released L1) m1 j s.

Definition others (i : nat) (L : Log) (m : gmap string Snapshot) (L' : Log) (m' : gmap string Snapshot) : Prop :=
  forall j s, j <> i -> store_ok L m j s -> store_ok L' m' j s.

Lemma released_ok L m : log_ok L m -> log_ok (released L) m.
Proof. intros []. by split. Qed.

Lemma store_ok_released L m j s : store_ok L m j s -> store_ok (released L) m j s.
Proof. intros Hs. by eapply store_ok_log. Qed.

Lemma store_ok_unreleased L m j s : store_ok (released L) m j s -> elected L <> Some j -> store_ok L m j s.
Proof. intros Hs He. by eapply store_ok_log. Qed.

Lemma extends_appended L m op m' :
  log_ok L m -> apply_operation m (ending L + 1, op) = Ok m' -> tame op -> extends L m (appended L op) m'.
Proof.
  intros HL Ha Ht. split_and!; [by eapply log_ok_append|done|]. intros j s Hs.
  eapply (store_ok_append L _ m m' (ending L + 1, op)); [done..|cbn; lia|done|done|done].
Qed.

Lemma extends_shortened L m p e :
  log_ok L m -> (p, SNAPSHOT e) ∈ history L -> (forall n s, m !! n = Some s -> p <= position s) ->
  extends L m (shortened L p) m.
Proof.
  intros HL Hin Hm. split_and!; [by eapply log_ok_shorten|done|]. intros j s Hs.
  eapply store_ok_log; [done|done|cbn; lia|done].
Qed.

Lemma store_ok_writer L m i c e s : store_ok L m i s -> store_ok L m i (set_writer c e s).
Proof. intros []. by split. Qed.

Lemma store_ok_waiting L m i s t :
  store_ok L m i s -> elected L <> Some i -> t = NotStarted \/ t = Electing \/ t = StartFailed ->
  starting s <> StartFailed -> store_ok L m i (set_starting t s).
Proof.
  intros [] He Ht Hns. split; [done|done|done|by intros _; apply so_index0| |done].
  cbn. intros [H|[H|H]]; [by apply so_truncated0; left|by apply so_truncated0; right; left|].
  destruct Ht as [->|[->| ->]]; done.
Qed.

(** The state after a write. *)
Lemma write_ok i L L1 R m m1 s o :
  log_ok L m -> store_ok L m i s -> unrejected s -> (elected L = Some i -> extends L m L1 m1) ->
  exists w L' s' m', write i L L1 R s o = (w, L', s') /\ log_ok L' m' /\ others i L m L' m'
    /\ ((w = At (ending L1) /\ L' = L1 /\ (exists c e, s' = set_writer c e s) /\ m' = m1 /\ elected L = Some i)
        \/ (store_ok L' m' i s' /\ (exists c e, s' = set_writer c e s)
            /\ (m' = m \/ (m' = m1 /\ elected L = Some i))
            /\ (w = WriteFailed \/ (w = Demoted /\ elected L' <> Some i)))).
Proof.
  intros HL Hs Hu Hx. pose proof (log_write_spec i L L1 R s o Hu) as H. destruct (write i L L1 R s o) as [[w L'] s'].
  exists w, L', s'. destruct H as [c e He|w c e Hw Hd|w c e b He Hw].
  - destruct (Hx He) as (HL1 & Hel & Hc). exists m1. split_and!; [done..| |left; by eauto 10].
    intros j sj Hj Hsj. apply store_ok_unreleased; [by apply Hc|]. rewrite Hel, He. by intros [= ->].
  - exists m. split_and!; [done..|by intros j sj Hj Hsj|]. right.
    split_and!; [by apply store_ok_writer|eauto|by left|]. destruct Hw as [->| ->]; [right|left]; auto.
  - destruct (Hx He) as (HL1 & Hel & Hc).
    assert (Hb : exists m', log_ok (lose b L L1) m' /\ (m' = m \/ (m' = m1 /\ elected L = Some i))
                 /\ forall j sj, store_ok L m j sj -> store_ok (lose b L L1) m' j sj).
    { destruct b; [exists m1|exists m]; (split_and!; [by apply (released_ok _ _)|auto|]); [apply Hc|].
      intros j sj. apply store_ok_released. }
    destruct Hb as (m' & HL' & Hm' & Hj). exists m'. split_and!; [done..|by intros j sj _ Hsj; apply Hj|].
    right. split_and!; [by apply store_ok_writer, Hj|eauto|done|]. destruct Hw as [->| ->]; [right|left]; done.
Qed.

(** *** A storage that is up to date *)

Lemma replay_own m l : own_expunges m l -> replay m l = Ok m.
Proof.
  induction 1 as [|x l (n & Hx & Hn) Hl IH]; [done|]. cbn. destruct x as [p o]. cbn in Hx. subst o. cbn.
  by rewrite delete_id.
Qed.

Lemma after_end L m c : log_ok L m -> ending L <= c -> after c (history L) = [].
Proof.
  intros [_ Hb _ _ _ _] Hc. apply filter_none. eapply Forall_impl; [exact Hb|]. cbn. lia.
Qed.

Lemma m_rooted L m : log_ok L m -> rooted (history L) m.
Proof.
  intros [_ _ _ Hr _ _]. eapply replay_rooted; [apply keyed_empty| |done|exact Hr].
  intros n sn. by rewrite lookup_empty.
Qed.

Lemma leader_ok L m i s ix :
  log_ok L m -> starting s = Ready -> snapshots s = m -> is_Some (truncated s) ->
  index s = Some ix -> ix <= ending L -> (forall n sn, m !! n = Some sn -> position sn <= ix) ->
  own_expunges m (after ix (history L)) -> store_ok L m i s.
Proof.
  intros HL Hst Hsn Htr Hix Hle Hpos Hown. split; rewrite ?Hsn, ?Hix, ?Hst.
  - by eapply lo_keyed.
  - by apply m_rooted.
  - apply newer_refl.
  - intros _. split_and!; [by apply replay_own|done|done].
  - done.
  - intros _. split; [done|]. by intros ix' [= <-].
Qed.

Lemma m_bound L m n sn : log_ok L m -> m !! n = Some sn -> position sn <= ending L.
Proof. intros HL. by apply (rooted_bound L m m n sn HL), m_rooted. Qed.

Lemma max_index_end L m i s p :
  store_ok L m i s -> starting s <> StartFailed -> ending L <= p -> max_index (index s) p = Some p.
Proof.
  intros Hs Hst Hp. assert (Hix := so_index _ _ _ _ Hs Hst). destruct (index s) as [ix|]; [|done].
  destruct Hix as (_ & Hle & _). unfold max_index. f_equal. lia.
Qed.

(** *** set *)

Definition tame_name (n : string) : Prop := diffsBetweenSnapshots = 0%nat \/ n = only.

(** What is written for an entry is what the cache gets. *)
Lemma set_operation_ok s e op d :
  keyed (snapshots s) -> set_operation s e = Some (op, d) -> tame_name (e_name e) ->
  tame op /\ forall p, exists p',
    (if decide (d = 0)%nat then Some p else position <$> snapshots s !! e_name e) = Some p'
    /\ apply_operation (snapshots s) (p, op) = Ok (<[e_name e := mkSnapshot p' e d]> (snapshots s)).
Proof.
  intros Hk Hop Htn.
  assert (Hsnap : tame (SNAPSHOT e) /\ forall p, exists p',
    (if decide (0 = 0)%nat then Some p else position <$> snapshots s !! e_name e) = Some p'
    /\ apply_operation (snapshots s) (p, SNAPSHOT e) = Ok (<[e_name e := mkSnapshot p' e 0]> (snapshots s))).
  { split; [|intros p; exists p; done]. unfold tame. destruct (decide (diffsBetweenSnapshots = 0%nat)); [by left|right].
    split; [done|]. by destruct Htn. }
  unfold set_operation in Hop. destruct (snapshots s !! e_name e) as [sn|] eqn:Hsn; [|by injection Hop as <- <-].
  destruct (diffs sn <? diffsBetweenSnapshots)%nat eqn:Hlt; [|by injection Hop as <- <-].
  destruct (diff (e_value (entry sn)) (e_value e)) as [df|] eqn:Hdf; [|done]. cbn [mbind option_bind] in Hop.
  destruct (String.length df <? String.length (e_value e))%nat; [|by injection Hop as <- <-].
  injection Hop as <- <-. apply Nat.ltb_lt in Hlt. split.
  - right. split; [lia|]. destruct Htn; [lia|done].
  - intros p. exists (position sn). split; [done|]. cbn. rewrite Hsn. unfold snapshot_patch. cbn.
    rewrite decide_True by (symmetry; by apply Hk). rewrite (patch_diff _ _ _ Hdf). cbn. by destruct e.
Qed.

Lemma start_ok L m i s : store_ok L m i s -> store_ok L m i (start s).
Proof.
  intros Hs. unfold start. destruct (starting s) eqn:Hst; [|done..]. apply store_ok_waiting; [done| |auto|congruence].
  intros He. apply (so_leader _ _ _ _ Hs) in He. by rewrite Hst in He.
Qed.

(** The storage after its own entry was added. *)
Definition effect (m m' : gmap string Snapshot) (r : reply) (spec : bool * memory) : Prop :=
  (r = Replied true -> spec = (true, entry <$> m'))
  /\ (r <> Replied true -> entry <$> m' = entry <$> m \/ spec = (true, entry <$> m')).

Lemma effect_none m r spec : r <> Replied true -> effect m m r spec.
Proof. intros Hr. split; [done|by left]. Qed.

(** What a write that is not acknowledged leaves. *)
Lemma unacknowledged_ok i L m L' m' s c b w (spec : bool * memory) m1 :
  store_ok L' m' i (set_writer c b s) -> starting s = Ready ->
  m' = m \/ (m' = m1 /\ elected L = Some i) ->
  (elected L = Some i -> spec = (true, entry <$> m1)) ->
  w = WriteFailed \/ (w = Demoted /\ elected L' <> Some i) ->
  exists r s', r <> Replied true
    /\ (match w with
        | At _ => None
        | Demoted => Some (Replied false, set_starting NotStarted (set_writer c b s))
        | WriteFailed => Some (Failed, set_writer c b s)
        end) = Some (r, s')
    /\ store_ok L' m' i s' /\ effect m m' r spec.
Proof.
  intros Hs Hst Hm' Hspec Hw.
  assert (Heff : forall r, r <> Replied true -> effect m m' r spec).
  { intros r Hr. split; [done|]. intros _. destruct Hm' as [->|[-> He]]; [by left|right]. by apply Hspec. }
  destruct Hw as [->|[-> Hel]]; do 2 eexists; (split_and!; [|done| |by apply Heff]); [done|done|done|].
  apply store_ok_waiting; [done|done|auto|]. cbn. congruence.
Qed.

Lemma set_ok i L s m e uuid o :
  log_ok L m -> store_ok L m i s -> (starting s = Ready -> unrejected s) -> tame_name (e_name e) ->
  exists r L' s' m', set i L s e uuid o = Some (r, L', s') /\ log_ok L' m' /\ store_ok L' m' i s'
    /\ others i L m L' m' /\ effect m m' r (mem_set (entry <$> m) e uuid).
Proof.
  intros HL Hs Hur Htn.
  assert (Hsame : forall r s', r <> Replied true -> store_ok L m i s' ->
    exists r0 L' s0 m', Some (r, L, s') = Some (r0, L', s0) /\ log_ok L' m' /\ store_ok L' m' i s0
      /\ others i L m L' m' /\ effect m m' r0 (mem_set (entry <$> m) e uuid)).
  { intros r s' Hr Hs'. exists r, L, s', m. split_and!; [done..|by intros j sj _|by apply effect_none]. }
  unfold set. destruct (starting s) eqn:Hst; try (apply Hsame; [done|by apply start_ok]); [|by apply Hsame].
  destruct (match snapshots s !! e_name e with Some _ => _ | None => _ end) eqn:Hu; [by apply Hsame|].
  destruct (set_operation s e) as [[op d]|] eqn:Hop; [|by apply Hsame].
  destruct (set_operation_ok s e op d (so_keyed _ _ _ _ Hs) Hop Htn) as [Htame Hap].
  destruct (Hap (ending L + 1)) as (p' & Hp' & Ha).
  set (m1 := <[e_name e := mkSnapshot p' e d]> (snapshots s)) in *.
  assert (Hlead : elected L = Some i -> snapshots s = m).
  { intros He. apply (so_leader _ _ _ _ Hs) in He. rewrite Hst in He. apply He. }
  assert (Hspec : elected L = Some i -> mem_set (entry <$> m) e uuid = (true, entry <$> m1)).
  { intros He. rewrite <- (Hlead He). unfold mem_set, m1. rewrite lookup_fmap, fmap_insert.
    destruct (snapshots s !! e_name e) as [sn|]; cbn; [|done]. apply negb_false_iff, bool_decide_eq_true in Hu.
    by rewrite decide_True. }
  destruct (write_ok i L (appended L op) (overwritten L op) m m1 s o) as (w & L' & s' & m' & Hw & HL' & Hoth & Hcase); [done..|by apply Hur| |].
  { intros He. apply extends_appended; [done| |done]. by rewrite <- (Hlead He). }
  unfold append. rewrite Hw. destruct Hcase as [(-> & -> & (c & b & ->) & -> & He)|(Hs' & (c & b & ->) & Hm' & Hww)].
  - cbn. rewrite Hp'. cbn. do 4 eexists. split_and!; [done|exact HL'| |done|by split; [intros _; by apply Hspec|]].
    apply (leader_ok _ _ _ _ (ending L + 1)); [done|done|done|by apply (so_truncated _ _ _ _ Hs); auto| |cbn; lia| |].
    + change (max_index (index s) (ending L + 1) = Some (ending L + 1)).
      apply (max_index_end L m i s); [done|congruence|lia].
    + intros n sn. by apply (m_bound _ _ _ _ HL').
    + unfold own_expunges. rewrite (after_end _ _ _ HL') by (cbn; lia). constructor.
  - destruct (unacknowledged_ok i L m L' m' s c b w (mem_set (entry <$> m) e uuid) m1) as (r & s' & Hr & Hu' & Hs2 & Heff);
      [done..|]. exists r, L', s', m'. split_and!; [|done..].
    destruct Hww as [->|[-> _]]; cbn in Hu' |- *; by injection Hu' as <- <-.
Qed.

(** *** expunge *)

Lemma own_expunges_snoc m l n p :
  own_expunges m l -> own_expunges (delete n m) (l ++ [(p, EXPUNGE n)]).
Proof.
  intros Hl. apply Forall_app. split.
  - eapply Forall_impl; [exact Hl|]. intros x (n' & Hx & Hn'). exists n'. split; [done|].
    by rewrite lookup_delete_None; right.
  - constructor; [|constructor]. exists n. split; [done|]. apply lookup_delete_eq.
Qed.

Lemma expunge_ok i L s m e o :
  log_ok L m -> store_ok L m i s -> (starting s = Ready -> unrejected s) -> tame_name (e_name e) ->
  exists r L' s' m', expunge i L s e o = Some (r, L', s') /\ log_ok L' m' /\ store_ok L' m' i s'
    /\ others i L m L' m' /\ effect m m' r (mem_expunge (entry <$> m) e).
Proof.
  intros HL Hs Hur Htn.
  assert (Hsame : forall r s', r <> Replied true -> store_ok L m i s' ->
    exists r0 L' s0 m', Some (r, L, s') = Some (r0, L', s0) /\ log_ok L' m' /\ store_ok L' m' i s0
      /\ others i L m L' m' /\ effect m m' r0 (mem_expunge (entry <$> m) e)).
  { intros r s' Hr Hs'. exists r, L, s', m. split_and!; [done..|by intros j sj _|by apply effect_none]. }
  unfold expunge. destruct (starting s) eqn:Hst; try (apply Hsame; [done|by apply start_ok]); [|by apply Hsame].
  destruct (snapshots s !! e_name e) as [sn|] eqn:Hsn; [|by apply Hsame].
  destruct (decide (e_uuid (entry sn) = e_uuid e)) as [Hu|]; [|by apply Hsame].
  set (m1 := delete (e_name e) (snapshots s)).
  assert (Hlead : elected L = Some i -> snapshots s = m /\ forall ix, index s = Some ix -> own_expunges m (after ix (history L))).
  { intros He. apply (so_leader _ _ _ _ Hs) in He. by rewrite Hst in He. }
  assert (Hspec : elected L = Some i -> mem_expunge (entry <$> m) e = (true, entry <$> m1)).
  { intros He. destruct (Hlead He) as [<- _]. unfold mem_expunge, m1. rewrite lookup_fmap, fmap_delete, Hsn. cbn.
    by rewrite decide_True. }
  destruct (write_ok i L (appended L (EXPUNGE (e_name e))) (overwritten L (EXPUNGE (e_name e))) m m1 s o)
    as (w & L' & s' & m' & Hw & HL' & Hoth & Hcase); [done..|by apply Hur| |].
  { intros He. destruct (Hlead He) as [<- _]. apply extends_appended; [done|done|].
    unfold tame. destruct (decide (diffsBetweenSnapshots = 0%nat)); [by left|right]. by destruct Htn. }
  unfold append. rewrite Hw. destruct Hcase as [(-> & -> & (c & b & ->) & -> & He)|(Hs' & (c & b & ->) & Hm' & Hww)].
  - cbn. rewrite Hsn. cbn. do 4 eexists. split_and!; [done|exact HL'| |done|by split; [intros _; by apply Hspec|]].
    destruct (Hlead He) as [Hm Hown]. assert (Hix := so_index _ _ _ _ Hs ltac:(congruence)).
    destruct (index s) as [ix|] eqn:Hi; [|by rewrite Hix, lookup_empty in Hsn]. destruct Hix as (_ & Hle & Hpos).
    apply (leader_ok _ _ _ _ ix); [done|done|done|by apply (so_truncated _ _ _ _ Hs); auto|done|cbn; lia| |].
    + intros n sn' Hn. apply lookup_delete_Some in Hn as [_ Hn]. by apply (Hpos n).
    + cbn. unfold after in *. rewrite filter_app, filter_cons_True by (cbn; lia). unfold m1. rewrite Hm.
      apply own_expunges_snoc. by apply Hown.
  - destruct (unacknowledged_ok i L m L' m' s c b w (mem_expunge (entry <$> m) e) m1) as (r & s' & Hr & Hu' & Hs2 & Heff);
      [done..|]. exists r, L', s', m'. split_and!; [|done..].
    destruct Hww as [->|[-> _]]; cbn in Hu' |- *; by injection Hu' as <- <-.
Qed.

(** *** truncate *)

Lemma minimum_spec (m : gmap string Snapshot) p :
  minimum m = Some p ->
  (exists n sn, m !! n = Some sn /\ position sn = p) /\ (forall n sn, m !! n = Some sn -> p <= position sn).
Proof.
  unfold minimum. revert p.
  cut (match map_fold (fun _ sn acc => Some (match acc with None => position sn | Some p => Z.min p (position sn) end)) None m with
       | None => m = ∅
       | Some p => (exists n sn, m !! n = Some sn /\ position sn = p) /\ (forall n sn, m !! n = Some sn -> p <= position sn)
       end).
  { intros H p Hp. by rewrite Hp in H. }
  apply (map_fold_weak_ind (fun acc m => match acc with
       | None => m = ∅
       | Some p => (exists n sn, m !! n = Some sn /\ position sn = p) /\ (forall n sn, m !! n = Some sn -> p <= position sn)
       end)); [done|].
  intros n sn m' acc Hn IH. destruct acc as [q|].
  - destruct IH as ((n1 & s1 & H1 & Hp1) & Hall). split.
    + destruct (Z.le_gt_cases q (position sn)).
      * exists n1, s1. rewrite lookup_insert_ne by congruence. split; [done|lia].
      * exists n, sn. rewrite lookup_insert_eq. split; [done|lia].
    + intros n' s' [[<- <-]|[_ H']]%lookup_insert_Some; [lia|]. apply Hall in H'. lia.
  - subst m'. split; [exists n, sn; by rewrite lookup_insert_eq|].
    intros n' s' [[<- <-]|[Hne H']]%lookup_insert_Some; [lia|by rewrite lookup_empty in H'].
Qed.

Lemma store_ok_truncations L m i n s :
  store_ok L m i s -> (n <> 0%nat -> truncations s <> 0%nat) -> store_ok L m i (set_truncations n s).
Proof. intros [] Hn. split; cbn; [done..| |done]. naive_solver. Qed.

Lemma truncate_ok i L s m o :
  log_ok L m -> store_ok L m i s -> unrejected s ->
  exists L' s', truncate i L s o = Some (L', s') /\ log_ok L' m /\ store_ok L' m i s' /\ others i L m L' m.
Proof.
  intros HL Hs Hur. unfold truncate.
  assert (Hsame : forall s', store_ok L m i s' ->
    exists L' s0, Some (L, s') = Some (L', s0) /\ log_ok L' m /\ store_ok L' m i s0 /\ others i L m L' m).
  { intros s' Hs'. exists L, s'. split_and!; [done..|by intros j sj _]. }
  destruct (truncations s) as [|n] eqn:Hn; [by apply Hsame|].
  assert (Hs0 : store_ok L m i (set_truncations n s)) by (apply store_ok_truncations; [done|lia]).
  destruct (so_truncated _ _ _ _ Hs) as [t Ht]; [right; left; lia|].
  assert (Hmain : (forall q, starting s <> Reading q) ->
    exists L' s0, (t ← truncated s;
      match minimum (snapshots s) with
      | Some p =>
          if t <? p then
            let '(w, L', s1) := truncate_to i L (set_truncations n s) p o in
            match w with
            | At q => Some (L', set_truncated (Some (Z.max t p)) (set_index (max_index (index s1) q) s1))
            | _ => Some (L', s1)
            end
          else Some (L, set_truncations n s)
      | None => Some (L, set_truncations n s)
      end) = Some (L', s0) /\ log_ok L' m /\ store_ok L' m i s0 /\ others i L m L' m);
    [|destruct (starting s); try (by apply Hsame); apply Hmain; intros q; done].
  intros Hnr. rewrite Ht. cbn. destruct (minimum (snapshots s)) as [p|] eqn:Hp; [|by apply Hsame].
  destruct (t <? p); [|by apply Hsame]. destruct (minimum_spec _ _ Hp) as ((n1 & s1 & H1 & Hp1) & Hmin).
  destruct (so_rooted _ _ _ _ Hs n1 s1 H1) as (e1 & Hin & _). rewrite Hp1 in Hin.
  destruct (write_ok i L (shortened L p) (shortened_at L p) m m (set_truncations n s) o) as (w & L' & s' & m' & Hw & HL' & Hoth & Hcase);
    [done|done|done| |].
  { intros _. apply (extends_shortened L m p e1); [done..|]. intros n' s' Hn'.
    destruct (so_newer _ _ _ _ Hs n' s' Hn') as [(s2 & H2 & <-)|Hlt]; [by apply (Hmin n')|].
    specialize (Hlt _ _ H1). lia. }
  assert (m' = m) as -> by (destruct Hcase as [(_ & _ & _ & -> & _)|(_ & _ & [->|[-> _]] & _)]; done).
  unfold truncate_to. rewrite Hw. destruct Hcase as [(-> & -> & (c & b & ->) & _ & He)|(Hs' & _ & _ & Hww)].
  - do 2 eexists. split_and!; [done|done| |done].
    assert (Hlead := so_leader _ _ _ _ Hs He). destruct (starting s) eqn:Hst; [done|done|by destruct (Hnr p0)| |].
    + apply (leader_ok _ _ _ _ (ending L + 1)); [done|done|apply Hlead|done| |cbn; lia| |].
      * change (max_index (index s) (ending L + 1) = Some (ending L + 1)).
        apply (max_index_end L m i s); [done|congruence|lia].
      * intros n' s' Hn'. by apply (m_bound _ _ _ _ HL') in Hn'.
      * unfold own_expunges. rewrite (after_end _ _ _ HL') by (cbn; lia). constructor.
    + destruct Hs0. split; cbn; [done..|by rewrite Hst|done|by rewrite Hst].
  - exists L', s'. split_and!; [|done..]. by destruct Hww as [->|[-> _]].
Qed.

(** *** Starting *)

Definition past (ix : option Z) (p : Z) : Prop := match ix with None => True | Some i => i < p end.

Definition last_position (ix : option Z) (l : list (Z * Operation)) : option Z :=
  match last l with Some x => Some x.1 | None => ix end.

Lemma apply_skip s l0 l :
  Forall (fun x => ~ past (index s) x.1) l0 -> apply s (l0 ++ l) = apply s l.
Proof.
  induction 1 as [|x l0 Hx Hl IH]; [done|]. cbn. destruct (index s) as [ix|]; [|by destruct Hx].
  cbn in Hx. destruct (ix <? x.1) eqn:E; [apply Z.ltb_lt in E; lia|]. done.
Qed.

Lemma apply_replay l s m :
  increasing l -> Forall (fun x => past (index s) x.1) l -> replay (snapshots s) l = Ok m ->
  apply s l = Some (true, set_index (last_position (index s) l) (set_snapshots m s)).
Proof.
  revert s. induction l as [|x l IH]; intros s Hs Hp Hr; cbn in *.
  - injection Hr as <-. by destruct s.
  - inversion Hs as [|? ? Hs' Hx]; subst. apply Forall_cons in Hp as [Hp _].
    destruct (apply_operation (snapshots s) x) as [m1|] eqn:Ha; [|done].
    replace (match index s with None => true | Some i => i <? x.1 end) with true;
      [|destruct (index s); cbn in Hp; [symmetry; by apply Z.ltb_lt|done]].
    rewrite IH; [|done| |done].
    + unfold set_index, set_snapshots. cbn. do 3 f_equal. unfold last_position. destruct l as [|y l]; [done|].
      change (last (x :: y :: l)) with (last (y :: l)).
      destruct (last (y :: l)) eqn:E; [done|]. by apply last_None in E.
    + cbn. eapply Forall_impl; [exact Hx|]. done.
Qed.

Lemma replay_positions l c m m' :
  keyed m -> (forall n sn, m !! n = Some sn -> position sn <= c) -> Forall (fun x => x.1 <= c) l ->
  replay m l = Ok m' -> forall n sn, m' !! n = Some sn -> position sn <= c.
Proof.
  revert m. induction l as [|x l IH]; intros m Hk Hm Hl Hr; cbn in Hr; [injection Hr as <-; done|].
  apply Forall_cons in Hl as [Hx Hl]. destruct (apply_operation m x) as [m1|] eqn:Ha; [|done].
  eapply (IH m1); [by eapply apply_operation_keyed| |done|done]. intros n sn Hn.
  destruct (apply_operation_lookup _ _ _ _ _ Hk Ha Hn) as [_ [(e & _ & _ & ->)|(s0 & H0 & ->)]]; [done|by eapply Hm].
Qed.

Lemma filter_ext_in {A} (P Q : A -> Prop) `{forall x, Decision (P x)} `{forall x, Decision (Q x)} (l : list A) :
  (forall x, x ∈ l -> P x <-> Q x) -> filter P l = filter Q l.
Proof.
  induction l as [|x l IH]; intros Hpq; [done|]. rewrite !filter_cons.
  rewrite IH by (intros y Hy; apply Hpq; by right). assert (Hx := Hpq x ltac:(by left)).
  do 2 case_decide; naive_solver.
Qed.

Lemma last_largest l x y : increasing l -> last l = Some y -> x ∈ l -> x.1 <= y.1.
Proof.
  intros Hs Hl Hx. apply last_Some in Hl as [l' ->]. apply elem_of_app in Hx as [Hx|Hx]; [|set_solver by lia].
  assert (H : x.1 < y.1); [|lia]. clear -Hs Hx. induction l' as [|z l' IH]; [set_solver|].
  inversion Hs as [|? ? Hs' Hz]; subst. apply elem_of_cons in Hx as [->|Hx]; [|by apply IH].
  rewrite Forall_forall in Hz. apply Hz. set_solver.
Qed.

(** The new entries up to [p], and what is left after them. *)
Definition fresh (ix : option Z) (b : Z) (l : list (Z * Operation)) : list (Z * Operation) :=
  match ix with None => from b l | Some i => after i l end.

Lemma fresh_increasing ix b l : increasing l -> increasing (fresh ix b l).
Proof. intros Hs. destruct ix; by apply increasing_filter. Qed.

Lemma elem_of_fresh ix b l x :
  x ∈ fresh ix b l <-> (match ix with None => b <= x.1 | Some i => i < x.1 end) /\ x ∈ l.
Proof. destruct ix; cbn; unfold after, from; by rewrite list_elem_of_filter. Qed.

Lemma fresh_split ix b p l :
  increasing l -> fresh ix b l = filter (fun x => x.1 <= p) (fresh ix b l) ++ filter (fun x => p < x.1) (fresh ix b l).
Proof.
  intros Hs. rewrite (increasing_split (fun x => p < x.1) (fresh ix b l)) at 1;
    [|by apply fresh_increasing|intros x y; lia].
  f_equal. apply list_filter_iff. intros x. lia.
Qed.

(** After the entries up to [p] were applied, the entries above the new index are
    those above [p]. *)
Lemma after_last ix b p l ix' :
  increasing l -> last_position ix (filter (fun x => x.1 <= p) (fresh ix b l)) = Some ix' ->
  after ix' l = filter (fun x => p < x.1) (fresh ix b l).
Proof.
  intros Hs Hl. unfold last_position in Hl.
  destruct (last (filter (fun x => x.1 <= p) (fresh ix b l))) as [y|] eqn:E.
  - injection Hl as <-.
    assert (Hy : y ∈ filter (fun x => x.1 <= p) (fresh ix b l)) by (apply last_Some in E as [l' ->]; set_solver).
    apply list_elem_of_filter in Hy as [Hyp [Hyf _]%elem_of_fresh].
    assert (Hmax : forall x, x ∈ l -> y.1 < x.1 -> p < x.1).
    { intros x Hx Hlt. apply Z.nle_gt. intros Hle. assert (x.1 <= y.1); [|lia].
      eapply last_largest; [|exact E|]; [by apply increasing_filter, fresh_increasing|].
      apply list_elem_of_filter. split; [done|]. apply elem_of_fresh. split; [destruct ix; lia|done]. }
    destruct ix as [i|]; unfold fresh, after, from; rewrite list_filter_filter; apply filter_ext_in; intros x Hx;
      specialize (Hmax x Hx); lia.
  - subst ix. apply last_None in E. cbn in *. unfold after in *. rewrite <- (filter_keeps_all (fun x => p < x.1)) at 1; [done|].
    apply Forall_forall. intros x Hx. apply Z.nle_gt. intros Hle.
    assert (Hin : x ∈ filter (fun x => x.1 <= p) (filter (fun x => ix' < x.1) l)) by (apply list_elem_of_filter; done).
    rewrite E in Hin. by apply elem_of_nil in Hin.
Qed.

(** The entries that are read, without those that are skipped. *)
Lemma read_entries L ix p entries :
  increasing (history L) -> read L (match ix with Some i => i | None => beginning L end) p = Some entries ->
  exists l0, Forall (fun x => ~ past ix x.1) l0
    /\ entries = l0 ++ filter (fun x => x.1 <= p) (fresh ix (beginning L) (history L)).
Proof.
  intros Hs Hr. unfold read in Hr. destruct (_ || _ || _); [done|]. injection Hr as <-. destruct ix as [i|]; cbn.
  - exists (filter (fun x => ~ i < x.1) (filter (fun x => i <= x.1 <= p) (history L))). split.
    + apply Forall_forall. by intros x [H _]%list_elem_of_filter.
    + rewrite (increasing_split (fun x => i < x.1) (filter (fun x => i <= x.1 <= p) (history L))) at 1;
        [|by apply increasing_filter|intros x y; lia].
      f_equal. unfold after. rewrite !list_filter_filter. apply list_filter_iff. intros x. lia.
  - exists []. split; [constructor|]. cbn. unfold from. rewrite list_filter_filter. apply list_filter_iff. intros x. lia.
Qed.

Lemma fresh_replay L m i s :
  log_ok L m -> store_ok L m i s -> starting s <> StartFailed ->
  replay (snapshots s) (fresh (index s) (beginning L) (history L)) = Ok m.
Proof.
  intros HL Hs Hst. assert (Hix := so_index _ _ _ _ Hs Hst). destruct (index s) as [ix|]; cbn.
  - apply Hix.
  - rewrite Hix. apply (lo_visible _ _ HL).
Qed.

(** The new index is not below the old one and the entries that were applied. *)
Lemma last_bounds L m i s p ix' :
  log_ok L m -> store_ok L m i s -> starting s <> StartFailed ->
  last_position (index s) (filter (fun x => x.1 <= p) (fresh (index s) (beginning L) (history L))) = Some ix' ->
  (forall ix, index s = Some ix -> ix <= ix')
  /\ Forall (fun x => x.1 <= ix') (filter (fun x => x.1 <= p) (fresh (index s) (beginning L) (history L)))
  /\ ix' <= ending L.
Proof.
  intros HL Hs Hst Hl. assert (Hix := so_index _ _ _ _ Hs Hst). unfold last_position in Hl.
  set (F := fresh (index s) (beginning L) (history L)) in *.
  destruct (last (filter (fun x => x.1 <= p) F)) as [y|] eqn:E.
  - injection Hl as <-. assert (Hy : y ∈ F).
    { apply last_Some in E as [l' E]. assert (y ∈ filter (fun x => x.1 <= p) F) as [_ ?]%list_elem_of_filter; [|done].
      rewrite E. set_solver. }
    apply elem_of_fresh in Hy as [Hy Hin]. split_and!.
    + intros ix Hx. rewrite Hx in Hy. lia.
    + apply Forall_forall. intros x Hx. eapply last_largest; [|exact E|done].
      by apply increasing_filter, fresh_increasing, (lo_sorted _ _ HL).
    + assert (Hb := lo_bound _ _ HL). rewrite Forall_forall in Hb. by apply Hb.
  - rewrite Hl in Hix. apply last_None in E. rewrite E. split_and!; [|constructor|apply Hix].
    intros ix Hx. rewrite Hl in Hx. injection Hx as <-. lia.
Qed.

(** The storage once the entries up to [p] were applied. *)
Lemma caught_up_ok L m i s s1 p m1 :
  log_ok L m -> store_ok L m i s -> starting s = Reading p ->
  snapshots s1 = snapshots s -> index s1 = index s -> truncations s1 = truncations s -> is_Some (truncated s1) ->
  replay (snapshots s) (filter (fun x => x.1 <= p) (fresh (index s) (beginning L) (history L))) = Ok m1 ->
  replay m1 (filter (fun x => p < x.1) (fresh (index s) (beginning L) (history L))) = Ok m ->
  store_ok L m i (set_starting Ready (set_index (last_position (index s)
      (filter (fun x => x.1 <= p) (fresh (index s) (beginning L) (history L)))) (set_snapshots m1 s1))).
Proof.
  intros HL Hs Hst Hsn Hi Htn Htr H1 H2. set (F := fresh (index s) (beginning L) (history L)) in *.
  assert (HF : forall x, x ∈ F -> x ∈ history L) by (by intros x [_ Hx]%elem_of_fresh).
  assert (Hix := so_index _ _ _ _ Hs ltac:(congruence)).
  assert (Hk1 : keyed m1) by (eapply replay_keyed; [apply (so_keyed _ _ _ _ Hs)|exact H1]).
  assert (Hpos : forall c, (forall ix, index s = Some ix -> ix <= c) -> Forall (fun x => x.1 <= c) (filter (fun x => x.1 <= p) F) ->
            forall n sn, m1 !! n = Some sn -> position sn <= c).
  { intros c Hc Hl. eapply replay_positions; [apply (so_keyed _ _ _ _ Hs)| |exact Hl|exact H1].
    intros n sn Hn. destruct (index s) as [ix|]; [|by rewrite Hix, lookup_empty in Hn].
    destruct Hix as (_ & _ & Hp). specialize (Hc ix eq_refl). specialize (Hp n sn Hn). lia. }
  assert (Hafter : forall ix', last_position (index s) (filter (fun x => x.1 <= p) F) = Some ix' ->
                   after ix' (history L) = filter (fun x => p < x.1) F).
  { intros ix'. apply after_last, (lo_sorted _ _ HL). }
  assert (Hlast := fun ix' => last_bounds L m i s p ix' HL Hs ltac:(congruence)). fold F in Hlast.
  split; cbn.
  - done.
  - eapply replay_rooted; [apply (so_keyed _ _ _ _ Hs)|apply (so_rooted _ _ _ _ Hs)| |exact H1].
    intros x [_ Hx]%list_elem_of_filter. by apply HF.
  - eapply newer_replay; [exact Hk1|apply newer_refl| |exact H2].
    intros x n sn [Hpx Hx]%list_elem_of_filter Hn. cut (position sn <= x.1 - 1); [lia|].
    eapply Hpos; [| |exact Hn].
    + intros ix Hx'. apply elem_of_fresh in Hx as [Hx _]. rewrite Hx' in Hx. lia.
    + apply Forall_forall. intros y [Hy _]%list_elem_of_filter. lia.
  - intros _. destruct (last_position (index s) (filter (fun x => x.1 <= p) F)) as [ix'|] eqn:Hl.
    + destruct (Hlast ix' eq_refl) as (Ha & Hb & Hc). rewrite (Hafter ix' eq_refl). split_and!; [done|done|by apply Hpos].
    + unfold last_position in Hl. destruct (last _) eqn:E; [done|]. apply last_None in E. rewrite E in H1. cbn in H1.
      injection H1 as <-. by rewrite Hl in Hix.
  - done.
  - intros He. assert (Hp := so_leader _ _ _ _ Hs He). rewrite Hst in Hp. subst p.
    assert (Hnil : filter (fun x => ending L < x.1) F = []).
    { apply filter_none, Forall_forall. intros x Hx%HF. assert (Hb := lo_bound _ _ HL).
      rewrite Forall_forall in Hb. specialize (Hb _ Hx). lia. }
    rewrite Hnil in H2. injection H2 as <-. split; [done|]. intros ix' Hl. rewrite (Hafter ix' Hl), Hnil. constructor.
Qed.

Lemma start_read_ok L m i s ok :
  log_ok L m -> store_ok L m i s -> exists s', start_read L s ok = Some s' /\ store_ok L m i s'.
Proof.
  intros HL Hs. unfold start_read. destruct (starting s) as [| |p| |] eqn:Hst; eauto.
  assert (Htr : index s <> None -> is_Some (truncated s)) by (intros H; apply (so_truncated _ _ _ _ Hs); auto).
  replace (match index s, truncated s with Some _, None => true | _, _ => false end) with false;
    [|destruct (index s), (truncated s); try done; by destruct Htr].
  set (s1 := match index s with None => set_truncated (Some (beginning L)) s | Some _ => s end).
  assert (Hs1 : snapshots s1 = snapshots s /\ index s1 = index s /\ truncations s1 = truncations s
                /\ is_Some (truncated s1)).
  { unfold s1. destruct (index s) eqn:Hi; [|done]. split_and!; try done. by apply Htr. }
  destruct Hs1 as (Hsn & Hi & Htn & Htr1).
  destruct (if ok then _ else None) as [entries|] eqn:Hr.
  2: { eexists. split; [done|]. destruct Hs. split; cbn; rewrite ?Hsn; try done. }
  destruct ok; [|done]. destruct (read_entries L (index s) p entries (lo_sorted _ _ HL) Hr) as (l0 & Hl0 & ->).
  assert (Hrep := fresh_replay L m i s HL Hs ltac:(congruence)).
  rewrite (fresh_split (index s) (beginning L) p (history L) (lo_sorted _ _ HL)) in Hrep.
  apply replay_app_ok in Hrep as (m1 & H1 & H2).
  rewrite apply_skip by by rewrite Hi. rewrite (apply_replay _ s1 m1); [|..|by rewrite Hsn].
  - cbn. eexists. split; [done|]. rewrite Hi. by apply (caught_up_ok L m i s).
  - by apply increasing_filter, fresh_increasing, (lo_sorted _ _ HL).
  - rewrite Hi. apply Forall_forall. intros x [_ [Hx _]%elem_of_fresh]%list_elem_of_filter. by destruct (index s).
Qed.

Lemma start__ok L m i s e :
  log_ok L m -> store_ok L m i s ->
  exists L' s', start_ i L s e = (L', s') /\ log_ok L' m /\ store_ok L' m i s' /\ others i L m L' m.
Proof.
  intros HL Hs. unfold start_.
  assert (Hsame : forall s', store_ok L m i s' ->
    exists L' s0, (L, s') = (L', s0) /\ log_ok L' m /\ store_ok L' m i s0 /\ others i L m L' m).
  { intros s' Hs'. exists L, s'. split_and!; [done..|by intros j sj _]. }
  destruct (starting s) eqn:Hst; try by apply Hsame.
  assert (Hne : elected L <> Some i) by (intros He; apply (so_leader _ _ _ _ Hs) in He; by rewrite Hst in He).
  destruct e.
  - do 2 eexists. split_and!; [done|by destruct HL| |].
    + destruct Hs. split; cbn; [done..|by intros _; apply so_index0; congruence| |done].
      intros [H|[H|[=]]]; apply so_truncated0; auto.
    + intros j sj Hj Hsj. eapply store_ok_log; [done|done|done|]. cbn. intros [= ->]. done.
  - apply Hsame, store_ok_waiting; [by apply store_ok_writer|done|auto|cbn; congruence].
  - apply Hsame, store_ok_waiting; [by apply store_ok_writer|done|auto|cbn; congruence].
Qed.

(** *** The system *)

Definition sinv (sys : System) (m : gmap string Snapshot) : Prop :=
  log_ok (log sys) m /\ forall i, store_ok (log sys) m i (default new_store (stores sys !! i)).

Definition tame_event (e : Event) : Prop :=
  match e with ESet _ x _ _ | EExpunge _ x _ => tame_name (e_name x) | _ => True end.

Definition spec_of (m : memory) (e : Event) : bool * memory :=
  match e with ESet _ x uuid _ => mem_set m x uuid | EExpunge _ x _ => mem_expunge m x | _ => (false, m) end.

(** What the theorems assume of the events: only names for which diffs are safe
    are stored, and no storage writes again after a rejected write. *)
Definition admissible (sys : System) (e : Event) : Prop :=
  tame_event e /\ retries (store_of sys (node e)) e = false.

Lemma retries_unrejected s e :
  retries s e = false -> match e with ESet _ _ _ _ | EExpunge _ _ _ => starting s = Ready | ETruncate _ _ => True | _ => False end ->
  unrejected s.
Proof.
  unfold retries. intros H He c Hc. rewrite Hc in H. apply andb_false_iff in H as [H|H]; [done|].
  destruct e; try done; by rewrite He in H.
Qed.

Lemma store_step_ok L m s e :
  log_ok L m -> store_ok L m (node e) s -> tame_event e -> retries s e = false ->
  exists r L' s' m', store_step L s e = Some (r, L', s') /\ log_ok L' m' /\ store_ok L' m' (node e) s'
    /\ others (node e) L m L' m' /\ effect m m' r (spec_of (entry <$> m) e).
Proof.
  intros HL Hs Ht Hre. assert (Hun := retries_unrejected s e Hre).
  destruct e as [i|i|i e|i ok|i e uuid o|i e o|i o]; cbn in *.
  - do 3 eexists. exists m. split_and!; [done| | | |by apply effect_none].
    + unfold retire. by destruct HL.
    + apply new_store_ok. unfold retire. cbn. by case_decide.
    + intros j sj Hj Hsj. eapply store_ok_log; [done|done|done|]. cbn. by case_decide.
  - do 3 eexists. exists m. split_and!; [done|done|by apply start_ok|by intros j sj _|by apply effect_none].
  - destruct (start__ok L m i s e HL Hs) as (L' & s' & -> & HL' & Hs' & Ho).
    do 3 eexists. exists m. split_and!; [done..|by apply effect_none].
  - destruct (start_read_ok L m i s ok HL Hs) as (s' & -> & Hs'). cbn.
    do 3 eexists. exists m. split_and!; [done..|by intros j sj _|by apply effect_none].
  - by apply set_ok.
  - by apply expunge_ok.
  - destruct (truncate_ok i L s m o HL Hs (Hun I)) as (L' & s' & -> & HL' & Hs' & Ho). cbn.
    do 3 eexists. exists m. split_and!; [done..|by apply effect_none].
Qed.

Lemma storage_step_ok sys m e :
  sinv sys m -> admissible sys e ->
  exists r sys' m', step sys e = Some (r, sys') /\ sinv sys' m' /\ effect m m' r (spec_of (entry <$> m) e).
Proof.
  intros [HL Hs] [Ht Hre]. unfold step.
  destruct (store_step_ok (log sys) m (default new_store (stores sys !! node e)) e)
    as (r & L' & s' & m' & -> & HL' & Hs' & Ho & Heff); [done..|]. cbn.
  do 2 eexists. exists m'. split_and!; [done| |done]. split; [done|]. intros j. cbn.
  destruct (decide (j = node e)) as [->|Hne]; [by rewrite lookup_insert_eq|].
  rewrite lookup_insert_ne by done. by apply Ho.
Qed.

Inductive reachable : System -> Prop :=
  | reachable_initial : reachable initial
  | reachable_step sys e r sys' :
      reachable sys -> admissible sys e -> step sys e = Some (r, sys') -> reachable sys'.

Lemma storage_initial_sinv : sinv initial ∅.
Proof. split; [by split; try constructor|]. intros i. cbn. by apply new_store_ok. Qed.

Lemma storage_reachable_sinv sys : reachable sys -> exists m, sinv sys m.
Proof.
  induction 1 as [|sys e r sys' Hr (m & Hm) Ht Hst]; [eauto using storage_initial_sinv|].
  destruct (storage_step_ok sys m e Hm Ht) as (r1 & s1 & m1 & H1 & H2 & _). exists m1. congruence.
Qed.

(** What is stored: the entries that the whole log gives. *)
Definition contents (L : Log) : memory :=
  match replay ∅ (history L) with Ok m => entry <$> m | Err _ => ∅ end.

Lemma contents_ok L m : log_ok L m -> contents L = entry <$> m.
Proof. intros HL. unfold contents. by rewrite (lo_replay _ _ HL). Qed.

(** ** Theorems *)

(** C16. The storages on one log implement the storage in memory, provided that
    diffs are switched off or only one variable is stored (see
    [truncation_orphans_diff]) and that no storage writes again after its write
    was rejected before it is elected again (see
    [rejected_truncation_loses_update]); patching is assumed to undo making a
    diff.  Then an operation that reports success has exactly the effect, and
    passes exactly the version check, of the same operation on the memory that
    the log stands for; an operation that does not report success changed
    nothing, or had that effect (its write was not acknowledged).  Events other
    than operations change nothing. *)
Theorem log_storage_refines sys e r sys' :
  reachable sys -> admissible sys e -> step sys e = Some (r, sys') ->
  let before := contents (log sys) in
  let after := contents (log sys') in
  (r = Replied true -> spec_of before e = (true, after))
  /\ (r <> Replied true -> after = before \/ spec_of before e = (true, after)).
Proof.
  intros (m & Hm)%storage_reachable_sinv Ht Hst. destruct (storage_step_ok sys m e Hm Ht) as (r1 & s1 & m1 & H1 & H2 & Heff).
  rewrite Hst in H1. injection H1 as <- <-. cbn zeta.
  rewrite (contents_ok _ _ (proj1 Hm)), (contents_ok _ _ (proj1 H2)). exact Heff.
Qed.

(** No check of the process fails, and a start never fails to apply a diff:
    every event is handled, whatever was truncated before. *)
Theorem log_storage_never_aborts sys e :
  reachable sys -> admissible sys e -> is_Some (step sys e).
Proof.
  intros (m & Hm)%storage_reachable_sinv Ht. destruct (storage_step_ok sys m e Hm Ht) as (r & s & m1 & -> & _). done.
Qed.

(** C17. The storage that won the last election, and of which no write was rejected
    or failed since, has the stored entries, and only those, in its cache as soon
    as it has started: also when it is new and the log was truncated before, and
    when other storages wrote in between.  The events are restricted as for the
    refinement: diffs are off or one variable is stored, and no storage writes
    again after a rejected write before it is elected again. *)
Theorem leader_cache_exact sys i s :
  reachable sys -> stores sys !! i = Some s -> elected (log sys) = Some i -> starting s = Ready ->
  (forall name, get s name = mem_get (contents (log sys)) name)
  /\ names s = mem_names (contents (log sys)).
Proof.
  intros (m & HL & Hs)%storage_reachable_sinv Hi He Hst. specialize (Hs i). rewrite Hi in Hs.
  assert (Hl := so_leader _ _ _ _ Hs He). cbn in Hl. rewrite Hst in Hl. destruct Hl as [Hsn _].
  rewrite (contents_ok _ _ HL). split.
  - intros name. unfold get, mem_get. by rewrite lookup_fmap, Hsn.
  - unfold names, mem_names. by rewrite dom_fmap_L, Hsn.
Qed.

(** Truncating is safe: what can still be read of the log gives the same
    snapshots as the whole log. *)
Theorem truncation_keeps_contents sys :
  reachable sys ->
  exists m, replay ∅ (history (log sys)) = Ok m
    /\ replay ∅ (from (beginning (log sys)) (history (log sys))) = Ok m.
Proof. intros (m & HL & _)%storage_reachable_sinv. exists m. split; apply HL. Qed.

End LogStorage.

(** ** Examples: a diff that shortens one value *)

Definition example_diff (a b : string) : option string :=
  if decide (b = "0000"%string) then Some "0"%string
  else if decide (b = "0"%string) then None else Some b.

Definition example_patch (a d : string) : option string :=
  if decide (d = "0"%string) then Some "0000"%string else Some d.

Lemma example_patch_diff a b d : example_diff a b = Some d -> example_patch a d = Some b.
Proof.
  unfold example_diff, example_patch. intros H. repeat case_decide; simplify_eq; done.
Qed.

Fixpoint run (diff patch : string -> string -> option string) (limit : nat) (sys : System) (es : list Event)
  : option System :=
  match es with
  | [] => Some sys
  | e :: es' => '(_, sys') ← step diff patch limit sys e; run diff patch limit sys' es'
  end.

(** No event of the run is a write of a storage whose write was rejected. *)
Fixpoint run_obedient (diff patch : string -> string -> option string) (limit : nat) (sys : System) (es : list Event)
  : bool :=
  match es with
  | [] => true
  | e :: es' =>
      negb (retries (store_of sys (node e)) e)
      && match step diff patch limit sys e with
         | Some (_, sys') => run_obedient diff patch limit sys' es'
         | None => true
         end
  end.

Lemma storage_run_reachable diff patch limit only sys es sys' :
  reachable diff patch limit only sys -> Forall (tame_event limit only) es ->
  run_obedient diff patch limit sys es = true ->
  run diff patch limit sys es = Some sys' -> reachable diff patch limit only sys'.
Proof.
  revert sys. induction es as [|e es IH]; intros sys Hr Ht Hob Hrun; cbn in Hrun, Hob; [by injection Hrun as <-|].
  apply Forall_cons in Ht as [Ht Hts]. apply andb_true_iff in Hob as [Hre%negb_true_iff Hob].
  destruct (step diff patch limit sys e) as [[r sys1]|] eqn:Hst; [|done].
  cbn in Hrun. apply (IH sys1); [by eapply reachable_step|done|done|done].
Qed.

(** One name with diffs: a storage writes a snapshot, a diff and a snapshot again,
    truncates the log, and a second storage takes over. *)
Definition example_events : list Event :=
  [EStart 0; EElection 0 Won; ERead 0 true;
   ESet 0 (mkEntry "a" "u1" "1") "" Success;
   ESet 0 (mkEntry "a" "u2" "0000") "u1" Success;
   ESet 0 (mkEntry "a" "u3" "3") "u2" Success;
   ETruncate 0 Success;
   EStart 1; EElection 1 Won; ERead 1 true].

Definition example_system : System := default initial (run example_diff example_patch 1 initial example_events).

Lemma storage_example_reachable : reachable example_diff example_patch 1 "a" example_system.
Proof.
  apply (storage_run_reachable _ _ _ _ initial example_events); [constructor| |vm_compute; reflexivity..].
  repeat constructor; by right.
Qed.

Lemma log_storage_refines_witness :
  exists r sys', step example_diff example_patch 1 example_system (ESet 1 (mkEntry "a" "u4" "4") "u3" Success)
      = Some (r, sys')
    /\ mem_set (contents example_patch (log example_system)) (mkEntry "a" "u4" "4") "u3"
       = (true, contents example_patch (log sys')).
Proof.
  do 2 eexists. split; [vm_compute; reflexivity|].
  refine (proj1 (log_storage_refines example_diff example_patch 1 example_patch_diff "a" example_system
            (ESet 1 (mkEntry "a" "u4" "4") "u3" Success) (Replied true) _ storage_example_reachable _ _) _);
    [split; [by right|vm_compute; reflexivity]|vm_compute; reflexivity|reflexivity].
Defined.

Lemma log_storage_never_aborts_witness :
  is_Some (step example_diff example_patch 1 example_system (ESet 0 (mkEntry "a" "u4" "4") "u3" Success)).
Proof.
  apply (log_storage_never_aborts example_diff example_patch 1 example_patch_diff "a");
    [exact storage_example_reachable|split; [by right|vm_compute; reflexivity]].
Defined.

Lemma leader_cache_exact_witness :
  get (default new_store (stores example_system !! 1%nat)) "a" = Some (mkEntry "a" "u3" "3")
  /\ mem_get (contents example_patch (log example_system)) "a" = Some (mkEntry "a" "u3" "3").
Proof.
  destruct (leader_cache_exact example_diff example_patch 1 example_patch_diff "a" example_system 1
              (default new_store (stores example_system !! 1%nat))) as [H _];
    [exact storage_example_reachable|vm_compute; reflexivity..|].
  rewrite <- H. split; vm_compute; reflexivity.
Defined.

Lemma truncation_keeps_contents_witness :
  beginning (log example_system) = 3
  /\ exists m, replay example_patch ∅ (history (log example_system)) = Ok m
    /\ replay example_patch ∅ (from (beginning (log example_system)) (history (log example_system))) = Ok m.
Proof.
  split; [vm_compute; reflexivity|].
  exact (truncation_keeps_contents example_diff example_patch 1 example_patch_diff "a" example_system storage_example_reachable).
Defined.

(** With two names and diffs, the log is truncated to the oldest snapshot although a
    diff of the other name, whose snapshot is gone, is still in it. *)
Definition orphan_events : list Event :=
  [EStart 0; EElection 0 Won; ERead 0 true;
   ESet 0 (mkEntry "a" "u1" "1") "" Success;
   ESet 0 (mkEntry "b" "v1" "1") "" Success;
   ESet 0 (mkEntry "a" "u2" "0000") "u1" Success;
   ESet 0 (mkEntry "a" "u3" "3") "u2" Success;
   ETruncate 0 Success;
   EStart 1; EElection 1 Won].

Definition orphan_system : System := default initial (run example_diff example_patch 1 initial orphan_events).

(** Truncating to the oldest snapshot can leave a diff in the log whose snapshot
    was truncated, when another variable has an older snapshot: the next process
    that starts aborts when it reads the log, and so does every later one. *)
Theorem truncation_orphans_diff :
  run example_diff example_patch 1 initial orphan_events = Some orphan_system
  /\ beginning (log orphan_system) = 2
  /\ read (log orphan_system) 2 4
     = Some [(2, SNAPSHOT (mkEntry "b" "v1" "1")); (3, DIFF (mkEntry "a" "u2" "0"));
             (4, SNAPSHOT (mkEntry "a" "u3" "3"))]
  /\ step example_diff example_patch 1 orphan_system (ERead 1 true) = None.
Proof. split_and!; vm_compute; reflexivity. Qed.

(** ** A storage that writes after a rejected truncation *)

(** The first storage stores a value; the second one takes over and replaces it;
    the truncation of the first one is rejected, but it remains started. *)
Definition overtaken_events : list Event :=
  [EStart 0; EElection 0 Won; ERead 0 true;
   ESet 0 (mkEntry "a" "u1" "1") "" Success;
   EStart 1; EElection 1 Won; ERead 1 true;
   ESet 1 (mkEntry "a" "u2" "2") "u1" Success;
   ETruncate 0 Success].

Definition overtaken_system : System := default initial (run example_diff example_patch 0 initial overtaken_events).

(** [__truncate] does not reset [starting] when the truncation was rejected, and
    the coordinator stays elected with the proposal of its rival.  So the first
    storage checks the next [set] against its old entry and writes it where it
    stopped.  The replicas accept that as long as they have not learned the
    position (see [retry_after_rejection_breaks_agreement]): a [set] with the
    version of the replaced value succeeds, and the acknowledged value of the
    second storage is lost. *)
Theorem rejected_truncation_loses_update :
  run example_diff example_patch 0 initial overtaken_events = Some overtaken_system
  /\ contents example_patch (log overtaken_system) !! "a"%string = Some (mkEntry "a" "u2" "2")
  /\ retries (store_of overtaken_system 0) (ESet 0 (mkEntry "a" "u3" "3") "u1" Success) = true
  /\ exists sys', step example_diff example_patch 0 overtaken_system
                    (ESet 0 (mkEntry "a" "u3" "3") "u1" Success) = Some (Replied true, sys')
       /\ history (log sys') = [(1, SNAPSHOT (mkEntry "a" "u1" "1")); (2, SNAPSHOT (mkEntry "a" "u3" "3"))].
Proof. split_and!; [vm_compute; reflexivity..|]. eexists. split; vm_compute; reflexivity. Qed.
