(* ===== verification/Registrar.v ===== *)
(** * Registrar

    [RegistrarProcess] of [src/src/master/registrar.cpp] with the operations of
    [src/src/master/registrar.hpp]: the queue of operations that are applied to
    the registry in batches and stored with a version check.

    Several registrars (of masters that take each other for gone) share one
    storage, whose contract is that of [mem_set] ([StateStorage] shows that the
    storage on the log keeps it).  A request that timed out can still reach the
    storage later.  [None] is a failed [CHECK]. *)

From stdpp Require Import base gmap strings list relations.
From S2P Require Import Prelude StateStorage.
Local Open Scope Z_scope.

Section Registrar.
(** The registry, the accumulator of agent ids, and the operations with their
    [perform]: whether it succeeded, and what it left.  The codec is that of
    protobuf. *)
Context {R A Op Info : Type}.
Context (slaveIDs : R -> A) (perform : Op -> R * A -> bool * (R * A)) (set_info : Info -> R -> R).
Context (serialize : R -> option string) (deserialize : string -> option R).

Inductive operation := Recover (info : Info) | Operation (op : Op).

Definition apply_one (o : operation) (x : R * A) : bool * (R * A) :=
  match o with
  | Recover info => (true, (set_info info x.1, x.2))
  | Operation op => perform op x
  end.

(** The loop of [update]: the results of the operations, in their order. *)
Fixpoint apply_all (l : list (nat * operation)) (x : R * A) : list (nat * bool) * (R * A) :=
  match l with
  | [] => ([], x)
  | (id, o) :: l' =>
      let '(b, x1) := apply_one o x in
      let '(bs, x2) := apply_all l' x1 in
      ((id, b) :: bs, x2)
  end.

(** The registry after a batch. *)
Definition batch (l : list (nat * operation)) (r : R) : R := (apply_all l (r, slaveIDs r)).2.1.

Inductive future := FPending | FSet (b : bool) | FFailed.
Inductive recovery := RPending | RSet | RFailed.

(** A store under way: the entry, the version it replaces, the registry it was
    made from and the new one, the operations with their results, and the answer
    of the storage. *)
Record Storing := mkStoring {
  st_entry : Entry;
  st_version : string;
  st_base : R;
  st_updated : R;
  st_applied : list (nat * bool);
  st_landed : option bool;
}.

Inductive Fetching := NoFetch | Fetch (info : Info) | Fetched (info : Info) (v : Entry).

Record Registrar := mkRegistrar {
  recovered : option recovery;
  fetching : Fetching;
  variable : option Entry;
  registry : option R;
  operations : list (nat * operation);
  updating : bool;
  storing : option Storing;
  error : bool;
  gated : list (nat * operation);
  recover_id : option nat;
  promises : gmap nat future;
}.

Definition new_registrar : Registrar := mkRegistrar None NoFetch None None [] false None false [] None ∅.

Definition fail_all (ids : list nat) (p : gmap nat future) : gmap nat future :=
  foldr (fun id p => <[id := FFailed]> p) p ids.

Definition set_all (bs : list (nat * bool)) (p : gmap nat future) : gmap nat future :=
  foldr (fun x p => <[x.1 := FSet x.2]> p) p bs.

(** [recover] *)
Definition recover (g : Registrar) (info : Info) : Registrar :=
  match recovered g with
  | Some _ => g
  | None => mkRegistrar (Some RPending) (Fetch info) (variable g) (registry g) (operations g) true
              (storing g) (error g) (gated g) (recover_id g) (promises g)
  end.

Definition with_recovered (r : recovery) (g : Registrar) : Registrar :=
  mkRegistrar (Some r) (fetching g) (variable g) (registry g) (operations g) (updating g)
    (storing g) (error g) (gated g) (recover_id g) (promises g).

(** [abort], with the operations that fail besides those of the queue. *)
Definition abort (applied : list nat) (g : Registrar) : Registrar :=
  mkRegistrar (recovered g) (fetching g) (variable g) (registry g) [] (updating g)
    None true (gated g) (recover_id g) (fail_all (applied ++ map fst (operations g)) (promises g)).

(** [update]; [uuid] is the random version of the new entry. *)
Definition update (g : Registrar) (uuid : string) : option Registrar :=
  match operations g with
  | [] => Some g
  | ops =>
      if updating g || error g then None
      else
        v ← variable g;
        r ← registry g;
        let '(bs, x) := apply_all ops (r, slaveIDs r) in
        match serialize x.1 with
        | None =>
            Some (abort (map fst ops)
                    (mkRegistrar (recovered g) (fetching g) (variable g) (registry g) (operations g) true
                       (storing g) (error g) (gated g) (recover_id g) (promises g)))
        | Some s =>
            Some (mkRegistrar (recovered g) (fetching g) (variable g) (registry g) [] true
                    (Some (mkStoring (stored (mutate v s) uuid) (e_uuid v) r x.1 bs None))
                    (error g) (gated g) (recover_id g) (promises g))
        end
  end.

(** [_recover] with the result of the fetch; [id] is the promise of the [Recover]
    operation. *)
Definition recover_ (g : Registrar) (id : nat) (uuid : string) (ok : bool) : option Registrar :=
  let g1 := mkRegistrar (recovered g) NoFetch (variable g) (registry g) (operations g) false
              (storing g) (error g) (gated g) (recover_id g) (promises g) in
  match fetching g, ok with
  | Fetched info v, true =>
      match deserialize (e_value v) with
      | None => Some (with_recovered RFailed g1)
      | Some r =>
          update (mkRegistrar (recovered g1) NoFetch (Some v) (Some r) (operations g1 ++ [(id, Recover info)]) false
                    (storing g1) (error g1) (gated g1) (Some id) (<[id := FPending]> (promises g1))) uuid
      end
  | NoFetch, _ => Some g
  | _, false => Some (with_recovered RFailed g1)
  | Fetch _, true => Some g
  end.

(** [__recover], when the [Recover] operation is done. *)
Definition recover__ (g : Registrar) : option Registrar :=
  match recover_id g with
  | None => Some g
  | Some id =>
      let g1 := mkRegistrar (recovered g) (fetching g) (variable g) (registry g) (operations g) (updating g)
                  (storing g) (error g) (gated g) None (promises g) in
      match promises g !! id with
      | Some FPending | None => Some g
      | Some FFailed | Some (FSet false) => Some (with_recovered RFailed g1)
      | Some (FSet true) =>
          match variable g, registry g with
          | Some _, Some _ => Some (with_recovered RSet g1)
          | _, _ => None
          end
      end
  end.

(** [apply] *)
Definition apply (g : Registrar) (id : nat) (o : Op) : Registrar :=
  match recovered g with
  | None => mkRegistrar (recovered g) (fetching g) (variable g) (registry g) (operations g) (updating g)
              (storing g) (error g) (gated g) (recover_id g) (<[id := FFailed]> (promises g))
  | Some _ => mkRegistrar (recovered g) (fetching g) (variable g) (registry g) (operations g) (updating g)
                (storing g) (error g) (gated g ++ [(id, Operation o)]) (recover_id g) (<[id := FPending]> (promises g))
  end.

(** [_apply] of the first operation that waits for the recovery. *)
Definition apply_ (g : Registrar) (uuid : string) : option Registrar :=
  match gated g with
  | [] => Some g
  | (id, o) :: rest =>
      let g1 := mkRegistrar (recovered g) (fetching g) (variable g) (registry g) (operations g) (updating g)
                  (storing g) (error g) rest (recover_id g) (promises g) in
      let failed := mkRegistrar (recovered g) (fetching g) (variable g) (registry g) (operations g) (updating g)
                      (storing g) (error g) rest (recover_id g) (<[id := FFailed]> (promises g)) in
      match recovered g with
      | Some RSet =>
          if error g then Some failed
          else match variable g with
               | None => None
               | Some _ =>
                   let g2 := mkRegistrar (recovered g1) (fetching g1) (variable g1) (registry g1)
                               (operations g1 ++ [(id, o)]) (updating g1) (storing g1) (error g1) (gated g1)
                               (recover_id g1) (promises g1) in
                   if updating g2 then Some g2 else update g2 uuid
               end
      | Some RFailed => Some failed
      | _ => Some g
      end
  end.

(** [_update] with the answer of the storage, or a failure. *)
Definition update_ (g : Registrar) (uuid : string) (ok : bool) : option Registrar :=
  match storing g with
  | None => Some g
  | Some st =>
      let g1 := mkRegistrar (recovered g) (fetching g) (variable g) (registry g) (operations g) false
                  None (error g) (gated g) (recover_id g) (promises g) in
      match ok, st_landed st with
      | true, None => Some g
      | true, Some true =>
          update (mkRegistrar (recovered g1) (fetching g1) (Some (st_entry st)) (Some (st_updated st)) (operations g1)
                    (updating g1) (storing g1) (error g1) (gated g1) (recover_id g1)
                    (set_all (st_applied st) (promises g1))) uuid
      | _, _ => Some (abort (map fst (st_applied st)) g1)
      end
  end.

(** ** Registrars on one storage *)

Definition REGISTRY : string := "registry".

Record System := mkSystem {
  mem : gmap string Entry;
  registrars : gmap nat Registrar;
  late : list Storing;
}.

Inductive Event :=
  | ENew (i : nat)
  | ERecover (i : nat) (info : Info)
  | EFetch (i : nat) (uuid : string)
  | EFetched (i : nat) (id : nat) (uuid : string) (ok : bool)
  | ERecovered (i : nat)
  | EApply (i : nat) (id : nat) (o : Op)
  | EOperate (i : nat) (uuid : string)
  | ELand (i : nat)
  | EStored (i : nat) (uuid : string) (ok : bool)
  | ELate (k : nat).

Definition node (e : Event) : nat :=
  match e with
  | ENew i | ERecover i _ | EFetch i _ | EFetched i _ _ _ | ERecovered i | EApply i _ _ | EOperate i _
  | ELand i | EStored i _ _ => i
  | ELate _ => 0
  end.

(** The request reaches the storage. *)
Definition land (m : gmap string Entry) (st : Storing) : gmap string Entry * Storing :=
  let '(b, m') := mem_set m (st_entry st) (st_version st) in
  (m', mkStoring (st_entry st) (st_version st) (st_base st) (st_updated st) (st_applied st) (Some b)).

(** The request of a registrar that gives up on it, if the storage has not
    answered it. *)
Definition abandoned (g : Registrar) : list Storing :=
  match storing g with
  | Some st => match st_landed st with None => [st] | Some _ => [] end
  | None => []
  end.

Definition with_fetched (v : Entry) (info : Info) (g : Registrar) : Registrar :=
  mkRegistrar (recovered g) (Fetched info v) (variable g) (registry g) (operations g) (updating g)
    (storing g) (error g) (gated g) (recover_id g) (promises g).

Definition with_storing (st : Storing) (g : Registrar) : Registrar :=
  mkRegistrar (recovered g) (fetching g) (variable g) (registry g) (operations g) (updating g)
    (Some st) (error g) (gated g) (recover_id g) (promises g).

Definition put (i : nat) (g : Registrar) (sys : System) : System :=
  mkSystem (mem sys) (<[i := g]> (registrars sys)) (late sys).

Definition step (sys : System) (e : Event) : option System :=
  let g := default new_registrar (registrars sys !! node e) in
  match e with
  | ENew i => Some (mkSystem (mem sys) (<[i := new_registrar]> (registrars sys)) (late sys ++ abandoned g))
  | ERecover i info => Some (put i (recover g info) sys)
  | EFetch i uuid =>
      match fetching g with
      | Fetch info => Some (put i (with_fetched (fetched REGISTRY uuid (mem_get (mem sys) REGISTRY)) info g) sys)
      | _ => Some sys
      end
  | EFetched i id uuid ok => g' ← recover_ g id uuid ok; Some (put i g' sys)
  | ERecovered i => g' ← recover__ g; Some (put i g' sys)
  | EApply i id o => Some (put i (apply g id o) sys)
  | EOperate i uuid => g' ← apply_ g uuid; Some (put i g' sys)
  | ELand i =>
      match storing g with
      | Some st =>
          match st_landed st with
          | None => let '(m, st') := land (mem sys) st in
                    Some (put i (with_storing st' g) (mkSystem m (registrars sys) (late sys)))
          | Some _ => Some sys
          end
      | None => Some sys
      end
  | EStored i uuid ok =>
      g' ← update_ g uuid ok;
      Some (mkSystem (mem sys) (<[i := g']> (registrars sys))
              (late sys ++ if ok then [] else abandoned g))
  | ELate k =>
      match late sys !! k with
      | Some st => Some (mkSystem (land (mem sys) st).1 (registrars sys) (delete k (late sys)))
      | None => Some sys
      end
  end.

Definition initial : System := mkSystem ∅ ∅ [].

(** ** Runs

    What was used and promised so far: the value of every version, and the
    operations of the batches that reached the storage. *)
Record Ghost := mkGhost { born : gmap string string; committed : list (nat * list (nat * bool)) }.

(** The value that a new version was given. *)
Definition value_of (g : Registrar) : string :=
  match fetching g, storing g with
  | Fetched _ v, _ => e_value v
  | _, Some st => e_value (st_entry st)
  | _, None => EmptyString
  end.

Definition version (e : Event) : option string :=
  match e with
  | EFetch _ uuid | EFetched _ _ uuid _ | EOperate _ uuid | EStored _ uuid _ => Some uuid
  | _ => None
  end.

Definition ghost_step (sys' : System) (e : Event) (G : Ghost) : Ghost :=
  let g' := default new_registrar (registrars sys' !! node e) in
  mkGhost
    (match version e with Some uuid => <[uuid := value_of g']> (born G) | None => born G end)
    (match e, storing g' with
     | ELand i, Some st =>
         match st_landed st with Some true => committed G ++ [(i, st_applied st)] | _ => committed G end
     | _, _ => committed G
     end).

(** A random version is one that was not used before. *)
Definition fresh_event (G : Ghost) (e : Event) : Prop :=
  match version e with Some uuid => born G !! uuid = None | None => True end.

Inductive reachable : System -> Ghost -> Prop :=
  | reachable_initial : reachable initial (mkGhost ∅ [])
  | reachable_step sys G e sys' :
      reachable sys G -> fresh_event G e -> step sys e = Some sys' ->
      reachable sys' (ghost_step sys' e G).

(** The registry in the storage; nothing is read as the empty message. *)
Definition stored_registry (m : gmap string Entry) : option R :=
  deserialize (match m !! REGISTRY with Some e => e_value e | None => EmptyString end).

(** ** The invariant *)

Context (codec : forall r s, serialize r = Some s -> deserialize s = Some r).

Definition entry_ok (B : gmap string string) (e : Entry) : Prop :=
  e_name e = REGISTRY /\ B !! e_uuid e = Some (e_value e).

(** A request: it replaces a version by the registry after a batch. *)
Record request_ok (m : gmap string Entry) (B : gmap string string) (st : Storing) : Prop := {
  rq_entry : entry_ok B (st_entry st);
  rq_updated : deserialize (e_value (st_entry st)) = Some (st_updated st);
  rq_batch : exists ops, batch ops (st_base st) = st_updated st;
  rq_base : exists v, B !! st_version st = Some v /\ deserialize v = Some (st_base st)
              /\ (m !! REGISTRY = None -> v = EmptyString);
}.

Record registrar_ok (m : gmap string Entry) (G : Ghost) (i : nat) (g : Registrar) : Prop := {
  g_variable : forall v, variable g = Some v ->
    entry_ok (born G) v /\ (exists r, registry g = Some r /\ deserialize (e_value v) = Some r)
    /\ (m !! REGISTRY = None -> e_value v = EmptyString);
  g_none : variable g = None ->
    operations g = [] /\ storing g = None /\ recover_id g = None /\ recovered g <> Some RSet;
  g_new : recovered g = None -> variable g = None /\ error g = false;
  g_fetching : fetching g <> NoFetch -> variable g = None /\ error g = false /\ recovered g <> None;
  g_fetched : forall info v, fetching g = Fetched info v ->
    entry_ok (born G) v /\ (m !! REGISTRY = None -> e_value v = EmptyString);
  g_idle : updating g = false -> operations g = [] /\ storing g = None;
  g_error : error g = true -> operations g = [] /\ storing g = None;
  g_storing : forall st, storing g = Some st ->
    request_ok m (born G) st /\ registry g = Some (st_base st)
    /\ (st_landed st = Some true -> (i, st_applied st) ∈ committed G /\ m !! REGISTRY <> None);
  g_promises : forall id b, promises g !! id = Some (FSet b) ->
    exists l, (i, l) ∈ committed G /\ (id, b) ∈ l;
}.

Record sinv (sys : System) (G : Ghost) : Prop := {
  s_mem : forall e, mem sys !! REGISTRY = Some e -> entry_ok (born G) e;
  s_registrars : forall i, registrar_ok (mem sys) G i (default new_registrar (registrars sys !! i));
  s_late : Forall (request_ok (mem sys) (born G)) (late sys);
}.

(** *** What grows *)

Definition later (m : gmap string Entry) (G : Ghost) (m' : gmap string Entry) (G' : Ghost) : Prop :=
  (forall u v, born G !! u = Some v -> born G' !! u = Some v)
  /\ (forall x, x ∈ committed G -> x ∈ committed G')
  /\ (m' !! REGISTRY = None -> m !! REGISTRY = None).

Lemma entry_ok_later m G m' G' e : later m G m' G' -> entry_ok (born G) e -> entry_ok (born G') e.
Proof. intros (HB & _ & _) [Hn Hb]. split; [done|by apply HB]. Qed.

Lemma request_ok_later m G m' G' st :
  later m G m' G' -> request_ok m (born G) st -> request_ok m' (born G') st.
Proof.
  intros Hl [He Hu Hb (v & Hv & Hd & Hm)]. pose proof Hl as (HB & _ & Hem).
  split; [by eapply entry_ok_later|done|done|]. exists v. split_and!; [by apply HB|done|auto].
Qed.

Lemma registrar_ok_later m G m' G' i g :
  later m G m' G' -> registrar_ok m G i g -> registrar_ok m' G' i g.
Proof.
  intros Hl []. pose proof Hl as (HB & HC & Hem). split; [|done|done|done| |done|done| |].
  - intros v Hv. destruct (g_variable0 v Hv) as (He & Hr & Hm). split_and!; [by eapply entry_ok_later|done|auto].
  - intros info v Hv. destruct (g_fetched0 info v Hv) as [He Hm]. split; [by eapply entry_ok_later|auto].
  - intros st Hst. destruct (g_storing0 st Hst) as (Hr & Hb & Hc). split_and!; [by eapply request_ok_later|done|].
    intros [Hin Hne]%Hc. split; [by apply HC|naive_solver].
  - intros id b Hp. destruct (g_promises0 id b Hp) as (l & Hin & Hid). exists l. split; [by apply HC|done].
Qed.

Lemma new_registrar_ok m G i : registrar_ok m G i new_registrar.
Proof. by split. Qed.

Lemma fail_all_lookup ids p id b : fail_all ids p !! id = Some (FSet b) -> p !! id = Some (FSet b).
Proof.
  induction ids as [|x ids IH]; [done|]. cbn. intros [[_ [=]]|[_ H]]%lookup_insert_Some. by apply IH.
Qed.

Lemma set_all_lookup bs p id b :
  set_all bs p !! id = Some (FSet b) -> (id, b) ∈ bs \/ p !! id = Some (FSet b).
Proof.
  induction bs as [|[x c] bs IH]; [by right|]. cbn. intros [[<- [= <-]]|[_ H]]%lookup_insert_Some; [left; by left|].
  destruct (IH H); [left; by right|by right].
Qed.


(** *** Operations of one registrar *)

Definition born_with (uuid value : string) (G : Ghost) : Ghost := mkGhost (<[uuid := value]> (born G)) (committed G).

Lemma later_refl m G : later m G m G.
Proof. by split_and!. Qed.

Lemma later_born m G uuid value : born G !! uuid = None -> later m G m (born_with uuid value G).
Proof.
  intros Hf. split_and!; [|done|done]. cbn. intros u v Hu. rewrite lookup_insert_ne; [done|congruence].
Qed.

Definition with_operations (l : list (nat * operation)) (g : Registrar) : Registrar :=
  mkRegistrar (recovered g) (fetching g) (variable g) (registry g) l (updating g)
    (storing g) (error g) (gated g) (recover_id g) (promises g).

Lemma abort_ok m G i ids g :
  registrar_ok m G i g -> fetching g = NoFetch -> variable g <> None -> registrar_ok m G i (abort ids g).
Proof.
  intros [] Hf Hv. split; cbn; try done.
  - intros H%g_new0. by destruct H.
  - intros id b H%fail_all_lookup. by apply g_promises0.
Qed.

Lemma registrar_update_ok m G i g ops uuid :
  registrar_ok m G i g -> operations g = [] -> updating g = false -> error g = false -> variable g <> None ->
  born G !! uuid = None ->
  exists g', update (with_operations ops g) uuid = Some g' /\ registrar_ok m (born_with uuid (value_of g') G) i g'.
Proof.
  intros Hg Hops Hup Her Hv Hfresh. pose proof Hg as [].
  assert (Hnf : fetching g = NoFetch).
  { destruct (fetching g) eqn:Hf; [done|by destruct g_fetching0..]. }
  assert (Hlater : forall x, later m G m (born_with uuid x G)) by (intros x; by apply later_born).
  unfold update, with_operations. cbn. destruct ops as [|o ops].
  { eexists. split; [done|]. eapply registrar_ok_later; [apply Hlater|]. rewrite <- Hops. by destruct g. }
  rewrite Hup, Her. cbn. destruct (variable g) as [v|] eqn:Hvar; [|done]. cbn.
  destruct (g_variable0 v eq_refl) as (Hev & (r & Hr & Hd) & Hm). rewrite Hr. cbn.
  destruct o as [id o]. destruct (apply_one o (r, slaveIDs r)) as [b x1] eqn:Ha1.
  destruct (apply_all ops x1) as [bs x] eqn:Ha2.
  assert (Hbatch : batch ((id, o) :: ops) r = x.1) by (unfold batch; cbn; by rewrite Ha1, Ha2).
  destruct (serialize x.1) as [str|] eqn:Hser.
  - eexists. split; [done|]. set (g' := mkRegistrar _ _ _ _ _ _ _ _ _ _ _).
    assert (Hval : value_of g' = str) by (unfold value_of, g'; cbn; by rewrite Hnf). rewrite Hval.
    split; cbn; try done.
    + intros v' [= <-]. split_and!; [by apply (entry_ok_later m G m _ _ (Hlater str))|eauto|done].
    + intros H%g_new0. by destruct H.
    + by rewrite Hnf.
    + intros st [= <-]. cbn. split_and!; [|done|done]. split; cbn.
      * split; [apply Hev|]. cbn. by rewrite lookup_insert_eq.
      * by apply codec.
      * by exists ((id, o) :: ops).
      * exists (e_value v). split_and!; [|done|done]. rewrite lookup_insert_ne; [apply Hev|].
        intros Heq. destruct Hev as [_ Hev]. congruence.
  - eexists. split; [done|]. eapply registrar_ok_later; [apply Hlater|]. split; cbn; try done; try congruence.
    + intros v' [= <-]. eauto.
    + intros H%g_new0. by destruct H.
    + intros id' b' H. apply g_promises0. by apply (fail_all_lookup (map fst ((id, o) :: ops) ++ map fst ((id, o) :: ops))).
Qed.


Lemma recover_start_ok m G i g info : registrar_ok m G i g -> registrar_ok m G i (recover g info).
Proof.
  intros Hg. unfold recover. destruct (recovered g) eqn:Hr; [done|]. destruct Hg.
  destruct (g_new0 Hr) as [Hv He]. split; cbn; try done.
  intros H. destruct (g_none0 H) as (H1 & H2 & H3 & _). done.
Qed.

Lemma with_recovered_ok m G i g r :
  registrar_ok m G i g -> r <> RSet \/ variable g <> None -> registrar_ok m G i (with_recovered r g).
Proof.
  intros [] Hr. split; cbn; try done.
  - intros H. destruct (g_none0 H) as (H1 & H2 & H3 & _). split_and!; [done..|]. destruct Hr; [congruence|done].
  - intros H. destruct (g_fetching0 H) as (H1 & H2 & _). done.
Qed.

Lemma recover__ok m G i g id uuid ok :
  registrar_ok m G i g -> born G !! uuid = None ->
  exists g', recover_ g id uuid ok = Some g' /\ registrar_ok m (born_with uuid (value_of g') G) i g'.
Proof.
  intros Hg Hfresh. assert (Hlater : forall x, later m G m (born_with uuid x G)) by (intros x; by apply later_born).
  assert (Hsame : forall g', registrar_ok m G i g' ->
            exists g0, Some g' = Some g0 /\ registrar_ok m (born_with uuid (value_of g0) G) i g0).
  { intros g' Hg'. eexists. split; [done|]. by eapply registrar_ok_later. }
  unfold recover_. destruct (fetching g) as [|info|info v] eqn:Hf; [by apply Hsame| |].
  all: destruct (g_fetching _ _ _ _ Hg) as (Hv & He & Hrn); [congruence|].
  all: destruct (g_none _ _ _ _ Hg Hv) as (Hops & Hst & Hid & Hre).
  all: set (g1 := mkRegistrar _ NoFetch _ _ _ false _ _ _ _ _).
  all: assert (Hg1 : registrar_ok m G i g1) by (destruct Hg; by split).
  - destruct ok; [by apply Hsame|]. apply Hsame, with_recovered_ok; [done|by left].
  - destruct ok; [|apply Hsame, with_recovered_ok; [done|by left]].
    destruct (deserialize (e_value v)) as [r|] eqn:Hd; [|apply Hsame, with_recovered_ok; [done|by left]].
    destruct (g_fetched _ _ _ _ Hg info v Hf) as [Hev Hm].
    set (g2 := mkRegistrar (recovered g) NoFetch (Some v) (Some r) [] false (storing g) (error g) (gated g)
                 (Some id) (<[id := FPending]> (promises g))).
    destruct (registrar_update_ok m G i g2 [(id, Recover info)] uuid) as (g' & Hup & Hok); try done.
    + destruct Hg1. split; cbn; try done.
      * intros v' [= <-]. eauto.
      * by rewrite Hst.
      * intros id' b'. rewrite lookup_insert_Some. intros [[_ [=]]|[_ H]]. by apply g_promises0.
    + exists g'. split; [|done]. rewrite <- Hup. f_equal. unfold with_operations, g2. cbn. by rewrite Hops.
Qed.

Lemma recover___ok m G i g :
  registrar_ok m G i g -> exists g', recover__ g = Some g' /\ registrar_ok m G i g'.
Proof.
  intros Hg. unfold recover__. destruct (recover_id g) as [id|] eqn:Hid; [|eauto].
  destruct (variable g) as [v|] eqn:Hv; [|destruct (g_none _ _ _ _ Hg Hv) as (_ & _ & H & _); congruence].
  destruct (g_variable _ _ _ _ Hg v Hv) as (_ & (r & Hr & _) & _). rewrite Hr.
  set (g1 := mkRegistrar _ _ _ _ _ _ _ _ _ None _).
  assert (Hg1 : registrar_ok m G i g1) by (destruct Hg; rewrite Hv in *; rewrite Hr in *; by split).
  destruct (promises g !! id) as [[|b|]|]; [eauto| |by eexists; split; [|apply with_recovered_ok; [|left]]|eauto].
  destruct b; eexists; (split; [done|]); apply with_recovered_ok; [done|by right|done|by left].
Qed.

Lemma apply_ok m G i g id o : registrar_ok m G i g -> registrar_ok m G i (apply g id o).
Proof.
  intros []. unfold apply. destruct (recovered g) eqn:Hr; split; cbn; rewrite ?Hr; try done.
  all: intros id' b'; rewrite lookup_insert_Some; intros [[_ [=]]|[_ H]]; by apply g_promises0.
Qed.

Lemma apply__ok m G i g uuid :
  registrar_ok m G i g -> born G !! uuid = None ->
  exists g', apply_ g uuid = Some g' /\ registrar_ok m (born_with uuid (value_of g') G) i g'.
Proof.
  intros Hg Hfresh. assert (Hlater : forall x, later m G m (born_with uuid x G)) by (intros x; by apply later_born).
  assert (Hsame : forall g', registrar_ok m G i g' ->
            exists g0, Some g' = Some g0 /\ registrar_ok m (born_with uuid (value_of g0) G) i g0).
  { intros g' Hg'. eexists. split; [done|]. by eapply registrar_ok_later. }
  unfold apply_. destruct (gated g) as [|[id o] rest] eqn:Hga; [by apply Hsame|].
  assert (Hfail : registrar_ok m G i (mkRegistrar (recovered g) (fetching g) (variable g) (registry g) (operations g)
            (updating g) (storing g) (error g) rest (recover_id g) (<[id := FFailed]> (promises g)))).
  { destruct Hg. split; cbn; try done. intros id' b'. rewrite lookup_insert_Some.
    intros [[_ [=]]|[_ H]]. by apply g_promises0. }
  destruct (recovered g) as [[| |]|] eqn:Hr; [by apply Hsame| |by apply Hsame|by apply Hsame].
  destruct (error g) eqn:He; [by apply Hsame|].
  destruct (variable g) as [v|] eqn:Hv; [|by destruct (g_none _ _ _ _ Hg Hv) as (_ & _ & _ & H)].
  cbn. destruct (updating g) eqn:Hup.
  - apply Hsame. destruct Hg. rewrite Hv, Hr, Hup, He in *. by split.
  - destruct (g_idle _ _ _ _ Hg Hup) as [Hops Hst]. rewrite Hops. cbn.
    set (g1 := mkRegistrar (Some RSet) (fetching g) (Some v) (registry g) [] false (storing g) false rest (recover_id g) (promises g)).
    destruct (registrar_update_ok m G i g1 [(id, o)] uuid) as (g' & Hu & Hok); try done; [|eauto].
    destruct Hg. rewrite Hv, Hr, Hup, He, Hops in *. by split.
Qed.

Lemma update__ok m G i g uuid ok :
  registrar_ok m G i g -> born G !! uuid = None ->
  exists g', update_ g uuid ok = Some g' /\ registrar_ok m (born_with uuid (value_of g') G) i g'.
Proof.
  intros Hg Hfresh. assert (Hlater : forall x, later m G m (born_with uuid x G)) by (intros x; by apply later_born).
  assert (Hsame : forall g', registrar_ok m G i g' ->
            exists g0, Some g' = Some g0 /\ registrar_ok m (born_with uuid (value_of g0) G) i g0).
  { intros g' Hg'. eexists. split; [done|]. by eapply registrar_ok_later. }
  unfold update_. destruct (storing g) as [st|] eqn:Hst; [|by apply Hsame].
  destruct (variable g) as [v|] eqn:Hv.
  2: { destruct (g_none _ _ _ _ Hg Hv) as (_ & H & _). congruence. }
  assert (Hnf : fetching g = NoFetch).
  { destruct (fetching g) eqn:Hf; [done| |]; destruct (g_fetching _ _ _ _ Hg) as (H & _); congruence. }
  assert (Her : error g = false).
  { destruct (error g) eqn:He; [|done]. destruct (g_error _ _ _ _ Hg He) as [_ H]. congruence. }
  assert (Habort : registrar_ok m G i (abort (map fst (st_applied st))
     (mkRegistrar (recovered g) (fetching g) (Some v) (registry g) (operations g) false None (error g) (gated g)
        (recover_id g) (promises g)))).
  { destruct Hg. rewrite Hv, Hst in *. split; cbn; try done.
    - intros H%g_new0. by destruct H.
    - intros id b H%fail_all_lookup. by apply g_promises0. }
  destruct ok; [|by apply Hsame]. destruct (st_landed st) as [[|]|] eqn:Hl; [|by apply Hsame|by apply Hsame].
  destruct (g_storing _ _ _ _ Hg st Hst) as ([Hre Hru _ _] & Hb & Hc). destruct (Hc Hl) as [Hcom Hmem].
  set (g1 := mkRegistrar (recovered g) (fetching g) (Some (st_entry st)) (Some (st_updated st)) [] false None
               (error g) (gated g) (recover_id g) (set_all (st_applied st) (promises g))).
  destruct (registrar_update_ok m G i g1 (operations g) uuid) as (g' & Hu & Hok); try done; [|eauto].
  destruct Hg. rewrite Hv, Hst in *. split; cbn; try done.
  - intros v' [= <-]. split_and!; [done|eauto|done].
  - intros H%g_new0. by destruct H.
  - intros id b [H|H]%set_all_lookup; [eauto|by apply g_promises0].
Qed.

(** *** The storage *)

(** A request that reaches the storage changes nothing, or replaces exactly the
    registry it was made from by the registry after its batch. *)
Lemma land_spec m B st m' st' :
  (forall e, m !! REGISTRY = Some e -> entry_ok B e) -> request_ok m B st -> land m st = (m', st') ->
  (st_landed st' = Some false /\ m' = m)
  \/ (st_landed st' = Some true /\ m' = <[REGISTRY := st_entry st]> m
      /\ stored_registry m = Some (st_base st) /\ stored_registry m' = Some (st_updated st)).
Proof.
  intros Hm [[Hn He] Hu _ (v & Hv & Hd & Hem)]. unfold land, mem_set. rewrite Hn.
  assert (Hstored : stored_registry (<[REGISTRY := st_entry st]> m) = Some (st_updated st)).
  { unfold stored_registry. by rewrite lookup_insert_eq. }
  destruct (m !! REGISTRY) as [o|] eqn:Ho.
  - destruct (decide (e_uuid o = st_version st)) as [Hver|]; intros [= <- <-]; [right|by left].
    split_and!; [done|done| |done]. unfold stored_registry. rewrite Ho.
    destruct (Hm o eq_refl) as [_ Hb]. rewrite Hver, Hv in Hb. by injection Hb as <-.
  - intros [= <- <-]. right. split_and!; [done|done| |done]. unfold stored_registry. rewrite Ho.
    specialize (Hem eq_refl). by subst v.
Qed.

Lemma later_land m G m' st st' :
  request_ok m (born G) st -> land m st = (m', st') -> later m G m' G.
Proof.
  intros [[Hn _] _ _ _]. unfold land, mem_set. rewrite Hn. intros H. split_and!; [done..|].
  destruct (m !! REGISTRY) as [o|] eqn:Ho; [|done]. destruct (decide _); injection H as <- _; [|congruence].
  by rewrite lookup_insert_eq.
Qed.

Lemma land_mem_ok m G st m' st' :
  (forall e, m !! REGISTRY = Some e -> entry_ok (born G) e) -> request_ok m (born G) st -> land m st = (m', st') ->
  forall e, m' !! REGISTRY = Some e -> entry_ok (born G) e.
Proof.
  intros Hm Hr Hl e. destruct (land_spec _ _ _ _ _ Hm Hr Hl) as [[_ ->]|(_ & -> & _)]; [apply Hm|].
  rewrite lookup_insert_eq. intros [= <-]. apply Hr.
Qed.

(** A step that only changes the registrar of the event. *)
Lemma sinv_put sys G G' i g l :
  sinv sys G -> later (mem sys) G (mem sys) G' -> registrar_ok (mem sys) G' i g ->
  Forall (request_ok (mem sys) (born G')) l ->
  sinv (mkSystem (mem sys) (<[i := g]> (registrars sys)) l) G'.
Proof.
  intros [Sm Sr Sl] Hl Hg Hla. split; cbn; [|intros j|done].
  - intros e He. eapply entry_ok_later; [exact Hl|by apply Sm].
  - destruct (decide (j = i)) as [->|Hne]; [by rewrite lookup_insert_eq|].
    rewrite lookup_insert_ne by done. eapply registrar_ok_later; [exact Hl|apply Sr].
Qed.

Lemma late_later sys G G' : sinv sys G -> later (mem sys) G (mem sys) G' -> Forall (request_ok (mem sys) (born G')) (late sys).
Proof. intros [_ _ Sl] Hl. eapply Forall_impl; [exact Sl|]. intros st. by apply request_ok_later. Qed.

Lemma abandoned_ok m G i g : registrar_ok m G i g -> Forall (request_ok m (born G)) (abandoned g).
Proof.
  intros Hg. unfold abandoned. destruct (storing g) as [st|] eqn:Hst; [|constructor].
  destruct (st_landed st); [constructor|]. constructor; [|constructor]. by apply (g_storing _ _ _ _ Hg).
Qed.

Lemma with_fetched_ok m G i g info v :
  registrar_ok m G i g -> fetching g = Fetch info -> entry_ok (born G) v ->
  (m !! REGISTRY = None -> e_value v = EmptyString) -> registrar_ok m G i (with_fetched v info g).
Proof.
  intros [] Hf Hv Hm. split; cbn; try done.
  - intros _. apply g_fetching0. congruence.
  - intros info' v' [= <- <-]. done.
Qed.

Lemma with_storing_ok m G i g st b :
  registrar_ok m G i g -> storing g = Some st ->
  (b = true -> (i, st_applied st) ∈ committed G /\ m !! REGISTRY <> None) ->
  registrar_ok m G i
    (with_storing (mkStoring (st_entry st) (st_version st) (st_base st) (st_updated st) (st_applied st) (Some b)) g).
Proof.
  intros [] Hst Hb. rewrite Hst in *. destruct (g_storing0 st eq_refl) as (Hr & Hreg & _). split; cbn; try done.
  - intros H%g_none0. by destruct H as (_ & ? & _).
  - intros H%g_idle0. by destruct H as [_ ?].
  - intros H%g_error0. by destruct H as [_ ?].
  - intros st' [= <-]. cbn. split_and!; [by destruct Hr|done|]. intros [= ->]. by apply Hb.
Qed.

(** What becomes of the stored registry. *)
Definition moves (m m' : gmap string Entry) : Prop :=
  m' = m \/ exists r ops, stored_registry m = Some r /\ stored_registry m' = Some (batch ops r).

Lemma ghost_same sys' e G : version e = None -> (forall i, e <> ELand i) -> ghost_step sys' e G = G.
Proof. intros Hv He. unfold ghost_step. rewrite Hv. destruct G, e; try done. by destruct (He i). Qed.

Lemma ghost_born sys' e G uuid :
  version e = Some uuid ->
  ghost_step sys' e G = born_with uuid (value_of (default new_registrar (registrars sys' !! node e))) G.
Proof. intros Hv. unfold ghost_step. rewrite Hv. by destruct e. Qed.

(** The case of an event with a new version. *)
Lemma sinv_put_born sys G e uuid g' l :
  sinv sys G -> version e = Some uuid -> fresh_event G e ->
  registrar_ok (mem sys) (born_with uuid (value_of g') G) (node e) g' ->
  Forall (request_ok (mem sys) (born G)) l ->
  sinv (mkSystem (mem sys) (<[node e := g']> (registrars sys)) l)
    (ghost_step (mkSystem (mem sys) (<[node e := g']> (registrars sys)) l) e G).
Proof.
  intros Hi Hv Hf Hg Hl. rewrite (ghost_born _ _ _ _ Hv). cbn. rewrite lookup_insert_eq. cbn.
  unfold fresh_event in Hf. rewrite Hv in Hf.
  assert (Hla : later (mem sys) G (mem sys) (born_with uuid (value_of g') G)) by by apply later_born.
  apply sinv_put with (G := G); [done..|]. eapply Forall_impl; [exact Hl|]. intros st. by apply request_ok_later.
Qed.

(** A request of a registrar reaches the storage. *)
Lemma land_ok sys G i st m' st' :
  sinv sys G -> storing (default new_registrar (registrars sys !! i)) = Some st -> land (mem sys) st = (m', st') ->
  let sys' := mkSystem m' (<[i := with_storing st' (default new_registrar (registrars sys !! i))]> (registrars sys)) (late sys) in
  sinv sys' (ghost_step sys' (ELand i) G) /\ moves (mem sys) m'.
Proof.
  intros Hi Hst Hl. pose proof Hi as [Sm Sr Sl]. cbn zeta.
  destruct (g_storing _ _ _ _ (Sr i) st Hst) as (Hreq & _ & _).
  assert (Hst' : exists b, st' = mkStoring (st_entry st) (st_version st) (st_base st) (st_updated st) (st_applied st) (Some b)).
  { unfold land in Hl. destruct (mem_set _ _ _) as [b m1]. injection Hl as _ <-. eauto. }
  destruct Hst' as [b ->]. unfold ghost_step. cbn. rewrite lookup_insert_eq. cbn.
  set (G' := mkGhost _ _).
  assert (Hsp := land_spec _ _ _ _ _ Sm Hreq Hl). cbn in Hsp.
  assert (HC : forall x, x ∈ committed G -> x ∈ committed G') by (unfold G'; cbn; destruct b; set_solver).
  assert (Hlat : later (mem sys) G m' G').
  { destruct (later_land _ G _ _ _ Hreq Hl) as (_ & _ & H). split_and!; [by destruct G|done|done]. }
  split.
  - split; cbn.
    + eapply land_mem_ok; [|exact Hreq|exact Hl]. exact Sm.
    + intros j. destruct (decide (j = i)) as [->|Hne].
      * rewrite lookup_insert_eq. cbn. apply with_storing_ok; [|done|].
        -- eapply registrar_ok_later; [exact Hlat|apply Sr].
        -- intros ->. split; [unfold G'; cbn; set_solver|]. destruct Hsp as [[[=] _]|(_ & -> & _)].
           by rewrite lookup_insert_eq.
      * rewrite lookup_insert_ne by done. eapply registrar_ok_later; [exact Hlat|apply Sr].
    + eapply Forall_impl; [exact Sl|]. intros x. by apply (request_ok_later (mem sys) G m' G').
  - destruct Hsp as [[_ ->]|(_ & _ & H1 & H2)]; [by left|right]. destruct (rq_batch _ _ _ Hreq) as [ops Hops].
    exists (st_base st), ops. by rewrite Hops.
Qed.

Lemma late_ok sys G k st :
  sinv sys G -> late sys !! k = Some st ->
  sinv (mkSystem (land (mem sys) st).1 (registrars sys) (delete k (late sys))) G
  /\ moves (mem sys) (land (mem sys) st).1.
Proof.
  intros [Sm Sr Sl] Hk. destruct (land (mem sys) st) as [m' st'] eqn:Hl. cbn.
  assert (Hreq : request_ok (mem sys) (born G) st) by (eapply Forall_lookup_1 in Sl; done).
  assert (Hlat := later_land _ _ _ _ _ Hreq Hl). split.
  - split; cbn.
    + by eapply land_mem_ok.
    + intros i. eapply registrar_ok_later; [exact Hlat|apply Sr].
    + apply Forall_delete. eapply Forall_impl; [exact Sl|]. intros x. by apply request_ok_later.
  - destruct (land_spec _ _ _ _ _ Sm Hreq Hl) as [[_ ->]|(_ & _ & H1 & H2)]; [by left|right].
    destruct (rq_batch _ _ _ Hreq) as [ops Hops].
    exists (st_base st), ops. by rewrite Hops.
Qed.

(** The variable that is fetched. *)
Lemma fetched_ok m G uuid :
  (forall e, m !! REGISTRY = Some e -> entry_ok (born G) e) -> born G !! uuid = None ->
  let v := fetched REGISTRY uuid (mem_get m REGISTRY) in
  entry_ok (born (born_with uuid (e_value v) G)) v /\ (m !! REGISTRY = None -> e_value v = EmptyString).
Proof.
  intros Sm Hf. unfold fetched, mem_get. destruct (m !! REGISTRY) as [e|].
  - split; [|done]. eapply entry_ok_later; [by apply (later_born m)|by apply Sm].
  - split; [|done]. split; [done|]. apply lookup_insert_eq.
Qed.

Lemma sinv_later sys G G' : sinv sys G -> later (mem sys) G (mem sys) G' -> sinv sys G'.
Proof.
  intros Hi Hl. pose proof Hi as [Sm Sr Sl]. split.
  - intros e He. eapply entry_ok_later; [exact Hl|by apply Sm].
  - intros i. eapply registrar_ok_later; [exact Hl|apply Sr].
  - by eapply late_later.
Qed.

Lemma registrar_step_ok sys G e :
  sinv sys G -> fresh_event G e ->
  exists sys', step sys e = Some sys' /\ sinv sys' (ghost_step sys' e G) /\ moves (mem sys) (mem sys').
Proof.
  intros Hi Hf. pose proof Hi as [Sm Sr Sl]. specialize (Sr (node e)). unfold step.
  set (g := default new_registrar (registrars sys !! node e)) in *.
  assert (Hnone : forall g' l, version e = None -> (forall i, e <> ELand i) ->
            registrar_ok (mem sys) G (node e) g' -> Forall (request_ok (mem sys) (born G)) l ->
            let sys' := mkSystem (mem sys) (<[node e := g']> (registrars sys)) l in
            exists s, Some sys' = Some s /\ sinv s (ghost_step s e G) /\ moves (mem sys) (mem s)).
  { intros g' l Hv He Hg Hl. eexists. split; [done|]. rewrite (ghost_same _ e G Hv He). split; [|by left].
    by eapply sinv_put; [|apply later_refl|..]. }
  assert (Hborn : forall uuid g' l, version e = Some uuid ->
            registrar_ok (mem sys) (born_with uuid (value_of g') G) (node e) g' ->
            Forall (request_ok (mem sys) (born G)) l ->
            let sys' := mkSystem (mem sys) (<[node e := g']> (registrars sys)) l in
            exists s, Some sys' = Some s /\ sinv s (ghost_step s e G) /\ moves (mem sys) (mem s)).
  { intros uuid g' l Hv Hg Hl. eexists. split; [done|]. split; [|by left]. by eapply sinv_put_born. }
  assert (Hstay : later (mem sys) G (mem sys) (ghost_step sys e G) ->
            exists s, Some sys = Some s /\ sinv s (ghost_step s e G) /\ moves (mem sys) (mem s)).
  { intros Hl. eexists. split; [done|]. split; [by eapply sinv_later|by left]. }
  unfold fresh_event in Hf.
  destruct e as [i|i info|i uuid|i id uuid ok|i|i id o|i uuid|i|i uuid ok|k]; cbn in Hf, g |- *.
  - apply (Hnone new_registrar); [done|done|apply new_registrar_ok|].
    apply Forall_app. split; [done|by eapply abandoned_ok].
  - by apply (Hnone (recover g info)); [done|done|apply recover_start_ok|].
  - destruct (fetching g) as [|info|info v] eqn:Hfe.
    1, 3: apply Hstay; rewrite (ghost_born _ _ _ uuid) by done; by apply later_born.
    destruct (fetched_ok (mem sys) G uuid Sm Hf) as [He Hm].
    apply (Hborn uuid); [done| |done]. apply with_fetched_ok; [|done|exact He|exact Hm].
    eapply registrar_ok_later; [by apply later_born|done].
  - destruct (recover__ok (mem sys) G i g id uuid ok Sr Hf) as (g' & -> & Hg'). by apply (Hborn uuid).
  - destruct (recover___ok (mem sys) G i g Sr) as (g' & -> & Hg'). by apply (Hnone g').
  - by apply (Hnone (apply g id o)); [done|done|apply apply_ok|].
  - destruct (apply__ok (mem sys) G i g uuid Sr Hf) as (g' & -> & Hg'). by apply (Hborn uuid).
  - assert (Hland : exists s, Some sys = Some s /\ sinv s (ghost_step s (ELand i) G) /\ moves (mem sys) (mem s)).
    { apply Hstay. split_and!; [by destruct G| |done]. unfold ghost_step. cbn. intros x Hx.
      destruct (storing _) as [st|]; [|done]. destruct (st_landed st) as [[]|]; set_solver. }
    destruct (storing g) as [st|] eqn:Hst; [|done]. destruct (st_landed st) as [b|]; [done|].
    destruct (land (mem sys) st) as [m' st'] eqn:Hl. eexists. split; [done|]. by apply (land_ok sys G i st).
  - destruct (update__ok (mem sys) G i g uuid ok Sr Hf) as (g' & -> & Hg'). apply (Hborn uuid); [done..|].
    apply Forall_app. split; [done|]. destruct ok; [constructor|by eapply abandoned_ok].
  - destruct (late sys !! k) as [st|] eqn:Hk.
    + eexists. split; [done|]. rewrite ghost_same by done. by apply late_ok.
    + apply Hstay. rewrite ghost_same by done. apply later_refl.
Qed.

Lemma registrar_initial_sinv : sinv initial (mkGhost ∅ []).
Proof. split; cbn; [by intros e He|intros i; apply new_registrar_ok|constructor]. Qed.

Lemma registrar_reachable_sinv sys G : reachable sys G -> sinv sys G.
Proof.
  induction 1 as [|sys G e sys' Hr IH Hf Hst]; [apply registrar_initial_sinv|].
  destruct (registrar_step_ok sys G e IH Hf) as (s & H1 & H2 & _). congruence.
Qed.

(** ** Theorems *)

(** C18. No update is lost: whatever the registrars of several masters do, whichever
    requests time out and are performed late, every change of the stored registry
    applies a batch of operations to the registry that was stored before. *)
Theorem registrar_no_lost_update sys G e sys' :
  reachable sys G -> fresh_event G e -> step sys e = Some sys' ->
  mem sys' = mem sys
  \/ exists r ops, stored_registry (mem sys) = Some r /\ stored_registry (mem sys') = Some (batch ops r).
Proof.
  intros Hr%registrar_reachable_sinv Hf Hst. destruct (registrar_step_ok sys G e Hr Hf) as (s & H1 & _ & H2).
  rewrite Hst in H1. by injection H1 as <-.
Qed.

(** No check of a registrar fails: recovery, operations, stores, their failures
    and timeouts can come in any order. *)
Theorem registrar_never_aborts sys G e :
  reachable sys G -> fresh_event G e -> is_Some (step sys e).
Proof. intros Hr%registrar_reachable_sinv Hf. by destruct (registrar_step_ok sys G e Hr Hf) as (s & -> & _). Qed.

(** C19. The result of an operation is only given once it is durable: the batch with
    this operation and this result was accepted by the storage. *)
Theorem results_are_durable sys G i g id b :
  reachable sys G -> registrars sys !! i = Some g -> promises g !! id = Some (FSet b) ->
  exists l, (i, l) ∈ committed G /\ (id, b) ∈ l.
Proof.
  intros Hr%registrar_reachable_sinv Hg Hp. assert (Hok := s_registrars _ _ Hr i). rewrite Hg in Hok. cbn in Hok.
  by apply (g_promises _ _ _ _ Hok).
Qed.

(** What a registrar has in memory is what is stored, as long as its version is
    the stored one. *)
Theorem registrar_view_current sys G i g v e :
  reachable sys G -> registrars sys !! i = Some g -> variable g = Some v ->
  mem sys !! REGISTRY = Some e -> e_uuid e = e_uuid v ->
  registry g = stored_registry (mem sys) /\ e = v.
Proof.
  intros Hr%registrar_reachable_sinv Hg Hv Hm Hu. assert (Hok := s_registrars _ _ Hr i). rewrite Hg in Hok. cbn in Hok.
  destruct (g_variable _ _ _ _ Hok v Hv) as ([Hn Hb] & (r & Hreg & Hd) & _).
  destruct (s_mem _ _ Hr e Hm) as [Hn' Hb']. rewrite Hu, Hb in Hb'. injection Hb' as Hval.
  unfold stored_registry. rewrite Hm, <- Hval, Hreg, Hd. split; [done|]. destruct e, v; cbn in *; congruence.
Qed.

(** C20. A registrar whose version was replaced by another master is fenced: its
    store is refused, it stops with an error, its operations fail, and what is
    stored stays. *)
Theorem stale_registrar_is_fenced sys G i g st e uuid :
  reachable sys G -> registrars sys !! i = Some g -> storing g = Some st -> st_landed st = None ->
  mem sys !! REGISTRY = Some e -> e_uuid e <> st_version st ->
  exists sys1 sys2 g2, step sys (ELand i) = Some sys1 /\ step sys1 (EStored i uuid true) = Some sys2
    /\ mem sys2 = mem sys /\ registrars sys2 !! i = Some g2
    /\ error g2 = true /\ operations g2 = [] /\ storing g2 = None
    /\ (forall id, id ∈ map fst (st_applied st) ++ map fst (operations g) -> promises g2 !! id = Some FFailed).
Proof.
  intros Hr%registrar_reachable_sinv Hg Hst Hl Hm Hne. assert (Hok := s_registrars _ _ Hr i). rewrite Hg in Hok. cbn in Hok.
  destruct (g_storing _ _ _ _ Hok st Hst) as ([[Hn _] _ _ _] & _ & _).
  unfold step. cbn. rewrite Hg. cbn. rewrite Hst, Hl. unfold land, mem_set. rewrite Hn, Hm, decide_False by done.
  do 3 eexists. split; [done|]. cbn. rewrite lookup_insert_eq. cbn. split; [done|].
  split; [done|]. cbn. rewrite lookup_insert_eq. split; [done|]. cbn. split_and!; [done..|].
  intros id Hin. induction (map fst (st_applied st) ++ map fst (operations g)) as [|x l IH]; [by apply elem_of_nil in Hin|].
  cbn. destruct (decide (id = x)) as [->|Hx]; [apply lookup_insert_eq|]. rewrite lookup_insert_ne by done. apply IH. set_solver.
Qed.


(** What every operation keeps, the stored registry keeps: from the empty
    registry on, through all batches of all masters. *)
Theorem stored_registry_invariant (P : R * A -> Prop) sys G r :
  (forall op x, P x -> P (perform op x).2) -> (forall info x, P x -> P (set_info info x.1, x.2)) ->
  (forall x, P x -> P (x.1, slaveIDs x.1)) ->
  (forall r0, deserialize EmptyString = Some r0 -> P (r0, slaveIDs r0)) ->
  reachable sys G -> stored_registry (mem sys) = Some r -> P (r, slaveIDs r).
Proof.
  intros Hop Hinfo Hids H0 Hr. revert r.
  assert (Hall : forall l x, P x -> P (apply_all l x).2).
  { induction l as [|[id o] l IH]; intros x Hx; [done|]. cbn.
    destruct (apply_one o x) as [b x1] eqn:Ha. specialize (IH x1). destruct (apply_all l x1) as [bs x2]. apply IH.
    destruct o as [info|op]; cbn in Ha; [injection Ha as _ <-; by apply Hinfo|]. specialize (Hop op x Hx). by rewrite Ha in Hop. }
  induction Hr as [|sys G e sys' Hr IH Hf Hst]; intros r Hs; [by apply H0|].
  destruct (registrar_step_ok sys G e (registrar_reachable_sinv _ _ Hr) Hf) as (s & H1 & _ & H2). rewrite Hst in H1. injection H1 as <-.
  destruct H2 as [Hm|(r0 & ops & Hs0 & Hs1)]; [rewrite Hm in Hs; by apply IH|].
  rewrite Hs in Hs1. injection Hs1 as ->. unfold batch. by apply Hids, Hall, IH.
Qed.
End Registrar.

(** ** Example: a counter as the registry *)

Definition count_perform (n : nat) (x : nat * ()) : bool * (nat * ()) :=
  if decide (100 < x.1 + n)%nat then (false, x) else (true, ((x.1 + n)%nat, x.2)).

Fixpoint unary (n : nat) : string := match n with O => EmptyString | S n' => String (Ascii.ascii_of_nat 120) (unary n') end.

Lemma unary_length n : String.length (unary n) = n.
Proof. induction n; cbn; congruence. Qed.

Definition count_serialize (n : nat) : option string := Some (unary n).
Definition count_deserialize (s : string) : option nat := Some (String.length s).

Lemma count_codec r s : count_serialize r = Some s -> count_deserialize s = Some r.
Proof. intros [= <-]. unfold count_deserialize. by rewrite unary_length. Qed.

Definition count_step := step (fun _ : nat => ()) count_perform (fun (_ : ()) n => n) count_serialize count_deserialize.
Definition count_reachable := reachable (fun _ : nat => ()) count_perform (fun (_ : ()) n => n) count_serialize count_deserialize.

Fixpoint count_run (sys : System) (G : Ghost) (es : list Event) : option (System * Ghost) :=
  match es with
  | [] => Some (sys, G)
  | e :: es' =>
      if match version e with Some uuid => bool_decide (born G !! uuid = None) | None => true end then
        sys' ← count_step sys e; count_run sys' (ghost_step sys' e G) es'
      else None
  end.

Lemma count_run_reachable es sys G sys' G' :
  count_reachable sys G -> count_run sys G es = Some (sys', G') -> count_reachable sys' G'.
Proof.
  revert sys G. induction es as [|e es IH]; intros sys G Hr Hrun; cbn in Hrun; [by injection Hrun as <- <-|].
  destruct (match version e with Some _ => _ | None => _ end) eqn:Hf; [|done].
  destruct (count_step sys e) as [s|] eqn:Hst; [|done]. cbn in Hrun. apply (IH s (ghost_step s e G)); [|done].
  apply reachable_step with (sys := sys); [done| |done]. unfold fresh_event. destruct (version e); [|done].
  by apply bool_decide_eq_true in Hf.
Qed.

(** The first master recovers, adds 5 and starts to add 2; a second master recovers
    in between. *)
Definition count_events : list (@Event nat ()) :=
  [ERecover 0 (); EFetch 0 "a"; EFetched 0 0 "b" true; ELand 0; EStored 0 "c" true; ERecovered 0;
   EApply 0 1 5; EOperate 0 "d"; ELand 0; EStored 0 "e" true;
   EApply 0 2 2; EOperate 0 "f";
   ERecover 1 (); EFetch 1 "g"; EFetched 1 0 "h" true; ELand 1]%nat.

Definition count_state : System * Ghost := default (initial, mkGhost ∅ []) (count_run initial (mkGhost ∅ []) count_events).

Lemma count_state_reachable : count_reachable count_state.1 count_state.2.
Proof.
  apply (count_run_reachable count_events initial (mkGhost ∅ [])); [constructor|]. vm_compute. reflexivity.
Qed.

Lemma registrar_no_lost_update_witness :
  exists sys', count_step count_state.1 (ELand 0) = Some sys'
    /\ (mem sys' = mem count_state.1
        \/ exists r ops, stored_registry count_deserialize (mem count_state.1) = Some r
            /\ stored_registry count_deserialize (mem sys')
               = Some (batch (fun _ : nat => ()) count_perform (fun (_ : ()) n => n) ops r)).
Proof.
  destruct (count_step count_state.1 (ELand 0)) as [sys'|] eqn:Hst; [|vm_compute in Hst; discriminate].
  exists sys'. split; [reflexivity|].
  apply (registrar_no_lost_update (fun _ : nat => ()) count_perform (fun (_ : ()) n => n) count_serialize count_deserialize count_codec
           count_state.1 count_state.2 (ELand 0) sys'); [exact count_state_reachable|exact I|exact Hst].
Defined.

Lemma registrar_never_aborts_witness : is_Some (count_step count_state.1 (EStored 1 "i" false)).
Proof.
  apply (registrar_never_aborts (fun _ : nat => ()) count_perform (fun (_ : ()) n => n) count_serialize count_deserialize count_codec
           count_state.1 count_state.2); [exact count_state_reachable|vm_compute; reflexivity].
Defined.

Definition count_registrar (i : nat) : Registrar := default new_registrar (registrars count_state.1 !! i).

Lemma results_are_durable_witness :
  exists l, (0%nat, l) ∈ committed count_state.2 /\ (1%nat, true) ∈ l.
Proof.
  apply (results_are_durable (fun _ : nat => ()) count_perform (fun (_ : ()) n => n) count_serialize count_deserialize count_codec
           count_state.1 count_state.2 0 (count_registrar 0));
    [exact count_state_reachable|vm_compute; reflexivity..].
Defined.

Lemma registrar_view_current_witness :
  exists sys G g, count_run count_state.1 count_state.2 [EStored 1 "i" true] = Some (sys, G)
    /\ registrars sys !! 1%nat = Some g /\ registry g = Some 5%nat
    /\ registry g = stored_registry count_deserialize (mem sys).
Proof.
  do 3 eexists. split; [vm_compute; reflexivity|]. split; [vm_compute; reflexivity|]. split; [vm_compute; reflexivity|].
  eapply (registrar_view_current (fun _ : nat => ()) count_perform (fun (_ : ()) n => n) count_serialize count_deserialize count_codec _ _ 1);
    [|vm_compute; reflexivity..].
  apply (count_run_reachable [EStored 1 "i" true] count_state.1 count_state.2); [exact count_state_reachable|].
  vm_compute. reflexivity.
Defined.

Lemma stale_registrar_is_fenced_witness :
  exists sys1 sys2 g2, count_step count_state.1 (ELand 0) = Some sys1
    /\ count_step sys1 (EStored 0 "i" true) = Some sys2
    /\ registrars sys2 !! 0%nat = Some g2 /\ error g2 = true /\ promises g2 !! 2%nat = Some FFailed.
Proof.
  destruct (storing (count_registrar 0)) as [st|] eqn:Hst; [|vm_compute in Hst; discriminate].
  destruct (stale_registrar_is_fenced (fun _ : nat => ()) count_perform (fun (_ : ()) n => n) count_serialize count_deserialize count_codec
              count_state.1 count_state.2 0 (count_registrar 0) st (mkEntry "registry" "h" "xxxxx") "i")
    as (s1 & s2 & g2 & H1 & H2 & _ & H3 & H4 & _ & _ & H5);
    [exact count_state_reachable|vm_compute; reflexivity|exact Hst|..].
  - vm_compute in Hst. injection Hst as <-. reflexivity.
  - vm_compute. reflexivity.
  - vm_compute in Hst. injection Hst as <-. discriminate.
  - exists s1, s2, g2. split; [exact H1|]. split; [exact H2|]. split; [exact H3|]. split; [exact H4|]. apply H5.
    vm_compute in Hst. injection Hst as <-. vm_compute. left.
Defined.

Lemma stored_registry_invariant_witness :
  stored_registry count_deserialize (mem count_state.1) = Some 5%nat /\ (5 <= 100)%nat.
Proof.
  assert (H : stored_registry count_deserialize (mem count_state.1) = Some 5%nat) by (vm_compute; reflexivity).
  split; [exact H|].
  apply (stored_registry_invariant (fun _ : nat => ()) count_perform (fun (_ : ()) n => n) count_serialize
            count_deserialize count_codec (fun x => x.1 <= 100)%nat count_state.1 count_state.2 5%nat);
    [|intros _ x Hx; exact Hx|intros x Hx; exact Hx|intros r0 [= <-]; cbn; lia|exact count_state_reachable|exact H].
  intros op x Hx. unfold count_perform. case_decide; cbn; lia.
Defined.
