(* ===== verification/Quota.v ===== *)
(** * Quota and weights

    [src/src/master/quota.cpp] and [src/src/master/weights.cpp]: what a quota
    is, when a configuration of it is valid, and the registry operations that
    store quotas and weights; the tree of roles with quota of
    [src/src/master/quota_handler.cpp]; the recovery of both from the registry
    ([Master::_recover] of [src/src/master/master.cpp]).

    The registry keeps quotas in two lists: [quota_configs], and [quotas] with
    the entries that versions before 1.9 wrote.  [QuotaRegistry] is the part of
    the registry message with these two, the weights and the minimum
    capabilities. *)

From stdpp Require Import base gmap strings list.
From Stdlib Require Import ZArith QArith Lqa.
From S2P Require Import Prelude Strings Ranges Scalar Values Quantities Roles Registry Resource Resources ResourceOps.
Local Open Scope Z_scope.

(** ** Data *)

(** A [double] that a request may carry: [std::fpclassify] tells the
    infinities, NaN and the subnormal numbers apart from the rest. *)
Inductive input_double :=
  | Infinite (negative : bool)
  | NotANumber
  | Subnormal (x : double)
  | Finite (x : double).

(** [value > bound] and [value <= 0]; NaN is neither. *)
Definition exceeds (v : input_double) (bound : Z) : bool :=
  match v with
  | Infinite negative => negb negative
  | NotANumber => false
  | Subnormal x | Finite x => negb (Qle_bool x (inject_Z bound))
  end.

Definition not_positive (v : input_double) : bool :=
  match v with
  | Infinite negative => negative
  | NotANumber => false
  | Subnormal x | Finite x => Qle_bool x 0
  end.

(** [left != right]. *)
Definition differs (l r : input_double) : bool :=
  match l, r with
  | Infinite n, Infinite n' => negb (Bool.eqb n n')
  | Subnormal x, Subnormal y | Subnormal x, Finite y | Finite x, Subnormal y | Finite x, Finite y =>
      negb (Qeq_bool x y)
  | _, _ => true
  end.

(** A protobuf map, as its entries in the order of iteration. *)
Abbreviation scalar_map := (list (string * input_double)).

Record QuotaConfig := mkConfig {
  qc_role : option string;
  guarantees : scalar_map;
  limits : scalar_map;
}.

Definition config_role (c : QuotaConfig) : string := default EmptyString (qc_role c).

Record QuotaInfo := mkInfo {
  qi_role : option string;
  qi_principal : option string;
  guarantee : list Resource;
}.

Definition info_role (i : QuotaInfo) : string := default EmptyString (qi_role i).

Record Quota := mkQuota { q_guarantees : entries; q_limits : entries }.

#[export] Instance Quota_eq_dec : EqDecision Quota.
Proof. solve_decision. Defined.

Definition DEFAULT_QUOTA : Quota := mkQuota [] [].

(** [Quota::operator==]: scalars are compared in thousandths, which is what
    the vectors hold here. *)
Definition quota_eqb (a b : Quota) : bool :=
  bool_decide (q_guarantees a = q_guarantees b) && bool_decide (q_limits a = q_limits b).

Record WeightInfo := mkWeight { w_weight : input_double; wi_role : option string }.

Definition weight_role (w : WeightInfo) : string := default EmptyString (wi_role w).

Record QuotaRegistry := mkQuotaRegistry {
  quotas : list QuotaInfo;
  quota_configs : list QuotaConfig;
  weights : list WeightInfo;
  capabilities : list string;
}.

(** ** Construction

    [None] is a failed [CHECK_GE(scalar, 0)], or the conversion of an infinity
    or NaN to an integer, which has no defined result. *)

Definition fixed (v : input_double) : option Z :=
  match v with
  | Subnormal x | Finite x => Some (convertToFixed x)
  | Infinite _ | NotANumber => None
  end.

Fixpoint fixed_map (m : scalar_map) : option entries :=
  match m with
  | [] => Some []
  | (n, v) :: m' => z ← fixed v; rest ← fixed_map m'; Some ((n, z) :: rest)
  end.

Definition limits_of_map (l : entries) : entries := fold_left (fun acc e => limits_set acc e.1 e.2) l [].

Definition quantities_of (m : scalar_map) : option entries := fixed_map m ≫= of_map.
Definition limits_of (m : scalar_map) : option entries := limits_of_map <$> fixed_map m.

(** [Quota(const QuotaConfig&)]. *)
Definition Quota_of_config (c : QuotaConfig) : option Quota :=
  g ← quantities_of (guarantees c); l ← limits_of (limits c); Some (mkQuota g l).

(** [ResourceQuantities::fromScalarResources]: [None] for a resource that is
    not a scalar. *)
Fixpoint add_scalars (q : entries) (l : list Resource) : option entries :=
  match l with
  | [] => Some q
  | r :: l' =>
      match value r with
      | VScalar z => q' ← Quantities.add q (name r) z; add_scalars q' l'
      | _ => None
      end
  end.

Definition fromScalarResources (rs : Resources) : option entries := add_scalars [] (to_list rs).

(** [Quota(const QuotaInfo&)] and [Quota(const QuotaRequest&)]: the guarantees
    pass through a collection of resources; the limits are a map of the
    scalars by name. *)
Definition guarantee_map (l : list Resource) : gmap string Z :=
  fold_left (fun m r => <[name r := scalar_of (value r)]> m) l ∅.

Definition Quota_of_guarantee (l : list Resource) : option Quota :=
  g ← fromScalarResources (of_list l);
  Some (mkQuota g (limits_of_map (map_to_list (guarantee_map l)))).

Definition Quota_of_info (i : QuotaInfo) : option Quota := Quota_of_guarantee (guarantee i).

(** ** Validation *)

Inductive quota_error :=
  | RoleUnset
  | RoleInvalid (e : role_error)
  | EmptyGuarantee
  | HasReservation
  | HasDisk
  | HasRevocable
  | NonScalar
  | DuplicateResource
  | TooLarge (guarantees : bool)
  | InvalidScalar (guarantees : bool)
  | GuaranteesExceedLimits
  | QuotaAbort.

(** [validation::quotaInfo]. *)
Fixpoint validate_guarantee (l : list Resource) (seen : gset string) : option quota_error :=
  match l with
  | [] => None
  | r :: l' =>
      if (0 <? length (reservations r))%nat then Some HasReservation
      else if bool_decide (is_Some (disk r)) then Some HasDisk
      else if revocable r then Some HasRevocable
      else if negb (bool_decide (rtype r = SCALAR)) then Some NonScalar
      else if decide (name r ∈ seen) then Some DuplicateResource
      else validate_guarantee l' ({[name r]} ∪ seen)
  end.

Definition validate_quotaInfo (i : QuotaInfo) : option quota_error :=
  match qi_role i with
  | None => Some RoleUnset
  | Some role =>
      match Roles.validate role with
      | Some e => Some (RoleInvalid e)
      | None =>
          match guarantee i with
          | [] => Some EmptyGuarantee
          | l => validate_guarantee l ∅
          end
      end
  end.

Definition exabyteInMegabytes : Z := 1024 * 1024 * 1024 * 1024.
Definition otherLimit : Z := 1000 * 1000 * 1000 * 1000.

Definition maximum (n : string) : Z :=
  if bool_decide (n = "mem"%string) || bool_decide (n = "disk"%string)
  then exabyteInMegabytes else otherLimit.

(** The lambda [validateTooLarge]: whether some value is too large. *)
Definition validateTooLarge (m : scalar_map) : bool :=
  existsb (fun e => exceeds e.2 (maximum e.1)) m.

(** [common::validation::validateInputScalarValue]: whether it is an error. *)
Definition validateInputScalarValue (v : input_double) : bool :=
  match v with
  | Infinite _ | NotANumber | Subnormal _ => true
  | Finite x => negb (Qle_bool 0 x)
  end.

(** [quota::validate(const QuotaConfig&)]. *)
Definition validate_config (c : QuotaConfig) : option quota_error :=
  match qc_role c with
  | None => Some RoleUnset
  | Some role =>
      match Roles.validate role with
      | Some e => Some (RoleInvalid e)
      | None =>
          if validateTooLarge (guarantees c) then Some (TooLarge true)
          else if validateTooLarge (limits c) then Some (TooLarge false)
          else if existsb (fun e => validateInputScalarValue e.2) (guarantees c) then Some (InvalidScalar true)
          else if existsb (fun e => validateInputScalarValue e.2) (limits c) then Some (InvalidScalar false)
          else match limits_of (limits c), quantities_of (guarantees c) with
               | Some l, Some g => if limits_contains_quantities l g then None else Some GuaranteesExceedLimits
               | _, _ => Some QuotaAbort
               end
      end
  end.

(** ** Registry operations *)

Definition QUOTA_V2 : string := "QUOTA_V2".

Fixpoint validate_configs (l : list QuotaConfig) : option quota_error :=
  match l with
  | [] => None
  | c :: l' => match validate_config c with Some e => Some e | None => validate_configs l' end
  end.

(** The lambdas that [std::find_if] is called with. *)
Definition has_key {A : Type} (key : A -> string) (k : string) (x : A) : bool := bool_decide (key x = k).

Definition erase_first {A : Type} (p : A -> bool) (l : list A) : list A :=
  match remove_first p l with Some (_, l') => l' | None => l end.

Definition replace_first {A : Type} (p : A -> bool) (x : A) (l : list A) : list A :=
  match update_first p (fun _ => x) l with Some l' => l' | None => l ++ [x] end.

(** One round of the loop of [UpdateQuota::perform]. *)
Definition store_config (config : QuotaConfig) (r : QuotaRegistry) : option QuotaRegistry :=
  q ← Quota_of_config config;
  let role := config_role config in
  let configs :=
    if quota_eqb q DEFAULT_QUOTA then erase_first (has_key config_role role) (quota_configs r)
    else replace_first (has_key config_role role) config (quota_configs r) in
  Some (mkQuotaRegistry (erase_first (has_key info_role role) (quotas r)) configs (weights r) (capabilities r)).

Fixpoint store_configs (configs : list QuotaConfig) (r : QuotaRegistry) : option QuotaRegistry :=
  match configs with
  | [] => Some r
  | c :: rest => r' ← store_config c r; store_configs rest r'
  end.

(** [UpdateQuota::perform]; the result says whether the registry changed. *)
Definition UpdateQuota (configs : list QuotaConfig) (r : QuotaRegistry)
  : result quota_error (bool * QuotaRegistry) :=
  match validate_configs configs with
  | Some e => Err e
  | None =>
      match store_configs configs r with
      | None => Err QuotaAbort
      | Some r' =>
          let caps :=
            if decide (quota_configs r' = []) then removeMinimumCapability QUOTA_V2 (capabilities r')
            else addMinimumCapability QUOTA_V2 (capabilities r') in
          Ok (true, mkQuotaRegistry (quotas r') (quota_configs r') (weights r') caps)
      end
  end.

(** One round of [UpdateWeights::perform] looks for the first entry of the
    role. *)
Fixpoint update_weight (info : WeightInfo) (l : list WeightInfo) : option (bool * list WeightInfo) :=
  match l with
  | [] => None
  | w :: l' =>
      if bool_decide (weight_role w = weight_role info) then
        if differs (w_weight w) (w_weight info) then Some (true, info :: l') else Some (false, w :: l')
      else '(mutated, l'') ← update_weight info l'; Some (mutated, w :: l'')
  end.

Definition store_weight (info : WeightInfo) (l : list WeightInfo) : bool * list WeightInfo :=
  match update_weight info l with
  | Some (mutated, l') => (mutated, l')
  | None => (true, l ++ [info])
  end.

Fixpoint store_weights (infos l : list WeightInfo) (mutated : bool) : bool * list WeightInfo :=
  match infos with
  | [] => (mutated, l)
  | info :: rest => let '(m, l') := store_weight info l in store_weights rest l' (mutated || m)
  end.

(** [UpdateWeights::perform]. *)
Definition UpdateWeights (infos : list WeightInfo) (r : QuotaRegistry) : bool * QuotaRegistry :=
  match infos with
  | [] => (false, r)
  | _ =>
      let '(mutated, l) := store_weights infos (weights r) false in
      (mutated, mkQuotaRegistry (quotas r) (quota_configs r) l (capabilities r))
  end.

(** ** Recovery ([Master::_recover])

    [None] is a failed [CHECK_NOT_CONTAINS]. *)

Fixpoint recover_infos (l : list QuotaInfo) (m : gmap string Quota) : option (gmap string Quota) :=
  match l with
  | [] => Some m
  | i :: l' => q ← Quota_of_info i; recover_infos l' (<[info_role i := q]> m)
  end.

Fixpoint recover_configs (l : list QuotaConfig) (m : gmap string Quota) : option (gmap string Quota) :=
  match l with
  | [] => Some m
  | c :: l' =>
      if decide (is_Some (m !! config_role c)) then None
      else q ← Quota_of_config c; recover_configs l' (<[config_role c := q]> m)
  end.

Definition recover_quotas (r : QuotaRegistry) : option (gmap string Quota) :=
  recover_infos (quotas r) ∅ ≫= recover_configs (quota_configs r).

(** ** Lists as maps

    The repeated fields are searched by a key; with different keys they are
    maps, and the searches are lookup, insertion and deletion. *)

Section Keyed.
Context {A : Type} (key : A -> string).
Implicit Types (l : list A) (k : string).

Definition lookup_key k l : option A := List.find (has_key key k) l.
Arguments lookup_key : simpl never.

Lemma lookup_key_cons k x l : lookup_key k (x :: l) = if decide (key x = k) then Some x else lookup_key k l.
Proof. unfold lookup_key, has_key. cbn. by do 2 case_decide; try case_bool_decide. Qed.

Lemma lookup_key_none k l : lookup_key k l = None <-> k ∉ map key l.
Proof.
  induction l as [|x l IH]; [by cbn; split; [set_solver|]|].
  rewrite lookup_key_cons. cbn. rewrite elem_of_cons. case_decide; naive_solver.
Qed.

Lemma lookup_key_elem k l x : lookup_key k l = Some x -> x ∈ l /\ key x = k.
Proof.
  induction l as [|y l IH]; [done|]. rewrite lookup_key_cons. case_decide as E.
  - intros [= ->]. split; [by left|done].
  - intros [? ?]%IH. split; [by right|done].
Qed.

Lemma erase_first_perm k l x :
  lookup_key k l = Some x -> l ≡ₚ x :: erase_first (has_key key k) l.
Proof.
  unfold lookup_key, erase_first. induction l as [|y l IH]; cbn; [done|].
  destruct (has_key key k y); [by intros [= ->]|]. intros H. specialize (IH H).
  destruct (remove_first (has_key key k) l) as [[z l']|].
  - rewrite IH. apply Permutation_swap.
  - rewrite IH at 1. apply Permutation_swap.
Qed.

Lemma erase_first_none k l : lookup_key k l = None -> erase_first (has_key key k) l = l.
Proof.
  unfold lookup_key, erase_first. intros H. destruct (remove_first (has_key key k) l) as [[y l']|] eqn:E; [|done].
  apply remove_first_spec in E as (Hp & Hl & _).
  assert (Hy : y ∈ l) by (rewrite Hl; by left). by rewrite (find_none _ _ H y) in Hp; [|apply list_elem_of_In].
Qed.

Lemma erase_first_sublist k l : sublist (erase_first (has_key key k) l) l.
Proof.
  unfold erase_first. destruct (remove_first _ _) as [[y l']|] eqn:E; [|done].
  by apply remove_first_spec in E as (_ & _ & ?).
Qed.

Lemma lookup_erase_first k k' l :
  NoDup (map key l) ->
  lookup_key k' (erase_first (has_key key k) l) = if decide (k' = k) then None else lookup_key k' l.
Proof.
  unfold erase_first. induction l as [|x l IH]; cbn; [by case_decide|]. intros [Hx Hl]%NoDup_cons.
  destruct (has_key key k x) eqn:Ex; unfold has_key in Ex; breflect.
  - rewrite lookup_key_cons. destruct (decide (k' = k)) as [->|Hne]; [|by rewrite decide_False by congruence].
    apply lookup_key_none. congruence.
  - specialize (IH Hl). destruct (remove_first (has_key key k) l) as [[y l']|]; rewrite !lookup_key_cons, IH.
    all: destruct (decide (k' = k)) as [->|]; [by rewrite decide_False by done|done].
Qed.

Lemma replace_first_keys k x l :
  key x = k ->
  map key (replace_first (has_key key k) x l) = if decide (k ∈ map key l) then map key l else map key l ++ [k].
Proof.
  intros Hx. unfold replace_first. destruct (update_first _ _ l) as [l'|] eqn:E.
  - assert (Hin : k ∈ map key l).
    { clear Hx. revert l' E. induction l as [|y l IH]; intros l' E; [done|]. cbn in *.
      destruct (has_key key k y) eqn:Ey; unfold has_key in Ey; breflect; [subst; by left|].
      destruct (update_first _ _ l); [|done]. right. by eapply IH. }
    rewrite decide_True by done. eapply update_first_map; [|exact E].
    intros y Hy. unfold has_key in Hy. breflect. by rewrite Hy.
  - assert (Hn : k ∉ map key l).
    { clear Hx. induction l as [|y l IH]; [set_solver|]. cbn in *. rewrite elem_of_cons.
      destruct (has_key key k y) eqn:Ey; [done|]. unfold has_key in Ey. breflect.
      destruct (update_first _ _ l); [done|]. naive_solver. }
    rewrite decide_False by done. rewrite map_app. cbn. by rewrite Hx.
Qed.

Lemma lookup_replace_first k k' x l :
  key x = k ->
  lookup_key k' (replace_first (has_key key k) x l) = if decide (k' = k) then Some x else lookup_key k' l.
Proof.
  intros Hx. unfold replace_first. induction l as [|y l IH]; cbn.
  - rewrite lookup_key_cons. rewrite Hx. by do 2 case_decide.
  - destruct (has_key key k y) eqn:Ey; unfold has_key in Ey; breflect.
    + rewrite !lookup_key_cons, Hx, Ey. by do 2 case_decide.
    + destruct (update_first _ _ l); cbn; rewrite !lookup_key_cons, IH.
      all: destruct (decide (k' = k)) as [->|]; [by rewrite decide_False by done|done].
Qed.

Lemma replace_first_elem k x y l : y ∈ replace_first (has_key key k) x l -> y = x \/ y ∈ l.
Proof.
  unfold replace_first. destruct (update_first _ _ l) as [l'|] eqn:E; [|set_solver].
  revert l' E. induction l as [|z l IH]; intros l' E; [done|]. cbn in E.
  destruct (has_key key k z); [injection E as <-; set_solver|].
  destruct (update_first _ _ l); [|done]. injection E as <-. set_solver.
Qed.
End Keyed.
Arguments lookup_key : simpl never.

(** ** Valid configurations *)

Definition valid_value (n : string) (v : input_double) : Prop :=
  exists x, v = Finite x /\ (0 <= x <= inject_Z (maximum n))%Q.

Lemma maximum_bounds n : 1 <= maximum n <= 2 ^ 40.
Proof. unfold maximum, exabyteInMegabytes, otherLimit. case_match; lia. Qed.

(** Rounding keeps a valid value between zero and its maximum. *)
Lemma convertToFixed_bounds x b :
  1 <= b <= 2 ^ 40 -> (0 <= x <= inject_Z b)%Q -> 0 <= convertToFixed x <= 1000 * b.
Proof.
  intros Hb Hx. unfold convertToFixed, fmul.
  assert (Hp : (- inject_Z (1000 * b) <= x * inject_Z 1000 <= inject_Z (1000 * b))%Q).
  { rewrite inject_Z_mult. change (inject_Z 1000) with (1000 # 1)%Q. lra. }
  pose proof (rnd_bounds _ _ Hp) as Hr. set (y := rnd (x * inject_Z 1000)) in *.
  assert (Hb' : (inject_Z (1000 * b) <= inject_Z (1000 * 2 ^ 40))%Q) by (rewrite <- Zle_Qle; lia).
  change (inject_Z (1000 * 2 ^ 40)) with (1099511627776000 # 1)%Q in Hb'.
  assert (Hy : (- (1 # 4) <= y <= inject_Z (1000 * b) + (1 # 4))%Q).
  { rewrite inject_Z_mult in *. change (inject_Z 1000) with (1000 # 1)%Q in *. lra. }
  clear - Hy Hb. destruct y as [n d]. unfold llround, Qle, Qplus, Qopp, inject_Z in *. cbn [Qnum Qden] in *.
  rewrite ?Pos2Z.inj_mul in *. destruct Hy as [H1 H2].
  destruct (0 <=? n) eqn:E; breflect.
  - split; [apply Z.div_pos; lia|]. apply Z.lt_succ_r, Z.div_lt_upper_bound; nia.
  - enough ((- 2 * n + Z.pos d) / (2 * Z.pos d) = 0) by lia. apply Z.div_small. nia.
Qed.

Lemma valid_map m :
  validateTooLarge m = false -> existsb (fun e => validateInputScalarValue e.2) m = false ->
  Forall (fun e => valid_value e.1 e.2) m.
Proof.
  unfold validateTooLarge. induction m as [|[n v] m IH]; cbn; [by constructor|].
  intros H1 H2. apply orb_false_iff in H1 as [Hl Hm], H2 as [Hv Hr]. constructor; [|by apply IH]. cbn.
  destruct v as [| | |x]; try done. cbn in *. breflect. exists x. split; [done|].
  by apply Qle_bool_iff in Hl; apply Qle_bool_iff in Hv.
Qed.

Lemma fixed_map_valid m :
  Forall (fun e => valid_value e.1 e.2) m ->
  exists l, fixed_map m = Some l /\ map fst l = map fst m /\ Forall (fun e => 0 <= e.2 <= 1000 * maximum e.1) l.
Proof.
  induction 1 as [|[n v] m (x & Hv & Hx) Hm (l & Hl & Hn & Hf)]; [by exists []|]. cbn in Hv, Hx. subst v.
  exists ((n, convertToFixed x) :: l). cbn. rewrite Hl. cbn. split_and!; [done|by rewrite Hn|].
  constructor; [|done]. cbn. apply convertToFixed_bounds; [apply maximum_bounds|done].
Qed.

Lemma add_all_total q l :
  wf_quantities q -> Forall (fun e => 0 <= e.2) l -> exists q', add_all q l = Some q' /\ wf_quantities q'.
Proof.
  intros Hq Hl. revert q Hq. induction Hl as [|[n v] l Hv Hl IH]; intros q Hq; [by exists q|]. cbn in *.
  destruct (Quantities.add q n v) as [q'|] eqn:E; [by apply IH; eapply Quantities.wf_add|].
  unfold Quantities.add in E. destruct (v <? 0) eqn:Ev; breflect; [lia|]. by destruct (v =? 0).
Qed.

Lemma quantities_of_valid m :
  Forall (fun e => valid_value e.1 e.2) m -> exists q, quantities_of m = Some q /\ wf_quantities q.
Proof.
  intros (l & Hl & _ & Hf)%fixed_map_valid. unfold quantities_of. rewrite Hl. cbn.
  apply add_all_total; [by split; constructor|]. eapply Forall_impl; [exact Hf|]. cbn. lia.
Qed.

Lemma limits_of_valid m :
  Forall (fun e => valid_value e.1 e.2) m -> exists l, limits_of m = Some l.
Proof. intros (l & Hl & _ & Hf)%fixed_map_valid. unfold limits_of. rewrite Hl. by eexists. Qed.

(** [validate_config] accepts exactly the configurations with a valid role,
    values in range and guarantees within the limits; it never aborts. *)
Lemma validate_config_none c :
  validate_config c = None <->
  (exists role, qc_role c = Some role /\ Roles.validate role = None)
  /\ Forall (fun e => valid_value e.1 e.2) (guarantees c)
  /\ Forall (fun e => valid_value e.1 e.2) (limits c)
  /\ exists g l, quantities_of (guarantees c) = Some g /\ limits_of (limits c) = Some l
       /\ limits_contains_quantities l g = true.
Proof.
  assert (Hback : forall m, Forall (fun e => valid_value e.1 e.2) m ->
            validateTooLarge m = false /\ existsb (fun e => validateInputScalarValue e.2) m = false).
  { unfold validateTooLarge. induction 1 as [|[n v] m (x & Hv & H0 & H2) Hm [IH1 IH2]]; [done|].
    cbn in *. subst v. cbn. apply Qle_bool_iff in H0, H2. by rewrite H0, H2, IH1, IH2. }
  unfold validate_config. destruct (qc_role c) as [role|]; [|naive_solver].
  destruct (Roles.validate role) eqn:Er; [naive_solver|]. split.
  - repeat (case_match; try done). intros _.
    split_and!; [by eexists|by apply valid_map|by apply valid_map|by eexists _, _].
  - intros (_ & [-> ->]%Hback & [-> ->]%Hback & g & l & -> & -> & ->). done.
Qed.

Lemma validate_config_quota c :
  validate_config c = None ->
  exists g l, Quota_of_config c = Some (mkQuota g l) /\ wf_quantities g /\ limits_contains_quantities l g = true.
Proof.
  intros (_ & Hg & _ & g & l & Eg & El & Hc)%validate_config_none. exists g, l. unfold Quota_of_config.
  rewrite Eg, El. split_and!; [done| |done]. destruct (quantities_of_valid _ Hg) as (g' & Eg' & Hw).
  congruence.
Qed.

Lemma validate_config_no_abort c : validate_config c <> Some QuotaAbort.
Proof.
  unfold validate_config. repeat (case_match; try done).
  all: exfalso.
  all: destruct (quantities_of_valid (guarantees c)) as (? & ? & _); [by apply valid_map|].
  all: destruct (limits_of_valid (limits c)) as (? & ?); [by apply valid_map|congruence].
Qed.

(** ** The registry as a map from roles to quotas *)

Record wf_lists (r : QuotaRegistry) : Prop := {
  wf_roles : NoDup (map info_role (quotas r) ++ map config_role (quota_configs r));
  wf_configs : Forall (fun c => validate_config c = None /\ Quota_of_config c <> Some DEFAULT_QUOTA) (quota_configs r);
  wf_infos : Forall (fun i => is_Some (Quota_of_info i)) (quotas r);
}.

Record wf_quota_registry (r : QuotaRegistry) : Prop := {
  wf_quota_lists : wf_lists r;
  wf_capabilities : NoDup (capabilities r);
  wf_quota_v2 : QUOTA_V2 ∈ capabilities r <-> quota_configs r <> [];
}.

(** The quota that is stored for a role. *)
Definition stored_quota (r : QuotaRegistry) (role : string) : option Quota :=
  match lookup_key config_role role (quota_configs r) with
  | Some c => Quota_of_config c
  | None => lookup_key info_role role (quotas r) ≫= Quota_of_info
  end.

Lemma recover_infos_spec l m :
  NoDup (map info_role l) -> Forall (fun i => is_Some (Quota_of_info i)) l ->
  exists m', recover_infos l m = Some m' /\
    forall role, m' !! role = match lookup_key info_role role l with Some i => Quota_of_info i | None => m !! role end.
Proof.
  revert m. induction l as [|i l IH]; intros m Hn Hf; cbn; [by exists m|].
  apply NoDup_cons in Hn as [Hi Hn]. apply Forall_cons in Hf as [[q Hq] Hf]. rewrite Hq. cbn.
  destruct (IH (<[info_role i := q]> m) Hn Hf) as (m' & -> & Hm). exists m'. split; [done|].
  intros role. rewrite Hm, lookup_key_cons. case_decide as E.
  - subst role. apply lookup_key_none in Hi. by rewrite Hi, lookup_insert_eq.
  - destruct (lookup_key _ _ _); [done|]. by rewrite lookup_insert_ne.
Qed.

Lemma recover_configs_spec l m :
  NoDup (map config_role l) -> Forall (fun c => is_Some (Quota_of_config c)) l ->
  (forall c, c ∈ l -> m !! config_role c = None) ->
  exists m', recover_configs l m = Some m' /\
    forall role, m' !! role = match lookup_key config_role role l with Some c => Quota_of_config c | None => m !! role end.
Proof.
  revert m. induction l as [|c l IH]; intros m Hn Hf Hm; cbn; [by exists m|].
  apply NoDup_cons in Hn as [Hi Hn]. apply Forall_cons in Hf as [[q Hq] Hf].
  rewrite decide_False by (rewrite (Hm c) by (by left); by intros []). rewrite Hq. cbn.
  destruct (IH (<[config_role c := q]> m) Hn Hf) as (m' & -> & Hm').
  { intros c' Hc'. rewrite lookup_insert_ne; [apply Hm; by right|].
    intros E. apply Hi. rewrite E. by apply list_elem_of_fmap_2. }
  exists m'. split; [done|]. intros role. rewrite Hm', lookup_key_cons. case_decide as E.
  - subst role. apply lookup_key_none in Hi. by rewrite Hi, lookup_insert_eq.
  - destruct (lookup_key _ _ _); [done|]. by rewrite lookup_insert_ne.
Qed.

(** Recovering a well-formed registry does not abort and gives every role its
    stored quota. *)
Lemma recover_quotas_spec r :
  wf_lists r ->
  exists m, recover_quotas r = Some m /\ forall role, m !! role = stored_quota r role.
Proof.
  intros [Hn Hc Hi]. apply NoDup_app in Hn as (Hn1 & Hd & Hn2). unfold recover_quotas, stored_quota.
  destruct (recover_infos_spec (quotas r) ∅ Hn1 Hi) as (m & -> & Hm). cbn.
  destruct (recover_configs_spec (quota_configs r) m Hn2) as (m' & -> & Hm').
  - eapply Forall_impl; [exact Hc|]. cbn. intros c [Hv _].
    apply validate_config_quota in Hv as (g & l & -> & _). by eexists.
  - intros c Hin. rewrite Hm. destruct (lookup_key info_role _ _) as [i|] eqn:E; [|done].
    apply lookup_key_elem in E as [Hin' Er]. destruct (Hd (config_role c)).
    + rewrite <- Er. by apply list_elem_of_fmap_2.
    + by apply list_elem_of_fmap_2.
  - exists m'. split; [done|]. intros role. rewrite Hm'. destruct (lookup_key config_role _ _); [done|].
    rewrite Hm. by destruct (lookup_key info_role _ _).
Qed.

Lemma elem_concat_map {A B} (f : A -> list B) l y : y ∈ concat (map f l) -> exists x, x ∈ l /\ y ∈ f x.
Proof.
  intros H%list_elem_of_In%in_concat. destruct H as (k & (x & <- & Hx)%in_map_iff & Hy).
  exists x. split; by apply list_elem_of_In.
Qed.

Lemma Forall_sublist {A} (P : A -> Prop) l l' : sublist l' l -> Forall P l -> Forall P l'.
Proof. rewrite !Forall_forall. intros Hs H x Hx. apply H. by eapply elem_of_sublist. Qed.

Lemma NoDup_sublist {A} (l l' : list A) : sublist l' l -> NoDup l -> NoDup l'.
Proof. intros Hs Hn. by eapply sublist_NoDup. Qed.

(** One round of [UpdateQuota] stores the quota of one role and leaves the
    others alone. *)
Lemma store_config_lists c r q :
  wf_lists r -> validate_config c = None -> Quota_of_config c = Some q ->
  exists r', store_config c r = Some r' /\ wf_lists r' /\ capabilities r' = capabilities r /\ weights r' = weights r.
Proof.
  intros [Hn Hc Hi] Hv Hq. unfold store_config. rewrite Hq. cbn. eexists. split; [done|]. split; [|done].
  set (role := config_role c). apply NoDup_app in Hn as (Hn1 & Hd & Hn2).
  assert (Hs := erase_first_sublist info_role role (quotas r)).
  assert (Hn1' := NoDup_sublist _ _ (sublist_map info_role _ _ Hs) Hn1).
  assert (Hr : role ∉ map info_role (erase_first (has_key info_role role) (quotas r))).
  { apply lookup_key_none. rewrite lookup_erase_first by done. by rewrite decide_True. }
  split; cbn; [| |by eapply Forall_sublist].
  - apply NoDup_app. split_and!; [done| |].
    + intros x Hx. assert (Hx' : x ∈ map info_role (quotas r)).
      { eapply elem_of_sublist; [exact Hx|by apply sublist_map]. }
      case_match.
      * intros Hin. apply (Hd x Hx'). eapply elem_of_sublist; [exact Hin|]. apply sublist_map, erase_first_sublist.
      * rewrite replace_first_keys by done. case_decide; [by apply Hd|]. rewrite elem_of_app.
        intros [?|E%list_elem_of_singleton]; [by apply (Hd x Hx')|]. by subst x.
    + case_match; [eapply NoDup_sublist; [|exact Hn2]; apply sublist_map, erase_first_sublist|].
      rewrite replace_first_keys by done. case_decide; [done|]. apply NoDup_app.
      split_and!; [done| |apply NoDup_singleton]. intros x Hx E%list_elem_of_singleton. by subst x.
  - case_match eqn:E; [eapply Forall_sublist; [apply erase_first_sublist|done]|].
    apply Forall_forall. intros c' [->|Hin]%replace_first_elem; [|by rewrite Forall_forall in Hc; apply Hc].
    split; [done|]. rewrite Hq. intros [= ->]. done.
Qed.

Lemma quota_eqb_eq a b : quota_eqb a b = bool_decide (a = b).
Proof.
  unfold quota_eqb. rewrite <- bool_decide_and. apply bool_decide_ext. destruct a, b. cbn.
  split; [by intros [-> ->]|by intros [= -> ->]].
Qed.

Lemma store_config_quota c r r' q role :
  wf_lists r -> Quota_of_config c = Some q -> store_config c r = Some r' ->
  stored_quota r' role =
    if decide (role = config_role c) then (if decide (q = DEFAULT_QUOTA) then None else Some q)
    else stored_quota r role.
Proof.
  intros [Hn Hc Hi] Hq H. apply NoDup_app in Hn as (Hn1 & Hd & Hn2).
  unfold store_config in H. rewrite Hq in H. cbn in H. injection H as <-. unfold stored_quota. cbn.
  rewrite quota_eqb_eq. destruct (decide (q = DEFAULT_QUOTA)) as [Hdef|Hdef].
  - rewrite bool_decide_eq_true_2 by done. cbv iota. rewrite !lookup_erase_first by done. by destruct (decide (role = _)).
  - rewrite bool_decide_eq_false_2 by done. cbv iota.
    rewrite lookup_replace_first, lookup_erase_first by done. by destruct (decide (role = _)).
Qed.

(** What storing configurations means for the map from roles to quotas. *)
Definition set_quota (m : gmap string Quota) (c : QuotaConfig) : gmap string Quota :=
  match Quota_of_config c with
  | Some q => if decide (q = DEFAULT_QUOTA) then delete (config_role c) m else <[config_role c := q]> m
  | None => m
  end.

Lemma validate_configs_none l : validate_configs l = None <-> Forall (fun c => validate_config c = None) l.
Proof.
  induction l as [|c l IH]; cbn; [by split; [constructor|]|]. rewrite Forall_cons.
  destruct (validate_config c); [naive_solver|]. rewrite IH. tauto.
Qed.

Lemma store_configs_spec configs r m :
  wf_lists r -> Forall (fun c => validate_config c = None) configs ->
  (forall role, m !! role = stored_quota r role) ->
  exists r', store_configs configs r = Some r' /\ wf_lists r' /\ capabilities r' = capabilities r
    /\ weights r' = weights r
    /\ forall role, fold_left set_quota configs m !! role = stored_quota r' role.
Proof.
  intros Hr Hv. revert r m Hr. induction Hv as [|c configs Hc Hv IH]; intros r m Hr Hm; [by exists r|].
  destruct (validate_config_quota c Hc) as (g & l & Hq & _).
  destruct (store_config_lists c r _ Hr Hc Hq) as (r1 & H1 & Hw1 & Hcap & Hwt). cbn. rewrite H1. cbn.
  destruct (IH r1 (set_quota m c) Hw1) as (r' & H' & Hw' & Hcap' & Hwt' & Hm').
  - intros role. rewrite (store_config_quota _ _ _ _ role Hr Hq H1). unfold set_quota. rewrite Hq.
    destruct (decide (role = config_role c)) as [->|Hne]; case_decide.
    + apply lookup_delete_eq.
    + apply lookup_insert_eq.
    + by rewrite lookup_delete_ne.
    + by rewrite lookup_insert_ne.
  - exists r'. split_and!; [done|done|congruence..|done].
Qed.

Lemma removeMinimumCapability_spec c caps :
  NoDup caps -> NoDup (removeMinimumCapability c caps)
  /\ forall d, d ∈ removeMinimumCapability c caps <-> d ∈ caps /\ d <> c.
Proof.
  intros Hn. unfold removeMinimumCapability. destruct (remove_first _ _) as [[x caps']|] eqn:E.
  - apply remove_first_spec in E as (Hx & Hp & Hs). breflect. subst x.
    rewrite Hp in Hn. apply NoDup_cons in Hn as [Hc Hn]. split; [done|]. intros d. rewrite Hp, elem_of_cons.
    split; [intros Hd; split; [by right|by intros ->]|naive_solver].
  - apply remove_first_none in E. rewrite Forall_forall in E. split; [done|]. intros d.
    split; [|naive_solver]. intros Hd. split; [done|]. intros ->. specialize (E c Hd). by breflect.
Qed.

Lemma addMinimumCapability_spec c caps :
  NoDup caps -> NoDup (addMinimumCapability c caps)
  /\ forall d, d ∈ addMinimumCapability c caps <-> d ∈ caps \/ d = c.
Proof.
  intros Hn. unfold addMinimumCapability. case_decide.
  - split; [done|]. intros d. split; [naive_solver|]. by intros [?| ->].
  - split; [|intros d; set_solver]. apply NoDup_app. split_and!; [done|set_solver|apply NoDup_singleton].
Qed.

Lemma UpdateQuota_spec configs r m :
  wf_quota_registry r -> (forall role, m !! role = stored_quota r role) ->
  match UpdateQuota configs r with
  | Ok (mutated, r') =>
      Forall (fun c => validate_config c = None) configs
      /\ mutated = true /\ wf_quota_registry r' /\ weights r' = weights r
      /\ (forall d, d <> QUOTA_V2 -> d ∈ capabilities r' <-> d ∈ capabilities r)
      /\ forall role, fold_left set_quota configs m !! role = stored_quota r' role
  | Err e => e <> QuotaAbort /\ exists c, c ∈ configs /\ validate_config c = Some e
  end.
Proof.
  intros [Hl Hcap Hv2] Hm. unfold UpdateQuota. destruct (validate_configs configs) as [e|] eqn:Ev.
  - assert (Hex : exists c, c ∈ configs /\ validate_config c = Some e).
    { induction configs as [|c configs IH]; [done|]. cbn in Ev.
      destruct (validate_config c) eqn:Ec; [injection Ev as ->; by exists c; split; [left|]|].
      destruct (IH Ev) as (c' & ? & ?). exists c'. split; [by right|done]. }
    split; [|done]. destruct Hex as (c & _ & Hc). intros ->. by apply validate_config_no_abort in Hc.
  - apply validate_configs_none in Ev.
    destruct (store_configs_spec configs r m Hl Ev Hm) as (r' & -> & Hw & Ec & Ew & Hq).
    split_and!; [done|done| |done| |done].
    + destruct Hw as [W1 W2 W3]. split; [by split|..]; cbn; rewrite Ec; case_decide as E.
      * by apply removeMinimumCapability_spec.
      * by apply addMinimumCapability_spec.
      * destruct (removeMinimumCapability_spec QUOTA_V2 _ Hcap) as [_ H]. rewrite H. naive_solver.
      * destruct (addMinimumCapability_spec QUOTA_V2 _ Hcap) as [_ H]. rewrite H. naive_solver.
    + intros d Hd. cbn. rewrite Ec. case_decide.
      * destruct (removeMinimumCapability_spec QUOTA_V2 _ Hcap) as [_ H']. rewrite H'. naive_solver.
      * destruct (addMinimumCapability_spec QUOTA_V2 _ Hcap) as [_ H']. rewrite H'. naive_solver.
Qed.

(** Storing quotas implements an update of the map from roles to quotas: an
    operation with a configuration that is not valid reports it and stores
    nothing; any other is recovered as the old map with each configuration in
    turn set, or its role removed when the configuration is the default.  The
    result is a registry in which every role has one entry, [QUOTA_V2] is
    required exactly when there are new entries, other capabilities and the
    weights are as before, and whose recovery does not abort. *)
Theorem update_quota_refines configs r :
  wf_quota_registry r ->
  exists m, recover_quotas r = Some m
  /\ match UpdateQuota configs r with
     | Ok (mutated, r') =>
         Forall (fun c => validate_config c = None) configs
         /\ mutated = true /\ wf_quota_registry r' /\ weights r' = weights r
         /\ (forall d, d <> QUOTA_V2 -> d ∈ capabilities r' <-> d ∈ capabilities r)
         /\ recover_quotas r' = Some (fold_left set_quota configs m)
     | Err e => e <> QuotaAbort /\ exists c, c ∈ configs /\ validate_config c = Some e
     end.
Proof.
  intros Hw. destruct (recover_quotas_spec r (wf_quota_lists r Hw)) as (m & Hr & Hm). exists m. split; [done|].
  assert (H := UpdateQuota_spec configs r m Hw Hm). destruct (UpdateQuota configs r) as [[mutated r']|e]; [|done].
  destruct H as (H1 & H2 & H3 & H4 & H5 & H6). split_and!; [done..|].
  destruct (recover_quotas_spec r' (wf_quota_lists r' H3)) as (m' & -> & Hm'). f_equal.
  apply map_eq. intros role. by rewrite Hm', H6.
Qed.

Definition whole (n : Z) : input_double := Finite (inject_Z n).

Definition cpus_config (role : string) (g l : Z) : QuotaConfig :=
  mkConfig (Some role) [("cpus"%string, whole g)] [("cpus"%string, whole l)].

(** A registry with an entry of an old version. *)
Definition legacy_registry : QuotaRegistry :=
  mkQuotaRegistry [mkInfo (Some "a"%string) None [cpus_ 1000]; mkInfo (Some "b"%string) None [cpus_ 2000]]
    [] [] [AGENT_DRAINING].

Lemma legacy_registry_wf : wf_quota_registry legacy_registry.
Proof.
  split; [split|..]; cbn.
  - apply (bool_decide_unpack _). by vm_compute.
  - constructor.
  - repeat constructor; vm_compute; by eexists.
  - apply NoDup_singleton.
  - split; [|done]. intros H%list_elem_of_singleton. done.
Qed.

Lemma update_quota_refines_witness :
  exists m, recover_quotas legacy_registry = Some m
  /\ match UpdateQuota [cpus_config "a" 1 3; mkConfig (Some "b"%string) [] []] legacy_registry with
     | Ok (_, r') =>
         recover_quotas r' =
           Some (fold_left set_quota [cpus_config "a" 1 3; mkConfig (Some "b"%string) [] []] m)
         /\ QUOTA_V2 ∈ capabilities r'
         /\ (fun m => m !! "a"%string) <$> recover_quotas r' = Some (Some (mkQuota [("cpus"%string, 1000)] [("cpus"%string, 3000)]))
     | Err _ => False
     end.
Proof.
  destruct (update_quota_refines [cpus_config "a" 1 3; mkConfig (Some "b"%string) [] []] legacy_registry
              legacy_registry_wf) as (m & Hm & H).
  exists m. split; [done|]. destruct (UpdateQuota _ _) as [[mu r']|e] eqn:E; [|by vm_compute in E].
  split; [apply H|]. clear H. vm_compute in E. injection E as <- <-. split; [cbn; set_solver|by vm_compute].
Defined.

(** The comment of [validate] asks for a role other than [*], but the check
    accepts that role. *)
Theorem star_role_accepted : validate_config (mkConfig (Some "*"%string) [] []) = None.
Proof. by vm_compute. Qed.

(** ** Quantities of well-formed resources *)

Lemma wf_empty : wf_quantities [].
Proof. by split; constructor. Qed.

Definition wf_values (l : list Resource) : Prop := Forall (fun r => wf_value (value r)) l.

Lemma quantities_add_total q n z : wf_quantities q -> 0 <= z -> exists q', Quantities.add q n z = Some q' /\ wf_quantities q'.
Proof.
  intros Hq Hz. destruct (Quantities.add q n z) as [q'|] eqn:E; [by exists q'; split; [|eapply Quantities.wf_add]|].
  unfold Quantities.add in E. destruct (z <? 0) eqn:Ez; breflect; [lia|]. by destruct (z =? 0).
Qed.

Lemma wf_resources_values rs : wf_resources rs -> wf_values (to_list rs).
Proof.
  intros [He _]. unfold wf_values, to_list. rewrite Forall_map. eapply Forall_impl; [exact He|].
  intros e [[_ Hv] _ _]. done.
Qed.

Lemma add_scalars_total l q :
  wf_values l -> Forall (fun r => rtype r = SCALAR) l -> wf_quantities q ->
  exists q', add_scalars q l = Some q' /\ wf_quantities q'.
Proof.
  intros Hl. revert q. induction Hl as [|r l Hr Hl IH]; intros q Hs Hq; cbn; [by exists q|].
  apply Forall_cons in Hs as [Hs Hs']. unfold rtype, type_of in Hs. destruct (value r) as [z| | |]; try done.
  destruct (quantities_add_total q (name r) z Hq Hr) as (q' & -> & Hq'). cbn. by apply IH.
Qed.

Lemma fromScalarResources_total rs :
  wf_resources rs -> exists q, fromScalarResources (scalars rs) = Some q /\ wf_quantities q.
Proof.
  intros H. apply add_scalars_total; [by apply wf_resources_values, wf_filter| |apply wf_empty].
  unfold scalars, ResourceOps.filter, to_list. rewrite Forall_map, Forall_forall. intros e He.
  apply list_elem_of_In, filter_In in He as [_ He]. by breflect.
Qed.

(** ** Weights *)

Definition same_weight (w info : WeightInfo) : Prop :=
  w = info \/ (weight_role w = weight_role info /\ differs (w_weight w) (w_weight info) = false).

Lemma update_weight_spec info l :
  match update_weight info l with
  | None => weight_role info ∉ map weight_role l
  | Some (mutated, l') =>
      map weight_role l' = map weight_role l /\ (mutated = false -> l' = l)
      /\ forall role, if decide (role = weight_role info)
                      then exists w, lookup_key weight_role role l' = Some w /\ same_weight w info
                      else lookup_key weight_role role l' = lookup_key weight_role role l
  end.
Proof.
  induction l as [|w l IH]; cbn; [set_solver|]. case_bool_decide as E.
  - destruct (differs _ _) eqn:Ed; cbn; (split_and!; [by rewrite ?E|done|]); intros role; rewrite !lookup_key_cons.
    + case_decide as E'; [rewrite decide_True by done; eexists; split; [done|by left]|].
      by rewrite !decide_False by congruence.
    + case_decide as E'; [rewrite decide_True by congruence; eexists; split; [done|by right]|done].
  - destruct (update_weight info l) as [[mutated l']|]; cbn; [|set_solver].
    destruct IH as (H1 & H2 & H3). split_and!; [by rewrite H1|by intros ->%H2|].
    intros role. rewrite !lookup_key_cons. specialize (H3 role). case_decide as E'.
    + subst role. by rewrite decide_False by done.
    + by case_decide.
Qed.

Lemma lookup_key_app {A} (key : A -> string) k l x :
  lookup_key key k (l ++ [x]) =
    match lookup_key key k l with Some y => Some y | None => if decide (key x = k) then Some x else None end.
Proof. induction l as [|y l IH]; cbn; rewrite !lookup_key_cons; [done|]. rewrite IH. by destruct (decide (key y = k)). Qed.

Lemma store_weight_spec info l m l' :
  NoDup (map weight_role l) -> store_weight info l = (m, l') ->
  NoDup (map weight_role l') /\ (m = false -> l' = l)
  /\ forall role, if decide (role = weight_role info)
                  then exists w, lookup_key weight_role role l' = Some w /\ same_weight w info
                  else lookup_key weight_role role l' = lookup_key weight_role role l.
Proof.
  intros Hn. unfold store_weight. assert (H := update_weight_spec info l).
  destruct (update_weight info l) as [[m' l'']|]; intros [= <- <-].
  - destruct H as (H1 & H2 & H3). rewrite H1. done.
  - split_and!; [|done|].
    + rewrite map_app. apply NoDup_app. split_and!; [done|set_solver|apply NoDup_singleton].
    + intros role. rewrite lookup_key_app. case_decide as E.
      * subst role. apply lookup_key_none in H. rewrite H, decide_True by done. eexists. split; [done|by left].
      * rewrite decide_False by congruence. by destruct (lookup_key _ _ _).
Qed.

(** The last weight that a request gives a role. *)
Definition requested (infos : list WeightInfo) (role : string) : option WeightInfo :=
  lookup_key weight_role role (reverse infos).

Lemma requested_cons info infos role :
  requested (info :: infos) role =
    match requested infos role with
    | Some w => Some w | None => if decide (weight_role info = role) then Some info else None end.
Proof. unfold requested. rewrite reverse_cons. apply lookup_key_app. Qed.

Lemma store_weights_spec infos l b m l' :
  NoDup (map weight_role l) -> store_weights infos l b = (m, l') ->
  NoDup (map weight_role l') /\ (m = false -> b = false /\ l' = l)
  /\ forall role, match requested infos role with
                  | Some info => exists w, lookup_key weight_role role l' = Some w /\ same_weight w info
                  | None => lookup_key weight_role role l' = lookup_key weight_role role l
                  end.
Proof.
  revert l b. induction infos as [|info infos IH]; intros l b Hn; cbn.
  { intros [= <- <-]. split_and!; [done|done|done]. }
  destruct (store_weight info l) as [m1 l1] eqn:E1. intros H.
  destruct (store_weight_spec _ _ _ _ Hn E1) as (N1 & M1 & R1).
  destruct (IH l1 _ N1 H) as (N2 & M2 & R2). split_and!; [done| |].
  - intros Hm. apply M2 in Hm as [Hb ->]. apply orb_false_iff in Hb as [-> ->]. auto.
  - intros role. specialize (R1 role). specialize (R2 role). rewrite requested_cons.
    destruct (requested infos role); [done|]. rewrite R2. do 2 case_decide; try congruence; done.
Qed.

(** Storing weights: every role keeps at most one entry; a role for which the
    request has weights gets the last of them, up to the equality of doubles;
    the others, the quotas and the capabilities stay; and an operation that
    reports no mutation changed nothing. *)
Theorem update_weights_exact infos r m r' :
  NoDup (map weight_role (weights r)) -> UpdateWeights infos r = (m, r') ->
  NoDup (map weight_role (weights r')) /\ (m = false -> r' = r)
  /\ quotas r' = quotas r /\ quota_configs r' = quota_configs r /\ capabilities r' = capabilities r
  /\ forall role, match requested infos role with
                  | Some info => exists w, lookup_key weight_role role (weights r') = Some w /\ same_weight w info
                  | None => lookup_key weight_role role (weights r') = lookup_key weight_role role (weights r)
                  end.
Proof.
  intros Hn. unfold UpdateWeights. destruct infos as [|info infos]; [by intros [= <- <-]|].
  destruct (store_weights _ _ _) as [m' l'] eqn:E. intros [= <- <-]. cbn [quotas quota_configs capabilities weights].
  destruct (store_weights_spec _ _ _ _ _ Hn E) as (N & M & R). split_and!; [done| |done..].
  intros ->. destruct (M eq_refl) as [_ ->]. by destruct r.
Qed.

Definition weighted_registry : QuotaRegistry :=
  mkQuotaRegistry [] [] [mkWeight (whole 2) (Some "a"%string); mkWeight (whole 1) (Some "b"%string)] [].

Lemma update_weights_exact_witness :
  exists w, lookup_key weight_role "a" (weights (UpdateWeights
    [mkWeight (whole 3) (Some "a"%string); mkWeight (whole 5) (Some "a"%string)] weighted_registry).2) = Some w
    /\ same_weight w (mkWeight (whole 5) (Some "a"%string)).
Proof.
  destruct (UpdateWeights [mkWeight (whole 3) (Some "a"%string); mkWeight (whole 5) (Some "a"%string)] weighted_registry)
    as [m r'] eqn:E.
  apply (update_weights_exact _ weighted_registry m r') with (role := "a"%string) in E; [exact E|].
  apply (bool_decide_unpack _). by vm_compute.
Defined.
