(* ===== verification/QuotaTree.v ===== *)
(** * The tree of roles with quota

    [QuotaTree] of [src/src/master/quota_handler.cpp]: the hierarchy check that
    the guarantees of a role contain the sum of those of its children, and the
    total of all guarantees.

    A node has a name, a quota and children with different names; the order of
    the list stands for the unspecified order of the hash map. *)

From stdpp Require Import base gmap strings list.
From S2P Require Import Prelude Strings Quantities Registry Quota.
Local Open Scope Z_scope.

#[local] Unset Elimination Schemes.
Inductive Node := mkNode (n_name : string) (n_quota : Quota) (n_children : list Node).
#[local] Set Elimination Schemes.

Definition node_name (n : Node) : string := let '(mkNode s _ _) := n in s.
Definition node_quota (n : Node) : Quota := let '(mkNode _ q _) := n in q.
Definition node_children (n : Node) : list Node := let '(mkNode _ _ l) := n in l.
Definition node_guarantees (n : Node) : entries := q_guarantees (node_quota n).

(** Induction with the hypothesis for every child. *)
Lemma Node_ind (P : Node -> Prop) :
  (forall s q l, Forall P l -> P (mkNode s q l)) -> forall n, P n.
Proof.
  intros H. fix IH 1. intros [s q l]. apply H. induction l as [|n l IHl]; constructor; [apply IH|exact IHl].
Qed.

Definition new_node (s : string) : Node := mkNode s DEFAULT_QUOTA [].

(** ** Operations *)

(** [QuotaTree::update] below the current node. *)
Fixpoint update_node (components : list string) (quota : Quota) (n : Node) : Node :=
  match components with
  | [] => mkNode (node_name n) quota (node_children n)
  | c :: rest =>
      let children :=
        match update_first (has_key node_name c) (update_node rest quota) (node_children n) with
        | Some l => l
        | None => node_children n ++ [update_node rest quota (new_node c)]
        end in
      mkNode (node_name n) (node_quota n) children
  end.

(** [None] is the failed [CHECK(!components.empty())]. *)
Definition update_tree (root : Node) (role : string) (quota : Quota) : option Node :=
  match tokenize role "/" with
  | [] => None
  | components => Some (update_node components quota root)
  end.

Fixpoint update_all (root : Node) (l : list (string * Quota)) : option Node :=
  match l with
  | [] => Some root
  | (role, quota) :: l' => root' ← update_tree root role quota; update_all root' l'
  end.

Definition empty_tree : Node := new_node EmptyString.

Definition sum_guarantees (l : list Node) : entries :=
  fold_left (fun acc n => Quantities.plus acc (node_guarantees n)) l [].

Inductive tree_error := ChildrenExceed (name : string).

(** [QuotaTree::Node::validate]. *)
Fixpoint validate_node (n : Node) : option tree_error :=
  match n with
  | mkNode name quota children =>
      let fix validate_children (l : list Node) : option tree_error :=
        match l with
        | [] => None
        | child :: l' => match validate_node child with Some e => Some e | None => validate_children l' end
        end in
      match validate_children children with
      | Some e => Some e
      | None => if Quantities.contains (q_guarantees quota) (sum_guarantees children) then None
                else Some (ChildrenExceed name)
      end
  end.

Fixpoint validate_nodes (l : list Node) : option tree_error :=
  match l with
  | [] => None
  | child :: l' => match validate_node child with Some e => Some e | None => validate_nodes l' end
  end.

(** [QuotaTree::validate] and [QuotaTree::totalGuarantees]. *)
Definition validate_tree (root : Node) : option tree_error := validate_nodes (node_children root).
Definition totalGuarantees (root : Node) : entries := sum_guarantees (node_children root).

(** ** The tree as a map from paths to quotas *)

Fixpoint node_at (path : list string) (n : Node) : option Node :=
  match path with
  | [] => Some n
  | c :: rest => lookup_key node_name c (node_children n) ≫= node_at rest
  end.

Definition quota_at (root : Node) (path : list string) : Quota :=
  default DEFAULT_QUOTA (node_quota <$> node_at path root).

Lemma update_node_name components quota n : node_name (update_node components quota n) = node_name n.
Proof. by destruct components. Qed.

Lemma lookup_update_child c k f l :
  (forall n, node_name (f n) = node_name n) ->
  lookup_key node_name k
    (match update_first (has_key node_name c) f l with Some l' => l' | None => l ++ [f (new_node c)] end) =
  if decide (k = c) then Some (f (default (new_node c) (lookup_key node_name c l))) else lookup_key node_name k l.
Proof.
  intros Hf. induction l as [|n l IH]; cbn.
  - rewrite !lookup_key_cons, Hf. cbn. destruct (decide (k = c)) as [->|]; [by rewrite decide_True|].
    by rewrite decide_False by congruence.
  - destruct (has_key node_name c n) eqn:E; unfold has_key in E; breflect.
    + assert (E0 : lookup_key node_name c (n :: l) = Some n) by (by rewrite lookup_key_cons, decide_True).
      rewrite E0, !lookup_key_cons, Hf, E. cbn.
      destruct (decide (k = c)) as [->|]; [by rewrite decide_True|by rewrite !decide_False by congruence].
    + assert (E' : lookup_key node_name c (n :: l) = lookup_key node_name c l).
      { by rewrite lookup_key_cons, decide_False. }
      destruct (update_first _ _ l); cbn; rewrite !(lookup_key_cons _ k), E', IH.
      all: destruct (decide (k = c)) as [->|]; [by rewrite !decide_False by done|done].
Qed.

(** [quota_at] after an update: the path of the role changes, nothing else. *)
Lemma quota_at_update components quota n path :
  quota_at (update_node components quota n) path =
    if decide (path = components) then quota else quota_at n path.
Proof.
  revert n path. induction components as [|c rest IH]; intros n path; cbn.
  - unfold quota_at. destruct path as [|k path]; [done|]. rewrite decide_False by done. done.
  - destruct path as [|k path]; [by rewrite decide_False|].
    assert (H := lookup_update_child c k (update_node rest quota) (node_children n) (update_node_name rest quota)).
    unfold quota_at. cbn [node_at node_children]. rewrite H.
    destruct (decide (k = c)) as [->|Hne]; [|by rewrite decide_False by congruence]. cbn.
    specialize (IH (default (new_node c) (lookup_key node_name c (node_children n))) path).
    unfold quota_at in IH. rewrite IH. destruct (decide (path = rest)) as [->|Hp]; [by rewrite decide_True|].
    rewrite decide_False by congruence. destruct (lookup_key node_name c (node_children n)) as [m|]; [done|]. cbn.
    by destruct path.
Qed.

(** ** The nodes of a tree *)

Fixpoint nodes (n : Node) : list Node :=
  match n with mkNode _ _ children => n :: concat (map nodes children) end.

Lemma nodes_eq n : nodes n = n :: concat (map nodes (node_children n)).
Proof. by destruct n. Qed.

Definition contained (n : Node) : Prop :=
  Quantities.contains (node_guarantees n) (sum_guarantees (node_children n)) = true.

Lemma validate_nodes_none l : validate_nodes l = None <-> Forall (fun n => validate_node n = None) l.
Proof.
  induction l as [|n l IH]; cbn; [by split; [constructor|]|]. rewrite Forall_cons.
  destruct (validate_node n); [naive_solver|]. rewrite IH. tauto.
Qed.

Lemma validate_node_eq n :
  validate_node n =
    match validate_nodes (node_children n) with
    | Some e => Some e
    | None => if Quantities.contains (node_guarantees n) (sum_guarantees (node_children n)) then None
              else Some (ChildrenExceed (node_name n))
    end.
Proof.
  destruct n as [s q l]. cbn. enough (E : forall l, (fix validate_children (l : list Node) : option tree_error :=
    match l with
    | [] => None
    | child :: l' => match validate_node child with Some e => Some e | None => validate_children l' end
    end) l = validate_nodes l) by (by rewrite E).
  intros k. induction k as [|n k IH]; [done|]. cbn. by rewrite IH.
Qed.

Lemma validate_node_none n : validate_node n = None <-> Forall contained (nodes n).
Proof.
  induction n as [s q l IH] using Node_ind. rewrite validate_node_eq, nodes_eq, Forall_cons, Forall_concat, Forall_map.
  cbn. assert (E : validate_nodes l = None <-> Forall (fun n => Forall contained (nodes n)) l).
  { rewrite validate_nodes_none, !Forall_forall. rewrite Forall_forall in IH.
    split; intros H n Hn; apply (IH n Hn), H; done. }
  rewrite <- E. unfold contained. cbn. destruct (validate_nodes l); [naive_solver|].
  case_match; naive_solver.
Qed.

(** The nodes below the root, which the checks of the tree are about. *)
Definition role_nodes (root : Node) : list Node := concat (map nodes (node_children root)).

Lemma validate_tree_none root : validate_tree root = None <-> Forall contained (role_nodes root).
Proof.
  unfold validate_tree, role_nodes. rewrite validate_nodes_none, Forall_concat, Forall_map, !Forall_forall.
  setoid_rewrite validate_node_none. done.
Qed.

Definition unique_children (n : Node) : Prop := NoDup (map node_name (node_children n)).
Definition wf_guarantees (n : Node) : Prop := wf_quantities (node_guarantees n).

(** A property of single nodes that a new node has and that does not look at
    grandchildren holds of all nodes after an update. *)
Lemma update_node_Forall (P : Node -> Prop) quota :
  (forall s, P (new_node s)) ->
  (forall n, P n -> P (mkNode (node_name n) quota (node_children n))) ->
  (forall c f n, P n -> (forall m, node_name (f m) = node_name m) ->
     P (mkNode (node_name n) (node_quota n)
          (match update_first (has_key node_name c) f (node_children n) with
           | Some l => l | None => node_children n ++ [f (new_node c)] end))) ->
  forall components n, Forall P (nodes n) -> Forall P (nodes (update_node components quota n)).
Proof.
  intros Hnew Hset Hchild. induction components as [|c rest IH]; intros n Hn.
  - rewrite nodes_eq, Forall_cons in Hn |- *. cbn. naive_solver.
  - cbn [update_node]. rewrite nodes_eq, Forall_cons in Hn. destruct Hn as [Hn Hl]. rewrite nodes_eq, Forall_cons. split.
    { apply Hchild; [done|]. apply update_node_name. }
    cbn [node_children]. rewrite Forall_concat, Forall_map in Hl |- *.
    destruct (update_first _ _ (node_children n)) as [l|] eqn:E.
    + eapply update_first_Forall; [|exact E|exact Hl]. intros m _ Hm. by apply IH.
    + apply Forall_app. split; [done|]. apply Forall_singleton, IH, Forall_singleton, Hnew.
Qed.

Lemma update_unique components quota n :
  Forall unique_children (nodes n) -> Forall unique_children (nodes (update_node components quota n)).
Proof.
  apply update_node_Forall; [constructor|done|]. unfold unique_children. intros c f m Hm Hf. cbn.
  destruct (update_first _ _ _) as [l|] eqn:E.
  - erewrite update_first_map; [exact Hm|by intros; apply Hf|exact E].
  - rewrite map_app. apply NoDup_app. split_and!; [done| |cbn; apply NoDup_singleton].
    cbn. rewrite Hf. intros x Hx ->%list_elem_of_singleton. cbn in Hx. clear Hm Hf. revert E Hx.
    generalize (node_children m). intros k. induction k as [|y k IH]; cbn; [by rewrite elem_of_nil|].
    destruct (has_key node_name c y) eqn:Ey; [done|]. unfold has_key in Ey. breflect.
    destruct (update_first _ _ k); [done|]. rewrite elem_of_cons. intros _ [?|?]; [congruence|by apply IH].
Qed.

Lemma update_wf components quota n :
  wf_quantities (q_guarantees quota) ->
  Forall wf_guarantees (nodes n) -> Forall wf_guarantees (nodes (update_node components quota n)).
Proof. intros Hq. apply update_node_Forall; [by split; constructor|done|done]. Qed.

(** With unique names the nodes are those that paths lead to. *)
Lemma node_at_elem path n m : node_at path n = Some m -> m ∈ nodes n.
Proof.
  revert n. induction path as [|c path IH]; intros n; cbn; rewrite nodes_eq; [intros [= <-]; by left|].
  destruct (lookup_key node_name c (node_children n)) as [n'|] eqn:E; [|done]. cbn. intros Hm%IH. right.
  apply lookup_key_elem in E as [Hin _]. apply list_elem_of_In, in_concat. exists (nodes n').
  split; apply list_elem_of_In; [by apply list_elem_of_fmap_2|done].
Qed.

Lemma nodes_trans n m k : m ∈ nodes n -> k ∈ nodes m -> k ∈ nodes n.
Proof.
  induction n as [s q l IH] using Node_ind. intros [->|Hm]%elem_of_cons Hk; [done|]. right.
  apply elem_concat_map in Hm as (n & Hn & Hm). rewrite Forall_forall in IH. assert (Hkn := IH n Hn Hm Hk).
  apply list_elem_of_In, in_concat. exists (nodes n). split; apply list_elem_of_In; [by apply list_elem_of_fmap_2|done].
Qed.

Lemma lookup_key_unique l (x : Node) :
  NoDup (map node_name l) -> x ∈ l -> lookup_key node_name (node_name x) l = Some x.
Proof.
  induction l as [|y l IH]; cbn; [by intros _ ?%elem_of_nil|]. intros [Hy Hl]%NoDup_cons. rewrite lookup_key_cons.
  intros [->|Hx]%elem_of_cons; [by rewrite decide_True|]. rewrite decide_False; [by apply IH|].
  intros E. apply Hy. rewrite E. by apply list_elem_of_fmap_2.
Qed.

Lemma elem_node_at n m :
  Forall unique_children (nodes n) -> m ∈ nodes n -> exists path, node_at path n = Some m.
Proof.
  induction n as [s q l IH] using Node_ind. intros Hu [->|Hm]%elem_of_cons; [by exists []|].
  apply Forall_cons in Hu as [Hu Hl]. rewrite Forall_concat, Forall_map, Forall_forall in Hl.
  apply elem_concat_map in Hm as (n & Hn & Hm).
  rewrite Forall_forall in IH. destruct (IH n Hn (Hl n Hn) Hm) as [path Hp].
  exists (node_name n :: path). cbn. by rewrite (lookup_key_unique l n).
Qed.

(** ** Totals *)

Lemma sum_guarantees_spec l acc :
  wf_quantities acc -> Forall wf_guarantees l ->
  let sum := fold_left (fun acc n => Quantities.plus acc (node_guarantees n)) l acc in
  wf_quantities sum /\ forall r, Quantities.get sum r = Quantities.get acc r + zsum (fun n => Quantities.get (node_guarantees n) r) l.
Proof.
  intros Ha Hl. revert acc Ha. induction Hl as [|n l Hn Hl IH]; intros acc Ha; cbn [fold_left]; [split; [done|cbn; lia]|].
  destruct (IH _ (wf_plus _ _ Ha Hn)) as [H1 H2]. split; [done|]. intros r. rewrite H2.
  rewrite get_plus, zsum_cons by (apply Ha || apply Hn). lia.
Qed.

Lemma get_sum_guarantees l r :
  Forall wf_guarantees l ->
  wf_quantities (sum_guarantees l)
  /\ Quantities.get (sum_guarantees l) r = zsum (fun n => Quantities.get (node_guarantees n) r) l.
Proof. intros Hl. destruct (sum_guarantees_spec l [] wf_empty Hl) as [H1 H2]. split; [done|]. apply H2. Qed.

(** What the topmost of the selected roles below a node are guaranteed: no
    selected role is counted below another one. *)
Fixpoint topmost (select : list string -> bool) (r : string) (path : list string) (n : Node) : Z :=
  match n with
  | mkNode name quota children =>
      if select (path ++ [name]) then Quantities.get (q_guarantees quota) r
      else zsum (topmost select r (path ++ [name])) children
  end.

Lemma children_wf n : Forall wf_guarantees (nodes n) -> Forall wf_guarantees (node_children n).
Proof.
  rewrite nodes_eq, Forall_cons, Forall_concat, Forall_map. intros [_ H]. eapply Forall_impl; [exact H|].
  cbv beta. intros m Hm. rewrite nodes_eq in Hm. by apply Forall_cons in Hm as [? _].
Qed.

Lemma topmost_le select r n path :
  Forall wf_guarantees (nodes n) -> Forall contained (nodes n) ->
  topmost select r path n <= Quantities.get (node_guarantees n) r.
Proof.
  revert path. induction n as [s q l IH] using Node_ind. intros path Hw Hc. cbn. destruct (select _); [done|].
  assert (Hl := children_wf _ Hw). destruct (get_sum_guarantees l r Hl) as [Hs Hg].
  apply Forall_cons in Hw as [Hn Hw], Hc as [Hn' Hc].
  unfold contained in Hn'. rewrite contains_get in Hn' by done. specialize (Hn' r). cbn [node_children] in Hn'.
  etrans; [|exact Hn']. rewrite Hg. apply zsum_le. intros m Hm.
  rewrite Forall_concat, Forall_map, Forall_forall in Hw, Hc. rewrite Forall_forall in IH. auto.
Qed.

(** ** Trees that are built from quotas *)

Record wf_tree (root : Node) : Prop := {
  wf_tree_unique : Forall unique_children (nodes root);
  wf_tree_quotas : Forall wf_guarantees (nodes root);
}.

Lemma empty_tree_wf : wf_tree empty_tree.
Proof. split; apply Forall_singleton; [constructor|apply wf_empty]. Qed.

(** The last quota that a list gives a path. *)
Fixpoint last_quota (l : list (string * Quota)) (path : list string) (q : Quota) : Quota :=
  match l with
  | [] => q
  | (role, quota) :: l' => last_quota l' path (if decide (path = tokenize role "/") then quota else q)
  end.

Lemma update_all_spec l root root' :
  wf_tree root -> Forall (fun e => wf_quantities (q_guarantees e.2)) l -> update_all root l = Some root' ->
  wf_tree root' /\ forall path, path <> [] -> quota_at root' path = last_quota l path (quota_at root path).
Proof.
  intros Hw Hl. revert root Hw. induction Hl as [|[role q] l Hq Hl IH]; intros root Hw; cbn; [by intros [= <-]|].
  unfold update_tree. destruct (tokenize role "/") as [|c rest] eqn:E; [done|]. cbn [mbind option_bind]. intros H.
  destruct (IH (update_node (c :: rest) q root)) as [H1 H2]; [|done|].
  - destruct Hw as [U W]. split; [by apply update_unique|by apply update_wf].
  - split; [done|]. intros path Hp. rewrite H2, quota_at_update by done. by rewrite <- E.
Qed.

Lemma role_node_at root n :
  Forall unique_children (nodes root) ->
  n ∈ role_nodes root <-> exists path, path <> [] /\ node_at path root = Some n.
Proof.
  intros Hu. assert (Hu' := Hu). rewrite nodes_eq, Forall_cons, Forall_concat, Forall_map, Forall_forall in Hu'.
  destruct Hu' as [Hr Hl]. unfold role_nodes. split.
  - intros (m & Hm & Hn)%elem_concat_map. destruct (elem_node_at m n (Hl m Hm) Hn) as [path Hp].
    exists (node_name m :: path). split; [done|]. cbn. by rewrite lookup_key_unique.
  - intros ([|c path] & Hne & Hp); [done|]. cbn in Hp.
    destruct (lookup_key node_name c (node_children root)) as [m|] eqn:E; [|done]. cbn in Hp.
    apply lookup_key_elem in E as [Hm _]. apply node_at_elem in Hp. apply list_elem_of_In, in_concat.
    exists (nodes m). split; apply list_elem_of_In; [by apply list_elem_of_fmap_2|done].
Qed.

(** C22. The tree of roles: after any sequence of updates every path has the
    quota last set for it; the validation accepts the tree exactly when every
    role's guarantees contain the sum of its children's guarantees; and then
    the total over the top-level roles, which the overcommit check uses, covers
    every choice of roles of which none lies below another. *)
Theorem quota_tree_correct l root :
  Forall (fun e => wf_quantities (q_guarantees e.2)) l -> update_all empty_tree l = Some root ->
  (forall path, path <> [] -> quota_at root path = last_quota l path DEFAULT_QUOTA)
  /\ (validate_tree root = None <->
      forall path n, path <> [] -> node_at path root = Some n ->
        forall r, zsum (fun m => Quantities.get (node_guarantees m) r) (node_children n)
                  <= Quantities.get (node_guarantees n) r)
  /\ (validate_tree root = None ->
      forall select r, zsum (topmost select r []) (node_children root) <= Quantities.get (totalGuarantees root) r).
Proof.
  intros Hl H. destruct (update_all_spec _ _ _ empty_tree_wf Hl H) as [[Hu Hw] Hq].
  split_and!; [intros path Hp; rewrite Hq by done; f_equal; by destruct path| |].
  - rewrite validate_tree_none, Forall_forall. setoid_rewrite (role_node_at root); [|done].
    assert (Hc : forall path n, node_at path root = Some n -> contained n <->
      forall r, zsum (fun m => Quantities.get (node_guarantees m) r) (node_children n) <= Quantities.get (node_guarantees n) r).
    { intros path n Hn%node_at_elem. rewrite Forall_forall in Hw. unfold contained.
      assert (Hwc : Forall wf_guarantees (node_children n)).
      { apply children_wf, Forall_forall. intros m Hm. apply Hw. by eapply nodes_trans. }
      rewrite contains_get; [|by apply Hw|apply (get_sum_guarantees _ EmptyString Hwc)].
      split; intros Hr r; specialize (Hr r); destruct (get_sum_guarantees _ r Hwc) as [_ E]; lia. }
    split.
    + intros Ha path n Hp Hn. apply (Hc path n Hn), Ha. by exists path.
    + intros Ha n (path & Hp & Hn). apply (Hc path n Hn). by eapply Ha.
  - intros Hv select r. unfold totalGuarantees. rewrite validate_tree_none in Hv.
    destruct (get_sum_guarantees _ r (children_wf _ Hw)) as [_ ->]. apply zsum_le. intros n Hn.
    rewrite nodes_eq, Forall_cons, Forall_concat, Forall_map, Forall_forall in Hw. destruct Hw as [_ Hw].
    unfold role_nodes in Hv. rewrite Forall_concat, Forall_map, Forall_forall in Hv. apply topmost_le; auto.
Qed.

Definition guaranteed (n : Z) : Quota := mkQuota [("cpus"%string, n)] [].

Lemma quota_tree_correct_witness :
  exists root, update_all empty_tree [("a"%string, guaranteed 3000); ("a/b"%string, guaranteed 1000);
                                 ("a/c"%string, guaranteed 2000)] = Some root
  /\ validate_tree root = None
  /\ quota_at root ["a"%string; "b"%string] = guaranteed 1000
  /\ zsum (topmost (fun p => bool_decide (length p = 2)%nat) "cpus" []) (node_children root)
     <= Quantities.get (totalGuarantees root) "cpus".
Proof.
  destruct (update_all empty_tree [("a"%string, guaranteed 3000); ("a/b"%string, guaranteed 1000);
              ("a/c"%string, guaranteed 2000)]) as [root|] eqn:E; [|by vm_compute in E].
  exists root. split; [done|].
  edestruct quota_tree_correct as (H1 & _ & H3); [|exact E|]; [by repeat constructor|].
  assert (Hv : validate_tree root = None) by (vm_compute in E; injection E as <-; by vm_compute).
  split_and!; [done| |by apply H3]. rewrite H1 by done. by vm_compute.
Defined.
