(* ===== verification/QuotaHandler.v ===== *)
(** * Quota requests

    [Master::QuotaHandler] of [src/src/master/quota_handler.cpp]: the checks of
    the three calls [UPDATE_QUOTA], [SET_QUOTA] and [REMOVE_QUOTA], what the
    master does when the registrar has stored the result, and the offers it
    rescinds; [Master::RoleResourceBreakdown] of [src/src/master/master.cpp].

    [Master] is the part of the master's state that these read and change.
    Requests wait for the authorizer and then for the registrar, so that
    several of them overlap: [qstep] interleaves them.  [None] is a failed
    [CHECK] or the exception of [hashmap::at], both of which end the process. *)

From stdpp Require Import base gmap strings list.
From Stdlib Require Import ZArith QArith.
From S2P Require Import Prelude Strings Roles Ranges Scalar Values Quantities Registry Resource Resources ResourceOps Conversions ResourceFormat Quota QuotaTree.
Local Open Scope Z_scope.

(** ** State *)

Record Offer := mkOffer {
  o_id : string;
  o_framework : string;
  o_agent : string;
  o_role : option string;
  o_resources : Resources;
}.

Record Framework := mkFramework {
  f_id : string;
  f_roles : gset string;
  f_running : bool;
  f_used : Resources;
  f_offered : Resources;
}.

Record Agent := mkAgent {
  a_id : string;
  a_running : bool;
  a_total : Resources;
  a_used : list Resources;
}.

Record Master := mkMaster {
  roleWhitelist : option (gset string);
  m_quotas : gmap string Quota;
  frameworks : list Framework;
  agents : list Agent;
  offers : list Offer;
  (** what the allocator was told last *)
  allocator_quotas : gmap string Quota;
}.

Definition with_quotas (q a : gmap string Quota) (m : Master) : Master :=
  mkMaster (roleWhitelist m) q (frameworks m) (agents m) (offers m) a.

Definition with_offers (f : list Framework) (o : list Offer) (m : Master) : Master :=
  mkMaster (roleWhitelist m) (m_quotas m) f (agents m) o (allocator_quotas m).

Definition isWhitelistedRole (m : Master) (role : string) : bool :=
  match roleWhitelist m with None => true | Some s => bool_decide (role ∈ s) end.

(** ** Quantities of resources *)

Fixpoint add_ranges (q : entries) (n : string) (l : list Range) : option entries :=
  match l with
  | [] => Some q
  | r :: l' => q' ← Quantities.add q n (1000 * u64 (rend r - rbegin r + 1)); add_ranges q' n l'
  end.

Fixpoint add_resources (q : entries) (l : list Resource) : option entries :=
  match l with
  | [] => Some q
  | r :: l' =>
      q' ← match value r with
           | VScalar z => Quantities.add q (name r) z
           | VSet items => Quantities.add q (name r) (1000 * Z.of_nat (length items))
           | VRanges ranges => add_ranges q (name r) ranges
           | VText _ => None
           end;
      add_resources q' l'
  end.

(** [ResourceQuantities::fromResources]. *)
Definition fromResources (rs : Resources) : option entries := add_resources [] (to_list rs).

Fixpoint sum_of {A : Type} (f : A -> option entries) (l : list A) (acc : entries) : option entries :=
  match l with
  | [] => Some acc
  | x :: l' => q ← f x; sum_of f l' (Quantities.plus acc q)
  end.

Definition offered (m : Master) (role : string) : option entries :=
  sum_of (fun f => fromResources (allocatedToRoleSubtree role (f_offered f))) (frameworks m) [].

Definition allocated (m : Master) (role : string) : option entries :=
  sum_of (fun f => fromResources (allocatedToRoleSubtree role (f_used f))) (frameworks m) [].

Definition unallocatedReservation (role : string) (a : Agent) : option entries :=
  totalReservation ← fromResources (reservedToRoleSubtree role (a_total a));
  usedReservation ← sum_of (fun r => fromResources (reservedToRoleSubtree role r)) (a_used a) [];
  Some (Quantities.minus totalReservation usedReservation).

Definition consumedQuota (m : Master) (role : string) : option entries :=
  unallocated ← sum_of (unallocatedReservation role) (agents m) [];
  used ← allocated m role;
  Some (Quantities.plus used unallocated).

Definition capacity (l : list Agent) : option entries :=
  sum_of (fun a => fromScalarResources (scalars (nonRevocable (a_total a)))) l [].

(** ** The checks of a request *)

Inductive refusal :=
  | NotWhitelisted
  | NestedRole
  | InvalidConfig (e : quota_error)
  | BelowConsumption
  | Hierarchy (e : tree_error)
  | Overcommit
  | InvalidGuarantee (e : resource_error)
  | AlreadySet
  | NotSet.

Fixpoint check_configs (m : Master) (configs : list QuotaConfig) : option refusal :=
  match configs with
  | [] => None
  | c :: rest =>
      if negb (isWhitelistedRole m (config_role c)) then Some NotWhitelisted
      else if Strings.contains (config_role c) "/" then Some NestedRole
      else match validate_config c with
           | Some e => Some (InvalidConfig e)
           | None => check_configs m rest
           end
  end.

Fixpoint check_consumption (m : Master) (force : bool) (configs : list QuotaConfig)
  : option (option refusal) :=
  match configs with
  | [] => Some None
  | c :: rest =>
      l ← limits_of (limits c);
      consumed ← consumedQuota m (config_role c);
      if negb (limits_contains_quantities l consumed) && negb force then Some (Some BelowConsumption)
      else check_consumption m force rest
  end.

Fixpoint config_quotas (configs : list QuotaConfig) : option (list (string * Quota)) :=
  match configs with
  | [] => Some []
  | c :: rest => q ← Quota_of_config c; l ← config_quotas rest; Some ((config_role c, q) :: l)
  end.

(** [QuotaHandler::update] up to the authorization. *)
Definition update_call (m : Master) (configs : list QuotaConfig) (force : bool) : option (option refusal) :=
  match check_configs m configs with
  | Some e => Some (Some e)
  | None =>
      consumption ← check_consumption m force configs;
      match consumption with
      | Some e => Some (Some e)
      | None =>
          requested ← config_quotas configs;
          quotaTree ← update_all empty_tree (map_to_list (m_quotas m) ++ requested);
          match validate_tree quotaTree with
          | Some e => Some (Some (Hierarchy e))
          | None =>
              clusterCapacity ← capacity (agents m);
              if negb (Quantities.contains clusterCapacity (totalGuarantees quotaTree)) && negb force
              then Some (Some Overcommit) else Some None
          end
      end
  end.

Fixpoint resources_of_wire (l : list Message) : option (list Resource) :=
  match l with
  | [] => Some []
  | m :: l' => r ← of_wire m; rest ← resources_of_wire l'; Some (r :: rest)
  end.

(** [QuotaHandler::_set] up to the authorization. *)
Definition set_call (m : Master) (role : option string) (request : list Message) (principal : option string)
  : option (result refusal QuotaInfo) :=
  match validate_messages request with
  | Some e => Some (Err (InvalidGuarantee e))
  | None =>
      upgraded ← upgradeResources request;
      l ← resources_of_wire upgraded;
      let info := mkInfo (Some (default EmptyString role)) principal l in
      match validate_quotaInfo info with
      | Some e => Some (Err (InvalidConfig e))
      | None =>
          if negb (isWhitelistedRole m (info_role info)) then Some (Err NotWhitelisted)
          else if decide (is_Some (m_quotas m !! info_role info)) then Some (Err AlreadySet)
          else
            quota ← Quota_of_info info;
            quotaTree ← update_all empty_tree (map_to_list (m_quotas m) ++ [(info_role info, quota)]);
            match validate_tree quotaTree with
            | Some e => Some (Err (Hierarchy e))
            | None => if Strings.contains (info_role info) "/" then Some (Err NestedRole) else Some (Ok info)
            end
      end
  end.

(** [QuotaHandler::overcommitCheck]. *)
Definition overcommitCheck (l : list Agent) (quotas : gmap string Quota) (info : QuotaInfo)
  : option (option refusal) :=
  quota ← Quota_of_info info;
  quotaTree ← update_all empty_tree (map_to_list quotas ++ [(info_role info, quota)]);
  match validate_tree quotaTree with
  | Some _ => None
  | None =>
      c ← capacity l;
      Some (if Quantities.contains c (totalGuarantees quotaTree) then None else Some Overcommit)
  end.

(** The [QuotaConfig] that stands for a request of the old interface. *)
Definition legacy_config (info : QuotaInfo) : QuotaConfig :=
  let quota := map (fun '(n, z) => (n, Finite (convertToFloating z))) (map_to_list (guarantee_map (guarantee info))) in
  mkConfig (Some (info_role info)) quota quota.

(** [QuotaHandler::__set] up to the registrar. *)
Definition set_authorized (m : Master) (info : QuotaInfo) (forced : bool)
  : option (result refusal (Master * Quota)) :=
  refused ← (if forced then Some None else overcommitCheck (agents m) (m_quotas m) info);
  match refused with
  | Some e => Some (Err e)
  | None =>
      quota ← Quota_of_info info;
      Some (Ok (with_quotas (<[info_role info := quota]> (m_quotas m)) (allocator_quotas m) m, quota))
  end.

(** [QuotaHandler::remove(const http::Request&)] and
    [QuotaHandler::remove(const Call&)] up to the authorization, with the
    lookup of [_remove]. *)
Definition remove_ (m : Master) (role : string) : option (result refusal ()) :=
  _ ← m_quotas m !! role; Some (Ok ()).

Definition remove_request (m : Master) (role : string) : option (result refusal ()) :=
  if negb (isWhitelistedRole m role) then Some (Err NotWhitelisted)
  else if decide (m_quotas m !! role = None) then Some (Err NotSet)
  else
    quotaTree ← update_all empty_tree (map_to_list (delete role (m_quotas m)));
    match validate_tree quotaTree with
    | Some e => Some (Err (Hierarchy e))
    | None => remove_ m role
    end.

Definition remove_call (m : Master) (role : string) : option (result refusal ()) := remove_ m role.

(** [QuotaHandler::__remove] up to the registrar. *)
Definition remove_authorized (m : Master) (role : string) : result refusal Master :=
  if decide (m_quotas m !! role = None) then Err NotSet
  else Ok (with_quotas (delete role (m_quotas m)) (allocator_quotas m) m).

Definition default_config (role : string) : QuotaConfig := mkConfig (Some role) [] [].

(** ** Rescinding offers *)

(** [Framework::removeOffer]: what the framework was offered shrinks. *)
Definition remove_offered (o : Offer) (f : Framework) : Framework :=
  mkFramework (f_id f) (f_roles f) (f_running f) (f_used f) (Resources.minus (f_offered f) (o_resources o)).

(** [Master::rescindOffer]: [None] if the framework of the offer is not known. *)
Definition rescindOffer (o : Offer) (m : Master) : option Master :=
  f ← update_first (has_key f_id (o_framework o)) (remove_offered o) (frameworks m);
  Some (with_offers f (erase_first (has_key o_id (o_id o)) (offers m)) m).

(** The lambda [allocatedToRoleSubtree]. *)
Definition offer_in_subtree (role : string) (o : Offer) : option bool :=
  allocated_to ← o_role o;
  Some (bool_decide (allocated_to = role) || isStrictSubroleOf allocated_to role).

Definition framework_offers (m : Master) : list Offer :=
  concat (map (fun f => List.filter (has_key o_framework (f_id f)) (offers m)) (frameworks m)).
Definition agent_offers (m : Master) : list Offer :=
  concat (map (fun a => List.filter (has_key o_agent (a_id a)) (offers m)) (agents m)).

(** Offers to the role and its descendants, until the limits hold. *)
Fixpoint rescind_for_limits (l : entries) (role : string) (pending : list Offer)
    (consumedAndOffered : entries) (m : Master) : option (entries * Master) :=
  match pending with
  | [] => Some (consumedAndOffered, m)
  | o :: pending' =>
      if limits_contains_quantities l consumedAndOffered then Some (consumedAndOffered, m)
      else
        mine ← offer_in_subtree role o;
        if mine : bool then
          q ← fromResources (o_resources o);
          m' ← rescindOffer o m;
          rescind_for_limits l role pending' (Quantities.minus consumedAndOffered q) m'
        else rescind_for_limits l role pending' consumedAndOffered m
  end.

(** Offers to other roles, until the guarantees can be satisfied. *)
Fixpoint rescind_for_guarantees (g : entries) (role : string) (pending : list Offer)
    (consumedAndOffered rescinded : entries) (m : Master) : option (entries * Master) :=
  match pending with
  | [] => Some (rescinded, m)
  | o :: pending' =>
      if Quantities.contains (Quantities.plus rescinded consumedAndOffered) g then Some (rescinded, m)
      else
        mine ← offer_in_subtree role o;
        if mine : bool then rescind_for_guarantees g role pending' consumedAndOffered rescinded m
        else
          q ← fromResources (o_resources o);
          m' ← rescindOffer o m;
          rescind_for_guarantees g role pending' consumedAndOffered (Quantities.plus rescinded q) m'
  end.

Definition rescind_for_config (m : Master) (c : QuotaConfig) : option Master :=
  consumed ← consumedQuota m (config_role c);
  offered_ ← offered m (config_role c);
  l ← limits_of (limits c);
  '(consumedAndOffered, m1) ←
    rescind_for_limits l (config_role c) (framework_offers m) (Quantities.plus consumed offered_) m;
  g ← quantities_of (guarantees c);
  '(_, m2) ← rescind_for_guarantees g (config_role c) (agent_offers m1) consumedAndOffered [] m1;
  Some m2.

Fixpoint rescind_for_configs (m : Master) (configs : list QuotaConfig) : option Master :=
  match configs with
  | [] => Some m
  | c :: rest => m' ← rescind_for_config m c; rescind_for_configs m' rest
  end.

(** [QuotaHandler::rescindOffers], for a request of the old interface: all the
    offers of one agent after the other, until there are enough resources and
    as many agents as the role has running frameworks. *)
Fixpoint rescind_all (l : list Offer) (rescinded : Resources) (m : Master) : option (Resources * Master) :=
  match l with
  | [] => Some (rescinded, m)
  | o :: l' =>
      m' ← rescindOffer o m;
      rescind_all l' (Resources.plus rescinded (unallocate (o_resources o))) m'
  end.

Fixpoint rescind_agents (request : Resources) (frameworksInRole : nat) (l : list Agent)
    (rescinded : Resources) (visited : nat) (m : Master) : option Master :=
  match l with
  | [] => Some m
  | a :: l' =>
      if Resources.contains rescinded request && (frameworksInRole <=? visited)%nat then Some m
      else if negb (a_running a) then rescind_agents request frameworksInRole l' rescinded visited m
      else
        let mine := List.filter (has_key o_agent (a_id a)) (offers m) in
        '(rescinded', m') ← rescind_all mine rescinded m;
        let visited' := match mine with [] => visited | _ => S visited end in
        rescind_agents request frameworksInRole l' rescinded' visited' m'
  end.

Definition rescindOffers (m : Master) (info : QuotaInfo) : option Master :=
  if negb (isWhitelistedRole m (info_role info)) then None
  else
    let frameworksInRole :=
      length (List.filter (fun f => bool_decide (info_role info ∈ f_roles f) && f_running f) (frameworks m)) in
    rescind_agents (of_list (guarantee info)) frameworksInRole (agents m) [] 0 m.

(** ** When the registrar has answered

    The argument is the result of the operation; [CHECK(result)] fails when it
    was an error. *)

Fixpoint record_quotas (l : list (string * Quota)) (m : Master) : Master :=
  match l with
  | [] => m
  | (role, q) :: rest =>
      record_quotas rest (with_quotas (<[role := q]> (m_quotas m)) (<[role := q]> (allocator_quotas m)) m)
  end.

(** The continuation of [QuotaHandler::_update]. *)
Definition update_stored (m : Master) (configs : list QuotaConfig) (result : bool) : option Master :=
  if negb result then None
  else l ← config_quotas configs; rescind_for_configs (record_quotas l m) configs.

(** The continuation of [QuotaHandler::__set]. *)
Definition set_stored (m : Master) (info : QuotaInfo) (quota : Quota) (result : bool) : option Master :=
  if negb result then None
  else rescindOffers (with_quotas (m_quotas m) (<[info_role info := quota]> (allocator_quotas m)) m) info.

(** The continuation of [QuotaHandler::__remove]. *)
Definition remove_stored (m : Master) (role : string) (result : bool) : option Master :=
  if negb result then None
  else Some (with_quotas (m_quotas m) (<[role := DEFAULT_QUOTA]> (allocator_quotas m)) m).

(** ** Overlapping requests *)

Inductive Request :=
  | UpdateRequest (configs : list QuotaConfig)
  | SetRequest (info : QuotaInfo) (quota : Quota)
  | RemoveRequest (role : string).

Definition request_configs (r : Request) : list QuotaConfig :=
  match r with
  | UpdateRequest configs => configs
  | SetRequest info _ => [legacy_config info]
  | RemoveRequest role => [default_config role]
  end.

Inductive Waiting :=
  | WaitingUpdate (configs : list QuotaConfig)
  | WaitingSet (info : QuotaInfo) (forced : bool)
  | WaitingRemove (role : string).

(** [authorizing]: accepted requests that wait for the authorizer; [queued]:
    operations the registrar has to store; [answered]: stored ones whose
    continuation has not run yet, with their results. *)
Record System := mkSystem {
  master : Master;
  registry : QuotaRegistry;
  authorizing : list Waiting;
  queued : list Request;
  answered : list (Request * bool);
}.

Definition stored_answer (m : Master) (r : Request) (result : bool) : option Master :=
  match r with
  | UpdateRequest configs => update_stored m configs result
  | SetRequest info quota => set_stored m info quota result
  | RemoveRequest role => remove_stored m role result
  end.

(** What the authorizer's answer starts: a change of the master and an
    operation for the registrar, or a refusal. *)
Definition authorized (m : Master) (w : Waiting) : option (result refusal (Master * Request)) :=
  match w with
  | WaitingUpdate configs => Some (Ok (m, UpdateRequest configs))
  | WaitingSet info forced =>
      r ← set_authorized m info forced;
      Some (let? p := r in Ok (p.1, SetRequest info p.2))
  | WaitingRemove role =>
      Some (let? m' := remove_authorized m role in Ok (m', RemoveRequest role))
  end.

(** The registrar applies the first operation of its queue. *)
Definition store_next (s : System) : option System :=
  match queued s with
  | [] => None
  | r :: rest =>
      let '(registry', result) :=
        match UpdateQuota (request_configs r) (registry s) with
        | Ok (_, registry') => (registry', true)
        | Err _ => (registry s, false)
        end in
      Some (mkSystem (master s) registry' (authorizing s) rest (answered s ++ [(r, result)]))
  end.

Inductive event :=
  | UpdateCall (configs : list QuotaConfig) (force : bool)
  | SetCall (role : option string) (request : list Message) (principal : option string) (forced : bool)
  | RemoveHttp (role : string)
  | RemoveCall (role : string)
  | Authorized (i : nat) (answer : bool)
  | Stored
  | Answered.

Definition wait_for (s : System) (w : Waiting) : System :=
  mkSystem (master s) (registry s) (authorizing s ++ [w]) (queued s) (answered s).

(** One event; a refused request and an event that cannot happen change
    nothing. *)
Definition handle (s : System) (e : event) : option System :=
  match e with
  | UpdateCall configs force =>
      r ← update_call (master s) configs force;
      Some (match r with None => wait_for s (WaitingUpdate configs) | Some _ => s end)
  | SetCall role request principal forced =>
      r ← set_call (master s) role request principal;
      Some (match r with Ok info => wait_for s (WaitingSet info forced) | Err _ => s end)
  | RemoveHttp role =>
      r ← remove_request (master s) role;
      Some (match r with Ok _ => wait_for s (WaitingRemove role) | Err _ => s end)
  | RemoveCall role =>
      r ← remove_call (master s) role;
      Some (match r with Ok _ => wait_for s (WaitingRemove role) | Err _ => s end)
  | Authorized i answer =>
      match authorizing s !! i with
      | None => Some s
      | Some w =>
          let rest := delete i (authorizing s) in
          let dropped := mkSystem (master s) (registry s) rest (queued s) (answered s) in
          if negb answer then Some dropped
          else
            r ← authorized (master s) w;
            Some (match r with
                  | Ok (m, request) => mkSystem m (registry s) rest (queued s ++ [request]) (answered s)
                  | Err _ => dropped
                  end)
      end
  | Stored => Some (default s (store_next s))
  | Answered =>
      match answered s with
      | [] => Some s
      | (r, result) :: rest =>
          m ← stored_answer (master s) r result;
          Some (mkSystem m (registry s) (authorizing s) (queued s) rest)
      end
  end.

Fixpoint handle_all (s : System) (l : list event) : option System :=
  match l with
  | [] => Some s
  | e :: l' => s' ← handle s e; handle_all s' l'
  end.

(** A master that has just recovered. *)
Definition recovered (whitelist : option (gset string)) (fs : list Framework) (l : list Agent)
    (o : list Offer) (r : QuotaRegistry) : option System :=
  q ← recover_quotas r;
  Some (mkSystem (mkMaster whitelist q fs l o q) r [] [] []).

(** ** Quantities are defined *)

Lemma add_ranges_total l q n : wf_quantities q -> exists q', add_ranges q n l = Some q' /\ wf_quantities q'.
Proof.
  revert q. induction l as [|r l IH]; intros q Hq; cbn; [by exists q|].
  destruct (quantities_add_total q n (1000 * u64 (rend r - rbegin r + 1)) Hq) as (q' & -> & Hq').
  - destruct (u64_range (rend r - rbegin r + 1)). lia.
  - cbn. by apply IH.
Qed.

Lemma add_resources_total l q :
  wf_values l -> wf_quantities q -> exists q', add_resources q l = Some q' /\ wf_quantities q'.
Proof.
  intros Hl. revert q. induction Hl as [|r l Hr Hl IH]; intros q Hq; cbn; [by exists q|].
  enough (H : exists q', match value r with
           | VScalar z => Quantities.add q (name r) z
           | VSet items => Quantities.add q (name r) (1000 * Z.of_nat (length items))
           | VRanges ranges => add_ranges q (name r) ranges
           | VText _ => None
           end = Some q' /\ wf_quantities q').
  { destruct H as (q' & -> & Hq'). cbn. by apply IH. }
  destruct (value r); cbn in Hr; [by apply quantities_add_total|by apply add_ranges_total|apply quantities_add_total; [done|lia]|done].
Qed.

Lemma fromResources_total rs : wf_resources rs -> exists q, fromResources rs = Some q /\ wf_quantities q.
Proof. intros H. apply add_resources_total; [by apply wf_resources_values|apply wf_empty]. Qed.

Lemma sum_of_total {A} (f : A -> option entries) l acc :
  Forall (fun x => exists q, f x = Some q /\ wf_quantities q) l -> wf_quantities acc ->
  exists q, sum_of f l acc = Some q /\ wf_quantities q.
Proof.
  intros Hl. revert acc. induction Hl as [|x l (q & Hq & Hw) Hl IH]; intros acc Ha; cbn; [by exists acc|].
  rewrite Hq. cbn. apply IH. by apply wf_plus.
Qed.

(** What the master holds: well-formed resources, and offers of known
    frameworks with their roles. *)
Record wf_master (m : Master) : Prop := {
  wm_frameworks : Forall (fun f => wf_resources (f_used f) /\ wf_resources (f_offered f)) (frameworks m);
  wm_agents : Forall (fun a => wf_resources (a_total a) /\ Forall wf_resources (a_used a)) (agents m);
  wm_offers : Forall (fun o => o_framework o ∈ map f_id (frameworks m) /\ is_Some (o_role o)
                               /\ wf_resources (o_resources o)) (offers m);
  wm_quotas : forall role q, m_quotas m !! role = Some q ->
                tokenize role "/" <> [] /\ wf_quantities (q_guarantees q);
}.

Lemma consumedQuota_total m role :
  wf_master m -> exists q, consumedQuota m role = Some q /\ wf_quantities q.
Proof.
  intros [Hf Ha _ _]. unfold consumedQuota, allocated.
  destruct (sum_of_total (unallocatedReservation role) (agents m) []) as (q1 & -> & Hq1); [|apply wf_empty|].
  { eapply Forall_impl; [exact Ha|]. intros a [Ht Hu]. unfold unallocatedReservation.
    destruct (fromResources_total (reservedToRoleSubtree role (a_total a))) as (t & -> & Hwt); [by apply wf_filter|].
    cbn. edestruct (sum_of_total (fun r => fromResources (reservedToRoleSubtree role r)) (a_used a) [])
      as (u & -> & Hwu); [|apply wf_empty|].
    - eapply Forall_impl; [exact Hu|]. intros r Hr. by apply fromResources_total, wf_filter.
    - cbn. eexists. split; [done|]. by apply Quantities.wf_minus. }
  cbn. edestruct (sum_of_total (fun f => fromResources (allocatedToRoleSubtree role (f_used f))) (frameworks m) [])
    as (q2 & -> & Hq2); [|apply wf_empty|].
  { eapply Forall_impl; [exact Hf|]. intros f [Hr _]. by apply fromResources_total, wf_filter. }
  cbn. eexists. split; [done|]. by apply wf_plus.
Qed.

Lemma offered_total m role : wf_master m -> exists q, offered m role = Some q /\ wf_quantities q.
Proof.
  intros [Hf _ _ _]. apply sum_of_total; [|apply wf_empty].
  eapply Forall_impl; [exact Hf|]. intros f [_ Hr]. by apply fromResources_total, wf_filter.
Qed.

Lemma capacity_total m : wf_master m -> exists q, capacity (agents m) = Some q /\ wf_quantities q.
Proof.
  intros [_ Ha _ _]. apply sum_of_total; [|apply wf_empty].
  eapply Forall_impl; [exact Ha|]. intros a [Hr _]. by apply fromScalarResources_total, wf_filter.
Qed.

Lemma tokenize_role role : Roles.validate role = None -> tokenize role "/" <> [].
Proof.
  intros [->|(cs & Hp & ->)]%validate_none_path; [by vm_compute|]. unfold tokenize, role_text.
  rewrite explode_implode, tokenize_tokens. change (is_delim (explode "/")) with is_slash.
  rewrite nonempty_fields_all; rewrite role_path_fields; try done.
  - intros E%map_eq_nil. by destruct Hp.
  - by apply role_path_nonempty.
Qed.

Lemma config_quotas_total configs :
  Forall (fun c => validate_config c = None) configs ->
  exists l, config_quotas configs = Some l
    /\ Forall (fun e => tokenize e.1 "/" <> [] /\ wf_quantities (q_guarantees e.2)) l.
Proof.
  induction 1 as [|c configs Hc _ (l & Hl & Hf)]; cbn; [by exists []|].
  destruct (validate_config_quota c Hc) as (g & lim & -> & Hg & _). rewrite Hl. cbn.
  eexists. split; [done|]. constructor; [|done]. split; [|done]. cbn.
  apply validate_config_none in Hc as [(role & Hr & Hv) _]. unfold config_role. rewrite Hr. by apply tokenize_role.
Qed.

Lemma update_all_total l root : Forall (fun e => tokenize e.1 "/" <> []) l -> is_Some (update_all root l).
Proof.
  intros Hl. revert root. induction Hl as [|[role q] l Hr Hl IH]; intros root; [by eexists|].
  cbn [update_all fst] in *. unfold update_tree. destruct (tokenize role "/"); [done|]. apply IH.
Qed.

Lemma quotas_list m :
  wf_master m -> Forall (fun e => tokenize e.1 "/" <> [] /\ wf_quantities (q_guarantees e.2)) (map_to_list (m_quotas m)).
Proof.
  intros Hm. apply Forall_forall. intros [role q] Hin%elem_of_map_to_list. by eapply wm_quotas.
Qed.

Lemma check_configs_none m configs :
  check_configs m configs = None ->
  Forall (fun c => validate_config c = None /\ isWhitelistedRole m (config_role c) = true
                   /\ Strings.contains (config_role c) "/" = false) configs.
Proof.
  induction configs as [|c configs IH]; cbn; [by constructor|].
  destruct (isWhitelistedRole m (config_role c)) eqn:E1; [|done]. cbn.
  destruct (Strings.contains (config_role c) "/") eqn:E2; [done|].
  destruct (validate_config c) eqn:E3; [done|]. intros H. constructor; [done|by apply IH].
Qed.

Lemma check_consumption_total m force configs :
  wf_master m -> Forall (fun c => validate_config c = None) configs ->
  exists r, check_consumption m force configs = Some r
    /\ (r = None -> force = false ->
        Forall (fun c => exists l q, limits_of (limits c) = Some l /\ consumedQuota m (config_role c) = Some q
                         /\ limits_contains_quantities l q = true) configs).
Proof.
  intros Hm. induction 1 as [|c configs Hc _ (r & Hr & Hf)]; cbn; [by exists None|].
  apply validate_config_none in Hc as (_ & _ & _ & g & l & _ & Hl & _). rewrite Hl. cbn.
  destruct (consumedQuota_total m (config_role c) Hm) as (q & Hq & _). rewrite Hq. cbn.
  destruct (limits_contains_quantities l q) eqn:E; cbn.
  - exists r. split; [done|]. intros Hn Hf'. constructor; [by exists l, q|auto].
  - destruct force; cbn; [by exists r|by exists (Some BelowConsumption)].
Qed.

(** ** Accepted requests *)

(** The tree that a request would lead to. *)
Definition requested_tree (m : Master) (configs : list QuotaConfig) : option Node :=
  l ← config_quotas configs; update_all empty_tree (map_to_list (m_quotas m) ++ l).

Lemma update_call_spec m configs force :
  wf_master m ->
  exists r, update_call m configs force = Some r
  /\ (r = None ->
      Forall (fun c => validate_config c = None /\ isWhitelistedRole m (config_role c) = true
                       /\ Strings.contains (config_role c) "/" = false) configs
      /\ exists root c, requested_tree m configs = Some root /\ validate_tree root = None
         /\ capacity (agents m) = Some c
         /\ (force = false -> Quantities.contains c (totalGuarantees root) = true
             /\ Forall (fun c => exists l q, limits_of (limits c) = Some l /\ consumedQuota m (config_role c) = Some q
                         /\ limits_contains_quantities l q = true) configs)).
Proof.
  intros Hm. unfold update_call, requested_tree. destruct (check_configs m configs) as [e|] eqn:Ec; [by exists (Some e)|].
  apply check_configs_none in Ec.
  assert (Hv : Forall (fun c => validate_config c = None) configs).
  { eapply Forall_impl; [exact Ec|]. by intros c [? _]. }
  destruct (check_consumption_total m force configs Hm Hv) as (r & -> & Hr). cbn.
  destruct r as [e|]; [by exists (Some e)|].
  destruct (config_quotas_total configs Hv) as (l & -> & Hl). cbn.
  destruct (update_all_total (map_to_list (m_quotas m) ++ l) empty_tree) as [root Hroot].
  { apply Forall_app. split; [eapply Forall_impl; [by apply quotas_list|]|eapply Forall_impl; [exact Hl|]];
      by intros e [? _]. }
  rewrite Hroot. cbn. destruct (validate_tree root) as [e|] eqn:Et; [by exists (Some (Hierarchy e))|].
  destruct (capacity_total m Hm) as (c & -> & _). cbn.
  destruct (Quantities.contains c (totalGuarantees root)) eqn:Eq; cbn.
  - exists None. split; [done|]. intros _. split; [done|]. exists root, c. split_and!; try done. auto.
  - destruct force; cbn; [|by exists (Some Overcommit)]. exists None. split; [done|].
    intros _. split; [done|]. by exists root, c.
Qed.

(** ** Rescinding *)

(** What rescinding leaves as it was. *)
Record only_offers (m m' : Master) : Prop := {
  oo_whitelist : roleWhitelist m' = roleWhitelist m;
  oo_quotas : m_quotas m' = m_quotas m;
  oo_allocator : allocator_quotas m' = allocator_quotas m;
  oo_agents : agents m' = agents m;
  oo_frameworks : map f_id (frameworks m') = map f_id (frameworks m);
  oo_offers : sublist (offers m') (offers m);
}.

#[export] Instance only_offers_preorder : PreOrder only_offers.
Proof.
  split; [by intros m; split|]. intros a b c [] []. split; try congruence. by etrans.
Qed.

Definition offer_ok (ids : list string) (o : Offer) : Prop :=
  o_framework o ∈ ids /\ is_Some (o_role o) /\ wf_resources (o_resources o).

Lemma update_first_total {A} (p : A -> bool) f l : (exists x, x ∈ l /\ p x = true) -> is_Some (update_first p f l).
Proof.
  induction l as [|y l IH]; intros (x & Hx & Hp); [by apply elem_of_nil in Hx|]. cbn.
  destruct (p y) eqn:E; [by eexists|]. apply elem_of_cons in Hx as [->|Hx]; [congruence|].
  destruct IH as [l' ->]; [by exists x|]. by eexists.
Qed.

Lemma rescindOffer_spec o m :
  wf_master m -> offer_ok (map f_id (frameworks m)) o ->
  exists m', rescindOffer o m = Some m' /\ wf_master m' /\ only_offers m m'
    /\ offers m' = erase_first (has_key o_id (o_id o)) (offers m).
Proof.
  intros [Hf Ha Ho Hq] (Hin & _ & Hr). unfold rescindOffer.
  destruct (update_first_total (has_key f_id (o_framework o)) (remove_offered o) (frameworks m)) as [fs Hfs].
  { apply list_elem_of_fmap_1 in Hin as (f & E & Hin). exists f. split; [done|]. unfold has_key.
    by apply bool_decide_eq_true. }
  rewrite Hfs. cbn. eexists. split; [done|].
  assert (Hids : map f_id fs = map f_id (frameworks m)) by (eapply update_first_map; [|exact Hfs]; done).
  split_and!; [|by split; cbn; try done; apply erase_first_sublist|done].
  split; cbn; [|done| |done].
  - eapply update_first_Forall; [|exact Hfs|exact Hf]. intros f _ [H1 H2]. split; [done|]. cbn.
    apply minus_wf_resources; [done|]. apply Hr.
  - rewrite Hids. eapply Forall_sublist; [apply erase_first_sublist|done].
Qed.

Lemma offer_in_subtree_total role ids o : offer_ok ids o -> exists b, offer_in_subtree role o = Some b.
Proof. intros (_ & [r Hr] & _). unfold offer_in_subtree. rewrite Hr. cbn. by eexists. Qed.

Lemma lookup_erased {A} (key : A -> string) k l x :
  NoDup (map key l) -> x ∈ erase_first (has_key key k) l -> key x <> k.
Proof.
  intros Hn Hx <-. assert (H := lookup_erase_first key (key x) (key x) l Hn). rewrite decide_True in H by done.
  apply lookup_key_none in H. apply H. by apply list_elem_of_fmap_2.
Qed.

Lemma rescind_for_limits_spec l role pending consumed m :
  wf_master m -> wf_quantities consumed -> Forall (offer_ok (map f_id (frameworks m))) pending ->
  NoDup (map o_id (offers m)) ->
  exists consumed' m', rescind_for_limits l role pending consumed m = Some (consumed', m')
    /\ wf_master m' /\ wf_quantities consumed' /\ only_offers m m'
    /\ (limits_contains_quantities l consumed' = true
        \/ forall o, o ∈ pending -> offer_in_subtree role o = Some true -> o_id o ∉ map o_id (offers m')).
Proof.
  revert consumed m. induction pending as [|o pending IH]; intros consumed m Hm Hc Hp Hn; cbn.
  { exists consumed, m. split_and!; [done..|]. right. by intros o Ho%elem_of_nil. }
  apply Forall_cons in Hp as [Ho Hp].
  destruct (limits_contains_quantities l consumed) eqn:El; [exists consumed, m; split_and!; [done..|by left]|].
  destruct (offer_in_subtree_total role _ o Ho) as [[] Eb]; rewrite Eb; cbn.
  - destruct (fromResources_total (o_resources o)) as (q & -> & Hq); [apply Ho|]. cbn.
    destruct (rescindOffer_spec o m Hm Ho) as (m1 & -> & Hm1 & Ho1 & Eo). cbn.
    destruct (IH (Quantities.minus consumed q) m1) as (c' & m' & -> & Hm' & Hc' & Ho' & Hd);
      [done|by apply Quantities.wf_minus| | |].
    + by rewrite (oo_frameworks _ _ Ho1).
    + eapply NoDup_sublist; [|exact Hn]. apply sublist_map, Ho1.
    + exists c', m'. split_and!; [done..|by etrans|]. destruct Hd as [Hd|Hd]; [by left|right].
      intros o' [->|Hin]%elem_of_cons Hs; [|by apply Hd]. intros Hin.
      assert (Hin' : o_id o ∈ map o_id (offers m1)) by (eapply elem_of_sublist; [exact Hin|apply sublist_map, Ho']).
      rewrite Eo in Hin'. apply list_elem_of_fmap_1 in Hin' as (x & E & Hx). by apply lookup_erased in Hx; [|done].
  - destruct (IH consumed m Hm Hc Hp Hn) as (c' & m' & -> & Hm' & Hc' & Ho' & Hd).
    exists c', m'. split_and!; [done..|]. destruct Hd as [Hd|Hd]; [by left|right].
    intros o' [->|Hin]%elem_of_cons Hs; [congruence|by apply Hd].
Qed.

Lemma rescind_for_guarantees_spec g role pending consumed rescinded m :
  wf_master m -> wf_quantities consumed -> wf_quantities rescinded ->
  Forall (offer_ok (map f_id (frameworks m))) pending -> NoDup (map o_id (offers m)) ->
  exists rescinded' m', rescind_for_guarantees g role pending consumed rescinded m = Some (rescinded', m')
    /\ wf_master m' /\ only_offers m m'
    /\ (Quantities.contains (Quantities.plus rescinded' consumed) g = true
        \/ forall o, o ∈ pending -> offer_in_subtree role o = Some false -> o_id o ∉ map o_id (offers m')).
Proof.
  revert rescinded m. induction pending as [|o pending IH]; intros rescinded m Hm Hc Hr Hp Hn; cbn.
  { exists rescinded, m. split_and!; [done..|]. right. by intros o Ho%elem_of_nil. }
  apply Forall_cons in Hp as [Ho Hp].
  destruct (Quantities.contains _ g) eqn:El; [exists rescinded, m; split_and!; [done..|by left]|].
  destruct (offer_in_subtree_total role _ o Ho) as [[] Eb]; rewrite Eb; cbn.
  - destruct (IH rescinded m Hm Hc Hr Hp Hn) as (c' & m' & -> & Hm' & Ho' & Hd).
    exists c', m'. split_and!; [done..|]. destruct Hd as [Hd|Hd]; [by left|right].
    intros o' [->|Hin]%elem_of_cons Hs; [congruence|by apply Hd].
  - destruct (fromResources_total (o_resources o)) as (q & -> & Hq); [apply Ho|]. cbn.
    destruct (rescindOffer_spec o m Hm Ho) as (m1 & -> & Hm1 & Ho1 & Eo). cbn.
    destruct (IH (Quantities.plus rescinded q) m1) as (c' & m' & -> & Hm' & Ho' & Hd);
      [done|done|by apply wf_plus| | |].
    + by rewrite (oo_frameworks _ _ Ho1).
    + eapply NoDup_sublist; [|exact Hn]. apply sublist_map, Ho1.
    + exists c', m'. split_and!; [done..|by etrans|]. destruct Hd as [Hd|Hd]; [by left|right].
      intros o' [->|Hin]%elem_of_cons Hs; [|by apply Hd]. intros Hin.
      assert (Hin' : o_id o ∈ map o_id (offers m1)) by (eapply elem_of_sublist; [exact Hin|apply sublist_map, Ho']).
      rewrite Eo in Hin'. apply list_elem_of_fmap_1 in Hin' as (x & E & Hx). by apply lookup_erased in Hx; [|done].
Qed.

Lemma elem_filter_key {A} (key : A -> string) k l x :
  x ∈ List.filter (has_key key k) l <-> x ∈ l /\ key x = k.
Proof.
  rewrite !list_elem_of_In, filter_In. unfold has_key. by rewrite bool_decide_eq_true.
Qed.

Lemma framework_offers_elem m o :
  wf_master m -> o ∈ framework_offers m <-> o ∈ offers m.
Proof.
  intros Hm. unfold framework_offers. split.
  - intros (f & _ & Ho)%elem_concat_map. by apply elem_filter_key in Ho as [? _].
  - intros Ho. assert (H := wm_offers m Hm). rewrite Forall_forall in H. destruct (H o Ho) as (Hf & _).
    apply list_elem_of_fmap_1 in Hf as (f & E & Hf). apply list_elem_of_In, in_concat.
    exists (List.filter (has_key o_framework (f_id f)) (offers m)). split.
    + apply list_elem_of_In. by apply (list_elem_of_fmap_2 (fun f => List.filter (has_key o_framework (f_id f)) (offers m))).
    + apply list_elem_of_In. by apply elem_filter_key.
Qed.

Lemma agent_offers_elem m o : o ∈ agent_offers m -> o ∈ offers m.
Proof.
  intros (a & _ & Ho)%elem_concat_map. by apply elem_filter_key in Ho as [? _].
Qed.

Lemma offers_ok m : wf_master m -> Forall (offer_ok (map f_id (frameworks m))) (offers m).
Proof. apply wm_offers. Qed.

(** What is consumed and offered once some offers are rescinded. *)
Fixpoint consumption_without (gone : list Offer) (consumed : entries) : option entries :=
  match gone with
  | [] => Some consumed
  | o :: gone' => q ← fromResources (o_resources o); consumption_without gone' (Quantities.minus consumed q)
  end.

Lemma same_key {A} (key : A -> string) l x y :
  NoDup (map key l) -> x ∈ l -> y ∈ l -> key x = key y -> x = y.
Proof.
  induction l as [|z l IH]; cbn; [by intros _ ?%elem_of_nil|]. intros [Hz Hn]%NoDup_cons Hx Hy E.
  apply elem_of_cons in Hx as [->|Hx], Hy as [->|Hy]; [done| | |by apply IH];
    destruct Hz; [rewrite E|rewrite <- E]; by apply list_elem_of_fmap_2.
Qed.

Lemma erase_offer_perm o l :
  NoDup (map o_id l) -> o ∈ l -> l ≡ₚ o :: erase_first (has_key o_id (o_id o)) l.
Proof.
  intros Hn Hin. apply erase_first_perm. destruct (lookup_key o_id (o_id o) l) as [x|] eqn:E.
  - apply lookup_key_elem in E as [Hx E]. f_equal. by apply (same_key o_id l).
  - apply lookup_key_none in E. destruct E. by apply list_elem_of_fmap_2.
Qed.

(** Which offers are rescinded: some of the role, no more than needed. *)
Lemma rescind_for_limits_exact l role pending consumed m :
  wf_master m -> Forall (offer_ok (map f_id (frameworks m))) pending ->
  NoDup (map o_id (offers m)) -> NoDup (map o_id pending) -> (forall o, o ∈ pending -> o ∈ offers m) ->
  exists gone consumed' m', rescind_for_limits l role pending consumed m = Some (consumed', m')
    /\ Forall (fun o => offer_in_subtree role o = Some true) gone
    /\ offers m ≡ₚ gone ++ offers m'
    /\ consumption_without gone consumed = Some consumed'
    /\ (forall g o, gone = g ++ [o] ->
          exists c, consumption_without g consumed = Some c /\ limits_contains_quantities l c = false).
Proof.
  assert (Hnil : forall o (g : list Offer), [] <> g ++ [o]) by (by intros o []).
  revert consumed m. induction pending as [|o pending IH]; intros consumed m Hm Hp Hn Hnp Hin; cbn.
  { exists [], consumed, m. split_and!; [done..|]. intros g o H. by apply Hnil in H. }
  apply Forall_cons in Hp as [Ho Hp]. apply NoDup_cons in Hnp as [Hno Hnp].
  destruct (limits_contains_quantities l consumed) eqn:El.
  { exists [], consumed, m. split_and!; [done..|]. intros g o' H. by apply Hnil in H. }
  destruct (offer_in_subtree_total role _ o Ho) as [[] Eb]; rewrite Eb; cbn.
  - destruct (fromResources_total (o_resources o)) as (q & Eq & Hq); [apply Ho|]. rewrite Eq. cbn.
    destruct (rescindOffer_spec o m Hm Ho) as (m1 & -> & Hm1 & Ho1 & Eo). cbn.
    assert (Hperm := erase_offer_perm o (offers m) Hn (Hin o ltac:(by left))). rewrite <- Eo in Hperm.
    destruct (IH (Quantities.minus consumed q) m1) as (gone & c' & m' & -> & Hg & Hpm & Hc & Hmin); [done|..].
    + by rewrite (oo_frameworks _ _ Ho1).
    + eapply NoDup_sublist; [|exact Hn]. apply sublist_map, Ho1.
    + done.
    + intros x Hx. assert (Hx' := Hin x ltac:(by right)). rewrite Hperm in Hx'.
      apply elem_of_cons in Hx' as [->|Hx']; [|done]. destruct Hno. by apply list_elem_of_fmap_2.
    + exists (o :: gone), c', m'. split_and!; [done|by constructor| | |].
      * by rewrite Hperm, Hpm.
      * cbn. by rewrite Eq.
      * intros [|o' g] o2 [= <- Hg2]; [by exists consumed|].
        destruct (Hmin g o2 Hg2) as (c & Hc2 & Hl2). exists c. split; [|done]. cbn. by rewrite Eq.
  - apply IH; [done..|]. intros x Hx. apply Hin. by right.
Qed.

Lemma filter_sublist_list {A} (p : A -> bool) l : sublist (List.filter p l) l.
Proof. induction l as [|x l IH]; cbn; [constructor|]. destruct (p x); by constructor. Qed.

Lemma framework_offers_nodup m :
  NoDup (map f_id (frameworks m)) -> NoDup (map o_id (offers m)) -> NoDup (map o_id (framework_offers m)).
Proof.
  unfold framework_offers. intros Hf Ho. induction (frameworks m) as [|f fs IH]; cbn; [constructor|].
  cbn in Hf. apply NoDup_cons in Hf as [Hnf Hf]. rewrite map_app. apply NoDup_app. split_and!; [| |by apply IH].
  - eapply NoDup_sublist; [|exact Ho]. apply sublist_map, filter_sublist_list.
  - intros id (x & -> & Hx)%list_elem_of_fmap_1 (y & E & Hy)%list_elem_of_fmap_1.
    apply elem_filter_key in Hx as [Hx Hxf]. apply elem_concat_map in Hy as (f' & Hf' & Hy).
    apply elem_filter_key in Hy as [Hy Hyf].
    assert (x = y) as -> by by apply (same_key o_id (offers m)).
    apply Hnf. rewrite <- Hxf, Hyf. by apply list_elem_of_fmap_2.
Qed.

(** C23. Rescinding for the limits of a quota takes back offers to the role or a
    descendant of it and nothing else: what is left of the consumption it is
    given is that consumption less the quantities of exactly the rescinded
    offers.  It is within the limits afterwards, or no offer to the role or a
    descendant of it is left; and without the last rescinded offer it was not
    within the limits.  Frameworks and offers have unique ids. *)
Theorem rescind_enforces_limits m l role consumed :
  wf_master m -> NoDup (map f_id (frameworks m)) -> NoDup (map o_id (offers m)) -> wf_quantities consumed ->
  exists gone consumed' m', rescind_for_limits l role (framework_offers m) consumed m = Some (consumed', m')
    /\ wf_master m' /\ only_offers m m'
    /\ Forall (fun o => offer_in_subtree role o = Some true) gone
    /\ offers m ≡ₚ gone ++ offers m'
    /\ consumption_without gone consumed = Some consumed'
    /\ (limits_contains_quantities l consumed' = true
        \/ forall o, o ∈ offers m' -> offer_in_subtree role o = Some false)
    /\ (forall g o, gone = g ++ [o] ->
          exists c, consumption_without g consumed = Some c /\ limits_contains_quantities l c = false).
Proof.
  intros Hm Hnf Hn Hc. assert (H1 := offers_ok m Hm). rewrite Forall_forall in H1.
  assert (Hp : Forall (offer_ok (map f_id (frameworks m))) (framework_offers m)).
  { apply Forall_forall. intros o Hin. rewrite framework_offers_elem in Hin by done. by apply H1. }
  destruct (rescind_for_limits_spec l role (framework_offers m) consumed m Hm Hc Hp Hn)
    as (c' & m' & H & Hm' & _ & Ho & Hd).
  destruct (rescind_for_limits_exact l role (framework_offers m) consumed m Hm Hp Hn)
    as (gone & c2 & m2 & H2 & Hg & Hpm & Hcw & Hmin); [by apply framework_offers_nodup|..].
  { intros o. by rewrite framework_offers_elem. }
  rewrite H in H2. injection H2 as <- <-. exists gone, c', m'. split_and!; [done..| |done].
  destruct Hd as [Hd|Hd]; [by left|right].
  intros o Hin. assert (Hin' : o ∈ offers m) by (eapply elem_of_sublist; [exact Hin|apply Ho]).
  destruct (offer_in_subtree_total role _ o (H1 o Hin')) as [[] Eb]; [|done].
  exfalso. apply (Hd o); [by apply framework_offers_elem|done|]. by apply list_elem_of_fmap_2.
Qed.

Lemma rescind_for_config_spec m c :
  wf_master m -> NoDup (map o_id (offers m)) -> validate_config c = None ->
  exists m', rescind_for_config m c = Some m' /\ wf_master m' /\ only_offers m m'.
Proof.
  intros Hm Hn Hv. apply validate_config_none in Hv as (_ & _ & _ & g & l & Hg & Hl & _).
  unfold rescind_for_config.
  destruct (consumedQuota_total m (config_role c) Hm) as (q1 & -> & Hq1). cbn.
  destruct (offered_total m (config_role c) Hm) as (q2 & -> & Hq2). cbn. rewrite Hl. cbn.
  assert (H := offers_ok m Hm). rewrite Forall_forall in H.
  destruct (rescind_for_limits_spec l (config_role c) (framework_offers m) (Quantities.plus q1 q2) m Hm)
    as (c' & m1 & -> & Hm1 & Hc' & Ho1 & _); [by apply wf_plus| |done|].
  { apply Forall_forall. intros o Hin. rewrite framework_offers_elem in Hin by done. by apply H. }
  cbn. rewrite Hg. cbn.
  destruct (rescind_for_guarantees_spec g (config_role c) (agent_offers m1) c' [] m1 Hm1 Hc' wf_empty)
    as (r' & m2 & -> & Hm2 & Ho2 & _).
  { assert (H1 := offers_ok m1 Hm1). rewrite Forall_forall in H1. apply Forall_forall.
    intros o Hin%agent_offers_elem. by apply H1. }
  { eapply NoDup_sublist; [|exact Hn]. apply sublist_map, Ho1. }
  cbn. exists m2. split_and!; [done..|]. by etrans.
Qed.

Lemma rescind_for_configs_spec configs m :
  wf_master m -> NoDup (map o_id (offers m)) -> Forall (fun c => validate_config c = None) configs ->
  exists m', rescind_for_configs m configs = Some m' /\ wf_master m' /\ only_offers m m'.
Proof.
  intros Hm Hn Hc. revert m Hm Hn. induction Hc as [|c configs Hc _ IH]; intros m Hm Hn; cbn; [by exists m|].
  destruct (rescind_for_config_spec m c Hm Hn Hc) as (m1 & -> & Hm1 & Ho1). cbn.
  destruct (IH m1 Hm1) as (m' & H & Hm' & Ho'). { eapply NoDup_sublist; [|exact Hn]. apply sublist_map, Ho1. }
  exists m'. split_and!; [done..|]. by etrans.
Qed.

(** ** The quotas in memory, in the allocator and in the registry *)

Definition effective (m : gmap string Quota) (role : string) : Quota := default DEFAULT_QUOTA (m !! role).

Definition record_quota (m : gmap string Quota) (e : string * Quota) : gmap string Quota := <[e.1 := e.2]> m.

Lemma record_quotas_eq l m :
  record_quotas l m =
    with_quotas (fold_left record_quota l (m_quotas m)) (fold_left record_quota l (allocator_quotas m)) m.
Proof. revert m. induction l as [|[role q] l IH]; intros m; cbn; [by destruct m|]. by rewrite IH. Qed.

(** Setting a quota in the registry and recording it in memory agree, where
    no entry means the default. *)
Lemma effective_record configs l q q' :
  config_quotas configs = Some l -> (forall role, effective q role = effective q' role) ->
  forall role, effective (fold_left record_quota l q) role = effective (fold_left set_quota configs q') role.
Proof.
  revert l q q'. induction configs as [|c configs IH]; intros l q q' H Hq; cbn in H; [by injection H as <-|].
  destruct (Quota_of_config c) as [qc|] eqn:Ec; [|done]. cbn in H.
  destruct (config_quotas configs) as [l'|]; [|done]. injection H as <-. cbn. apply IH; [done|].
  intros role. unfold record_quota, set_quota, effective. rewrite Ec. cbn. specialize (Hq role). unfold effective in Hq.
  destruct (decide (role = config_role c)) as [->|Hne].
  - rewrite lookup_insert_eq. case_decide as E; [by rewrite lookup_delete_eq, E|by rewrite lookup_insert_eq].
  - rewrite lookup_insert_ne by done. case_decide; [by rewrite lookup_delete_ne|by rewrite lookup_insert_ne].
Qed.

(** The configurations of the requests whose continuation has not run. *)
Definition pending_configs (s : System) : list QuotaConfig :=
  concat (map (fun e => request_configs e.1) (answered s)).

Definition is_update (r : Request) : Prop :=
  exists configs, r = UpdateRequest configs /\ Forall (fun c => validate_config c = None) configs.

Record mirrors (s : System) : Prop := {
  mi_master : wf_master (master s);
  mi_ids : NoDup (map o_id (offers (master s)));
  mi_registry : wf_quota_registry (registry s);
  mi_authorizing : Forall (fun w => exists configs, w = WaitingUpdate configs
                              /\ Forall (fun c => validate_config c = None) configs) (authorizing s);
  mi_queued : Forall is_update (queued s);
  mi_answered : Forall (fun e => is_update e.1 /\ e.2 = true) (answered s);
  mi_allocator : allocator_quotas (master s) = m_quotas (master s);
  mi_quotas : forall role,
    effective (fold_left set_quota (pending_configs s) (m_quotas (master s))) role
    = default DEFAULT_QUOTA (stored_quota (registry s) role);
}.

Lemma effective_set configs q q' :
  (forall role, effective q role = effective q' role) ->
  forall role, effective (fold_left set_quota configs q) role = effective (fold_left set_quota configs q') role.
Proof.
  revert q q'. induction configs as [|c configs IH]; intros q q' Hq; [done|]. cbn. apply IH. intros role.
  unfold set_quota. destruct (Quota_of_config c); [|apply Hq]. specialize (Hq role). unfold effective in *.
  destruct (decide (role = config_role c)) as [->|]; case_decide.
  - by rewrite !lookup_delete_eq.
  - by rewrite !lookup_insert_eq.
  - by rewrite !lookup_delete_ne.
  - by rewrite !lookup_insert_ne.
Qed.

Definition update_event (e : event) : Prop :=
  match e with UpdateCall _ _ | Authorized _ _ | Stored | Answered => True | _ => False end.

Lemma store_next_mirrors s s' : mirrors s -> store_next s = Some s' -> mirrors s'.
Proof.
  intros [Hm Hi Hr Ha Hq Hans Hal Hmir]. unfold store_next. destruct (queued s) as [|r rest]; [done|].
  apply Forall_cons in Hq as [(configs & -> & Hv) Hq]. cbn [request_configs].
  destruct (recover_quotas_spec (registry s) (wf_quota_lists _ Hr)) as (q & _ & Hst).
  assert (H := UpdateQuota_spec configs (registry s) q Hr Hst).
  destruct (UpdateQuota configs (registry s)) as [[b r']|e].
  - destruct H as (_ & _ & Hr' & _ & _ & Hst'). intros [= <-]. split; cbn; try done.
    + apply Forall_app. split; [done|]. apply Forall_singleton. split; [by exists configs|done].
    + intros role. unfold pending_configs. cbn. rewrite map_app, concat_app, fold_left_app. cbn. rewrite app_nil_r.
      rewrite <- Hst'. apply effective_set. intros role'. rewrite Hmir. unfold effective. by rewrite Hst.
  - destruct H as (_ & c & Hc & He). rewrite Forall_forall in Hv. rewrite (Hv c Hc) in He. done.
Qed.

Lemma wf_record l m :
  wf_master m -> Forall (fun e => tokenize e.1 "/" <> [] /\ wf_quantities (q_guarantees e.2)) l ->
  wf_master (record_quotas l m).
Proof.
  intros Hm Hl. revert m Hm. induction Hl as [|[role q] l Hr Hl IH]; intros m Hm; [done|]. cbn. apply IH.
  destruct Hm as [H1 H2 H3 H4]. split; cbn; try done. intros role' q'.
  destruct (decide (role' = role)) as [->|]; [rewrite lookup_insert_eq; by intros [= <-]|].
  rewrite lookup_insert_ne by done. apply H4.
Qed.

Lemma answered_mirrors s s' : mirrors s -> handle s Answered = Some s' -> mirrors s'.
Proof.
  intros [Hm Hi Hr Ha Hq Hans Hal Hmir]. cbn. unfold pending_configs in Hmir.
  destruct (answered s) as [|[r b] rest] eqn:E; [intros [= <-]; split; try done; unfold pending_configs; by rewrite E|].
  apply Forall_cons in Hans as [[(configs & Er & Hv) Eb] Hans]. cbn in Er, Eb. subst r b. cbn.
  destruct (config_quotas_total configs Hv) as (l & Hl & Hlf). rewrite Hl. cbn.
  assert (Hw := wf_record l (master s) Hm Hlf).
  assert (Ei : offers (record_quotas l (master s)) = offers (master s)) by (by rewrite record_quotas_eq).
  destruct (rescind_for_configs_spec configs (record_quotas l (master s)) Hw) as (m' & -> & Hm' & Ho);
    [by rewrite Ei|done|]. cbn. intros [= <-].
  destruct Ho as [_ Eq Eal _ _ Hs]. rewrite record_quotas_eq in Eq, Eal. cbn in Eq, Eal.
  split; cbn; try done.
  - eapply NoDup_sublist; [|exact Hi]. rewrite <- Ei. by apply sublist_map.
  - congruence.
  - intros role. rewrite Eq, <- Hmir. unfold pending_configs. cbn. rewrite fold_left_app.
    apply effective_set. by apply effective_record.
Qed.

Lemma authorized_mirrors s s' i answer : mirrors s -> handle s (Authorized i answer) = Some s' -> mirrors s'.
Proof.
  intros Hs. assert (H := Hs). destruct H as [Hm Hi Hr Ha Hq Hans Hal Hmir]. cbn.
  destruct (authorizing s !! i) as [w|] eqn:Ew; [|by intros [= <-]].
  assert (Hw := Forall_lookup_1 _ _ _ _ Ha Ew). destruct Hw as (configs & -> & Hv).
  assert (Hd : Forall (fun w => exists configs, w = WaitingUpdate configs
                 /\ Forall (fun c => validate_config c = None) configs) (delete i (authorizing s))) by (by apply Forall_delete).
  destruct answer; cbn; intros [= <-]; split; try done. cbn. apply Forall_app. split; [done|].
  apply Forall_singleton. by exists configs.
Qed.

Lemma handle_mirrors s e : mirrors s -> update_event e -> exists s', handle s e = Some s' /\ mirrors s'.
Proof.
  intros Hs He. destruct e as [configs force| | | |i answer| |]; try done.
  - cbn. destruct (update_call_spec (master s) configs force (mi_master s Hs)) as (r & -> & Hr). cbn.
    eexists. split; [done|]. destruct r as [e|]; [done|]. destruct (Hr eq_refl) as [Hv _].
    destruct Hs. split; try done. cbn. apply Forall_app. split; [done|]. apply Forall_singleton.
    exists configs. split; [done|]. eapply Forall_impl; [exact Hv|]. by intros c [? _].
  - destruct (handle s (Authorized i answer)) as [s'|] eqn:E; [by exists s'; split; [|by eapply authorized_mirrors]|].
    exfalso. cbn in E. destruct (authorizing s !! i) as [w|] eqn:Ew; [|done].
    destruct (Forall_lookup_1 _ _ _ _ (mi_authorizing s Hs) Ew) as (configs & -> & _). by destruct answer.
  - cbn. eexists. split; [done|]. destruct (store_next s) eqn:E; [by eapply store_next_mirrors|done].
  - destruct (handle s Answered) as [s'|] eqn:E; [by exists s'; split; [|by eapply answered_mirrors]|].
    exfalso. cbn in E. destruct (answered s) as [|[r b] rest] eqn:Ea; [done|].
    assert (Ha := mi_answered s Hs). rewrite Ea in Ha. apply Forall_cons in Ha as [[(configs & Er & Hv) Eb] _].
    cbn in Er, Eb. subst r b. cbn in E. destruct (config_quotas_total configs Hv) as (l & Hl & Hlf). rewrite Hl in E.
    cbn in E. destruct (rescind_for_configs_spec configs (record_quotas l (master s))) as (m' & Hm' & _).
    + apply wf_record; [apply Hs|done].
    + rewrite record_quotas_eq. apply Hs.
    + done.
    + by rewrite Hm' in E.
Qed.

(** ** The quota requests of the current interface *)

Lemma recovered_mirrors whitelist fs l o r :
  wf_quota_registry r -> wf_master (mkMaster whitelist ∅ fs l o ∅) -> NoDup (map o_id o) ->
  (forall i, i ∈ quotas r -> Roles.validate (info_role i) = None /\ exists q, Quota_of_info i = Some q /\ wf_quantities (q_guarantees q)) ->
  exists s, recovered whitelist fs l o r = Some s /\ mirrors s.
Proof.
  intros Hr [H1 H2 H3 _] Hn Hi. unfold recovered.
  destruct (recover_quotas_spec r (wf_quota_lists r Hr)) as (q & -> & Hq). cbn. eexists. split; [done|].
  split; cbn -[tokenize]; try done; try by constructor.
  - split; cbn -[tokenize]; try done. intros role q'. rewrite Hq. unfold stored_quota.
    destruct (lookup_key config_role role _) as [c|] eqn:Ec.
    + intros H. apply lookup_key_elem in Ec as [Hin <-].
      assert (Hc := wf_configs _ (wf_quota_lists _ Hr)). rewrite Forall_forall in Hc. destruct (Hc c Hin) as [Hv _].
      destruct (config_quotas_total [c]) as (k & Hk & Hf); [by apply Forall_singleton|]. cbn in Hk.
      rewrite H in Hk. injection Hk as <-. rewrite Forall_singleton in Hf. exact Hf.
    + destruct (lookup_key info_role role _) as [i|] eqn:Ei; [|done]. cbn. intros H.
      apply lookup_key_elem in Ei as [Hin <-]. destruct (Hi i Hin) as (Hv & q'' & Hq'' & Hw).
      split; [by apply tokenize_role|congruence].
  - intros role. unfold effective. by rewrite Hq.
Qed.

Lemma handle_all_mirrors l s : mirrors s -> Forall update_event l -> exists s', handle_all s l = Some s' /\ mirrors s'.
Proof.
  intros Hs Hl. revert s Hs. induction Hl as [|e l He Hl IH]; intros s Hs; cbn; [by exists s|].
  destruct (handle_mirrors s e Hs He) as (s1 & -> & H1). cbn. by apply IH.
Qed.

(** C21. With requests of the current interface only, in any interleaving of
    calls, authorizations, stores and answers, no check of the master fails,
    and whenever nothing waits for its answer every role has the same quota in
    the master, in the allocator and in the registry, where no entry is the
    default.  A master that fails over recovers these quotas. *)
Theorem quotas_mirror_registry whitelist fs agents_ o r events :
  wf_quota_registry r -> wf_master (mkMaster whitelist ∅ fs agents_ o ∅) -> NoDup (map o_id o) ->
  (forall i, i ∈ quotas r -> Roles.validate (info_role i) = None
     /\ exists q, Quota_of_info i = Some q /\ wf_quantities (q_guarantees q)) ->
  Forall update_event events ->
  exists s s', recovered whitelist fs agents_ o r = Some s /\ handle_all s events = Some s'
    /\ wf_quota_registry (registry s')
    /\ allocator_quotas (master s') = m_quotas (master s')
    /\ exists q, recover_quotas (registry s') = Some q
       /\ (answered s' = [] -> forall role, effective (m_quotas (master s')) role = effective q role).
Proof.
  intros Hr Hm Hn Hi He. destruct (recovered_mirrors whitelist fs agents_ o r Hr Hm Hn Hi) as (s & Hs & Hmir).
  destruct (handle_all_mirrors events s Hmir He) as (s' & Hs' & Hm'). exists s, s'.
  split_and!; [done|done|apply Hm'|apply Hm'|].
  destruct (recover_quotas_spec (registry s') (wf_quota_lists _ (mi_registry s' Hm'))) as (q & Hq & Hst).
  exists q. split; [done|]. intros Ha role. assert (H := mi_quotas s' Hm' role). unfold pending_configs in H.
  rewrite Ha in H. cbn in H. rewrite H. unfold effective. by rewrite Hst.
Qed.

(** ** A cluster to try requests on *)

Definition sample_agent : Agent := mkAgent "s" true (of_list [cpus_ 8000]) [].
Definition sample_framework : Framework := mkFramework "f" {["a"%string]} true (of_list []) (of_list []).
Definition sample_system (r : QuotaRegistry) : option System :=
  recovered None [sample_framework] [sample_agent] [] r.
Definition no_quotas : QuotaRegistry := mkQuotaRegistry [] [] [] [].

Lemma no_quotas_wf : wf_quota_registry no_quotas.
Proof. split; [split; constructor|constructor|]. cbn. split; [by intros ?%elem_of_nil|done]. Qed.

Definition update_run : list event :=
  [UpdateCall [cpus_config "a" 2 4] false; UpdateCall [cpus_config "a" 1 3; cpus_config "b" 1 1] false;
   Authorized 1 true; Authorized 0 true; Stored; Answered; Stored; Answered].

Lemma quotas_mirror_registry_witness :
  exists s s', sample_system no_quotas = Some s /\ handle_all s update_run = Some s'
    /\ effective (m_quotas (master s')) "a" = mkQuota [("cpus"%string, 2000)] [("cpus"%string, 4000)]
    /\ exists q, recover_quotas (registry s') = Some q
       /\ (answered s' = [] -> forall role, effective (m_quotas (master s')) role = effective q role).
Proof.
  destruct (quotas_mirror_registry None [sample_framework] [sample_agent] [] no_quotas update_run)
    as (s & s' & H1 & H2 & _ & _ & H3).
  - apply no_quotas_wf.
  - split; cbn; [| |constructor|intros ? ?; by rewrite lookup_empty].
    + apply Forall_singleton. split; apply wf_nil.
    + apply Forall_singleton. split; [|constructor]. by apply of_list_wf, Forall_singleton.
  - constructor.
  - by intros i ?%elem_of_nil.
  - by repeat constructor.
  - exists s, s'. split_and!; [done|done| |done].
    vm_compute in H1. injection H1 as <-. vm_compute in H2. injection H2 as <-. by vm_compute.
Defined.

(** The positive case of rescinding: an offer is taken back, since the role
    consumes nothing but is offered more than its limit. *)
Definition offered_cpus (role : string) (z : Z) : Resource :=
  mkResource "cpus" (VScalar z) (Some (Some role)) [] None false false None.

Definition offering : Master :=
  mkMaster None ∅ [mkFramework "f" {["a"%string]} true (of_list []) (of_list [offered_cpus "a" 4000])]
    [sample_agent] [mkOffer "o" "f" "s" (Some "a"%string) (of_list [offered_cpus "a" 4000])] ∅.

Lemma offering_wf : wf_master offering.
Proof.
  assert (H : wf_resources (of_list [offered_cpus "a" 4000])) by (by apply of_list_wf, Forall_singleton).
  split; cbn -[of_list]; [| | |intros ? ?; by rewrite lookup_empty].
  - apply Forall_singleton. split; [apply wf_nil|done].
  - apply Forall_singleton. split; [by apply of_list_wf, Forall_singleton|constructor].
  - apply Forall_singleton. split_and!; [by left|by eexists|done].
Qed.

Lemma rescind_enforces_limits_witness :
  exists gone consumed' m', rescind_for_limits [("cpus"%string, 3000)] "a" (framework_offers offering)
      [("cpus"%string, 4000)] offering = Some (consumed', m')
    /\ wf_master m' /\ offers m' = [] /\ consumed' = []
    /\ consumption_without gone [("cpus"%string, 4000)] = Some consumed'.
Proof.
  destruct (rescind_enforces_limits offering [("cpus"%string, 3000)] "a" [("cpus"%string, 4000)])
    as (gone & c' & m' & H & Hm & _ & _ & _ & Hc & _).
  - apply offering_wf.
  - apply NoDup_singleton.
  - apply NoDup_singleton.
  - split; by repeat constructor.
  - exists gone, c', m'. split_and!; [done|done|..|done]; vm_compute in H; by injection H as <- <-.
Defined.

(** ** Departures

    The old interface changes the memory of the master before the registrar
    has stored the change, the current one afterwards. *)

Definition wire_cpus (z : Z) : Message :=
  mkMessage "cpus" SCALAR (Some z) None None None None None [] None false false None.

Definition run_events (r : QuotaRegistry) (l : list event) : option System :=
  s ← sample_system r; handle_all s l.

(** A [SET_QUOTA] that is accepted while an [UPDATE_QUOTA] for the same role
    is being stored ends with one quota in the master and another one in the
    registry and the allocator, with nothing left to do. *)
Theorem overlapping_calls_diverge :
  match run_events no_quotas [UpdateCall [cpus_config "a" 2 4] false; Authorized 0 true;
      SetCall (Some "a"%string) [wire_cpus 1000] None false; Authorized 0 true; Stored; Stored; Answered; Answered] with
  | Some s =>
      authorizing s = [] /\ queued s = [] /\ answered s = []
      /\ effective (m_quotas (master s)) "a" = mkQuota [("cpus"%string, 2000)] [("cpus"%string, 4000)]
      /\ stored_quota (registry s) "a" = Some (mkQuota [("cpus"%string, 1000)] [("cpus"%string, 1000)])
      /\ effective (allocator_quotas (master s)) "a" = mkQuota [("cpus"%string, 1000)] [("cpus"%string, 1000)]
  | None => False
  end.
Proof. by vm_compute. Qed.

(** A forced [SET_QUOTA] above the largest supported value passes the checks
    of the old interface and is refused by the registry operation, which the
    master takes for impossible: it aborts. *)
Theorem legacy_set_aborts :
  match run_events no_quotas [SetCall (Some "a"%string) [wire_cpus 2000000000000000] None true; Authorized 0 true; Stored] with
  | Some s => (snd <$> answered s) = [false] /\ handle s Answered = None
  | None => False
  end.
Proof. by vm_compute. Qed.

(** A [REMOVE_QUOTA] call for a role without quota looks it up with [at]
    before any check, and the exception ends the master; the request on the
    endpoint is refused. *)
Theorem remove_unknown_aborts :
  match sample_system no_quotas with
  | Some s => handle s (RemoveCall "a") = None /\ remove_request (master s) "a" = Some (Err NotSet)
  | None => False
  end.
Proof. by vm_compute. Qed.

(** After an [UPDATE_QUOTA] back to the default the master keeps an entry, and
    refuses a [SET_QUOTA] for the role until it fails over. *)
Theorem reset_quota_blocks_set :
  match run_events no_quotas [UpdateCall [default_config "a"] false; Authorized 0 true; Stored; Answered] with
  | Some s =>
      stored_quota (registry s) "a" = None
      /\ set_call (master s) (Some "a"%string) [wire_cpus 1000] None = Some (Err AlreadySet)
      /\ is_Some (sample_system (registry s))
  | None => False
  end.
Proof. vm_compute. split_and!; [done|done|by eexists]. Qed.

(** ** Weights ([src/src/master/weights_handler.cpp]) *)

Inductive weight_refusal := WeightRole (e : role_error) | UnknownRole | NotPositive.

(** [WeightsHandler::_updateWeights] up to the authorization: the roles are
    trimmed. *)
Fixpoint weights_call (m : Master) (infos : list WeightInfo) : result weight_refusal (list WeightInfo) :=
  match infos with
  | [] => Ok []
  | info :: rest =>
      let role := trim (weight_role info) in
      match Roles.validate role with
      | Some e => Err (WeightRole e)
      | None =>
          if negb (isWhitelistedRole m role) then Err UnknownRole
          else if not_positive (w_weight info) then Err NotPositive
          else let? l := weights_call m rest in Ok (mkWeight (w_weight info) (Some role) :: l)
      end
  end.

(** The continuation of [WeightsHandler::__updateWeights]: the weights of the
    master and of the allocator, and whether all offers are rescinded (when a
    role has registered frameworks); [None] is a failed [CHECK]. *)
Definition record_weights (infos : list WeightInfo) (w : gmap string input_double) : gmap string input_double :=
  fold_left (fun acc info => <[weight_role info := w_weight info]> acc) infos w.

Fixpoint weights_rescind (m : Master) (infos : list WeightInfo) : option bool :=
  match infos with
  | [] => Some false
  | info :: rest =>
      if negb (isWhitelistedRole m (weight_role info)) then None
      else if existsb (fun f => bool_decide (weight_role info ∈ f_roles f)) (frameworks m) then Some true
      else weights_rescind m rest
  end.

Definition weights_stored (m : Master) (w : gmap string input_double) (infos : list WeightInfo) (result : bool)
  : option (Master * gmap string input_double) :=
  if negb result then None
  else
    rescind ← weights_rescind m infos;
    m' ← (if rescind : bool then snd <$> rescind_all (agent_offers m) [] m else Some m);
    Some (m', record_weights infos w).

Lemma weights_call_ok m infos l :
  weights_call m infos = Ok l ->
  Forall (fun info => Roles.validate (weight_role info) = None /\ isWhitelistedRole m (weight_role info) = true
                      /\ not_positive (w_weight info) = false) l
  /\ map w_weight l = map w_weight infos.
Proof.
  revert l. induction infos as [|info infos IH]; intros l; cbn; [intros [= <-]; by split; [constructor|]|].
  destruct (Roles.validate _) eqn:E1; [done|].
  destruct (isWhitelistedRole m _) eqn:E2; [|done]. cbn. destruct (not_positive _) eqn:E3; [done|].
  destruct (weights_call m infos) as [l'|]; [|done]. cbn. intros [= <-]. destruct (IH l' eq_refl) as [H1 H2].
  split; [by constructor|]. cbn. by rewrite H2.
Qed.

Lemma weights_rescind_total m infos :
  Forall (fun info => isWhitelistedRole m (weight_role info) = true) infos -> is_Some (weights_rescind m infos).
Proof.
  induction 1 as [|info infos H _ IH]; cbn; [by eexists|]. rewrite H. cbn. by case_match.
Qed.

(** A weight that is not a number passes the check that weights are
    positive. *)
Theorem nan_weight_accepted :
  weights_call offering [mkWeight NotANumber (Some "a"%string)] = Ok [mkWeight NotANumber (Some "a"%string)].
Proof. by vm_compute. Qed.
