(* ===== verification/SorterTree.v ===== *)
(** * The tree of clients of a sorter

    The part that the two sorters of the allocator have in common
    ([src/src/master/allocator/mesos/sorter/drf/sorter.cpp] and
    [src/src/master/allocator/mesos/sorter/random/sorter.cpp] with their
    headers): a tree with a leaf for every client and an internal node for
    every proper prefix of a client's path.  A client whose path is also a
    prefix of another one has a virtual leaf named "." below its node.

    A node is its data and its children; the parent pointer of the code is the
    way down to it.  The table [clients] maps a path to a pointer in the code
    and to the names on the way from the root here ([location]): nodes do not
    move in the tree, so this stays the same node for as long as it exists.
    Walking up from a node is returning from the recursion that went down to
    it.  [None] is a failed [CHECK]. *)

From stdpp Require Import base gmap strings list.
From Stdlib Require Import ZArith QArith.
From S2P Require Import Prelude Strings Roles Ranges Scalar Values Quantities Registry Resource Resources ResourceOps Quota.
Local Open Scope Z_scope.

(** ** Allocations ([Node::Allocation]) *)

Record Allocation := mkAllocation {
  count : Z;
  resources : gmap string Resources;
  totals : entries;
}.

Definition no_allocation : Allocation := mkAllocation 0 ∅ [].

Definition on_agent (a : Allocation) (slaveId : string) : Resources := default [] (resources a !! slaveId).

(** The quantities of some resources, where a shared one counts only if the
    allocation [current] does not hold it. *)
Definition quantities_without (current : Resources) (rs : Resources) : option entries :=
  let sharedNew := ResourceOps.filter (fun r => negb (contains_resource current r)) (shared_ rs) in
  fromScalarResources (scalars (Resources.plus (nonShared rs) sharedNew)).

Definition allocation_add (slaveId : string) (toAdd : Resources) (a : Allocation) : option Allocation :=
  quantitiesToAdd ← quantities_without (on_agent a slaveId) toAdd;
  Some (mkAllocation (u64 (count a + 1))
          (<[slaveId := Resources.plus (on_agent a slaveId) toAdd]> (resources a))
          (Quantities.plus (totals a) quantitiesToAdd)).

(** [if (resources.at(slaveId).empty()) resources.erase(slaveId)]. *)
Definition set_agent (slaveId : string) (rs : Resources) (m : gmap string Resources) : gmap string Resources :=
  match rs with [] => delete slaveId m | _ => <[slaveId := rs]> m end.

Definition allocation_subtract (slaveId : string) (toRemove : Resources) (a : Allocation) : option Allocation :=
  current ← resources a !! slaveId;
  if negb (Resources.contains current toRemove) then None
  else
    let left := Resources.minus current toRemove in
    quantitiesToRemove ← quantities_without left toRemove;
    if negb (Quantities.contains (totals a) quantitiesToRemove) then None
    else Some (mkAllocation (count a) (set_agent slaveId left (resources a))
                 (Quantities.minus (totals a) quantitiesToRemove)).

Definition allocation_update (slaveId : string) (oldAllocation newAllocation : Resources) (a : Allocation)
  : option Allocation :=
  oldQuantities ← fromScalarResources (scalars oldAllocation);
  newQuantities ← fromScalarResources (scalars newAllocation);
  current ← resources a !! slaveId;
  if negb (Resources.contains current oldAllocation) then None
  else if negb (Quantities.contains (totals a) oldQuantities) then None
  else Some (mkAllocation (count a)
               (set_agent slaveId (Resources.plus (Resources.minus current oldAllocation) newAllocation) (resources a))
               (Quantities.plus (Quantities.minus (totals a) oldQuantities) newQuantities)).

(** ** Nodes *)

Inductive Kind := ACTIVE_LEAF | INACTIVE_LEAF | INTERNAL.

#[export] Instance Kind_eq_dec : EqDecision Kind.
Proof. solve_decision. Defined.

Record Data := mkData {
  name : string;
  path : string;
  share : double;
  weight : option double;
  kind : Kind;
  allocation : Allocation;
}.

#[local] Unset Elimination Schemes.
Inductive Node := node (d : Data) (l : list Node).
#[local] Set Elimination Schemes.

Definition data (n : Node) : Data := let '(node d _) := n in d.
Definition children (n : Node) : list Node := let '(node _ l) := n in l.
Definition node_name (n : Node) : string := name (data n).
Definition node_kind (n : Node) : Kind := kind (data n).

(** Induction with the hypothesis for every child. *)
Lemma tree_ind (P : Node -> Prop) : (forall d l, Forall P l -> P (node d l)) -> forall n, P n.
Proof.
  intros H. fix IH 1. intros [d l]. apply H. induction l as [|n l IHl]; constructor; [apply IH|exact IHl].
Qed.

Definition with_kind (k : Kind) (d : Data) : Data :=
  mkData (name d) (path d) (share d) (weight d) k (allocation d).
Definition with_allocation (a : Allocation) (d : Data) : Data :=
  mkData (name d) (path d) (share d) (weight d) (kind d) a.
Definition with_weight (w : option double) (d : Data) : Data :=
  mkData (name d) (path d) (share d) w (kind d) (allocation d).
Definition with_share (s : double) (d : Data) : Data :=
  mkData (name d) (path d) s (weight d) (kind d) (allocation d).

Definition root_data : Data := mkData EmptyString EmptyString 0 None INTERNAL no_allocation.

(** [Node(name, kind, parent)]: the path of a child of the root is its name. *)
Definition new_data (is_root : bool) (parent : Data) (n : string) (k : Kind) : Data :=
  mkData n (if is_root then n else path parent ++ "/" ++ n)%string 0 None k no_allocation.

(** [Node::isLeaf], with its check. *)
Definition isLeaf (n : Node) : option bool :=
  match node_kind n with
  | ACTIVE_LEAF | INACTIVE_LEAF => match children n with [] => Some true | _ => None end
  | INTERNAL => Some false
  end.

(** [Node::clientPath], for a node below a parent. *)
Definition clientPath (parent : Data) (d : Data) : option string :=
  if bool_decide (name d = "."%string) then
    if bool_decide (kind d = INTERNAL) then None else Some (path parent)
  else Some (path d).

Definition location : Type := list string.

(** [Node::removeChild] and [Node::addChild] on the list of children; a child
    is found by its name, which differs from its siblings'. *)
Definition find_child (n : string) (l : list Node) : option Node := lookup_key node_name n l.

Definition removeChild (n : string) (l : list Node) : option (list Node) :=
  match find_child n l with Some _ => Some (erase_first (has_key node_name n) l) | None => None end.

Definition push_child (c : Node) (l : list Node) : list Node :=
  if bool_decide (node_kind c = INACTIVE_LEAF) then l ++ [c] else c :: l.

Definition addChild (c : Node) (l : list Node) : option (list Node) :=
  match find_child (node_name c) l with Some _ => None | None => Some (push_child c l) end.

(** [parent->removeChild(c); parent->addChild(c)] after [c] has changed. *)
Definition readd (c : Node) (l : list Node) : option (list Node) :=
  l' ← removeChild (node_name c) l; addChild c l'.

(** The list with a child that was changed in place. *)
Definition replace_child (c : Node) (l : list Node) : option (list Node) :=
  update_first (has_key node_name (node_name c)) (fun _ => c) l.

Fixpoint node_at (loc : location) (n : Node) : option Node :=
  match loc with
  | [] => Some n
  | t :: rest => c ← find_child t (children n); node_at rest c
  end.

(** ** Adding a client *)

Definition at_root (here : location) : bool := bool_decide (here = []).

(** Phase 2 of [add]: a chain of new nodes for the remaining tokens. *)
Fixpoint grow (here : location) (tokens : list string) (n : Node) : Node :=
  match tokens with
  | [] => n
  | t :: rest =>
      let k := match rest with [] => INACTIVE_LEAF | _ => INTERNAL end in
      let child := node (new_data (at_root here) (data n) t k) [] in
      node (data n) (push_child (grow (here ++ [t]) rest child) (children n))
  end.

(** What [add] did below a node: the node; whether it was a leaf that became
    internal, so that its parent has to add it again; the new entry of
    [clients] for the virtual leaf that it got; where the new leaf is. *)
Record Added := mkAdded {
  added : Node;
  moved : bool;
  virtual : option (string * location);
  leaf_at : location;
}.

(** [clients[virt->clientPath()] = virt]. *)
Definition add_virtual (v : option (string * location)) (m : gmap string location) : gmap string location :=
  match v with Some (p, l) => <[p := l]> m | None => m end.

(** Phase 1 of [add] at the current node, which is at [here]. *)
Fixpoint descend (here : location) (tokens : list string) (n : Node) : option Added :=
  match tokens with
  | [] =>
      let virt := node (new_data (at_root here) (data n) "." INACTIVE_LEAF) [] in
      Some (mkAdded (node (data n) (push_child virt (children n))) false None (here ++ ["."%string]))
  | t :: rest =>
      leaf ← isLeaf n;
      if leaf : bool then
        let virt_data := with_allocation (allocation (data n)) (new_data (at_root here) (data n) "." (node_kind n)) in
        let current := node (with_kind INTERNAL (data n)) (push_child (node virt_data []) (children n)) in
        cp ← clientPath (with_kind INTERNAL (data n)) virt_data;
        Some (mkAdded (grow here tokens current) true (Some (cp, here ++ ["."%string])) (here ++ tokens))
      else
        match find_child t (children n) with
        | None => Some (mkAdded (grow here tokens n) false None (here ++ tokens))
        | Some child =>
            a ← descend (here ++ [t]) rest child;
            l ← (if moved a then readd (added a) (children n) else replace_child (added a) (children n));
            Some (mkAdded (node (data n) l) false (virtual a) (leaf_at a))
        end
  end.

(** ** Removing a client *)

Fixpoint subtract_all (l : list (string * Resources)) (a : Allocation) : option Allocation :=
  match l with
  | [] => Some a
  | (slaveId, rs) :: l' => a' ← allocation_subtract slaveId rs a; subtract_all l' a'
  end.

(** [current] is a child at [here] whose subtree has been handled; the result
    is the list of children of its parent and the table of clients. *)
Definition tidy (here : location) (current : Node) (siblings : list Node) (clients : gmap string location)
  : option (list Node * gmap string location) :=
  match children current with
  | [] => l ← removeChild (node_name current) siblings; Some (l, clients)
  | [child] =>
      if bool_decide (node_name child = "."%string) then
        leaf ← isLeaf child;
        if negb leaf then None
        else if negb (bool_decide (clients !! path (data current) = Some (here ++ ["."%string]))) then None
        else
          l ← readd (node (with_kind (node_kind child) (data current)) []) siblings;
          Some (l, <[path (data current) := here]> clients)
      else l ← replace_child current siblings; Some (l, clients)
  | _ => l ← replace_child current siblings; Some (l, clients)
  end.

Fixpoint remove_at (here loc : location) (leafAllocation : list (string * Resources)) (n : Node)
    (clients : gmap string location) : option (Node * gmap string location) :=
  match loc with
  | [] => Some (n, clients)
  | t :: rest =>
      c ← find_child t (children n);
      '(current, clients1) ← remove_at (here ++ [t]) rest leafAllocation c clients;
      a ← subtract_all leafAllocation (allocation (data n));
      '(l, clients2) ← tidy (here ++ [t]) current (children n) clients1;
      Some (node (with_allocation a (data n)) l, clients2)
  end.

(** ** Changing a node and walking up *)

(** Change the data of one node; if asked, its parent adds it again. *)
Fixpoint update_at (loc : location) (f : Data -> Data * bool) (n : Node) : option (Node * bool) :=
  match loc with
  | [] => let '(d, again) := f (data n) in Some (node d (children n), again)
  | t :: rest =>
      c ← find_child t (children n);
      '(c', again) ← update_at rest f c;
      l ← (if again : bool then readd c' (children n) else replace_child c' (children n));
      Some (node (data n) l, false)
  end.

(** Change the allocation of a node and of all its ancestors; [settle] puts a
    changed child back among its siblings. *)
Fixpoint climb (loc : location) (g : Allocation -> option Allocation)
    (settle : Node -> list Node -> option (list Node)) (n : Node) : option Node :=
  a ← g (allocation (data n));
  match loc with
  | [] => Some (node (with_allocation a (data n)) (children n))
  | t :: rest =>
      c ← find_child t (children n);
      c' ← climb rest g settle c;
      l ← settle c' (children n);
      Some (node (with_allocation a (data n)) l)
  end.

(** ** Paths *)

Definition path_of (loc : location) : string := implode (join_chars [slash] (map explode loc)).

Definition no_slash (t : string) : Prop := slash ∉ explode t.

Lemma implode_app a b : implode (a ++ b) = (implode a ++ implode b)%string.
Proof.
  induction a as [|c a IH]; [done|]. cbn [app]. change (implode (c :: a ++ b)) with (String c (implode (a ++ b))).
  by rewrite IH.
Qed.

Lemma join_chars_snoc l x :
  l <> [] -> join_chars [slash] (l ++ [x]) = join_chars [slash] l ++ [slash] ++ x.
Proof.
  induction l as [|y l IH]; [done|]. intros _. destruct l as [|z l]; [done|].
  specialize (IH ltac:(done)). cbn in *. rewrite IH. by rewrite <- !app_assoc.
Qed.

Lemma path_of_snoc here t : here <> [] -> path_of (here ++ [t]) = (path_of here ++ "/" ++ t)%string.
Proof.
  intros H. unfold path_of. rewrite map_app. cbn. rewrite join_chars_snoc by (by destruct here).
  rewrite !implode_app. cbn. by rewrite implode_explode.
Qed.

Lemma path_of_single t : path_of [t] = t.
Proof. unfold path_of. cbn. apply implode_explode. Qed.

Lemma split_path_of loc : loc <> [] -> Forall no_slash loc -> split (path_of loc) "/" = loc.
Proof.
  intros Hne Hl. unfold split, path_of. rewrite explode_implode, split_fields.
  change (is_delim (explode "/")) with is_slash. rewrite fields_join.
  - rewrite map_map. rewrite <- (map_id loc) at 2. apply map_ext. intros t. apply implode_explode.
  - by destruct loc.
  - by rewrite Forall_map.
Qed.

Lemma path_of_split s : path_of (split s "/") = s.
Proof.
  unfold split, path_of. rewrite map_map, split_fields. change (is_delim (explode "/")) with is_slash.
  replace (map (fun x => explode (implode x)) (fields is_slash (explode s))) with (fields is_slash (explode s)).
  - by rewrite join_fields, implode_explode.
  - rewrite <- (map_id (fields is_slash (explode s))) at 1. apply map_ext. intros x. by rewrite explode_implode.
Qed.

Lemma split_no_slash s : Forall no_slash (split s "/").
Proof.
  unfold split. rewrite split_fields, Forall_map. change (is_delim (explode "/")) with is_slash.
  apply Forall_forall. intros f Hf. unfold no_slash. rewrite explode_implode. by eapply fields_no_slash.
Qed.

Lemma split_not_nil s : split s "/" <> [].
Proof. unfold split. intros H%map_eq_nil. rewrite split_fields in H. by apply fields_not_nil in H. Qed.

Lemma path_of_inj loc loc' :
  loc <> [] -> loc' <> [] -> Forall no_slash loc -> Forall no_slash loc' -> path_of loc = path_of loc' -> loc = loc'.
Proof. intros. rewrite <- (split_path_of loc), <- (split_path_of loc') by done. congruence. Qed.

(** ** Lists of children *)

Lemma remove_find n l : find_child n l <> None -> removeChild n l = Some (erase_first (has_key node_name n) l).
Proof. unfold removeChild. by destruct (find_child n l). Qed.

(** A child that was changed and put back, in place or again: the other
    children are the same. *)
Definition swapped (c c' : Node) (l l' : list Node) : Prop := exists l0, l ≡ₚ c :: l0 /\ l' ≡ₚ c' :: l0.

Lemma replace_child_swapped c c' l :
  find_child (node_name c') l = Some c -> exists l', replace_child c' l = Some l' /\ swapped c c' l l'.
Proof.
  unfold find_child, replace_child, lookup_key, swapped. induction l as [|x l IH]; cbn; [done|].
  destruct (has_key node_name (node_name c') x); [intros [= ->]; eexists; split; [done|by exists l]|].
  intros (l' & -> & l0 & H1 & H2)%IH. cbn. eexists. split; [done|]. exists (x :: l0).
  rewrite H1, H2. split; apply Permutation_swap.
Qed.

Lemma push_child_perm c l : push_child c l ≡ₚ c :: l.
Proof. unfold push_child. case_bool_decide; [|done]. symmetry. apply Permutation_cons_append. Qed.

Lemma readd_swapped c c' l :
  NoDup (map node_name l) -> find_child (node_name c') l = Some c ->
  exists l', readd c' l = Some l' /\ swapped c c' l l'
    /\ l' = push_child c' (erase_first (has_key node_name (node_name c')) l).
Proof.
  intros Hn Hf. unfold readd. rewrite remove_find by (by rewrite Hf). cbn. unfold addChild, find_child.
  rewrite lookup_erase_first, decide_True by done. eexists. split_and!; [done| |done].
  exists (erase_first (has_key node_name (node_name c')) l). split; [by apply erase_first_perm|apply push_child_perm].
Qed.

Lemma swapped_names c c' l l' :
  swapped c c' l l' -> node_name c = node_name c' -> map node_name l ≡ₚ map node_name l'.
Proof. intros (l0 & -> & ->) E. cbn. by rewrite E. Qed.

Lemma swapped_NoDup c c' l l' :
  swapped c c' l l' -> node_name c = node_name c' -> NoDup (map node_name l) -> NoDup (map node_name l').
Proof. intros Hs E. by rewrite (swapped_names c c' l l' Hs E). Qed.

Lemma swapped_Forall (P : Node -> Prop) c c' l l' :
  swapped c c' l l' -> Forall P l -> P c' -> Forall P l'.
Proof. intros (l0 & -> & ->). rewrite !Forall_cons. tauto. Qed.

Lemma swapped_elem c c' l l' : swapped c c' l l' -> c ∈ l /\ c' ∈ l'.
Proof. intros (l0 & -> & ->). split; by left. Qed.

(** Inactive leaves come last. *)
Definition inactive (n : Node) : Prop := node_kind n = INACTIVE_LEAF.
#[export] Instance inactive_dec n : Decision (inactive n).
Proof. unfold inactive. apply _. Defined.

Inductive inactive_last : list Node -> Prop :=
  | il_inactive l : Forall inactive l -> inactive_last l
  | il_cons c l : ~ inactive c -> inactive_last l -> inactive_last (c :: l).

Lemma push_inactive_last c l : inactive_last l -> inactive_last (push_child c l).
Proof.
  intros Hl. unfold push_child. case_bool_decide as E; [|by constructor].
  induction Hl as [l Hl|x l Hx Hl IH]; cbn; [|by constructor].
  constructor. apply Forall_app. split; [done|]. by apply Forall_singleton.
Qed.

Lemma sublist_inactive_last l l' : sublist l' l -> inactive_last l -> inactive_last l'.
Proof.
  intros Hs Hl. revert l' Hs. induction Hl as [l Hl|x l Hx Hl IH]; intros l' Hs.
  - constructor. by eapply Forall_sublist.
  - inversion Hs; subst; [constructor 2; auto|auto].
Qed.

Lemma replace_inactive_last c c' l l' :
  find_child (node_name c') l = Some c -> replace_child c' l = Some l' -> (inactive c <-> inactive c') ->
  inactive_last l -> inactive_last l'.
Proof.
  intros Hf Hr Hk Hl. revert l' Hf Hr. unfold find_child, replace_child, lookup_key.
  induction Hl as [l Hl|x l Hx Hl IH]; intros l'; cbn.
  - intros Hf Hr. constructor. revert l' Hf Hr. induction Hl as [|x l Hx Hl IHl]; intros l'; cbn; [done|].
    destruct (has_key _ _ x); [intros [= ->] [= <-]; constructor; tauto|].
    intros Hf. destruct (update_first _ _ l); [|done]. intros [= <-]. constructor; [done|]. by apply IHl.
  - destruct (has_key _ _ x); [intros [= ->] [= <-]; constructor 2; tauto|].
    intros Hf. destruct (update_first _ _ l); [|done]. intros [= <-]. constructor 2; [done|]. by apply IH.
Qed.

(** ** Well-formed trees *)

(** The client of a leaf: a virtual leaf stands for its parent. *)
Definition is_virtual (here : location) : bool := bool_decide (last here = Some "."%string).

Definition client_of (here : location) : string :=
  path_of (if is_virtual here then removelast here else here).

Record shape (here : location) (d : Data) (l : list Node) : Prop := {
  sh_path : path d = path_of here;
  sh_root : here = [] -> kind d = INTERNAL;
  sh_leaf : kind d <> INTERNAL -> l = [];
  sh_virtual : is_virtual here = true -> kind d <> INTERNAL;
  sh_names : NoDup (map node_name l);
  sh_tokens : Forall (fun c => no_slash (node_name c)) l;
  sh_dot : here = [] -> "."%string ∉ map node_name l;
  sh_order : inactive_last l;
}.

#[local] Unset Elimination Schemes.
Inductive wf_node (here : location) (n : Node) : Prop := wf_intro {
  wf_shape : shape here (data n) (children n);
  wf_nonempty : node_kind n = INTERNAL -> here <> [] -> children n <> [];
  wf_below : Forall (fun c => wf_node (here ++ [node_name c]) c) (children n);
}.
#[local] Set Elimination Schemes.

(** The leaves below a node: client, location and kind. *)
Fixpoint leaves (here : location) (n : Node) : list (string * location * Kind) :=
  match n with
  | node d l =>
      match kind d with
      | INTERNAL => concat (map (fun c => leaves (here ++ [node_name c]) c) l)
      | k => [(client_of here, here, k)]
      end
  end.

Definition leaves_below (here : location) (l : list Node) : list (string * location * Kind) :=
  concat (map (fun c => leaves (here ++ [node_name c]) c) l).

Lemma leaves_internal here n : node_kind n = INTERNAL -> leaves here n = leaves_below here (children n).
Proof. destruct n as [d l]. unfold node_kind. cbn. by intros ->. Qed.

Lemma leaves_leaf here n : node_kind n <> INTERNAL -> leaves here n = [(client_of here, here, node_kind n)].
Proof. destruct n as [d l]. unfold node_kind. cbn. by destruct (kind d). Qed.

Lemma concat_perm {A} (l l' : list (list A)) : l ≡ₚ l' -> concat l ≡ₚ concat l'.
Proof.
  induction 1 as [|x l l' _ IH|x y l|l l' l'' _ IH1 _ IH2]; cbn; [done|by rewrite IH| |by rewrite IH1].
  rewrite !app_assoc. by rewrite (Permutation_app_comm y x).
Qed.

Lemma leaves_below_perm here l l' : l ≡ₚ l' -> leaves_below here l ≡ₚ leaves_below here l'.
Proof. intros H. unfold leaves_below. apply concat_perm. by rewrite H. Qed.

Lemma leaves_swapped here c c' l l' :
  swapped c c' l l' ->
  exists rest, leaves_below here l ≡ₚ leaves (here ++ [node_name c]) c ++ rest
    /\ leaves_below here l' ≡ₚ leaves (here ++ [node_name c']) c' ++ rest.
Proof.
  intros (l0 & H1 & H2). exists (leaves_below here l0).
  split; [by rewrite (leaves_below_perm here _ _ H1)|by rewrite (leaves_below_perm here _ _ H2)].
Qed.

Lemma wf_child here n t c :
  wf_node here n -> find_child t (children n) = Some c ->
  node_kind n = INTERNAL /\ node_name c = t /\ c ∈ children n /\ wf_node (here ++ [t]) c.
Proof.
  intros [Hs _ Hb] Hf. apply lookup_key_elem in Hf as [Hin <-]. rewrite Forall_forall in Hb.
  split_and!; [|done|done|by apply Hb]. destruct (decide (node_kind n = INTERNAL)) as [|Hk]; [done|].
  rewrite (sh_leaf _ _ _ Hs Hk) in Hin. by apply elem_of_nil in Hin.
Qed.

(** Putting a changed child back keeps a tree well formed. *)
Lemma wf_swapped here n c c' l' d' :
  wf_node here n -> find_child (node_name c') (children n) = Some c -> swapped c c' (children n) l' ->
  inactive_last l' -> wf_node (here ++ [node_name c']) c' ->
  path d' = path (data n) -> kind d' = kind (data n) -> wf_node here (node d' l').
Proof.
  intros Hn Hf Hs Ho Hc Hp Hk. destruct (wf_child _ _ _ _ Hn Hf) as (Hi & Ename & _ & _).
  destruct Hn as [[S1 S2 S3 S5 S6 S7 S8 S9] _ Hb]. unfold node_kind in Hi.
  assert (Hnames := swapped_names _ _ _ _ Hs Ename).
  assert (Hne : l' <> []) by (destruct Hs as (l0 & _ & H2); intros ->; by apply Permutation_nil_cons in H2).
  split; [split; cbn|..].
  - by rewrite Hp.
  - by rewrite Hk.
  - intros H. congruence.
  - by rewrite Hk.
  - by eapply swapped_NoDup.
  - rewrite <- (Forall_map node_name no_slash) in S7 |- *. by rewrite <- Hnames.
  - intros H. specialize (S8 H). by rewrite <- Hnames.
  - done.
  - done.
  - cbn. eapply swapped_Forall; [exact Hs|exact Hb|done].
Qed.

(** ** Changing one node *)

(** Changes of the data that keep the tree: the kind of a leaf may change if
    its parent adds it again. *)
Definition fair_change (d : Data) (r : Data * bool) : Prop :=
  name r.1 = name d /\ path r.1 = path d
  /\ (kind r.1 = kind d \/ (r.2 = true /\ kind d <> INTERNAL /\ kind r.1 <> INTERNAL)).

Lemma wf_change here n f :
  wf_node here n -> fair_change (data n) (f (data n)) -> here <> [] -> wf_node here (node (f (data n)).1 (children n)).
Proof.
  intros [[S1 S2 S3 S5 S6 S7 S8 S9] S4 Hb] (_ & Hp & Hk) Hne. unfold node_kind in S4.
  split; [split; cbn; try done|unfold node_kind; cbn|done].
  - by rewrite Hp.
  - destruct Hk as [->|(_ & H1 & H2)]; [done|]. auto.
  - destruct Hk as [->|(_ & H1 & H2)]; done.
  - destruct Hk as [->|(_ & H1 & H2)]; [done|]. done.
Qed.

Lemma update_at_spec f loc here n m :
  wf_node here n -> node_at loc n = Some m -> here ++ loc <> [] -> fair_change (data m) (f (data m)) ->
  exists n' again rest, update_at loc f n = Some (n', again)
    /\ wf_node here n' /\ node_name n' = node_name n
    /\ (again = false -> node_kind n' = node_kind n)
    /\ (loc <> [] -> again = false /\ data n' = data n)
    /\ leaves here n ≡ₚ leaves (here ++ loc) m ++ rest
    /\ leaves here n' ≡ₚ leaves (here ++ loc) (node (f (data m)).1 (children m)) ++ rest.
Proof.
  revert here n. induction loc as [|t loc IH]; intros here n Hn Hm Hne Hf; cbn in Hm.
  - injection Hm as ->. rewrite app_nil_r in *. cbn. destruct (f (data m)) as [d again] eqn:E.
    exists (node d (children m)), again, []. assert (Hw := wf_change here m f Hn).
    rewrite E in Hw. destruct Hf as (Hname & Hpath & Hk). cbn in *. split_and!; try done.
    + apply Hw; [|done]. by split_and!.
    + intros ->. by destruct Hk as [?|[? _]].
    + by rewrite app_nil_r.
    + by rewrite app_nil_r.
  - destruct (find_child t (children n)) as [c|] eqn:Ec; [|done]. cbn in Hm.
    destruct (wf_child _ _ _ _ Hn Ec) as (Hi & Ename & Hin & Hc).
    destruct (IH (here ++ [t]) c Hc Hm) as (c' & again & rest & Hu & Hw & Hname & Hkind & _ & HL & HL');
      [by destruct here|done|].
    rewrite <- app_assoc in HL, HL'. cbn in HL, HL'. cbn. rewrite Ec. cbn. rewrite Hu. cbn.
    assert (Et : t = node_name c') by congruence. rewrite Et in Ec.
    assert (Hr : exists l', (if again then readd c' (children n) else replace_child c' (children n)) = Some l'
                  /\ swapped c c' (children n) l' /\ inactive_last l').
    { destruct Hn as [[S1 S2 S3 S5 S6 S7 S8 S9] _ _]. destruct again.
      - destruct (readd_swapped c c' _ S6 Ec) as (l' & H1 & H2 & ->). eexists. split_and!; [done..|].
        apply push_inactive_last. eapply sublist_inactive_last; [apply erase_first_sublist|done].
      - destruct (replace_child_swapped c c' _ Ec) as (l' & H1 & H2). eexists. split_and!; [done..|].
        eapply replace_inactive_last; [exact Ec|exact H1| |done]. unfold inactive. by rewrite Hkind. }
    destruct Hr as (l' & -> & Hs & Ho). cbn.
    destruct (leaves_swapped here c c' _ _ Hs) as (rest' & R1 & R2). rewrite Ename in R1. rewrite <- Et in R2.
    eexists (node (data n) l'), false, (rest ++ rest'). split_and!; try done.
    + eapply wf_swapped; [exact Hn|exact Ec|exact Hs|done|by rewrite <- Et|done|done].
    + rewrite leaves_internal by done. rewrite R1, HL. by rewrite app_assoc.
    + rewrite leaves_internal by done. rewrite R2, HL'. by rewrite app_assoc.
Qed.

(** ** Walking up *)

(** The data of a node and of those on the way down to a location. *)
Fixpoint along (loc : location) (n : Node) : list Data :=
  data n ::
  match loc with
  | [] => []
  | t :: rest => match find_child t (children n) with Some c => along rest c | None => [] end
  end.

(** Nodes that differ in their shares and cached weights only. *)
Record same_node (c c' : Node) : Prop := {
  sn_name : node_name c' = node_name c;
  sn_path : path (data c') = path (data c);
  sn_kind : node_kind c' = node_kind c;
  sn_allocation : allocation (data c') = allocation (data c);
  sn_children : children c' = children c;
}.

Lemma same_node_refl c : same_node c c.
Proof. by split. Qed.

Lemma same_node_wf here c c' : same_node c c' -> wf_node here c -> wf_node here c'.
Proof.
  intros [E1 E2 E3 E4 E5] [[S1 S2 S3 S5 S6 S7 S8 S9] S4 Hb]. unfold node_kind in *.
  split; [split|..]; unfold node_kind; rewrite ?E2, ?E3, ?E5; done.
Qed.

Lemma same_node_leaves here c c' : same_node c c' -> leaves here c' = leaves here c.
Proof.
  intros [E1 E2 E3 E4 E5]. destruct (decide (node_kind c = INTERNAL)) as [Hk|Hk].
  - rewrite !leaves_internal by congruence. by rewrite E5.
  - rewrite !leaves_leaf by congruence. by rewrite E3.
Qed.

(** What is asked of the way a child is put back. *)
Definition settles (settle : Node -> list Node -> option (list Node)) : Prop :=
  forall c c' l, NoDup (map node_name l) -> inactive_last l -> find_child (node_name c') l = Some c ->
    node_kind c' = node_kind c ->
    exists l' c'', settle c' l = Some l' /\ same_node c' c'' /\ swapped c c'' l l' /\ inactive_last l'.

Lemma replace_settles : settles replace_child.
Proof.
  intros c c' l Hn Ho Hf Hk. destruct (replace_child_swapped c c' l Hf) as (l' & H1 & H2).
  exists l', c'. split_and!; [done|apply same_node_refl|done|].
  eapply replace_inactive_last; [exact Hf|exact H1| |done]. unfold inactive. by rewrite Hk.
Qed.

Lemma climb_spec g settle loc here n m :
  settles settle -> wf_node here n -> node_at loc n = Some m ->
  Forall (fun d => is_Some (g (allocation d))) (along loc n) ->
  exists n', climb loc g settle n = Some n' /\ wf_node here n'
    /\ node_name n' = node_name n /\ node_kind n' = node_kind n /\ path (data n') = path (data n)
    /\ g (allocation (data n)) = Some (allocation (data n'))
    /\ leaves here n' ≡ₚ leaves here n.
Proof.
  intros Hset. revert here n. induction loc as [|t loc IH]; intros here n Hn Hm Hg; cbn in Hm.
  - injection Hm as ->. cbn in *. apply Forall_singleton in Hg as [a Ha]. rewrite Ha. cbn. eexists. split; [done|].
    split_and!; try done.
    + destruct Hn as [[S1 S2 S3 S5 S6 S7 S8 S9] S4 Hb]. by split; [split|..].
    + by destruct m as [d l].
  - destruct (find_child t (children n)) as [c|] eqn:Ec; [|done]. cbn in Hm.
    cbn in Hg. rewrite Ec in Hg. apply Forall_cons in Hg as [[a Ha] Hg].
    destruct (wf_child _ _ _ _ Hn Ec) as (Hi & Ename & Hin & Hc).
    destruct (IH (here ++ [t]) c Hc Hm Hg) as (c' & Hu & Hw & Hname & Hkind & Hpath & _ & HL).
    cbn. rewrite Ha. cbn. rewrite Ec. cbn. rewrite Hu. cbn.
    assert (Et : t = node_name c') by congruence. rewrite Et in Ec.
    assert (Hn' := Hn). destruct Hn' as [[S1 S2 S3 S5 S6 S7 S8 S9] _ _].
    destruct (Hset c c' _ S6 S9 Ec Hkind) as (l' & c'' & -> & Hsame & Hs & Ho). cbn.
    destruct (leaves_swapped here c c'' _ _ Hs) as (rest & R1 & R2).
    eexists. split; [done|]. split_and!; try done.
    + eapply (wf_swapped here n c c''); try done; [by rewrite (sn_name _ _ Hsame)|].
      rewrite (sn_name _ _ Hsame). apply (same_node_wf _ c'); [done|]. by rewrite <- Et.
    + rewrite !leaves_internal by done. rewrite R1. cbn [children]. rewrite R2.
      rewrite (same_node_leaves _ _ _ Hsame), (sn_name _ _ Hsame), <- Et, Ename, HL. done.
Qed.

(** ** Adding *)

(** A node to which children can be added: it may have none yet. *)
Record growing (here : location) (n : Node) : Prop := {
  gr_shape : shape here (data n) (children n);
  gr_kind : node_kind n = INTERNAL;
  gr_below : Forall (fun c => wf_node (here ++ [node_name c]) c) (children n);
}.

Lemma wf_growing here n : wf_node here n -> node_kind n = INTERNAL -> growing here n.
Proof. intros [Hs _ Hb] Hk. by split. Qed.

Lemma wf_push here n c :
  growing here n -> wf_node (here ++ [node_name c]) c -> node_name c ∉ map node_name (children n) ->
  no_slash (node_name c) -> (here = [] -> node_name c <> "."%string) ->
  wf_node here (node (data n) (push_child c (children n)))
  /\ leaves here (node (data n) (push_child c (children n)))
     ≡ₚ leaves (here ++ [node_name c]) c ++ leaves_below here (children n).
Proof.
  intros [[S1 S2 S3 S5 S6 S7 S8 S9] Hk Hb] Hc Hn Hns Hd. unfold node_kind in Hk. split.
  - assert (Hp := push_child_perm c (children n)). split; [split; cbn|..]; try done.
    + rewrite Hp. cbn. by apply NoDup_cons.
    + rewrite Hp. by constructor.
    + intros H. rewrite Hp. cbn. rewrite not_elem_of_cons. split; [|by apply S8]. intros E. by apply Hd.
    + by apply push_inactive_last.
    + intros _ _ E. cbn in E. rewrite E in Hp. by apply Permutation_nil_cons in Hp.
    + cbn. rewrite Hp. by constructor.
  - rewrite leaves_internal by done. cbn [children]. by rewrite (leaves_below_perm here _ _ (push_child_perm c _)).
Qed.

Lemma new_data_path here n t k :
  path (data n) = path_of here -> path (new_data (at_root here) (data n) t k) = path_of (here ++ [t]).
Proof.
  intros Hp. unfold new_data, at_root. cbn. case_bool_decide as E; [subst; by rewrite app_nil_l, path_of_single|].
  by rewrite path_of_snoc, Hp.
Qed.

Lemma is_virtual_snoc here t : is_virtual (here ++ [t]) = bool_decide (t = "."%string).
Proof. unfold is_virtual. rewrite last_snoc. apply bool_decide_ext. split; [by intros [= ->]|by intros ->]. Qed.

Lemma client_of_virtual here : client_of (here ++ ["."%string]) = path_of here.
Proof. unfold client_of. by rewrite is_virtual_snoc, bool_decide_eq_true_2, removelast_last. Qed.

Lemma client_of_plain here : is_virtual here = false -> client_of here = path_of here.
Proof. unfold client_of. by intros ->. Qed.

Lemma leaf_wf here n t k :
  path (data n) = path_of here -> k <> INTERNAL ->
  wf_node (here ++ [t]) (node (new_data (at_root here) (data n) t k) []).
Proof.
  intros Hp Hk. split; [split|..]; cbn; try done; try by constructor.
  - by apply (new_data_path here n t k).
  - by destruct here.
  - intros _. apply not_elem_of_nil.
Qed.

Lemma is_virtual_app here t rest :
  Forall (fun t => t <> "."%string) (t :: rest) -> is_virtual (here ++ t :: rest) = false.
Proof.
  intros H. unfold is_virtual. apply bool_decide_eq_false. intros E.
  destruct (@exists_last _ (t :: rest)) as (l & x & El); [done|]. rewrite El in *. rewrite app_assoc, last_snoc in E.
  injection E as ->. apply Forall_app in H as [_ H]. by rewrite Forall_singleton in H.
Qed.

Lemma grow_spec tokens here n :
  tokens <> [] -> Forall no_slash tokens -> Forall (fun t => t <> "."%string) tokens ->
  growing here n -> (forall t, head tokens = Some t -> t ∉ map node_name (children n)) ->
  wf_node here (grow here tokens n) /\ data (grow here tokens n) = data n
  /\ leaves here (grow here tokens n)
     ≡ₚ (path_of (here ++ tokens), here ++ tokens, INACTIVE_LEAF) :: leaves_below here (children n).
Proof.
  revert here n. induction tokens as [|t rest IH]; intros here n Hne Hs Hd Hg Hf; [done|]. clear Hne.
  assert (Hv := is_virtual_app here t rest Hd).
  apply Forall_cons in Hs as [Ht Hs], Hd as [Htd Hd]. specialize (Hf t eq_refl).
  assert (Hp := sh_path _ _ _ (gr_shape _ _ Hg)). cbn [grow].
  set (k := match rest with [] => INACTIVE_LEAF | _ => INTERNAL end).
  set (child := node (new_data (at_root here) (data n) t k) []).
  assert (H : let sub := grow (here ++ [t]) rest child in
              wf_node (here ++ [t]) sub /\ node_name sub = t
              /\ leaves (here ++ [t]) sub ≡ₚ [(path_of (here ++ t :: rest), here ++ t :: rest, INACTIVE_LEAF)]).
  { destruct rest as [|t' rest].
    - cbn. split_and!; [by apply leaf_wf|done|]. by rewrite client_of_plain.
    - destruct (IH (here ++ [t]) child) as (H1 & H2 & H3); try done.
      + split; [split; cbn; try done; try by constructor|done|by constructor].
        * by apply (new_data_path here n t k).
        * intros E. rewrite is_virtual_snoc in E. breflect. done.
        * intros _. apply not_elem_of_nil.
      + intros t'' _. cbn. by intros ?%elem_of_nil.
      + rewrite <- app_assoc in H3. split_and!; [done|by unfold node_name; rewrite H2|exact H3]. }
  cbv zeta in H. destruct H as (H1 & H2 & H3). set (sub := grow (here ++ [t]) rest child) in *.
  destruct (wf_push here n sub) as [W L]; try by rewrite ?H2.
  split_and!; [done|done|]. rewrite L, H2, H3. done.
Qed.

Definition leaf_client (x : string * location * Kind) : string := x.1.1.

Lemma isLeaf_wf here n :
  wf_node here n -> isLeaf n = Some (negb (bool_decide (node_kind n = INTERNAL))).
Proof.
  intros [Hs _ _]. unfold isLeaf. destruct (decide (node_kind n = INTERNAL)) as [E|E].
  - by rewrite E.
  - rewrite (sh_leaf _ _ _ Hs E). by destruct (node_kind n).
Qed.

Lemma leaves_below_elem here l c x :
  c ∈ l -> x ∈ leaves (here ++ [node_name c]) c -> x ∈ leaves_below here l.
Proof.
  intros Hc Hx. unfold leaves_below. apply list_elem_of_In, in_concat.
  exists (leaves (here ++ [node_name c]) c). split; apply list_elem_of_In; [|done].
  by apply (list_elem_of_fmap_2 (fun c => leaves (here ++ [node_name c]) c)).
Qed.

(** What [descend] does to the leaves: one new leaf, and a leaf on the way
    may have become a virtual one of the same client. *)
Definition virtual_step (v : option (string * location)) (old new : list (string * location * Kind)) : Prop :=
  match v with
  | None => old = [] /\ new = []
  | Some (p, l) => exists q k, old = [(p, q, k)] /\ new = [(p, l, k)]
  end.

Record descended (here : location) (tokens : list string) (n : Node) (a : Added) : Prop := {
  de_wf : wf_node here (added a);
  de_name : node_name (added a) = node_name n;
  de_path : path (data (added a)) = path (data n);
  de_still : moved a = false -> node_kind (added a) = node_kind n;
  de_moved : moved a = true -> node_kind n <> INTERNAL;
  de_leaves : exists old new rest, virtual_step (virtual a) old new
    /\ leaves here n ≡ₚ old ++ rest
    /\ leaves here (added a) ≡ₚ (path_of (here ++ tokens), leaf_at a, INACTIVE_LEAF) :: new ++ rest;
}.

(** Case (a): the path is an internal node. *)
Lemma descend_here here n :
  wf_node here n -> is_virtual here = false -> here <> [] -> path_of here ∉ map leaf_client (leaves here n) ->
  exists a, descend here [] n = Some a /\ descended here [] n a.
Proof.
  intros Hn Hv Hne Hnew. cbn. eexists. split; [done|].
  assert (Hk : node_kind n = INTERNAL).
  { destruct (decide (node_kind n = INTERNAL)) as [|Hk]; [done|]. exfalso. apply Hnew.
    rewrite leaves_leaf by done. cbn. rewrite client_of_plain by done. by left. }
  assert (Hd : "."%string ∉ map node_name (children n)).
  { intros (c & Ec & Hc)%list_elem_of_fmap_1. apply Hnew. rewrite leaves_internal by done.
    destruct Hn as [_ _ Hb]. rewrite Forall_forall in Hb. specialize (Hb c Hc). rewrite <- Ec in Hb.
    assert (Hkc := sh_virtual _ _ _ (wf_shape _ _ Hb)). rewrite is_virtual_snoc in Hkc.
    specialize (Hkc eq_refl). apply list_elem_of_fmap. exists (client_of (here ++ ["."%string]), here ++ ["."%string], node_kind c).
    split; [cbn; by rewrite client_of_virtual|]. eapply leaves_below_elem; [exact Hc|]. rewrite <- Ec.
    rewrite leaves_leaf by done. by left. }
  assert (Hp := sh_path _ _ _ (wf_shape _ _ Hn)).
  set (virt := node (new_data (at_root here) (data n) "." INACTIVE_LEAF) []).
  destruct (wf_push here n virt) as [W L]; [by apply wf_growing|by apply leaf_wf|done|by vm_compute; set_solver|done|].
  split; cbn [added moved virtual leaf_at]; try done.
  exists [], [], (leaves here n). split; [done|]. split; [done|].
  rewrite L, app_nil_r. rewrite (leaves_internal here n) by done. cbn. by rewrite client_of_virtual.
Qed.

(** Case (b): a leaf on the way becomes an internal node with a virtual
    leaf. *)
Lemma descend_leaf here t rest n :
  wf_node here n -> is_virtual here = false -> node_kind n <> INTERNAL ->
  Forall no_slash (t :: rest) -> Forall (fun t => t <> "."%string) (t :: rest) ->
  exists a, descend here (t :: rest) n = Some a /\ descended here (t :: rest) n a.
Proof.
  intros Hn Hv Hk Hs Hd. assert (Hp := sh_path _ _ _ (wf_shape _ _ Hn)).
  assert (Hne : here <> []) by (intros E; apply Hk, (sh_root _ _ _ (wf_shape _ _ Hn) E)).
  assert (Hc := sh_leaf _ _ _ (wf_shape _ _ Hn) Hk). cbn [descend].
  rewrite (isLeaf_wf here n Hn), bool_decide_eq_false_2 by done. cbn [negb mbind option_bind].
  set (virt := node (with_allocation (allocation (data n)) (new_data (at_root here) (data n) "." (node_kind n))) []).
  set (current := node (with_kind INTERNAL (data n)) (push_child virt (children n))).
  assert (Ecp : clientPath (with_kind INTERNAL (data n)) (data virt) = Some (path_of here)).
  { unfold clientPath. rewrite bool_decide_eq_true_2 by done. cbn. rewrite bool_decide_eq_false_2 by done. by rewrite Hp. }
  change (with_allocation (allocation (data n)) (new_data (at_root here) (data n) "." (node_kind n))) with (data virt).
  rewrite Ecp. cbn [mbind option_bind]. eexists. split; [done|].
  assert (Hvirt : wf_node (here ++ ["."%string]) virt).
  { assert (H := leaf_wf here n "." (node_kind n) Hp Hk).
    destruct H as [[S1 S2 S3 S5 S6 S7 S8 S9] S4 Hb]. by split; [split|..]. }
  assert (Hg : growing here (node (with_kind INTERNAL (data n)) [])).
  { split; [split; cbn; try done; try by constructor|done|by constructor]. all: congruence. }
  assert (Ecur : current = node (with_kind INTERNAL (data n)) (push_child virt [])) by (unfold current; by rewrite Hc).
  destruct (wf_push here _ virt Hg) as [W L]; [done|apply not_elem_of_nil|by vm_compute; set_solver|done|].
  cbn [data children] in W, L. rewrite <- Ecur in W, L.
  destruct (grow_spec (t :: rest) here current) as (G1 & G2 & G3); [done..|by apply wf_growing| |].
  { intros t' [= <-]. rewrite Ecur. cbn. rewrite push_child_perm. cbn. apply Forall_cons in Hd as [Hd _].
    by intros ?%list_elem_of_singleton. }
  split; cbn [added moved virtual leaf_at]; try done.
  exists [(path_of here, here, node_kind n)], [(path_of here, here ++ ["."%string], node_kind n)], []. split_and!.
  - by eexists _, _.
  - rewrite leaves_leaf, client_of_plain by done. done.
  - rewrite G3. constructor. rewrite <- (leaves_internal here current) by done. rewrite L. cbn [leaves_below map concat].
    rewrite app_nil_r. rewrite leaves_leaf by done. change (node_name virt) with "."%string. by rewrite client_of_virtual.
Qed.

Lemma descend_spec tokens here n :
  wf_node here n -> is_virtual here = false -> here ++ tokens <> [] ->
  Forall no_slash tokens -> Forall (fun t => t <> "."%string) tokens ->
  path_of (here ++ tokens) ∉ map leaf_client (leaves here n) ->
  exists a, descend here tokens n = Some a /\ descended here tokens n a.
Proof.
  revert here n. induction tokens as [|t rest IH]; intros here n Hn Hv Hne Hs Hd Hnew.
  { rewrite app_nil_r in *. by apply descend_here. }
  destruct (decide (node_kind n = INTERNAL)) as [Hk|Hk]; [|by apply descend_leaf].
  cbn [descend]. rewrite (isLeaf_wf here n Hn), bool_decide_eq_true_2 by done. cbn [negb mbind option_bind].
  destruct (find_child t (children n)) as [c|] eqn:Ec.
  - destruct (wf_child _ _ _ _ Hn Ec) as (_ & Ename & Hin & Hc).
    assert (Hs' := Hs). assert (Hd' := Hd). apply Forall_cons in Hs' as [_ Hs'], Hd' as [Ht Hd'].
    destruct (IH (here ++ [t]) c Hc) as (a & Ha & [D1 D2 D3 D4 D5 D6]); try done.
    + rewrite is_virtual_snoc. by apply bool_decide_eq_false.
    + by destruct here.
    + rewrite <- app_assoc. cbn. intros (x & Ex & Hx)%list_elem_of_fmap_1. apply Hnew. rewrite Ex.
      apply list_elem_of_fmap_2. rewrite leaves_internal by done. eapply leaves_below_elem; [exact Hin|by rewrite Ename].
    + rewrite Ha. cbn [mbind option_bind]. assert (Et : node_name (added a) = t) by congruence.
      rewrite <- Et in Ec.
      assert (Hr : exists l', (if moved a then readd (added a) (children n) else replace_child (added a) (children n)) = Some l'
                  /\ swapped c (added a) (children n) l' /\ inactive_last l').
      { destruct Hn as [[S1 S2 S3 S5 S6 S7 S8 S9] _ _]. destruct (moved a).
        - destruct (readd_swapped c (added a) _ S6 Ec) as (l' & H1 & H2 & ->). eexists. split_and!; [done..|].
          apply push_inactive_last. eapply sublist_inactive_last; [apply erase_first_sublist|done].
        - destruct (replace_child_swapped c (added a) _ Ec) as (l' & H1 & H2). eexists. split_and!; [done..|].
          eapply replace_inactive_last; [exact Ec|exact H1| |done]. unfold inactive. by rewrite D4. }
      destruct Hr as (l' & -> & Hsw & Ho). cbn [mbind option_bind]. eexists. split; [done|].
      split; cbn [added moved virtual leaf_at]; try done.
      * eapply wf_swapped; [exact Hn|exact Ec|exact Hsw|done|by rewrite Et|done|done].
      * destruct D6 as (old & new & rest0 & V & L1 & L2).
        destruct (leaves_swapped here _ _ _ _ Hsw) as (rest1 & R1 & R2).
        exists old, new, (rest0 ++ rest1). split; [done|]. rewrite !leaves_internal by done. cbn [children].
        rewrite R1, R2, Ename, Et, L1, L2, <- !app_assoc. split; [done|]. cbn. by rewrite <- !app_assoc.
  - destruct (grow_spec (t :: rest) here n) as (G1 & G2 & G3); [done..|by apply wf_growing| |].
    { intros t' [= <-]. by apply lookup_key_none. }
    eexists. split; [done|]. split; cbn [added moved virtual leaf_at]; try done.
    exists [], [], (leaves here n). split; [done|]. split; [done|]. rewrite G3. by rewrite (leaves_internal here n).
Qed.

(** ** Where the leaves are *)

Definition leaf_location (x : string * location * Kind) : location := x.1.2.

Lemma find_child_unique l c : NoDup (map node_name l) -> c ∈ l -> find_child (node_name c) l = Some c.
Proof.
  unfold find_child. induction l as [|x l IH]; cbn; [by intros _ ?%elem_of_nil|]. intros [Hx Hl]%NoDup_cons.
  rewrite lookup_key_cons. intros [->|Hc]%elem_of_cons; [by rewrite decide_True|].
  rewrite decide_False; [by apply IH|]. intros E. apply Hx. rewrite E. by apply list_elem_of_fmap_2.
Qed.

Lemma leaves_node_at here n p q k :
  wf_node here n ->
  (p, q, k) ∈ leaves here n <->
  exists loc m, q = here ++ loc /\ node_at loc n = Some m /\ node_kind m = k /\ k <> INTERNAL /\ p = client_of q.
Proof.
  revert here. induction n as [d l IH] using tree_ind. intros here Hn.
  destruct (decide (kind d = INTERNAL)) as [Hk|Hk].
  - rewrite leaves_internal by done. rewrite Forall_forall in IH. unfold leaves_below. cbn [children]. split.
    + intros (c & Hc & Hx)%elem_concat_map. destruct Hn as [Hs _ Hb]. cbn in Hs, Hb. rewrite Forall_forall in Hb.
      apply (IH c Hc _ (Hb c Hc)) in Hx as (loc & m & -> & Hm & <- & Hi & ->).
      exists (node_name c :: loc), m. rewrite <- app_assoc. split_and!; try done. cbn.
      by rewrite (find_child_unique l c (sh_names _ _ _ Hs) Hc).
    + intros ([|t loc] & m & -> & Hm & <- & Hi & ->); [cbn in Hm; by injection Hm as <-|]. cbn in Hm.
      destruct (find_child t l) as [c|] eqn:Ec; [|done]. cbn in Hm.
      destruct (wf_child here (node d l) t c Hn Ec) as (_ & Ename & Hin & Hc). cbn in Hin.
      eapply (leaves_below_elem here l c); [done|]. apply IH; [done|by rewrite Ename|].
      exists loc, m. rewrite Ename, <- app_assoc. done.
  - rewrite leaves_leaf by done. rewrite list_elem_of_singleton. split.
    + intros [= -> -> ->]. exists [], (node d l). by rewrite app_nil_r.
    + intros ([|t loc] & m & -> & Hm & <- & Hi & ->); cbn in Hm.
      * injection Hm as <-. by rewrite app_nil_r.
      * destruct Hn as [Hs _ _]. assert (E := sh_leaf _ _ _ Hs Hk). cbn in E. by rewrite E in Hm.
Qed.

Lemma leaves_prefix here n x : wf_node here n -> x ∈ leaves here n -> exists loc, leaf_location x = here ++ loc.
Proof. destruct x as [[p q] k]. intros Hn (loc & m & -> & _)%leaves_node_at; [by exists loc|done]. Qed.

Lemma NoDup_concat_map {A B C} (f : A -> list B) (g : B -> C) l :
  NoDup l -> (forall x, x ∈ l -> NoDup (map g (f x))) ->
  (forall x y a b, x ∈ l -> y ∈ l -> a ∈ f x -> b ∈ f y -> g a = g b -> x = y) ->
  NoDup (map g (concat (map f l))).
Proof.
  induction 1 as [|x l Hx Hl IH]; intros Hf Hd; cbn; [constructor|]. rewrite map_app. apply NoDup_app. split_and!.
  - apply Hf. by left.
  - intros c (a & -> & Ha)%list_elem_of_fmap_1 (b & E & Hb)%list_elem_of_fmap_1.
    apply elem_concat_map in Hb as (y & Hy & Hb). apply Hx.
    rewrite (Hd x y a b); [done|by left|by right|done..].
  - apply IH; [intros y Hy; apply Hf; by right|]. intros y z a b Hy Hz. apply Hd; by right.
Qed.

Lemma leaves_NoDup here n : wf_node here n -> NoDup (map leaf_location (leaves here n)).
Proof.
  revert here. induction n as [d l IH] using tree_ind. intros here Hn.
  destruct (decide (kind d = INTERNAL)) as [Hk|Hk]; [|rewrite leaves_leaf by done; apply NoDup_singleton].
  rewrite leaves_internal by done. rewrite Forall_forall in IH. destruct Hn as [Hs _ Hb]. cbn in *.
  rewrite Forall_forall in Hb. assert (Hn := sh_names _ _ _ Hs). unfold leaves_below. apply NoDup_concat_map.
  - eapply NoDup_fmap_1. exact Hn.
  - intros c Hc. apply IH; [done|by apply Hb].
  - intros c c' a b Hc Hc' Ha Hb' E. apply leaves_prefix in Ha as [la Ea]; [|by apply Hb].
    apply leaves_prefix in Hb' as [lb Eb]; [|by apply Hb]. rewrite Ea, Eb, <- !app_assoc in E.
    apply app_inv_head in E. injection E as E _.
    assert (H1 := find_child_unique l c Hn Hc). assert (H2 := find_child_unique l c' Hn Hc'). congruence.
Qed.

(** ** Removing *)

Lemma erase_growing here n t c d' :
  wf_node here n -> find_child t (children n) = Some c -> path d' = path (data n) -> kind d' = kind (data n) ->
  let l' := erase_first (has_key node_name t) (children n) in
  growing here (node d' l')
  /\ leaves here n ≡ₚ leaves (here ++ [t]) c ++ leaves_below here l'.
Proof.
  intros Hn Hf Hp Hkd l'. destruct (wf_child _ _ _ _ Hn Hf) as (Hk & Ename & _ & _).
  assert (Hs : sublist l' (children n)) by apply erase_first_sublist. split.
  - unfold node_kind in *. destruct Hn as [[S1 S2 S3 S5 S6 S7 S8 S9] _ Hb].
    split; [split; cbn|unfold node_kind; cbn; congruence|cbn; by eapply Forall_sublist].
    + by rewrite Hp.
    + by rewrite Hkd.
    + congruence.
    + by rewrite Hkd.
    + eapply NoDup_sublist; [|exact S6]. by apply sublist_map.
    + by eapply Forall_sublist.
    + intros E Hin. apply (S8 E). eapply elem_of_sublist; [exact Hin|by apply sublist_map].
    + by eapply sublist_inactive_last.
  - rewrite leaves_internal by done. unfold l'. unfold find_child in Hf.
    rewrite (leaves_below_perm here _ _ (erase_first_perm node_name t _ _ Hf)). cbn. by rewrite Ename.
Qed.

(** A leaf may become the only virtual leaf below a node, which then takes its
    place. *)
Definition collapse_step (here : location) (old new : list (string * location * Kind))
    (cl cl' : gmap string location) : Prop :=
  (old = [] /\ new = [] /\ cl' = cl)
  \/ exists p q k, is_virtual q = false /\ old = [(p, q ++ ["."%string], k)] /\ new = [(p, q, k)] /\ cl' = <[p := q]> cl.

Record removed (here loc : location) (n n' m : Node) (la : list (string * Resources)) (cl cl' : gmap string location)
  : Prop := {
  re_growing : growing here n';
  re_name : node_name n' = node_name n;
  re_path : path (data n') = path (data n);
  re_allocation : subtract_all la (allocation (data n)) = Some (allocation (data n'));
  re_leaves : exists old new rest, collapse_step here old new cl cl'
    /\ leaves here n ≡ₚ (client_of (here ++ loc), here ++ loc, node_kind m) :: old ++ rest
    /\ leaves_below here (children n') ≡ₚ new ++ rest;
}.

Lemma growing_wf here n : growing here n -> children n <> [] -> wf_node here n.
Proof. intros [Hs _ Hb] Hne. by split. Qed.

Lemma leaf_location_only here c x y :
  wf_node here c -> leaves here c ≡ₚ [x; y] -> leaf_location y <> leaf_location x.
Proof.
  intros Hc HL E. assert (Hn := leaves_NoDup here c Hc). rewrite HL in Hn. cbn in Hn.
  apply NoDup_cons in Hn as [Hn _]. apply Hn. rewrite E. by left.
Qed.

(** The only child of a node is its virtual leaf. *)
Lemma leaves_only_virtual here d child :
  growing here (node d [child]) -> node_name child = "."%string ->
  node_kind child <> INTERNAL /\ isLeaf child = Some true
  /\ leaves_below here [child] = [(path_of here, here ++ ["."%string], node_kind child)].
Proof.
  intros [_ _ Hb] E. cbn in Hb. rewrite Forall_singleton, E in Hb.
  assert (Hk := sh_virtual _ _ _ (wf_shape _ _ Hb)). rewrite is_virtual_snoc, bool_decide_eq_true_2 in Hk by done.
  specialize (Hk eq_refl). split_and!; [done| |].
  - rewrite (isLeaf_wf _ _ Hb), bool_decide_eq_false_2 by done. done.
  - cbn. rewrite E, app_nil_r, leaves_leaf by done. by rewrite client_of_virtual.
Qed.

(** The parts of [removed] for a node whose child was put back changed. *)
Lemma removed_swapped here t rest n c c' l' m a la cl cl' old new others :
  wf_node here n -> find_child t (children n) = Some c -> node_name c' = t -> wf_node (here ++ [t]) c' ->
  swapped c c' (children n) l' -> inactive_last l' ->
  subtract_all la (allocation (data n)) = Some a ->
  collapse_step here old new cl cl' ->
  leaves (here ++ [t]) c ≡ₚ (client_of (here ++ t :: rest), here ++ t :: rest, node_kind m) :: old ++ others ->
  leaves (here ++ [t]) c' ≡ₚ new ++ others ->
  removed here (t :: rest) n (node (with_allocation a (data n)) l') m la cl cl'.
Proof.
  intros Hn Hf Et Hc' Hs Ho Ha Hst H1 H2. destruct (wf_child _ _ _ _ Hn Hf) as (Hi & Ename & _ & _).
  split; [|done|done|done|].
  - apply wf_growing; [|done]. eapply (wf_swapped here n c c' l'); try done; by rewrite Et.
  - destruct (leaves_swapped here c c' _ _ Hs) as (r & R1 & R2). rewrite Ename in R1. rewrite Et in R2.
    exists old, new, (others ++ r). split; [done|]. rewrite leaves_internal by done. cbn [children].
    rewrite R1, R2, H1, H2. cbn. rewrite <- !app_assoc. done.
Qed.

Lemma readd_settles c c' l :
  NoDup (map node_name l) -> inactive_last l -> find_child (node_name c') l = Some c ->
  exists l', readd c' l = Some l' /\ swapped c c' l l' /\ inactive_last l'.
Proof.
  intros Hn Ho Hf. destruct (readd_swapped c c' _ Hn Hf) as (l' & H1 & H2 & ->). eexists. split_and!; [done..|].
  apply push_inactive_last. eapply sublist_inactive_last; [apply erase_first_sublist|done].
Qed.

(** [tidy] on a child whose own removal is done. *)
Lemma tidy_spec here t rest n c c' m la a cl cl1 :
  wf_node here n -> find_child t (children n) = Some c -> node_kind c = INTERNAL ->
  removed (here ++ [t]) rest c c' m la cl cl1 ->
  subtract_all la (allocation (data n)) = Some a ->
  (forall x, x ∈ leaves here n -> leaf_location x <> here ++ t :: rest -> cl !! leaf_client x = Some (leaf_location x)) ->
  exists l cl2, tidy (here ++ [t]) c' (children n) cl1 = Some (l, cl2)
    /\ removed here (t :: rest) n (node (with_allocation a (data n)) l) m la cl cl2.
Proof.
  intros Hn Hf Hkc [G1 G2 G3 G4 (old & new & others & Hst & L1 & L2)] Ha Ht.
  destruct (wf_child _ _ _ _ Hn Hf) as (Hi & Ename & Hin & Hc).
  rewrite <- app_assoc in L1. cbn [app] in L1. assert (Et : node_name c' = t) by congruence.
  assert (Hf' : find_child (node_name c') (children n) = Some c) by (by rewrite Et).
  assert (Hsh := wf_shape _ _ Hn). destruct Hsh as [_ _ _ _ S6 _ _ S9].
  assert (Hrep : children c' <> [] ->
    exists l cl2, (l ← replace_child c' (children n); Some (l, cl1)) = Some (l, cl2)
      /\ removed here (t :: rest) n (node (with_allocation a (data n)) l) m la cl cl2).
  { intros Hne. destruct (replace_settles c c' _ S6 S9 Hf') as (l' & c'' & _).
    { by rewrite Hkc, (gr_kind _ _ G1). }
    destruct (replace_child_swapped c c' _ Hf') as (l1 & E1 & Hs). rewrite E1. cbn. eexists _, _. split; [done|].
    eapply (removed_swapped here t rest n c c' l1); try done.
    - by apply growing_wf.
    - eapply replace_inactive_last; [exact Hf'|exact E1| |done]. unfold inactive. by rewrite Hkc, (gr_kind _ _ G1).
    - by rewrite leaves_internal by apply (gr_kind _ _ G1). }
  unfold tidy. destruct c' as [d' [|child [|child2 l]]]; cbn [children] in *; [| |by apply Hrep].
  - rewrite Et, remove_find by (by rewrite Hf). cbn. eexists _, _. split; [done|].
    destruct (erase_growing here n t c (with_allocation a (data n)) Hn Hf eq_refl eq_refl) as [E1 E2].
    symmetry in L2. apply Permutation_nil_r, app_eq_nil in L2 as [-> ->].
    destruct Hst as [(-> & _ & ->)|(p & q & k & _ & _ & ? & _)]; [|done].
    split; try done. exists [], [], (leaves_below here (erase_first (has_key node_name t) (children n))).
    split; [by left|]. cbn. by rewrite E2, L1.
  - case_bool_decide as Hdot; [|by apply Hrep].
    destruct (leaves_only_virtual _ _ _ G1 Hdot) as (V1 & V2 & V3). rewrite V2. cbn.
    rewrite V3 in L2. symmetry in L2. apply Permutation_singleton_r in L2.
    assert (Hold : old = [] /\ new = [] /\ cl1 = cl /\ others = [(path_of (here ++ [t]), (here ++ [t]) ++ ["."%string], node_kind child)]).
    { destruct Hst as [(-> & -> & ->)|(p & q & k & Hq & _ & -> & _)]; [done|].
      injection L2 as _ -> _. by rewrite is_virtual_snoc, bool_decide_eq_true_2 in Hq. }
    destruct Hold as (-> & -> & -> & ->). cbn in L1.
    assert (Hpath : path (data (node d' [child])) = path_of (here ++ [t])) by apply (sh_path _ _ _ (gr_shape _ _ G1)).
    cbn in Hpath. rewrite Hpath.
    set (x := (path_of (here ++ [t]), (here ++ [t]) ++ ["."%string], node_kind child)) in *.
    assert (Hcl : cl !! path_of (here ++ [t]) = Some ((here ++ [t]) ++ ["."%string])).
    { apply (Ht x).
      - rewrite leaves_internal by done. eapply leaves_below_elem; [exact Hin|]. rewrite Ename, L1. right. by left.
      - apply (leaf_location_only _ _ _ _ Hc L1). }
    unfold x in *. rewrite Hcl, bool_decide_eq_true_2 by done. cbn.
    set (c'' := node (with_kind (node_kind child) d') []).
    destruct (readd_settles c c'' (children n) S6 S9) as (l' & -> & Hs & Ho); [done|]. cbn.
    eexists _, _. split; [done|].
    assert (Hv : is_virtual (here ++ [t]) = false).
    { destruct (is_virtual (here ++ [t])) eqn:E; [|done]. by destruct (sh_virtual _ _ _ (wf_shape _ _ Hc) E). }
    eapply (removed_swapped here t rest n c c'' l' m a la cl _ [x]
              [(path_of (here ++ [t]), here ++ [t], node_kind child)] []); try done; cycle 1.
    + right. exists (path_of (here ++ [t])), (here ++ [t]), (node_kind child). by split_and!.
    + rewrite leaves_leaf, client_of_plain by done. done.
    + split; [split|..]; cbn; try done; try by constructor.
      * by destruct here.
      * intros _. apply not_elem_of_nil.
Qed.

Lemma remove_at_spec la loc here n m cl :
  wf_node here n -> node_at loc n = Some m -> node_kind m <> INTERNAL -> loc <> [] ->
  Forall (fun d => is_Some (subtract_all la (allocation d))) (along (removelast loc) n) ->
  (forall x, x ∈ leaves here n -> leaf_location x <> here ++ loc -> cl !! leaf_client x = Some (leaf_location x)) ->
  exists n' cl', remove_at here loc la n cl = Some (n', cl') /\ removed here loc n n' m la cl cl'.
Proof.
  revert here n. induction loc as [|t rest IH]; [done|]. intros here n Hn Hm Hk _ Hg Ht. cbn in Hm.
  destruct (find_child t (children n)) as [c|] eqn:Hf; [|done]. cbn in Hm.
  destruct (wf_child _ _ _ _ Hn Hf) as (Hi & Ename & Hin & Hc).
  assert (Hg1 : is_Some (subtract_all la (allocation (data n)))) by (destruct rest; inversion Hg; subst; done).
  destruct Hg1 as [a Ha]. cbn [remove_at]. rewrite Hf. cbn [mbind option_bind].
  destruct rest as [|t' rest].
  - cbn in Hm. injection Hm as ->. cbn. rewrite Ha. cbn. unfold tidy.
    rewrite (sh_leaf _ _ _ (wf_shape _ _ Hc) Hk), Ename, remove_find by (by rewrite Hf). cbn.
    eexists _, _. split; [done|].
    destruct (erase_growing here n t m (with_allocation a (data n)) Hn Hf eq_refl eq_refl) as [E1 E2].
    split; try done. exists [], [], (leaves_below here (erase_first (has_key node_name t) (children n))).
    split; [by left|]. rewrite E2, leaves_leaf by done. done.
  - cbn in Hg. rewrite Hf in Hg. apply Forall_cons in Hg as [_ Hg].
    destruct (IH (here ++ [t]) c Hc Hm Hk) as (c' & cl1 & -> & Hr); [done|exact Hg| |].
    + intros x Hx Hl. apply Ht; [|intros E; apply Hl; by rewrite <- app_assoc].
      rewrite leaves_internal by done. eapply leaves_below_elem; [exact Hin|by rewrite Ename].
    + cbn [mbind option_bind]. rewrite Ha. cbn [mbind option_bind].
      assert (Hkc : node_kind c = INTERNAL).
      { cbn in Hm. destruct (find_child t' (children c)) as [c2|] eqn:E2; [|done].
        by destruct (wf_child _ _ _ _ Hc E2) as (? & _). }
      destruct (tidy_spec here t (t' :: rest) n c c' m la a cl cl1) as (l & cl2 & -> & Hr2); try done.
      cbn. eexists _, _. done.
Qed.

Lemma node_at_wf loc here n m : wf_node here n -> node_at loc n = Some m -> wf_node (here ++ loc) m.
Proof.
  revert here n. induction loc as [|t loc IH]; intros here n Hn; cbn; [intros [= <-]; by rewrite app_nil_r|].
  destruct (find_child t (children n)) as [c|] eqn:Ec; [|done]. cbn. intros Hm.
  destruct (wf_child _ _ _ _ Hn Ec) as (_ & _ & _ & Hc). specialize (IH _ _ Hc Hm). by rewrite <- app_assoc in IH.
Qed.

(** ** The table of clients *)

(** The table that goes with some leaves, and what it says to a user of the
    sorter: which clients there are and which of them are active. *)
Definition table (l : list (string * location * Kind)) : gmap string location :=
  list_to_map (map (fun x => (leaf_client x, leaf_location x)) l).

Definition is_active (k : Kind) : bool := bool_decide (k = ACTIVE_LEAF).

Definition flags (l : list (string * location * Kind)) : gmap string bool :=
  list_to_map (map (fun x => (leaf_client x, is_active x.2)) l).

Definition distinct (l : list (string * location * Kind)) : Prop := NoDup (map leaf_client l).

Lemma list_to_map_perm {A} (f : string * location * Kind -> A) l l' :
  distinct l -> l ≡ₚ l' ->
  list_to_map (M := gmap string A) (map (fun x => (leaf_client x, f x)) l)
  = list_to_map (map (fun x => (leaf_client x, f x)) l').
Proof.
  intros Hd Hp. apply list_to_map_proper; [|by rewrite Hp]. by rewrite <- list_fmap_compose.
Qed.

Lemma table_perm l l' : distinct l -> l ≡ₚ l' -> table l = table l'.
Proof. apply list_to_map_perm. Qed.

Lemma flags_perm l l' : distinct l -> l ≡ₚ l' -> flags l = flags l'.
Proof. apply list_to_map_perm. Qed.

Lemma distinct_perm l l' : l ≡ₚ l' -> distinct l -> distinct l'.
Proof. unfold distinct. by intros ->. Qed.

Lemma table_lookup l x : distinct l -> x ∈ l -> table l !! leaf_client x = Some (leaf_location x).
Proof.
  intros Hd Hx. unfold table. apply elem_of_list_to_map; [by rewrite <- list_fmap_compose|].
  by apply (list_elem_of_fmap_2 (fun x => (leaf_client x, leaf_location x))).
Qed.

Lemma table_elem l p q : table l !! p = Some q -> exists k, (p, q, k) ∈ l.
Proof.
  unfold table. intros H%elem_of_list_to_map_2. apply list_elem_of_fmap_1 in H as ([[p' q'] k] & [= -> ->] & H).
  by exists k.
Qed.

Lemma flags_lookup l x : distinct l -> x ∈ l -> flags l !! leaf_client x = Some (is_active x.2).
Proof.
  intros Hd Hx. unfold flags. apply elem_of_list_to_map; [by rewrite <- list_fmap_compose|].
  by apply (list_elem_of_fmap_2 (fun x => (leaf_client x, is_active x.2))).
Qed.

Lemma flags_elem l p b : flags l !! p = Some b -> exists q k, (p, q, k) ∈ l /\ b = is_active k.
Proof.
  unfold flags. intros H%elem_of_list_to_map_2. apply list_elem_of_fmap_1 in H as ([[p' q'] k] & [= -> ->] & H).
  by exists q', k.
Qed.

Lemma table_none l p : table l !! p = None <-> p ∉ map leaf_client l.
Proof.
  unfold table. rewrite <- not_elem_of_list_to_map. by rewrite <- list_fmap_compose.
Qed.

Lemma table_flags l p : is_Some (table l !! p) <-> is_Some (flags l !! p).
Proof.
  unfold table, flags. rewrite <- !not_eq_None_Some, <- !not_elem_of_list_to_map, <- !list_fmap_compose. done.
Qed.

Lemma virtual_table v old new rest :
  virtual_step v old new -> distinct (old ++ rest) ->
  map leaf_client (new ++ rest) = map leaf_client (old ++ rest)
  /\ table (new ++ rest) = add_virtual v (table (old ++ rest))
  /\ flags (new ++ rest) = flags (old ++ rest).
Proof.
  intros Hv Hd. destruct v as [[p l]|]; cbn in Hv.
  - destruct Hv as (q & k & -> & ->). split_and!; [done| |done]. unfold table. cbn. by rewrite insert_insert_eq.
  - destruct Hv as [-> ->]. done.
Qed.

(** The table after [descend]. *)
Lemma descended_table here tokens n a p :
  descended here tokens n a -> p = path_of (here ++ tokens) ->
  distinct (leaves here n) -> p ∉ map leaf_client (leaves here n) ->
  distinct (leaves here (added a))
  /\ add_virtual (virtual a) (table (leaves here n)) !! p = None
  /\ table (leaves here (added a)) = <[p := leaf_at a]> (add_virtual (virtual a) (table (leaves here n)))
  /\ flags (leaves here (added a)) = <[p := false]> (flags (leaves here n)).
Proof.
  intros [_ _ _ _ _ (old & new & rest & Hv & L1 & L2)] Ep Hd Hnew. rewrite <- Ep in L2.
  assert (Hd1 := distinct_perm _ _ L1 Hd). destruct (virtual_table _ _ _ _ Hv Hd1) as (V1 & V2 & V3).
  rewrite L1, <- V1 in Hnew. assert (Hd2 : distinct ((p, leaf_at a, INACTIVE_LEAF) :: new ++ rest)).
  { unfold distinct. cbn. apply NoDup_cons. split; [done|]. unfold distinct in Hd1. by rewrite V1. }
  assert (Hd3 : distinct (leaves here (added a))) by (symmetry in L2; by eapply distinct_perm).
  rewrite (table_perm _ _ Hd L1), (flags_perm _ _ Hd L1), (table_perm _ _ Hd3 L2), (flags_perm _ _ Hd3 L2).
  rewrite <- V2, <- V3. split_and!; [done|by apply table_none|done..].
Qed.

Lemma collapse_table here old new rest cl cl' :
  collapse_step here old new cl cl' -> distinct (old ++ rest) -> cl = table (old ++ rest) ->
  distinct (new ++ rest) /\ cl' = table (new ++ rest) /\ flags (new ++ rest) = flags (old ++ rest).
Proof.
  intros [(-> & -> & ->)|(p & q & k & _ & -> & -> & ->)] Hd ->; [done|]. split_and!; [done| |done].
  unfold table. cbn. by rewrite insert_insert_eq.
Qed.

(** The table after [remove_at]. *)
Lemma removed_table here loc n n' m la cl cl' p :
  removed here loc n n' m la (delete p cl) cl' -> p = client_of (here ++ loc) ->
  distinct (leaves here n) -> cl = table (leaves here n) ->
  distinct (leaves_below here (children n')) /\ cl' = table (leaves_below here (children n'))
  /\ flags (leaves_below here (children n')) = delete p (flags (leaves here n)).
Proof.
  intros [_ _ _ _ (old & new & rest & Hc & L1 & L2)] Ep Hd ->. rewrite <- Ep in L1.
  assert (Hd1 := distinct_perm _ _ L1 Hd). assert (Hd1' := Hd1). unfold distinct in Hd1'. cbn in Hd1'.
  apply NoDup_cons in Hd1' as [Hp Hd2].
  assert (Ecl : delete p (table (leaves here n)) = table (old ++ rest)).
  { rewrite (table_perm _ _ Hd L1). unfold table. cbn. rewrite delete_insert_id; [done|]. by apply table_none. }
  assert (Efl : delete p (flags (leaves here n)) = flags (old ++ rest)).
  { rewrite (flags_perm _ _ Hd L1). unfold flags. cbn. rewrite delete_insert_id; [done|].
    apply not_elem_of_list_to_map. by rewrite <- list_fmap_compose. }
  destruct (collapse_table here old new rest _ _ Hc Hd2 Ecl) as (H1 & H2 & H3).
  assert (Hd3 : distinct (leaves_below here (children n'))) by (symmetry in L2; by eapply distinct_perm).
  rewrite (table_perm _ _ Hd3 L2), (flags_perm _ _ Hd3 L2), Efl. done.
Qed.

(** A leaf and the rest of the leaves, after the leaf has got another kind. *)
Lemma changed_table p q k k' l l' rest :
  l ≡ₚ [(p, q, k)] ++ rest -> l' ≡ₚ [(p, q, k')] ++ rest -> distinct l ->
  distinct l' /\ table l' = table l /\ flags l' = <[p := is_active k']> (flags l).
Proof.
  intros L1 L2 Hd. assert (Hd1 := distinct_perm _ _ L1 Hd).
  assert (Hd3 : distinct l') by (eapply distinct_perm; [symmetry; exact L2|exact Hd1]).
  rewrite (table_perm _ _ Hd3 L2), (flags_perm _ _ Hd3 L2), (table_perm _ _ Hd L1), (flags_perm _ _ Hd L1).
  split_and!; [done|done|]. unfold flags. cbn. by rewrite insert_insert_eq.
Qed.

(** ** Allocations add up *)

Lemma quantities_without_total current rs :
  wf_resources rs -> exists q, quantities_without current rs = Some q /\ wf_quantities q.
Proof.
  intros H. apply fromScalarResources_total, plus_wf_resources; [by apply wf_filter|].
  by destruct (wf_filter (fun r => negb (contains_resource current r)) (shared_ rs)) as [? _]; [apply wf_filter|].
Qed.

Lemma allocation_add_total slaveId rs a : wf_resources rs -> is_Some (allocation_add slaveId rs a).
Proof.
  intros H. unfold allocation_add. destruct (quantities_without_total (on_agent a slaveId) rs H) as (q & -> & _). by eexists.
Qed.
