(* ===== verification/DrfSorter.v ===== *)
(** * The DRF sorter

    [src/src/master/allocator/mesos/sorter/drf/sorter.cpp]: the order in which
    clients are offered resources, by their dominant share.  One definition
    per operation of [DRFSorter]; [None] is a failed [CHECK].

    A [double] is the rational number that it stands for, so the definitions
    are about finite weights.  The master rejects weights that are not positive
    ([src/src/master/weights_handler.cpp], [_updateWeights], and [weight_ok]),
    so that a share is never divided by zero; a weight that is not a number
    passes that comparison in the code, and is not a value here. *)

From stdpp Require Import base gmap strings list sorting.
From Stdlib Require Import ZArith QArith Lqa.
From S2P Require Import Prelude Strings Ranges Scalar Values Quantities Registry Resource Resources ResourceOps Quota SorterTree.
Local Open Scope Z_scope.

(** ** State *)

Record Sorter := mkSorter {
  fairnessExcludeResourceNames : option (gset string);
  dirty : bool;
  root : Node;
  clients : gmap string location;
  weights : gmap string double;
  total : entries;
  agentResourceQuantities : gmap string entries;
}.

Definition new_sorter (exclude : option (gset string)) : Sorter :=
  mkSorter exclude false (node root_data []) ∅ ∅ [] ∅.

Definition with_tree (d : bool) (r : Node) (c : gmap string location) (s : Sorter) : Sorter :=
  mkSorter (fairnessExcludeResourceNames s) d r c (weights s) (total s) (agentResourceQuantities s).

(** ** Shares and their order *)

Definition DEFAULT_WEIGHT : double := 1%Q.

(** [getWeight], which caches the weight in the node. *)
Definition getWeight (s : Sorter) (d : Data) : double :=
  match weight d with Some w => w | None => default DEFAULT_WEIGHT (weights s !! path d) end.

(** [std::max(share, x)]. *)
Definition fmax (x y : double) : double := if negb (Qle_bool y x) then y else x.

Definition dominant (s : Sorter) (a : Allocation) : double :=
  fold_left (fun acc '(resourceName, scalar) =>
    if match fairnessExcludeResourceNames s with Some e => bool_decide (resourceName ∈ e) | None => false end then acc
    else if scalar <=? 0 then acc
    else fmax acc (fdiv (convertToFloating (Quantities.get (totals a) resourceName)) (convertToFloating scalar)))
    (total s) 0%Q.

(** [calculateShare], for the weights that the master accepts: they are not zero
    (for the weight zero binary64 gives an infinity or not a number, and
    [fdiv] the number zero). *)
Definition calculateShare (s : Sorter) (d : Data) : double := fdiv (dominant s (allocation d)) (getWeight s d).

(** [child->share = calculateShare(child)]. *)
Definition refresh_data (s : Sorter) (d : Data) : Data :=
  with_share (calculateShare s d) (with_weight (Some (getWeight s d)) d).

Definition refresh (s : Sorter) (n : Node) : Node := node (refresh_data s (data n)) (children n).

Definition compareDRF_data (l r : Data) : bool :=
  if negb (Qeq_bool (share l) (share r)) then negb (Qle_bool (share r) (share l))
  else if negb (count (allocation l) =? count (allocation r)) then count (allocation l) <? count (allocation r)
  else bool_decide (str_lt (path l) (path r)).

Definition compareDRF (l r : Node) : bool := compareDRF_data (data l) (data r).

(** ** Operations *)

(** [find] with its check, and [CHECK_NOTNULL(find(clientPath))]. *)
Definition find (s : Sorter) (cp : string) : option (option location) :=
  match clients s !! cp with
  | None => Some None
  | Some loc =>
      n ← node_at loc (root s);
      leaf ← isLeaf n;
      if leaf : bool then Some (Some loc) else None
  end.

Definition find_client (s : Sorter) (cp : string) : option location := r ← find s cp; r.

Definition contains (s : Sorter) (cp : string) : option bool := r ← find s cp; Some (bool_decide (is_Some r)).
Definition client_count (s : Sorter) : nat := size (clients s).

(** The last checks of [add]. *)
Definition check_leaf (r : Node) (loc : location) (cp : string) : option () :=
  parent ← node_at (removelast loc) r;
  current ← node_at loc r;
  found ← clientPath (data parent) (data current);
  if bool_decide (children current = []) && bool_decide (node_kind current = INACTIVE_LEAF)
     && bool_decide (found = cp) then Some () else None.

Definition add (s : Sorter) (cp : string) : option Sorter :=
  if bool_decide (is_Some (clients s !! cp)) then None
  else
    a ← descend [] (split cp "/") (root s);
    if moved a then None
    else
      let clients1 := add_virtual (virtual a) (clients s) in
      _ ← check_leaf (added a) (leaf_at a) cp;
      if bool_decide (is_Some (clients1 !! cp)) then None
      else Some (with_tree true (added a) (<[cp := leaf_at a]> clients1) s).

Definition remove (s : Sorter) (cp : string) : option Sorter :=
  loc ← find_client s cp;
  leaf ← node_at loc (root s);
  '(r, c) ← remove_at [] loc (map_to_list (resources (allocation (data leaf)))) (root s) (delete cp (clients s));
  Some (with_tree true r c s).

Definition set_kind (from to : Kind) (d : Data) : Data * bool :=
  if bool_decide (kind d = from) then (with_kind to d, true) else (d, false).

Definition activate (s : Sorter) (cp : string) : option Sorter :=
  loc ← find_client s cp;
  client ← node_at loc (root s);
  '(r, _) ← update_at loc (set_kind INACTIVE_LEAF ACTIVE_LEAF) (root s);
  Some (with_tree (dirty s || bool_decide (node_kind client = INACTIVE_LEAF)) r (clients s) s).

Definition deactivate (s : Sorter) (cp : string) : option Sorter :=
  loc ← find_client s cp;
  '(r, _) ← update_at loc (set_kind ACTIVE_LEAF INACTIVE_LEAF) (root s);
  Some (with_tree (dirty s) r (clients s) s).

(** [updateWeight], for a weight that is a number. *)
Definition updateWeight (s : Sorter) (p : string) (w : double) : option Sorter :=
  let s' := mkSorter (fairnessExcludeResourceNames s) true (root s) (clients s) (<[p := w]> (weights s)) (total s)
              (agentResourceQuantities s) in
  found ← find s' p;
  match found with
  | None => Some s'
  | Some loc =>
      let loc' := if bool_decide (last loc = Some "."%string) then removelast loc else loc in
      n ← node_at loc' (root s');
      if negb (bool_decide (path (data n) = p)) then None
      else
        '(r, _) ← update_at loc' (fun d => (with_weight (Some w) d, false)) (root s');
        Some (with_tree true r (clients s') s')
  end.

(** The vector of siblings around the position of [current], with the
    elements before it in reverse order. *)
Fixpoint shift_left (current : Node) (before after : list Node) : list Node * list Node :=
  match before with
  | x :: before' => if compareDRF current x then shift_left current before' (x :: after) else (before, after)
  | [] => ([], after)
  end.

Fixpoint shift_right (current : Node) (before after : list Node) : list Node * list Node :=
  match after with
  | x :: after' =>
      if negb (bool_decide (node_kind x = INACTIVE_LEAF)) && compareDRF x current
      then shift_right current (x :: before) after' else (before, after)
  | [] => (before, [])
  end.

Fixpoint split_at (n : string) (before l : list Node) : option (list Node * list Node) :=
  match l with
  | [] => None
  | x :: l' => if has_key node_name n x then Some (before, l') else split_at n (x :: before) l'
  end.

(** The body of the loop of [allocated] for a node that is not the root. *)
Definition settle_sorted (s : Sorter) (c : Node) (l : list Node) : option (list Node) :=
  if dirty s || bool_decide (node_kind c = INACTIVE_LEAF) then replace_child c l
  else
    let current := refresh s c in
    '(before, after) ← split_at (node_name c) [] l;
    let '(before1, after1) := shift_left current before after in
    let '(before2, after2) := shift_right current before1 after1 in
    Some (reverse before2 ++ current :: after2).

Definition allocated (s : Sorter) (cp slaveId : string) (rs : Resources) : option Sorter :=
  loc ← find_client s cp;
  r ← climb loc (allocation_add slaveId rs) (settle_sorted s) (root s);
  Some (with_tree (dirty s) r (clients s) s).

Definition update (s : Sorter) (cp slaveId : string) (oldAllocation newAllocation : Resources) : option Sorter :=
  loc ← find_client s cp;
  r ← climb loc (allocation_update slaveId oldAllocation newAllocation) replace_child (root s);
  Some (with_tree true r (clients s) s).

Definition unallocated (s : Sorter) (cp slaveId : string) (rs : Resources) : option Sorter :=
  loc ← find_client s cp;
  r ← climb loc (allocation_subtract slaveId rs) replace_child (root s);
  Some (with_tree true r (clients s) s).

Definition client_allocation (s : Sorter) (cp : string) : option Allocation :=
  loc ← find_client s cp; n ← node_at loc (root s); Some (allocation (data n)).

Definition addSlave (s : Sorter) (slaveId : string) (q : entries) : option Sorter :=
  if bool_decide (is_Some (agentResourceQuantities s !! slaveId)) then None
  else Some (mkSorter (fairnessExcludeResourceNames s) true (root s) (clients s) (weights s)
               (Quantities.plus (total s) q) (<[slaveId := q]> (agentResourceQuantities s))).

Definition removeSlave (s : Sorter) (slaveId : string) : option Sorter :=
  q ← agentResourceQuantities s !! slaveId;
  if negb (Quantities.contains (total s) q) then None
  else Some (mkSorter (fairnessExcludeResourceNames s) true (root s) (clients s) (weights s)
               (Quantities.minus (total s) q) (delete slaveId (agentResourceQuantities s))).

(** ** Sorting *)

(** The children before the first inactive leaf, and the rest. *)
Fixpoint split_inactive (l : list Node) : list Node * list Node :=
  match l with
  | [] => ([], [])
  | x :: l' =>
      if bool_decide (node_kind x = INACTIVE_LEAF) then ([], l)
      else let '(a, b) := split_inactive l' in (x :: a, b)
  end.

(** [std::sort] with [compareDRF], which orders nodes of different paths
    totally: what sorts it does not matter. *)
Definition drf_le (l r : Node) : Prop := compareDRF r l = false.
#[export] Instance drf_le_dec l r : Decision (drf_le l r).
Proof. unfold drf_le. apply _. Defined.

Definition sort_children (s : Sorter) (l : list Node) : list Node :=
  let '(front, inactive) := split_inactive l in merge_sort drf_le (map (refresh s) front) ++ inactive.

(** The loop over the children that [sortTree] calls itself on. *)
Definition map_front (f : Node -> Node) : list Node -> list Node :=
  fix go (l : list Node) : list Node :=
    match l with
    | [] => []
    | x :: l' =>
        if bool_decide (node_kind x = INACTIVE_LEAF) then x :: l'
        else (if bool_decide (node_kind x = INTERNAL) then f x else x) :: go l'
    end.

(** [sortTree]: here the recursive calls come before the children are sorted,
    for the recursion to be structural.  They come after it in the code;
    [sortTree_eq] below is the code's equation. *)
Fixpoint sortTree (s : Sorter) (n : Node) : Node :=
  match n with node d l => node d (sort_children s (map_front (sortTree s) l)) end.

Definition list_front (d : Data) (f : Node -> option (list string)) : list Node -> option (list string) :=
  fix go (l : list Node) : option (list string) :=
    match l with
    | [] => Some []
    | x :: l' =>
        match node_kind x with
        | INACTIVE_LEAF => Some []
        | ACTIVE_LEAF => cp ← clientPath d (data x); rest ← go l'; Some (cp :: rest)
        | INTERNAL => mine ← f x; rest ← go l'; Some (mine ++ rest)
        end
    end.

Fixpoint listClients (n : Node) : option (list string) :=
  match n with node d l => list_front d listClients l end.

Definition sort (s : Sorter) : option (list string * Sorter) :=
  let s' := if dirty s then with_tree false (sortTree s (root s)) (clients s) s else s in
  l ← listClients (root s'); Some (l, s').

(** ** The order of shares *)

Definition drf_lt (l r : Data) : Prop := compareDRF_data l r = true.

#[export] Instance drf_lt_dec l r : Decision (drf_lt l r).
Proof. unfold drf_lt. apply _. Defined.

Lemma drf_lt_spec l r :
  drf_lt l r <->
  (share l < share r)%Q
  \/ (share l == share r)%Q /\ (count (allocation l) < count (allocation r)
     \/ count (allocation l) = count (allocation r) /\ str_lt (path l) (path r)).
Proof.
  unfold drf_lt, compareDRF_data. destruct (Qeq_bool (share l) (share r)) eqn:E; cbn.
  - apply Qeq_bool_iff in E. destruct (Z.eqb_spec (count (allocation l)) (count (allocation r))) as [Ec|Ec]; cbn.
    + rewrite bool_decide_eq_true. split; [by auto|].
      intros [H|[_ [H|[_ H]]]]; [lra|lia|done].
    + rewrite Z.ltb_lt. split; [by auto|]. intros [H|[_ [H|[H _]]]]; [lra|done|done].
  - apply Qeq_bool_neq in E. rewrite negb_true_iff. split.
    + intros H. left. apply Qnot_le_lt. intros Hle. apply Qle_bool_iff in Hle. congruence.
    + intros [H|[? _]]; [|done]. apply not_true_iff_false. rewrite Qle_bool_iff. lra.
Qed.

#[export] Instance drf_lt_strict : StrictOrder drf_lt.
Proof.
  split.
  - intros l. unfold complement. rewrite drf_lt_spec. intros [H|[_ [H|[_ H]]]]; [lra|lia|].
    by apply (irreflexivity str_lt (path l)).
  - intros a b c. rewrite !drf_lt_spec.
    intros [H1|[E1 [C1|[C1 P1]]]] [H2|[E2 [C2|[C2 P2]]]]; try (left; lra); right; (split; [lra|]); try (left; lia).
    right. split; [lia|by transitivity (path b)].
Qed.

(** [compareDRF] tells any two nodes of different paths apart. *)
Lemma drf_lt_total l r : path l <> path r -> drf_lt l r \/ drf_lt r l.
Proof.
  intros Hp. rewrite !drf_lt_spec. destruct (Q_dec (share l) (share r)) as [[H|H]|H]; [tauto..|].
  destruct (Z.lt_trichotomy (count (allocation l)) (count (allocation r))) as [Hc|[Hc|Hc]].
  - left. right. split; [done|by left].
  - destruct (strcmp_spec (path l) (path r)); [done|left|right]; right; (split; [lra|]); by right.
  - right. right. split; [lra|by left].
Qed.

Lemma compareDRF_false l r : compareDRF l r = false <-> ~ drf_lt (data l) (data r).
Proof. unfold drf_lt, compareDRF. by rewrite not_true_iff_false. Qed.

Lemma drf_not_lt_total l r : ~ drf_lt l r \/ ~ drf_lt r l.
Proof.
  destruct (decide (drf_lt l r)) as [H|]; [|by left]. right. intros H'.
  by apply (irreflexivity drf_lt l); transitivity r.
Qed.

#[export] Instance drf_le_total : Total drf_le.
Proof. intros l r. unfold drf_le. rewrite !compareDRF_false. destruct (drf_not_lt_total (data l) (data r)); auto. Qed.

Lemma drf_not_lt_cases l r : ~ drf_lt r l <-> drf_lt l r \/ (share l == share r)%Q
  /\ count (allocation l) = count (allocation r) /\ path l = path r.
Proof.
  split.
  - intros H. destruct (decide (drf_lt l r)) as [|H']; [by left|]. right. rewrite drf_lt_spec in H, H'.
    destruct (Q_dec (share l) (share r)) as [[Hq|Hq]|Hq]; [tauto..|].
    destruct (Z.lt_trichotomy (count (allocation l)) (count (allocation r))) as [Hc|[Hc|Hc]].
    + destruct H'. right. auto.
    + split_and!; [done..|]. destruct (strcmp_spec (path l) (path r)) as [|Hs|Hs]; [done|exfalso..].
      * apply H'. right. auto.
      * apply H. right. split; [lra|auto].
    + destruct H. right. split; [lra|auto].
  - intros [H|(H1 & H2 & H3)].
    + intros H'. by apply (irreflexivity drf_lt l); transitivity r.
    + rewrite drf_lt_spec. intros [H|[_ [H|[_ H]]]]; [lra|lia|]. rewrite H3 in H. by apply (irreflexivity str_lt (path r)).
Qed.

#[export] Instance drf_le_trans : Transitive drf_le.
Proof.
  intros a b c. unfold drf_le. rewrite !compareDRF_false, !drf_not_lt_cases, !drf_lt_spec.
  intros [[H1|[E1 [C1|[C1 P1]]]]|(E1 & C1 & P1)] [[H2|[E2 [C2|[C2 P2]]]]|(E2 & C2 & P2)];
    try (left; left; lra); try (left; right; split; [lra|]; left; lia).
  - left. right. split; [lra|]. right. split; [lia|by transitivity (path (data b))].
  - left. right. split; [lra|]. right. split; [lia|by rewrite <- P2].
  - left. right. split; [lra|]. right. split; [lia|by rewrite P1].
  - right. split_and!; [lra|lia|congruence].
Qed.

(** ** Sorting *)

(** The children that are sorted, and the rest. *)
Definition active_part (l : list Node) : list Node := base.filter (fun c => ~ inactive c) l.
Definition inactive_part (l : list Node) : list Node := base.filter inactive l.

Lemma filter_Forall_all {A} (P : A -> Prop) `{forall x, Decision (P x)} l : Forall P l -> base.filter P l = l.
Proof. induction 1 as [|x l Hx _ IH]; [done|]. by rewrite filter_cons_True, IH. Qed.

Lemma filter_Forall_none {A} (P : A -> Prop) `{forall x, Decision (P x)} l :
  Forall (fun x => ~ P x) l -> base.filter P l = [].
Proof. induction 1 as [|x l Hx _ IH]; [done|]. by rewrite filter_cons_False. Qed.

Lemma active_part_none l : Forall inactive l -> active_part l = [].
Proof. intros H. apply filter_Forall_none. eapply Forall_impl; [exact H|]. auto. Qed.

Lemma split_inactive_eq l : inactive_last l -> split_inactive l = (active_part l, inactive_part l).
Proof.
  unfold active_part, inactive_part. induction 1 as [l Hl|x l Hx Hl IH]; cbn [split_inactive].
  - fold (active_part l). rewrite active_part_none, filter_Forall_all by done. destruct Hl as [|x l Hx Hl]; [done|]. cbn.
    by rewrite bool_decide_eq_true_2.
  - rewrite bool_decide_eq_false_2 by done. rewrite IH, filter_cons_True, filter_cons_False by auto. done.
Qed.

Lemma sort_children_eq s l :
  inactive_last l ->
  sort_children s l = merge_sort drf_le (map (refresh s) (active_part l)) ++ inactive_part l.
Proof. intros H. unfold sort_children. by rewrite split_inactive_eq. Qed.

(** What [sortTree] does to a child before sorting: to itself if it is not
    inactive, and below it if it is internal. *)
Definition descend_into (f : Node -> Node) (n : Node) : Node :=
  if bool_decide (node_kind n = INTERNAL) then f n else n.

Lemma map_front_eq f l : inactive_last l -> map_front f l = map (descend_into f) l.
Proof.
  induction 1 as [l Hl|x l Hx Hl IH]; cbn [map_front map].
  - destruct Hl as [|x l Hx Hl]; [done|]. cbn. rewrite bool_decide_eq_true_2 by done. f_equal.
    + unfold descend_into. by rewrite Hx.
    + induction Hl as [|y l Hy Hl IHl]; [done|]. cbn. rewrite <- IHl. unfold descend_into. by rewrite Hy.
  - rewrite bool_decide_eq_false_2 by done. by rewrite IH.
Qed.

(** A function that keeps the kind of every child keeps the order. *)
Lemma map_inactive_last f l :
  (forall c, node_kind (f c) = node_kind c) -> inactive_last l -> inactive_last (map f l).
Proof.
  intros Hf. induction 1 as [l Hl|x l Hx Hl IH]; cbn.
  - constructor. rewrite Forall_map. eapply Forall_impl; [exact Hl|]. intros c Hc. unfold inactive. by rewrite Hf.
  - constructor 2; [|done]. unfold inactive. by rewrite Hf.
Qed.

Lemma map_parts f l :
  (forall c, node_kind (f c) = node_kind c) ->
  active_part (map f l) = map f (active_part l) /\ inactive_part (map f l) = map f (inactive_part l).
Proof.
  intros Hf. unfold active_part, inactive_part. induction l as [|x l [IH1 IH2]]; [done|]. cbn [map].
  destruct (decide (inactive x)) as [Hx|Hx].
  - assert (Hx' : inactive (f x)) by (unfold inactive; by rewrite Hf).
    rewrite !filter_cons_True with (P := inactive) by done. rewrite !filter_cons_False by auto. cbn. by rewrite IH1, IH2.
  - assert (Hx' : ~ inactive (f x)) by (unfold inactive; by rewrite Hf).
    rewrite !filter_cons_False with (P := inactive) by done. rewrite !filter_cons_True by auto. cbn. by rewrite IH1, IH2.
Qed.

(** Merge sort looks at nodes through their data only. *)
Section MergeMap.
  Context (f : Node -> Node).
  Hypothesis f_data : forall n, data (f n) = data n.

Lemma drf_le_map x y : drf_le (f x) (f y) <-> drf_le x y.
Proof. unfold drf_le, compareDRF. by rewrite !f_data. Qed.

Lemma list_merge_map l1 l2 : list_merge drf_le (map f l1) (map f l2) = map f (list_merge drf_le l1 l2).
Proof.
  revert l2. induction l1 as [|x1 l1 IH1]; intros l2; [by destruct l2|].
  induction l2 as [|x2 l2 IH2]; [done|]. cbn [map]. rewrite !list_merge_cons.
  destruct (decide (drf_le x1 x2)) as [H|H].
  - rewrite decide_True by (by apply drf_le_map). cbn [map]. by rewrite <- IH1.
  - rewrite decide_False by (by rewrite drf_le_map). cbn [map]. by rewrite <- IH2.
Qed.

Lemma merge_list_to_stack_map st l :
  merge_list_to_stack drf_le (map (option_map (map f)) st) (map f l)
  = map (option_map (map f)) (merge_list_to_stack drf_le st l).
Proof.
  revert l. induction st as [|[l'|] st IH]; intros l; [done| |done]. cbn. by rewrite list_merge_map, IH.
Qed.

Lemma merge_stack_map st : merge_stack drf_le (map (option_map (map f)) st) = map f (merge_stack drf_le st).
Proof. induction st as [|[l'|] st IH]; [done| |done]. cbn. by rewrite IH, list_merge_map. Qed.

Lemma merge_sort_aux_map st l :
  merge_sort_aux drf_le (map (option_map (map f)) st) (map f l) = map f (merge_sort_aux drf_le st l).
Proof.
  revert st. induction l as [|x l IH]; intros st; cbn; [apply merge_stack_map|].
  rewrite <- IH. f_equal. apply (merge_list_to_stack_map st [x]).
Qed.

Lemma merge_sort_map l : merge_sort drf_le (map f l) = map f (merge_sort drf_le l).
Proof. apply (merge_sort_aux_map [] l). Qed.
End MergeMap.

Lemma sortTree_data s n : data (sortTree s n) = data n.
Proof. by destruct n. Qed.

Lemma descend_data s n : data (descend_into (sortTree s) n) = data n.
Proof. unfold descend_into. case_bool_decide; [apply sortTree_data|done]. Qed.

Lemma refresh_kind s n : node_kind (refresh s n) = node_kind n.
Proof. done. Qed.

Lemma descend_refresh s n :
  refresh s (descend_into (sortTree s) n) = descend_into (sortTree s) (refresh s n).
Proof. unfold descend_into. rewrite refresh_kind. case_bool_decide; [|done]. by destruct n as [d l]. Qed.

Lemma merge_part_inactive s l :
  inactive_last l ->
  inactive_last (merge_sort drf_le (map (refresh s) (active_part l)) ++ inactive_part l).
Proof.
  intros _. assert (Ha : Forall (fun c => ~ inactive c) (merge_sort drf_le (map (refresh s) (active_part l)))).
  { rewrite merge_sort_Permutation, Forall_map. apply Forall_forall. intros c Hc.
    by apply list_elem_of_filter in Hc as [? _]. }
  induction Ha as [|x k Hx _ IH]; cbn; [|by constructor 2].
  constructor. apply Forall_forall. intros c Hc. by apply list_elem_of_filter in Hc as [? _].
Qed.

(** The equation of [sortTree] as the code has it: sort the children, then
    the trees below them. *)
Lemma sortTree_eq s n :
  inactive_last (children n) ->
  sortTree s n = node (data n) (map_front (sortTree s) (sort_children s (children n))).
Proof.
  destruct n as [d l]. intros Hl. cbn [sortTree data children] in *. f_equal.
  assert (Hk : forall c, node_kind (descend_into (sortTree s) c) = node_kind c)
    by (intros c; unfold node_kind; by rewrite descend_data).
  rewrite (map_front_eq _ l) by done. rewrite sort_children_eq by (by apply map_inactive_last).
  rewrite (sort_children_eq s l Hl). rewrite map_front_eq by (by apply merge_part_inactive).
  destruct (map_parts _ l Hk) as [-> ->]. rewrite map_app. f_equal.
  rewrite <- (merge_sort_map _ (descend_data s)), !map_map. f_equal. apply map_ext. intros c. apply descend_refresh.
Qed.

(** ** Sorted trees *)

(** The second ordering invariant of [Node::children]: the children that are
    not inactive have their shares computed and are sorted by them. *)
Record in_order (s : Sorter) (l : list Node) : Prop := {
  io_fresh : Forall (fun c => refresh_data s (data c) = data c) (active_part l);
  io_sorted : StronglySorted drf_lt (map data (active_part l));
}.

#[local] Unset Elimination Schemes.
Inductive fresh (s : Sorter) (n : Node) : Prop := fresh_intro {
  fr_here : in_order s (children n);
  fr_below : Forall (fresh s) (children n);
}.
#[local] Set Elimination Schemes.

Lemma path_of_snoc_inj here t t' : path_of (here ++ [t]) = path_of (here ++ [t']) -> t = t'.
Proof.
  destruct (decide (here = [])) as [->|Hne]; [by rewrite !app_nil_l, !path_of_single|].
  rewrite !path_of_snoc by done. intros H%(inj (String.append (path_of here))). by apply (inj (String.append "/")).
Qed.

Lemma wf_paths here n : wf_node here n -> NoDup (map (fun c => path (data c)) (children n)).
Proof.
  intros [[_ _ _ _ S6 _ _ _] _ Hb]. revert S6. induction Hb as [|c l Hc Hl IH]; cbn; [constructor|].
  intros [Hx Hn]%NoDup_cons. apply NoDup_cons. split; [|by apply IH].
  intros (c' & E & Hc')%list_elem_of_fmap_1. apply Hx. rewrite Forall_forall in Hl.
  rewrite (sh_path _ _ _ (wf_shape _ _ Hc)), (sh_path _ _ _ (wf_shape _ _ (Hl c' Hc'))) in E.
  apply path_of_snoc_inj in E. rewrite E. by apply list_elem_of_fmap_2.
Qed.

Lemma StronglySorted_trichotomy {A} (R : relation A) l x y :
  StronglySorted R l -> x ∈ l -> y ∈ l -> x = y \/ R x y \/ R y x.
Proof.
  induction 1 as [|z l Hl IH Hz]; [by intros ?%elem_of_nil|]. rewrite Forall_forall in Hz.
  intros [->|Hx]%elem_of_cons [->|Hy]%elem_of_cons; auto.
Qed.

Lemma sorted_impl {A} (R R' : relation A) l :
  (forall x y, x ∈ l -> y ∈ l -> R x y -> R' x y) -> StronglySorted R l -> StronglySorted R' l.
Proof.
  intros H Hl. induction Hl as [|z l Hl IH Hz]; [constructor|]. constructor.
  - apply IH. intros x y Hx Hy. apply H; by right.
  - rewrite Forall_forall in Hz |- *. intros y Hy. apply H; [by left|by right|by apply Hz].
Qed.

Lemma sorted_map {A B} (f : A -> B) (R : relation B) l :
  StronglySorted R (map f l) <-> StronglySorted (fun x y => R (f x) (f y)) l.
Proof.
  induction l as [|x l IH]; cbn; [by split; constructor|]. by rewrite !StronglySorted_cons, IH, Forall_map.
Qed.

Lemma merge_sort_sorted l : StronglySorted drf_lt (map data l) -> merge_sort drf_le l = l.
Proof.
  rewrite sorted_map. intros Hl. apply (StronglySorted_unique_strong drf_le).
  - intros x y Hx Hy. rewrite merge_sort_Permutation in Hx. unfold drf_le. rewrite !compareDRF_false. intros H1 H2.
    destruct (StronglySorted_trichotomy _ l x y Hl Hx Hy) as [|[|]]; done.
  - apply StronglySorted_merge_sort; apply _.
  - eapply sorted_impl; [|exact Hl]. intros x y _ _ H. unfold drf_le. rewrite compareDRF_false, drf_not_lt_cases. by left.
  - apply merge_sort_Permutation.
Qed.

Lemma merge_sort_strict l :
  NoDup (map (fun c => path (data c)) l) -> StronglySorted drf_lt (map data (merge_sort drf_le l)).
Proof.
  intros Hn. rewrite sorted_map.
  assert (Hs : StronglySorted drf_le (merge_sort drf_le l)) by (apply StronglySorted_merge_sort; apply _).
  assert (Hn' : NoDup (map (fun c => path (data c)) (merge_sort drf_le l))) by (by rewrite merge_sort_Permutation).
  induction Hs as [|x k Hk IH Hx]; [constructor|]. cbn in Hn'. apply NoDup_cons in Hn' as [Hd Hn'].
  constructor; [by apply IH|]. rewrite Forall_forall in Hx |- *. intros y Hy. specialize (Hx y Hy).
  unfold drf_le in Hx. rewrite compareDRF_false, drf_not_lt_cases in Hx. destruct Hx as [|(_ & _ & E)]; [done|].
  destruct Hd. rewrite E. by apply (list_elem_of_fmap_2 (fun c => path (data c))).
Qed.

(** A clean tree is one that sorting does not change. *)
Lemma fresh_sortTree s here n : wf_node here n -> fresh s n -> sortTree s n = n.
Proof.
  revert here. induction n as [d l IH] using tree_ind. intros here Hn Hf.
  assert (Ho := sh_order _ _ _ (wf_shape _ _ Hn)). destruct Hn as [Hs _ Hb]. destruct Hf as [[F1 F2] F3].
  cbn [sortTree children] in *. f_equal. rewrite map_front_eq by done.
  replace (map (descend_into (sortTree s)) l) with l.
  - rewrite sort_children_eq by done. replace (map (refresh s) (active_part l)) with (active_part l).
    + rewrite merge_sort_sorted by done. clear -Ho. unfold active_part, inactive_part.
      induction Ho as [l Hl|x l Hx Hl IH].
      * fold (active_part l). by rewrite active_part_none, filter_Forall_all.
      * rewrite filter_cons_True, filter_cons_False by auto. cbn. by rewrite IH.
    + symmetry. rewrite <- (map_id (active_part l)) at 2. apply map_ext_in. intros c Hc%list_elem_of_In.
      rewrite Forall_forall in F1. specialize (F1 c Hc). unfold refresh. rewrite F1. by destruct c.
  - symmetry. rewrite <- (map_id l) at 2. apply map_ext_in. intros c Hc%list_elem_of_In. rewrite Forall_forall in *.
    unfold descend_into. case_bool_decide; [|done]. by apply (IH c Hc _ (Hb c Hc)), F3.
Qed.

Lemma refresh_idempotent s d : refresh_data s (refresh_data s d) = refresh_data s d.
Proof. done. Qed.

Lemma active_part_app l k : active_part (l ++ k) = active_part l ++ active_part k.
Proof. apply filter_app. Qed.

Lemma active_part_all l : Forall (fun c => ~ inactive c) l -> active_part l = l.
Proof. apply filter_Forall_all. Qed.

Lemma active_elem c l : c ∈ active_part l <-> ~ inactive c /\ c ∈ l.
Proof. unfold active_part. by rewrite list_elem_of_filter. Qed.

Lemma inactive_part_all l : Forall inactive (inactive_part l).
Proof. apply Forall_forall. intros c Hc. by apply list_elem_of_filter in Hc as [? _]. Qed.

Lemma parts_perm l : active_part l ++ inactive_part l ≡ₚ l.
Proof.
  unfold active_part, inactive_part. induction l as [|x l IH]; [done|]. destruct (decide (inactive x)) as [Hx|Hx].
  - rewrite filter_cons_False, filter_cons_True by auto. rewrite <- Permutation_middle. by constructor.
  - rewrite filter_cons_True, filter_cons_False by auto. cbn. by constructor.
Qed.

Lemma Permutation_eq {A} (l l' : list A) : l = l' -> l ≡ₚ l'.
Proof. by intros ->. Qed.

(** The children after sorting are the old ones with their shares computed. *)
Definition freshen (s : Sorter) (c : Node) : Node := if decide (inactive c) then c else refresh s c.

Lemma freshen_same s c : same_node c (freshen s c).
Proof. unfold freshen. destruct (decide _); by split. Qed.

Lemma sort_children_perm s l : inactive_last l -> sort_children s l ≡ₚ map (freshen s) l.
Proof.
  intros Hl. rewrite sort_children_eq, merge_sort_Permutation by done.
  rewrite <- (parts_perm l) at 3. rewrite map_app. f_equiv.
  - apply Permutation_eq, map_ext_in. intros c [Hc _]%list_elem_of_In%active_elem. unfold freshen. by rewrite decide_False.
  - apply Permutation_eq. symmetry. rewrite <- (map_id (inactive_part l)) at 2. apply map_ext_in. intros c Hc%list_elem_of_In.
    assert (Hi := inactive_part_all l). rewrite Forall_forall in Hi. unfold freshen. by rewrite decide_True by auto.
Qed.

Lemma sort_children_in_order s l :
  inactive_last l -> NoDup (map (fun c => path (data c)) l) -> in_order s (sort_children s l).
Proof.
  intros Hl Hn. rewrite sort_children_eq by done.
  set (k := map (refresh s) (active_part l)).
  assert (Hk : Forall (fun c => ~ inactive c) (merge_sort drf_le k)).
  { rewrite merge_sort_Permutation. unfold k. rewrite Forall_map. apply Forall_forall. by intros c [? _]%active_elem. }
  assert (E : active_part (merge_sort drf_le k ++ inactive_part l) = merge_sort drf_le k).
  { rewrite active_part_app, active_part_all, active_part_none by (done || apply inactive_part_all). apply app_nil_r. }
  split; rewrite E.
  - rewrite merge_sort_Permutation. unfold k. rewrite Forall_map. apply Forall_forall. intros c _. apply refresh_idempotent.
  - apply merge_sort_strict. unfold k. rewrite map_map. change (fun x => path (data (refresh s x))) with (fun x => path (data x)).
    eapply NoDup_sublist; [|exact Hn]. apply sublist_map. apply sublist_filter.
Qed.

Lemma leaves_below_map here l (h : Node -> Node) :
  (forall c, c ∈ l -> node_name (h c) = node_name c) ->
  (forall c, c ∈ l -> leaves (here ++ [node_name c]) (h c) ≡ₚ leaves (here ++ [node_name c]) c) ->
  leaves_below here (map h l) ≡ₚ leaves_below here l.
Proof.
  unfold leaves_below. intros Hn H. induction l as [|c l IH]; [done|]. cbn.
  rewrite (Hn c), (H c) by (by left). rewrite IH; [done|..]; intros c' Hc'; [apply Hn|apply H]; by right.
Qed.

(** Children that were changed one by one and reordered. *)
Lemma wf_reordered here n (h : Node -> Node) l' :
  wf_node here n -> l' ≡ₚ map h (children n) -> inactive_last l' ->
  (forall c, c ∈ children n -> node_name (h c) = node_name c /\ wf_node (here ++ [node_name c]) (h c)
     /\ leaves (here ++ [node_name c]) (h c) ≡ₚ leaves (here ++ [node_name c]) c) ->
  wf_node here (node (data n) l') /\ leaves here (node (data n) l') ≡ₚ leaves here n.
Proof.
  intros [[S1 S2 S3 S5 S6 S7 S8 S9] S4 Hb] Hp Ho Hh.
  assert (Hnames : map node_name l' ≡ₚ map node_name (children n)).
  { rewrite Hp, map_map. apply Permutation_eq, map_ext_in. intros c Hc%list_elem_of_In. by apply Hh. }
  split.
  - split; [split; cbn; try done|..].
    + intros Hk. specialize (S3 Hk). rewrite S3 in Hp. by apply Permutation_nil_r in Hp.
    + by rewrite Hnames.
    + rewrite <- (Forall_map node_name no_slash) in S7 |- *. by rewrite Hnames.
    + intros E. rewrite Hnames. by apply S8.
    + intros Hk Hne E. cbn in E. rewrite E in Hp. symmetry in Hp; apply Permutation_nil_r, map_eq_nil in Hp. by apply S4 in Hp.
    + cbn. rewrite Hp, Forall_map. apply Forall_forall. intros c Hc. destruct (Hh c Hc) as (-> & H & _). exact H.
  - destruct (decide (node_kind n = INTERNAL)) as [Hk|Hk].
    + rewrite !leaves_internal by done. cbn [children]. rewrite (leaves_below_perm here _ _ Hp).
      apply leaves_below_map; intros c Hc; by apply Hh.
    + rewrite !leaves_leaf by done. done.
Qed.

Lemma leaf_fresh s here n : wf_node here n -> node_kind n <> INTERNAL -> fresh s n.
Proof.
  intros [Hs _ _] Hk. split; rewrite (sh_leaf _ _ _ Hs Hk); [|constructor]. split; cbn; constructor.
Qed.

Lemma fresh_same s c c' : children c' = children c -> fresh s c -> fresh s c'.
Proof. intros E [H1 H2]. split; by rewrite E. Qed.

(** What [sortTree] establishes. *)
Lemma sortTree_spec s here n :
  wf_node here n ->
  wf_node here (sortTree s n) /\ leaves here (sortTree s n) ≡ₚ leaves here n /\ fresh s (sortTree s n).
Proof.
  revert here. induction n as [d l IH] using tree_ind. intros here Hn.
  assert (Ho := sh_order _ _ _ (wf_shape _ _ Hn)). assert (Hb := wf_below _ _ Hn). cbn [children] in Ho, Hb.
  rewrite Forall_forall in IH, Hb. cbn [sortTree]. rewrite map_front_eq by done.
  set (f := descend_into (sortTree s)). assert (Hd : forall c, data (f c) = data c) by apply descend_data.
  assert (Hf : forall c, c ∈ l -> wf_node (here ++ [node_name c]) (f c)
             /\ leaves (here ++ [node_name c]) (f c) ≡ₚ leaves (here ++ [node_name c]) c /\ fresh s (f c)).
  { intros c Hc. unfold f, descend_into. case_bool_decide as Hk; [by apply IH, Hb|].
    split_and!; [by apply Hb|done|]. eapply leaf_fresh; [by apply Hb|done]. }
  assert (Ho' : inactive_last (map f l)).
  { apply map_inactive_last; [|done]. intros c. unfold node_kind. by rewrite Hd. }
  assert (Hp := sort_children_perm s (map f l) Ho'). rewrite map_map in Hp.
  destruct (wf_reordered here (node d l) (fun c => freshen s (f c)) (sort_children s (map f l))) as [W L]; try done.
  - rewrite sort_children_eq by done. by apply merge_part_inactive.
  - intros c Hc. destruct (Hf c Hc) as (H1 & H2 & _). assert (Hs := freshen_same s (f c)). split_and!.
    + rewrite (sn_name _ _ Hs). unfold node_name. by rewrite Hd.
    + by eapply same_node_wf.
    + by rewrite (same_node_leaves _ _ _ Hs).
  - cbn [data] in W, L. split_and!; [done|done|]. split; cbn [children].
    + apply sort_children_in_order; [done|]. rewrite map_map.
      assert (Hpaths := wf_paths _ _ Hn). cbn in Hpaths. erewrite map_ext; [exact Hpaths|]. intros c. cbn. by rewrite Hd.
    + rewrite Hp, Forall_map. apply Forall_forall. intros c Hc. destruct (Hf c Hc) as (_ & _ & H3).
      eapply fresh_same; [|exact H3]. apply (sn_children _ _ (freshen_same s (f c))).
Qed.

(** ** Listing the active clients *)

Definition active_names (l : list (string * location * Kind)) : list string :=
  map leaf_client (base.filter (fun x => x.2 = ACTIVE_LEAF) l).

Lemma active_names_app l k : active_names (l ++ k) = active_names l ++ active_names k.
Proof. unfold active_names. by rewrite filter_app, map_app. Qed.

#[export] Instance active_names_perm : Proper ((≡ₚ) ==> (≡ₚ)) active_names.
Proof. intros l l' H. unfold active_names. by rewrite H. Qed.

Lemma clientPath_wf here d c :
  path d = path_of here -> wf_node (here ++ [node_name c]) c -> node_kind c <> INTERNAL ->
  clientPath d (data c) = Some (client_of (here ++ [node_name c])).
Proof.
  intros Hp Hc Hk. unfold clientPath. change (name (data c)) with (node_name c). case_bool_decide as E.
  - change (kind (data c)) with (node_kind c). rewrite bool_decide_eq_false_2 by done.
    by rewrite E, client_of_virtual, Hp.
  - rewrite client_of_plain, (sh_path _ _ _ (wf_shape _ _ Hc)); [done|].
    rewrite is_virtual_snoc. by apply bool_decide_eq_false.
Qed.

Lemma inactive_names here l : Forall inactive l -> active_names (leaves_below here l) = [].
Proof.
  induction 1 as [|c l Hc _ IH]; [done|]. unfold leaves_below. cbn [map concat]. rewrite active_names_app.
  fold (leaves_below here l). rewrite IH, app_nil_r. rewrite leaves_leaf by (by rewrite Hc). unfold active_names.
  rewrite filter_cons_False; [done|]. cbn. by rewrite Hc.
Qed.

Lemma list_front_spec here d f l :
  path d = path_of here -> inactive_last l ->
  Forall (fun c => wf_node (here ++ [node_name c]) c
    /\ (node_kind c = INTERNAL -> f c = Some (active_names (leaves (here ++ [node_name c]) c)))) l ->
  list_front d f l = Some (active_names (leaves_below here l)).
Proof.
  intros Hp Ho. induction Ho as [l Hl|c l Hc Ho IH]; intros Hf.
  - rewrite inactive_names by done. destruct Hl as [|c l Hc Hl]; [done|]. cbn. by rewrite Hc.
  - apply Forall_cons in Hf as [[Hw Hi] Hf]. cbn [list_front]. specialize (IH Hf). cbn [list_front] in IH.
    unfold leaves_below. cbn [map concat]. fold (leaves_below here l). rewrite active_names_app.
    destruct (node_kind c) eqn:Ek; [|done|].
    + rewrite (clientPath_wf here) by (done || by rewrite Ek). cbn [mbind option_bind].
      fold (list_front d f l). rewrite IH. cbn [mbind option_bind]. rewrite leaves_leaf by (by rewrite Ek). rewrite Ek.
      done.
    + rewrite Hi by done. cbn [mbind option_bind]. fold (list_front d f l). rewrite IH. done.
Qed.

Lemma listClients_spec here n :
  wf_node here n -> node_kind n = INTERNAL -> listClients n = Some (active_names (leaves here n)).
Proof.
  revert here. induction n as [d l IH] using tree_ind. intros here [Hs _ Hb] Hk. rewrite leaves_internal by done.
  cbn [listClients children] in *. apply list_front_spec; [apply (sh_path _ _ _ Hs)|apply (sh_order _ _ _ Hs)|].
  rewrite Forall_forall in *. intros c Hc. split; [by apply Hb|]. intros Hi. by apply IH; [|apply Hb|].
Qed.

(** ** Moving a child to its place *)

Lemma split_at_spec n before l c :
  find_child n l = Some c ->
  exists b a, split_at n before l = Some (b, a) /\ reverse b ++ c :: a = reverse before ++ l
    /\ reverse b ++ a = reverse before ++ erase_first (has_key node_name n) l.
Proof.
  unfold find_child, lookup_key, erase_first. revert before. induction l as [|x l IH]; intros before; cbn; [done|].
  destruct (has_key node_name n x); [intros [= ->]; by eexists _, _|].
  intros (b & a & H1 & H2 & H3)%(IH (x :: before)). exists b, a. split; [done|].
  rewrite H2, H3, !reverse_cons, <- !app_assoc. split; [done|]. by destruct (remove_first _ l) as [[y l']|].
Qed.

Lemma inactive_last_app_r l k : inactive_last (l ++ k) -> inactive_last k.
Proof. apply sublist_inactive_last. by apply sublist_inserts_l. Qed.

Lemma inactive_last_insert l k c :
  Forall (fun x => ~ inactive x) l -> ~ inactive c -> inactive_last (l ++ k) -> inactive_last (l ++ c :: k).
Proof.
  intros Hl Hc. induction Hl as [|x l Hx Hl IH]; cbn; [by constructor 2|]. intros Ho. constructor 2; [done|].
  apply IH. eapply (inactive_last_app_r [x]). exact Ho.
Qed.

Lemma active_before l c k : inactive_last (l ++ c :: k) -> ~ inactive c -> Forall (fun x => ~ inactive x) l.
Proof.
  induction l as [|x l IH]; cbn; intros Ho Hc; [constructor|]. inversion Ho as [? H|]; subst.
  - rewrite Forall_cons, Forall_app, Forall_cons in H. tauto.
  - constructor; auto.
Qed.

Lemma shift_left_join current before after b a :
  shift_left current before after = (b, a) -> Forall (fun x => ~ inactive x) before ->
  reverse b ++ a = reverse before ++ after /\ Forall (fun x => ~ inactive x) b.
Proof.
  revert after. induction before as [|x before IH]; intros after; cbn [shift_left]; [by intros [= <- <-]|].
  destruct (compareDRF current x); [|by intros [= <- <-]]. intros H [_ Hb]%Forall_cons.
  destruct (IH _ H Hb) as [-> ?]. by rewrite reverse_cons, <- app_assoc.
Qed.

Lemma shift_right_join current before after b a :
  shift_right current before after = (b, a) -> Forall (fun x => ~ inactive x) before ->
  reverse b ++ a = reverse before ++ after /\ Forall (fun x => ~ inactive x) b.
Proof.
  revert before. induction after as [|x after IH]; intros before; cbn [shift_right]; [by intros [= <- <-]|].
  case_bool_decide as Hx; cbn [negb andb]; [by intros [= <- <-]|].
  destruct (compareDRF x current); [|by intros [= <- <-]]. intros H Hb.
  destruct (IH _ H) as [-> ?]; [by constructor|]. by rewrite reverse_cons, <- app_assoc.
Qed.

Section Shift.
  Context (current : Node).

Notation below x := (drf_lt (data x) (data current)).
Notation beyond x := (drf_lt (data current) (data x)).

Lemma not_beyond x : path (data x) <> path (data current) -> compareDRF current x = false -> below x.
Proof. intros Hp H%compareDRF_false. by destruct (drf_lt_total _ _ Hp). Qed.

Lemma not_below x : path (data x) <> path (data current) -> compareDRF x current = false -> beyond x.
Proof. intros Hp H%compareDRF_false. by destruct (drf_lt_total _ _ Hp). Qed.

Lemma shift_left_spec before after :
  Forall (fun x => path (data x) <> path (data current)) before ->
  StronglySorted drf_lt (map data (reverse before)) ->
  (forall x y, x ∈ before -> y ∈ active_part after -> drf_lt (data x) (data y)) ->
  Forall (fun x => ~ inactive x) before ->
  exists b a, shift_left current before after = (b, a) /\ reverse b ++ a = reverse before ++ after
    /\ Forall (fun x => below x /\ ~ inactive x) b
    /\ (a = after \/ (Forall (fun y => beyond y) (active_part a) /\ exists y rest, a = y :: rest /\ beyond y)).
Proof.
  revert after. induction before as [|x before IH]; intros after Hp Hs Hl Hi; cbn [shift_left].
  { eexists _, _. split_and!; [done|done|constructor|by left]. }
  apply Forall_cons in Hp as [Hx Hp], Hi as [Hix Hi].
  rewrite reverse_cons, map_app, StronglySorted_app in Hs. destruct Hs as (Hs1 & Hs2 & _).
  assert (Hbx : forall y, y ∈ before -> drf_lt (data y) (data x)).
  { intros y Hy. apply Hs1; [|by left]. apply list_elem_of_fmap_2. by rewrite elem_of_reverse. }
  destruct (compareDRF current x) eqn:E.
  - destruct (IH (x :: after)) as (b & a & H1 & H2 & H3 & H4); [done|done| |done|].
    { unfold active_part. rewrite filter_cons_True by done. intros y z Hy [->|Hz]%elem_of_cons; [by apply Hbx|].
      apply Hl; [by right|done]. }
    exists b, a. rewrite reverse_cons, <- app_assoc. split_and!; [done..|]. right. destruct H4 as [->|H4]; [|done]. split.
    + unfold active_part. rewrite filter_cons_True by done. constructor; [done|]. apply Forall_forall. intros z Hz.
      transitivity (data x); [done|]. apply Hl; [by left|done].
    + by eexists _, _.
  - exists (x :: before), after. split_and!; [done..| |by left].
    assert (Hlt := not_beyond x Hx E). constructor; [done|]. rewrite Forall_forall in Hi |- *. intros y Hy.
    split; [|by apply Hi]. transitivity (data x); [by apply Hbx|done].
Qed.

Lemma shift_right_spec before after :
  Forall (fun x => path (data x) <> path (data current)) after ->
  StronglySorted drf_lt (map data (active_part after)) -> inactive_last after ->
  Forall (fun x => below x /\ ~ inactive x) before ->
  exists b a, shift_right current before after = (b, a) /\ reverse b ++ a = reverse before ++ after
    /\ Forall (fun x => below x /\ ~ inactive x) b /\ Forall (fun y => beyond y) (active_part a).
Proof.
  intros Hp Hs Ho. revert before Hp Hs. induction Ho as [after Hall|x after Hx Ho IH]; intros before Hp Hs Hb.
  - exists before, after. rewrite active_part_none by done. split_and!; [|done|done|constructor].
    destruct Hall as [|x after Hx Hall]; [done|]. cbn. by rewrite bool_decide_eq_true_2.
  - apply Forall_cons in Hp as [Hpx Hp]. unfold active_part in Hs. rewrite filter_cons_True in Hs by done.
    cbn in Hs. apply StronglySorted_cons in Hs as [Hmin Hs]. rewrite Forall_map in Hmin.
    cbn [shift_right]. rewrite bool_decide_eq_false_2 by done. cbn [negb andb]. destruct (compareDRF x current) eqn:E.
    + destruct (IH (x :: before)) as (b & a & H1 & H2 & H3 & H4); [done|done|by constructor|].
      exists b, a. rewrite H1. split_and!; [done| |done|done]. by rewrite H2, reverse_cons, <- app_assoc.
    + eexists _, _. split_and!; [done..|]. unfold active_part. rewrite filter_cons_True by done.
      assert (Hlt := not_below x Hpx E). constructor; [done|]. eapply Forall_impl; [exact Hmin|].
      intros y Hy. by transitivity (data x).
Qed.

(** The two loops put the node where it belongs among sorted siblings. *)
Lemma shift_spec before after :
  Forall (fun x => path (data x) <> path (data current)) (reverse before ++ after) ->
  StronglySorted drf_lt (map data (active_part (reverse before ++ after))) ->
  inactive_last (reverse before ++ after) -> Forall (fun x => ~ inactive x) before -> ~ inactive current ->
  exists b1 a1 b a, shift_left current before after = (b1, a1) /\ shift_right current b1 a1 = (b, a)
    /\ reverse b ++ a = reverse before ++ after
    /\ StronglySorted drf_lt (map data (active_part (reverse b ++ current :: a))).
Proof.
  intros Hp Hs Ho Hi Hc. assert (Hs0 := Hs). rewrite active_part_app, map_app, StronglySorted_app in Hs.
  destruct Hs as (Hs1 & Hs2 & Hs3).
  assert (Hir : Forall (fun x => ~ inactive x) (reverse before)) by (by rewrite Forall_reverse).
  rewrite active_part_all in Hs1, Hs2 by done.
  destruct (shift_left_spec before after) as (b1 & a1 & E1 & J1 & B1 & A1); [|done| |done|].
  { apply Forall_app in Hp as [Hp _]. by rewrite Forall_reverse in Hp. }
  { intros x y Hx Hy. apply Hs1; apply list_elem_of_fmap_2; [by rewrite elem_of_reverse|done]. }
  assert (Hb1 : Forall (fun x => ~ inactive x) (reverse b1)).
  { rewrite Forall_reverse. eapply Forall_impl; [exact B1|]. tauto. }
  destruct (shift_right_spec b1 a1) as (b & a & E2 & J2 & B2 & A2); [| | |done|].
  { rewrite <- J1 in Hp. by apply Forall_app in Hp as [_ Hp]. }
  { rewrite <- J1, active_part_app, map_app, StronglySorted_app in Hs0. by destruct Hs0 as (_ & _ & ?). }
  { rewrite <- J1 in Ho. by eapply inactive_last_app_r. }
  exists b1, a1, b, a. split_and!; [done|done|by rewrite J2|].
  rewrite <- J1, <- J2 in Hs0. assert (Hib : Forall (fun x => ~ inactive x) (reverse b)).
  { rewrite Forall_reverse. eapply Forall_impl; [exact B2|]. by intros x [_ ?]. }
  rewrite active_part_app, (active_part_all (reverse b)) in * by done.
  rewrite map_app, StronglySorted_app in Hs0 |- *. destruct Hs0 as (G1 & G2 & G3).
  unfold active_part in G1, G3, A2 |- *. rewrite filter_cons_True by done. cbn [map]. split_and!; [|done|].
  - intros x y (x' & -> & Hx)%list_elem_of_fmap_1 [->|Hy]%elem_of_cons.
    + rewrite Forall_forall in B2. apply B2. by rewrite <- elem_of_reverse.
    + apply G1; [by apply list_elem_of_fmap_2|done].
  - constructor; [done|]. by rewrite Forall_map.
Qed.
End Shift.

(** [settle_sorted] puts a changed child back in every case... *)
Lemma settle_sorted_settles s : settles (settle_sorted s).
Proof.
  intros c c' l Hn Ho Hf Hk. unfold settle_sorted.
  destruct (dirty s || bool_decide (node_kind c' = INACTIVE_LEAF)) eqn:E; [by apply (replace_settles c c' l)|].
  apply orb_false_iff in E as [_ E]. breflect. set (current := refresh s c').
  destruct (split_at_spec (node_name c') [] l c Hf) as (b0 & a0 & -> & J1 & J2). cbn [mbind option_bind].
  rewrite !app_nil_l in J1, J2.
  destruct (shift_left current b0 a0) as [b1 a1] eqn:E1. destruct (shift_right current b1 a1) as [b2 a2] eqn:E2.
  assert (Hc : ~ inactive c) by (unfold inactive; by rewrite <- Hk).
  assert (H0 : Forall (fun x => ~ inactive x) b0).
  { rewrite <- J1 in Ho. apply active_before in Ho; [|done]. by rewrite Forall_reverse in Ho. }
  destruct (shift_left_join _ _ _ _ _ E1 H0) as [K1 H1]. destruct (shift_right_join _ _ _ _ _ E2 H1) as [K2 H2].
  eexists _, current. split; [done|]. split; [by split|]. rewrite K1 in K2. split.
  - exists (reverse b0 ++ a0). split; [rewrite <- J1|rewrite <- K2]; symmetry; apply Permutation_middle.
  - apply inactive_last_insert; [by rewrite Forall_reverse|done|]. rewrite K2.
    eapply sublist_inactive_last; [|exact Ho]. rewrite J2. apply erase_first_sublist.
Qed.

Lemma active_in x l : ~ inactive x -> active_part (x :: l) = x :: active_part l.
Proof. intros H. unfold active_part. by rewrite filter_cons_True. Qed.

Lemma active_out x l : inactive x -> active_part (x :: l) = active_part l.
Proof. intros H. unfold active_part. rewrite filter_cons_False; auto. Qed.

Lemma replace_active c c' l l' :
  find_child (node_name c') l = Some c -> replace_child c' l = Some l' -> inactive c -> inactive c' ->
  active_part l' = active_part l.
Proof.
  unfold find_child, replace_child, lookup_key. intros Hf Hr Hc Hc'. revert l' Hf Hr.
  induction l as [|x l IH]; intros l'; cbn [List.find update_first]; [done|].
  destruct (has_key node_name (node_name c') x).
  - intros H1 H2. simplify_eq. by rewrite !active_out.
  - intros Hf. destruct (update_first _ _ l) as [k|]; [|done]. intros [= <-]. specialize (IH k Hf eq_refl).
    destruct (decide (inactive x)) as [Hx|Hx]; [by rewrite !active_out|by rewrite !active_in, IH].
Qed.

(** ... and among sorted siblings the list stays sorted. *)
Lemma settle_sorted_in_order s c c' l l' :
  dirty s = false -> NoDup (map (fun x => path (data x)) l) -> inactive_last l ->
  find_child (node_name c') l = Some c -> node_kind c' = node_kind c -> path (data c') = path (data c) ->
  in_order s l -> settle_sorted s c' l = Some l' -> in_order s l'.
Proof.
  intros Hd Hp Ho Hf Hk Hpath [F1 F2]. unfold settle_sorted. rewrite Hd. cbn [orb].
  case_bool_decide as Hi.
  { intros Hr. assert (E := replace_active c c' l l' Hf Hr). split; rewrite E; unfold inactive; congruence. }
  set (current := refresh s c').
  destruct (split_at_spec (node_name c') [] l c Hf) as (b0 & a0 & -> & J1 & J2). cbn [mbind option_bind].
  rewrite !app_nil_l in J1, J2. rewrite <- J1 in Hp, Ho, F1, F2.
  assert (Hc : ~ inactive c) by (unfold inactive; by rewrite <- Hk).
  assert (H0 : Forall (fun x => ~ inactive x) b0) by (apply active_before in Ho; [by rewrite Forall_reverse in Ho|done]).
  assert (Hsub : sublist (reverse b0 ++ a0) (reverse b0 ++ c :: a0)).
  { apply sublist_app; [done|]. by constructor. }
  assert (Hsa : sublist (active_part (reverse b0 ++ a0)) (active_part (reverse b0 ++ c :: a0))).
  { rewrite !active_part_app. apply sublist_app; [done|]. unfold active_part. rewrite filter_cons_True by done. by constructor. }
  destruct (shift_spec current b0 a0) as (b1 & a1 & b2 & a2 & -> & -> & K & Hs).
  - rewrite map_app in Hp. cbn in Hp. rewrite <- Permutation_middle in Hp. apply NoDup_cons in Hp as [Hp _].
    rewrite <- map_app in Hp. apply Forall_forall. intros x Hx E. apply Hp. rewrite <- Hpath.
    change (path (data c')) with (path (data current)). rewrite <- E.
    by apply (list_elem_of_fmap_2 (fun x => path (data x))).
  - clear -F2 Hc. rewrite active_part_app, map_app, !StronglySorted_app in F2 |- *. unfold active_part in F2 |- *.
    rewrite filter_cons_True in F2 by done. cbn in F2. rewrite StronglySorted_cons in F2. set_solver.
  - by eapply sublist_inactive_last.
  - done.
  - done.
  - intros [= <-]. split; [|done]. rewrite active_part_app. unfold active_part. rewrite filter_cons_True by done.
    fold (active_part (reverse b2)) (active_part a2). rewrite <- Permutation_middle. constructor; [apply refresh_idempotent|].
    rewrite <- active_part_app, K. by eapply Forall_sublist.
Qed.

Lemma climb_fresh s g loc here n m n' :
  dirty s = false -> wf_node here n -> node_at loc n = Some m ->
  Forall (fun d => is_Some (g (allocation d))) (along loc n) -> fresh s n ->
  climb loc g (settle_sorted s) n = Some n' -> fresh s n'.
Proof.
  intros Hd. revert here n n'. induction loc as [|t loc IH]; intros here n n' Hn Hm Hg Hf; cbn in Hm.
  - cbn. destruct (g _); [|done]. intros [= <-]. by eapply fresh_same; [|exact Hf].
  - destruct (find_child t (children n)) as [c|] eqn:Ec; [|done]. cbn in Hm.
    cbn in Hg. rewrite Ec in Hg. apply Forall_cons in Hg as [[a Ha] Hg].
    destruct (wf_child _ _ _ _ Hn Ec) as (Hi & Ename & Hin & Hc). destruct Hf as [Hf1 Hf2].
    assert (Hfc : fresh s c) by (rewrite Forall_forall in Hf2; by apply Hf2).
    destruct (climb_spec g (settle_sorted s) loc (here ++ [t]) c m) as (c' & Hu & Hw & Hname & Hkind & Hpath & _);
      [apply settle_sorted_settles|done..|].
    assert (Hfc' := IH _ _ _ Hc Hm Hg Hfc Hu).
    cbn. rewrite Ha. cbn. rewrite Ec. cbn. rewrite Hu. cbn.
    assert (Et : t = node_name c') by congruence. rewrite Et in Ec.
    assert (Ho := sh_order _ _ _ (wf_shape _ _ Hn)). assert (Hnames := sh_names _ _ _ (wf_shape _ _ Hn)).
    destruct (settle_sorted_settles s c c' _ Hnames Ho Ec Hkind) as (l' & c'' & Hl & Hsame & Hs & _). rewrite Hl. cbn.
    intros [= <-]. split; cbn [children].
    + eapply (settle_sorted_in_order s c c'); try done. by eapply wf_paths.
    + eapply swapped_Forall; [exact Hs|done|]. eapply fresh_same; [|exact Hfc']. apply (sn_children _ _ Hsame).
Qed.

(** ** The invariant of the sorter *)

Record sorter_inv (s : Sorter) : Prop := {
  si_wf : wf_node [] (root s);
  si_distinct : distinct (leaves [] (root s));
  si_table : clients s = table (leaves [] (root s));
  si_fresh : dirty s = false -> fresh s (root s);
}.

(** What the sorter knows about its clients: whether each is active. *)
Definition client_map (s : Sorter) : gmap string bool := flags (leaves [] (root s)).

Lemma fresh_ext s s' n : (forall d, refresh_data s d = refresh_data s' d) -> fresh s n -> fresh s' n.
Proof.
  intros H. induction n as [d l IH] using tree_ind. intros [[F1 F2] F3]. cbn in *. split; cbn.
  - split; [|done]. eapply Forall_impl; [exact F1|]. intros c Hc. cbn in *. by rewrite <- H.
  - rewrite Forall_forall in *. intros c Hc. by apply IH, F3.
Qed.

Lemma new_sorter_inv exclude : sorter_inv (new_sorter exclude).
Proof.
  split; cbn.
  - split; [split; cbn; try done; try by constructor|done|constructor]. intros _. apply not_elem_of_nil.
  - constructor.
  - done.
  - intros _. split; [split; constructor|constructor].
Qed.

Lemma root_kind s : sorter_inv s -> node_kind (root s) = INTERNAL.
Proof. intros [[Hs _ _] _ _ _]. by apply (sh_root _ _ _ Hs). Qed.

Record located (s : Sorter) (cp : string) (q : location) (m : Node) : Prop := {
  lo_find : find s cp = Some (Some q);
  lo_node : node_at q (root s) = Some m;
  lo_kind : node_kind m <> INTERNAL;
  lo_deep : q <> [];
  lo_client : client_of q = cp;
  lo_leaf : (cp, q, node_kind m) ∈ leaves [] (root s);
}.

Lemma find_present s cp : sorter_inv s -> is_Some (client_map s !! cp) -> exists q m, located s cp q m.
Proof.
  intros Hs Hc. unfold client_map in Hc. apply table_flags in Hc as [q Hq].
  destruct (table_elem _ _ _ Hq) as [k Hk]. assert (Hk' := Hk).
  apply leaves_node_at in Hk' as (loc & m & -> & Hm & Ek & Hi & Ep); [|apply (si_wf s Hs)]. cbn in *. subst k.
  exists loc, m. split; try done.
  - unfold find. rewrite (si_table s Hs), Hq, Hm. cbn.
    rewrite (isLeaf_wf loc m); [|by apply (node_at_wf loc [] (root s) m (si_wf s Hs))].
    by rewrite bool_decide_eq_false_2.
  - intros ->. cbn in Hm. injection Hm as <-. by rewrite (root_kind s Hs) in Hi.
Qed.

Lemma find_absent s cp : sorter_inv s -> client_map s !! cp = None -> find s cp = Some None.
Proof.
  intros Hs Hc. unfold find. rewrite (si_table s Hs).
  destruct (table _ !! cp) eqn:E; [|done]. assert (H : is_Some (client_map s !! cp)) by (apply table_flags; by rewrite E).
  rewrite Hc in H. by destruct H.
Qed.

Lemma locate s cp q m : located s cp q m -> find_client s cp = Some q.
Proof. intros H. unfold find_client. by rewrite (lo_find _ _ _ _ H). Qed.

(** A new tree whose leaves are known gives a sorter with the invariant. *)
Lemma with_tree_inv s d r c :
  wf_node [] r -> distinct (leaves [] r) -> c = table (leaves [] r) -> (d = false -> fresh s r) ->
  sorter_inv (with_tree d r c s).
Proof. intros H1 H2 H3 H4. split; try done. intros Hd. eapply fresh_ext; [|by apply H4]. done. Qed.

(** ** Every operation keeps the invariant *)

Definition valid_client (cp : string) : Prop := Forall (fun t => t <> "."%string) (split cp "/").

Lemma node_at_app l1 l2 n : node_at (l1 ++ l2) n = node_at l1 n ≫= node_at l2.
Proof. revert n. induction l1 as [|t l1 IH]; intros n; cbn; [done|]. destruct (find_child t _); [apply IH|done]. Qed.

(** The parent of a node, and the client of a leaf seen from there. *)
Lemma parent_at r q m :
  wf_node [] r -> q <> [] -> node_at q r = Some m ->
  exists parent, node_at (removelast q) r = Some parent /\ node_kind parent = INTERNAL
    /\ (node_kind m <> INTERNAL -> clientPath (data parent) (data m) = Some (client_of q)).
Proof.
  intros Hr Hne Hm. destruct (exists_last Hne) as (q' & t & ->). rewrite removelast_last. rewrite node_at_app in Hm.
  destruct (node_at q' r) as [parent|] eqn:Hp; [|done]. cbn in Hm. exists parent.
  assert (Hw := node_at_wf _ _ _ _ Hr Hp). cbn in Hw.
  destruct (find_child t (children parent)) as [c|] eqn:Ec; [|done]. cbn in Hm. injection Hm as ->.
  destruct (wf_child _ _ _ _ Hw Ec) as (Hi & Ename & _ & Hc). split_and!; [done|done|]. intros Hk. rewrite <- Ename in *.
  apply clientPath_wf; [|done|done]. apply (sh_path _ _ _ (wf_shape _ _ Hw)).
Qed.

Lemma check_leaf_ok r q cp :
  wf_node [] r -> q <> [] -> (cp, q, INACTIVE_LEAF) ∈ leaves [] r -> check_leaf r q cp = Some ().
Proof.
  intros Hr Hne Hl. apply leaves_node_at in Hl as (loc & m & -> & Hm & Ek & Hi & Ep); [|done]. cbn in *.
  destruct (parent_at r loc m Hr Hne Hm) as (parent & Hp & _ & Hc). unfold check_leaf. rewrite Hp, Hm. cbn.
  rewrite Hc by (by rewrite Ek). cbn. rewrite Ep. assert (Hw := node_at_wf _ _ _ _ Hr Hm).
  rewrite (sh_leaf _ _ _ (wf_shape _ _ Hw)) by (change (node_kind m <> INTERNAL); by rewrite Ek).
  by rewrite !bool_decide_eq_true_2 by done.
Qed.

Lemma add_ok s cp :
  sorter_inv s -> client_map s !! cp = None -> valid_client cp ->
  exists s', add s cp = Some s' /\ sorter_inv s' /\ client_map s' = <[cp := false]> (client_map s).
Proof.
  intros Hs Hc Hv. set (L := leaves [] (root s)).
  assert (Hnone : table L !! cp = None).
  { apply eq_None_not_Some. unfold L. rewrite table_flags. fold (client_map s). rewrite Hc. apply is_Some_None. }
  assert (Hnew : cp ∉ map leaf_client L) by (by apply table_none).
  destruct (descend_spec (split cp "/") [] (root s)) as (a & Ha & D); [apply (si_wf s Hs)|done|apply split_not_nil
    |apply split_no_slash|done|by rewrite app_nil_l, path_of_split|].
  destruct (descended_table [] _ _ _ cp D) as (T1 & T2 & T3 & T4); [by rewrite app_nil_l, path_of_split|apply (si_distinct s Hs)|done|].
  assert (Hmoved : moved a = false).
  { destruct (moved a) eqn:E; [|done]. by destruct (de_moved _ _ _ _ D E (root_kind s Hs)). }
  assert (Hw := de_wf _ _ _ _ D).
  assert (Hleaf : (cp, leaf_at a, INACTIVE_LEAF) ∈ leaves [] (added a)).
  { destruct (de_leaves _ _ _ _ D) as (old & new & rest & _ & _ & ->). rewrite app_nil_l, path_of_split. by left. }
  assert (Hne : leaf_at a <> []).
  { intros E. rewrite E in Hleaf. apply leaves_node_at in Hleaf as (loc & m & El & Hm & Ek & Hi & _); [|done].
    cbn in El. subst loc. cbn in Hm. injection Hm as <-.
    assert (H := sh_root _ _ _ (wf_shape _ _ Hw) eq_refl). unfold node_kind in Ek. congruence. }
  unfold add. rewrite (si_table s Hs). fold L. rewrite bool_decide_eq_false_2 by (by rewrite Hnone).
  rewrite Ha. cbn [mbind option_bind]. rewrite Hmoved, (check_leaf_ok _ _ _ Hw Hne Hleaf). cbn [mbind option_bind].
  fold L in T2, T3. rewrite bool_decide_eq_false_2 by (by rewrite T2). eexists. split; [done|]. split; [|exact T4].
  by apply with_tree_inv.
Qed.

(** The ancestors' allocations can give up what a leaf holds. *)
Definition releasable (s : Sorter) (cp : string) : Prop :=
  forall q m, located s cp q m ->
  Forall (fun d => is_Some (subtract_all (map_to_list (resources (allocation (data m)))) (allocation d)))
    (along (removelast q) (root s)).

Lemma others_listed s cp q m :
  sorter_inv s -> located s cp q m ->
  forall x, x ∈ leaves [] (root s) -> leaf_location x <> [] ++ q ->
  delete cp (clients s) !! leaf_client x = Some (leaf_location x).
Proof.
  intros Hs Hl x Hx Hne. cbn in Hne. rewrite lookup_delete_ne, (si_table s Hs).
  - by apply table_lookup; [apply (si_distinct s Hs)|].
  - intros E. apply Hne. assert (H1 := table_lookup _ _ (si_distinct s Hs) Hx).
    assert (H2 := table_lookup _ _ (si_distinct s Hs) (lo_leaf _ _ _ _ Hl)). rewrite <- E in H1. cbn in H2. congruence.
Qed.

Lemma remove_ok s cp :
  sorter_inv s -> is_Some (client_map s !! cp) -> releasable s cp ->
  exists s', remove s cp = Some s' /\ sorter_inv s' /\ client_map s' = delete cp (client_map s).
Proof.
  intros Hs Hc Hrel. destruct (find_present s cp Hs Hc) as (q & m & Hl). assert (Hl' := Hl).
  destruct Hl' as [Hf Hm Hk Hq Ecl Hleaf]. unfold remove. rewrite (locate _ _ _ _ Hl). cbn [mbind option_bind].
  rewrite Hm. cbn [mbind option_bind].
  destruct (remove_at_spec (map_to_list (resources (allocation (data m)))) q [] (root s) m (delete cp (clients s)))
    as (r & c & -> & R); [apply (si_wf s Hs)|done|done|done|by apply Hrel| |].
  { by apply (others_listed s cp q m). }
  cbn [mbind option_bind]. destruct (removed_table [] _ _ _ _ _ _ _ cp R) as (T1 & T2 & T3);
    [done|apply (si_distinct s Hs)|apply (si_table s Hs)|].
  assert (G := re_growing _ _ _ _ _ _ _ _ R). rewrite <- leaves_internal in T1, T2, T3 by apply (gr_kind _ _ G).
  eexists. split; [done|]. split; [|exact T3]. apply with_tree_inv; [|done..].
  destruct G as [G1 G2 G3]. by split.
Qed.

(** *** Changing the kind of a leaf *)

Lemma in_order_sublist s l l' : sublist (active_part l') (active_part l) -> in_order s l -> in_order s l'.
Proof.
  intros Hs [F1 F2]. split; [by eapply Forall_sublist|]. rewrite sorted_map in F2 |- *. clear F1. revert Hs F2.
  generalize (active_part l') (active_part l). intros k' k Hs. induction Hs as [|x k' k Hs IH|x k' k Hs IH]; [done|..].
  - rewrite !StronglySorted_cons. intros [H1 H2]. split; [by eapply Forall_sublist|by apply IH].
  - rewrite StronglySorted_cons. intros [_ H2]. by apply IH.
Qed.

Lemma active_sublist l l' : sublist l' l -> sublist (active_part l') (active_part l).
Proof.
  induction 1 as [|x k' k Hs IH|x k' k Hs IH]; [done|..]; destruct (decide (inactive x)) as [Hx|Hx].
  - by rewrite !active_out.
  - rewrite !active_in by done. by constructor.
  - by rewrite (active_out x).
  - rewrite (active_in x) by done. by constructor.
Qed.

Lemma in_order_data s l l' : map data l' = map data l -> in_order s l -> in_order s l'.
Proof.
  intros E. assert (H : map data (active_part l') = map data (active_part l)).
  { revert l' E. induction l as [|x l IH]; intros [|x' l'] E; cbn in E; try done. injection E as Ex El.
    destruct (decide (inactive x)) as [Hx|Hx].
    - rewrite !active_out; [by apply IH|done|]. unfold inactive, node_kind in *. by rewrite Ex.
    - rewrite !active_in; [cbn; by rewrite Ex, (IH l' El)|done|]. unfold inactive, node_kind in *. by rewrite Ex. }
  intros [F1 F2]. split; [|by rewrite H].
  rewrite <- (Forall_map data (fun d => refresh_data s d = d)) in F1 |- *. by rewrite H.
Qed.

Lemma replace_data c c' l l' :
  find_child (node_name c') l = Some c -> replace_child c' l = Some l' -> data c' = data c -> map data l' = map data l.
Proof.
  unfold find_child, replace_child, lookup_key. intros Hf Hr Hd. revert l' Hf Hr.
  induction l as [|x l IH]; intros l'; cbn [List.find update_first]; [done|].
  destruct (has_key node_name (node_name c') x); [intros H1 H2; simplify_eq; cbn; by rewrite Hd|].
  intros Hf. destruct (update_first _ _ l) as [k|]; [|done]. intros [= <-]. cbn. by rewrite (IH k Hf eq_refl).
Qed.

(** A change that makes nodes inactive or leaves them alone keeps a clean
    tree clean. *)
Lemma update_fresh s f loc here n m n' again :
  fair_change (data m) (f (data m)) -> ((f (data m)).2 = false -> (f (data m)).1 = data m) ->
  ((f (data m)).2 = true -> kind (f (data m)).1 = INACTIVE_LEAF) ->
  wf_node here n -> node_at loc n = Some m -> here ++ loc <> [] -> fresh s n -> update_at loc f n = Some (n', again) ->
  fresh s n' /\ (again = false -> data n' = data n) /\ (again = true -> inactive n').
Proof.
  intros Hfair Hsame Hin. revert here n n' again.
  induction loc as [|t loc IH]; intros here n n' again Hn Hm Hne Hf; cbn in Hm.
  - injection Hm as ->. cbn. destruct (f (data m)) as [d again']. intros [= <- <-].
    split_and!; [by eapply fresh_same; [|exact Hf]|done|done].
  - destruct (find_child t (children n)) as [c|] eqn:Ec; [|done]. cbn in Hm.
    destruct (wf_child _ _ _ _ Hn Ec) as (Hi & Ename & Hin' & Hc). destruct Hf as [Hf1 Hf2].
    assert (Hfc : fresh s c) by (rewrite Forall_forall in Hf2; by apply Hf2).
    destruct (update_at_spec f loc (here ++ [t]) c m Hc Hm) as (c' & ag & _ & Hu & _ & Hname & _); [by destruct here|done|].
    destruct (IH _ _ _ _ Hc Hm ltac:(by destruct here) Hfc Hu) as (G1 & G2 & G3).
    cbn [update_at]. rewrite Ec. cbn [mbind option_bind]. rewrite Hu. cbn [mbind option_bind].
    assert (Et : t = node_name c') by congruence. rewrite Et in Ec.
    assert (Hnames := sh_names _ _ _ (wf_shape _ _ Hn)). destruct ag.
    + destruct (readd_swapped c c' _ Hnames Ec) as (l' & -> & Hs & El). cbn [mbind option_bind]. intros [= <- <-].
      split_and!; [|done|done]. split; cbn [children]; [|by eapply swapped_Forall].
      eapply in_order_sublist; [|exact Hf1]. rewrite El. unfold push_child. rewrite bool_decide_eq_true_2 by (by apply G3).
      rewrite active_part_app, active_out, app_nil_r by (by apply G3). apply active_sublist, erase_first_sublist.
    + destruct (replace_child_swapped c c' _ Ec) as (l' & Hl & Hs). rewrite Hl. cbn [mbind option_bind]. intros [= <- <-].
      split_and!; [|done|done]. split; cbn [children]; [|by eapply swapped_Forall].
      eapply in_order_data; [|exact Hf1]. eapply replace_data; [exact Ec|exact Hl|by apply G2].
Qed.

Lemma set_kind_fair from to d : from <> INTERNAL -> to <> INTERNAL -> fair_change d (set_kind from to d).
Proof.
  intros H1 H2. unfold fair_change, set_kind. case_bool_decide as E; cbn; split_and!; auto. right. by subst from.
Qed.

(** [activate] and [deactivate], whose leaf gets one kind and keeps the
    other. *)
Lemma set_kind_ok s cp q m from to :
  sorter_inv s -> located s cp q m -> from <> INTERNAL -> to <> INTERNAL ->
  let k := if bool_decide (node_kind m = from) then to else node_kind m in
  exists r again, update_at q (set_kind from to) (root s) = Some (r, again) /\ wf_node [] r
    /\ distinct (leaves [] r) /\ clients s = table (leaves [] r)
    /\ flags (leaves [] r) = <[cp := is_active k]> (client_map s).
Proof.
  intros Hs [Hf Hm Hk Hq Ecl Hleaf] H1 H2 k.
  destruct (update_at_spec (set_kind from to) q [] (root s) m) as (r & again & rest & Hu & Hw & _ & _ & _ & L1 & L2);
    [apply (si_wf s Hs)|done|done|by apply set_kind_fair|].
  cbn [app] in L1, L2. rewrite (leaves_leaf q m), Ecl in L1 by done.
  assert (Ek : node_kind (node (set_kind from to (data m)).1 (children m)) = k).
  { unfold k, set_kind, node_kind. cbn. by case_bool_decide. }
  rewrite (leaves_leaf q (node _ _)), Ek, Ecl in L2 by (rewrite Ek; unfold k; by case_bool_decide).
  destruct (changed_table _ _ _ _ _ _ _ L1 L2 (si_distinct s Hs)) as (T1 & T2 & T3).
  exists r, again. split_and!; [done..| |done]. by rewrite T2, (si_table s Hs).
Qed.

Lemma activate_ok s cp :
  sorter_inv s -> is_Some (client_map s !! cp) ->
  exists s', activate s cp = Some s' /\ sorter_inv s' /\ client_map s' = <[cp := true]> (client_map s).
Proof.
  intros Hs Hc. destruct (find_present s cp Hs Hc) as (q & m & Hl).
  destruct (set_kind_ok s cp q m INACTIVE_LEAF ACTIVE_LEAF Hs Hl) as (r & again & Hu & W & T1 & T2 & T3); [done|done|].
  unfold activate. rewrite (locate _ _ _ _ Hl). cbn [mbind option_bind]. rewrite (lo_node _ _ _ _ Hl), Hu. cbn [mbind option_bind].
  eexists. split; [done|]. split.
  - apply with_tree_inv; [done..|]. intros [Hd Hb]%orb_false_iff. breflect.
    destruct Hl as [_ Hm _ Hq _ _].
    assert (Ef : set_kind INACTIVE_LEAF ACTIVE_LEAF (data m) = (data m, false)).
    { unfold set_kind. by rewrite bool_decide_eq_false_2. }
    apply (update_fresh s (set_kind INACTIVE_LEAF ACTIVE_LEAF) q [] (root s) m r again); rewrite ?Ef; try done.
    + rewrite <- Ef. by apply set_kind_fair.
    + apply (si_wf s Hs).
    + by apply (si_fresh s Hs).
  - etransitivity; [exact T3|]. f_equal. unfold is_active. apply bool_decide_eq_true. case_bool_decide as E; [done|].
    assert (Hk := lo_kind _ _ _ _ Hl). by destruct (node_kind m).
Qed.

Lemma deactivate_ok s cp :
  sorter_inv s -> is_Some (client_map s !! cp) ->
  exists s', deactivate s cp = Some s' /\ sorter_inv s' /\ client_map s' = <[cp := false]> (client_map s).
Proof.
  intros Hs Hc. destruct (find_present s cp Hs Hc) as (q & m & Hl).
  destruct (set_kind_ok s cp q m ACTIVE_LEAF INACTIVE_LEAF Hs Hl) as (r & again & Hu & W & T1 & T2 & T3); [done|done|].
  unfold deactivate. rewrite (locate _ _ _ _ Hl). cbn [mbind option_bind]. rewrite Hu. cbn [mbind option_bind].
  eexists. split; [done|]. split.
  - apply with_tree_inv; [done..|]. intros Hd. destruct Hl as [_ Hm _ Hq _ _].
    apply (update_fresh s (set_kind ACTIVE_LEAF INACTIVE_LEAF) q [] (root s) m r again); try done.
    + by apply set_kind_fair.
    + unfold set_kind. by destruct (bool_decide (kind (data m) = _)).
    + unfold set_kind. by destruct (bool_decide (kind (data m) = _)).
    + apply (si_wf s Hs).
    + by apply (si_fresh s Hs).
  - etransitivity; [exact T3|]. f_equal. unfold is_active. apply bool_decide_eq_false. by case_bool_decide.
Qed.

(** *** Weights, allocations and agents *)

Lemma root_no_dot s m : sorter_inv s -> node_at ["."%string] (root s) <> Some m.
Proof.
  intros Hs Hm. cbn in Hm. destruct (find_child "." (children (root s))) as [c|] eqn:E; [|done].
  apply lookup_key_elem in E as [Hin En]. apply (sh_dot _ _ _ (wf_shape _ _ (si_wf s Hs)) eq_refl).
  rewrite <- En. by apply list_elem_of_fmap_2.
Qed.

(** The node whose weight a client has: its leaf, or the parent of a virtual
    leaf. *)
Lemma weight_node s cp q m :
  sorter_inv s -> located s cp q m ->
  let q' := if bool_decide (last q = Some "."%string) then removelast q else q in
  exists m', node_at q' (root s) = Some m' /\ path (data m') = cp /\ q' <> [].
Proof.
  intros Hs [_ Hm Hk Hq Ecl _] q'. assert (Hw := si_wf s Hs).
  assert (H : exists m', node_at q' (root s) = Some m' /\ q' <> []).
  { unfold q'. case_bool_decide as E; [|by exists m].
    destruct (parent_at _ _ _ Hw Hq Hm) as (parent & Hp & _). exists parent. split; [done|]. intros E'.
    destruct (exists_last Hq) as (q0 & t & ->). rewrite removelast_last in E'. subst q0. rewrite last_snoc in E.
    injection E as ->. by apply (root_no_dot s m Hs). }
  destruct H as (m' & Hm' & Hne). exists m'. split_and!; [done| |done].
  rewrite (sh_path _ _ _ (wf_shape _ _ (node_at_wf _ _ _ _ Hw Hm'))). cbn [app]. unfold q' in *.
  unfold client_of, is_virtual in Ecl. by case_bool_decide.
Qed.

Lemma updateWeight_ok s p w :
  sorter_inv s ->
  exists s', updateWeight s p w = Some s' /\ sorter_inv s' /\ client_map s' = client_map s
    /\ weights s' = <[p := w]> (weights s).
Proof.
  intros Hs. unfold updateWeight. set (s1 := mkSorter _ true _ _ _ _ _).
  assert (Hs1 : sorter_inv s1) by (destruct Hs as [H1 H2 H3 _]; by split).
  destruct (client_map s !! p) as [b|] eqn:Ec.
  - destruct (find_present s1 p Hs1) as (q & m & Hl); [by exists b|]. rewrite (lo_find _ _ _ _ Hl). cbn [mbind option_bind].
    destruct (weight_node s1 p q m Hs1 Hl) as (m' & Hm' & Hp & Hne).
    set (q' := if bool_decide (last q = Some "."%string) then removelast q else q) in *.
    rewrite Hm'. cbn [mbind option_bind]. rewrite bool_decide_eq_true_2 by done. cbn [negb].
    set (f := fun d => (with_weight (Some w) d, false)).
    destruct (update_at_spec f q' [] (root s1) m') as (r & again & rest & -> & W & _ & _ & _ & L1 & L2);
      [apply (si_wf s1 Hs1)|done|done|by split_and!; [..|left]|].
    cbn [mbind option_bind]. eexists. split; [done|].
    assert (HL : leaves [] r ≡ₚ leaves [] (root s)).
    { rewrite L2. change (root s) with (root s1). rewrite L1. rewrite (same_node_leaves _ m'); [done|by split]. }
    assert (Hd := distinct_perm _ _ (symmetry HL) (si_distinct s Hs)).
    split_and!; [|by apply flags_perm|done]. apply with_tree_inv; [done|done| |done].
    rewrite (si_table s1 Hs1). symmetry. by apply table_perm.
  - rewrite (find_absent s1 p Hs1 Ec). cbn. by eexists.
Qed.

(** The checks along the way from a client to the root. *)
Definition checks (s : Sorter) (cp : string) (g : Allocation -> option Allocation) : Prop :=
  forall q m, located s cp q m -> Forall (fun d => is_Some (g (allocation d))) (along q (root s)).

Lemma climb_ok s cp g settle d :
  sorter_inv s -> is_Some (client_map s !! cp) -> checks s cp g -> settles settle ->
  (d = false -> dirty s = false /\ settle = settle_sorted s) ->
  exists s', (loc ← find_client s cp; r ← climb loc g settle (root s); Some (with_tree d r (clients s) s)) = Some s'
    /\ sorter_inv s' /\ client_map s' = client_map s.
Proof.
  intros Hs Hc Hg Hset Hd. destruct (find_present s cp Hs Hc) as (q & m & Hl). rewrite (locate _ _ _ _ Hl).
  specialize (Hg q m Hl). destruct Hl as [_ Hm _ _ _ _]. cbn [mbind option_bind].
  destruct (climb_spec g settle q [] (root s) m) as (r & Hr & W & _ & _ & _ & _ & HL); [done|apply (si_wf s Hs)|done|done|].
  rewrite Hr. cbn [mbind option_bind]. eexists. split; [done|].
  assert (Hd' := distinct_perm _ _ (symmetry HL) (si_distinct s Hs)). split; [|by apply flags_perm].
  apply with_tree_inv; [done|done| |].
  - rewrite (si_table s Hs). symmetry. by apply table_perm.
  - intros E. destruct (Hd E) as [E1 ->].
    eapply (climb_fresh s g q [] (root s)); [done|apply (si_wf s Hs)|done|done|by apply (si_fresh s Hs)|exact Hr].
Qed.

Lemma allocated_ok s cp slaveId rs :
  sorter_inv s -> is_Some (client_map s !! cp) -> wf_resources rs ->
  exists s', allocated s cp slaveId rs = Some s' /\ sorter_inv s' /\ client_map s' = client_map s.
Proof.
  intros Hs Hc Hrs. apply (climb_ok s cp (allocation_add slaveId rs)); [done|done| |apply settle_sorted_settles|done].
  intros q m _. apply Forall_forall. intros d _. by apply allocation_add_total.
Qed.

Lemma update_ok_ s cp slaveId old new :
  sorter_inv s -> is_Some (client_map s !! cp) -> checks s cp (allocation_update slaveId old new) ->
  exists s', update s cp slaveId old new = Some s' /\ sorter_inv s' /\ client_map s' = client_map s.
Proof. intros. apply climb_ok; [done..|apply replace_settles|done]. Qed.

Lemma unallocated_ok s cp slaveId rs :
  sorter_inv s -> is_Some (client_map s !! cp) -> checks s cp (allocation_subtract slaveId rs) ->
  exists s', unallocated s cp slaveId rs = Some s' /\ sorter_inv s' /\ client_map s' = client_map s.
Proof. intros. apply climb_ok; [done..|apply replace_settles|done]. Qed.

Lemma sort_ok s :
  sorter_inv s ->
  exists s', sort s = Some (active_names (leaves [] (root s')), s') /\ sorter_inv s' /\ client_map s' = client_map s
    /\ dirty s' = false /\ fresh s' (root s').
Proof.
  intros Hs. unfold sort. set (s' := if dirty s then _ else s).
  destruct (sortTree_spec s [] (root s) (si_wf s Hs)) as (W & L & F).
  assert (H : sorter_inv s' /\ client_map s' = client_map s /\ dirty s' = false).
  { unfold s'. destruct (dirty s) eqn:E; [|done].
    assert (Hd := distinct_perm _ _ (symmetry L) (si_distinct s Hs)). split_and!; [|by apply flags_perm|done].
    apply with_tree_inv; [done|done| |done]. rewrite (si_table s Hs). symmetry. by apply table_perm. }
  destruct H as (H1 & H2 & H3). rewrite (listClients_spec [] (root s')) by (apply (si_wf s' H1) || by apply root_kind).
  cbn. exists s'. split_and!; try done. by apply (si_fresh s' H1).
Qed.

(** ** The sorter as its user sees it *)

Inductive Call :=
  | Add (cp : string)
  | Remove (cp : string)
  | Activate (cp : string)
  | Deactivate (cp : string)
  | UpdateWeight (p : string) (w : double)
  | Allocated (cp slaveId : string) (rs : Resources)
  | Updated (cp slaveId : string) (oldAllocation newAllocation : Resources)
  | Unallocated (cp slaveId : string) (rs : Resources)
  | AddSlave (slaveId : string) (q : entries)
  | RemoveSlave (slaveId : string)
  | Sort.

Definition run_call (s : Sorter) (c : Call) : option Sorter :=
  match c with
  | Add cp => add s cp
  | Remove cp => remove s cp
  | Activate cp => activate s cp
  | Deactivate cp => deactivate s cp
  | UpdateWeight p w => updateWeight s p w
  | Allocated cp slaveId rs => allocated s cp slaveId rs
  | Updated cp slaveId old new => update s cp slaveId old new
  | Unallocated cp slaveId rs => unallocated s cp slaveId rs
  | AddSlave slaveId q => addSlave s slaveId q
  | RemoveSlave slaveId => removeSlave s slaveId
  | Sort => '(_, s') ← sort s; Some s'
  end.

Fixpoint run_calls (s : Sorter) (l : list Call) : option Sorter :=
  match l with [] => Some s | c :: l' => s' ← run_call s c; run_calls s' l' end.

(** The set of clients with a flag for the active ones, and what a call does
    to it. *)
Definition call_spec (m : gmap string bool) (c : Call) : gmap string bool :=
  match c with
  | Add cp => <[cp := false]> m
  | Remove cp => delete cp m
  | Activate cp => <[cp := true]> m
  | Deactivate cp => <[cp := false]> m
  | _ => m
  end.

(** What the caller has to see to. *)
Definition enabled (s : Sorter) (c : Call) : Prop :=
  match c with
  | Add cp => client_map s !! cp = None /\ valid_client cp
  | Remove cp => is_Some (client_map s !! cp) /\ releasable s cp
  | Activate cp | Deactivate cp => is_Some (client_map s !! cp)
  | UpdateWeight _ _ | Sort => True
  | Allocated cp _ rs => is_Some (client_map s !! cp) /\ wf_resources rs
  | Updated cp slaveId old new => is_Some (client_map s !! cp) /\ checks s cp (allocation_update slaveId old new)
  | Unallocated cp slaveId rs => is_Some (client_map s !! cp) /\ checks s cp (allocation_subtract slaveId rs)
  | AddSlave slaveId _ => agentResourceQuantities s !! slaveId = None
  | RemoveSlave slaveId =>
      exists q, agentResourceQuantities s !! slaveId = Some q /\ Quantities.contains (total s) q = true
  end.

Lemma perform_ok s c :
  sorter_inv s -> enabled s c ->
  exists s', run_call s c = Some s' /\ sorter_inv s' /\ client_map s' = call_spec (client_map s) c.
Proof.
  intros Hs He. destruct c; cbn in He |- *.
  - destruct He. by apply add_ok.
  - destruct He. by apply remove_ok.
  - by apply activate_ok.
  - by apply deactivate_ok.
  - destruct (updateWeight_ok s p w Hs) as (s' & ? & ? & ? & _). by exists s'.
  - destruct He. by apply allocated_ok.
  - destruct He. by apply update_ok_.
  - destruct He. by apply unallocated_ok.
  - unfold addSlave. rewrite bool_decide_eq_false_2 by (rewrite He; apply is_Some_None). eexists. split; [done|].
    split; [|done]. destruct Hs. by split.
  - destruct He as (q & Hq & Hc). unfold removeSlave. rewrite Hq. cbn. rewrite Hc. eexists. split; [done|].
    split; [|done]. destruct Hs. by split.
  - destruct (sort_ok s Hs) as (s' & -> & H1 & H2 & _). by exists s'.
Qed.

(** ** States of a sorter *)

Inductive reachable (exclude : option (gset string)) : Sorter -> Prop :=
  | reach_new : reachable exclude (new_sorter exclude)
  | reach_call s c s' :
      reachable exclude s -> enabled s c -> run_call s c = Some s' -> reachable exclude s'.

Lemma reachable_sorter_inv exclude s : reachable exclude s -> sorter_inv s.
Proof.
  induction 1 as [|s c s' _ IH He Hp]; [apply new_sorter_inv|].
  destruct (perform_ok s c IH He) as (s1 & H1 & Hs & _). rewrite Hp in H1. by injection H1 as <-.
Qed.

Definition mark_dirty (s : Sorter) : Sorter := with_tree true (root s) (clients s) s.

Lemma active_name_spec l p : distinct l -> p ∈ active_names l <-> flags l !! p = Some true.
Proof.
  intros Hd. unfold active_names. split.
  - intros ([[p' q] k] & -> & [Hk Hx]%list_elem_of_filter)%list_elem_of_fmap_1. cbn in Hk. subst k.
    apply (flags_lookup l (p', q, ACTIVE_LEAF) Hd Hx).
  - intros (q & k & Hx & Hk)%flags_elem. symmetry in Hk. unfold is_active in Hk. apply bool_decide_eq_true in Hk. subst k.
    apply list_elem_of_fmap. exists (p, q, ACTIVE_LEAF). split; [done|]. by apply list_elem_of_filter.
Qed.

Lemma active_names_NoDup l : distinct l -> NoDup (active_names l).
Proof.
  intros Hd. unfold active_names. eapply NoDup_sublist; [|exact Hd]. apply sublist_map, sublist_filter.
Qed.

(** C25. [sort] lists exactly the active clients, each once, in the order of
    the tree it leaves behind, in which at every node the subtrees and clients
    that are not inactive have their current dominant shares and are in
    ascending order of share, then of allocation count, then of path.  The
    weights of clients are numbers other than zero, as the master demands. *)
Theorem sort_lists_active_clients exclude s :
  reachable exclude s ->
  exists l s', sort s = Some (l, s')
    /\ NoDup l /\ (forall p, p ∈ l <-> client_map s !! p = Some true)
    /\ l = active_names (leaves [] (root s')) /\ fresh s' (root s').
Proof.
  intros Hr. destruct (sort_ok s (reachable_sorter_inv _ _ Hr)) as (s' & Hs & Hi & Hm & _ & Hf).
  exists (active_names (leaves [] (root s'))), s'. assert (Hd := si_distinct s' Hi). split_and!; [done| | |done|done].
  - by apply active_names_NoDup.
  - intros p. rewrite active_name_spec by done. by rewrite <- Hm.
Qed.

(** C26. Moving one node at a time is as good as sorting the whole tree: in a
    clean sorter [allocated] leaves it clean, and sorting it again from
    scratch lists the same clients and changes nothing. *)
Theorem allocated_keeps_sorted exclude s cp slaveId rs :
  reachable exclude s -> dirty s = false -> is_Some (client_map s !! cp) -> wf_resources rs ->
  exists s', allocated s cp slaveId rs = Some s' /\ dirty s' = false /\ sort s' = sort (mark_dirty s')
    /\ exists l, sort s' = Some (l, s').
Proof.
  intros Hr Hd Hc Hrs. assert (Hs := reachable_sorter_inv _ _ Hr).
  destruct (allocated_ok s cp slaveId rs Hs Hc Hrs) as (s' & Ha & Hs' & _). exists s'.
  assert (Hd' : dirty s' = false).
  { unfold allocated in Ha. destruct (find_client s cp); [|done]. cbn in Ha. destruct (climb _ _ _ _); [|done]. cbn in Ha.
    by injection Ha as <-. }
  assert (E : sortTree (mark_dirty s') (root s') = root s').
  { eapply (fresh_sortTree _ []); [apply (si_wf s' Hs')|]. eapply fresh_ext; [|by apply (si_fresh s' Hs')]. done. }
  assert (Es : sort s' = sort (mark_dirty s')).
  { unfold sort. rewrite Hd'. cbn [dirty mark_dirty with_tree root]. change (root (mark_dirty s')) with (root s').
    rewrite E. f_equal. destruct s'. cbn in *. by subst. }
  split_and!; [done..|]. unfold sort. rewrite Hd'.
  rewrite (listClients_spec [] (root s') (si_wf s' Hs') (root_kind s' Hs')). by eexists.
Qed.

(** ** Examples *)

Fixpoint enabled_all (s : Sorter) (l : list Call) : Prop :=
  match l with
  | [] => True
  | c :: l' => enabled s c /\ forall s', run_call s c = Some s' -> enabled_all s' l'
  end.

Lemma reach_all exclude s l s' :
  reachable exclude s -> enabled_all s l -> run_calls s l = Some s' -> reachable exclude s'.
Proof.
  revert s. induction l as [|c l IH]; intros s Hr; cbn; [by intros _ [= <-]|]. intros [He Hl] Hp.
  destruct (run_call s c) as [s1|] eqn:E; [|done]. cbn in Hp. eapply IH; [|by apply Hl|exact Hp]. by eapply reach_call.
Qed.

Definition held_cpus (z : Z) : Resources := of_list [cpus_ z].

Definition demo_calls : list Call :=
  [AddSlave "agent" [("cpus"%string, 10000)]; Add "a/b"; Add "c"; Activate "a/b"; Activate "c";
   Allocated "a/b" "agent" (held_cpus 2000); Allocated "c" "agent" (held_cpus 1000)].

Definition demo_sorter : Sorter := default (new_sorter None) (run_calls (new_sorter None) (demo_calls ++ [Sort])).

Lemma held_cpus_wf z : 0 < z -> wf_resources (held_cpus z).
Proof.
  intros Hz. apply of_list_wf. constructor; [|constructor]. split; [by split|]. cbn. lia.
Qed.

(** One call of a concrete history, and the state after it. *)
Ltac next_call := split; [cbn [enabled]|intros ? Hnext; vm_compute in Hnext; injection Hnext as <-].

Lemma demo_reachable : reachable None demo_sorter.
Proof.
  apply (reach_all None (new_sorter None) (demo_calls ++ [Sort])); [constructor| |by vm_compute].
  cbn [app demo_calls].
  next_call; [done|].
  do 2 (next_call; [split; [by vm_compute|]; apply (bool_decide_unpack _); by vm_compute|]).
  do 2 (next_call; [eexists; by vm_compute|]).
  do 2 (next_call; [split; [eexists; by vm_compute|by apply held_cpus_wf]|]).
  next_call; done.
Qed.

Lemma sort_lists_active_clients_witness :
  reachable None demo_sorter
  /\ exists l s', sort demo_sorter = Some (l, s') /\ NoDup l
     /\ (forall p, p ∈ l <-> client_map demo_sorter !! p = Some true)
     /\ l = active_names (leaves [] (root s')) /\ fresh s' (root s').
Proof. split; [apply demo_reachable|]. apply (sort_lists_active_clients None demo_sorter), demo_reachable. Defined.

Lemma allocated_keeps_sorted_witness :
  dirty demo_sorter = false
  /\ exists s', allocated demo_sorter "c" "agent" (held_cpus 5000) = Some s' /\ dirty s' = false
     /\ sort s' = sort (mark_dirty s') /\ exists l, sort s' = Some (l, s').
Proof.
  split; [by vm_compute|].
  apply (allocated_keeps_sorted None demo_sorter "c" "agent" (held_cpus 5000) demo_reachable).
  - by vm_compute.
  - eexists. by vm_compute.
  - by apply held_cpus_wf.
Defined.

(** The same calls list the clients in another order when the weight of "a"
    is set before the first [sort] than when it is set after it: "a" is not a
    client, so [updateWeight] does not find the node that has cached the weight. *)
Theorem group_weight_ignored :
  option_map fst (s ← run_calls (new_sorter None) (UpdateWeight "a" 4%Q :: demo_calls ++ [Sort]); sort s)
    = Some ["a/b"%string; "c"%string]
  /\ option_map fst (s ← run_calls (new_sorter None) (demo_calls ++ [Sort; UpdateWeight "a" 4%Q]); sort s)
    = Some ["c"%string; "a/b"%string].
Proof. split; by vm_compute. Qed.
