(* ===== verification/SorterAccounts.v ===== *)
(** * The accounts of a sorter

    The allocations in the tree of a sorter
    ([Node::Allocation] of [src/src/master/allocator/mesos/sorter/drf/sorter.hpp]):
    every node holds, on each agent, what the clients below it hold, and its
    quantities are the totals of that.  With it the checks of
    [Allocation::subtract] and [Allocation::update] on the way from a client to
    the root succeed whenever the one at the client does, and [remove] can
    always take back what the client still holds.

    The accounts are those of unshared scalar resources, reserved or not,
    disks and volumes included. *)

From stdpp Require Import base gmap strings list.
From Stdlib Require Import ZArith QArith.
From S2P Require Import Prelude Strings Ranges Scalar Values Quantities Registry Resource Resources ResourceOps Quota SorterTree DrfSorter.
Local Open Scope Z_scope.

(** ** Scalar resources *)

Record scalar_resources (rs : Resources) : Prop := {
  sc_wf : wf_resources rs;
  sc_unshared : unshared rs;
  sc_scalar : Forall (fun e => rtype (resource e) = SCALAR) rs;
}.

Definition amount_held (rs : Resources) (k : Resource) : Z := measure rs k PScalar.

Lemma scalar_point rs k p : scalar_resources rs -> p <> PScalar -> measure rs k p = 0.
Proof.
  intros [_ _ Hs] Hp. induction Hs as [|e rs He Hs IH]; [done|]. rewrite measure_cons, IH. unfold Resources.weight, units.
  destruct (same_key k (resource e)); [|done]. destruct (Resources.whole (resource e)); [destruct p; [congruence|done..]|].
  unfold rtype, type_of in He. destruct (value (resource e)); try done. destruct p; [congruence|done..].
Qed.

Lemma scalar_included rs rs' :
  scalar_resources rs -> scalar_resources rs' ->
  included rs rs' <-> forall k, wf_resource k -> amount_held rs k <= amount_held rs' k.
Proof.
  intros H H'. split; [by intros Hi k Hk; apply Hi|]. intros Hi k p Hk.
  destruct (decide (p = PScalar)) as [->|Hp]; [by apply Hi|]. by rewrite !scalar_point.
Qed.

Lemma included_contains a b : wf_resources a -> wf_resources b -> included b a -> Resources.contains a b = true.
Proof.
  revert a. induction b as [|e b IH]; intros a Ha Hb Hi; cbn; [done|].
  destruct (included_head e b a) as [Hc Hi']; [done..|]. apply wf_cons in Hb as (He & _ & Hb). rewrite Hc. cbn [negb].
  fold (persistent e). destruct (persistent e); [by apply IH; [apply subtract_wf|..]|].
  apply IH; [done|done|]. intros k p Hk. specialize (Hi k p Hk). rewrite measure_cons in Hi.
  assert (Hw := weight_nonneg k p e He). lia.
Qed.

Lemma scalar_nil : scalar_resources [].
Proof. split; [split; [constructor|done]|constructor..]. Qed.

Lemma held_nonneg rs k : scalar_resources rs -> 0 <= amount_held rs k.
Proof. intros [[Hw _] _ _]. by apply measure_nonneg. Qed.

(** What stays of an element that is added to or subtracted from. *)
Definition scalar_element (e : Resource_) : Prop :=
  shared (resource e) = false /\ rtype (resource e) = SCALAR.

Lemma scalar_plus_ l r : scalar_element l -> scalar_element (plus_ l r).
Proof.
  intros [H1 H2]. unfold scalar_element, plus_. destruct (is_shared_ l); [done|]. cbn. split; [done|].
  unfold rtype in *. cbn. by destruct (value (resource l)).
Qed.

Lemma scalar_minus_ l r : scalar_element l -> scalar_element (minus_ l r).
Proof.
  intros [H1 H2]. unfold scalar_element, minus_. destruct (is_shared_ l); [done|]. cbn. split; [done|].
  unfold rtype in *. cbn. by destruct (value (resource l)).
Qed.

Lemma scalar_elements rs :
  scalar_resources rs <-> wf_resources rs /\ Forall scalar_element rs.
Proof.
  unfold scalar_element. rewrite Forall_and. split; [intros [H1 H2 H3]; done|intros (H1 & H2 & H3); by split].
Qed.

Lemma scalar_plus a b : scalar_resources a -> scalar_resources b -> scalar_resources (Resources.plus a b).
Proof.
  rewrite !scalar_elements. intros [A1 A2] [B1 B2]. split.
  - apply plus_wf_resources; [done|apply (wr_elements _ B1)].
  - apply plus_Forall; [apply scalar_plus_|done..].
Qed.

Lemma scalar_subtract a e : Forall scalar_element a -> wf_ e -> Forall scalar_element (subtract a e).
Proof.
  intros Ha He. destruct (subtract_cases a e He) as [[_ ->]|(x & rest & Hp & _ & ->)]; [done|].
  rewrite Hp in Ha. apply Forall_cons in Ha as [Hx Hr]. destruct (_ || _); [done|]. constructor; [by apply scalar_minus_|done].
Qed.

Lemma scalar_minus a b : scalar_resources a -> scalar_resources b -> scalar_resources (Resources.minus a b).
Proof.
  rewrite !scalar_elements. intros [A1 A2] [B1 _]. split; [apply minus_wf_resources; [done|apply (wr_elements _ B1)]|].
  assert (Hb := wr_elements _ B1). clear B1. revert a A1 A2. induction Hb as [|e b He Hb IH]; intros a A1 A2; [done|].
  apply IH; [by apply subtract_wf|by apply scalar_subtract].
Qed.

Lemma held_plus a b k :
  scalar_resources a -> scalar_resources b -> wf_resource k ->
  amount_held (Resources.plus a b) k = amount_held a k + amount_held b k.
Proof.
  intros [A1 A2 A3] [B1 B2 B3] Hk. unfold amount_held. rewrite plus_measure by (done || apply (wr_elements _ B1)).
  rewrite fold_join_measure; [done|done|done|]. apply measure_nonneg, (wr_elements _ A1).
Qed.

Lemma total_plus a b n :
  scalar_resources a -> scalar_resources b ->
  ptotal n PScalar (Resources.plus a b) = ptotal n PScalar a + ptotal n PScalar b.
Proof. intros [A1 A2 A3] [B1 B2 B3]. rewrite plus_total by (done || apply (wr_elements _ B1)). done. Qed.

Lemma held_minus a b k :
  scalar_resources a -> scalar_resources b -> included b a -> wf_resource k ->
  amount_held (Resources.minus a b) k = amount_held a k - amount_held b k.
Proof. intros [A1 _ _] [B1 _ _] Hi Hk. by apply minus_measure. Qed.

Lemma total_minus a b n :
  scalar_resources a -> scalar_resources b -> included b a ->
  ptotal n PScalar (Resources.minus a b) = ptotal n PScalar a - ptotal n PScalar b.
Proof. intros [A1 _ _] [B1 B2 _] Hi. assert (H := minus_total n PScalar a b A1 B1 Hi B2). cbn in H. lia. Qed.

(** A collection with an element holds something. *)
Lemma held_some rs : scalar_resources rs -> rs <> [] -> exists k, wf_resource k /\ 0 < amount_held rs k.
Proof.
  intros Hrs Hne. destruct rs as [|e rs]; [done|]. assert (Hw := sc_wf _ Hrs).
  apply wf_cons in Hw as (He & _ & Hw). destruct (units_positive e He) as [p Hp].
  exists (resource e). split; [eauto with clusterd|].
  assert (Hm : 0 < measure (e :: rs) (resource e) p).
  { rewrite measure_cons. unfold Resources.weight. rewrite be_refl by eauto with clusterd.
    assert (H := measure_nonneg rs (resource e) p (wr_elements _ Hw)). lia. }
  destruct (decide (p = PScalar)) as [->|Hs]; [done|]. rewrite scalar_point in Hm by done. lia.
Qed.

(** ** Quantities of scalar resources *)

Lemma get_add q n z q' m :
  wf_quantities q -> Quantities.add q n z = Some q' ->
  Quantities.get q' m = Quantities.get q m + (if decide (n = m) then z else 0).
Proof.
  intros [Hs Hp] H. unfold Quantities.add in H. destruct (z <? 0); [done|].
  destruct (Z.eqb_spec z 0) as [->|Hz]; [injection H as <-; destruct (decide (n = m)); lia|].
  injection H as <-. unfold Quantities.get. rewrite find_insert by done.
  destruct (decide (n = m)); [|lia]. destruct (find_entry q m); cbn; lia.
Qed.

Lemma add_scalars_get l q q' m :
  wf_quantities q -> Forall (fun e => rtype (resource e) = SCALAR) l -> add_scalars q (to_list l) = Some q' ->
  Quantities.get q' m = Quantities.get q m + ptotal m PScalar l.
Proof.
  intros Hq Hl. revert q Hq. induction Hl as [|e l He Hl IH]; intros q Hq; cbn.
  { intros [= ->]. unfold ptotal. cbn. lia. }
  rewrite ptotal_cons. unfold rtype in He. destruct (value (resource e)) as [z| | |] eqn:Ev; try done.
  destruct (Quantities.add q _ z) as [q1|] eqn:E; [|done]. cbn. intros H.
  rewrite (IH q1 (wf_add _ _ _ _ Hq E) H), (get_add _ _ _ _ _ Hq E). cbn [join]. unfold pamount, string_eqb, dec_eqb.
  rewrite Ev. cbn. case_bool_decide; [rewrite decide_True by done|rewrite decide_False by done]; lia.
Qed.

Lemma filter_true (f : Resource -> bool) rs :
  Forall (fun e => f (resource e) = true) rs -> ResourceOps.filter f rs = rs.
Proof. unfold ResourceOps.filter. induction 1 as [|e rs He _ IH]; cbn; [done|]. by rewrite He, IH. Qed.

Lemma filter_false (f : Resource -> bool) rs :
  Forall (fun e => f (resource e) = false) rs -> ResourceOps.filter f rs = [].
Proof. unfold ResourceOps.filter. induction 1 as [|e rs He _ IH]; cbn; [done|]. by rewrite He. Qed.

Lemma scalar_quantities rs :
  scalar_resources rs ->
  exists q, fromScalarResources (scalars rs) = Some q /\ wf_quantities q
    /\ forall n, Quantities.get q n = ptotal n PScalar rs.
Proof.
  intros [H1 H2 H3]. destruct (fromScalarResources_total rs H1) as (q & Hq & Hw). exists q. split_and!; [done..|].
  intros n. unfold scalars in Hq. rewrite filter_true in Hq.
  - by rewrite (add_scalars_get rs [] q n wf_empty H3 Hq).
  - eapply Forall_impl; [exact H3|]. intros e He. by apply bool_decide_eq_true.
Qed.

Lemma scalar_quantities_without current rs :
  scalar_resources rs ->
  exists q, quantities_without current rs = Some q /\ wf_quantities q
    /\ forall n, Quantities.get q n = ptotal n PScalar rs.
Proof.
  intros Hrs. unfold quantities_without, nonShared, shared_.
  rewrite (filter_true (fun r => negb (isShared r))), (filter_false isShared).
  - by apply scalar_quantities.
  - apply (sc_unshared _ Hrs).
  - eapply Forall_impl; [apply (sc_unshared _ Hrs)|]. intros e He. cbn. unfold isShared. by rewrite He.
Qed.

(** ** The books of a node *)

Definition agent_sum (f : Resources -> Z) (m : gmap string Resources) : Z :=
  zsum (fun x => f x.2) (map_to_list m).

Record books (a : Allocation) : Prop := {
  bk_entries : forall g rs, resources a !! g = Some rs -> scalar_resources rs /\ rs <> [];
  bk_totals : wf_quantities (totals a);
  bk_sum : forall n, Quantities.get (totals a) n = agent_sum (ptotal n PScalar) (resources a);
}.

Definition held (a : Allocation) (g : string) (k : Resource) : Z := amount_held (on_agent a g) k.

Lemma agent_sum_delete f m g : f [] = 0 -> agent_sum f m = f (default [] (m !! g)) + agent_sum f (delete g m).
Proof.
  intros Hf. unfold agent_sum. destruct (m !! g) as [rs|] eqn:E; cbn.
  - by rewrite (zsum_perm _ _ _ (symmetry (map_to_list_delete m g rs E))).
  - rewrite Hf, delete_id by done. lia.
Qed.

Lemma agent_sum_set f m g rs :
  f [] = 0 -> agent_sum f (set_agent g rs m) = agent_sum f m - f (default [] (m !! g)) + f rs.
Proof.
  intros Hf. rewrite (agent_sum_delete f m g Hf). unfold set_agent. destruct rs as [|e rs]; [lia|].
  rewrite (agent_sum_delete f (<[g := e :: rs]> m) g Hf), lookup_insert_eq, delete_insert_eq. cbn. lia.
Qed.

Lemma agent_sum_le f m g :
  (forall g rs, m !! g = Some rs -> 0 <= f rs) -> f [] = 0 -> f (default [] (m !! g)) <= agent_sum f m.
Proof.
  intros Hn Hf. rewrite (agent_sum_delete f m g Hf). assert (0 <= agent_sum f (delete g m)); [|lia].
  apply zsum_nonneg. intros [g' rs] H%elem_of_map_to_list. cbn. apply lookup_delete_Some in H as [_ H]. by eapply Hn.
Qed.

Lemma on_agent_scalar a g : books a -> scalar_resources (on_agent a g).
Proof.
  intros Hb. unfold on_agent. destruct (resources a !! g) as [rs|] eqn:E; [by apply (bk_entries a Hb g)|apply scalar_nil].
Qed.

Lemma set_agent_lookup g g' rs m :
  default [] (set_agent g rs m !! g') = if decide (g' = g) then rs else default [] (m !! g').
Proof.
  unfold set_agent. destruct (decide (g' = g)) as [->|Hne]; destruct rs; cbn.
  - by rewrite lookup_delete_eq.
  - by rewrite lookup_insert_eq.
  - by rewrite lookup_delete_ne.
  - by rewrite lookup_insert_ne.
Qed.

(** The books after what an agent's entry holds was replaced. *)
Lemma set_agent_books a g rs q c :
  books a -> scalar_resources rs -> wf_quantities q ->
  (forall n, Quantities.get q n
     = Quantities.get (totals a) n - ptotal n PScalar (on_agent a g) + ptotal n PScalar rs) ->
  let a' := mkAllocation c (set_agent g rs (resources a)) q in
  books a' /\ forall g' k, held a' g' k = if decide (g' = g) then amount_held rs k else held a g' k.
Proof.
  intros [B1 B2 B3] Hrs Hq Hget a'. split.
  - split; cbn [a' resources totals]; [|done|].
    + intros g' rs'. unfold set_agent. destruct rs as [|e rs].
      * intros [_ H]%lookup_delete_Some. by eapply B1.
      * intros [[<- <-]|[_ H]]%lookup_insert_Some; [done|by eapply B1].
    + intros n. rewrite agent_sum_set by done. rewrite Hget, B3. done.
  - intros g' k. unfold held, on_agent, a'. cbn. rewrite set_agent_lookup. by destruct (decide (g' = g)).
Qed.

Lemma set_agent_some g rs m : rs <> [] -> set_agent g rs m = <[g := rs]> m.
Proof. by destruct rs. Qed.

Lemma add_books g rs a :
  books a -> scalar_resources rs -> rs <> [] ->
  exists a', allocation_add g rs a = Some a' /\ books a'
    /\ forall g' k, wf_resource k -> held a' g' k = held a g' k + (if decide (g' = g) then amount_held rs k else 0).
Proof.
  intros Ha Hrs Hne. unfold allocation_add. assert (Hon := on_agent_scalar a g Ha).
  destruct (scalar_quantities_without (on_agent a g) rs Hrs) as (q & -> & Hw & Hq). cbn [mbind option_bind].
  assert (Hp : Resources.plus (on_agent a g) rs <> []).
  { intros E. destruct (held_some rs Hrs Hne) as (k & Hk & Hpos). assert (H := held_plus _ _ k Hon Hrs Hk).
    rewrite E in H. assert (H0 := held_nonneg _ k Hon). change (amount_held [] k) with 0 in H. lia. }
  rewrite <- (set_agent_some g _ _ Hp). eexists. split; [done|].
  destruct (set_agent_books a g (Resources.plus (on_agent a g) rs) (Quantities.plus (totals a) q) (u64 (count a + 1)) Ha)
    as [B1 B2].
  - by apply scalar_plus.
  - apply wf_plus; [apply (bk_totals a Ha)|done].
  - intros n. rewrite get_plus by (apply (bk_totals a Ha) || apply Hw). rewrite total_plus, Hq by done. lia.
  - split; [exact B1|]. intros g' k Hk. rewrite B2. destruct (decide (g' = g)) as [->|]; [|lia].
    unfold held. by rewrite held_plus.
Qed.

(** The quantities of what an agent's entry includes are part of the totals. *)
Lemma totals_cover g rs q a :
  books a -> scalar_resources rs -> included rs (on_agent a g) -> wf_quantities q ->
  (forall n, Quantities.get q n = ptotal n PScalar rs) ->
  (forall n, Quantities.get q n <= Quantities.get (totals a) n) /\ Quantities.contains (totals a) q = true.
Proof.
  intros Ha Hrs Hi Hw Hq. assert (Hon := on_agent_scalar a g Ha).
  assert (Hle : forall n, Quantities.get q n <= Quantities.get (totals a) n).
  { intros n. rewrite Hq, (bk_sum a Ha). transitivity (ptotal n PScalar (on_agent a g)).
    - assert (H := total_minus _ rs n Hon Hrs Hi).
      assert (H0 := ptotal_nonneg n PScalar _ (wr_elements _ (sc_wf _ (scalar_minus _ rs Hon Hrs)))). lia.
    - apply agent_sum_le; [|done]. intros g' rs' Hg'. apply ptotal_nonneg, wr_elements. by apply (bk_entries a Ha g'). }
  split; [done|]. by apply (contains_get (totals a) q (bk_totals a Ha) Hw).
Qed.

Lemma subtract_books g rs a :
  books a -> scalar_resources rs -> is_Some (resources a !! g) -> included rs (on_agent a g) ->
  exists a', allocation_subtract g rs a = Some a' /\ books a'
    /\ forall g' k, wf_resource k -> held a' g' k = held a g' k - (if decide (g' = g) then amount_held rs k else 0).
Proof.
  intros Ha Hrs [cur Hcur] Hi. assert (Hon := on_agent_scalar a g Ha).
  assert (Eon : on_agent a g = cur) by (unfold on_agent; by rewrite Hcur). rewrite Eon in Hi, Hon.
  unfold allocation_subtract. rewrite Hcur. cbn [mbind option_bind].
  rewrite (included_contains cur rs) by (done || apply (sc_wf _ Hon) || apply (sc_wf _ Hrs)). cbn [negb].
  destruct (scalar_quantities_without (Resources.minus cur rs) rs Hrs) as (q & -> & Hw & Hq). cbn [mbind option_bind].
  rewrite <- Eon in Hi. destruct (totals_cover g rs q a Ha Hrs Hi Hw Hq) as [Hle ->]. rewrite Eon in Hi. cbn [negb]. eexists. split; [done|].
  destruct (set_agent_books a g (Resources.minus cur rs) (Quantities.minus (totals a) q) (count a) Ha) as [B1 B2].
  - by apply scalar_minus.
  - apply wf_minus, (bk_totals a Ha).
  - intros n. rewrite get_minus by (done || apply (bk_totals a Ha)). specialize (Hle n).
    rewrite Eon, total_minus by done. rewrite Hq in *. lia.
  - split; [exact B1|]. intros g' k Hk. rewrite B2. destruct (decide (g' = g)) as [->|]; [|lia].
    unfold held. rewrite Eon. by rewrite held_minus.
Qed.

Lemma update_books g old new a :
  books a -> scalar_resources old -> scalar_resources new -> is_Some (resources a !! g) -> included old (on_agent a g) ->
  exists a', allocation_update g old new a = Some a' /\ books a'
    /\ forall g' k, wf_resource k ->
         held a' g' k = held a g' k + (if decide (g' = g) then amount_held new k - amount_held old k else 0).
Proof.
  intros Ha Hold Hnew [cur Hcur] Hi. assert (Hon := on_agent_scalar a g Ha).
  assert (Eon : on_agent a g = cur) by (unfold on_agent; by rewrite Hcur). rewrite Eon in Hi, Hon.
  unfold allocation_update.
  destruct (scalar_quantities old Hold) as (q & -> & Hw & Hq). destruct (scalar_quantities new Hnew) as (q' & -> & Hw' & Hq').
  cbn [mbind option_bind]. rewrite Hcur. cbn [mbind option_bind].
  rewrite (included_contains cur old) by (done || apply (sc_wf _ Hon) || apply (sc_wf _ Hold)). cbn [negb].
  rewrite <- Eon in Hi. destruct (totals_cover g old q a Ha Hold Hi Hw Hq) as [Hle ->]. rewrite Eon in Hi. cbn [negb]. eexists. split; [done|].
  assert (Hm := scalar_minus cur old Hon Hold).
  destruct (set_agent_books a g (Resources.plus (Resources.minus cur old) new)
              (Quantities.plus (Quantities.minus (totals a) q) q') (count a) Ha) as [B1 B2].
  - by apply scalar_plus.
  - apply wf_plus; [apply wf_minus, (bk_totals a Ha)|done].
  - intros n. rewrite get_plus by (apply wf_minus, (bk_totals a Ha) || apply Hw').
    rewrite get_minus by (done || apply (bk_totals a Ha)). specialize (Hle n).
    rewrite Eon, total_plus, total_minus by done. rewrite Hq, Hq' in *. lia.
  - split; [exact B1|]. intros g' k Hk. rewrite B2. destruct (decide (g' = g)) as [->|]; [|lia].
    unfold held. rewrite Eon, held_plus, held_minus by done. lia.
Qed.

(** ** The books of a tree *)

Definition node_held (n : Node) : string -> Resource -> Z := held (allocation (data n)).

#[local] Unset Elimination Schemes.
Inductive accounted (n : Node) : Prop := accounted_intro {
  ac_books : books (allocation (data n));
  ac_sum : node_kind n = INTERNAL -> forall g k, wf_resource k ->
    node_held n g k = zsum (fun c => node_held c g k) (children n);
  ac_below : Forall accounted (children n);
}.
#[local] Set Elimination Schemes.

Lemma node_held_nonneg n g k : accounted n -> 0 <= node_held n g k.
Proof. intros Hn. apply held_nonneg, on_agent_scalar, (ac_books n Hn). Qed.

Lemma zsum_swapped f c c' l l' : swapped c c' l l' -> zsum f l' = zsum f l - f c + f c'.
Proof. intros (l0 & H1 & H2). rewrite (zsum_perm f _ _ H1), (zsum_perm f _ _ H2), !zsum_cons. lia. Qed.

(** What a node holds is part of what any node above it holds. *)
Lemma along_held loc here n m :
  wf_node here n -> accounted n -> node_at loc n = Some m ->
  Forall (fun d => books (allocation d)
    /\ forall g k, wf_resource k -> node_held m g k <= held (allocation d) g k) (along loc n).
Proof.
  revert here n. induction loc as [|t loc IH]; intros here n Hw Hn Hm; cbn in Hm |- *.
  - injection Hm as ->. constructor; [|constructor]. split; [apply (ac_books m Hn)|done].
  - destruct (find_child t (children n)) as [c|] eqn:Ec; [|done]. cbn in Hm.
    destruct (wf_child _ _ _ _ Hw Ec) as (Hi & _ & Hin & Hc). assert (Hb := ac_below n Hn). rewrite Forall_forall in Hb.
    specialize (IH _ _ Hc (Hb c Hin) Hm). constructor; [|done]. split; [apply (ac_books n Hn)|].
    intros g k Hk. assert (IH' : node_held m g k <= node_held c g k).
    { destruct loc; cbn in IH; apply Forall_cons in IH as [[_ IH] _]; by apply IH. }
    etransitivity; [exact IH'|]. fold (node_held n g k). rewrite (ac_sum n Hn Hi g k Hk).
    apply elem_of_Permutation in Hin as [l0 Hp]. rewrite (zsum_perm _ _ _ Hp), zsum_cons.
    assert (0 <= zsum (fun c => node_held c g k) l0); [|lia]. apply zsum_nonneg. intros c' Hc'.
    apply node_held_nonneg, Hb. rewrite Hp. by right.
Qed.

(** A change that adds the same to every node on the way keeps the books. *)
Lemma climb_accounted f settle (delta : string -> Resource -> Z) loc here n m n' :
  settles settle ->
  (forall a a', books a -> f a = Some a' -> books a' /\ forall g k, wf_resource k -> held a' g k = held a g k + delta g k) ->
  wf_node here n -> accounted n -> node_at loc n = Some m -> node_kind m <> INTERNAL ->
  Forall (fun d => is_Some (f (allocation d))) (along loc n) ->
  climb loc f settle n = Some n' ->
  accounted n' /\ forall g k, wf_resource k -> node_held n' g k = node_held n g k + delta g k.
Proof.
  intros Hset Hf. revert here n n'. induction loc as [|t loc IH]; intros here n n' Hw Hn Hm Hkm Hg; cbn in Hm.
  - injection Hm as ->. cbn. destruct (f (allocation (data m))) as [a|] eqn:Ea; [|done]. cbn. intros [= <-].
    destruct (Hf _ _ (ac_books m Hn) Ea) as [B1 B2]. split; [|done]. split; [done|done|apply (ac_below m Hn)].
  - destruct (find_child t (children n)) as [c|] eqn:Ec; [|done]. cbn in Hm.
    cbn in Hg. rewrite Ec in Hg. apply Forall_cons in Hg as [_ Hg].
    destruct (wf_child _ _ _ _ Hw Ec) as (Hi & Ename & Hin & Hc). assert (Hb := ac_below n Hn).
    assert (Hac : accounted c) by (rewrite Forall_forall in Hb; by apply Hb).
    destruct (climb_spec f settle loc (here ++ [t]) c m Hset Hc Hm Hg) as (c' & Hu & _ & Hname & Hkind & _).
    destruct (IH _ _ _ Hc Hac Hm Hkm Hg Hu) as [Hac' Hd'].
    cbn. destruct (f (allocation (data n))) as [a|] eqn:Ea; [|done]. cbn. rewrite Ec. cbn. rewrite Hu. cbn.
    assert (Et : t = node_name c') by congruence. rewrite Et in Ec.
    assert (Hs := wf_shape _ _ Hw).
    destruct (Hset c c' _ (sh_names _ _ _ Hs) (sh_order _ _ _ Hs) Ec Hkind) as (l' & c'' & -> & Hsame & Hsw & _). cbn.
    intros [= <-]. destruct (Hf _ _ (ac_books n Hn) Ea) as [B1 B2]. split; [|done]. split; [done| |].
    + intros _ g k Hk. change (held a g k = zsum (fun c => node_held c g k) l'). rewrite B2 by done.
      rewrite (zsum_swapped _ _ _ _ _ Hsw), <- (ac_sum n Hn Hi g k Hk).
      unfold node_held at 3. rewrite (sn_allocation _ _ Hsame). fold (node_held c' g k). rewrite Hd' by done.
      unfold node_held. lia.
    + eapply swapped_Forall; [exact Hsw|done|]. destruct Hac' as [A1 A2 A3]. destruct Hsame as [E1 E2 E3 E4 E5].
      split; [by rewrite E4| |by rewrite E5]. intros Hk2. rewrite E3 in Hk2. unfold node_held. rewrite E4, E5. by apply A2.
Qed.

(** *** Changes that leave the allocations alone *)

Lemma accounted_same n n' :
  allocation (data n') = allocation (data n) -> children n' = children n ->
  (node_kind n' = INTERNAL -> node_kind n = INTERNAL) -> accounted n -> accounted n'.
Proof.
  intros E1 E2 E3 [A1 A2 A3]. split; [by rewrite E1| |by rewrite E2]. intros Hk. unfold node_held. rewrite E1, E2.
  apply A2. by apply E3.
Qed.

Lemma accounted_swapped n c c' l' :
  accounted n -> swapped c c' (children n) l' -> accounted c' ->
  allocation (data c') = allocation (data c) -> accounted (node (data n) l').
Proof.
  intros [A1 A2 A3] Hs Hc E. split; [done| |by eapply swapped_Forall]. intros Hk g k Hkey. cbn [children].
  rewrite (zsum_swapped _ _ _ _ _ Hs). unfold node_held at 3 4. rewrite E.
  rewrite <- (A2 Hk g k Hkey). unfold node_held. cbn. lia.
Qed.

Lemma update_accounted f loc here n m n' again :
  fair_change (data m) (f (data m)) -> allocation (f (data m)).1 = allocation (data m) ->
  wf_node here n -> accounted n -> node_at loc n = Some m -> here ++ loc <> [] ->
  update_at loc f n = Some (n', again) -> accounted n' /\ allocation (data n') = allocation (data n).
Proof.
  intros Hfair Hal. revert here n n' again. induction loc as [|t loc IH]; intros here n n' again Hw Hn Hm Hne; cbn in Hm.
  - injection Hm as ->. cbn. destruct (f (data m)) as [d ag]. cbn in *. intros [= <- <-]. split; [|done].
    eapply accounted_same; [| | |exact Hn]; try done. destruct Hfair as (_ & _ & Hk). cbn in Hk. unfold node_kind. cbn.
    intros Ek. destruct Hk as [<-|(_ & _ & ?)]; done.
  - destruct (find_child t (children n)) as [c|] eqn:Ec; [|done]. cbn in Hm.
    destruct (wf_child _ _ _ _ Hw Ec) as (Hi & Ename & Hin & Hc). assert (Hb := ac_below n Hn).
    assert (Hac : accounted c) by (rewrite Forall_forall in Hb; by apply Hb).
    destruct (update_at_spec f loc (here ++ [t]) c m Hc Hm) as (c' & ag & _ & Hu & _ & Hname & _); [by destruct here|done|].
    destruct (IH _ _ _ _ Hc Hac Hm ltac:(by destruct here) Hu) as [G1 G2].
    cbn [update_at]. rewrite Ec. cbn [mbind option_bind]. rewrite Hu. cbn [mbind option_bind].
    assert (Et : t = node_name c') by congruence. rewrite Et in Ec.
    assert (Hnames := sh_names _ _ _ (wf_shape _ _ Hw)).
    assert (Hl : exists l', (if ag then readd c' (children n) else replace_child c' (children n)) = Some l'
              /\ swapped c c' (children n) l').
    { destruct ag; [destruct (readd_swapped c c' _ Hnames Ec) as (l' & H1 & H2 & _)
                   |destruct (replace_child_swapped c c' _ Ec) as (l' & H1 & H2)]; by exists l'. }
    destruct Hl as (l' & -> & Hs). cbn. intros [= <- <-]. split; [|done]. by eapply accounted_swapped.
Qed.

Lemma accounted_perm n l' (h : Node -> Node) :
  accounted n -> l' ≡ₚ map h (children n) ->
  (forall c, c ∈ children n -> accounted (h c) /\ allocation (data (h c)) = allocation (data c)) ->
  accounted (node (data n) l').
Proof.
  intros [A1 A2 A3] Hp Hh. split; [done| |].
  - intros Hk g k Hkey. cbn [children]. rewrite (zsum_perm _ _ _ Hp). change (node_held (node (data n) l') g k) with (node_held n g k).
    rewrite (A2 Hk g k Hkey). clear -Hh. induction (children n) as [|c l IH]; [done|]. cbn [map]. rewrite !zsum_cons.
    rewrite IH by (intros c' Hc'; apply Hh; by right). f_equal. unfold node_held.
    by destruct (Hh c) as [_ ->]; [left|].
  - cbn. rewrite Hp, Forall_map. apply Forall_forall. intros c Hc. by apply Hh.
Qed.

Lemma sortTree_accounted s here n : wf_node here n -> accounted n -> accounted (sortTree s n).
Proof.
  revert here. induction n as [d l IH] using tree_ind. intros here Hw Hn.
  assert (Ho := sh_order _ _ _ (wf_shape _ _ Hw)). assert (Hb := wf_below _ _ Hw). cbn [children] in Ho, Hb.
  rewrite Forall_forall in IH, Hb. cbn [sortTree]. rewrite map_front_eq by done.
  set (f := descend_into (sortTree s)). assert (Hd : forall c, data (f c) = data c) by apply descend_data.
  assert (Ho' : inactive_last (map f l)).
  { apply map_inactive_last; [|done]. intros c. unfold node_kind. by rewrite Hd. }
  assert (Hp := sort_children_perm s (map f l) Ho'). rewrite map_map in Hp.
  apply (accounted_perm (node d l) _ (fun c => freshen s (f c)) Hn Hp). cbn [children]. intros c Hc.
  assert (Hs := freshen_same s (f c)). assert (Ha := ac_below _ Hn). cbn in Ha. rewrite Forall_forall in Ha.
  split; [|by rewrite (sn_allocation _ _ Hs), Hd].
  eapply (accounted_same (f c)); [apply (sn_allocation _ _ Hs)|apply (sn_children _ _ Hs)| |].
  - by rewrite (sn_kind _ _ Hs).
  - unfold f, descend_into. case_bool_decide; [eapply IH; [done|by apply Hb|by apply Ha]|by apply Ha].
Qed.

(** *** Adding a client *)

Lemma no_books : books no_allocation.
Proof. split; cbn; [|apply wf_empty|done]. intros g rs. by rewrite lookup_empty. Qed.

Lemma new_accounted b d t k : accounted (node (new_data b d t k) []).
Proof. split; cbn; [apply no_books|done|constructor]. Qed.

Lemma push_accounted n c :
  accounted n -> accounted c -> (forall g k, node_held c g k = 0) ->
  accounted (node (data n) (push_child c (children n))).
Proof.
  intros [A1 A2 A3] Hc H0. assert (Hp := push_child_perm c (children n)). split; [done| |].
  - intros Hk g k Hkey. cbn [children]. rewrite (zsum_perm _ _ _ Hp), zsum_cons, H0. by apply A2.
  - cbn [children]. rewrite Hp. by constructor.
Qed.

Lemma grow_data tokens here n : data (grow here tokens n) = data n.
Proof. by destruct tokens. Qed.

Lemma grow_accounted tokens here n : accounted n -> accounted (grow here tokens n).
Proof.
  revert here n. induction tokens as [|t rest IH]; intros here n Hn; cbn [grow]; [done|].
  apply push_accounted; [done|apply IH, new_accounted|]. intros g k. unfold node_held. by rewrite grow_data.
Qed.

Lemma descend_accounted tokens here n a :
  wf_node here n -> is_virtual here = false -> here ++ tokens <> [] ->
  Forall no_slash tokens -> Forall (fun t => t <> "."%string) tokens ->
  path_of (here ++ tokens) ∉ map leaf_client (leaves here n) ->
  accounted n -> descend here tokens n = Some a ->
  accounted (added a) /\ allocation (data (added a)) = allocation (data n).
Proof.
  revert here n a. induction tokens as [|t rest IH]; intros here n a Hw Hv Hne Hs Hd Hnew Hn.
  { cbn. intros [= <-]. split; [|done]. apply (push_accounted n); [done|apply new_accounted|done]. }
  assert (HS := descend_spec (t :: rest) here n Hw Hv Hne Hs Hd Hnew).
  cbn [descend] in *. rewrite (isLeaf_wf here n Hw) in *. cbn [mbind option_bind] in *.
  case_bool_decide as Hk; cbn [negb] in *.
  - destruct (find_child t (children n)) as [c|] eqn:Ec; [|intros [= <-]; cbn; split; [by apply (grow_accounted (t :: rest))|done]].
    clear HS. destruct (wf_child _ _ _ _ Hw Ec) as (_ & Ename & Hin & Hc). assert (Hb := ac_below n Hn).
    assert (Hac : accounted c) by (rewrite Forall_forall in Hb; by apply Hb).
    apply Forall_cons in Hs as [_ Hs], Hd as [Ht Hd].
    assert (Hv' : is_virtual (here ++ [t]) = false) by (rewrite is_virtual_snoc; by apply bool_decide_eq_false).
    assert (Hnew' : path_of ((here ++ [t]) ++ rest) ∉ map leaf_client (leaves (here ++ [t]) c)).
    { rewrite <- app_assoc. cbn. intros (x & Ex & Hx)%list_elem_of_fmap_1. apply Hnew. rewrite Ex.
      apply list_elem_of_fmap_2. rewrite leaves_internal by done. eapply leaves_below_elem; [exact Hin|by rewrite Ename]. }
    destruct (descend_spec rest (here ++ [t]) c Hc Hv') as (a1 & Ha1 & D); [by destruct here|done..|].
    destruct (IH _ _ _ Hc Hv' ltac:(by destruct here) Hs Hd Hnew' Hac Ha1) as [G1 G2].
    rewrite Ha1. cbn [mbind option_bind]. assert (Et : node_name (added a1) = t) by (rewrite (de_name _ _ _ _ D); congruence).
    rewrite <- Et in Ec. assert (Hnames := sh_names _ _ _ (wf_shape _ _ Hw)).
    assert (Hl : exists l', (if moved a1 then readd (added a1) (children n) else replace_child (added a1) (children n)) = Some l'
              /\ swapped c (added a1) (children n) l').
    { destruct (moved a1); [destruct (readd_swapped c (added a1) _ Hnames Ec) as (l' & H1 & H2 & _)
                   |destruct (replace_child_swapped c (added a1) _ Ec) as (l' & H1 & H2)]; by exists l'. }
    destruct Hl as (l' & -> & Hsw). cbn. intros [= <-]. split; [|done]. by eapply accounted_swapped.
  - destruct (clientPath _ _); [|done]. clear HS. cbn [mbind option_bind]. intros H. apply (inj Some) in H. subst a. cbn [added].
    split; [|by rewrite grow_data]. apply (grow_accounted (t :: rest)). set (virt := node _ []).
    assert (Hc := sh_leaf _ _ _ (wf_shape _ _ Hw) Hk). rewrite Hc. destruct Hn as [A1 A2 A3]. split; cbn [data children]; [done| |].
    + intros _ g k _. destruct (push_child virt []) as [|x l] eqn:E; [by unfold push_child in E; case_bool_decide|].
      assert (Hp := push_child_perm virt []). rewrite E in Hp. apply Permutation_singleton_r in Hp. injection Hp as -> ->.
      rewrite zsum_cons. unfold node_held. cbn. lia.
    + rewrite push_child_perm. constructor; [|constructor]. split; [done| |constructor].
      unfold node_kind in Hk. by unfold node_kind; cbn.
Qed.

(** *** Removing a client *)

(** What a list of entries holds on an agent. *)
Definition listed (l : list (string * Resources)) (g : string) (k : Resource) : Z :=
  zsum (fun x => if decide (x.1 = g) then amount_held x.2 k else 0) l.

Lemma listed_absent l g k : g ∉ map fst l -> listed l g k = 0.
Proof.
  unfold listed. induction l as [|[g' rs] l IH]; [done|]. cbn [map]. intros [H1 H2]%not_elem_of_cons.
  rewrite zsum_cons, IH by done. cbn in *. by rewrite decide_False by auto.
Qed.

Lemma listed_map m g k : listed (map_to_list m) g k = amount_held (default [] (m !! g)) k.
Proof.
  destruct (m !! g) as [rs|] eqn:E; cbn.
  - unfold listed. rewrite (zsum_perm _ _ _ (symmetry (map_to_list_delete m g rs E))), zsum_cons. cbn.
    rewrite decide_True by done. fold (listed (map_to_list (delete g m)) g k). rewrite listed_absent; [lia|].
    intros ([g' rs'] & E' & H)%list_elem_of_fmap_1. cbn in E'. subst g'. apply elem_of_map_to_list in H.
    by rewrite lookup_delete_eq in H.
  - apply listed_absent. intros ([g' rs'] & E' & H)%list_elem_of_fmap_1. cbn in E'. subst g'.
    apply elem_of_map_to_list in H. congruence.
Qed.

(** An entry that an ancestor includes is in the ancestor's map. *)
Lemma included_entry a g rs :
  scalar_resources rs -> rs <> [] -> included rs (on_agent a g) -> is_Some (resources a !! g).
Proof.
  intros Hrs Hne Hi. unfold on_agent in Hi. destruct (resources a !! g); [by eexists|]. cbn in Hi.
  destruct (held_some rs Hrs Hne) as (k & Hk & Hpos). specialize (Hi k PScalar Hk). unfold amount_held in Hpos.
  change (measure [] k PScalar) with 0 in Hi. lia.
Qed.

Lemma held_included a g rs :
  books a -> scalar_resources rs -> (forall k, wf_resource k -> amount_held rs k <= held a g k) -> included rs (on_agent a g).
Proof. intros Ha Hrs H. apply scalar_included; [done|by apply on_agent_scalar|done]. Qed.

Lemma subtract_all_books l a :
  books a -> NoDup (map fst l) -> Forall (fun x => scalar_resources x.2 /\ x.2 <> []) l ->
  (forall g k, wf_resource k -> listed l g k <= held a g k) ->
  exists a', subtract_all l a = Some a' /\ books a'
    /\ forall g k, wf_resource k -> held a' g k = held a g k - listed l g k.
Proof.
  revert a. induction l as [|[g rs] l IH]; intros a Ha Hn Hl Hle; cbn [subtract_all].
  { exists a. split_and!; [done..|]. intros g k _. unfold listed. cbn. lia. }
  cbn in Hn. apply NoDup_cons in Hn as [Hg Hn]. apply Forall_cons in Hl as [[Hrs Hne] Hl]. cbn in Hrs, Hne.
  assert (Hi : included rs (on_agent a g)).
  { apply held_included; [done..|]. intros k Hk. specialize (Hle g k Hk). unfold listed in Hle. rewrite zsum_cons in Hle.
    cbn [fst snd] in Hle. rewrite decide_True in Hle by done. fold (listed l g k) in Hle. rewrite listed_absent in Hle by done. lia. }
  destruct (subtract_books g rs a Ha Hrs (included_entry a g rs Hrs Hne Hi) Hi) as (a1 & -> & B1 & B2). cbn [mbind option_bind].
  destruct (IH a1 B1 Hn Hl) as (a' & Ha' & B3 & B4).
  - intros g' k Hk. rewrite B2 by done. specialize (Hle g' k Hk). unfold listed in Hle |- *. rewrite zsum_cons in Hle.
    cbn [fst snd] in Hle. destruct (decide (g' = g)) as [->|]; [rewrite decide_True in Hle by done|rewrite decide_False in Hle by auto]; lia.
  - exists a'. split_and!; [done..|]. intros g' k Hk. rewrite B4, B2 by done. unfold listed. rewrite zsum_cons. cbn [fst snd].
    destruct (decide (g' = g)) as [->|]; [rewrite decide_True by done|rewrite decide_False by auto]; lia.
Qed.

(** The allocation of a node at or below another one can be taken from it. *)
Lemma leaf_subtracts m a :
  books (allocation (data m)) -> books a -> (forall g k, wf_resource k -> node_held m g k <= held a g k) ->
  exists a', subtract_all (map_to_list (resources (allocation (data m)))) a = Some a' /\ books a'
    /\ forall g k, wf_resource k -> held a' g k = held a g k - node_held m g k.
Proof.
  intros Hm Ha Hle. destruct (subtract_all_books (map_to_list (resources (allocation (data m)))) a Ha) as (a' & E & B1 & B2).
  - apply NoDup_fst_map_to_list.
  - apply Forall_forall. intros [g rs] H%elem_of_map_to_list. by apply (bk_entries _ Hm g).
  - intros g k Hk. rewrite listed_map. by apply Hle.
  - exists a'. split_and!; [done..|]. intros g k Hk. rewrite B2, listed_map by done. done.
Qed.

Lemma along_removelast (P : Data -> Prop) loc n : Forall P (along loc n) -> Forall P (along (removelast loc) n).
Proof.
  revert n. induction loc as [|t loc IH]; intros n; [done|]. destruct loc as [|t' loc].
  - cbn. intros [H _]%Forall_cons. by constructor.
  - intros H. cbn in H. apply Forall_cons in H as [H1 H2]. change (removelast (t :: t' :: loc)) with (t :: removelast (t' :: loc)).
    cbn [along]. constructor; [done|]. destruct (find_child t (children n)) as [c|]; [|done]. by apply IH.
Qed.

Lemma accounted_at loc here n m : wf_node here n -> accounted n -> node_at loc n = Some m -> accounted m.
Proof.
  revert here n. induction loc as [|t loc IH]; intros here n Hw Hn Hm; cbn in Hm; [by injection Hm as ->|].
  destruct (find_child t (children n)) as [c|] eqn:Ec; [|done].
  destruct (wf_child _ _ _ _ Hw Ec) as (_ & _ & Hin & Hc). assert (Hb := ac_below n Hn). rewrite Forall_forall in Hb.
  by apply (IH _ c Hc); [apply Hb|].
Qed.

(** Every check of [remove] succeeds. *)
Lemma accounted_releasable s cp : sorter_inv s -> accounted (root s) -> releasable s cp.
Proof.
  intros Hs Ha q m [_ Hm _ _ _ _]. apply along_removelast.
  assert (H := along_held q [] (root s) m (si_wf s Hs) Ha Hm).
  assert (Hb := ac_books m (accounted_at q [] (root s) m (si_wf s Hs) Ha Hm)).
  eapply Forall_impl; [exact H|]. intros d [Hd Hle]. destruct (leaf_subtracts m (allocation d) Hb Hd Hle) as (a' & -> & _).
  by eexists.
Qed.

Lemma tidy_accounted here c c' l cl l' cl' :
  NoDup (map node_name l) -> find_child (node_name c') l = Some c -> Forall accounted l -> accounted c' ->
  tidy here c' l cl = Some (l', cl') ->
  Forall accounted l'
  /\ forall g k, zsum (fun x => node_held x g k) l'
       = zsum (fun x => node_held x g k) l - node_held c g k + match children c' with [] => 0 | _ => node_held c' g k end.
Proof.
  intros Hn Hf Hl Hc. unfold tidy.
  assert (Hrep : (l ← replace_child c' l; Some (l, cl)) = Some (l', cl') ->
    Forall accounted l' /\ forall g k, zsum (fun x => node_held x g k) l'
       = zsum (fun x => node_held x g k) l - node_held c g k + node_held c' g k).
  { destruct (replace_child_swapped c c' l Hf) as (l1 & -> & Hs). cbn. intros [= <- <-].
    split; [by eapply swapped_Forall|]. intros g k. by rewrite (zsum_swapped _ _ _ _ _ Hs). }
  destruct (children c') as [|child [|child2 rest]]; [| |done].
  - rewrite remove_find by (by rewrite Hf). cbn. intros [= <- <-]. unfold find_child in Hf.
    assert (Hp := erase_first_perm node_name _ _ _ Hf). split.
    + rewrite Hp in Hl. by apply Forall_cons in Hl as [_ Hl].
    + intros g k. rewrite (zsum_perm _ _ _ Hp), zsum_cons. lia.
  - case_bool_decide as Hdot; [|done]. destruct (isLeaf child) as [leaf|] eqn:El; [|done]. cbn.
    destruct leaf; [|done]. cbn. destruct (bool_decide _); [|done]. cbn.
    set (c'' := node (with_kind (node_kind child) (data c')) []).
    destruct (readd_swapped c c'' l Hn Hf) as (l1 & -> & Hs & _). cbn. intros [= <- <-]. split.
    + eapply swapped_Forall; [exact Hs|done|]. split; [apply (ac_books c' Hc)| |constructor].
      unfold isLeaf in El. unfold node_kind, c''. cbn. by destruct (node_kind child).
    + intros g k. by rewrite (zsum_swapped _ _ _ _ _ Hs).
Qed.

Lemma remove_accounted loc here n m cl n' cl' :
  wf_node here n -> accounted n -> node_at loc n = Some m -> node_kind m <> INTERNAL -> loc <> [] ->
  (forall x, x ∈ leaves here n -> leaf_location x <> here ++ loc -> cl !! leaf_client x = Some (leaf_location x)) ->
  remove_at here loc (map_to_list (resources (allocation (data m)))) n cl = Some (n', cl') ->
  accounted n' /\ forall g k, wf_resource k -> node_held n' g k = node_held n g k - node_held m g k.
Proof.
  revert here n n' cl'. set (la := map_to_list (resources (allocation (data m)))).
  induction loc as [|t rest IH]; [done|]. intros here n n' cl' Hw Hn Hm Hk _ Ht.
  assert (Hal := along_held (t :: rest) here n m Hw Hn Hm). cbn in Hal. apply Forall_cons in Hal as [[Hbn Hle] Hal].
  assert (Ham := accounted_at (t :: rest) here n m Hw Hn Hm). cbn in Hm.
  destruct (find_child t (children n)) as [c|] eqn:Hf; [|done]. cbn in Hm.
  destruct (wf_child _ _ _ _ Hw Hf) as (Hi & Ename & Hin & Hc). assert (Hb := ac_below n Hn).
  assert (Hac : accounted c) by (rewrite Forall_forall in Hb; by apply Hb).
  destruct (leaf_subtracts m (allocation (data n)) (ac_books m Ham) Hbn Hle) as (a & Ea & B1 & B2). fold la in Ea.
  assert (Hnames := sh_names _ _ _ (wf_shape _ _ Hw)).
  assert (Hr : forall c' cl1, remove_at (here ++ [t]) rest la c cl = Some (c', cl1) ->
    node_name c' = t /\ accounted c' /\
    forall g k, wf_resource k ->
      match children c' with [] => 0 | _ => node_held c' g k end = node_held c g k - node_held m g k).
  { intros c' cl1 Hrem. destruct rest as [|t' rest].
    - cbn in Hrem, Hm. injection Hrem as <- <-. injection Hm as ->. split_and!; [done..|]. intros g k _.
      rewrite (sh_leaf _ _ _ (wf_shape _ _ Hc) Hk). lia.
    - assert (Ht' : forall x, x ∈ leaves (here ++ [t]) c -> leaf_location x <> (here ++ [t]) ++ t' :: rest ->
                      cl !! leaf_client x = Some (leaf_location x)).
      { intros x Hx Hl. apply Ht; [|intros E; apply Hl; by rewrite <- app_assoc].
        rewrite leaves_internal by done. eapply leaves_below_elem; [exact Hin|by rewrite Ename]. }
      destruct (IH _ _ _ _ Hc Hac Hm Hk ltac:(done) Ht' Hrem) as [G1 G2].
      destruct (remove_at_spec la (t' :: rest) (here ++ [t]) c m cl Hc Hm Hk) as (c2 & cl2 & Hrem2 & R); [done| |done|].
      { apply along_removelast. eapply Forall_impl; [exact Hal|]. intros d [Hd Hled].
        destruct (leaf_subtracts m (allocation d) (ac_books m Ham) Hd Hled) as (x & Ex & _). unfold la. rewrite Ex. by eexists. }
      rewrite Hrem in Hrem2. injection Hrem2 as <- <-. split_and!; [by rewrite (re_name _ _ _ _ _ _ _ _ R)|done|].
      intros g k Hkey. rewrite <- G2 by done. assert (Hsum := ac_sum c' G1 (gr_kind _ _ (re_growing _ _ _ _ _ _ _ _ R)) g k Hkey).
      by destruct (children c'). }
  cbn [remove_at]. rewrite Hf. cbn [mbind option_bind].
  destruct (remove_at (here ++ [t]) rest la c cl) as [[c' cl1]|] eqn:Erem; [|done]. cbn [mbind option_bind].
  destruct (Hr c' cl1 eq_refl) as (R1 & R2 & R3). rewrite Ea. cbn [mbind option_bind].
  destruct (tidy (here ++ [t]) c' (children n) cl1) as [[l' cl2]|] eqn:Etidy; [|done]. cbn [mbind option_bind]. intros [= <- <-].
  rewrite <- R1 in Hf. destruct (tidy_accounted _ c c' _ _ _ _ Hnames Hf Hb R2 Etidy) as [T1 T2].
  split; [|done]. split; [done| |done]. intros _ g k Hkey. cbn [children].
  change (held a g k = zsum (fun c => node_held c g k) l'). rewrite B2, T2, R3 by done.
  rewrite <- (ac_sum n Hn Hi g k Hkey). unfold node_held. lia.
Qed.

(** ** The sorter with its books *)

Definition delta_on (g : string) (f : Resource -> Z) (g' : string) (k : Resource) : Z :=
  if decide (g' = g) then f k else 0.

Lemma add_effect g rs a a' :
  scalar_resources rs -> rs <> [] -> books a -> allocation_add g rs a = Some a' ->
  books a' /\ forall g' k, wf_resource k -> held a' g' k = held a g' k + delta_on g (amount_held rs) g' k.
Proof.
  intros Hrs Hne Ha H. destruct (add_books g rs a Ha Hrs Hne) as (a1 & H1 & B). rewrite H in H1. by injection H1 as <-.
Qed.

Lemma contained_included a g cur rs :
  books a -> scalar_resources rs -> no_twin_disks rs -> resources a !! g = Some cur ->
  Resources.contains cur rs = true -> included rs (on_agent a g).
Proof.
  intros Ha Hrs Ht Hcur Hc. unfold on_agent. rewrite Hcur. cbn. destruct (bk_entries a Ha g cur Hcur) as [Hs _].
  apply resources_contains_spec in Hc; [done|apply (sc_wf _ Hs)|apply (sc_wf _ Hrs)|done].
Qed.

Lemma subtract_effect g rs a a' :
  scalar_resources rs -> no_twin_disks rs -> books a -> allocation_subtract g rs a = Some a' ->
  books a' /\ forall g' k, wf_resource k -> held a' g' k = held a g' k + delta_on g (fun k => - amount_held rs k) g' k.
Proof.
  intros Hrs Ht Ha H. assert (H' := H). unfold allocation_subtract in H'.
  destruct (resources a !! g) as [cur|] eqn:Hcur; [|done]. cbn in H'.
  destruct (Resources.contains cur rs) eqn:Hc; [|done]. clear H'.
  destruct (subtract_books g rs a Ha Hrs) as (a1 & H1 & B1 & B2); [by eexists|by eapply contained_included|].
  rewrite H in H1. injection H1 as <-. split; [done|]. intros g' k Hk. rewrite B2 by done. unfold delta_on.
  destruct (decide _); lia.
Qed.

Lemma update_effect g old new a a' :
  scalar_resources old -> scalar_resources new -> no_twin_disks old -> books a ->
  allocation_update g old new a = Some a' ->
  books a' /\ forall g' k, wf_resource k ->
    held a' g' k = held a g' k + delta_on g (fun k => amount_held new k - amount_held old k) g' k.
Proof.
  intros Hold Hnew Ht Ha H. assert (H' := H). unfold allocation_update in H'.
  destruct (fromScalarResources (scalars old)); [|done]. destruct (fromScalarResources (scalars new)); [|done]. cbn in H'.
  destruct (resources a !! g) as [cur|] eqn:Hcur; [|done]. cbn in H'.
  destruct (Resources.contains cur old) eqn:Hc; [|done]. clear H'.
  destruct (update_books g old new a Ha Hold Hnew) as (a1 & H1 & B1 & B2); [by eexists|by eapply contained_included|].
  rewrite H in H1. injection H1 as <-. split; [done|]. intros g' k Hk. by rewrite B2.
Qed.

(** What a client holds on an agent. *)
Definition holds (s : Sorter) (cp slaveId : string) (rs : Resources) : Prop :=
  exists a cur, client_allocation s cp = Some a /\ resources a !! slaveId = Some cur
    /\ Resources.contains cur rs = true.

Lemma holds_client s cp g rs : sorter_inv s -> holds s cp g rs -> is_Some (client_map s !! cp).
Proof.
  intros Hs (a & cur & Ha & _). unfold client_allocation, find_client in Ha.
  destruct (client_map s !! cp) as [b|] eqn:E; [by eexists|]. by rewrite (find_absent s cp Hs E) in Ha.
Qed.

(** Every node above a client includes what the client holds. *)
Lemma holds_along s cp g rs q m :
  sorter_inv s -> accounted (root s) -> scalar_resources rs -> no_twin_disks rs -> holds s cp g rs -> located s cp q m ->
  Forall (fun d => books (allocation d) /\ is_Some (resources (allocation d) !! g)
    /\ included rs (on_agent (allocation d) g)) (along q (root s)).
Proof.
  intros Hs Ha Hrs Ht (a & cur & Hca & Hcur & Hc) Hl. unfold client_allocation in Hca. rewrite (locate _ _ _ _ Hl) in Hca.
  assert (Hm := lo_node _ _ _ _ Hl). cbn in Hca. rewrite Hm in Hca. cbn in Hca. injection Hca as <-.
  assert (Hbm := ac_books m (accounted_at q [] _ m (si_wf s Hs) Ha Hm)).
  assert (Hin := contained_included _ g cur rs Hbm Hrs Ht Hcur Hc).
  destruct (bk_entries _ Hbm g cur Hcur) as [Hsc Hne].
  eapply Forall_impl; [apply (along_held q [] _ m (si_wf s Hs) Ha Hm)|]. intros d [Hd Hle]. split; [done|].
  assert (Eon : on_agent (allocation (data m)) g = cur) by (unfold on_agent; by rewrite Hcur).
  assert (Hcd : included cur (on_agent (allocation d) g)).
  { apply held_included; [done..|]. intros k Hk. specialize (Hle g k Hk). unfold node_held, held in Hle. by rewrite Eon in Hle. }
  split; [by eapply included_entry|]. intros k p Hk. rewrite Eon in Hin. etransitivity; [by apply Hin|by apply Hcd].
Qed.

Record sorter_books (s : Sorter) : Prop := {
  sb_inv : sorter_inv s;
  sb_accounted : accounted (root s);
  sb_total : wf_quantities (total s);
  sb_agents : forall g q, agentResourceQuantities s !! g = Some q -> wf_quantities q;
  sb_sum : forall n, Quantities.get (total s) n
             = zsum (fun x => Quantities.get x.2 n) (map_to_list (agentResourceQuantities s));
}.

(** What the caller has to see to, in terms of what it knows itself. *)
Definition permitted (s : Sorter) (c : Call) : Prop :=
  match c with
  | Add cp => client_map s !! cp = None /\ valid_client cp
  | Remove cp | Activate cp | Deactivate cp => is_Some (client_map s !! cp)
  | UpdateWeight _ _ | Sort => True
  | Allocated cp _ rs => is_Some (client_map s !! cp) /\ scalar_resources rs /\ rs <> []
  | Updated cp slaveId old new =>
      holds s cp slaveId old /\ scalar_resources old /\ no_twin_disks old /\ scalar_resources new
  | Unallocated cp slaveId rs => holds s cp slaveId rs /\ scalar_resources rs /\ no_twin_disks rs
  | AddSlave slaveId q => agentResourceQuantities s !! slaveId = None /\ wf_quantities q
  | RemoveSlave slaveId => is_Some (agentResourceQuantities s !! slaveId)
  end.

Lemma agents_delete (m : gmap string entries) g q n :
  m !! g = Some q ->
  zsum (fun x => Quantities.get x.2 n) (map_to_list m)
  = Quantities.get q n + zsum (fun x => Quantities.get x.2 n) (map_to_list (delete g m)).
Proof. intros H. by rewrite (zsum_perm _ _ _ (symmetry (map_to_list_delete m g q H))), zsum_cons. Qed.

Lemma agent_quantities s g q :
  sorter_books s -> agentResourceQuantities s !! g = Some q ->
  (forall n, Quantities.get q n <= Quantities.get (total s) n) /\ Quantities.contains (total s) q = true.
Proof.
  intros Hs Hq. assert (Hw := sb_agents s Hs g q Hq).
  assert (Hle : forall n, Quantities.get q n <= Quantities.get (total s) n).
  { intros n. rewrite (sb_sum s Hs), (agents_delete _ g q) by done.
    assert (0 <= zsum (fun x => Quantities.get x.2 n) (map_to_list (delete g (agentResourceQuantities s)))); [|lia].
    apply zsum_nonneg. intros [g' q'] H%elem_of_map_to_list. apply lookup_delete_Some in H as [_ H].
    apply get_nonneg. by apply (sb_agents s Hs g'). }
  split; [done|]. by apply contains_get; [apply (sb_total s Hs)|..].
Qed.

Lemma permitted_enabled s c : sorter_books s -> permitted s c -> enabled s c.
Proof.
  intros Hs Hp. assert (Hi := sb_inv s Hs). assert (Ha := sb_accounted s Hs). destruct c; cbn in *; try done.
  - split; [done|]. by apply accounted_releasable.
  - destruct Hp as (H1 & H2 & _). split; [done|apply (sc_wf _ H2)].
  - destruct Hp as (H1 & H2 & H3 & H4). split; [by eapply holds_client|]. intros q m Hl.
    eapply Forall_impl; [by apply (holds_along s cp slaveId oldAllocation q m)|]. intros d (B1 & B2 & B3).
    destruct (update_books slaveId oldAllocation newAllocation (allocation d)) as (a & -> & _); [done..|]. by eexists.
  - destruct Hp as (H1 & H2 & H3). split; [by eapply holds_client|]. intros q m Hl.
    eapply Forall_impl; [by apply (holds_along s cp slaveId rs q m)|]. intros d (B1 & B2 & B3).
    destruct (subtract_books slaveId rs (allocation d)) as (a & -> & _); [done..|]. by eexists.
  - by destruct Hp.
  - destruct Hp as [q Hq]. exists q. split; [done|]. by eapply agent_quantities.
Qed.

(** *** Every call keeps the books *)

Lemma climb_keeps s cp f settle d (delta : string -> Resource -> Z) s' :
  sorter_inv s -> accounted (root s) -> is_Some (client_map s !! cp) -> checks s cp f -> settles settle ->
  (forall a a', books a -> f a = Some a' -> books a' /\ forall g k, wf_resource k -> held a' g k = held a g k + delta g k) ->
  (loc ← find_client s cp; r ← climb loc f settle (root s); Some (with_tree d r (clients s) s)) = Some s' ->
  accounted (root s') /\ total s' = total s /\ agentResourceQuantities s' = agentResourceQuantities s.
Proof.
  intros Hs Ha Hc Hg Hset Hf. destruct (find_present s cp Hs Hc) as (q & m & Hl). rewrite (locate _ _ _ _ Hl).
  specialize (Hg q m Hl). cbn [mbind option_bind].
  destruct (climb q f settle (root s)) as [r|] eqn:Er; [|done]. cbn [mbind option_bind]. intros H. apply (inj Some) in H. subst s'. split; [|done]. cbn.
  by eapply (climb_accounted f settle delta q [] (root s) m r Hset Hf (si_wf s Hs) Ha (lo_node _ _ _ _ Hl) (lo_kind _ _ _ _ Hl)).
Qed.

Lemma add_keeps s cp s' :
  sorter_inv s -> accounted (root s) -> client_map s !! cp = None -> valid_client cp -> add s cp = Some s' ->
  accounted (root s') /\ total s' = total s /\ agentResourceQuantities s' = agentResourceQuantities s.
Proof.
  intros Hs Ha Hc Hv. unfold add. case_bool_decide as E0; [done|].
  destruct (descend [] (split cp "/") (root s)) as [a|] eqn:E; [|done]. cbn [mbind option_bind].
  destruct (moved a); [done|]. destruct (check_leaf _ _ _); [|done]. cbn [mbind option_bind].
  case_bool_decide as E1; [done|]. intros H. apply (inj Some) in H. subst s'. split; [|done].
  eapply (descend_accounted (split cp "/") [] (root s) a); try done;
    [apply (si_wf s Hs)|apply split_not_nil|apply split_no_slash|].
  rewrite app_nil_l, path_of_split. apply table_none. rewrite <- (si_table s Hs). by apply eq_None_not_Some.
Qed.

Lemma remove_keeps s cp s' :
  sorter_inv s -> accounted (root s) -> is_Some (client_map s !! cp) -> remove s cp = Some s' ->
  accounted (root s') /\ total s' = total s /\ agentResourceQuantities s' = agentResourceQuantities s.
Proof.
  intros Hs Ha Hc. destruct (find_present s cp Hs Hc) as (q & m & Hl). unfold remove. rewrite (locate _ _ _ _ Hl).
  cbn [mbind option_bind]. rewrite (lo_node _ _ _ _ Hl). cbn [mbind option_bind].
  destruct (remove_at [] q _ (root s) _) as [[r c]|] eqn:E; [|done]. cbn [mbind option_bind]. intros H. apply (inj Some) in H. subst s'.
  split; [|done]. cbn [root with_tree].
  apply (remove_accounted q [] (root s) m (delete cp (clients s)) r c (si_wf s Hs) Ha (lo_node _ _ _ _ Hl)
           (lo_kind _ _ _ _ Hl) (lo_deep _ _ _ _ Hl) (others_listed s cp q m Hs Hl) E).
Qed.

Lemma set_kind_keeps s q m from to r again :
  sorter_inv s -> accounted (root s) -> node_at q (root s) = Some m -> q <> [] -> from <> INTERNAL -> to <> INTERNAL ->
  update_at q (set_kind from to) (root s) = Some (r, again) -> accounted r.
Proof.
  intros Hs Ha Hm Hq H1 H2 Hu.
  eapply (update_accounted (set_kind from to) q [] (root s) m r again); try done; [by apply set_kind_fair| |apply (si_wf s Hs)].
  unfold set_kind. by case_bool_decide.
Qed.

Lemma updateWeight_keeps s p w s' :
  sorter_inv s -> accounted (root s) -> updateWeight s p w = Some s' ->
  accounted (root s') /\ total s' = total s /\ agentResourceQuantities s' = agentResourceQuantities s.
Proof.
  intros Hs Ha. unfold updateWeight. set (s1 := mkSorter _ true _ _ _ _ _).
  assert (Hs1 : sorter_inv s1) by (destruct Hs as [H1 H2 H3 _]; by split).
  destruct (client_map s !! p) as [b|] eqn:Ec; [|rewrite (find_absent s1 p Hs1 Ec); cbn; by intros [= <-]].
  destruct (find_present s1 p Hs1) as (q & m & Hl); [by exists b|]. rewrite (lo_find _ _ _ _ Hl). cbn [mbind option_bind].
  destruct (weight_node s1 p q m Hs1 Hl) as (m' & Hm' & Hp & Hne).
  set (q' := if bool_decide (last q = Some "."%string) then removelast q else q) in *.
  rewrite Hm'. cbn [mbind option_bind]. rewrite bool_decide_eq_true_2 by done. cbn [negb].
  destruct (update_at q' _ (root s1)) as [[r again]|] eqn:Hu; [|done]. cbn [mbind option_bind]. intros H. apply (inj Some) in H. subst s'. split; [|done].
  eapply (update_accounted (fun d => (with_weight (Some w) d, false)) q' [] (root s) m' r again); try done;
    [by split_and!; [..|left]|apply (si_wf s Hs)].
Qed.

Lemma perform_keeps s c s' :
  sorter_books s -> permitted s c -> run_call s c = Some s' ->
  accounted (root s')
  /\ (match c with AddSlave _ _ | RemoveSlave _ => True
      | _ => total s' = total s /\ agentResourceQuantities s' = agentResourceQuantities s end).
Proof.
  intros Hs Hp Hc. assert (Hi := sb_inv s Hs). assert (Ha := sb_accounted s Hs).
  assert (He := permitted_enabled s c Hs Hp). destruct c; cbn [run_call permitted enabled] in *.
  - destruct Hp. by eapply add_keeps.
  - by eapply remove_keeps.
  - destruct (find_present s cp Hi Hp) as (q & m & Hl). unfold activate in Hc. rewrite (locate _ _ _ _ Hl) in Hc.
    cbn [mbind option_bind] in Hc. rewrite (lo_node _ _ _ _ Hl) in Hc. cbn [mbind option_bind] in Hc.
    destruct (update_at q _ (root s)) as [[r again]|] eqn:Hu; [|done]. apply (inj Some) in Hc. subst s'. split; [|done].
    by eapply (set_kind_keeps s q m); [..|exact Hu]; try done; [apply (lo_node _ _ _ _ Hl)|apply (lo_deep _ _ _ _ Hl)].
  - destruct (find_present s cp Hi Hp) as (q & m & Hl). unfold deactivate in Hc. rewrite (locate _ _ _ _ Hl) in Hc.
    cbn [mbind option_bind] in Hc.
    destruct (update_at q _ (root s)) as [[r again]|] eqn:Hu; [|done]. apply (inj Some) in Hc. subst s'. split; [|done].
    by eapply (set_kind_keeps s q m); [..|exact Hu]; try done; [apply (lo_node _ _ _ _ Hl)|apply (lo_deep _ _ _ _ Hl)].
  - by eapply updateWeight_keeps.
  - destruct Hp as (H1 & H2 & H3). unfold allocated in Hc.
    eapply (climb_keeps s cp _ _ _ (delta_on slaveId (amount_held rs)) s' Hi Ha H1); [| | |exact Hc].
    + intros q m _. apply Forall_forall. intros d _. by apply allocation_add_total; destruct He.
    + apply settle_sorted_settles.
    + intros a a'. by apply add_effect.
  - destruct Hp as (H1 & H2 & H3 & H4), He as [He1 He2]. unfold update in Hc.
    eapply (climb_keeps s cp _ _ _ _ s' Hi Ha He1 He2 replace_settles); [|exact Hc].
    intros a a'. by apply (update_effect slaveId oldAllocation newAllocation a a').
  - destruct Hp as (H1 & H2 & H3), He as [He1 He2]. unfold unallocated in Hc.
    eapply (climb_keeps s cp _ _ _ _ s' Hi Ha He1 He2 replace_settles); [|exact Hc].
    intros a a'. by apply (subtract_effect slaveId rs a a').
  - unfold addSlave in Hc. destruct (bool_decide _); [done|]. apply (inj Some) in Hc. by subst s'.
  - unfold removeSlave in Hc. destruct (_ !! slaveId); [|done]. cbn in Hc. destruct (negb _); [done|].
    apply (inj Some) in Hc. by subst s'.
  - unfold sort in Hc. destruct (listClients _); [|done]. cbn in Hc. apply (inj Some) in Hc. subst s'.
    destruct (dirty s); [|done]. split; [|done]. eapply sortTree_accounted; [apply (si_wf s Hi)|done].
Qed.

Lemma perform_books s c :
  sorter_books s -> permitted s c ->
  exists s', run_call s c = Some s' /\ sorter_books s' /\ client_map s' = call_spec (client_map s) c.
Proof.
  intros Hs Hp. assert (Hi := sb_inv s Hs).
  destruct (perform_ok s c Hi (permitted_enabled s c Hs Hp)) as (s' & Hc & Hi' & Hm).
  exists s'. split_and!; [done| |done]. destruct (perform_keeps s c s' Hs Hp Hc) as [Ha Ht].
  assert (Hs0 := Hs). destruct Hs as [_ _ T1 T2 T3].
  destruct c; lazymatch type of Ht with
              | _ /\ _ => destruct Ht as [E1 E2]; split; rewrite ?E1, ?E2; done
              | _ => idtac
              end.
  - cbn [permitted run_call] in Hp, Hc. destruct Hp as [Hn Hw]. unfold addSlave in Hc.
    rewrite bool_decide_eq_false_2 in Hc by (rewrite Hn; apply is_Some_None). apply (inj Some) in Hc. subst s'.
    split; cbn [total agentResourceQuantities]; [done|done|by apply wf_plus| |].
    + intros g q'. rewrite lookup_insert_Some. intros [[_ <-]|[_ H]]; [done|by apply (T2 g)].
    + intros n. rewrite get_plus by (apply T1 || apply Hw). rewrite T3.
      rewrite (zsum_perm _ _ _ (map_to_list_insert _ _ _ Hn)), zsum_cons. cbn [snd]. lia.
  - cbn [permitted run_call] in Hp, Hc. destruct Hp as [q Hq]. unfold removeSlave in Hc. rewrite Hq in Hc. cbn in Hc.
    destruct (agent_quantities s slaveId q) as [Hle Hcon]; [done|done|]. rewrite Hcon in Hc. cbn in Hc.
    apply (inj Some) in Hc. subst s'. split; cbn [total agentResourceQuantities]; [done|done|by apply wf_minus| |].
    + intros g q'. rewrite lookup_delete_Some. intros [_ H]. by apply (T2 g).
    + intros n. rewrite get_minus by (done || by apply (T2 slaveId)). specialize (Hle n). rewrite T3 in *.
      rewrite (agents_delete _ slaveId q) in * by done. lia.
Qed.

Fixpoint permitted_all (s : Sorter) (l : list Call) : Prop :=
  match l with
  | [] => True
  | c :: l' => permitted s c /\ forall s', run_call s c = Some s' -> permitted_all s' l'
  end.

Lemma new_sorter_books exclude : sorter_books (new_sorter exclude).
Proof.
  split; cbn; [apply new_sorter_inv| |apply wf_empty| |done].
  - split; cbn; [apply no_books|done|constructor].
  - intros g q. by rewrite lookup_empty.
Qed.

Lemma perform_all_books s l :
  sorter_books s -> permitted_all s l ->
  exists s', run_calls s l = Some s' /\ sorter_books s' /\ client_map s' = fold_left call_spec l (client_map s).
Proof.
  revert s. induction l as [|c l IH]; intros s Hs; cbn; [by exists s|]. intros [Hp Hl].
  destruct (perform_books s c Hs Hp) as (s1 & E & Hs1 & <-). rewrite E. cbn. apply IH; [done|]. by apply Hl.
Qed.

(** C24. A sorter that is called in order with unshared scalar resources never
    fails a check.  Called in order means: clients are added once under names
    without ".", removed, activated and charged while they are there, and give up
    only what they hold themselves; agents are added once and removed while they
    are there.  Of the resources it is required that they are valid, scalar and
    not shared, that an allocation is not empty, and that what is given up or
    updated holds no two disks that differ only in an identity the sum ignores
    ([no_twin_disks]); shared resources do break a check, see
    [shared_update_fails_check].  The clients are then those of the calls, with
    the active ones marked, and the books balance: at every agent each node holds
    what its children hold, and the totals of a node and of the agents are the
    sums of the entries. *)
Theorem sorter_never_aborts exclude l :
  permitted_all (new_sorter exclude) l ->
  exists s, run_calls (new_sorter exclude) l = Some s /\ sorter_books s
    /\ client_map s = fold_left call_spec l ∅.
Proof. intros Hl. apply (perform_all_books _ l (new_sorter_books exclude) Hl). Qed.

(** The books in numbers: the client "a" becomes a group with "a/b", both get
    resources and "a" is removed while it still holds some. *)
Definition accounts_calls : list Call :=
  [AddSlave "agent" [("cpus"%string, 10000)]; Add "a"; Activate "a"; Allocated "a" "agent" (held_cpus 3000); Add "a/b";
   Allocated "a/b" "agent" (held_cpus 2000); Sort; Unallocated "a" "agent" (held_cpus 1000);
   Updated "a/b" "agent" (held_cpus 2000) (held_cpus 1500); Remove "a"; RemoveSlave "agent"].

Lemma held_cpus_scalar z : 0 < z -> scalar_resources (held_cpus z) /\ no_twin_disks (held_cpus z) /\ held_cpus z <> [].
Proof.
  intros Hz. assert (Hw := held_cpus_wf z Hz). assert (E : held_cpus z = [mkResource_ (cpus_ z) None]).
  { unfold held_cpus, of_list, plus_resource, plus_resource_. cbn. unfold Resources.add. cbn.
    destruct z as [|z|z]; [lia|done|lia]. }
  split_and!; [|by rewrite E|by rewrite E]. split; [done|rewrite E..]; (constructor; [done|constructor]).
Qed.

Lemma holds_intro s cp g rs :
  (match client_allocation s cp with
   | Some a => match resources a !! g with Some cur => Resources.contains cur rs | None => false end
   | None => false
   end) = true -> holds s cp g rs.
Proof.
  unfold holds. destruct (client_allocation s cp) as [a|]; [|done].
  destruct (resources a !! g) as [cur|] eqn:E; [|done]. intros H. by exists a, cur.
Qed.

Ltac next_permitted := split; [cbn [permitted]|intros ? Hnext; vm_compute in Hnext; injection Hnext as <-].

Lemma accounts_permitted : permitted_all (new_sorter None) accounts_calls.
Proof.
  assert (Hc : forall z, 0 < z -> scalar_resources (held_cpus z) /\ no_twin_disks (held_cpus z) /\ held_cpus z <> [])
    by apply held_cpus_scalar.
  unfold accounts_calls.
  next_permitted. { split; [done|]. split; [repeat constructor|]. by repeat constructor. }
  next_permitted. { split; [by vm_compute|]. apply (bool_decide_unpack _). by vm_compute. }
  next_permitted. { eexists. by vm_compute. }
  next_permitted. { split; [eexists; by vm_compute|]. split; by apply Hc. }
  next_permitted. { split; [by vm_compute|]. apply (bool_decide_unpack _). by vm_compute. }
  next_permitted. { split; [eexists; by vm_compute|]. split; by apply Hc. }
  next_permitted; [done|].
  next_permitted. { split; [apply holds_intro; by vm_compute|]. split; by apply Hc. }
  next_permitted. { split; [apply holds_intro; by vm_compute|]. split_and!; by apply Hc. }
  next_permitted. { eexists. by vm_compute. }
  next_permitted. { eexists. by vm_compute. }
  done.
Qed.

Lemma sorter_never_aborts_witness :
  permitted_all (new_sorter None) accounts_calls
  /\ exists s, run_calls (new_sorter None) accounts_calls = Some s /\ sorter_books s
     /\ client_map s = {[ "a/b"%string := false ]}.
Proof.
  split; [apply accounts_permitted|].
  destruct (sorter_never_aborts None accounts_calls accounts_permitted) as (s & H1 & H2 & H3).
  exists s. split_and!; [done..|]. rewrite H3. by vm_compute.
Defined.

(** Shared resources are outside of it: [Allocation::update] takes the quantities
    of the old allocation off the totals even if another client still holds the
    shared volume, and the node above both can then not give it up. *)
Definition shared_held : Resources :=
  [mkResource_ (mkResource "disk" (VScalar 1000) None [mkReservation (Some DYNAMIC) (Some "r"%string) None None]
     (Some (mkDiskInfo (Some ("p"%string, None)) None None)) false true None) (Some 1)].

Theorem shared_update_fails_check :
  is_Some (run_calls (new_sorter None)
    [AddSlave "agent" [("disk"%string, 1000)]; Add "a"; Add "b"; Allocated "a" "agent" shared_held;
     Allocated "b" "agent" shared_held; Updated "a" "agent" shared_held (held_cpus 1000)])
  /\ run_calls (new_sorter None)
    [AddSlave "agent" [("disk"%string, 1000)]; Add "a"; Add "b"; Allocated "a" "agent" shared_held;
     Allocated "b" "agent" shared_held; Updated "a" "agent" shared_held (held_cpus 1000);
     Unallocated "b" "agent" shared_held] = None.
Proof. split; [eexists; vm_compute; reflexivity|vm_compute; reflexivity]. Qed.
