(* ===== verification/SorterHoldings.v ===== *)
(** * What each client of a sorter holds

    The books of [SorterAccounts.v] say that every node holds what its children
    hold.  Here the allocations are told apart by client: a call of the DRF
    sorter changes what one client holds on one agent and nothing else. *)

From stdpp Require Import base gmap strings list.
From Stdlib Require Import ZArith QArith.
From S2P Require Import Prelude Strings Roles Ranges Scalar Values Quantities Registry Resource Resources ResourceOps Quota SorterTree DrfSorter SorterAccounts.
Local Open Scope Z_scope.

(** What the leaf of the client [p] holds, if it is at or below a node. *)
Fixpoint holding (p : string) (here : location) (n : Node) (g : string) (k : Resource) : Z :=
  match n with
  | node d l =>
      match kind d with
      | INTERNAL => zsum (fun c => holding p (here ++ [node_name c]) c g k) l
      | _ => if decide (client_of here = p) then held (allocation d) g k else 0
      end
  end.

Definition holding_below (p : string) (here : location) (g : string) (k : Resource) (c : Node) : Z :=
  holding p (here ++ [node_name c]) c g k.

Lemma holding_internal p here n g k :
  node_kind n = INTERNAL -> holding p here n g k = zsum (holding_below p here g k) (children n).
Proof. destruct n as [d l]. unfold node_kind. cbn. by intros ->. Qed.

Lemma holding_leaf p here n g k :
  node_kind n <> INTERNAL -> holding p here n g k = if decide (client_of here = p) then node_held n g k else 0.
Proof. destruct n as [d l]. unfold node_kind. cbn. by destruct (kind d). Qed.

Lemma holding_same p here c c' g k : same_node c c' -> holding p here c' g k = holding p here c g k.
Proof.
  intros [E1 E2 E3 E4 E5]. destruct (decide (node_kind c = INTERNAL)) as [Hk|Hk].
  - rewrite !holding_internal by congruence. by rewrite E5.
  - rewrite !holding_leaf by congruence. unfold node_held. by rewrite E4.
Qed.

(** *** Where a client is *)

Lemma holding_absent p here n g k : p ∉ map leaf_client (leaves here n) -> holding p here n g k = 0.
Proof.
  revert here. induction n as [d l IH] using tree_ind. intros here Hp. destruct (decide (kind d = INTERNAL)) as [Hk|Hk].
  - rewrite holding_internal by done. rewrite leaves_internal in Hp by done. cbn [children] in *. rewrite Forall_forall in IH.
    transitivity (zsum (fun _ : Node => 0) l); [|induction l; [done|]; rewrite zsum_cons, IHl; [done|..]].
    + apply zsum_ext. intros c Hc. apply (IH c Hc). intros (x & -> & Hx)%list_elem_of_fmap_1. apply Hp.
      apply list_elem_of_fmap_2. by eapply leaves_below_elem.
    + intros c Hc. apply IH. by right.
    + intros (x & -> & Hx)%list_elem_of_fmap_1. apply Hp. apply list_elem_of_fmap_2. unfold leaves_below in *. cbn. apply elem_of_app. by right.
  - rewrite holding_leaf by done. rewrite leaves_leaf in Hp by done. cbn in Hp. rewrite decide_False; [done|]. intros E. apply Hp. rewrite E. by left.
Qed.

Lemma holding_at loc here n m g k :
  wf_node here n -> distinct (leaves here n) -> node_at loc n = Some m -> node_kind m <> INTERNAL ->
  holding (client_of (here ++ loc)) here n g k = node_held m g k.
Proof.
  revert here n. induction loc as [|t loc IH]; intros here n Hw Hd Hm Hk; cbn in Hm.
  - injection Hm as ->. rewrite app_nil_r, holding_leaf by done. by rewrite decide_True.
  - destruct (find_child t (children n)) as [c|] eqn:Ec; [|done]. cbn in Hm.
    destruct (wf_child _ _ _ _ Hw Ec) as (Hi & Ename & Hin & Hc). rewrite holding_internal by done.
    rewrite leaves_internal in Hd by done. apply elem_of_Permutation in Hin as [l0 Hp].
    rewrite (zsum_perm _ _ _ Hp), zsum_cons. unfold distinct in Hd. rewrite (leaves_below_perm here _ _ Hp) in Hd.
    cbn in Hd. rewrite Ename, map_app in Hd. apply NoDup_app in Hd as (D1 & D2 & _).
    assert (E : here ++ t :: loc = (here ++ [t]) ++ loc) by (by rewrite <- app_assoc). unfold holding_below at 1. rewrite Ename, E, (IH _ c Hc D1 Hm Hk).
    enough (zsum (holding_below (client_of ((here ++ [t]) ++ loc)) here g k) l0 = 0) by lia.
    assert (Hl : client_of ((here ++ [t]) ++ loc) ∈ map leaf_client (leaves (here ++ [t]) c)).
    { change (client_of ((here ++ [t]) ++ loc)) with (leaf_client (client_of ((here ++ [t]) ++ loc), (here ++ [t]) ++ loc, node_kind m)).
      apply list_elem_of_fmap_2. apply leaves_node_at; [done|]. by exists loc, m. }
    specialize (D2 _ Hl). clear -D2. induction l0 as [|x l0 IH]; [done|]. cbn in D2. rewrite map_app, not_elem_of_app in D2.
    destruct D2. rewrite zsum_cons, IH by done. unfold holding_below. by rewrite holding_absent.
Qed.

Lemma holding_swapped p here g k c c' l l' :
  swapped c c' l l' -> zsum (holding_below p here g k) l'
  = zsum (holding_below p here g k) l - holding_below p here g k c + holding_below p here g k c'.
Proof. apply zsum_swapped. Qed.

(** ** The changes of the tree *)

Lemma holding_climb p f settle (delta : string -> Resource -> Z) loc here n m n' g k :
  settles settle -> wf_resource k ->
  (forall a a', books a -> f a = Some a' -> books a' /\ forall g k, wf_resource k -> held a' g k = held a g k + delta g k) ->
  wf_node here n -> accounted n -> node_at loc n = Some m -> node_kind m <> INTERNAL ->
  Forall (fun d => is_Some (f (allocation d))) (along loc n) ->
  climb loc f settle n = Some n' ->
  holding p here n' g k = holding p here n g k + if decide (client_of (here ++ loc) = p) then delta g k else 0.
Proof.
  intros Hset Hwk Hf. revert here n n'. induction loc as [|t loc IH]; intros here n n' Hw Hn Hm Hkm Hg; cbn in Hm.
  - injection Hm as ->. cbn. destruct (f (allocation (data m))) as [a|] eqn:Ea; [|done]. cbn. intros [= <-].
    destruct (Hf _ _ (ac_books m Hn) Ea) as [B1 B2]. rewrite app_nil_r, !holding_leaf by done.
    unfold node_held. cbn. rewrite B2 by done. destruct (decide _); lia.
  - destruct (find_child t (children n)) as [c|] eqn:Ec; [|done]. cbn in Hm.
    cbn in Hg. rewrite Ec in Hg. apply Forall_cons in Hg as [_ Hg].
    destruct (wf_child _ _ _ _ Hw Ec) as (Hi & Ename & Hin & Hc). assert (Hb := ac_below n Hn).
    assert (Hac : accounted c) by (rewrite Forall_forall in Hb; by apply Hb).
    destruct (climb_spec f settle loc (here ++ [t]) c m Hset Hc Hm Hg) as (c' & Hu & _ & Hname & Hkind & _).
    assert (Hd' := IH _ _ _ Hc Hac Hm Hkm Hg Hu).
    cbn. destruct (f (allocation (data n))) as [a|] eqn:Ea; [|done]. cbn. rewrite Ec. cbn. rewrite Hu. cbn.
    assert (Et : t = node_name c') by congruence. rewrite Et in Ec. assert (Hs := wf_shape _ _ Hw).
    destruct (Hset c c' _ (sh_names _ _ _ Hs) (sh_order _ _ _ Hs) Ec Hkind) as (l' & c'' & -> & Hsame & Hsw & _). cbn.
    intros [= <-]. rewrite !holding_internal by done. cbn [children]. rewrite (holding_swapped _ _ _ _ _ _ _ _ Hsw).
    unfold holding_below at 2 3. rewrite (sn_name _ _ Hsame), (holding_same _ _ _ _ _ _ Hsame), Ename, <- Et, Hd', <- app_assoc. cbn. lia.
Qed.

Lemma holding_update p f loc here n m n' again g k :
  fair_change (data m) (f (data m)) -> allocation (f (data m)).1 = allocation (data m) ->
  wf_node here n -> node_at loc n = Some m -> here ++ loc <> [] ->
  update_at loc f n = Some (n', again) -> holding p here n' g k = holding p here n g k.
Proof.
  intros Hfair Hal. revert here n n' again. induction loc as [|t loc IH]; intros here n n' again Hw Hm Hne; cbn in Hm.
  - injection Hm as ->. cbn. destruct (f (data m)) as [d ag]. cbn in *. intros [= <- <-]. destruct Hfair as (_ & _ & Hk). cbn in Hk.
    destruct (decide (node_kind m = INTERNAL)) as [Em|Em].
    + rewrite !holding_internal; [done|done|]. unfold node_kind in *. cbn. destruct Hk as [->|(_ & H & _)]; done.
    + rewrite !holding_leaf; [|done|]; [|unfold node_kind in *; cbn; destruct Hk as [->|(_ & _ & H)]; done]. unfold node_held. cbn. by rewrite Hal.
  - destruct (find_child t (children n)) as [c|] eqn:Ec; [|done]. cbn in Hm.
    destruct (wf_child _ _ _ _ Hw Ec) as (Hi & Ename & Hin & Hc).
    destruct (update_at_spec f loc (here ++ [t]) c m Hc Hm) as (c' & ag & _ & Hu & _ & Hname & _); [by destruct here|done|].
    assert (G := IH _ _ _ _ Hc Hm ltac:(by destruct here) Hu).
    cbn [update_at]. rewrite Ec. cbn [mbind option_bind]. rewrite Hu. cbn [mbind option_bind].
    assert (Et : t = node_name c') by congruence. rewrite Et in Ec. assert (Hnames := sh_names _ _ _ (wf_shape _ _ Hw)).
    assert (Hl : exists l', (if ag then readd c' (children n) else replace_child c' (children n)) = Some l'
              /\ swapped c c' (children n) l').
    { destruct ag; [destruct (readd_swapped c c' _ Hnames Ec) as (l' & H1 & H2 & _)
                   |destruct (replace_child_swapped c c' _ Ec) as (l' & H1 & H2)]; by exists l'. }
    destruct Hl as (l' & -> & Hs). cbn. intros [= <- <-]. rewrite !holding_internal by done. cbn [children].
    rewrite (holding_swapped _ _ _ _ _ _ _ _ Hs). unfold holding_below at 2 3. rewrite Ename, <- Et, G. lia.
Qed.

Lemma holding_sorted p s here n g k : wf_node here n -> holding p here (sortTree s n) g k = holding p here n g k.
Proof.
  revert here. induction n as [d l IH] using tree_ind. intros here Hw.
  assert (Ho := sh_order _ _ _ (wf_shape _ _ Hw)). assert (Hb := wf_below _ _ Hw). cbn [children] in Ho, Hb.
  rewrite Forall_forall in IH, Hb. destruct (decide (kind d = INTERNAL)) as [Hk|Hk].
  2:{ rewrite !holding_leaf; [unfold node_held; by rewrite sortTree_data|done|unfold node_kind; by rewrite sortTree_data]. }
  cbn [sortTree]. rewrite map_front_eq by done. set (f := descend_into (sortTree s)).
  assert (Hd : forall c, data (f c) = data c) by apply descend_data.
  assert (Ho' : inactive_last (map f l)).
  { apply map_inactive_last; [|done]. intros c. unfold node_kind. by rewrite Hd. }
  assert (Hp := sort_children_perm s (map f l) Ho'). rewrite map_map in Hp.
  rewrite !holding_internal by done. cbn [children]. rewrite (zsum_perm _ _ _ Hp).
  assert (E : forall c, c ∈ l -> holding_below p here g k (freshen s (f c)) = holding_below p here g k c).
  { intros c Hc. unfold holding_below. rewrite (holding_same _ _ _ _ _ _ (freshen_same s (f c))), (sn_name _ _ (freshen_same s (f c))).
    unfold node_name at 1. rewrite Hd. fold (node_name c). unfold f, descend_into. case_bool_decide; [|done]. apply IH; [done|]. by apply Hb. }
  clear -E. induction l as [|c l IH]; [done|]. cbn [map]. rewrite !zsum_cons, IH by (intros x Hx; apply E; by right). by rewrite E by left.
Qed.

(** *** Adding a client *)

Lemma holding_push p here n c g k :
  node_kind n = INTERNAL -> holding p here (node (data n) (push_child c (children n))) g k
  = holding p here n g k + holding_below p here g k c.
Proof.
  intros Hk. rewrite !holding_internal by done. cbn [children]. rewrite (zsum_perm _ _ _ (push_child_perm c _)), zsum_cons. lia.
Qed.

Lemma holding_new p here b d t k0 g k : holding p here (node (new_data b d t k0) []) g k = 0.
Proof. destruct k0; cbn; [destruct (decide _); done..|done]. Qed.

Lemma holding_grow p tokens here n g k :
  node_kind n = INTERNAL -> holding p here (grow here tokens n) g k = holding p here n g k.
Proof.
  revert here n. induction tokens as [|t rest IH]; intros here n Hk; cbn [grow]; [done|]. rewrite holding_push by done.
  enough (holding_below p here g k (grow (here ++ [t]) rest (node (new_data (at_root here) (data n) t match rest with [] => INACTIVE_LEAF | _ => INTERNAL end) [])) = 0) by lia.
  unfold holding_below. destruct rest as [|t' rest]; [cbn [grow]; apply holding_new|].
  replace (node_name _) with t by (unfold node_name; by rewrite grow_data). rewrite IH by done. apply holding_new.
Qed.

Lemma holding_descend p tokens here n a g k :
  wf_node here n -> is_virtual here = false -> here ++ tokens <> [] ->
  Forall no_slash tokens -> Forall (fun t => t <> "."%string) tokens ->
  path_of (here ++ tokens) ∉ map leaf_client (leaves here n) ->
  descend here tokens n = Some a -> holding p here (added a) g k = holding p here n g k.
Proof.
  revert here n a. induction tokens as [|t rest IH]; intros here n a Hw Hv Hne Hs Hd Hnew.
  { cbn. intros [= <-]. cbn [added]. destruct (decide (node_kind n = INTERNAL)) as [Hk|Hk].
    - rewrite holding_push by done. unfold holding_below. rewrite holding_new. lia.
    - exfalso. apply Hnew. rewrite app_nil_r, leaves_leaf by done. cbn. rewrite client_of_plain by done. by left. }
  assert (HS := descend_spec (t :: rest) here n Hw Hv Hne Hs Hd Hnew).
  cbn [descend] in *. rewrite (isLeaf_wf here n Hw) in *. cbn [mbind option_bind] in *.
  case_bool_decide as Hk; cbn [negb] in *.
  - destruct (find_child t (children n)) as [c|] eqn:Ec; [|intros [= <-]; cbn [added]; by apply (holding_grow p (t :: rest))].
    clear HS. destruct (wf_child _ _ _ _ Hw Ec) as (_ & Ename & Hin & Hc).
    apply Forall_cons in Hs as [_ Hs], Hd as [Ht Hd].
    assert (Hv' : is_virtual (here ++ [t]) = false) by (rewrite is_virtual_snoc; by apply bool_decide_eq_false).
    assert (Hnew' : path_of ((here ++ [t]) ++ rest) ∉ map leaf_client (leaves (here ++ [t]) c)).
    { rewrite <- app_assoc. cbn. intros (x & Ex & Hx)%list_elem_of_fmap_1. apply Hnew. rewrite Ex.
      apply list_elem_of_fmap_2. rewrite leaves_internal by done. eapply leaves_below_elem; [exact Hin|by rewrite Ename]. }
    destruct (descend_spec rest (here ++ [t]) c Hc Hv') as (a1 & Ha1 & D); [by destruct here|done..|].
    assert (G := IH _ _ _ Hc Hv' ltac:(by destruct here) Hs Hd Hnew' Ha1).
    rewrite Ha1. cbn [mbind option_bind]. assert (Et : node_name (added a1) = t) by (rewrite (de_name _ _ _ _ D); congruence).
    rewrite <- Et in Ec. assert (Hnames := sh_names _ _ _ (wf_shape _ _ Hw)).
    assert (Hl : exists l', (if moved a1 then readd (added a1) (children n) else replace_child (added a1) (children n)) = Some l'
              /\ swapped c (added a1) (children n) l').
    { destruct (moved a1); [destruct (readd_swapped c (added a1) _ Hnames Ec) as (l' & H1 & H2 & _)
                   |destruct (replace_child_swapped c (added a1) _ Ec) as (l' & H1 & H2)]; by exists l'. }
    destruct Hl as (l' & -> & Hsw). cbn. intros [= <-]. cbn [added]. rewrite !holding_internal by done. cbn [children].
    rewrite (holding_swapped _ _ _ _ _ _ _ _ Hsw). unfold holding_below at 2 3. rewrite Et, Ename, G. lia.
  - destruct (clientPath _ _); [|done]. clear HS. cbn [mbind option_bind]. intros H. apply (inj Some) in H. subst a. cbn [added].
    set (virt := node _ []). change (grow here (t :: rest) ?x) with (grow here (t :: rest) x). rewrite holding_grow by done.
    rewrite (holding_leaf p here n) by done. rewrite (sh_leaf _ _ _ (wf_shape _ _ Hw) Hk). rewrite holding_internal by done.
    cbn [children]. rewrite (zsum_perm _ _ _ (push_child_perm virt [])), zsum_cons. unfold holding_below.
    rewrite holding_leaf by done. change (node_name virt) with "."%string. rewrite client_of_virtual, client_of_plain by done.
    unfold node_held. cbn. destruct (decide _); lia.
Qed.

(** *** Removing a client *)

Lemma holding_tidy p here c c' l cl l' cl' g k :
  NoDup (map node_name l) -> find_child (node_name c') l = Some c -> node_name c = node_name c' ->
  is_virtual (here ++ [node_name c']) = false \/ children c' = [] ->
  (node_kind c' = INTERNAL -> node_held c' g k = zsum (fun c => node_held c g k) (children c')) ->
  (children c' <> [] -> node_kind c' = INTERNAL) ->
  tidy (here ++ [node_name c']) c' l cl = Some (l', cl') ->
  zsum (holding_below p here g k) l'
  = zsum (holding_below p here g k) l - holding_below p here g k c + match children c' with [] => 0 | _ => holding_below p here g k c' end.
Proof.
  intros Hn Hf Ename Hv Hsum Hint. unfold tidy.
  assert (Hrep : (l ← replace_child c' l; Some (l, cl)) = Some (l', cl') ->
    zsum (holding_below p here g k) l' = zsum (holding_below p here g k) l - holding_below p here g k c + holding_below p here g k c').
  { destruct (replace_child_swapped c c' l Hf) as (l1 & -> & Hs). cbn. intros [= <- <-]. by apply holding_swapped. }
  destruct (children c') as [|child [|child2 rest]] eqn:Ech; [| |done].
  - rewrite remove_find by (by rewrite Hf). cbn. intros [= <- <-]. unfold find_child in Hf.
    rewrite (zsum_perm _ _ _ (erase_first_perm node_name _ _ _ Hf)), zsum_cons. lia.
  - case_bool_decide as Hdot; [|done]. destruct (isLeaf child) as [leaf|] eqn:El; [|done]. cbn.
    destruct leaf; [|done]. cbn. destruct (bool_decide _); [|done]. cbn.
    set (c'' := node (with_kind (node_kind child) (data c')) []).
    destruct (readd_swapped c c'' l Hn Hf) as (l1 & -> & Hs & _). cbn. intros [= <- <-].
    rewrite (holding_swapped _ _ _ _ _ _ _ _ Hs). f_equal. unfold holding_below. change (node_name c'') with (node_name c').
    assert (Hleaf : node_kind child <> INTERNAL) by (unfold isLeaf in El; by destruct (node_kind child)).
    rewrite (holding_leaf p _ c'') by done. rewrite (holding_internal p _ c') by (by apply Hint). rewrite Ech.
    unfold zsum. cbn [foldr]. unfold holding_below. rewrite holding_leaf by done. rewrite Hdot, client_of_virtual.
    destruct Hv as [Hv|Hv]; [|done]. rewrite client_of_plain by done. specialize (Hsum ltac:(by apply Hint)).
    unfold zsum in Hsum. cbn [foldr] in Hsum. unfold node_held in Hsum |- *. change (allocation (data c'')) with (allocation (data c')).
    destruct (decide _); lia.
Qed.

Lemma holding_remove p loc here n m cl n' cl' g k :
  wf_resource k -> wf_node here n -> accounted n -> node_at loc n = Some m -> node_kind m <> INTERNAL -> loc <> [] ->
  (forall x, x ∈ leaves here n -> leaf_location x <> here ++ loc -> cl !! leaf_client x = Some (leaf_location x)) ->
  remove_at here loc (map_to_list (resources (allocation (data m)))) n cl = Some (n', cl') ->
  holding p here n' g k = holding p here n g k - if decide (client_of (here ++ loc) = p) then node_held m g k else 0.
Proof.
  intros Hwk. revert here n n' cl'. set (la := map_to_list (resources (allocation (data m)))).
  induction loc as [|t rest IH]; [done|]. intros here n n' cl' Hw Hn Hm Hk _ Ht.
  assert (Hal := along_held (t :: rest) here n m Hw Hn Hm). cbn in Hal. apply Forall_cons in Hal as [[Hbn Hle] Hal].
  assert (Ham := accounted_at (t :: rest) here n m Hw Hn Hm). cbn in Hm.
  destruct (find_child t (children n)) as [c|] eqn:Hf; [|done]. cbn in Hm.
  destruct (wf_child _ _ _ _ Hw Hf) as (Hi & Ename & Hin & Hc). assert (Hb := ac_below n Hn).
  assert (Hac : accounted c) by (rewrite Forall_forall in Hb; by apply Hb).
  assert (Hnames := sh_names _ _ _ (wf_shape _ _ Hw)).
  assert (Hr : forall c' cl1, remove_at (here ++ [t]) rest la c cl = Some (c', cl1) ->
    node_name c' = t /\ (is_virtual (here ++ [t]) = false \/ children c' = []) /\ accounted c' /\ (children c' <> [] -> node_kind c' = INTERNAL)
    /\ match children c' with [] => 0 | _ => holding_below p here g k c' end
       = holding_below p here g k c - if decide (client_of (here ++ t :: rest) = p) then node_held m g k else 0).
  { intros c' cl1 Hrem. destruct rest as [|t' rest].
    - cbn in Hrem, Hm. injection Hrem as <- <-. injection Hm as ->. assert (E := sh_leaf _ _ _ (wf_shape _ _ Hc) Hk).
      split_and!; [done|by right|done|by rewrite E|]. rewrite E. unfold holding_below. rewrite Ename, holding_leaf by done. destruct (decide _); lia.
    - assert (Ht' : forall x, x ∈ leaves (here ++ [t]) c -> leaf_location x <> (here ++ [t]) ++ t' :: rest ->
                      cl !! leaf_client x = Some (leaf_location x)).
      { intros x Hx Hl. apply Ht; [|intros E; apply Hl; by rewrite <- app_assoc].
        rewrite leaves_internal by done. eapply leaves_below_elem; [exact Hin|by rewrite Ename]. }
      assert (G := IH _ _ _ _ Hc Hac Hm Hk ltac:(done) Ht' Hrem).
      destruct (remove_accounted (t' :: rest) (here ++ [t]) c m cl c' cl1 Hc Hac Hm Hk ltac:(done) Ht' Hrem) as [G1 _].
      destruct (remove_at_spec la (t' :: rest) (here ++ [t]) c m cl Hc Hm Hk) as (c2 & cl2 & Hrem2 & R); [done| |done|].
      { apply along_removelast. eapply Forall_impl; [exact Hal|]. intros d [Hd Hled].
        destruct (leaf_subtracts m (allocation d) (ac_books m Ham) Hd Hled) as (x & Ex & _). unfold la. rewrite Ex. by eexists. }
      rewrite Hrem in Hrem2. injection Hrem2 as <- <-. assert (Hg := re_growing _ _ _ _ _ _ _ _ R). assert (Hkc := gr_kind _ _ Hg).
      assert (Hn' : node_name c' = t) by (by rewrite (re_name _ _ _ _ _ _ _ _ R)).
      assert (E : here ++ t :: t' :: rest = (here ++ [t]) ++ t' :: rest) by (by rewrite <- app_assoc).
      split_and!; [done| |done|done|].
      + left. destruct (is_virtual (here ++ [t])) eqn:Ev; [|done]. by destruct (sh_virtual _ _ _ (gr_shape _ _ Hg) Ev).
      + unfold holding_below. rewrite Hn', Ename, E, <- G. destruct (children c') as [|x l] eqn:Ex; [|done].
        rewrite (holding_internal p _ c') by done. by rewrite Ex. }
  cbn [remove_at]. rewrite Hf. cbn [mbind option_bind].
  destruct (remove_at (here ++ [t]) rest la c cl) as [[c' cl1]|] eqn:Erem; [|done]. cbn [mbind option_bind].
  destruct (Hr c' cl1 eq_refl) as (R1 & R2 & R3 & R4 & R5).
  destruct (subtract_all la (allocation (data n))) as [a|]; [|done]. cbn [mbind option_bind].
  destruct (tidy (here ++ [t]) c' (children n) cl1) as [[l' cl2]|] eqn:Etidy; [|done]. cbn [mbind option_bind]. intros [= <- <-].
  rewrite <- R1 in Hf, R2, Etidy.
  assert (T := holding_tidy p here c c' _ _ _ _ g k Hnames Hf ltac:(congruence) R2 (fun H => ac_sum c' R3 H g k Hwk) R4 Etidy).
  rewrite !holding_internal by done. cbn [children]. rewrite T, R5. lia.
Qed.

(** ** The calls of the sorter *)

Definition client_held (s : Sorter) (p g : string) (k : Resource) : Z := holding p [] (root s) g k.

Lemma client_held_at s cp q m g k : sorter_inv s -> located s cp q m -> client_held s cp g k = node_held m g k.
Proof.
  intros Hs Hl. unfold client_held. rewrite <- (lo_client _ _ _ _ Hl).
  apply (holding_at q [] (root s) m); [apply (si_wf s Hs)|apply (si_distinct s Hs)|apply (lo_node _ _ _ _ Hl)|apply (lo_kind _ _ _ _ Hl)].
Qed.

Lemma client_held_absent s cp g k : sorter_inv s -> client_map s !! cp = None -> client_held s cp g k = 0.
Proof.
  intros Hs Hc. apply holding_absent. apply table_none. apply eq_None_not_Some. intros H. apply table_flags in H. unfold client_map in Hc. rewrite Hc in H. by destruct H.
Qed.

(** What a call changes. *)
Definition held_spec (c : Call) (h : string -> string -> Resource -> Z) (p g : string) (k : Resource) : Z :=
  match c with
  | Remove cp => if decide (cp = p) then 0 else h p g k
  | Allocated cp slaveId rs => h p g k + if decide (cp = p) then delta_on slaveId (amount_held rs) g k else 0
  | Updated cp slaveId old new =>
      h p g k + if decide (cp = p) then delta_on slaveId (fun k => amount_held new k - amount_held old k) g k else 0
  | Unallocated cp slaveId rs => h p g k + if decide (cp = p) then delta_on slaveId (fun k => - amount_held rs k) g k else 0
  | _ => h p g k
  end.

Lemma climb_held s cp f settle d (delta : string -> Resource -> Z) s' p g k :
  sorter_inv s -> accounted (root s) -> is_Some (client_map s !! cp) -> checks s cp f -> settles settle -> wf_resource k ->
  (forall a a', books a -> f a = Some a' -> books a' /\ forall g k, wf_resource k -> held a' g k = held a g k + delta g k) ->
  (loc ← find_client s cp; r ← climb loc f settle (root s); Some (with_tree d r (clients s) s)) = Some s' ->
  client_held s' p g k = client_held s p g k + if decide (cp = p) then delta g k else 0.
Proof.
  intros Hs Ha Hc Hg Hset Hk Hf. destruct (find_present s cp Hs Hc) as (q & m & Hl). rewrite (locate _ _ _ _ Hl).
  specialize (Hg q m Hl). cbn [mbind option_bind].
  destruct (climb q f settle (root s)) as [r|] eqn:Er; [|done]. cbn [mbind option_bind]. intros H. apply (inj Some) in H. subst s'.
  assert (H := holding_climb p f settle delta q [] (root s) m r g k Hset Hk Hf (si_wf s Hs) Ha (lo_node _ _ _ _ Hl) (lo_kind _ _ _ _ Hl) Hg Er).
  cbn [app] in H. by rewrite (lo_client _ _ _ _ Hl) in H.
Qed.

Lemma kind_held s q m from to r again p g k :
  sorter_inv s -> node_at q (root s) = Some m -> q <> [] -> from <> INTERNAL -> to <> INTERNAL ->
  update_at q (set_kind from to) (root s) = Some (r, again) -> holding p [] r g k = client_held s p g k.
Proof.
  intros Hs Hm Hq H1 H2 Hu.
  eapply (holding_update p (set_kind from to) q [] (root s) m r again); try done; [by apply set_kind_fair| |apply (si_wf s Hs)].
  unfold set_kind. by case_bool_decide.
Qed.

Lemma weight_held s p0 w s' p g k :
  sorter_inv s -> updateWeight s p0 w = Some s' -> client_held s' p g k = client_held s p g k.
Proof.
  intros Hs. unfold updateWeight. set (s1 := mkSorter _ true _ _ _ _ _).
  assert (Hs1 : sorter_inv s1) by (destruct Hs as [H1 H2 H3 _]; by split).
  destruct (client_map s !! p0) as [b|] eqn:Ec; [|rewrite (find_absent s1 p0 Hs1 Ec); cbn; by intros [= <-]].
  destruct (find_present s1 p0 Hs1) as (q & m & Hl); [by exists b|]. rewrite (lo_find _ _ _ _ Hl). cbn [mbind option_bind].
  destruct (weight_node s1 p0 q m Hs1 Hl) as (m' & Hm' & Hp & Hne).
  set (q' := if bool_decide (last q = Some "."%string) then removelast q else q) in *.
  rewrite Hm'. cbn [mbind option_bind]. rewrite bool_decide_eq_true_2 by done. cbn [negb].
  destruct (update_at q' _ (root s1)) as [[r again]|] eqn:Hu; [|done]. cbn [mbind option_bind]. intros H. apply (inj Some) in H. subst s'.
  unfold client_held. cbn [root with_tree].
  eapply (holding_update p (fun d => (with_weight (Some w) d, false)) q' [] (root s) m' r again); try done;
    [by split_and!; [..|left]|apply (si_wf s Hs)].
Qed.

Lemma remove_held s cp s' p g k :
  sorter_inv s -> accounted (root s) -> is_Some (client_map s !! cp) -> wf_resource k -> remove s cp = Some s' ->
  client_held s' p g k = if decide (cp = p) then 0 else client_held s p g k.
Proof.
  intros Hs Ha Hc Hk. destruct (find_present s cp Hs Hc) as (q & m & Hl). unfold remove. rewrite (locate _ _ _ _ Hl).
  cbn [mbind option_bind]. rewrite (lo_node _ _ _ _ Hl). cbn [mbind option_bind].
  destruct (remove_at [] q _ (root s) _) as [[r c]|] eqn:E; [|done]. cbn [mbind option_bind]. intros H. apply (inj Some) in H. subst s'.
  unfold client_held. cbn [root with_tree].
  rewrite (holding_remove p q [] (root s) m (delete cp (clients s)) r c g k Hk (si_wf s Hs) Ha (lo_node _ _ _ _ Hl)
             (lo_kind _ _ _ _ Hl) (lo_deep _ _ _ _ Hl) (others_listed s cp q m Hs Hl) E).
  cbn [app]. rewrite (lo_client _ _ _ _ Hl). destruct (decide (cp = p)) as [<-|]; [|lia].
  assert (H := client_held_at s cp q m g k Hs Hl). unfold client_held in H. lia.
Qed.

(** A call of the DRF sorter changes what its client holds on its agent, by
    what is allocated to it or taken from it. *)
Lemma run_held s c s' p g k :
  sorter_books s -> permitted s c -> run_call s c = Some s' -> wf_resource k ->
  client_held s' p g k = held_spec c (client_held s) p g k.
Proof.
  intros Hs Hp Hc Hk. assert (Hi := sb_inv s Hs). assert (Ha := sb_accounted s Hs).
  assert (He := permitted_enabled s c Hs Hp). destruct c; cbn [run_call permitted enabled held_spec] in *.
  - destruct Hp as [Hc0 Hv]. unfold add in Hc. case_bool_decide as E0; [done|].
    destruct (descend [] (split cp "/") (root s)) as [a|] eqn:E; [|done]. cbn [mbind option_bind] in Hc.
    destruct (moved a); [done|]. destruct (check_leaf _ _ _); [|done]. cbn [mbind option_bind] in Hc.
    case_bool_decide as E1; [done|]. apply (inj Some) in Hc. subst s'. unfold client_held. cbn [root with_tree].
    eapply (holding_descend p (split cp "/") [] (root s) a); try done;
      [apply (si_wf s Hi)|apply split_not_nil|apply split_no_slash|].
    rewrite app_nil_l, path_of_split. apply table_none. rewrite <- (si_table s Hi). by apply eq_None_not_Some.
  - by apply remove_held.
  - destruct (find_present s cp Hi Hp) as (q & m & Hl). unfold activate in Hc. rewrite (locate _ _ _ _ Hl) in Hc.
    cbn [mbind option_bind] in Hc. rewrite (lo_node _ _ _ _ Hl) in Hc. cbn [mbind option_bind] in Hc.
    destruct (update_at q _ (root s)) as [[r again]|] eqn:Hu; [|done]. apply (inj Some) in Hc. subst s'.
    by eapply (kind_held s q m); [..|exact Hu]; try done; [apply (lo_node _ _ _ _ Hl)|apply (lo_deep _ _ _ _ Hl)].
  - destruct (find_present s cp Hi Hp) as (q & m & Hl). unfold deactivate in Hc. rewrite (locate _ _ _ _ Hl) in Hc.
    cbn [mbind option_bind] in Hc.
    destruct (update_at q _ (root s)) as [[r again]|] eqn:Hu; [|done]. apply (inj Some) in Hc. subst s'.
    by eapply (kind_held s q m); [..|exact Hu]; try done; [apply (lo_node _ _ _ _ Hl)|apply (lo_deep _ _ _ _ Hl)].
  - by eapply weight_held.
  - destruct Hp as (H1 & H2 & H3). unfold allocated in Hc.
    eapply (climb_held s cp _ _ _ (delta_on slaveId (amount_held rs)) s' p g k Hi Ha H1); [| |done| |exact Hc].
    + intros q m _. apply Forall_forall. intros d _. by apply allocation_add_total; destruct He.
    + apply settle_sorted_settles.
    + intros a a'. by apply add_effect.
  - destruct Hp as (H1 & H2 & H3 & H4), He as [He1 He2]. unfold update in Hc.
    eapply (climb_held s cp _ _ _ _ s' p g k Hi Ha He1 He2 replace_settles Hk); [|exact Hc].
    intros a a'. by apply (update_effect slaveId oldAllocation newAllocation a a').
  - destruct Hp as (H1 & H2 & H3), He as [He1 He2]. unfold unallocated in Hc.
    eapply (climb_held s cp _ _ _ _ s' p g k Hi Ha He1 He2 replace_settles Hk); [|exact Hc].
    intros a a'. by apply (subtract_effect slaveId rs a a').
  - unfold addSlave in Hc. destruct (bool_decide _); [done|]. apply (inj Some) in Hc. by subst s'.
  - unfold removeSlave in Hc. destruct (_ !! slaveId); [|done]. cbn in Hc. destruct (negb _); [done|].
    apply (inj Some) in Hc. by subst s'.
  - unfold sort in Hc. destruct (listClients _); [|done]. cbn in Hc. apply (inj Some) in Hc. subst s'.
    destruct (dirty s); [|done]. unfold client_held. cbn. apply holding_sorted, (si_wf s Hi).
Qed.
