(* ===== verification/RandomSorter.v ===== *)
(** * The random sorter

    [src/src/master/allocator/mesos/sorter/random/sorter.cpp] with its header
    and [utils.hpp]: the clients in a weighted random order.  The tree of
    clients is that of [SorterTree.v]; a node of this sorter has no share and
    an allocation of it no count, so that these stay at their initial values.
    [None] is a failed [CHECK].

    The generator is the sequence of the numbers that it will draw.  Doubles
    have no smallest positive number here (see [Scalar.v]). *)

From stdpp Require Import base gmap strings list sorting.
From Stdlib Require Import ZArith QArith Lqa.
From S2P Require Import Prelude Strings Ranges Scalar Rounding Values Quantities Registry Resource Resources ResourceOps Quota SorterTree DrfSorter SorterAccounts SorterHoldings.
Local Open Scope Z_scope.

(** ** State *)

Record SortInfo := mkSortInfo {
  sort_dirty : bool;
  sort_clients : list string;
  sort_weights : list double;
}.

Record RandomSorter := mkRandomSorter {
  sortInfo : SortInfo;
  generator : nat -> double;
  root : Node;
  clients : gmap string location;
  weights : gmap string double;
}.

Definition new_sorter (draws : nat -> double) : RandomSorter :=
  mkRandomSorter (mkSortInfo true [] []) draws (node root_data []) ∅ ∅.

(** [sortInfo.dirty = true] and a change of the tree. *)
Definition dirtied (r : Node) (c : gmap string location) (s : RandomSorter) : RandomSorter :=
  mkRandomSorter (mkSortInfo true (sort_clients (sortInfo s)) (sort_weights (sortInfo s))) (generator s) r c (weights s).
Definition with_root (r : Node) (s : RandomSorter) : RandomSorter :=
  mkRandomSorter (sortInfo s) (generator s) r (clients s) (weights s).

(** ** Clients *)

Definition find (s : RandomSorter) (cp : string) : option (option location) :=
  match clients s !! cp with
  | None => Some None
  | Some loc =>
      n ← node_at loc (root s);
      leaf ← isLeaf n;
      if leaf : bool then Some (Some loc) else None
  end.

(** [CHECK_NOTNULL(find(clientPath))]. *)
Definition find_client (s : RandomSorter) (cp : string) : option location := r ← find s cp; r.

Definition contains (s : RandomSorter) (cp : string) : option bool := r ← find s cp; Some (bool_decide (is_Some r)).
Definition client_count (s : RandomSorter) : nat := size (clients s).

Definition add (s : RandomSorter) (cp : string) : option RandomSorter :=
  if bool_decide (is_Some (clients s !! cp)) then None
  else
    a ← descend [] (split cp "/") (root s);
    if moved a then None
    else
      let clients1 := add_virtual (virtual a) (clients s) in
      _ ← check_leaf (added a) (leaf_at a) cp;
      if bool_decide (is_Some (clients1 !! cp)) then None
      else Some (dirtied (added a) (<[cp := leaf_at a]> clients1) s).

Definition remove (s : RandomSorter) (cp : string) : option RandomSorter :=
  loc ← find_client s cp;
  leaf ← node_at loc (root s);
  '(r, c) ← remove_at [] loc (map_to_list (resources (allocation (data leaf)))) (root s) (delete cp (clients s));
  Some (dirtied r c s).

Definition activate (s : RandomSorter) (cp : string) : option RandomSorter :=
  loc ← find_client s cp;
  '(r, _) ← update_at loc (set_kind INACTIVE_LEAF ACTIVE_LEAF) (root s);
  Some (dirtied r (clients s) s).

Definition deactivate (s : RandomSorter) (cp : string) : option RandomSorter :=
  loc ← find_client s cp;
  '(r, _) ← update_at loc (set_kind ACTIVE_LEAF INACTIVE_LEAF) (root s);
  Some (dirtied r (clients s) s).

Definition updateWeight (s : RandomSorter) (p : string) (w : double) : option RandomSorter :=
  let s' := mkRandomSorter (mkSortInfo true (sort_clients (sortInfo s)) (sort_weights (sortInfo s))) (generator s)
              (root s) (clients s) (<[p := w]> (weights s)) in
  found ← find s' p;
  match found with
  | None => Some s'
  | Some loc =>
      let loc' := if bool_decide (last loc = Some "."%string) then removelast loc else loc in
      n ← node_at loc' (root s');
      if negb (bool_decide (path (data n) = p)) then None
      else
        '(r, _) ← update_at loc' (fun d => (with_weight (Some w) d, false)) (root s');
        Some (dirtied r (clients s') s')
  end.

(** ** Allocations *)

(** [Allocation::add]. *)
Definition allocation_add (slaveId : string) (toAdd : Resources) (a : Allocation) : option Allocation :=
  quantitiesToAdd ← quantities_without (on_agent a slaveId) toAdd;
  Some (mkAllocation (count a) (<[slaveId := Resources.plus (on_agent a slaveId) toAdd]> (resources a))
          (Quantities.plus (totals a) quantitiesToAdd)).

Definition allocated (s : RandomSorter) (cp slaveId : string) (rs : Resources) : option RandomSorter :=
  loc ← find_client s cp;
  r ← climb loc (allocation_add slaveId rs) replace_child (root s);
  Some (with_root r s).

Definition update (s : RandomSorter) (cp slaveId : string) (oldAllocation newAllocation : Resources) : option RandomSorter :=
  loc ← find_client s cp;
  r ← climb loc (allocation_update slaveId oldAllocation newAllocation) replace_child (root s);
  Some (with_root r s).

Definition unallocated (s : RandomSorter) (cp slaveId : string) (rs : Resources) : option RandomSorter :=
  loc ← find_client s cp;
  r ← climb loc (allocation_subtract slaveId rs) replace_child (root s);
  Some (with_root r s).

Definition client_allocation (s : RandomSorter) (cp : string) : option Allocation :=
  loc ← find_client s cp; n ← node_at loc (root s); Some (allocation (data n)).

(** ** Relative weights *)

Definition fsub (x y : double) : double := rnd (x - y)%Q.

Definition getWeight (m : gmap string double) (d : Data) : double :=
  match weight d with Some w => w | None => default DEFAULT_WEIGHT (m !! path d) end.

(** [activeInternalNodes] and [isActive]: an active leaf, or an internal node
    with an active leaf below it. *)
Fixpoint isActive (n : Node) : bool :=
  match n with
  | node d l =>
      match kind d with
      | ACTIVE_LEAF => true
      | INACTIVE_LEAF => false
      | INTERNAL => existsb isActive l
      end
  end.

Definition total_weight (m : gmap string double) (l : list Node) : double :=
  fold_left (fun acc c => fadd acc (if isActive c then getWeight m (data c) else 0%Q)) l 0%Q.

(** The loop over the children, with what is done for an active one. *)
Definition each_child (f : Node -> option (Node * list (string * double))) :
  list Node -> option (list Node * list (string * double)) :=
  fix go (l : list Node) :=
    match l with
    | [] => Some ([], [])
    | c :: l' =>
        '(c1, found) ← (if isActive c then f c else Some (c, []));
        '(l1, rest) ← go l';
        Some (c1 :: l1, found ++ rest)
    end.

(** The node with the weights that [getWeight] caches, and the active leaves
    below it with their relative weights. *)
Fixpoint calculateRelativeWeights (m : gmap string double) (parent : Data) (n : Node) (siblingWeights parentRelativeWeight : double)
  : option (Node * list (string * double)) :=
  match n with
  | node d l =>
      if negb (isActive (node d l)) then Some (node d l, [])
      else
        let w := getWeight m d in
        let relativeWeight := fdiv (fmul parentRelativeWeight w) (fadd w siblingWeights) in
        mine ← (if bool_decide (kind d = ACTIVE_LEAF) then cp ← clientPath parent d; Some [(cp, relativeWeight)] else Some []);
        let totalWeights_ := total_weight m l in
        '(l', found) ← each_child (fun c =>
             calculateRelativeWeights m d c (fsub totalWeights_ (getWeight m (data c))) relativeWeight) l;
        Some (node (with_weight (Some w) d) l', mine ++ found)
  end.

Definition updateRelativeWeights (s : RandomSorter) : option RandomSorter :=
  if negb (sort_dirty (sortInfo s)) then Some s
  else
    '(r, found) ← calculateRelativeWeights (weights s) (data (root s)) (root s) 0%Q 1%Q;
    Some (mkRandomSorter (mkSortInfo false (map fst found) (map snd found)) (generator s) r (clients s) (weights s)).

(** ** Sorting *)

Section Shuffle.
  (** [std::pow]. *)
  Variable pow : double -> double -> double.

Fixpoint keys (draws : nat -> double) (ws : list double) : option (list double) :=
  match ws with
  | [] => Some []
  | w :: ws' =>
      if negb (negb (Qle_bool w 0)) then None
      else
        rest ← keys (fun i => draws (S i)) ws';
        Some (fsub 0%Q (pow (draws 0%nat) (fdiv 1%Q w)) :: rest)
  end.

Definition key_le (x y : double * string) : Prop := Qle_bool x.1 y.1 = true.
#[export] Instance key_le_dec x y : Decision (key_le x y).
Proof. unfold key_le. apply _. Defined.

(** The items in the order of their keys; [std::sort] may leave equal keys in
    any order, [merge_sort] leaves them in theirs. *)
Definition weightedShuffle (items : list string) (ws : list double) (draws : nat -> double)
  : option (list string * (nat -> double)) :=
  if negb (length items =? length ws)%nat then None
  else
    ks ← keys draws ws;
    Some (map snd (merge_sort key_le (zip ks items)), fun i => draws (length ws + i)%nat).

Definition sort (s : RandomSorter) : option (list string * RandomSorter) :=
  s' ← updateRelativeWeights s;
  '(l, g) ← weightedShuffle (sort_clients (sortInfo s')) (sort_weights (sortInfo s')) (generator s');
  Some (l, mkRandomSorter (sortInfo s') g (root s') (clients s') (weights s')).
End Shuffle.

(** ** Properties of all nodes of a tree *)

#[local] Unset Elimination Schemes.
Inductive every (P : Data -> Prop) (n : Node) : Prop := every_intro {
  ev_here : P (data n);
  ev_below : Forall (every P) (children n);
}.
#[local] Set Elimination Schemes.

Section Every.
  Variable P : Data -> Prop.
  Hypothesis P_new : forall b d t k, P (new_data b d t k).
  Hypothesis P_kind : forall k d, P d -> P (with_kind k d).
  Hypothesis P_allocation : forall a d, P d -> P (with_allocation a d).

Lemma every_push c l : every P c -> Forall (every P) l -> Forall (every P) (push_child c l).
Proof. intros Hc Hl. rewrite push_child_perm. by constructor. Qed.

Lemma every_replace c l l' : every P c -> Forall (every P) l -> replace_child c l = Some l' -> Forall (every P) l'.
Proof. intros Hc Hl H. eapply update_first_Forall; [|exact H|done]. done. Qed.

Lemma every_remove n l l' : Forall (every P) l -> removeChild n l = Some l' -> Forall (every P) l'.
Proof.
  intros Hl. unfold removeChild. destruct (find_child n l); [|done]. intros [= <-]. eapply Forall_sublist; [|exact Hl]. apply erase_first_sublist.
Qed.

Lemma every_readd c l l' : every P c -> Forall (every P) l -> readd c l = Some l' -> Forall (every P) l'.
Proof.
  intros Hc Hl. unfold readd. destruct (removeChild _ l) as [l1|] eqn:E; [|done]. cbn. unfold addChild. destruct (find_child _ l1); [done|].
  intros [= <-]. apply every_push; [done|]. by eapply every_remove.
Qed.

Lemma every_child n t c : every P n -> find_child t (children n) = Some c -> every P c.
Proof. intros [_ Hb] Hc. rewrite Forall_forall in Hb. apply Hb. by apply lookup_key_elem in Hc as [? _]. Qed.

Lemma every_leaf d : P d -> every P (node d []).
Proof. intros H. by split. Qed.

Lemma every_grow tokens here n : every P n -> every P (grow here tokens n).
Proof.
  revert here n. induction tokens as [|t rest IH]; intros here n Hn; [done|]. cbn [grow]. destruct Hn as [H1 H2]. split; [done|]. cbn [children].
  apply every_push; [|done]. by apply IH, every_leaf.
Qed.

Lemma every_descend tokens here n a : every P n -> descend here tokens n = Some a -> every P (added a).
Proof.
  revert here n a. induction tokens as [|t rest IH]; intros here n a Hn; cbn [descend].
  - intros [= <-]. cbn. destruct Hn as [H1 H2]. split; [done|]. cbn. by apply every_push; [apply every_leaf|].
  - destruct (isLeaf n) as [[]|]; [| |done]; cbn [mbind option_bind].
    + destruct (clientPath _ _); [|done]. cbn [mbind option_bind]. intros E. apply (inj Some) in E. subst a. cbn [added]. apply every_grow. destruct Hn as [H1 H2].
      split; cbn; [by apply P_kind|]. apply every_push; [|done]. by apply every_leaf, P_allocation.
    + destruct (find_child t (children n)) as [c|] eqn:Ec; [|intros E; apply (inj Some) in E; subst a; cbn [added]; by apply every_grow].
      destruct (descend _ rest c) as [a'|] eqn:E; [|done]. cbn [mbind option_bind]. assert (Ha := IH _ _ _ (every_child _ _ _ Hn Ec) E).
      destruct Hn as [H1 H2]. destruct (if moved a' then _ else _) as [l|] eqn:El; [|done]. cbn. intros [= <-]. split; [done|]. cbn.
      destruct (moved a'); [by eapply every_readd|by eapply every_replace].
Qed.

Lemma every_tidy here c l cl l' cl' : every P c -> Forall (every P) l -> tidy here c l cl = Some (l', cl') -> Forall (every P) l'.
Proof.
  intros Hc Hl. unfold tidy. assert (Hrep : (l ← replace_child c l; Some (l, cl)) = Some (l', cl') -> Forall (every P) l').
  { destruct (replace_child c l) as [l1|] eqn:E; [|done]. intros [= <- _]. by eapply every_replace. }
  destruct (children c) as [|child [|]]; [|case_bool_decide; [|done]|done].
  - destruct (removeChild _ l) as [l1|] eqn:E; [|done]. intros [= <- _]. by eapply every_remove.
  - destruct (isLeaf child) as [[]|]; [|done..]. cbn. case_bool_decide; [|done]. cbn.
    destruct (readd _ l) as [l1|] eqn:E; [|done]. intros [= <- _]. eapply every_readd; [|done|exact E]. apply every_leaf, P_kind, Hc.
Qed.

Lemma every_remove_at la loc here n cl n' cl' : every P n -> remove_at here loc la n cl = Some (n', cl') -> every P n'.
Proof.
  revert here n cl n' cl'. induction loc as [|t rest IH]; intros here n cl n' cl' Hn; cbn; [by intros [= <- _]|].
  destruct (find_child t (children n)) as [c|] eqn:Ec; [|done]. cbn. destruct (remove_at _ rest la c cl) as [[c' cl1]|] eqn:E; [|done]. cbn.
  destruct (subtract_all la _) as [a|]; [|done]. cbn. destruct (tidy _ c' _ cl1) as [[l cl2]|] eqn:Et; [|done]. cbn. intros [= <- _].
  assert (Hc := IH _ _ _ _ _ (every_child _ _ _ Hn Ec) E). destruct Hn as [H1 H2]. split; [by apply P_allocation|]. cbn. by eapply every_tidy.
Qed.

Lemma every_update f loc n n' again : (forall d, P d -> P (f d).1) -> every P n -> update_at loc f n = Some (n', again) -> every P n'.
Proof.
  intros Hf. revert n n' again. induction loc as [|t rest IH]; intros n n' again Hn; cbn.
  - destruct (f (data n)) as [d b] eqn:E. intros [= <- _]. destruct Hn as [H1 H2]. split; [|done]. specialize (Hf _ H1). by rewrite E in Hf.
  - destruct (find_child t (children n)) as [c|] eqn:Ec; [|done]. cbn. destruct (update_at rest f c) as [[c' b]|] eqn:E; [|done]. cbn.
    assert (Hc := IH _ _ _ (every_child _ _ _ Hn Ec) E). destruct (if b then _ else _) as [l|] eqn:El; [|done]. cbn. intros [= <- _].
    destruct Hn as [H1 H2]. split; [done|]. cbn. destruct b; [by eapply every_readd|by eapply every_replace].
Qed.

Lemma every_climb g loc n n' : every P n -> climb loc g replace_child n = Some n' -> every P n'.
Proof.
  revert n n'. induction loc as [|t rest IH]; intros n n' Hn; cbn; (destruct (g _) as [a|]; [|done]); cbn.
  - intros [= <-]. destruct Hn as [H1 H2]. split; [by apply P_allocation|done].
  - destruct (find_child t (children n)) as [c|] eqn:Ec; [|done]. cbn. destruct (climb rest g _ c) as [c'|] eqn:E; [|done]. cbn.
    assert (Hc := IH _ _ (every_child _ _ _ Hn Ec) E). destruct (replace_child c' _) as [l|] eqn:El; [|done]. cbn. intros [= <-].
    destruct Hn as [H1 H2]. split; [by apply P_allocation|]. cbn. by eapply every_replace.
Qed.
End Every.

(** ** Caching weights *)

Definition good_cache (d : Data) : Prop := forall w, weight d = Some w -> weight_ok w.

Lemma default_good : weight_ok DEFAULT_WEIGHT.
Proof. by split. Qed.

Lemma getWeight_good m d : (forall p w, m !! p = Some w -> weight_ok w) -> good_cache d -> weight_ok (getWeight m d).
Proof.
  intros Hm Hd. unfold getWeight. destruct (weight d) as [w|] eqn:E; [by apply Hd|]. destruct (m !! path d) as [w|] eqn:E2; [by apply (Hm (path d))|apply default_good].
Qed.

(** The tree in which the weights of the active nodes are cached. *)
Fixpoint cache (m : gmap string double) (n : Node) : Node :=
  match n with
  | node d l => if isActive (node d l) then node (with_weight (Some (getWeight m d)) d) (map (cache m) l) else node d l
  end.

Lemma cache_eq m n :
  cache m n = if isActive n then node (with_weight (Some (getWeight m (data n))) (data n)) (map (cache m) (children n)) else n.
Proof. by destruct n. Qed.

Lemma cache_same m n : node_name (cache m n) = node_name n /\ node_kind (cache m n) = node_kind n
  /\ path (data (cache m n)) = path (data n) /\ allocation (data (cache m n)) = allocation (data n).
Proof. rewrite cache_eq. by destruct (isActive n). Qed.

Lemma weight_same w n : same_node n (node (with_weight w (data n)) (children n)).
Proof. by split. Qed.

Lemma cache_wf m here n : wf_node here n -> wf_node here (cache m n) /\ leaves here (cache m n) ≡ₚ leaves here n.
Proof.
  revert here. induction n as [d l IH] using tree_ind. intros here Hn. rewrite cache_eq. destruct (isActive _); [|done].
  rewrite Forall_forall in IH. assert (Hb := wf_below _ _ Hn). rewrite Forall_forall in Hb. cbn [data children].
  destruct (wf_reordered here (node d l) (cache m) (map (cache m) l)) as [W L]; try done.
  - apply map_inactive_last; [|apply (sh_order _ _ _ (wf_shape _ _ Hn))]. intros c. apply cache_same.
  - intros c Hc. destruct (IH c Hc _ (Hb c Hc)). by split_and!; [apply cache_same|..].
  - assert (S := weight_same (Some (getWeight m d)) (node d (map (cache m) l))). cbn [data children] in *.
    split; [by eapply same_node_wf|by rewrite (same_node_leaves _ _ _ S)].
Qed.

Lemma cache_accounted m n : accounted n -> accounted (cache m n).
Proof.
  induction n as [d l IH] using tree_ind. intros Hn. rewrite cache_eq. destruct (isActive _); [|done]. rewrite Forall_forall in IH.
  assert (Hb := ac_below _ Hn). rewrite Forall_forall in Hb. cbn [data children] in *.
  eapply (accounted_same (node d (map (cache m) l))); [done..|]. eapply (accounted_perm (node d l) _ (cache m) Hn); [done|].
  intros c Hc. split; [apply IH; [done|by apply Hb]|apply cache_same].
Qed.

Lemma cache_holding p m here n g k : holding p here (cache m n) g k = holding p here n g k.
Proof.
  revert here. induction n as [d l IH] using tree_ind. intros here. rewrite cache_eq. destruct (isActive _); [|done]. rewrite Forall_forall in IH.
  rewrite (holding_same p here (node d (map (cache m) l))) by apply (weight_same (Some (getWeight m d)) (node d (map (cache m) l))).
  destruct (decide (kind d = INTERNAL)) as [Hk|Hk]; [|by rewrite !holding_leaf].
  rewrite !holding_internal by done. cbn [children]. clear Hk. induction l as [|c l IHl]; [done|]. cbn [map]. rewrite !zsum_cons, IHl by (intros x Hx; apply IH; by right).
  f_equal. unfold holding_below. destruct (cache_same m c) as (-> & _). apply IH. by left.
Qed.

Lemma cache_good m n : (forall p w, m !! p = Some w -> weight_ok w) -> every good_cache n -> every good_cache (cache m n).
Proof.
  intros Hm. induction n as [d l IH] using tree_ind. intros Hn. rewrite cache_eq. destruct (isActive _); [|done]. destruct Hn as [H1 H2]. cbn in *. split; cbn.
  - intros w [= <-]. by apply getWeight_good.
  - rewrite Forall_map, Forall_forall in *. intros c Hc. apply IH; [done|by apply H2].
Qed.

(** ** Relative weights *)

Lemma inactive_nodes here n : wf_node here n -> isActive n = false -> active_names (leaves here n) = [].
Proof.
  revert here. induction n as [d l IH] using tree_ind. intros here Hn. cbn [isActive]. destruct (kind d) eqn:Ek; [done|..].
  - intros _. rewrite leaves_leaf by (unfold node_kind; cbn; congruence). unfold active_names. rewrite filter_cons_False; [done|]. unfold node_kind. cbn. congruence.
  - intros Ha. rewrite leaves_internal by done. unfold leaves_below. cbn [children]. rewrite Forall_forall in IH. assert (Hb := wf_below _ _ Hn). cbn in Hb. rewrite Forall_forall in Hb.
    clear Hn Ek. induction l as [|c l IHl]; [done|]. cbn [existsb] in Ha. apply orb_false_iff in Ha as [H1 H2]. cbn [map concat]. rewrite active_names_app.
    rewrite IH, IHl; try done; try (by left); [intros x Hx; apply IH; by right|intros x Hx; apply Hb; by right|apply Hb; by left].
Qed.

(** The sum of the weights is at least each of them. *)
Lemma total_weight_spec m l :
  (forall p w, m !! p = Some w -> weight_ok w) -> Forall (fun c => good_cache (data c)) l ->
  (0 <= total_weight m l)%Q /\ forall c, c ∈ l -> isActive c = true -> (getWeight m (data c) <= total_weight m l)%Q.
Proof.
  intros Hm Hl. unfold total_weight. enough (H : forall acc : double, (0 <= acc)%Q ->
    let t := fold_left (fun acc c => fadd acc (if isActive c then getWeight m (data c) else 0%Q)) l acc in
    (0 <= t)%Q /\ (forall w, weight_ok w -> (w <= acc)%Q -> (w <= t)%Q) /\ forall c, c ∈ l -> isActive c = true -> (getWeight m (data c) <= t)%Q).
  { destruct (H 0%Q) as (H1 & _ & H3); [done|]. by split. }
  induction Hl as [|c l Hc Hl IH]; intros acc Hacc; cbn; [split_and!; [done|done|]; by intros c ?%elem_of_nil|].
  assert (G := getWeight_good m (data c) Hm Hc). set (x := if isActive c then getWeight m (data c) else 0%Q).
  assert (Hx : (0 <= x)%Q) by (unfold x; destruct (isActive c); [destruct G; lra|done]).
  destruct (IH (fadd acc x)) as (I1 & I2 & I3); [by apply rnd_nonneg; lra|]. split_and!; [done|..].
  - intros w Hw Hle. apply I2; [done|]. destruct Hw. apply rnd_above; [done|done|lra].
  - intros c' [->|Hc']%elem_of_cons Ha; [|by apply I3]. apply I2; [done|]. unfold x. rewrite Ha. destruct G. apply rnd_above; [done|done|lra].
Qed.

Lemma relative_pos p w s : (0 < p -> 0 < w -> 0 <= s -> 0 < fdiv (fmul p w) (fadd w s))%Q.
Proof.
  intros Hp Hw Hs. apply rnd_pos. apply Qlt_shift_div_l; [apply rnd_pos; lra|]. rewrite Qmult_0_l. apply rnd_pos. nra.
Qed.

(** The loop, when it does the right thing for every active child. *)
Lemma each_child_spec m here l f :
  (forall c, c ∈ l -> isActive c = true -> exists found, f c = Some (cache m c, found)
     /\ map fst found = active_names (leaves (here ++ [node_name c]) c) /\ Forall (fun w => 0 < w)%Q (map snd found)) ->
  (forall c, c ∈ l -> wf_node (here ++ [node_name c]) c) ->
  exists found, each_child f l = Some (map (cache m) l, found)
    /\ map fst found = active_names (leaves_below here l) /\ Forall (fun w => 0 < w)%Q (map snd found).
Proof.
  induction l as [|c l IH]; intros Hf Hw; [by exists []|].
  destruct IH as (rest & E & R1 & R2); [intros x Hx; apply Hf; by right|intros x Hx; apply Hw; by right|].
  unfold leaves_below. cbn [each_child map concat]. rewrite active_names_app. destruct (isActive c) eqn:Ha.
  - destruct (Hf c) as (found & -> & F1 & F2); [by left|done|]. cbn [mbind option_bind]. fold (each_child f l). rewrite E. cbn [mbind option_bind].
    exists (found ++ rest). rewrite !map_app, F1, R1. split_and!; [done|done|by apply Forall_app].
  - cbn [mbind option_bind]. fold (each_child f l). rewrite E. cbn [mbind option_bind]. exists rest. rewrite cache_eq, Ha.
    rewrite (inactive_nodes (here ++ [node_name c]) c); [|apply Hw; by left|done]. by split_and!.
Qed.

(** The active leaves are listed once each, with positive weights. *)
Lemma relative_spec m parent here n s p :
  (forall q w, m !! q = Some w -> weight_ok w) -> wf_node here n -> every good_cache n -> (0 < p)%Q -> (0 <= s)%Q ->
  (node_kind n <> INTERNAL -> clientPath parent (data n) = Some (client_of here)) ->
  exists found, calculateRelativeWeights m parent n s p = Some (cache m n, found)
    /\ map fst found = active_names (leaves here n) /\ Forall (fun w => 0 < w)%Q (map snd found).
Proof.
  intros Hm. revert parent here s p. induction n as [d l IH] using tree_ind. intros parent here s p Hn Hg Hp Hs Hcp.
  rewrite cache_eq. cbn [calculateRelativeWeights]. destruct (isActive (node d l)) eqn:Ha; cbn [negb].
  2:{ exists []. split_and!; [done| |constructor]. by rewrite (inactive_nodes here). }
  assert (G := getWeight_good m d Hm (ev_here _ _ Hg)). set (r := fdiv _ _). assert (Hr : (0 < r)%Q) by (apply relative_pos; [done|apply G|done]).
  assert (Hb := ev_below _ _ Hg). cbn [children] in Hb. destruct (total_weight_spec m l Hm) as [_ Ht].
  { eapply Forall_impl; [exact Hb|]. intros c Hc. apply Hc. }
  assert (Hw := wf_below _ _ Hn). cbn [children] in Hw. rewrite Forall_forall in IH, Hb, Hw.
  destruct (each_child_spec m here l (fun c => calculateRelativeWeights m d c (fsub (total_weight m l) (getWeight m (data c))) r)) as (found & E & F1 & F2).
  { intros c Hc Hac. apply IH; [done|by apply Hw|by apply Hb|done| |intros Hk; apply clientPath_wf; [apply (sh_path _ _ _ (wf_shape _ _ Hn))|by apply Hw|done]]. apply rnd_nonneg. specialize (Ht c Hc Hac). lra. }
  { done. }
  destruct (decide (kind d = ACTIVE_LEAF)) as [Hk|Hk].
  - rewrite bool_decide_eq_true_2 by done. cbn [data] in Hcp. rewrite Hcp by (unfold node_kind; cbn; congruence). cbn [mbind option_bind]. rewrite E. cbn.
    assert (Hl : l = []) by (apply (sh_leaf _ _ _ (wf_shape _ _ Hn)); cbn; congruence). subst l. cbn in E. injection E as <-.
    eexists. split; [done|]. rewrite Hk. split; [done|]. by constructor.
  - rewrite bool_decide_eq_false_2 by done. cbn [mbind option_bind]. rewrite E. cbn [mbind option_bind]. exists found. split; [done|].
    rewrite leaves_internal; [done|]. unfold node_kind. cbn in *. by destruct (kind d).
Qed.
