(* ===== verification/RoleTree.v ===== *)
(** * The tree of roles of the allocator

    [RoleTree], [Role] and [ScalarResourceTotals] of
    [src/src/master/allocator/mesos/hierarchical.cpp] and its header: what the
    allocator knows about roles.  A role is kept while it has a quota, a
    weight, frameworks or reservations, or a role below it has; the
    reservations and the allocations of a role count for all roles above it.

    The tree is a map from locations to roles: the location of a role is its
    path split at "/", and the root is at the empty location.  The pointer to a
    parent is the location without its last token, the pointer to a child the
    location with the token under which the child is listed.  [None] is a
    failed [CHECK]. *)

From stdpp Require Import base gmap strings list.
From Stdlib Require Import ZArith QArith.
From S2P Require Import Prelude Strings Ranges Scalar Values Quantities Registry Resource Resources ResourceOps Quota SorterTree DrfSorter SorterAccounts.
Local Open Scope Z_scope.

(** ** Totals over agents ([ScalarResourceTotals]) *)

Record ScalarResourceTotals := mkTotals {
  scalars_ : gmap string Resources;
  scalarsTotal : entries;
}.

Definition no_totals : ScalarResourceTotals := mkTotals ∅ [].

Definition totals_empty (t : ScalarResourceTotals) : bool := bool_decide (scalars_ t = ∅).

Definition totals_add (slaveId : string) (rs : Resources) (t : ScalarResourceTotals) : option ScalarResourceTotals :=
  match scalars rs with
  | [] => Some t
  | added =>
      let before := default [] (scalars_ t !! slaveId) in
      let after := Resources.plus before added in
      old ← fromScalarResources before;
      new ← fromScalarResources after;
      Some (mkTotals (<[slaveId := after]> (scalars_ t)) (Quantities.plus (Quantities.minus (scalarsTotal t) old) new))
  end.

Definition totals_subtract (slaveId : string) (rs : Resources) (t : ScalarResourceTotals)
  : option ScalarResourceTotals :=
  match scalars rs with
  | [] => Some t
  | removed =>
      before ← scalars_ t !! slaveId;
      if negb (Resources.contains before removed) then None
      else
        let after := Resources.minus before removed in
        old ← fromScalarResources before;
        new ← fromScalarResources after;
        Some (mkTotals (set_agent slaveId after (scalars_ t))
                (Quantities.plus (Quantities.minus (scalarsTotal t) old) new))
  end.

(** ** Roles *)

Record Role := mkRole {
  basename : string;
  quota_ : Quota;
  weight_ : double;
  frameworks_ : gset string;
  offeredOrAllocatedUnreservedNonRevocable : ScalarResourceTotals;
  offeredOrAllocatedReserved : ScalarResourceTotals;
  reservationScalarQuantities_ : entries;
  allocatedUnreservedNonRevocable : ScalarResourceTotals;
  children_ : gset string;
}.

Definition new_role (b : string) : Role :=
  mkRole b DEFAULT_QUOTA DEFAULT_WEIGHT ∅ no_totals no_totals [] no_totals ∅.

Definition with_quota (q : Quota) (r : Role) : Role :=
  mkRole (basename r) q (weight_ r) (frameworks_ r) (offeredOrAllocatedUnreservedNonRevocable r)
    (offeredOrAllocatedReserved r) (reservationScalarQuantities_ r) (allocatedUnreservedNonRevocable r) (children_ r).
Definition with_role_weight (w : double) (r : Role) : Role :=
  mkRole (basename r) (quota_ r) w (frameworks_ r) (offeredOrAllocatedUnreservedNonRevocable r)
    (offeredOrAllocatedReserved r) (reservationScalarQuantities_ r) (allocatedUnreservedNonRevocable r) (children_ r).
Definition with_frameworks (f : gset string) (r : Role) : Role :=
  mkRole (basename r) (quota_ r) (weight_ r) f (offeredOrAllocatedUnreservedNonRevocable r)
    (offeredOrAllocatedReserved r) (reservationScalarQuantities_ r) (allocatedUnreservedNonRevocable r) (children_ r).
Definition with_offered (u v : ScalarResourceTotals) (r : Role) : Role :=
  mkRole (basename r) (quota_ r) (weight_ r) (frameworks_ r) u v
    (reservationScalarQuantities_ r) (allocatedUnreservedNonRevocable r) (children_ r).
Definition with_reservations_ (q : entries) (r : Role) : Role :=
  mkRole (basename r) (quota_ r) (weight_ r) (frameworks_ r) (offeredOrAllocatedUnreservedNonRevocable r)
    (offeredOrAllocatedReserved r) q (allocatedUnreservedNonRevocable r) (children_ r).
Definition with_allocated (a : ScalarResourceTotals) (r : Role) : Role :=
  mkRole (basename r) (quota_ r) (weight_ r) (frameworks_ r) (offeredOrAllocatedUnreservedNonRevocable r)
    (offeredOrAllocatedReserved r) (reservationScalarQuantities_ r) a (children_ r).
Definition with_children (c : gset string) (r : Role) : Role :=
  mkRole (basename r) (quota_ r) (weight_ r) (frameworks_ r) (offeredOrAllocatedUnreservedNonRevocable r)
    (offeredOrAllocatedReserved r) (reservationScalarQuantities_ r) (allocatedUnreservedNonRevocable r) c.

Definition role_isEmpty (r : Role) : bool :=
  bool_decide (children_ r = ∅) && bool_decide (frameworks_ r = ∅) && bool_decide (reservationScalarQuantities_ r = [])
  && quota_eqb (quota_ r) DEFAULT_QUOTA && Qeq_bool (weight_ r) DEFAULT_WEIGHT.

Definition quotaOfferedOrConsumed (r : Role) : entries :=
  Quantities.plus (scalarsTotal (offeredOrAllocatedUnreservedNonRevocable r)) (reservationScalarQuantities_ r).

Definition quotaConsumed (r : Role) : entries :=
  Quantities.plus (scalarsTotal (allocatedUnreservedNonRevocable r)) (reservationScalarQuantities_ r).

Definition role_addChild (b : string) (r : Role) : option Role :=
  if bool_decide (b ∈ children_ r) then None else Some (with_children ({[ b ]} ∪ children_ r) r).

Definition role_removeChild (b : string) (r : Role) : option Role :=
  if bool_decide (b ∈ children_ r) then Some (with_children (children_ r ∖ {[ b ]}) r) else None.

(** ** The tree *)

Abbreviation RoleTree := (gmap (list string) Role).

Definition new_tree : RoleTree := {[ [] := new_role EmptyString ]}.

Definition role_location (role : string) : list string := split role "/".

Definition get_role (t : RoleTree) (role : string) : option Role := t !! role_location role.

(** [operator[]]: the missing roles on the way are created. *)
Fixpoint create (here tokens : list string) (t : RoleTree) : option RoleTree :=
  match tokens with
  | [] => Some t
  | token :: rest =>
      current ← t !! here;
      if bool_decide (token ∈ children_ current) then create (here ++ [token]) rest t
      else if bool_decide (is_Some (t !! (here ++ [token]))) then None
      else
        current' ← role_addChild token current;
        create (here ++ [token]) rest (<[here := current']> (<[here ++ [token] := new_role token]> t))
  end.

Definition index (t : RoleTree) (role : string) : option RoleTree :=
  if bool_decide (is_Some (get_role t role)) then Some t else create [] (role_location role) t.

(** The loop of [tryRemove], on the tokens from last to first. *)
Fixpoint remove_empty (tokens : list string) (t : RoleTree) : option RoleTree :=
  match tokens with
  | [] => Some t
  | token :: rest =>
      current ← t !! reverse tokens;
      if negb (bool_decide (basename current = token)) then None
      else if negb (role_isEmpty current) then Some t
      else if negb (totals_empty (allocatedUnreservedNonRevocable current)) then None
      else
        parent ← t !! reverse rest;
        parent' ← role_removeChild (basename current) parent;
        if negb (totals_empty (offeredOrAllocatedUnreservedNonRevocable current)) then None
        else if negb (totals_empty (offeredOrAllocatedReserved current)) then None
        else remove_empty rest (delete (reverse tokens) (<[reverse rest := parent']> t))
  end.

Definition tryRemove (t : RoleTree) (role : string) : option (RoleTree * bool) :=
  current ← get_role t role;
  if negb (role_isEmpty current) then Some (t, false)
  else t' ← remove_empty (reverse (role_location role)) t; Some (t', true).

(** [applyToRoleAndAncestors], on the tokens from last to first. *)
Fixpoint apply_up (tokens : list string) (f : Role -> option Role) (t : RoleTree) : option RoleTree :=
  current ← t !! reverse tokens;
  current' ← f current;
  let t' := <[reverse tokens := current']> t in
  match tokens with [] => Some t' | _ :: rest => apply_up rest f t' end.

Definition apply_to_role (t : RoleTree) (role : string) (f : Role -> option Role) : option RoleTree :=
  apply_up (reverse (role_location role)) f t.

(** ** Operations *)

Fixpoint for_each {A : Type} (f : A -> RoleTree -> option RoleTree) (l : list A) (t : RoleTree) : option RoleTree :=
  match l with [] => Some t | x :: l' => t' ← f x t; for_each f l' t' end.

Definition track_reservation (r : Resource) (t : RoleTree) : option RoleTree :=
  if negb (isReserved None r) then None
  else
    role ← reservationRole r;
    quantities ← fromScalarResources (of_resource r);
    t' ← index t role;
    apply_to_role t' role (fun current =>
      Some (with_reservations_ (Quantities.plus (reservationScalarQuantities_ current) quantities) current)).

Definition trackReservations (t : RoleTree) (rs : Resources) : option RoleTree :=
  for_each track_reservation (to_list (scalars rs)) t.

Definition untrack_reservation (r : Resource) (t : RoleTree) : option RoleTree :=
  if negb (isReserved None r) then None
  else
    role ← reservationRole r;
    quantities ← fromScalarResources (of_resource r);
    _ ← get_role t role;
    t' ← apply_to_role t role (fun current =>
      if negb (Quantities.contains (reservationScalarQuantities_ current) quantities) then None
      else Some (with_reservations_ (Quantities.minus (reservationScalarQuantities_ current) quantities) current));
    '(t'', _) ← tryRemove t' role; Some t''.

Definition untrackReservations (t : RoleTree) (rs : Resources) : option RoleTree :=
  for_each untrack_reservation (to_list (scalars rs)) t.

(** The loops over the resources by the role that they are allocated to. *)
Definition for_allocations (f : Resources -> Role -> option Role) (rs : Resources) (t : RoleTree) : option RoleTree :=
  m ← allocations rs;
  for_each (fun '(role, rs) t => _ ← get_role t role; apply_to_role t role (f rs)) (map_to_list m) t.

Definition trackAllocated (t : RoleTree) (slaveId : string) (rs : Resources) : option RoleTree :=
  for_allocations (fun rs current =>
      a ← totals_add slaveId rs (allocatedUnreservedNonRevocable current); Some (with_allocated a current))
    (nonRevocable (unreserved (scalars rs))) t.

Definition untrackAllocated (t : RoleTree) (slaveId : string) (rs : Resources) : option RoleTree :=
  for_allocations (fun rs current =>
      a ← totals_subtract slaveId rs (allocatedUnreservedNonRevocable current); Some (with_allocated a current))
    (nonRevocable (unreserved (scalars rs))) t.

Definition trackFramework (t : RoleTree) (frameworkId rolePath : string) : option RoleTree :=
  t' ← index t rolePath;
  role ← get_role t' rolePath;
  if bool_decide (frameworkId ∈ frameworks_ role) then None
  else Some (<[role_location rolePath := with_frameworks ({[ frameworkId ]} ∪ frameworks_ role) role]> t').

Definition untrackFramework (t : RoleTree) (frameworkId rolePath : string) : option RoleTree :=
  role ← get_role t rolePath;
  if negb (bool_decide (frameworkId ∈ frameworks_ role)) then None
  else
    '(t', _) ← tryRemove
      (<[role_location rolePath := with_frameworks (frameworks_ role ∖ {[ frameworkId ]}) role]> t) rolePath;
    Some t'.

Definition role_updateQuota (t : RoleTree) (role : string) (q : Quota) : option RoleTree :=
  t' ← index t role;
  r ← get_role t' role;
  '(t'', _) ← tryRemove (<[role_location role := with_quota q r]> t') role; Some t''.

Definition role_updateWeight (t : RoleTree) (role : string) (w : double) : option RoleTree :=
  t' ← index t role;
  r ← get_role t' role;
  '(t'', _) ← tryRemove (<[role_location role := with_role_weight w r]> t') role; Some t''.

Definition trackOfferedOrAllocated (t : RoleTree) (slaveId : string) (rs : Resources) : option RoleTree :=
  for_allocations (fun rs current =>
      v ← totals_add slaveId (reserved None rs) (offeredOrAllocatedReserved current);
      u ← totals_add slaveId (nonRevocable (unreserved rs)) (offeredOrAllocatedUnreservedNonRevocable current);
      Some (with_offered u v current))
    (scalars rs) t.

Definition untrackOfferedOrAllocated (t : RoleTree) (slaveId : string) (rs : Resources) : option RoleTree :=
  for_allocations (fun rs current =>
      v ← totals_subtract slaveId (reserved None rs) (offeredOrAllocatedReserved current);
      u ← totals_subtract slaveId (nonRevocable (unreserved rs)) (offeredOrAllocatedUnreservedNonRevocable current);
      Some (with_offered u v current))
    (scalars rs) t.

(** ** Totals keep their books *)

Definition as_allocation (t : ScalarResourceTotals) : Allocation := mkAllocation 0 (scalars_ t) (scalarsTotal t).

Definition totals_held (t : ScalarResourceTotals) (g : string) (k : Resource) : Z := held (as_allocation t) g k.

Lemma scalars_scalar rs : scalar_resources rs -> scalars rs = rs.
Proof.
  intros [_ _ H]. unfold scalars. apply filter_true. eapply Forall_impl; [exact H|]. intros e He. by apply bool_decide_eq_true.
Qed.

Lemma scalar_from rs :
  scalar_resources rs ->
  exists q, fromScalarResources rs = Some q /\ wf_quantities q /\ forall n, Quantities.get q n = ptotal n PScalar rs.
Proof. intros H. destruct (scalar_quantities rs H) as (q & Hq & Hw). rewrite (scalars_scalar rs H) in Hq. by exists q. Qed.

(** The totals after the entry of an agent was replaced. *)
Lemma totals_replace t g after old new :
  books (as_allocation t) -> scalar_resources after -> wf_quantities old -> wf_quantities new ->
  (forall n, Quantities.get old n = ptotal n PScalar (on_agent (as_allocation t) g)) ->
  (forall n, Quantities.get new n = ptotal n PScalar after) ->
  let t' := mkTotals (set_agent g after (scalars_ t)) (Quantities.plus (Quantities.minus (scalarsTotal t) old) new) in
  books (as_allocation t')
  /\ forall g' k, totals_held t' g' k = if decide (g' = g) then amount_held after k else totals_held t g' k.
Proof.
  intros Hb Ha Ho Hn Eo En t'. assert (Hw := bk_totals _ Hb). cbn in Hw.
  apply (set_agent_books (as_allocation t) g after (Quantities.plus (Quantities.minus (scalarsTotal t) old) new) 0 Hb Ha).
  - apply wf_plus; [by apply wf_minus|done].
  - intros n. rewrite get_plus by (apply (wf_minus _ _ Hw) || apply Hn). rewrite get_minus by done.
    rewrite En, Eo. cbn [as_allocation totals].
    assert (Hle : ptotal n PScalar (on_agent (as_allocation t) g) <= Quantities.get (scalarsTotal t) n).
    { assert (Hs := bk_sum _ Hb n). cbn [as_allocation totals] in Hs. rewrite Hs. unfold on_agent. apply agent_sum_le; [|done].
      intros g' rs' H. apply ptotal_nonneg, wr_elements. by apply (bk_entries _ Hb g'). }
    lia.
Qed.

Lemma totals_add_books g rs t :
  books (as_allocation t) -> scalar_resources rs ->
  exists t', totals_add g rs t = Some t' /\ books (as_allocation t')
    /\ forall g' k, wf_resource k -> totals_held t' g' k = totals_held t g' k + delta_on g (amount_held rs) g' k.
Proof.
  intros Hb Hrs. unfold totals_add. rewrite scalars_scalar by done. destruct rs as [|e rs'] eqn:E.
  { exists t. split_and!; [done..|]. intros g' k _. unfold delta_on. change (amount_held [] k) with 0. destruct (decide _); lia. }
  rewrite <- E in *. assert (Hne : rs <> []) by (by rewrite E). clear E.
  assert (Hon := on_agent_scalar _ g Hb). change (default [] (scalars_ t !! g)) with (on_agent (as_allocation t) g).
  destruct (scalar_from _ Hon) as (old & -> & Ho & Eo). cbn [mbind option_bind].
  assert (Hp := scalar_plus _ _ Hon Hrs). destruct (scalar_from _ Hp) as (new & -> & Hn & En). cbn [mbind option_bind].
  assert (Hsome : Resources.plus (on_agent (as_allocation t) g) rs <> []).
  { intros E. destruct (held_some rs Hrs Hne) as (k & Hk & Hpos). assert (H := held_plus _ _ k Hon Hrs Hk).
    rewrite E in H. assert (H0 := held_nonneg _ k Hon). change (amount_held [] k) with 0 in H. lia. }
  rewrite <- (set_agent_some g _ _ Hsome). eexists. split; [done|].
  destruct (totals_replace t g _ old new Hb Hp Ho Hn Eo En) as [B1 B2]. split; [done|]. intros g' k Hk. rewrite B2.
  unfold delta_on, totals_held, held. destruct (decide (g' = g)) as [->|]; [by rewrite held_plus|lia].
Qed.

Lemma totals_subtract_books g rs t :
  books (as_allocation t) -> scalar_resources rs -> included rs (on_agent (as_allocation t) g) ->
  exists t', totals_subtract g rs t = Some t' /\ books (as_allocation t')
    /\ forall g' k, wf_resource k -> totals_held t' g' k = totals_held t g' k - delta_on g (amount_held rs) g' k.
Proof.
  intros Hb Hrs Hi. unfold totals_subtract. rewrite scalars_scalar by done. destruct rs as [|e rs'] eqn:E.
  { exists t. split_and!; [done..|]. intros g' k _. unfold delta_on. change (amount_held [] k) with 0. destruct (decide _); lia. }
  rewrite <- E in *. assert (Hne : rs <> []) by (by rewrite E). clear E.
  assert (Hon := on_agent_scalar _ g Hb). destruct (included_entry (as_allocation t) g rs Hrs Hne Hi) as [cur Hcur].
  assert (Eon : on_agent (as_allocation t) g = cur) by (unfold on_agent; by rewrite Hcur). cbn in Hcur. rewrite Hcur. cbn [mbind option_bind].
  rewrite Eon in Hon, Hi. rewrite (included_contains cur rs) by (done || apply (sc_wf _ Hon) || apply (sc_wf _ Hrs)). cbn [negb].
  destruct (scalar_from _ Hon) as (old & -> & Ho & Eo). cbn [mbind option_bind].
  assert (Hm := scalar_minus _ _ Hon Hrs). destruct (scalar_from _ Hm) as (new & -> & Hn & En). cbn [mbind option_bind].
  eexists. split; [done|]. rewrite <- Eon in Eo.
  destruct (totals_replace t g _ old new Hb Hm Ho Hn Eo En) as [B1 B2]. split; [done|]. intros g' k Hk. rewrite B2.
  unfold delta_on, totals_held, held. destruct (decide (g' = g)) as [->|]; [by rewrite Eon, held_minus|lia].
Qed.

Lemma totals_none t : books (as_allocation t) -> (forall g k, wf_resource k -> totals_held t g k = 0) -> totals_empty t = true.
Proof.
  intros Hb H. apply bool_decide_eq_true, map_eq. intros g. rewrite lookup_empty. destruct (scalars_ t !! g) as [rs|] eqn:E; [|done].
  destruct (bk_entries _ Hb g rs E) as [Hs Hne]. destruct (held_some rs Hs Hne) as (k & Hk & Hpos). specialize (H g k Hk).
  unfold totals_held, held, on_agent in H. cbn in H. rewrite E in H. cbn in H. lia.
Qed.

(** ** The shape of the tree *)

Record tree_shape (t : RoleTree) : Prop := {
  ts_root : is_Some (t !! []);
  ts_up : forall loc tok, is_Some (t !! (loc ++ [tok])) -> is_Some (t !! loc);
  ts_children : forall loc r tok, t !! loc = Some r -> tok ∈ children_ r <-> is_Some (t !! (loc ++ [tok]));
  ts_name : forall loc tok r, t !! (loc ++ [tok]) = Some r -> basename r = tok;
}.

(** Every role but the root and perhaps one has a reason to be there. *)
Definition full_but (skip : list string) (t : RoleTree) : Prop :=
  forall loc r, t !! loc = Some r -> loc <> [] -> loc <> skip -> role_isEmpty r = false.

Definition full (t : RoleTree) : Prop := forall loc r, t !! loc = Some r -> loc <> [] -> role_isEmpty r = false.

Lemma full_full_but skip t : full t -> full_but skip t.
Proof. intros H loc r Hr Hn _. by eapply H. Qed.

Lemma snoc_ne (loc : list string) tok : loc ++ [tok] <> loc.
Proof. intros H%(f_equal length). rewrite length_app in H. cbn in H. lia. Qed.

Lemma snoc_inj (loc loc' : list string) tok tok' : loc ++ [tok] = loc' ++ [tok'] -> loc = loc' /\ tok = tok'.
Proof. apply app_inj_tail. Qed.

(** A quantity of a role, of the role and of its children. *)
Section Own.
  Context (mu : Role -> Z).
  Hypothesis mu_children : forall c r, mu (with_children c r) = mu r.
  Hypothesis mu_new : forall b, mu (new_role b) = 0.

Definition mu_at (t : RoleTree) (loc : list string) : Z := match t !! loc with Some r => mu r | None => 0 end.

Definition children_at (t : RoleTree) (loc : list string) : gset string :=
  match t !! loc with Some r => children_ r | None => ∅ end.

Definition below (t : RoleTree) (loc : list string) : Z :=
  zsum (fun tok => mu_at t (loc ++ [tok])) (elements (children_at t loc)).

(** What is left of a role's quantity without its children's. *)
Definition own (t : RoleTree) (loc : list string) : Z := mu_at t loc - below t loc.

Lemma below_ext t t' loc :
  children_at t' loc = children_at t loc ->
  (forall tok, tok ∈ children_at t loc -> mu_at t' (loc ++ [tok]) = mu_at t (loc ++ [tok])) ->
  below t' loc = below t loc.
Proof.
  intros E H. unfold below. rewrite E. apply zsum_ext. intros tok Htok. apply H. by apply elem_of_elements.
Qed.

(** A new child without quantity. *)
Lemma own_add_child t here tok current :
  tree_shape t -> t !! here = Some current -> tok ∉ children_ current ->
  let t' := <[here := with_children ({[ tok ]} ∪ children_ current) current]> (<[here ++ [tok] := new_role tok]> t) in
  forall loc, own t' loc = own t loc.
Proof.
  intros Hs Hc Hn t' loc. assert (Hnone : t !! (here ++ [tok]) = None).
  { apply eq_None_not_Some. intros H. apply Hn. by apply (ts_children t Hs here current tok Hc). }
  assert (Hmu : forall l, mu_at t' l = mu_at t l).
  { intros l. unfold mu_at, t'. destruct (decide (l = here)) as [->|Hl].
    - rewrite lookup_insert_eq, Hc. apply mu_children.
    - rewrite lookup_insert_ne by done. destruct (decide (l = here ++ [tok])) as [->|Hl'].
      + by rewrite lookup_insert_eq, Hnone, mu_new.
      + by rewrite lookup_insert_ne. }
  unfold own. rewrite Hmu. f_equal. destruct (decide (loc = here)) as [->|Hl].
  - unfold below, children_at, t'. rewrite lookup_insert_eq, Hc. cbn [children_ with_children].
    fold t'. rewrite (zsum_perm _ _ (tok :: elements (children_ current))).
    + rewrite zsum_cons, Hmu. unfold mu_at at 1. rewrite Hnone. cbn. apply zsum_ext. intros x _. apply Hmu.
    + rewrite elements_union_singleton by done. done.
  - apply below_ext; [|intros x _; apply Hmu]. unfold children_at, t'. rewrite lookup_insert_ne by done.
    destruct (decide (loc = here ++ [tok])) as [->|Hl']; [by rewrite lookup_insert_eq, Hnone|by rewrite lookup_insert_ne].
Qed.

(** A child without children and without quantity goes. *)
Lemma own_remove_child t here tok parent current :
  tree_shape t -> t !! here = Some parent -> t !! (here ++ [tok]) = Some current ->
  children_ current = ∅ -> mu current = 0 ->
  let t' := delete (here ++ [tok]) (<[here := with_children (children_ parent ∖ {[ tok ]}) parent]> t) in
  forall loc, own t' loc = own t loc.
Proof.
  intros Hs Hp Hc Hch H0 t' loc. assert (Hne := snoc_ne here tok).
  assert (Hin : tok ∈ children_ parent) by (by apply (ts_children t Hs here parent tok Hp); eexists).
  assert (Hmu : forall l, mu_at t' l = mu_at t l).
  { intros l. unfold mu_at, t'. destruct (decide (l = here ++ [tok])) as [->|Hl].
    - by rewrite lookup_delete_eq, Hc.
    - rewrite lookup_delete_ne by done. destruct (decide (l = here)) as [->|Hl'].
      + rewrite lookup_insert_eq, Hp. apply mu_children.
      + by rewrite lookup_insert_ne. }
  unfold own. rewrite Hmu. f_equal. destruct (decide (loc = here)) as [->|Hl].
  - unfold below, children_at. unfold t' at 2. rewrite lookup_delete_ne, lookup_insert_eq, Hp by done. cbn [children_ with_children].
    assert (Hperm : elements (children_ parent) ≡ₚ tok :: elements (children_ parent ∖ {[ tok ]})).
    { rewrite <- elements_union_singleton by set_solver. f_equiv. apply union_difference_singleton_L in Hin. by rewrite <- Hin. }
    rewrite (zsum_perm _ _ _ Hperm), zsum_cons. unfold mu_at at 2. rewrite Hc, H0. cbn. apply zsum_ext. intros x _. apply Hmu.
  - apply below_ext; [|intros x _; apply Hmu]. unfold children_at, t'.
    destruct (decide (loc = here ++ [tok])) as [->|Hl']; [by rewrite lookup_delete_eq, Hc, Hch|].
    by rewrite lookup_delete_ne, lookup_insert_ne.
Qed.
End Own.

Lemma ts_prefix t loc rest : tree_shape t -> is_Some (t !! (loc ++ rest)) -> is_Some (t !! loc).
Proof.
  intros Hs. revert loc. induction rest as [|tok rest IH] using rev_ind; intros loc; [by rewrite app_nil_r|].
  rewrite app_assoc. intros H%(ts_up t Hs). by apply IH.
Qed.

(** ** What a tree says about a role *)

Definition quota_of (t : RoleTree) (loc : list string) : Quota :=
  match t !! loc with Some r => quota_ r | None => DEFAULT_QUOTA end.
Definition weight_of (t : RoleTree) (loc : list string) : double :=
  match t !! loc with Some r => weight_ r | None => DEFAULT_WEIGHT end.
Definition frameworks_of (t : RoleTree) (loc : list string) : gset string :=
  match t !! loc with Some r => frameworks_ r | None => ∅ end.

(** The quantities that add up along the tree: reserved ones by name, and
    what the three totals hold on an agent. *)
Definition reserved_mu (n : string) (r : Role) : Z := Quantities.get (reservationScalarQuantities_ r) n.

Inductive tracker := Allocated_ | OfferedUnreserved | OfferedReserved.

Definition tracked (w : tracker) (r : Role) : ScalarResourceTotals :=
  match w with
  | Allocated_ => allocatedUnreservedNonRevocable r
  | OfferedUnreserved => offeredOrAllocatedUnreservedNonRevocable r
  | OfferedReserved => offeredOrAllocatedReserved r
  end.

Definition tracked_mu (w : tracker) (g : string) (k : Resource) (r : Role) : Z := totals_held (tracked w r) g k.

Record additive (mu : Role -> Z) : Prop := {
  ad_children : forall c r, mu (with_children c r) = mu r;
  ad_new : forall b, mu (new_role b) = 0;
  ad_empty : forall r, role_isEmpty r = true -> (forall w, totals_empty (tracked w r) = true) -> mu r = 0;
}.

Lemma isEmpty_spec r :
  role_isEmpty r = true <->
  children_ r = ∅ /\ frameworks_ r = ∅ /\ reservationScalarQuantities_ r = [] /\ quota_ r = DEFAULT_QUOTA
  /\ (weight_ r == DEFAULT_WEIGHT)%Q.
Proof.
  unfold role_isEmpty. rewrite !andb_true_iff, !bool_decide_eq_true, quota_eqb_eq, bool_decide_eq_true, Qeq_bool_iff. tauto.
Qed.

Lemma reserved_additive n : additive (reserved_mu n).
Proof.
  split; [done..|]. intros r (_ & _ & E & _)%isEmpty_spec _. unfold reserved_mu. by rewrite E.
Qed.

Lemma tracked_additive w g k : additive (tracked_mu w g k).
Proof.
  split; [by destruct w..|]. intros r _ H. specialize (H w). unfold totals_empty in H. apply bool_decide_eq_true in H.
  unfold tracked_mu, totals_held, held, on_agent. cbn. by rewrite H, lookup_empty.
Qed.

Record role_books (r : Role) : Prop := {
  rb_reserved : wf_quantities (reservationScalarQuantities_ r);
  rb_tracked : forall w, books (as_allocation (tracked w r));
}.

Definition roles_ok (t : RoleTree) : Prop := forall loc r, t !! loc = Some r -> role_books r.

Lemma with_children_ok c r : role_books r -> role_books (with_children c r).
Proof. intros [H1 H2]. split; [done|]. intros w. specialize (H2 w). by destruct w. Qed.

Lemma new_role_ok b : role_books (new_role b).
Proof.
  assert (books (as_allocation no_totals)) by (split; cbn; [|apply wf_empty|done]; intros g rs; by rewrite lookup_empty).
  split; [apply wf_empty|by intros []].
Qed.

(** Resources are offered and allocated to roles with frameworks. *)
Definition tied (t : RoleTree) : Prop :=
  forall loc w g k, wf_resource k -> frameworks_of t loc = ∅ -> own (tracked_mu w g k) t loc = 0.

(** A change of the tree that says the same about every role. *)
Record reshaped (t t' : RoleTree) : Prop := {
  re_shape : tree_shape t';
  re_own : forall mu, additive mu -> forall loc, own mu t' loc = own mu t loc;
  re_quota : forall loc, quota_of t' loc = quota_of t loc;
  re_weight : forall loc, (weight_of t' loc == weight_of t loc)%Q;
  re_frameworks : forall loc, frameworks_of t' loc = frameworks_of t loc;
  re_ok : roles_ok t -> roles_ok t';
}.

Lemma reshaped_refl t : tree_shape t -> reshaped t t.
Proof. intros H. by split. Qed.

Lemma reshaped_trans t1 t2 t3 : reshaped t1 t2 -> reshaped t2 t3 -> reshaped t1 t3.
Proof.
  intros [A1 A2 A3 A4 A5 A6] [B1 B2 B3 B4 B5 B6]. split; [done|..].
  - intros mu Hm loc. by rewrite B2, A2.
  - intros loc. by rewrite B3, A3.
  - intros loc. by rewrite B4, A4.
  - intros loc. by rewrite B5, A5.
  - auto.
Qed.

Lemma reshaped_tied t t' : reshaped t t' -> tied t -> tied t'.
Proof.
  intros [_ H2 _ _ H5 _] Ht loc w g k Hk Hf. rewrite H2 by apply tracked_additive. apply Ht; [done|]. by rewrite <- H5.
Qed.

Lemma own_leaf mu t loc r : t !! loc = Some r -> children_ r = ∅ -> own mu t loc = mu r.
Proof. intros Hr Hc. unfold own, mu_at, below, children_at. rewrite Hr, Hc, elements_empty. cbn. lia. Qed.

Lemma tied_idle t loc r w :
  roles_ok t -> tied t -> t !! loc = Some r -> role_isEmpty r = true -> totals_empty (tracked w r) = true.
Proof.
  intros Hok Ht Hr (Hc & Hf & _)%isEmpty_spec. apply totals_none; [apply (rb_tracked r (Hok loc r Hr))|].
  intros g k Hk. assert (H := Ht loc w g k Hk). rewrite (own_leaf _ t loc r Hr Hc) in H. apply H.
  unfold frameworks_of. by rewrite Hr.
Qed.

(** ** Creating and removing roles *)

Lemma lookup_views t t' loc :
  (forall r, t !! loc = Some r -> exists c, t' !! loc = Some (with_children c r)) ->
  (t !! loc = None -> t' !! loc = None \/ exists b c, t' !! loc = Some (with_children c (new_role b))) ->
  quota_of t' loc = quota_of t loc /\ weight_of t' loc = weight_of t loc /\ frameworks_of t' loc = frameworks_of t loc.
Proof.
  intros H1 H2. unfold quota_of, weight_of, frameworks_of. destruct (t !! loc) as [r|].
  - destruct (H1 r eq_refl) as [c ->]. done.
  - destruct (H2 eq_refl) as [->|(b & c & ->)]; done.
Qed.

Lemma add_child_reshaped t here tok current :
  tree_shape t -> t !! here = Some current -> tok ∉ children_ current ->
  let t' := <[here := with_children ({[ tok ]} ∪ children_ current) current]> (<[here ++ [tok] := new_role tok]> t) in
  reshaped t t' /\ t !! (here ++ [tok]) = None /\ t' !! (here ++ [tok]) = Some (new_role tok).
Proof.
  intros Hs Hc Hn t'. assert (Hne := snoc_ne here tok). assert (Hnone : t !! (here ++ [tok]) = None).
  { apply eq_None_not_Some. intros H. apply Hn. by apply (ts_children t Hs here current tok Hc). }
  assert (L : forall loc, t' !! loc = if decide (loc = here) then Some (with_children ({[ tok ]} ∪ children_ current) current)
                            else if decide (loc = here ++ [tok]) then Some (new_role tok) else t !! loc).
  { intros loc. unfold t'. destruct (decide (loc = here)) as [->|H1]; [by rewrite lookup_insert_eq|].
    rewrite lookup_insert_ne by done. destruct (decide (loc = here ++ [tok])) as [->|H2]; [by rewrite lookup_insert_eq|].
    by rewrite lookup_insert_ne. }
  assert (Hup : forall loc, is_Some (t' !! loc) <-> loc = here ++ [tok] \/ is_Some (t !! loc)).
  { intros loc. rewrite L. destruct (decide (loc = here)) as [->|H1]; [rewrite Hc; split; [by right|by eexists]|].
    destruct (decide (loc = here ++ [tok])) as [->|H2]; [split; [by left|by eexists]|]. split; [by right|by intros [|]]. }
  split_and!; [|done|rewrite L; by rewrite decide_False, decide_True].
  assert (V : forall loc, quota_of t' loc = quota_of t loc /\ weight_of t' loc = weight_of t loc
                          /\ frameworks_of t' loc = frameworks_of t loc).
  { intros loc. apply lookup_views; rewrite L.
    - intros r Hr. destruct (decide (loc = here)) as [->|H1]; [rewrite Hc in Hr; injection Hr as <-; by eexists|].
      destruct (decide (loc = here ++ [tok])) as [->|H2]; [by rewrite Hnone in Hr|]. exists (children_ r). by destruct r.
    - intros Hr. destruct (decide (loc = here)) as [->|H1]; [by rewrite Hc in Hr|].
      destruct (decide (loc = here ++ [tok])) as [->|H2]; [|by left]. right. by exists tok, ∅. }
  split; try (intros loc; destruct (V loc) as (V1 & V2 & V3); done || (rewrite V2; reflexivity)).
  - split.
    + apply Hup. right. apply (ts_root t Hs).
    + intros loc x [E|H]%Hup; apply Hup; [apply snoc_inj in E as [-> ->]; right; by eexists|right; by eapply (ts_up t Hs)].
    + intros loc r x Hr. rewrite Hup. rewrite L in Hr. destruct (decide (loc = here)) as [->|H1].
      * injection Hr as <-. cbn. rewrite elem_of_union, elem_of_singleton, (ts_children t Hs here current x Hc). split.
        -- intros [->|H]; [by left|by right].
        -- intros [E|H]; [apply snoc_inj in E as [_ ->]; by left|by right].
      * destruct (decide (loc = here ++ [tok])) as [->|H2].
        -- injection Hr as <-. cbn. split; [by intros ?%not_elem_of_empty|]. intros [E|H].
           ++ apply snoc_inj in E as [E _]. by apply snoc_ne in E.
           ++ apply (ts_up t Hs) in H. rewrite Hnone in H. by apply is_Some_None in H.
        -- rewrite (ts_children t Hs loc r x Hr). split; [by right|]. intros [E|H]; [by apply snoc_inj in E as [? _]|done].
    + intros loc x r Hr. rewrite L in Hr. destruct (decide (loc ++ [x] = here)) as [<-|H1].
      * injection Hr as <-. cbn. by eapply (ts_name t Hs).
      * destruct (decide (loc ++ [x] = here ++ [tok])) as [E|H2]; [|by eapply (ts_name t Hs)].
        apply snoc_inj in E as [_ ->]. by injection Hr as <-.
  - intros mu [Hm1 Hm2 _] loc. by apply (own_add_child mu Hm1 Hm2 t here tok current).
  - intros Hok loc r Hr. rewrite L in Hr. destruct (decide (loc = here)) as [->|H1].
    + injection Hr as <-. apply with_children_ok. by eapply Hok.
    + destruct (decide (loc = here ++ [tok])) as [->|H2]; [injection Hr as <-; apply new_role_ok|by eapply Hok].
Qed.

Lemma child_nonempty r tok : tok ∈ children_ r -> role_isEmpty r = false.
Proof. intros H. apply not_true_iff_false. rewrite isEmpty_spec. intros (E & _). rewrite E in H. by apply not_elem_of_empty in H. Qed.

Lemma create_spec tokens here t :
  tree_shape t -> is_Some (t !! here) -> full_but here t ->
  exists t', create here tokens t = Some t' /\ reshaped t t' /\ is_Some (t' !! (here ++ tokens))
    /\ full_but (here ++ tokens) t'.
Proof.
  revert here t. induction tokens as [|tok rest IH]; intros here t Hs [current Hc] Hf; cbn [create].
  { rewrite app_nil_r. exists t. split_and!; [done|by apply reshaped_refl|by eexists|done]. }
  rewrite Hc. cbn [mbind option_bind]. replace (here ++ tok :: rest) with ((here ++ [tok]) ++ rest) by (by rewrite <- app_assoc).
  case_bool_decide as Hin.
  - apply IH; [done|by apply (ts_children t Hs here current tok Hc)|]. intros loc r Hr H1 H2.
    destruct (decide (loc = here)) as [->|Hne]; [|by eapply Hf]. rewrite Hc in Hr. injection Hr as <-. by eapply child_nonempty.
  - destruct (add_child_reshaped t here tok current Hs Hc Hin) as (R & Hnone & Hnew).
    rewrite bool_decide_eq_false_2 by (rewrite Hnone; apply is_Some_None).
    unfold role_addChild. rewrite bool_decide_eq_false_2 by done. cbn [mbind option_bind].
    set (t1 := <[here := _]> _) in *. destruct (IH (here ++ [tok]) t1) as (t' & -> & R' & Hin' & Hf').
    + apply (re_shape _ _ R).
    + by eexists.
    + intros loc r Hr H1 H2. unfold t1 in Hr. destruct (decide (loc = here)) as [->|Hne].
      * rewrite lookup_insert_eq in Hr. injection Hr as <-. apply (child_nonempty _ tok). cbn. set_solver.
      * rewrite !lookup_insert_ne in Hr by done. by eapply Hf.
    + exists t'. split_and!; [done| |done|done]. by eapply reshaped_trans.
Qed.

Lemma index_spec t role :
  tree_shape t -> full t ->
  exists t', index t role = Some t' /\ reshaped t t' /\ is_Some (t' !! role_location role)
    /\ full_but (role_location role) t'.
Proof.
  intros Hs Hf. unfold index, get_role. case_bool_decide as H.
  - exists t. split_and!; [done|by apply reshaped_refl|done|by apply full_full_but].
  - destruct (create_spec (role_location role) [] t Hs (ts_root t Hs)) as (t' & H1 & H2 & H3 & H4); [by apply full_full_but|].
    by exists t'.
Qed.

Lemma remove_child_reshaped t here tok parent current :
  tree_shape t -> t !! here = Some parent -> t !! (here ++ [tok]) = Some current ->
  role_isEmpty current = true -> (forall w, totals_empty (tracked w current) = true) ->
  reshaped t (delete (here ++ [tok]) (<[here := with_children (children_ parent ∖ {[ tok ]}) parent]> t)).
Proof.
  intros Hs Hp Hc He Hw. set (t' := delete _ _). assert (Hne := snoc_ne here tok).
  destruct (proj1 (isEmpty_spec current) He) as (Ech & Efw & _ & Eq & Ew).
  assert (L : forall loc, t' !! loc = if decide (loc = here ++ [tok]) then None
                            else if decide (loc = here) then Some (with_children (children_ parent ∖ {[ tok ]}) parent) else t !! loc).
  { intros loc. unfold t'. destruct (decide (loc = here ++ [tok])) as [->|H1]; [by rewrite lookup_delete_eq|].
    rewrite lookup_delete_ne by done. destruct (decide (loc = here)) as [->|H2]; [by rewrite lookup_insert_eq|].
    by rewrite lookup_insert_ne. }
  assert (Hup : forall loc, is_Some (t' !! loc) <-> loc <> here ++ [tok] /\ is_Some (t !! loc)).
  { intros loc. rewrite L. destruct (decide (loc = here ++ [tok])) as [->|H1]; [split; [by intros ?%is_Some_None|by intros [? _]]|].
    destruct (decide (loc = here)) as [->|H2]; [rewrite Hp; by split; eexists|]. by split; [|intros [_ ?]]. }
  assert (Hleaf : forall x, ~ is_Some (t !! ((here ++ [tok]) ++ [x]))).
  { intros x Hx. apply (ts_children t Hs _ current x Hc) in Hx. rewrite Ech in Hx. by apply not_elem_of_empty in Hx. }
  split.
  - split.
    + apply Hup. split; [by destruct here|apply (ts_root t Hs)].
    + intros loc x [H1 H2]%Hup. apply Hup. split; [|by eapply (ts_up t Hs)]. intros ->. by apply (Hleaf x).
    + intros loc r x Hr. rewrite Hup. rewrite L in Hr. destruct (decide (loc = here ++ [tok])) as [->|H1]; [done|].
      destruct (decide (loc = here)) as [->|H2].
      * injection Hr as <-. cbn. rewrite elem_of_difference, elem_of_singleton, (ts_children t Hs here parent x Hp).
        split; [intros [H Hx]; split; [intros E; by apply snoc_inj in E as [_ ?]|done]|]. intros [H Hx]. split; [done|]. by intros ->.
      * rewrite (ts_children t Hs loc r x Hr). split; [intros H; split; [intros E; by apply snoc_inj in E as [? _]|done]|by intros [_ ?]].
    + intros loc x r Hr. rewrite L in Hr. destruct (decide (loc ++ [x] = here ++ [tok])) as [E|H1]; [done|].
      destruct (decide (loc ++ [x] = here)) as [<-|H2]; [|by eapply (ts_name t Hs)]. injection Hr as <-. cbn.
      by eapply (ts_name t Hs).
  - intros mu [Hm1 Hm2 Hm3] loc. apply (own_remove_child mu Hm1 Hm2 t here tok parent current); auto.
  - intros loc. unfold quota_of. rewrite L. destruct (decide (loc = here ++ [tok])) as [->|H1]; [by rewrite Hc, Eq|].
    destruct (decide (loc = here)) as [->|H2]; [by rewrite Hp|done].
  - intros loc. unfold weight_of. rewrite L. destruct (decide (loc = here ++ [tok])) as [->|H1]; [by rewrite Hc, Ew|].
    destruct (decide (loc = here)) as [->|H2]; [by rewrite Hp|done].
  - intros loc. unfold frameworks_of. rewrite L. destruct (decide (loc = here ++ [tok])) as [->|H1]; [by rewrite Hc, Efw|].
    destruct (decide (loc = here)) as [->|H2]; [by rewrite Hp|done].
  - intros Hok loc r Hr. rewrite L in Hr. destruct (decide (loc = here ++ [tok])) as [->|H1]; [done|].
    destruct (decide (loc = here)) as [->|H2]; [|by eapply Hok]. injection Hr as <-. apply with_children_ok. by eapply Hok.
Qed.

Lemma remove_empty_spec tokens t :
  tree_shape t -> roles_ok t -> tied t -> full_but (reverse tokens) t -> is_Some (t !! reverse tokens) ->
  exists t', remove_empty tokens t = Some t' /\ reshaped t t' /\ full t'.
Proof.
  revert t. induction tokens as [|tok rest IH]; intros t Hs Hok Ht Hf [current Hc].
  { exists t. split_and!; [done|by apply reshaped_refl|]. intros loc r Hr Hn. by eapply Hf. }
  cbn [remove_empty]. rewrite Hc. cbn [mbind option_bind]. rewrite reverse_cons in Hc, Hf |- *.
  assert (En := ts_name t Hs _ _ _ Hc). rewrite En, bool_decide_eq_true_2 by done. cbn [negb].
  destruct (role_isEmpty current) eqn:He; cbn [negb].
  - assert (Hw := fun w => tied_idle t _ current w Hok Ht Hc He).
    assert (W1 := Hw Allocated_). assert (W2 := Hw OfferedUnreserved). assert (W3 := Hw OfferedReserved). cbn [tracked] in W1, W2, W3.
    rewrite W1, W2, W3. cbn [negb].
    destruct (ts_up t Hs (reverse rest) tok) as [parent Hp]; [by eexists|]. rewrite Hp. cbn [mbind option_bind].
    assert (Hin : tok ∈ children_ parent) by (apply (ts_children t Hs _ parent tok Hp); by eexists).
    unfold role_removeChild. rewrite bool_decide_eq_true_2 by done. cbn [mbind option_bind].
    assert (R := remove_child_reshaped t (reverse rest) tok parent current Hs Hp Hc He Hw).
    set (t1 := delete _ _) in *. destruct (IH t1) as (t' & -> & R' & Hf').
    + apply (re_shape _ _ R).
    + by apply (re_ok _ _ R).
    + by eapply reshaped_tied.
    + intros loc r Hr H1 H2. unfold t1 in Hr. apply lookup_delete_Some in Hr as [H3 Hr]. rewrite lookup_insert_ne in Hr by done.
      by eapply Hf.
    + unfold t1. rewrite lookup_delete_ne by apply snoc_ne. rewrite lookup_insert_eq. by eexists.
    + exists t'. split_and!; [done|by eapply reshaped_trans|done].
  - exists t. split_and!; [done|by apply reshaped_refl|]. intros loc r Hr Hn.
    destruct (decide (loc = reverse rest ++ [tok])) as [->|Hne]; [by rewrite Hc in Hr; injection Hr as <-|by eapply Hf].
Qed.

Lemma tryRemove_spec t role :
  tree_shape t -> roles_ok t -> tied t -> full_but (role_location role) t -> is_Some (t !! role_location role) ->
  exists t' b, tryRemove t role = Some (t', b) /\ reshaped t t' /\ full t'.
Proof.
  intros Hs Hok Ht Hf Hin. unfold tryRemove, get_role. destruct Hin as [current Hc]. rewrite Hc. cbn [mbind option_bind].
  destruct (role_isEmpty current) eqn:He; cbn [negb].
  - destruct (remove_empty_spec (reverse (role_location role)) t) as (t' & -> & R & Hf');
      [done|done|done|by rewrite reverse_involutive|rewrite reverse_involutive; by eexists|]. cbn. by exists t', true.
  - exists t, false. split_and!; [done|by apply reshaped_refl|]. intros loc r Hr Hn.
    destruct (decide (loc = role_location role)) as [->|Hne]; [by rewrite Hc in Hr; injection Hr as <-|by eapply Hf].
Qed.

(** ** Changing a role and its ancestors *)

Lemma prefix_snoc_cases (loc l : list string) tok : loc `prefix_of` l ++ [tok] <-> loc = l ++ [tok] \/ loc `prefix_of` l.
Proof.
  split.
  - intros [k E]. destruct k as [|x k _] using rev_ind; [left; by rewrite app_nil_r in E|]. right. rewrite app_assoc in E.
    apply snoc_inj in E as [-> _]. by exists k.
  - intros [->|[k ->]]; [done|]. exists (k ++ [tok]). by rewrite app_assoc.
Qed.

Lemma apply_up_spec f tokens t :
  (forall loc, loc `prefix_of` reverse tokens -> exists r, t !! loc = Some r /\ is_Some (f r)) ->
  exists t', apply_up tokens f t = Some t'
    /\ forall loc, t' !! loc = if decide (loc `prefix_of` reverse tokens) then t !! loc ≫= f else t !! loc.
Proof.
  revert t. induction tokens as [|tok rest IH]; intros t H; cbn [apply_up].
  - destruct (H [] (prefix_nil _)) as (r & Hr & [r' Hr']). change (reverse (@nil string)) with (@nil string).
    rewrite Hr. cbn [mbind option_bind]. rewrite Hr'. cbn [mbind option_bind]. eexists. split; [done|].
    intros loc. destruct (decide (loc `prefix_of` [])) as [Hp|Hp].
    + apply prefix_nil_inv in Hp as ->. by rewrite lookup_insert_eq, Hr.
    + apply lookup_insert_ne. intros <-. apply Hp. apply prefix_nil.
  - destruct (H (reverse (tok :: rest)) ltac:(done)) as (r & Hr & [r' Hr']). rewrite Hr. cbn [mbind option_bind].
    rewrite Hr'. cbn [mbind option_bind]. rewrite reverse_cons in *. set (l := reverse rest) in *.
    destruct (IH (<[l ++ [tok] := r']> t)) as (t' & -> & Ht').
    + intros loc Hp. destruct (H loc) as (r0 & H1 & H2); [apply prefix_snoc_cases; by right|]. exists r0.
      rewrite lookup_insert_ne; [done|]. intros <-. destruct Hp as [k E]. rewrite <- app_assoc in E.
      apply (f_equal length) in E. rewrite !length_app in E. cbn in E. lia.
    + eexists. split; [done|]. intros loc. rewrite Ht'. destruct (decide (loc = l ++ [tok])) as [->|Hne].
      * rewrite (decide_True (P := l ++ [tok] `prefix_of` l ++ [tok])) by done. rewrite decide_False, lookup_insert_eq, Hr; [done|].
        intros [k E]. rewrite <- app_assoc in E. apply (f_equal length) in E. rewrite !length_app in E. cbn in E. lia.
      * rewrite lookup_insert_ne by done. destruct (decide (loc `prefix_of` l)) as [Hp|Hp].
        -- rewrite decide_True; [done|]. apply prefix_snoc_cases. by right.
        -- rewrite decide_False; [done|]. by intros [?|?]%prefix_snoc_cases.
Qed.

Record keeps (r r' : Role) : Prop := {
  kp_name : basename r' = basename r;
  kp_children : children_ r' = children_ r;
}.

(** Trees with the same roles and the same children. *)
Lemma shape_keeps t t' :
  tree_shape t -> (forall loc, is_Some (t' !! loc) <-> is_Some (t !! loc)) ->
  (forall loc r r', t !! loc = Some r -> t' !! loc = Some r' -> keeps r r') -> tree_shape t'.
Proof.
  intros Hs Hd Hk. split.
  - apply Hd, (ts_root t Hs).
  - intros loc tok H. apply Hd. apply (ts_up t Hs loc tok). by apply Hd.
  - intros loc r' tok Hr'. destruct (proj1 (Hd loc)) as [r Hr]; [by eexists|].
    rewrite (kp_children _ _ (Hk loc r r' Hr Hr')), Hd. by apply (ts_children t Hs).
  - intros loc tok r' Hr'. destruct (proj1 (Hd (loc ++ [tok]))) as [r Hr]; [by eexists|].
    rewrite (kp_name _ _ (Hk _ r r' Hr Hr')). by eapply (ts_name t Hs).
Qed.

Lemma children_at_keeps t t' loc :
  (forall loc, is_Some (t' !! loc) <-> is_Some (t !! loc)) ->
  (forall loc r r', t !! loc = Some r -> t' !! loc = Some r' -> keeps r r') ->
  children_at t' loc = children_at t loc.
Proof.
  intros Hd Hk. unfold children_at. destruct (t !! loc) as [r|] eqn:Hr.
  - destruct (proj2 (Hd loc)) as [r' Hr']; [by eexists|]. rewrite Hr'. apply (kp_children _ _ (Hk loc r r' Hr Hr')).
  - destruct (t' !! loc) as [r'|] eqn:Hr'; [|done]. destruct (proj1 (Hd loc)) as [r Hr2]; [by eexists|]. congruence.
Qed.

(** ** One role *)

Lemma set_role_spec t l r r' :
  tree_shape t -> t !! l = Some r -> keeps r r' -> let t' := <[l := r']> t in
  tree_shape t'
  /\ (forall loc, t' !! loc = if decide (loc = l) then Some r' else t !! loc)
  /\ (forall mu, mu r' = mu r -> forall loc, own mu t' loc = own mu t loc)
  /\ (full_but l t -> full_but l t').
Proof.
  intros Hs Hr Hk t'.
  assert (L : forall loc, t' !! loc = if decide (loc = l) then Some r' else t !! loc).
  { intros loc. unfold t'. destruct (decide (loc = l)) as [->|Hne]; [by rewrite lookup_insert_eq|by rewrite lookup_insert_ne]. }
  assert (Hd : forall loc, is_Some (t' !! loc) <-> is_Some (t !! loc)).
  { intros loc. rewrite L. destruct (decide (loc = l)) as [->|]; [rewrite Hr; by split; eexists|done]. }
  assert (Hkeep : forall loc r1 r1', t !! loc = Some r1 -> t' !! loc = Some r1' -> keeps r1 r1').
  { intros loc r1 r1' H1 H2. rewrite L in H2. destruct (decide (loc = l)) as [->|]; [|by rewrite H1 in H2; injection H2 as <-].
    rewrite Hr in H1. injection H1 as <-. by injection H2 as <-. }
  split_and!; [by eapply shape_keeps|done| |].
  - intros mu Hmu loc. assert (Hm : forall loc, mu_at mu t' loc = mu_at mu t loc).
    { intros l'. unfold mu_at. rewrite L. destruct (decide (l' = l)) as [->|]; [by rewrite Hr|done]. }
    unfold own. rewrite Hm. f_equal. apply below_ext; [by apply children_at_keeps|]. intros tok _. apply Hm.
  - intros Hf loc r1 H1 H2 H3. rewrite L, decide_False in H1 by done. by eapply Hf.
Qed.

(** ** A role and its ancestors *)

Lemma zsum_indicator (x : string) (d : Z) l :
  NoDup l -> zsum (fun y => if decide (y = x) then d else 0) l = if decide (x ∈ l) then d else 0.
Proof.
  induction 1 as [|y l Hy Hl IH]; [done|]. rewrite zsum_cons, IH. destruct (decide (y = x)) as [->|Hne].
  - rewrite decide_False by done. rewrite decide_True by (by left). lia.
  - destruct (decide (x ∈ l)) as [Hin|Hin]; [rewrite decide_True by (by right); lia|].
    rewrite decide_False; [lia|]. by intros [->|?]%elem_of_cons.
Qed.

Lemma zsum_plus {A} (f g : A -> Z) l : zsum (fun x => f x + g x) l = zsum f l + zsum g l.
Proof. induction l as [|x l IH]; [done|]. rewrite !zsum_cons, IH. lia. Qed.

Definition on_role (l : list string) (d : Z) (loc : list string) : Z := if decide (loc = l) then d else 0.

Lemma zsum_zero {A} (f : A -> Z) l : (forall x, x ∈ l -> f x = 0) -> zsum f l = 0.
Proof. induction l as [|x l IH]; [done|]. intros H. rewrite zsum_cons, (H x), IH; [done| |by left]. intros y Hy. apply H. by right. Qed.

Section Applied.
  Context (f : Role -> option Role) (l : list string) (t t' : RoleTree).
  Hypothesis Hs : tree_shape t.
  Hypothesis Hl : is_Some (t !! l).
  Hypothesis L : forall loc, t' !! loc = if decide (loc `prefix_of` l) then t !! loc ≫= f else t !! loc.
  Hypothesis Hf : forall loc r, loc `prefix_of` l -> t !! loc = Some r -> exists r', f r = Some r' /\ keeps r r'.

Lemma applied_on loc :
  loc `prefix_of` l -> exists r r', t !! loc = Some r /\ t' !! loc = Some r' /\ f r = Some r' /\ keeps r r'.
Proof.
  intros Hp. assert (Hp' := Hp). destruct Hp' as [k Ek]. rewrite Ek in Hl. destruct (ts_prefix t loc k Hs Hl) as [r Hr].
  destruct (Hf loc r Hp Hr) as (r' & Hr' & Hk). exists r, r'. rewrite L, decide_True, Hr by done. by split_and!.
Qed.

Lemma applied_off loc : ~ loc `prefix_of` l -> t' !! loc = t !! loc.
Proof. intros Hp. by rewrite L, decide_False. Qed.

Lemma applied_dom loc : is_Some (t' !! loc) <-> is_Some (t !! loc).
Proof.
  destruct (decide (loc `prefix_of` l)) as [Hp|Hp]; [|by rewrite applied_off].
  destruct (applied_on loc Hp) as (r & r' & -> & -> & _). by split; eexists.
Qed.

Lemma applied_keeps loc r r' : t !! loc = Some r -> t' !! loc = Some r' -> keeps r r'.
Proof.
  intros H1 H2. destruct (decide (loc `prefix_of` l)) as [Hp|Hp].
  - destruct (applied_on loc Hp) as (r0 & r0' & E1 & E2 & _ & Hk). rewrite E1 in H1. rewrite E2 in H2.
    by injection H1 as <-; injection H2 as <-.
  - rewrite applied_off, H1 in H2 by done. by injection H2 as <-.
Qed.

Lemma applied_shape : tree_shape t'.
Proof. eapply shape_keeps; [exact Hs|apply applied_dom|apply applied_keeps]. Qed.

(** The child on the way to [l], if [loc] is above [l]. *)
Lemma child_on_way loc x k : l = loc ++ x :: k -> x ∈ children_at t loc.
Proof.
  intros E. destruct (applied_on loc) as (r & r' & E1 & _); [by exists (x :: k)|]. unfold children_at. rewrite E1.
  apply (ts_children t Hs loc r x E1). rewrite E in Hl.
  replace (loc ++ x :: k) with ((loc ++ [x]) ++ k) in Hl by (by rewrite <- app_assoc). by eapply ts_prefix.
Qed.

(** How many children of a role are on the way to [l]. *)
Lemma children_on_way (d : Z) loc :
  zsum (fun tok => if decide (loc ++ [tok] `prefix_of` l) then d else 0) (elements (children_at t loc))
  = if decide (loc `prefix_of` l /\ loc <> l) then d else 0.
Proof.
  destruct (decide (loc `prefix_of` l /\ loc <> l)) as [[[[|x k] Ek] Hne]|Hn].
  - rewrite app_nil_r in Ek. congruence.
  - rewrite (zsum_ext _ (fun tok => if decide (tok = x) then d else 0)).
    + rewrite zsum_indicator by apply NoDup_elements. rewrite decide_True; [done|]. apply elem_of_elements.
      by eapply child_on_way.
    + intros y _. destruct (decide (y = x)) as [->|Hyx].
      * rewrite decide_True; [done|]. exists k. by rewrite <- app_assoc.
      * rewrite decide_False; [done|]. intros [k' E]. rewrite Ek, <- app_assoc in E. apply app_inv_head in E. by injection E.
  - apply zsum_zero. intros x _. apply decide_False. intros [k E]. apply Hn. rewrite <- app_assoc in E. split.
    + by exists ([x] ++ k).
    + intros ->. apply (f_equal length) in E. rewrite length_app in E. cbn in E. lia.
Qed.

Lemma applied_own mu d :
  (forall loc r r', loc `prefix_of` l -> t !! loc = Some r -> f r = Some r' -> mu r' = mu r + d) ->
  forall loc, own mu t' loc = own mu t loc + on_role l d loc.
Proof.
  intros Hmu loc.
  assert (Hm : forall loc, mu_at mu t' loc = mu_at mu t loc + if decide (loc `prefix_of` l) then d else 0).
  { intros l'. unfold mu_at. destruct (decide (l' `prefix_of` l)) as [Hp|Hp]; [|rewrite applied_off by done; lia].
    destruct (applied_on l' Hp) as (r & r' & E1 & E2 & E3 & _). rewrite E1, E2. by eapply Hmu. }
  unfold own, below. rewrite Hm, (children_at_keeps t t' loc applied_dom applied_keeps).
  rewrite (zsum_ext _ (fun tok => mu_at mu t (loc ++ [tok]) + if decide (loc ++ [tok] `prefix_of` l) then d else 0))
    by (intros tok _; apply Hm).
  rewrite zsum_plus, children_on_way. unfold on_role. destruct (decide (loc = l)) as [->|Hne].
  - rewrite decide_True by done. rewrite decide_False by (by intros [_ ?]). lia.
  - destruct (decide (loc `prefix_of` l)) as [Hp|Hp]; [rewrite decide_True by done|rewrite decide_False by (by intros [? _])]; lia.
Qed.

Lemma applied_full : full_but l t -> full_but l t'.
Proof.
  intros Hfull loc r' Hr' H1 H2. destruct (decide (loc `prefix_of` l)) as [[[|x k] Ek]|Hp].
  - rewrite app_nil_r in Ek. congruence.
  - apply (child_nonempty _ x). assert (Hx := child_on_way loc x k Ek).
    rewrite <- (children_at_keeps t t' loc applied_dom applied_keeps) in Hx. unfold children_at in Hx. by rewrite Hr' in Hx.
  - rewrite applied_off in Hr' by done. by eapply Hfull.
Qed.
End Applied.
