(* ===== verification/RoleLedger.v ===== *)
(** * What the tree of roles promises

    The tree of [RoleTree.v] as a flat table: of every role its quota, its
    weight, its frameworks, the quantities reserved for the role itself, and
    what is offered and allocated to the role itself on each agent.  The calls
    of [RoleTree] change the table at the roles that they name and nowhere
    else, and the tree holds exactly the roles about which the table says
    something, with their ancestors. *)

From stdpp Require Import base gmap strings list.
From Stdlib Require Import ZArith QArith.
From S2P Require Import Prelude Strings Ranges Scalar Values Quantities Registry Resource Resources ResourceOps Conversions Quota SorterTree DrfSorter SorterAccounts RoleTree.
Local Open Scope Z_scope.

(** ** The table *)

Record ledger := mkLedger {
  l_quota : list string -> Quota;
  l_weight : list string -> double;
  l_frameworks : list string -> gset string;
  l_reserved : list string -> string -> Z;
  l_tracked : tracker -> list string -> string -> Resource -> Z;
}.

Definition ledger_of (t : RoleTree) : ledger :=
  mkLedger (quota_of t) (weight_of t) (frameworks_of t)
    (fun loc n => own (reserved_mu n) t loc) (fun w loc g k => own (tracked_mu w g k) t loc).

Record same_ledger (a b : ledger) : Prop := {
  sl_quota : forall loc, l_quota a loc = l_quota b loc;
  sl_weight : forall loc, (l_weight a loc == l_weight b loc)%Q;
  sl_frameworks : forall loc, l_frameworks a loc = l_frameworks b loc;
  sl_reserved : forall loc n, l_reserved a loc n = l_reserved b loc n;
  sl_tracked : forall w loc g k, wf_resource k -> l_tracked a w loc g k = l_tracked b w loc g k;
}.

#[export] Instance same_ledger_equivalence : Equivalence same_ledger.
Proof.
  split.
  - intros a. by split.
  - intros a b [H1 H2 H3 H4 H5]. split; intros; symmetry; auto.
  - intros a b c [A1 A2 A3 A4 A5] [B1 B2 B3 B4 B5]. split; intros.
    + by rewrite A1, B1.
    + by rewrite A2, B2.
    + by rewrite A3, B3.
    + by rewrite A4, B4.
    + by rewrite A5, B5.
Qed.

(** [f] with another value at [l]. *)
Definition at_role {A} (l : list string) (x : A) (f : list string -> A) (loc : list string) : A :=
  if decide (loc = l) then x else f loc.

Definition set_quota (l : list string) (q : Quota) (b : ledger) : ledger :=
  mkLedger (at_role l q (l_quota b)) (l_weight b) (l_frameworks b) (l_reserved b) (l_tracked b).
Definition set_weight (l : list string) (x : double) (b : ledger) : ledger :=
  mkLedger (l_quota b) (at_role l x (l_weight b)) (l_frameworks b) (l_reserved b) (l_tracked b).
Definition set_frameworks (l : list string) (f : gset string) (b : ledger) : ledger :=
  mkLedger (l_quota b) (l_weight b) (at_role l f (l_frameworks b)) (l_reserved b) (l_tracked b).
Definition add_reserved (d : list string -> string -> Z) (b : ledger) : ledger :=
  mkLedger (l_quota b) (l_weight b) (l_frameworks b) (fun loc n => l_reserved b loc n + d loc n) (l_tracked b).
Definition add_tracked (d : tracker -> list string -> string -> Resource -> Z) (b : ledger) : ledger :=
  mkLedger (l_quota b) (l_weight b) (l_frameworks b) (l_reserved b) (fun w loc g k => l_tracked b w loc g k + d w loc g k).

Ltac table := cbn [l_quota l_weight l_frameworks l_reserved l_tracked ledger_of set_quota set_weight set_frameworks
                     add_reserved add_tracked].

(** ** Invariants *)

Record tree_books (t : RoleTree) : Prop := {
  tb_shape : tree_shape t;
  tb_ok : roles_ok t;
  tb_tied : tied t;
  tb_reserved : forall loc n, 0 <= own (reserved_mu n) t loc;
  tb_tracked : forall w loc g k, wf_resource k -> 0 <= own (tracked_mu w g k) t loc;
}.

Record tree_inv (t : RoleTree) : Prop := {
  ti_books : tree_books t;
  ti_full : full t;
}.

(** Between the steps of a call: the role at [l] may have no reason to be there. *)
Record almost (l : list string) (t : RoleTree) : Prop := {
  al_books : tree_books t;
  al_full : full_but l t;
  al_there : is_Some (t !! l);
}.

Lemma reshaped_books t t' : reshaped t t' -> tree_books t -> tree_books t' /\ same_ledger (ledger_of t') (ledger_of t).
Proof.
  intros R [B1 B2 B3 B4 B5]. assert (R' := R). destruct R' as [R1 R2 R3 R4 R5 R6]. split; split; cbn; try done.
  - by apply R6.
  - by eapply reshaped_tied.
  - intros loc n. by rewrite R2 by apply reserved_additive.
  - intros w loc g k Hk. rewrite R2 by apply tracked_additive. by apply B5.
  - intros loc n. by apply R2, reserved_additive.
  - intros w loc g k _. by apply R2, tracked_additive.
Qed.

(** *** Creating and removing roles *)

Lemma index_almost t role :
  tree_inv t -> exists t', index t role = Some t' /\ almost (role_location role) t' /\ same_ledger (ledger_of t') (ledger_of t).
Proof.
  intros [Hb Hf]. destruct (index_spec t role (tb_shape t Hb) Hf) as (t' & H1 & R & H2 & H3).
  destruct (reshaped_books t t' R Hb) as [Hb' Hl]. exists t'. by split_and!.
Qed.

Lemma inv_almost t l : tree_inv t -> is_Some (t !! l) -> almost l t.
Proof. intros [Hb Hf] Hl. split; [done|by apply full_full_but|done]. Qed.

Lemma tryRemove_inv t role :
  almost (role_location role) t ->
  exists t' b, tryRemove t role = Some (t', b) /\ tree_inv t' /\ same_ledger (ledger_of t') (ledger_of t).
Proof.
  intros [Hb Hf Hl]. destruct (tryRemove_spec t role) as (t' & b & H1 & R & H2); try apply Hb; try done.
  destruct (reshaped_books t t' R Hb) as [Hb' Hs]. by exists t', b.
Qed.

(** *** Changing one role *)

(** A change of a role that leaves its place and its accounts alone. *)
Record same_accounts (r r' : Role) : Prop := {
  sa_keeps : keeps r r';
  sa_reserved : reservationScalarQuantities_ r' = reservationScalarQuantities_ r;
  sa_tracked : forall w, tracked w r' = tracked w r;
}.

Lemma at_role_fun {A} (p : Role -> A) (d : A) (l loc : list string) (r' : Role) (t : RoleTree) :
  match <[l := r']> t !! loc with Some r => p r | None => d end
  = at_role l (p r') (fun loc => match t !! loc with Some r => p r | None => d end) loc.
Proof. unfold at_role. destruct (decide (loc = l)) as [->|Hn]; [by rewrite lookup_insert_eq|by rewrite lookup_insert_ne]. Qed.

Lemma set_role_almost l t r r' :
  almost l t -> t !! l = Some r -> same_accounts r r' ->
  (frameworks_ r' = ∅ -> forall w g k, wf_resource k -> l_tracked (ledger_of t) w l g k = 0) ->
  almost l (<[l := r']> t)
  /\ same_ledger (ledger_of (<[l := r']> t))
       (set_quota l (quota_ r') (set_weight l (weight_ r') (set_frameworks l (frameworks_ r') (ledger_of t)))).
Proof.
  intros [Hb Hf Hin] Hr [Hk Er Et] Hfr. destruct (set_role_spec t l r r' (tb_shape t Hb) Hr Hk) as (S1 & S2 & S3 & S4).
  assert (O1 : forall n loc, own (reserved_mu n) (<[l := r']> t) loc = own (reserved_mu n) t loc).
  { intros n. apply S3. unfold reserved_mu. by rewrite Er. }
  assert (O2 : forall w g k loc, own (tracked_mu w g k) (<[l := r']> t) loc = own (tracked_mu w g k) t loc).
  { intros w g k. apply S3. unfold tracked_mu. by rewrite Et. }
  split; [split; [split|by apply S4|rewrite S2, decide_True by done; by eexists]|split]; cbn.
  - done.
  - intros loc r0 H0. rewrite S2 in H0. destruct (decide (loc = l)) as [->|Hne]; [|by eapply (tb_ok t Hb)].
    injection H0 as <-. destruct (tb_ok t Hb l r Hr) as [B1 B2]. split; [by rewrite Er|]. intros w. by rewrite Et.
  - intros loc w g k Hw Hfs. rewrite O2. destruct (decide (loc = l)) as [->|Hne].
    + apply Hfr; [|done]. unfold frameworks_of in Hfs. by rewrite lookup_insert_eq in Hfs.
    + apply (tb_tied t Hb); [done|]. unfold frameworks_of in *. by rewrite lookup_insert_ne in Hfs.
  - intros loc n. rewrite O1. apply (tb_reserved t Hb).
  - intros w loc g k Hw. rewrite O2. by apply (tb_tracked t Hb).
  - intros loc. exact (at_role_fun quota_ _ l loc r' t).
  - intros loc. by rewrite (at_role_fun weight_ DEFAULT_WEIGHT l loc r' t : weight_of _ loc = _).
  - intros loc. exact (at_role_fun frameworks_ _ l loc r' t).
  - intros. apply O1.
  - intros. apply O2.
Qed.

(** *** Changing a role and its ancestors *)

(** What a role has, its ancestors have too. *)
Section Above.
  Context (mu : Role -> Z) (t : RoleTree).
  Hypothesis Hs : tree_shape t.
  Hypothesis own_nonneg : forall loc, 0 <= own mu t loc.
  Hypothesis mu_nonneg : forall loc, 0 <= mu_at mu t loc.

Lemma below_nonneg loc l : 0 <= zsum (fun tok => mu_at mu t (loc ++ [tok])) l.
Proof using mu_nonneg. apply zsum_nonneg. intros; apply mu_nonneg. Qed.

Lemma mu_parent loc x : is_Some (t !! (loc ++ [x])) -> mu_at mu t (loc ++ [x]) <= mu_at mu t loc.
Proof using Hs own_nonneg mu_nonneg.
  intros H. destruct (ts_up t Hs loc x H) as [r Hr]. assert (Hx : x ∈ elements (children_at t loc)).
  { unfold children_at. rewrite Hr. apply elem_of_elements. by apply (ts_children t Hs loc r x). }
  specialize (own_nonneg loc). unfold own, below in own_nonneg. apply list_elem_of_split in Hx as (l1 & l2 & E).
  rewrite E, zsum_app, zsum_cons in own_nonneg. assert (H1 := below_nonneg loc l1). assert (H2 := below_nonneg loc l2). lia.
Qed.

Lemma own_above loc l : loc `prefix_of` l -> is_Some (t !! l) -> own mu t l <= mu_at mu t loc.
Proof using Hs own_nonneg mu_nonneg.
  intros [k ->] Hl. trans (mu_at mu t (loc ++ k)).
  { unfold own, below. assert (H := below_nonneg (loc ++ k) (elements (children_at t (loc ++ k)))). lia. }
  revert Hl. induction k as [|x k IH] using rev_ind; [by rewrite app_nil_r|]. rewrite app_assoc. intros Hl.
  trans (mu_at mu t (loc ++ k)); [by apply mu_parent|]. apply IH. by eapply (ts_up t Hs).
Qed.
End Above.

Lemma reserved_above t l loc r n :
  tree_books t -> is_Some (t !! l) -> loc `prefix_of` l -> t !! loc = Some r ->
  l_reserved (ledger_of t) l n <= Quantities.get (reservationScalarQuantities_ r) n.
Proof.
  intros Hb Hl Hp Hr. assert (H := own_above (reserved_mu n) t (tb_shape t Hb)). unfold mu_at in H.
  specialize (H (fun loc => tb_reserved t Hb loc n)). cbn. specialize (H ltac:(intros loc'; destruct (t !! loc') as [r'|] eqn:E;
    [apply get_nonneg, (tb_ok t Hb loc' r' E)|done]) loc l Hp Hl). by rewrite Hr in H.
Qed.

Lemma tracked_above t l loc r w g k :
  tree_books t -> is_Some (t !! l) -> loc `prefix_of` l -> t !! loc = Some r -> wf_resource k ->
  l_tracked (ledger_of t) w l g k <= totals_held (tracked w r) g k.
Proof.
  intros Hb Hl Hp Hr Hk. assert (H := own_above (tracked_mu w g k) t (tb_shape t Hb)). unfold mu_at in H.
  specialize (H (fun loc => tb_tracked t Hb w loc g k Hk)). cbn. specialize (H ltac:(intros loc'; destruct (t !! loc') as [r'|] eqn:E;
    [apply held_nonneg, on_agent_scalar, (rb_tracked r' (tb_ok t Hb loc' r' E) w)|done]) loc l Hp Hl). by rewrite Hr in H.
Qed.

(** A change of the accounts of a role: the reserved quantities grow by [dr],
    the totals by [dt]. *)
Record posts (dr : string -> Z) (dt : tracker -> string -> Resource -> Z) (r r' : Role) : Prop := {
  po_keeps : keeps r r';
  po_same : quota_ r' = quota_ r /\ weight_ r' = weight_ r /\ frameworks_ r' = frameworks_ r;
  po_books : role_books r';
  po_reserved : forall n, reserved_mu n r' = reserved_mu n r + dr n;
  po_tracked : forall w g k, wf_resource k -> tracked_mu w g k r' = tracked_mu w g k r + dt w g k;
}.

Lemma apply_to_role_almost t role f dr dt :
  almost (role_location role) t ->
  (forall loc r, loc `prefix_of` role_location role -> t !! loc = Some r -> exists r', f r = Some r' /\ posts dr dt r r') ->
  (forall n, 0 <= l_reserved (ledger_of t) (role_location role) n + dr n) ->
  (forall w g k, wf_resource k -> 0 <= l_tracked (ledger_of t) w (role_location role) g k + dt w g k) ->
  (l_frameworks (ledger_of t) (role_location role) = ∅ -> forall w g k, wf_resource k -> dt w g k = 0) ->
  exists t', apply_to_role t role f = Some t' /\ almost (role_location role) t'
    /\ same_ledger (ledger_of t')
         (add_reserved (fun loc n => on_role (role_location role) (dr n) loc)
            (add_tracked (fun w loc g k => on_role (role_location role) (dt w g k) loc) (ledger_of t))).
Proof.
  set (l := role_location role). intros [Hb Hf Hin] Hpost Hr0 Ht0 Hfr. assert (Hs := tb_shape t Hb). unfold apply_to_role. fold l.
  destruct (apply_up_spec f (reverse l) t) as (t' & -> & L).
  { rewrite reverse_involutive. intros loc Hp. assert (Hp' := Hp). destruct Hp' as [k Ek]. rewrite Ek in Hin.
    destruct (ts_prefix t loc k Hs Hin) as [r Hr]. exists r. split; [done|]. destruct (Hpost loc r Hp Hr) as (r' & H & _).
    by exists r'. }
  rewrite reverse_involutive in L. exists t'. split; [done|].
  assert (Hk : forall loc r, loc `prefix_of` l -> t !! loc = Some r -> exists r', f r = Some r' /\ keeps r r').
  { intros loc r Hp Hr. destruct (Hpost loc r Hp Hr) as (r' & H & HP). exists r'. split; [done|apply HP]. }
  assert (O1 : forall n loc, own (reserved_mu n) t' loc = own (reserved_mu n) t loc + on_role l (dr n) loc).
  { intros n. apply (applied_own f l t t' Hs Hin L Hk). intros loc r r' Hp Hr E.
    destruct (Hpost loc r Hp Hr) as (r0 & H & HP). rewrite E in H. injection H as <-. apply HP. }
  assert (O2 : forall w g k loc, wf_resource k -> own (tracked_mu w g k) t' loc = own (tracked_mu w g k) t loc + on_role l (dt w g k) loc).
  { intros w g k loc Hw. apply (applied_own f l t t' Hs Hin L Hk). clear loc. intros loc r r' Hp Hr E.
    destruct (Hpost loc r Hp Hr) as (r0 & H & HP). rewrite E in H. injection H as <-. by apply HP. }
  assert (V : forall loc, quota_of t' loc = quota_of t loc /\ weight_of t' loc = weight_of t loc /\ frameworks_of t' loc = frameworks_of t loc).
  { intros loc. unfold quota_of, weight_of, frameworks_of. destruct (decide (loc `prefix_of` l)) as [Hp|Hp].
    - destruct (applied_on f l t t' Hs Hin L Hk loc Hp) as (r & r' & E1 & E2 & E3 & _). rewrite E1, E2.
      destruct (Hpost loc r Hp E1) as (r0 & H & HP). rewrite E3 in H. injection H as <-. apply HP.
    - by rewrite (applied_off f l t t' L loc Hp). }
  split; [split; [split|by eapply (applied_full f)|by apply (applied_dom f l t t' Hs Hin L Hk)]|split]; cbn.
  - by eapply (applied_shape f).
  - intros loc r' Hr'. destruct (decide (loc `prefix_of` l)) as [Hp|Hp].
    + destruct (applied_on f l t t' Hs Hin L Hk loc Hp) as (r & r0 & E1 & E2 & E3 & _). rewrite Hr' in E2. injection E2 as <-.
      destruct (Hpost loc r Hp E1) as (r0 & H & HP). rewrite E3 in H. injection H as <-. apply HP.
    + rewrite (applied_off f l t t' L loc Hp) in Hr'. by eapply (tb_ok t Hb).
  - intros loc w g k Hw E. destruct (V loc) as (_ & _ & Ef). rewrite Ef in E. rewrite O2, (tb_tied t Hb) by done.
    unfold on_role. destruct (decide (loc = l)) as [->|]; [|done]. by rewrite Hfr.
  - intros loc n. rewrite O1. unfold on_role. destruct (decide (loc = l)) as [->|]; [apply Hr0|].
    assert (H := tb_reserved t Hb loc n). lia.
  - intros w loc g k Hw. rewrite O2 by done. unfold on_role. destruct (decide (loc = l)) as [->|]; [by apply Ht0|].
    assert (H := tb_tracked t Hb w loc g k Hw). lia.
  - intros loc. apply V.
  - intros loc. destruct (V loc) as (_ & -> & _). done.
  - intros loc. apply V.
  - intros. apply O1.
  - intros. by apply O2.
Qed.

Lemma almost_inv l t :
  almost l t -> (forall r, t !! l = Some r -> role_isEmpty r = false) -> tree_inv t.
Proof.
  intros [Hb Hf _] H. split; [done|]. intros loc r Hr Hn. destruct (decide (loc = l)) as [->|Hne]; [by apply H|by eapply Hf].
Qed.

(** ** Reservations *)

(** A resource that can be reserved: scalar, valid, not empty, with a
    reservation. *)
Record reservation (r : Resource) : Prop := {
  rv_wf : wf_resource r;
  rv_scalar : rtype r = SCALAR;
  rv_valid : resource_validate r = None;
  rv_nonempty : isEmpty r = false;
  rv_reserved : isReserved None r = true;
}.

Definition quantity (r : Resource) (n : string) : Z := if decide (Resource.name r = n) then scalar_of (value r) else 0.

(** What the reservations in [l] are worth for the role at [loc]. *)
Definition reserved_for (l : list Resource) (loc : list string) (n : string) : Z :=
  zsum (fun r => on_role (role_location (default EmptyString (reservationRole r))) (quantity r n) loc) l.

Lemma reserved_one r role loc n :
  reservationRole r = Some role -> reserved_for [r] loc n = on_role (role_location role) (quantity r n) loc.
Proof. intros E. unfold reserved_for. rewrite zsum_cons, E. apply Z.add_0_r. Qed.

Lemma on_role_eq l d : on_role l d l = d.
Proof. unfold on_role. by rewrite decide_True. Qed.

Lemma reservation_spec r :
  reservation r ->
  exists role q, reservationRole r = Some role /\ fromScalarResources (of_resource r) = Some q /\ wf_quantities q
    /\ (forall n, Quantities.get q n = quantity r n) /\ 0 < quantity r (Resource.name r).
Proof.
  intros [H1 H2 H3 H4 H5]. unfold isReserved, isUnreserved in H5. rewrite andb_true_r in H5. apply negb_true_iff, bool_decide_eq_false in H5.
  destruct (last (reservations r)) as [i|] eqn:El; [|by apply last_None in El].
  exists (rv_role_ i). rewrite of_resource_eq, H3, H4. unfold reservationRole, last_reservation. rewrite El.
  unfold fromScalarResources, to_list. cbn [map resource to_Resource_ add_scalars].
  unfold rtype in H2. unfold isEmpty in H4. assert (Hv := wr_value r H1). unfold quantity.
  destruct (value r) as [z| | |]; try done. cbn in Hv, H4. apply Z.eqb_neq in H4.
  destruct (quantities_add_total [] (Resource.name r) z wf_empty Hv) as (q & Hq & Hw). rewrite Hq. cbn. exists q.
  split_and!; try done; [|rewrite decide_True by done; lia]. intros n. rewrite (get_add _ _ _ _ n wf_empty Hq). done.
Qed.

Lemma reservations_post q r :
  role_books r -> wf_quantities q ->
  posts (Quantities.get q) (fun _ _ _ => 0) r (with_reservations_ (Quantities.plus (reservationScalarQuantities_ r) q) r).
Proof.
  intros [B1 B2] Hq. split; [done|done|split; [by apply wf_plus|intros w; specialize (B2 w); by destruct w]| |].
  - intros n. unfold reserved_mu. cbn [reservationScalarQuantities_ with_reservations_]. rewrite get_plus by (apply B1 || apply Hq). done.
  - intros w g k _. unfold tracked_mu. destruct w; cbn; lia.
Qed.

Lemma reservations_unpost q r :
  role_books r -> wf_quantities q -> (forall n, Quantities.get q n <= Quantities.get (reservationScalarQuantities_ r) n) ->
  posts (fun n => - Quantities.get q n) (fun _ _ _ => 0) r
    (with_reservations_ (Quantities.minus (reservationScalarQuantities_ r) q) r).
Proof.
  intros [B1 B2] Hq Hle. split; [done|done|split; [by apply wf_minus|intros w; specialize (B2 w); by destruct w]| |].
  - intros n. unfold reserved_mu. cbn [reservationScalarQuantities_ with_reservations_]. rewrite get_minus by done. specialize (Hle n). lia.
  - intros w g k _. unfold tracked_mu. destruct w; cbn; lia.
Qed.

Lemma own_absent mu t loc : t !! loc = None -> own mu t loc = 0.
Proof. intros E. unfold own, mu_at, below, children_at. by rewrite E, elements_empty. Qed.

(** The table after a change of one role's reservations. *)
Lemma posted_reserved b l r role d :
  reservationRole r = Some role -> l = role_location role -> (forall n, d n = quantity r n) ->
  same_ledger (add_reserved (fun loc n => on_role l (d n) loc) (add_tracked (fun w loc g k => on_role l 0 loc) b))
    (add_reserved (reserved_for [r]) b).
Proof.
  intros Er -> Hd. split; table; try done.
  - intros loc n. by rewrite (reserved_one r role), Hd.
  - intros w loc g k _. unfold on_role. destruct (decide _); lia.
Qed.

Lemma add_reserved_proper d b b' : same_ledger b b' -> same_ledger (add_reserved d b) (add_reserved d b').
Proof. intros [H1 H2 H3 H4 H5]. split; cbn; try done. intros. by rewrite H4. Qed.

Lemma add_tracked_proper d b b' : same_ledger b b' -> same_ledger (add_tracked d b) (add_tracked d b').
Proof. intros [H1 H2 H3 H4 H5]. split; cbn; try done. intros. by rewrite H5. Qed.

Lemma track_reservation_ok t r :
  tree_inv t -> reservation r ->
  exists t', track_reservation r t = Some t' /\ tree_inv t'
    /\ same_ledger (ledger_of t') (add_reserved (reserved_for [r]) (ledger_of t)).
Proof.
  intros Ht Hr. destruct (reservation_spec r Hr) as (role & q & Er & Eq & Hq & Hn & Hpos).
  unfold track_reservation. rewrite (rv_reserved r Hr), Er, Eq. cbn [negb mbind option_bind].
  destruct (index_almost t role Ht) as (t1 & -> & A1 & L1). cbn [mbind option_bind].
  destruct (apply_to_role_almost t1 role (fun current =>
      Some (with_reservations_ (Quantities.plus (reservationScalarQuantities_ current) q) current))
      (Quantities.get q) (fun _ _ _ => 0) A1) as (t2 & -> & A2 & L2).
  - intros loc r0 _ H0. eexists. split; [done|]. apply reservations_post; [|done]. by eapply (tb_ok t1 (al_books _ _ A1)).
  - intros n. assert (H := tb_reserved t1 (al_books _ _ A1) (role_location role) n). assert (G := get_nonneg q n Hq). table. lia.
  - intros w g k Hk. assert (H := tb_tracked t1 (al_books _ _ A1) w (role_location role) g k Hk). table. lia.
  - done.
  - exists t2. split; [done|].
    assert (L : same_ledger (ledger_of t2) (add_reserved (reserved_for [r]) (ledger_of t))).
    { rewrite L2, (posted_reserved _ _ r role) by done. by apply add_reserved_proper. }
    split; [|done]. apply (almost_inv _ _ A2). intros r' Hr'. apply not_true_iff_false. intros (Hc & _ & Hres & _)%isEmpty_spec.
    assert (H := sl_reserved _ _ L (role_location role) (Resource.name r)). revert H. table.
    rewrite (own_leaf _ _ _ _ Hr' Hc), (reserved_one r role), on_role_eq by done. unfold reserved_mu at 1. rewrite Hres.
    assert (H0 := tb_reserved t (ti_books t Ht) (role_location role) (Resource.name r)).
    change (Quantities.get [] (Resource.name r)) with 0. lia.
Qed.

Lemma untrack_reservation_ok t r :
  tree_inv t -> reservation r ->
  (forall loc n, reserved_for [r] loc n <= l_reserved (ledger_of t) loc n) ->
  exists t', untrack_reservation r t = Some t' /\ tree_inv t'
    /\ same_ledger (ledger_of t') (add_reserved (fun loc n => - reserved_for [r] loc n) (ledger_of t)).
Proof.
  intros Ht Hr Hle. destruct (reservation_spec r Hr) as (role & q & Er & Eq & Hq & Hn & Hpos).
  assert (Hle' : forall n, Quantities.get q n <= l_reserved (ledger_of t) (role_location role) n).
  { intros n. specialize (Hle (role_location role) n). by rewrite (reserved_one r role), on_role_eq, <- Hn in Hle. }
  unfold untrack_reservation. rewrite (rv_reserved r Hr), Er, Eq. cbn [negb mbind option_bind]. unfold get_role.
  destruct (t !! role_location role) as [r0|] eqn:E0.
  2:{ specialize (Hle' (Resource.name r)). cbn in Hle'. rewrite own_absent, Hn in Hle' by done. lia. }
  cbn [mbind option_bind]. assert (A1 := inv_almost t (role_location role) Ht ltac:(by eexists)).
  destruct (apply_to_role_almost t role (fun current =>
      if negb (Quantities.contains (reservationScalarQuantities_ current) q) then None
      else Some (with_reservations_ (Quantities.minus (reservationScalarQuantities_ current) q) current))
      (fun n => - Quantities.get q n) (fun _ _ _ => 0) A1) as (t2 & -> & A2 & L2).
  - intros loc r1 Hp H1. assert (B := tb_ok t (al_books _ _ A1) loc r1 H1).
    assert (G : forall n, Quantities.get q n <= Quantities.get (reservationScalarQuantities_ r1) n).
    { intros n. etrans; [apply Hle'|]. eapply reserved_above; [apply A1|apply A1|done|done]. }
    rewrite (proj2 (contains_get _ _ (rb_reserved _ B) Hq) G). cbn [negb]. eexists. split; [done|]. by apply reservations_unpost.
  - intros n. specialize (Hle' n). lia.
  - intros w g k Hk. assert (H := tb_tracked t (al_books _ _ A1) w (role_location role) g k Hk). table. lia.
  - done.
  - cbn [mbind option_bind]. destruct (tryRemove_inv t2 role A2) as (t3 & b & -> & I3 & L3). cbn [mbind option_bind]. exists t3. split_and!; [done..|].
    rewrite L3, L2. split; table; try done.
    + intros loc n. rewrite (reserved_one r role), Hn by done. unfold on_role. destruct (decide _); lia.
    + intros w loc g k _. unfold on_role. destruct (decide _); lia.
Qed.

Lemma reserved_for_cons r l loc n : reserved_for (r :: l) loc n = reserved_for [r] loc n + reserved_for l loc n.
Proof. exact (zsum_app _ [r] l). Qed.

Lemma reserved_for_nonneg l loc n : Forall reservation l -> 0 <= reserved_for l loc n.
Proof.
  intros H. apply zsum_nonneg. intros r Hr. rewrite Forall_forall in H. destruct (reservation_spec r (H r Hr)) as (role & q & _ & _ & Hq & Hn & _).
  rewrite <- Hn. unfold on_role. destruct (decide _); [by apply get_nonneg|done].
Qed.

Lemma trackReservations_ok l t :
  tree_inv t -> Forall reservation l ->
  exists t', for_each track_reservation l t = Some t' /\ tree_inv t'
    /\ same_ledger (ledger_of t') (add_reserved (reserved_for l) (ledger_of t)).
Proof.
  intros Ht Hl. revert t Ht. induction Hl as [|r l Hr Hl IH]; intros t Ht; cbn [for_each].
  { exists t. split_and!; [done..|]. split; table; try done. intros loc n. unfold reserved_for, zsum. cbn. lia. }
  destruct (track_reservation_ok t r Ht Hr) as (t1 & -> & I1 & L1). cbn [mbind option_bind].
  destruct (IH t1 I1) as (t2 & -> & I2 & L2). exists t2. split_and!; [done..|]. rewrite L2.
  rewrite (add_reserved_proper _ _ _ L1). split; table; try done. intros loc n. rewrite (reserved_for_cons r l). lia.
Qed.

Lemma untrackReservations_ok l t :
  tree_inv t -> Forall reservation l -> (forall loc n, reserved_for l loc n <= l_reserved (ledger_of t) loc n) ->
  exists t', for_each untrack_reservation l t = Some t' /\ tree_inv t'
    /\ same_ledger (ledger_of t') (add_reserved (fun loc n => - reserved_for l loc n) (ledger_of t)).
Proof.
  intros Ht Hl. revert t Ht. induction Hl as [|r l Hr Hl IH]; intros t Ht Hle; cbn [for_each].
  { exists t. split_and!; [done..|]. split; table; try done. intros loc n. unfold reserved_for, zsum. cbn. lia. }
  destruct (untrack_reservation_ok t r Ht Hr) as (t1 & -> & I1 & L1).
  { intros loc n. specialize (Hle loc n). rewrite reserved_for_cons in Hle. assert (H := reserved_for_nonneg l loc n Hl). lia. }
  cbn [mbind option_bind]. destruct (IH t1 I1) as (t2 & -> & I2 & L2).
  { intros loc n. rewrite (sl_reserved _ _ L1). table. specialize (Hle loc n). rewrite reserved_for_cons in Hle. revert Hle. table. lia. }
  exists t2. split_and!; [done..|]. rewrite L2.
  rewrite (add_reserved_proper _ _ _ L1). split; table; try done. intros loc n. rewrite (reserved_for_cons r l). lia.
Qed.

(** ** Offers and allocations *)

(** What the three totals take of the resources of a role. *)
Definition allocated_part (w : tracker) (rs : Resources) : Resources :=
  match w with Allocated_ => rs | _ => [] end.
Definition offered_part (w : tracker) (rs : Resources) : Resources :=
  match w with
  | Allocated_ => []
  | OfferedReserved => reserved None rs
  | OfferedUnreserved => nonRevocable (unreserved rs)
  end.

Lemma scalar_filter (f : Resource -> bool) rs : scalar_resources rs -> scalar_resources (ResourceOps.filter f rs).
Proof.
  intros [H1 H2 H3]. split; [by apply wf_filter|..]; apply Forall_forall; intros e He;
    apply list_elem_of_In, filter_In in He as [He _]; apply list_elem_of_In in He.
  - by apply (proj1 (Forall_forall _ _) H2).
  - by apply (proj1 (Forall_forall _ _) H3).
Qed.

Lemma allocated_part_scalar w rs : scalar_resources rs -> scalar_resources (allocated_part w rs).
Proof. intros H. destruct w; cbn; [done|apply scalar_nil..]. Qed.

Lemma offered_part_scalar w rs : scalar_resources rs -> scalar_resources (offered_part w rs).
Proof. intros H. destruct w; cbn; [apply scalar_nil|..]; by repeat apply scalar_filter. Qed.

(** What the resources by role in [l], all on one agent, are worth for the
    role at [loc]. *)
Definition charged (part : tracker -> Resources -> Resources) (slaveId : string) (l : list (string * Resources))
  (w : tracker) (loc : list string) (g : string) (k : Resource) : Z :=
  zsum (fun x => on_role (role_location x.1) (delta_on slaveId (amount_held (part w x.2)) g k) loc) l.

(** How a total changes, as [f] says, by a sign times the part of the resources. *)
Definition charges (sign : Z) (part : tracker -> Resources -> Resources) (slaveId : string)
  (f : Resources -> Role -> option Role) : Prop :=
  forall rs r, role_books r -> scalar_resources rs ->
    (forall w g k, wf_resource k -> 0 <= tracked_mu w g k r + sign * delta_on slaveId (amount_held (part w rs)) g k) ->
    exists r', f rs r = Some r'
      /\ posts (fun _ => 0) (fun w g k => sign * delta_on slaveId (amount_held (part w rs)) g k) r r'.

Lemma no_part g g' k : delta_on g (amount_held []) g' k = 0.
Proof. unfold delta_on. destruct (decide _); done. Qed.

Lemma enough_included a g rs :
  books a -> scalar_resources rs ->
  (forall g' k, wf_resource k -> 0 <= held a g' k + (-1) * delta_on g (amount_held rs) g' k) -> included rs (on_agent a g).
Proof.
  intros Ha Hrs H. apply held_included; [done..|]. intros k Hk. specialize (H g k Hk). unfold delta_on in H.
  rewrite decide_True in H by done. lia.
Qed.

Lemma trackAllocated_charges g :
  charges 1 allocated_part g (fun rs current =>
      a ← totals_add g rs (allocatedUnreservedNonRevocable current); Some (with_allocated a current)).
Proof.
  intros rs r [B1 B2] Hrs _. destruct (totals_add_books g rs _ (B2 Allocated_) Hrs) as (a & Ea & Ba & Ha). cbn [tracked] in Ea, Ha.
  rewrite Ea. cbn [mbind option_bind]. eexists. split; [done|]. split; try done.
  - split; [done|]. intros w. specialize (B2 w). by destruct w.
  - intros n. unfold reserved_mu. cbn [reservationScalarQuantities_ with_allocated]. lia.
  - intros w g' k Hk. unfold tracked_mu. destruct w; cbn [tracked with_allocated allocated_part allocatedUnreservedNonRevocable
      offeredOrAllocatedUnreservedNonRevocable offeredOrAllocatedReserved]; rewrite ?no_part, ?Ha by done; lia.
Qed.

Lemma untrackAllocated_charges g :
  charges (-1) allocated_part g (fun rs current =>
      a ← totals_subtract g rs (allocatedUnreservedNonRevocable current); Some (with_allocated a current)).
Proof.
  intros rs r [B1 B2] Hrs Hle. specialize (Hle Allocated_). cbn [allocated_part] in Hle.
  destruct (totals_subtract_books g rs _ (B2 Allocated_) Hrs) as (a & Ea & Ba & Ha).
  { apply enough_included; [apply B2|done|]. apply Hle. }
  cbn [tracked] in Ea, Ha. rewrite Ea. cbn [mbind option_bind]. eexists. split; [done|]. split; try done.
  - split; [done|]. intros w. specialize (B2 w). by destruct w.
  - intros n. unfold reserved_mu. cbn [reservationScalarQuantities_ with_allocated]. lia.
  - intros w g' k Hk. unfold tracked_mu. destruct w; cbn [tracked with_allocated allocated_part allocatedUnreservedNonRevocable
      offeredOrAllocatedUnreservedNonRevocable offeredOrAllocatedReserved]; rewrite ?no_part, ?Ha by done; lia.
Qed.

Lemma trackOffered_charges g :
  charges 1 offered_part g (fun rs current =>
      v ← totals_add g (reserved None rs) (offeredOrAllocatedReserved current);
      u ← totals_add g (nonRevocable (unreserved rs)) (offeredOrAllocatedUnreservedNonRevocable current);
      Some (with_offered u v current)).
Proof.
  intros rs r [B1 B2] Hrs _.
  destruct (totals_add_books g _ _ (B2 OfferedReserved) (offered_part_scalar OfferedReserved rs Hrs)) as (v & Ev & Bv & Hv).
  destruct (totals_add_books g _ _ (B2 OfferedUnreserved) (offered_part_scalar OfferedUnreserved rs Hrs)) as (u & Eu & Bu & Hu).
  cbn [tracked offered_part] in *. rewrite Ev, Eu. cbn [mbind option_bind]. eexists. split; [done|]. split; try done.
  - split; [done|]. intros w. specialize (B2 w). by destruct w.
  - intros n. unfold reserved_mu. cbn [reservationScalarQuantities_ with_offered]. lia.
  - intros w g' k Hk. unfold tracked_mu. destruct w; cbn [tracked with_offered offered_part allocatedUnreservedNonRevocable
      offeredOrAllocatedUnreservedNonRevocable offeredOrAllocatedReserved]; rewrite ?no_part, ?Hu, ?Hv by done; lia.
Qed.

Lemma untrackOffered_charges g :
  charges (-1) offered_part g (fun rs current =>
      v ← totals_subtract g (reserved None rs) (offeredOrAllocatedReserved current);
      u ← totals_subtract g (nonRevocable (unreserved rs)) (offeredOrAllocatedUnreservedNonRevocable current);
      Some (with_offered u v current)).
Proof.
  intros rs r [B1 B2] Hrs Hle.
  destruct (totals_subtract_books g _ _ (B2 OfferedReserved) (offered_part_scalar OfferedReserved rs Hrs)) as (v & Ev & Bv & Hv).
  { apply enough_included; [apply B2|by apply offered_part_scalar|]. apply (Hle OfferedReserved). }
  destruct (totals_subtract_books g _ _ (B2 OfferedUnreserved) (offered_part_scalar OfferedUnreserved rs Hrs)) as (u & Eu & Bu & Hu).
  { apply enough_included; [apply B2|by apply offered_part_scalar|]. apply (Hle OfferedUnreserved). }
  cbn [tracked offered_part] in *. rewrite Ev, Eu. cbn [mbind option_bind]. eexists. split; [done|]. split; try done.
  - split; [done|]. intros w. specialize (B2 w). by destruct w.
  - intros n. unfold reserved_mu. cbn [reservationScalarQuantities_ with_offered]. lia.
  - intros w g' k Hk. unfold tracked_mu. destruct w; cbn [tracked with_offered offered_part allocatedUnreservedNonRevocable
      offeredOrAllocatedUnreservedNonRevocable offeredOrAllocatedReserved]; rewrite ?no_part, ?Hu, ?Hv by done; lia.
Qed.

(** The resources in [l] are for roles with frameworks. *)
Definition chargeable (l : list (string * Resources)) (b : ledger) : Prop :=
  Forall (fun x => scalar_resources x.2 /\ l_frameworks b (role_location x.1) <> ∅) l.

Definition charge_step (f : Resources -> Role -> option Role) : string * Resources -> RoleTree -> option RoleTree :=
  fun '(role, rs) t => _ ← get_role t role; apply_to_role t role (f rs).

Lemma frameworks_there t l : frameworks_of t l <> ∅ -> exists r, t !! l = Some r /\ frameworks_ r <> ∅.
Proof. unfold frameworks_of. destruct (t !! l) as [r|]; [by exists r|done]. Qed.

Section Charges.
  Context (sign : Z) (part : tracker -> Resources -> Resources) (slaveId : string) (f : Resources -> Role -> option Role).
  Hypothesis Hsign : sign = 1 \/ sign = -1.
  Hypothesis Hpart : forall w rs, scalar_resources rs -> scalar_resources (part w rs).
  Hypothesis Hf : charges sign part slaveId f.

Lemma part_nonneg w rs g k : scalar_resources rs -> 0 <= delta_on slaveId (amount_held (part w rs)) g k.
Proof using Hpart. intros H. unfold delta_on. destruct (decide _); [|done]. by apply held_nonneg, Hpart. Qed.

(** Room for a charge: nothing sinks below zero. *)
Definition room (l : list (string * Resources)) (b : ledger) : Prop :=
  forall w loc g k, wf_resource k -> 0 <= l_tracked b w loc g k + sign * charged part slaveId l w loc g k.

Lemma charged_one role rs w loc g k :
  charged part slaveId [(role, rs)] w loc g k = on_role (role_location role) (delta_on slaveId (amount_held (part w rs)) g k) loc.
Proof using. unfold charged. rewrite zsum_cons. apply Z.add_0_r. Qed.

Lemma charged_cons x l w loc g k :
  charged part slaveId (x :: l) w loc g k = charged part slaveId [x] w loc g k + charged part slaveId l w loc g k.
Proof using. exact (zsum_app _ [x] l). Qed.

Lemma charged_nonneg l w loc g k : Forall (fun x => scalar_resources x.2) l -> 0 <= charged part slaveId l w loc g k.
Proof using Hpart.
  intros H. apply zsum_nonneg. intros x Hx. unfold on_role. destruct (decide _); [|done]. apply part_nonneg.
  by apply (proj1 (Forall_forall _ _) H).
Qed.

Lemma charge_one t role rs :
  tree_inv t -> scalar_resources rs -> l_frameworks (ledger_of t) (role_location role) <> ∅ -> room [(role, rs)] (ledger_of t) ->
  exists t', charge_step f (role, rs) t = Some t' /\ tree_inv t'
    /\ same_ledger (ledger_of t')
         (add_tracked (fun w loc g k => sign * charged part slaveId [(role, rs)] w loc g k) (ledger_of t)).
Proof using Hsign Hpart Hf.
  intros Ht Hrs Hfr Hroom. destruct (frameworks_there t _ Hfr) as (r0 & H0 & _). unfold charge_step, get_role. rewrite H0. cbn [mbind option_bind].
  assert (A := inv_almost t (role_location role) Ht ltac:(by eexists)).
  assert (Hr : forall w g k, wf_resource k ->
    0 <= l_tracked (ledger_of t) w (role_location role) g k + sign * delta_on slaveId (amount_held (part w rs)) g k).
  { intros w g k Hk. specialize (Hroom w (role_location role) g k Hk). by rewrite charged_one, on_role_eq in Hroom. }
  destruct (apply_to_role_almost t role (f rs) (fun _ => 0) (fun w g k => sign * delta_on slaveId (amount_held (part w rs)) g k) A)
    as (t2 & -> & A2 & L2).
  - intros loc r Hp H1. apply Hf; [by eapply (tb_ok t (al_books _ _ A))|done|]. intros w g k Hk.
    assert (G := tracked_above t _ loc r w g k (al_books _ _ A) (al_there _ _ A) Hp H1 Hk). specialize (Hr w g k Hk).
    unfold tracked_mu. lia.
  - intros n. assert (H := tb_reserved t (al_books _ _ A) (role_location role) n). table. lia.
  - done.
  - intros E. by rewrite E in Hfr.
  - exists t2. split; [done|].
    assert (L : same_ledger (ledger_of t2)
      (add_tracked (fun w loc g k => sign * charged part slaveId [(role, rs)] w loc g k) (ledger_of t))).
    { rewrite L2. split; table; try done.
      - intros loc n. unfold on_role. destruct (decide _); lia.
      - intros w loc g k _. rewrite charged_one. unfold on_role. destruct (decide _); lia. }
    split; [|done]. apply (almost_inv _ _ A2). intros r' Hr'. apply not_true_iff_false. intros (_ & E & _)%isEmpty_spec.
    apply Hfr. assert (H := sl_frameworks _ _ L (role_location role)). revert H. table. intros <-. unfold frameworks_of. by rewrite Hr'.
Qed.

Lemma charge_all l t :
  tree_inv t -> chargeable l (ledger_of t) -> room l (ledger_of t) ->
  exists t', for_each (charge_step f) l t = Some t' /\ tree_inv t'
    /\ same_ledger (ledger_of t') (add_tracked (fun w loc g k => sign * charged part slaveId l w loc g k) (ledger_of t)).
Proof using Hsign Hpart Hf.
  revert t. induction l as [|[role rs] l IH]; intros t Ht Hc Hroom; cbn [for_each].
  { exists t. split_and!; [done..|]. split; table; try done. intros w loc g k _. unfold charged, zsum. cbn. lia. }
  apply Forall_cons in Hc as [[Hrs Hfr] Hc]. cbn [fst snd] in Hrs, Hfr.
  assert (Hnn : forall w loc g k, 0 <= charged part slaveId l w loc g k).
  { intros w loc g k. apply charged_nonneg. eapply Forall_impl; [exact Hc|]. by intros x [H _]. }
  assert (Hn1 : forall w loc g k, 0 <= charged part slaveId [(role, rs)] w loc g k).
  { intros w loc g k. apply charged_nonneg. by constructor. }
  destruct (charge_one t role rs Ht Hrs Hfr) as (t1 & E1 & I1 & L1).
  { intros w loc g k Hk. specialize (Hroom w loc g k Hk). rewrite charged_cons in Hroom. specialize (Hnn w loc g k).
    specialize (Hn1 w loc g k). assert (H0 := tb_tracked t (ti_books t Ht) w loc g k Hk). revert Hroom. table.
    destruct Hsign as [->| ->]; lia. }
  rewrite E1. cbn [mbind option_bind]. destruct (IH t1 I1) as (t2 & E2 & I2 & L2).
  - eapply Forall_impl; [exact Hc|]. intros x [H1 H2]. split; [done|]. by rewrite (sl_frameworks _ _ L1).
  - intros w loc g k Hk. rewrite (sl_tracked _ _ L1) by done. specialize (Hroom w loc g k Hk). rewrite charged_cons in Hroom.
    revert Hroom. table. lia.
  - exists t2. split_and!; [done..|]. rewrite L2, (add_tracked_proper _ _ _ L1). split; table; try done.
    intros w loc g k _. rewrite (charged_cons (role, rs) l). lia.
Qed.
End Charges.

(** ** Calls *)

Inductive role_call :=
  | UpdateQuota (role : string) (q : Quota)
  | UpdateRoleWeight (role : string) (x : double)
  | TrackFramework (frameworkId role : string)
  | UntrackFramework (frameworkId role : string)
  | TrackReservations (rs : Resources)
  | UntrackReservations (rs : Resources)
  | TrackAllocated (slaveId : string) (rs : Resources)
  | UntrackAllocated (slaveId : string) (rs : Resources)
  | TrackOffered (slaveId : string) (rs : Resources)
  | UntrackOffered (slaveId : string) (rs : Resources).

Definition role_step (t : RoleTree) (c : role_call) : option RoleTree :=
  match c with
  | UpdateQuota role q => role_updateQuota t role q
  | UpdateRoleWeight role x => role_updateWeight t role x
  | TrackFramework id role => trackFramework t id role
  | UntrackFramework id role => untrackFramework t id role
  | TrackReservations rs => trackReservations t rs
  | UntrackReservations rs => untrackReservations t rs
  | TrackAllocated g rs => trackAllocated t g rs
  | UntrackAllocated g rs => untrackAllocated t g rs
  | TrackOffered g rs => trackOfferedOrAllocated t g rs
  | UntrackOffered g rs => untrackOfferedOrAllocated t g rs
  end.

Fixpoint role_steps (t : RoleTree) (l : list role_call) : option RoleTree :=
  match l with [] => Some t | c :: l' => t' ← role_step t c; role_steps t' l' end.

(** The resources of a call by role, as [allocations] groups them. *)
Definition by_role (rs : Resources) : list (string * Resources) := map_to_list (default ∅ (allocations rs)).

Definition allocated_by_role (rs : Resources) : list (string * Resources) := by_role (nonRevocable (unreserved (scalars rs))).
Definition offered_by_role (rs : Resources) : list (string * Resources) := by_role (scalars rs).

(** The specification: what a call does to the table. *)
Definition role_spec (b : ledger) (c : role_call) : ledger :=
  match c with
  | UpdateQuota role q => set_quota (role_location role) q b
  | UpdateRoleWeight role x => set_weight (role_location role) x b
  | TrackFramework id role =>
      set_frameworks (role_location role) ({[ id ]} ∪ l_frameworks b (role_location role)) b
  | UntrackFramework id role =>
      set_frameworks (role_location role) (l_frameworks b (role_location role) ∖ {[ id ]}) b
  | TrackReservations rs => add_reserved (reserved_for (to_list (scalars rs))) b
  | UntrackReservations rs => add_reserved (fun loc n => - reserved_for (to_list (scalars rs)) loc n) b
  | TrackAllocated g rs => add_tracked (fun w loc g' k => 1 * charged allocated_part g (allocated_by_role rs) w loc g' k) b
  | UntrackAllocated g rs => add_tracked (fun w loc g' k => -1 * charged allocated_part g (allocated_by_role rs) w loc g' k) b
  | TrackOffered g rs => add_tracked (fun w loc g' k => 1 * charged offered_part g (offered_by_role rs) w loc g' k) b
  | UntrackOffered g rs => add_tracked (fun w loc g' k => -1 * charged offered_part g (offered_by_role rs) w loc g' k) b
  end.

(** What the caller has to see to, in terms of the table. *)
Definition may_call (b : ledger) (c : role_call) : Prop :=
  match c with
  | UpdateQuota _ _ | UpdateRoleWeight _ _ => True
  | TrackFramework id role => id ∉ l_frameworks b (role_location role)
  | UntrackFramework id role =>
      id ∈ l_frameworks b (role_location role)
      /\ (l_frameworks b (role_location role) ∖ {[ id ]} = ∅ ->
          forall w g k, wf_resource k -> l_tracked b w (role_location role) g k = 0)
  | TrackReservations rs => Forall reservation (to_list (scalars rs))
  | UntrackReservations rs =>
      Forall reservation (to_list (scalars rs))
      /\ forall loc n, reserved_for (to_list (scalars rs)) loc n <= l_reserved b loc n
  | TrackAllocated _ rs =>
      is_Some (allocations (nonRevocable (unreserved (scalars rs)))) /\ chargeable (allocated_by_role rs) b
  | UntrackAllocated g rs =>
      is_Some (allocations (nonRevocable (unreserved (scalars rs)))) /\ chargeable (allocated_by_role rs) b
      /\ forall w loc g' k, wf_resource k -> charged allocated_part g (allocated_by_role rs) w loc g' k <= l_tracked b w loc g' k
  | TrackOffered _ rs => is_Some (allocations (scalars rs)) /\ chargeable (offered_by_role rs) b
  | UntrackOffered g rs =>
      is_Some (allocations (scalars rs)) /\ chargeable (offered_by_role rs) b
      /\ forall w loc g' k, wf_resource k -> charged offered_part g (offered_by_role rs) w loc g' k <= l_tracked b w loc g' k
  end.

Lemma at_role_same {A} l (f : list string -> A) loc : at_role l (f l) f loc = f loc.
Proof. unfold at_role. by destruct (decide (loc = l)) as [->|]. Qed.

Lemma set_quota_proper l q b b' : same_ledger b b' -> same_ledger (set_quota l q b) (set_quota l q b').
Proof. intros [H1 H2 H3 H4 H5]. split; table; try done. intros loc. unfold at_role. by destruct (decide _). Qed.

Lemma set_weight_proper l x b b' : same_ledger b b' -> same_ledger (set_weight l x b) (set_weight l x b').
Proof. intros [H1 H2 H3 H4 H5]. split; table; try done. intros loc. unfold at_role. by destruct (decide _). Qed.

Lemma set_frameworks_proper l f b b' : same_ledger b b' -> same_ledger (set_frameworks l f b) (set_frameworks l f b').
Proof. intros [H1 H2 H3 H4 H5]. split; table; try done. intros loc. unfold at_role. by destruct (decide _). Qed.

(** Tables that say the same allow the same calls, with the same results. *)
Lemma role_spec_proper c b b' : same_ledger b b' -> same_ledger (role_spec b c) (role_spec b' c).
Proof.
  intros H. destruct c; cbn [role_spec]; rewrite ?(sl_frameworks _ _ H);
    by first [apply set_quota_proper|apply set_weight_proper|apply set_frameworks_proper|apply add_reserved_proper|apply add_tracked_proper].
Qed.

Lemma may_call_proper c b b' : same_ledger b b' -> may_call b c -> may_call b' c.
Proof.
  intros [H1 H2 H3 H4 H5]. destruct c; cbn [may_call]; rewrite <- ?H3; try done.
  - intros [A B]. split; [done|]. intros E w g k Hk. rewrite <- H5 by done. by apply B.
  - intros [A B]. split; [done|]. intros loc n. by rewrite <- H4.
  - intros [A B]. split; [done|]. eapply Forall_impl; [exact B|]. intros x [C D]. by rewrite <- H3.
  - intros (A & B & C). split_and!; [done|eapply Forall_impl; [exact B|]; intros x [E D]; by rewrite <- H3|].
    intros w loc g k Hk. rewrite <- H5 by done. by apply C.
  - intros [A B]. split; [done|]. eapply Forall_impl; [exact B|]. intros x [C D]. by rewrite <- H3.
  - intros (A & B & C). split_and!; [done|eapply Forall_impl; [exact B|]; intros x [E D]; by rewrite <- H3|].
    intros w loc g k Hk. rewrite <- H5 by done. by apply C.
Qed.

(** *** The calls keep to the specification *)

Lemma ledger_at t l r :
  t !! l = Some r ->
  quota_ r = l_quota (ledger_of t) l /\ weight_ r = l_weight (ledger_of t) l /\ frameworks_ r = l_frameworks (ledger_of t) l.
Proof. intros E. table. unfold quota_of, weight_of, frameworks_of. by rewrite E. Qed.

Lemma set_same_quota l b : same_ledger (set_quota l (l_quota b l) b) b.
Proof. split; table; try done. intros. apply at_role_same. Qed.
Lemma set_same_weight l b : same_ledger (set_weight l (l_weight b l) b) b.
Proof. split; table; try done. intros. by rewrite at_role_same. Qed.
Lemma set_same_frameworks l b : same_ledger (set_frameworks l (l_frameworks b l) b) b.
Proof. split; table; try done. intros. apply at_role_same. Qed.

Lemma set_idle t l r : almost l t -> t !! l = Some r -> frameworks_ r = ∅ ->
  forall w g k, wf_resource k -> l_tracked (ledger_of t) w l g k = 0.
Proof. intros A Hr E w g k Hk. apply (tb_tied t (al_books _ _ A)); [done|]. unfold frameworks_of. by rewrite Hr. Qed.

Lemma role_updateQuota_ok t role q :
  tree_inv t -> exists t', role_updateQuota t role q = Some t' /\ tree_inv t'
    /\ same_ledger (ledger_of t') (set_quota (role_location role) q (ledger_of t)).
Proof.
  intros Ht. unfold role_updateQuota. destruct (index_almost t role Ht) as (t1 & -> & A1 & L1). cbn [mbind option_bind].
  unfold get_role. destruct (al_there _ _ A1) as [r Hr]. rewrite Hr. cbn [mbind option_bind].
  destruct (set_role_almost _ t1 r (with_quota q r) A1 Hr) as [A2 L2]; [by split; [|done|intros []]|exact (set_idle t1 _ r A1 Hr)|].
  destruct (tryRemove_inv _ role A2) as (t3 & b & -> & I3 & L3). cbn [mbind option_bind]. exists t3. split_and!; [done..|].
  rewrite L3, L2. cbn [quota_ weight_ frameworks_ with_quota]. destruct (ledger_at t1 _ r Hr) as (_ & -> & ->).
  rewrite <- (set_quota_proper _ _ _ _ L1). apply set_quota_proper.
  rewrite (set_weight_proper _ _ _ _ (set_same_frameworks _ _)). apply set_same_weight.
Qed.

Lemma role_updateWeight_ok t role x :
  tree_inv t -> exists t', role_updateWeight t role x = Some t' /\ tree_inv t'
    /\ same_ledger (ledger_of t') (set_weight (role_location role) x (ledger_of t)).
Proof.
  intros Ht. unfold role_updateWeight. destruct (index_almost t role Ht) as (t1 & -> & A1 & L1). cbn [mbind option_bind].
  unfold get_role. destruct (al_there _ _ A1) as [r Hr]. rewrite Hr. cbn [mbind option_bind].
  destruct (set_role_almost _ t1 r (with_role_weight x r) A1 Hr) as [A2 L2]; [by split; [|done|intros []]|exact (set_idle t1 _ r A1 Hr)|].
  destruct (tryRemove_inv _ role A2) as (t3 & b & -> & I3 & L3). cbn [mbind option_bind]. exists t3. split_and!; [done..|].
  rewrite L3, L2. cbn [quota_ weight_ frameworks_ with_role_weight]. destruct (ledger_at t1 _ r Hr) as (-> & _ & ->).
  rewrite <- (set_weight_proper _ _ _ _ L1), (set_quota_proper _ _ _ _ (set_weight_proper _ _ _ _ (set_same_frameworks _ _))).
  exact (set_same_quota _ (set_weight (role_location role) x (ledger_of t1))).
Qed.

Lemma set_frameworks_almost t l r f :
  almost l t -> t !! l = Some r ->
  (f = ∅ -> forall w g k, wf_resource k -> l_tracked (ledger_of t) w l g k = 0) ->
  almost l (<[l := with_frameworks f r]> t)
  /\ same_ledger (ledger_of (<[l := with_frameworks f r]> t)) (set_frameworks l f (ledger_of t)).
Proof.
  intros A Hr Hf. destruct (set_role_almost l t r (with_frameworks f r) A Hr) as [A2 L2]; [by split; [|done|intros []]|done|].
  split; [done|]. rewrite L2. cbn [quota_ weight_ frameworks_ with_frameworks]. destruct (ledger_at t _ r Hr) as (-> & -> & _).
  rewrite (set_quota_proper _ _ _ _ (set_same_weight _ (set_frameworks l f (ledger_of t)))).
  exact (set_same_quota _ (set_frameworks l f (ledger_of t))).
Qed.

Lemma trackFramework_ok t id role :
  tree_inv t -> id ∉ l_frameworks (ledger_of t) (role_location role) ->
  exists t', trackFramework t id role = Some t' /\ tree_inv t'
    /\ same_ledger (ledger_of t') (role_spec (ledger_of t) (TrackFramework id role)).
Proof.
  intros Ht Hid. unfold trackFramework. destruct (index_almost t role Ht) as (t1 & -> & A1 & L1). cbn [mbind option_bind].
  unfold get_role. destruct (al_there _ _ A1) as [r Hr]. rewrite Hr. cbn [mbind option_bind].
  destruct (ledger_at t1 _ r Hr) as (_ & _ & Ef). rewrite (sl_frameworks _ _ L1) in Ef.
  rewrite bool_decide_eq_false_2 by (by rewrite Ef). eexists. split; [done|].
  destruct (set_frameworks_almost t1 _ r ({[ id ]} ∪ frameworks_ r) A1 Hr) as [A2 L2]; [set_solver|]. split.
  - apply (almost_inv _ _ A2). intros r'. rewrite lookup_insert_eq. intros [= <-]. apply not_true_iff_false.
    intros (_ & E & _)%isEmpty_spec. cbn in E. set_solver.
  - rewrite L2, Ef. cbn [role_spec]. by apply set_frameworks_proper.
Qed.

Lemma untrackFramework_ok t id role :
  tree_inv t -> may_call (ledger_of t) (UntrackFramework id role) ->
  exists t', untrackFramework t id role = Some t' /\ tree_inv t'
    /\ same_ledger (ledger_of t') (role_spec (ledger_of t) (UntrackFramework id role)).
Proof.
  intros Ht [Hid Hlast]. unfold untrackFramework, get_role.
  destruct (frameworks_there t (role_location role)) as (r & Hr & _); [intros E; revert Hid; table; rewrite E; set_solver|].
  rewrite Hr. cbn [mbind option_bind]. destruct (ledger_at t _ r Hr) as (_ & _ & Ef).
  rewrite bool_decide_eq_true_2 by (by rewrite Ef). cbn [negb].
  destruct (set_frameworks_almost t _ r (frameworks_ r ∖ {[ id ]}) (inv_almost t _ Ht ltac:(by eexists)) Hr) as [A2 L2];
    [by rewrite Ef|].
  destruct (tryRemove_inv _ role A2) as (t3 & b & -> & I3 & L3). cbn [mbind option_bind]. exists t3. split_and!; [done..|].
  rewrite L3, L2, Ef. done.
Qed.

Lemma for_allocations_ok f rs t :
  is_Some (allocations rs) -> for_allocations f rs t = for_each (charge_step f) (by_role rs) t.
Proof. intros [m E]. unfold for_allocations, by_role. by rewrite E. Qed.

Lemma room_plus part g l t : tree_inv t -> (forall w rs, scalar_resources rs -> scalar_resources (part w rs)) ->
  chargeable l (ledger_of t) -> room 1 part g l (ledger_of t).
Proof.
  intros Ht Hp Hc w loc g' k Hk. assert (H := tb_tracked t (ti_books t Ht) w loc g' k Hk).
  assert (G := charged_nonneg part g Hp l w loc g' k ltac:(eapply Forall_impl; [exact Hc|]; by intros x [? _])). table. lia.
Qed.

Lemma role_step_ok t c :
  tree_inv t -> may_call (ledger_of t) c ->
  exists t', role_step t c = Some t' /\ tree_inv t' /\ same_ledger (ledger_of t') (role_spec (ledger_of t) c).
Proof.
  intros Ht Hc. destruct c; cbn [role_step].
  - by apply role_updateQuota_ok.
  - by apply role_updateWeight_ok.
  - by apply trackFramework_ok.
  - by apply untrackFramework_ok.
  - by apply trackReservations_ok.
  - by apply untrackReservations_ok; destruct Hc.
  - destruct Hc as [H1 H2]. unfold trackAllocated. rewrite for_allocations_ok by done.
    apply charge_all; [by left|apply allocated_part_scalar|apply trackAllocated_charges|done..|].
    apply room_plus; [done|apply allocated_part_scalar|done].
  - destruct Hc as (H1 & H2 & H3). unfold untrackAllocated. rewrite for_allocations_ok by done.
    apply charge_all; [by right|apply allocated_part_scalar|apply untrackAllocated_charges|done..|].
    intros w loc g k Hk. specialize (H3 w loc g k Hk). lia.
  - destruct Hc as [H1 H2]. unfold trackOfferedOrAllocated. rewrite for_allocations_ok by done.
    apply charge_all; [by left|apply offered_part_scalar|apply trackOffered_charges|done..|].
    apply room_plus; [done|apply offered_part_scalar|done].
  - destruct Hc as (H1 & H2 & H3). unfold untrackOfferedOrAllocated. rewrite for_allocations_ok by done.
    apply charge_all; [by right|apply offered_part_scalar|apply untrackOffered_charges|done..|].
    intros w loc g k Hk. specialize (H3 w loc g k Hk). lia.
Qed.

(** ** Sequences of calls *)

Definition empty_ledger : ledger :=
  mkLedger (fun _ => DEFAULT_QUOTA) (fun _ => DEFAULT_WEIGHT) (fun _ => ∅) (fun _ _ => 0) (fun _ _ _ _ => 0).

Fixpoint may_call_all (b : ledger) (l : list role_call) : Prop :=
  match l with [] => True | c :: l' => may_call b c /\ may_call_all (role_spec b c) l' end.

Lemma role_steps_ok l t b :
  tree_inv t -> same_ledger (ledger_of t) b -> may_call_all b l ->
  exists t', role_steps t l = Some t' /\ tree_inv t' /\ same_ledger (ledger_of t') (fold_left role_spec l b).
Proof.
  revert t b. induction l as [|c l IH]; intros t b Ht Hb; cbn [may_call_all role_steps fold_left]; [by exists t|].
  intros [Hc Hl]. destruct (role_step_ok t c Ht) as (t1 & -> & I1 & L1); [by eapply may_call_proper; [symmetry|]|].
  cbn [mbind option_bind]. apply (IH t1 (role_spec b c) I1); [|done]. rewrite L1. by apply role_spec_proper.
Qed.

Lemma new_tree_lookup loc : new_tree !! loc = if decide (loc = []) then Some (new_role EmptyString) else None.
Proof.
  unfold new_tree. destruct (decide (loc = [])) as [->|Hn]; [apply lookup_singleton_eq|by apply lookup_singleton_ne].
Qed.

Lemma new_tree_own mu loc : additive mu -> own mu new_tree loc = 0.
Proof.
  intros Hm. destruct (decide (loc = [])) as [->|Hn].
  - rewrite (own_leaf mu new_tree [] (new_role EmptyString)) by done. apply Hm.
  - apply own_absent. by rewrite new_tree_lookup, decide_False.
Qed.

Lemma new_tree_inv : tree_inv new_tree /\ same_ledger (ledger_of new_tree) empty_ledger.
Proof.
  assert (Hn : forall loc tok, ~ is_Some (new_tree !! (loc ++ [tok]))).
  { intros loc tok. rewrite new_tree_lookup, decide_False by (by destruct loc). by intros [? ?]. }
  split; [split; [split|]|].
  - split.
    + by eexists.
    + intros loc tok H. by apply Hn in H.
    + intros loc r tok Hr. split; [|by intros H%Hn]. rewrite new_tree_lookup in Hr. destruct (decide _); [|done].
      injection Hr as <-. cbn. set_solver.
    + intros loc tok r Hr. destruct (Hn loc tok). by eexists.
  - intros loc r Hr. rewrite new_tree_lookup in Hr. destruct (decide _); [|done]. injection Hr as <-. apply new_role_ok.
  - intros loc w g k Hk _. apply new_tree_own, tracked_additive.
  - intros loc n. by rewrite new_tree_own by apply reserved_additive.
  - intros w loc g k Hk. by rewrite new_tree_own by apply tracked_additive.
  - intros loc r Hr Hne. by rewrite new_tree_lookup, decide_False in Hr.
  - split; table; intros; unfold quota_of, weight_of, frameworks_of; rewrite ?new_tree_lookup; try (by destruct (decide _)).
    + apply new_tree_own, reserved_additive.
    + apply new_tree_own, tracked_additive.
Qed.

(** ** Which roles are kept *)

(** The table says something about a role. *)
Definition busy (b : ledger) (loc : list string) : Prop :=
  l_quota b loc <> DEFAULT_QUOTA \/ ~ (l_weight b loc == DEFAULT_WEIGHT)%Q \/ l_frameworks b loc <> ∅
  \/ exists n, l_reserved b loc n <> 0.

Lemma busy_there t loc : busy (ledger_of t) loc -> is_Some (t !! loc).
Proof.
  intros H. destruct (t !! loc) as [r|] eqn:E; [by eexists|]. unfold busy in H. revert H. table.
  unfold quota_of, weight_of, frameworks_of. rewrite E. intros [H|[H|[H|[n H]]]]; try done. by rewrite own_absent in H.
Qed.

Lemma leaf_busy t loc r : t !! loc = Some r -> role_isEmpty r = false -> children_ r = ∅ -> role_books r -> busy (ledger_of t) loc.
Proof.
  intros Hr He Hc Hb. unfold busy. table. unfold quota_of, weight_of, frameworks_of. rewrite Hr.
  destruct (decide (quota_ r = DEFAULT_QUOTA)) as [E1|]; [|by left]. right.
  destruct (Qeq_bool (weight_ r) DEFAULT_WEIGHT) eqn:E2; [|left; intros E; apply Qeq_bool_iff in E; congruence]. right.
  destruct (decide (frameworks_ r = ∅)) as [E3|]; [|by left]. right.
  destruct (reservationScalarQuantities_ r) as [|[n v] q] eqn:E4.
  - apply Qeq_bool_iff in E2. assert (role_isEmpty r = true) by (by apply isEmpty_spec). congruence.
  - exists n. rewrite (own_leaf _ t loc r Hr Hc). unfold reserved_mu. rewrite E4. destruct (rb_reserved r Hb) as [_ Hp].
    rewrite E4 in Hp. apply Forall_cons in Hp as [Hp _]. unfold Quantities.get, find_entry. cbn in Hp |- *.
    unfold string_eqb, dec_eqb. rewrite ?bool_decide_eq_true_2 by done. cbn. lia.
Qed.

Lemma kept_busy t loc :
  tree_inv t -> is_Some (t !! loc) -> loc <> [] -> exists k, busy (ledger_of t) (loc ++ k).
Proof.
  intros [Hb Hf]. set (N := max_list (map length (elements (dom t)))).
  assert (HN : forall loc, is_Some (t !! loc) -> (length loc <= N)%nat).
  { intros l H. apply max_list_elem_of_le. apply (list_elem_of_fmap_2 length). by apply elem_of_elements, elem_of_dom. }
  remember (N - length loc)%nat as m eqn:Em. revert loc Em. induction m as [m IH] using lt_wf_ind. intros loc Em [r Hr] Hne.
  destruct (decide (children_ r = ∅)) as [Hc|Hc].
  - exists []. rewrite app_nil_r. eapply leaf_busy; [done|by eapply Hf|done|by eapply (tb_ok t Hb)].
  - apply set_choose_L in Hc as [x Hx]. apply (ts_children t (tb_shape t Hb) loc r x Hr) in Hx.
    assert (H1 := HN _ Hx). rewrite length_app in H1. cbn in H1.
    destruct (IH (N - length (loc ++ [x]))%nat) with (loc := loc ++ [x]) as [k Hk]; try done.
    + rewrite length_app. cbn. lia.
    + by destruct loc.
    + exists (x :: k). by rewrite <- app_assoc in Hk.
Qed.

(** ** Sums over the roles below *)

(** A role of the tree and all the roles below it. *)
Definition beneath (t : RoleTree) (loc : list string) : list (list string) :=
  List.filter (fun l => bool_decide (loc `prefix_of` l)) (elements (dom t)).

Lemma elem_of_beneath t loc l : l ∈ beneath t loc <-> loc `prefix_of` l /\ is_Some (t !! l).
Proof.
  unfold beneath. rewrite list_elem_of_In, filter_In, bool_decide_eq_true, <- list_elem_of_In, elem_of_elements, elem_of_dom. tauto.
Qed.

Lemma beneath_nodup t loc : NoDup (beneath t loc).
Proof. apply NoDup_ListNoDup, List.NoDup_filter, NoDup_ListNoDup, NoDup_elements. Qed.

Definition child_locations (t : RoleTree) (l : list string) : list (list string) :=
  map (fun x => l ++ [x]) (elements (children_at t l)).

Lemma elem_of_child_locations t l c :
  tree_shape t -> c ∈ child_locations t l <-> is_Some (t !! c) /\ exists x, c = l ++ [x].
Proof.
  intros Hs. unfold child_locations. rewrite list_elem_of_fmap. unfold children_at. split.
  - intros (x & -> & Hx%elem_of_elements). destruct (t !! l) as [r|] eqn:E; [|set_solver].
    split; [by apply (ts_children t Hs l r x E)|by exists x].
  - intros [H [x ->]]. exists x. split; [done|]. apply elem_of_elements. destruct (ts_up t Hs l x H) as [r E]. rewrite E.
    by apply (ts_children t Hs l r x E).
Qed.

Lemma child_locations_nodup t D : tree_shape t -> NoDup D -> NoDup (D ≫= child_locations t).
Proof.
  intros Hs. induction 1 as [|l D Hl HD IH]; cbn; [constructor|]. apply NoDup_app. split_and!; [|..|done].
  - apply NoDup_fmap_2; [intros x y [_ E]%snoc_inj; done|apply NoDup_elements].
  - intros c H1 (l' & H2 & H3)%list_elem_of_bind. apply (elem_of_child_locations t l c Hs) in H1 as (_ & x & ->).
    apply (elem_of_child_locations t l' _ Hs) in H2 as (_ & y & [-> _]%snoc_inj). done.
Qed.

(** The roles beneath a role are the role and the children of all of them. *)
Lemma beneath_perm t loc :
  tree_shape t -> is_Some (t !! loc) -> beneath t loc ≡ₚ loc :: (beneath t loc ≫= child_locations t).
Proof.
  intros Hs Hloc. apply NoDup_Permutation.
  - apply beneath_nodup.
  - constructor; [|apply child_locations_nodup; [done|apply beneath_nodup]].
    intros (l & H & [[k ->] _]%elem_of_beneath)%list_elem_of_bind. apply (elem_of_child_locations t _ _ Hs) in H as (_ & x & E).
    apply (f_equal length) in E. rewrite !length_app in E. cbn in E. lia.
  - intros c. rewrite elem_of_cons, list_elem_of_bind, elem_of_beneath. split.
    + intros [[k ->] Hc]. destruct k as [|x k _] using rev_ind; [left; by rewrite app_nil_r|]. right.
      rewrite app_assoc in Hc |- *. exists (loc ++ k). split; [apply elem_of_child_locations; [done|]; split; [done|by eexists]|].
      apply elem_of_beneath. split; [by exists k|]. by eapply (ts_up t Hs).
    + intros [->|(l & H & [[k ->] _]%elem_of_beneath)]; [done|]. apply (elem_of_child_locations t _ _ Hs) in H as (Hc & x & ->).
      split; [|done]. exists (k ++ [x]). by rewrite app_assoc.
Qed.

Lemma zsum_bind {A B} (f : B -> Z) (h : A -> list B) l : zsum f (l ≫= h) = zsum (fun x => zsum f (h x)) l.
Proof. induction l as [|x l IH]; [done|]. cbn [mbind list_bind]. by rewrite zsum_app, zsum_cons, IH. Qed.

Lemma zsum_map {A B} (f : B -> Z) (h : A -> B) l : zsum f (map h l) = zsum (fun x => f (h x)) l.
Proof. induction l as [|x l IH]; [done|]. cbn [map]. by rewrite !zsum_cons, IH. Qed.

Lemma mu_is_sum mu t loc :
  tree_shape t -> is_Some (t !! loc) -> mu_at mu t loc = zsum (own mu t) (beneath t loc).
Proof.
  intros Hs Hloc. assert (E := zsum_perm (mu_at mu t) _ _ (beneath_perm t loc Hs Hloc)).
  rewrite zsum_cons, zsum_bind in E.
  rewrite (zsum_ext (mu_at mu t) (fun l => own mu t l + zsum (mu_at mu t) (child_locations t l))) in E.
  - rewrite zsum_plus in E. lia.
  - intros l _. unfold own, below, child_locations. rewrite zsum_map. lia.
Qed.

(** ** Properties *)

Lemma busy_proper a b loc : same_ledger a b -> busy a loc -> busy b loc.
Proof.
  intros [H1 H2 H3 H4 _]. unfold busy. rewrite H1, H3, H2. intros [?|[?|[?|[n ?]]]]; auto. do 3 right. exists n. by rewrite <- H4.
Qed.

(** C27. The tree of roles refines a flat table of roles.  As long as frameworks
    are tracked once and untracked while they are there, and reservations,
    offers and allocations are given back only as far as they were made, no
    check fails, the table changes at the named roles only, and the tree holds
    exactly the roles about which the table says something (a quota, a weight,
    frameworks, reservations) and their ancestors. *)
Theorem role_tree_refines_table l :
  may_call_all empty_ledger l ->
  exists t, role_steps new_tree l = Some t
    /\ same_ledger (ledger_of t) (fold_left role_spec l empty_ledger)
    /\ forall loc, loc <> [] -> is_Some (t !! loc) <-> exists k, busy (fold_left role_spec l empty_ledger) (loc ++ k).
Proof.
  intros Hl. destruct new_tree_inv as [H1 H2]. destruct (role_steps_ok l new_tree empty_ledger H1 H2 Hl) as (t & Ht & It & Lt).
  exists t. split_and!; [done..|]. intros loc Hne. split.
  - intros H. destruct (kept_busy t loc It H Hne) as [k Hk]. exists k. by eapply busy_proper.
  - intros [k Hk]. apply (busy_proper _ _ _ (symmetry Lt)), busy_there in Hk.
    by apply (ts_prefix t loc k (tb_shape t (ti_books t It))).
Qed.

(** C28. What a role of the tree has reserved, and what it has offered or
    allocated on an agent, is the sum of what the table says about the role
    itself and about all the roles below it, so the quota of a role is charged
    for its descendants, and each of them once. *)
Theorem role_totals_are_sums l t loc r :
  may_call_all empty_ledger l -> role_steps new_tree l = Some t -> t !! loc = Some r ->
  (forall n, Quantities.get (reservationScalarQuantities_ r) n
             = zsum (fun loc' => l_reserved (fold_left role_spec l empty_ledger) loc' n) (beneath t loc))
  /\ forall w g k, wf_resource k ->
       totals_held (tracked w r) g k
       = zsum (fun loc' => l_tracked (fold_left role_spec l empty_ledger) w loc' g k) (beneath t loc).
Proof.
  intros Hl Ht Hr. destruct new_tree_inv as [H1 H2]. destruct (role_steps_ok l new_tree empty_ledger H1 H2 Hl) as (t' & Ht' & It & Lt).
  rewrite Ht in Ht'. injection Ht' as <-. assert (Hs := tb_shape t (ti_books t It)). split.
  - intros n. assert (E := mu_is_sum (reserved_mu n) t loc Hs ltac:(by eexists)). unfold mu_at in E. rewrite Hr in E.
    unfold reserved_mu at 1 in E. rewrite E. apply zsum_ext. intros x _. apply (sl_reserved _ _ Lt).
  - intros w g k Hk. assert (E := mu_is_sum (tracked_mu w g k) t loc Hs ltac:(by eexists)). unfold mu_at in E. rewrite Hr in E.
    unfold tracked_mu at 1 in E. rewrite E. apply zsum_ext. intros x _. by apply (sl_tracked _ _ Lt).
Qed.

(** A day of the role "a" with two roles below it: "a/b" has a framework that
    is offered and allocated cpus, "a/c" only reservations. *)
Definition cpus_of_b : Resource := mkResource "cpus" (VScalar 2000) (Some (Some "a/b"%string)) [] None false false None.
Definition cpus_for_c : Resource :=
  mkResource "cpus" (VScalar 500) None [mkReservation (Some DYNAMIC) (Some "a/c"%string) None None] None false false None.
Definition to_b : Resources := [mkResource_ cpus_of_b None].
Definition for_c : Resources := [mkResource_ cpus_for_c None].

Definition morning : list role_call :=
  [UpdateQuota "a" (mkQuota [("cpus"%string, 3000)] []); TrackFramework "framework" "a/b"; TrackOffered "agent" to_b;
   TrackAllocated "agent" to_b; TrackReservations for_c; UpdateRoleWeight "d" 2%Q].
Definition evening : list role_call :=
  [UntrackAllocated "agent" to_b; UntrackOffered "agent" to_b; UntrackFramework "framework" "a/b"; UpdateRoleWeight "d" 1%Q;
   TrackReservations for_c; UntrackReservations for_c].

Lemma to_b_scalar : scalar_resources to_b.
Proof.
  split; [split; [|done]|..]; (constructor; [|constructor]); done.
Qed.

Lemma for_c_reserved : Forall reservation (to_list (scalars for_c)).
Proof. constructor; [|constructor]. split; [solve_wf|by vm_compute..]. Qed.

Lemma to_b_chargeable l b :
  l = [("a/b"%string, to_b)] -> l_frameworks b (role_location "a/b") <> ∅ -> chargeable l b.
Proof. intros -> H. constructor; [|constructor]. split; [apply to_b_scalar|done]. Qed.

Ltac next_may := split; [cbn [may_call]|].

Lemma day_allowed : may_call_all empty_ledger (morning ++ evening).
Proof.
  assert (Ha : allocated_by_role to_b = [("a/b"%string, to_b)]) by (by vm_compute).
  assert (Ho : offered_by_role to_b = [("a/b"%string, to_b)]) by (by vm_compute).
  assert (Sa : is_Some (allocations (nonRevocable (unreserved (scalars to_b))))) by (eexists; by vm_compute).
  assert (So : is_Some (allocations (scalars to_b))) by (eexists; by vm_compute).
  unfold morning, evening. cbn [app may_call_all].
  next_may; [done|]. next_may; [apply (bool_decide_unpack _); by vm_compute|].
  next_may. { split; [done|]. apply to_b_chargeable; [done|]. apply (bool_decide_unpack _); by vm_compute. }
  next_may. { split; [done|]. apply to_b_chargeable; [done|]. apply (bool_decide_unpack _); by vm_compute. }
  next_may; [apply for_c_reserved|]. next_may; [done|].
  next_may. { split_and!; [done|apply to_b_chargeable; [done|]; apply (bool_decide_unpack _); by vm_compute|].
    intros w loc g k Hk. cbn [role_spec]. table. rewrite Ha, Ho.
    assert (H := charged_nonneg offered_part "agent" offered_part_scalar [("a/b"%string, to_b)] w loc g k
      ltac:(constructor; [apply to_b_scalar|constructor])). cbn [empty_ledger l_tracked]. lia. }
  next_may. { split_and!; [done|apply to_b_chargeable; [done|]; apply (bool_decide_unpack _); by vm_compute|].
    intros w loc g k Hk. cbn [role_spec]. table. cbn [empty_ledger l_tracked]. lia. }
  next_may. { split; [apply (bool_decide_unpack _); by vm_compute|]. intros _ w g k Hk. cbn [role_spec]. table.
    cbn [empty_ledger l_tracked]. lia. }
  next_may; [done|]. next_may; [apply for_c_reserved|].
  next_may. { split; [apply for_c_reserved|]. intros loc n. cbn [role_spec]. table. cbn [empty_ledger l_reserved].
    assert (H := reserved_for_nonneg _ loc n for_c_reserved). lia. }
  done.
Qed.

Lemma role_tree_refines_table_witness :
  may_call_all empty_ledger (morning ++ evening)
  /\ exists t, role_steps new_tree (morning ++ evening) = Some t
     /\ is_Some (t !! ["a"; "c"]%string) /\ t !! ["a"; "b"]%string = None /\ t !! ["d"]%string = None.
Proof.
  split; [apply day_allowed|].
  assert (C : (t ← role_steps new_tree (morning ++ evening); Some (bool_decide (t !! ["a"; "b"]%string = None),
                 bool_decide (t !! ["d"]%string = None))) = Some (true, true)) by (by vm_compute).
  destruct (role_tree_refines_table (morning ++ evening) day_allowed) as (t & H1 & _ & H3).
  exists t. rewrite H1 in C. injection C as C1 C2. apply bool_decide_eq_true in C1, C2. split_and!; [done| |done|done].
  apply H3; [done|]. exists []. do 3 right. exists "cpus"%string. by vm_compute.
Defined.

Lemma may_call_all_app l l' b : may_call_all b (l ++ l') -> may_call_all b l.
Proof. revert b. induction l as [|c l IH]; intros b; cbn; [done|]. intros [H1 H2]. split; [done|]. by eapply IH. Qed.

Lemma role_totals_are_sums_witness :
  exists t r, role_steps new_tree morning = Some t /\ t !! ["a"%string] = Some r
    /\ Quantities.get (reservationScalarQuantities_ r) "cpus" = 500
    /\ zsum (fun loc' => l_reserved (fold_left role_spec morning empty_ledger) loc' "cpus"%string) (beneath t ["a"%string]) = 500
    /\ quotaConsumed r = [("cpus"%string, 2500)].
Proof.
  assert (C : (t ← role_steps new_tree morning; r ← t !! ["a"%string];
               Some (Quantities.get (reservationScalarQuantities_ r) "cpus", quotaConsumed r))
              = Some (500, [("cpus"%string, 2500)])) by (by vm_compute).
  destruct (role_steps new_tree morning) as [t|] eqn:E; [|done]. cbn [mbind option_bind] in C.
  destruct (t !! ["a"%string]) as [r|] eqn:Er; [|done]. injection C as C1 C2. exists t, r. split_and!; [done..| |done].
  by rewrite <- (proj1 (role_totals_are_sums morning t ["a"%string] r (may_call_all_app morning evening _ day_allowed) E Er)).
Defined.
