(* ===== verification/Shrink.v ===== *)
(** * Shrinking resources to a target

    [shrinkResources] of [src/src/common/resources_utils.cpp] and
    [Resources::contains(ResourceQuantities)] of
    [src/src/common/resources.cpp]: what the allocator cuts off an offer to
    keep it within a guarantee, a limit or the headroom.  The order in which
    the resources are tried is random; the shuffled list is an argument. *)

From stdpp Require Import base gmap strings list.
From Stdlib Require Import ZArith QArith.
From S2P Require Import Prelude Strings Ranges Scalar Values Quantities Resource Resources ResourceOps Conversions Quota SorterAccounts.
Local Open Scope Z_scope.

(** ** Definitions *)

Definition fromScalarResource (r : Resource) : option entries := add_scalars [] [r].

(** The loop of [shrinkResources(Resources, ResourceQuantities)]; [None] is the
    failed [CHECK_EQ] on the type. *)
Fixpoint shrink_quantities (l : list Resource) (target : entries) (found : Resources) : option Resources :=
  match l with
  | [] => Some found
  | r :: l' =>
      let scalar := Quantities.get target (name r) in
      if scalar =? 0 then shrink_quantities l' target found
      else if negb (bool_decide (rtype r = SCALAR)) then None
      else
        let '(fits, r') := shrink r scalar in
        if fits then q ← fromScalarResource r'; shrink_quantities l' (Quantities.minus target q) (plus_resource found r')
        else shrink_quantities l' target found
  end.

Definition shrinkResources (shuffled : list Resource) (target : entries) : option Resources :=
  match target with [] => Some [] | _ => shrink_quantities shuffled target [] end.

(** The loop of [shrinkResources(Resources, ResourceLimits)]. *)
Fixpoint shrink_limits (l : list Resource) (target : entries) (found : Resources) : option Resources :=
  match l with
  | [] => Some found
  | r :: l' =>
      match limits_get target (name r) with
      | None => shrink_limits l' target (plus_resource found r)
      | Some limit =>
          if negb (bool_decide (rtype r = SCALAR)) then None
          else
            let '(fits, r') := shrink r limit in
            if fits then q ← fromScalarResource r'; shrink_limits l' (limits_minus target q) (plus_resource found r')
            else shrink_limits l' target found
      end
  end.

Definition shrinkResources_limits (rs : Resources) (shuffled : list Resource) (target : entries) : option Resources :=
  match target with [] => Some rs | _ => shrink_limits shuffled target [] end.

(** [Resources::contains(ResourceQuantities)]: what remains is a [double] and
    is rounded after every step.  [None] is the fatal text resource. *)
Definition fsub (x y : double) : double := fadd x (- y)%Q.

Fixpoint without_ranges (remaining : double) (l : list Range) : double :=
  match l with
  | [] => remaining
  | g :: l' =>
      let remaining' := fsub remaining (of_int (u64 (rend g - rbegin g + 1))) in
      if Qle_bool remaining' 0 then remaining' else without_ranges remaining' l'
  end.

Definition without_resource (remaining : double) (r : Resource) : option double :=
  match value r with
  | VScalar z => Some (fsub remaining (convertToFloating z))
  | VSet l => Some (fsub remaining (of_int (Z.of_nat (length l))))
  | VRanges l => Some (without_ranges remaining l)
  | VText _ => None
  end.

Fixpoint without_resources (remaining : double) (l : list Resource) : option double :=
  match l with
  | [] => Some remaining
  | r :: l' =>
      remaining' ← without_resource remaining r;
      if Qle_bool remaining' 0 then Some remaining' else without_resources remaining' l'
  end.

Fixpoint contains_quantities (rs : Resources) (quantities : entries) : option bool :=
  match quantities with
  | [] => Some true
  | (n, z) :: quantities' =>
      remaining ← without_resources (convertToFloating z) (to_list (get_named n rs));
      if negb (Qle_bool remaining 0) then Some false else contains_quantities rs quantities'
  end.

(** ** One resource *)

(** A scalar resource as an element of unshared scalar resources. *)
Record scalar_item (r : Resource) : Prop := {
  si_wf : wf_resource r;
  si_scalar : rtype r = SCALAR;
  si_unshared : shared r = false;
  si_nonempty : isEmpty r = false;
}.

Definition as_element (r : Resource) : Resource_ := mkResource_ r None.

Lemma scalar_item_element r : scalar_item r <-> scalar_resources [as_element r].
Proof.
  split.
  - intros [H1 H2 H3 H4]. split; [split; [|done]|..]; (constructor; [|constructor]); done.
  - intros [[H1 _] H2 H3]. apply Forall_cons in H1 as [[H1 H4 H5] _]. apply Forall_cons in H3 as [H3 _]. by split.
Qed.

Lemma scalar_items rs : scalar_resources rs <-> pairwise apart rs /\ Forall (fun e => e = as_element (resource e) /\ scalar_item (resource e)) rs.
Proof.
  split.
  - intros [[H1 H2] H3 H4]. split; [done|]. unfold unshared in H3. rewrite Forall_forall in *. intros e He. destruct (H1 e He) as [A B C].
    assert (E : e = as_element (resource e)).
    { specialize (H3 e He). destruct e as [r [c|]]; [|done]. cbn in *. by destruct B; congruence. }
    split; [done|]. split; try done; [by apply H4|]. rewrite E in B. done.
  - intros [H1 H2]. assert (H3 : Forall wf_ rs).
    { eapply Forall_impl; [exact H2|]. intros e [-> [A B C D]]. by split. }
    split; [by split|..]; (eapply Forall_impl; [exact H2|]); intros e [E [A B C D]]; [by rewrite E|done].
Qed.

Lemma item_value r : scalar_item r -> exists z, value r = VScalar z /\ 0 < z.
Proof.
  intros [H1 H2 _ H4]. unfold rtype in H2. assert (Hv := wr_value r H1). unfold isEmpty in H4. destruct (value r) as [z| | |]; try done.
  exists z. split; [done|]. cbn in Hv. breflect. lia.
Qed.

Lemma item_weight r k : scalar_item r -> 0 <= Resources.weight k PScalar (as_element r).
Proof. intros [H1 H2 H3 H4]. apply weight_nonneg. by split. Qed.

(** What [shrink] leaves of a resource. *)
Lemma shrink_spec r target r' :
  scalar_item r -> 0 < target -> shrink r target = (true, r') ->
  scalar_item r' /\ name r' = name r /\ scalar_of (value r') <= target /\ scalar_of (value r') <= scalar_of (value r)
  /\ (resource_validate r = None -> resource_validate r' = None)
  /\ forall k, wf_resource k -> Resources.weight k PScalar (as_element r') <= Resources.weight k PScalar (as_element r).
Proof.
  intros Hr Ht. assert (Hr0 := Hr). destruct (item_value r Hr) as (z & Ez & Hz). unfold shrink. rewrite Ez. cbn [scalar_of].
  destruct (z <=? target) eqn:E; breflect.
  { intros [= <-]. rewrite Ez. cbn. split_and!; try done; lia. }
  set (s := with_value (VScalar target) r). intros H.
  assert (Hs : r' = s /\ exclusive r = false).
  { destruct (disk r) as [d|] eqn:Ed.
    - destruct (resource_contains r s) eqn:Ec; [|done]. injection H as <-. split; [done|]. apply not_true_iff_false. intros Hx.
      unfold resource_contains in Ec. apply andb_true_iff in Ec as [Es _]. rewrite subtractable_key in Es by apply (si_wf r Hr).
      unfold same_key, Resources.whole in Es. rewrite Hx, orb_true_r in Es. unfold resource_eqb in Es. apply andb_true_iff in Es as [_ Es].
      cbn in Es. rewrite Ez in Es. cbn in Es. breflect. lia.
    - injection H as <-. split; [done|]. unfold exclusive. by rewrite Ed. }
  destruct Hs as [-> Hx]. destruct Hr as [H1 H2 H3 H4].
  assert (Hw : Resources.whole r = false) by (unfold Resources.whole; by rewrite H3, Hx).
  assert (Hws : wf_resource s) by (apply wf_with_value; [done|cbn; lia]).
  assert (Hi : scalar_item s) by (split; cbn; [done|done|done|apply Z.eqb_neq; lia]).
  split_and!; cbn; try done; try lia.
  - intros Hv. eapply with_value_valid; [exact Ez|lia..|done].
  - intros k Hk. unfold Resources.weight, as_element. cbn [resource]. rewrite (same_key_subst k s r); [|done..|].
    + unfold units. cbn [resource]. change (Resources.whole s) with (Resources.whole r). rewrite Hw. destruct (same_key k r); [|done]. rewrite Ez. cbn. lia.
    + unfold s. rewrite same_key_with_value by (rewrite ?Ez; done). apply be_refl; done.
Qed.

(** Its quantity by name. *)
Definition item_amount (r : Resource) (n : string) : Z := if decide (name r = n) then scalar_of (value r) else 0.

Lemma item_total r n : scalar_item r -> ptotal n PScalar [as_element r] = item_amount r n.
Proof.
  intros Hr. destruct (item_value r Hr) as (z & E & _). rewrite ptotal_cons. change (ptotal n PScalar []) with 0.
  unfold item_amount, pamount, string_eqb, dec_eqb. cbn. rewrite E. case_bool_decide; [rewrite decide_True by done|rewrite decide_False by done]; cbn; lia.
Qed.

Lemma item_amount_nonneg r n : scalar_item r -> 0 <= item_amount r n.
Proof. intros Hr. destruct (item_value r Hr) as (z & E & Hz). unfold item_amount. rewrite E. destruct (decide _); cbn; lia. Qed.

Lemma item_quantities r :
  scalar_item r -> exists q, fromScalarResource r = Some q /\ wf_quantities q /\ forall n, Quantities.get q n = item_amount r n.
Proof.
  intros Hr. destruct (scalar_quantities [as_element r] (proj1 (scalar_item_element r) Hr)) as (q & Hq & Hw & Hn).
  exists q. split_and!; [|done|intros n; by rewrite Hn, item_total].
  unfold scalars in Hq. rewrite filter_true in Hq; [done|]. constructor; [|constructor]. apply bool_decide_eq_true, (si_scalar r Hr).
Qed.

Lemma plus_item found r :
  scalar_resources found -> scalar_item r ->
  scalar_resources (plus_resource found r)
  /\ (forall k, wf_resource k -> amount_held (plus_resource found r) k <= amount_held found k + Resources.weight k PScalar (as_element r))
  /\ (forall n, ptotal n PScalar (plus_resource found r) <= ptotal n PScalar found + item_amount r n
        /\ (resource_validate r = None -> ptotal n PScalar (plus_resource found r) = ptotal n PScalar found + item_amount r n)).
Proof.
  intros Hf Hr. assert (He := proj1 (scalar_item_element r) Hr). unfold plus_resource, plus_resource_. rewrite validate_to_Resource_.
  assert (Hel : to_Resource_ r = as_element r) by (unfold to_Resource_; by rewrite (si_unshared r Hr)). rewrite Hel.
  destruct (resource_validate r) as [err|] eqn:Ev.
  - split_and!; [done|intros k _; assert (H := item_weight r k Hr); lia|]. intros n. split; [|done].
    assert (H := item_amount_nonneg r n Hr). lia.
  - change (Resources.add found (as_element r)) with (Resources.plus found [as_element r]). split_and!; [by apply scalar_plus|..].
    + intros k Hk. rewrite held_plus by done. unfold amount_held. rewrite (measure_cons _ []). change (measure [] k PScalar) with 0. lia.
    + intros n. rewrite total_plus by done. rewrite item_total by done. split; [lia|done].
Qed.

(** Resources that can be cut: valid ones without a disk. *)
Definition divisible (r : Resource) : Prop := resource_validate r = None /\ disk r = None.

Lemma shrink_divisible r target :
  scalar_item r -> 0 < target -> divisible r ->
  exists r', shrink r target = (true, r') /\ scalar_of (value r') = Z.min target (scalar_of (value r)).
Proof.
  intros Hr Ht [_ Hd]. unfold shrink. destruct (scalar_of (value r) <=? target) eqn:E; breflect.
  - exists r. split; [done|]. lia.
  - rewrite Hd. eexists. split; [done|]. cbn. lia.
Qed.

Definition weights (l : list Resource) (k : Resource) : Z := zsum (fun r => Resources.weight k PScalar (as_element r)) l.
Definition amounts (l : list Resource) (n : string) : Z := zsum (fun r => item_amount r n) l.

Lemma amounts_nonneg l n : Forall scalar_item l -> 0 <= amounts l n.
Proof. intros H. apply zsum_nonneg. intros r Hr. apply item_amount_nonneg. by apply (proj1 (Forall_forall _ _) H). Qed.

(** ** The loops *)

(** The target only counts for the names of the resources. *)
Record cut (l : list Resource) (bound : string -> option Z) (found rs : Resources) : Prop := {
  ct_scalar : scalar_resources rs;
  ct_held : forall k, wf_resource k -> amount_held rs k <= amount_held found k + weights l k;
  ct_amounts : forall n, ptotal n PScalar rs <= ptotal n PScalar found + amounts l n;
  ct_bound : forall n b, bound n = Some b -> ptotal n PScalar rs <= ptotal n PScalar found + b;
  ct_exact : Forall divisible l -> forall n,
    ptotal n PScalar rs = ptotal n PScalar found + match bound n with Some b => Z.min b (amounts l n) | None => amounts l n end;
}.

(** A resource that is left out. *)
Lemma cut_skip r l bound found rs :
  scalar_item r -> Forall scalar_item l -> bound (name r) = Some 0 \/ ~ divisible r ->
  cut l bound found rs -> cut (r :: l) bound found rs.
Proof.
  intros Hr Hl Hb [H1 H2 H3 H4 H5]. split; [done|..].
  - intros k Hk. unfold weights. rewrite zsum_cons. specialize (H2 k Hk). unfold weights in H2. assert (H := item_weight r k Hr). lia.
  - intros n. unfold amounts. rewrite zsum_cons. specialize (H3 n). unfold amounts in H3. assert (H := item_amount_nonneg r n Hr). lia.
  - done.
  - intros [Hd Hds]%Forall_cons n. destruct Hb as [Hb|]; [|done]. rewrite (H5 Hds n). unfold amounts. rewrite zsum_cons. fold (amounts l n).
    assert (Ha := amounts_nonneg l n Hl). assert (Hi := item_amount_nonneg r n Hr). unfold item_amount in *.
    destruct (decide (name r = n)) as [<-|]; [rewrite Hb|destruct (bound n)]; lia.
Qed.

(** A resource that is taken, perhaps cut. *)
Lemma cut_take r r' l bound bound' found rs :
  scalar_item r -> Forall scalar_item l -> scalar_resources found ->
  scalar_item r' -> name r' = name r -> scalar_of (value r') <= scalar_of (value r) ->
  (resource_validate r = None -> resource_validate r' = None) ->
  (forall k, wf_resource k -> Resources.weight k PScalar (as_element r') <= Resources.weight k PScalar (as_element r)) ->
  (forall n, bound n = (fun b => b + item_amount r' n) <$> bound' n) ->
  (forall n b, bound' n = Some b -> 0 <= b) ->
  (divisible r -> forall b, bound (name r) = Some b -> scalar_of (value r') = Z.min b (scalar_of (value r))) ->
  (bound (name r) = None -> r' = r) ->
  cut l bound' (plus_resource found r') rs -> cut (r :: l) bound found rs.
Proof.
  intros Hr Hl Hf Hr' En Hle Hv Hw Hb Hb0 Hd Hn [H1 H2 H3 H4 H5]. destruct (plus_item found r' Hf Hr') as (P1 & P2 & P3).
  assert (Hi : forall n, item_amount r' n <= item_amount r n).
  { intros n. unfold item_amount. rewrite En. destruct (decide _); lia. }
  split; [done|..].
  - intros k Hk. unfold weights. rewrite zsum_cons. specialize (H2 k Hk). unfold weights in H2. specialize (P2 k Hk). specialize (Hw k Hk). lia.
  - intros n. unfold amounts. rewrite zsum_cons. specialize (H3 n). unfold amounts in H3. destruct (P3 n) as [P _]. specialize (Hi n). lia.
  - intros n b Eb. rewrite Hb in Eb. destruct (bound' n) as [b'|] eqn:E'; [|done]. injection Eb as <-. specialize (H4 n b' E').
    destruct (P3 n) as [P _]. lia.
  - intros [Hdr Hds]%Forall_cons n. rewrite (H5 Hds n), (proj2 (P3 n) (Hv (proj1 Hdr))), Hb. unfold amounts. rewrite zsum_cons. fold (amounts l n).
    assert (Ha := amounts_nonneg l n Hl). specialize (Hb0 n). specialize (Hd Hdr). unfold item_amount in *. rewrite En in *.
    destruct (decide (name r = n)) as [<-|Hne].
    + rewrite Hb in Hd, Hn. rewrite decide_True in Hd by done. destruct (bound' (name r)) as [b'|]; cbn in *.
      * specialize (Hd _ eq_refl). specialize (Hb0 b' eq_refl). lia.
      * rewrite (Hn eq_refl). lia.
    + destruct (bound' n) as [b'|]; cbn; lia.
Qed.

Lemma shrink_quantities_cut l target found :
  Forall scalar_item l -> wf_quantities target -> scalar_resources found ->
  exists rs, shrink_quantities l target found = Some rs /\ cut l (fun n => Some (Quantities.get target n)) found rs.
Proof.
  intros Hl. revert target found. induction Hl as [|r l Hr Hl IH]; intros target found Ht Hf; cbn [shrink_quantities].
  { exists found. split; [done|]. split; [done|..]; intros; unfold weights, amounts, zsum; cbn; [lia|lia| |].
    - match goal with H : Some _ = Some _ |- _ => injection H as <- end. assert (G := get_nonneg target n Ht). lia.
    - assert (G := get_nonneg target n Ht). lia. }
  assert (Hg := get_nonneg target (name r) Ht).
  destruct (Quantities.get target (name r) =? 0) eqn:E0; breflect.
  { destruct (IH target found Ht Hf) as (rs & E & C). exists rs. split; [done|]. apply cut_skip; try done. left. by rewrite E0. }
  rewrite bool_decide_eq_true_2 by apply (si_scalar r Hr). cbn [negb]. destruct (shrink r (Quantities.get target (name r))) as [fits r'] eqn:Es.
  destruct fits.
  2:{ destruct (IH target found Ht Hf) as (rs & E & C). exists rs. split; [done|]. apply cut_skip; try done. right. intros Hd.
      destruct (shrink_divisible r (Quantities.get target (name r)) Hr ltac:(lia) Hd) as (x & Ex & _). congruence. }
  destruct (shrink_spec r (Quantities.get target (name r)) r' Hr ltac:(lia) Es) as (S1 & S2 & S3 & S4 & S5 & S6).
  destruct (item_quantities r' S1) as (q & -> & Hq & Hn). cbn [mbind option_bind].
  destruct (IH (Quantities.minus target q) (plus_resource found r')) as (rs & E & C); [by apply wf_minus|by apply plus_item|].
  exists rs. split; [done|]. eapply (cut_take r r'); try exact C; try done.
  - intros n. cbn. f_equal. rewrite get_minus by done. rewrite Hn. unfold item_amount. rewrite S2.
    assert (H := get_nonneg target n Ht). destruct (decide (name r = n)) as [<-|]; lia.
  - intros n b [= <-]. by apply get_nonneg, wf_minus.
  - intros Hd b [= <-]. destruct (shrink_divisible r (Quantities.get target (name r)) Hr ltac:(lia) Hd) as (x & Ex & Ev). congruence.
Qed.

Record wf_limits (limits : entries) : Prop := {
  wl_sorted : key_sorted limits;
  wl_nonneg : Forall (fun e => 0 <= e.2) limits;
}.

Lemma limits_drop target q n :
  wf_limits target -> wf_quantities q ->
  limits_get (limits_minus target q) n = (fun b => Z.max (b - Quantities.get q n) 0) <$> limits_get target n.
Proof. intros [H1 H2] Hq. apply find_limits_minus; [done|apply Hq|done]. Qed.

Lemma limits_minus_nonneg l r : Forall (fun e => 0 <= e.2) l -> Forall (fun e => 0 <= e.2) (limits_minus l r).
Proof.
  walk l r; intros Hl; [done|done|..]; assert (Hl0 := Hl); apply Forall_cons in Hl as [H1 H2]; cbn in *.
  - constructor; [cbn; lia|by apply IHl].
  - constructor; [done|by apply IHl].
  - by apply IHr.
Qed.

Lemma limits_minus_wf target q : wf_limits target -> wf_limits (limits_minus target q).
Proof. intros [H1 H2]. split; [by apply limits_minus_sorted|by apply limits_minus_nonneg]. Qed.

Lemma limits_get_nonneg target n b : wf_limits target -> limits_get target n = Some b -> 0 <= b.
Proof.
  intros [_ H2]. unfold limits_get. induction H2 as [|[m w] l Hm Hl IH]; cbn; [done|].
  case_bool_decide; [by intros [= <-]|]. destruct (strcmp m n); naive_solver.
Qed.

(** A limit of zero lets nothing through. *)
Lemma shrink_zero r found :
  scalar_item r -> shrink r 0 = (false, r)
  \/ exists r', shrink r 0 = (true, r') /\ fromScalarResource r' = Some [] /\ plus_resource found r' = found.
Proof.
  intros Hr. destruct (item_value r Hr) as (z & E & Hz). unfold shrink. rewrite E. cbn [scalar_of].
  replace (z <=? 0) with false by (symmetry; apply Z.leb_gt; lia).
  assert (G : fromScalarResource (with_value (VScalar 0) r) = Some [] /\ plus_resource found (with_value (VScalar 0) r) = found).
  { split; [done|]. unfold plus_resource, plus_resource_. destruct (validate_ _); [done|]. unfold Resources.add.
    by rewrite isEmpty_to_Resource_. }
  destruct (disk r); [destruct (resource_contains _ _)|]; [right|by left|right]; eexists; (split; [done|]); done.
Qed.

Lemma shrink_limits_cut l target found :
  Forall scalar_item l -> wf_limits target -> scalar_resources found ->
  exists rs, shrink_limits l target found = Some rs /\ cut l (limits_get target) found rs.
Proof.
  intros Hl. revert target found. induction Hl as [|r l Hr Hl IH]; intros target found Ht Hf; cbn [shrink_limits].
  { exists found. split; [done|]. split; [done|..]; intros; unfold weights, amounts, zsum; cbn; [lia|lia| |].
    - assert (G := limits_get_nonneg target n b Ht H). lia.
    - destruct (limits_get target n) as [b|] eqn:E; [|lia]. assert (G := limits_get_nonneg target n b Ht E). lia. }
  destruct (limits_get target (name r)) as [b|] eqn:Eb.
  2:{ destruct (IH target (plus_resource found r)) as (rs & E & C); [done|by apply plus_item|]. exists rs. split; [done|].
      eapply (cut_take r r l _ (limits_get target)); try exact C; try done; [|intros n b; by apply limits_get_nonneg|congruence].
      intros n. unfold item_amount. destruct (decide (name r = n)) as [<-|]; [by rewrite Eb|].
      destruct (limits_get target n); cbn; [|done]. f_equal. lia. }
  rewrite bool_decide_eq_true_2 by apply (si_scalar r Hr). cbn [negb]. assert (Hb := limits_get_nonneg target (name r) b Ht Eb).
  destruct (decide (b = 0)) as [->|Hb0].
  { destruct (IH target found Ht Hf) as (rs & E & C). exists rs. split; [|apply cut_skip; try done; by left].
    destruct (shrink_zero r found Hr) as [->|(r' & -> & -> & ->)]; [done|]. cbn [mbind option_bind]. by rewrite limits_minus_nil_r. }
  destruct (shrink r b) as [fits r'] eqn:Es. destruct fits.
  2:{ destruct (IH target found Ht Hf) as (rs & E & C). exists rs. split; [done|]. apply cut_skip; try done. right. intros Hd.
      destruct (shrink_divisible r b Hr ltac:(lia) Hd) as (x & Ex & _). congruence. }
  destruct (shrink_spec r b r' Hr ltac:(lia) Es) as (S1 & S2 & S3 & S4 & S5 & S6).
  destruct (item_quantities r' S1) as (q & -> & Hq & Hn). cbn [mbind option_bind].
  destruct (IH (limits_minus target q) (plus_resource found r')) as (rs & E & C); [by apply limits_minus_wf|by apply plus_item|].
  exists rs. split; [done|]. eapply (cut_take r r'); try exact C; try done.
  - intros n. rewrite limits_drop, Hn by done. unfold item_amount. rewrite S2. destruct (decide (name r = n)) as [<-|].
    + rewrite Eb. cbn. f_equal. lia.
    + destruct (limits_get target n) as [x|] eqn:Ex; cbn; [|done]. assert (G := limits_get_nonneg target n x Ht Ex). f_equal. lia.
  - intros n x. apply limits_get_nonneg. by apply limits_minus_wf.
  - intros Hd x Hx. rewrite Eb in Hx. injection Hx as <-. destruct (shrink_divisible r b Hr ltac:(lia) Hd) as (y & Ey & Ev). congruence.
  - congruence.
Qed.

(** ** Properties *)

Lemma weights_held rs shuffled k : scalar_resources rs -> shuffled ≡ₚ to_list rs -> weights shuffled k = amount_held rs k.
Proof.
  intros [_ H]%scalar_items Hp. unfold weights. rewrite (zsum_perm _ _ _ Hp). clear Hp. unfold to_list, amount_held.
  induction H as [|e rs [E _] _ IH]; [done|]. cbn [map]. rewrite zsum_cons, measure_cons, IH. by rewrite <- E.
Qed.

Lemma amounts_total rs shuffled n : scalar_resources rs -> shuffled ≡ₚ to_list rs -> amounts shuffled n = ptotal n PScalar rs.
Proof.
  intros [_ H]%scalar_items Hp. unfold amounts. rewrite (zsum_perm _ _ _ Hp). clear Hp. unfold to_list.
  induction H as [|e rs [E Hi] _ IH]; [done|]. cbn [map]. rewrite zsum_cons, ptotal_cons, IH. cbn [join].
  rewrite <- (item_total _ n Hi), ptotal_cons. change (ptotal n PScalar []) with 0. cbn [join]. rewrite <- E. lia.
Qed.

Lemma shuffled_items rs shuffled : scalar_resources rs -> shuffled ≡ₚ to_list rs -> Forall scalar_item shuffled.
Proof.
  intros [_ H]%scalar_items Hp. rewrite Hp. unfold to_list. rewrite Forall_map. eapply Forall_impl; [exact H|]. by intros e [_ ?].
Qed.

(** The result of shrinking, in whichever order. *)
Record shrunk (rs : Resources) (bound : string -> option Z) (rs' : Resources) : Prop := {
  sh_scalar : scalar_resources rs';
  sh_included : included rs' rs;
  sh_total : forall n, ptotal n PScalar rs' <= ptotal n PScalar rs;
  sh_bound : forall n b, bound n = Some b -> ptotal n PScalar rs' <= b;
  sh_exact : Forall (fun e => divisible (resource e)) rs -> forall n,
    ptotal n PScalar rs' = match bound n with Some b => Z.min b (ptotal n PScalar rs) | None => ptotal n PScalar rs end;
}.

Lemma cut_shrunk rs shuffled bound rs' :
  scalar_resources rs -> shuffled ≡ₚ to_list rs -> cut shuffled bound [] rs' -> shrunk rs bound rs'.
Proof.
  intros Hrs Hp [H1 H2 H3 H4 H5]. split; [done|..].
  - apply scalar_included; [done..|]. intros k Hk. specialize (H2 k Hk). rewrite (weights_held rs) in H2 by done. exact H2.
  - intros n. specialize (H3 n). rewrite (amounts_total rs) in H3 by done. exact H3.
  - intros n b Hb. exact (H4 n b Hb).
  - intros Hd n. rewrite <- (amounts_total rs shuffled) by done. rewrite H5; [done|]. rewrite Hp. unfold to_list. by rewrite Forall_map.
Qed.

Lemma shrunk_to_quantities rs shuffled target :
  scalar_resources rs -> shuffled ≡ₚ to_list rs -> wf_quantities target ->
  exists rs', shrinkResources shuffled target = Some rs' /\ shrunk rs (fun n => Some (Quantities.get target n)) rs'.
Proof.
  intros Hrs Hp Ht. destruct (shrink_quantities_cut shuffled target []) as (rs' & E & C);
    [by eapply shuffled_items|done|apply scalar_nil|].
  exists rs'. split; [|by eapply cut_shrunk]. unfold shrinkResources. destruct target; [|done]. rewrite <- E.
  clear. induction shuffled as [|r l IH]; [done|]. exact IH.
Qed.

Lemma shrunk_to_limits rs shuffled target :
  scalar_resources rs -> shuffled ≡ₚ to_list rs -> wf_limits target ->
  exists rs', shrinkResources_limits rs shuffled target = Some rs' /\ shrunk rs (limits_get target) rs'.
Proof.
  intros Hrs Hp Ht. destruct (decide (target = [])) as [->|Hne].
  - exists rs. split; [done|]. split; try done. by intros k p Hk.
  - destruct (shrink_limits_cut shuffled target []) as (rs' & E' & C);
      [by eapply shuffled_items|done|apply scalar_nil|].
    exists rs'. split; [|by eapply cut_shrunk]. unfold shrinkResources_limits. by destruct target.
Qed.

(** C33. [shrinkResources], in whichever order it tries the resources, passes its
    check on scalar resources and returns a part of them that is within the
    target, quantities or limits; a name without a limit is kept whole, and
    when the resources can be divided the result is as much of every name as
    the target and the resources allow. *)
Theorem shrink_to_target rs shuffled target limits :
  scalar_resources rs -> shuffled ≡ₚ to_list rs -> wf_quantities target -> wf_limits limits ->
  (exists rs', shrinkResources shuffled target = Some rs' /\ shrunk rs (fun n => Some (Quantities.get target n)) rs')
  /\ exists rs', shrinkResources_limits rs shuffled limits = Some rs' /\ shrunk rs (limits_get limits) rs'.
Proof. intros Hrs Hp Ht Hl. split; [by apply shrunk_to_quantities|by apply shrunk_to_limits]. Qed.

Definition two_cpus : Resources :=
  [as_element (mkResource "cpus" (VScalar 2000) None [] None false false None);
   as_element (mkResource "cpus" (VScalar 3000) None [mkReservation (Some DYNAMIC) (Some "a"%string) None None] None false false None)].

Lemma two_cpus_scalar : scalar_resources two_cpus.
Proof.
  apply scalar_items. split; [|repeat constructor; solve_wf].
  split; [|by repeat constructor]. constructor; [by vm_compute|constructor].
Qed.

Lemma shrink_to_target_witness :
  (exists rs', shrinkResources (reverse (to_list two_cpus)) [("cpus"%string, 3500)] = Some rs' /\ ptotal "cpus" PScalar rs' = 3500)
  /\ exists rs', shrinkResources_limits two_cpus (reverse (to_list two_cpus)) [("cpus"%string, 2500); ("mem"%string, 1)] = Some rs'
       /\ ptotal "cpus" PScalar rs' <= 2500.
Proof.
  destruct (shrink_to_target two_cpus (reverse (to_list two_cpus)) [("cpus"%string, 3500)] [("cpus"%string, 2500); ("mem"%string, 1)])
    as [(rs1 & E1 & H1) (rs2 & E2 & H2)].
  - apply two_cpus_scalar.
  - apply reverse_Permutation.
  - by repeat constructor.
  - by split; repeat constructor.
  - split; [exists rs1|exists rs2]; (split; [done|]); [|by apply (sh_bound _ _ _ H2)].
    rewrite (sh_exact _ _ _ H1); [by vm_compute|]. by repeat constructor.
Defined.

(** 0.7 and 0.1 cpus do not contain 0.8 cpus: the remainder is rounded to a
    [double] after each resource, so something is left, although the same
    amounts are equal as scalars. *)
Theorem contains_quantities_rounds :
  let rs := [as_element (mkResource "cpus" (VScalar 700) None [mkReservation (Some DYNAMIC) (Some "a"%string) None None] None false false None);
             as_element (mkResource "cpus" (VScalar 100) None [] None false false None)] in
  ptotal "cpus" PScalar rs = 800 /\ contains_quantities rs [("cpus"%string, 800)] = Some false.
Proof. by vm_compute. Qed.
