(* ===== verification/Allocator.v ===== *)
(** * The hierarchical allocator

    The state of [HierarchicalAllocatorProcess] of
    [src/src/master/allocator/mesos/hierarchical.cpp] and the operations on it
    other than the cycle that generates offers ([OfferCycle.v]): agents with
    what is offered and allocated on them, frameworks with their filters, the
    tree of roles, a sorter of roles and a sorter of frameworks per role.

    The two sorters are of any type with the operations of the abstract class
    [Sorter], as the C++ class is a template over them.  [None] is a failed
    [CHECK]; metrics and logging are left out. *)

From stdpp Require Import base gmap strings list.
From Stdlib Require Import ZArith QArith.
From S2P Require Import Prelude Strings Roles Ranges Scalar Values Quantities Registry Resource Resources ResourceOps Conversions Attributes Quota SorterTree DrfSorter SorterAccounts RoleTree RoleLedger Shrink.
Local Open Scope Z_scope.

(** ** The interface of sorters *)

Class SorterOps (S : Type) := {
  sorter_new : option (gset string) -> S;
  sorter_add : S -> string -> option S;
  sorter_remove : S -> string -> option S;
  sorter_activate : S -> string -> option S;
  sorter_deactivate : S -> string -> option S;
  sorter_updateWeight : S -> string -> double -> option S;
  sorter_allocated : S -> string -> string -> Resources -> option S;
  sorter_unallocated : S -> string -> string -> Resources -> option S;
  sorter_update : S -> string -> string -> Resources -> Resources -> option S;
  sorter_allocation : S -> string -> option (gmap string Resources);
  sorter_total : S -> entries;
  sorter_addSlave : S -> string -> entries -> option S;
  sorter_removeSlave : S -> string -> option S;
  sorter_contains : S -> string -> option bool;
  sorter_count : S -> nat;
  sorter_sort : S -> option (list string * S);
}.

#[export] Instance drf_ops : SorterOps Sorter := {|
  sorter_new := new_sorter;
  sorter_add := DrfSorter.add;
  sorter_remove := DrfSorter.remove;
  sorter_activate := activate;
  sorter_deactivate := deactivate;
  sorter_updateWeight := updateWeight;
  sorter_allocated := DrfSorter.allocated;
  sorter_unallocated := DrfSorter.unallocated;
  sorter_update := DrfSorter.update;
  sorter_allocation := fun s c => resources <$> client_allocation s c;
  sorter_total := fun s => totals (allocation (data (root s)));
  sorter_addSlave := addSlave;
  sorter_removeSlave := removeSlave;
  sorter_contains := DrfSorter.contains;
  sorter_count := client_count;
  sorter_sort := DrfSorter.sort;
|}.

(** ** Agents *)

(** [SlaveInfo]; a fault domain is a region and a zone. *)
Record AgentInfo := mkAgentInfo {
  info_id : string;
  hostname : string;
  info_port : Z;
  info_resources : Resources;
  info_attributes : list Attribute;
  domain : option (option (string * string));
  info_checkpoint : bool;
}.

(** [operator==]: an unset domain reads as empty names. *)
Definition domain_names (d : option (option (string * string))) : string * string :=
  match d with Some (Some x) => x | _ => (EmptyString, EmptyString) end.

Definition info_eqb (l r : AgentInfo) : option bool :=
  if negb (bool_decide (hostname l = hostname r) && Resources.eqb (info_resources l) (info_resources r)) then Some false
  else
    same ← same_attributes (info_attributes l) (info_attributes r);
    Some (same && bool_decide (info_id l = info_id r) && Bool.eqb (info_checkpoint l) (info_checkpoint r)
          && (info_port l =? info_port r) && bool_decide (domain_names (domain l) = domain_names (domain r))).

Record SlaveCapabilities := mkSlaveCapabilities {
  slave_multiRole : bool;
  slave_hierarchicalRole : bool;
  slave_reservationRefinement : bool;
  slave_resourceProvider : bool;
  slave_resizeVolume : bool;
  slave_operationFeedback : bool;
  slave_draining : bool;
  slave_taskLimits : bool;
}.

#[export] Instance SlaveCapabilities_eq_dec : EqDecision SlaveCapabilities.
Proof. solve_decision. Defined.

(** [Unavailability] and [InverseOfferStatus] are passed on as they are. *)
Record SlaveMaintenance := mkSlaveMaintenance {
  unavailability : string;
  statuses : gmap string string;
  offersOutstanding : gset string;
}.

Record Slave := mkSlave {
  info : AgentInfo;
  slave_capabilities : SlaveCapabilities;
  activated : bool;
  maintenance : option SlaveMaintenance;
  totalAllocated : Resources;
  slave_total : Resources;
  offeredOrAllocated : gmap string Resources;
  totalOfferedOrAllocated : Resources;
  available : Resources;
  slave_shared : Resources;
  hasGpu : bool;
}.

(** [Resources::sum]. *)
Definition sum_resources (m : gmap string Resources) : Resources :=
  fold_left (fun acc x => Resources.plus acc x.2) (map_to_list m) [].

(** [updateAvailable()]. *)
Definition available_of (total totalOffered shared : Resources) : Resources :=
  let used := unallocate totalOffered in
  match shared with
  | [] => Resources.minus total used
  | _ => Resources.plus (Resources.minus (nonShared total) (nonShared used)) shared
  end.

(** [gpus().getOrElse(0) > 0]: the scalars of that name together. *)
Definition has_gpus (rs : Resources) : bool := 0 <? ptotal "gpus" PScalar (scalars rs).

Definition new_slave (i : AgentInfo) (c : SlaveCapabilities) (act : bool) (total : Resources)
  (used : gmap string Resources) : Slave :=
  let sum := sum_resources used in
  mkSlave i c act None sum total used sum (available_of total sum (shared_ total)) (shared_ total) (has_gpus total).

Definition slave_updateTotal (total : Resources) (s : Slave) : Slave :=
  mkSlave (info s) (slave_capabilities s) (activated s) (maintenance s) (totalAllocated s) total (offeredOrAllocated s)
    (totalOfferedOrAllocated s) (available_of total (totalOfferedOrAllocated s) (shared_ total)) (shared_ total) (has_gpus total).

Definition with_offers (o : gmap string Resources) (sum : Resources) (s : Slave) : Slave :=
  mkSlave (info s) (slave_capabilities s) (activated s) (maintenance s) (totalAllocated s) (slave_total s) o sum
    (available_of (slave_total s) sum (slave_shared s)) (slave_shared s) (hasGpu s).

Definition with_allocated_total (rs : Resources) (s : Slave) : Slave :=
  mkSlave (info s) (slave_capabilities s) (activated s) (maintenance s) rs (slave_total s) (offeredOrAllocated s)
    (totalOfferedOrAllocated s) (available s) (slave_shared s) (hasGpu s).

Definition with_activated (b : bool) (s : Slave) : Slave :=
  mkSlave (info s) (slave_capabilities s) b (maintenance s) (totalAllocated s) (slave_total s) (offeredOrAllocated s)
    (totalOfferedOrAllocated s) (available s) (slave_shared s) (hasGpu s).

Definition with_info (i : AgentInfo) (s : Slave) : Slave :=
  mkSlave i (slave_capabilities s) (activated s) (maintenance s) (totalAllocated s) (slave_total s) (offeredOrAllocated s)
    (totalOfferedOrAllocated s) (available s) (slave_shared s) (hasGpu s).

Definition with_slave_capabilities (c : SlaveCapabilities) (s : Slave) : Slave :=
  mkSlave (info s) c (activated s) (maintenance s) (totalAllocated s) (slave_total s) (offeredOrAllocated s)
    (totalOfferedOrAllocated s) (available s) (slave_shared s) (hasGpu s).

Definition with_maintenance (m : option SlaveMaintenance) (s : Slave) : Slave :=
  mkSlave (info s) (slave_capabilities s) (activated s) m (totalAllocated s) (slave_total s) (offeredOrAllocated s)
    (totalOfferedOrAllocated s) (available s) (slave_shared s) (hasGpu s).

Definition increaseAvailable (frameworkId : string) (rs : Resources) (s : Slave) : option Slave :=
  match rs with
  | [] => Some s
  | _ =>
      held ← offeredOrAllocated s !! frameworkId;
      if negb (Resources.contains held rs) then None
      else
        let rest := Resources.minus held rs in
        let o := match rest with
                 | [] => delete frameworkId (offeredOrAllocated s)
                 | _ => <[frameworkId := rest]> (offeredOrAllocated s)
                 end in
        Some (with_offers o (Resources.minus (totalOfferedOrAllocated s) rs) s)
  end.

Definition decreaseAvailable (frameworkId : string) (rs : Resources) (s : Slave) : Slave :=
  match rs with
  | [] => s
  | _ => with_offers (<[frameworkId := Resources.plus (default [] (offeredOrAllocated s !! frameworkId)) rs]> (offeredOrAllocated s))
           (Resources.plus (totalOfferedOrAllocated s) rs) s
  end.

(** ** Frameworks *)

Record Capabilities := mkCapabilities {
  multiRole : bool;
  sharedResources : bool;
  revocableResources : bool;
  gpuResources : bool;
  regionAware : bool;
  reservationRefinement : bool;
}.

(** Filters are known by a number, as the code knows them by their address;
    an inverse offer filter has its timer pending or not. *)
Record Framework := mkFramework {
  roles : gset string;
  suppressedRoles : gset string;
  capabilities : Capabilities;
  offerFilters : gmap string (gmap string (gmap nat Resources));
  inverseOfferFilters : gmap string (gmap nat bool);
  active : bool;
  minAllocatableResources : gmap string (list entries);
  isAgentExcluded : string -> AgentInfo -> bool;
}.

Definition with_suppressed (s : gset string) (f : Framework) : Framework :=
  mkFramework (roles f) s (capabilities f) (offerFilters f) (inverseOfferFilters f) (active f)
    (minAllocatableResources f) (isAgentExcluded f).
Definition with_filters (o : gmap string (gmap string (gmap nat Resources))) (i : gmap string (gmap nat bool)) (f : Framework)
  : Framework :=
  mkFramework (roles f) (suppressedRoles f) (capabilities f) o i (active f) (minAllocatableResources f) (isAgentExcluded f).
Definition with_active (b : bool) (f : Framework) : Framework :=
  mkFramework (roles f) (suppressedRoles f) (capabilities f) (offerFilters f) (inverseOfferFilters f) b
    (minAllocatableResources f) (isAgentExcluded f).

(** ** Options *)

Record Options := mkOptions {
  fairnessExclude : option (gset string);
  filterGpuResources : bool;
  master_domain : option (option string);
  options_minAllocatable : option (list entries);
}.

(** ** The allocator *)

Record Allocator (RS FS : Type) := mkAllocator {
  roleTree : RoleTree;
  roleSorter : RS;
  frameworkSorters : gmap string FS;
  slaves : gmap string Slave;
  frameworks : gmap string Framework;
  totalScalarQuantities : entries;
  allocationCandidates : gset string;
  whitelist : option (gset string);
  paused : bool;
  expectedAgentCount : option Z;
  offerGeneration : bool;
  next_filter : nat;
}.
Arguments mkAllocator {RS FS}.
Arguments roleTree {RS FS}.
Arguments roleSorter {RS FS}.
Arguments frameworkSorters {RS FS}.
Arguments slaves {RS FS}.
Arguments frameworks {RS FS}.
Arguments totalScalarQuantities {RS FS}.
Arguments allocationCandidates {RS FS}.
Arguments whitelist {RS FS}.
Arguments paused {RS FS}.
Arguments expectedAgentCount {RS FS}.
Arguments offerGeneration {RS FS}.
Arguments next_filter {RS FS}.

(** [foreach] with a body that may fail. *)
Fixpoint each {A St : Type} (f : A -> St -> option St) (l : list A) (s : St) : option St :=
  match l with [] => Some s | x :: l' => s' ← f x s; each f l' s' end.

Section Operations.
  Context {RS FS : Type} `{SorterOps RS} `{SorterOps FS} (options : Options).

(** The state after a change of the tree and of the sorters, of the agents, of
    the frameworks. *)
Definition with_tracking (t : RoleTree) (r : RS) (f : gmap string FS) (a : Allocator RS FS) : Allocator RS FS :=
  mkAllocator t r f (slaves a) (frameworks a) (totalScalarQuantities a) (allocationCandidates a) (whitelist a) (paused a)
    (expectedAgentCount a) (offerGeneration a) (next_filter a).
Definition with_slaves (s : gmap string Slave) (a : Allocator RS FS) : Allocator RS FS :=
  mkAllocator (roleTree a) (roleSorter a) (frameworkSorters a) s (frameworks a) (totalScalarQuantities a)
    (allocationCandidates a) (whitelist a) (paused a) (expectedAgentCount a) (offerGeneration a) (next_filter a).
Definition with_allocator_frameworks (f : gmap string Framework) (a : Allocator RS FS) : Allocator RS FS :=
  mkAllocator (roleTree a) (roleSorter a) (frameworkSorters a) (slaves a) f (totalScalarQuantities a)
    (allocationCandidates a) (whitelist a) (paused a) (expectedAgentCount a) (offerGeneration a) (next_filter a).
Definition with_quantities (q : entries) (a : Allocator RS FS) : Allocator RS FS :=
  mkAllocator (roleTree a) (roleSorter a) (frameworkSorters a) (slaves a) (frameworks a) q
    (allocationCandidates a) (whitelist a) (paused a) (expectedAgentCount a) (offerGeneration a) (next_filter a).
Definition with_candidates (c : gset string) (running : bool) (a : Allocator RS FS) : Allocator RS FS :=
  mkAllocator (roleTree a) (roleSorter a) (frameworkSorters a) (slaves a) (frameworks a) (totalScalarQuantities a)
    c (whitelist a) (paused a) (expectedAgentCount a) running (next_filter a).
Definition with_whitelist (w : option (gset string)) (a : Allocator RS FS) : Allocator RS FS :=
  mkAllocator (roleTree a) (roleSorter a) (frameworkSorters a) (slaves a) (frameworks a) (totalScalarQuantities a)
    (allocationCandidates a) w (paused a) (expectedAgentCount a) (offerGeneration a) (next_filter a).
Definition with_paused (b : bool) (n : option Z) (a : Allocator RS FS) : Allocator RS FS :=
  mkAllocator (roleTree a) (roleSorter a) (frameworkSorters a) (slaves a) (frameworks a) (totalScalarQuantities a)
    (allocationCandidates a) (whitelist a) b n (offerGeneration a) (next_filter a).
Definition with_filter_count (n : nat) (a : Allocator RS FS) : Allocator RS FS :=
  mkAllocator (roleTree a) (roleSorter a) (frameworkSorters a) (slaves a) (frameworks a) (totalScalarQuantities a)
    (allocationCandidates a) (whitelist a) (paused a) (expectedAgentCount a) (offerGeneration a) n.

Definition set_framework (id : string) (f : Framework) (a : Allocator RS FS) : Allocator RS FS :=
  with_allocator_frameworks (<[id := f]> (frameworks a)) a.
Definition set_slave (id : string) (s : Slave) (a : Allocator RS FS) : Allocator RS FS :=
  with_slaves (<[id := s]> (slaves a)) a.

(** After [initialize]. *)
Definition new_allocator : Allocator RS FS :=
  mkAllocator new_tree (sorter_new (fairnessExclude options)) ∅ ∅ ∅ [] ∅ None false None false 0.

(** *** Small helpers *)

Definition getQuota (a : Allocator RS FS) (role : string) : Quota :=
  match get_role (roleTree a) role with Some r => quota_ r | None => DEFAULT_QUOTA end.

Definition no_frameworks (a : Allocator RS FS) (role : string) : bool :=
  match get_role (roleTree a) role with Some r => bool_decide (frameworks_ r = ∅) | None => true end.

Definition isFrameworkTrackedUnderRole (a : Allocator RS FS) (frameworkId role : string) : bool :=
  match get_role (roleTree a) role with Some r => bool_decide (frameworkId ∈ frameworks_ r) | None => false end.

Definition generateOffers (slaveIds : gset string) (a : Allocator RS FS) : Allocator RS FS :=
  if paused a then a else with_candidates (allocationCandidates a ∪ slaveIds) true a.

Definition generateOffers_all (a : Allocator RS FS) : Allocator RS FS := generateOffers (dom (slaves a)) a.

Definition pause (a : Allocator RS FS) : Allocator RS FS := with_paused true (expectedAgentCount a) a.
Definition resume (a : Allocator RS FS) : Allocator RS FS := with_paused false (expectedAgentCount a) a.

(** *** Tracking *)

Definition scalar_quantities_of (rs : Resources) : option entries := fromScalarResources (scalars rs).

(** A new sorter of frameworks, which knows the agents. *)
Definition new_framework_sorter (a : Allocator RS FS) : option FS :=
  each (fun s fs => q ← scalar_quantities_of (slave_total s); sorter_addSlave fs (info_id (info s)) q)
    (map snd (map_to_list (slaves a))) (sorter_new (fairnessExclude options)).

Definition trackFrameworkUnderRole (frameworkId role : string) (a : Allocator RS FS) : option (Allocator RS FS) :=
  a1 ← (if no_frameworks a role then
          known ← sorter_contains (roleSorter a) role;
          if known : bool then None
          else
            rs ← sorter_add (roleSorter a) role;
            rs' ← sorter_activate rs role;
            if bool_decide (is_Some (frameworkSorters a !! role)) then None
            else
              fs ← new_framework_sorter a;
              Some (with_tracking (roleTree a) rs' (<[role := fs]> (frameworkSorters a)) a)
        else Some a);
  t ← trackFramework (roleTree a1) frameworkId role;
  fs ← frameworkSorters a1 !! role;
  known ← sorter_contains fs frameworkId;
  if known : bool then None
  else
    fs' ← sorter_add fs frameworkId;
    Some (with_tracking t (roleSorter a1) (<[role := fs']> (frameworkSorters a1)) a1).

Definition tryUntrackFrameworkUnderRole (frameworkId role : string) (a : Allocator RS FS)
  : option (Allocator RS FS * bool) :=
  fs ← frameworkSorters a !! role;
  known ← sorter_contains fs frameworkId;
  if negb known then None
  else
    held ← sorter_allocation fs frameworkId;
    if negb (bool_decide (held = ∅)) then Some (a, false)
    else
      t ← untrackFramework (roleTree a) frameworkId role;
      fs' ← sorter_remove fs frameworkId;
      let a1 := with_tracking t (roleSorter a) (<[role := fs']> (frameworkSorters a)) a in
      if no_frameworks a1 role then
        if negb (sorter_count fs' =? 0)%nat then None
        else
          rs ← sorter_remove (roleSorter a1) role;
          Some (with_tracking t rs (delete role (frameworkSorters a1)) a1, true)
      else Some (a1, true).

Definition track_allocation (slaveId frameworkId : string) (x : string * Resources) (a : Allocator RS FS)
  : option (Allocator RS FS) :=
  let '(role, allocation) := x in
  a1 ← (if isFrameworkTrackedUnderRole a frameworkId role then Some a
        else _ ← frameworks a !! frameworkId; trackFrameworkUnderRole frameworkId role a);
  known ← sorter_contains (roleSorter a1) role;
  if negb known then None
  else
    fs ← frameworkSorters a1 !! role;
    known' ← sorter_contains fs frameworkId;
    if negb known' then None
    else
      t ← trackOfferedOrAllocated (roleTree a1) slaveId allocation;
      rs ← sorter_allocated (roleSorter a1) role slaveId allocation;
      fs' ← sorter_allocated fs frameworkId slaveId allocation;
      Some (with_tracking t rs (<[role := fs']> (frameworkSorters a1)) a1).

Definition trackAllocatedResources (slaveId frameworkId : string) (allocated : Resources) (a : Allocator RS FS)
  : option (Allocator RS FS) :=
  _ ← slaves a !! slaveId;
  _ ← frameworks a !! frameworkId;
  m ← allocations allocated;
  each (track_allocation slaveId frameworkId) (map_to_list m) a.

Definition untrack_allocation (slaveId frameworkId : string) (f : Framework) (x : string * Resources) (a : Allocator RS FS)
  : option (Allocator RS FS) :=
  let '(role, allocation) := x in
  known ← sorter_contains (roleSorter a) role;
  if negb known then None
  else
    fs ← frameworkSorters a !! role;
    known' ← sorter_contains fs frameworkId;
    if negb known' then None
    else
      t ← untrackOfferedOrAllocated (roleTree a) slaveId allocation;
      fs' ← sorter_unallocated fs frameworkId slaveId allocation;
      rs ← sorter_unallocated (roleSorter a) role slaveId allocation;
      let a1 := with_tracking t rs (<[role := fs']> (frameworkSorters a)) a in
      if bool_decide (role ∈ roles f) then Some a1
      else '(a2, _) ← tryUntrackFrameworkUnderRole frameworkId role a1; Some a2.

Definition untrackAllocatedResources (slaveId frameworkId : string) (allocated : Resources) (a : Allocator RS FS)
  : option (Allocator RS FS) :=
  f ← frameworks a !! frameworkId;
  m ← allocations allocated;
  each (untrack_allocation slaveId frameworkId f) (map_to_list m) a.

(** *** Roles of a framework *)

Definition on_framework_sorter (role : string) (g : FS -> option FS) (a : Allocator RS FS) : option (Allocator RS FS) :=
  fs ← frameworkSorters a !! role;
  fs' ← g fs;
  Some (with_tracking (roleTree a) (roleSorter a) (<[role := fs']> (frameworkSorters a)) a).

Definition suppressRoles (frameworkId : string) (l : gset string) (a : Allocator RS FS) : option (Allocator RS FS) :=
  each (fun role a =>
      a1 ← on_framework_sorter role (fun fs => sorter_deactivate fs frameworkId) a;
      f ← frameworks a1 !! frameworkId;
      Some (set_framework frameworkId (with_suppressed ({[ role ]} ∪ suppressedRoles f) f) a1))
    (elements l) a.

Definition suppressOffers (frameworkId : string) (l : gset string) (a : Allocator RS FS) : option (Allocator RS FS) :=
  f ← frameworks a !! frameworkId;
  suppressRoles frameworkId (if bool_decide (l = ∅) then roles f else l) a.

Definition reviveRoles (frameworkId : string) (l : gset string) (a : Allocator RS FS) : option (Allocator RS FS) :=
  f ← frameworks a !! frameworkId;
  let f' := with_filters (base.filter (fun x => x.1 ∉ l) (offerFilters f)) ∅ f in
  each (fun role a =>
      a1 ← on_framework_sorter role (fun fs => sorter_activate fs frameworkId) a;
      f ← frameworks a1 !! frameworkId;
      Some (set_framework frameworkId (with_suppressed (suppressedRoles f ∖ {[ role ]}) f) a1))
    (elements l) (set_framework frameworkId f' a).

Definition reviveOffers (frameworkId : string) (l : gset string) (a : Allocator RS FS) : option (Allocator RS FS) :=
  f ← frameworks a !! frameworkId;
  a1 ← reviveRoles frameworkId (if bool_decide (l = ∅) then roles f else l) a;
  Some (generateOffers_all a1).

Definition activateFramework (frameworkId : string) (a : Allocator RS FS) : option (Allocator RS FS) :=
  f ← frameworks a !! frameworkId;
  a1 ← each (fun role a =>
               if bool_decide (role ∈ suppressedRoles f) then _ ← frameworkSorters a !! role; Some a
               else on_framework_sorter role (fun fs => sorter_activate fs frameworkId) a)
         (elements (roles f)) (set_framework frameworkId (with_active true f) a);
  Some (generateOffers_all a1).

Definition deactivateFramework (frameworkId : string) (a : Allocator RS FS) : option (Allocator RS FS) :=
  f ← frameworks a !! frameworkId;
  a1 ← each (fun role a => on_framework_sorter role (fun fs => sorter_deactivate fs frameworkId) a) (elements (roles f)) a;
  Some (set_framework frameworkId (with_filters ∅ ∅ (with_active false f)) a1).

(** *** Frameworks come and go *)

(** The options of [addFramework]: the framework as it is recorded. *)
Definition addFramework (frameworkId : string) (f : Framework) (used : gmap string Resources) (a : Allocator RS FS)
  : option (Allocator RS FS) :=
  if bool_decide (is_Some (frameworks a !! frameworkId)) then None
  else
    a1 ← each (fun role a =>
                 a1 ← trackFrameworkUnderRole frameworkId role a;
                 on_framework_sorter role
                   (fun fs => if bool_decide (role ∈ suppressedRoles f) then sorter_deactivate fs frameworkId
                              else sorter_activate fs frameworkId) a1)
           (elements (roles f)) (set_framework frameworkId f a);
    a2 ← each (fun '(slaveId, rs) a =>
                 if bool_decide (is_Some (slaves a !! slaveId)) then
                   a' ← trackAllocatedResources slaveId frameworkId rs a;
                   t ← trackAllocated (roleTree a') slaveId rs;
                   Some (with_tracking t (roleSorter a') (frameworkSorters a') a')
                 else Some a)
           (map_to_list used) a1;
    if active f then Some (generateOffers_all a2) else deactivateFramework frameworkId a2.

Definition removeFramework (frameworkId : string) (a : Allocator RS FS) : option (Allocator RS FS) :=
  a1 ← each (fun slaveId a =>
               s ← slaves a !! slaveId;
               match offeredOrAllocated s !! frameworkId with
               | None => Some a
               | Some rs =>
                   a' ← untrackAllocatedResources slaveId frameworkId rs a;
                   s' ← increaseAvailable frameworkId rs s;
                   Some (set_slave slaveId s' a')
               end)
         (map fst (map_to_list (slaves a))) a;
  f ← frameworks a1 !! frameworkId;
  a2 ← each (fun role a =>
               '(a', untracked) ← tryUntrackFrameworkUnderRole frameworkId role a;
               if (untracked : bool) then Some a' else None)
         (elements (roles f)) a1;
  Some (with_allocator_frameworks (delete frameworkId (frameworks a2)) a2).

(** [new] is the framework with the roles, capabilities and options of the
    update; what it keeps of the old one is copied below. *)
Definition updateFramework (frameworkId : string) (new : Framework) (a : Allocator RS FS) : option (Allocator RS FS) :=
  f ← frameworks a !! frameworkId;
  a1 ← each (fun role a =>
               a' ← (if isFrameworkTrackedUnderRole a frameworkId role then Some a
                     else trackFrameworkUnderRole frameworkId role a);
               on_framework_sorter role (fun fs => sorter_activate fs frameworkId) a')
         (elements (roles new ∖ roles f)) a;
  a2 ← each (fun role a =>
               a' ← on_framework_sorter role (fun fs => sorter_deactivate fs frameworkId) a;
               '(a'', _) ← tryUntrackFrameworkUnderRole frameworkId role a';
               f' ← frameworks a'' !! frameworkId;
               Some (set_framework frameworkId
                       (with_suppressed (suppressedRoles f' ∖ {[ role ]})
                          (with_filters (delete role (offerFilters f')) (inverseOfferFilters f') f')) a''))
         (elements (roles f ∖ roles new)) a1;
  f2 ← frameworks a2 !! frameworkId;
  let f3 := mkFramework (roles new) (suppressedRoles f2) (capabilities new) (offerFilters f2) (inverseOfferFilters f2)
              (active f2) (minAllocatableResources new) (isAgentExcluded new) in
  a3 ← suppressRoles frameworkId (suppressedRoles new ∖ suppressedRoles f) (set_framework frameworkId f3 a2);
  a4 ← reviveRoles frameworkId ((suppressedRoles f ∖ suppressedRoles new) ∩ roles new) a3;
  f4 ← frameworks a4 !! frameworkId;
  if bool_decide (suppressedRoles f4 = suppressedRoles new) then Some a4 else None.

(** *** Agents come and go *)

Definition all_framework_sorters (g : FS -> option FS) (a : Allocator RS FS) : option (gmap string FS) :=
  each (fun role m => fs ← m !! role; fs' ← g fs; Some (<[role := fs']> m))
    (map fst (map_to_list (frameworkSorters a))) (frameworkSorters a).

Definition addSlave_ (slaveId : string) (i : AgentInfo) (c : SlaveCapabilities) (u : option string) (total : Resources)
  (used : gmap string Resources) (a : Allocator RS FS) : option (Allocator RS FS) :=
  if bool_decide (is_Some (slaves a !! slaveId)) then None
  else if negb (bool_decide (slaveId = info_id i)) then None
  else if negb (negb (paused a) || bool_decide (is_Some (expectedAgentCount a))) then None
  else
    let s := with_maintenance ((fun u => mkSlaveMaintenance u ∅ ∅) <$> u) (new_slave i c true total used) in
    t ← trackReservations (roleTree a) (reserved None total);
    q ← scalar_quantities_of total;
    rs ← sorter_addSlave (roleSorter a) slaveId q;
    fss ← all_framework_sorters (fun fs => sorter_addSlave fs slaveId q) a;
    a1 ← each (fun '(frameworkId, allocation) a =>
                 if bool_decide (is_Some (frameworks a !! frameworkId)) then
                   a' ← trackAllocatedResources slaveId frameworkId allocation a;
                   t ← trackAllocated (roleTree a') slaveId allocation;
                   Some (with_tracking t (roleSorter a') (frameworkSorters a') a')
                 else Some a)
           (map_to_list used)
           (with_tracking t rs fss (with_quantities (Quantities.plus (totalScalarQuantities a) q) (set_slave slaveId s a)));
    let enough := match expectedAgentCount a1 with Some n => n <=? Z.of_nat (size (slaves a1)) | None => false end in
    let a2 := if paused a1 && enough then with_paused false None a1 else a1 in
    Some (generateOffers {[ slaveId ]} a2).

Definition removeFilters (slaveId : string) (a : Allocator RS FS) : Allocator RS FS :=
  with_allocator_frameworks
    ((fun f => with_filters (delete slaveId <$> offerFilters f) (delete slaveId (inverseOfferFilters f)) f) <$> frameworks a) a.

Definition removeSlave_ (slaveId : string) (a : Allocator RS FS) : option (Allocator RS FS) :=
  s ← slaves a !! slaveId;
  t ← untrackAllocated (roleTree a) slaveId (totalAllocated s);
  a1 ← each (fun '(frameworkId, rs) a => untrackAllocatedResources slaveId frameworkId rs a)
         (map_to_list (offeredOrAllocated s)) (with_tracking t (roleSorter a) (frameworkSorters a) a);
  rs ← sorter_removeSlave (roleSorter a1) slaveId;
  fss ← all_framework_sorters (fun fs => sorter_removeSlave fs slaveId) a1;
  t' ← untrackReservations (roleTree a1) (reserved None (slave_total s));
  q ← scalar_quantities_of (slave_total s);
  if negb (Quantities.contains (totalScalarQuantities a1) q) then None
  else
    let a2 := with_tracking t' rs fss (with_quantities (Quantities.minus (totalScalarQuantities a1) q) a1) in
    Some (removeFilters slaveId (with_candidates (allocationCandidates a2 ∖ {[ slaveId ]}) (offerGeneration a2)
            (with_slaves (delete slaveId (slaves a2)) a2))).

Definition updateSlaveTotal (slaveId : string) (total : Resources) (a : Allocator RS FS) : option (Allocator RS FS * bool) :=
  s ← slaves a !! slaveId;
  if Resources.eqb (slave_total s) total then Some (a, false)
  else
    t ← untrackReservations (roleTree a) (reserved None (slave_total s));
    t' ← trackReservations t (reserved None total);
    old ← scalar_quantities_of (slave_total s);
    new ← scalar_quantities_of total;
    if negb (Quantities.contains (totalScalarQuantities a) old) then None
    else
      rs ← sorter_removeSlave (roleSorter a) slaveId;
      rs' ← sorter_addSlave rs slaveId new;
      fss ← all_framework_sorters (fun fs => fs' ← sorter_removeSlave fs slaveId; sorter_addSlave fs' slaveId new) a;
      Some (with_tracking t' rs' fss
              (with_quantities (Quantities.plus (Quantities.minus (totalScalarQuantities a) old) new)
                 (set_slave slaveId (slave_updateTotal total s) a)), true).

Definition updateSlave (slaveId : string) (i : AgentInfo) (total : option Resources) (c : option SlaveCapabilities) (a : Allocator RS FS)
  : option (Allocator RS FS) :=
  if negb (bool_decide (slaveId = info_id i)) then None
  else
    s ← slaves a !! slaveId;
    sameAttributes ← same_attributes (info_attributes i) (info_attributes (info s));
    let a1 := if (sameAttributes : bool) then a else removeFilters slaveId a in
    sameInfo ← info_eqb (info s) i;
    let s1 := if (sameInfo : bool) then s else with_info i s in
    let s2 := match c with Some c => with_slave_capabilities c s1 | None => s1 end in
    let newCapabilities := match c with Some c => negb (bool_decide (c = slave_capabilities s1)) | None => false end in
    '(a2, newTotal) ← match total with
                      | Some total => updateSlaveTotal slaveId total (set_slave slaveId s2 a1)
                      | None => Some (set_slave slaveId s2 a1, false)
                      end;
    Some (if negb sameAttributes || negb sameInfo || newCapabilities || newTotal then generateOffers {[ slaveId ]} a2 else a2).

Definition addResourceProvider (slaveId : string) (total : Resources) (used : gmap string Resources) (a : Allocator RS FS)
  : option (Allocator RS FS) :=
  s ← slaves a !! slaveId;
  '(a1, _) ← updateSlaveTotal slaveId (Resources.plus (slave_total s) total) a;
  each (fun '(frameworkId, allocation) a =>
          if bool_decide (is_Some (frameworks a !! frameworkId)) then
            s ← slaves a !! slaveId;
            trackAllocatedResources slaveId frameworkId allocation (set_slave slaveId (decreaseAvailable frameworkId allocation s) a)
          else Some a)
    (map_to_list used) a1.

Definition activateSlave (slaveId : string) (a : Allocator RS FS) : option (Allocator RS FS) :=
  s ← slaves a !! slaveId; Some (set_slave slaveId (with_activated true s) a).
Definition deactivateSlave (slaveId : string) (a : Allocator RS FS) : option (Allocator RS FS) :=
  s ← slaves a !! slaveId; Some (set_slave slaveId (with_activated false s) a).

Definition updateWhitelist (w : option (gset string)) (a : Allocator RS FS) : Allocator RS FS := with_whitelist w a.

(** *** Maintenance *)

Definition updateUnavailability (slaveId : string) (u : option string) (a : Allocator RS FS) : option (Allocator RS FS) :=
  s ← slaves a !! slaveId;
  let a1 := with_allocator_frameworks
              ((fun f => with_filters (offerFilters f) (delete slaveId (inverseOfferFilters f)) f) <$> frameworks a) a in
  Some (generateOffers {[ slaveId ]}
          (set_slave slaveId (with_maintenance ((fun u => mkSlaveMaintenance u ∅ ∅) <$> u) s) a1)).

(** Whether [refuse_seconds] gives a filter: a year at most, the default for
    negative and invalid values, and none for a duration of zero. *)
Definition refuses (seconds : double) : bool :=
  if negb (Qle_bool seconds 31536000) then true
  else if negb (Qle_bool 0 seconds) then true
  else Qle_bool 1 (fmul seconds 1000000000).

(** The response of the framework, where [unknown] is [UNKNOWN]. *)
Definition updateInverseOffer (unknown : string -> bool) (slaveId frameworkId : string) (status : option string)
  (filters : option double) (a : Allocator RS FS) : option (Allocator RS FS) :=
  f ← frameworks a !! frameworkId;
  s ← slaves a !! slaveId;
  m ← maintenance s;
  m' ← (if bool_decide (frameworkId ∈ offersOutstanding m) then
          let outstanding := offersOutstanding m ∖ {[ frameworkId ]} in
          match status with
          | Some st => if unknown st then None
                       else Some (mkSlaveMaintenance (unavailability m) (<[frameworkId := st]> (statuses m)) outstanding)
          | None => Some (mkSlaveMaintenance (unavailability m) (statuses m) outstanding)
          end
        else Some m);
  let a1 := set_slave slaveId (with_maintenance (Some m') s) a in
  match filters with
  | Some seconds =>
      if refuses seconds then
        let old := default ∅ (inverseOfferFilters f !! slaveId) in
        Some (with_filter_count (S (next_filter a1))
                (set_framework frameworkId
                   (with_filters (offerFilters f) (<[slaveId := <[next_filter a1 := true]> old]> (inverseOfferFilters f)) f) a1))
      else Some a1
  | None => Some a1
  end.

Definition getInverseOfferStatuses (a : Allocator RS FS) : gmap string (gmap string string) :=
  omap (fun s => statuses <$> maintenance s) (slaves a).

(** *** Operations on resources *)

(** What a client of a sorter has on an agent. *)
Definition allocation_on {S} `{SorterOps S} (s : S) (client slaveId : string) : option Resources :=
  m ← sorter_allocation s client; Some (default [] (m !! slaveId)).

(** The conversions of the total: those that consume something, without the
    allocation; and what they remove. *)
Definition strippedConversions (l : list ResourceConversion) : list ResourceConversion :=
  map (fun c => mkConversion (unallocate (consumed c)) (unallocate (converted c)) None)
    (List.filter (fun c => negb (bool_decide (consumed c = []))) l).
Definition removedResources (l : list ResourceConversion) : Resources :=
  fold_left (fun acc c => if bool_decide (converted c = []) then Resources.plus acc (consumed c) else acc)
    (List.filter (fun c => negb (bool_decide (consumed c = []))) l) [].

Definition updateAllocation (frameworkId slaveId : string) (offered : Resources) (conversions : list ResourceConversion)
  (a : Allocator RS FS) : option (Allocator RS FS) :=
  _ ← frameworks a !! frameworkId;
  s ← slaves a !! slaveId;
  m ← allocations offered;
  match map_to_list m with
  | [(role, _)] =>
      fs ← frameworkSorters a !! role;
      before ← allocation_on fs frameworkId slaveId;
      match apply_conversions offered conversions with
      | Err _ => None
      | Ok updated =>
          s' ← increaseAvailable frameworkId offered s;
          t ← untrackOfferedOrAllocated (roleTree a) slaveId offered;
          t' ← trackOfferedOrAllocated t slaveId updated;
          fs' ← sorter_update fs frameworkId slaveId offered updated;
          rs' ← sorter_update (roleSorter a) role slaveId offered updated;
          let a1 := with_tracking t' rs' (<[role := fs']> (frameworkSorters a))
                      (set_slave slaveId (decreaseAvailable frameworkId updated s') a) in
          match apply_conversions (slave_total s) (strippedConversions conversions) with
          | Err _ => None
          | Ok total =>
              '(a2, _) ← updateSlaveTotal slaveId total a1;
              fs2 ← frameworkSorters a2 !! role;
              after ← allocation_on fs2 frameworkId slaveId;
              if Resources.eqb (Resources.minus (createStrippedScalarQuantity before) (createStrippedScalarQuantity after))
                   (createStrippedScalarQuantity (removedResources conversions))
              then Some a2 else None
          end
      end
  | _ => None
  end.

Definition apply_operations (rs : Resources) (l : list (Operation Resource)) : result conversion_error Resources :=
  fold_left (fun acc o => let? rs := acc in Conversions.apply rs o) l (Ok rs).

(** The result is an error if the operations do not apply to what is available. *)
Definition updateAvailable (slaveId : string) (l : list (Operation Resource)) (a : Allocator RS FS)
  : option (Allocator RS FS * option conversion_error) :=
  s ← slaves a !! slaveId;
  match apply_operations (available s) l with
  | Err CheckFailed => None
  | Err e => Some (a, Some e)
  | Ok _ =>
      match apply_operations (slave_total s) l with
      | Err _ => None
      | Ok total => '(a', _) ← updateSlaveTotal slaveId total a; Some (a', None)
      end
  end.

(** *** Resources *)

Definition transitionOfferedToAllocated (slaveId : string) (rs : Resources) (a : Allocator RS FS) : option (Allocator RS FS) :=
  s ← slaves a !! slaveId;
  t ← trackAllocated (roleTree a) slaveId rs;
  Some (set_slave slaveId (with_allocated_total (Resources.plus (totalAllocated s) rs) s)
          (with_tracking t (roleSorter a) (frameworkSorters a) a)).

Definition install_filter (role slaveId : string) (n : nat) (rs : Resources) (f : Framework) : Framework :=
  let by_slave := default ∅ (offerFilters f !! role) in
  let by_number := default ∅ (by_slave !! slaveId) in
  with_filters (<[role := <[slaveId := <[n := unallocate rs]> by_number]> by_slave]> (offerFilters f)) (inverseOfferFilters f) f.

Definition recoverResources (frameworkId slaveId : string) (rs : Resources) (filters : option double) (isAllocated : bool)
  (a : Allocator RS FS) : option (Allocator RS FS) :=
  match rs with
  | [] => Some a
  | _ =>
      a1 ← match slaves a !! slaveId with
           | Some s =>
               if isAllocated then
                 if negb (Resources.contains (totalAllocated s) rs) then None
                 else
                   t ← untrackAllocated (roleTree a) slaveId rs;
                   Some (set_slave slaveId (with_allocated_total (Resources.minus (totalAllocated s) rs) s)
                           (with_tracking t (roleSorter a) (frameworkSorters a) a))
               else Some a
           | None => Some a
           end;
      match frameworks a1 !! frameworkId, slaves a1 !! slaveId with
      | Some _, Some s =>
          m ← allocations rs;
          match map_to_list m with
          | [(role, _)] =>
              if negb (Resources.contains (totalOfferedOrAllocated s) rs) then None
              else
                s' ← increaseAvailable frameworkId rs s;
                let a2 := set_slave slaveId s' a1 in
                fs ← frameworkSorters a2 !! role;
                known ← sorter_contains fs frameworkId;
                a3 ← (if known : bool then untrackAllocatedResources slaveId frameworkId rs a2 else Some a2);
                match filters with
                | Some seconds =>
                    if refuses seconds then
                      f ← frameworks a3 !! frameworkId;
                      Some (with_filter_count (S (next_filter a3))
                              (set_framework frameworkId (install_filter role slaveId (next_filter a3) rs f) a3))
                    else Some a3
                | None => Some a3
                end
          | _ => None
          end
      | _, _ => Some a1
      end
  end.

Definition filters_at (role slaveId : string) (f : Framework) : option (gmap nat Resources) :=
  m ← offerFilters f !! role; m !! slaveId.

(** The timer of a filter: it is there until it is removed, after which the
    pointer to it has expired. *)
Definition drop_filter (role slaveId : string) (n : nat) (f : Framework) : Framework :=
  match filters_at role slaveId f with
  | Some by_number =>
      let by_number' := delete n by_number in
      let by_slave := default ∅ (offerFilters f !! role) in
      let by_slave' := if bool_decide (by_number' = ∅) then delete slaveId by_slave else <[slaveId := by_number']> by_slave in
      with_filters (if bool_decide (by_slave' = ∅) then delete role (offerFilters f) else <[role := by_slave']> (offerFilters f))
        (inverseOfferFilters f) f
  | None => f
  end.

Definition expire_ (frameworkId role slaveId : string) (n : nat) (a : Allocator RS FS) : Allocator RS FS :=
  match frameworks a !! frameworkId with
  | Some f =>
      if bool_decide (is_Some (m ← filters_at role slaveId f; m !! n))
      then set_framework frameworkId (drop_filter role slaveId n f) a else a
  | None => a
  end.

Definition expire_inverse (frameworkId slaveId : string) (n : nat) (a : Allocator RS FS) : Allocator RS FS :=
  match frameworks a !! frameworkId with
  | Some f =>
      match inverseOfferFilters f !! slaveId with
      | Some m =>
          if bool_decide (is_Some (m !! n)) then
            let m' := delete n m in
            set_framework frameworkId
              (with_filters (offerFilters f)
                 (if bool_decide (m' = ∅) then delete slaveId (inverseOfferFilters f) else <[slaveId := m']> (inverseOfferFilters f)) f) a
          else a
      | None => a
      end
  | None => a
  end.

(** *** Quotas and weights *)

Definition updateQuota_ (role : string) (q : Quota) (a : Allocator RS FS) : option (Allocator RS FS) :=
  t ← role_updateQuota (roleTree a) role q;
  Some (with_tracking t (roleSorter a) (frameworkSorters a) a).

Definition updateWeights_ (l : list (string * double)) (a : Allocator RS FS) : option (Allocator RS FS) :=
  each (fun '(role, w) a =>
          t ← role_updateWeight (roleTree a) role w;
          rs ← sorter_updateWeight (roleSorter a) role w;
          Some (with_tracking t rs (frameworkSorters a) a)) l a.

(** The number of agents to wait for is the expected one times
    [agentRecoveryFactor], truncated. *)
Definition recover_ (expected : Z) (factor : double) (quotas : gmap string Quota) (a : Allocator RS FS)
  : option (Allocator RS FS) :=
  if negb (bool_decide (slaves a = ∅)) then None
  else if expected <? 0 then None
  else if bool_decide (quotas = ∅) then Some a
  else
    a1 ← each (fun '(role, q) a => updateQuota_ role q a) (map_to_list quotas) a;
    let x := fmul (of_int expected) factor in
    let n := Z.quot (Qnum x) (Zpos (Qden x)) in
    let a2 := with_paused (paused a1) (Some n) a1 in
    Some (if n =? 0 then a2 else pause a2).
End Operations.
