(* ===== verification/OfferCycle.v ===== *)
(** * The offer cycle of the hierarchical allocator

    [__generateOffers] and [generateInverseOffers] of
    [src/src/master/allocator/mesos/hierarchical.cpp]: for every agent, in two
    stages, the frameworks of the roles in the order of the sorters are offered
    what is available, cut to the guarantees, the limits and the headroom.

    The random orders are arguments: the agents of the two stages are given as
    two lists, and [shuffle n] is the order of the [n]-th call of
    [shrinkResources].  The callback with the offers is the result. *)

From stdpp Require Import base gmap strings list.
From Stdlib Require Import ZArith QArith.
From S2P Require Import Prelude Strings Roles Ranges Scalar Values Quantities Registry Resource Resources ResourceOps Conversions Attributes Quota SorterTree DrfSorter SorterAccounts RoleTree RoleLedger Shrink Allocator.
Local Open Scope Z_scope.

(** ** Which framework may have what *)

(** A loop whose body may break and may fail: [true] is [break]. *)
Fixpoint loop {A St : Type} (body : A -> St -> option (bool * St)) (l : list A) (s : St) : option St :=
  match l with
  | [] => Some s
  | x :: l' => '(stop, s') ← body x s; if (stop : bool) then Some s' else loop body l' s'
  end.

Definition isFiltered (f : Framework) (role : string) (s : Slave) (rs : Resources) : bool :=
  if multiRole (capabilities f) && negb (slave_multiRole (slave_capabilities s)) then true
  else if negb (slave_hierarchicalRole (slave_capabilities s)) && Strings.contains role "/" then true
  else match filters_at role (info_id (info s)) f with
       | Some m => existsb (fun x => Resources.contains x.2 rs) (map_to_list m)
       | None => false
       end.

Definition isFiltered_inverse (f : Framework) (s : Slave) : bool :=
  match inverseOfferFilters f !! info_id (info s) with
  | Some m => existsb snd (map_to_list m)
  | None => false
  end.

Fixpoint any_contained (rs : Resources) (l : list entries) : option bool :=
  match l with
  | [] => Some false
  | q :: l' => b ← contains_quantities rs q; if (b : bool) then Some true else any_contained rs l'
  end.

Definition allocatable (options : Options) (rs : Resources) (role : string) (f : Framework) : option bool :=
  match rs with
  | [] => Some false
  | _ =>
      match match minAllocatableResources f !! role with Some l => Some l | None => options_minAllocatable options end with
      | None | Some [] => Some true
      | Some l => any_contained rs l
      end
  end.

Definition isRemoteSlave (options : Options) (s : Slave) : option bool :=
  match domain (info s) with
  | None | Some None => Some false
  | Some (Some (region, _)) =>
      match master_domain options with
      | Some (Some masterRegion) => Some (negb (bool_decide (masterRegion = region)))
      | _ => None
      end
  end.

Definition isCapableOfReceivingAgent (options : Options) (c : Capabilities) (s : Slave) : option bool :=
  if filterGpuResources options && negb (gpuResources c) && hasGpu s then Some false
  else if regionAware c then Some true
  else remote ← isRemoteSlave options s; Some (negb remote).

Definition stripIncapableResources (c : Capabilities) : Resources -> Resources :=
  ResourceOps.filter (fun r =>
    if negb (sharedResources c) && isShared r then false
    else if negb (revocableResources c) && isRevocable r then false
    else if negb (reservationRefinement c) && hasRefinedReservations r then false
    else true).

(** Resources that count for the quota. *)
Definition quota_resource (r : Resource) : bool :=
  bool_decide (rtype r = SCALAR) && isUnreserved r && negb (isRevocable r).

(** Resources that are offered in any case, in the first and second stage. *)
Definition always_first (role : string) (r : Resource) : bool :=
  isReserved (Some role) r || negb (bool_decide (rtype r = SCALAR)) || isRevocable r.
Definition always_second (r : Resource) : bool :=
  isReserved None r || negb (bool_decide (rtype r = SCALAR)) || isRevocable r.

(** ** The state of a cycle *)

Record Cycle (RS FS : Type) := mkCycle {
  c_allocator : Allocator RS FS;
  rolesConsumedQuota : gmap string entries;
  requiredHeadroom : entries;
  availableHeadroom : entries;
  offeredSharedResources : gmap string Resources;
  offerable : gmap (string * string * string) Resources;
  draws : nat;
}.
Arguments mkCycle {RS FS}.
Arguments c_allocator {RS FS}.
Arguments rolesConsumedQuota {RS FS}.
Arguments requiredHeadroom {RS FS}.
Arguments availableHeadroom {RS FS}.
Arguments offeredSharedResources {RS FS}.
Arguments offerable {RS FS}.
Arguments draws {RS FS}.

Section OfferCycle.
  Context {RS FS : Type} `{SorterOps RS} `{SorterOps FS} (options : Options).
  Context (shuffle : nat -> list Resource -> list Resource).

(** A random number was used. *)
Definition drawn (n : nat) (c : Cycle RS FS) : Cycle RS FS :=
  mkCycle (c_allocator c) (rolesConsumedQuota c) (requiredHeadroom c) (availableHeadroom c) (offeredSharedResources c)
    (offerable c) (n + draws c).

Definition with_cycle_allocator (a : Allocator RS FS) (c : Cycle RS FS) : Cycle RS FS :=
  mkCycle a (rolesConsumedQuota c) (requiredHeadroom c) (availableHeadroom c) (offeredSharedResources c) (offerable c) (draws c).

Definition shrink_to (rs : Resources) (target : entries) (n : nat) : option Resources :=
  shrinkResources (shuffle n (to_list rs)) target.
Definition shrink_to_limit (rs : Resources) (target : entries) (n : nat) : option Resources :=
  shrinkResources_limits rs (shuffle n (to_list rs)) target.

(** *** Before the stages *)

Definition top_level_roles (t : RoleTree) : list (string * Role) :=
  match t !! [] with
  | Some r => omap (fun tok => pair tok <$> t !! [tok]) (elements (children_ r))
  | None => []
  end.

Definition initial_consumed (t : RoleTree) : gmap string entries :=
  fold_left (fun m x => if quota_eqb (quota_ x.2) DEFAULT_QUOTA then m
                        else <[x.1 := Quantities.plus (default [] (m !! x.1)) (quotaOfferedOrConsumed x.2)]> m)
    (top_level_roles t) ∅.

Definition initial_required (t : RoleTree) : entries :=
  fold_left (fun q x => Quantities.plus q
                          (Quantities.minus (q_guarantees (quota_ x.2)) (default [] (initial_consumed t !! x.1))))
    (top_level_roles t) [].

Definition initial_headroom (a : Allocator RS FS) : option entries :=
  r ← roleTree a !! [];
  let q := Quantities.minus (Quantities.minus (totalScalarQuantities a) (sorter_total (roleSorter a)))
             (Quantities.minus (reservationScalarQuantities_ r) (scalarsTotal (offeredOrAllocatedReserved r))) in
  each (fun s q => revocable ← fromScalarResources (scalars (revocable_ (available s))); Some (Quantities.minus q revocable))
    (map snd (map_to_list (slaves a))) q.

Definition isWhitelisted (a : Allocator RS FS) (slaveId : string) : option bool :=
  match whitelist a with
  | None => Some true
  | Some w => s ← slaves a !! slaveId; Some (bool_decide (hostname (info s) ∈ w))
  end.

(** The candidates that are offered. *)
Fixpoint eligible (a : Allocator RS FS) (l : list string) : option (list string) :=
  match l with
  | [] => Some []
  | slaveId :: l' =>
      w ← isWhitelisted a slaveId;
      rest ← eligible a l';
      Some (match slaves a !! slaveId with
            | Some s => if w && activated s then slaveId :: rest else rest
            | None => rest
            end)
  end.

(** *** An offer is made *)

Definition charge_roles (role : string) (q : entries) (m : gmap string entries) : gmap string entries :=
  fold_left (fun m r => <[r := Quantities.plus (default [] (m !! r)) q]> m) (role :: ancestors role) m.

(** The common end of both stages: [charged] goes to the consumed quota of the
    role if [counts], [guaranteed] leaves the required headroom. *)
Definition make_offer (slaveId role frameworkId : string) (toOffer : Resources) (counts : bool) (charged guaranteed : entries)
  (c : Cycle RS FS) : option (Cycle RS FS) :=
  let a := c_allocator c in
  let toOffer := allocate role toOffer in
  let key := (frameworkId, role, slaveId) in
  s ← slaves a !! slaveId;
  let a1 := set_slave slaveId (decreaseAvailable frameworkId toOffer s) a in
  a2 ← trackAllocatedResources options slaveId frameworkId toOffer a1;
  Some (mkCycle a2
          (if counts then charge_roles role charged (rolesConsumedQuota c) else rolesConsumedQuota c)
          (Quantities.minus (requiredHeadroom c) guaranteed)
          (Quantities.minus (availableHeadroom c) charged)
          (<[slaveId := Resources.plus (default [] (offeredSharedResources c !! slaveId)) (shared_ toOffer)]>
             (offeredSharedResources c))
          (<[key := Resources.plus (default [] (offerable c !! key)) toOffer]> (offerable c))
          (draws c)).

(** *** The first stage *)

(** One framework: whether the loop breaks, what is unsatisfied, the cycle. *)
Definition first_framework (slaveId role : string) (q : Quota) (frameworkId : string) (st : entries * Cycle RS FS)
  : option (bool * (entries * Cycle RS FS)) :=
  let '(unsatisfied, c) := st in
  if bool_decide (unsatisfied = []) then Some (true, st)
  else
    f ← frameworks (c_allocator c) !! frameworkId;
    s ← slaves (c_allocator c) !! slaveId;
    if negb (active f) then None
    else if isAgentExcluded f role (info s) then Some (false, st)
    else
      let offering := Resources.minus (allocatableTo role (available s)) (default [] (offeredSharedResources c !! slaveId)) in
      if bool_decide (offering = []) then Some (true, st)
      else
        worth ← allocatable options offering role f;
        if negb worth then Some (false, st)
        else
          capable ← isCapableOfReceivingAgent options (capabilities f) s;
          if negb capable then Some (false, st)
          else
            let offering := stripIncapableResources (capabilities f) offering in
            let quotaResources := ResourceOps.filter quota_resource offering in
            guaranteesOffering ← shrink_to quotaResources unsatisfied (draws c);
            if bool_decide (guaranteesOffering = []) then Some (false, (unsatisfied, drawn 1 c))
            else
              guaranteed ← fromScalarResources guaranteesOffering;
              let toOffer := Resources.plus guaranteesOffering (ResourceOps.filter (always_first role) offering) in
              let additional := Resources.minus quotaResources guaranteesOffering in
              additional ← (if bool_decide (q_limits q = []) then Some additional
                            else consumed ← rolesConsumedQuota c !! role;
                                 shrink_to_limit additional (limits_minus (limits_minus (q_limits q) consumed) guaranteed)
                                   (1 + draws c));
              additional ← (if bool_decide (requiredHeadroom c = []) || bool_decide (additional = []) then Some additional
                            else shrink_to additional (Quantities.minus (availableHeadroom c) (requiredHeadroom c)) (2 + draws c));
              let toOffer := Resources.plus toOffer additional in
              worth ← allocatable options toOffer role f;
              if negb worth || isFiltered f role s toOffer then Some (false, (unsatisfied, drawn 3 c))
              else
                charged ← fromScalarResources (Resources.plus guaranteesOffering additional);
                c' ← make_offer slaveId role frameworkId toOffer true charged guaranteed (drawn 3 c);
                Some (false, (Quantities.minus unsatisfied charged, c')).

Definition sort_frameworks (role : string) (c : Cycle RS FS) : option (list string * Cycle RS FS) :=
  let a := c_allocator c in
  fs ← frameworkSorters a !! role;
  '(l, fs') ← sorter_sort fs;
  Some (l, with_cycle_allocator (with_tracking (roleTree a) (roleSorter a) (<[role := fs']> (frameworkSorters a)) a) c).

Definition sort_roles (c : Cycle RS FS) : option (list string * Cycle RS FS) :=
  let a := c_allocator c in
  '(l, rs') ← sorter_sort (roleSorter a);
  Some (l, with_cycle_allocator (with_tracking (roleTree a) rs' (frameworkSorters a) a) c).

Definition first_role (slaveId role : string) (c : Cycle RS FS) : option (bool * Cycle RS FS) :=
  let q := getQuota (c_allocator c) role in
  if bool_decide (q_guarantees q = []) then Some (false, c)
  else if no_frameworks (c_allocator c) role then Some (false, c)
  else
    s ← slaves (c_allocator c) !! slaveId;
    if bool_decide (available s = []) then Some (true, c)
    else
      let unsatisfied := Quantities.minus (q_guarantees q) (default [] (rolesConsumedQuota c !! role)) in
      if bool_decide (unsatisfied = []) then Some (false, c)
      else
        '(l, c1) ← sort_frameworks role c;
        '(_, c2) ← loop (first_framework slaveId role q) l (unsatisfied, c1);
        Some (false, c2).

Definition first_agent (slaveId : string) (c : Cycle RS FS) : option (Cycle RS FS) :=
  _ ← slaves (c_allocator c) !! slaveId;
  '(l, c1) ← sort_roles c;
  loop (first_role slaveId) l c1.

(** *** The second stage *)

Definition second_framework (slaveId role : string) (limits : entries) (frameworkId : string) (c : Cycle RS FS)
  : option (bool * Cycle RS FS) :=
  f ← frameworks (c_allocator c) !! frameworkId;
  s ← slaves (c_allocator c) !! slaveId;
  if isAgentExcluded f role (info s) then Some (false, c)
  else
    let offering := Resources.minus (allocatableTo role (available s)) (default [] (offeredSharedResources c !! slaveId)) in
    if bool_decide (offering = []) then Some (true, c)
    else
      worth ← allocatable options offering role f;
      if negb worth then Some (false, c)
      else
        capable ← isCapableOfReceivingAgent options (capabilities f) s;
        if negb capable then Some (false, c)
        else
          let offering := stripIncapableResources (capabilities f) offering in
          let toOffer := ResourceOps.filter always_second offering in
          let additional := ResourceOps.filter quota_resource offering in
          additional ← (if bool_decide (limits = []) then Some additional
                        else consumed ← rolesConsumedQuota c !! role;
                             shrink_to_limit additional (limits_minus (limits) consumed) (draws c));
          additional ← (if bool_decide (requiredHeadroom c = []) || bool_decide (additional = []) then Some additional
                        else shrink_to additional (Quantities.minus (availableHeadroom c) (requiredHeadroom c)) (1 + draws c));
          let toOffer := Resources.plus toOffer additional in
          worth ← allocatable options toOffer role f;
          if negb worth || isFiltered f role s toOffer then Some (false, drawn 2 c)
          else
            charged ← fromScalarResources additional;
            c' ← make_offer slaveId role frameworkId toOffer (negb (quota_eqb (getQuota (c_allocator c) role) DEFAULT_QUOTA)) charged [] (drawn 2 c);
            Some (false, c').

Definition second_role (slaveId role : string) (c : Cycle RS FS) : option (bool * Cycle RS FS) :=
  s ← slaves (c_allocator c) !! slaveId;
  if bool_decide (available s = []) then Some (true, c)
  else
    let limits := q_limits (getQuota (c_allocator c) role) in
    '(l, c1) ← sort_frameworks role c;
    c2 ← loop (second_framework slaveId role limits) l c1;
    Some (false, c2).

Definition second_agent (slaveId : string) (c : Cycle RS FS) : option (Cycle RS FS) :=
  _ ← slaves (c_allocator c) !! slaveId;
  '(l, c1) ← sort_roles c;
  loop (second_role slaveId) l c1.

(** *** The cycle *)

Definition start_cycle (a : Allocator RS FS) : option (Cycle RS FS) :=
  h ← initial_headroom a;
  Some (mkCycle a (initial_consumed (roleTree a)) (initial_required (roleTree a)) h ∅ ∅ 0).

(** [first] and [second] are the two random orders of the agents. *)
Definition generate_offers (first second : list string) (a : Allocator RS FS) : option (Cycle RS FS) :=
  c ← start_cycle a;
  c1 ← each first_agent first c;
  each second_agent second c1.

(** *** Inverse offers *)

Definition inverse_offer (slaveId frameworkId : string) (st : Allocator RS FS * gmap (string * string) string)
  : option (Allocator RS FS * gmap (string * string) string) :=
  let '(a, offers) := st in
  s ← slaves a !! slaveId;
  m ← maintenance s;
  match frameworks a !! frameworkId with
  | None => Some st
  | Some f =>
      if negb (active f) then Some st
      else if bool_decide (is_Some (offers !! (frameworkId, slaveId))) then Some st
      else if bool_decide (frameworkId ∈ offersOutstanding m) then Some st
      else if isFiltered_inverse f s then Some st
      else
        let m' := mkSlaveMaintenance (unavailability m) (statuses m) ({[ frameworkId ]} ∪ offersOutstanding m) in
        Some (set_slave slaveId (with_maintenance (Some m') s) a, <[(frameworkId, slaveId) := unavailability m]> offers)
  end.

Definition inverse_agent (slaveId : string) (st : Allocator RS FS * gmap (string * string) string)
  : option (Allocator RS FS * gmap (string * string) string) :=
  s ← slaves st.1 !! slaveId;
  match maintenance s with
  | None => Some st
  | Some _ => each (inverse_offer slaveId) (map fst (map_to_list (offeredOrAllocated s))) st
  end.

Definition generateInverseOffers (a : Allocator RS FS) : option (Allocator RS FS * gmap (string * string) string) :=
  each inverse_agent (elements (allocationCandidates a)) (a, ∅).

(** The two random orders are permutations of the eligible candidates. *)
Definition generateOffers_run (order : nat -> list string -> list string) (a : Allocator RS FS)
  : option (Allocator RS FS * gmap (string * string * string) Resources * gmap (string * string) string) :=
  if paused a then Some (with_candidates (allocationCandidates a) false a, ∅, ∅)
  else
    ids ← eligible a (elements (allocationCandidates a));
    c ← generate_offers (order 0%nat ids) (order 1%nat (order 0%nat ids)) a;
    '(a', inverse) ← generateInverseOffers (c_allocator c);
    Some (with_candidates ∅ false a', offerable c, inverse).
End OfferCycle.
