(* ===== verification/AllocatorFrame.v ===== *)
(** * What the handlers of the allocator leave alone

    The totals of the agents, the quantities of the cluster and the quantities
    that are reserved at the root of the tree of roles change only when an agent
    comes, goes or changes its resources.  The other handlers of [Allocator.v]
    keep them, whether their callers call them in order or not. *)

From stdpp Require Import base gmap strings list.
From Stdlib Require Import ZArith QArith.
From S2P Require Import Prelude Strings Roles Ranges Scalar Rounding Values Quantities Registry Resource Resources ResourceOps Conversions Attributes Quota SorterTree DrfSorter SorterAccounts SorterHoldings RoleTree RoleLedger Shrink Allocator.
Local Open Scope Z_scope.

(** The option binds of a successful call, taken apart. *)
Ltac unbind H :=
  repeat match type of H with
  | mbind _ _ = Some _ => apply bind_Some in H as (? & ? & H)
  | (if ?b then _ else _) = Some _ => destruct b; try discriminate H
  | (let '(_, _) := ?x in _) = Some _ => destruct x
  | Some _ = Some _ => injection H as H; subst
  end; cbn beta iota zeta in *.

(** ** The root of the tree of roles *)

Definition root_reserved (t : RoleTree) : option entries := reservationScalarQuantities_ <$> t !! [].

Lemma root_insert (t : RoleTree) loc r r' :
  t !! loc = Some r -> reservationScalarQuantities_ r' = reservationScalarQuantities_ r ->
  root_reserved (<[loc := r']> t) = root_reserved t.
Proof.
  intros H E. unfold root_reserved. destruct (decide (loc = [])) as [->|Hl]; [|by rewrite lookup_insert_ne].
  rewrite lookup_insert_eq, H. cbn. by rewrite E.
Qed.

Lemma root_create tokens here t t' : create here tokens t = Some t' -> root_reserved t' = root_reserved t.
Proof.
  revert here t. induction tokens as [|token rest IH]; intros here t H; cbn in H; [by injection H as ->|].
  apply bind_Some in H as (current & Hc & H). case_bool_decide; [by apply (IH _ _ H)|].
  destruct (bool_decide _) eqn:Eb; [done|]. apply bind_Some in H as (c' & Hc' & H).
  rewrite (IH _ _ H). unfold role_addChild in Hc'. case_bool_decide; [done|]. injection Hc' as <-.
  rewrite (root_insert _ here current); [|rewrite lookup_insert_ne; [done|]|done].
  - unfold root_reserved. rewrite lookup_insert_ne; [done|]. by destruct here.
  - intros E. apply (f_equal length) in E. rewrite length_app in E. cbn in E. lia.
Qed.

Lemma root_index t role t' : index t role = Some t' -> root_reserved t' = root_reserved t.
Proof. unfold index. case_bool_decide; [by intros [= <-]|]. apply root_create. Qed.

Lemma root_remove_empty tokens t t' : remove_empty tokens t = Some t' -> root_reserved t' = root_reserved t.
Proof.
  revert t. induction tokens as [|token rest IH]; intros t H; cbn [remove_empty] in H; [by injection H as ->|].
  apply bind_Some in H as (current & Hc & H). destruct (negb (bool_decide _)); [done|].
  destruct (negb (role_isEmpty _)); [by injection H as ->|]. destruct (negb _); [done|].
  apply bind_Some in H as (parent & Hp & H). apply bind_Some in H as (parent' & Hp' & H).
  destruct (negb (totals_empty _)); [done|]. destruct (negb _); [done|]. rewrite (IH _ H). unfold role_removeChild in Hp'. case_bool_decide; [|done]. injection Hp' as <-.
  unfold root_reserved. rewrite lookup_delete_ne.
  - by apply (root_insert t (reverse rest) parent).
  - intros E. apply (f_equal length) in E. rewrite length_reverse in E. cbn in E. lia.
Qed.

Lemma root_tryRemove t role t' b : tryRemove t role = Some (t', b) -> root_reserved t' = root_reserved t.
Proof.
  unfold tryRemove. intros H. apply bind_Some in H as (current & _ & H). destruct (negb _); [by injection H as -> _|].
  apply bind_Some in H as (t1 & H1 & H). injection H as <- _. by eapply root_remove_empty.
Qed.

Lemma root_apply_up tokens f t t' :
  (forall r r', f r = Some r' -> reservationScalarQuantities_ r' = reservationScalarQuantities_ r) ->
  apply_up tokens f t = Some t' -> root_reserved t' = root_reserved t.
Proof.
  intros Hf. revert t. induction tokens as [|token rest IH]; intros t H; cbn [apply_up] in H;
    apply bind_Some in H as (r & Hr & H); apply bind_Some in H as (r' & Hr' & H).
  - injection H as <-. by eapply root_insert, Hf.
  - rewrite (IH _ H). by eapply root_insert, Hf.
Qed.

Lemma root_for_each {A} (f : A -> RoleTree -> option RoleTree) l t t' :
  (forall x t t', f x t = Some t' -> root_reserved t' = root_reserved t) ->
  for_each f l t = Some t' -> root_reserved t' = root_reserved t.
Proof.
  intros Hf. revert t. induction l as [|x l IH]; intros t H; cbn in H; [by injection H as ->|].
  apply bind_Some in H as (t1 & H1 & H). by rewrite (IH _ H), (Hf _ _ _ H1).
Qed.

Lemma root_for_allocations f rs t t' :
  (forall rs r r', f rs r = Some r' -> reservationScalarQuantities_ r' = reservationScalarQuantities_ r) ->
  for_allocations f rs t = Some t' -> root_reserved t' = root_reserved t.
Proof.
  intros Hf H. apply bind_Some in H as (m & _ & H). eapply root_for_each; [|exact H].
  intros [role rs'] t1 t2 H1. apply bind_Some in H1 as (r & _ & H1). eapply root_apply_up; [|exact H1]. apply Hf.
Qed.

Ltac same_reserved :=
  let rs := fresh in let r := fresh in let r' := fresh in let H := fresh in intros rs r r' H; unbind H; done.

Lemma root_trackAllocated t g rs t' : trackAllocated t g rs = Some t' -> root_reserved t' = root_reserved t.
Proof. apply root_for_allocations. same_reserved. Qed.
Lemma root_untrackAllocated t g rs t' : untrackAllocated t g rs = Some t' -> root_reserved t' = root_reserved t.
Proof. apply root_for_allocations. same_reserved. Qed.
Lemma root_trackOffered t g rs t' : trackOfferedOrAllocated t g rs = Some t' -> root_reserved t' = root_reserved t.
Proof. apply root_for_allocations. same_reserved. Qed.
Lemma root_untrackOffered t g rs t' : untrackOfferedOrAllocated t g rs = Some t' -> root_reserved t' = root_reserved t.
Proof. apply root_for_allocations. same_reserved. Qed.

Lemma root_trackFramework t id role t' : trackFramework t id role = Some t' -> root_reserved t' = root_reserved t.
Proof.
  intros H. apply bind_Some in H as (t1 & H1 & H). apply bind_Some in H as (r & Hr & H). case_bool_decide; [done|].
  injection H as <-. rewrite <- (root_index _ _ _ H1). by eapply root_insert.
Qed.

Lemma root_untrackFramework t id role t' : untrackFramework t id role = Some t' -> root_reserved t' = root_reserved t.
Proof.
  intros H. apply bind_Some in H as (r & Hr & H). destruct (negb _); [done|]. apply bind_Some in H as ([t1 b] & H1 & H).
  injection H as <-. rewrite (root_tryRemove _ _ _ _ H1). by eapply root_insert.
Qed.

Lemma root_updateQuota t role q t' : role_updateQuota t role q = Some t' -> root_reserved t' = root_reserved t.
Proof.
  intros H. apply bind_Some in H as (t1 & H1 & H). apply bind_Some in H as (r & Hr & H).
  apply bind_Some in H as ([t2 b] & H2 & H). injection H as <-. rewrite (root_tryRemove _ _ _ _ H2), <- (root_index _ _ _ H1). by eapply root_insert.
Qed.

Lemma root_updateWeight t role w t' : role_updateWeight t role w = Some t' -> root_reserved t' = root_reserved t.
Proof.
  intros H. apply bind_Some in H as (t1 & H1 & H). apply bind_Some in H as (r & Hr & H).
  apply bind_Some in H as ([t2 b] & H2 & H). injection H as <-. rewrite (root_tryRemove _ _ _ _ H2), <- (root_index _ _ _ H1). by eapply root_insert.
Qed.

(** ** The handlers *)

Lemma decrease_total id rs s : slave_total (decreaseAvailable id rs s) = slave_total s.
Proof. unfold decreaseAvailable. by destruct rs. Qed.

Lemma increase_total id rs s s' : increaseAvailable id rs s = Some s' -> slave_total s' = slave_total s.
Proof.
  unfold increaseAvailable. destruct rs; [by intros [= <-]|]. intros H. apply bind_Some in H as (cur & _ & H).
  destruct (negb _); [done|]. by injection H as <-.
Qed.

Section Frame.
  Context {RS FS : Type} {OR : SorterOps RS} {OF : SorterOps FS} (options : Options).
  Implicit Types a : Allocator RS FS.

Definition account a : entries * gmap string Resources * option entries :=
  (totalScalarQuantities a, slave_total <$> slaves a, root_reserved (roleTree a)).

Definition kept a a' : Prop := account a' = account a.

#[local] Instance kept_preorder : PreOrder kept.
Proof. unfold kept. split; [done|]. intros x y z H1 H2. congruence. Qed.

Lemma each_kept {A} (f : A -> Allocator RS FS -> option (Allocator RS FS)) l a a' :
  (forall x a a', f x a = Some a' -> kept a a') -> each f l a = Some a' -> kept a a'.
Proof.
  intros Hf. revert a. induction l as [|x l IH]; intros a H; cbn in H; [by injection H as ->|].
  apply bind_Some in H as (a1 & H1 & H). etrans; [by eapply Hf|by apply IH].
Qed.

Lemma set_slave_kept g s s' a : slaves a !! g = Some s -> slave_total s' = slave_total s -> kept a (set_slave g s' a).
Proof.
  intros H E. unfold kept, account. cbn. do 2 f_equal. rewrite fmap_insert, E. apply insert_id. by rewrite lookup_fmap, H.
Qed.

Lemma tracking_kept t r f a : root_reserved t = root_reserved (roleTree a) -> kept a (with_tracking t r f a).
Proof. intros E. unfold kept, account. cbn. by rewrite E. Qed.

Lemma set_framework_kept id f a : kept a (set_framework id f a).
Proof. done. Qed.
Lemma frameworks_kept f a : kept a (with_allocator_frameworks f a).
Proof. done. Qed.
Lemma generate_kept ids a : kept a (generateOffers ids a).
Proof. unfold generateOffers. by case_match. Qed.

Lemma track_under_kept id role a a' : trackFrameworkUnderRole options id role a = Some a' -> kept a a'.
Proof.
  intros H. apply bind_Some in H as (a1 & H1 & H).
  assert (K : kept a a1).
  { destruct (no_frameworks a role); [|by injection H1 as ->]. unbind H1. by apply tracking_kept. }
  apply bind_Some in H as (t & Ht & H). etrans; [exact K|]. unbind H. by apply tracking_kept, (root_trackFramework _ _ _ _ Ht).
Qed.

Lemma untrack_under_kept id role a a' b : tryUntrackFrameworkUnderRole id role a = Some (a', b) -> kept a a'.
Proof.
  intros H. apply bind_Some in H as (fs & Hfs & H). apply bind_Some in H as (known & _ & H). destruct (negb known); [done|].
  apply bind_Some in H as (m & _ & H). destruct (negb _); [by injection H as -> _|]. apply bind_Some in H as (t & Ht & H).
  apply root_untrackFramework in Ht. apply bind_Some in H as (fs' & _ & H). cbn zeta in H. destruct (no_frameworks _ role); [|injection H as <- _; by apply tracking_kept].
  destruct (negb _); [done|]. apply bind_Some in H as (r & _ & H). injection H as <- _. unfold kept, account. cbn. by rewrite Ht.
Qed.

Lemma track_allocation_kept g id x a a' : track_allocation options g id x a = Some a' -> kept a a'.
Proof.
  destruct x as [role rs]. intros H. apply bind_Some in H as (a1 & H1 & H).
  assert (K : kept a a1).
  { destruct (isFrameworkTrackedUnderRole a id role); [by injection H1 as ->|]. apply bind_Some in H1 as (f & _ & H1). by eapply track_under_kept. }
  etrans; [exact K|]. apply bind_Some in H as (b & _ & H). destruct (negb b); [done|]. apply bind_Some in H as (fs & _ & H).
  apply bind_Some in H as (b' & _ & H). destruct (negb b'); [done|]. apply bind_Some in H as (t & Ht & H). unbind H.
  by apply tracking_kept, (root_trackOffered _ _ _ _ Ht).
Qed.

Lemma track_allocated_kept g id rs a a' : trackAllocatedResources options g id rs a = Some a' -> kept a a'.
Proof.
  intros H. apply bind_Some in H as (s & _ & H). apply bind_Some in H as (f & _ & H). apply bind_Some in H as (m & _ & H).
  eapply each_kept; [|exact H]. apply track_allocation_kept.
Qed.

Lemma untrack_allocation_kept g id f x a a' : untrack_allocation g id f x a = Some a' -> kept a a'.
Proof.
  destruct x as [role rs]. intros H. apply bind_Some in H as (b & _ & H). destruct (negb b); [done|]. apply bind_Some in H as (fs & _ & H).
  apply bind_Some in H as (b' & _ & H). destruct (negb b'); [done|]. apply bind_Some in H as (t & Ht & H). apply root_untrackOffered in Ht.
  apply bind_Some in H as (fs' & _ & H). apply bind_Some in H as (r & _ & H). case_bool_decide; [injection H as <-; by apply tracking_kept|].
  apply bind_Some in H as ([a2 b2] & H2 & H). injection H as <-. etrans; [|by eapply untrack_under_kept]. by apply tracking_kept.
Qed.

Lemma untrack_allocated_kept g id rs a a' : untrackAllocatedResources g id rs a = Some a' -> kept a a'.
Proof.
  intros H. apply bind_Some in H as (f & _ & H). apply bind_Some in H as (m & _ & H). eapply each_kept; [|exact H].
  intros x. apply untrack_allocation_kept.
Qed.

Lemma on_sorter_kept role g a a' : on_framework_sorter role g a = Some a' -> kept a a'.
Proof. intros H. unfold on_framework_sorter in H. unbind H. by apply tracking_kept. Qed.

Lemma suppress_kept id l a a' : suppressRoles id l a = Some a' -> kept a a'.
Proof.
  apply each_kept. intros role x x' H. apply bind_Some in H as (a1 & H1 & H). apply bind_Some in H as (f & _ & H). injection H as <-.
  etrans; [by eapply on_sorter_kept|done].
Qed.

Lemma revive_kept id l a a' : reviveRoles id l a = Some a' -> kept a a'.
Proof.
  intros H. apply bind_Some in H as (f & _ & H). apply each_kept in H; [etrans; [|exact H]; done|].
  intros role x x' H1. apply bind_Some in H1 as (a1 & H2 & H1). apply bind_Some in H1 as (f' & _ & H1). injection H1 as <-.
  etrans; [by eapply on_sorter_kept|done].
Qed.

Lemma activate_kept id a a' : activateFramework id a = Some a' -> kept a a'.
Proof.
  intros H. apply bind_Some in H as (f & _ & H). apply bind_Some in H as (a1 & H1 & H). injection H as <-.
  apply each_kept in H1; [etrans; [exact H1|apply generate_kept]|].
  intros role x x' H. case_bool_decide; [by unbind H|by eapply on_sorter_kept].
Qed.

Lemma deactivate_kept id a a' : deactivateFramework id a = Some a' -> kept a a'.
Proof.
  intros H. apply bind_Some in H as (f & _ & H). apply bind_Some in H as (a1 & H1 & H). injection H as <-.
  apply each_kept in H1; [etrans; [exact H1|done]|]. intros role x x'. apply on_sorter_kept.
Qed.

Lemma addFramework_kept id f a a' : addFramework options id f ∅ a = Some a' -> kept a a'.
Proof.
  unfold addFramework. case_bool_decide; [done|]. intros E. apply bind_Some in E as (a1 & H1 & E).
  assert (K : kept a a1).
  { apply each_kept in H1; [etrans; [|exact H1]; done|]. intros role x x' H2. apply bind_Some in H2 as (a2 & H2 & H3).
    etrans; [by eapply track_under_kept|by eapply on_sorter_kept]. }
  rewrite map_to_list_empty in E. cbn in E. etrans; [exact K|].
  destruct (active f); [injection E as <-; apply generate_kept|by eapply deactivate_kept].
Qed.

Lemma removeFramework_kept id a a' : removeFramework id a = Some a' -> kept a a'.
Proof.
  intros H. apply bind_Some in H as (a1 & H1 & H). apply bind_Some in H as (f & _ & H). apply bind_Some in H as (a2 & H2 & H). injection H as <-.
  apply each_kept in H1.
  - apply each_kept in H2; [etrans; [exact H1|]; etrans; [exact H2|done]|].
    intros role x x' H. apply bind_Some in H as ([x1 b] & H & E). destruct b; [injection E as <-; by eapply untrack_under_kept|done].
  - intros g x x' H. apply bind_Some in H as (s & Hs & H). destruct (offeredOrAllocated s !! id) as [rs|]; [|by injection H as ->].
    apply bind_Some in H as (x1 & Hx & H). apply bind_Some in H as (s' & Es & H). injection H as <-. apply untrack_allocated_kept in Hx.
    apply increase_total in Es. unfold kept, account in *. injection Hx as E1 E2 E3. cbn. rewrite E1, E3, fmap_insert, Es, E2.
    do 2 f_equal. apply insert_id. by rewrite lookup_fmap, Hs.
Qed.

Lemma updateFramework_kept id new a a' : updateFramework options id new a = Some a' -> kept a a'.
Proof.
  intros H. apply bind_Some in H as (f & _ & H). apply bind_Some in H as (a1 & H1 & H). apply bind_Some in H as (a2 & H2 & H).
  apply bind_Some in H as (f2 & _ & H). apply bind_Some in H as (a3 & H3 & H). apply bind_Some in H as (a4 & H4 & H).
  apply bind_Some in H as (f4 & _ & H). case_bool_decide; [|done]. injection H as <-.
  apply suppress_kept in H3. apply revive_kept in H4.
  apply each_kept in H1; [apply each_kept in H2; [etrans; [exact H1|]; etrans; [exact H2|]; etrans; [|exact H4]; etrans; [|exact H3]; done|]|].
  - intros role x x' H. apply bind_Some in H as (x1 & Hx1 & H). apply bind_Some in H as ([x2 b] & Hx2 & H).
    apply bind_Some in H as (f' & _ & H). injection H as <-. etrans; [by eapply on_sorter_kept|]. etrans; [by eapply untrack_under_kept|done].
  - intros role x x' H. apply bind_Some in H as (x1 & Hx1 & H). etrans; [|by eapply on_sorter_kept].
    destruct (isFrameworkTrackedUnderRole x id role); [by injection Hx1 as ->|by eapply track_under_kept].
Qed.

Lemma slave_field_kept g (h : Slave -> Slave) a a' :
  (forall s, slave_total (h s) = slave_total s) -> (s ← slaves a !! g; Some (set_slave g (h s) a)) = Some a' -> kept a a'.
Proof. intros Hh H. apply bind_Some in H as (s & Hs & H). injection H as <-. by eapply set_slave_kept. Qed.

Lemma updateSlave_kept g i c a a' : updateSlave g i None c a = Some a' -> kept a a'.
Proof.
  unfold updateSlave. destruct (negb _); [done|]. intros H. apply bind_Some in H as (s & Hs & H).
  apply bind_Some in H as (b & _ & H). apply bind_Some in H as (b' & _ & H). cbn [mbind option_bind] in H. injection H as <-.
  set (s2 := match c with Some c => with_slave_capabilities c _ | None => _ end). set (a1 := if b then a else removeFilters g a).
  assert (E : slave_total s2 = slave_total s) by (unfold s2; by destruct c, b').
  assert (K : kept a (set_slave g s2 a1)).
  { etrans; [|apply (set_slave_kept g s s2 a1); [unfold a1; by destruct b|done]]. unfold a1. by destruct b. }
  case_match; [etrans; [exact K|apply generate_kept]|done].
Qed.

Lemma updateUnavailability_kept g u a a' : updateUnavailability g u a = Some a' -> kept a a'.
Proof.
  intros H. apply bind_Some in H as (s & Hs & H). injection H as <-. etrans; [|apply generate_kept].
  etrans; [|apply (set_slave_kept g s); done]. done.
Qed.

Lemma transition_kept g rs a a' : transitionOfferedToAllocated g rs a = Some a' -> kept a a'.
Proof.
  intros H. apply bind_Some in H as (s & Hs & H). apply bind_Some in H as (t & Ht & H). injection H as <-.
  etrans; [|apply (set_slave_kept g s); done]. by apply tracking_kept, (root_trackAllocated _ _ _ _ Ht).
Qed.

Lemma recover_kept id g rs filters b a a' : recoverResources id g rs filters b a = Some a' -> kept a a'.
Proof.
  unfold recoverResources. destruct rs as [|r0 rs0]; [by intros [= <-]|]. set (rs := r0 :: rs0). intros H. apply bind_Some in H as (a1 & H1 & H).
  assert (K : kept a a1).
  { destruct (slaves a !! g) as [s|] eqn:Hs; [|by injection H1 as ->]. destruct b; [|by injection H1 as ->]. destruct (negb _); [done|].
    apply bind_Some in H1 as (t & Ht & H1). injection H1 as <-. etrans; [|apply (set_slave_kept g s); done].
    by apply tracking_kept, (root_untrackAllocated _ _ _ _ Ht). }
  etrans; [exact K|]. destruct (frameworks a1 !! id) as [f|]; [|by injection H as ->]. destruct (slaves a1 !! g) as [s|] eqn:Hs; [|by injection H as ->].
  apply bind_Some in H as (m & _ & H). destruct (map_to_list m) as [|[role x] [|]]; try done. destruct (negb _); [done|].
  apply bind_Some in H as (s' & Es & H). apply bind_Some in H as (fs & _ & H). apply bind_Some in H as (known & _ & H). apply bind_Some in H as (a3 & H3 & H).
  assert (K2 : kept a1 (set_slave g s' a1)) by (by eapply set_slave_kept, increase_total).
  assert (K3 : kept a1 a3) by (etrans; [exact K2|]; destruct known; [by eapply untrack_allocated_kept|by injection H3 as ->]).
  etrans; [exact K3|]. destruct filters as [seconds|]; [|by injection H as ->]. destruct (refuses seconds); [|by injection H as ->].
  by unbind H.
Qed.

Lemma updateInverseOffer_kept unknown g id status filters a a' :
  updateInverseOffer unknown g id status filters a = Some a' -> kept a a'.
Proof.
  intros H. apply bind_Some in H as (f & _ & H). apply bind_Some in H as (s & Hs & H). apply bind_Some in H as (m & _ & H).
  apply bind_Some in H as (m' & _ & H). assert (K : kept a (set_slave g (with_maintenance (Some m') s) a)) by (by eapply set_slave_kept).
  etrans; [exact K|]. destruct filters as [seconds|]; [|by injection H as <-]. destruct (refuses seconds); by injection H as <-.
Qed.

Lemma updateQuota_kept role q a a' : updateQuota_ role q a = Some a' -> kept a a'.
Proof.
  intros H. apply bind_Some in H as (t & Ht & H). injection H as <-. by apply tracking_kept, (root_updateQuota _ _ _ _ Ht).
Qed.

Lemma updateWeights_kept l a a' : updateWeights_ l a = Some a' -> kept a a'.
Proof.
  apply each_kept. intros [role w] x x' H. apply bind_Some in H as (t & Ht & H). apply bind_Some in H as (r & _ & H). injection H as <-.
  by apply tracking_kept, (root_updateWeight _ _ _ _ Ht).
Qed.

Lemma recover_quotas_kept expected factor quotas a a' : recover_ expected factor quotas a = Some a' -> kept a a'.
Proof.
  unfold recover_. destruct (negb _); [done|]. destruct (expected <? 0); [done|]. case_bool_decide; [by intros [= <-]|].
  intros E. apply bind_Some in E as (a1 & H1 & E). apply each_kept in H1; [|intros [role q] x x'; apply updateQuota_kept].
  etrans; [exact H1|]. injection E as <-. by case_match.
Qed.
End Frame.
