(* ===== verification/AllocatorLaws.v ===== *)
(** * What the allocator relies on, and its invariant

    The laws of the interface [SorterOps] of [Allocator.v], which the DRF
    sorter satisfies, and the invariant that ties the sorters, the tree of
    roles, the frameworks and the agents of the allocator together.  The books
    are kept for unshared scalar resources, as in [SorterAccounts.v]. *)

From stdpp Require Import base gmap strings list.
From Stdlib Require Import ZArith QArith.
From S2P Require Import Prelude Strings Roles Ranges Scalar Rounding Values Quantities Registry Resource Resources ResourceOps Conversions Attributes Quota SorterTree DrfSorter SorterAccounts SorterHoldings RoleTree RoleLedger Shrink Allocator.
Local Open Scope Z_scope.

(** ** The laws of sorters *)

Definition sorter_run {S : Type} `{SorterOps S} (s : S) (c : Call) : option S :=
  match c with
  | Add cp => sorter_add s cp
  | Remove cp => sorter_remove s cp
  | Activate cp => sorter_activate s cp
  | Deactivate cp => sorter_deactivate s cp
  | UpdateWeight p w => sorter_updateWeight s p w
  | Allocated cp slaveId rs => sorter_allocated s cp slaveId rs
  | Unallocated cp slaveId rs => sorter_unallocated s cp slaveId rs
  | AddSlave slaveId q => sorter_addSlave s slaveId q
  | RemoveSlave slaveId => sorter_removeSlave s slaveId
  | Sort => '(_, s') ← sorter_sort s; Some s'
  | Updated cp slaveId old new => sorter_update s cp slaveId old new
  end.

(** What the caller sees to. *)
Definition may_run (clients : gmap string bool) (agents : gset string -> Prop) (holds : string -> string -> Resource -> Z) (c : Call) : Prop :=
  match c with
  | Add cp => clients !! cp = None /\ valid_client cp
  | Remove cp | Activate cp | Deactivate cp => is_Some (clients !! cp)
  | UpdateWeight _ w => weight_ok w
  | Allocated cp _ rs => is_Some (clients !! cp) /\ scalar_resources rs /\ rs <> []
  | Unallocated cp slaveId rs =>
      is_Some (clients !! cp) /\ scalar_resources rs /\ no_twin_disks rs /\ rs <> []
      /\ forall k, wf_resource k -> amount_held rs k <= holds cp slaveId k
  | AddSlave slaveId q => (exists known, agents known /\ slaveId ∉ known) /\ wf_quantities q
  | _ => False
  end.

Definition agents_spec (agents : gset string) (c : Call) : gset string :=
  match c with
  | AddSlave slaveId _ => {[ slaveId ]} ∪ agents
  | RemoveSlave slaveId => agents ∖ {[ slaveId ]}
  | _ => agents
  end.

(** A sorter is a set of clients, some of them active, a set of agents, and
    what each client holds of every kind of resource on every agent.  A sorter
    that has no use for the agents may leave open which they are.  Its total
    covers any resources of which some client holds as much of every kind. *)
Class SorterLaws (S : Type) `{SorterOps S} := {
  sorter_ok : S -> Prop;
  sorter_clients : S -> gmap string bool;
  sorter_agents : S -> gset string -> Prop;
  sorter_held : S -> string -> string -> Resource -> Z;
  sorter_new_ok exclude :
    sorter_ok (sorter_new exclude) /\ sorter_clients (sorter_new exclude) = ∅ /\ sorter_agents (sorter_new exclude) ∅;
  sorter_idle s p g k : sorter_ok s -> sorter_clients s !! p = None -> sorter_held s p g k = 0;
  sorter_run_ok s c :
    sorter_ok s -> may_run (sorter_clients s) (sorter_agents s) (sorter_held s) c ->
    exists s', sorter_run s c = Some s' /\ sorter_ok s' /\ sorter_clients s' = call_spec (sorter_clients s) c
      /\ (forall known, sorter_agents s known -> sorter_agents s' (agents_spec known c))
      /\ forall p g k, wf_resource k -> sorter_held s' p g k = held_spec c (sorter_held s) p g k;
  sorter_sort_ok s :
    sorter_ok s ->
    exists l s', sorter_sort s = Some (l, s') /\ sorter_ok s' /\ sorter_clients s' = sorter_clients s
      /\ (forall known, sorter_agents s known -> sorter_agents s' known) /\ (forall c, c ∈ l <-> sorter_clients s !! c = Some true)
      /\ forall p g k, wf_resource k -> sorter_held s' p g k = sorter_held s p g k;
  sorter_contains_ok s c :
    sorter_ok s -> sorter_contains s c = Some (bool_decide (is_Some (sorter_clients s !! c)));
  sorter_allocation_ok s c :
    sorter_ok s -> is_Some (sorter_clients s !! c) ->
    exists m, sorter_allocation s c = Some m /\ (m = ∅ <-> forall g k, wf_resource k -> sorter_held s c g k = 0);
  sorter_count_ok s : sorter_ok s -> sorter_count s = size (sorter_clients s);
  sorter_total_ok s : sorter_ok s -> wf_quantities (sorter_total s);
  sorter_total_covers s X n :
    sorter_ok s -> (forall g rs, X !! g = Some rs -> scalar_resources rs) ->
    (forall g k, wf_resource k -> 0 < amount_held (default [] (X !! g)) k ->
       exists p, amount_held (default [] (X !! g)) k <= sorter_held s p g k) ->
    agent_sum (ptotal n PScalar) X <= Quantities.get (sorter_total s) n;
}.

(** ** The DRF sorter *)

Definition drf_agents (s : Sorter) (known : gset string) : Prop := dom (agentResourceQuantities s) = known.

Lemma drf_run_agents s c s' :
  sorter_books s -> permitted s c -> run_call s c = Some s' ->
  forall known, drf_agents s known -> drf_agents s' (agents_spec known c).
Proof.
  intros Hs Hp Hc known <-. destruct (perform_keeps s c s' Hs Hp Hc) as [_ Ht].
  destruct c; try (destruct Ht as [_ Ht]; unfold drf_agents; by rewrite Ht).
  - cbn in Hc. unfold addSlave in Hc. destruct (bool_decide _); [done|]. apply (inj Some) in Hc. subst s'. unfold drf_agents, agents_spec. cbn. by rewrite dom_insert_L.
  - cbn in Hc. unfold removeSlave in Hc. destruct (_ !! slaveId); [|done]. cbn in Hc. destruct (negb _); [done|].
    apply (inj Some) in Hc. subst s'. unfold drf_agents, agents_spec. cbn. by rewrite dom_delete_L.
Qed.

Lemma drf_new exclude :
  sorter_books (sorter_new exclude) /\ client_map (sorter_new exclude) = ∅ /\ drf_agents (sorter_new exclude) ∅.
Proof. split_and!; [apply new_sorter_books|done|]. unfold drf_agents. cbn. apply dom_empty_L. Qed.

Lemma drf_idle s p g k : sorter_books s -> client_map s !! p = None -> client_held s p g k = 0.
Proof. intros Hs. apply client_held_absent, (sb_inv s Hs). Qed.

(** What a client holds, in its own books. *)
Lemma drf_client s cp :
  sorter_books s -> is_Some (client_map s !! cp) ->
  exists al, client_allocation s cp = Some al /\ books al /\ forall g k, client_held s cp g k = held al g k.
Proof.
  intros Hs Hc. assert (Hi := sb_inv s Hs). destruct (find_present s cp Hi Hc) as (q & m & Hl). exists (allocation (data m)). split_and!.
  - unfold client_allocation. rewrite (locate _ _ _ _ Hl). cbn. by rewrite (lo_node _ _ _ _ Hl).
  - apply ac_books, (accounted_at q [] (DrfSorter.root s)); [apply (DrfSorter.si_wf s Hi)|apply (sb_accounted s Hs)|apply (lo_node _ _ _ _ Hl)].
  - intros g k. by apply client_held_at with q.
Qed.

Lemma drf_holds s cp g rs :
  sorter_books s -> is_Some (client_map s !! cp) -> scalar_resources rs -> rs <> [] ->
  (forall k, wf_resource k -> amount_held rs k <= client_held s cp g k) -> holds s cp g rs.
Proof.
  intros Hs Hc Hrs Hne Hle. destruct (drf_client s cp Hs Hc) as (al & Ea & B & H).
  assert (Hi : included rs (on_agent al g)) by (apply held_included; [done..|]; intros k Hk; rewrite <- H; by apply Hle).
  destruct (included_entry al g rs Hrs Hne Hi) as [cur Hcur]. exists al, cur. split_and!; [done|done|].
  unfold on_agent in Hi. rewrite Hcur in Hi. cbn in Hi. apply included_contains; [|apply (sc_wf _ Hrs)|done].
  by apply sc_wf, (bk_entries al B g cur).
Qed.

Lemma drf_permitted s c : sorter_books s -> may_run (client_map s) (drf_agents s) (client_held s) c -> permitted s c.
Proof.
  intros Hs Hm. destruct c; cbn in *; try done.
  - destruct Hm as (H1 & H2 & H3 & H4 & H5). split_and!; [by apply drf_holds|done|done].
  - destruct Hm as [(known & <- & H1) H2]. split; [by apply not_elem_of_dom|done].
Qed.

Lemma drf_run s c :
  sorter_books s -> may_run (client_map s) (drf_agents s) (client_held s) c ->
  exists s', sorter_run s c = Some s' /\ sorter_books s' /\ client_map s' = call_spec (client_map s) c
    /\ (forall known, drf_agents s known -> drf_agents s' (agents_spec known c))
    /\ forall p g k, wf_resource k -> client_held s' p g k = held_spec c (client_held s) p g k.
Proof.
  intros Hs Hm. assert (Hp := drf_permitted s c Hs Hm).
  destruct (perform_books s c Hs Hp) as (s' & Hc & Hs' & Hcl). exists s'.
  split_and!; [|done|done|by apply drf_run_agents|intros p g k; by apply run_held].
  destruct c; by cbn in Hc |- *.
Qed.

Lemma drf_sort (s : Sorter) :
  sorter_books s ->
  exists l s', sorter_sort s = Some (l, s') /\ sorter_books s' /\ client_map s' = client_map s
    /\ (forall known, drf_agents s known -> drf_agents s' known) /\ (forall c, c ∈ l <-> client_map s !! c = Some true)
    /\ forall p g k, wf_resource k -> client_held s' p g k = client_held s p g k.
Proof.
  intros Hs. destruct (sort_ok s (sb_inv s Hs)) as (s' & H1 & H2 & H3 & _). destruct (perform_books s Sort Hs I) as (s2 & R & B & _).
  cbn in R. rewrite H1 in R. cbn in R. injection R as <-. exists (active_names (leaves [] (root s'))), s'.
  split_and!; [done|done|done| | |].
  - apply (drf_run_agents s Sort); [done|done|cbn; by rewrite H1].
  - intros c. rewrite active_name_spec by apply (si_distinct s' H2). by rewrite <- H3.
  - intros p g k. apply (run_held s Sort); [done|done|cbn; by rewrite H1].
Qed.

Lemma drf_contains (s : Sorter) c :
  sorter_books s -> sorter_contains s c = Some (bool_decide (is_Some (client_map s !! c))).
Proof.
  intros Hs. cbn. unfold DrfSorter.contains. destruct (client_map s !! c) as [b|] eqn:E.
  - destruct (find_present s c (sb_inv s Hs)) as (q & m & Hl); [by eexists|]. by rewrite (lo_find _ _ _ _ Hl).
  - by rewrite (find_absent s c (sb_inv s Hs) E).
Qed.

Lemma drf_allocation (s : Sorter) c :
  sorter_books s -> is_Some (client_map s !! c) ->
  exists m, sorter_allocation s c = Some m /\ (m = ∅ <-> forall g k, wf_resource k -> client_held s c g k = 0).
Proof.
  intros Hs Hc. destruct (drf_client s c Hs Hc) as (al & Ea & B & H). exists (resources al). cbn. rewrite Ea. split; [done|]. split.
  - intros E g k _. rewrite H. unfold held, on_agent. by rewrite E, lookup_empty.
  - intros H0. apply map_eq. intros g. rewrite lookup_empty. destruct (resources al !! g) as [rs|] eqn:E; [|done]. exfalso.
    destruct (bk_entries al B g rs E) as [Hrs Hne]. destruct (held_some rs Hrs Hne) as (k & Hk & Hpos).
    specialize (H0 g k Hk). rewrite H in H0. unfold held, on_agent in H0. rewrite E in H0. cbn in H0. lia.
Qed.

Lemma drf_count (s : Sorter) : sorter_books s -> sorter_count s = size (client_map s).
Proof.
  intros Hs. cbn. unfold client_count. rewrite (si_table s (sb_inv s Hs)). rewrite <- !size_dom. f_equal. apply set_eq. intros p.
  rewrite !elem_of_dom. apply table_flags.
Qed.

Lemma drf_total (s : Sorter) : sorter_books s -> wf_quantities (sorter_total s).
Proof. intros Hs. cbn. apply bk_totals. apply (ac_books _ (sb_accounted s Hs)). Qed.

Lemma scalar_total_le n a b :
  scalar_resources a -> scalar_resources b -> included a b -> ptotal n PScalar a <= ptotal n PScalar b.
Proof.
  intros Ha Hb Hi. assert (H := minus_total n PScalar b a (sc_wf _ Hb) (sc_wf _ Ha) Hi (sc_unshared _ Ha)). cbn in H.
  assert (G := ptotal_nonneg n PScalar _ (wr_elements _ (sc_wf _ (scalar_minus _ _ Hb Ha)))). lia.
Qed.

(** Sums over agents, of which one has no more on any agent. *)
Lemma agent_sum_mono f (X Y : gmap string Resources) :
  f [] = 0 -> (forall g rs, Y !! g = Some rs -> 0 <= f rs) ->
  (forall g, f (default [] (X !! g)) <= f (default [] (Y !! g))) -> agent_sum f X <= agent_sum f Y.
Proof.
  intros Hf. revert Y. induction X as [|g rs X Hg IH] using map_ind; intros Y Hn Hle.
  - apply zsum_nonneg. intros [g rs] H%elem_of_map_to_list. by apply (Hn g).
  - rewrite (agent_sum_delete f (<[g := rs]> X) g Hf), (agent_sum_delete f Y g Hf), delete_insert_id by done.
    assert (H1 := Hle g). assert (H2 : agent_sum f X <= agent_sum f (delete g Y)); [|lia]. apply IH.
    + intros g' rs' [_ H]%lookup_delete_Some. by apply (Hn g').
    + intros g'. specialize (Hle g'). destruct (decide (g = g')) as [<-|Hne]; [rewrite lookup_delete_eq, Hg; done|].
      rewrite lookup_delete_ne by done. by rewrite lookup_insert_ne in Hle.
Qed.

(** The root of the tree holds what any client holds. *)
Lemma drf_root_held (s : Sorter) p g k :
  sorter_books s -> wf_resource k -> client_held s p g k <= held (allocation (data (root s))) g k.
Proof.
  intros Hs Hk. assert (Hi := sb_inv s Hs). assert (B := ac_books _ (sb_accounted s Hs)).
  destruct (client_map s !! p) as [b|] eqn:E.
  - destruct (find_present s p Hi ltac:(by eexists)) as (q & m & Hl). rewrite (client_held_at s p q m g k) by done.
    assert (H := along_held q [] (DrfSorter.root s) m (DrfSorter.si_wf s Hi) (sb_accounted s Hs) (lo_node _ _ _ _ Hl)).
    destruct q; cbn in H; apply Forall_cons in H as [[_ H] _]; by apply H.
  - rewrite (drf_idle s p g k Hs E). apply held_nonneg, (on_agent_scalar _ g B).
Qed.

Lemma drf_covers (s : Sorter) X n :
  sorter_books s -> (forall g rs, X !! g = Some rs -> scalar_resources rs) ->
  (forall g k, wf_resource k -> 0 < amount_held (default [] (X !! g)) k ->
     exists p, amount_held (default [] (X !! g)) k <= client_held s p g k) ->
  agent_sum (ptotal n PScalar) X <= Quantities.get (totals (allocation (data (root s)))) n.
Proof.
  intros Hs HX Hle. assert (B := ac_books _ (sb_accounted s Hs)). rewrite (bk_sum _ B). apply agent_sum_mono; [done|..].
  - intros g rs H. apply ptotal_nonneg, wr_elements, sc_wf. by apply (bk_entries _ B g).
  - intros g. assert (Hx : scalar_resources (default [] (X !! g))) by (destruct (X !! g) eqn:E; [by apply (HX g)|apply scalar_nil]).
    change (default [] (resources (allocation (data (root s))) !! g)) with (on_agent (allocation (data (root s))) g).
    apply scalar_total_le; [done|by apply on_agent_scalar|]. apply held_included; [done..|]. intros k Hk.
    destruct (decide (0 < amount_held (default [] (X !! g)) k)) as [H|H].
    + destruct (Hle g k Hk H) as (p & Hp). etransitivity; [exact Hp|by apply drf_root_held].
    + assert (N := held_nonneg _ k (on_agent_scalar _ g B)). unfold held. lia.
Qed.

#[export] Instance drf_laws : SorterLaws Sorter := {|
  sorter_ok := sorter_books;
  sorter_clients := client_map;
  sorter_agents := drf_agents;
  sorter_held := client_held;
  sorter_new_ok := drf_new;
  sorter_idle := drf_idle;
  sorter_run_ok := drf_run;
  sorter_sort_ok := drf_sort;
  sorter_contains_ok := drf_contains;
  sorter_allocation_ok := drf_allocation;
  sorter_count_ok := drf_count;
  sorter_total_ok := drf_total;
  sorter_total_covers := drf_covers;
|}.
