(* ===== verification/RandomLaws.v ===== *)
(** * The random sorter satisfies the laws of sorters

    The operations of [RandomSorter.v] as an instance of [SorterOps], and the
    laws of [AllocatorLaws.v] for it: what is proved of the allocator for any
    two sorters holds with random sorters too.

    The tree of a random sorter is that of a DRF sorter that is never sorted
    ([as_drf]), so that the lemmas about the operations on the tree carry over;
    what is new are the allocation without a count, the cached weights and the
    order of the clients. *)

From stdpp Require Import base gmap strings list sorting.
From Stdlib Require Import ZArith QArith.
From S2P Require Import Prelude Strings Ranges Scalar Rounding Values Quantities Registry Resource Resources ResourceOps Quota SorterTree DrfSorter SorterAccounts SorterHoldings Allocator AllocatorLaws RandomSorter.
Local Open Scope Z_scope.

Section Ops.
  Variables (pow : double -> double -> double) (draws : nat -> double).

Definition random_ops : SorterOps RandomSorter := {|
  sorter_new := fun _ => new_sorter draws;
  sorter_add := add;
  sorter_remove := remove;
  sorter_activate := activate;
  sorter_deactivate := deactivate;
  sorter_updateWeight := updateWeight;
  sorter_allocated := allocated;
  sorter_unallocated := unallocated;
  sorter_update := update;
  sorter_allocation := fun s c => resources <$> client_allocation s c;
  sorter_total := fun s => totals (allocation (data (root s)));
  sorter_addSlave := fun s _ _ => Some s;
  sorter_removeSlave := fun s _ => Some s;
  sorter_contains := contains;
  sorter_count := client_count;
  sorter_sort := sort pow;
|}.
End Ops.

(** ** As a DRF sorter *)

Definition as_drf (s : RandomSorter) : Sorter := mkSorter None true (root s) (clients s) (weights s) [] ∅.

Definition random_clients (s : RandomSorter) : gmap string bool := client_map (as_drf s).
Definition random_held (s : RandomSorter) : string -> string -> Resource -> Z := client_held (as_drf s).

(** The calls that do to the tree what they do in the DRF sorter. *)
Definition tree_call (c : Call) : Prop :=
  match c with Allocated _ _ _ | AddSlave _ _ | RemoveSlave _ | Sort => False | _ => True end.

Lemma found_node s cp loc : find_client s cp = Some loc -> exists n, node_at loc (root s) = Some n.
Proof.
  unfold find_client, find. destruct (clients s !! cp) as [q|]; [|done]. cbn. destruct (node_at q (root s)) as [n|] eqn:E; [|done]. cbn.
  destruct (isLeaf n) as [[]|]; [|done..]. cbn. intros [= <-]. by exists n.
Qed.

Section Laws.
  Variables (pow : double -> double -> double) (draws : nat -> double).
  #[local] Existing Instance random_ops.
  Implicit Types s : RandomSorter.

Notation run := (sorter_run (H := random_ops pow draws)).

Lemma run_drf (s : Sorter) c : sorter_run s c = run_call s c.
Proof. by destruct c. Qed.

Lemma run_as_drf s c : tree_call c -> run_call (as_drf s) c = as_drf <$> run s c.
Proof.
  destruct c; cbn [tree_call run_call sorter_run random_ops sorter_add sorter_remove sorter_activate sorter_deactivate sorter_updateWeight sorter_unallocated sorter_update]; intros Hc; try done.
  - unfold DrfSorter.add, add. cbn [as_drf DrfSorter.clients DrfSorter.root]. case_bool_decide; [done|].
    destruct (descend [] (split cp "/") (root s)) as [a|]; [|done]. cbn [mbind option_bind]. destruct (moved a); [done|].
    destruct (check_leaf _ _ _); [|done]. cbn [mbind option_bind]. by case_bool_decide.
  - unfold DrfSorter.remove, remove. change (DrfSorter.find_client (as_drf s) cp) with (find_client s cp). destruct (find_client s cp) as [q|]; [|done]. cbn.
    destruct (node_at q (root s)) as [m|]; [|done]. cbn. by destruct (remove_at _ _ _ _ _) as [[r c]|].
  - unfold DrfSorter.activate, activate. change (DrfSorter.find_client (as_drf s) cp) with (find_client s cp). destruct (find_client s cp) as [q|] eqn:E; [|done]. cbn.
    destruct (found_node s cp q E) as [n ->]. cbn. by destruct (update_at _ _ _) as [[r c]|].
  - unfold DrfSorter.deactivate, deactivate. change (DrfSorter.find_client (as_drf s) cp) with (find_client s cp). destruct (find_client s cp) as [q|] eqn:E; [|done]. cbn.
    by destruct (update_at _ _ _) as [[r c]|].
  - unfold DrfSorter.updateWeight, updateWeight. set (s1 := mkRandomSorter _ _ _ _ _). change (DrfSorter.find _ p) with (find s1 p).
    destruct (find s1 p) as [[q|]|]; [|done..]. cbn. destruct (node_at _ _) as [m|]; [|done]. cbn. destruct (negb _); [done|].
    by destruct (update_at _ _ _) as [[r c]|].
  - unfold DrfSorter.update, update. change (DrfSorter.find_client (as_drf s) cp) with (find_client s cp). destruct (find_client s cp) as [q|] eqn:E; [|done]. cbn.
    by destruct (climb _ _ _ _).
  - unfold DrfSorter.unallocated, unallocated. change (DrfSorter.find_client (as_drf s) cp) with (find_client s cp). destruct (find_client s cp) as [q|] eqn:E; [|done]. cbn.
    by destruct (climb _ _ _ _).
Qed.

(** ** The invariant *)

Record random_ok (s : RandomSorter) : Prop := {
  rd_books : sorter_books (as_drf s);
  rd_weights : forall p w, weights s !! p = Some w -> weight_ok w;
  rd_cache : every good_cache (root s);
  rd_info : sort_dirty (sortInfo s) = false ->
    NoDup (sort_clients (sortInfo s)) /\ (forall c, c ∈ sort_clients (sortInfo s) <-> random_clients s !! c = Some true)
    /\ length (sort_weights (sortInfo s)) = length (sort_clients (sortInfo s)) /\ Forall (fun w => 0 < w)%Q (sort_weights (sortInfo s));
}.

Lemma cache_new b d t k : good_cache (new_data b d t k).
Proof. done. Qed.
Lemma cache_kind k d : good_cache d -> good_cache (with_kind k d).
Proof. done. Qed.
Lemma cache_allocation a d : good_cache d -> good_cache (with_allocation a d).
Proof. done. Qed.
Lemma cache_set_kind from to d : good_cache d -> good_cache (set_kind from to d).1.
Proof. unfold set_kind. by case_bool_decide. Qed.
#[local] Hint Resolve cache_new cache_kind cache_allocation cache_set_kind : core.

Lemma allocated_effect g rs a a' :
  scalar_resources rs -> rs <> [] -> books a -> RandomSorter.allocation_add g rs a = Some a' ->
  books a' /\ forall g' k, wf_resource k -> held a' g' k = held a g' k + delta_on g (amount_held rs) g' k.
Proof.
  intros Hrs Hne Ha H. unfold RandomSorter.allocation_add in H. destruct (add_effect g rs a (mkAllocation (u64 (count a + 1)) (resources a') (totals a')) Hrs Hne Ha) as [[B1 B2 B3] E].
  - unfold SorterTree.allocation_add. destruct (quantities_without _ rs); [|done]. cbn in *. by injection H as <-.
  - split; [by split|exact E].
Qed.

(** A call keeps the weights good, those that are cached in the tree too, and
    keeps what is remembered for sorting or marks it as out of date. *)
Lemma run_keeps s c s' :
  random_ok s -> may_run (random_clients s) (fun _ => True) (random_held s) c -> run s c = Some s' ->
  (forall p w, weights s' !! p = Some w -> weight_ok w) /\ every good_cache (root s')
  /\ (sort_dirty (sortInfo s') = true \/ sortInfo s' = sortInfo s /\ call_spec (random_clients s) c = random_clients s).
Proof.
  intros [_ Hw He _] Hm. destruct c; cbn [sorter_run random_ops sorter_add sorter_remove sorter_activate sorter_deactivate sorter_updateWeight sorter_allocated
    sorter_unallocated sorter_addSlave may_run call_spec] in Hm |- *; try done.
  - unfold add. case_bool_decide; [done|]. destruct (descend [] (split cp "/") (root s)) as [a|] eqn:E; [|done]. cbn [mbind option_bind]. destruct (moved a); [done|].
    destruct (check_leaf _ _ _); [|done]. cbn [mbind option_bind]. case_bool_decide; [done|]. intros [= <-]. split_and!; [done| |by left]. cbn.
    by eapply every_descend; [..|exact E]; eauto.
  - unfold remove. destruct (find_client s cp) as [q|]; [|done]. cbn. destruct (node_at q (root s)) as [m|]; [|done]. cbn.
    destruct (remove_at _ _ _ _ _) as [[r c]|] eqn:E; [|done]. intros [= <-]. split_and!; [done| |by left]. cbn. by eapply every_remove_at; [..|exact E]; eauto.
  - unfold activate. destruct (find_client s cp) as [q|]; [|done]. cbn. destruct (update_at _ _ _) as [[r c]|] eqn:E; [|done]. intros [= <-]. split_and!; [done| |by left]. cbn.
    by eapply every_update; [..|exact E]; eauto.
  - unfold deactivate. destruct (find_client s cp) as [q|]; [|done]. cbn. destruct (update_at _ _ _) as [[r c]|] eqn:E; [|done]. intros [= <-]. split_and!; [done| |by left]. cbn.
    by eapply every_update; [..|exact E]; eauto.
  - assert (Hw' : forall p' w', <[p := w]> (weights s) !! p' = Some w' -> weight_ok w') by (intros p' w' [[_ <-]|[_ H]]%lookup_insert_Some; [done|by apply (Hw p')]).
    unfold updateWeight. set (s1 := mkRandomSorter _ _ _ _ _). destruct (find s1 p) as [[q|]|]; [|intros [= <-]; by split_and!; [..|left]|done]. cbn.
    destruct (node_at _ _) as [m|]; [|done]. cbn. destruct (negb _); [done|].
    destruct (update_at _ _ _) as [[r c]|] eqn:E; [|done]. intros [= <-]. split_and!; [done| |by left]. cbn. eapply every_update; [|exact He|exact E]. by intros d _ w' [= <-].
  - unfold allocated. destruct (find_client s cp) as [q|]; [|done]. cbn. destruct (climb _ _ _ _) as [r|] eqn:E; [|done]. intros [= <-]. split_and!; [done| |by right]. cbn.
    by eapply every_climb; [..|exact E]; eauto.
  - unfold unallocated. destruct (find_client s cp) as [q|]; [|done]. cbn. destruct (climb _ _ _ _) as [r|] eqn:E; [|done]. intros [= <-]. split_and!; [done| |by right]. cbn.
    by eapply every_climb; [..|exact E]; eauto.
  - intros [= <-]. by split_and!; [..|right].
Qed.

(** ** The calls *)

Lemma run_tree s c :
  random_ok s -> may_run (random_clients s) (fun _ => True) (random_held s) c ->
  exists s', run s c = Some s' /\ sorter_books (as_drf s') /\ random_clients s' = call_spec (random_clients s) c
    /\ forall p g k, wf_resource k -> random_held s' p g k = held_spec c (random_held s) p g k.
Proof.
  intros Hs Hm. assert (Hb := rd_books s Hs). assert (T : tree_call c -> may_run (client_map (as_drf s)) (drf_agents (as_drf s)) (client_held (as_drf s)) c) by (by destruct c).
  destruct c; try (destruct (drf_run (as_drf s) _ Hb (T I)) as (x & E & H1 & H2 & _ & H3); rewrite run_drf, run_as_drf in E by done;
    destruct (run s _) as [s'|]; [|done]; cbn in E; injection E as <-; by exists s').
  3,4:done.
  - destruct Hm as (Hc & Hrs & Hne). assert (Hi := sb_inv _ Hb). assert (Ha := sb_accounted _ Hb).
    assert (Hck : checks (as_drf s) cp (RandomSorter.allocation_add slaveId rs)).
    { intros q m _. apply Forall_forall. intros d _. unfold RandomSorter.allocation_add. destruct (scalar_quantities_without (on_agent (allocation d) slaveId) rs Hrs) as (q' & -> & _). by eexists. }
    destruct (climb_ok (as_drf s) cp (RandomSorter.allocation_add slaveId rs) replace_child true Hi Hc Hck replace_settles) as (x & E & I1 & I2); [done|].
    destruct (climb_keeps (as_drf s) cp _ _ true (delta_on slaveId (amount_held rs)) x Hi Ha Hc Hck replace_settles) as (K1 & K2 & K3);
      [intros a a'; by apply allocated_effect|exact E|].
    assert (L : forall p g k, wf_resource k -> client_held x p g k = client_held (as_drf s) p g k + if decide (cp = p) then delta_on slaveId (amount_held rs) g k else 0).
    { intros p g k Hk. eapply (climb_held (as_drf s) cp _ _ true (delta_on slaveId (amount_held rs)) x p g k Hi Ha Hc Hck replace_settles Hk); [|exact E]. intros a a'. by apply allocated_effect. }
    cbn [sorter_run random_ops sorter_allocated]. unfold allocated. change (DrfSorter.find_client (as_drf s) cp) with (find_client s cp) in E.
    destruct (find_client s cp) as [q|]; [|done]. cbn [mbind option_bind] in E |- *. change (DrfSorter.root (as_drf s)) with (root s) in E.
    destruct (climb _ _ _ (root s)) as [r|]; [|done]. cbn [mbind option_bind] in E |- *. injection E as <-.
    exists (with_root r s). split_and!; [done| |done|exact L]. destruct Hb as [_ _ B3 B4 B5]. by split.
  - exists s. split_and!; done.
Qed.

Lemma random_run s c :
  random_ok s -> may_run (random_clients s) (fun _ => True) (random_held s) c ->
  exists s', run s c = Some s' /\ random_ok s' /\ random_clients s' = call_spec (random_clients s) c
    /\ (forall known : gset string, True -> True)
    /\ forall p g k, wf_resource k -> random_held s' p g k = held_spec c (random_held s) p g k.
Proof.
  intros Hs Hm. destruct (run_tree s c Hs Hm) as (s' & E & B & C & L). destruct (run_keeps s c s' Hs Hm E) as (K1 & K2 & K3).
  exists s'. split_and!; try done. split; [done..|]. destruct K3 as [K3|[-> K3]]; [by rewrite K3|]. rewrite C, K3. apply (rd_info s Hs).
Qed.

(** ** Sorting *)

(** The sorter with what sorting needs up to date. *)
Lemma cached_ok s :
  random_ok s ->
  exists s', updateRelativeWeights s = Some s' /\ random_ok s' /\ sort_dirty (sortInfo s') = false /\ random_clients s' = random_clients s
    /\ forall p g k, random_held s' p g k = random_held s p g k.
Proof.
  intros Hs. unfold updateRelativeWeights. destruct (sort_dirty (sortInfo s)) eqn:Ed; cbn [negb]; [|by exists s].
  assert (B := rd_books s Hs). assert (Hi := sb_inv _ B). assert (W := DrfSorter.si_wf _ Hi). cbn [DrfSorter.root as_drf] in W.
  destruct (relative_spec (weights s) (data (root s)) [] (root s) 0%Q 1%Q (rd_weights s Hs) W (rd_cache s Hs)) as (found & -> & F1 & F2); [done|done| |].
  { intros []. by apply (sh_root _ _ _ (wf_shape _ _ W)). }
  cbn [mbind option_bind]. eexists. split; [done|]. destruct (cache_wf (weights s) [] (root s) W) as [W' L].
  assert (D := DrfSorter.si_distinct _ Hi). cbn [DrfSorter.root as_drf] in D. assert (D' := distinct_perm _ _ (symmetry L) D).
  assert (C : flags (leaves [] (cache (weights s) (root s))) = flags (leaves [] (root s))) by (by apply flags_perm).
  split_and!; [|done|exact C|intros p g k; apply cache_holding].
  split; cbn [root weights sortInfo sort_dirty sort_clients sort_weights as_drf].
  - destruct B as [B1 B2 B3 B4 B5]. split; [|by apply cache_accounted|done..]. split; [done|done| |done]. cbn [DrfSorter.root DrfSorter.clients as_drf].
    transitivity (table (leaves [] (root s))); [apply (DrfSorter.si_table _ Hi)|]. symmetry. by apply table_perm.
  - apply (rd_weights s Hs).
  - apply cache_good; [apply (rd_weights s Hs)|apply (rd_cache s Hs)].
  - intros _. rewrite F1. split_and!; [by apply active_names_NoDup| |by rewrite <- F1, !length_map|done].
    intros c. rewrite active_name_spec by done. change (random_clients _) with (flags (leaves [] (cache (weights s) (root s)))). by rewrite C.
Qed.

(** No key is missing, and every item has its place. *)
Lemma shuffle_ok items ws g :
  length ws = length items -> Forall (fun w => 0 < w)%Q ws ->
  exists l g', weightedShuffle pow items ws g = Some (l, g') /\ l ≡ₚ items.
Proof.
  intros Hl Hw. unfold weightedShuffle. rewrite Hl, Nat.eqb_refl. cbn [negb].
  assert (K : exists ks, keys pow g ws = Some ks /\ length ks = length ws).
  { clear Hl. revert g. induction Hw as [|w ws Hw _ IH]; intros g; cbn [keys]; [by exists []|].
    destruct (Qle_bool w 0) eqn:E; [apply Qle_bool_iff in E; by apply Qlt_not_le in Hw|]. cbn [negb].
    destruct (IH (fun i => g (S i))) as (ks & -> & H). cbn. eexists. split; [done|]. cbn. by rewrite H. }
  destruct K as (ks & -> & Hk). cbn. eexists _, _. split; [done|]. rewrite merge_sort_Permutation. change (map snd) with (fmap (M := list) (snd (A := double) (B := string))).
  rewrite snd_zip; [done|]. lia.
Qed.

Lemma random_sort s :
  random_ok s ->
  exists l s', sort pow s = Some (l, s') /\ random_ok s' /\ random_clients s' = random_clients s
    /\ NoDup l /\ (forall c, c ∈ l <-> random_clients s !! c = Some true)
    /\ forall p g k, random_held s' p g k = random_held s p g k.
Proof.
  intros Hs. destruct (cached_ok s Hs) as (s1 & E & O & D & C & L). destruct (rd_info s1 O D) as (I1 & I2 & I3 & I4).
  unfold sort. rewrite E. cbn [mbind option_bind]. destruct (shuffle_ok _ _ (generator s1) I3 I4) as (l & g & -> & P). cbn.
  eexists l, _. split; [done|]. split_and!; [|done|by rewrite P| |done].
  - destruct O as [O1 O2 O3 O4]. by split.
  - intros c. rewrite P, I2. by rewrite C.
Qed.

(** ** The instance *)

Lemma random_new : random_ok (new_sorter draws) /\ random_clients (new_sorter draws) = ∅.
Proof.
  split; [|done]. split; [|done|by split|done].
  destruct (new_sorter_books None) as [[I1 I2 I3 _] B2 B3 B4 B5]. by split; [split|..].
Qed.

Definition random_laws : SorterLaws RandomSorter (H := random_ops pow draws).
Proof.
  refine (Build_SorterLaws RandomSorter (random_ops pow draws) random_ok random_clients (fun _ _ => True) random_held _ _ _ _ _ _ _ _ _).
  - intros exclude. destruct random_new. by split_and!.
  - intros s p g k Hs. apply (drf_idle (as_drf s) p g k (rd_books s Hs)).
  - apply random_run.
  - intros s Hs. destruct (random_sort s Hs) as (l & s' & E & O & C & _ & M & L). exists l, s'. by split_and!.
  - intros s c Hs. apply (drf_contains (as_drf s) c (rd_books s Hs)).
  - intros s c Hs. apply (drf_allocation (as_drf s) c (rd_books s Hs)).
  - intros s Hs. apply (drf_count (as_drf s) (rd_books s Hs)).
  - intros s Hs. apply (drf_total (as_drf s) (rd_books s Hs)).
  - intros s X n Hs. apply (drf_covers (as_drf s) X n (rd_books s Hs)).
Defined.
End Laws.

(** ** Any sequence of calls *)

Section Calls.
  Variables (pow : double -> double -> double) (draws : nat -> double).

Notation run := (sorter_run (H := random_ops pow draws)).

Fixpoint random_calls (s : RandomSorter) (l : list Call) : option RandomSorter :=
  match l with [] => Some s | c :: l' => s' ← run s c; random_calls s' l' end.

(** [sort] may be called at any time. *)
Definition random_may (s : RandomSorter) (c : Call) : Prop :=
  match c with Sort => True | _ => may_run (random_clients s) (fun _ => True) (random_held s) c end.

Fixpoint random_may_all (s : RandomSorter) (l : list Call) : Prop :=
  match l with [] => True | c :: l' => random_may s c /\ forall s', run s c = Some s' -> random_may_all s' l' end.

Lemma random_step s c :
  random_ok s -> random_may s c ->
  exists s', run s c = Some s' /\ random_ok s' /\ random_clients s' = call_spec (random_clients s) c
    /\ forall p g k, wf_resource k -> random_held s' p g k = held_spec c (random_held s) p g k.
Proof.
  intros Hs Hm. assert (c = Sort \/ may_run (random_clients s) (fun _ => True) (random_held s) c) as [->|Hc] by (destruct c; first [by left|by right]).
  - destruct (random_sort pow s Hs) as (l & s' & E & O & C & _ & _ & L). exists s'. cbn. rewrite E. split_and!; [done..|]. intros p g k _. apply L.
  - destruct (random_run pow draws s c Hs Hc) as (s' & E & O & C & _ & L). by exists s'.
Qed.

(** A random sorter that is called in order never fails a check, whatever it
    draws: its clients are those of the calls, and sorting lists the active
    ones, each once. *)
Theorem random_sorter_correct l :
  random_may_all (new_sorter draws) l ->
  exists s names s', random_calls (new_sorter draws) l = Some s /\ sort pow s = Some (names, s')
    /\ random_clients s = fold_left call_spec l ∅
    /\ NoDup names /\ forall c, c ∈ names <-> fold_left call_spec l ∅ !! c = Some true.
Proof.
  intros Hl. destruct (random_new draws) as [H0 C0]. rewrite <- C0. clear C0. revert H0 Hl. generalize (new_sorter draws) as s.
  induction l as [|c l IH]; cbn [random_calls random_may_all fold_left].
  - intros s Hs _. destruct (random_sort pow s Hs) as (names & s' & E & _ & _ & H1 & H2 & _). by exists s, names, s'.
  - intros s Hs [Hc Hl]. destruct (random_step s c Hs Hc) as (s1 & E & O & C & _). rewrite E, <- C. cbn [mbind option_bind].
    apply IH; [done|]. by apply Hl.
Qed.
End Calls.

(** ** A run *)

Definition demo_pow (x y : double) : double := x.
Definition demo_draws (i : nat) : double := nth i [1 # 4; 3 # 4; 1 # 2; 1 # 8]%Q (1 # 2)%Q.

Definition shuffle_calls : list Call :=
  [Add "a/b"; Add "c"; Add "c/d"; Activate "a/b"; Activate "c"; AddSlave "agent" []].

(** The client with the larger draw comes first, here where the powers are
    the draws themselves. *)
Example shuffle_demo :
  option_map fst (s ← random_calls demo_pow demo_draws (new_sorter demo_draws) shuffle_calls; sort demo_pow s) = Some ["a/b"%string; "c"%string].
Proof. by vm_compute. Qed.

Definition relative_weights (l : list Call) : option (list (string * double)) :=
  s ← random_calls demo_pow demo_draws (new_sorter demo_draws) l;
  s' ← updateRelativeWeights s;
  Some (zip (sort_clients (sortInfo s')) (map Qred (sort_weights (sortInfo s')))).

(** As in the DRF sorter the weight of a group of clients is ignored once the
    group was sorted, and the cached weight stays in use: "a" is not a client. *)
Theorem random_group_weight_ignored :
  relative_weights (UpdateWeight "a" 3%Q :: shuffle_calls ++ [Sort]) = Some [("c"%string, 1 # 4); ("a/b"%string, 3 # 4)]%Q
  /\ relative_weights (shuffle_calls ++ [Sort; UpdateWeight "a" 3%Q]) = Some [("c"%string, 1 # 2); ("a/b"%string, 1 # 2)]%Q.
Proof. split; by vm_compute. Qed.
