(* ===== verification/AgentBooks.v ===== *)
(** * What is available on an agent

    The books of [Slave] of [Allocator.v] for unshared scalar resources: what
    is available is what is left of the total without what is offered or
    allocated to any role. *)

From stdpp Require Import base gmap strings list.
From Stdlib Require Import ZArith QArith.
From S2P Require Import Prelude Strings Roles Ranges Scalar Values Quantities Registry Resource Resources ResourceOps Conversions Attributes Quota SorterTree DrfSorter SorterAccounts RoleTree RoleLedger Shrink Allocator OfferCycle.
Local Open Scope Z_scope.

(** ** Sums over the elements of a collection *)

Definition item (e : Resource_) : Prop := e = as_element (resource e) /\ scalar_item (resource e).

Lemma scalar_iff rs : scalar_resources rs <-> pairwise apart rs /\ Forall item rs.
Proof. apply scalar_items. Qed.

Lemma item_wf e : item e -> wf_ e.
Proof. intros [-> [A B C D]]. by split. Qed.

(** A quantity that is added when two elements are combined. *)
Definition combined (F : Resource_ -> Z) : Prop :=
  forall e e', item e -> item e' -> addable (resource e) (resource e') = true -> F (plus_ e e') = F e + F e'.

Lemma sum_add F rs e :
  combined F -> scalar_resources rs -> item e -> zsum F (Resources.add rs e) = zsum F rs + F e.
Proof.
  intros HF [_ Hrs]%scalar_iff He. unfold Resources.add. rewrite wf_isEmpty by (by apply item_wf).
  destruct (add_cases rs e) as [[_ Hp]|(x & rest & Hp & Ha & Hr)].
  - rewrite (zsum_perm _ _ _ Hp), zsum_cons. lia.
  - rewrite (zsum_perm _ _ _ Hr), (zsum_perm _ _ _ Hp), !zsum_cons.
    rewrite HF; [lia| |done|done]. rewrite Hp in Hrs. by apply Forall_cons in Hrs as [? _].
Qed.

Lemma sum_plus F a b :
  combined F -> scalar_resources a -> scalar_resources b -> zsum F (Resources.plus a b) = zsum F a + zsum F b.
Proof.
  intros HF Ha Hb. assert (Hi := proj2 (proj1 (scalar_iff b) Hb)). clear Hb. revert a Ha.
  induction Hi as [|e b He Hb IH]; intros a Ha; [unfold zsum; cbn; lia|].
  change (Resources.plus a (e :: b)) with (Resources.plus (Resources.add a e) b). rewrite IH.
  - rewrite sum_add, zsum_cons by done. lia.
  - change (Resources.add a e) with (Resources.plus a [e]). apply scalar_plus; [done|]. apply scalar_iff. split; [by split|by constructor].
Qed.

(** Two elements that combine, as one. *)
Lemma combine_items e e' :
  item e -> item e' -> addable (resource e) (resource e') = true ->
  exists x y, value (resource e) = VScalar x /\ value (resource e') = VScalar y
    /\ plus_ e e' = as_element (with_value (VScalar (x + y)) (resource e))
    /\ same_key (resource e) (resource e') = true /\ Resources.whole (resource e) = false /\ Resources.whole (resource e') = false.
Proof.
  intros [E1 H1] [E2 H2] Ha. destruct (item_value _ H1) as (x & Ex & _), (item_value _ H2) as (y & Ey & _).
  rewrite addable_key in Ha by apply (si_wf _ H1). apply andb_true_iff in Ha as [Hk Hc].
  exists x, y. assert (Hw : Resources.whole (resource e) = false).
  { unfold Resources.whole. rewrite (si_unshared _ H1) in *. cbn in *. by destruct (exclusive (resource e)). }
  split_and!; try done.
  - rewrite E1, E2. unfold plus_. cbn. unfold resource_plus, value_plus. by rewrite Ex, Ey.
  - by rewrite <- (same_key_whole _ _ Hk).
Qed.

(** *** Without the allocation *)

Definition bare (e : Resource_) : Resource_ := map_resource (ResourceOps.with_allocation None) e.

Lemma unallocate_bare rs : unallocate rs = map bare rs.
Proof.
  unfold unallocate. apply map_ext. intros [[] c]. cbn. unfold bare, map_resource, ResourceOps.with_allocation. cbn. destruct allocation_info; done.
Qed.

Lemma bare_item e : item e -> item (bare e).
Proof.
  intros [E [A B C D]]. split; [by rewrite E|]. split; [|done..]. apply (with_allocation_wf None e).
  by apply item_wf.
Qed.

Lemma bare_key a b : same_key a b = true -> same_key (ResourceOps.with_allocation None a) (ResourceOps.with_allocation None b) = true.
Proof.
  intros Hk. rewrite (key_with_allocation None None a b); [done|]. cbn. symmetry.
  apply same_key_metadata in Hk. unfold compareResourceMetadata, attributes_eqb, reserved_eqb in Hk. breflect. done.
Qed.

Lemma bare_combined k : wf_resource k -> combined (fun e => Resources.weight k PScalar (bare e)).
Proof.
  intros Hk e e' He He' Ha. destruct (combine_items e e' He He' Ha) as (x & y & Ex & Ey & -> & Hkey & W & W').
  destruct He as [_ He], He' as [_ He'].
  assert (Wf : forall r, scalar_item r -> wf_resource (ResourceOps.with_allocation None r)).
  { intros r Hr. destruct (bare_item (as_element r)) as [_ [? _ _ _]]; [by split|done]. }
  assert (K : same_key k (ResourceOps.with_allocation None (resource e)) = same_key k (ResourceOps.with_allocation None (resource e'))).
  { apply same_key_subst; [done|by apply Wf..|by apply bare_key]. }
  assert (K' : same_key k (ResourceOps.with_allocation None (with_value (VScalar (x + y)) (resource e)))
               = same_key k (ResourceOps.with_allocation None (resource e))).
  { change (ResourceOps.with_allocation None (with_value (VScalar (x + y)) (resource e)))
      with (with_value (VScalar (x + y)) (ResourceOps.with_allocation None (resource e))).
    destruct (item_value _ He) as (x' & Ex' & ?), (item_value _ He') as (y' & Ey' & ?).
    apply same_key_subst; [done|apply wf_with_value; [by apply Wf|cbn; rewrite Ex in Ex'; rewrite Ey in Ey'; simplify_eq; lia]|by apply Wf|].
    rewrite same_key_with_value; [apply be_refl; by apply Wf|cbn; by rewrite Ex|exact W]. }
  unfold Resources.weight, bare, map_resource, as_element. cbn [resource sharedCount]. rewrite K', <- K.
  destruct (same_key k _); [|done]. unfold units. cbn [resource sharedCount].
  change (Resources.whole (ResourceOps.with_allocation None (with_value (VScalar (x + y)) (resource e)))) with (Resources.whole (resource e)).
  change (Resources.whole (ResourceOps.with_allocation None (resource e))) with (Resources.whole (resource e)).
  change (Resources.whole (ResourceOps.with_allocation None (resource e'))) with (Resources.whole (resource e')).
  rewrite W, W'. cbn. by rewrite Ex, Ey.
Qed.

(** What is held of a kind of resource, for whichever role. *)
Definition used (rs : Resources) (k : Resource) : Z := measure (unallocate rs) k PScalar.

Lemma measure_zsum rs k : measure rs k PScalar = zsum (Resources.weight k PScalar) rs.
Proof. induction rs as [|e rs IH]; [done|]. by rewrite measure_cons, zsum_cons, IH. Qed.

Lemma used_zsum rs k : used rs k = zsum (fun e => Resources.weight k PScalar (bare e)) rs.
Proof. unfold used. rewrite measure_zsum, unallocate_bare. apply zsum_map. Qed.

Lemma used_plus a b k :
  scalar_resources a -> scalar_resources b -> wf_resource k -> used (Resources.plus a b) k = used a k + used b k.
Proof. intros Ha Hb Hk. rewrite !used_zsum. apply sum_plus; [by apply bare_combined|done|done]. Qed.

(** ** Taking away *)

Lemma minus_items a b :
  scalar_resources a -> Forall item b ->
  (forall k, wf_resource k -> measure b k PScalar <= amount_held a k) ->
  scalar_resources (Resources.minus a b)
  /\ forall k, wf_resource k -> amount_held (Resources.minus a b) k = amount_held a k - measure b k PScalar.
Proof.
  intros Ha Hb. revert a Ha. induction Hb as [|e b He Hb IH]; intros a Ha Hle.
  { split; [done|]. intros k _. unfold measure. cbn. lia. }
  assert (Hs : scalar_resources [e]) by (apply scalar_iff; split; [by split|by constructor]).
  assert (Hi : included [e] a).
  { apply scalar_included; [done..|]. intros k Hk. specialize (Hle k Hk). unfold amount_held at 1. rewrite measure_cons in *.
    change (measure [] k PScalar) with 0. assert (H := measure_nonneg b k PScalar (Forall_impl _ _ _ Hb item_wf)). lia. }
  assert (Hm : forall k, wf_resource k -> amount_held (Resources.minus a [e]) k = amount_held a k - Resources.weight k PScalar e).
  { intros k Hk. rewrite held_minus by done. unfold amount_held at 2. rewrite measure_cons. change (measure [] k PScalar) with 0. lia. }
  change (Resources.minus a (e :: b)) with (Resources.minus (Resources.minus a [e]) b).
  destruct (IH (Resources.minus a [e])) as [H1 H2].
  - by apply scalar_minus.
  - intros k Hk. rewrite Hm by done. specialize (Hle k Hk). rewrite measure_cons in Hle. lia.
  - split; [done|]. intros k Hk. rewrite H2, Hm, measure_cons by done. lia.
Qed.

Lemma unallocated_minus a b : Forall wf_ b -> ResourceOps.unallocated a -> ResourceOps.unallocated (Resources.minus a b).
Proof.
  intros Hb. revert a. induction Hb as [|e b He Hb IH]; intros a Ha; [done|].
  apply IH. unfold ResourceOps.unallocated in *. destruct (subtract_cases a e He) as [[_ ->]|(x & rest & Hp & _ & Hr)]; [done|].
  rewrite Hr. rewrite Hp in Ha. apply Forall_cons in Ha as [Hx Hrest].
  destruct (_ || _); [done|]. constructor; [|done]. unfold minus_. by destruct (is_shared_ x).
Qed.

Lemma unallocated_filter P rs : ResourceOps.unallocated rs -> ResourceOps.unallocated (ResourceOps.filter P rs).
Proof.
  unfold ResourceOps.unallocated. rewrite !Forall_forall. intros H e He. apply H. unfold ResourceOps.filter in He.
  apply list_elem_of_In, filter_In in He as [He _]. by apply list_elem_of_In.
Qed.

Lemma unallocated_add a e :
  ResourceOps.unallocated a -> allocation_info (resource e) = None -> ResourceOps.unallocated (Resources.add a e).
Proof.
  unfold ResourceOps.unallocated. intros Ha He. unfold Resources.add. destruct (isEmpty_ e); [done|].
  destruct (add_cases a e) as [[_ ->]|(x & rest & Hp & _ & ->)]; [by constructor|].
  rewrite Hp in Ha. apply Forall_cons in Ha as [Hx Hrest]. constructor; [|done]. unfold plus_. by destruct (is_shared_ x).
Qed.

Lemma unallocated_plus a b :
  ResourceOps.unallocated a -> ResourceOps.unallocated b -> ResourceOps.unallocated (Resources.plus a b).
Proof.
  intros Ha Hb. revert a Ha. induction Hb as [|e b He Hb IH]; intros a Ha; [done|]. apply IH. by apply unallocated_add.
Qed.

(** ** Allocating to a role *)

Lemma allocate_scalar role rs : scalar_resources rs -> ResourceOps.unallocated rs -> scalar_resources (allocate role rs).
Proof.
  intros Hs Hu. assert (Hi := proj2 (proj1 (scalar_iff rs) Hs)). destruct Hs as [Hw _ _]. apply scalar_iff. split.
  - apply wf_map; [done|]. apply allocate_keeps_keys; [apply (wr_elements _ Hw)|done].
  - unfold allocate. rewrite Forall_map. eapply Forall_impl; [exact Hi|]. intros e [E [A B C D]]. split; [by rewrite E|].
    split; try done. apply (with_allocation_wf (Some (Some role)) e). by apply item_wf.
Qed.

Lemma unallocate_allocate role rs : ResourceOps.unallocated rs -> unallocate (allocate role rs) = rs.
Proof.
  intros Hu. unfold allocate, unallocate. rewrite map_map. rewrite <- (map_id rs) at 2. apply map_ext_in.
  intros e Hin%list_elem_of_In. unfold ResourceOps.unallocated in Hu. rewrite Forall_forall in Hu.
  specialize (Hu e Hin). destruct e as [[] c]. cbn in *. by subst.
Qed.

Lemma used_allocate role rs k : ResourceOps.unallocated rs -> used (allocate role rs) k = amount_held rs k.
Proof. intros Hu. unfold used. by rewrite unallocate_allocate. Qed.

Lemma allocations_allocate role rs :
  scalar_resources rs -> ResourceOps.unallocated rs -> rs <> [] ->
  allocations (allocate role rs) = Some {[ role := allocate role rs ]}.
Proof.
  intros Hs Hu Hne. assert (Hw := sc_wf _ (allocate_scalar role rs Hs Hu)).
  assert (Hr : forall e, e ∈ allocate role rs -> allocation_role (resource e) = Some role).
  { intros e Hin. apply list_elem_of_fmap in Hin as (e' & -> & _). done. }
  unfold allocations. rewrite allocations_loop_group. replace (forallb _ (allocate role rs)) with true.
  - f_equal. fold (group_by allocation_role (allocate role rs)). apply map_eq. intros k. rewrite (group_by_lookup allocation_role (allocate role rs) k Hw).
    destruct (decide (k = role)) as [->|Hk].
    + rewrite lookup_singleton_eq. rewrite filter_true; [unfold allocate; by destruct rs|].
      apply Forall_forall. intros e He. apply bool_decide_eq_true. by apply Hr.
    + rewrite lookup_singleton_ne by done. rewrite filter_false; [done|].
      apply Forall_forall. intros e He. apply bool_decide_eq_false. rewrite (Hr e He). congruence.
  - symmetry. apply forallb_forall. intros e Hin%list_elem_of_In. by rewrite (Hr e Hin).
Qed.

(** ** Kinds of resources *)

(** A test that only looks at what makes resources combine. *)
Definition respects (f : Resource -> bool) : Prop := forall a b, same_key a b = true -> f a = f b.

Lemma respects_quota : respects quota_resource.
Proof.
  intros a b H%same_key_metadata. unfold compareResourceMetadata, attributes_eqb, reserved_eqb, supply_eqb, dec_eqb in H. breflect.
  unfold quota_resource, isUnreserved, isRevocable.
  match goal with H : all2 _ _ _ = true, T : rtype a = rtype b, R : Bool.eqb (revocable a) (revocable b) = true |- _ =>
    apply Bool.eqb_prop in R; rewrite T, R; clear T R; rename H into L end.
  f_equal. f_equal. destruct (reservations a), (reservations b); done.
Qed.

Definition bare_resource (r : Resource) : bool := bool_decide (allocation_info r = None).

Lemma respects_bare : respects bare_resource.
Proof.
  intros a b H%same_key_metadata. unfold compareResourceMetadata, attributes_eqb, reserved_eqb in H. breflect.
  unfold bare_resource. match goal with H : opt_eqb allocation_eqb _ _ = true |- _ => rename H into L end.
  destruct (allocation_info a), (allocation_info b); done.
Qed.

Lemma unallocated_bare rs : ResourceOps.unallocated rs <-> Forall (fun e => bare_resource (resource e) = true) rs.
Proof. unfold ResourceOps.unallocated. apply Forall_iff. intros e. symmetry. apply bool_decide_eq_true. Qed.

Lemma measure_filter f rs k p : respects f -> measure (ResourceOps.filter f rs) k p = if f k then measure rs k p else 0.
Proof.
  intros Hf. unfold ResourceOps.filter. induction rs as [|e rs IH]; [by destruct (f k)|]. cbn [List.filter].
  rewrite (measure_cons e rs). assert (Hw : f k <> f (resource e) -> Resources.weight k p e = 0).
  { intros Hn. unfold Resources.weight. destruct (same_key k (resource e)) eqn:E; [|done]. by apply Hf in E. }
  destruct (f (resource e)) eqn:E; rewrite ?measure_cons, IH; destruct (f k); try lia; rewrite Hw by done; lia.
Qed.

Lemma included_filter f a b : respects f -> included a b -> included (ResourceOps.filter f a) (ResourceOps.filter f b).
Proof. intros Hf H k p Hk. rewrite !measure_filter by done. destruct (f k); [by apply H|done]. Qed.

Lemma filter_included f rs : Forall wf_ rs -> included (ResourceOps.filter f rs) rs.
Proof.
  intros H k p _. rewrite (filter_measure f rs k p). assert (G := measure_nonneg (ResourceOps.filter (fun r => negb (f r)) rs) k p).
  unfold ResourceOps.filter in *. assert (Forall wf_ (List.filter (fun e => negb (f (resource e))) rs)); [|lia || (specialize (G ltac:(done)); lia)].
  rewrite Forall_forall in *. intros e He. apply H. apply list_elem_of_In, filter_In in He as [He _]. by apply list_elem_of_In.
Qed.

(** An element of a part is of a kind of the whole. *)
Lemma included_kind a b e :
  scalar_resources a -> included a b -> e ∈ a -> exists e', e' ∈ b /\ same_key (resource e) (resource e') = true.
Proof.
  intros Ha Hi He. assert (Hw : wf_ e) by (apply (proj1 (Forall_forall _ _) (wr_elements _ (sc_wf _ Ha))); done).
  destruct (units_positive e Hw) as [p Hp]. assert (Hm : 0 < measure b (resource e) p).
  { eapply Z.lt_le_trans; [|apply Hi; eauto with clusterd]. apply elem_of_Permutation in He as [rest Hr].
    rewrite Hr, measure_cons. unfold Resources.weight. rewrite be_refl by eauto with clusterd.
    assert (G := measure_nonneg rest (resource e) p). specialize (G ltac:(assert (F := wr_elements _ (sc_wf _ Ha)); rewrite Hr in F; by apply Forall_cons in F as [_ ?])). lia. }
  clear -Hm. induction b as [|x b IH]; [done|]. rewrite measure_cons in Hm. unfold Resources.weight in Hm.
  destruct (same_key (resource e) (resource x)) eqn:E.
  - exists x. split; [left|done].
  - destruct IH as (e' & H1 & H2); [lia|]. exists e'. split; [by right|done].
Qed.

Lemma included_all f a b :
  respects f -> scalar_resources a -> included a b -> Forall (fun e => f (resource e) = true) b -> Forall (fun e => f (resource e) = true) a.
Proof.
  intros Hf Ha Hi Hb. apply Forall_forall. intros e He. destruct (included_kind a b e Ha Hi He) as (e' & H1 & H2).
  rewrite (Hf _ _ H2). by apply (proj1 (Forall_forall _ _) Hb).
Qed.

(** The quantity of a name, of a kind. *)
Definition part (f : Resource -> bool) (n : string) (rs : Resources) : Z := ptotal n PScalar (ResourceOps.filter f rs).

Lemma part_all f n rs : Forall (fun e => f (resource e) = true) rs -> part f n rs = ptotal n PScalar rs.
Proof. intros H. unfold part. by rewrite filter_true. Qed.

Lemma part_none f n rs : Forall (fun e => f (resource e) = false) rs -> part f n rs = 0.
Proof. intros H. unfold part. by rewrite filter_false. Qed.

Lemma part_nonneg_ f n rs : scalar_resources rs -> 0 <= part f n rs.
Proof. intros H. apply ptotal_nonneg, (wr_elements _ (sc_wf _ (scalar_filter f _ H))). Qed.

Lemma part_le f n a b : respects f -> scalar_resources a -> scalar_resources b -> included a b -> part f n a <= part f n b.
Proof.
  intros Hf Ha Hb Hi. assert (H := total_minus _ _ n (scalar_filter f _ Hb) (scalar_filter f _ Ha) (included_filter f a b Hf Hi)).
  assert (G := ptotal_nonneg n PScalar _ (wr_elements _ (sc_wf _ (scalar_minus _ _ (scalar_filter f _ Hb) (scalar_filter f _ Ha))))).
  unfold part. lia.
Qed.

Lemma part_zsum f n rs : part f n rs = zsum (fun e => if f (resource e) then pamount n PScalar e else 0) rs.
Proof.
  unfold part, ResourceOps.filter. induction rs as [|e rs IH]; [done|]. cbn [List.filter]. rewrite zsum_cons, <- IH.
  destruct (f (resource e)); [|lia]. by rewrite ptotal_cons.
Qed.

Lemma part_plus f n a b :
  respects f -> scalar_resources a -> scalar_resources b -> part f n (Resources.plus a b) = part f n a + part f n b.
Proof.
  intros Hf Ha Hb. rewrite !part_zsum. apply sum_plus; [|done..]. intros e e' He He' Hadd.
  destruct (combine_items e e' He He' Hadd) as (x & y & Ex & Ey & -> & Hk & W & _). cbn [resource as_element].
  assert (Hwf := si_wf _ (proj2 He)). rewrite <- (Hf _ _ Hk).
  rewrite (Hf (with_value (VScalar (x + y)) (resource e)) (resource e)).
  2:{ rewrite same_key_with_value; [by apply be_refl|cbn; by rewrite Ex|exact W]. }
  destruct (f (resource e)); [|done]. unfold pamount. cbn [resource as_element with_value name].
  change (Resource.name (with_value (VScalar (x + y)) (resource e))) with (Resource.name (resource e)).
  rewrite (same_key_name _ _ Hk), Ex, Ey. destruct (string_eqb _ n); cbn; lia.
Qed.

(** The quantities follow from what is held of each kind. *)
Lemma part_sum f n a b c :
  respects f -> scalar_resources a -> scalar_resources b -> scalar_resources c ->
  (forall k, wf_resource k -> amount_held a k = amount_held b k + amount_held c k) ->
  part f n a = part f n b + part f n c.
Proof.
  intros Hf Ha Hb Hc H. rewrite <- part_plus by done. assert (Hp := scalar_plus b c Hb Hc).
  apply Z.le_antisymm; apply part_le; try done; apply scalar_included; try done; intros k Hk; rewrite held_plus, H by done; lia.
Qed.

(** ** Agents *)

Record agent_ok (options : Options) (slaveId : string) (s : Slave) : Prop := {
  ag_id : info_id (info s) = slaveId;
  ag_total : scalar_resources (slave_total s);
  ag_bare : ResourceOps.unallocated (slave_total s);
  ag_offered : scalar_resources (totalOfferedOrAllocated s);
  ag_fits : forall k, wf_resource k -> used (totalOfferedOrAllocated s) k <= amount_held (slave_total s) k;
  ag_unshared : slave_shared s = [];
  ag_available : available s = available_of (slave_total s) (totalOfferedOrAllocated s) (slave_shared s);
  ag_domain : forall region, domain (info s) = Some (Some region) -> exists r, master_domain options = Some (Some r);
  ag_attributes : Forall supported (info_attributes (info s));
}.

Lemma used_items rs : scalar_resources rs -> Forall item (unallocate rs).
Proof.
  intros [_ H]%scalar_iff. rewrite unallocate_bare, Forall_map. eapply Forall_impl; [exact H|]. apply bare_item.
Qed.

Lemma agent_available options g s :
  agent_ok options g s ->
  scalar_resources (available s) /\ ResourceOps.unallocated (available s)
  /\ forall k, wf_resource k -> amount_held (available s) k = amount_held (slave_total s) k - used (totalOfferedOrAllocated s) k.
Proof.
  intros [_ Ht Hb Ho Hf Hu -> _ _]. rewrite Hu. unfold available_of. destruct (minus_items (slave_total s) (unallocate (totalOfferedOrAllocated s)))
    as [H1 H2]; [done|by apply used_items|done|]. split_and!; [done| |done].
  apply unallocated_minus; [|done]. eapply Forall_impl; [by apply used_items|]. apply item_wf.
Qed.

(** An offer of a part of what is available. *)
Lemma offer_ok options g s role id rs :
  agent_ok options g s -> scalar_resources rs -> ResourceOps.unallocated rs -> included rs (available s) ->
  let s' := decreaseAvailable id (allocate role rs) s in
  agent_ok options g s' /\ slave_total s' = slave_total s
  /\ forall k, wf_resource k -> amount_held (available s') k = amount_held (available s) k - amount_held rs k.
Proof.
  intros Hs Hrs Hu Hi s'. assert (Hs0 := Hs). destruct (agent_available _ _ _ Hs) as (A1 & A2 & A3). destruct rs as [|e rs0] eqn:E.
  { split_and!; [done|done|]. intros k _. change (amount_held [] k) with 0. unfold s'. cbn. lia. }
  rewrite <- E in *. assert (Ea : s' = with_offers (<[id := Resources.plus (default [] (offeredOrAllocated s !! id)) (allocate role rs)]> (offeredOrAllocated s))
    (Resources.plus (totalOfferedOrAllocated s) (allocate role rs)) s) by (unfold s'; rewrite E; done).
  assert (Hy := allocate_scalar role rs Hrs Hu). destruct Hs as [H1 H2 H3 H4 H5 H6 H7 H8 H9].
  assert (Hok : agent_ok options g s').
  { rewrite Ea. split; cbn; try done; [by apply scalar_plus|]. intros k Hk. rewrite used_plus, used_allocate by done.
    specialize (A3 k Hk). apply (scalar_included rs (available s) Hrs A1) with (k := k) in Hi; [|done]. lia. }
  split_and!; [done|by rewrite Ea|]. intros k Hk. destruct (agent_available _ _ _ Hok) as (_ & _ & B3). rewrite B3, A3 by done.
  rewrite Ea. cbn [slave_total totalOfferedOrAllocated with_offers]. rewrite used_plus, used_allocate by done. lia.
Qed.
