(* ===== verification/AllocatorBooks.v ===== *)
(** * The books of the allocator

    What a framework holds on an agent is written down four times: by the agent
    ([Slave]), in the sorter of the frameworks of the role, in the sorter of
    the roles, and in the tree of roles.  The invariant here is that the four
    agree, for unshared scalar resources; offers, their return and their use
    keep it. *)

From stdpp Require Import base gmap strings list.
From Stdlib Require Import ZArith QArith.
From S2P Require Import Prelude Strings Roles Ranges Scalar Values Quantities Registry Resource Resources ResourceOps Conversions Attributes Quota SorterTree DrfSorter SorterAccounts SorterHoldings RoleTree RoleLedger Shrink Allocator OfferCycle AllocatorLaws AgentBooks.
Local Open Scope Z_scope.

(** ** Resources of one role *)

Definition to_role (role : string) (rs : Resources) : Prop :=
  Forall (fun e => allocation_role (resource e) = Some role) rs.

Lemma key_role a b : same_key a b = true -> allocation_role a = allocation_role b.
Proof.
  intros H%same_key_metadata. unfold compareResourceMetadata, attributes_eqb, reserved_eqb in H. breflect.
  match goal with H : opt_eqb allocation_eqb _ _ = true |- _ => rename H into L end. unfold allocation_role.
  destruct (allocation_info a) as [x|], (allocation_info b) as [y|]; try done. cbn in *. unfold allocation_eqb in L.
  destruct x, y; try done. cbn in L. unfold string_eqb in L. apply bool_decide_eq_true in L. by subst.
Qed.

Lemma to_role_held role rs k : to_role role rs -> allocation_role k <> Some role -> amount_held rs k = 0.
Proof.
  intros H Hk. unfold amount_held. induction H as [|e rs He _ IH]; [done|]. rewrite measure_cons, IH. unfold Resources.weight.
  destruct (same_key k (resource e)) eqn:E; [|done]. apply key_role in E. congruence.
Qed.

Lemma to_role_filter role f rs : to_role role rs -> to_role role (ResourceOps.filter f rs).
Proof.
  unfold to_role. rewrite !Forall_forall. intros H e He. apply H. unfold ResourceOps.filter in He.
  apply list_elem_of_In, filter_In in He as [He _]. by apply list_elem_of_In.
Qed.

Lemma allocate_to_role role rs : to_role role (allocate role rs).
Proof. unfold to_role. apply Forall_forall. intros e He. by apply list_elem_of_fmap in He as (e' & -> & _). Qed.

Lemma allocations_to_role role rs :
  scalar_resources rs -> to_role role rs -> rs <> [] -> allocations rs = Some {[ role := rs ]}.
Proof.
  intros Hs Hr Hne. assert (Hw := sc_wf _ Hs). unfold to_role in Hr. rewrite Forall_forall in Hr.
  unfold allocations. rewrite allocations_loop_group. replace (forallb _ rs) with true.
  - f_equal. fold (group_by allocation_role rs). apply map_eq. intros k. rewrite (group_by_lookup allocation_role rs k Hw).
    destruct (decide (k = role)) as [->|Hk].
    + rewrite lookup_singleton_eq. rewrite filter_true; [by destruct rs|].
      apply Forall_forall. intros e He. apply bool_decide_eq_true. by apply Hr.
    + rewrite lookup_singleton_ne by done. rewrite filter_false; [done|].
      apply Forall_forall. intros e He. apply bool_decide_eq_false. rewrite (Hr e He). congruence.
  - symmetry. apply forallb_forall. intros e Hin%list_elem_of_In. by rewrite (Hr e Hin).
Qed.

(** What the tree of roles is charged for resources of a role. *)
Definition counted (w : tracker) (k : Resource) : bool :=
  match w with OfferedReserved => isReserved None k | _ => isUnreserved k && negb (isRevocable k) end.

Lemma respects_reserved : respects isUnreserved /\ respects isRevocable.
Proof.
  split; intros a b H%same_key_metadata; unfold compareResourceMetadata, attributes_eqb, reserved_eqb, supply_eqb, dec_eqb in H; breflect.
  - unfold isUnreserved. match goal with H : all2 _ _ _ = true |- _ => rename H into L end. destruct (reservations a), (reservations b); done.
  - unfold isRevocable. match goal with R : Bool.eqb (revocable a) (revocable b) = true |- _ => by apply Bool.eqb_prop in R end.
Qed.

Lemma held_counted w rs k :
  amount_held (match w with OfferedReserved => reserved None rs | _ => nonRevocable (unreserved rs) end) k
  = if counted w k then amount_held rs k else 0.
Proof.
  destruct respects_reserved as [R1 R2].
  assert (N : respects (fun r => negb (isRevocable r))) by (intros a b H; by rewrite (R2 a b H)).
  assert (V : respects (isReserved None)) by (intros a b H; unfold isReserved; by rewrite (R1 a b H)).
  unfold amount_held. destruct w; cbn [counted]; unfold nonRevocable, unreserved, reserved; rewrite ?measure_filter by done;
    destruct (isUnreserved k), (isRevocable k); done.
Qed.

(** The share of the role at [loc] in what is held of a kind. *)
Definition location_part (loc : list string) (k : Resource) (z : Z) : Z :=
  match allocation_role k with Some role => if decide (role_location role = loc) then z else 0 | None => 0 end.

Definition role_part (role : string) (k : Resource) (z : Z) : Z := if decide (allocation_role k = Some role) then z else 0.

Lemma location_to_role role rs loc g g' k :
  to_role role rs ->
  on_role (role_location role) (delta_on g (amount_held rs) g' k) loc = location_part loc k (delta_on g (amount_held rs) g' k).
Proof.
  intros Hr. unfold on_role, location_part, delta_on. destruct (decide (allocation_role k = Some role)) as [->|Hk].
  - destruct (decide (loc = role_location role)) as [->|Hn]; [by destruct (decide (role_location role = role_location role))|].
    by destruct (decide (role_location role = loc)) as [<-|].
  - rewrite (to_role_held role rs k Hr Hk). destruct (decide (loc = _)), (decide (g' = g)), (allocation_role k); try done; by destruct (decide _).
Qed.

Lemma charged_offer role rs w loc g g' k :
  scalar_resources rs -> to_role role rs -> rs <> [] -> w <> Allocated_ ->
  charged offered_part g (offered_by_role rs) w loc g' k = if counted w k then location_part loc k (delta_on g (amount_held rs) g' k) else 0.
Proof.
  intros Hs Hr Hne Hw. unfold offered_by_role, by_role. rewrite scalars_scalar, (allocations_to_role role rs Hs Hr Hne) by done. cbn [from_option id].
  assert (Ho : to_role role (offered_part w rs)) by (destruct w; [done|by apply to_role_filter, to_role_filter|by apply to_role_filter]).
  rewrite map_to_list_singleton, charged_one, (location_to_role role) by done.
  unfold location_part, delta_on. destruct w; [done|..]; cbn [offered_part];
    [rewrite (held_counted OfferedUnreserved)|rewrite (held_counted OfferedReserved)];
    destruct (counted _ k), (allocation_role k) as [x|]; try done; by destruct (decide (role_location x = loc)), (decide (g' = g)).
Qed.

Lemma charged_offer_allocated role rs loc g g' k :
  scalar_resources rs -> to_role role rs -> rs <> [] -> charged offered_part g (offered_by_role rs) Allocated_ loc g' k = 0.
Proof.
  intros Hs Hr Hne. unfold offered_by_role, by_role. rewrite scalars_scalar, (allocations_to_role role rs Hs Hr Hne) by done. cbn [from_option id].
  rewrite map_to_list_singleton, charged_one. cbn [offered_part]. rewrite no_part. unfold on_role. by destruct (decide _).
Qed.

Lemma charged_use role rs w loc g g' k :
  scalar_resources rs -> to_role role rs ->
  charged allocated_part g (allocated_by_role rs) w loc g' k
  = match w with Allocated_ => if counted w k then location_part loc k (delta_on g (amount_held rs) g' k) else 0 | _ => 0 end.
Proof.
  intros Hs Hr. unfold allocated_by_role, by_role. rewrite scalars_scalar by done.
  assert (Hs' : scalar_resources (nonRevocable (unreserved rs))) by (by repeat apply scalar_filter).
  assert (Hr' : to_role role (nonRevocable (unreserved rs))) by (by repeat apply to_role_filter).
  assert (E := held_counted Allocated_ rs). destruct (decide (nonRevocable (unreserved rs) = [])) as [E0|Hne].
  - rewrite E0 in *. change (allocations []) with (Some (∅ : gmap string Resources)). cbn [from_option id]. rewrite map_to_list_empty. unfold charged. cbn.
    destruct w; [|done..]. specialize (E k). change (amount_held [] k) with 0 in E. destruct (counted Allocated_ k); [|done].
    unfold location_part, delta_on. destruct (allocation_role k); [|done]. rewrite <- E. by repeat destruct (decide _).
  - rewrite (allocations_to_role role _ Hs' Hr' Hne). cbn [from_option id]. rewrite map_to_list_singleton, charged_one. destruct w; cbn [allocated_part];
      [|rewrite no_part; unfold on_role; by destruct (decide _)..].
    rewrite (location_to_role role) by done. unfold location_part, delta_on. rewrite E.
    destruct (counted _ k), (allocation_role k) as [x|]; try done; by destruct (decide (role_location x = loc)), (decide (g' = g)).
Qed.

(** ** What the agents say *)

Definition offered_to (m : gmap string Slave) (g id : string) (k : Resource) : Z :=
  match m !! g with Some s => amount_held (default [] (offeredOrAllocated s !! id)) k | None => 0 end.
Definition offered_sum (m : gmap string Slave) (g : string) (k : Resource) : Z :=
  match m !! g with Some s => amount_held (totalOfferedOrAllocated s) k | None => 0 end.
Definition in_use (m : gmap string Slave) (g : string) (k : Resource) : Z :=
  match m !! g with Some s => amount_held (totalAllocated s) k | None => 0 end.

Record slave_books (s : Slave) : Prop := {
  sl_entries : forall id rs, offeredOrAllocated s !! id = Some rs -> scalar_resources rs /\ rs <> [];
  sl_sum : scalar_resources (totalOfferedOrAllocated s);
  sl_total : forall k, wf_resource k -> amount_held (totalOfferedOrAllocated s) k = agent_sum (fun rs => amount_held rs k) (offeredOrAllocated s);
  sl_use : scalar_resources (totalAllocated s);
  sl_within : forall k, wf_resource k -> amount_held (totalAllocated s) k <= amount_held (totalOfferedOrAllocated s) k;
}.

Lemma offer_le s id k : slave_books s -> wf_resource k ->
  amount_held (default [] (offeredOrAllocated s !! id)) k <= amount_held (totalOfferedOrAllocated s) k.
Proof.
  intros Hs Hk. rewrite (sl_total s Hs k Hk). apply (agent_sum_le (fun rs => amount_held rs k)); [|done].
  intros g rs H. by apply held_nonneg, (sl_entries s Hs g).
Qed.

Lemma entry_scalar s id : slave_books s -> scalar_resources (default [] (offeredOrAllocated s !! id)).
Proof. intros Hs. destruct (offeredOrAllocated s !! id) eqn:E; [by apply (sl_entries s Hs id)|apply scalar_nil]. Qed.

Lemma sum_insert_offer m id rs k :
  rs <> [] -> agent_sum (fun rs => amount_held rs k) (<[id := rs]> m)
  = agent_sum (fun rs => amount_held rs k) m - amount_held (default [] (m !! id)) k + amount_held rs k.
Proof. intros Hne. rewrite <- (set_agent_some id rs m Hne). by apply (agent_sum_set (fun rs => amount_held rs k)). Qed.

Lemma decrease_books s id y :
  slave_books s -> scalar_resources y -> y <> [] ->
  let s' := decreaseAvailable id y s in
  slave_books s' /\ totalAllocated s' = totalAllocated s
  /\ (forall k, wf_resource k -> amount_held (totalOfferedOrAllocated s') k = amount_held (totalOfferedOrAllocated s) k + amount_held y k)
  /\ forall id' k, wf_resource k -> amount_held (default [] (offeredOrAllocated s' !! id')) k
       = amount_held (default [] (offeredOrAllocated s !! id')) k + if decide (id = id') then amount_held y k else 0.
Proof.
  intros Hs Hy Hne s'. assert (E : s' = with_offers (<[id := Resources.plus (default [] (offeredOrAllocated s !! id)) y]> (offeredOrAllocated s))
    (Resources.plus (totalOfferedOrAllocated s) y) s) by (unfold s', decreaseAvailable; by destruct y).
  assert (He := entry_scalar s id Hs). assert (Hp : Resources.plus (default [] (offeredOrAllocated s !! id)) y <> []).
  { intros E0. destruct (held_some y Hy Hne) as (k & Hk & Hpos). assert (H := held_plus _ y k He Hy Hk). rewrite E0 in H.
    change (amount_held [] k) with 0 in H. assert (G := held_nonneg _ k He). lia. }
  rewrite E. split_and!; cbn [offeredOrAllocated totalOfferedOrAllocated totalAllocated with_offers].
  - destruct Hs as [H1 H2 H3 H4 H5]. split; cbn [offeredOrAllocated totalOfferedOrAllocated totalAllocated with_offers].
    + intros id' rs [[<- <-]|[_ H]]%lookup_insert_Some; [|by apply H1 in H]. split; [by apply scalar_plus|done].
    + by apply scalar_plus.
    + intros k Hk. rewrite held_plus, sum_insert_offer, H3, held_plus by done. lia.
    + done.
    + intros k Hk. rewrite held_plus by done. specialize (H5 k Hk). assert (G := held_nonneg y k Hy). lia.
  - done.
  - intros k Hk. by apply held_plus; [apply Hs|..].
  - intros id' k Hk. destruct (decide (id = id')) as [<-|Hn]; [rewrite lookup_insert_eq; cbn; by apply held_plus|].
    rewrite lookup_insert_ne by done. lia.
Qed.

Lemma increase_books s id y :
  slave_books s -> scalar_resources y -> y <> [] ->
  (forall k, wf_resource k -> amount_held y k <= amount_held (default [] (offeredOrAllocated s !! id)) k) ->
  (forall k, wf_resource k -> amount_held (totalAllocated s) k + amount_held y k <= amount_held (totalOfferedOrAllocated s) k) ->
  exists s', increaseAvailable id y s = Some s'
    /\ s' = with_offers (offeredOrAllocated s') (Resources.minus (totalOfferedOrAllocated s) y) s
    /\ slave_books s' /\ Resources.contains (totalOfferedOrAllocated s) y = true
    /\ (forall k, wf_resource k -> amount_held (totalOfferedOrAllocated s') k = amount_held (totalOfferedOrAllocated s) k - amount_held y k)
    /\ forall id' k, wf_resource k -> amount_held (default [] (offeredOrAllocated s' !! id')) k
         = amount_held (default [] (offeredOrAllocated s !! id')) k - if decide (id = id') then amount_held y k else 0.
Proof.
  intros Hs Hy Hne Hle Huse. assert (He := entry_scalar s id Hs). assert (Ht := sl_sum s Hs).
  assert (I : included y (default [] (offeredOrAllocated s !! id))) by (by apply scalar_included).
  assert (I2 : included y (totalOfferedOrAllocated s)).
  { apply scalar_included; [done..|]. intros k Hk. etransitivity; [by apply Hle|by apply offer_le]. }
  destruct (offeredOrAllocated s !! id) as [cur|] eqn:Ecur.
  2:{ exfalso. destruct (held_some y Hy Hne) as (k & Hk & Hpos). specialize (Hle k Hk). change (amount_held (default [] None) k) with 0 in Hle. lia. }
  change (default [] (Some cur)) with cur in *. assert (Hm := held_minus cur y). assert (Hsm := scalar_minus cur y He Hy).
  exists (with_offers (set_agent id (Resources.minus cur y) (offeredOrAllocated s)) (Resources.minus (totalOfferedOrAllocated s) y) s).
  assert (Lk : forall id' k, wf_resource k -> amount_held (default [] (set_agent id (Resources.minus cur y) (offeredOrAllocated s) !! id')) k
         = amount_held (default [] (offeredOrAllocated s !! id')) k - if decide (id = id') then amount_held y k else 0).
  { intros id' k Hk. rewrite set_agent_lookup. destruct (decide (id' = id)) as [->|Hn].
    - rewrite decide_True by done. rewrite Ecur. change (default [] (Some cur)) with cur. by rewrite Hm.
    - rewrite decide_False by auto. lia. }
  split_and!; cbn [offeredOrAllocated totalOfferedOrAllocated totalAllocated with_offers]; try done.
  - unfold increaseAvailable. destruct y as [|y0 ys]; [done|]. rewrite Ecur. cbn [mbind option_bind].
    rewrite included_contains by (done || apply sc_wf; done). cbn [negb]. unfold set_agent. by destruct (Resources.minus cur (y0 :: ys)).
  - destruct Hs as [H1 H2 H3 H4 H5]. split; cbn [offeredOrAllocated totalOfferedOrAllocated totalAllocated with_offers].
    + intros id' rs. unfold set_agent. revert Hsm. destruct (Resources.minus cur y) eqn:Em; intros Hsm; [intros [_ H]%lookup_delete_Some; by apply H1 in H|].
      intros [[_ <-]|[_ H]]%lookup_insert_Some; [by split|by apply H1 in H].
    + by apply scalar_minus.
    + intros k Hk. rewrite held_minus by done. rewrite (agent_sum_set (fun rs => amount_held rs k)) by done. rewrite Ecur, H3 by done. change (default [] (Some cur)) with cur.
      rewrite Hm by done. lia.
    + done.
    + intros k Hk. rewrite held_minus by done. specialize (Huse k Hk). lia.
  - apply included_contains; [by apply sc_wf..|done].
  - intros k Hk. by apply held_minus.
Qed.

(** ** The four books *)

(** What the tree should hold. *)
Definition tracked_share (m : gmap string Slave) (w : tracker) (loc : list string) (g : string) (k : Resource) : Z :=
  if counted w k then location_part loc k (match w with Allocated_ => in_use m g k | _ => offered_sum m g k end) else 0.

Section Books.
  Context {RS FS : Type} {OR : SorterOps RS} {LR : SorterLaws RS} {OF : SorterOps FS} {LF : SorterLaws FS}.

Record books_ok (t : RoleTree) (r : RS) (f : gmap string FS) (m : gmap string Slave) : Prop := {
  bo_slaves : forall g s, m !! g = Some s -> slave_books s;
  bo_member : forall g id k, wf_resource k -> 0 < offered_to m g id k ->
    exists role, allocation_role k = Some role /\ id ∈ frameworks_of t (role_location role);
  bo_frameworks : forall role fs, f !! role = Some fs -> forall id g k, wf_resource k ->
    sorter_held fs id g k = role_part role k (offered_to m g id k);
  bo_roles : forall role g k, wf_resource k -> sorter_held r role g k = role_part role k (offered_sum m g k);
  bo_tree : forall w loc g k, wf_resource k -> l_tracked (ledger_of t) w loc g k = tracked_share m w loc g k;
}.

Lemma offered_to_nonneg t r f m g id k : books_ok t r f m -> wf_resource k -> 0 <= offered_to m g id k.
Proof.
  intros H Hk. unfold offered_to. destruct (m !! g) as [s|] eqn:E; [|done]. by apply held_nonneg, entry_scalar, (bo_slaves _ _ _ _ H g).
Qed.

Definition slave_accounts (s : Slave) : gmap string Resources * Resources * Resources :=
  (offeredOrAllocated s, totalOfferedOrAllocated s, totalAllocated s).

(** A framework holds nothing of a role. *)
Definition idle_under (m : gmap string Slave) (id role : string) : Prop :=
  forall g k, wf_resource k -> allocation_role k = Some role -> offered_to m g id k = 0.

(** The agents say the same as before, also if there are new ones on which
    nothing is in use. *)
Definition same_accounts_of (m m' : gmap string Slave) : Prop :=
  forall g, default (∅, [], []) (slave_accounts <$> m' !! g) = default (∅, [], []) (slave_accounts <$> m !! g).

Lemma accounts_offered m m' g id k : same_accounts_of m m' -> offered_to m' g id k = offered_to m g id k.
Proof.
  intros H. specialize (H g). unfold offered_to. unfold slave_accounts in H. destruct (m !! g), (m' !! g); cbn in H; try done; simplify_eq.
  - congruence.
  - match goal with H : ∅ = _ |- _ => rewrite <- H end. by rewrite lookup_empty.
  - match goal with H : _ = ∅ |- _ => rewrite H end. by rewrite lookup_empty.
Qed.
Lemma accounts_idle m m' id role : same_accounts_of m m' -> idle_under m' id role -> idle_under m id role.
Proof. intros H Hi g k Hk Er. rewrite <- (accounts_offered m m') by done. by apply Hi. Qed.
Lemma accounts_sum m m' g k : same_accounts_of m m' -> offered_sum m' g k = offered_sum m g k.
Proof.
  intros H. specialize (H g). unfold offered_sum. unfold slave_accounts in H. destruct (m !! g), (m' !! g); cbn in H; try done; injection H as H1 H2 H3;
    [by rewrite ?H2, ?H3|by rewrite <- ?H2, <- ?H3|by rewrite ?H2, ?H3].
Qed.
Lemma accounts_use m m' g k : same_accounts_of m m' -> in_use m' g k = in_use m g k.
Proof.
  intros H. specialize (H g). unfold in_use. unfold slave_accounts in H. destruct (m !! g), (m' !! g); cbn in H; try done; injection H as H1 H2 H3;
    [by rewrite ?H2, ?H3|by rewrite <- ?H2, <- ?H3|by rewrite ?H2, ?H3].
Qed.

Lemma books_same t r f m t' r' f' m' :
  books_ok t r f m -> same_accounts_of m m' ->
  (forall g s, m' !! g = Some s -> slave_books s) ->
  (forall g id k role, wf_resource k -> 0 < offered_to m g id k -> allocation_role k = Some role ->
     id ∈ frameworks_of t (role_location role) -> id ∈ frameworks_of t' (role_location role)) ->
  (forall w loc g k, wf_resource k -> l_tracked (ledger_of t') w loc g k = l_tracked (ledger_of t) w loc g k) ->
  (forall p g k, wf_resource k -> sorter_held r' p g k = sorter_held r p g k) ->
  (forall role fs', f' !! role = Some fs' ->
     (exists fs, f !! role = Some fs /\ forall p g k, wf_resource k -> sorter_held fs' p g k = sorter_held fs p g k)
     \/ (frameworks_of t (role_location role) = ∅ /\ forall p g k, wf_resource k -> sorter_held fs' p g k = 0)) ->
  books_ok t' r' f' m'.
Proof.
  intros B Hm Hsl Hfr Ht Hr Hf. assert (B0 := B). destruct B as [B1 B2 B3 B4 B5]. split.
  - done.
  - intros g id k Hk. rewrite (accounts_offered _ _ _ _ _ Hm). intros Hpos. destruct (B2 g id k Hk Hpos) as (role & E & Hin). exists role.
    split; [done|]. by eapply Hfr.
  - intros role fs' Hfs' id g k Hk. rewrite (accounts_offered _ _ _ _ _ Hm). destruct (Hf role fs' Hfs') as [(fs & Hfs & E)|[He E]]; rewrite E by done; [by apply B3|].
    unfold role_part. destruct (decide (allocation_role k = Some role)) as [Er|]; [|done].
    assert (H0 := offered_to_nonneg _ _ _ _ g id k B0 Hk). destruct (decide (0 < offered_to m g id k)) as [Hpos|]; [|lia].
    destruct (B2 g id k Hk Hpos) as (role' & E' & Hin). rewrite Er in E'. injection E' as <-. set_solver.
  - intros role g k Hk. rewrite Hr, (accounts_sum _ _ _ _ Hm) by done. by apply B4.
  - intros w loc g k Hk. rewrite Ht, B5 by done. unfold tracked_share. by rewrite (accounts_sum _ _ _ _ Hm), (accounts_use _ _ _ _ Hm).
Qed.

Lemma same_accounts_refl m : same_accounts_of m m.
Proof. done. Qed.

Lemma accounts_retouched m g s s' : m !! g = Some s -> slave_accounts s' = slave_accounts s -> same_accounts_of m (<[g := s']> m).
Proof.
  intros Hs E g'. destruct (decide (g = g')) as [<-|Hn]; [|by rewrite lookup_insert_ne]. rewrite lookup_insert_eq, Hs. cbn. by rewrite E.
Qed.

Lemma slave_books_accounts s s' : slave_accounts s' = slave_accounts s -> slave_books s -> slave_books s'.
Proof. intros E [H1 H2 H3 H4 H5]. unfold slave_accounts in E. injection E as E1 E2 E3. split; by rewrite ?E1, ?E2, ?E3. Qed.

(** An agent changes in what the books do not look at. *)
Lemma books_retouched t r f m g s s' :
  books_ok t r f m -> m !! g = Some s -> slave_accounts s' = slave_accounts s -> books_ok t r f (<[g := s']> m).
Proof.
  intros B Hs E. eapply books_same; [exact B|by eapply accounts_retouched|..]; try done.
  - intros g' x [[<- <-]|[_ H]]%lookup_insert_Some; [|by apply (bo_slaves _ _ _ _ B g')]. eapply slave_books_accounts; [exact E|].
    by apply (bo_slaves _ _ _ _ B g).
  - intros role fs' Hfs. left. by exists fs'.
Qed.

(** [delta] is posted to a framework, in a role, on an agent. *)
Record posting (role id g : string) (delta : Resource -> Z) (t : RoleTree) (r : RS) (f : gmap string FS)
  (t' : RoleTree) (r' : RS) (f' : gmap string FS) : Prop := {
  po_frameworks : forall loc, frameworks_of t' loc = frameworks_of t loc;
  po_tree : forall w loc g' k, wf_resource k -> l_tracked (ledger_of t') w loc g' k = l_tracked (ledger_of t) w loc g' k
     + match w with Allocated_ => 0 | _ => if counted w k then location_part loc k (delta_on g delta g' k) else 0 end;
  po_roles : forall p g' k, wf_resource k ->
     sorter_held r' p g' k = sorter_held r p g' k + if decide (role = p) then delta_on g delta g' k else 0;
  po_sorters : forall role' fs', f' !! role' = Some fs' -> exists fs, f !! role' = Some fs
     /\ forall p g' k, wf_resource k -> sorter_held fs' p g' k
          = sorter_held fs p g' k + if decide (role = role') then if decide (id = p) then delta_on g delta g' k else 0 else 0;
}.

Lemma books_posted t r f m t' r' f' role id g s s' (delta : Resource -> Z) :
  books_ok t r f m -> m !! g = Some s -> slave_books s' ->
  (forall k, wf_resource k -> allocation_role k <> Some role -> delta k = 0) ->
  totalAllocated s' = totalAllocated s ->
  (forall k, wf_resource k -> amount_held (totalOfferedOrAllocated s') k = amount_held (totalOfferedOrAllocated s) k + delta k) ->
  (forall id' k, wf_resource k -> amount_held (default [] (offeredOrAllocated s' !! id')) k
     = amount_held (default [] (offeredOrAllocated s !! id')) k + if decide (id = id') then delta k else 0) ->
  id ∈ frameworks_of t (role_location role) -> posting role id g delta t r f t' r' f' ->
  books_ok t' r' f' (<[g := s']> m).
Proof.
  intros [B1 B2 B3 B4 B5] Hs Hs' Hd Eu Es Eo Hin [Hfr Ht Hr Hf].
  assert (Lo : forall g' id' k, wf_resource k -> offered_to (<[g := s']> m) g' id' k
    = offered_to m g' id' k + if decide (id = id') then delta_on g delta g' k else 0).
  { intros g' id' k Hk. unfold offered_to, delta_on. destruct (decide (g' = g)) as [->|Hn].
    - rewrite lookup_insert_eq, Hs. by apply Eo.
    - rewrite lookup_insert_ne by done. destruct (decide _); lia. }
  assert (Ls : forall g' k, wf_resource k -> offered_sum (<[g := s']> m) g' k = offered_sum m g' k + delta_on g delta g' k).
  { intros g' k Hk. unfold offered_sum, delta_on. destruct (decide (g' = g)) as [->|Hn].
    - rewrite lookup_insert_eq, Hs. by apply Es.
    - rewrite lookup_insert_ne by done. lia. }
  assert (Lu : forall g' k, in_use (<[g := s']> m) g' k = in_use m g' k).
  { intros g' k. unfold in_use. destruct (decide (g = g')) as [<-|Hn]; [by rewrite lookup_insert_eq, Hs, Eu|by rewrite lookup_insert_ne]. }
  assert (Ld : forall g' k, wf_resource k -> allocation_role k <> Some role -> delta_on g delta g' k = 0).
  { intros g' k Hk Hn. unfold delta_on. destruct (decide _); [by apply Hd|done]. }
  split.
  - intros g' x [[<- <-]|[_ H]]%lookup_insert_Some; [done|by apply (B1 g')].
  - intros g' id' k Hk Hpos. destruct (decide (0 < offered_to m g' id' k)) as [Ho|Ho].
    + destruct (B2 g' id' k Hk Ho) as (x & E & Hx). exists x. by rewrite Hfr.
    + rewrite Lo in Hpos by done. destruct (decide (id = id')) as [<-|]; [|lia].
      destruct (decide (allocation_role k = Some role)) as [E|E]; [exists role; by rewrite Hfr|]. rewrite Ld in Hpos by done. lia.
  - intros role' fs' Hfs' id' g' k Hk. destruct (Hf role' fs' Hfs') as (fs & Hfs & E). rewrite E, (B3 role' fs Hfs), Lo by done.
    unfold role_part. destruct (decide (allocation_role k = Some role')) as [Er|Er].
    + destruct (decide (role = role')) as [<-|Hn]; [done|]. rewrite Ld by (done || congruence). by destruct (decide (id = id')).
    + destruct (decide (role = role')) as [<-|Hn]; [|done]. rewrite Ld by done. by destruct (decide (id = id')).
  - intros role' g' k Hk. rewrite Hr, B4, Ls by done. unfold role_part. destruct (decide (allocation_role k = Some role')) as [Er|Er].
    + destruct (decide (role = role')) as [<-|Hn]; [done|]. rewrite Ld by (done || congruence). done.
    + destruct (decide (role = role')) as [<-|Hn]; [|done]. by rewrite Ld.
  - intros w loc g' k Hk. rewrite Ht, B5 by done. unfold tracked_share. rewrite Ls, Lu by done.
    unfold location_part. destruct w, (counted _ k), (allocation_role k) as [x|]; try lia; destruct (decide (role_location x = loc)); lia.
Qed.

(** What is offered is put to use, or comes back from it. *)
Lemma books_used t r f m t' role g s rs' (delta : Resource -> Z) :
  books_ok t r f m -> m !! g = Some s -> scalar_resources rs' ->
  (forall k, wf_resource k -> amount_held rs' k = amount_held (totalAllocated s) k + delta k) ->
  (forall k, wf_resource k -> amount_held rs' k <= amount_held (totalOfferedOrAllocated s) k) ->
  (forall k, wf_resource k -> allocation_role k <> Some role -> delta k = 0) ->
  (forall loc, frameworks_of t' loc = frameworks_of t loc) ->
  (forall w loc g' k, wf_resource k -> l_tracked (ledger_of t') w loc g' k = l_tracked (ledger_of t) w loc g' k
     + match w with Allocated_ => if counted w k then location_part loc k (delta_on g delta g' k) else 0 | _ => 0 end) ->
  books_ok t' r f (<[g := with_allocated_total rs' s]> m).
Proof.
  intros [B1 B2 B3 B4 B5] Hs Hrs E Hle Hd Hfr Ht. set (s' := with_allocated_total rs' s).
  assert (Lo : forall g' id' k, offered_to (<[g := s']> m) g' id' k = offered_to m g' id' k).
  { intros g' id' k. unfold offered_to. destruct (decide (g = g')) as [<-|Hn]; [by rewrite lookup_insert_eq, Hs|by rewrite lookup_insert_ne]. }
  assert (Ls : forall g' k, offered_sum (<[g := s']> m) g' k = offered_sum m g' k).
  { intros g' k. unfold offered_sum. destruct (decide (g = g')) as [<-|Hn]; [by rewrite lookup_insert_eq, Hs|by rewrite lookup_insert_ne]. }
  assert (Lu : forall g' k, wf_resource k -> in_use (<[g := s']> m) g' k = in_use m g' k + delta_on g delta g' k).
  { intros g' k Hk. unfold in_use, delta_on. destruct (decide (g' = g)) as [->|Hn].
    - rewrite lookup_insert_eq, Hs. by apply E.
    - rewrite lookup_insert_ne by done. lia. }
  split.
  - intros g' x [[<- <-]|[_ H]]%lookup_insert_Some; [|by apply (B1 g')]. destruct (B1 g s Hs) as [H1 H2 H3 H4 H5]. by split.
  - intros g' id' k Hk. rewrite Lo. intros Hpos. destruct (B2 g' id' k Hk Hpos) as (x & Ex & Hx). exists x. by rewrite Hfr.
  - intros role' fs Hfs id' g' k Hk. rewrite Lo. by apply B3.
  - intros role' g' k Hk. rewrite Ls. by apply B4.
  - intros w loc g' k Hk. rewrite Ht, B5 by done. unfold tracked_share. rewrite Ls, Lu by done.
    unfold location_part. destruct w, (counted _ k), (allocation_role k) as [x|]; try lia; destruct (decide (role_location x = loc)); lia.
Qed.
End Books.
