(* ===== verification/AllocatorInvariant.v ===== *)
(** * The invariant of the allocator

    What ties the sorters, the tree of roles, the frameworks and the agents of
    the allocator ([Allocator.v]) together, and that the handlers keep it.  The
    books are kept for unshared scalar resources, as in [SorterAccounts.v]. *)

From stdpp Require Import base gmap strings list.
From Stdlib Require Import ZArith QArith.
From S2P Require Import Prelude Strings Roles Ranges Scalar Values Quantities Registry Resource Resources ResourceOps Conversions Attributes Quota SorterTree DrfSorter SorterAccounts SorterHoldings RoleTree RoleLedger Shrink Allocator OfferCycle AllocatorLaws AgentBooks AllocatorBooks.
Local Open Scope Z_scope.

(** ** Loops *)

Lemma each_rule {A St} (I : St -> Prop) (f : A -> St -> option St) l s :
  I s -> (forall x s, x ∈ l -> I s -> exists s', f x s = Some s' /\ I s') -> exists s', each f l s = Some s' /\ I s'.
Proof.
  intros Hs Hf. revert s Hs. induction l as [|x l IH]; intros s Hs; cbn; [by exists s|].
  destruct (Hf x s) as (s' & -> & H'); [left|done|]. cbn. apply IH; [|done]. intros y t Hy. apply Hf. by right.
Qed.

Lemma loop_rule {A St} (I : St -> Prop) (body : A -> St -> option (bool * St)) l s :
  I s -> (forall x s, x ∈ l -> I s -> exists stop s', body x s = Some (stop, s') /\ I s') -> exists s', loop body l s = Some s' /\ I s'.
Proof.
  intros Hs Hf. revert s Hs. induction l as [|x l IH]; intros s Hs; cbn; [by exists s|].
  destruct (Hf x s) as (stop & s' & -> & H'); [left|done|]. cbn. destruct stop; [by exists s'|].
  apply IH; [|done]. intros y t Hy. apply Hf. by right.
Qed.

(** The same, with what the loop has gone through. *)
Lemma each_progress {A St} (I : list A -> St -> Prop) (f : A -> St -> option St) l s :
  NoDup l -> I [] s ->
  (forall d x s, x ∈ l -> x ∉ d -> (forall y, y ∈ d -> y ∈ l) -> I d s -> exists s', f x s = Some s' /\ I (x :: d) s') ->
  exists s' d, each f l s = Some s' /\ I d s' /\ d ≡ₚ l.
Proof.
  intros Hl H0 Hf. enough (H : forall l' d s, NoDup (d ++ l') -> (forall y, y ∈ d ++ l' -> y ∈ l) -> I d s ->
    exists s' d', each f l' s = Some s' /\ I d' s' /\ d' ≡ₚ d ++ l') by (by apply (H l [] s)).
  clear Hl s H0. induction l' as [|x l' IH]; intros d s Hd Hin Hs; cbn; [exists s, d; by rewrite app_nil_r|].
  assert (Hp : d ++ x :: l' ≡ₚ (x :: d) ++ l') by (symmetry; apply Permutation_middle).
  destruct (Hf d x s) as (s1 & -> & H1); [..|done|].
  - apply Hin. apply elem_of_app. right. left.
  - rewrite Hp in Hd. apply NoDup_cons in Hd as [Hd _]. intros Hx. apply Hd. apply elem_of_app. by left.
  - intros y Hy. apply Hin, elem_of_app. by left.
  - cbn. destruct (IH (x :: d) s1) as (s' & d' & H2 & H3 & H4); [by rewrite <- Hp|intros y Hy; apply Hin; by rewrite Hp|done|].
    exists s', d'. split_and!; [done|done|]. by rewrite H4, Hp.
Qed.

(** ** Roles *)

Lemma role_location_inj r r' : role_location r = role_location r' -> r = r'.
Proof. unfold role_location. intros E. by rewrite <- (path_of_split r), E, path_of_split. Qed.

Lemma top_level_name role tok : role_location role = [tok] -> role = tok.
Proof.
  unfold role_location. intros E. rewrite <- (path_of_split role), E. unfold path_of. cbn. by rewrite ?implode_explode.
Qed.

(** A quota that the master accepts. *)
Record quota_ok (q : Quota) : Prop := {
  qo_guarantees : wf_quantities (q_guarantees q);
  qo_limits : wf_limits (q_limits q);
  qo_within : forall n b, limits_get (q_limits q) n = Some b -> Quantities.get (q_guarantees q) n <= b;
}.

Lemma default_quota_ok : quota_ok DEFAULT_QUOTA.
Proof. split; [by repeat constructor|by repeat constructor|done]. Qed.

(** Quotas are set for roles at the top level. *)
Definition top_level (role : string) : Prop := role_location role = [role].

Record quotas_ok (t : RoleTree) : Prop := {
  qs_ok : forall loc, quota_ok (quota_of t loc);
  qs_top : forall loc, quota_of t loc <> DEFAULT_QUOTA -> exists role, top_level role /\ loc = [role];
}.

Section Invariant.
  Context {RS FS : Type} {OR : SorterOps RS} {LR : SorterLaws RS} {OF : SorterOps FS} {LF : SorterLaws FS} (options : Options).
  Implicit Types a : Allocator RS FS.

(** A sorter of the frameworks [ids] of a role; the active ones of them have
    the role and are active themselves. *)
Record framework_sorter_ok (a : Allocator RS FS) (role : string) (ids : gset string) (fs : FS) : Prop := {
  fs_ok : sorter_ok fs;
  fs_clients : forall id, is_Some (sorter_clients fs !! id) <-> id ∈ ids;
  fs_active : forall id, sorter_clients fs !! id = Some true ->
    exists f, frameworks a !! id = Some f /\ active f = true /\ role ∈ roles f;
  fs_agents : sorter_agents fs (dom (slaves a));
}.

Record tracking_ok (a : Allocator RS FS) : Prop := {
  tr_tree : tree_inv (roleTree a);
  tr_roles_ok : sorter_ok (roleSorter a);
  tr_roles : forall role, is_Some (sorter_clients (roleSorter a) !! role) <-> frameworks_of (roleTree a) (role_location role) <> ∅;
  tr_agents : sorter_agents (roleSorter a) (dom (slaves a));
  tr_sorters : forall role, is_Some (frameworkSorters a !! role) <-> frameworks_of (roleTree a) (role_location role) <> ∅;
  tr_sorter : forall role fs, frameworkSorters a !! role = Some fs ->
    framework_sorter_ok a role (frameworks_of (roleTree a) (role_location role)) fs;
  tr_known : forall role id, id ∈ frameworks_of (roleTree a) (role_location role) -> is_Some (frameworks a !! id);
}.

(** What frameworks hold is written down the same everywhere. *)
Definition accounts_ok (a : Allocator RS FS) : Prop := books_ok (roleTree a) (roleSorter a) (frameworkSorters a) (slaves a).

(** A framework is tracked under its roles, and under others only while it
    holds something of them; it suppresses roles that it has. *)
Record members_ok (a : Allocator RS FS) : Prop := {
  me_tracked : forall id f role, frameworks a !! id = Some f -> role ∈ roles f -> id ∈ frameworks_of (roleTree a) (role_location role);
  me_role : forall id f role, frameworks a !! id = Some f -> id ∈ frameworks_of (roleTree a) (role_location role) ->
    idle_under (slaves a) id role -> role ∈ roles f;
  me_suppressed : forall id f, frameworks a !! id = Some f -> suppressedRoles f ⊆ roles f;
}.

(** The same agents and frameworks, whatever else is known of them. *)
Record same_parties (a a' : Allocator RS FS) : Prop := {
  sp_slaves : dom (slaves a') = dom (slaves a);
  sp_frameworks : forall id, (fun f => (roles f, active f)) <$> frameworks a' !! id = (fun f => (roles f, active f)) <$> frameworks a !! id;
}.

Lemma parties_framework a a' id f' :
  same_parties a a' -> frameworks a' !! id = Some f' ->
  exists f, frameworks a !! id = Some f /\ roles f = roles f' /\ active f = active f'.
Proof.
  intros [_ H] E. specialize (H id). rewrite E in H. destruct (frameworks a !! id) as [f|]; [|done]. cbn in H. simplify_eq.
  exists f. split_and!; congruence.
Qed.

Lemma same_parties_sym a a' : same_parties a a' -> same_parties a' a.
Proof. intros [H1 H2]. by split. Qed.

(** The sorter of a role is replaced by one with the same clients. *)
Lemma framework_sorter_same a a' role ids fs fs' :
  framework_sorter_ok a role ids fs -> sorter_ok fs' -> sorter_clients fs' = sorter_clients fs -> (forall known, sorter_agents fs known -> sorter_agents fs' known) ->
  same_parties a a' -> framework_sorter_ok a' role ids fs'.
Proof.
  intros [H1 H2 H3 H4] Hok Hc Hg Hp. split; [done|..].
  - intros id. by rewrite Hc.
  - intros id. rewrite Hc. intros (f & Hf & Ha & Hr)%H3. destruct (parties_framework a' a id f (same_parties_sym _ _ Hp) Hf) as (f' & E & Er & Ea).
    exists f'. split_and!; congruence.
  - rewrite (sp_slaves _ _ Hp). by apply Hg.
Qed.

(** A change that keeps who is where: the trees agree on the frameworks, the
    sorters on their clients. *)
Record retracked (a a' : Allocator RS FS) : Prop := {
  rt_parties : same_parties a a';
  rt_tree : tree_inv (roleTree a');
  rt_frameworks : forall loc, frameworks_of (roleTree a') loc = frameworks_of (roleTree a) loc;
  rt_roles_ok : sorter_ok (roleSorter a');
  rt_clients : sorter_clients (roleSorter a') = sorter_clients (roleSorter a);
  rt_agents : forall known, sorter_agents (roleSorter a) known -> sorter_agents (roleSorter a') known;
  rt_sorters : forall role, match frameworkSorters a !! role, frameworkSorters a' !! role with
    | Some fs, Some fs' => sorter_ok fs -> sorter_ok fs' /\ sorter_clients fs' = sorter_clients fs
        /\ forall known, sorter_agents fs known -> sorter_agents fs' known
    | None, None => True
    | _, _ => False
    end;
}.

Lemma retracked_ok a a' : retracked a a' -> tracking_ok a -> tracking_ok a'.
Proof.
  intros [R1 R2 R3 R4 R5 R6 R7] [T1 T2 T3 T4 T5 T6 T7]. split; [done|done|..].
  - intros role. by rewrite R5, R3.
  - rewrite (sp_slaves _ _ R1). by apply R6.
  - intros role. rewrite R3, <- T5. specialize (R7 role). split; intros [x Hx]; rewrite Hx in R7.
    + destruct (frameworkSorters a !! role); [by eexists|done].
    + destruct (frameworkSorters a' !! role); [by eexists|done].
  - intros role fs' Hfs'. rewrite R3. specialize (R7 role). rewrite Hfs' in R7. destruct (frameworkSorters a !! role) as [fs|] eqn:E; [|done].
    specialize (T6 role fs E). destruct (R7 (fs_ok _ _ _ _ T6)) as (A & B & C). by eapply framework_sorter_same.
  - intros role id. rewrite R3. intros [f Hf]%T7. destruct (parties_framework a' a id f (same_parties_sym _ _ R1) Hf) as (f' & E & _). by exists f'.
Qed.

Lemma retracked_members a a' :
  retracked a a' -> (forall id role, idle_under (slaves a') id role -> idle_under (slaves a) id role) ->
  (forall id f, frameworks a' !! id = Some f -> suppressedRoles f ⊆ roles f) -> members_ok a -> members_ok a'.
Proof.
  intros R Hi Hs [M1 M2 M3]. split; [..|done]; intros id f' role Hf'; rewrite (rt_frameworks _ _ R);
    destruct (parties_framework a a' id f' (rt_parties _ _ R) Hf') as (f & E & Er & _).
  - intros Hr. apply (M1 id f); [done|by rewrite Er].
  - intros Hin Hid. rewrite <- Er. by apply (M2 id f), Hi.
Qed.

(** The agents change in what the books do not look at. *)
Lemma members_accounts a m : members_ok a -> same_accounts_of (slaves a) m -> members_ok (with_slaves m a).
Proof.
  intros [M1 M2 M3] H. split; cbn; try done. intros id f role Hf Hin Hi. apply (M2 id f role Hf Hin). by apply (accounts_idle _ m).
Qed.

Lemma tracked_role a role id :
  tracking_ok a -> id ∈ frameworks_of (roleTree a) (role_location role) ->
  isFrameworkTrackedUnderRole a id role = true
  /\ is_Some (sorter_clients (roleSorter a) !! role)
  /\ exists fs, frameworkSorters a !! role = Some fs /\ framework_sorter_ok a role (frameworks_of (roleTree a) (role_location role)) fs
       /\ is_Some (sorter_clients fs !! id).
Proof.
  intros Ha Hid. assert (Hne : frameworks_of (roleTree a) (role_location role) <> ∅) by set_solver. split_and!.
  - unfold isFrameworkTrackedUnderRole, get_role. unfold frameworks_of in Hid. destruct (roleTree a !! role_location role); [by rewrite bool_decide_eq_true_2|set_solver].
  - by apply (tr_roles a Ha).
  - destruct (proj2 (tr_sorters a Ha role) Hne) as [fs Hfs]. exists fs. assert (Hok := tr_sorter a Ha role fs Hfs).
    split_and!; [done|done|]. by apply (fs_clients _ _ _ _ Hok).
Qed.

(** ** An allocation is tracked *)

Lemma by_role_allocate role rs :
  scalar_resources rs -> ResourceOps.unallocated rs -> rs <> [] ->
  is_Some (allocations (scalars (allocate role rs))) /\ offered_by_role (allocate role rs) = [(role, allocate role rs)].
Proof.
  intros Hs Hu Hne. unfold offered_by_role, by_role. rewrite scalars_scalar by (by apply allocate_scalar).
  rewrite allocations_allocate by done. split; [by eexists|]. cbn [default]. apply map_to_list_singleton.
Qed.

Lemma track_offer_ok a slaveId id role rs :
  tracking_ok a -> is_Some (slaves a !! slaveId) -> id ∈ frameworks_of (roleTree a) (role_location role) ->
  scalar_resources rs -> ResourceOps.unallocated rs -> rs <> [] ->
  exists t r f, trackAllocatedResources options slaveId id (allocate role rs) a = Some (with_tracking t r f a)
    /\ retracked a (with_tracking t r f a) /\ (forall loc, quota_of t loc = quota_of (roleTree a) loc)
    /\ posting role id slaveId (amount_held (allocate role rs)) (roleTree a) (roleSorter a) (frameworkSorters a) t r f.
Proof.
  intros Ha [s Hs] Hid Hrs Hu Hne. destruct (tr_known a Ha role id Hid) as [fw Hf].
  destruct (tracked_role a role id Ha Hid) as (Htr & Hcl & fs & Hfs & Hfok & Hfcl).
  assert (Hy := allocate_scalar role rs Hrs Hu). assert (Hyne : allocate role rs <> []) by (unfold allocate; by destruct rs).
  destruct (by_role_allocate role rs Hrs Hu Hne) as [Hall Hby].
  destruct (role_step_ok (roleTree a) (TrackOffered slaveId (allocate role rs)) (tr_tree a Ha)) as (t & Ht & Hti & Hl).
  { split; [done|]. rewrite Hby. constructor; [|constructor]. split; [done|]. table. set_solver. }
  cbn [role_step] in Ht.
  destruct (sorter_run_ok (roleSorter a) (Allocated role slaveId (allocate role rs)) (tr_roles_ok a Ha)) as (r & Hr & R1 & R2 & R3 & R4); [done|].
  destruct (sorter_run_ok fs (Allocated id slaveId (allocate role rs)) (fs_ok _ _ _ _ Hfok)) as (fs' & Hfs' & F1 & F2 & F3 & F4); [done|].
  cbn [sorter_run call_spec agents_spec] in Hr, R2, R3, Hfs', F2, F3.
  exists t, r, (<[role := fs']> (frameworkSorters a)). split_and!.
  - unfold trackAllocatedResources. rewrite Hs, Hf. cbn [mbind option_bind]. rewrite allocations_allocate by done. cbn [mbind option_bind].
    rewrite map_to_list_singleton. cbn [each track_allocation]. rewrite Htr. cbn [mbind option_bind].
    rewrite (sorter_contains_ok (roleSorter a)) by apply (tr_roles_ok a Ha). cbn [mbind option_bind]. rewrite bool_decide_eq_true_2 by done. cbn [negb].
    rewrite Hfs. cbn [mbind option_bind]. rewrite (sorter_contains_ok fs) by apply Hfok. cbn [mbind option_bind]. rewrite bool_decide_eq_true_2 by done. cbn [negb].
    rewrite Ht. cbn [mbind option_bind]. rewrite Hr. cbn [mbind option_bind]. by rewrite Hfs'.
  - split; cbn; try done.
    + intros loc. apply (sl_frameworks _ _ Hl).
    + intros role'. destruct (decide (role' = role)) as [->|Hn].
      * rewrite Hfs, lookup_insert_eq. done.
      * rewrite lookup_insert_ne by done. by destruct (frameworkSorters a !! role').
  - intros loc. apply (sl_quota _ _ Hl).
  - split.
    + intros loc. apply (sl_frameworks _ _ Hl).
    + intros w loc g' k Hk. rewrite (sl_tracked _ _ Hl) by done. cbn [role_spec]. table. destruct w.
      * rewrite (charged_offer_allocated role) by (done || apply allocate_to_role). lia.
      * rewrite (charged_offer role) by (done || apply allocate_to_role). lia.
      * rewrite (charged_offer role) by (done || apply allocate_to_role). lia.
    + intros p g' k Hk. by rewrite R4.
    + intros role' y [[<- <-]|[Hn Hy']]%lookup_insert_Some.
      * exists fs. split; [done|]. intros p g' k Hk. rewrite F4 by done. by rewrite (decide_True (P := role = role)).
      * exists y. split; [done|]. intros p g' k Hk. rewrite (decide_False (P := role = role')) by done. lia.
Qed.

(** ** Sorting *)

Lemma sort_roles_ok (c : Cycle RS FS) :
  tracking_ok (c_allocator c) ->
  exists l r, sort_roles c = Some (l, with_cycle_allocator (with_tracking (roleTree (c_allocator c)) r (frameworkSorters (c_allocator c)) (c_allocator c)) c)
    /\ retracked (c_allocator c) (with_tracking (roleTree (c_allocator c)) r (frameworkSorters (c_allocator c)) (c_allocator c))
    /\ (forall role, role ∈ l -> frameworks_of (roleTree (c_allocator c)) (role_location role) <> ∅)
    /\ forall p g k, wf_resource k -> sorter_held r p g k = sorter_held (roleSorter (c_allocator c)) p g k.
Proof.
  intros Ha. destruct (sorter_sort_ok _ (tr_roles_ok _ Ha)) as (l & r & Hs & S1 & S2 & S3 & S4 & S5). exists l, r. split_and!.
  - unfold sort_roles. by rewrite Hs.
  - split; cbn; try done; [apply (tr_tree _ Ha)|]. intros role. by destruct (frameworkSorters _ !! role).
  - intros role Hr. apply (tr_roles _ Ha). apply S4 in Hr. by eexists.
  - done.
Qed.

Lemma sort_frameworks_ok (c : Cycle RS FS) role :
  tracking_ok (c_allocator c) -> frameworks_of (roleTree (c_allocator c)) (role_location role) <> ∅ ->
  exists l f, sort_frameworks role c = Some (l, with_cycle_allocator (with_tracking (roleTree (c_allocator c)) (roleSorter (c_allocator c)) f (c_allocator c)) c)
    /\ retracked (c_allocator c) (with_tracking (roleTree (c_allocator c)) (roleSorter (c_allocator c)) f (c_allocator c))
    /\ (forall id, id ∈ l -> id ∈ frameworks_of (roleTree (c_allocator c)) (role_location role)
         /\ exists fw, frameworks (c_allocator c) !! id = Some fw /\ active fw = true)
    /\ forall role' y, f !! role' = Some y -> exists x, frameworkSorters (c_allocator c) !! role' = Some x
         /\ forall p g k, wf_resource k -> sorter_held y p g k = sorter_held x p g k.
Proof.
  intros Ha Hne. destruct (proj2 (tr_sorters _ Ha role) Hne) as [fs Hfs]. assert (Hok := tr_sorter _ Ha role fs Hfs).
  destruct (sorter_sort_ok fs (fs_ok _ _ _ _ Hok)) as (l & fs' & Hs & S1 & S2 & S3 & S4 & S5). exists l, (<[role := fs']> (frameworkSorters (c_allocator c))). split_and!.
  - unfold sort_frameworks. rewrite Hfs. cbn [mbind option_bind]. by rewrite Hs.
  - split; cbn; try done; [apply (tr_tree _ Ha)|apply (tr_roles_ok _ Ha)|]. intros role'. destruct (decide (role' = role)) as [->|Hn].
    + rewrite Hfs, lookup_insert_eq. done.
    + rewrite lookup_insert_ne by done. by destruct (frameworkSorters _ !! role').
  - intros id Hid. apply S4 in Hid. split; [apply (fs_clients _ _ _ _ Hok); by eexists|].
    destruct (fs_active _ _ _ _ Hok id Hid) as (fw & H1 & H2 & _). by exists fw.
  - intros role' y [[<- <-]|[_ Hy]]%lookup_insert_Some; [by exists fs|by exists y].
Qed.
End Invariant.
