(* ===== verification/OfferSafety.v ===== *)
(** * The offer cycle is safe

    The cycle of [OfferCycle.v] on an allocator that satisfies the invariant of
    [AllocatorInvariant.v]: it passes every [CHECK], offers nothing that is not
    available, keeps every role within the limits of its quota, and leaves
    enough for the guarantees that are not satisfied. *)

From stdpp Require Import base gmap strings list.
From Stdlib Require Import ZArith QArith.
From S2P Require Import Prelude Strings Roles Ranges Scalar Values Quantities Registry Resource Resources ResourceOps Conversions Attributes Quota SorterTree DrfSorter SorterAccounts SorterHoldings RoleTree RoleLedger Shrink Allocator OfferCycle AllocatorFrame AllocatorLaws AgentBooks AllocatorBooks AllocatorInvariant.
Local Open Scope Z_scope.

(** ** Tests on offers *)

Lemma without_resources_some remaining l :
  Forall (fun r => rtype r = SCALAR) l -> is_Some (without_resources remaining l).
Proof.
  intros H. revert remaining. induction H as [|r l Hr Hl IH]; intros remaining; cbn; [by eexists|].
  unfold rtype in Hr. unfold without_resource. destruct (value r); try done. cbn. destruct (Qle_bool _ _); [by eexists|apply IH].
Qed.

Lemma contains_quantities_some rs q : scalar_resources rs -> is_Some (contains_quantities rs q).
Proof.
  intros Hs. induction q as [|[n z] q IH]; cbn; [by eexists|].
  destruct (without_resources_some (convertToFloating z) (to_list (get_named n rs))) as [x ->].
  { unfold to_list. rewrite Forall_map. apply (sc_scalar _ (scalar_filter _ _ Hs)). }
  cbn. destruct (negb _); [by eexists|done].
Qed.

Lemma allocatable_some options rs role f : scalar_resources rs -> is_Some (allocatable options rs role f).
Proof.
  intros Hs. unfold allocatable. destruct rs as [|e rs'] eqn:E; [by eexists|]. rewrite <- E in *. clear E.
  assert (H : forall l, is_Some (any_contained rs l)).
  { induction l as [|q l IH]; cbn; [by eexists|]. destruct (contains_quantities_some rs q Hs) as [b ->]. cbn. by destruct b; [eexists|]. }
  destruct (match minAllocatableResources f !! role with Some l => Some l | None => options_minAllocatable options end) as [[|q l]|];
    [by eexists|apply H|by eexists].
Qed.

Lemma allocatable_nonempty options rs role f : allocatable options rs role f = Some true -> rs <> [].
Proof. by intros H ->. Qed.

Lemma capable_some options c g s : agent_ok options g s -> is_Some (isCapableOfReceivingAgent options c s).
Proof.
  intros Hs. unfold isCapableOfReceivingAgent. destruct (_ && hasGpu s); [by eexists|]. destruct (regionAware c); [by eexists|].
  unfold isRemoteSlave. assert (H := ag_domain _ _ _ Hs). destruct (domain (info s)) as [[[region zone]|]|]; [|by eexists..].
  destruct (H (region, zone) eq_refl) as [r ->]. by eexists.
Qed.

(** ** What is offered *)

(** A part of what is available, and what of it counts for the quota. *)
Record fair_offer (av toOffer : Resources) (charged : entries) : Prop := {
  fo_scalar : scalar_resources toOffer;
  fo_bare : ResourceOps.unallocated toOffer;
  fo_included : included toOffer av;
  fo_wf : wf_quantities charged;
  fo_charged : forall n, Quantities.get charged n = part quota_resource n toOffer;
}.

Lemma disjoint_filters f g rs k :
  scalar_resources rs -> (forall r, g r = true -> f r = false) ->
  amount_held (ResourceOps.filter f rs) k + amount_held (ResourceOps.filter g rs) k <= amount_held rs k.
Proof.
  intros Hs Hfg. unfold amount_held. assert (Hw := wr_elements _ (sc_wf _ Hs)). clear Hs. unfold ResourceOps.filter.
  induction Hw as [|e rs He Hw IH]; [done|]. cbn [List.filter]. rewrite (measure_cons e rs). assert (G := weight_nonneg k PScalar e He).
  destruct (f (resource e)) eqn:F, (g (resource e)) eqn:E; rewrite ?measure_cons; try lia. by rewrite (Hfg _ E) in F.
Qed.

Lemma filter_keeps f rs : Forall (fun e => f (resource e) = true) (ResourceOps.filter f rs).
Proof. apply Forall_forall. intros e He. by apply list_elem_of_In, filter_In in He as [_ ?]. Qed.

(** [y] of the resources that count, and the resources that are offered in any case. *)
Lemma fair_intro av offering always y toOffer charged :
  scalar_resources av -> ResourceOps.unallocated av -> scalar_resources offering -> included offering av ->
  (forall r, always r = true -> quota_resource r = false) ->
  scalar_resources y -> included y (ResourceOps.filter quota_resource offering) ->
  scalar_resources toOffer ->
  (forall k, wf_resource k -> amount_held toOffer k = amount_held y k + amount_held (ResourceOps.filter always offering) k) ->
  wf_quantities charged -> (forall n, Quantities.get charged n = ptotal n PScalar y) ->
  fair_offer av toOffer charged.
Proof.
  intros Hav Hu Ho Hi Hd Hy Hyi Ht Hh Hw Hc. assert (Hit : included toOffer av).
  { apply scalar_included; [done..|]. intros k Hk. rewrite Hh by done. assert (D := disjoint_filters quota_resource always offering k Ho Hd).
    apply (scalar_included _ _ Hy (scalar_filter _ _ Ho)) with (k := k) in Hyi; [|done].
    apply (scalar_included _ _ Ho Hav) with (k := k) in Hi; [|done]. lia. }
  split; [done| |done|done|].
  - apply unallocated_bare. eapply included_all; [apply respects_bare|done|exact Hit|]. by apply unallocated_bare.
  - intros n. rewrite (part_sum quota_resource n toOffer y (ResourceOps.filter always offering)); [|apply respects_quota|done|done|by apply scalar_filter|done].
    rewrite part_all by (eapply included_all; [apply respects_quota|done|exact Hyi|apply filter_keeps]).
    rewrite part_none; [rewrite Hc; lia|]. eapply Forall_impl; [apply filter_keeps|]. intros e He. by apply Hd.
Qed.

Lemma always_first_not role r : always_first role r = true -> quota_resource r = false.
Proof.
  unfold always_first, quota_resource, isReserved. destruct (isUnreserved r), (bool_decide (rtype r = SCALAR)), (isRevocable r); done.
Qed.

Lemma always_second_not r : always_second r = true -> quota_resource r = false.
Proof.
  unfold always_second, quota_resource, isReserved. destruct (isUnreserved r), (bool_decide (rtype r = SCALAR)), (isRevocable r); done.
Qed.

(** ** Cutting *)

Section Cutting.
  Context (shuffle : nat -> list Resource -> list Resource).
  Hypothesis Hshuffle : forall n l, shuffle n l ≡ₚ l.

Lemma shrink_to_ok rs target n :
  scalar_resources rs -> wf_quantities target ->
  exists rs', shrink_to shuffle rs target n = Some rs' /\ shrunk rs (fun n => Some (Quantities.get target n)) rs'.
Proof using Hshuffle. intros Hs Ht. by apply shrunk_to_quantities. Qed.

Lemma shrink_to_limit_ok rs target n :
  scalar_resources rs -> wf_limits target ->
  exists rs', shrink_to_limit shuffle rs target n = Some rs' /\ shrunk rs (limits_get target) rs'.
Proof using Hshuffle. intros Hs Ht. by apply shrunk_to_limits. Qed.

(** Cut to the limits, if there are any. *)
Lemma cut_to_limits rs limits consumed guaranteed n :
  scalar_resources rs -> wf_limits limits -> wf_quantities guaranteed ->
  (limits <> [] -> exists q, consumed = Some q /\ wf_quantities q) ->
  exists rs', (if bool_decide (limits = []) then Some rs
               else q ← consumed; shrink_to_limit shuffle rs (limits_minus (limits_minus limits q) guaranteed) n) = Some rs'
    /\ scalar_resources rs' /\ included rs' rs
    /\ forall m b, limits_get limits m = Some b ->
         exists q, consumed = Some q
           /\ ptotal m PScalar rs' <= Z.max 0 (Z.max 0 (b - Quantities.get q m) - Quantities.get guaranteed m).
Proof using Hshuffle.
  intros Hs Hl Hg Hc. case_bool_decide as E.
  { exists rs. split_and!; [done|done|by intros k p Hk|]. subst. done. }
  destruct (Hc E) as (q & -> & Hq). cbn [mbind option_bind].
  assert (Hw := limits_minus_wf limits q Hl). destruct (shrink_to_limit_ok rs (limits_minus (limits_minus limits q) guaranteed) n) as (rs' & E' & S);
    [done|by apply limits_minus_wf|]. exists rs'. split_and!; [done|apply (sh_scalar _ _ _ S)|apply (sh_included _ _ _ S)|].
  intros m b Hb. exists q. split; [done|]. apply (sh_bound _ _ _ S). rewrite limits_drop by done. rewrite limits_drop by done. rewrite Hb. cbn. f_equal. lia.
Qed.

(** Cut to the headroom, if some is required. *)
Lemma cut_to_headroom rs required headroom n :
  scalar_resources rs -> wf_quantities required -> wf_quantities headroom ->
  exists rs', (if bool_decide (required = []) || bool_decide (rs = []) then Some rs
               else shrink_to shuffle rs (Quantities.minus headroom required) n) = Some rs'
    /\ scalar_resources rs' /\ included rs' rs /\ (forall m, ptotal m PScalar rs' <= ptotal m PScalar rs)
    /\ (required <> [] -> forall m, ptotal m PScalar rs' <= Z.max 0 (Quantities.get headroom m - Quantities.get required m)).
Proof using Hshuffle.
  intros Hs Hr Hh. case_bool_decide as E; cbn [orb].
  { exists rs. split_and!; [done|done|by intros k p Hk|done|done]. }
  case_bool_decide as E'.
  { exists rs. split_and!; [done|done|by intros k p Hk|done|]. intros _ m. subst. change (ptotal m PScalar []) with 0. lia. }
  destruct (shrink_to_ok rs (Quantities.minus headroom required) n) as (rs' & -> & S); [done|by apply wf_minus|].
  exists rs'. split_and!; [done|apply S..|]. intros _ m. rewrite <- get_minus by done. by apply (sh_bound _ _ _ S).
Qed.
End Cutting.

(** ** Sums over what was offered *)

Abbreviation offers := (gmap (string * string * string) Resources).

Definition map_sum {K V} `{Countable K} (F : K -> V -> Z) (m : gmap K V) : Z := zsum (fun x => F x.1 x.2) (map_to_list m).

Lemma map_sum_delete {K V} `{Countable K} (F : K -> V -> Z) (m : gmap K V) k v :
  m !! k = Some v -> map_sum F m = F k v + map_sum F (delete k m).
Proof. intros E. unfold map_sum. by rewrite (zsum_perm _ _ _ (symmetry (map_to_list_delete m k v E))), zsum_cons. Qed.

Lemma map_sum_insert {K V} `{Countable K} (F : K -> V -> Z) (m : gmap K V) k v :
  map_sum F (<[k := v]> m) = F k v + map_sum F (delete k m).
Proof. rewrite (map_sum_delete F (<[k := v]> m) k v) by apply lookup_insert_eq. by rewrite delete_insert_eq. Qed.

Lemma map_sum_add (F : string * string * string -> Resources -> Z) (m : offers) key y :
  F key [] = 0 -> F key (Resources.plus (default [] (m !! key)) y) = F key (default [] (m !! key)) + F key y ->
  map_sum F (<[key := Resources.plus (default [] (m !! key)) y]> m) = map_sum F m + F key y.
Proof.
  intros H0 H1. rewrite map_sum_insert, H1. destruct (m !! key) as [x|] eqn:E.
  - rewrite (map_sum_delete F m key x E). cbn. lia.
  - rewrite (delete_id m key E). cbn. lia.
Qed.

(** What was offered of a kind on an agent; of a name to a role itself, of what
    counts for its quota; and to a role and the roles below it. *)
Definition offered_on (m : offers) (slaveId : string) (k : Resource) : Z :=
  map_sum (fun key rs => if decide (key.2 = slaveId) then used rs k else 0) m.
Definition offered_quota (m : offers) (role n : string) : Z :=
  map_sum (fun key rs => if decide (key.1.2 = role) then part quota_resource n rs else 0) m.
Definition offered_below (m : offers) (role n : string) : Z :=
  map_sum (fun key rs => if decide (key.1.2 = role \/ isStrictSubroleOf key.1.2 role = true) then part quota_resource n rs else 0) m.

(** What is available of a name, of what counts for quotas, on all agents. *)
Definition free (slaves : gmap string Slave) (n : string) : Z :=
  map_sum (fun _ s => part quota_resource n (available s)) slaves.

Lemma part_allocate role n rs : part quota_resource n (allocate role rs) = part quota_resource n rs.
Proof. rewrite !part_zsum. unfold allocate. by rewrite zsum_map. Qed.

Lemma allocate_unshared role rs : scalar_resources rs -> ResourceOps.unallocated rs -> shared_ (allocate role rs) = [].
Proof. intros Hs Hu. apply filter_false. apply (sc_unshared _ (allocate_scalar role rs Hs Hu)). Qed.

(** ** The invariant of the cycle *)

(** An agent in the cycle, and as it was before. *)
Record slave_kept (offered : Resource -> Z) (s0 s : Slave) : Prop := {
  sk_info : info s = info s0;
  sk_activated : activated s = activated s0;
  sk_maintenance : maintenance s = maintenance s0;
  sk_total : slave_total s = slave_total s0;
  sk_available : forall k, wf_resource k -> amount_held (available s) k + offered k = amount_held (available s0) k;
}.

Section Cycle.
  Context {RS FS : Type} {OR : SorterOps RS} {LR : SorterLaws RS} {OF : SorterOps FS} {LF : SorterLaws FS} (options : Options).
  Implicit Types (a : Allocator RS FS) (c : Cycle RS FS).

Definition agents_ok (a : Allocator RS FS) : Prop := forall g s, slaves a !! g = Some s -> agent_ok options g s.

(** [c] in a cycle that started with [a0]. *)
Record cycle_ok (a0 : Allocator RS FS) (c : Cycle RS FS) : Prop := {
  co_tracking : tracking_ok (c_allocator c);
  co_agents : agents_ok (c_allocator c);
  co_accounts : accounts_ok (c_allocator c);
  co_rest : c_allocator c = with_tracking (roleTree (c_allocator c)) (roleSorter (c_allocator c)) (frameworkSorters (c_allocator c))
                              (with_slaves (slaves (c_allocator c)) a0);
  co_frameworks : forall loc, frameworks_of (roleTree (c_allocator c)) loc = frameworks_of (roleTree a0) loc;
  co_quotas : forall loc, quota_of (roleTree (c_allocator c)) loc = quota_of (roleTree a0) loc;
  co_slaves : forall g, match slaves a0 !! g, slaves (c_allocator c) !! g with
    | Some s0, Some s => slave_kept (offered_on (offerable c) g) s0 s
    | None, None => True
    | _, _ => False
    end;
  co_shared : forall g, default [] (offeredSharedResources c !! g) = [];
  co_offers : forall key rs, offerable c !! key = Some rs -> scalar_resources rs;
  co_grown : forall g id k, wf_resource k -> offered_to (slaves a0) g id k <= offered_to (slaves (c_allocator c)) g id k;
  co_keys : forall key rs, offerable c !! key = Some rs -> key.1.1 ∈ frameworks_of (roleTree a0) (role_location key.1.2);
  co_kept : kept a0 (c_allocator c);
}.

Lemma drawn_ok a0 n c : cycle_ok a0 c -> cycle_ok a0 (drawn n c).
Proof. intros [H1 H2 H3 H4 H5 H6 H7 H8 H9 H10 H11 H12]. by split. Qed.

(** The sorters may change their order. *)
Lemma resorted_ok a0 c r f :
  let a := c_allocator c in
  cycle_ok a0 c -> retracked a (with_tracking (roleTree a) r f a) -> accounts_ok (with_tracking (roleTree a) r f a) ->
  cycle_ok a0 (with_cycle_allocator (with_tracking (roleTree a) r f a) c).
Proof.
  cbn zeta. intros [H1 H2 HB H3 H4 H5 H6 H7 H8 H9 H10 H11] R B. split; try done; [by eapply retracked_ok|].
  exact (f_equal (with_tracking (roleTree (c_allocator c)) r f) H3).
Qed.

Lemma set_slave_parties a g s s' :
  slaves a !! g = Some s -> same_parties a (set_slave g s' a).
Proof.
  intros E. split; [|done]. cbn. rewrite dom_insert_L. apply elem_of_dom_2 in E. set_solver.
Qed.

Lemma set_slave_retracked a g s s' : tracking_ok a -> slaves a !! g = Some s -> retracked a (set_slave g s' a).
Proof.
  intros Ha E. split; cbn; try done; [by eapply set_slave_parties|apply (tr_tree a Ha)|apply (tr_roles_ok a Ha)|].
  intros role. by destruct (frameworkSorters a !! role).
Qed.

Lemma offered_slave m g s0 s s' key y :
  slave_kept (offered_on m g) s0 s -> (forall k, wf_resource k -> used y k = amount_held (available s) k - amount_held (available s') k) ->
  scalar_resources (default [] (m !! key)) -> scalar_resources y ->
  key.2 = g -> info s' = info s -> activated s' = activated s -> maintenance s' = maintenance s -> slave_total s' = slave_total s ->
  slave_kept (offered_on (<[key := Resources.plus (default [] (m !! key)) y]> m) g) s0 s'.
Proof.
  intros [K1 K2 K3 K4 K5] Hu Hd Hy Hk E1 E2 E3 E4. split; try congruence. intros k Wk. unfold offered_on. rewrite map_sum_add.
  - fold (offered_on m g k). rewrite decide_True by done. rewrite Hu by done. specialize (K5 k Wk). lia.
  - by rewrite decide_True.
  - rewrite !decide_True by done. by apply used_plus.
Qed.

Lemma offered_elsewhere m g s0 s key y :
  slave_kept (offered_on m g) s0 s -> key.2 <> g -> slave_kept (offered_on (<[key := Resources.plus (default [] (m !! key)) y]> m) g) s0 s.
Proof.
  intros [K1 K2 K3 K4 K5] Hk. split; try done. intros k Wk. unfold offered_on. rewrite map_sum_add by (by rewrite !decide_False).
  fold (offered_on m g k). rewrite decide_False by done. specialize (K5 k Wk). lia.
Qed.

Lemma decrease_fields id rs s :
  let s' := decreaseAvailable id rs s in
  info s' = info s /\ activated s' = activated s /\ maintenance s' = maintenance s.
Proof. unfold decreaseAvailable. by destruct rs. Qed.

(** What an offer does. *)
Record offer_made (slaveId role id : string) (toOffer : Resources) (counts : bool) (charged guaranteed : entries)
  (c c' : Cycle RS FS) : Prop := {
  om_consumed : rolesConsumedQuota c' = if counts then charge_roles role charged (rolesConsumedQuota c) else rolesConsumedQuota c;
  om_required : requiredHeadroom c' = Quantities.minus (requiredHeadroom c) guaranteed;
  om_headroom : availableHeadroom c' = Quantities.minus (availableHeadroom c) charged;
  om_free : forall n, free (slaves (c_allocator c')) n = free (slaves (c_allocator c)) n - Quantities.get charged n;
  om_offered : forall role' n, offered_quota (offerable c') role' n
                 = offered_quota (offerable c) role' n + (if decide (role = role') then Quantities.get charged n else 0);
}.

Lemma offered_more a slaveId s id y g id' k :
  accounts_ok a -> slaves a !! slaveId = Some s -> scalar_resources y -> y <> [] -> wf_resource k ->
  offered_to (slaves a) g id' k <= offered_to (<[slaveId := decreaseAvailable id y s]> (slaves a)) g id' k.
Proof.
  intros B Hs Hy Hne Hk. unfold offered_to. destruct (decide (slaveId = g)) as [<-|Hg]; [|by rewrite lookup_insert_ne]. rewrite lookup_insert_eq, Hs.
  destruct (decrease_books s id y (bo_slaves _ _ _ _ B slaveId s Hs) Hy Hne) as (_ & _ & _ & ->); [|done].
  assert (N := held_nonneg y k Hy). destruct (decide _); lia.
Qed.

Lemma make_offer_ok a0 c slaveId role id s toOffer counts charged guaranteed :
  cycle_ok a0 c -> slaves (c_allocator c) !! slaveId = Some s ->
  id ∈ frameworks_of (roleTree (c_allocator c)) (role_location role) ->
  fair_offer (available s) toOffer charged -> toOffer <> [] ->
  exists c', make_offer options slaveId role id toOffer counts charged guaranteed c = Some c' /\ cycle_ok a0 c'
    /\ offer_made slaveId role id toOffer counts charged guaranteed c c'.
Proof.
  intros Hc Hs Hid [F1 F2 F3 F4 F5] Hne. assert (Hag := co_agents _ _ Hc slaveId s Hs). set (a := c_allocator c) in *.
  destruct (offer_ok options slaveId s role id toOffer Hag F1 F2 F3) as (A1 & A2 & A3). set (s' := decreaseAvailable id (allocate role toOffer) s) in *.
  destruct (decrease_fields id (allocate role toOffer) s) as (D1 & D2 & D3). fold s' in D1, D2, D3.
  assert (Hr := set_slave_retracked a slaveId s s' (co_tracking _ _ Hc) Hs).
  assert (Ht := retracked_ok _ _ Hr (co_tracking _ _ Hc)).
  destruct (track_offer_ok options (set_slave slaveId s' a) slaveId id role toOffer Ht) as (t & r & f & Htrack & Hre & Hq & Hpo);
    [cbn; rewrite lookup_insert_eq; by eexists|done|done|done|done|].
  eexists. split.
  { unfold make_offer. fold a. rewrite Hs. cbn [mbind option_bind]. fold s'. rewrite Htrack. cbn [mbind option_bind]. reflexivity. }
  assert (Hy := allocate_scalar role toOffer F1 F2).
  assert (Hd : scalar_resources (default [] (offerable c !! (id, role, slaveId)))).
  { destruct (offerable c !! (id, role, slaveId)) eqn:E; [by apply (co_offers _ _ Hc _ _ E)|apply scalar_nil]. }
  split.
  - split; cbn [c_allocator offerable offeredSharedResources].
    + by eapply retracked_ok.
    + intros g x. cbn. intros [[<- <-]|[_ Hx]]%lookup_insert_Some; [done|]. by apply (co_agents _ _ Hc g x).
    + assert (Hb := co_accounts _ _ Hc). assert (Hyne : allocate role toOffer <> []) by (unfold allocate; by destruct toOffer).
      destruct (decrease_books s id (allocate role toOffer) (bo_slaves _ _ _ _ Hb slaveId s Hs) Hy Hyne) as (S1 & S2 & S3 & S4).
      apply (books_posted _ _ _ _ t r f role id slaveId s s' (amount_held (allocate role toOffer)) Hb Hs S1); try done.
      intros k _. apply to_role_held, allocate_to_role.
    + exact (f_equal (fun x => with_tracking t r f (set_slave slaveId s' x)) (co_rest _ _ Hc)).
    + intros loc. rewrite (rt_frameworks _ _ Hre). cbn. apply (co_frameworks _ _ Hc).
    + intros loc. cbn. rewrite Hq. apply (co_quotas _ _ Hc).
    + intros g. cbn. assert (K := co_slaves _ _ Hc g). fold a in K. destruct (decide (slaveId = g)) as [<-|Hg].
      * rewrite Hs in K. rewrite lookup_insert_eq. destruct (slaves a0 !! slaveId) as [s0|]; [|done].
        eapply offered_slave; [exact K|..]; try done. intros k Hk. rewrite used_allocate by done. specialize (A3 k Hk). lia.
      * rewrite lookup_insert_ne by done. destruct (slaves a0 !! g), (slaves a !! g); try done. by apply offered_elsewhere.
    + intros g. destruct (decide (slaveId = g)) as [<-|Hg].
      * rewrite lookup_insert_eq. cbn. rewrite (co_shared _ _ Hc), allocate_unshared by done. done.
      * rewrite lookup_insert_ne by done. apply (co_shared _ _ Hc).
    + intros key rs [[<- <-]|[_ Hx]]%lookup_insert_Some; [by apply scalar_plus|]. by apply (co_offers _ _ Hc key).
    + intros g id' k Hk. etransitivity; [by apply (co_grown _ _ Hc)|]. fold a. apply offered_more; [apply (co_accounts _ _ Hc)|done..| |done]. unfold allocate. by destruct toOffer.
    + intros key rs [[<- <-]|[_ Hx]]%lookup_insert_Some; [|by apply (co_keys _ _ Hc key rs)]. cbn. by rewrite <- (co_frameworks _ _ Hc).
    + assert (K1 := co_kept _ _ Hc). assert (K2 := set_slave_kept slaveId s s' a Hs (decrease_total _ _ _)).
      assert (K3 := track_allocated_kept _ _ _ _ _ _ Htrack). unfold kept in *. by rewrite K3, K2.
  - split; cbn [rolesConsumedQuota requiredHeadroom availableHeadroom]; try done.
    + intros n. cbn. unfold free. rewrite map_sum_insert, (map_sum_delete _ (slaves a) slaveId s Hs). rewrite F5.
      destruct (agent_available _ _ _ Hag) as (B1 & _), (agent_available _ _ _ A1) as (B2 & _).
      rewrite (part_sum quota_resource n (available s) (available s') toOffer); [lia|apply respects_quota|done..|].
      intros k Hk. specialize (A3 k Hk). lia.
    + intros role' n. cbn [offerable]. unfold offered_quota. rewrite map_sum_add.
      * fold (offered_quota (offerable c) role' n). cbn. destruct (decide (role = role')); [|lia]. rewrite part_allocate, F5. lia.
      * cbn. by destruct (decide _).
      * cbn. destruct (decide _); [|done]. apply part_plus; [apply respects_quota|done..].
Qed.

(** ** The numbers of the cycle *)

(** What a role has consumed before the cycle. *)
Definition consumed_before (t : RoleTree) (role n : string) : Z := Quantities.get (default [] (initial_consumed t !! role)) n.

(** The guarantees at the top level that are not satisfied. *)
Definition shortage (t : RoleTree) (consumed : gmap string entries) (n : string) : Z :=
  zsum (fun x => Z.max 0 (Quantities.get (q_guarantees (quota_ x.2)) n - Quantities.get (default [] (consumed !! x.1)) n)) (top_level_roles t).

Record numbers_ok (a0 : Allocator RS FS) (h0 : entries) (c : Cycle RS FS) : Prop := {
  nu_required : wf_quantities (requiredHeadroom c);
  nu_headroom : wf_quantities (availableHeadroom c);
  nu_wf : forall role q, rolesConsumedQuota c !! role = Some q -> wf_quantities q;
  nu_consumed : forall role, top_level role -> quota_of (roleTree a0) [role] <> DEFAULT_QUOTA ->
    exists q, rolesConsumedQuota c !! role = Some q
      /\ forall n, Quantities.get q n = consumed_before (roleTree a0) role n + offered_quota (offerable c) role n;
  nu_limits : forall role n b, top_level role -> limits_get (q_limits (quota_of (roleTree a0) [role])) n = Some b ->
    consumed_before (roleTree a0) role n + offered_quota (offerable c) role n <= Z.max b (consumed_before (roleTree a0) role n);
  nu_short : forall n, shortage (roleTree a0) (rolesConsumedQuota c) n <= Quantities.get (requiredHeadroom c) n;
  nu_room : forall n, Quantities.get (requiredHeadroom c) n - Quantities.get (availableHeadroom c) n
              <= Z.max 0 (Quantities.get (initial_required (roleTree a0)) n - Quantities.get h0 n);
  nu_free : (forall n, Quantities.get h0 n <= free (slaves a0) n) ->
    forall n, Quantities.get (availableHeadroom c) n <= free (slaves (c_allocator c)) n;
}.

Lemma numbers_same a0 h0 c c' :
  rolesConsumedQuota c' = rolesConsumedQuota c -> requiredHeadroom c' = requiredHeadroom c ->
  availableHeadroom c' = availableHeadroom c -> offerable c' = offerable c -> slaves (c_allocator c') = slaves (c_allocator c) ->
  numbers_ok a0 h0 c -> numbers_ok a0 h0 c'.
Proof. intros E1 E2 E3 E4 E5 [H1 H2 H3 H4 H5 H6 H7 H8]. split; rewrite ?E1, ?E2, ?E3, ?E4, ?E5; done. Qed.

(** *** An offer *)

Lemma top_level_no_slash role : top_level role -> slash ∉ explode role.
Proof.
  unfold top_level, role_location. intros E. assert (J := join_fields (explode role)). unfold split in E. rewrite split_fields in E.
  change (is_delim (explode "/")) with is_slash in E. destruct (fields is_slash (explode role)) as [|f [|]] eqn:F; try done. cbn in J.
  subst f. apply fields_no_slash with (s := explode role). rewrite F. by left.
Qed.

Lemma ancestors_top role : top_level role -> ancestors role = [].
Proof.
  intros Ht%top_level_no_slash. destruct (ancestors role) as [|r l] eqn:E; [done|]. exfalso.
  assert (H : r ∈ ancestors role) by (rewrite E; left). apply elem_of_ancestors in H. unfold isStrictSubroleOf in H. breflect.
  match goal with H : _ !! _ = Some slash |- _ => apply Ht; by eapply list_elem_of_lookup_2 end.
Qed.

Lemma charge_top role q m : top_level role -> charge_roles role q m = <[role := Quantities.plus (default [] (m !! role)) q]> m.
Proof. intros Ht. unfold charge_roles. by rewrite ancestors_top. Qed.

(** A sum in which one term falls. *)
Lemma zsum_falls {A} (f g : A -> Z) l x d :
  x ∈ l -> (forall y, y ∈ l -> g y <= f y) -> g x <= f x - d -> zsum g l <= zsum f l - d.
Proof.
  intros Hx Hle Hd. apply elem_of_Permutation in Hx as [rest Hp]. rewrite !(zsum_perm _ _ _ Hp), !zsum_cons.
  assert (zsum g rest <= zsum f rest); [|lia]. apply zsum_le. intros y Hy. apply Hle. rewrite Hp. by right.
Qed.

Lemma nil_wf : wf_quantities [].
Proof. by repeat constructor. Qed.

(** The terms of [shortage] after [charged] was charged to [role]. *)
Lemma shortage_charged (t : RoleTree) m role charged guaranteed n :
  (forall r q, m !! r = Some q -> wf_quantities q) -> wf_quantities charged -> 0 <= guaranteed <= Quantities.get charged n ->
  (guaranteed = 0 \/ exists r, (role, r) ∈ top_level_roles t
     /\ guaranteed <= Z.max 0 (Quantities.get (q_guarantees (quota_ r)) n - Quantities.get (default [] (m !! role)) n)) ->
  shortage t (<[role := Quantities.plus (default [] (m !! role)) charged]> m) n <= shortage t m n - guaranteed.
Proof.
  intros Hm Hc Hg H. assert (Hd : wf_quantities (default [] (m !! role))).
  { destruct (m !! role) eqn:E; [by eapply Hm|apply nil_wf]. }
  assert (Hle : forall x : string * Role, x ∈ top_level_roles t ->
    Z.max 0 (Quantities.get (q_guarantees (quota_ x.2)) n
             - Quantities.get (default [] (<[role := Quantities.plus (default [] (m !! role)) charged]> m !! x.1)) n)
    <= Z.max 0 (Quantities.get (q_guarantees (quota_ x.2)) n - Quantities.get (default [] (m !! x.1)) n)).
  { intros [r0 r] _. cbn [fst snd]. destruct (decide (role = r0)) as [<-|Hn].
    - rewrite lookup_insert_eq. cbn [from_option id]. rewrite get_plus by (apply Hd || apply Hc). lia.
    - by rewrite lookup_insert_ne. }
  destruct H as [->|(r & Hin & Hb)]; [rewrite Z.sub_0_r; by apply zsum_le|].
  apply (zsum_falls _ _ _ (role, r)); [done|done|]. cbn [fst snd]. rewrite lookup_insert_eq. cbn [from_option id].
  rewrite get_plus by (apply Hd || apply Hc). lia.
Qed.

Lemma top_level_member t role r : tree_inv t -> t !! [role] = Some r -> (role, r) ∈ top_level_roles t.
Proof.
  intros Ht Hr. destruct (ts_root t (tb_shape t (ti_books t Ht))) as [r0 H0]. unfold top_level_roles. rewrite H0.
  apply list_elem_of_omap. exists role. split; [|by rewrite Hr]. apply elem_of_elements.
  apply (ts_children t (tb_shape t (ti_books t Ht)) [] r0 role H0). cbn. by eexists.
Qed.

(** What an offer may take: within the limit and the headroom. *)
Record within (a0 : Allocator RS FS) (role : string) (counts : bool) (charged guaranteed : entries) (c : Cycle RS FS) : Prop := {
  wi_charged : wf_quantities charged;
  wi_guaranteed : wf_quantities guaranteed;
  wi_part : forall n, Quantities.get guaranteed n <= Quantities.get charged n;
  wi_counts : counts = negb (quota_eqb (quota_of (roleTree a0) (role_location role)) DEFAULT_QUOTA);
  wi_limit : forall n b, limits_get (q_limits (quota_of (roleTree a0) (role_location role))) n = Some b ->
    exists q, rolesConsumedQuota c !! role = Some q /\ Quantities.get charged n <= Z.max 0 (b - Quantities.get q n);
  wi_headroom : requiredHeadroom c <> [] -> forall n,
    Quantities.get charged n <= Quantities.get guaranteed n
                               + Z.max 0 (Quantities.get (availableHeadroom c) n - Quantities.get (requiredHeadroom c) n);
  wi_unsatisfied : guaranteed = [] \/ counts = true /\ exists r, (role, r) ∈ top_level_roles (roleTree a0) /\ forall n,
    Quantities.get guaranteed n <= Z.max 0 (Quantities.get (q_guarantees (quota_ r)) n
                                            - Quantities.get (default [] (rolesConsumedQuota c !! role)) n);
}.

Lemma quota_counts q : negb (quota_eqb q DEFAULT_QUOTA) = true <-> q <> DEFAULT_QUOTA.
Proof. rewrite quota_eqb_eq, negb_true_iff. apply bool_decide_eq_false. Qed.

Lemma limited_counts q n b : limits_get (q_limits q) n = Some b -> negb (quota_eqb q DEFAULT_QUOTA) = true.
Proof. intros H. apply quota_counts. by intros ->. Qed.

Lemma counting_top a0 role : quotas_ok (roleTree a0) -> quota_of (roleTree a0) (role_location role) <> DEFAULT_QUOTA -> top_level role.
Proof.
  intros Hq (r & Hr & E)%(qs_top _ Hq). unfold top_level. rewrite E. f_equal. symmetry. by apply top_level_name.
Qed.

Lemma free_nonneg a n : agents_ok a -> 0 <= free (slaves a) n.
Proof.
  intros Ha. apply zsum_nonneg. intros [g s] H%elem_of_map_to_list. cbn. apply part_nonneg_. by eapply agent_available, Ha.
Qed.

Lemma numbers_offer a0 h0 c c' slaveId role frameworkId toOffer counts charged guaranteed :
  quotas_ok (roleTree a0) -> numbers_ok a0 h0 c -> within a0 role counts charged guaranteed c ->
  offer_made slaveId role frameworkId toOffer counts charged guaranteed c c' -> agents_ok (c_allocator c') -> numbers_ok a0 h0 c'.
Proof.
  intros Hq N W [O1 O2 O3 O4 O5] Hag. destruct W as [W1 W2 W3 W4 W5 W6 W7].
  assert (Hold : forall r, wf_quantities (default [] (rolesConsumedQuota c !! r))).
  { intros r. destruct (rolesConsumedQuota c !! r) eqn:E; [by apply (nu_wf _ _ _ N r)|apply nil_wf]. }
  assert (E : rolesConsumedQuota c' = (if counts then <[role := Quantities.plus (default [] (rolesConsumedQuota c !! role)) charged]> (rolesConsumedQuota c)
                                       else rolesConsumedQuota c) /\ (counts = true -> top_level role)).
  { rewrite O1. destruct counts; [|done]. assert (T : top_level role) by (by apply (counting_top a0), quota_counts).
    split; [by rewrite charge_top|done]. }
  destruct E as [E T]. clear O1.
  assert (Hn := fun n => get_nonneg charged n W1). assert (Hgn := fun n => get_nonneg guaranteed n W2).
  assert (Hr := nu_required _ _ _ N). assert (Hh := nu_headroom _ _ _ N). split.
  - rewrite O2. by apply wf_minus.
  - rewrite O3. by apply wf_minus.
  - intros r q. rewrite E. destruct counts; [|apply (nu_wf _ _ _ N)].
    intros [[<- <-]|[_ H]]%lookup_insert_Some; [by apply wf_plus|by apply (nu_wf _ _ _ N r)].
  - intros r Hr' Hd. destruct (nu_consumed _ _ _ N r Hr' Hd) as (q & H1 & H2). rewrite E. destruct (decide (role = r)) as [->|Hne].
    + rewrite Hr' in W4. rewrite (proj2 (quota_counts _) Hd) in W4. subst counts. rewrite lookup_insert_eq. eexists. split; [done|].
      intros n. rewrite get_plus by (apply Hold || apply W1). rewrite H1. cbn [from_option id]. rewrite H2, O5, decide_True by done. lia.
    + exists q. split; [destruct counts; [by rewrite lookup_insert_ne|done]|]. intros n. rewrite H2, O5, decide_False by done. lia.
  - intros r n b Ht Hb. assert (L := nu_limits _ _ _ N r n b Ht Hb). rewrite O5. destruct (decide (role = r)) as [->|]; [|lia].
    rewrite Ht in W5. destruct (W5 n b Hb) as (q & Hq' & Hle).
    destruct (nu_consumed _ _ _ N r Ht) as (q' & H1 & H2); [apply quota_counts; by eapply limited_counts|]. rewrite Hq' in H1. injection H1 as <-.
    rewrite H2 in Hle. lia.
  - intros n. rewrite E, O2, get_minus by done. assert (S := nu_short _ _ _ N n). destruct counts.
    + assert (F := shortage_charged (roleTree a0) (rolesConsumedQuota c) role charged (Quantities.get guaranteed n) n (nu_wf _ _ _ N) W1).
      specialize (F ltac:(specialize (W3 n); specialize (Hgn n); lia)
        ltac:(destruct W7 as [->|(_ & r & H1 & H2)]; [by left|right; by exists r])). cbv iota. lia.
    + destruct W7 as [->|[? _]]; [|done]. change (Quantities.get [] n) with 0. lia.
  - intros n. rewrite O2, O3, !get_minus by done. assert (R := nu_room _ _ _ N n). specialize (Hn n). specialize (Hgn n). specialize (W3 n).
    assert (G := get_nonneg _ n Hr). assert (G' := get_nonneg _ n Hh).
    destruct (decide (requiredHeadroom c = [])) as [Er|Er]; [rewrite Er in *; change (Quantities.get [] n) with 0 in *; lia|].
    specialize (W6 Er n). lia.
  - intros H n. rewrite O3, O4, get_minus by done. assert (R := nu_free _ _ _ N H n).
    assert (F := free_nonneg _ n Hag). rewrite O4 in F. lia.
Qed.

(** ** The stages *)

Definition in_cycle (a0 : Allocator RS FS) (h0 : entries) (c : Cycle RS FS) : Prop := cycle_ok a0 c /\ numbers_ok a0 h0 c.

Lemma in_cycle_drawn a0 h0 n c : in_cycle a0 h0 c -> in_cycle a0 h0 (drawn n c).
Proof. intros [H1 H2]. split; [by apply drawn_ok|by apply (numbers_same _ _ c)]. Qed.

Lemma in_cycle_frameworks a0 h0 c : in_cycle a0 h0 c -> frameworks (c_allocator c) = frameworks a0.
Proof. intros [H _]. exact (f_equal frameworks (co_rest _ _ H)). Qed.

Lemma getQuota_same a0 h0 c role : in_cycle a0 h0 c -> getQuota (c_allocator c) role = quota_of (roleTree a0) (role_location role).
Proof. intros [H _]. rewrite <- (co_quotas _ _ H). done. Qed.

Lemma in_cycle_offer a0 h0 c slaveId role frameworkId s toOffer counts charged guaranteed :
  quotas_ok (roleTree a0) -> in_cycle a0 h0 c -> slaves (c_allocator c) !! slaveId = Some s ->
  frameworkId ∈ frameworks_of (roleTree a0) (role_location role) ->
  fair_offer (available s) toOffer charged -> toOffer <> [] -> within a0 role counts charged guaranteed c ->
  exists c', make_offer options slaveId role frameworkId toOffer counts charged guaranteed c = Some c' /\ in_cycle a0 h0 c'
    /\ rolesConsumedQuota c' = if counts then charge_roles role charged (rolesConsumedQuota c) else rolesConsumedQuota c.
Proof.
  intros Hq [Hc N] Hs Hid Hf Hne W. rewrite <- (co_frameworks _ _ Hc) in Hid.
  destruct (make_offer_ok a0 c slaveId role frameworkId s toOffer counts charged guaranteed Hc Hs Hid Hf Hne) as (c' & E & Hc' & O).
  exists c'. split_and!; [done|..|apply O]. split; [done|]. eapply numbers_offer; [done|exact N|exact W|exact O|]. apply (co_agents _ _ Hc').
Qed.

(** What may be offered of an agent. *)
Lemma offering_ok s g caps role :
  agent_ok options g s ->
  let offering := stripIncapableResources caps (allocatableTo role (available s)) in
  scalar_resources (allocatableTo role (available s)) /\ scalar_resources offering /\ included offering (available s).
Proof.
  intros Hs. destruct (agent_available _ _ _ Hs) as (A1 & _ & _). assert (A2 : scalar_resources (allocatableTo role (available s))) by (by apply scalar_filter).
  split_and!; [done|by apply scalar_filter|]. intros k p Hk. etrans; [apply filter_included; [apply (wr_elements _ (sc_wf _ A2))|done]|].
  apply filter_included; [apply (wr_elements _ (sc_wf _ A1))|done].
Qed.

Section Stages.
  Context (shuffle : nat -> list Resource -> list Resource).
  Hypothesis Hshuffle : forall n l, shuffle n l ≡ₚ l.
  Context (a0 : Allocator RS FS) (h0 : entries).
  Hypothesis Hquotas : quotas_ok (roleTree a0).
  Hypothesis Htree : tree_inv (roleTree a0).

(** The resources beyond the guarantees, cut to the limits and the headroom. *)
Lemma additional_ok c role quotaResources guaranteesOffering guaranteed n m :
  in_cycle a0 h0 c -> scalar_resources quotaResources -> scalar_resources guaranteesOffering -> included guaranteesOffering quotaResources ->
  wf_quantities guaranteed -> (forall n, Quantities.get guaranteed n = ptotal n PScalar guaranteesOffering) ->
  (forall n b, limits_get (q_limits (quota_of (roleTree a0) (role_location role))) n = Some b ->
     Quantities.get guaranteed n <= Z.max 0 (b - Quantities.get (default [] (rolesConsumedQuota c !! role)) n)) ->
  (guaranteed = [] \/ top_level role /\ exists r, roleTree a0 !! [role] = Some r /\ quota_ r <> DEFAULT_QUOTA /\ forall n,
    Quantities.get guaranteed n <= Z.max 0 (Quantities.get (q_guarantees (quota_ r)) n
                                            - Quantities.get (default [] (rolesConsumedQuota c !! role)) n)) ->
  exists additional1 additional charged,
    (if bool_decide (q_limits (quota_of (roleTree a0) (role_location role)) = []) then Some (Resources.minus quotaResources guaranteesOffering)
     else consumed ← rolesConsumedQuota c !! role;
          shrink_to_limit shuffle (Resources.minus quotaResources guaranteesOffering)
            (limits_minus (limits_minus (q_limits (quota_of (roleTree a0) (role_location role))) consumed) guaranteed) n) = Some additional1
    /\ (if bool_decide (requiredHeadroom c = []) || bool_decide (additional1 = []) then Some additional1
        else shrink_to shuffle additional1 (Quantities.minus (availableHeadroom c) (requiredHeadroom c)) m) = Some additional
    /\ scalar_resources additional /\ included (Resources.plus guaranteesOffering additional) quotaResources
    /\ fromScalarResources (Resources.plus guaranteesOffering additional) = Some charged
    /\ (forall n, Quantities.get charged n = ptotal n PScalar (Resources.plus guaranteesOffering additional))
    /\ within a0 role (negb (quota_eqb (quota_of (roleTree a0) (role_location role)) DEFAULT_QUOTA)) charged guaranteed c.
Proof using Hshuffle Hquotas Htree.
  intros [Hc N] HQ Hg Hgi Hgw Hgt Hgl Hgu. set (q := quota_of (roleTree a0) (role_location role)) in *.
  assert (Hqo := qs_ok _ Hquotas (role_location role)). fold q in Hqo.
  assert (Hcons : q_limits q <> [] -> exists x, rolesConsumedQuota c !! role = Some x /\ wf_quantities x).
  { intros Hl. assert (Hd : q <> DEFAULT_QUOTA) by (by intros E; rewrite E in Hl). assert (T := counting_top a0 role Hquotas Hd).
    destruct (nu_consumed _ _ _ N role T) as (x & Hx & _); [by rewrite <- T|]. exists x. split; [done|by apply (nu_wf _ _ _ N role)]. }
  assert (Hm := scalar_minus _ _ HQ Hg).
  destruct (cut_to_limits shuffle Hshuffle (Resources.minus quotaResources guaranteesOffering) (q_limits q) (rolesConsumedQuota c !! role) guaranteed n)
    as (x1 & E1 & S1 & I1 & B1); [done|apply Hqo|done|done|].
  destruct (cut_to_headroom shuffle Hshuffle x1 (requiredHeadroom c) (availableHeadroom c) m) as (x2 & E2 & S2 & I2 & T2 & B2);
    [done|apply N..|].
  assert (Hp := scalar_plus _ _ Hg S2). destruct (scalar_from _ Hp) as (charged & Ec & Wc & Gc).
  exists x1, x2, charged. split_and!; try done.
  { apply scalar_included; [done..|]. intros k Hk. rewrite held_plus by done.
    apply (scalar_included _ _ S2 S1) with (k := k) in I2; [|done]. apply (scalar_included _ _ S1 Hm) with (k := k) in I1; [|done].
    rewrite held_minus in I1 by done. lia. }
  assert (Gc' : forall n, Quantities.get charged n = Quantities.get guaranteed n + ptotal n PScalar x2).
  { intros n'. by rewrite Gc, total_plus, Hgt. }
  assert (Hx2 : forall n, 0 <= ptotal n PScalar x2) by (intros n'; apply ptotal_nonneg, (wr_elements _ (sc_wf _ S2))).
  split; try done.
  - intros n'. rewrite Gc'. specialize (Hx2 n'). lia.
  - intros n' b Hb. fold q in Hb. destruct (B1 n' b Hb) as (x & Hx & Hle). exists x. split; [done|]. rewrite Gc'. specialize (Hgl n' b Hb). rewrite Hx in Hgl.
    change (default [] (Some x)) with x in Hgl. specialize (T2 n'). assert (G := get_nonneg guaranteed n' Hgw). lia.
  - intros Hr n'. rewrite Gc'. specialize (B2 Hr n'). lia.
  - destruct Hgu as [->|(T & r & Hr & Hd & Hle)]; [by left|right]. split.
    + apply quota_counts. unfold q, quota_of. by rewrite T, Hr.
    + exists r. split; [by apply top_level_member|done].
Qed.

Lemma slave_there c slaveId : in_cycle a0 h0 c -> is_Some (slaves a0 !! slaveId) -> exists s, slaves (c_allocator c) !! slaveId = Some s /\ agent_ok options slaveId s.
Proof using.
  intros [Hc _] [s0 H0]. assert (K := co_slaves _ _ Hc slaveId). rewrite H0 in K. destruct (slaves (c_allocator c) !! slaveId) as [s|] eqn:E; [|done].
  exists s. split; [done|]. by apply (co_agents _ _ Hc).
Qed.

(** The state of the loop over the frameworks of a role in the first stage. *)
Record in_role (role : string) (q : Quota) (st : entries * Cycle RS FS) : Prop := {
  ir_cycle : in_cycle a0 h0 st.2;
  ir_wf : wf_quantities st.1;
  ir_unsatisfied : forall n, Quantities.get st.1 n
    = Z.max 0 (Quantities.get (q_guarantees q) n - Quantities.get (default [] (rolesConsumedQuota st.2 !! role)) n);
}.

Lemma in_role_drawn role q u n c : in_role role q (u, c) -> in_role role q (u, drawn n c).
Proof using. intros [H1 H2 H3]. split; [by apply in_cycle_drawn|done|done]. Qed.

Lemma consumed_wf c role : in_cycle a0 h0 c -> wf_quantities (default [] (rolesConsumedQuota c !! role)).
Proof using.
  intros [_ N]. destruct (rolesConsumedQuota c !! role) eqn:E; [by apply (nu_wf _ _ _ N role)|apply nil_wf].
Qed.

Lemma first_framework_ok slaveId role r frameworkId fw st :
  top_level role -> roleTree a0 !! [role] = Some r -> quota_ r <> DEFAULT_QUOTA -> is_Some (slaves a0 !! slaveId) ->
  frameworkId ∈ frameworks_of (roleTree a0) (role_location role) -> frameworks a0 !! frameworkId = Some fw -> active fw = true ->
  in_role role (quota_ r) st ->
  exists stop st', first_framework options shuffle slaveId role (quota_ r) frameworkId st = Some (stop, st') /\ in_role role (quota_ r) st'.
Proof using Hshuffle Hquotas Htree.
  intros Ht Hr Hd Hsl Hid Hfw Hact. destruct st as [u c]. intros [Hc Hu Hun]. cbn [fst snd] in *. unfold first_framework.
  case_bool_decide; [by eexists _, _|]. rewrite (in_cycle_frameworks a0 h0 c Hc), Hfw. cbn [mbind option_bind].
  destruct (slave_there c slaveId Hc Hsl) as (s & Hs & Hag). rewrite Hs. cbn [mbind option_bind]. rewrite Hact. cbn [negb].
  destruct (isAgentExcluded fw role (info s)); [by eexists _, _|]. rewrite (co_shared _ _ (proj1 Hc)).
  change (Resources.minus (allocatableTo role (available s)) []) with (allocatableTo role (available s)).
  destruct (offering_ok s slaveId (capabilities fw) role Hag) as (S1 & S2 & I2). set (offering := stripIncapableResources _ _) in *.
  case_bool_decide; [by eexists _, _|]. destruct (allocatable_some options (allocatableTo role (available s)) role fw S1) as [[] ->]; cbn [mbind option_bind negb]; [|by eexists _, _].
  destruct (capable_some options (capabilities fw) slaveId s Hag) as [[] ->]; cbn [mbind option_bind negb]; [|by eexists _, _].
  assert (SQ : scalar_resources (ResourceOps.filter quota_resource offering)) by (by apply scalar_filter).
  destruct (shrink_to_ok shuffle Hshuffle (ResourceOps.filter quota_resource offering) u (draws c) SQ Hu) as (g & -> & Sh). cbn [mbind option_bind].
  case_bool_decide; [eexists _, _; split; [done|by apply in_role_drawn]|].
  assert (Sg := sh_scalar _ _ _ Sh). destruct (scalar_from g Sg) as (guaranteed & -> & Wg & Gg). cbn [mbind option_bind].
  assert (Hgu : forall n, Quantities.get guaranteed n <= Z.max 0 (Quantities.get (q_guarantees (quota_ r)) n - Quantities.get (default [] (rolesConsumedQuota c !! role)) n)).
  { intros n. rewrite Gg, <- Hun. by apply (sh_bound _ _ _ Sh). }
  assert (Eq : quota_of (roleTree a0) (role_location role) = quota_ r) by (unfold quota_of; by rewrite Ht, Hr).
  destruct (additional_ok c role (ResourceOps.filter quota_resource offering) g guaranteed (1 + draws c) (2 + draws c) Hc SQ Sg (sh_included _ _ _ Sh) Wg Gg)
    as (x1 & x & charged & E1 & E2 & Sx & Ix & E3 & G3 & W).
  { intros n b Hb. specialize (Hgu n). assert (B := qo_within _ (qs_ok _ Hquotas (role_location role)) n b Hb). rewrite Eq in B. lia. }
  { right. split; [done|]. by exists r. }
  rewrite Eq in E1, W. rewrite E1. cbn [mbind option_bind]. rewrite E2. cbn [mbind option_bind].
  assert (Sp := scalar_plus _ _ Sg Sx). assert (Sal : scalar_resources (ResourceOps.filter (always_first role) offering)) by (by apply scalar_filter).
  assert (Sto := scalar_plus _ _ (scalar_plus _ _ Sg Sal) Sx). set (toOffer := Resources.plus (Resources.plus g _) x) in *.
  destruct (allocatable_some options toOffer role fw Sto) as [[] Eal]; rewrite Eal; cbn [mbind option_bind negb orb];
    [|eexists _, _; split; [done|by apply in_role_drawn]].
  destruct (isFiltered fw role s toOffer); [eexists _, _; split; [done|by apply in_role_drawn]|]. rewrite E3. cbn [mbind option_bind].
  rewrite (proj2 (quota_counts (quota_ r)) Hd) in W. destruct (agent_available _ _ _ Hag) as (A1 & A2 & _).
  destruct (in_cycle_offer a0 h0 (drawn 3 c) slaveId role frameworkId s toOffer true charged guaranteed Hquotas (in_cycle_drawn _ _ _ _ Hc) Hs Hid)
    as (c' & -> & Hc' & Econs).
  { apply (fair_intro (available s) offering (always_first role) (Resources.plus g x)); try done; [apply always_first_not| |apply W].
    intros k Hk. unfold toOffer. rewrite !held_plus by (done || by apply scalar_plus). lia. }
  { by eapply allocatable_nonempty. }
  { destruct W as [W1 W2 W3 W4 W5 W6 W7]. by split. }
  cbn [mbind option_bind]. eexists _, _. split; [done|]. split; cbn [fst snd]; [done|by apply wf_minus|].
  intros n. rewrite get_minus by (done || apply W). rewrite Hun, Econs, charge_top by done. rewrite lookup_insert_eq.
  change (default [] (Some (Quantities.plus (default [] (rolesConsumedQuota (drawn 3 c) !! role)) charged)))
    with (Quantities.plus (default [] (rolesConsumedQuota c !! role)) charged).
  assert (Wd := consumed_wf c role Hc). rewrite get_plus by (apply Wd || apply W). assert (Gn := get_nonneg charged n (wi_charged _ _ _ _ _ _ W)). lia.
Qed.

Lemma plus_nil_scalar x : scalar_resources x -> Resources.plus [] x = x.
Proof using.
  intros Hx. etrans; [apply (fold_add_apart (fun e => e) x [])|]; cbn; rewrite map_id; [apply (sc_wf _ Hx)|done].
Qed.

Lemma second_framework_ok slaveId role frameworkId fw c :
  is_Some (slaves a0 !! slaveId) -> frameworkId ∈ frameworks_of (roleTree a0) (role_location role) -> frameworks a0 !! frameworkId = Some fw ->
  in_cycle a0 h0 c ->
  exists stop c', second_framework options shuffle slaveId role (q_limits (quota_of (roleTree a0) (role_location role))) frameworkId c = Some (stop, c')
    /\ in_cycle a0 h0 c'.
Proof using Hshuffle Hquotas Htree.
  intros Hsl Hid Hfw Hc. unfold second_framework. rewrite (in_cycle_frameworks a0 h0 c Hc), Hfw. cbn [mbind option_bind].
  destruct (slave_there c slaveId Hc Hsl) as (s & Hs & Hag). rewrite Hs. cbn [mbind option_bind].
  destruct (isAgentExcluded fw role (info s)); [by eexists _, _|]. rewrite (co_shared _ _ (proj1 Hc)).
  change (Resources.minus (allocatableTo role (available s)) []) with (allocatableTo role (available s)).
  destruct (offering_ok s slaveId (capabilities fw) role Hag) as (S1 & S2 & I2). set (offering := stripIncapableResources _ _) in *.
  case_bool_decide; [by eexists _, _|]. destruct (allocatable_some options (allocatableTo role (available s)) role fw S1) as [[] ->]; cbn [mbind option_bind negb]; [|by eexists _, _].
  destruct (capable_some options (capabilities fw) slaveId s Hag) as [[] ->]; cbn [mbind option_bind negb]; [|by eexists _, _].
  assert (SQ : scalar_resources (ResourceOps.filter quota_resource offering)) by (by apply scalar_filter).
  destruct (additional_ok c role (ResourceOps.filter quota_resource offering) [] [] (draws c) (1 + draws c) Hc SQ scalar_nil)
    as (x1 & x & charged & E1 & E2 & Sx & Ix & E3 & G3 & W); [|apply nil_wf|done| |by left|].
  { intros k p Hk. change (measure [] k p) with 0. apply measure_nonneg, (wr_elements _ (sc_wf _ SQ)). }
  { intros n b _. change (Quantities.get [] n) with 0. lia. }
  change (Resources.minus (ResourceOps.filter quota_resource offering) []) with (ResourceOps.filter quota_resource offering) in E1.
  assert (E1' : (if bool_decide (q_limits (quota_of (roleTree a0) (role_location role)) = []) then Some (ResourceOps.filter quota_resource offering)
     else consumed ← rolesConsumedQuota c !! role;
          shrink_to_limit shuffle (ResourceOps.filter quota_resource offering)
            (limits_minus (q_limits (quota_of (roleTree a0) (role_location role))) consumed) (draws c)) = Some x1).
  { rewrite <- E1. destruct (bool_decide _); [done|]. destruct (rolesConsumedQuota c !! role); cbn; [by rewrite limits_minus_nil_r|done]. }
  rewrite E1'. cbn [mbind option_bind]. rewrite E2. cbn [mbind option_bind]. rewrite plus_nil_scalar in E3, G3, Ix by done.
  assert (Sal : scalar_resources (ResourceOps.filter always_second offering)) by (by apply scalar_filter).
  assert (Sto := scalar_plus _ _ Sal Sx). set (toOffer := Resources.plus (ResourceOps.filter always_second offering) x) in *.
  destruct (allocatable_some options toOffer role fw Sto) as [[] Eal]; rewrite Eal; cbn [mbind option_bind negb orb];
    [|eexists _, _; split; [done|by apply in_cycle_drawn]].
  destruct (isFiltered fw role s toOffer); [eexists _, _; split; [done|by apply in_cycle_drawn]|]. rewrite E3. cbn [mbind option_bind].
  rewrite (getQuota_same a0 h0 c role Hc). destruct (agent_available _ _ _ Hag) as (A1 & A2 & _).
  destruct (in_cycle_offer a0 h0 (drawn 2 c) slaveId role frameworkId s toOffer
    (negb (quota_eqb (quota_of (roleTree a0) (role_location role)) DEFAULT_QUOTA)) charged [] Hquotas (in_cycle_drawn _ _ _ _ Hc) Hs Hid)
    as (c' & -> & Hc' & _).
  { apply (fair_intro (available s) offering always_second x); try done; [apply always_second_not| |apply W].
    intros k Hk. unfold toOffer. rewrite held_plus by done. lia. }
  { by eapply allocatable_nonempty. }
  { destruct W as [W1 W2 W3 W4 W5 W6 W7]. by split. }
  by eexists _, _.
Qed.

(** *** Roles and agents *)

Lemma no_frameworks_false c role : frameworks_of (roleTree (c_allocator c)) (role_location role) <> ∅ -> no_frameworks (c_allocator c) role = false.
Proof using.
  unfold frameworks_of, no_frameworks, get_role. destruct (_ !! _); [|done]. intros H. by apply bool_decide_eq_false.
Qed.

Lemma in_cycle_resorted c r f :
  let a := c_allocator c in
  in_cycle a0 h0 c -> retracked a (with_tracking (roleTree a) r f a) -> accounts_ok (with_tracking (roleTree a) r f a) ->
  in_cycle a0 h0 (with_cycle_allocator (with_tracking (roleTree a) r f a) c).
Proof using. intros a [H1 H2] R B. split; [by apply resorted_ok|by apply (numbers_same _ _ c)]. Qed.

Lemma resorted_frameworks c f :
  in_cycle a0 h0 c ->
  (forall role' y, f !! role' = Some y -> exists x, frameworkSorters (c_allocator c) !! role' = Some x
     /\ forall p g k, wf_resource k -> sorter_held y p g k = sorter_held x p g k) ->
  accounts_ok (with_tracking (roleTree (c_allocator c)) (roleSorter (c_allocator c)) f (c_allocator c)).
Proof using.
  intros [Hc _] Hf. assert (B := co_accounts _ _ Hc). eapply books_same; [exact B|apply same_accounts_refl|apply B|..]; try done.
  intros role y Hy. left. by apply Hf.
Qed.

Lemma first_role_ok slaveId role c :
  is_Some (slaves a0 !! slaveId) -> frameworks_of (roleTree a0) (role_location role) <> ∅ -> in_cycle a0 h0 c ->
  exists stop c', first_role options shuffle slaveId role c = Some (stop, c') /\ in_cycle a0 h0 c'.
Proof using Hshuffle Hquotas Htree.
  intros Hsl Hfr Hc. unfold first_role. rewrite (getQuota_same a0 h0 c role Hc). set (q := quota_of _ _).
  case_bool_decide as Hg; [by eexists _, _|]. rewrite no_frameworks_false by (by rewrite (co_frameworks _ _ (proj1 Hc))).
  destruct (slave_there c slaveId Hc Hsl) as (s & -> & _). cbn [mbind option_bind]. case_bool_decide; [by eexists _, _|].
  case_bool_decide; [by eexists _, _|].
  assert (Hd : q <> DEFAULT_QUOTA) by (by intros E; rewrite E in Hg). assert (Ht := counting_top a0 role Hquotas Hd).
  assert (Hr : exists r, roleTree a0 !! [role] = Some r /\ quota_ r = q).
  { unfold q, quota_of in Hd |- *. rewrite Ht in *. destruct (roleTree a0 !! [role]) as [r|]; [by exists r|done]. }
  destruct Hr as (r & Hr & Eq). rewrite <- Eq in *.
  destruct (sort_frameworks_ok c role (co_tracking _ _ (proj1 Hc))) as (l & f & -> & R & Hl & Hh); [by rewrite (co_frameworks _ _ (proj1 Hc))|].
  cbn [mbind option_bind]. set (c1 := with_cycle_allocator _ c). assert (Hc1 : in_cycle a0 h0 c1) by (apply in_cycle_resorted; [done..|by apply resorted_frameworks]).
  destruct (loop_rule (in_role role (quota_ r)) (first_framework options shuffle slaveId role (quota_ r)) l
    (Quantities.minus (q_guarantees (quota_ r)) (default [] (rolesConsumedQuota c !! role)), c1)) as ([u' c'] & -> & I).
  - assert (Hqw := qo_guarantees _ (qs_ok _ Hquotas (role_location role))). fold q in Hqw. rewrite <- Eq in Hqw.
    split; cbn [fst snd]; [done|by apply wf_minus|]. intros n. rewrite get_minus; [done|done|]. by apply (consumed_wf c).
  - intros id st Hin Hst. destruct (Hl id Hin) as (H1 & fw & H2 & H3). rewrite (co_frameworks _ _ (proj1 Hc)) in H1. rewrite (in_cycle_frameworks a0 h0 c Hc) in H2.
    by apply (first_framework_ok slaveId role r id fw).
  - cbn [mbind option_bind]. eexists _, _. split; [done|]. apply (ir_cycle _ _ _ I).
Qed.

Lemma second_role_ok slaveId role c :
  is_Some (slaves a0 !! slaveId) -> frameworks_of (roleTree a0) (role_location role) <> ∅ -> in_cycle a0 h0 c ->
  exists stop c', second_role options shuffle slaveId role c = Some (stop, c') /\ in_cycle a0 h0 c'.
Proof using Hshuffle Hquotas Htree.
  intros Hsl Hfr Hc. unfold second_role. destruct (slave_there c slaveId Hc Hsl) as (s & -> & _). cbn [mbind option_bind].
  case_bool_decide; [by eexists _, _|]. rewrite (getQuota_same a0 h0 c role Hc).
  destruct (sort_frameworks_ok c role (co_tracking _ _ (proj1 Hc))) as (l & f & -> & R & Hl & Hh); [by rewrite (co_frameworks _ _ (proj1 Hc))|].
  cbn [mbind option_bind]. set (c1 := with_cycle_allocator _ c).
  destruct (loop_rule (in_cycle a0 h0) (second_framework options shuffle slaveId role (q_limits (quota_of (roleTree a0) (role_location role)))) l c1)
    as (c' & -> & I).
  - apply in_cycle_resorted; [done..|by apply resorted_frameworks].
  - intros id st Hin Hst. destruct (Hl id Hin) as (H1 & fw & H2 & _). rewrite (co_frameworks _ _ (proj1 Hc)) in H1. rewrite (in_cycle_frameworks a0 h0 c Hc) in H2.
    by apply (second_framework_ok slaveId role id fw).
  - by eexists _, _.
Qed.

Lemma stage_agent_ok (stage : string -> Cycle RS FS -> option (bool * Cycle RS FS)) slaveId c :
  is_Some (slaves a0 !! slaveId) ->
  (forall role c, frameworks_of (roleTree a0) (role_location role) <> ∅ -> in_cycle a0 h0 c ->
     exists stop c', stage role c = Some (stop, c') /\ in_cycle a0 h0 c') ->
  in_cycle a0 h0 c ->
  exists c', (_ ← slaves (c_allocator c) !! slaveId; '(l, c1) ← sort_roles c; loop stage l c1) = Some c' /\ in_cycle a0 h0 c'.
Proof using.
  intros Hsl Hst Hc. destruct (slave_there c slaveId Hc Hsl) as (s & -> & _). cbn [mbind option_bind].
  destruct (sort_roles_ok c (co_tracking _ _ (proj1 Hc))) as (l & r & -> & R & Hl & Hh). cbn [mbind option_bind].
  assert (B := co_accounts _ _ (proj1 Hc)).
  apply loop_rule; [apply in_cycle_resorted; [done..|]; eapply books_same; [exact B|apply same_accounts_refl|apply B|done..|]; intros x y Hy; left; by exists y|]. intros role c' Hin. apply Hst. rewrite <- (co_frameworks _ _ (proj1 Hc)). by apply Hl.
Qed.

Lemma stages_ok first second c :
  (forall g, g ∈ first \/ g ∈ second -> is_Some (slaves a0 !! g)) -> in_cycle a0 h0 c ->
  exists c', (c1 ← each (first_agent options shuffle) first c; each (second_agent options shuffle) second c1) = Some c' /\ in_cycle a0 h0 c'.
Proof using Hshuffle Hquotas Htree.
  intros Hg Hc. destruct (each_rule (in_cycle a0 h0) (first_agent options shuffle) first c Hc) as (c1 & -> & H1).
  - intros g c1 Hin H1. apply stage_agent_ok; [apply Hg; by left|by intros; apply first_role_ok; [apply Hg; left|..]|done].
  - cbn [mbind option_bind]. apply each_rule; [done|]. intros g c2 Hin H2.
    apply stage_agent_ok; [apply Hg; by right|by intros; apply second_role_ok; [apply Hg; right|..]|done].
Qed.
End Stages.
End Cycle.
