(* ===== verification/OfferRun.v ===== *)
(** * A whole round of offers

    The start of a cycle, the inverse offers, and [generateOffers_run] of
    [OfferCycle.v] as a whole, on top of the stages of [OfferSafety.v]. *)

From stdpp Require Import base gmap strings list.
From Stdlib Require Import ZArith QArith.
From S2P Require Import Prelude Strings Roles Ranges Scalar Values Quantities Registry Resource Resources ResourceOps Conversions Attributes Quota SorterTree DrfSorter SorterAccounts SorterHoldings RoleTree RoleLedger Shrink Allocator OfferCycle AllocatorLaws AgentBooks AllocatorBooks AllocatorInvariant OfferSafety.
Local Open Scope Z_scope.

(** ** The numbers at the start *)

Lemma top_level_elem t tok r : (tok, r) ∈ top_level_roles t -> t !! [tok] = Some r.
Proof.
  unfold top_level_roles. destruct (t !! []); [|by intros H%elem_of_nil]. intros (x & _ & H)%list_elem_of_omap.
  destruct (t !! [x]) as [r'|] eqn:E; [|done]. cbn in H. by simplify_eq.
Qed.

Lemma top_level_nodup t : NoDup (map fst (top_level_roles t)).
Proof.
  unfold top_level_roles. destruct (t !! []) as [r|]; [|constructor]. assert (H := NoDup_elements (children_ r)).
  induction H as [|x l Hx Hl IH]; cbn; [constructor|]. destruct (t !! [x]) as [r'|]; cbn; [|done]. constructor; [|done].
  intros ([y ry] & -> & (z & Hz & Ez)%list_elem_of_omap)%list_elem_of_fmap. destruct (t !! [z]); [|done]. cbn in Ez. by simplify_eq.
Qed.

(** The fold of [initial_consumed]. *)
Definition consume (m : gmap string entries) (x : string * Role) : gmap string entries :=
  if quota_eqb (quota_ x.2) DEFAULT_QUOTA then m
  else <[x.1 := Quantities.plus (default [] (m !! x.1)) (quotaOfferedOrConsumed x.2)]> m.

Lemma consume_other l m role : role ∉ map fst l -> fold_left consume l m !! role = m !! role.
Proof.
  revert m. induction l as [|x l IH]; intros m; cbn; [done|]. intros [Hx Hl]%not_elem_of_cons. rewrite IH by done.
  unfold consume. destruct (quota_eqb _ _); [done|]. by rewrite lookup_insert_ne.
Qed.

Lemma consume_there l m role r :
  NoDup (map fst l) -> (role, r) ∈ l -> quota_ r <> DEFAULT_QUOTA -> m !! role = None ->
  fold_left consume l m !! role = Some (quotaOfferedOrConsumed r).
Proof.
  revert m. induction l as [|x l IH]; intros m; cbn; [by intros _ H%elem_of_nil|].
  intros [Hx Hl]%NoDup_cons [<-|Hin]%elem_of_cons Hd Hm.
  - cbn [fst] in Hx. rewrite consume_other by done. unfold consume. cbn [fst snd]. rewrite quota_eqb_eq, bool_decide_eq_false_2 by done.
    rewrite lookup_insert_eq, Hm. done.
  - apply IH; [done..|]. unfold consume. destruct (quota_eqb _ _); [done|]. rewrite lookup_insert_ne; [done|].
    intros E. apply Hx. rewrite E. apply list_elem_of_fmap. by exists (role, r).
Qed.

Lemma consume_wf l m :
  (forall role q, m !! role = Some q -> wf_quantities q) -> (forall x, x ∈ l -> wf_quantities (quotaOfferedOrConsumed x.2)) ->
  forall role q, fold_left consume l m !! role = Some q -> wf_quantities q.
Proof.
  revert m. induction l as [|x l IH]; intros m Hm Hl; cbn; [done|]. apply IH; [|intros y Hy; apply Hl; by right].
  intros role q. unfold consume. destruct (quota_eqb _ _); [apply Hm|]. intros [[<- <-]|[_ H]]%lookup_insert_Some; [|by eapply Hm].
  apply wf_plus; [destruct (m !! x.1) eqn:E; [by eapply Hm|apply nil_wf]|apply Hl; left].
Qed.

Lemma consumed_role_wf t tok r : tree_inv t -> (tok, r) ∈ top_level_roles t -> wf_quantities (quotaOfferedOrConsumed r).
Proof.
  intros Ht Hr%top_level_elem. destruct (tb_ok t (ti_books t Ht) [tok] r Hr) as [H1 H2]. apply wf_plus; [|done].
  apply (bk_totals _ (H2 OfferedUnreserved)).
Qed.

Lemma initial_consumed_wf t role q : tree_inv t -> initial_consumed t !! role = Some q -> wf_quantities q.
Proof.
  intros Ht. apply (consume_wf (top_level_roles t) ∅); [done|]. intros [tok r] Hx. by eapply consumed_role_wf.
Qed.

Lemma initial_consumed_there t role r :
  tree_inv t -> t !! [role] = Some r -> quota_ r <> DEFAULT_QUOTA -> initial_consumed t !! role = Some (quotaOfferedOrConsumed r).
Proof. intros Ht Hr Hd. apply consume_there; [apply top_level_nodup|by apply top_level_member|done|done]. Qed.

Lemma sum_quantities {A} (h : A -> entries) l q :
  wf_quantities q -> (forall x, x ∈ l -> wf_quantities (h x)) ->
  wf_quantities (fold_left (fun q x => Quantities.plus q (h x)) l q)
  /\ forall n, Quantities.get (fold_left (fun q x => Quantities.plus q (h x)) l q) n = Quantities.get q n + zsum (fun x => Quantities.get (h x) n) l.
Proof.
  revert q. induction l as [|x l IH]; intros q Hq Hl; cbn [fold_left].
  - split; [done|]. intros n. change (zsum (fun x => Quantities.get (h x) n) []) with 0. lia.
  - assert (Hx := Hl x (list_elem_of_here _ _)). destruct (IH (Quantities.plus q (h x))) as [H1 H2]; [by apply wf_plus|intros y Hy; apply Hl; by right|].
    split; [done|]. intros n. rewrite H2, get_plus, zsum_cons by (apply Hq || apply Hx). lia.
Qed.

Lemma initial_required_spec t :
  tree_inv t -> quotas_ok t ->
  wf_quantities (initial_required t) /\ forall n, Quantities.get (initial_required t) n = shortage t (initial_consumed t) n.
Proof.
  intros Ht Hq. assert (Hw : forall x, x ∈ top_level_roles t -> wf_quantities (q_guarantees (quota_ x.2)) /\ wf_quantities (default [] (initial_consumed t !! x.1))).
  { intros [tok r] Hx%top_level_elem. cbn [fst snd]. split.
    - assert (G := qo_guarantees _ (qs_ok t Hq [tok])). unfold quota_of in G. by rewrite Hx in G.
    - destruct (initial_consumed t !! tok) eqn:E; [by eapply initial_consumed_wf|apply nil_wf]. }
  destruct (sum_quantities (fun x : string * Role => Quantities.minus (q_guarantees (quota_ x.2)) (default [] (initial_consumed t !! x.1)))
    (top_level_roles t) [] nil_wf) as [H1 H2].
  { intros x Hx. by apply wf_minus, Hw. }
  split; [exact H1|]. intros n. unfold initial_required. rewrite H2. change (Quantities.get [] n) with 0. unfold shortage. rewrite Z.add_0_l.
  apply zsum_ext. intros x Hx. by rewrite get_minus by apply (Hw x Hx).
Qed.

Section Run.
  Context {RS FS : Type} {OR : SorterOps RS} {LR : SorterLaws RS} {OF : SorterOps FS} {LF : SorterLaws FS} (options : Options).
  Implicit Types (a : Allocator RS FS) (c : Cycle RS FS).

(** ** The invariant of the allocator *)

Record allocator_ok (a : Allocator RS FS) : Prop := {
  ao_tracking : tracking_ok a;
  ao_members : members_ok a;
  ao_agents : agents_ok options a;
  ao_accounts : accounts_ok a;
  ao_quotas : quotas_ok (roleTree a);
  ao_total : wf_quantities (totalScalarQuantities a);
  ao_candidates : allocationCandidates a ⊆ dom (slaves a);
}.

(** The invariant does not look at the other parts. *)
Record same_core (a a' : Allocator RS FS) : Prop := {
  sc_tree : roleTree a' = roleTree a;
  sc_roles : roleSorter a' = roleSorter a;
  sc_sorters : frameworkSorters a' = frameworkSorters a;
  sc_slaves : slaves a' = slaves a;
  sc_frameworks : frameworks a' = frameworks a;
}.

Lemma same_core_ok a a' :
  same_core a a' -> wf_quantities (totalScalarQuantities a') -> allocationCandidates a' ⊆ dom (slaves a) -> allocator_ok a -> allocator_ok a'.
Proof.
  intros [E1 E2 E3 E4 E5] Hq Hc [[T1 T2 T3 T4 T5 T6 T7] [M1 M2 M3] A B Q _ _].
  split; [split|split|..]; unfold agents_ok, accounts_ok; rewrite ?E1, ?E2, ?E3, ?E4, ?E5; try done.
  intros role fs Hfs. destruct (T6 role fs Hfs) as [F1 F2 F3 F4]. split; rewrite ?E4, ?E5; done.
Qed.

Lemma initial_headroom_ok a : allocator_ok a -> exists h, initial_headroom a = Some h /\ wf_quantities h.
Proof.
  intros [[T1 T2 _ _ _ _ _] _ H2 _ H3 H4 H5]. destruct (ts_root _ (tb_shape _ (ti_books _ T1))) as [r Hr].
  unfold initial_headroom. rewrite Hr. cbn [mbind option_bind]. apply each_rule; [by repeat apply wf_minus|].
  intros s q Hs Hq. apply list_elem_of_fmap in Hs as ([g s'] & -> & Hg%elem_of_map_to_list).
  destruct (agent_available _ _ _ (H2 g s' Hg)) as (A1 & _). cbn [snd].
  assert (A2 : scalar_resources (revocable_ (available s'))) by (by apply scalar_filter). rewrite scalars_scalar by done.
  destruct (scalar_from _ A2) as (x & -> & _). eexists. split; [done|]. by apply wf_minus.
Qed.

Lemma empty_sum {K V} `{Countable K} (F : K -> V -> Z) : map_sum F (∅ : gmap K V) = 0.
Proof. unfold map_sum. by rewrite map_to_list_empty. Qed.

Lemma start_cycle_ok a : allocator_ok a -> exists h c, initial_headroom a = Some h /\ start_cycle a = Some c /\ in_cycle options a h c.
Proof.
  intros Ha. destruct (initial_headroom_ok a Ha) as (h & Hh & Wh). assert (Ht := tr_tree _ (ao_tracking a Ha)).
  destruct (initial_required_spec (roleTree a) Ht (ao_quotas a Ha)) as [R1 R2].
  exists h. eexists. split_and!; [done|unfold start_cycle; by rewrite Hh|]. split.
  - split; cbn; try done; [apply (ao_tracking a Ha)|apply (ao_agents a Ha)|apply (ao_accounts a Ha)|by destruct a|].
    intros g. destruct (slaves a !! g) as [s|]; [|done]. split; try done. intros k _. unfold offered_on. rewrite empty_sum. lia.
  - split; cbn [rolesConsumedQuota requiredHeadroom availableHeadroom offerable c_allocator]; try done.
    + intros role q. by apply initial_consumed_wf.
    + intros role T Hd. unfold quota_of in Hd. destruct (roleTree a !! [role]) as [r|] eqn:E; [|done].
      rewrite (initial_consumed_there (roleTree a) role r Ht E Hd). eexists. split; [done|]. intros n. unfold offered_quota. rewrite empty_sum.
      unfold consumed_before. rewrite (initial_consumed_there (roleTree a) role r Ht E Hd). change (default [] (Some (quotaOfferedOrConsumed r))) with (quotaOfferedOrConsumed r). lia.
    + intros role n b _ _. unfold offered_quota. rewrite empty_sum. lia.
    + intros n. by rewrite R2.
    + intros n. lia.
Qed.

(** The allocator after the offers. *)
Lemma in_cycle_allocator a h c : allocator_ok a -> in_cycle options a h c -> allocator_ok (c_allocator c).
Proof.
  intros Ha [Hc _]. assert (R := co_rest _ _ _ Hc). split.
  - apply (co_tracking _ _ _ Hc).
  - destruct (ao_members a Ha) as [M1 M2 M3]. rewrite R. split; cbn [frameworks roleTree slaves with_tracking with_slaves]; [..|done]; intros id f role; rewrite (co_frameworks _ _ _ Hc).
    + by apply M1.
    + intros Hf Hin Hidle. apply (M2 id f); [done|done|]. intros g k Hk Er. assert (G := co_grown _ _ _ Hc g id k Hk).
      rewrite (Hidle g k Hk Er) in G. assert (N := offered_to_nonneg _ _ _ _ g id k (ao_accounts a Ha) Hk). lia.
  - apply (co_agents _ _ _ Hc).
  - apply (co_accounts _ _ _ Hc).
  - split; intros loc; rewrite (co_quotas _ _ _ Hc); apply (ao_quotas a Ha).
  - rewrite R. apply (ao_total a Ha).
  - assert (E : dom (slaves (c_allocator c)) = dom (slaves a)).
    { apply set_eq. intros g. rewrite !elem_of_dom. assert (K := co_slaves _ _ _ Hc g).
      destruct (slaves a !! g), (slaves (c_allocator c) !! g); try done; split; intros [? ?]; done. }
    rewrite E, R. apply (ao_candidates a Ha).
Qed.

(** ** Inverse offers *)

(** Only the maintenance of agents changes. *)
Record only_maintenance (a a' : Allocator RS FS) : Prop := {
  om_rest : a' = with_slaves (slaves a') a;
  om_slaves : forall g, match slaves a !! g, slaves a' !! g with
    | Some s, Some s' => s' = with_maintenance (maintenance s') s
    | None, None => True
    | _, _ => False
    end;
}.

Lemma only_maintenance_refl a : only_maintenance a a.
Proof. split; [by destruct a|]. intros g. destruct (slaves a !! g) as [[]|]; done. Qed.

Lemma only_maintenance_set a a' g s' m :
  only_maintenance a a' -> slaves a' !! g = Some s' -> only_maintenance a (set_slave g (with_maintenance m s') a').
Proof.
  intros [H1 H2] Hs. split; [exact (f_equal (set_slave g (with_maintenance m s')) H1)|]. intros g'. specialize (H2 g'). cbn.
  destruct (decide (g = g')) as [<-|Hn]; [|by rewrite lookup_insert_ne]. rewrite lookup_insert_eq. rewrite Hs in H2.
  destruct (slaves a !! g) as [s|]; [|done]. rewrite H2. done.
Qed.

Lemma only_maintenance_there a a' g : only_maintenance a a' -> is_Some (slaves a' !! g) <-> is_Some (slaves a !! g).
Proof. intros [_ H]. specialize (H g). destruct (slaves a !! g), (slaves a' !! g); try done; split; intros [? ?]; done. Qed.

Lemma only_maintenance_ok a a' : only_maintenance a a' -> allocator_ok a -> allocator_ok a'.
Proof.
  intros Hm [T B A K Q W C]. assert (Hm' := Hm). destruct Hm' as [R S]. assert (D : dom (slaves a') = dom (slaves a)).
  { apply set_eq. intros g. rewrite !elem_of_dom. by apply only_maintenance_there. }
  assert (Em : same_accounts_of (slaves a) (slaves a')).
  { intros g. specialize (S g). destruct (slaves a !! g), (slaves a' !! g) as [s'|]; try done. by rewrite S. }
  split.
  - eapply retracked_ok; [|exact T]. rewrite R. split; cbn; try done; [apply T..|].
    intros role. by destruct (frameworkSorters a !! role).
  - rewrite R. by apply members_accounts.
  - intros g s' Hs'. specialize (S g). rewrite Hs' in S. destruct (slaves a !! g) as [s|] eqn:E; [|done]. rewrite S.
    destruct (A g s E) as [A1 A2 A3 A4 A5 A6 A7 A8 A9]. by split.
  - unfold accounts_ok. rewrite R. cbn. eapply books_same; [exact K|..]; try done.
    + intros g s' Hs'. specialize (S g). rewrite Hs' in S. destruct (slaves a !! g) as [s|] eqn:Es; [|done].
      eapply slave_books_accounts; [|by apply (bo_slaves _ _ _ _ K g s)]. by rewrite S.
    + intros role y Hy. left. by exists y.
  - by rewrite R.
  - by rewrite R.
  - rewrite D, R. exact C.
Qed.

Lemma inverse_offer_ok a slaveId frameworkId st :
  only_maintenance a st.1 -> (exists s, slaves st.1 !! slaveId = Some s /\ is_Some (maintenance s)) ->
  exists st', inverse_offer slaveId frameworkId st = Some st'
    /\ only_maintenance a st'.1 /\ exists s, slaves st'.1 !! slaveId = Some s /\ is_Some (maintenance s).
Proof.
  destruct st as [a' o]. cbn [fst]. intros H (s & Hs & m & Hm). unfold inverse_offer. rewrite Hs. cbn [mbind option_bind]. rewrite Hm. cbn [mbind option_bind].
  assert (Same : only_maintenance a a' /\ exists s, slaves a' !! slaveId = Some s /\ is_Some (maintenance s)) by (split; [done|]; eauto).
  destruct (frameworks a' !! frameworkId) as [f|]; [|by eexists]. destruct (negb (active f)); [by eexists|].
  case_bool_decide; [by eexists|]. case_bool_decide; [by eexists|]. destruct (isFiltered_inverse f s); [by eexists|].
  eexists. split; [done|]. cbn [fst]. split; [by apply only_maintenance_set|]. eexists. split; [apply lookup_insert_eq|by eexists].
Qed.

Lemma generateInverseOffers_ok a :
  allocator_ok a -> exists a' o, generateInverseOffers a = Some (a', o) /\ only_maintenance a a'.
Proof.
  intros Ha. destruct (each_rule (fun st => only_maintenance a st.1) inverse_agent (elements (allocationCandidates a)) (a, ∅)) as ([a' o] & E & H).
  - apply only_maintenance_refl.
  - intros g [a' o] Hg%elem_of_elements%(ao_candidates a Ha)%elem_of_dom H. cbn [fst] in *. unfold inverse_agent. cbn [fst].
    destruct (proj2 (only_maintenance_there a a' g H) Hg) as [s Hs]. rewrite Hs. cbn [mbind option_bind].
    destruct (maintenance s) as [m|] eqn:Em; [|by eexists].
    destruct (each_rule (fun st => only_maintenance a st.1 /\ exists s, slaves st.1 !! g = Some s /\ is_Some (maintenance s))
      (inverse_offer g) (map fst (map_to_list (offeredOrAllocated s))) (a', o)) as (st & -> & [H1 _]).
    + split; [done|]. exists s. split; [done|]. by rewrite Em.
    + intros id st _ [H1 H2]. by apply inverse_offer_ok.
    + by eexists.
  - by exists a', o.
Qed.

(** ** The round *)

Lemma eligible_ok a l : (forall g, g ∈ l -> is_Some (slaves a !! g)) -> exists ids, eligible a l = Some ids /\ forall g, g ∈ ids -> g ∈ l.
Proof.
  induction l as [|g l IH]; intros Hl; cbn [eligible]; [by exists []|]. destruct (Hl g (list_elem_of_here _ _)) as [s Hs].
  assert (W : exists w, isWhitelisted a g = Some w) by (unfold isWhitelisted; destruct (whitelist a); [rewrite Hs|]; by eexists).
  destruct W as [w ->]. cbn [mbind option_bind]. destruct IH as (ids & -> & H); [intros x Hx; apply Hl; by right|]. cbn [mbind option_bind].
  rewrite Hs. eexists. split; [done|]. intros x. destruct (w && activated s); [intros [->|Hx]%elem_of_cons; [left|right; by apply H]|].
  intros Hx. right. by apply H.
Qed.

Definition orders (order : nat -> list string -> list string) (shuffle : nat -> list Resource -> list Resource) : Prop :=
  (forall n l, order n l ≡ₚ l) /\ (forall n l, shuffle n l ≡ₚ l).

Lemma run_ok order shuffle a :
  orders order shuffle -> allocator_ok a -> paused a = false ->
  exists h c a' inverse, initial_headroom a = Some h /\ in_cycle options a h c
    /\ generateOffers_run options shuffle order a = Some (with_candidates ∅ false a', offerable c, inverse)
    /\ only_maintenance (c_allocator c) a'.
Proof.
  intros [Ho Hsh] Ha Hp. unfold generateOffers_run. rewrite Hp.
  assert (Hcand : forall g, g ∈ elements (allocationCandidates a) -> is_Some (slaves a !! g)).
  { intros g Hg%elem_of_elements%(ao_candidates a Ha). by apply elem_of_dom. }
  destruct (eligible_ok a _ Hcand) as (ids & -> & Hids). cbn [mbind option_bind]. destruct (start_cycle_ok a Ha) as (h & c0 & Hh & Hc0 & I0).
  unfold generate_offers. rewrite Hc0. cbn [mbind option_bind].
  destruct (stages_ok options shuffle Hsh a h (ao_quotas a Ha) (tr_tree _ (ao_tracking a Ha)) (order 0%nat ids) (order 1%nat (order 0%nat ids)) c0) as (c & E & I); [|done|].
  { intros g [Hg|Hg]; apply Hcand, Hids; by rewrite ?Ho in Hg. }
  cbn [mbind option_bind] in E. rewrite E. cbn [mbind option_bind].
  destruct (generateInverseOffers_ok (c_allocator c) (in_cycle_allocator a h c Ha I)) as (a' & inv & -> & M). cbn [mbind option_bind].
  by exists h, c, a', inv.
Qed.

Lemma after_run_ok a h c a' :
  allocator_ok a -> in_cycle options a h c -> only_maintenance (c_allocator c) a' -> allocator_ok (with_candidates ∅ false a').
Proof.
  intros Ha I M. assert (H := only_maintenance_ok _ _ M (in_cycle_allocator a h c Ha I)). apply (same_core_ok a'); [done|apply (ao_total _ H)|set_solver|done].
Qed.
End Run.
