(* ===== verification/AllocatorHistory.v ===== *)
(** * Histories of the allocator

    The handlers of [Allocator.v] keep the invariant of the allocator and pass
    their [CHECK]s, so that any permitted sequence of events, rounds of offers
    among them, runs to its end. *)

From stdpp Require Import base gmap strings list.
From Stdlib Require Import ZArith QArith.
From S2P Require Import Prelude Strings Roles Ranges Scalar Rounding Values Quantities Registry Resource Resources ResourceOps Conversions Attributes Quota SorterTree DrfSorter SorterAccounts SorterHoldings RoleTree RoleLedger Shrink Allocator OfferCycle AllocatorLaws AgentBooks AllocatorBooks AllocatorInvariant OfferSafety OfferRun.
Local Open Scope Z_scope.

(** The fields of a state that was changed. *)
Ltac fields := cbn [roleTree roleSorter frameworkSorters slaves frameworks totalScalarQuantities allocationCandidates paused expectedAgentCount
  with_tracking with_slaves with_allocator_frameworks with_quantities with_candidates with_paused set_framework set_slave].

Section Handlers.
  Context {RS FS : Type} {OR : SorterOps RS} {LR : SorterLaws RS} {OF : SorterOps FS} {LF : SorterLaws FS} (options : Options).
  Implicit Types a : Allocator RS FS.

Lemma new_allocator_ok : allocator_ok options (new_allocator (RS := RS) (FS := FS) options).
Proof.
  destruct new_tree_inv as [T L]. destruct (sorter_new_ok (S := RS) (fairnessExclude options)) as (S1 & S2 & S3).
  assert (Ef : forall loc, frameworks_of new_tree loc = ∅) by (intros loc; apply (sl_frameworks _ _ L)). split.
  - split; cbn; try done.
    + intros role. rewrite S2, Ef, lookup_empty. split; [by intros [? ?]|done].
    + intros role. rewrite Ef, lookup_empty. split; [by intros [? ?]|done].
    + intros role id. rewrite Ef. set_solver.
  - by split.
  - intros g s H. done.
  - split; cbn; try done.
    + intros role g k _. unfold role_part, offered_sum. rewrite lookup_empty, sorter_idle by (done || by rewrite S2). by destruct (decide _).
    + intros w loc g k Hk. etransitivity; [exact (sl_tracked _ _ L w loc g k Hk)|]. cbn. unfold tracked_share, location_part, in_use, offered_sum. rewrite !lookup_empty.
      destruct (counted w k), (allocation_role k), w; try done; by destruct (decide _).
  - assert (Eq : forall loc, quota_of new_tree loc = DEFAULT_QUOTA) by (intros loc; apply (sl_quota _ _ L)).
    split; intros loc; cbn; rewrite Eq; [apply default_quota_ok|done].
  - apply nil_wf.
  - cbn. set_solver.
Qed.

(** ** Changes that leave the tracking alone *)

Lemma set_framework_retracked a id f f' :
  tracking_ok a -> frameworks a !! id = Some f -> roles f' = roles f -> active f' = active f -> retracked a (set_framework id f' a).
Proof.
  intros Ha Hf Er Ea. split; cbn; try done; [|apply Ha..|].
  - split; [done|]. intros id'. cbn. destruct (decide (id = id')) as [<-|Hn]; [|by rewrite lookup_insert_ne].
    rewrite lookup_insert_eq, Hf. cbn. by rewrite Er, Ea.
  - intros role. by destruct (frameworkSorters a !! role).
Qed.

(** The invariant, for a change of the tracking only. *)
Lemma retracked_allocator a t r f :
  allocator_ok options a -> retracked a (with_tracking t r f a) -> accounts_ok (with_tracking t r f a) -> quotas_ok t ->
  allocator_ok options (with_tracking t r f a).
Proof.
  intros [H1 H2 H3 HB H4 H5 H6] R B Hq. split; try done; [by eapply retracked_ok|]. eapply retracked_members; [exact R|done|apply H2|done].
Qed.

Lemma framework_retouched a id f f' :
  allocator_ok options a -> frameworks a !! id = Some f -> roles f' = roles f -> active f' = active f -> suppressedRoles f' ⊆ roles f ->
  allocator_ok options (set_framework id f' a).
Proof.
  intros [H1 H2 H3 HB H4 H5 H6] Hf Er Ea Es. assert (R := set_framework_retracked a id f f' H1 Hf Er Ea).
  split; try done; [by eapply retracked_ok|]. eapply retracked_members; [exact R|done| |done].
  intros id' f1. fields. intros [[<- <-]|[_ H]]%lookup_insert_Some; [by rewrite Er|by apply (me_suppressed _ H2 id')].
Qed.

Lemma candidates_ok a l b : allocator_ok options a -> l ⊆ dom (slaves a) -> allocator_ok options (with_candidates l b a).
Proof. intros Ha Hl. by apply (same_core_ok _ a); [|apply (ao_total _ _ Ha)|..]. Qed.

Lemma generateOffers_ok a l : allocator_ok options a -> l ⊆ dom (slaves a) -> allocator_ok options (generateOffers l a).
Proof.
  intros Ha Hl. unfold generateOffers. destruct (paused a); [done|]. apply candidates_ok; [done|]. assert (C := ao_candidates _ a Ha). set_solver.
Qed.

(** The other parts that the invariant does not look at. *)
Lemma paused_ok a b n : allocator_ok options a -> allocator_ok options (with_paused b n a).
Proof. intros Ha. apply (same_core_ok _ a); [done|apply (ao_total _ _ Ha)|apply (ao_candidates _ _ Ha)|done]. Qed.
Lemma whitelist_ok a w : allocator_ok options a -> allocator_ok options (with_whitelist w a).
Proof. intros Ha. apply (same_core_ok _ a); [done|apply (ao_total _ _ Ha)|apply (ao_candidates _ _ Ha)|done]. Qed.

(** An agent changes in what the books do not look at. *)
Lemma agent_retouched a g s s' :
  allocator_ok options a -> slaves a !! g = Some s -> agent_ok options g s' -> slave_accounts s' = slave_accounts s ->
  allocator_ok options (set_slave g s' a).
Proof.
  intros [H1 H2 H3 HB H4 H5 H6] Hs Hs' E. assert (R := set_slave_retracked a g s s' H1 Hs).
  split; try done; [by eapply retracked_ok|by eapply members_accounts, accounts_retouched|..].
  - intros g' x. cbn. intros [[<- <-]|[_ H]]%lookup_insert_Some; [done|by apply H3].
  - by eapply books_retouched.
  - cbn. rewrite dom_insert_L. set_solver.
Qed.

(** ** Quotas and weights *)

(** The tree and the sorter of roles change in what the books do not look at. *)
Lemma tree_accounts a t r :
  accounts_ok a -> (forall loc, frameworks_of t loc = frameworks_of (roleTree a) loc) ->
  (forall w loc g k, wf_resource k -> l_tracked (ledger_of t) w loc g k = l_tracked (ledger_of (roleTree a)) w loc g k) ->
  (forall p g k, wf_resource k -> sorter_held r p g k = sorter_held (roleSorter a) p g k) ->
  accounts_ok (with_tracking t r (frameworkSorters a) a).
Proof.
  intros B Hf Ht Hr. eapply books_same; [exact B|apply same_accounts_refl|apply B|..]; try done.
  - intros g id k role _ _ _. fields. by rewrite Hf.
  - intros role y Hy. left. by exists y.
Qed.

Lemma updateQuota_ok a role q :
  allocator_ok options a -> top_level role -> quota_ok q ->
  exists a', updateQuota_ role q a = Some a' /\ allocator_ok options a'.
Proof.
  intros Ha Ht Hq. destruct (role_step_ok (roleTree a) (UpdateQuota role q) (tr_tree _ (ao_tracking _ a Ha)) I) as (t & E & T & L).
  cbn [role_step] in E. unfold updateQuota_. rewrite E. eexists. split; [done|]. apply retracked_allocator; [done|..].
  - split; cbn; try done; [apply (sl_frameworks _ _ L)|apply (ao_tracking _ a Ha)|]. intros r. by destruct (frameworkSorters a !! r).
  - apply (tree_accounts a t (roleSorter a)); [apply (ao_accounts _ a Ha)|apply (sl_frameworks _ _ L)|apply (sl_tracked _ _ L)|done].
  - assert (Eq : forall loc, quota_of t loc = at_role (role_location role) q (quota_of (roleTree a)) loc) by apply (sl_quota _ _ L).
    split; intros loc; rewrite Eq; unfold at_role; destruct (decide _) as [->|]; try apply (ao_quotas _ a Ha); [done|]. intros _. by exists role.
Qed.

Lemma updateWeights_ok a l :
  allocator_ok options a -> Forall (fun x => weight_ok x.2) l -> exists a', updateWeights_ l a = Some a' /\ allocator_ok options a'.
Proof.
  intros Ha Hl. rewrite Forall_forall in Hl. apply each_rule; [done|]. clear a Ha. intros [role w] a Hin Ha. assert (Hw := Hl _ Hin).
  destruct (role_step_ok (roleTree a) (UpdateRoleWeight role w) (tr_tree _ (ao_tracking _ a Ha)) I) as (t & E & T & L). cbn [role_step] in E. rewrite E. cbn [mbind option_bind].
  destruct (sorter_run_ok (roleSorter a) (UpdateWeight role w) (tr_roles_ok _ (ao_tracking _ a Ha)) Hw) as (r & Er & R1 & R2 & R3 & R4).
  cbn [sorter_run call_spec agents_spec] in Er, R2, R3. rewrite Er. eexists. split; [done|]. apply retracked_allocator; [done|..].
  - split; cbn; try done; [apply (sl_frameworks _ _ L)|]. intros r'. by destruct (frameworkSorters a !! r').
  - apply (tree_accounts a t r); [apply (ao_accounts _ a Ha)|apply (sl_frameworks _ _ L)|apply (sl_tracked _ _ L)|done].
  - assert (Eq : forall loc, quota_of t loc = quota_of (roleTree a) loc) by apply (sl_quota _ _ L).
    split; intros loc; rewrite Eq; apply (ao_quotas _ a Ha).
Qed.

(** The quotas of the registry, when a master takes over. *)
Lemma recover_allocator_ok a expected factor (quotas : gmap string Quota) :
  allocator_ok options a -> slaves a = ∅ -> 0 <= expected -> (forall role q, quotas !! role = Some q -> top_level role /\ quota_ok q) ->
  exists a', recover_ expected factor quotas a = Some a' /\ allocator_ok options a'.
Proof.
  intros Ha Hs He Hq. unfold recover_. rewrite (bool_decide_eq_true_2 (slaves a = ∅)) by done. cbn [negb]. rewrite (proj2 (Z.ltb_ge expected 0)) by done.
  case_bool_decide; [by exists a|].
  destruct (each_rule (allocator_ok options) (fun '(role, q) a => updateQuota_ role q a) (map_to_list quotas) a Ha) as (a1 & -> & H1).
  { intros [role q] x Hx%elem_of_map_to_list Hok. destruct (Hq role q Hx). by apply updateQuota_ok. }
  cbn [mbind option_bind]. eexists. split; [done|]. case_match; [by apply paused_ok|]. by repeat apply paused_ok.
Qed.

(** ** A framework in the sorter of a role *)

(** The sorter of [role] is replaced. *)
Lemma resort_ok a role fs fs' :
  tracking_ok a -> frameworkSorters a !! role = Some fs ->
  framework_sorter_ok a role (frameworks_of (roleTree a) (role_location role)) fs' ->
  tracking_ok (with_tracking (roleTree a) (roleSorter a) (<[role := fs']> (frameworkSorters a)) a).
Proof.
  intros [T1 T2 T3 T4 T5 T6 T7] Hfs Hok. split; fields; try done.
  - intros r. destruct (decide (role = r)) as [<-|Hn]; [|by rewrite lookup_insert_ne].
    rewrite lookup_insert_eq, <- T5, Hfs. split; by eexists.
  - intros r x. intros [[<- <-]|[_ H]]%lookup_insert_Some; [by destruct Hok|by destruct (T6 r x H)].
Qed.

Lemma resort_accounts a role fs fs' :
  accounts_ok a -> frameworkSorters a !! role = Some fs ->
  (forall p g k, wf_resource k -> sorter_held fs' p g k = sorter_held fs p g k) ->
  accounts_ok (with_tracking (roleTree a) (roleSorter a) (<[role := fs']> (frameworkSorters a)) a).
Proof.
  intros B Hfs H. eapply books_same; [exact B|apply same_accounts_refl|apply B|..]; try done.
  intros role' y. fields. intros [[<- <-]|[_ Hy]]%lookup_insert_Some; left; [by exists fs|by exists y].
Qed.

Lemma activate_member a role id f :
  tracking_ok a -> id ∈ frameworks_of (roleTree a) (role_location role) ->
  frameworks a !! id = Some f -> active f = true -> role ∈ roles f ->
  exists x, on_framework_sorter role (fun fs => sorter_activate fs id) a = Some (with_tracking (roleTree a) (roleSorter a) x a)
    /\ tracking_ok (with_tracking (roleTree a) (roleSorter a) x a)
    /\ (accounts_ok a -> accounts_ok (with_tracking (roleTree a) (roleSorter a) x a)).
Proof.
  intros Ha Hid Hf Hact Hr. destruct (tracked_role a role id Ha Hid) as (_ & _ & fs & Hfs & [F1 F2 F3 F4] & Hcl).
  destruct (sorter_run_ok fs (Activate id) F1 Hcl) as (fs' & E & R1 & R2 & R3 & R4). cbn [sorter_run call_spec agents_spec] in E, R2, R3.
  unfold on_framework_sorter. rewrite Hfs. cbn [mbind option_bind]. rewrite E. eexists. split; [done|].
  split; [|intros B; by eapply resort_accounts]. eapply resort_ok; [done..|]. split; [done|..].
  - intros id'. rewrite R2, <- F2. destruct (decide (id = id')) as [<-|Hn]; [rewrite lookup_insert_eq; split; [done|by eexists]|by rewrite lookup_insert_ne].
  - intros id'. rewrite R2. intros [[<- _]|[_ H]]%lookup_insert_Some; [by exists f|by apply F3].
  - by apply R3.
Qed.

Lemma deactivate_member a role id :
  tracking_ok a -> id ∈ frameworks_of (roleTree a) (role_location role) ->
  exists x, on_framework_sorter role (fun fs => sorter_deactivate fs id) a = Some (with_tracking (roleTree a) (roleSorter a) x a)
    /\ tracking_ok (with_tracking (roleTree a) (roleSorter a) x a)
    /\ (accounts_ok a -> accounts_ok (with_tracking (roleTree a) (roleSorter a) x a))
    /\ (forall fs, x !! role = Some fs -> sorter_clients fs !! id = Some false) /\ forall r, r <> role -> x !! r = frameworkSorters a !! r.
Proof.
  intros Ha Hid. destruct (tracked_role a role id Ha Hid) as (_ & _ & fs & Hfs & [F1 F2 F3 F4] & Hcl).
  destruct (sorter_run_ok fs (Deactivate id) F1 Hcl) as (fs' & E & R1 & R2 & R3 & R4). cbn [sorter_run call_spec agents_spec] in E, R2, R3.
  unfold on_framework_sorter. rewrite Hfs. cbn [mbind option_bind]. rewrite E. eexists. split_and!; [done|..].
  - eapply resort_ok; [done..|]. split; [done|..].
    + intros id'. rewrite R2, <- F2. destruct (decide (id = id')) as [<-|Hn]; [rewrite lookup_insert_eq; split; [done|by eexists]|by rewrite lookup_insert_ne].
    + intros id'. rewrite R2. intros [[<- ?]|[_ H]]%lookup_insert_Some; [done|by apply F3].
    + by apply R3.
  - intros B. by eapply resort_accounts.
  - intros x. rewrite lookup_insert_eq. intros [= <-]. rewrite R2. apply lookup_insert_eq.
  - intros r Hr. by rewrite lookup_insert_ne.
Qed.

Lemma resorted_allocator a x :
  allocator_ok options a -> tracking_ok (with_tracking (roleTree a) (roleSorter a) x a) ->
  (accounts_ok a -> accounts_ok (with_tracking (roleTree a) (roleSorter a) x a)) ->
  allocator_ok options (with_tracking (roleTree a) (roleSorter a) x a).
Proof. intros [H1 H2 H3 HB H4 H5 H6] T B. split; try done; [by destruct H2|by apply B]. Qed.

(** ** A framework suppresses, revives, is activated and deactivated *)

(** A framework with these roles, active or not, which suppresses [s]. *)
Definition registered (a : Allocator RS FS) (id : string) (rs : gset string) (b : bool) (s : gset string) : Prop :=
  exists f, frameworks a !! id = Some f /\ roles f = rs /\ active f = b /\ suppressedRoles f = s.

Lemma elements_progress (d : list string) (l : gset string) : d ≡ₚ elements l -> list_to_set (C := gset string) d = l.
Proof. intros H. apply set_eq. intros x. by rewrite elem_of_list_to_set, H, elem_of_elements. Qed.

Lemma suppressRoles_ok a id l rs b s :
  allocator_ok options a -> registered a id rs b s -> l ⊆ rs ->
  exists a', suppressRoles id l a = Some a' /\ allocator_ok options a' /\ registered a' id rs b (s ∪ l).
Proof.
  intros Ha Hf Hl. destruct (each_progress (fun d a' => allocator_ok options a' /\ registered a' id rs b (s ∪ list_to_set d))
    (fun role a => a1 ← on_framework_sorter role (fun fs => sorter_deactivate fs id) a; f ← frameworks a1 !! id;
       Some (set_framework id (with_suppressed ({[ role ]} ∪ suppressedRoles f) f) a1)) (elements l) a) as (a' & d & E & [H1 H2] & Hd).
  - apply NoDup_elements.
  - split; [done|]. replace (s ∪ list_to_set []) with s by set_solver. done.
  - clear a Ha Hf. intros d role a Hr%elem_of_elements _ _ [Ha (f & Hf & Er & Ea & Es)].
    destruct (deactivate_member a role id (ao_tracking _ a Ha)) as (x & -> & T & TB & _); [apply (me_tracked _ (ao_members _ a Ha) id f role Hf); set_solver|].
    cbn [mbind option_bind]. fields. rewrite Hf. cbn [mbind option_bind]. eexists. split; [done|]. split.
    + eapply framework_retouched; [by apply resorted_allocator|exact Hf|done|done|]. cbn. assert (S := me_suppressed _ (ao_members _ a Ha) id f Hf). set_solver.
    + eexists. fields. rewrite lookup_insert_eq. split_and!; [done|done|done|]. cbn. rewrite Es. set_solver.
  - rewrite (elements_progress d l Hd) in H2. by exists a'.
Qed.

Lemma suppressOffers_ok a id f l :
  allocator_ok options a -> frameworks a !! id = Some f -> l ⊆ roles f ->
  exists a', suppressOffers id l a = Some a' /\ allocator_ok options a'.
Proof.
  intros Ha Hf Hl. unfold suppressOffers. rewrite Hf. cbn [mbind option_bind].
  destruct (suppressRoles_ok a id (if bool_decide (l = ∅) then roles f else l) (roles f) (active f) (suppressedRoles f) Ha) as (a' & -> & H & _);
    [by exists f|by case_bool_decide|by exists a'].
Qed.

Lemma reviveRoles_ok a id l rs s :
  allocator_ok options a -> registered a id rs true s -> l ⊆ rs ->
  exists a', reviveRoles id l a = Some a' /\ allocator_ok options a' /\ registered a' id rs true (s ∖ l).
Proof.
  intros Ha (f & Hf & Er & Ea & Es) Hl. unfold reviveRoles. rewrite Hf. cbn [mbind option_bind]. set (f0 := with_filters _ _ f).
  destruct (each_progress (fun d a' => allocator_ok options a' /\ registered a' id rs true (s ∖ list_to_set d))
    (fun role a => a1 ← on_framework_sorter role (fun fs => sorter_activate fs id) a; f ← frameworks a1 !! id;
       Some (set_framework id (with_suppressed (suppressedRoles f ∖ {[ role ]}) f) a1)) (elements l) (set_framework id f0 a)) as (a' & d & E & [H1 H2] & Hd).
  - apply NoDup_elements.
  - split; [eapply framework_retouched; [done|exact Hf|done|done|by apply (me_suppressed _ (ao_members _ a Ha) id f)]|].
    eexists. fields. rewrite lookup_insert_eq. split_and!; [done|done|done|]. cbn. rewrite Es. set_solver.
  - clear a Ha f Hf Er Ea Es f0. intros d role a Hr%elem_of_elements _ _ [Ha (f & Hf & Er & Ea & Es)].
    destruct (activate_member a role id f (ao_tracking _ a Ha)) as (x & -> & T & TB); [apply (me_tracked _ (ao_members _ a Ha) id f role Hf); set_solver|done|done|set_solver|].
    cbn [mbind option_bind]. fields. rewrite Hf. cbn [mbind option_bind]. eexists. split; [done|]. split.
    + eapply framework_retouched; [by apply resorted_allocator|exact Hf|done|done|]. cbn. assert (S := me_suppressed _ (ao_members _ a Ha) id f Hf). set_solver.
    + eexists. fields. rewrite lookup_insert_eq. split_and!; [done|done|done|]. cbn. rewrite Es. set_solver.
  - rewrite (elements_progress d l Hd) in H2. by exists a'.
Qed.

Lemma reviveOffers_ok a id f l :
  allocator_ok options a -> frameworks a !! id = Some f -> active f = true -> l ⊆ roles f ->
  exists a', reviveOffers id l a = Some a' /\ allocator_ok options a'.
Proof.
  intros Ha Hf Hact Hl. unfold reviveOffers. rewrite Hf. cbn [mbind option_bind].
  destruct (reviveRoles_ok a id (if bool_decide (l = ∅) then roles f else l) (roles f) (suppressedRoles f) Ha) as (a' & -> & H & _);
    [by exists f|by case_bool_decide|]. eexists. split; [done|]. by apply generateOffers_ok.
Qed.

(** A framework changes in what its membership does not depend on. *)
Lemma members_set a id f f' :
  members_ok a -> frameworks a !! id = Some f -> roles f' = roles f -> suppressedRoles f' = suppressedRoles f -> members_ok (set_framework id f' a).
Proof.
  intros [M1 M2 M3] Hf Er Es. split; fields.
  - intros id' f1 role [[<- <-]|[_ H]]%lookup_insert_Some; [rewrite Er; by apply (M1 id f)|by apply (M1 id' f1)].
  - intros id' f1 role [[<- <-]|[_ H]]%lookup_insert_Some; [rewrite Er; by apply (M2 id f)|by apply (M2 id' f1)].
  - intros id' f1 [[<- <-]|[_ H]]%lookup_insert_Some; [rewrite Er, Es; by apply (M3 id f)|by apply (M3 id' f1)].
Qed.

Lemma set_active_ok a id f :
  allocator_ok options a -> frameworks a !! id = Some f -> allocator_ok options (set_framework id (with_active true f) a).
Proof.
  intros [[T1 T2 T3 T4 T5 T6 T7] B A K Q W C] Hf. split; try done.
  - split; fields; try done.
    + intros role fs Hfs. destruct (T6 role fs Hfs) as [F1 F2 F3 F4]. split; try done. intros id' H. fields.
      destruct (F3 id' H) as (f' & E & Ea & Er). destruct (decide (id = id')) as [<-|Hn].
      * rewrite lookup_insert_eq. exists (with_active true f). split_and!; [done|done|]. rewrite Hf in E. by injection E as <-.
      * rewrite lookup_insert_ne by done. by exists f'.
    + intros role id' H. destruct (decide (id = id')) as [<-|Hn]; [rewrite lookup_insert_eq; by eexists|rewrite lookup_insert_ne by done; by apply (T7 role)].
  - by apply (members_set a id f).
Qed.

Lemma activateFramework_ok a id f :
  allocator_ok options a -> frameworks a !! id = Some f ->
  exists a', activateFramework id a = Some a' /\ allocator_ok options a'.
Proof.
  intros Ha Hf. unfold activateFramework. rewrite Hf. cbn [mbind option_bind].
  destruct (each_rule (fun a' => allocator_ok options a' /\ registered a' id (roles f) true (suppressedRoles f))
    (fun role a => if bool_decide (role ∈ suppressedRoles f) then _ ← frameworkSorters a !! role; Some a
                   else on_framework_sorter role (fun fs => sorter_activate fs id) a)
    (elements (roles f)) (set_framework id (with_active true f) a)) as (a' & -> & Ha' & _).
  - split; [by apply set_active_ok|]. eexists. fields. rewrite lookup_insert_eq. by split_and!.
  - clear a Ha Hf. intros role a Hr%elem_of_elements [Ha (f' & Hf & Er & Ea & Es)].
    assert (Hm : id ∈ frameworks_of (roleTree a) (role_location role)) by (apply (me_tracked _ (ao_members _ a Ha) id f' role Hf); by rewrite Er).
    case_bool_decide.
    + destruct (tracked_role a role id (ao_tracking _ a Ha) Hm) as (_ & _ & fs & -> & _). eexists. split; [done|]. split; [done|]. by exists f'.
    + destruct (activate_member a role id f' (ao_tracking _ a Ha) Hm Hf Ea) as (x & -> & T & TB); [by rewrite Er|].
      eexists. split; [done|]. split; [by apply resorted_allocator|by exists f'].
  - eexists. split; [done|]. by apply generateOffers_ok.
Qed.

Lemma deactivateFramework_ok a id f :
  allocator_ok options a -> frameworks a !! id = Some f ->
  exists a', deactivateFramework id a = Some a' /\ allocator_ok options a'.
Proof.
  intros Ha Hf. unfold deactivateFramework. rewrite Hf. cbn [mbind option_bind].
  destruct (each_progress (fun d a' => allocator_ok options a' /\ frameworks a' !! id = Some f
      /\ forall role fs, role ∈ d -> frameworkSorters a' !! role = Some fs -> sorter_clients fs !! id = Some false)
    (fun role a => on_framework_sorter role (fun fs => sorter_deactivate fs id) a) (elements (roles f)) a) as (a' & d & -> & (Ha' & Hf' & Hd) & Hp).
  - apply NoDup_elements.
  - split_and!; [done|done|]. intros role fs H%elem_of_nil. done.
  - clear a Ha Hf. intros d role a Hr%elem_of_elements _ _ (Ha & Hf & Hd).
    destruct (deactivate_member a role id (ao_tracking _ a Ha)) as (x & -> & T & TB & X1 & X2); [by apply (me_tracked _ (ao_members _ a Ha) id f role Hf)|].
    eexists. split; [done|]. split_and!; [by apply resorted_allocator|done|]. fields. intros r fs Hin Hfs. destruct (decide (r = role)) as [->|Hn]; [by apply X1|].
    rewrite X2 in Hfs by done. apply (Hd r); [|done]. by apply elem_of_cons in Hin as [?|?].
  - cbn [mbind option_bind]. eexists. split; [done|]. destruct Ha' as [[T1 T2 T3 T4 T5 T6 T7] B A K Q W C]. split; try done.
    + split; fields; try done.
      * intros role fs Hfs. destruct (T6 role fs Hfs) as [F1 F2 F3 F4]. split; try done. intros id' H. fields.
        destruct (F3 id' H) as (f' & E & Ea & Er). destruct (decide (id = id')) as [<-|Hn]; [|rewrite lookup_insert_ne by done; by exists f'].
        rewrite Hf' in E. injection E as <-. assert (G : role ∈ d) by (rewrite Hp; by apply elem_of_elements). rewrite (Hd role fs G Hfs) in H. done.
      * intros role id' H. destruct (decide (id = id')) as [<-|Hn]; [rewrite lookup_insert_eq; by eexists|rewrite lookup_insert_ne by done; by apply (T7 role)].
    + by apply (members_set a' id f).
Qed.

(** ** A framework is tracked under a role *)

Lemma new_framework_sorter_ok a :
  agents_ok options a ->
  exists fs, new_framework_sorter (FS := FS) options a = Some fs /\ sorter_ok fs /\ sorter_clients fs = ∅ /\ sorter_agents fs (dom (slaves a)).
Proof.
  intros Ha. set (l := map snd (map_to_list (slaves a))).
  assert (Hl : forall s, s ∈ l <-> slaves a !! info_id (info s) = Some s).
  { intros s. unfold l. split.
    - intros ([g s'] & -> & H%elem_of_map_to_list)%list_elem_of_fmap. cbn. by rewrite (ag_id _ _ _ (Ha g s' H)).
    - intros H. apply list_elem_of_fmap. exists (info_id (info s), s). split; [done|by apply elem_of_map_to_list]. }
  destruct (each_progress (fun d fs => sorter_ok fs /\ sorter_clients fs = ∅ /\ sorter_agents fs (list_to_set (map (info_id ∘ info) d)))
    (fun s fs => q ← scalar_quantities_of (slave_total s); sorter_addSlave fs (info_id (info s)) q) l (sorter_new (fairnessExclude options)))
    as (fs & d & E & (F1 & F2 & F3) & Hp).
  - apply NoDup_fmap_2_strong; [|apply NoDup_map_to_list]. intros [g s] [g' s'] H%elem_of_map_to_list H'%elem_of_map_to_list E. cbn in E. subst.
    f_equal. by rewrite <- (ag_id _ _ _ (Ha g s' H)), <- (ag_id _ _ _ (Ha g' s' H')).
  - destruct (sorter_new_ok (S := FS) (fairnessExclude options)) as (S1 & S2 & S3). by split_and!.
  - intros d s fs Hs Hnd Hd (F1 & F2 & F3). assert (Hs' := proj1 (Hl s) Hs). assert (Ht := ag_total _ _ _ (Ha _ _ Hs')).
    unfold scalar_quantities_of. rewrite scalars_scalar by done. destruct (scalar_from _ Ht) as (q & -> & Wq & _). cbn [mbind option_bind].
    destruct (sorter_run_ok fs (AddSlave (info_id (info s)) q) F1) as (fs' & E & R1 & R2 & R3 & _).
    { split; [|done]. eexists. split; [exact F3|]. intros (s' & H2 & H1)%elem_of_list_to_set%list_elem_of_fmap. cbn in H2. symmetry in H2. assert (H3 := proj1 (Hl s') (Hd s' H1)). rewrite H2, Hs' in H3. injection H3 as <-. done. }
    cbn [sorter_run call_spec agents_spec] in E, R2, R3. exists fs'. split; [done|]. split_and!; [done|by rewrite R2|by apply R3].
  - exists fs. split_and!; [exact E|done|done|]. replace (dom (slaves a)) with (list_to_set (map (info_id ∘ info) d) : gset string); [done|].
    apply set_eq. intros g. rewrite elem_of_list_to_set, list_elem_of_fmap, elem_of_dom. split.
    + intros (s & -> & H1). rewrite Hp in H1. apply Hl in H1. by eexists.
    + intros [s Hs]. exists s. split; [symmetry; by apply (ag_id _ _ _ (Ha g s Hs))|]. rewrite Hp. apply Hl. by rewrite (ag_id _ _ _ (Ha g s Hs)).
Qed.

Lemma no_frameworks_spec a role : no_frameworks a role = bool_decide (frameworks_of (roleTree a) (role_location role) = ∅).
Proof. unfold no_frameworks, get_role, frameworks_of. by destruct (roleTree a !! role_location role); [|rewrite bool_decide_eq_true_2]. Qed.

(** The sorters are there for the first framework of a role. *)
Lemma role_sorters_ok a role :
  tracking_ok a -> agents_ok options a -> valid_client role ->
  exists r x fs,
    (if no_frameworks a role then
       known ← sorter_contains (roleSorter a) role;
       if known : bool then None
       else
         rs ← sorter_add (roleSorter a) role;
         rs' ← sorter_activate rs role;
         if bool_decide (is_Some (frameworkSorters a !! role)) then None
         else fs ← new_framework_sorter options a; Some (with_tracking (roleTree a) rs' (<[role := fs]> (frameworkSorters a)) a)
     else Some a) = Some (with_tracking (roleTree a) r x a)
    /\ sorter_ok r /\ sorter_agents r (dom (slaves a))
    /\ (forall role', is_Some (sorter_clients r !! role') <-> role' = role \/ frameworks_of (roleTree a) (role_location role') <> ∅)
    /\ (accounts_ok a -> accounts_ok (with_tracking (roleTree a) r x a))
    /\ x !! role = Some fs /\ framework_sorter_ok a role (frameworks_of (roleTree a) (role_location role)) fs
    /\ forall role', role' <> role -> x !! role' = frameworkSorters a !! role'.
Proof.
  intros Ha Hag Hv. rewrite no_frameworks_spec. case_bool_decide as Hf.
  2:{ destruct (proj2 (tr_sorters a Ha role) Hf) as [fs Hfs]. exists (roleSorter a), (frameworkSorters a), fs. split_and!; try done; try apply Ha; try done.
      - by destruct a.
      - intros role'. rewrite (tr_roles a Ha). split; [by right|]. by intros [->|?]. }
  assert (Hn : sorter_clients (roleSorter a) !! role = None).
  { apply eq_None_not_Some. rewrite (tr_roles a Ha). by intros []. }
  rewrite (sorter_contains_ok (roleSorter a)) by apply Ha. cbn [mbind option_bind]. rewrite Hn, bool_decide_eq_false_2 by (by intros [? ?]).
  destruct (sorter_run_ok (roleSorter a) (Add role) (tr_roles_ok a Ha)) as (r1 & E1 & A1 & A2 & A3 & A4); [done|].
  cbn [sorter_run call_spec agents_spec] in E1, A2, A3. rewrite E1. cbn [mbind option_bind].
  destruct (sorter_run_ok r1 (Activate role) A1) as (r & E2 & B1 & B2 & B3 & B4); [cbn; rewrite A2, lookup_insert_eq; by eexists|].
  cbn [sorter_run call_spec agents_spec] in E2, B2, B3. rewrite E2. cbn [mbind option_bind].
  rewrite bool_decide_eq_false_2 by (rewrite (tr_sorters a Ha); by intros []).
  destruct (new_framework_sorter_ok a Hag) as (fs & -> & F1 & F2 & F3). cbn [mbind option_bind].
  exists r, (<[role := fs]> (frameworkSorters a)), fs. split_and!; try done.
  - apply B3, A3, (tr_agents a Ha).
  - intros role'. rewrite B2, A2, <- (tr_roles a Ha). destruct (decide (role = role')) as [<-|Hne].
    + rewrite lookup_insert_eq. split; [by left|by eexists].
    + rewrite !lookup_insert_ne by done. split; [by right|]. by intros [->|?].
  - intros B. eapply books_same; [exact B|apply same_accounts_refl|apply B|..]; try done.
    + intros p g k Hk. fields. rewrite B4 by done. cbn [held_spec]. by rewrite A4.
    + intros role' y. fields. intros [[<- <-]|[_ Hy]]%lookup_insert_Some; [right|left; by exists y]. split; [done|].
      intros p g k _. apply sorter_idle; [done|]. by rewrite F2.
  - apply lookup_insert_eq.
  - split; [done|..|done].
    + intros id. rewrite F2, lookup_empty, Hf. split; [by intros [? ?]|set_solver].
    + intros id. by rewrite F2, lookup_empty.
  - intros role' Hne. by rewrite lookup_insert_ne.
Qed.

Lemma trackFramework_under_ok a id role :
  tracking_ok a -> agents_ok options a -> is_Some (frameworks a !! id) -> id ∉ frameworks_of (roleTree a) (role_location role) ->
  valid_client role -> valid_client id ->
  exists t r x, trackFrameworkUnderRole options id role a = Some (with_tracking t r x a) /\ tracking_ok (with_tracking t r x a)
    /\ (accounts_ok a -> accounts_ok (with_tracking t r x a))
    /\ (forall loc, frameworks_of t loc = if decide (loc = role_location role) then {[ id ]} ∪ frameworks_of (roleTree a) loc else frameworks_of (roleTree a) loc)
    /\ forall loc, quota_of t loc = quota_of (roleTree a) loc.
Proof.
  intros Ha Hag Hid Hnew Hv Hvi. destruct (role_sorters_ok a role Ha Hag Hv) as (r & x & fs & E & R1 & R2 & R3 & RB & X1 & [F1 F2 F3 F4] & X2).
  destruct (role_step_ok (roleTree a) (TrackFramework id role) (tr_tree a Ha) Hnew) as (t & Et & T & L). cbn [role_step] in Et.
  assert (Lf : forall loc, frameworks_of t loc = if decide (loc = role_location role) then {[ id ]} ∪ frameworks_of (roleTree a) loc else frameworks_of (roleTree a) loc).
  { intros loc. assert (G := sl_frameworks _ _ L loc). cbn [l_frameworks ledger_of role_spec set_frameworks] in G. rewrite G. unfold at_role.
    destruct (decide _) as [->|]; done. }
  assert (Hcl : sorter_clients fs !! id = None) by (apply eq_None_not_Some; by rewrite F2).
  destruct (sorter_run_ok fs (Add id) F1) as (fs' & E2 & A1 & A2 & A3 & A4); [done|]. cbn [sorter_run call_spec agents_spec] in E2, A2, A3.
  exists t, r, (<[role := fs']> x). split_and!.
  - unfold trackFrameworkUnderRole. rewrite E. cbn [mbind option_bind]. fields. rewrite Et. cbn [mbind option_bind]. rewrite X1. cbn [mbind option_bind].
    rewrite (sorter_contains_ok fs) by done. cbn [mbind option_bind]. rewrite Hcl, bool_decide_eq_false_2 by (by intros [? ?]). rewrite E2. done.
  - assert (Lr : forall role', frameworks_of t (role_location role') <> ∅ <-> role' = role \/ frameworks_of (roleTree a) (role_location role') <> ∅).
    { intros role'. rewrite Lf. destruct (decide _) as [El|El].
      - apply role_location_inj in El as ->. split; [by left|]. set_solver.
      - split; [by right|]. intros [->|?]; done. }
    split; fields; try done.
    + intros role'. by rewrite R3, Lr.
    + intros role'. rewrite Lr. destruct (decide (role = role')) as [<-|Hne].
      * rewrite lookup_insert_eq. split; [by left|by eexists].
      * rewrite lookup_insert_ne by done. rewrite X2 by done. rewrite (tr_sorters a Ha). split; [by right|]. by intros [->|?].
    + intros role' y. intros [[<- <-]|[Hne Hy]]%lookup_insert_Some; rewrite Lf.
      * rewrite decide_True by done. split; [done|..].
        -- intros id'. rewrite A2. destruct (decide (id = id')) as [<-|Hn]; [rewrite lookup_insert_eq; split; [set_solver|by eexists]|].
           rewrite lookup_insert_ne, F2 by done. set_solver.
        -- intros id'. rewrite A2. intros [[_ ?]|[_ H]]%lookup_insert_Some; [done|by apply F3].
        -- by apply A3.
      * rewrite decide_False by (intros El%role_location_inj; done). rewrite X2 in Hy by done. by destruct (tr_sorter a Ha role' y Hy).
    + intros role' id'. rewrite Lf. destruct (decide _); [|apply (tr_known a Ha)]. intros [->%elem_of_singleton|H]%elem_of_union; [done|].
      by apply (tr_known a Ha role').
  - intros B. specialize (RB B). eapply (books_same (roleTree a) r x); [exact RB|apply same_accounts_refl|apply RB|..]; try done.
    + intros g id' k role' _ _ _. fields. rewrite Lf. destruct (decide _); set_solver.
    + intros w loc g k Hk. fields. by rewrite (sl_tracked _ _ L).
    + intros role' y. fields. intros [[<- <-]|[_ Hy]]%lookup_insert_Some; left; [by exists fs|by exists y].
  - done.
  - intros loc. apply (sl_quota _ _ L).
Qed.

(** ** A framework is added *)

Lemma set_new_framework a id f :
  tracking_ok a -> frameworks a !! id = None -> tracking_ok (set_framework id f a).
Proof.
  intros [T1 T2 T3 T4 T5 T6 T7] Hn. split; fields; try done.
  - intros role fs Hfs. destruct (T6 role fs Hfs) as [F1 F2 F3 F4]. split; try done. intros id' H. fields.
    destruct (F3 id' H) as (f' & E & Ea). exists f'. rewrite lookup_insert_ne; [done|]. by intros ->; rewrite Hn in E.
  - intros role id' H. destruct (T7 role id' H) as [f' E]. exists f'. rewrite lookup_insert_ne; [done|]. by intros ->; rewrite Hn in E.
Qed.

Lemma set_member a role id f (suppressed : bool) :
  tracking_ok a -> id ∈ frameworks_of (roleTree a) (role_location role) ->
  frameworks a !! id = Some f -> active f = true -> role ∈ roles f ->
  exists x, on_framework_sorter role (fun fs => if suppressed then sorter_deactivate fs id else sorter_activate fs id) a
              = Some (with_tracking (roleTree a) (roleSorter a) x a)
    /\ tracking_ok (with_tracking (roleTree a) (roleSorter a) x a)
    /\ (accounts_ok a -> accounts_ok (with_tracking (roleTree a) (roleSorter a) x a)).
Proof.
  intros Ha Hid Hf Hact Hr. destruct suppressed; [|by apply (activate_member a role id f)].
  destruct (deactivate_member a role id Ha Hid) as (x & E & T & TB & _). by exists x.
Qed.

Lemma addFramework_ok a id f :
  allocator_ok options a -> frameworks a !! id = None -> active f = true -> valid_client id -> (forall role, role ∈ roles f -> valid_client role) ->
  suppressedRoles f ⊆ roles f -> exists a', addFramework options id f ∅ a = Some a' /\ allocator_ok options a'.
Proof.
  intros Ha Hn Hact Hvi Hvr Hsup. unfold addFramework. rewrite bool_decide_eq_false_2 by (rewrite Hn; by intros [? ?]).
  assert (Hnone : forall role, id ∉ frameworks_of (roleTree a) (role_location role)).
  { intros role H. destruct (tr_known a (ao_tracking _ a Ha) role id H) as [? E]. by rewrite Hn in E. }
  set (b := set_framework id f a).
  destruct (each_progress (fun d a' => (tracking_ok a' /\ accounts_ok a') /\ a' = with_tracking (roleTree a') (roleSorter a') (frameworkSorters a') b
      /\ (forall role, id ∈ frameworks_of (roleTree a') (role_location role) <-> role ∈ d)
      /\ (forall loc i, i <> id -> i ∈ frameworks_of (roleTree a') loc <-> i ∈ frameworks_of (roleTree a) loc)
      /\ forall loc, quota_of (roleTree a') loc = quota_of (roleTree a) loc)
    (fun role a => a1 ← trackFrameworkUnderRole options id role a;
       on_framework_sorter role (fun fs => if bool_decide (role ∈ suppressedRoles f) then sorter_deactivate fs id else sorter_activate fs id) a1)
    (elements (roles f)) b) as (a' & d & -> & ([T TB] & R & Hd & Hm & Hq) & Hp).
  - apply NoDup_elements.
  - split_and!; try done; [by apply set_new_framework; [apply Ha|]|apply (ao_accounts _ a Ha)|]. intros role. split; [by intros H%Hnone|]. by intros H%elem_of_nil.
  - intros d role a' Hr%elem_of_elements Hnd _ ([T TB] & R & Hd & Hm & Hq).
    assert (Ef : frameworks a' = <[id := f]> (frameworks a)) by exact (f_equal frameworks R).
    destruct (trackFramework_under_ok a' id role T) as (t & r & x & -> & T' & TB' & Lf & Lq); [|rewrite Ef, lookup_insert_eq; by eexists|by rewrite Hd|by apply Hvr|done|].
    { intros g s Hs. apply (ao_agents _ a Ha). by rewrite R in Hs. }
    cbn [mbind option_bind]. destruct (set_member (with_tracking t r x a') role id f (bool_decide (role ∈ suppressedRoles f)) T') as (y & -> & T2 & TB2).
    { fields. rewrite Lf, decide_True by done. set_solver. }
    { fields. by rewrite Ef, lookup_insert_eq. }
    { done. }
    { done. }
    eexists. split; [done|]. split_and!; [exact T2|by apply TB2, TB'|exact (f_equal (with_tracking t r y) R)|..]; fields.
    + intros role'. rewrite Lf. destruct (decide _) as [El|El].
      * apply role_location_inj in El as ->. split; [by left|]. set_solver.
      * rewrite Hd. split; [by right|]. intros [->|?]%elem_of_cons; done.
    + intros loc i Hi. rewrite <- Hm by done. rewrite Lf. destruct (decide _); set_solver.
    + intros loc. by rewrite Lq.
  - cbn [mbind option_bind]. rewrite map_to_list_empty. cbn [each mbind option_bind]. rewrite Hact. eexists. split; [done|].
    apply generateOffers_ok; [|done]. assert (Ef : frameworks a' = <[id := f]> (frameworks a)) by exact (f_equal frameworks R).
    assert (Es : slaves a' = slaves a) by exact (f_equal slaves R). split.
    + done.
    + destruct (ao_members _ a Ha) as [M1 M2 M3]. split; rewrite Ef; intros id' f'.
      * intros role [[<- <-]|[? H]]%lookup_insert_Some Hr; [apply Hd; rewrite Hp; by apply elem_of_elements|]. apply Hm; [done|]. by apply (M1 id' f').
      * intros role [[<- <-]|[? H]]%lookup_insert_Some; [rewrite Hd, Hp; by intros ?%elem_of_elements|]. rewrite Hm, Es by done. by apply (M2 id' f').
      * intros [[<- <-]|[? H]]%lookup_insert_Some; [done|by apply (M3 id')].
    + intros g s. rewrite Es. apply (ao_agents _ a Ha).
    + done.
    + split; intros loc; rewrite Hq; apply (ao_quotas _ a Ha).
    + rewrite R. apply (ao_total _ a Ha).
    + rewrite Es, R. apply (ao_candidates _ a Ha).
Qed.

(** ** An agent is added *)

Lemma all_sorters_ok (g : FS -> option FS) (P Q : string -> FS -> Prop) a :
  (forall role fs, P role fs -> exists fs', g fs = Some fs' /\ Q role fs') ->
  (forall role fs, frameworkSorters a !! role = Some fs -> P role fs) ->
  exists x, all_framework_sorters g a = Some x
    /\ (forall role, is_Some (x !! role) <-> is_Some (frameworkSorters a !! role)) /\ forall role fs, x !! role = Some fs -> Q role fs.
Proof.
  intros Hg HP. unfold all_framework_sorters.
  destruct (each_progress (fun d x => (forall role, is_Some (x !! role) <-> is_Some (frameworkSorters a !! role))
      /\ forall role fs, x !! role = Some fs -> if decide (role ∈ d) then Q role fs else P role fs)
    (fun role m => fs ← m !! role; fs' ← g fs; Some (<[role := fs']> m)) (map fst (map_to_list (frameworkSorters a))) (frameworkSorters a))
    as (x & d & -> & [H1 H2] & Hp).
  - apply NoDup_fst_map_to_list.
  - split; [done|]. intros role fs. rewrite decide_False by (by intros H%elem_of_nil). apply HP.
  - intros d role m ([role' fs0] & -> & H0%elem_of_map_to_list)%list_elem_of_fmap Hnd _ [H1 H2]. cbn [fst] in *.
    destruct (proj2 (H1 role') ltac:(by eexists)) as [fs Hfs]. rewrite Hfs. cbn [mbind option_bind]. specialize (H2 role' fs Hfs) as HPf. rewrite decide_False in HPf by done.
    destruct (Hg role' fs HPf) as (fs' & -> & HQ). cbn [mbind option_bind]. eexists. split; [done|]. split.
    + intros r. destruct (decide (role' = r)) as [<-|Hne]; [rewrite lookup_insert_eq; split; by eexists|by rewrite lookup_insert_ne].
    + intros r y. intros [[<- <-]|[Hne Hy]]%lookup_insert_Some; [rewrite decide_True by left; done|]. specialize (H2 r y Hy).
      destruct (decide (r ∈ d)), (decide (r ∈ role' :: d)) as [i|i]; try done; [by destruct i; right|].
      apply elem_of_cons in i as [->|?]; done.
  - exists x. split_and!; [done|done|]. intros role fs Hfs. specialize (H2 role fs Hfs). rewrite decide_True in H2; [done|].
    rewrite Hp. destruct (proj1 (H1 role) ltac:(by eexists)) as [fs0 H0]. apply list_elem_of_fmap. exists (role, fs0). split; [done|by apply elem_of_map_to_list].
Qed.

(** What an agent brings: unshared scalar resources that are not allocated,
    whose reservations are for roles, and a region if the master has one. *)
Record agent_arrives (slaveId : string) (i : AgentInfo) (total : Resources) : Prop := {
  aa_id : info_id i = slaveId;
  aa_total : scalar_resources total;
  aa_bare : ResourceOps.unallocated total;
  aa_reserved : Forall reservation (to_list (scalars (reserved None total)));
  aa_domain : forall region, domain i = Some (Some region) -> exists r, master_domain options = Some (Some r);
  aa_attributes : Forall supported (info_attributes i);
}.

Lemma new_slave_ok slaveId i c u total :
  agent_arrives slaveId i total -> agent_ok options slaveId (with_maintenance u (new_slave i c true total ∅)).
Proof.
  intros [H1 H2 H3 H4 H5 H6]. assert (E : sum_resources ∅ = []) by (unfold sum_resources; by rewrite map_to_list_empty).
  assert (S : shared_ total = []) by (apply filter_false, (sc_unshared _ H2)).
  split; cbn [info slave_total totalOfferedOrAllocated slave_shared available with_maintenance new_slave]; rewrite ?E; try done; [apply scalar_nil|].
  intros k Hk. change (used [] k) with 0. by apply held_nonneg.
Qed.

Lemma addSlave_ok a slaveId i c u total :
  allocator_ok options a -> slaves a !! slaveId = None -> paused a = false \/ is_Some (expectedAgentCount a) -> agent_arrives slaveId i total ->
  exists a', addSlave_ options slaveId i c u total ∅ a = Some a' /\ allocator_ok options a'.
Proof.
  intros Ha Hn Hpa Har. assert (Hsl := new_slave_ok slaveId i c ((fun u => mkSlaveMaintenance u ∅ ∅) <$> u) total Har).
  destruct Har as [H1 H2 H3 H4 H5 _]. unfold addSlave_. rewrite bool_decide_eq_false_2 by (rewrite Hn; by intros [? ?]).
  rewrite (bool_decide_eq_true_2 (slaveId = info_id i)) by done. 
  replace (negb (negb (paused a) || bool_decide (is_Some (expectedAgentCount a)))) with false
    by (destruct Hpa as [->|Hpa]; [done|by rewrite (bool_decide_eq_true_2 _ Hpa), orb_true_r]).
  destruct (role_step_ok (roleTree a) (TrackReservations (reserved None total)) (tr_tree _ (ao_tracking _ a Ha)) H4) as (t & Et & T & L). cbn [role_step] in Et. rewrite Et. cbn [mbind option_bind].
  unfold scalar_quantities_of. rewrite scalars_scalar by done. destruct (scalar_from _ H2) as (q & -> & Wq & _). cbn [mbind option_bind].
  assert (Hnd : slaveId ∉ dom (slaves a)) by (by apply not_elem_of_dom).
  destruct (sorter_run_ok (roleSorter a) (AddSlave slaveId q) (tr_roles_ok _ (ao_tracking _ a Ha))) as (r & Er & R1 & R2 & R3 & R4); [split; [|done]; eexists; split; [apply (tr_agents _ (ao_tracking _ a Ha))|done]|].
  cbn [sorter_run call_spec agents_spec] in Er, R2, R3. rewrite Er. cbn [mbind option_bind].
  set (s := with_maintenance _ _) in *. set (b := with_tracking t r (frameworkSorters a) (with_quantities (Quantities.plus (totalScalarQuantities a) q) (set_slave slaveId s a))).
  assert (Hdom : dom (slaves b) = {[ slaveId ]} ∪ dom (slaves a)) by (unfold b; fields; by rewrite dom_insert_L).
  assert (Lf : forall loc, frameworks_of t loc = frameworks_of (roleTree a) loc) by apply (sl_frameworks _ _ L).
  destruct (all_sorters_ok (fun fs => sorter_addSlave fs slaveId q) (fun role fs => framework_sorter_ok a role (frameworks_of (roleTree a) (role_location role)) fs
       /\ forall p g k, wf_resource k -> sorter_held fs p g k = role_part role k (offered_to (slaves a) g p k))
    (fun role fs => framework_sorter_ok b role (frameworks_of t (role_location role)) fs
       /\ forall p g k, wf_resource k -> sorter_held fs p g k = role_part role k (offered_to (slaves a) g p k)) a) as (x & -> & X1 & X2).
  { intros role fs [[F1 F2 F3 F4] FB]. destruct (sorter_run_ok fs (AddSlave slaveId q) F1) as (fs' & E & A1 & A2 & A3 & A4); [split; [|done]; by eexists|].
    cbn [sorter_run call_spec agents_spec] in E, A2, A3. exists fs'. split; [done|].
    split; [|intros p g k Hk; rewrite A4 by done; by apply FB]. split; [done|..].
    - intros id. by rewrite A2, Lf.
    - intros id. rewrite A2. apply F3.
    - rewrite Hdom. by apply A3. }
  { intros role fs Hfs. split; [by apply (tr_sorter _ (ao_tracking _ a Ha))|]. intros p g k. by apply (bo_frameworks _ _ _ _ (ao_accounts _ a Ha)). }
  cbn [mbind option_bind]. rewrite map_to_list_empty. cbn [each mbind option_bind]. fields. eexists. split; [done|].
  apply generateOffers_ok; [|destruct (paused a && _); fields; rewrite dom_insert_L; set_solver].
  assert (E0 : slave_accounts s = (∅, [], [])) by (unfold slave_accounts, s; cbn [offeredOrAllocated totalOfferedOrAllocated totalAllocated with_maintenance new_slave]; unfold sum_resources; by rewrite map_to_list_empty).
  assert (Em : same_accounts_of (slaves a) (<[slaveId := s]> (slaves a))).
  { intros g. destruct (decide (slaveId = g)) as [<-|Hne]; [|by rewrite lookup_insert_ne]. rewrite lookup_insert_eq, Hn. cbn. by rewrite E0. }
  match goal with |- allocator_ok _ (if _ then _ else ?x) => enough (Hx : allocator_ok options x) by (destruct (paused a && _); [by apply paused_ok|done]) end.
  destruct Ha as [[T1 T2 T3 T4 T5 T6 T7] B A K Q W C]. split.
  - split; fields; try done.
    + intros role. by rewrite R2, Lf.
    + rewrite dom_insert_L. by apply R3.
    + intros role. by rewrite X1, Lf.
    + intros role fs Hfs. by destruct (X2 role fs Hfs) as [[F1 F2 F3 F4] _].
    + intros role id. rewrite Lf. apply T7.
  - destruct B as [M1 M2 M3]. split; fields; [..|done]; intros id f role Hf; rewrite Lf; [by apply (M1 id f)|]. intros Hin Hi. apply (M2 id f); [done|done|].
    by apply (accounts_idle _ _ _ _ Em).
  - intros g y. fields. intros [[<- <-]|[_ Hy]]%lookup_insert_Some; [done|by apply A].
  - eapply books_same; [exact K|..]; fields.
    + done.
    + intros g y. intros [[<- <-]|[_ Hy]]%lookup_insert_Some; [|by apply (bo_slaves _ _ _ _ K g)]. assert (O2 : totalOfferedOrAllocated s = []) by exact (f_equal (fun x => x.1.2) E0).
      assert (O3 : totalAllocated s = []) by exact (f_equal snd E0).
      split; rewrite ?O2, ?O3; try done; apply scalar_nil.
    + intros g id k role _ _ _. by rewrite Lf.
    + apply (sl_tracked _ _ L).
    + done.
    + intros role fs Hfs. left. destruct (proj1 (X1 role) ltac:(by eexists)) as [fs0 H0]. exists fs0. split; [done|]. intros p g k Hk.
      destruct (X2 role fs Hfs) as [_ E]. rewrite E by done. symmetry. by apply (bo_frameworks _ _ _ _ K).
  - assert (Lq : forall loc, quota_of t loc = quota_of (roleTree a) loc) by apply (sl_quota _ _ L). split; intros loc; fields; rewrite Lq; apply Q.
  - fields. by apply wf_plus.
  - fields. rewrite dom_insert_L. set_solver.
Qed.
End Handlers.
