(* ===== verification/Headroom.v ===== *)
(** * The headroom of a round is free

    At the start of a round of offers [__generateOffers] computes the headroom
    for unsatisfied guarantees from running totals: the quantities of the
    cluster less what the sorter of roles has allocated, less the reservations
    that are not allocated, less the revocable resources that are available.
    Here it is shown that these totals agree with the agents, so that the
    headroom is no more than what is available on them, unreserved and not
    revocable. *)

From stdpp Require Import base gmap strings list.
From Stdlib Require Import ZArith QArith.
From S2P Require Import Prelude Strings Roles Ranges Scalar Rounding Values Quantities Registry Resource Resources ResourceOps Conversions Attributes Quota SorterTree DrfSorter SorterAccounts SorterHoldings RoleTree RoleLedger Shrink Allocator OfferCycle AllocatorFrame AllocatorLaws AgentBooks AllocatorBooks AllocatorInvariant OfferSafety OfferRun AllocatorHistory.
Local Open Scope Z_scope.

(** ** Kinds of resources *)

Definition everything (r : Resource) : bool := true.

Lemma part_everything n rs : part everything n rs = ptotal n PScalar rs.
Proof. apply part_all, Forall_true. done. Qed.

Lemma respects_kinds : respects everything /\ respects (isReserved None) /\ respects isRevocable.
Proof.
  destruct respects_reserved as [R1 R2]. split_and!; [done| |done]. intros a b H. unfold isReserved. by rewrite (R1 a b H).
Qed.

(** Taking away elements that need not be apart from each other. *)
Lemma part_minus_items f n a b :
  respects f -> scalar_resources a -> Forall item b ->
  (forall k, wf_resource k -> measure b k PScalar <= amount_held a k) ->
  part f n (Resources.minus a b) = part f n a - part f n b.
Proof.
  intros Hf Ha Hb. revert a Ha. induction Hb as [|e b He Hb IH]; intros a Ha Hle; [rewrite (part_zsum f n []); unfold zsum; cbn; lia|].
  assert (Hs : scalar_resources [e]) by (apply scalar_iff; split; [by split|by constructor]).
  assert (H1 : forall k, wf_resource k -> measure [e] k PScalar <= amount_held a k).
  { intros k Hk. specialize (Hle k Hk). rewrite measure_cons in *. change (measure [] k PScalar) with 0.
    assert (H := measure_nonneg b k PScalar (Forall_impl _ _ _ Hb item_wf)). lia. }
  destruct (minus_items a [e] Ha ltac:(by constructor) H1) as [Hm Em].
  change (Resources.minus a (e :: b)) with (Resources.minus (Resources.minus a [e]) b). rewrite IH; [|done|].
  - assert (E : part f n a = part f n (Resources.minus a [e]) + part f n [e]) by (apply part_sum; try done; intros k Hk; rewrite Em by done; unfold amount_held; lia).
    rewrite E, (part_zsum f n (e :: b)), (part_zsum f n [e]), (part_zsum f n b), !zsum_cons. unfold zsum at 2. cbn. lia.
  - intros k Hk. rewrite Em by done. specialize (Hle k Hk). rewrite !measure_cons in *. change (measure [] k PScalar) with 0. lia.
Qed.

Lemma part_unallocate f n rs :
  (forall r, f (ResourceOps.with_allocation None r) = f r) -> part f n (unallocate rs) = part f n rs.
Proof.
  intros Hf. rewrite !part_zsum, unallocate_bare, zsum_map. apply zsum_ext. intros e _.
  unfold bare, map_resource. cbn [resource]. by rewrite Hf.
Qed.

(** What is available on an agent, of a kind. *)
Lemma available_part options f n g s :
  respects f -> (forall r, f (ResourceOps.with_allocation None r) = f r) -> agent_ok options g s ->
  part f n (available s) = part f n (slave_total s) - part f n (totalOfferedOrAllocated s).
Proof.
  intros Hf Hb [_ Ht _ Ho Hle Hu -> _ _]. rewrite Hu. unfold available_of.
  rewrite <- (part_unallocate f n (totalOfferedOrAllocated s) Hb). apply part_minus_items; [done|done|by apply used_items|done].
Qed.

(** Available and neither reserved nor revocable: what counts for quotas. *)
Lemma quota_part n rs :
  scalar_resources rs -> ptotal n PScalar rs - part (isReserved None) n rs - part isRevocable n rs <= part quota_resource n rs.
Proof.
  intros Hrs. rewrite <- part_everything, !part_zsum.
  enough (H : zsum (fun e => if everything (resource e) then pamount n PScalar e else 0) rs
    <= zsum (fun e => if quota_resource (resource e) then pamount n PScalar e else 0) rs
       + (zsum (fun e => if isReserved None (resource e) then pamount n PScalar e else 0) rs
          + zsum (fun e => if isRevocable (resource e) then pamount n PScalar e else 0) rs)) by lia.
  rewrite <- !zsum_plus. apply zsum_le. intros e He.
  assert (Hw : wf_ e) by (apply (proj1 (Forall_forall _ _) (wr_elements _ (sc_wf _ Hrs))); done).
  assert (Hs : rtype (resource e) = SCALAR) by (apply (proj1 (Forall_forall _ _) (sc_scalar _ Hrs)); done).
  assert (N : 0 <= pamount n PScalar e).
  { assert (N := ptotal_nonneg n PScalar [e] ltac:(by constructor)). rewrite ptotal_cons in N. unfold ptotal in N. cbn in N. lia. }
  unfold quota_resource, isReserved, everything. rewrite bool_decide_eq_true_2 by done. cbn [andb].
  destruct (isUnreserved (resource e)), (isRevocable (resource e)); cbn; lia.
Qed.

(** ** Reservations at the root *)

Definition root_get (o : option entries) (n : string) : Z := Quantities.get (default [] o) n.

Lemma root_apply_add tokens q t t' :
  apply_up tokens (fun c => Some (with_reservations_ (Quantities.plus (reservationScalarQuantities_ c) q) c)) t = Some t' ->
  root_reserved t' = (fun x => Quantities.plus x q) <$> root_reserved t.
Proof.
  revert t. induction tokens as [|token rest IH]; intros t H; cbn [apply_up] in H; apply bind_Some in H as (r & Hr & H); cbn [mbind option_bind] in H.
  - injection H as <-. unfold root_reserved. cbn in Hr. by rewrite lookup_insert_eq, Hr.
  - rewrite (IH _ H). unfold root_reserved. rewrite lookup_insert_ne; [done|].
    intros E. apply (f_equal length) in E. rewrite length_reverse in E. done.
Qed.

Lemma root_track_reservations l t t' q :
  Forall reservation l -> root_reserved t = Some q -> wf_quantities q -> for_each track_reservation l t = Some t' ->
  exists q', root_reserved t' = Some q' /\ wf_quantities q' /\ forall n, Quantities.get q' n = Quantities.get q n + zsum (fun r => quantity r n) l.
Proof.
  intros Hl. revert t q. induction Hl as [|r l Hr _ IH]; intros t q Hq Wq H; cbn in H.
  { injection H as <-. exists q. split_and!; [done..|]. intros n. unfold zsum. cbn. lia. }
  apply bind_Some in H as (t1 & H1 & H). unfold track_reservation in H1. rewrite (rv_reserved _ Hr) in H1. cbn [negb] in H1.
  destruct (reservation_spec r Hr) as (role & x & Er & Ex & Wx & Gx & _). rewrite Er, Ex in H1. cbn [mbind option_bind] in H1.
  apply bind_Some in H1 as (t2 & H2 & H1). apply root_index in H2. apply root_apply_add in H1. rewrite H2, Hq in H1. cbn in H1.
  destruct (IH t1 _ H1 (wf_plus _ _ Wq Wx) H) as (q' & E1 & E2 & E3). exists q'. split_and!; [done..|].
  intros n. rewrite E3, get_plus by (apply Wq || apply Wx). rewrite Gx, zsum_cons. lia.
Qed.

Lemma quantity_total n rs : scalar_resources rs -> zsum (fun r => quantity r n) (to_list rs) = ptotal n PScalar rs.
Proof.
  intros Hrs. rewrite <- part_everything, part_zsum. unfold to_list. rewrite zsum_map. apply zsum_ext. intros e He.
  assert (Hs : rtype (resource e) = SCALAR) by (apply (proj1 (Forall_forall _ _) (sc_scalar _ Hrs)); done).
  unfold quantity, pamount, everything, string_eqb, dec_eqb, rtype in *. destruct (value (resource e)); [|done..].
  by destruct (decide _), (bool_decide_reflect (Resource.name (resource e) = n)).
Qed.

(** ** The totals of the cluster *)

Definition total_of (m : gmap string Resources) (n : string) : Z := agent_sum (ptotal n PScalar) m.
Definition reserved_of (m : gmap string Resources) (n : string) : Z := agent_sum (part (isReserved None) n) m.

Section Totals.
  Context {RS FS : Type} {OR : SorterOps RS} {LR : SorterLaws RS} {OF : SorterOps FS} {LF : SorterLaws FS} (options : Options).
  Implicit Types a : Allocator RS FS.

(** The quantities of the cluster and the reservations at the root of the tree of
    roles are those of the agents. *)
Record totals_ok a : Prop := {
  to_total : forall n, Quantities.get (totalScalarQuantities a) n = total_of (slave_total <$> slaves a) n;
  to_reserved : forall n, root_get (root_reserved (roleTree a)) n = reserved_of (slave_total <$> slaves a) n;
}.

Lemma kept_totals a a' : kept a a' -> totals_ok a -> totals_ok a'.
Proof. intros K [H1 H2]. unfold kept, account in K. injection K as E1 E2 E3. by split; rewrite ?E1, ?E2, ?E3. Qed.

Lemma new_totals : totals_ok (new_allocator (RS := RS) (FS := FS) options).
Proof. split; intros n; cbn; rewrite fmap_empty; done. Qed.

Lemma agent_sum_insert f (m : gmap string Resources) g rs :
  m !! g = None -> agent_sum f (<[g := rs]> m) = f rs + agent_sum f m.
Proof. intros H. unfold agent_sum. by rewrite (zsum_perm _ _ _ (map_to_list_insert _ _ _ H)), zsum_cons. Qed.

(** What an agent adds when it comes. *)
Lemma addSlave_totals a g i c u total a' :
  allocator_ok options a -> agent_arrives options g i total -> addSlave_ options g i c u total ∅ a = Some a' -> totals_ok a -> totals_ok a'.
Proof.
  intros Ha Har H [T1 T2]. unfold addSlave_ in H. case_bool_decide as Hn; [done|]. destruct (negb _); [done|]. destruct (negb _); [done|].
  apply bind_Some in H as (t & Ht & H). apply bind_Some in H as (q & Hq & H). apply bind_Some in H as (r & _ & H). apply bind_Some in H as (fss & _ & H).
  rewrite map_to_list_empty in H. cbn [each mbind option_bind] in H. injection H as <-.
  assert (K : forall (x : Allocator RS FS) (b : bool) ids, kept x (generateOffers ids (if b then with_paused false None x else x))).
  { intros x b ids. unfold kept. rewrite (generate_kept ids). by destruct b. }
  eapply kept_totals; [apply K|]. clear K.
  assert (Hg : (slave_total <$> slaves a) !! g = None) by (rewrite lookup_fmap; destruct (slaves a !! g); [by destruct Hn; eexists|done]).
  assert (Hs := aa_total _ _ _ _ Har). assert (Ef : scalars (reserved None total) = reserved None total) by (by apply scalars_scalar, scalar_filter).
  assert (Tr := tr_tree _ (ao_tracking _ a Ha)).
  destruct (ts_root _ (tb_shape _ (ti_books _ Tr))) as [root Hroot]. assert (B := tb_ok _ (ti_books _ Tr) [] root Hroot).
  unfold trackReservations in Ht. assert (Hr := aa_reserved _ _ _ _ Har). rewrite Ef in Ht, Hr.
  destruct (root_track_reservations _ (roleTree a) t (reservationScalarQuantities_ root) Hr) as (q' & E1 & _ & E2); [unfold root_reserved; by rewrite Hroot|apply B|done|].
  unfold scalar_quantities_of in Hq. rewrite scalars_scalar in Hq by done. destruct (scalar_from _ Hs) as (q0 & Eq & Wq & Gq). rewrite Hq in Eq. injection Eq as <-.
  split; intros n; fields; rewrite fmap_insert; unfold total_of, reserved_of; rewrite agent_sum_insert by done.
  - rewrite get_plus by (apply (ao_total _ a Ha) || apply Wq). rewrite T1, Gq. unfold total_of. cbn. lia.
  - unfold root_get. rewrite E1. cbn [default from_option id]. rewrite E2. specialize (T2 n). unfold root_get, root_reserved in T2. rewrite Hroot in T2. cbn [fmap option_fmap option_map default from_option id] in T2.
    rewrite T2, quantity_total by (by apply scalar_filter). cbn. unfold reserved_of, part. change (ResourceOps.filter (isReserved None) total) with (reserved None total). lia.
Qed.

(** ** The running totals cover what is offered *)

Definition offers_of a : gmap string Resources := totalOfferedOrAllocated <$> slaves a.

Lemma offers_scalar a g rs : allocator_ok options a -> offers_of a !! g = Some rs -> scalar_resources rs.
Proof.
  intros Ha H. unfold offers_of in H. rewrite lookup_fmap in H. destruct (slaves a !! g) as [s|] eqn:Hs; [|done]. injection H as <-.
  apply (sl_sum s), (bo_slaves _ _ _ _ (ao_accounts _ a Ha) g s Hs).
Qed.

Lemma offers_held a g k : amount_held (default [] (offers_of a !! g)) k = offered_sum (slaves a) g k.
Proof. unfold offers_of, offered_sum. rewrite lookup_fmap. by destruct (slaves a !! g). Qed.

(** What is held on an agent is held for a role that has the framework. *)
Lemma offered_role a g k :
  allocator_ok options a -> wf_resource k -> 0 < offered_sum (slaves a) g k -> is_Some (allocation_role k).
Proof.
  intros Ha Hk H. assert (K := ao_accounts _ a Ha). unfold offered_sum in H. destruct (slaves a !! g) as [s|] eqn:Hs; [|lia].
  rewrite (sl_total s (bo_slaves _ _ _ _ K g s Hs) k Hk) in H.
  destruct (allocation_role k) as [role|] eqn:Er; [by eexists|]. exfalso.
  enough (E : agent_sum (fun rs => amount_held rs k) (offeredOrAllocated s) = 0) by lia.
  unfold agent_sum. transitivity (zsum (fun _ : string * Resources => 0) (map_to_list (offeredOrAllocated s))).
  - apply zsum_ext. intros [id rs] Hin%elem_of_map_to_list. cbn.
    assert (N := offered_to_nonneg _ _ _ _ g id k K Hk). destruct (decide (0 < offered_to (slaves a) g id k)) as [Hp|Hp].
    + destruct (bo_member _ _ _ _ K g id k Hk Hp) as (role & E & _). congruence.
    + unfold offered_to in *. rewrite Hs, Hin in *. cbn in *. lia.
  - clear. induction (map_to_list (offeredOrAllocated s)) as [|x l IH]; [done|]. rewrite zsum_cons. lia.
Qed.

Lemma sorter_covers a n : allocator_ok options a -> total_of (offers_of a) n <= Quantities.get (sorter_total (roleSorter a)) n.
Proof.
  intros Ha. apply sorter_total_covers; [apply (tr_roles_ok _ (ao_tracking _ a Ha))|intros g rs; by apply offers_scalar|].
  intros g k Hk. rewrite offers_held. intros Hp. destruct (offered_role a g k Ha Hk Hp) as [role Er]. exists role.
  rewrite (bo_roles _ _ _ _ (ao_accounts _ a Ha) role g k Hk). unfold role_part. by rewrite decide_True.
Qed.

(** The root of the tree of roles has no more reserved resources offered than the
    agents. *)
Lemma location_sum (l : list (list string)) k z :
  NoDup l -> 0 <= z -> zsum (fun loc => location_part loc k z) l <= z.
Proof.
  intros Hl Hz. unfold location_part. destruct (allocation_role k) as [role|].
  2:{ enough (zsum (fun _ : list string => 0) l = 0) by lia. clear. induction l as [|x l IH]; [done|]. rewrite zsum_cons. lia. }
  induction Hl as [|loc l Hn _ IH]; [done|]. rewrite zsum_cons. destruct (decide (role_location role = loc)) as [E|]; [|lia].
  enough (zsum (fun loc => if decide (role_location role = loc) then z else 0) l = 0) by lia.
  transitivity (zsum (fun _ : list string => 0) l); [|clear; induction l as [|x l IH]; [done|]; rewrite zsum_cons; lia].
  apply zsum_ext. intros x Hx. rewrite decide_False; [done|]. intros E'. apply Hn. congruence.
Qed.

Lemma root_offered a r n :
  allocator_ok options a -> roleTree a !! [] = Some r ->
  Quantities.get (scalarsTotal (offeredOrAllocatedReserved r)) n <= reserved_of (offers_of a) n.
Proof.
  intros Ha Hr. assert (Tr := tr_tree _ (ao_tracking _ a Ha)). assert (Hb := ti_books _ Tr).
  assert (B := rb_tracked _ (tb_ok _ Hb [] r Hr) OfferedReserved). assert (E := bk_sum _ B n). cbn [as_allocation totals tracked] in E. rewrite E. clear E.
  assert (V := proj1 (proj2 respects_kinds)). unfold reserved_of.
  transitivity (agent_sum (ptotal n PScalar) (ResourceOps.filter (isReserved None) <$> offers_of a)).
  2:{ unfold agent_sum. rewrite map_to_list_fmap, zsum_map. apply Z.eq_le_incl, zsum_ext. by intros [g rs] _. }
  assert (Hoff : forall g, scalar_resources (default [] (offers_of a !! g))).
  { intros g. destruct (offers_of a !! g) eqn:Eo; [by apply (offers_scalar a g)|apply scalar_nil]. }
  apply agent_sum_mono; [done|..].
  - intros g rs. rewrite lookup_fmap. destruct (offers_of a !! g) as [x|] eqn:Eo; [|done]. intros [= <-].
    apply ptotal_nonneg, wr_elements, sc_wf, scalar_filter. by apply (offers_scalar a g).
  - intros g. rewrite lookup_fmap. set (rs := default [] (offers_of a !! g)).
    replace (default [] (ResourceOps.filter (isReserved None) <$> offers_of a !! g)) with (ResourceOps.filter (isReserved None) rs)
      by (unfold rs; by destruct (offers_of a !! g)).
    change (default [] (scalars_ (offeredOrAllocatedReserved r) !! g)) with (on_agent (as_allocation (tracked OfferedReserved r)) g).
    assert (Hon := on_agent_scalar _ g B). apply scalar_total_le; [done|apply scalar_filter, Hoff|]. apply scalar_included; [done|apply scalar_filter, Hoff|].
    intros k Hk.
    assert (E := mu_is_sum (tracked_mu OfferedReserved g k) (roleTree a) [] (tb_shape _ Hb) ltac:(by eexists)). unfold mu_at in E. rewrite Hr in E.
    transitivity (tracked_mu OfferedReserved g k r); [done|]. rewrite E. unfold amount_held. rewrite measure_filter by done.
    rewrite (zsum_ext _ (fun loc => tracked_share (slaves a) OfferedReserved loc g k)) by (intros loc _; by apply (bo_tree _ _ _ _ (ao_accounts _ a Ha) OfferedReserved loc g k Hk)).
    unfold tracked_share, counted. destruct (isReserved None k).
    + change (measure rs k PScalar) with (amount_held rs k). rewrite <- (offers_held a g k). apply location_sum; [apply beneath_nodup|]. apply held_nonneg, Hoff.
    + clear. induction (beneath (roleTree a) []) as [|x l IH]; [done|]. rewrite zsum_cons. lia.
Qed.

(** ** The headroom *)

Lemma each_revocable n l q h :
  wf_quantities q -> (forall s, s ∈ l -> scalar_resources (available s)) ->
  each (fun s q => revocable ← fromScalarResources (scalars (revocable_ (available s))); Some (Quantities.minus q revocable)) l q = Some h ->
  Quantities.get h n = Z.max 0 (Quantities.get q n - zsum (fun s => part isRevocable n (available s)) l).
Proof.
  revert q. induction l as [|s l IH]; intros q Wq Hl H; cbn in H.
  - injection H as <-. assert (N := get_nonneg q n Wq). unfold zsum. cbn. lia.
  - assert (Hs := scalar_filter isRevocable _ (Hl s ltac:(by left))). change (ResourceOps.filter isRevocable (available s)) with (revocable_ (available s)) in Hs.
    rewrite scalars_scalar in H by done. destruct (scalar_from _ Hs) as (x & Ex & Wx & Gx). rewrite Ex in H. cbn [mbind option_bind] in H.
    rewrite (IH _ (wf_minus _ x Wq) ltac:(intros y Hy; apply Hl; by right) H), get_minus, Gx, zsum_cons by done.
    change (ptotal n PScalar (revocable_ (available s))) with (part isRevocable n (available s)).
    assert (N : 0 <= zsum (fun s => part isRevocable n (available s)) l) by (apply zsum_nonneg; intros y Hy; apply part_nonneg_, Hl; by right). lia.
Qed.

Lemma available_sum f n a :
  allocator_ok options a -> respects f -> (forall r, f (ResourceOps.with_allocation None r) = f r) ->
  zsum (fun s => part f n (available s)) (map snd (map_to_list (slaves a)))
  = agent_sum (part f n) (slave_total <$> slaves a) - agent_sum (part f n) (offers_of a).
Proof.
  intros Ha Hf Hb. unfold agent_sum, offers_of. rewrite !map_to_list_fmap, !zsum_map.
  assert (H : zsum (fun x => part f n (available x.2) + part f n (totalOfferedOrAllocated x.2)) (map_to_list (slaves a))
    = zsum (fun x => part f n (slave_total x.2)) (map_to_list (slaves a))).
  { apply zsum_ext. intros [g s] Hin%elem_of_map_to_list. cbn [snd]. rewrite (available_part options f n g s Hf Hb (ao_agents _ a Ha g s Hin)). lia. }
  rewrite zsum_plus in H. unfold prod_map. cbn [fst snd] in *. lia.
Qed.

(** The headroom of the round is available on the agents, unreserved and not
    revocable. *)
Lemma headroom_is_free a h n :
  allocator_ok options a -> totals_ok a -> initial_headroom a = Some h -> Quantities.get h n <= free (slaves a) n.
Proof.
  intros Ha [T1 T2] H. unfold initial_headroom in H. apply bind_Some in H as (r & Hr & H). destruct respects_kinds as (R1 & R2 & R3).
  assert (Hb := tb_ok _ (ti_books _ (tr_tree _ (ao_tracking _ a Ha))) [] r Hr).
  assert (Hav : forall s, s ∈ map snd (map_to_list (slaves a)) -> scalar_resources (available s)).
  { intros s ([g s'] & -> & Hin%elem_of_map_to_list)%list_elem_of_fmap. by eapply agent_available, (ao_agents _ a Ha g). }
  assert (W1 := ao_total _ a Ha). assert (W2 := sorter_total_ok _ (tr_roles_ok _ (ao_tracking _ a Ha))).
  assert (W3 : wf_quantities (reservationScalarQuantities_ r)) by apply Hb.
  assert (W4 := bk_totals _ (rb_tracked _ Hb OfferedReserved)). cbn in W4.
  apply (each_revocable n) in H; [|by repeat apply wf_minus|done]. rewrite H, !get_minus by (by repeat apply wf_minus).
  assert (S := sorter_covers a n Ha). assert (O := root_offered a r n Ha Hr).
  specialize (T1 n). specialize (T2 n). unfold root_get, root_reserved in T2. rewrite Hr in T2. cbn [fmap option_fmap option_map default from_option id] in T2.
  assert (F0 := free_nonneg options a n (ao_agents _ a Ha)).
  assert (E1 := available_sum everything n a Ha R1 ltac:(done)). assert (E2 := available_sum (isReserved None) n a Ha R2 ltac:(done)).
  assert (Hfree : zsum (fun s => part everything n (available s)) (map snd (map_to_list (slaves a)))
    <= free (slaves a) n + (zsum (fun s => part (isReserved None) n (available s)) (map snd (map_to_list (slaves a)))
       + zsum (fun s => part isRevocable n (available s)) (map snd (map_to_list (slaves a))))).
  { unfold free, map_sum. rewrite !zsum_map, <- !zsum_plus. apply zsum_le. intros [g s] Hin. cbn [fst snd]. rewrite part_everything.
    assert (Q := quota_part n (available s) ltac:(apply Hav; by apply (list_elem_of_fmap_2 snd _ (g, s)))). lia. }
  assert (Ee : forall m, agent_sum (part everything n) m = total_of m n) by (intros m; apply zsum_ext; intros x _; apply part_everything).
  assert (V : 0 <= zsum (fun s => part isRevocable n (available s)) (map snd (map_to_list (slaves a)))) by (apply zsum_nonneg; intros s Hs; by apply part_nonneg_, Hav).
  rewrite !Ee in E1. fold (reserved_of (slave_total <$> slaves a) n) (reserved_of (offers_of a) n) in E2. lia.
Qed.
End Totals.
