(* ===== verification/OfferReturns.v ===== *)
(** * Offers that come back

    The calls with which the master returns resources to the allocator, puts
    offers to use and takes a framework off a role: they pass their checks and
    keep the invariant, when they return what was offered. *)

From stdpp Require Import base gmap strings list.
From Stdlib Require Import ZArith QArith.
From S2P Require Import Prelude Strings Roles Ranges Scalar Values Quantities Registry Resource Resources ResourceOps Conversions Attributes Quota SorterTree DrfSorter SorterAccounts SorterHoldings RoleTree RoleLedger Shrink Allocator OfferCycle AllocatorLaws AgentBooks AllocatorBooks AllocatorInvariant OfferSafety OfferRun AllocatorHistory.
Local Open Scope Z_scope.

(** ** What is left of an agent *)

(** Elements of the same kind and value count the same. *)
Definition keyed (F : Resource_ -> Z) : Prop :=
  forall e e', item e -> item e' -> same_key (resource e) (resource e') = true -> value (resource e) = value (resource e') -> F e = F e'.

Lemma item_units e v : item e -> value (resource e) = VScalar v -> Resources.whole (resource e) = false -> units e PScalar = v.
Proof. intros He Ve W. unfold units. by rewrite W, Ve. Qed.

(** Elements of other kinds do not count. *)
Lemma apart_measure x e rest :
  item x -> item e -> Forall item rest -> Forall (apart x) rest -> same_key (resource x) (resource e) = true ->
  Resources.whole (resource x) = false -> measure rest (resource e) PScalar = 0.
Proof.
  intros Hx He Hrest Hap Hs W. induction Hrest as [|y rest Hy Hrest IH]; [done|].
  apply Forall_cons in Hap as [Hxy Hap]. rewrite measure_cons, IH by done. unfold Resources.weight. destruct (same_key (resource e) (resource y)) eqn:E; [|done].
  exfalso. unfold apart in Hxy. rewrite addable_key in Hxy by apply (si_wf _ (proj2 Hx)).
  rewrite (be_trans (resource x) (resource e) (resource y)) in Hxy by (done || apply si_wf; apply Hx || apply He || apply Hy).
  unfold Resources.whole in W. rewrite (si_unshared _ (proj2 Hx)) in *. cbn in *. by rewrite W in Hxy.
Qed.

(** Elements of one kind that are not divided have one value. *)
Lemma whole_value x e vx ve :
  same_key (resource x) (resource e) = true -> value (resource x) = VScalar vx -> value (resource e) = VScalar ve ->
  Resources.whole (resource x) = true -> vx = ve.
Proof.
  intros Hs Vx Ve W. unfold same_key in Hs. rewrite W in Hs. unfold resource_eqb in Hs. breflect.
  match goal with H : value_eqb _ _ = true |- _ => rename H into L end. rewrite Vx, Ve in L. cbn in L. breflect. lia.
Qed.

(** What is left of an element adds up to it with what was taken. *)
Lemma left_over F x e vx ve :
  combined F -> item x -> item e -> same_key (resource x) (resource e) = true -> value (resource x) = VScalar vx -> value (resource e) = VScalar ve ->
  ve < vx ->
  let y := as_element (with_value (VScalar (vx - ve)) (resource x)) in is_negative y || isEmpty_ y = false /\ F y = F x - F e.
Proof.
  intros HF Hx He Hs Vx Ve Hlt y. assert (W : Resources.whole (resource x) = false).
  { destruct (Resources.whole (resource x)) eqn:W; [|done]. assert (vx = ve) by (by eapply whole_value). lia. }
  assert (Hm : item y).
  { destruct Hx as [_ [A B C D]]. split; [done|]. split; cbn; [apply wf_with_value; [done|cbn; lia]|done|done|]. apply Z.eqb_neq. lia. }
  assert (Add : addable (resource y) (resource e) = true).
  { rewrite addable_key by apply (si_wf _ (proj2 Hm)). cbn [resource as_element y].
    assert (K : same_key (with_value (VScalar (vx - ve)) (resource x)) (resource e) = true) by (rewrite same_key_with_value; [done|cbn; by rewrite Vx|done]).
    rewrite K. unfold Resources.whole in W. change (exclusive (with_value (VScalar (vx - ve)) (resource x))) with (exclusive (resource x)).
    change (shared (with_value (VScalar (vx - ve)) (resource x))) with (shared (resource x)).
    rewrite (si_unshared _ (proj2 Hx)) in *. cbn [orb] in *. by rewrite W. }
  assert (Ep : plus_ y e = x).
  { rewrite (proj1 Hx) at 1. unfold plus_, y. cbn. unfold resource_plus, value_plus. cbn. rewrite Ve. clear -Vx.
    destruct x as [[] ?]. cbn in *. subst. unfold as_element, with_value. cbn. by replace (vx - ve + ve) with vx by lia. }
  assert (G := HF _ e Hm He Add). rewrite Ep in G. split; [|lia].
  unfold is_negative, isEmpty_, is_shared_, isEmpty. cbn. apply orb_false_iff. split; [|apply Z.eqb_neq; lia]. apply andb_false_iff. right. apply Z.ltb_ge. lia.
Qed.

Lemma minus_one F a e :
  combined F -> keyed F -> scalar_resources a -> item e -> included [e] a ->
  zsum F (Resources.minus a [e]) = zsum F a - F e.
Proof.
  intros HF HK Ha He Hi. assert (Hw := item_wf e He). destruct (item_value _ (proj2 He)) as (ve & Ve & Pe).
  assert (Hle : Resources.weight (resource e) PScalar e <= measure a (resource e) PScalar).
  { specialize (Hi (resource e) PScalar (si_wf _ (proj2 He))). rewrite measure_cons in Hi. change (measure [] (resource e) PScalar) with 0 in Hi. lia. }
  assert (Wk : Resources.weight (resource e) PScalar e = units e PScalar) by (unfold Resources.weight; by rewrite be_refl by apply (si_wf _ (proj2 He))).
  assert (Pu : 0 < units e PScalar).
  { unfold units. destruct (Resources.whole (resource e)); [|cbn; by rewrite Ve]. rewrite (proj1 He). cbn. lia. }
  destruct (proj1 (scalar_iff a) Ha) as [_ Hit]. change (Resources.minus a [e]) with (Resources.subtract a e).
  destruct (subtract_cases a e Hw) as [[Hn _]|(x & rest & Hp & Hs & Hr)].
  { exfalso. destruct (measure_pick a (resource e) PScalar (wr_elements _ (sc_wf _ Ha))) as (y & r & Hp & Hk); [lia|].
    rewrite Hp in Hn, Hit. apply Forall_cons in Hn as [Hn _], Hit as [Hy _].
    rewrite subtractable_key in Hn by apply (si_wf _ (proj2 Hy)). apply (be_sym (resource e)) in Hk; [congruence|apply (si_wf _ (proj2 He))|apply (si_wf _ (proj2 Hy))]. }
  rewrite Hp in Hit. apply Forall_cons in Hit as [Hx Hrest]. destruct (item_value _ (proj2 Hx)) as (vx & Vx & Px).
  rewrite subtractable_key in Hs by apply (si_wf _ (proj2 Hx)).
  assert (Em : minus_ x e = as_element (with_value (VScalar (vx - ve)) (resource x))).
  { rewrite (proj1 Hx) at 1. unfold minus_, is_shared_. cbn. unfold resource_minus, value_minus. by rewrite Vx, Ve. }
  assert (Hv : ve <= vx).
  { destruct (Resources.whole (resource x)) eqn:W; [by rewrite (whole_value x e vx ve)|].
    destruct (wr_apart _ (wf_perm _ _ Hp (sc_wf _ Ha))) as [Hap _]. rewrite Hp, measure_cons, (apart_measure x e rest), Wk in Hle by done.
    unfold Resources.weight in Hle. rewrite (be_sym (resource x)) in Hle by (done || apply si_wf; apply Hx || apply He).
    rewrite (item_units e ve), (item_units x vx) in Hle by (done || by rewrite <- (same_key_whole _ _ Hs)). lia. }
  rewrite (zsum_perm _ _ _ Hp), (zsum_perm _ _ _ Hr), zsum_cons, Em. destruct (decide (vx = ve)) as [->|Hne].
  - unfold isEmpty_, is_shared_, isEmpty. cbn. rewrite Z.sub_diag, orb_true_r. rewrite (HK x e) by (done || congruence). lia.
  - destruct (left_over F x e vx ve HF Hx He Hs Vx Ve) as [-> Ey]; [lia|]. rewrite zsum_cons, Ey. lia.
Qed.

Lemma sum_minus F a b :
  combined F -> keyed F -> scalar_resources a -> Forall item b ->
  (forall k, wf_resource k -> measure b k PScalar <= amount_held a k) ->
  zsum F (Resources.minus a b) = zsum F a - zsum F b.
Proof.
  intros HF HK Ha Hb. revert a Ha. induction Hb as [|e b He Hb IH]; intros a Ha Hle; [change (Resources.minus a []) with a; change (zsum F []) with 0; lia|].
  assert (Hs : scalar_resources [e]) by (apply scalar_iff; split; [by split|by constructor]).
  assert (Hi : included [e] a).
  { apply scalar_included; [done..|]. intros k Hk. specialize (Hle k Hk). unfold amount_held at 1. rewrite measure_cons in *.
    change (measure [] k PScalar) with 0. assert (H := measure_nonneg b k PScalar (Forall_impl _ _ _ Hb item_wf)). lia. }
  change (Resources.minus a (e :: b)) with (Resources.minus (Resources.minus a [e]) b). rewrite IH; [|by apply scalar_minus|].
  - rewrite minus_one, zsum_cons by done. lia.
  - intros k Hk. specialize (Hle k Hk). rewrite held_minus by done. unfold amount_held at 2. rewrite measure_cons in *. change (measure [] k PScalar) with 0. lia.
Qed.

Lemma bare_keyed k : wf_resource k -> keyed (fun e => Resources.weight k PScalar (bare e)).
Proof.
  intros Hk e e' He He' Hs Hv.
  assert (Wf : forall e, item e -> wf_resource (ResourceOps.with_allocation None (resource e))).
  { intros x Hx. destruct (bare_item x Hx) as [_ [? _ _ _]]. done. }
  unfold Resources.weight, bare, map_resource. cbn [resource sharedCount].
  rewrite (same_key_subst k (ResourceOps.with_allocation None (resource e)) (ResourceOps.with_allocation None (resource e')))
    by (try done; try (by apply Wf); by apply bare_key).
  destruct (same_key k _); [|done]. unfold units. cbn [resource sharedCount].
  change (Resources.whole (ResourceOps.with_allocation None (resource e))) with (Resources.whole (resource e)).
  change (Resources.whole (ResourceOps.with_allocation None (resource e'))) with (Resources.whole (resource e')).
  rewrite (same_key_whole _ _ Hs). rewrite (proj1 He), (proj1 He'). cbn. by rewrite Hv.
Qed.

Lemma used_minus a b k :
  scalar_resources a -> scalar_resources b -> included b a -> wf_resource k -> used (Resources.minus a b) k = used a k - used b k.
Proof.
  intros Ha Hb Hi Hk. rewrite !used_zsum. apply sum_minus; [by apply bare_combined|by apply bare_keyed|done|by apply scalar_iff in Hb as [_ ?]|].
  intros k' Hk'. by apply Hi.
Qed.

Lemma used_nonneg rs k : scalar_resources rs -> 0 <= used rs k.
Proof.
  intros H. unfold used. apply measure_nonneg. eapply Forall_impl; [by apply used_items|apply item_wf].
Qed.

(** An agent gets resources back. *)
Lemma returned_ok options g s o y :
  agent_ok options g s -> scalar_resources y -> included y (totalOfferedOrAllocated s) ->
  let s' := with_offers o (Resources.minus (totalOfferedOrAllocated s) y) s in
  agent_ok options g s'
  /\ forall k, wf_resource k -> amount_held (available s') k = amount_held (available s) k + used y k.
Proof.
  intros Hs Hy Hi s'. assert (Hok : agent_ok options g s').
  { destruct Hs as [H1 H2 H3 H4 H5 H6 H7 H8 H9]. split; cbn; try done; [by apply scalar_minus|]. intros k Hk. rewrite used_minus by done.
    specialize (H5 k Hk). assert (G := used_nonneg y k Hy). lia. }
  split; [done|]. intros k Hk. destruct (agent_available _ _ _ Hs) as (_ & _ & A), (agent_available _ _ _ Hok) as (_ & _ & A').
  rewrite A, A' by done. cbn [slave_total totalOfferedOrAllocated with_offers s']. rewrite used_minus by (done || apply Hs). lia.
Qed.

Section Returns.
  Context {RS FS : Type} {OR : SorterOps RS} {LR : SorterLaws RS} {OF : SorterOps FS} {LF : SorterLaws FS} (options : Options).
  Implicit Types a : Allocator RS FS.

(** ** Offers are put to use *)

(** What the master knows of resources that it hands back or puts to use: they
    are offered to the framework on the agent, in one role. *)
Record outstanding (a : Allocator RS FS) (id g role : string) (rs : Resources) : Prop := {
  ou_scalar : scalar_resources rs;
  ou_role : to_role role rs;
  ou_twins : no_twin_disks rs;
  ou_some : rs <> [];
  ou_offered : forall k, wf_resource k -> amount_held rs k <= offered_to (slaves a) g id k;
}.

Lemma outstanding_there a id g role rs :
  accounts_ok a -> outstanding a id g role rs ->
  (exists s, slaves a !! g = Some s) /\ id ∈ frameworks_of (roleTree a) (role_location role).
Proof.
  intros B [O1 O2 O3 O4 O5]. destruct (held_some rs O1 O4) as (k & Hk & Hpos). specialize (O5 k Hk). split.
  - unfold offered_to in O5. destruct (slaves a !! g) as [s|]; [by eexists|lia].
  - destruct (bo_member _ _ _ _ B g id k Hk) as (x & E & Hx); [lia|]. assert (Er : allocation_role k = Some role).
    { destruct (decide (allocation_role k = Some role)); [done|]. rewrite (to_role_held role rs k O2) in Hpos by done. lia. }
    rewrite Er in E. by injection E as <-.
Qed.

Lemma use_chargeable t role rs fid :
  scalar_resources rs -> to_role role rs -> fid ∈ frameworks_of t (role_location role) ->
  is_Some (allocations (nonRevocable (unreserved (scalars rs)))) /\ chargeable (allocated_by_role rs) (ledger_of t).
Proof.
  intros Hs Hr Hid. unfold allocated_by_role, by_role. rewrite scalars_scalar by done.
  assert (Hs' : scalar_resources (nonRevocable (unreserved rs))) by (by repeat apply scalar_filter).
  assert (Hr' : to_role role (nonRevocable (unreserved rs))) by (by repeat apply to_role_filter).
  destruct (decide (nonRevocable (unreserved rs) = [])) as [->|Hne].
  - split; [by eexists|]. change (allocations []) with (Some (∅ : gmap string Resources)). cbn [from_option id]. rewrite map_to_list_empty. constructor.
  - rewrite (allocations_to_role role _ Hs' Hr' Hne). split; [by eexists|]. cbn [from_option id]. rewrite map_to_list_singleton.
    constructor; [|constructor]. split; [done|]. table. set_solver.
Qed.

(** The tree changes, and what is in use on one agent. *)
Lemma used_allocator a t g s rs :
  allocator_ok options a -> slaves a !! g = Some s -> tree_inv t ->
  (forall loc, frameworks_of t loc = frameworks_of (roleTree a) loc) -> (forall loc, quota_of t loc = quota_of (roleTree a) loc) ->
  books_ok t (roleSorter a) (frameworkSorters a) (<[g := with_allocated_total rs s]> (slaves a)) ->
  allocator_ok options (set_slave g (with_allocated_total rs s) (with_tracking t (roleSorter a) (frameworkSorters a) a)).
Proof.
  intros [T M A B Q W C] Hs Ht Hf Hq Hb. assert (D : dom (<[g := with_allocated_total rs s]> (slaves a)) = dom (slaves a)).
  { rewrite dom_insert_L. apply elem_of_dom_2 in Hs. set_solver. }
  split; fields; try done.
  - destruct T as [T1 T2 T3 T4 T5 T6 T7]. split; fields; try done.
    + intros role. by rewrite Hf.
    + by rewrite D.
    + intros role. by rewrite Hf.
    + intros role fs Hfs. rewrite Hf. destruct (T6 role fs Hfs) as [F1 F2 F3 F4]. split; try done. fields. by rewrite D.
    + intros role id. rewrite Hf. apply T7.
  - destruct M as [M1 M2 M3]. split; fields; [..|done]; intros id f role; rewrite Hf; [apply M1|]. intros Hid Hin Hi. apply (M2 id f role Hid Hin).
    intros g' k Hk Er. rewrite <- (Hi g' k Hk Er). unfold offered_to. destruct (decide (g = g')) as [<-|Hn]; [by rewrite lookup_insert_eq, Hs|by rewrite lookup_insert_ne].
  - intros g' x. fields. intros [[<- <-]|[_ Hx]]%lookup_insert_Some; [|by apply A]. destruct (A g s Hs) as [A1 A2 A3 A4 A5 A6 A7 A8 A9]. by split.
  - split; intros loc; rewrite Hq; apply Q.
  - by rewrite D.
Qed.

Lemma transition_ok a id g role rs s :
  allocator_ok options a -> outstanding a id g role rs -> slaves a !! g = Some s ->
  (forall k, wf_resource k -> amount_held (totalAllocated s) k + amount_held rs k <= amount_held (totalOfferedOrAllocated s) k) ->
  exists a', transitionOfferedToAllocated g rs a = Some a' /\ allocator_ok options a'.
Proof.
  intros Ha Ho Hs Hle. assert (B := ao_accounts _ a Ha). destruct (outstanding_there a id g role rs B Ho) as [_ Hid]. destruct Ho as [O1 O2 O3 O4 O5].
  assert (Su := sl_use s (bo_slaves _ _ _ _ B g s Hs)).
  destruct (role_step_ok (roleTree a) (TrackAllocated g rs) (tr_tree _ (ao_tracking _ a Ha)) (use_chargeable _ role rs id O1 O2 Hid)) as (t & Et & T & L).
  cbn [role_step] in Et. unfold transitionOfferedToAllocated. rewrite Hs. cbn [mbind option_bind]. rewrite Et. eexists. split; [done|].
  assert (Lf : forall loc, frameworks_of t loc = frameworks_of (roleTree a) loc) by apply (sl_frameworks _ _ L).
  assert (Lq : forall loc, quota_of t loc = quota_of (roleTree a) loc) by apply (sl_quota _ _ L).
  apply (used_allocator a t g s (Resources.plus (totalAllocated s) rs) Ha Hs T Lf Lq).
  apply (books_used _ _ _ _ t role g s _ (amount_held rs) B Hs); [by apply scalar_plus| | | |done|].
  - intros k Hk. by apply held_plus.
  - intros k Hk. rewrite held_plus by done. by apply Hle.
  - intros k _. by apply to_role_held.
  - intros w loc g' k Hk. rewrite (sl_tracked _ _ L) by done. cbn [role_spec]. table. rewrite (charged_use role) by done. destruct w; lia.
Qed.

(** ** A framework is taken off a role *)

(** Nothing of a role is offered on an agent if nothing of it is offered to any
    framework. *)
Lemma idle_sum a g k :
  accounts_ok a -> wf_resource k -> (forall id, offered_to (slaves a) g id k = 0) ->
  offered_sum (slaves a) g k = 0 /\ in_use (slaves a) g k = 0.
Proof.
  intros B Hk H. unfold offered_sum, in_use. unfold offered_to in H. destruct (slaves a !! g) as [s|] eqn:Hs; [|done].
  assert (Sb := bo_slaves _ _ _ _ B g s Hs). assert (E : amount_held (totalOfferedOrAllocated s) k = 0).
  { rewrite (sl_total s Sb k Hk). unfold agent_sum. apply zsum_zero. intros [id rs] Hx%elem_of_map_to_list. cbn. specialize (H id). by rewrite Hx in H. }
  split; [done|]. assert (W := sl_within s Sb k Hk). assert (N := held_nonneg _ k (sl_use s Sb)). lia.
Qed.

(** What [tryUntrackFrameworkUnderRole] does. *)
Record untracked (id role : string) (a a' : Allocator RS FS) : Prop := {
  un_rest : a' = with_tracking (roleTree a') (roleSorter a') (frameworkSorters a') a;
  un_tracking : tracking_ok a';
  un_accounts : accounts_ok a';
  un_quotas : forall loc, quota_of (roleTree a') loc = quota_of (roleTree a) loc;
}.

Lemma idle_tracked a id role fs :
  tracking_ok a -> accounts_ok a -> frameworkSorters a !! role = Some fs ->
  (forall g k, wf_resource k -> sorter_held fs id g k = 0) ->
  frameworks_of (roleTree a) (role_location role) ∖ {[ id ]} = ∅ ->
  forall g k, wf_resource k -> allocation_role k = Some role -> offered_sum (slaves a) g k = 0 /\ in_use (slaves a) g k = 0.
Proof.
  intros Ha B Hfs H0 Hone g k Hk Er. apply (idle_sum a); [done|done|]. intros id'.
  assert (N := offered_to_nonneg _ _ _ _ g id' k B Hk). destruct (decide (0 < offered_to (slaves a) g id' k)) as [Hpos|]; [|lia]. exfalso.
  destruct (bo_member _ _ _ _ B g id' k Hk Hpos) as (x & E & Hin). rewrite Er in E. injection E as <-.
  assert (id' = id) as -> by (destruct (decide (id' = id)); [done|set_solver]).
  specialize (H0 g k Hk). rewrite (bo_frameworks _ _ _ _ B role fs Hfs id g k Hk) in H0. unfold role_part in H0. rewrite decide_True in H0 by done. lia.
Qed.

(** The framework [id], of which [fs] holds nothing, leaves the role; [t] and
    [fs'] are the tree and the sorter of the role without it. *)
Section Leaves.
  Variables (a : Allocator RS FS) (id role : string) (fs fs' : FS) (t : RoleTree).
  Hypothesis Ha : tracking_ok a.
  Hypothesis B : accounts_ok a.
  Hypothesis Hfs : frameworkSorters a !! role = Some fs.
  Hypothesis H0 : forall g k, wf_resource k -> sorter_held fs id g k = 0.
  Hypothesis T : tree_inv t.
  Hypothesis Lf : forall loc, frameworks_of t loc
    = if decide (loc = role_location role) then frameworks_of (roleTree a) loc ∖ {[ id ]} else frameworks_of (roleTree a) loc.
  Hypothesis Lt : forall w loc g k, wf_resource k -> l_tracked (ledger_of t) w loc g k = l_tracked (ledger_of (roleTree a)) w loc g k.
  Hypothesis R1 : sorter_ok fs'.
  Hypothesis R2 : sorter_clients fs' = delete id (sorter_clients fs).
  Hypothesis R3 : forall known, sorter_agents fs known -> sorter_agents fs' known.
  Hypothesis R4 : forall p g k, wf_resource k -> sorter_held fs' p g k = sorter_held fs p g k.

Lemma leaves_elsewhere role' : role' <> role -> frameworks_of t (role_location role') = frameworks_of (roleTree a) (role_location role').
Proof. intros Hn. rewrite Lf, decide_False; [done|]. by intros El%role_location_inj. Qed.

Lemma leaves_here : frameworks_of t (role_location role) = frameworks_of (roleTree a) (role_location role) ∖ {[ id ]}.
Proof. by rewrite Lf, decide_True. Qed.

Lemma leaves_subset role' i : i ∈ frameworks_of t (role_location role') -> i ∈ frameworks_of (roleTree a) (role_location role').
Proof. rewrite Lf. destruct (decide _); [|done]. by intros [? _]%elem_of_difference. Qed.

Lemma leaves_members g i k role' :
  wf_resource k -> 0 < offered_to (slaves a) g i k -> allocation_role k = Some role' ->
  i ∈ frameworks_of (roleTree a) (role_location role') -> i ∈ frameworks_of t (role_location role').
Proof.
  intros Hk Hpos Er Hin. rewrite Lf. destruct (decide _) as [El|]; [|done]. apply role_location_inj in El as ->.
  apply elem_of_difference. split; [done|]. intros ->%elem_of_singleton. specialize (H0 g k Hk).
  rewrite (bo_frameworks _ _ _ _ B role fs Hfs id g k Hk) in H0. unfold role_part in H0. rewrite decide_True in H0 by done. lia.
Qed.

(** It was the only one. *)
Lemma leaves_last r :
  frameworks_of (roleTree a) (role_location role) ∖ {[ id ]} = ∅ ->
  sorter_ok r -> sorter_clients r = delete role (sorter_clients (roleSorter a)) -> (forall known, sorter_agents (roleSorter a) known -> sorter_agents r known) ->
  (forall p g k, wf_resource k -> sorter_held r p g k = held_spec (Remove role) (sorter_held (roleSorter a)) p g k) ->
  let a' := with_tracking t r (delete role (<[role := fs']> (frameworkSorters a))) a in tracking_ok a' /\ accounts_ok a'.
Proof.
  intros Hlast S1 S2 S3 S4. split; [split; fields; try done|].
  - intros role'. rewrite S2. destruct (decide (role = role')) as [<-|Hn].
    + rewrite lookup_delete_eq, leaves_here, Hlast. split; [by intros [? ?]|done].
    + rewrite lookup_delete_ne, leaves_elsewhere by done. apply (tr_roles a Ha).
  - apply S3, (tr_agents a Ha).
  - intros role'. destruct (decide (role = role')) as [<-|Hn].
    + rewrite lookup_delete_eq, leaves_here, Hlast. split; [by intros [? ?]|done].
    + rewrite lookup_delete_ne, lookup_insert_ne, leaves_elsewhere by done. apply (tr_sorters a Ha).
  - intros role' y [Hn Hy]%lookup_delete_Some. rewrite lookup_insert_ne in Hy by done. rewrite leaves_elsewhere by done.
    by destruct (tr_sorter a Ha role' y Hy).
  - intros role' i Hi. by apply (tr_known a Ha role'), leaves_subset.
  - eapply books_same; [exact B|apply same_accounts_refl|apply B|exact leaves_members|exact Lt|..].
    + intros p g k Hk. fields. rewrite S4 by done. cbn [held_spec]. destruct (decide (role = p)) as [<-|]; [|done].
      rewrite (bo_roles _ _ _ _ B role g k Hk). unfold role_part. destruct (decide _) as [Ex|]; [|done]. symmetry. by apply (idle_tracked a id role fs).
    + intros role' y. fields. intros [Hn Hy]%lookup_delete_Some. rewrite lookup_insert_ne in Hy by done. left. by exists y.
Qed.

(** Others stay. *)
Lemma leaves_more :
  frameworks_of (roleTree a) (role_location role) ∖ {[ id ]} <> ∅ ->
  let a' := with_tracking t (roleSorter a) (<[role := fs']> (frameworkSorters a)) a in tracking_ok a' /\ accounts_ok a'.
Proof.
  intros Hmore. assert (Hok := tr_sorter a Ha role fs Hfs). destruct Hok as [F1 F2 F3 F4].
  assert (Hne : forall role', frameworks_of t (role_location role') <> ∅ <-> frameworks_of (roleTree a) (role_location role') <> ∅).
  { intros role'. destruct (decide (role' = role)) as [->|Hn]; [|by rewrite leaves_elsewhere]. rewrite leaves_here. set_solver. }
  split; [split; fields; try done|].
  - apply Ha.
  - intros role'. rewrite Hne. apply (tr_roles a Ha).
  - apply (tr_agents a Ha).
  - intros role'. rewrite Hne, <- (tr_sorters a Ha). destruct (decide (role = role')) as [<-|Hn]; [|by rewrite lookup_insert_ne].
    rewrite lookup_insert_eq, Hfs. split; by eexists.
  - intros role' y [[<- <-]|[Hn Hy]]%lookup_insert_Some; [rewrite leaves_here|rewrite leaves_elsewhere by done; by destruct (tr_sorter a Ha role' y Hy)].
    split; [done|..|by apply R3].
    + intros i. rewrite R2. destruct (decide (id = i)) as [<-|Hi]; [rewrite lookup_delete_eq; split; [by intros [? ?]|set_solver]|].
      rewrite lookup_delete_ne, F2 by done. set_solver.
    + intros i. rewrite R2. intros [_ H]%lookup_delete_Some. by apply F3.
  - intros role' i Hi. by apply (tr_known a Ha role'), leaves_subset.
  - eapply books_same; [exact B|apply same_accounts_refl|apply B|exact leaves_members|exact Lt|done|].
    intros role' y. fields. intros [[<- <-]|[Hn Hy]]%lookup_insert_Some; left; [by exists fs|by exists y].
Qed.
End Leaves.

(** The tree lets a framework go that holds nothing of the role. *)
Lemma untrack_tree a id role fs :
  tracking_ok a -> accounts_ok a -> id ∈ frameworks_of (roleTree a) (role_location role) -> frameworkSorters a !! role = Some fs ->
  (forall g k, wf_resource k -> sorter_held fs id g k = 0) ->
  exists t, untrackFramework (roleTree a) id role = Some t /\ tree_inv t
    /\ (forall loc, frameworks_of t loc = if decide (loc = role_location role) then frameworks_of (roleTree a) loc ∖ {[ id ]} else frameworks_of (roleTree a) loc)
    /\ (forall loc, quota_of t loc = quota_of (roleTree a) loc)
    /\ forall w loc g k, wf_resource k -> l_tracked (ledger_of t) w loc g k = l_tracked (ledger_of (roleTree a)) w loc g k.
Proof.
  intros Ha B Hid Hfs H0. destruct (role_step_ok (roleTree a) (UntrackFramework id role) (tr_tree a Ha)) as (t & Et & T & L).
  { split; [done|]. intros Hone w g k Hk. rewrite (bo_tree _ _ _ _ B w _ g k Hk). unfold tracked_share, location_part.
    destruct (counted w k), (allocation_role k) as [x|] eqn:Ex; try done. destruct (decide (role_location x = role_location role)) as [El|]; [|done].
    apply role_location_inj in El as ->. destruct (idle_tracked a id role fs Ha B Hfs H0 Hone g k Hk Ex) as [-> ->]. by destruct w. }
  exists t. split_and!; [done|done| |apply (sl_quota _ _ L)|apply (sl_tracked _ _ L)].
  intros loc. assert (G := sl_frameworks _ _ L loc). cbn [l_frameworks ledger_of role_spec set_frameworks] in G. rewrite G. unfold at_role. by destruct (decide _) as [->|].
Qed.

Lemma untrack_ok a id role :
  tracking_ok a -> accounts_ok a -> id ∈ frameworks_of (roleTree a) (role_location role) ->
  exists a' b, tryUntrackFrameworkUnderRole id role a = Some (a', b) /\ untracked id role a a'
    /\ (b = false -> a' = a) /\ (b = true -> forall loc, frameworks_of (roleTree a') loc
          = if decide (loc = role_location role) then frameworks_of (roleTree a) loc ∖ {[ id ]} else frameworks_of (roleTree a) loc)
    /\ (idle_under (slaves a) id role -> b = true).
Proof.
  intros Ha B Hid. destruct (tracked_role a role id Ha Hid) as (_ & Hcr & fs & Hfs & Hok & Hcl).
  unfold tryUntrackFrameworkUnderRole. rewrite Hfs. cbn [mbind option_bind]. rewrite (sorter_contains_ok fs) by apply Hok. cbn [mbind option_bind].
  rewrite bool_decide_eq_true_2 by done. cbn [negb].
  destruct (sorter_allocation_ok fs id (fs_ok _ _ _ _ Hok) Hcl) as (held & -> & Hheld). cbn [mbind option_bind].
  case_bool_decide as He; cbn [negb].
  2:{ exists a, false. split; [done|]. split_and!; try done.
      - split; [by destruct a|done|done|done].
      - intros H0. exfalso. apply He, Hheld. intros g k Hk. rewrite (bo_frameworks _ _ _ _ B role fs Hfs id g k Hk). unfold role_part.
        destruct (decide _); [by apply H0|done]. }
  assert (H0 := proj1 Hheld He). destruct Hok as [F1 F2 F3 F4].
  destruct (untrack_tree a id role fs Ha B Hid Hfs H0) as (t & Et & T & Lf & Lq & Lt). rewrite Et. cbn [mbind option_bind].
  destruct (sorter_run_ok fs (Remove id) F1 Hcl) as (fs' & E & R1 & R2 & R3 & R4). cbn [sorter_run call_spec agents_spec] in E, R2, R3. rewrite E. cbn [mbind option_bind].
  rewrite no_frameworks_spec. fields. rewrite Lf, decide_True by done.
  assert (R4' : forall p g k, wf_resource k -> sorter_held fs' p g k = sorter_held fs p g k).
  { intros p g k Hk. rewrite R4 by done. cbn [held_spec]. destruct (decide (id = p)) as [<-|]; [by rewrite H0|done]. }
  case_bool_decide as Hlast.
  - assert (Hc0 : sorter_clients fs' = ∅).
    { apply map_eq. intros x. rewrite R2, lookup_empty. destruct (decide (id = x)) as [<-|Hn]; [apply lookup_delete_eq|]. rewrite lookup_delete_ne by done.
      apply eq_None_not_Some. rewrite F2. set_solver. }
    rewrite sorter_count_ok by done. rewrite Hc0, map_size_empty. cbn [Nat.eqb negb].
    destruct (sorter_run_ok (roleSorter a) (Remove role) (tr_roles_ok a Ha) Hcr) as (r & Er & S1 & S2 & S3 & S4). cbn [sorter_run call_spec agents_spec] in Er, S2, S3.
    rewrite Er. cbn [mbind option_bind]. eexists _, true. split; [done|]. split_and!; [|done|done|done].
    destruct (leaves_last a id role fs fs' t Ha B Hfs H0 T Lf Lt r Hlast S1 S2 S3 S4) as [T' B']. by split.
  - eexists _, true. split; [done|]. split_and!; [|done|done|done].
    destruct (leaves_more a id role fs fs' t Ha B Hfs H0 T Lf Lt R1 R2 R3 R4' Hlast) as [T' B']. by split.
Qed.

(** ** Resources are returned *)

Lemma offered_sum_nonneg a g k : accounts_ok a -> wf_resource k -> 0 <= offered_sum (slaves a) g k.
Proof.
  intros B Hk. unfold offered_sum. destruct (slaves a !! g) as [s|] eqn:E; [|done]. by apply held_nonneg, sl_sum, (bo_slaves _ _ _ _ B g).
Qed.

Lemma offered_le_sum a g id k : accounts_ok a -> wf_resource k -> offered_to (slaves a) g id k <= offered_sum (slaves a) g k.
Proof.
  intros B Hk. unfold offered_to, offered_sum. destruct (slaves a !! g) as [s|] eqn:E; [|done]. by apply offer_le; [apply (bo_slaves _ _ _ _ B g)|].
Qed.

(** The checks of the tree and of the two sorters. *)
Lemma return_charges a id g role rs :
  accounts_ok a -> tree_inv (roleTree a) -> outstanding a id g role rs -> may_call (ledger_of (roleTree a)) (UntrackOffered g rs).
Proof.
  intros B Ht Ho. destruct (outstanding_there a id g role rs B Ho) as [_ Hid]. destruct Ho as [O1 O2 O3 O4 O5].
  assert (Hall := allocations_to_role role rs O1 O2 O4). cbn [may_call]. split_and!.
  - rewrite scalars_scalar, Hall by done. by eexists.
  - unfold offered_by_role, by_role. rewrite scalars_scalar, Hall by done. change (default ∅ (Some ?m)) with m. rewrite map_to_list_singleton.
    constructor; [|constructor]. split; [done|]. table. set_solver.
  - intros w loc g' k Hk. assert (w = Allocated_ \/ w <> Allocated_) as [->|Hw] by (destruct w; [by left|by right..]).
    + rewrite (charged_offer_allocated role) by done. apply (tb_tracked _ (ti_books _ Ht)). done.
    + rewrite (charged_offer role) by done. rewrite (bo_tree _ _ _ _ B w loc g' k Hk). unfold tracked_share. destruct (counted w k); [|done].
      unfold location_part. destruct (allocation_role k); [|done]. destruct (decide _); [|done].
      assert (G : delta_on g (amount_held rs) g' k <= offered_sum (slaves a) g' k); [|by destruct w].
      unfold delta_on. destruct (decide (g' = g)) as [->|]; [|by apply offered_sum_nonneg].
      etransitivity; [by apply O5|by apply offered_le_sum].
Qed.

Lemma return_framework a id g role rs fs :
  accounts_ok a -> outstanding a id g role rs -> frameworkSorters a !! role = Some fs -> is_Some (sorter_clients fs !! id) ->
  may_run (sorter_clients fs) (sorter_agents fs) (sorter_held fs) (Unallocated id g rs).
Proof.
  intros B [O1 O2 O3 O4 O5] Hfs Hcl. split_and!; try done. intros k Hk. rewrite (bo_frameworks _ _ _ _ B role fs Hfs id g k Hk). unfold role_part.
  destruct (decide _); [by apply O5|]. by rewrite (to_role_held role).
Qed.

Lemma return_role a id g role rs :
  accounts_ok a -> outstanding a id g role rs -> is_Some (sorter_clients (roleSorter a) !! role) ->
  may_run (sorter_clients (roleSorter a)) (sorter_agents (roleSorter a)) (sorter_held (roleSorter a)) (Unallocated role g rs).
Proof.
  intros B [O1 O2 O3 O4 O5] Hcl. split_and!; try done. intros k Hk. rewrite (bo_roles _ _ _ _ B role g k Hk). unfold role_part.
  destruct (decide _); [|by rewrite (to_role_held role)]. etransitivity; [by apply O5|by apply offered_le_sum].
Qed.

(** The books without what is returned, before the framework may be taken off
    the role. *)
Lemma return_posted a id g role rs s s' :
  tracking_ok a -> accounts_ok a -> outstanding a id g role rs -> slaves a !! g = Some s -> slave_books s' -> totalAllocated s' = totalAllocated s ->
  (forall k, wf_resource k -> amount_held (totalOfferedOrAllocated s') k = amount_held (totalOfferedOrAllocated s) k - amount_held rs k) ->
  (forall id' k, wf_resource k -> amount_held (default [] (offeredOrAllocated s' !! id')) k
     = amount_held (default [] (offeredOrAllocated s !! id')) k - if decide (id = id') then amount_held rs k else 0) ->
  exists fs fs' t r, let b := with_tracking t r (<[role := fs']> (frameworkSorters a)) (set_slave g s' a) in
    sorter_contains (roleSorter a) role = Some true /\ frameworkSorters a !! role = Some fs /\ sorter_contains fs id = Some true
    /\ untrackOfferedOrAllocated (roleTree a) g rs = Some t /\ sorter_unallocated fs id g rs = Some fs'
    /\ sorter_unallocated (roleSorter a) role g rs = Some r
    /\ tracking_ok b /\ accounts_ok b /\ (forall loc, frameworks_of t loc = frameworks_of (roleTree a) loc)
    /\ forall loc, quota_of t loc = quota_of (roleTree a) loc.
Proof.
  intros Ha B Ho Hs Sb Eu Es Eo. destruct (outstanding_there a id g role rs B Ho) as [_ Hid].
  destruct (tracked_role a role id Ha Hid) as (_ & Hcr & fs & Hfs & Hok & Hcl). assert (Ho' := Ho). destruct Ho' as [O1 O2 O3 O4 O5].
  destruct (role_step_ok (roleTree a) (UntrackOffered g rs) (tr_tree a Ha) (return_charges a id g role rs B (tr_tree a Ha) Ho)) as (t & Et & T & L).
  destruct (sorter_run_ok fs (Unallocated id g rs) (fs_ok _ _ _ _ Hok) (return_framework a id g role rs fs B Ho Hfs Hcl)) as (fs' & Ef & F1 & F2 & F3 & F4).
  destruct (sorter_run_ok (roleSorter a) (Unallocated role g rs) (tr_roles_ok a Ha) (return_role a id g role rs B Ho Hcr)) as (r & Er & R1 & R2 & R3 & R4).
  cbn [role_step sorter_run call_spec agents_spec] in *. exists fs, fs', t, r. cbn zeta.
  assert (Lf : forall loc, frameworks_of t loc = frameworks_of (roleTree a) loc) by apply (sl_frameworks _ _ L).
  assert (Lq : forall loc, quota_of t loc = quota_of (roleTree a) loc) by apply (sl_quota _ _ L).
  split_and!; try done.
  - rewrite sorter_contains_ok by apply Ha. by rewrite bool_decide_eq_true_2.
  - rewrite sorter_contains_ok by apply Hok. by rewrite bool_decide_eq_true_2.
  - eapply (retracked_ok a); [|done]. split; fields; try done; [by destruct (set_slave_parties a g s s' Hs)|].
    intros role'. destruct (decide (role = role')) as [<-|Hn]; [by rewrite Hfs, lookup_insert_eq|].
    rewrite lookup_insert_ne by done. by destruct (frameworkSorters a !! role').
  - apply (books_posted _ _ _ _ t r _ role id g s s' (fun k => - amount_held rs k) B Hs Sb).
    + intros k _ Hk. by rewrite (to_role_held role).
    + done.
    + intros k Hk. rewrite Es by done. lia.
    + intros id' k Hk. rewrite Eo by done. destruct (decide (id = id')); lia.
    + done.
    + split; fields.
      * done.
      * intros w loc g' k Hk. rewrite (sl_tracked _ _ L) by done. cbn [role_spec]. table. destruct w.
        -- rewrite (charged_offer_allocated role) by done. lia.
        -- rewrite (charged_offer role) by done. unfold location_part, delta_on. destruct (counted _ k), (allocation_role k); try lia; repeat destruct (decide _); lia.
        -- rewrite (charged_offer role) by done. unfold location_part, delta_on. destruct (counted _ k), (allocation_role k); try lia; repeat destruct (decide _); lia.
      * intros p g' k Hk. by rewrite R4.
      * intros role' y [[<- <-]|[Hn Hy]]%lookup_insert_Some.
        -- exists fs. split; [done|]. intros p g' k Hk. rewrite F4 by done. by rewrite (decide_True (P := role = role)).
        -- exists y. split; [done|]. intros p g' k Hk. rewrite (decide_False (P := role = role')) by done. lia.
Qed.

Lemma returned_allocator a g s s' t r x :
  allocator_ok options a -> slaves a !! g = Some s -> agent_ok options g s' ->
  let b := with_tracking t r x (set_slave g s' a) in
  tracking_ok b -> accounts_ok b -> members_ok b -> (forall loc, quota_of t loc = quota_of (roleTree a) loc) -> allocator_ok options b.
Proof.
  intros [T M A B Q W C] Hs Hs' b Tb Bb Mb Lq. split; try done.
  - intros g' y. unfold b. fields. intros [[<- <-]|[_ H]]%lookup_insert_Some; [done|by apply A].
  - split; intros loc; unfold b; fields; rewrite Lq; apply Q.
  - unfold b. fields. rewrite dom_insert_L. set_solver.
Qed.

(** Other frameworks and roles hold what they held. *)
Lemma return_idle a id g role rs s s' i x :
  slaves a !! g = Some s -> to_role role rs ->
  (forall id' k, wf_resource k -> amount_held (default [] (offeredOrAllocated s' !! id')) k
     = amount_held (default [] (offeredOrAllocated s !! id')) k - if decide (id = id') then amount_held rs k else 0) ->
  ~ (i = id /\ x = role) -> idle_under (<[g := s']> (slaves a)) i x -> idle_under (slaves a) i x.
Proof.
  intros Hs Hr Eo Hne Hi g' k Hk Er. rewrite <- (Hi g' k Hk Er). unfold offered_to. destruct (decide (g = g')) as [<-|Hn]; [|by rewrite lookup_insert_ne].
  rewrite lookup_insert_eq, Hs, Eo by done. destruct (decide (id = i)) as [->|]; [|lia]. rewrite (to_role_held role rs k Hr); [lia|]. intros E. apply Hne. split; congruence.
Qed.

(** A framework without the role was taken off it, or still holds something. *)
Lemma left_members a b a' id role f (bb : bool) :
  members_ok a -> frameworks b = frameworks a -> (forall loc, frameworks_of (roleTree b) loc = frameworks_of (roleTree a) loc) ->
  (forall i x, ~ (i = id /\ x = role) -> idle_under (slaves b) i x -> idle_under (slaves a) i x) ->
  frameworks a !! id = Some f -> role ∉ roles f -> untracked id role b a' -> (bb = false -> a' = b) ->
  (bb = true -> forall loc, frameworks_of (roleTree a') loc
     = if decide (loc = role_location role) then frameworks_of (roleTree b) loc ∖ {[ id ]} else frameworks_of (roleTree b) loc) ->
  (idle_under (slaves b) id role -> bb = true) -> members_ok a'.
Proof.
  intros [M1 M2 M3] Ef Lf Hidle Hf Hr [U1 _ _ _] V1 V2 V3.
  assert (Efs : frameworks a' = frameworks a) by (rewrite U1; exact Ef). assert (Es : slaves a' = slaves b) by (by rewrite U1).
  assert (Hfr : forall i x, i ∈ frameworks_of (roleTree a') (role_location x) <-> i ∈ frameworks_of (roleTree a) (role_location x) /\ ~ (i = id /\ x = role /\ bb = true)).
  { intros i x. destruct bb; [rewrite V2 by done|rewrite V1, Lf by done; naive_solver]. rewrite Lf. destruct (decide _) as [->%role_location_inj|Hn]; [set_solver|].
    split; [|naive_solver]. intros H. split; [done|]. by intros (_ & -> & _). }
  split; rewrite Efs, ?Es; [..|done]; intros i fw x Hfw; rewrite Hfr.
  - intros Hx. split; [by apply (M1 i fw)|]. intros (-> & -> & _). congruence.
  - intros [Hin Hn] Hi. destruct (decide (i = id /\ x = role)) as [[-> ->]|Hne]; [by destruct Hn; rewrite V3|]. apply (M2 i fw x Hfw Hin). by apply Hidle.
Qed.

(** A framework returns resources of a role on an agent. *)
Lemma return_ok a id g role rs s f :
  allocator_ok options a -> outstanding a id g role rs -> slaves a !! g = Some s -> frameworks a !! id = Some f ->
  (forall k, wf_resource k -> amount_held (totalAllocated s) k + amount_held rs k <= amount_held (totalOfferedOrAllocated s) k) ->
  exists s' t r x fs, let b := with_tracking t r x (set_slave g s' a) in
    increaseAvailable id rs s = Some s' /\ Resources.contains (totalOfferedOrAllocated s) rs = true
    /\ frameworkSorters a !! role = Some fs /\ sorter_contains fs id = Some true
    /\ untrackAllocatedResources g id rs (set_slave g s' a) = Some b /\ allocator_ok options b
    /\ forall k, wf_resource k -> amount_held (available s') k = amount_held (available s) k + used rs k.
Proof.
  intros Ha Ho Hs Hf Hle. assert (B := ao_accounts _ a Ha). assert (T := ao_tracking _ a Ha). assert (Ho' := Ho). destruct Ho' as [O1 O2 O3 O4 O5].
  assert (Sb := bo_slaves _ _ _ _ B g s Hs).
  destruct (increase_books s id rs Sb O1 O4) as (s' & Ei & Es' & Sb' & Hc & S1 & S2); [|done|].
  { intros k Hk. specialize (O5 k Hk). unfold offered_to in O5. by rewrite Hs in O5. }
  assert (Eu : totalAllocated s' = totalAllocated s) by (by rewrite Es').
  destruct (return_posted a id g role rs s s' T B Ho Hs Sb' Eu S1 S2) as (fs & fs' & t & r & Er & Hfs & Ef & Et & Eu1 & Eu2 & Tb & Bb & Lf & Lq).
  set (b := with_tracking t r (<[role := fs']> (frameworkSorters a)) (set_slave g s' a)) in *.
  destruct (returned_ok options g s (offeredOrAllocated s') rs (ao_agents _ a Ha g s Hs) O1) as [Hag Hav].
  { apply scalar_included; [done|apply Sb|]. intros k Hk. specialize (Hle k Hk). assert (N := held_nonneg _ k (sl_use s Sb)). lia. }
  rewrite <- Es' in Hag, Hav.
  assert (Estep : forall y, untrackAllocatedResources g id rs (set_slave g s' a) = Some y <->
    (if bool_decide (role ∈ roles f) then Some b else '(a2, _) ← tryUntrackFrameworkUnderRole id role b; Some a2) = Some y).
  { intros y. unfold untrackAllocatedResources. fields. rewrite Hf. cbn [mbind option_bind]. rewrite (allocations_to_role role rs O1 O2 O4). cbn [mbind option_bind].
    rewrite map_to_list_singleton. cbn [each untrack_allocation]. fields. rewrite Er. cbn [mbind option_bind negb]. rewrite Hfs. cbn [mbind option_bind]. rewrite Ef.
    cbn [mbind option_bind negb]. rewrite Et. cbn [mbind option_bind]. rewrite Eu1. cbn [mbind option_bind]. rewrite Eu2. cbn [mbind option_bind].
    change (with_tracking t r _ _) with b. destruct (if bool_decide (role ∈ roles f) then Some b else _); done. }
  case_bool_decide as Hr.
  - exists s', t, r, (<[role := fs']> (frameworkSorters a)), fs. cbn zeta. fold b. split_and!; try done; [by apply Estep|].
    apply (returned_allocator a g s s' t r _ Ha Hs Hag Tb Bb); [|done]. destruct (ao_members _ a Ha) as [M1 M2 M3].
    unfold b. split; fields; [..|done]; intros i fw x; rewrite Lf; [by apply M1|]. intros Hfw Hin Hi.
    destruct (decide (i = id /\ x = role)) as [[-> ->]|Hn]; [congruence|]. apply (M2 i fw x Hfw Hin). by apply (return_idle a id g role rs s s').
  - assert (Hid : id ∈ frameworks_of (roleTree b) (role_location role)).
    { unfold b. fields. rewrite Lf. by apply (outstanding_there a id g role rs). }
    destruct (untrack_ok b id role Tb Bb Hid) as (a' & bb & Eun & [U1 U2 U3 U4] & V1 & V2 & V3). rewrite Eun in Estep.
    exists s', (roleTree a'), (roleSorter a'), (frameworkSorters a'), fs. cbn zeta.
    assert (Ea' : with_tracking (roleTree a') (roleSorter a') (frameworkSorters a') (set_slave g s' a) = a') by (by rewrite U1 at 4).
    rewrite Ea'. split_and!; try done; [by apply Estep|]. rewrite <- Ea'. apply (returned_allocator a g s s' _ _ _ Ha Hs Hag); rewrite ?Ea'; try done.
    + apply (left_members a b a' id role f bb); try done; [apply (ao_members _ a Ha)|]. intros i x. by apply (return_idle a id g role rs s s').
    + intros loc. by rewrite U4.
Qed.

(** What was in use is only offered again. *)
Lemma unused_ok a id g role rs s :
  allocator_ok options a -> outstanding a id g role rs -> slaves a !! g = Some s ->
  (forall k, wf_resource k -> amount_held rs k <= amount_held (totalAllocated s) k) ->
  Resources.contains (totalAllocated s) rs = true
  /\ exists t, untrackAllocated (roleTree a) g rs = Some t
       /\ allocator_ok options (set_slave g (with_allocated_total (Resources.minus (totalAllocated s) rs) s)
                                  (with_tracking t (roleSorter a) (frameworkSorters a) a)).
Proof.
  intros Ha Ho Hs Hle. assert (B := ao_accounts _ a Ha). assert (T := tr_tree _ (ao_tracking _ a Ha)).
  destruct (outstanding_there a id g role rs B Ho) as [_ Hid]. destruct Ho as [O1 O2 O3 O4 O5]. assert (Sb := bo_slaves _ _ _ _ B g s Hs).
  assert (Hu := sl_use s Sb). assert (I : included rs (totalAllocated s)) by (by apply scalar_included). split; [by apply included_contains; [apply sc_wf..|]|].
  destruct (use_chargeable (roleTree a) role rs id O1 O2 Hid) as [C1 C2].
  destruct (role_step_ok (roleTree a) (UntrackAllocated g rs) T) as (t & Et & T' & L).
  { cbn [may_call]. split_and!; [done|done|]. intros w loc g' k Hk. rewrite (charged_use role) by done. destruct w; [|by apply (tb_tracked _ (ti_books _ T))..].
    rewrite (bo_tree _ _ _ _ B _ loc g' k Hk). unfold tracked_share. destruct (counted _ k); [|done].
    unfold location_part. destruct (allocation_role k); [|done]. destruct (decide _); [|done]. unfold delta_on, in_use.
    destruct (decide (g' = g)) as [->|]; [by rewrite Hs; apply Hle|]. destruct (slaves a !! g') as [s'|] eqn:Es'; [|done].
    by apply held_nonneg, (sl_use s'), (bo_slaves _ _ _ _ B g'). }
  cbn [role_step] in Et. exists t. split; [done|].
  apply (used_allocator a t g s _ Ha Hs T' (sl_frameworks _ _ L) (sl_quota _ _ L)).
  apply (books_used _ _ _ _ t role g s _ (fun k => - amount_held rs k) B Hs); [by apply scalar_minus| | | |apply (sl_frameworks _ _ L)|].
  - intros k Hk. rewrite held_minus by done. lia.
  - intros k Hk. rewrite held_minus by done. assert (W := sl_within s Sb k Hk). assert (N := held_nonneg rs k O1). lia.
  - intros k _ Hk. by rewrite (to_role_held role).
  - intros w loc g' k Hk. rewrite (sl_tracked _ _ L) by done. cbn [role_spec]. table. rewrite (charged_use role) by done.
    destruct w; [|lia..]. unfold location_part, delta_on. destruct (counted _ k), (allocation_role k); try lia; repeat destruct (decide _); lia.
Qed.

Lemma filter_count_ok a n : allocator_ok options a -> allocator_ok options (with_filter_count n a).
Proof. intros Ha. apply (same_core_ok _ a); [done|apply (ao_total _ _ Ha)|apply (ao_candidates _ _ Ha)|done]. Qed.

(** A framework gets or loses filters. *)
Lemma filters_ok a id f x y : allocator_ok options a -> frameworks a !! id = Some f -> allocator_ok options (set_framework id (with_filters x y f) a).
Proof. intros Ha Hf. eapply framework_retouched; [done|exact Hf|done|done|]. exact (me_suppressed _ (ao_members _ a Ha) id f Hf). Qed.

(** Resources come back from a framework: those in use are not in use any more,
    and all of them are available. *)
Lemma recover_ok a id g role rs s filters (isAllocated : bool) :
  allocator_ok options a -> outstanding a id g role rs -> slaves a !! g = Some s ->
  (forall k, wf_resource k -> if isAllocated then amount_held rs k <= amount_held (totalAllocated s) k
     else amount_held (totalAllocated s) k + amount_held rs k <= amount_held (totalOfferedOrAllocated s) k) ->
  exists a' s', recoverResources id g rs filters isAllocated a = Some a' /\ allocator_ok options a' /\ slaves a' !! g = Some s'
    /\ forall k, wf_resource k -> amount_held (available s') k = amount_held (available s) k + used rs k.
Proof.
  intros Ha Ho Hs Hle. assert (B := ao_accounts _ a Ha). assert (Sb := bo_slaves _ _ _ _ B g s Hs).
  destruct (tr_known a (ao_tracking _ a Ha) role id) as [f Hf]; [by eapply outstanding_there|].
  assert (H1 : exists t u, let s1 := with_allocated_total u s in
     let a1 := set_slave g s1 (with_tracking t (roleSorter a) (frameworkSorters a) a) in
     (if isAllocated then if negb (Resources.contains (totalAllocated s) rs) then None
        else t ← untrackAllocated (roleTree a) g rs;
             Some (set_slave g (with_allocated_total (Resources.minus (totalAllocated s) rs) s) (with_tracking t (roleSorter a) (frameworkSorters a) a))
      else Some a) = Some a1 /\ allocator_ok options a1
     /\ (forall k, wf_resource k -> amount_held u k + amount_held rs k <= amount_held (totalOfferedOrAllocated s) k)).
  { destruct isAllocated.
    - destruct (unused_ok a id g role rs s Ha Ho Hs Hle) as (-> & t & -> & Ha1). exists t, (Resources.minus (totalAllocated s) rs). cbn. split_and!; [done|done|].
      intros k Hk. rewrite held_minus; [|apply Sb|apply Ho|by apply scalar_included; [apply Ho|apply Sb|]|done]. assert (W := sl_within s Sb k Hk). lia.
    - exists (roleTree a), (totalAllocated s). cbn zeta. assert (E : set_slave g (with_allocated_total (totalAllocated s) s) (with_tracking (roleTree a) (roleSorter a) (frameworkSorters a) a) = a).
      { replace (with_allocated_total (totalAllocated s) s) with s by (by destruct s). unfold set_slave, with_tracking, with_slaves. cbn. rewrite insert_id by done. by destruct a. }
      rewrite E. by split_and!. }
  destruct H1 as (t & u & E1 & Ha1 & Hle1). set (s1 := with_allocated_total u s) in *. set (a1 := set_slave g s1 _) in *.
  assert (Hs1 : slaves a1 !! g = Some s1) by (unfold a1; fields; by rewrite lookup_insert_eq).
  assert (Ho1 : outstanding a1 id g role rs).
  { destruct Ho as [O1 O2 O3 O4 O5]. split; try done. intros k Hk. unfold offered_to. rewrite Hs1. specialize (O5 k Hk). unfold offered_to in O5. by rewrite Hs in O5. }
  destruct (return_ok a1 id g role rs s1 f Ha1 Ho1 Hs1 Hf Hle1) as (s' & t2 & r2 & x2 & fs & Ei & Ec & Efs & Ek & Eun & Hb & Hav).
  assert (Hs' : forall b, slaves (with_tracking t2 r2 x2 (set_slave g s' a1)) = b -> b !! g = Some s') by (intros ? <-; fields; by rewrite lookup_insert_eq).
  destruct Ho as [O1 O2 O3 O4 O5]. unfold recoverResources. assert (Hall := allocations_to_role role rs O1 O2 O4). destruct rs as [|e rs]; [done|]. rewrite Hs, E1.
  cbn [mbind option_bind]. change (frameworks a1) with (frameworks a). rewrite Hf, Hs1, Hall. cbn [mbind option_bind]. rewrite map_to_list_singleton, Ec. cbn [negb].
  rewrite Ei. cbn [mbind option_bind]. change (frameworkSorters (set_slave g s' a1)) with (frameworkSorters a1). rewrite Efs. cbn [mbind option_bind]. rewrite Ek. cbn [mbind option_bind].
  rewrite Eun. cbn [mbind option_bind].
  set (b := with_tracking t2 r2 x2 (set_slave g s' a1)) in *. destruct filters as [seconds|]; [destruct (refuses seconds)|].
  - change (frameworks b) with (frameworks a). rewrite Hf. cbn [mbind option_bind]. eexists _, s'. split_and!; [done|by apply filter_count_ok, filters_ok|by apply Hs'|exact Hav].
  - exists b, s'. split_and!; [done|done|by apply Hs'|exact Hav].
  - exists b, s'. split_and!; [done|done|by apply Hs'|exact Hav].
Qed.
End Returns.
