(* ===== verification/FrameworkChanges.v ===== *)
(** * Frameworks change and go

    [updateFramework] and [removeFramework] pass their checks and keep the
    invariant of the allocator: a framework that updates its roles stays
    tracked under those it still holds resources of, and one that holds
    nothing can be removed. *)

From stdpp Require Import base gmap strings list.
From Stdlib Require Import ZArith QArith.
From S2P Require Import Prelude Strings Roles Ranges Scalar Values Quantities Registry Resource Resources ResourceOps Conversions Attributes Quota SorterTree DrfSorter SorterAccounts SorterHoldings RoleTree RoleLedger Shrink Allocator OfferCycle AllocatorLaws AgentBooks AllocatorBooks AllocatorInvariant OfferSafety OfferRun AllocatorHistory OfferReturns.
Local Open Scope Z_scope.

Section Changes.
  Context {RS FS : Type} {OR : SorterOps RS} {LR : SorterLaws RS} {OF : SorterOps FS} {LF : SorterLaws FS} (options : Options).
  Implicit Types a : Allocator RS FS.

(** ** A framework is removed *)

(** Nothing is offered to it or in use by it. *)
Definition holds_nothing (a : Allocator RS FS) (id : string) : Prop :=
  forall g s, slaves a !! g = Some s -> offeredOrAllocated s !! id = None.

Lemma nothing_idle a id role : holds_nothing a id -> idle_under (slaves a) id role.
Proof. intros H g k _ _. unfold offered_to. destruct (slaves a !! g) as [s|] eqn:E; [|done]. by rewrite (H g s E). Qed.

(** Nobody is tracked as [id]. *)
Lemma forget_ok a id :
  tracking_ok a -> (forall role, id ∉ frameworks_of (roleTree a) (role_location role)) ->
  tracking_ok (with_allocator_frameworks (delete id (frameworks a)) a).
Proof.
  intros [T1 T2 T3 T4 T5 T6 T7] Hn. split; fields; try done.
  - intros role fs Hfs. destruct (T6 role fs Hfs) as [F1 F2 F3 F4]. split; try done. intros i Hi. fields.
    rewrite lookup_delete_ne; [by apply F3|]. intros <-. apply (Hn role), F2. by eexists.
  - intros role i Hi. rewrite lookup_delete_ne; [by apply (T7 role)|]. intros <-. by apply (Hn role).
Qed.

(** The roles [d] are gone. *)
Record untracked_from (id : string) (a : Allocator RS FS) (d : list string) (a' : Allocator RS FS) : Prop := {
  uf_rest : a' = with_tracking (roleTree a') (roleSorter a') (frameworkSorters a') a;
  uf_tracking : tracking_ok a';
  uf_accounts : accounts_ok a';
  uf_quotas : forall loc, quota_of (roleTree a') loc = quota_of (roleTree a) loc;
  uf_frameworks : forall x i, i ∈ frameworks_of (roleTree a') (role_location x) <-> i ∈ frameworks_of (roleTree a) (role_location x) /\ ~ (i = id /\ x ∈ d);
}.

Lemma untrack_all a id f :
  allocator_ok options a -> frameworks a !! id = Some f -> holds_nothing a id ->
  exists a' d, each (fun role a => '(a', untracked) ← tryUntrackFrameworkUnderRole id role a; if (untracked : bool) then Some a' else None)
                 (elements (roles f)) a = Some a'
    /\ untracked_from id a d a' /\ d ≡ₚ elements (roles f).
Proof.
  intros Ha Hf Hno. apply each_progress; [apply NoDup_elements|..].
  - split; [by destruct a|apply Ha|apply Ha|done|]. intros x i. set_solver.
  - intros d role a' Hr%elem_of_elements Hnd _ [U1 U2 U3 U4 U5]. assert (Hid : id ∈ frameworks_of (roleTree a') (role_location role)).
    { apply U5. split; [by apply (me_tracked _ (ao_members _ a Ha) id f)|]. by intros [_ ?]. }
    destruct (untrack_ok a' id role U2 U3 Hid) as (b & bb & -> & [V1 V2 V3 V4] & _ & V5 & V6). cbn [mbind option_bind].
    rewrite V6 in * by (rewrite U1; by apply nothing_idle). eexists. split; [done|]. split.
    + rewrite V1 at 1. rewrite U1 at 1. done.
    + done.
    + done.
    + intros loc. by rewrite V4, U4.
    + intros x i. rewrite V5 by done. destruct (decide _) as [->%role_location_inj|Hn]; rewrite ?elem_of_difference, U5; [set_solver|].
      assert (x <> role) by (by intros ->). set_solver.
Qed.

Lemma removeFramework_ok a id f :
  allocator_ok options a -> frameworks a !! id = Some f -> holds_nothing a id ->
  exists a', removeFramework id a = Some a' /\ allocator_ok options a' /\ frameworks a' !! id = None.
Proof.
  intros Ha Hf Hno. unfold removeFramework.
  destruct (each_rule (eq a) (fun slaveId a => s ← slaves a !! slaveId;
      match offeredOrAllocated s !! id with
      | None => Some a
      | Some rs => a' ← untrackAllocatedResources slaveId id rs a; s' ← increaseAvailable id rs s; Some (set_slave slaveId s' a')
      end) (map fst (map_to_list (slaves a))) a) as (a1 & -> & <-); [done| |].
  { intros g x ([g' s] & -> & Hg%elem_of_map_to_list)%list_elem_of_fmap <-. exists a. cbn [fst]. rewrite Hg. cbn [mbind option_bind]. by rewrite (Hno g' s Hg). }
  cbn [mbind option_bind]. rewrite Hf. cbn [mbind option_bind].
  destruct (untrack_all a id f Ha Hf Hno) as (a2 & d & -> & [U1 U2 U3 U4 U5] & Hd). cbn [mbind option_bind]. eexists. split; [done|].
  assert (Hn : forall role, id ∉ frameworks_of (roleTree a2) (role_location role)).
  { intros role [Hin Hx]%U5. apply Hx. split; [done|]. rewrite Hd. apply elem_of_elements. by apply (me_role _ (ao_members _ a Ha) id f role Hf Hin), nothing_idle. }
  assert (Ef : frameworks a2 = frameworks a) by exact (f_equal frameworks U1). assert (Es : slaves a2 = slaves a) by exact (f_equal slaves U1).
  split; [|fields; apply lookup_delete_eq]. split.
  - by apply forget_ok.
  - destruct (ao_members _ a Ha) as [M1 M2 M3]. split; fields; rewrite Ef, ?Es; intros i fi.
    + intros role [Hi H]%lookup_delete_Some Hr. apply U5. split; [by apply (M1 i fi)|]. by intros [-> _].
    + intros role [Hi H]%lookup_delete_Some [Hin _]%U5. by apply (M2 i fi).
    + intros [Hi H]%lookup_delete_Some. by apply (M3 i).
  - intros g s. fields. rewrite Es. apply (ao_agents _ a Ha).
  - exact U3.
  - split; intros loc; fields; rewrite U4; apply (ao_quotas _ a Ha).
  - fields. rewrite U1. apply (ao_total _ a Ha).
  - fields. rewrite Es, U1. apply (ao_candidates _ a Ha).
Qed.

(** ** A framework is updated *)

(** While the roles of a framework change, its sorters are ahead of its record:
    the invariant holds as if the framework had other roles. *)
Definition with_roles (r : gset string) (f : Framework) : Framework :=
  mkFramework r (suppressedRoles f) (capabilities f) (offerFilters f) (inverseOfferFilters f) (active f) (minAllocatableResources f) (isAgentExcluded f).

(** The sorters do not depend on the record. *)
Lemma on_sorter_as_if role h i fw a t r x :
  on_framework_sorter role h (set_framework i fw a) = Some (with_tracking t r x (set_framework i fw a)) ->
  on_framework_sorter role h a = Some (with_tracking t r x a).
Proof.
  unfold on_framework_sorter. fields. destruct (frameworkSorters a !! role); [|done]. cbn [mbind option_bind]. destruct (h _); [|done]. cbn [mbind option_bind].
  intros [= <- <- <-]. done.
Qed.

Lemma track_as_if id role i fw a t r x :
  trackFrameworkUnderRole options id role (set_framework i fw a) = Some (with_tracking t r x (set_framework i fw a)) ->
  trackFrameworkUnderRole options id role a = Some (with_tracking t r x a).
Proof.
  unfold trackFrameworkUnderRole. change (no_frameworks (set_framework i fw a) role) with (no_frameworks a role).
  change (new_framework_sorter options (set_framework i fw a)) with (new_framework_sorter options a). fields.
  destruct (no_frameworks a role); cbn [mbind option_bind]; fields;
    repeat (match goal with
      | |- context [mbind _ ?o] => lazymatch o with context [mbind _ _] => fail | _ => destruct o end; cbn [mbind option_bind]; [|done]; fields
      | |- context [if ?c then None else _] => destruct c; [done|]; cbn [mbind option_bind]
      end); intros [= <- <- <-]; done.
Qed.

Lemma untrack_as_if id role i fw a t r x b :
  tryUntrackFrameworkUnderRole id role (set_framework i fw a) = Some (with_tracking t r x (set_framework i fw a), b) ->
  tryUntrackFrameworkUnderRole id role a = Some (with_tracking t r x a, b).
Proof.
  unfold tryUntrackFrameworkUnderRole. fields.
  repeat (match goal with
    | |- context [mbind _ ?o] => destruct o; cbn [mbind option_bind]; [|done]; fields
    | |- context [if negb ?c then None else _] => destruct c; cbn [negb]; [|done]
    | |- context [if negb ?c then Some _ else _] => destruct c; cbn [negb]
    end).
  2:{ intros [=]. subst. by destruct a. }
  change (no_frameworks (with_tracking ?t ?r ?x (set_framework i fw a)) role) with (no_frameworks (with_tracking t r x a) role).
  destruct (no_frameworks _ role); [destruct (negb _); [done|]|]; fields; [|by intros [= <- <- <- <-]].
  destruct (sorter_remove (roleSorter a) role); [|done]. cbn [mbind option_bind]. by intros [= <- <- <- <-].
Qed.

(** The framework has more roles, or loses one that it is not active in. *)
Lemma wider_ok a id f h :
  tracking_ok a -> frameworks a !! id = Some f -> roles f ⊆ roles h -> active h = active f -> tracking_ok (set_framework id h a).
Proof.
  intros [T1 T2 T3 T4 T5 T6 T7] Hf Hr Ha. split; fields; try done.
  - intros role fs Hfs. destruct (T6 role fs Hfs) as [F1 F2 F3 F4]. split; try done. intros i Hi. fields.
    destruct (F3 i Hi) as (f' & E & Ea & Er). destruct (decide (id = i)) as [<-|Hn]; [|rewrite lookup_insert_ne by done; by exists f'].
    rewrite Hf in E. injection E as <-. rewrite lookup_insert_eq. exists h. split_and!; [done|congruence|set_solver].
  - intros role i Hi. destruct (decide (id = i)) as [<-|Hn]; [rewrite lookup_insert_eq; by eexists|rewrite lookup_insert_ne by done; by apply (T7 role)].
Qed.

Lemma narrower_ok a id f h role :
  tracking_ok a -> frameworks a !! id = Some f -> roles h = roles f ∖ {[ role ]} -> active h = active f ->
  (forall fs, frameworkSorters a !! role = Some fs -> sorter_clients fs !! id = Some false) -> tracking_ok (set_framework id h a).
Proof.
  intros [T1 T2 T3 T4 T5 T6 T7] Hf Hr Ha Hoff. split; fields; try done.
  - intros x fs Hfs. destruct (T6 x fs Hfs) as [F1 F2 F3 F4]. split; try done. intros i Hi. fields.
    destruct (F3 i Hi) as (f' & E & Ea & Er). destruct (decide (id = i)) as [<-|Hn]; [|rewrite lookup_insert_ne by done; by exists f'].
    rewrite Hf in E. injection E as <-. rewrite lookup_insert_eq. exists h. split_and!; [done|congruence|]. rewrite Hr.
    destruct (decide (x = role)) as [->|]; [rewrite (Hoff fs Hfs) in Hi; done|set_solver].
  - intros x i Hi. destruct (decide (id = i)) as [<-|Hn]; [rewrite lookup_insert_eq; by eexists|rewrite lookup_insert_ne by done; by apply (T7 x)].
Qed.

Lemma set_framework_twice a id h h' : set_framework id h (set_framework id h' a) = set_framework id h a.
Proof. unfold set_framework, with_allocator_frameworks. cbn. by rewrite insert_insert_eq. Qed.

Lemma tracked_spec a id role : isFrameworkTrackedUnderRole a id role = bool_decide (id ∈ frameworks_of (roleTree a) (role_location role)).
Proof.
  unfold isFrameworkTrackedUnderRole, get_role, frameworks_of. destruct (roleTree a !! role_location role); [done|]. symmetry. apply bool_decide_eq_false_2. set_solver.
Qed.

(** The framework got the roles [d], and is ahead of its record as [h]. *)
Record added (id : string) (h : Framework) (a : Allocator RS FS) (d : list string) (a' : Allocator RS FS) : Prop := {
  ad_rest : a' = with_tracking (roleTree a') (roleSorter a') (frameworkSorters a') a;
  ad_tracking : tracking_ok (set_framework id h a');
  ad_accounts : accounts_ok a';
  ad_quotas : forall loc, quota_of (roleTree a') loc = quota_of (roleTree a) loc;
  ad_frameworks : forall x i, i ∈ frameworks_of (roleTree a') (role_location x)
    <-> i ∈ frameworks_of (roleTree a) (role_location x) \/ (i = id /\ x ∈ d);
}.

(** A role that the framework may be tracked under already. *)
Lemma add_role id h a d a' role :
  agents_ok options a -> valid_client id -> valid_client role -> added id h a d a' ->
  exists a1, (if isFrameworkTrackedUnderRole a' id role then Some a' else trackFrameworkUnderRole options id role a') = Some a1 /\ added id h a (role :: d) a1.
Proof.
  intros Hag Hvi Hvr [A1 A2 A3 A4 A5]. rewrite tracked_spec. case_bool_decide as Htr.
  - exists a'. split; [done|]. split; try done. intros x i. rewrite A5. split; [set_solver|]. intros [H|[-> [->|H]%elem_of_cons]]; [by left|by apply A5|by right].
  - destruct (trackFramework_under_ok options (set_framework id h a') id role A2) as (t & r & x & E & T & TB & Lf & Lq); fields; try done.
    { intros g s Hs. apply Hag. by rewrite A1 in Hs. }
    { rewrite lookup_insert_eq. by eexists. }
    apply track_as_if in E. eexists. split; [exact E|]. split; fields.
    + by rewrite A1 at 1.
    + exact T.
    + by apply TB.
    + intros loc. by rewrite Lq, A4.
    + intros y i. rewrite Lf. fields. destruct (decide _) as [->%role_location_inj|Hn]; rewrite ?elem_of_union, ?elem_of_singleton, A5; [set_solver|].
      assert (y <> role) by (by intros ->). set_solver.
Qed.

Lemma add_roles a id f (l : gset string) :
  allocator_ok options a -> frameworks a !! id = Some f -> active f = true -> valid_client id -> (forall role, role ∈ l -> valid_client role) ->
  exists a' d, each (fun role a =>
        a' ← (if isFrameworkTrackedUnderRole a id role then Some a else trackFrameworkUnderRole options id role a);
        on_framework_sorter role (fun fs => sorter_activate fs id) a') (elements l) a = Some a'
    /\ added id (with_roles (roles f ∪ l) f) a d a' /\ d ≡ₚ elements l.
Proof.
  intros Ha Hf Hact Hvi Hvr. set (h := with_roles _ f). apply each_progress; [apply NoDup_elements|..].
  - split; [by destruct a| |apply Ha|done|set_solver]. eapply wider_ok; [apply Ha|exact Hf|cbn; set_solver|done].
  - intros d role a' Hr%elem_of_elements _ _ Had. destruct (add_role id h a d a' role (ao_agents _ a Ha) Hvi (Hvr role Hr) Had) as (a1 & -> & [A1 A2 A3 A4 A5]).
    cbn [mbind option_bind]. destruct (activate_member (set_framework id h a1) role id h A2) as (x & E & T & TB); fields.
    { apply A5. right. split; [done|left]. }
    { by rewrite lookup_insert_eq. }
    { done. }
    { cbn. set_solver. }
    apply on_sorter_as_if in E. eexists. split; [exact E|]. split; fields; [exact (f_equal (with_tracking (roleTree a1) (roleSorter a1) x) A1)|exact T|by apply TB|done|done].
Qed.

(** The framework lost the roles [d] of [r]: it is tracked under those that it
    holds something of. *)
Record dropped (id : string) (r : gset string) (f : Framework) (a : Allocator RS FS) (d : list string) (a' : Allocator RS FS) : Prop := {
  dr_rest : exists f', a' = with_tracking (roleTree a') (roleSorter a') (frameworkSorters a') (set_framework id f' a)
    /\ roles f' = roles f /\ active f' = active f /\ suppressedRoles f' = suppressedRoles f ∖ list_to_set d;
  dr_tracking : tracking_ok (set_framework id (with_roles (r ∖ list_to_set d) f) a');
  dr_accounts : accounts_ok a';
  dr_quotas : forall loc, quota_of (roleTree a') loc = quota_of (roleTree a) loc;
  dr_frameworks : forall x i, i ∈ frameworks_of (roleTree a') (role_location x) -> i ∈ frameworks_of (roleTree a) (role_location x);
  dr_kept : forall x i, i ∈ frameworks_of (roleTree a) (role_location x) -> ~ (i = id /\ x ∈ d) -> i ∈ frameworks_of (roleTree a') (role_location x);
  dr_held : forall x, x ∈ d -> id ∈ frameworks_of (roleTree a') (role_location x) -> ~ idle_under (slaves a) id x;
}.

(** A role is lost: the framework is not active in it, and is tracked under it
    only if it holds something of it. *)
Lemma drop_role a id h h' role :
  tracking_ok (set_framework id h a) -> accounts_ok a -> id ∈ frameworks_of (roleTree a) (role_location role) ->
  roles h' = roles h ∖ {[ role ]} -> active h' = active h ->
  exists x t r y (b : bool), let a1 := with_tracking (roleTree a) (roleSorter a) x a in let a2 := with_tracking t r y a1 in
    on_framework_sorter role (fun fs => sorter_deactivate fs id) a = Some a1
    /\ tryUntrackFrameworkUnderRole id role a1 = Some (a2, b)
    /\ tracking_ok (set_framework id h' a2) /\ accounts_ok a2 /\ (forall loc, quota_of t loc = quota_of (roleTree a) loc)
    /\ (b = false -> t = roleTree a)
    /\ (b = true -> forall loc, frameworks_of t loc
          = if decide (loc = role_location role) then frameworks_of (roleTree a) loc ∖ {[ id ]} else frameworks_of (roleTree a) loc)
    /\ (idle_under (slaves a) id role -> b = true).
Proof.
  intros T B Hid Er Ea. destruct (deactivate_member (set_framework id h a) role id T Hid) as (x & E & T1 & TB & X1 & X2).
  apply on_sorter_as_if in E. fields. set (a1 := with_tracking (roleTree a) (roleSorter a) x a).
  assert (T2 : tracking_ok (set_framework id h' a1)).
  { rewrite <- (set_framework_twice a1 id h' h). eapply (narrower_ok _ id h h' role); [exact T1| |done|done|exact X1]. fields. apply lookup_insert_eq. }
  destruct (untrack_ok (set_framework id h' a1) id role T2) as (c & b & Eu & [U1 U2 U3 U4] & V1 & V2 & V3); [by apply TB|exact Hid|].
  rewrite U1 in Eu. apply untrack_as_if in Eu. exists x, (roleTree c), (roleSorter c), (frameworkSorters c), b. cbn zeta. fold a1. split_and!; try done.
  - by rewrite U1 in U2.
  - by rewrite U1 in U3.
  - intros Hb. by rewrite V1.
Qed.

Lemma drop_roles a id f r (l : gset string) :
  frameworks a !! id = Some f -> tracking_ok (set_framework id (with_roles r f) a) -> accounts_ok a ->
  (forall role, role ∈ l -> id ∈ frameworks_of (roleTree a) (role_location role)) ->
  exists a' d, each (fun role a =>
        a' ← on_framework_sorter role (fun fs => sorter_deactivate fs id) a;
        '(a'', _) ← tryUntrackFrameworkUnderRole id role a';
        f' ← frameworks a'' !! id;
        Some (set_framework id (with_suppressed (suppressedRoles f' ∖ {[ role ]})
                                  (with_filters (delete role (offerFilters f')) (inverseOfferFilters f') f')) a'')) (elements l) a = Some a'
    /\ dropped id r f a d a' /\ d ≡ₚ elements l.
Proof.
  intros Hf T B Hl. apply each_progress; [apply NoDup_elements|..].
  - split; try done; [|by replace (r ∖ list_to_set []) with r by set_solver|intros x Hx; by apply elem_of_nil in Hx]. exists f. split_and!; try done; [|set_solver].
    unfold set_framework, with_tracking, with_allocator_frameworks. cbn. rewrite insert_id by done. by destruct a.
  - intros d role a' Hr%elem_of_elements Hnd _ [(f' & D1 & Er & Ea & Es) D2 D3 D4 D5 D6 D7].
    assert (Hid : id ∈ frameworks_of (roleTree a') (role_location role)) by (apply D6; [by apply Hl|by intros [_ ?]]).
    destruct (drop_role a' id _ (with_roles (r ∖ list_to_set (role :: d)) f) role D2 D3 Hid) as (x & t & r' & y & b & -> & E & T2 & B2 & Q & V1 & V2 & V3); [cbn; set_solver|done|].
    cbn [mbind option_bind] in *. rewrite E. cbn [mbind option_bind]. fields.
    assert (Hf' : frameworks a' !! id = Some f') by (rewrite D1; fields; apply lookup_insert_eq). rewrite Hf'. cbn [mbind option_bind].
    eexists. split; [done|]. split; fields.
    + exists (with_suppressed (suppressedRoles f' ∖ {[ role ]}) (with_filters (delete role (offerFilters f')) (inverseOfferFilters f') f')).
      split_and!; [|done|done|cbn [suppressedRoles with_suppressed]; rewrite Es; set_solver]. rewrite D1. unfold with_tracking, set_framework, with_allocator_frameworks. cbn. by rewrite insert_insert_eq.
    + rewrite set_framework_twice. exact T2.
    + exact B2.
    + intros loc. by rewrite Q, D4.
    + intros z i Hi. apply D5. destruct b; [|by rewrite <- V1]. rewrite V2 in Hi by done. destruct (decide _); [|done]. by apply elem_of_difference in Hi as [? _].
    + intros z i Hi Hn. assert (H : i ∈ frameworks_of (roleTree a') (role_location z)) by (apply D6; [done|set_solver]).
      destruct b; [|by rewrite V1]. rewrite V2 by done. destruct (decide _) as [->%role_location_inj|]; [|done]. set_solver.
    + assert (Es' : slaves a' = slaves a) by (by rewrite D1). intros z Hz Hi Hidle. destruct (decide (z = role)) as [->|Hne].
      * rewrite V2 in Hi by (apply V3; by rewrite Es'). rewrite decide_True in Hi by done. set_solver.
      * apply (D7 z); [set_solver| |done]. destruct b; [|by rewrite <- V1]. rewrite V2 in Hi by done. rewrite decide_False in Hi; [done|]. by intros ?%role_location_inj.
Qed.

(** The sets of roles of an update. *)
Lemma still_suppressed (s r n : gset string) : s ⊆ r -> s ∖ (r ∖ n) = s ∩ n.
Proof. intros H. apply set_eq. intros x. destruct (decide (x ∈ n)); set_solver. Qed.
Lemma exchanged (r n : gset string) : (r ∪ n ∖ r) ∖ (r ∖ n) = n.
Proof. apply set_eq. intros x. destruct (decide (x ∈ r)), (decide (x ∈ n)); set_solver. Qed.
Lemma suppressed_update (s0 n s : gset string) : s ⊆ n -> ((s0 ∩ n) ∪ s ∖ s0) ∖ ((s0 ∖ s) ∩ n) = s.
Proof. intros H. apply set_eq. intros x. destruct (decide (x ∈ s0)), (decide (x ∈ s)); set_solver. Qed.

(** The update as it is asked for. *)
Record update_ok (a : Allocator RS FS) (id : string) (f new : Framework) : Prop := {
  up_known : frameworks a !! id = Some f;
  up_active : active f = true;
  up_id : valid_client id;
  up_roles : forall role, role ∈ roles new -> valid_client role;
  up_suppressed : suppressedRoles new ⊆ roles new;
}.

(** The roles are the new ones, in the sorters and in the record. *)
Lemma update_roles a id f new a1 d1 a2 d2 f2 :
  allocator_ok options a -> update_ok a id f new ->
  added id (with_roles (roles f ∪ roles new ∖ roles f) f) a d1 a1 -> d1 ≡ₚ elements (roles new ∖ roles f) ->
  dropped id (roles f ∪ roles new ∖ roles f) f a1 d2 a2 -> d2 ≡ₚ elements (roles f ∖ roles new) ->
  frameworks a2 !! id = Some f2 ->
  let f3 := mkFramework (roles new) (suppressedRoles f2) (capabilities new) (offerFilters f2) (inverseOfferFilters f2)
              (active f2) (minAllocatableResources new) (isAgentExcluded new) in
  allocator_ok options (set_framework id f3 a2) /\ registered (set_framework id f3 a2) id (roles new) true (suppressedRoles f ∩ roles new).
Proof.
  intros Ha [Hf Hact _ _ _] [A1 A2 A3 A4 A5] Hd1 [(f' & D1 & Er & Ea & Es) D2 D3 D4 D5 D6 D7] Hd2 Hf2 f3.
  assert (f' = f2) as -> by (rewrite D1 in Hf2; change (<[id := f']> (frameworks a1) !! id = Some f2) in Hf2; rewrite lookup_insert_eq in Hf2; by injection Hf2).
  assert (S0 := me_suppressed _ (ao_members _ a Ha) id f Hf). assert (L2 := elements_progress d2 _ Hd2). rewrite L2 in Es, D2.
  assert (Esup : suppressedRoles f2 = suppressedRoles f ∩ roles new) by (rewrite Es; by apply still_suppressed).
  assert (I1 : forall x, x ∈ d1 <-> x ∈ roles new /\ x ∉ roles f) by (intros x; by rewrite Hd1, elem_of_elements, elem_of_difference).
  assert (I2 : forall x, x ∈ d2 <-> x ∈ roles f /\ x ∉ roles new) by (intros x; by rewrite Hd2, elem_of_elements, elem_of_difference).
  assert (Efs : frameworks a2 = <[id := f2]> (frameworks a)) by (rewrite D1; fields; by rewrite A1).
  assert (Esl : slaves a2 = slaves a) by (rewrite D1; fields; by rewrite A1).
  split; [split|eexists; fields; rewrite lookup_insert_eq; split_and!; [done|done|cbn; congruence|done]].
  - eapply (retracked_ok (set_framework id (with_roles ((roles f ∪ roles new ∖ roles f) ∖ (roles f ∖ roles new)) f) a2)); [|exact D2].
    rewrite <- (set_framework_twice a2 id f3 (with_roles ((roles f ∪ roles new ∖ roles f) ∖ (roles f ∖ roles new)) f)).
    eapply set_framework_retracked; [exact D2|fields; apply lookup_insert_eq| |done]. cbn. symmetry. apply exchanged.
  - destruct (ao_members _ a Ha) as [M1 M2 M3]. split; fields; rewrite ?Efs, ?Esl, ?insert_insert_eq; intros i fi.
    + intros x [[<- <-]|[Hn H]]%lookup_insert_Some Hx; [|apply D6; [apply A5; left; by apply (M1 i fi)|by intros [-> _]]].
      cbn in Hx. apply D6; [|intros [_ ?%I2]; tauto]. apply A5. destruct (decide (x ∈ roles f)); [left; by apply (M1 id f)|right; split; [done|by apply I1]].
    + intros x [[<- <-]|[Hn H]]%lookup_insert_Some Hin Hidle.
      * cbn. assert (Hd : x ∉ d2) by (intros Hd; apply (D7 x Hd Hin); by rewrite A1). apply D5, A5 in Hin as [Hin|[_ ?%I1]]; [|tauto].
        assert (x ∈ roles f) by (by apply (M2 id f)). destruct (decide (x ∈ roles new)); [done|]. destruct Hd. by apply I2.
      * apply (M2 i fi x H); [|done]. apply D5, A5 in Hin as [?|[-> _]]; done.
    + intros [[<- <-]|[Hn H]]%lookup_insert_Some; [cbn; rewrite Esup; apply intersection_subseteq_r|by apply (M3 i)].
  - intros g s. fields. rewrite Esl. apply (ao_agents _ a Ha).
  - exact D3.
  - split; intros loc; fields; rewrite D4, A4; apply (ao_quotas _ a Ha).
  - fields. rewrite D1. fields. rewrite A1. apply (ao_total _ a Ha).
  - fields. rewrite Esl, D1. fields. rewrite A1. apply (ao_candidates _ a Ha).
Qed.

Lemma updateFramework_ok a id f new :
  allocator_ok options a -> update_ok a id f new -> exists a', updateFramework options id new a = Some a' /\ allocator_ok options a'.
Proof.
  intros Ha Hup. assert (Hup' := Hup). destruct Hup' as [Hf Hact Hvi Hvr Hsup]. unfold updateFramework. rewrite Hf. cbn [mbind option_bind].
  destruct (add_roles a id f (roles new ∖ roles f) Ha Hf Hact Hvi) as (a1 & d1 & -> & Had & Hd1); [intros role ?; apply Hvr; set_solver|]. cbn [mbind option_bind].
  destruct (drop_roles a1 id f (roles f ∪ roles new ∖ roles f) (roles f ∖ roles new)) as (a2 & d2 & -> & Hdr & Hd2).
  { rewrite (ad_rest _ _ _ _ _ Had). exact Hf. }
  { apply Had. }
  { apply Had. }
  { intros role Hr. apply (ad_frameworks _ _ _ _ _ Had). left. apply (me_tracked _ (ao_members _ a Ha) id f); [done|set_solver]. }
  cbn [mbind option_bind]. assert (Hf2 : exists f2, frameworks a2 !! id = Some f2).
  { destruct Hdr as [(f' & -> & _) _ _ _ _ _ _]. exists f'. fields. apply lookup_insert_eq. }
  destruct Hf2 as [f2 Hf2]. rewrite Hf2. cbn [mbind option_bind].
  destruct (update_roles a id f new a1 d1 a2 d2 f2 Ha Hup Had Hd1 Hdr Hd2 Hf2) as [H3 R3].
  destruct (suppressRoles_ok options _ id (suppressedRoles new ∖ suppressedRoles f) _ _ _ H3 R3) as (a4 & -> & H4 & R4); [set_solver|]. cbn [mbind option_bind].
  destruct (reviveRoles_ok options _ id ((suppressedRoles f ∖ suppressedRoles new) ∩ roles new) _ _ H4 R4) as (a5 & -> & H5 & (f5 & Hf5 & _ & _ & Es)); [set_solver|].
  cbn [mbind option_bind]. rewrite Hf5. cbn [mbind option_bind]. rewrite bool_decide_eq_true_2; [by exists a5|]. rewrite Es. by apply suppressed_update.
Qed.
End Changes.
