(* ===== verification/OfferPromises.v ===== *)
(** * What the allocator promises

    The theorems on the hierarchical allocator: its handlers and rounds of
    offers never fail a [CHECK] in a permitted history, offers are taken from
    what is available, stay within limits, and leave what the guarantees need. *)

From stdpp Require Import base gmap strings list.
From Stdlib Require Import ZArith QArith.
From S2P Require Import Prelude Strings Roles Ranges Scalar Rounding Values Quantities Registry Resource Resources ResourceOps Conversions Attributes Quota SorterTree DrfSorter SorterAccounts SorterHoldings RoleTree RoleLedger Shrink Allocator OfferCycle AllocatorFrame AllocatorLaws AgentBooks AllocatorBooks AllocatorInvariant OfferSafety OfferRun AllocatorHistory Headroom OfferReturns FrameworkChanges.
Local Open Scope Z_scope.

(** ** Events *)

(** Calls of the allocator, with nothing in use when a framework or an agent
    comes; a round runs with the random orders that it draws. *)
Inductive event :=
  | OnAddFramework (frameworkId : string) (f : Framework)
  | OnUpdateFramework (frameworkId : string) (new : Framework)
  | OnRemoveFramework (frameworkId : string)
  | OnActivateFramework (frameworkId : string)
  | OnDeactivateFramework (frameworkId : string)
  | OnSuppressOffers (frameworkId : string) (l : gset string)
  | OnReviveOffers (frameworkId : string) (l : gset string)
  | OnAddSlave (slaveId : string) (i : AgentInfo) (c : SlaveCapabilities) (u : option string) (total : Resources)
  | OnUpdateSlave (slaveId : string) (i : AgentInfo) (c : option SlaveCapabilities)
  | OnActivateSlave (slaveId : string)
  | OnDeactivateSlave (slaveId : string)
  | OnUpdateUnavailability (slaveId : string) (u : option string)
  | OnTransition (frameworkId slaveId role : string) (rs : Resources)
  | OnRecover (frameworkId slaveId role : string) (rs : Resources) (filters : option double) (isAllocated : bool)
  | OnExpire (frameworkId role slaveId : string) (n : nat)
  | OnExpireInverse (frameworkId slaveId : string) (n : nat)
  | OnUpdateInverseOffer (unknown : string -> bool) (slaveId frameworkId : string) (status : option string) (filters : option double)
  | OnUpdateWhitelist (w : option (gset string))
  | OnUpdateQuota (role : string) (q : Quota)
  | OnUpdateWeights (l : list (string * double))
  | OnRecoverQuotas (expected : Z) (factor : double) (quotas : gmap string Quota)
  | OnPause
  | OnResume
  | OnRound (order : nat -> list string -> list string) (shuffle : nat -> list Resource -> list Resource).

Section Events.
  Context {RS FS : Type} {OR : SorterOps RS} {LR : SorterLaws RS} {OF : SorterOps FS} {LF : SorterLaws FS} (options : Options).
  Implicit Types a : Allocator RS FS.

Definition happen (e : event) (a : Allocator RS FS) : option (Allocator RS FS) :=
  match e with
  | OnAddFramework id f => addFramework options id f ∅ a
  | OnUpdateFramework id new => updateFramework options id new a
  | OnRemoveFramework id => removeFramework id a
  | OnActivateFramework id => activateFramework id a
  | OnDeactivateFramework id => deactivateFramework id a
  | OnSuppressOffers id l => suppressOffers id l a
  | OnReviveOffers id l => reviveOffers id l a
  | OnAddSlave g i c u total => addSlave_ options g i c u total ∅ a
  | OnUpdateSlave g i c => updateSlave g i None c a
  | OnActivateSlave g => activateSlave g a
  | OnDeactivateSlave g => deactivateSlave g a
  | OnUpdateUnavailability g u => updateUnavailability g u a
  | OnTransition _ g _ rs => transitionOfferedToAllocated g rs a
  | OnRecover id g _ rs filters b => recoverResources id g rs filters b a
  | OnExpire id role g n => Some (expire_ id role g n a)
  | OnExpireInverse id g n => Some (expire_inverse id g n a)
  | OnUpdateInverseOffer unknown g id status filters => updateInverseOffer unknown g id status filters a
  | OnUpdateWhitelist w => Some (updateWhitelist w a)
  | OnUpdateQuota role q => updateQuota_ role q a
  | OnUpdateWeights l => updateWeights_ l a
  | OnRecoverQuotas expected factor quotas => recover_ expected factor quotas a
  | OnPause => Some (pause a)
  | OnResume => Some (resume a)
  | OnRound order shuffle => '(a', _, _) ← generateOffers_run options shuffle order a; Some a'
  end.

(** An agent that registers again, with resources and attributes of its own. *)
Record agent_returns (slaveId : string) (i : AgentInfo) : Prop := {
  ar_id : info_id i = slaveId;
  ar_domain : forall region, domain i = Some (Some region) -> exists r, master_domain options = Some (Some r);
  ar_attributes : Forall supported (info_attributes i);
}.

(** Of what is offered on an agent, [rs] is not yet in use, or is in use. *)
Definition idle_enough (s : Slave) (rs : Resources) : Prop :=
  forall k, wf_resource k -> amount_held (totalAllocated s) k + amount_held rs k <= amount_held (totalOfferedOrAllocated s) k.
Definition in_use_enough (s : Slave) (rs : Resources) : Prop :=
  forall k, wf_resource k -> amount_held rs k <= amount_held (totalAllocated s) k.

(** What the master sees to. *)
Definition may_happen (e : event) (a : Allocator RS FS) : Prop :=
  match e with
  | OnAddFramework id f =>
      frameworks a !! id = None /\ active f = true /\ valid_client id
      /\ (forall role, role ∈ roles f -> valid_client role) /\ suppressedRoles f ⊆ roles f
  | OnUpdateFramework id new => exists f, update_ok a id f new
  | OnRemoveFramework id => is_Some (frameworks a !! id) /\ holds_nothing a id
  | OnActivateFramework id | OnDeactivateFramework id => is_Some (frameworks a !! id)
  | OnSuppressOffers id l => exists f, frameworks a !! id = Some f /\ l ⊆ roles f
  | OnReviveOffers id l => exists f, frameworks a !! id = Some f /\ l ⊆ roles f /\ active f = true
  | OnAddSlave g i _ _ total => slaves a !! g = None /\ (paused a = false \/ is_Some (expectedAgentCount a)) /\ agent_arrives options g i total
  | OnUpdateSlave g i _ => is_Some (slaves a !! g) /\ agent_returns g i
  | OnActivateSlave g | OnDeactivateSlave g | OnUpdateUnavailability g _ => is_Some (slaves a !! g)
  | OnTransition id g role rs => outstanding a id g role rs /\ exists s, slaves a !! g = Some s /\ idle_enough s rs
  | OnRecover id g role rs _ b => outstanding a id g role rs /\ exists s, slaves a !! g = Some s /\ if b then in_use_enough s rs else idle_enough s rs
  | OnUpdateInverseOffer unknown g id status _ =>
      is_Some (frameworks a !! id) /\ (exists s, slaves a !! g = Some s /\ is_Some (maintenance s)) /\ forall st, status = Some st -> unknown st = false
  | OnExpire _ _ _ _ | OnExpireInverse _ _ _ => True
  | OnUpdateQuota role q => top_level role /\ quota_ok q
  | OnRecoverQuotas expected _ quotas =>
      slaves a = ∅ /\ 0 <= expected /\ forall role q, quotas !! role = Some q -> top_level role /\ quota_ok q
  | OnUpdateWeights l => Forall (fun x => weight_ok x.2) l
  | OnUpdateWhitelist _ | OnPause | OnResume => True
  | OnRound order shuffle => orders order shuffle
  end.

Lemma frameworks_retouched a (h : Framework -> Framework) :
  (forall f, roles (h f) = roles f /\ active (h f) = active f /\ suppressedRoles (h f) = suppressedRoles f) ->
  allocator_ok options a -> allocator_ok options (with_allocator_frameworks (h <$> frameworks a) a).
Proof.
  intros Hh [T B A K Q W C]. assert (R : retracked a (with_allocator_frameworks (h <$> frameworks a) a)).
  { split; fields; try done; [|apply T..|].
    - split; [done|]. intros id. fields. rewrite lookup_fmap. destruct (frameworks a !! id) as [f|]; [|done]. cbn. by destruct (Hh f) as (-> & -> & _).
    - intros role. by destruct (frameworkSorters a !! role). }
  split; try done; [by eapply retracked_ok|]. eapply retracked_members; [exact R|done| |done].
  intros id f1. fields. rewrite lookup_fmap. destruct (frameworks a !! id) as [f|] eqn:Hf; [|done]. intros [= <-].
  destruct (Hh f) as (-> & _ & ->). by apply (me_suppressed _ B id).
Qed.

Lemma agent_field a g s s' :
  allocator_ok options a -> slaves a !! g = Some s -> (agent_ok options g s -> agent_ok options g s') -> slave_accounts s' = slave_accounts s ->
  allocator_ok options (set_slave g s' a).
Proof. intros Ha Hs H E. eapply agent_retouched; [done|exact Hs| |done]. by apply H, (ao_agents _ a Ha). Qed.

Lemma maintenance_ok g s m : agent_ok options g s -> agent_ok options g (with_maintenance m s).
Proof. intros [A1 A2 A3 A4 A5 A6 A7 A8 A9]. by split. Qed.

Lemma activated_ok g s b : agent_ok options g s -> agent_ok options g (with_activated b s).
Proof. intros [A1 A2 A3 A4 A5 A6 A7 A8 A9]. by split. Qed.

Lemma updateUnavailability_ok a g u :
  allocator_ok options a -> is_Some (slaves a !! g) -> exists a', updateUnavailability g u a = Some a' /\ allocator_ok options a'.
Proof.
  intros Ha [s Hs]. unfold updateUnavailability. rewrite Hs. cbn [mbind option_bind]. eexists. split; [done|].
  apply generateOffers_ok; [|fields; rewrite dom_insert_L; set_solver].
  eapply agent_field; [by apply frameworks_retouched|exact Hs|apply maintenance_ok|done].
Qed.

Lemma info_eqb_some l r :
  Forall supported (info_attributes l) -> Forall supported (info_attributes r) -> is_Some (info_eqb l r).
Proof.
  intros Hl Hr. unfold info_eqb. destruct (negb _); [by eexists|]. destruct (same_attributes_spec _ _ Hl Hr) as (b & -> & _). by eexists.
Qed.

Lemma capabilities_ok g s c : agent_ok options g s -> agent_ok options g (with_slave_capabilities c s).
Proof. intros [A1 A2 A3 A4 A5 A6 A7 A8 A9]. by split. Qed.

Lemma updateSlave_ok a g i c s :
  allocator_ok options a -> slaves a !! g = Some s -> agent_returns g i ->
  exists a', updateSlave g i None c a = Some a' /\ allocator_ok options a'.
Proof.
  intros Ha Hs Hi. assert (Hag := ao_agents _ a Ha g s Hs). unfold updateSlave. rewrite (bool_decide_eq_true_2 (g = info_id i)) by (by rewrite (ar_id _ _ Hi)).
  rewrite Hs. cbn [negb mbind option_bind].
  destruct (same_attributes_spec _ _ (ar_attributes _ _ Hi) (ag_attributes _ _ _ Hag)) as (b & -> & _). cbn [mbind option_bind].
  destruct (info_eqb_some (info s) i (ag_attributes _ _ _ Hag) (ar_attributes _ _ Hi)) as [b' ->]. cbn [mbind option_bind].
  eexists. split; [done|]. set (s2 := match c with Some c => with_slave_capabilities c _ | None => _ end). set (a1 := if b then a else _).
  assert (Hs2 : agent_ok options g s2).
  { assert (H1 : agent_ok options g (if b' then s else with_info i s)).
    { destruct b'; [done|]. destruct Hag as [A1 A2 A3 A4 A5 A6 A7 A8 A9], Hi as [B1 B2 B3]. by split. }
    unfold s2. destruct c; [by apply capabilities_ok|done]. }
  assert (Ha1 : allocator_ok options a1) by (unfold a1; destruct b; [done|by apply frameworks_retouched]).
  assert (Hs1 : slaves a1 !! g = Some s) by (unfold a1; by destruct b).
  assert (E2 : slave_accounts s2 = slave_accounts s) by (unfold s2; by destruct c, b').
  assert (Hset : allocator_ok options (set_slave g s2 a1)) by (by eapply agent_retouched).
  case_match; [|done]. apply generateOffers_ok; [done|]. fields. rewrite dom_insert_L. set_solver.
Qed.

Lemma expire_ok a id role g n : allocator_ok options a -> allocator_ok options (expire_ id role g n a).
Proof.
  intros Ha. unfold expire_. destruct (frameworks a !! id) as [f|] eqn:Hf; [|done]. case_bool_decide; [|done].
  unfold drop_filter. destruct (filters_at role g f); [by apply filters_ok|]. eapply framework_retouched; [done|exact Hf|done|done|exact (me_suppressed _ (ao_members _ a Ha) id f Hf)].
Qed.

Lemma expire_inverse_ok a id g n : allocator_ok options a -> allocator_ok options (expire_inverse id g n a).
Proof.
  intros Ha. unfold expire_inverse. destruct (frameworks a !! id) as [f|] eqn:Hf; [|done]. destruct (inverseOfferFilters f !! g); [|done].
  case_bool_decide; [|done]. by apply filters_ok.
Qed.

Lemma updateInverseOffer_ok a unknown g id status filters s :
  allocator_ok options a -> is_Some (frameworks a !! id) -> slaves a !! g = Some s -> is_Some (maintenance s) -> (forall st, status = Some st -> unknown st = false) ->
  exists a', updateInverseOffer unknown g id status filters a = Some a' /\ allocator_ok options a'.
Proof.
  intros Ha [f Hf] Hs [m Hm] Hst. unfold updateInverseOffer. rewrite Hf, Hs. cbn [mbind option_bind]. rewrite Hm. cbn [mbind option_bind].
  match goal with |- context [if bool_decide (id ∈ offersOutstanding m) then ?x else ?y] =>
    assert (E : exists m', (if bool_decide (id ∈ offersOutstanding m) then x else y) = Some m') end.
  { case_bool_decide; [|by eexists]. destruct status as [st|]; [rewrite (Hst st) by done|]; by eexists. }
  destruct E as [m' ->]. cbn [mbind option_bind].
  assert (H1 : allocator_ok options (set_slave g (with_maintenance (Some m') s) a)) by (eapply agent_field; [done|exact Hs|apply maintenance_ok|done]).
  destruct filters as [seconds|]; [destruct (refuses seconds)|]; (eexists; split; [done|]); try done. by apply filter_count_ok, filters_ok.
Qed.

Lemma happen_ok e a : allocator_ok options a -> may_happen e a -> exists a', happen e a = Some a' /\ allocator_ok options a'.
Proof.
  intros Ha He. destruct e; cbn [happen may_happen] in *.
  - destruct He as (H1 & H2 & H3 & H4 & H5). by apply addFramework_ok.
  - destruct He as [f Hf]. by eapply updateFramework_ok.
  - destruct He as [[f Hf] Hno]. destruct (removeFramework_ok options a frameworkId f Ha Hf Hno) as (a' & E & H & _). by exists a'.
  - destruct He as [f Hf]. by apply (activateFramework_ok options a frameworkId f).
  - destruct He as [f Hf]. by apply (deactivateFramework_ok options a frameworkId f).
  - destruct He as (f & Hf & Hl). by apply (suppressOffers_ok options a frameworkId f).
  - destruct He as (f & Hf & Hl & Hact). by apply (reviveOffers_ok options a frameworkId f).
  - destruct He as (H1 & H2 & H3). by apply addSlave_ok.
  - destruct He as [[s Hs] H]. by apply (updateSlave_ok a slaveId i c s).
  - destruct He as [s Hs]. unfold activateSlave. rewrite Hs. eexists. split; [done|]. eapply agent_field; [done|exact Hs|apply activated_ok|done].
  - destruct He as [s Hs]. unfold deactivateSlave. rewrite Hs. eexists. split; [done|]. eapply agent_field; [done|exact Hs|apply activated_ok|done].
  - by apply updateUnavailability_ok.
  - destruct He as (Ho & s & Hs & H). by eapply transition_ok.
  - destruct He as (Ho & s & Hs & H). destruct (recover_ok options a frameworkId slaveId role rs s filters isAllocated Ha Ho Hs) as (a' & s' & E & H' & _); [by destruct isAllocated|by exists a'].
  - eexists. split; [done|]. by apply expire_ok.
  - eexists. split; [done|]. by apply expire_inverse_ok.
  - destruct He as (H1 & (s & Hs & Hm) & H2). by eapply updateInverseOffer_ok.
  - eexists. split; [done|]. by apply whitelist_ok.
  - destruct He as [H1 H2]. by apply updateQuota_ok.
  - by apply updateWeights_ok.
  - destruct He as (H1 & H2 & H3). by apply recover_allocator_ok.
  - eexists. split; [done|]. by apply paused_ok.
  - eexists. split; [done|]. by apply paused_ok.
  - destruct (paused a) eqn:Ep.
    + unfold generateOffers_run. rewrite Ep. eexists. split; [done|]. apply candidates_ok; [done|]. apply (ao_candidates _ a Ha).
    + destruct (run_ok options order shuffle a He Ha Ep) as (h & c & a' & inv & _ & I & -> & M). eexists. split; [done|]. by eapply after_run_ok.
Qed.

Fixpoint happen_all (l : list event) (a : Allocator RS FS) : option (Allocator RS FS) :=
  match l with [] => Some a | e :: l' => a' ← happen e a; happen_all l' a' end.

Fixpoint may_happen_all (l : list event) (a : Allocator RS FS) : Prop :=
  match l with [] => True | e :: l' => may_happen e a /\ forall a', happen e a = Some a' -> may_happen_all l' a' end.

Lemma history_ok l a : allocator_ok options a -> may_happen_all l a -> exists a', happen_all l a = Some a' /\ allocator_ok options a'.
Proof.
  revert a. induction l as [|e l IH]; intros a Ha; cbn; [by exists a|]. intros [He Hl]. destruct (happen_ok e a Ha He) as (a1 & E & H1).
  rewrite E. cbn. apply IH; [done|]. by apply Hl.
Qed.

Lemma reached_ok l a : may_happen_all l (new_allocator options) -> happen_all l (new_allocator options) = Some a -> allocator_ok options a.
Proof.
  intros Hl E. destruct (history_ok l _ (new_allocator_ok options) Hl) as (a' & E' & Ha). rewrite E in E'. by injection E' as <-.
Qed.

(** The totals of the cluster agree with its agents as well. *)
Lemma maintenance_kept a a' : only_maintenance a a' -> kept a a'.
Proof.
  intros [E H]. unfold kept, account. rewrite E at 1 3. cbn. do 2 f_equal. apply map_eq. intros g. rewrite !lookup_fmap. specialize (H g).
  destruct (slaves a !! g) as [s|], (slaves a' !! g) as [s'|]; try done. cbn. by rewrite H.
Qed.

Lemma happen_kept e a a' :
  allocator_ok options a -> may_happen e a -> happen e a = Some a' ->
  match e with OnAddSlave _ _ _ _ _ => True | _ => kept a a' end.
Proof.
  intros Ha He H. destruct e; cbn [happen may_happen] in *; try done; try (injection H as <-); try done.
  - by eapply addFramework_kept.
  - by eapply updateFramework_kept.
  - by eapply removeFramework_kept.
  - by eapply activate_kept.
  - by eapply deactivate_kept.
  - apply bind_Some in H as (f & _ & H). by eapply suppress_kept.
  - apply bind_Some in H as (f & _ & H). apply bind_Some in H as (a1 & H1 & H). injection H as <-. unfold kept.
    rewrite <- (revive_kept _ _ _ _ H1). apply generate_kept.
  - by eapply updateSlave_kept.
  - by eapply slave_field_kept; [|exact H].
  - by eapply slave_field_kept; [|exact H].
  - by eapply updateUnavailability_kept.
  - by eapply transition_kept.
  - by eapply recover_kept.
  - unfold expire_. repeat case_match; done.
  - unfold expire_inverse. repeat case_match; done.
  - by eapply updateInverseOffer_kept.
  - by eapply updateQuota_kept.
  - by eapply updateWeights_kept.
  - by eapply recover_quotas_kept.
  - destruct (paused a) eqn:Ep; [unfold generateOffers_run in H; rewrite Ep in H; by injection H as <-|].
    destruct (run_ok options order shuffle a He Ha Ep) as (h & c & x & inv & _ & [Hc _] & E & M). rewrite E in H. injection H as <-.
    unfold kept. rewrite <- (co_kept _ _ _ Hc), <- (maintenance_kept _ _ M). done.
Qed.

Lemma happen_totals e a a' :
  allocator_ok options a -> may_happen e a -> happen e a = Some a' -> totals_ok a -> totals_ok a'.
Proof.
  intros Ha He H T. assert (K := happen_kept e a a' Ha He H). destruct e; try by eapply kept_totals.
  cbn in *. destruct He as (_ & _ & Harr). by eapply addSlave_totals.
Qed.

Lemma history_totals l a a' :
  allocator_ok options a -> may_happen_all l a -> happen_all l a = Some a' -> totals_ok a -> totals_ok a'.
Proof.
  revert a. induction l as [|e l IH]; intros a Ha; cbn; [by intros _ [= <-]|]. intros [He Hl] H T.
  destruct (happen_ok e a Ha He) as (a1 & E & H1). rewrite E in H. apply (IH a1 H1 (Hl a1 E) H). exact (happen_totals e a a1 Ha He E T).
Qed.

(** ** Properties of a round *)

(** The guarantees at the top level that are not satisfied, after [m] was offered. *)
Definition unsatisfied (t : RoleTree) (m : offers) (n : string) : Z :=
  zsum (fun x => Z.max 0 (Quantities.get (q_guarantees (quota_ x.2)) n - (consumed_before t x.1 n + offered_quota m x.1 n))) (top_level_roles t).

Lemma free_maintenance a a' n : only_maintenance a a' -> free (slaves a') n = free (slaves a) n.
Proof.
  intros [_ H]. assert (E : forall m : gmap string Slave, free m n = map_sum (fun _ rs => part quota_resource n rs) (available <$> m)).
  { intros m. unfold free, map_sum. rewrite map_to_list_fmap. rewrite zsum_map. apply zsum_ext. by intros [g s] _. }
  rewrite !E. f_equal. apply map_eq. intros g. rewrite !lookup_fmap. specialize (H g).
  destruct (slaves a !! g) as [s|], (slaves a' !! g) as [s'|]; try done. cbn. by rewrite H.
Qed.

Lemma offered_quota_nonneg m role n : (forall key rs, m !! key = Some rs -> scalar_resources rs) -> 0 <= offered_quota m role n.
Proof.
  intros H. apply zsum_nonneg. intros [key rs] Hx%elem_of_map_to_list. cbn. destruct (decide _); [|done]. apply part_nonneg_. by apply (H key).
Qed.

Lemma consumed_before_nonneg t role n : tree_inv t -> 0 <= consumed_before t role n.
Proof.
  intros Ht. apply get_nonneg. destruct (initial_consumed t !! role) eqn:E; [by eapply initial_consumed_wf|apply nil_wf].
Qed.

(** In terms of what was offered, the counters of the cycle. *)
Lemma unsatisfied_shortage a h c n :
  allocator_ok options a -> in_cycle options a h c ->
  (forall tok r, (tok, r) ∈ top_level_roles (roleTree a) -> quota_ r <> DEFAULT_QUOTA -> top_level tok) ->
  unsatisfied (roleTree a) (offerable c) n <= shortage (roleTree a) (rolesConsumedQuota c) n.
Proof.
  intros Ha [Hc N] Htop. apply zsum_le. intros [tok r] Hx. cbn [fst snd]. assert (Hr := top_level_elem _ _ _ Hx).
  destruct (decide (quota_ r = DEFAULT_QUOTA)) as [->|Hd].
  - change (Quantities.get (q_guarantees DEFAULT_QUOTA) n) with 0.
    assert (O := offered_quota_nonneg (offerable c) tok n (co_offers _ _ _ Hc)). assert (C := consumed_before_nonneg (roleTree a) tok n (tr_tree _ (ao_tracking _ a Ha))). lia.
  - destruct (nu_consumed _ _ _ N tok (Htop tok r Hx Hd)) as (q & -> & E); [unfold quota_of; by rewrite Hr|].
    change (default [] (Some q)) with q. by rewrite E.
Qed.

Lemma quota_roles_top t tok r : quotas_ok t -> t !! [tok] = Some r -> quota_ r <> DEFAULT_QUOTA -> top_level tok.
Proof.
  intros Hq Hr Hd. destruct (qs_top _ Hq [tok]) as (role & Ht & E); [unfold quota_of; by rewrite Hr|]. by injection E as ->.
Qed.

(** Offers to roles below [role] make no difference where no framework is
    tracked under them. *)
Lemma offered_below_eq a h c role n :
  in_cycle options a h c ->
  (forall role', isStrictSubroleOf role' role = true -> frameworks_of (roleTree a) (role_location role') = ∅) ->
  offered_below (offerable c) role n = offered_quota (offerable c) role n.
Proof.
  intros [Hc _] Hno. apply zsum_ext. intros [key rs] Hx%elem_of_map_to_list. cbn. destruct (decide (key.1.2 = role)) as [E|E].
  - rewrite decide_True by (by left). done.
  - rewrite decide_False; [done|]. intros [?|Hs]; [done|]. assert (K := co_keys _ _ _ Hc key rs Hx). rewrite Hno in K by done. set_solver.
Qed.

(** C29. A round of offers after a permitted history passes every check, whatever
    the random orders, and conserves: on every agent, of every kind of resource,
    what is available afterwards and what was offered add up to what was
    available before, and what is available is not negative.  In a permitted
    history ([may_happen]) the agents have unshared scalar resources only and
    arrive with nothing in use, and a framework that is deactivated does not
    revive: a shared resource is offered twice ([shared_offered_twice]), and a
    round after such a revival aborts ([revive_while_deactivated]). *)
Theorem round_conserves order shuffle l a :
  orders order shuffle -> may_happen_all l (new_allocator options) -> happen_all l (new_allocator options) = Some a -> paused a = false ->
  exists a' m inverse, generateOffers_run options shuffle order a = Some (a', m, inverse)
    /\ forall g s0, slaves a !! g = Some s0 ->
         exists s, slaves a' !! g = Some s /\ slave_total s = slave_total s0
           /\ forall k, wf_resource k -> 0 <= amount_held (available s) k /\ amount_held (available s) k + offered_on m g k = amount_held (available s0) k.
Proof.
  intros Ho Hl El Hp. assert (Ha := reached_ok l a Hl El).
  destruct (run_ok options order shuffle a Ho Ha Hp) as (h & c & a' & inv & _ & [Hc _] & E & M).
  eexists _, _, _. split; [exact E|]. intros g s0 H0. assert (K := co_slaves _ _ _ Hc g). rewrite H0 in K.
  assert (K' := om_slaves _ _ M g). destruct (slaves (c_allocator c) !! g) as [s|] eqn:Es; [|done].
  destruct (slaves a' !! g) as [s'|] eqn:Es'; [|done]. exists s'. split_and!; [done|rewrite K'; apply K|]. intros k Hk. rewrite K'. split; [|by apply K].
  destruct (agent_available _ _ _ (co_agents _ _ _ Hc g s Es)) as (A1 & _). exact (held_nonneg _ k A1).
Qed.

(** C30. A round of offers after a permitted history (agents with unshared scalar
    resources, see [may_happen]) keeps the roles at the top level within their
    limits as far as offers to the role itself go: of a resource that the quota
    of such a role limits, what the role and the roles below it have consumed and
    what the role is offered in the round are within the limit, or it was above
    the limit before and is offered nothing of it.  If no framework is in a role
    below it, the same holds with the offers to the roles below it counted as
    well; with frameworks there it does not ([subrole_ignores_limit]). *)
Theorem round_within_limits order shuffle l a :
  orders order shuffle -> may_happen_all l (new_allocator options) -> happen_all l (new_allocator options) = Some a -> paused a = false ->
  exists a' m inverse, generateOffers_run options shuffle order a = Some (a', m, inverse)
    /\ forall role r n b, roleTree a !! [role] = Some r -> limits_get (q_limits (quota_ r)) n = Some b ->
         let consumed := Quantities.get (quotaOfferedOrConsumed r) n in
         consumed + offered_quota m role n <= Z.max b consumed
         /\ ((forall role', isStrictSubroleOf role' role = true -> frameworks_of (roleTree a) (role_location role') = ∅) ->
             consumed + offered_below m role n <= Z.max b consumed).
Proof.
  intros Ho Hl El Hp. assert (Ha := reached_ok l a Hl El).
  destruct (run_ok options order shuffle a Ho Ha Hp) as (h & c & a' & inv & _ & I & E & M). assert (N := proj2 I).
  eexists _, _, _. split; [exact E|]. intros role r n b Hr Hb. assert (Hd : quota_ r <> DEFAULT_QUOTA) by (by intros Ed; rewrite Ed in Hb).
  assert (Ht := quota_roles_top _ _ _ (ao_quotas _ a Ha) Hr Hd). assert (L := nu_limits _ _ _ N role n b Ht).
  unfold quota_of in L. rewrite Hr in L. specialize (L Hb). unfold consumed_before in L.
  rewrite (initial_consumed_there _ role r (tr_tree _ (ao_tracking _ a Ha)) Hr Hd) in L. split; [done|].
  intros Hno. by rewrite (offered_below_eq a h c role n I Hno).
Qed.

(** C31. A round of offers after a permitted history (agents with unshared scalar
    resources, see [may_happen]) leaves room for guarantees.  The headroom that
    the round computes from the totals of the cluster, the allocations, the
    reservations and the revocable resources is no more than what is available
    on the agents, unreserved and not revocable; and of every resource, what
    remains available so after the round falls short of the guarantees that are
    still not satisfied by no more than the headroom fell short of them before:
    not at all, if it did not.  A guarantee of a role is satisfied by what the
    role and the roles below it consumed before the round and by what the role
    itself is offered in it. *)
Theorem round_leaves_guarantees order shuffle l a :
  orders order shuffle -> may_happen_all l (new_allocator options) -> happen_all l (new_allocator options) = Some a -> paused a = false ->
  exists h a' m inverse, initial_headroom a = Some h /\ generateOffers_run options shuffle order a = Some (a', m, inverse)
    /\ forall n, Quantities.get h n <= free (slaves a) n
         /\ unsatisfied (roleTree a) m n - free (slaves a') n <= Z.max 0 (unsatisfied (roleTree a) ∅ n - Quantities.get h n).
Proof.
  intros Ho Hl El Hp. assert (Ha := reached_ok l a Hl El). assert (T := history_totals l _ a (new_allocator_ok options) Hl El (new_totals options)).
  destruct (run_ok options order shuffle a Ho Ha Hp) as (h & c & a' & inv & Hh & I & E & M).
  assert (Hfree := fun n => headroom_is_free options a h n Ha T Hh).
  eexists h, _, _, _. split; [done|]. split; [exact E|]. intros n. split; [done|]. change (slaves (with_candidates ∅ false a')) with (slaves a').
  rewrite (free_maintenance _ _ n M).
  assert (U : unsatisfied (roleTree a) (offerable c) n <= shortage (roleTree a) (rolesConsumedQuota c) n).
  { apply (unsatisfied_shortage a h c n Ha I). intros tok r Hx%top_level_elem. intros Hd. by apply (quota_roles_top _ _ _ (ao_quotas _ a Ha) Hx). }
  assert (U0 : Quantities.get (initial_required (roleTree a)) n = unsatisfied (roleTree a) ∅ n).
  { rewrite (proj2 (initial_required_spec _ (tr_tree _ (ao_tracking _ a Ha)) (ao_quotas _ a Ha))). apply zsum_ext. intros x _.
    unfold offered_quota, consumed_before. rewrite empty_sum. f_equal. lia. }
  destruct I as [_ N]. assert (S := nu_short _ _ _ N n). assert (R := nu_room _ _ _ N n). assert (F := nu_free _ _ _ N Hfree n). lia.
Qed.

(** C32. The allocator never aborts: in any permitted sequence of calls
    (frameworks come, change their roles and go, suppress, revive, are activated
    and deactivated, agents come, go into maintenance, are activated and
    deactivated, offers are put to use and resources returned with or without a
    filter, filters expire, quotas, weights and the whitelist change, offers are
    paused and resumed, rounds of offers run) no [CHECK] fails, with any sorter
    that obeys the laws, as the DRF sorter and the random sorter do, and afterwards the sorters of roles and frameworks, the
    tree of roles and the books of the agents agree on what every framework
    holds of every role on every agent. *)
Theorem allocator_never_aborts l :
  may_happen_all l (new_allocator options) -> exists a, happen_all l (new_allocator options) = Some a /\ allocator_ok options a.
Proof. apply history_ok, new_allocator_ok. Qed.
End Events.

(** ** An example: two frameworks, a quota, an agent and a round *)

Definition plain_options : Options := mkOptions None false None None.
Definition all_capabilities : Capabilities := mkCapabilities true true true true true true.
Definition plain_framework (role : string) : Framework :=
  mkFramework {[ role ]} ∅ all_capabilities ∅ ∅ true ∅ (fun _ _ => false).
Definition all_slave_capabilities : SlaveCapabilities := mkSlaveCapabilities true true true true true true true true.
Definition plain_agent (id : string) : AgentInfo := mkAgentInfo id id 5051 [] [] None false.
Definition cpus_resource (z : Z) : Resource := mkResource "cpus" (VScalar z) None [] None false false None.
Definition half_quota : Quota := mkQuota [("cpus"%string, 1000)] [("cpus"%string, 2000)].

Definition setup : list event :=
  [OnAddFramework "f" (plain_framework "a"); OnUpdateQuota "a" half_quota; OnAddFramework "g" (plain_framework "b");
   OnAddSlave "s" (plain_agent "s") all_slave_capabilities None [as_element (cpus_resource 4000)]].

Definition in_order : event := OnRound (fun _ l => l) (fun _ l => l).

Notation drf_start := (new_allocator (RS := Sorter) (FS := Sorter) plain_options).

Lemma may_happen_next e l (a a' : Allocator Sorter Sorter) :
  happen plain_options e a = Some a' -> may_happen plain_options e a -> may_happen_all plain_options l a' -> may_happen_all plain_options (e :: l) a.
Proof. intros E H Hl. split; [done|]. intros x Ex. rewrite E in Ex. by injection Ex as <-. Qed.

Lemma find_single m v n : find_entry [(m, v)] n = if decide (m = n) then Some v else None.
Proof.
  cbn [find_entry]. case_bool_decide; [by rewrite decide_True|]. rewrite decide_False by done. by destruct (strcmp m n).
Qed.

Lemma half_quota_ok : quota_ok half_quota.
Proof.
  split; [by repeat constructor|by split; repeat constructor|]. intros n b. unfold limits_get, Quantities.get. cbn [q_limits q_guarantees half_quota].
  rewrite !find_single. destruct (decide _); [|done]. by intros [= <-].
Qed.

Lemma agent_s_arrives : agent_arrives plain_options "s" (plain_agent "s") [as_element (cpus_resource 4000)].
Proof.
  split; [done| |by repeat constructor|by vm_compute|done|done]. apply scalar_items. split; [by split; constructor|]. repeat constructor; solve_wf.
Qed.

Lemma plain_may_come (a : Allocator Sorter Sorter) id role :
  frameworks a !! id = None -> valid_client id -> valid_client role -> may_happen plain_options (OnAddFramework id (plain_framework role)) a.
Proof. intros H Hi Hr. split_and!; [done|done|done| |done]. intros r Hin. unfold plain_framework in Hin. cbn [roles] in Hin. apply elem_of_singleton in Hin as ->. done. Qed.

Ltac one_token := vm_compute; repeat constructor; discriminate.

Lemma setup_allowed l :
  (forall a, happen_all plain_options setup drf_start = Some a -> may_happen_all plain_options l a) -> may_happen_all plain_options (setup ++ l) drf_start.
Proof.
  intros Hl. cbn [setup app].
  eapply may_happen_next; [vm_compute; reflexivity|apply plain_may_come; [done|one_token..]|].
  eapply may_happen_next; [vm_compute; reflexivity|split; [by vm_compute|apply half_quota_ok]|].
  eapply may_happen_next; [vm_compute; reflexivity|apply plain_may_come; [by vm_compute|one_token..]|].
  eapply may_happen_next; [vm_compute; reflexivity|split_and!; [by vm_compute|left; by vm_compute|apply agent_s_arrives]|].
  apply Hl. by vm_compute.
Qed.

(** What the first round offers, two cpus to each framework. *)
Definition offered_cpus (role : string) : Resources := allocate role [as_element (cpus_resource 2000)].

Lemma offered_cpus_scalar role : scalar_resources (offered_cpus role).
Proof.
  apply allocate_scalar; [|by repeat constructor]. apply scalar_items. split; [by split; constructor|]. repeat constructor; solve_wf.
Qed.

Lemma offered_cpus_outstanding (a : Allocator Sorter Sorter) id role s :
  slaves a !! "s"%string = Some s -> offeredOrAllocated s !! id = Some (offered_cpus role) -> outstanding a id "s" role (offered_cpus role).
Proof.
  intros Hs Ho. split; [apply offered_cpus_scalar|by repeat constructor|by repeat constructor|done|]. intros k _. unfold offered_to. by rewrite Hs, Ho.
Qed.

Lemma offered_cpus_more k : amount_held (offered_cpus "a") k <= amount_held (offered_cpus "a" ++ offered_cpus "b") k.
Proof.
  assert (N := held_nonneg (offered_cpus "b") k (offered_cpus_scalar "b")). unfold amount_held in *. cbn [app offered_cpus allocate map] in *. rewrite !measure_cons in *.
  change (measure [] k PScalar) with 0 in *. lia.
Qed.

Lemma holds_nothing_computed (a : Allocator Sorter Sorter) id :
  forallb (fun x => match offeredOrAllocated x.2 !! id with None => true | Some _ => false end) (map_to_list (slaves a)) = true -> holds_nothing a id.
Proof.
  intros H g s Hs%elem_of_map_to_list. rewrite forallb_forall in H. specialize (H (g, s)). cbn in H. rewrite <- list_elem_of_In in H. specialize (H Hs).
  by destruct (offeredOrAllocated s !! id).
Qed.

(** The first framework puts its offer to use and returns it later, the second
    declines, changes its role and leaves, and a round follows. *)
Definition after_setup : list event :=
  [in_order; OnTransition "f" "s" "a" (offered_cpus "a"); OnReviveOffers "g" ∅; in_order; OnRecover "f" "s" "a" (offered_cpus "a") None true;
   OnRecover "g" "s" "b" (offered_cpus "b") (Some 5%Q) false; OnUpdateFramework "g" (plain_framework "c"); OnRemoveFramework "g"; in_order].

Lemma allocator_never_aborts_witness :
  exists a, happen_all plain_options (setup ++ after_setup) drf_start = Some a /\ allocator_ok plain_options a.
Proof.
  apply (allocator_never_aborts plain_options (setup ++ after_setup)). apply setup_allowed. intros a E. vm_compute in E. injection E as <-.
  eapply may_happen_next; [vm_compute; reflexivity|done|].
  eapply may_happen_next; [vm_compute; reflexivity|split; [eapply offered_cpus_outstanding; by vm_compute|]|].
  { eexists. split; [by vm_compute|]. intros k _. apply offered_cpus_more. }
  eapply may_happen_next; [vm_compute; reflexivity|eexists; split_and!; [by vm_compute|done|done]|].
  eapply may_happen_next; [vm_compute; reflexivity|done|].
  eapply may_happen_next; [vm_compute; reflexivity|split; [eapply offered_cpus_outstanding; by vm_compute|]|].
  { eexists. split; [by vm_compute|]. intros k _. done. }
  eapply may_happen_next; [vm_compute; reflexivity|split; [eapply offered_cpus_outstanding; by vm_compute|]|].
  { eexists. split; [by vm_compute|]. intros k _. done. }
  eapply may_happen_next; [vm_compute; reflexivity|eexists; split; [by vm_compute|done|one_token| |done]|].
  { intros r Hr. unfold plain_framework in Hr. cbn [roles] in Hr. apply elem_of_singleton in Hr as ->. one_token. }
  eapply may_happen_next; [vm_compute; reflexivity|split; [eexists; by vm_compute|]|].
  { apply holds_nothing_computed. by vm_compute. }
  eapply may_happen_next; [vm_compute; reflexivity|done|done].
Defined.

(** The state after the setup. *)
Definition ready : Allocator Sorter Sorter := default drf_start (happen_all plain_options setup drf_start).

Lemma setup_permitted : may_happen_all plain_options setup drf_start.
Proof. rewrite <- (app_nil_r setup). by apply setup_allowed. Qed.

Lemma ready_reached : happen_all plain_options setup drf_start = Some ready.
Proof. vm_compute. reflexivity. Qed.

Lemma round_conserves_witness :
  exists a' m inverse, generateOffers_run plain_options (fun _ l => l) (fun _ l => l) ready = Some (a', m, inverse)
    /\ forall g s0, slaves ready !! g = Some s0 ->
         exists s, slaves a' !! g = Some s /\ slave_total s = slave_total s0
           /\ forall k, wf_resource k -> 0 <= amount_held (available s) k /\ amount_held (available s) k + offered_on m g k = amount_held (available s0) k.
Proof. apply (round_conserves plain_options (fun _ l => l) (fun _ l => l) setup ready); [done|apply setup_permitted|apply ready_reached|by vm_compute]. Defined.

Lemma round_within_limits_witness :
  exists a' m inverse, generateOffers_run plain_options (fun _ l => l) (fun _ l => l) ready = Some (a', m, inverse) /\ offered_quota m "a" "cpus" <= 2000.
Proof.
  destruct (round_within_limits plain_options (fun _ l => l) (fun _ l => l) setup ready) as (a' & m & inverse & E & H); [done|apply setup_permitted|apply ready_reached|by vm_compute|].
  exists a', m, inverse. split; [done|].
  assert (Hr : exists r, roleTree ready !! ["a"%string] = Some r /\ limits_get (q_limits (quota_ r)) "cpus" = Some 2000
    /\ Quantities.get (quotaOfferedOrConsumed r) "cpus" = 0) by (eexists; split; [vm_compute; reflexivity|split; by vm_compute]).
  destruct Hr as (r & E1 & E2 & E3). destruct (H _ r _ _ E1 E2) as [H' _]. rewrite E3 in H'. cbn zeta in H'. lia.
Defined.

(** Of the guarantee of one cpu nothing remains, and two cpus are left. *)
Lemma round_leaves_guarantees_witness :
  exists a' m inverse, generateOffers_run plain_options (fun _ l => l) (fun _ l => l) ready = Some (a', m, inverse)
    /\ forall n, Quantities.get [("cpus"%string, 4000)] n <= free (slaves ready) n
         /\ unsatisfied (roleTree ready) m n - free (slaves a') n <= Z.max 0 (unsatisfied (roleTree ready) ∅ n - Quantities.get [("cpus"%string, 4000)] n).
Proof.
  destruct (round_leaves_guarantees plain_options (fun _ l => l) (fun _ l => l) setup ready) as (h & a' & m & inverse & Eh & E & H);
    [done|apply setup_permitted|apply ready_reached|by vm_compute|].
  assert (Eh' : initial_headroom ready = Some [("cpus"%string, 4000)]) by (vm_compute; reflexivity). rewrite Eh' in Eh. injection Eh as <-.
  exists a', m, inverse. split; [exact E|exact H].
Defined.
