(* ===== verification/OfferGaps.v ===== *)
(** * Where the allocator does not do what it means to

    Concrete runs of the model of [Allocator.v] and [OfferCycle.v] with the DRF
    sorter, each of which shows a behaviour outside the hypotheses of
    [OfferPromises.v]. *)

From stdpp Require Import base gmap strings list.
From Stdlib Require Import ZArith QArith.
From S2P Require Import Prelude Strings Roles Ranges Scalar Values Quantities Registry Resource Resources ResourceOps Conversions Attributes Quota SorterTree DrfSorter SorterAccounts RoleTree RoleLedger Shrink Allocator OfferCycle OfferSafety OfferPromises.
Local Open Scope Z_scope.

Definition one_agent (total : Resources) : event := OnAddSlave "s" (plain_agent "s") all_slave_capabilities None total.

(** The offers of a round after some events. *)
Definition offers_after (l : list event) : option offers :=
  a ← happen_all plain_options l (new_allocator (RS := Sorter) (FS := Sorter) plain_options);
  '(_, m, _) ← generateOffers_run plain_options (fun _ l => l) (fun _ l => l) a;
  Some m.

(** A framework that revives while it is deactivated is active in the sorters
    again, and the next round for a role with a guarantee fails
    [CHECK(framework.active)]. *)
Theorem revive_while_deactivated :
  let l := [OnAddFramework "f" (plain_framework "a"); OnUpdateQuota "a" half_quota; OnDeactivateFramework "f";
            one_agent [as_element (cpus_resource 4000)]] in
  offers_after l = Some ∅ /\ offers_after (l ++ [OnReviveOffers "f" ∅]) = None.
Proof. by vm_compute. Qed.

(** The limit of a role does not bind its subroles: with a limit of one cpu for
    "a", the framework in "a/b" is offered all four of an agent. *)
Theorem subrole_ignores_limit :
  (fun m => offered_quota m "a/b" "cpus")
    <$> offers_after [OnUpdateQuota "a" (mkQuota [] [("cpus"%string, 1000)]); OnAddFramework "f" (plain_framework "a/b");
                      one_agent [as_element (cpus_resource 4000)]]
  = Some 4000.
Proof. by vm_compute. Qed.

(** A shared volume of the role "a". *)
Definition shared_volume : Resource :=
  mkResource "disk" (VScalar 1000) None [mkReservation (Some DYNAMIC) (Some "a"%string) None None]
    (Some (mkDiskInfo (Some ("p"%string, None)) None None)) false true None.

(** A shared resource is offered twice in one round. *)
Theorem shared_offered_twice :
  (fun m : offers => (ptotal "disk" PScalar (default [] (m !! ("f", "a", "s")%string)), ptotal "disk" PScalar (default [] (m !! ("g", "a", "s")%string))))
    <$> offers_after [OnAddFramework "f" (plain_framework "a"); OnAddFramework "g" (plain_framework "a");
                      one_agent [as_element (cpus_resource 1000); mkResource_ shared_volume (Some 1)]]
  = Some (1000, 1000).
Proof. by vm_compute. Qed.

(** What is in use on a resource provider cannot be recovered as allocated. *)
Theorem provider_resources_stuck :
  let used : Resources := allocate "a" [as_element (cpus_resource 1000)] in
  let provided : option (Allocator Sorter Sorter) :=
    a ← happen_all plain_options [OnAddFramework "f" (plain_framework "a"); one_agent []] (new_allocator plain_options);
    addResourceProvider plain_options "s" [as_element (cpus_resource 2000)] {[ "f"%string := used ]} a in
  (fun a => (bool_decide (is_Some (recoverResources "f" "s" used None false a)), bool_decide (is_Some (recoverResources "f" "s" used None true a))))
    <$> provided = Some (true, false).
Proof. by vm_compute. Qed.
